(* ===== verification/_CoqProject ===== *)
-Q . S2P
Prelude.v
Identity.v
ClientLifecycle.v
ByteAllocator.v
Segment.v
SegmentPool.v
PoolView.v
Placement.v
TenantQuota.v
Replica.v
ObjectTypes.v
TenantRegistry.v
TenantSteps.v
CatalogState.v
CatalogBooks.v
CatalogWrite.v
CatalogCollector.v
CatalogInv.v
CatalogOps.v
CatalogSteps.v
CatalogGuard.v
CatalogSlots.v
CatalogWorld.v
CatalogCharges.v
CatalogStaged.v
CatalogProps.v
CatalogProtect.v
CatalogLife.v
CatalogWitness.v
CatalogResources.v
Eviction.v
ObjectManager.v
ManagerWorld.v
ManagerProps.v
TenantManager.v
TenantWorld.v
TenantInv.v
ManagerNumbers.v
TenantCalls.v
TenantAnswers.v
TenantProps.v
TenantRace.v
GracefulUnmount.v
ClientManager.v
ClientViews.v
ClientPool.v
ClientSessions.v
ClientWorld.v
ClientMount.v
ClientUnmount.v
ClientCleanup.v
ClientSteps.v
ClientProps.v
RpcRequest.v
MasterBackend.v
MasterService.v
MasterWorld.v
MasterRuns.v
MasterServe.v
MasterProps.v
Wire.v
Protocol.v
StructPack.v
StructPackLaws.v
StructPackProps.v
RpcCall.v
RpcProps.v
ThriftParse.v
ThriftProps.v
Codegen.v
GeneratedTypes.v
CodegenFacts.v
CodegenTypes.v
CodegenTotal.v
GeneratedService.v
CodegenProps.v
ServerConnection.v
ServerConnectionProps.v
ClientConnection.v
ClientConnectionProps.v
