(* ===== verification/Prelude.v ===== *)
(** * Cakemaster: a verification development

    Cakemaster is the master service of a distributed object cache, written in
    Rust.  Clients lend it segments of their memory; it places the replicas of
    objects in those segments and tells clients where to write and read them.
    This development translates the program into definitions, one for each
    function that decides something, and proves what makes them correct.

    ** The program and its model

    The parts, from the bottom up, with the files that model them and the
    theorems they lead to.

    - Segments ([src/src/segment/]).  [Identity] has the identifiers, [Segment]
      the registrations and their validation.  [ByteAllocator] is the adapter
      [offset_allocator.rs] over the external offset allocator.  [SegmentPool] is
      [pool.rs] with [pool/entry.rs], [pool/catalog.rs], [reservation.rs] and
      [lifetime.rs]: an [Arc<SegmentEntry>] is an address in [entries], so that
      reservations outlive the mount of their segment.  [PoolView] shows that the
      pool implements a map of mounted segments ([pool_refines_mounts]).
      [Placement] is the ranking of segments and the reservation of replicas over
      distinct failure domains ([placement_sound]).

    - Objects ([src/src/object/]).  [ObjectTypes] and [Replica] have the values.
      [CatalogState], [CatalogWrite] and [CatalogCollector] are the catalog
      ([catalog.rs], [catalog/version.rs], [write.rs], [read.rs],
      [collector.rs]): slots, versions, write transactions, leases, pins, the
      eviction queues and reclamation.  [Eviction] is the watermark controller
      [eviction.rs], [ObjectManager] the manager [manager.rs], which joins the
      catalog and the segment pool.

    - Tenants ([src/src/object/tenant/]).  [TenantQuota] has the accounts, guards
      and charges of [quota.rs] and the distribution of the capacity;
      [TenantRegistry] is [registry.rs]; [TenantManager] the facade [manager.rs].
      [TenantRace] models admissions and administration of one tenant at the
      grain of single atomic accesses.

    - Clients ([src/src/client/]).  [ClientLifecycle] is the registry of sessions
      [lifecycle.rs], [GracefulUnmount] the queue of deferred unmounts and
      [ClientManager] the client manager, both of [manager.rs]: it mounts the
      segments of sessions in the pool and cleans up after sessions that end.

    - Remote procedure calls ([src/crates/coro-rpc/src/]).  [Wire] and [Protocol]
      are the frames of [protocol.rs], [StructPack] the serialization
      [struct_pack.rs], [RpcCall] methods, handlers and both ends of a call
      ([method.rs], [error.rs], [server.rs], [client.rs]), [ServerConnection] and
      [ClientConnection] one poll of the two connection drivers.

    - The service of the master ([src/src/server/]).  [RpcRequest] has the types
      of its interface definition and the conversions of requests and of errors
      ([rpc/request.rs], [rpc/response.rs]), [MasterBackend] the backends with
      one tenant and with many ([rpc/single_tenant.rs], [rpc/multi_tenant.rs])
      behind the interface [ObjectBatchBackend], [MasterService] the handlers of
      [rpc/mod.rs] and the rounds of the reconciler.

    - The code generator ([src/crates/coro-rpc-codegen/src/]), which makes clients
      and servers from an interface definition.  [ThriftParse] has the document
      and the lowering of the syntax tree to it ([ast.rs]), [Codegen] the checks,
      the type literals and the generated items ([generate.rs]), as data.
      [GeneratedTypes] gives the generated types their [StructPack]
      implementations, [GeneratedService] gives the generated clients and servers
      their meaning in terms of [RpcCall]: variables, constants and types are
      looked up by name, and what the compiler would refuse has no meaning.

    ** Conventions

    Machine integers are [N] with their width written out where it matters:
    [checked_add], [saturating_sub], [wrapping_add] and the like of this file are
    Rust's operations on 64 bits.  Rust's [Result] is [res], whose third
    constructor [Panic] is a failed [expect], [assert!] or index, so that the
    absence of panics is a theorem.  State is passed explicitly: an operation
    takes a record and returns its answer with the record afterwards, also when
    the answer is an error.  Shared objects ([Arc]) are addresses in a store.
    What runs under a lock is one step.  Time, the contents of a regular
    expression, the answers of a transport, and whether the collector's gate is
    taken are arguments, for which the theorems quantify.

    Code outside the repository is a parameter.  The offset allocator is the
    class [Upstream] with the laws [UpstreamLaws] (ranges are in bounds and
    disjoint, freeing makes them available); [Bump] in [ByteAllocator] is an
    instance, on which the witnesses run.  MD5 is a function argument.  The case
    conversion and the identifier parser of the code generator are the class
    [Toolchain] with the laws [ToolchainLaws], of which [CodegenProps] has an
    instance; the grammar of interface definitions is an arbitrary syntax tree.

    ** What is proved

    The operations of a part are the steps of a world: the state together with
    what callers hold of it (reservations, write claims, version handles,
    admission guards).  Reachable states are those that sequences of steps lead
    to; theorems hold in every one, so for every interleaving of calls.

    - Memory: live reservations are disjoint and in bounds ([alloc_run_safe],
      [replicas_never_share]); the bytes in use are exactly those of the replicas
      and of puts in progress ([memory_accounted]); batched release is release
      one by one ([release_batch_equiv], a theorem of [ByteAllocator]).
    - Catalog: [CatalogInv] and [CatalogOps] prove the structural invariant,
      [CatalogSteps] the collector as a step relation, [CatalogSlots] the state
      machine of a slot ([slot_machine]), [CatalogWorld] and [CatalogProps] the
      statistics ([stats_exact]) and the refinement to a map from keys to
      published versions ([catalog_refines_map]); [CatalogGuard],
      [CatalogProtect], [CatalogLife] and [CatalogResources] leases, pins,
      ownership and reclamation ([protected_stays_published],
      [version_ownership], [reclaim_drains]).
    - Object manager: [ManagerWorld] and [ManagerProps]: its calls are sequences
      of catalog calls ([manager_refines_catalog]), what was put is what is read
      ([put_get_round_trip]), memory that was read under a lease stays
      ([leased_memory_stays]).  [ManagerNumbers] bounds the numbers in its
      answers.
    - Tenants: [CatalogBooks] and [CatalogCharges] reduce the accounting of the
      catalog to a small machine; [TenantSteps], [TenantWorld], [TenantInv],
      [TenantCalls] and [TenantProps] prove exact accounts
      ([tenant_accounts_exact]), shares within the capacity
      ([tenant_shares_fit], [distribute_fair]), fenced handles
      ([deleted_tenant_fenced]) and that every call is a sequence of steps
      ([tenant_calls_refine]); [TenantAnswers] has their answers.  [TenantRace] proves admissions and deletions safe
      under interleaving ([admissions_linearize]), and has a run of a memory with
      views in which they are not.
    - Clients: [ClientViews], [ClientPool], [ClientSessions], [ClientWorld],
      [ClientMount], [ClientUnmount], [ClientCleanup], [ClientSteps] and
      [ClientProps]: registry, pool, slots, unmount queue and catalog agree
      ([client_resources_consistent]), mounting is atomic ([mount_atomic]) except
      for remounts of foreign segments ([foreign_remount_leaves_segment]),
      cleanups and due unmounts complete ([cleanup_ends_sessions],
      [graceful_unmounts_complete]).
    - Calls: values and frames survive the wire ([struct_pack_round_trip],
      [streams_round_trip]), damaged messages are rejected
      ([damaged_messages_rejected]), a call runs the registered function
      ([remote_call_runs_function]), no request is answered twice and all are
      answered when a connection closes normally
      ([every_request_answered_once]) and polls are bounded
      ([server_poll_bounded]).
    - Master: [MasterWorld], [MasterRuns], [MasterServe] and [MasterProps]: every
      request and every round of the reconciler is a sequence of calls of the
      parts, with the answer they give ([requests_refine]), and sessions,
      segments, memory and tenants stay consistent with each other
      ([master_consistent]).
    - Code generator: lowering returns well-formed documents
      ([documents_well_formed], in [ThriftProps]).  [CodegenFacts] proves that the
      recursion over definitions ends ([generator_terminates]) and what the
      checks establish, [CodegenTotal] that accepted documents are generated with
      distinct names, apart from those of the descriptor constants
      ([accepted_documents_generate]),
      [CodegenTypes] that the generated types have the literals that the
      generator hashes ([descriptors_exact]); the services, where their code
      compiles and once registered on a server, answer the generated clients
      ([generated_services_run]).

    ** Bounds and fuel

    Recursion that is not structural takes fuel, with a lemma that what the code
    passes is enough.  The allocator's quantum loop has 64 rounds, one for each
    bit of a capacity; grouped release and frame draining have the length of
    their input; collector loops have the budget the code passes, or the length
    of the queue they visit.  The polls of the connection drivers have a measure
    of the pending work as fuel, and a theorem that it does not run out.
    Placement retries have the bound of the eviction policy.  The type literals
    of the code generator have the number of definitions as depth ([max_depth]),
    and more changes nothing; the trimming of text has its length as rounds.
    The theorems on the calls of tenants and on requests ([tenant_calls_refine],
    [requests_refine]) assume that the sizes of the mounted segments, plus the
    bytes still held of segments no longer mounted, fit 64 bits ([memory_fits]),
    and that the catalog has slot numbers left.
    Names in the errors of generated types are at most [NAME_LIMIT] bytes long,
    1 MiB, so that a failure fits a frame.

    ** Not modelled

    The grammar of interface definitions, the reading of the file and the
    formatting and writing of the generated Rust
    ([src/crates/coro-rpc-codegen/src/lib.rs]) are other crates and files.  The
    generated code is modelled by what it does; whether the Rust compiler
    accepts it is not, beyond the names and types of its items, constants and
    variables.  Start-up, signal handling, configuration from the command line
    and the wiring of the runtime ([src/src/main.rs],
    [src/src/server/runtime.rs]), logging ([src/src/logging.rs],
    [server/rpc/observability.rs]) and the accept loop of the RPC server are
    input and output around the parts above.  The task queue of a client
    ([src/src/server/client_task_queue.rs]) hands every call to a channel of
    the asynchronous runtime.  The benchmarks ([src/src/bin/]) are clients of
    the program.  Wake-ups and time-outs of the asynchronous runtime are not
    modelled: the theorems on polls and rounds say what one of them does, not
    when it runs. *)
From Stdlib Require Export NArith ZArith Lia Sorting.Sorted.
From stdpp Require Export base tactics numbers list option gmap sets strings.

(** ** Scope and notations *)

Declare Scope cake_scope.
Delimit Scope cake_scope with cake.
Open Scope N_scope.

(** ** Outcomes of fallible code

    [Ok] and [Err] are the constructors of Rust's [Result]; [Panic] is a failed
    [expect], [assert!] or unchecked index, kept apart from errors so that its
    absence is a theorem. *)
Inductive res (E A : Type) : Type :=
| Ok (a : A)
| Err (e : E)
| Panic.
Arguments Ok {E A} _.
Arguments Err {E A} _.
Arguments Panic {E A}.

Definition res_bind {E A B} (f : A → res E B) (m : res E A) : res E B :=
  match m with
  | Ok a => f a
  | Err e => Err e
  | Panic => Panic
  end.

Definition res_map_err {E F A} (f : E → F) (m : res E A) : res F A :=
  match m with
  | Ok a => Ok a
  | Err e => Err (f e)
  | Panic => Panic
  end.

Definition res_map {E A B} (f : A → B) (m : res E A) : res E B :=
  match m with
  | Ok a => Ok (f a)
  | Err e => Err e
  | Panic => Panic
  end.

(** [ok_or]: the conversion of an [Option] to a [Result]. *)
Definition ok_or {E A} (e : E) (o : option A) : res E A :=
  match o with
  | Some a => Ok a
  | None => Err e
  end.

(** [expect]: [None] panics. *)
Definition expect {E A} (o : option A) : res E A :=
  match o with
  | Some a => Ok a
  | None => Panic
  end.

Definition is_ok {E A} (m : res E A) : bool :=
  match m with
  | Ok _ => true
  | _ => false
  end.

Notation "'let?' x := m 'in' k" := (res_bind (fun x => k) m)
  (at level 10, x pattern, m at level 100, k at level 200) : cake_scope.
Open Scope cake_scope.

(** [collect] of a list of results: the first error, or all values. *)
Fixpoint collect_results {E X Y} (f : X → res E Y) (l : list X) : res E (list Y) :=
  match l with
  | [] => Ok []
  | x :: l' =>
      let? y := f x in
      let? ys := collect_results f l' in
      Ok (y :: ys)
  end.

(** A loop over [l] that updates [s] and returns at the first error. *)
Fixpoint try_fold {E S X} (f : S → X → res E S) (s : S) (l : list X) : res E S :=
  match l with
  | [] => Ok s
  | x :: l' => let? s' := f s x in try_fold f s' l'
  end.

(** A loop of checks. *)
Definition each_ok {E X} (f : X → res E unit) : list X → res E unit := try_fold (fun _ => f) tt.

(** ** Text

    A [str] is its UTF-8 bytes. *)
Definition text (s : string) : list N := map Ascii.N_of_ascii (String.list_ascii_of_string s).
Definition of_text (l : list N) : string := String.string_of_list_ascii (map Ascii.ascii_of_N l).

(** ** Machine integers

    [u64], [u32] and [usize] (64 bits) are natural numbers; the operations of
    the source that can leave the width are written with the source's own
    overflow behaviour. *)
Definition U64_MAX : N := 18446744073709551615.
Definition U32_MAX : N := 4294967295.
Definition U64_MOD : N := 18446744073709551616.

Definition checked_add (a b : N) : option N :=
  if a + b <=? U64_MAX then Some (a + b) else None.

Definition checked_mul (a b : N) : option N :=
  if a * b <=? U64_MAX then Some (a * b) else None.

Definition checked_sub (a b : N) : option N :=
  if b <=? a then Some (a - b) else None.

Definition saturating_add (a b : N) : N := N.min (a + b) U64_MAX.
Definition saturating_mul (a b : N) : N := N.min (a * b) U64_MAX.
Definition saturating_sub (a b : N) : N := a - b.
Definition wrapping_add (a b : N) : N := (a + b) mod U64_MOD.

(** ** Orders on machine keys

    Every [Ord] the source derives is lexicographic on unsigned fields, so a
    key is the list of them. *)
Fixpoint lex_leb (a b : list N) : bool :=
  match a, b with
  | [], _ => true
  | _ :: _, [] => false
  | x :: a', y :: b' =>
      if x <? y then true else if y <? x then false else lex_leb a' b'
  end.

(** A [BinaryHeap<Reverse<T>>] as the ascending list of its elements: [peek]
    is [head], [pop] is [tail] and [push] is this sorted insertion.  The order
    of the source is total on all fields, so the list determines every
    observation of the heap. *)
Fixpoint pq_push {A} (key : A → list N) (x : A) (q : list A) : list A :=
  match q with
  | [] => [x]
  | y :: q' =>
      if lex_leb (key x) (key y) then x :: q else y :: pq_push key x q'
  end.

(** [sort_by_key] on a vector. *)
Definition sort_by_key {A} (key : A → list N) (l : list A) : list A :=
  foldr (pq_push key) [] l.

Definition key_sorted {A} (key : A → list N) (q : list A) : Prop :=
  StronglySorted (fun x y => lex_leb (key x) (key y) = true) q.

(** Sum of a measure over a list, the shape of every byte counter. *)
Definition sum_by {A} (f : A → N) (l : list A) : N :=
  foldr (fun x acc => f x + acc) 0 l.
Arguments sum_by {A} f l : simpl never.

(** ** Tactics *)

(** Case analysis on the scrutinee of a [match] or [if] of the goal or of a
    hypothesis, keeping the equation. *)
Ltac case_match_eqn :=
  match goal with
  | |- context [ match ?x with _ => _ end ] => destruct x eqn:?
  | H : context [ match ?x with _ => _ end ] |- _ => destruct x eqn:?
  end.

(** Reads every boolean comparison of the context as an arithmetic fact. *)
Ltac bool_to_prop :=
  repeat match goal with
  | H : (_ <=? _)%N = true |- _ => apply N.leb_le in H
  | H : (_ <=? _)%N = false |- _ => apply N.leb_gt in H
  | H : (_ <? _)%N = true |- _ => apply N.ltb_lt in H
  | H : (_ <? _)%N = false |- _ => apply N.ltb_ge in H
  | H : (_ =? _)%N = true |- _ => apply N.eqb_eq in H
  | H : (_ =? _)%N = false |- _ => apply N.eqb_neq in H
  | H : (_ && _)%bool = true |- _ => apply andb_true_iff in H as [? ?]
  | H : (_ || _)%bool = false |- _ => apply orb_false_iff in H as [? ?]
  | H : negb _ = true |- _ => apply negb_true_iff in H
  | H : negb _ = false |- _ => apply negb_false_iff in H
  | H : bool_decide _ = true |- _ => apply bool_decide_eq_true in H
  | H : bool_decide _ = false |- _ => apply bool_decide_eq_false in H
  end.

Ltac u64 :=
  unfold saturating_add, saturating_mul, saturating_sub, wrapping_add,
    checked_add, checked_mul, checked_sub, U64_MAX, U32_MAX, U64_MOD in *;
  try lia.

(** ** Loops with errors *)

Lemma collect_results_Ok {E X Y} (f : X → res E Y) l ys :
  collect_results f l = Ok ys ↔ Forall2 (fun x y => f x = Ok y) l ys.
Proof.
  split.
  - revert ys. induction l as [|x l IH]; simpl; intros ys; [by intros [= <-]; constructor|].
    destruct (f x) as [y| |] eqn:Hx; simpl; [|done..].
    destruct (collect_results f l) as [ys'| |]; simpl; [|done..]. intros [= <-]. by constructor; auto.
  - induction 1 as [|x y l ys Hx _ IH]; [done|]. simpl. by rewrite Hx, IH.
Qed.

Lemma collect_total {E X Y} (f : X → res E Y) l : Forall (fun x => f x ≠ Panic) l → collect_results f l ≠ Panic.
Proof.
  induction 1 as [|x l Hx _ IH]; simpl; [done|]. destruct (f x); [|done|done]. simpl.
  by destruct (collect_results f l).
Qed.

Lemma try_fold_app {E S X} (f : S → X → res E S) s l k :
  try_fold f s (l ++ k) = let? s' := try_fold f s l in try_fold f s' k.
Proof. revert s. induction l as [|x l IH]; intros s; simpl; [done|]. by destruct (f s x); simpl. Qed.

(** What every successful round establishes of its element, given what the
    rounds before left, holds of all of them. *)
Lemma try_fold_inv {E S X} (f : S → X → res E S) (I : S → list X → Prop) s l s' :
  (∀ s1 done x s2, I s1 done → f s1 x = Ok s2 → I s2 (done ++ [x])) →
  I s [] → try_fold f s l = Ok s' → I s' l.
Proof.
  intros Hstep H0. assert (∀ k s1, I s1 k → try_fold f s1 l = Ok s' → I s' (k ++ l)) as Hgen.
  { induction l as [|x l IH]; simpl; intros k s1 Hk; [intros [= <-]; by rewrite app_nil_r|].
    destruct (f s1 x) as [s2| |] eqn:Hx; simpl; [|done..]. intros Hf.
    rewrite cons_middle, app_assoc. eapply IH; [|exact Hf]. by eapply Hstep. }
  by apply (Hgen []).
Qed.

Lemma each_ok_Ok {E X} (f : X → res E unit) l : each_ok f l = Ok tt ↔ Forall (fun x => f x = Ok tt) l.
Proof.
  unfold each_ok. induction l as [|x l IH]; simpl; [by split|]. rewrite Forall_cons, <- IH.
  destruct (f x) as [[]| |]; simpl; naive_solver.
Qed.

Lemma res_map_Ok {E A B} (f : A → B) (m : res E A) y : res_map f m = Ok y ↔ ∃ x, m = Ok x ∧ y = f x.
Proof. destruct m; simpl; naive_solver. Qed.

Lemma res_bind_Ok {E A B} (f : A → res E B) m y : res_bind f m = Ok y ↔ ∃ x, m = Ok x ∧ f x = Ok y.
Proof. destruct m; simpl; naive_solver. Qed.

Lemma res_map_Panic {E A B} (f : A → B) (m : res E A) : res_map f m = Panic ↔ m = Panic.
Proof. by destruct m. Qed.

Lemma collect_ext {E X Y} (f g : X → res E Y) l :
  Forall (fun x => f x = g x) l → collect_results f l = collect_results g l.
Proof. induction 1 as [|x l Hx _ IH]; simpl; [done|]. by rewrite Hx, IH. Qed.

Lemma Forall2_elem_l {A B} (P : A → B → Prop) l k x : Forall2 P l k → x ∈ l → ∃ y, y ∈ k ∧ P x y.
Proof.
  induction 1 as [|a b l k Hp _ IH]; [by intros ?%elem_of_nil|]. intros [->|Hx]%elem_of_cons; [set_solver|].
  destruct (IH Hx) as (y & ? & ?). exists y. set_solver.
Qed.

Lemma Forall2_elem_r {A B} (P : A → B → Prop) l k y : Forall2 P l k → y ∈ k → ∃ x, x ∈ l ∧ P x y.
Proof. intros Hl%Forall2_flip Hy. by apply (Forall2_elem_l _ _ _ _ Hl Hy). Qed.

Lemma collect_all {E X Y} (f : X → res E Y) l :
  (∀ x, x ∈ l → ∃ y, f x = Ok y) → ∃ ys, collect_results f l = Ok ys.
Proof.
  induction l as [|x l IH]; intros Hf; [by exists []|]. simpl. destruct (Hf x) as [y ->]; [by left|]. simpl.
  destruct IH as [ys ->]; [intros z Hz; apply Hf; by right|]. by eexists.
Qed.

(** [inv_ok H] opens the binds of a successful computation. *)
Ltac inv_ok H :=
  lazymatch type of H with
  | res_bind _ _ = Ok _ =>
      let y := fresh "y" in let Hy := fresh "Hy" in
      apply res_bind_Ok in H as (y & Hy & H); inv_ok Hy; inv_ok H
  | res_map _ _ = Ok _ => let y := fresh "y" in apply res_map_Ok in H as (y & H & ->); inv_ok H
  | Ok _ = Ok _ => injection H as H; subst
  | _ => idtac
  end.

(** ** Text *)

Lemma of_text_text s : of_text (text s) = s.
Proof.
  unfold of_text, text. rewrite map_map. rewrite (map_ext _ id) by apply Ascii.ascii_N_embedding.
  rewrite map_id. apply String.string_of_list_ascii_of_string.
Qed.

Lemma text_of_text l : Forall (fun c => c < 256) l → text (of_text l) = l.
Proof.
  intros Hl. unfold of_text, text. rewrite String.list_ascii_of_string_of_list_ascii, map_map.
  induction Hl as [|c l Hc _ IH]; [done|]. simpl. by rewrite IH, Ascii.N_ascii_embedding.
Qed.

Lemma text_codes s : Forall (fun c => c < 256) (text s).
Proof. unfold text. apply Forall_fmap, Forall_true. intros c. apply Ascii.N_ascii_bounded. Qed.

Lemma text_app s t : text (s +:+ t) = text s ++ text t.
Proof. unfold text. induction s as [|c s IH]; simpl; [done|]. by rewrite IH. Qed.

(** ** Steps that do not panic *)

Create HintDb total.

Lemma total_bind {E A B} (f : A → res E B) m : m ≠ Panic → (∀ x, f x ≠ Panic) → res_bind f m ≠ Panic.
Proof. destruct m; simpl; auto. Qed.
Lemma total_map {E A B} (f : A → B) (m : res E A) : m ≠ Panic → res_map f m ≠ Panic.
Proof. by rewrite res_map_Panic. Qed.
Lemma total_fold {E S X} (f : S → X → res E S) l : (∀ s x, f s x ≠ Panic) → ∀ s, try_fold f s l ≠ Panic.
Proof. intros Hf. induction l as [|x l IH]; intros s; simpl; [done|]. by apply total_bind. Qed.
Lemma total_each {E X} (f : X → res E unit) l : (∀ x, f x ≠ Panic) → each_ok f l ≠ Panic.
Proof. intros Hf. by apply total_fold. Qed.
Lemma total_ok {E A} (x : A) : @Ok E A x ≠ Panic.
Proof. done. Qed.
#[export] Hint Resolve total_ok : total.

(** [total] walks through binds, loops and conditions. *)
Ltac total :=
  repeat first
    [ solve [eauto with total]
    | apply total_bind; [|intros ?]
    | apply total_map
    | apply total_each; intros ?
    | apply total_fold; intros ? ?
    | progress cbv zeta
    | match goal with
      | |- (if ?b then _ else _) ≠ Panic => destruct b
      | |- (match ?x with _ => _ end) ≠ Panic => destruct x
      end ].

(** ** Lemmas on machine integers *)

Lemma checked_add_Some a b c :
  checked_add a b = Some c ↔ c = a + b ∧ a + b <= U64_MAX.
Proof.
  unfold checked_add. destruct (N.leb_spec (a + b) U64_MAX); split.
  - intros [= <-]. auto.
  - intros [-> _]. auto.
  - discriminate.
  - intros [_ ?]. lia.
Qed.

Lemma checked_add_None a b : checked_add a b = None ↔ U64_MAX < a + b.
Proof.
  unfold checked_add.
  destruct (N.leb_spec (a + b) U64_MAX); split; try done; lia.
Qed.

Lemma checked_sub_Some a b c :
  checked_sub a b = Some c ↔ c = a - b ∧ b <= a.
Proof.
  unfold checked_sub. destruct (N.leb_spec b a); split.
  - intros [= <-]. auto.
  - intros [-> _]. auto.
  - discriminate.
  - intros [_ ?]. lia.
Qed.

Lemma saturating_add_le_max a b : saturating_add a b <= U64_MAX.
Proof. u64. Qed.

Lemma saturating_add_exact a b :
  a + b <= U64_MAX → saturating_add a b = a + b.
Proof. u64. Qed.

Lemma saturating_add_ge_l a b : a <= U64_MAX → a <= saturating_add a b.
Proof. u64. Qed.

Lemma wrapping_add_small a b : a + b <= U64_MAX → wrapping_add a b = a + b.
Proof. intros H. unfold wrapping_add. apply N.mod_small. u64. Qed.

(** A field below bit [k] and a field shifted above it do not interact. *)
Lemma lor_shiftl_add hi lo k :
  lo < 2 ^ k → N.lor (N.shiftl hi k) lo = hi * 2 ^ k + lo.
Proof.
  intros Hlo.
  assert (N.land (N.shiftl hi k) lo = 0) as Hdisj.
  { apply N.bits_inj_0. intros n. rewrite N.land_spec.
    destruct (N.ltb_spec n k); [by rewrite N.shiftl_spec_low|].
    destruct (N.eq_0_gt_0_cases lo) as [->|?].
    { by rewrite N.bits_0, andb_false_r. }
    rewrite (N.bits_above_log2 lo), andb_false_r; [done|].
    apply N.log2_lt_pow2; [done|].
    eapply N.lt_le_trans; [done|]. apply N.pow_le_mono_r; lia. }
  rewrite <- N.lxor_lor, <- N.add_nocarry_lxor by done.
  by rewrite N.shiftl_mul_pow2.
Qed.

(** ** Lemmas on lexicographic keys *)

Lemma lex_leb_refl a : lex_leb a a = true.
Proof.
  induction a as [|x a IH]; simpl; [done|].
  rewrite N.ltb_irrefl. done.
Qed.

Lemma lex_leb_total a : ∀ b, lex_leb a b = true ∨ lex_leb b a = true.
Proof.
  induction a as [|x a IH]; intros [|y b]; simpl; auto.
  destruct (N.ltb_spec x y), (N.ltb_spec y x); auto.
Qed.

Lemma lex_leb_trans a : ∀ b c,
  lex_leb a b = true → lex_leb b c = true → lex_leb a c = true.
Proof.
  induction a as [|x a IH]; intros [|y b] [|z c]; simpl; try done.
  destruct (N.ltb_spec x y), (N.ltb_spec y x), (N.ltb_spec y z),
    (N.ltb_spec z y), (N.ltb_spec x z), (N.ltb_spec z x);
    try done; try lia; eauto.
Qed.

Lemma lex_leb_antisym a : ∀ b,
  lex_leb a b = true → lex_leb b a = true → a = b.
Proof.
  induction a as [|x a IH]; intros [|y b]; simpl; try done.
  destruct (N.ltb_spec x y), (N.ltb_spec y x); try done; try lia.
  intros. f_equal; [lia|auto].
Qed.

Lemma lex_leb_head x y a b : lex_leb (x :: a) (y :: b) = true → x <= y.
Proof. simpl. destruct (N.ltb_spec x y), (N.ltb_spec y x); try done; lia. Qed.

(** ** Lemmas on the priority queue *)

Section PriorityQueue.
Context {A : Type} (key : A → list N).

Lemma elem_of_pq_push x y q : x ∈ pq_push key y q ↔ x = y ∨ x ∈ q.
Proof.
  induction q as [|z q IH]; simpl; [set_solver|].
  destruct (lex_leb _ _); [set_solver|].
  rewrite !elem_of_cons, IH. tauto.
Qed.

Lemma pq_push_perm x q : pq_push key x q ≡ₚ x :: q.
Proof.
  induction q as [|z q IH]; simpl; [done|].
  destruct (lex_leb _ _); [done|]. rewrite IH. apply Permutation_swap.
Qed.

Lemma length_pq_push x q : length (pq_push key x q) = S (length q).
Proof. by rewrite pq_push_perm. Qed.

Lemma pq_push_sorted x q : key_sorted key q → key_sorted key (pq_push key x q).
Proof.
  unfold key_sorted. induction 1 as [|y q Hs IH Hy]; simpl.
  { repeat constructor. }
  destruct (lex_leb (key x) (key y)) eqn:Hxy.
  - repeat constructor; auto.
    eapply Forall_impl; [exact Hy|]. intros z. by apply lex_leb_trans.
  - constructor; [done|].
    rewrite pq_push_perm. constructor; [|done].
    destruct (lex_leb_total (key x) (key y)); congruence.
Qed.

Lemma pq_tail_sorted x q : key_sorted key (x :: q) → key_sorted key q.
Proof. by inversion 1. Qed.

Lemma sort_by_key_perm l : sort_by_key key l ≡ₚ l.
Proof.
  unfold sort_by_key. induction l as [|x l IH]; simpl; [done|].
  by rewrite pq_push_perm, IH.
Qed.

Lemma sort_by_key_sorted l : key_sorted key (sort_by_key key l).
Proof.
  unfold sort_by_key. induction l as [|x l IH]; simpl; [constructor|].
  by apply pq_push_sorted.
Qed.

Lemma elem_of_sort_by_key x l : x ∈ sort_by_key key l ↔ x ∈ l.
Proof. by rewrite sort_by_key_perm. Qed.
End PriorityQueue.

(** ** Lemmas on lists *)

Lemma two_elements_perm {A} (l : list A) i j x y :
  i ≠ j → l !! i = Some x → l !! j = Some y → ∃ k, l ≡ₚ x :: y :: k.
Proof.
  assert (∀ i j x y, (i < j)%nat → l !! i = Some x → l !! j = Some y →
            l ≡ₚ x :: y :: delete i (delete j l)) as Hlt.
  { intros i' j' x' y' Hij Hi Hj.
    etrans; [apply (delete_Permutation _ _ _ Hj)|].
    etrans; [apply perm_skip, (delete_Permutation (delete j' l) i' x')|apply perm_swap].
    by rewrite list_lookup_delete_lt. }
  intros Hne Hi Hj. destruct (decide (i < j)%nat); [eauto|].
  eexists. etrans; [apply (Hlt j i y x); [lia|done..]|apply perm_swap].
Qed.

Lemma filter_all {A} (P : A → Prop) `{∀ x, Decision (P x)} (l : list A) :
  (∀ x, x ∈ l → P x) → filter P l = l.
Proof.
  induction l as [|x l IH]; intros Hl; [done|].
  rewrite filter_cons_True by (apply Hl; set_solver).
  f_equal. apply IH. set_solver.
Qed.

Lemma filter_none {A} (P : A → Prop) `{∀ x, Decision (P x)} (l : list A) :
  (∀ x, x ∈ l → ¬ P x) → filter P l = [].
Proof.
  induction l as [|x l IH]; intros Hl; [done|].
  rewrite filter_cons_False by (apply Hl; set_solver). apply IH. set_solver.
Qed.

(** ** Lemmas on sums *)

Section Sums.
Context {A : Type} (f : A → N).

Lemma sum_by_app l k : sum_by f (l ++ k) = sum_by f l + sum_by f k.
Proof. unfold sum_by. induction l as [|x l IH]; simpl; lia. Qed.

Lemma sum_by_cons x l : sum_by f (x :: l) = f x + sum_by f l.
Proof. done. Qed.

Lemma sum_by_nil : sum_by f [] = 0.
Proof. done. Qed.

Global Instance sum_by_proper : Proper ((≡ₚ) ==> (=)) (sum_by f).
Proof. unfold sum_by. induction 1; simpl; lia. Qed.

Lemma sum_by_elem_le x l : x ∈ l → f x <= sum_by f l.
Proof. unfold sum_by. induction 1; simpl; lia. Qed.

Lemma sum_by_ext g l :
  (∀ x, x ∈ l → f x = g x) → sum_by f l = foldr (fun x acc => g x + acc) 0 l.
Proof.
  unfold sum_by. induction l as [|x l IH]; intros H; simpl; [done|].
  rewrite IH by set_solver. rewrite (H x) by set_solver. done.
Qed.
End Sums.

Lemma sum_by_map {X Y} (f : X → Y) (g : Y → N) l :
  sum_by g (map f l) = sum_by (fun x => g (f x)) l.
Proof. unfold sum_by. induction l; simpl; congruence. Qed.

Lemma sum_by_insert {X} (f : X → N) l i x y :
  l !! i = Some x → sum_by f (<[i := y]> l) + f x = sum_by f l + f y.
Proof.
  revert i. induction l as [|z l IH]; intros [|i] Hi; simpl in *; try done.
  - simplify_eq. rewrite !sum_by_cons. lia.
  - specialize (IH i Hi). rewrite !sum_by_cons. lia.
Qed.

Lemma sum_by_delete {X} (f : X → N) l i x :
  l !! i = Some x → sum_by f l = f x + sum_by f (delete i l).
Proof.
  intros Hi. rewrite <- sum_by_cons. by rewrite <- (delete_Permutation l i x Hi).
Qed.

Lemma sum_by_zero {X} (f : X → N) l : (∀ x, x ∈ l → f x = 0) → sum_by f l = 0.
Proof.
  intros H. induction l as [|x l IH]; [done|]. rewrite sum_by_cons, IH, H; [done|left|].
  intros y Hy. apply H. by right.
Qed.

Lemma sum_by_le {X} (f g : X → N) l : (∀ x, f x <= g x) → sum_by f l <= sum_by g l.
Proof.
  intros H. induction l as [|x l IH]; [done|]. rewrite !sum_by_cons. specialize (H x). lia.
Qed.

(** ** Hints shared by the components *)
Create HintDb cake.
Create Rewrite HintDb cake.
#[export] Hint Resolve lex_leb_refl pq_push_sorted pq_tail_sorted
  sort_by_key_sorted saturating_add_le_max : cake.
#[export] Hint Rewrite @elem_of_pq_push @length_pq_push @sum_by_app @sum_by_cons @sum_by_nil
  @elem_of_sort_by_key : cake.

(** ** Finite maps *)

Lemma alter_lookup_insert {A} (m : gmap N A) k x f :
  m !! k = Some x → alter f k m = <[k := f x]> m.
Proof.
  intros Hk. apply map_eq. intros j. destruct (decide (k = j)) as [->|Hne].
  - by rewrite lookup_alter_eq, lookup_insert_eq, Hk.
  - by rewrite lookup_alter_ne, lookup_insert_ne.
Qed.

(** ** Sums over finite maps *)

Definition msum {K A} `{Countable K} (f : K → A → N) (m : gmap K A) : N :=
  sum_by (fun kx => f kx.1 kx.2) (map_to_list m).

Section MapSums.
Context {K A : Type} `{Countable K}.
Implicit Types (m : gmap K A) (f g : K → A → N).

Lemma msum_empty f : msum f (∅ : gmap K A) = 0.
Proof. unfold msum. by rewrite map_to_list_empty. Qed.

Lemma msum_insert_new f m k x :
  m !! k = None → msum f (<[k := x]> m) = f k x + msum f m.
Proof. intros Hk. unfold msum. by rewrite map_to_list_insert by done. Qed.

Lemma msum_delete f m k x :
  m !! k = Some x → msum f m = f k x + msum f (delete k m).
Proof.
  intros Hk. rewrite <- msum_insert_new by apply lookup_delete_eq.
  by rewrite insert_delete_id.
Qed.

Lemma msum_ext f g m :
  (∀ k x, m !! k = Some x → f k x = g k x) → msum f m = msum g m.
Proof.
  intros Hfg. unfold msum. apply sum_by_ext. intros [k x] Hin. simpl.
  apply Hfg. by apply elem_of_map_to_list.
Qed.

Lemma msum_zero f m : (∀ k x, m !! k = Some x → f k x = 0) → msum f m = 0.
Proof.
  intros Hf. rewrite (msum_ext f (fun _ _ => 0) m Hf). unfold msum.
  induction (map_to_list m) as [|kx l IH]; [done|]. by rewrite sum_by_cons, IH.
Qed.

Lemma msum_elem_le f m k x : m !! k = Some x → f k x <= msum f m.
Proof. intros Hk. rewrite (msum_delete f m k x Hk). lia. Qed.

(** One entry is replaced and the measure changes only there. *)
Lemma msum_update f g m k x x' :
  m !! k = Some x → (∀ j y, j ≠ k → m !! j = Some y → g j y = f j y) →
  msum g (<[k := x']> m) + f k x = msum f m + g k x'.
Proof.
  intros Hk Hfg. rewrite <- insert_delete_eq.
  rewrite msum_insert_new by apply lookup_delete_eq.
  rewrite (msum_delete f m k x Hk), (msum_ext g f (delete k m)); [lia|].
  intros j y [? ?]%lookup_delete_Some. by apply Hfg.
Qed.

(** Only the measure changes, and only at one entry. *)
Lemma msum_change f g m k x :
  m !! k = Some x → (∀ j y, j ≠ k → m !! j = Some y → g j y = f j y) →
  msum g m + f k x = msum f m + g k x.
Proof.
  intros Hk Hfg. rewrite <- (msum_update f g m k x x Hk Hfg). by rewrite insert_id.
Qed.

Lemma msum_add f g m : msum (fun k x => f k x + g k x) m = msum f m + msum g m.
Proof.
  unfold msum. induction (map_to_list m) as [|kx l IH]; autorewrite with cake; [done|]. lia.
Qed.

Lemma msum_one m : msum (fun _ _ => 1) m = N.of_nat (size m).
Proof.
  unfold msum. rewrite <- (length_map_to_list m).
  induction (map_to_list m) as [|kx l IH]; [done|]. autorewrite with cake. simpl length. lia.
Qed.
End MapSums.
