(* ===== verification/Identity.v ===== *)
(** * Identifiers

    The 128-bit identifiers of clients and segments
    ([src/src/segment/identity.rs]), kept as two 64-bit halves, with the order
    the source derives and the conversions to and from [u128]. *)
From S2P Require Import Prelude.

Record ClientId := mkClientId { client_high : N; client_low : N }.
Record SegmentId := mkSegmentId { segment_high : N; segment_low : N }.

#[global] Instance ClientId_eq_dec : EqDecision ClientId.
Proof. solve_decision. Defined.
#[global] Instance SegmentId_eq_dec : EqDecision SegmentId.
Proof. solve_decision. Defined.

#[global] Instance ClientId_countable : Countable ClientId.
Proof.
  refine (inj_countable' (fun c => (client_high c, client_low c))
    (fun p => mkClientId p.1 p.2) _); by intros [].
Defined.
#[global] Instance SegmentId_countable : Countable SegmentId.
Proof.
  refine (inj_countable' (fun c => (segment_high c, segment_low c))
    (fun p => mkSegmentId p.1 p.2) _); by intros [].
Defined.

Definition client_is_nil (c : ClientId) : bool :=
  (client_high c =? 0) && (client_low c =? 0).
Definition segment_is_nil (s : SegmentId) : bool :=
  (segment_high s =? 0) && (segment_low s =? 0).

(** Derived [Ord]: high half first. *)
Definition client_key (c : ClientId) : list N := [client_high c; client_low c].
Definition segment_key (s : SegmentId) : list N := [segment_high s; segment_low s].

(** [From<u128>]: the shift, and the truncating cast of the low half. *)
Definition client_of_u128 (v : N) : ClientId :=
  mkClientId (N.shiftr v 64 mod U64_MOD) (v mod U64_MOD).
Definition client_to_u128 (c : ClientId) : N :=
  N.lor (N.shiftl (client_high c) 64) (client_low c).

Definition client_id_wf (c : ClientId) : Prop :=
  client_high c <= U64_MAX ∧ client_low c <= U64_MAX.

Lemma client_key_inj c d : client_key c = client_key d → c = d.
Proof. destruct c, d. by intros [= -> ->]. Qed.

Lemma segment_key_inj s t : segment_key s = segment_key t → s = t.
Proof. destruct s, t. by intros [= -> ->]. Qed.

Lemma client_to_u128_sum c :
  client_id_wf c → client_to_u128 c = client_high c * U64_MOD + client_low c.
Proof.
  intros [_ Hl]. unfold client_to_u128.
  rewrite lor_shiftl_add; [done|].
  unfold U64_MAX in Hl. change (2 ^ 64) with U64_MOD. u64.
Qed.

Lemma client_of_to_u128 c : client_id_wf c → client_of_u128 (client_to_u128 c) = c.
Proof.
  intros Hwf. rewrite client_to_u128_sum by done.
  destruct c as [h l], Hwf as [Hh Hl]; simpl in *.
  unfold client_of_u128. rewrite N.shiftr_div_pow2. change (2 ^ 64) with U64_MOD.
  rewrite N.div_add_l, N.div_small, N.add_0_r by u64.
  rewrite N.add_comm, N.Div0.mod_add, !N.mod_small by u64. done.
Qed.
