(* ===== verification/ClientLifecycle.v ===== *)
(** * Client session registry

    [src/src/client/lifecycle.rs] with its configuration and errors
    ([src/src/client/config.rs], [src/src/client/error.rs]).  All state sits
    behind one mutex, so every operation is one atomic step on
    [RegistryState]; logging is left out.  The [Arc] cell of a session guard is
    an entry of the store [guards], keyed by the session it fences: clones held
    by running writes are the same key. *)
From S2P Require Import Prelude Identity.

(** ** Data *)

Record ClientSession := mkSession { session_client : ClientId; generation : N }.

#[global] Instance ClientSession_eq_dec : EqDecision ClientSession.
Proof. solve_decision. Defined.
#[global] Instance ClientSession_countable : Countable ClientSession.
Proof.
  refine (inj_countable' (fun s => (session_client s, generation s))
    (fun p => mkSession p.1 p.2) _); by intros [].
Defined.

Inductive ClientState := Active | Draining | Expired.
Inductive ActivateOutcome :=
| Activated (s : ClientSession)
| AlreadyActive (s : ClientSession).
Inductive HeartbeatOutcome :=
| Alive (s : ClientSession)
| NeedRemount.
Inductive CleanupReason := GracefulUnmount | HeartbeatExpired | ServerShutdown.
Inductive CleanupClaimState := Ready | Queued | Running.
Inductive ClientPhase :=
| PhaseActive
| CleanupPending (reason : CleanupReason) (claim : CleanupClaimState).

Inductive ClientLifecycleConfigError :=
| ZeroTtl | ZeroMaxClients | ZeroCleanupScanBudget.
Inductive ClientLifecycleError :=
| NilClientId
| CapacityExceeded (max_clients : N)
| CleanupInProgress (state : ClientState)
| ClientNotActive
| CleanupNotStarted
| StaleSession
| GenerationExhausted.

#[global] Instance CleanupReason_eq_dec : EqDecision CleanupReason.
Proof. solve_decision. Defined.
#[global] Instance CleanupClaimState_eq_dec : EqDecision CleanupClaimState.
Proof. solve_decision. Defined.
#[global] Instance ClientPhase_eq_dec : EqDecision ClientPhase.
Proof. solve_decision. Defined.
#[global] Instance ClientState_eq_dec : EqDecision ClientState.
Proof. solve_decision. Defined.

Record ClientLifecycleConfig := mkLifecycleConfig {
  ttl_ticks : N;
  max_clients : N;
  cleanup_scan_budget : nat
}.

Definition ClientLifecycleConfig_new (max : N) : ClientLifecycleConfig :=
  mkLifecycleConfig 10000 max 256.

Definition ClientLifecycleConfig_validate (cfg : ClientLifecycleConfig)
    : res ClientLifecycleConfigError unit :=
  if ttl_ticks cfg =? 0 then Err ZeroTtl
  else if max_clients cfg =? 0 then Err ZeroMaxClients
  else if (cleanup_scan_budget cfg =? 0)%nat then Err ZeroCleanupScanBudget
  else Ok tt.

Record ClientEntry := mkEntry {
  session : ClientSession;
  guard : ClientSession;
  phase : ClientPhase;
  expires_at : N
}.

Record DeadlineRecord := mkDeadline {
  dl_expires_at : N;
  dl_client : ClientId;
  dl_generation : N
}.

(** The derived [Ord] of [DeadlineRecord]. *)
Definition deadline_key (r : DeadlineRecord) : list N :=
  dl_expires_at r :: client_key (dl_client r) ++ [dl_generation r].

Record RegistryState := mkRegistry {
  entries : gmap ClientId ClientEntry;
  deadlines : list DeadlineRecord;
  cleanup_ready : list ClientSession;
  next_generation : N;
  guards : gmap ClientSession bool
}.

Record ClientCleanup := mkCleanup {
  cleanup_session : ClientSession;
  cleanup_reason : CleanupReason
}.

Definition registry_init : RegistryState := mkRegistry ∅ [] [] 1 ∅.

Definition set_entry (c : ClientId) (e : ClientEntry) (st : RegistryState) :=
  mkRegistry (<[c := e]> (entries st)) (deadlines st) (cleanup_ready st)
    (next_generation st) (guards st).
Definition remove_entry (c : ClientId) (st : RegistryState) :=
  mkRegistry (delete c (entries st)) (deadlines st) (cleanup_ready st)
    (next_generation st) (guards st).
Definition set_deadlines (d : list DeadlineRecord) (st : RegistryState) :=
  mkRegistry (entries st) d (cleanup_ready st) (next_generation st) (guards st).
Definition set_cleanup_ready (q : list ClientSession) (st : RegistryState) :=
  mkRegistry (entries st) (deadlines st) q (next_generation st) (guards st).
Definition set_guard (s : ClientSession) (b : bool) (st : RegistryState) :=
  mkRegistry (entries st) (deadlines st) (cleanup_ready st)
    (next_generation st) (<[s := b]> (guards st)).

(** ** Guards *)

Definition guard_is_active (g : ClientSession) (st : RegistryState) : bool :=
  default false (guards st !! g).
Definition guard_invalidate (g : ClientSession) (st : RegistryState) :=
  set_guard g false st.

(** ** Entry operations *)

Definition entry_state (e : ClientEntry) : ClientState :=
  match phase e with
  | PhaseActive => Active
  | CleanupPending HeartbeatExpired _ => Expired
  | CleanupPending _ _ => Draining
  end.

Definition entry_is_active (e : ClientEntry) : bool :=
  bool_decide (phase e = PhaseActive).

Definition ensure_session (e : ClientEntry) (s : ClientSession)
    : res ClientLifecycleError unit :=
  if decide (session e = s) then Ok tt else Err StaleSession.

Definition refresh (now ttl : N) (e : ClientEntry) : ClientEntry :=
  mkEntry (session e) (guard e) (phase e)
    (N.max (expires_at e) (saturating_add now ttl)).

Definition set_phase (p : ClientPhase) (e : ClientEntry) : ClientEntry :=
  mkEntry (session e) (guard e) p (expires_at e).

(** [fence] and [mark_expired] write the entry back and clear its guard. *)
Definition fence (reason : CleanupReason) (c : ClientId) (e : ClientEntry)
    (st : RegistryState) : ClientEntry * RegistryState :=
  let e' := set_phase (CleanupPending reason Ready) e in
  (e', guard_invalidate (guard e) (set_entry c e' st)).

Definition mark_expired (c : ClientId) (e : ClientEntry) (st : RegistryState)
    : ClientEntry * RegistryState :=
  fence HeartbeatExpired c e st.

Definition expire_if_due (now : N) (c : ClientId) (e : ClientEntry)
    (st : RegistryState) : bool * RegistryState :=
  if now <? expires_at e then (false, st)
  else (true, (mark_expired c e st).2).

Definition claim_cleanup (expected : CleanupClaimState) (c : ClientId)
    (e : ClientEntry) (st : RegistryState)
    : option ClientCleanup * RegistryState :=
  match phase e with
  | PhaseActive => (None, st)
  | CleanupPending reason claim =>
      if decide (claim = expected) then
        (Some (mkCleanup (session e) reason),
         set_entry c (set_phase (CleanupPending reason Running) e) st)
      else (None, st)
  end.

Definition cleanup_is_running (e : ClientEntry) : bool :=
  match phase e with
  | CleanupPending _ Running => true
  | _ => false
  end.

Definition queue_running_cleanup (e : ClientEntry) : option ClientEntry :=
  match phase e with
  | CleanupPending reason Running =>
      Some (set_phase (CleanupPending reason Queued) e)
  | _ => None
  end.

(** ** Registry operations *)

Definition registry_len (st : RegistryState) : N := N.of_nat (size (entries st)).

Definition registry_state (c : ClientId) (st : RegistryState) : option ClientState :=
  entry_state <$> entries st !! c.

Definition allocate_generation (st : RegistryState)
    : res ClientLifecycleError N * RegistryState :=
  let generation := next_generation st in
  match checked_add generation 1 with
  | None => (Err GenerationExhausted, st)
  | Some next =>
      (Ok generation,
       mkRegistry (entries st) (deadlines st) (cleanup_ready st) next (guards st))
  end.

Definition activate (cfg : ClientLifecycleConfig) (c : ClientId) (now : N)
    (st : RegistryState) : res ClientLifecycleError ActivateOutcome * RegistryState :=
  if client_is_nil c then (Err NilClientId, st)
  else match entries st !! c with
  | Some e =>
      if negb (entry_is_active e) then (Err (CleanupInProgress (entry_state e)), st)
      else match expire_if_due now c e st with
      | (true, st') => (Err (CleanupInProgress Expired), st')
      | (false, _) =>
          (Ok (AlreadyActive (session e)),
           set_entry c (refresh now (ttl_ticks cfg) e) st)
      end
  | None =>
      if max_clients cfg <=? registry_len st then
        (Err (CapacityExceeded (max_clients cfg)), st)
      else match allocate_generation st with
      | (Ok generation, st1) =>
          let s := mkSession c generation in
          let expires := saturating_add now (ttl_ticks cfg) in
          let st2 := set_guard s true st1 in
          let st3 := set_entry c (mkEntry s s PhaseActive expires) st2 in
          (Ok (Activated s),
           set_deadlines
             (pq_push deadline_key (mkDeadline expires c generation) (deadlines st3))
             st3)
      | (Err e, st1) => (Err e, st1)
      | (Panic, st1) => (Panic, st1)
      end
  end.

Definition heartbeat (cfg : ClientLifecycleConfig) (c : ClientId) (now : N)
    (st : RegistryState) : HeartbeatOutcome * RegistryState :=
  match entries st !! c with
  | None => (NeedRemount, st)
  | Some e =>
      if negb (entry_is_active e) then (NeedRemount, st)
      else match expire_if_due now c e st with
      | (true, st') => (NeedRemount, st')
      | (false, _) =>
          (Alive (session e), set_entry c (refresh now (ttl_ticks cfg) e) st)
      end
  end.

Definition active_session (c : ClientId) (st : RegistryState)
    : res ClientLifecycleError ClientSession :=
  if client_is_nil c then Err NilClientId
  else match entries st !! c with
  | Some e => if entry_is_active e then Ok (session e) else Err ClientNotActive
  | None => Err ClientNotActive
  end.

Definition active_session_guard (c : ClientId) (st : RegistryState)
    : res ClientLifecycleError ClientSession :=
  if client_is_nil c then Err NilClientId
  else match entries st !! c with
  | Some e => if entry_is_active e then Ok (guard e) else Err ClientNotActive
  | None => Err ClientNotActive
  end.

Definition rollback_activation (s : ClientSession) (st : RegistryState)
    : res ClientLifecycleError unit * RegistryState :=
  match entries st !! session_client s with
  | None => (Err ClientNotActive, st)
  | Some e =>
      match ensure_session e s with
      | Ok _ =>
          if negb (entry_is_active e) then
            (Err (CleanupInProgress (entry_state e)), st)
          else
            (Ok tt, remove_entry (session_client s) (guard_invalidate (guard e) st))
      | Err err => (Err err, st)
      | Panic => (Panic, st)
      end
  end.

Definition begin_drain (s : ClientSession) (reason : CleanupReason)
    (st : RegistryState)
    : res ClientLifecycleError (option ClientCleanup) * RegistryState :=
  let c := session_client s in
  match entries st !! c with
  | None => (Err ClientNotActive, st)
  | Some e =>
      match ensure_session e s with
      | Ok _ =>
          let '(e1, st1) := if entry_is_active e then fence reason c e st else (e, st) in
          let '(cleanup, st2) := claim_cleanup Ready c e1 st1 in
          (Ok cleanup, st2)
      | Err err => (Err err, st)
      | Panic => (Panic, st)
      end
  end.

(** [while processed < budget] over [cleanup_ready]; the first argument is
    [budget - processed], which every iteration decreases. *)
Fixpoint claim_ready_loop (remaining : nat) (st : RegistryState)
    (cleanups : list ClientCleanup)
    : nat * RegistryState * list ClientCleanup :=
  match remaining with
  | O => (O, st, cleanups)
  | S remaining' =>
      match cleanup_ready st with
      | [] => (remaining, st, cleanups)
      | s :: rest =>
          let st1 := set_cleanup_ready rest st in
          match entries st1 !! session_client s with
          | Some e =>
              if decide (session e = s) then
                match claim_cleanup Queued (session_client s) e st1 with
                | (Some claim, st2) =>
                    claim_ready_loop remaining' st2 (cleanups ++ [claim])
                | (None, st2) => claim_ready_loop remaining' st2 cleanups
                end
              else claim_ready_loop remaining' st1 cleanups
          | None => claim_ready_loop remaining' st1 cleanups
          end
      end
  end.

(** One popped deadline record: the claim it yields, if any, and the state
    with a replacement record pushed for a client that was refreshed. *)
Definition process_deadline (now : N) (record : DeadlineRecord)
    (st : RegistryState) : option ClientCleanup * RegistryState :=
  let c := dl_client record in
  match entries st !! c with
  | None => (None, st)
  | Some e =>
      if generation (session e) =? dl_generation record then
        match phase e with
        | PhaseActive =>
            if now <? expires_at e then
              (None, set_deadlines
                 (pq_push deadline_key
                    (mkDeadline (expires_at e) c (dl_generation record))
                    (deadlines st)) st)
            else
              let '(e1, st1) := mark_expired c e st in
              claim_cleanup Ready c e1 st1
        | CleanupPending HeartbeatExpired _ => claim_cleanup Ready c e st
        | CleanupPending _ _ => (None, st)
        end
      else (None, st)
  end.

Fixpoint claim_deadline_loop (now : N) (remaining : nat) (st : RegistryState)
    (cleanups : list ClientCleanup) : RegistryState * list ClientCleanup :=
  match remaining with
  | O => (st, cleanups)
  | S remaining' =>
      match deadlines st with
      | [] => (st, cleanups)
      | record :: rest =>
          if now <? dl_expires_at record then (st, cleanups)
          else
            let '(claim, st1) := process_deadline now record (set_deadlines rest st) in
            claim_deadline_loop now remaining' st1 (cleanups ++ option_list claim)
      end
  end.

Definition claim_due_cleanups (cfg : ClientLifecycleConfig) (now : N)
    (budget : nat) (st : RegistryState) : list ClientCleanup * RegistryState :=
  let budget := Nat.min budget (cleanup_scan_budget cfg) in
  let '(remaining, st1, cleanups) := claim_ready_loop budget st [] in
  let '(st2, cleanups) := claim_deadline_loop now remaining st1 cleanups in
  (cleanups, st2).

Definition finish_cleanup (s : ClientSession) (st : RegistryState)
    : res ClientLifecycleError unit * RegistryState :=
  match entries st !! session_client s with
  | None => (Ok tt, st)
  | Some e =>
      match ensure_session e s with
      | Ok _ =>
          if negb (cleanup_is_running e) then (Err CleanupNotStarted, st)
          else (Ok tt, remove_entry (session_client s) st)
      | Err err => (Err err, st)
      | Panic => (Panic, st)
      end
  end.

Definition release_cleanup (s : ClientSession) (st : RegistryState) : RegistryState :=
  match entries st !! session_client s with
  | None => st
  | Some e =>
      if decide (session e = s) then
        match queue_running_cleanup e with
        | Some e' =>
            let st1 := set_entry (session_client s) e' st in
            set_cleanup_ready (cleanup_ready st1 ++ [s]) st1
        | None => st
        end
      else st
  end.

(** [ClientCleanup::finish] consumes the claim; when [finish_cleanup] fails,
    the early return drops it, which releases it. *)
Definition ClientCleanup_finish (claim : ClientCleanup) (st : RegistryState)
    : res ClientLifecycleError unit * RegistryState :=
  match finish_cleanup (cleanup_session claim) st with
  | (Ok _, st') => (Ok tt, st')
  | (Err e, st') => (Err e, release_cleanup (cleanup_session claim) st')
  | (Panic, st') => (Panic, st')
  end.

Definition ClientCleanup_drop (claim : ClientCleanup) (st : RegistryState) :=
  release_cleanup (cleanup_session claim) st.

(** ** The registry with the claims its callers hold

    A [ClientCleanup] is not cloneable: the callers together own the claims
    that were returned and neither finished nor dropped. *)
Record World := mkWorld { registry : RegistryState; held : list ClientCleanup }.

Definition world_init : World := mkWorld registry_init [].

Inductive client_op :=
| OpActivate (c : ClientId) (now : N)
| OpHeartbeat (c : ClientId) (now : N)
| OpRollback (s : ClientSession)
| OpBeginDrain (s : ClientSession) (reason : CleanupReason)
| OpClaimDue (now : N) (budget : nat)
| OpFinish (claim : ClientCleanup)
| OpDrop (claim : ClientCleanup).

#[global] Instance ClientCleanup_eq_dec : EqDecision ClientCleanup.
Proof. solve_decision. Defined.

(** Finishing or dropping needs the claim itself. *)
Definition client_step (cfg : ClientLifecycleConfig) (op : client_op) (w : World)
    : World :=
  let st := registry w in
  match op with
  | OpActivate c now => mkWorld (activate cfg c now st).2 (held w)
  | OpHeartbeat c now => mkWorld (heartbeat cfg c now st).2 (held w)
  | OpRollback s => mkWorld (rollback_activation s st).2 (held w)
  | OpBeginDrain s reason =>
      match begin_drain s reason st with
      | (Ok (Some claim), st') => mkWorld st' (held w ++ [claim])
      | (_, st') => mkWorld st' (held w)
      end
  | OpClaimDue now budget =>
      let '(claims, st') := claim_due_cleanups cfg now budget st in
      mkWorld st' (held w ++ claims)
  | OpFinish claim =>
      if decide (claim ∈ held w) then
        mkWorld (ClientCleanup_finish claim st).2
          (filter (fun k => k ≠ claim) (held w))
      else w
  | OpDrop claim =>
      if decide (claim ∈ held w) then
        mkWorld (ClientCleanup_drop claim st)
          (filter (fun k => k ≠ claim) (held w))
      else w
  end.

Definition client_run (cfg : ClientLifecycleConfig) (ops : list client_op) : World :=
  foldl (fun w op => client_step cfg op w) world_init ops.

(** ** Invariant *)

(** A deadline record that will bring the entry back to a maintenance round no
    later than its expiry. *)
Definition tracked (st : RegistryState) (c : ClientId) (e : ClientEntry) : Prop :=
  ∃ r, r ∈ deadlines st ∧ dl_client r = c ∧
       dl_generation r = generation (session e) ∧ dl_expires_at r <= expires_at e.

Definition idle (s : ClientSession) (st : RegistryState) (h : list ClientCleanup) : Prop :=
  s ∉ cleanup_ready st ∧ s ∉ (cleanup_session <$> h).

(** Where the pending work of an entry is recorded, by its phase. *)
Definition phase_ok (st : RegistryState) (h : list ClientCleanup) (c : ClientId)
    (e : ClientEntry) : Prop :=
  match phase e with
  | PhaseActive =>
      guard_is_active (session e) st = true ∧ tracked st c e ∧ idle (session e) st h
  | CleanupPending reason claim =>
      guard_is_active (session e) st = false ∧
      match claim with
      | Ready => reason = HeartbeatExpired ∧ tracked st c e ∧ idle (session e) st h
      | Queued => session e ∈ cleanup_ready st ∧ session e ∉ (cleanup_session <$> h)
      | Running => mkCleanup (session e) reason ∈ h ∧ session e ∉ cleanup_ready st
      end
  end.

Definition entry_ok (st : RegistryState) (h : list ClientCleanup) (c : ClientId)
    (e : ClientEntry) : Prop :=
  session_client (session e) = c ∧ guard e = session e ∧
  generation (session e) < next_generation st ∧ phase_ok st h c e.

Definition live_session (st : RegistryState) (s : ClientSession) : Prop :=
  ∃ e, entries st !! session_client s = Some e ∧ session e = s.

Record registry_inv (cfg : ClientLifecycleConfig) (st : RegistryState)
    (h : list ClientCleanup) : Prop := {
  inv_entries : ∀ c e, entries st !! c = Some e → entry_ok st h c e;
  inv_guards : ∀ s, guard_is_active s st = true → live_session st s;
  inv_issued : ∀ s b, guards st !! s = Some b → generation s < next_generation st;
  inv_ready_nodup : NoDup (cleanup_ready st);
  inv_ready : ∀ s, s ∈ cleanup_ready st → live_session st s;
  inv_held_nodup : NoDup (cleanup_session <$> h);
  inv_held : ∀ s, s ∈ (cleanup_session <$> h) → live_session st s;
  inv_sorted : key_sorted deadline_key (deadlines st);
  inv_capacity : registry_len st <= max_clients cfg
}.

(** What a step on one client leaves alone for the session [s] of another. *)
Record frame (s : ClientSession) (st : RegistryState) (h : list ClientCleanup)
    (st' : RegistryState) (h' : list ClientCleanup) : Prop := {
  fr_guard : guards st' !! s = guards st !! s;
  fr_deadlines : ∀ r, r ∈ deadlines st → dl_client r = session_client s →
                      r ∈ deadlines st';
  fr_ready : s ∈ cleanup_ready st' ↔ s ∈ cleanup_ready st;
  fr_held : ∀ r, mkCleanup s r ∈ h' ↔ mkCleanup s r ∈ h;
  fr_next : next_generation st <= next_generation st'
}.

Lemma frame_held_session s st h st' h' :
  frame s st h st' h' →
  (s ∈ (cleanup_session <$> h') ↔ s ∈ (cleanup_session <$> h)).
Proof.
  intros F. rewrite !list_elem_of_fmap.
  split; intros [[s' r] [-> Hr]]; exists (mkCleanup s' r);
    (split; [done|]); by apply (fr_held _ _ _ _ _ F).
Qed.

Lemma entry_ok_frame st h st' h' c e :
  entry_ok st h c e → frame (session e) st h st' h' → entry_ok st' h' c e.
Proof.
  intros (Hc & Hg & Hgen & Hp) F.
  pose proof (frame_held_session _ _ _ _ _ F) as Hheld. destruct F.
  assert (tracked st c e → tracked st' c e) as Htr.
  { intros (r & ? & ? & ? & ?). exists r. split_and!; try done.
    apply fr_deadlines0; [done|congruence]. }
  split_and!; try done; [lia|].
  unfold phase_ok, idle, guard_is_active in *.
  rewrite fr_guard0. destruct (phase e) as [|reason []]; naive_solver.
Qed.

(** Every operation below touches one client: it replaces, removes or adds its
    entry and leaves the frame of the others. *)
Section OneClient.
Context (cfg : ClientLifecycleConfig) (st : RegistryState) (h : list ClientCleanup).
Context (st' : RegistryState) (h' : list ClientCleanup) (c : ClientId).
Context (Hinv : registry_inv cfg st h).
Context (Hframe : ∀ s, session_client s ≠ c → frame s st h st' h').
Context (Hissued : ∀ s b, guards st' !! s = Some b → generation s < next_generation st').
Context (Hrn : NoDup (cleanup_ready st')).
Context (Hhn : NoDup (cleanup_session <$> h')).
Context (Hsorted : key_sorted deadline_key (deadlines st')).

Lemma other_live o s :
  entries st' = partial_alter (λ _, o) c (entries st) →
  session_client s ≠ c → live_session st s → live_session st' s.
Proof.
  intros He Hne (e & Hl & Hs). exists e. split; [|done].
  by rewrite He, lookup_partial_alter_ne.
Qed.

Lemma inv_one_client o :
  entries st' = partial_alter (λ _, o) c (entries st) →
  (∀ e, o = Some e → entry_ok st' h' c e) →
  (∀ s, session_client s = c → guard_is_active s st' = true ∨ s ∈ cleanup_ready st' ∨
        s ∈ (cleanup_session <$> h') → ∃ e, o = Some e ∧ session e = s) →
  registry_len st' <= max_clients cfg →
  registry_inv cfg st' h'.
Proof.
  intros He Hok Hs Hcap.
  assert (∀ s, guard_is_active s st' = true ∨ s ∈ cleanup_ready st' ∨
        s ∈ (cleanup_session <$> h') → live_session st' s) as Hlive.
  { intros s H. destruct (decide (session_client s = c)) as [Hc|Hc].
    - destruct (Hs s Hc H) as (e & -> & Hse). exists e.
      by rewrite He, Hc, lookup_partial_alter_eq.
    - eapply other_live; [done..|].
      pose proof (frame_held_session _ _ _ _ _ (Hframe s Hc)) as Hh.
      destruct (Hframe s Hc) as [Hg _ Hr _ _]. destruct Hinv.
      destruct H as [H|[H|H]].
      + apply inv_guards0. unfold guard_is_active in *. by rewrite <- Hg.
      + apply inv_ready0. by apply Hr.
      + apply inv_held0. by apply Hh. }
  split; eauto.
  intros d e. rewrite He. destruct (decide (d = c)) as [->|Hd].
  - rewrite lookup_partial_alter_eq. eauto.
  - rewrite lookup_partial_alter_ne by done. intros Hl.
    pose proof (inv_entries _ _ _ Hinv _ _ Hl) as Hold.
    eapply entry_ok_frame; [done|]. apply Hframe. by destruct Hold as (-> & _).
Qed.
End OneClient.

Lemma NoDup_session_eq cfg st h s r r' :
  registry_inv cfg st h → mkCleanup s r ∈ h → mkCleanup s r' ∈ h → r = r'.
Proof.
  intros Hinv Hr Hr'. destruct (inv_held _ _ _ Hinv s) as (e & He & Hs).
  { apply list_elem_of_fmap. by exists (mkCleanup s r). }
  apply list_elem_of_lookup in Hr as [i Hi], Hr' as [j Hj].
  assert (i = j) as ->.
  { eapply NoDup_lookup; [apply (inv_held_nodup _ _ _ Hinv)| |];
      rewrite list_lookup_fmap; [rewrite Hi|rewrite Hj]; done. }
  congruence.
Qed.

(** ** Preservation *)

Lemma guard_is_active_set s s' b st :
  guard_is_active s (set_guard s' b st) =
  if decide (s' = s) then b else guard_is_active s st.
Proof. unfold guard_is_active. simpl. by case_decide; simplify_map_eq. Qed.

Lemma registry_len_update cfg st h c e e' :
  registry_inv cfg st h → entries st !! c = Some e →
  N.of_nat (size (<[c := e']> (entries st))) <= max_clients cfg.
Proof.
  intros Hinv He. rewrite map_size_insert_Some by eauto. apply Hinv.
Qed.

(** Replacing the entry of [c] by [e'], with the guard of its session set to
    [g], its deadlines to [ds] and its queue membership to [rs] and [h']. *)
Lemma inv_replace cfg st h c e e' ds rs g h' :
  registry_inv cfg st h →
  entries st !! c = Some e →
  session e' = session e → guard e' = guard e →
  let st' := mkRegistry (<[c := e']> (entries st)) ds rs (next_generation st) g in
  (∀ s, s ≠ session e → g !! s = guards st !! s) →
  (∀ r, r ∈ deadlines st → dl_client r ≠ c → r ∈ ds) →
  key_sorted deadline_key ds →
  (∀ s, s ≠ session e → (s ∈ rs ↔ s ∈ cleanup_ready st)) → NoDup rs →
  (∀ s r, s ≠ session e → (mkCleanup s r ∈ h' ↔ mkCleanup s r ∈ h)) →
  NoDup (cleanup_session <$> h') →
  phase_ok st' h' c e' →
  registry_inv cfg st' h'.
Proof.
  intros Hinv He Hse Hge st' Hg Hd Hds Hr Hrn Hh Hhn Hok.
  pose proof (inv_entries _ _ _ Hinv _ _ He) as (Hc & Hguard & Hgen & _).
  assert (∀ s, s ≠ session e → frame s st h st' h' ∨ session_client s = c) as Hfr.
  { intros s Hs. destruct (decide (session_client s = c)); [by right|left].
    split; simpl; eauto; try done. intros r ? ?. apply Hd; congruence. }
  assert (∀ s, session_client s = c → guard_is_active s st' = true ∨ s ∈ rs ∨
     s ∈ (cleanup_session <$> h') → s = session e) as Hown.
  { intros s Hs Hp. destruct (decide (s = session e)) as [|Hne]; [done|].
    assert (live_session st s) as (e0 & He0 & <-); [|rewrite Hs in He0; congruence].
    destruct Hp as [Hp|[Hp|Hp]].
    - apply (inv_guards _ _ _ Hinv). unfold guard_is_active in *. simpl in Hp.
      by rewrite Hg in Hp.
    - apply (inv_ready _ _ _ Hinv). by apply Hr.
    - apply (inv_held _ _ _ Hinv).
      apply list_elem_of_fmap in Hp as ([s' r] & -> & Hp). simpl in *.
      apply list_elem_of_fmap. exists (mkCleanup s' r). by rewrite <- Hh. }
  apply (inv_one_client cfg st h st' h' c Hinv) with (Some e'); try done.
  - intros s Hs. destruct (Hfr s); [congruence|done|congruence].
  - intros s b Hb. simpl in *. destruct (decide (s = session e)) as [->|Hne]; [done|].
    rewrite Hg in Hb by done. by eapply inv_issued.
  - intros e0 [= <-]. split_and!; simpl; congruence || (by rewrite Hse) || done.
  - intros s Hs Hp. exists e'. split; [done|]. rewrite Hse. symmetry. auto.
  - by eapply registry_len_update.
Qed.

Lemma inv_refresh cfg st h c e now :
  registry_inv cfg st h → entries st !! c = Some e → phase e = PhaseActive →
  registry_inv cfg (set_entry c (refresh now (ttl_ticks cfg) e) st) h.
Proof.
  intros Hinv He Hp. pose proof (inv_entries _ _ _ Hinv _ _ He) as (_ & _ & _ & Hok).
  eapply (inv_replace cfg st h c e); eauto; try (by apply Hinv); try done.
  revert Hok. unfold phase_ok. simpl. rewrite Hp.
  intros (? & (r & ? & ? & ? & ?) & ?). split_and!; try done.
  exists r. split_and!; try done. simpl. lia.
Qed.

Lemma inv_expire cfg st h c e :
  registry_inv cfg st h → entries st !! c = Some e → phase e = PhaseActive →
  registry_inv cfg (mark_expired c e st).2 h.
Proof.
  intros Hinv He Hp.
  pose proof (inv_entries _ _ _ Hinv _ _ He) as (_ & Hg & _ & Hok).
  eapply (inv_replace cfg st h c e); eauto; try (by apply Hinv); try done.
  - intros s Hs. simpl. by rewrite Hg, lookup_insert_ne.
  - revert Hok. unfold phase_ok, guard_is_active. simpl. rewrite Hp, Hg.
    intros (? & ? & ?). split_and!; try done. by simplify_map_eq.
Qed.

Lemma held_snoc s claim h :
  s ≠ cleanup_session claim → ∀ r, mkCleanup s r ∈ h ++ [claim] ↔ mkCleanup s r ∈ h.
Proof.
  destruct claim; simpl. intros ? r. rewrite elem_of_app, list_elem_of_singleton.
  naive_solver.
Qed.

Lemma NoDup_held_snoc h claim :
  NoDup (cleanup_session <$> h) → cleanup_session claim ∉ (cleanup_session <$> h) →
  NoDup (cleanup_session <$> h ++ [claim]).
Proof.
  intros. rewrite fmap_app, NoDup_app. split_and!; [done| |apply NoDup_singleton].
  set_solver.
Qed.

(** A claim taken on an entry that no worker and no queue has: the guard ends
    up cleared and the claim is the caller's. *)
Lemma inv_claim_idle cfg st h c e reason ds g :
  registry_inv cfg st h → entries st !! c = Some e →
  idle (session e) st h →
  (∀ s, s ≠ session e → g !! s = guards st !! s) →
  default false (g !! session e) = false →
  (∀ r, r ∈ deadlines st → dl_client r ≠ c → r ∈ ds) → key_sorted deadline_key ds →
  registry_inv cfg
    (mkRegistry (<[c := set_phase (CleanupPending reason Running) e]> (entries st))
       ds (cleanup_ready st) (next_generation st) g)
    (h ++ [mkCleanup (session e) reason]).
Proof.
  intros Hinv He [Hir Hih] Hg Hgs Hd Hds.
  eapply (inv_replace cfg st h c e); eauto; try (by apply Hinv); try done.
  - intros s r Hs. by apply held_snoc.
  - apply NoDup_held_snoc; [apply Hinv|done].
  - unfold phase_ok, guard_is_active. simpl. split_and!; try done. set_solver.
Qed.

(** Dropping the entry of [c], with whatever was recorded for its session. *)
Lemma inv_delete cfg st h c e g h' :
  registry_inv cfg st h →
  entries st !! c = Some e →
  session e ∉ cleanup_ready st →
  (∀ s, s ≠ session e → g !! s = guards st !! s) →
  default false (g !! session e) = false →
  (∀ s r, s ≠ session e → (mkCleanup s r ∈ h' ↔ mkCleanup s r ∈ h)) →
  session e ∉ (cleanup_session <$> h') →
  NoDup (cleanup_session <$> h') →
  registry_inv cfg
    (mkRegistry (delete c (entries st)) (deadlines st) (cleanup_ready st)
       (next_generation st) g) h'.
Proof.
  intros Hinv He Hr Hg Hgs Hh Hhe Hhn.
  pose proof (inv_entries _ _ _ Hinv _ _ He) as (Hc & _ & Hgen & _).
  apply (inv_one_client cfg st h _ h' c Hinv) with None; simpl; try done;
    try (by apply Hinv).
  - intros s Hs. assert (s ≠ session e) by congruence. split; simpl; eauto; done.
  - intros s b Hb. destruct (decide (s = session e)) as [->|Hne]; [done|].
    rewrite Hg in Hb by done. by eapply inv_issued.
  - intros s Hs Hp. destruct (decide (s = session e)) as [->|Hne].
    { unfold guard_is_active in Hp. simpl in Hp. rewrite Hgs in Hp. naive_solver. }
    assert (live_session st s) as (e0 & He0 & <-); [|rewrite Hs in He0; congruence].
    unfold guard_is_active in Hp. simpl in Hp. destruct Hp as [Hp|[Hp|Hp]].
    + apply (inv_guards _ _ _ Hinv). unfold guard_is_active. by rewrite <- Hg.
    + by apply (inv_ready _ _ _ Hinv).
    + apply (inv_held _ _ _ Hinv).
      apply list_elem_of_fmap in Hp as ([s' r] & -> & Hp). simpl in *.
      apply list_elem_of_fmap. exists (mkCleanup s' r). by rewrite <- Hh.
  - unfold registry_len. simpl. rewrite map_size_delete_Some by eauto.
    pose proof (inv_capacity _ _ _ Hinv) as Hcap. unfold registry_len in Hcap. lia.
Qed.

Lemma elem_of_held_filter s r claim (h : list ClientCleanup) :
  s ≠ cleanup_session claim →
  mkCleanup s r ∈ filter (fun k => k ≠ claim) h ↔ mkCleanup s r ∈ h.
Proof. intros Hs. rewrite list_elem_of_filter. destruct claim; naive_solver. Qed.

(** The callers hold one claim per session, so giving one up leaves none. *)
Lemma held_filter_session claim (h : list ClientCleanup) :
  NoDup (cleanup_session <$> h) → claim ∈ h →
  cleanup_session claim ∉ (cleanup_session <$> filter (fun k => k ≠ claim) h).
Proof.
  induction h as [|k h IH]; simpl; [set_solver|].
  intros [Hk Hnd]%NoDup_cons Hin. rewrite filter_cons. case_decide as Hkc.
  - apply elem_of_cons in Hin as [->|Hin]; [done|]. simpl.
    rewrite not_elem_of_cons. split; [|by apply IH].
    intros Heq. apply Hk. rewrite <- Heq. apply list_elem_of_fmap. by exists claim.
  - subst k. intros Hbad. apply Hk.
    apply list_elem_of_fmap in Hbad as (k' & -> & Hk').
    apply list_elem_of_filter in Hk' as [_ ?]. apply list_elem_of_fmap. by exists k'.
Qed.

Lemma NoDup_held_filter P `{∀ k : ClientCleanup, Decision (P k)} h :
  NoDup (cleanup_session <$> h) → NoDup (cleanup_session <$> filter P h).
Proof.
  induction h as [|k h IH]; simpl; [done|].
  intros [Hk Hnd]%NoDup_cons. rewrite filter_cons. case_decide; [|auto].
  simpl. apply NoDup_cons. split; [|auto].
  intros (k' & Heq & Hk')%list_elem_of_fmap. apply Hk. rewrite Heq.
  apply list_elem_of_fmap. exists k'. apply list_elem_of_filter in Hk' as [_ ?]. done.
Qed.

(** What the invariant says of a claim a caller holds. *)
Lemma held_running cfg st h claim :
  registry_inv cfg st h → claim ∈ h →
  ∃ e, entries st !! session_client (cleanup_session claim) = Some e ∧
       session e = cleanup_session claim ∧
       phase e = CleanupPending (cleanup_reason claim) Running.
Proof.
  intros Hinv Hin. destruct claim as [s r]; simpl.
  assert (s ∈ (cleanup_session <$> h)) as Hs.
  { apply list_elem_of_fmap. by exists (mkCleanup s r). }
  destruct (inv_held _ _ _ Hinv _ Hs) as (e & He & Hse). exists e. split_and!; try done.
  pose proof (inv_entries _ _ _ Hinv _ _ He) as (_ & _ & _ & Hok).
  unfold phase_ok, idle in Hok. rewrite Hse in Hok.
  destruct (phase e) as [|r' []]; try naive_solver.
  destruct Hok as (_ & Hh & _).
  by rewrite (NoDup_session_eq _ _ _ _ _ _ Hinv Hh Hin).
Qed.

Lemma finish_cleanup_held cfg st h claim :
  registry_inv cfg st h → claim ∈ h →
  ClientCleanup_finish claim st =
    (Ok tt, remove_entry (session_client (cleanup_session claim)) st).
Proof.
  intros Hinv Hin. destruct (held_running _ _ _ _ Hinv Hin) as (e & He & Hs & Hp).
  unfold ClientCleanup_finish, finish_cleanup, ensure_session, cleanup_is_running.
  rewrite He, Hs, Hp. by rewrite decide_True.
Qed.

Lemma inv_finish cfg st h claim :
  registry_inv cfg st h → claim ∈ h →
  registry_inv cfg (ClientCleanup_finish claim st).2
    (filter (fun k => k ≠ claim) h).
Proof.
  intros Hinv Hin. erewrite finish_cleanup_held by eauto.
  destruct (held_running _ _ _ _ Hinv Hin) as (e & He & Hs & Hp).
  pose proof (inv_entries _ _ _ Hinv _ _ He) as (_ & _ & _ & Hok).
  unfold phase_ok in Hok. rewrite Hp in Hok. destruct Hok as (Hg & _ & Hr).
  eapply (inv_delete cfg st h _ e); eauto; rewrite ?Hs.
  - intros s r ?. by apply elem_of_held_filter.
  - apply held_filter_session; [apply Hinv|done].
  - apply NoDup_held_filter, Hinv.
Qed.

Lemma inv_drop cfg st h claim :
  registry_inv cfg st h → claim ∈ h →
  registry_inv cfg (ClientCleanup_drop claim st) (filter (fun k => k ≠ claim) h).
Proof.
  intros Hinv Hin. destruct (held_running _ _ _ _ Hinv Hin) as (e & He & Hs & Hp).
  pose proof (inv_entries _ _ _ Hinv _ _ He) as (_ & _ & _ & Hok).
  unfold phase_ok in Hok. rewrite Hp, Hs in Hok. destruct Hok as (Hg & _ & Hr).
  unfold ClientCleanup_drop, release_cleanup, queue_running_cleanup.
  rewrite He, Hp, decide_True by done.
  eapply (inv_replace cfg st h _ e); eauto; try (by apply Hinv); try done; rewrite ?Hs.
  - intros s Hne. simpl. set_solver.
  - simpl. apply NoDup_app. split_and!; [apply Hinv| |apply NoDup_singleton].
    intros x Hx ->%list_elem_of_singleton. done.
  - intros s r ?. by apply elem_of_held_filter.
  - apply NoDup_held_filter, Hinv.
  - unfold phase_ok. simpl. rewrite Hs. split_and!; [done|set_solver|].
    apply held_filter_session; [apply Hinv|done].
Qed.

Lemma inv_issue cfg st h c now next :
  registry_inv cfg st h → entries st !! c = None →
  registry_len st < max_clients cfg →
  next = next_generation st + 1 →
  let s := mkSession c (next_generation st) in
  let expires := saturating_add now (ttl_ticks cfg) in
  registry_inv cfg
    (mkRegistry (<[c := mkEntry s s PhaseActive expires]> (entries st))
       (pq_push deadline_key (mkDeadline expires c (next_generation st)) (deadlines st))
       (cleanup_ready st) next (<[s := true]> (guards st))) h.
Proof.
  intros Hinv He Hcap -> s expires.
  assert (∀ s', session_client s' = c → ¬ live_session st s') as Hdead.
  { intros s' <- (e & He' & _). congruence. }
  apply (inv_one_client cfg st h _ h c Hinv) with (Some (mkEntry s s PhaseActive expires));
    simpl; try done; try (by apply Hinv).
  - intros s' Hs'. split; simpl; try done; [| |lia].
    + rewrite lookup_insert_ne; [done|]. unfold s. by intros <-.
    + intros r ? ?. apply elem_of_pq_push. auto.
  - intros s' b. rewrite lookup_insert. case_decide as Hs'.
    + intros _. rewrite <- Hs'. simpl. lia.
    + intros Hb. pose proof (inv_issued _ _ _ Hinv _ _ Hb). lia.
  - apply pq_push_sorted, Hinv.
  - intros e [= <-]. split_and!; simpl; try done; [lia|].
    unfold phase_ok, guard_is_active, idle. simpl. rewrite lookup_insert_eq.
    split_and!; [done| | |].
    + exists (mkDeadline expires c (next_generation st)). simpl.
      rewrite elem_of_pq_push. auto with lia.
    + intros Hr. by apply (Hdead s), (inv_ready _ _ _ Hinv).
    + intros Hr. by apply (Hdead s), (inv_held _ _ _ Hinv).
  - intros s' Hs' Hp. eexists. split; [done|]. simpl.
    destruct (decide (s = s')) as [|Hne]; [done|]. exfalso. apply (Hdead s' Hs').
    unfold guard_is_active in Hp. simpl in Hp. rewrite lookup_insert_ne in Hp by done.
    destruct Hp as [Hp|[Hp|Hp]]; by apply Hinv in Hp.
  - unfold registry_len in *. simpl. rewrite map_size_insert_None by done. lia.
Qed.

Lemma entry_is_active_true e : entry_is_active e = true ↔ phase e = PhaseActive.
Proof. unfold entry_is_active. apply bool_decide_eq_true. Qed.

(** The part of [activate] and [heartbeat] that meets an active entry. *)
Lemma inv_touch cfg st h c e now :
  registry_inv cfg st h → entries st !! c = Some e → entry_is_active e = true →
  registry_inv cfg
    (match expire_if_due now c e st with
     | (true, st') => st'
     | (false, _) => set_entry c (refresh now (ttl_ticks cfg) e) st
     end) h.
Proof.
  intros Hinv He Hp%entry_is_active_true. unfold expire_if_due.
  destruct (now <? expires_at e); [by apply inv_refresh|by apply inv_expire].
Qed.

Lemma inv_activate cfg st h c now :
  registry_inv cfg st h → registry_inv cfg (activate cfg c now st).2 h.
Proof.
  intros Hinv. unfold activate. destruct (client_is_nil c); [done|].
  destruct (entries st !! c) as [e|] eqn:He.
  - destruct (entry_is_active e) eqn:Ha; [simpl|done].
    pose proof (inv_touch cfg st h c e now Hinv He Ha) as H.
    by destruct (expire_if_due now c e st) as [[] ?].
  - destruct (N.leb_spec (max_clients cfg) (registry_len st)); [done|].
    unfold allocate_generation. destruct (checked_add _ 1) as [next|] eqn:Hn; [|done].
    apply checked_add_Some in Hn as [Hn _].
    by apply (inv_issue cfg st h c now next).
Qed.

Lemma inv_heartbeat cfg st h c now :
  registry_inv cfg st h → registry_inv cfg (heartbeat cfg c now st).2 h.
Proof.
  intros Hinv. unfold heartbeat. destruct (entries st !! c) as [e|] eqn:He; [|done].
  destruct (entry_is_active e) eqn:Ha; [simpl|done].
  pose proof (inv_touch cfg st h c e now Hinv He Ha) as H.
  by destruct (expire_if_due now c e st) as [[] ?].
Qed.

Lemma ensure_session_Ok e s : ensure_session e s = Ok tt ↔ session e = s.
Proof. unfold ensure_session. case_decide; naive_solver. Qed.

Lemma inv_rollback cfg st h s :
  registry_inv cfg st h → registry_inv cfg (rollback_activation s st).2 h.
Proof.
  intros Hinv. unfold rollback_activation, ensure_session.
  destruct (entries st !! session_client s) as [e|] eqn:He; [|done].
  case_decide as Hs; [|done].
  destruct (entry_is_active e) eqn:Ha; simpl; [|done].
  apply entry_is_active_true in Ha.
  pose proof (inv_entries _ _ _ Hinv _ _ He) as (_ & Hg & _ & Hok).
  unfold phase_ok in Hok. rewrite Ha in Hok. destruct Hok as (_ & _ & Hr & Hh).
  eapply (inv_delete cfg st h _ e); eauto; rewrite ?Hg; try (by apply Hinv); try done.
  - intros s' ?. simpl. by rewrite lookup_insert_ne.
  - simpl. by rewrite lookup_insert_eq.
Qed.

Lemma inv_begin_drain cfg st h s reason :
  registry_inv cfg st h →
  registry_inv cfg (begin_drain s reason st).2
    (h ++ match (begin_drain s reason st).1 with
          | Ok (Some claim) => [claim]
          | _ => []
          end).
Proof.
  intros Hinv. unfold begin_drain, ensure_session.
  destruct (entries st !! session_client s) as [e|] eqn:He; [|by rewrite app_nil_r].
  case_decide as Hs; [|by rewrite app_nil_r].
  pose proof (inv_entries _ _ _ Hinv _ _ He) as (_ & Hg & _ & Hok).
  destruct (entry_is_active e) eqn:Ha; simpl.
  - apply entry_is_active_true in Ha. unfold phase_ok in Hok. rewrite Ha in Hok.
    unfold claim_cleanup, set_entry; simpl. rewrite insert_insert_eq, Hg.
    apply (inv_claim_idle cfg st h _ e reason); try (by apply Hinv); try done; simpl.
    + apply Hok.
    + intros s' ?. by rewrite lookup_insert_ne.
    + by rewrite lookup_insert_eq.
  - unfold claim_cleanup. unfold phase_ok in Hok.
    destruct (phase e) as [|reason' claim]; simpl; [by rewrite app_nil_r|].
    case_decide; simpl; [subst claim|by rewrite app_nil_r].
    apply (inv_claim_idle cfg st h _ e); try (by apply Hinv); try done; apply Hok.
Qed.

Lemma inv_claim_queued cfg st h s rest :
  registry_inv cfg st h → cleanup_ready st = s :: rest →
  ∃ e reason, entries st !! session_client s = Some e ∧ session e = s ∧
    phase e = CleanupPending reason Queued ∧
    registry_inv cfg
      (set_entry (session_client s) (set_phase (CleanupPending reason Running) e)
         (set_cleanup_ready rest st))
      (h ++ [mkCleanup s reason]).
Proof.
  intros Hinv Hready.
  pose proof (inv_ready_nodup _ _ _ Hinv) as Hnd. rewrite Hready in Hnd.
  apply NoDup_cons in Hnd as [Hs Hnd].
  destruct (inv_ready _ _ _ Hinv s) as (e & He & Hse); [rewrite Hready; set_solver|].
  pose proof (inv_entries _ _ _ Hinv _ _ He) as (_ & _ & _ & Hok).
  unfold phase_ok, idle in Hok. rewrite Hready, Hse in Hok.
  destruct (phase e) as [|reason []] eqn:Hp; [set_solver..| |set_solver].
  destruct Hok as (Hg & _ & Hh).
  exists e, reason. split_and!; try done.
  eapply (inv_replace cfg st h _ e); eauto; try (by apply Hinv); try done; simpl.
  - intros s' Hne. rewrite Hready. set_solver.
  - intros s' r Hne. apply held_snoc. simpl. congruence.
  - by apply NoDup_held_snoc; [apply Hinv|].
  - unfold phase_ok. simpl. rewrite Hse. split_and!; [done|set_solver|done].
Qed.

Lemma inv_claim_ready_loop cfg h : ∀ n st cl,
  registry_inv cfg st (h ++ cl) →
  registry_inv cfg (claim_ready_loop n st cl).1.2 (h ++ (claim_ready_loop n st cl).2).
Proof.
  induction n as [|n IH]; intros st cl Hinv; simpl; [done|].
  destruct (cleanup_ready st) as [|s rest] eqn:Hr; [done|].
  destruct (inv_claim_queued _ _ _ _ _ Hinv Hr) as (e & reason & He & Hs & Hp & Hinv').
  rewrite He, decide_True by done. unfold claim_cleanup. rewrite Hp.
  rewrite decide_True by done. apply IH. rewrite Hs. by rewrite (assoc_L (++)).
Qed.

(** A popped record that no entry depends on. *)
Lemma inv_pop_deadline cfg st h record rest :
  registry_inv cfg st h → deadlines st = record :: rest →
  (∀ e, entries st !! dl_client record = Some e →
        generation (session e) = dl_generation record →
        ∃ reason claim, phase e = CleanupPending reason claim ∧ claim ≠ Ready) →
  registry_inv cfg (set_deadlines rest st) h.
Proof.
  intros Hinv Hd Hstale. destruct Hinv. split; simpl; try done.
  - intros c e He. destruct (inv_entries0 _ _ He) as (Hc & Hg & Hgen & Hok).
    split_and!; try done. unfold phase_ok, idle, guard_is_active in *. simpl.
    assert ((∀ r cl, phase e = CleanupPending r cl → cl = Ready) →
            tracked st c e → tracked (set_deadlines rest st) c e) as Htr.
    { intros Hph (r & Hr & Hrc & Hrg & Hrx). exists r. split_and!; try done.
      simpl. rewrite Hd in Hr. apply elem_of_cons in Hr as [->|Hr]; [|done].
      rewrite Hrc in Hstale. destruct (Hstale e He) as (? & ? & ? & ?); [done|].
      naive_solver. }
    destruct (phase e) as [|reason []] eqn:Hp; naive_solver.
  - rewrite Hd in inv_sorted0. by eapply pq_tail_sorted.
Qed.

Lemma inv_process_deadline cfg st h now record rest :
  registry_inv cfg st h → deadlines st = record :: rest →
  registry_inv cfg (process_deadline now record (set_deadlines rest st)).2
    (h ++ option_list (process_deadline now record (set_deadlines rest st)).1).
Proof.
  intros Hinv Hd.
  assert (key_sorted deadline_key rest) as Hrest.
  { pose proof (inv_sorted _ _ _ Hinv) as Hs. rewrite Hd in Hs. by eapply pq_tail_sorted. }
  assert (∀ r, r ∈ deadlines st → dl_client r ≠ dl_client record → r ∈ rest) as Hsub.
  { intros r. rewrite Hd. intros [->|]%elem_of_cons; naive_solver. }
  pose proof (inv_pop_deadline cfg st h record rest Hinv Hd) as Hpop.
  unfold process_deadline. simpl.
  destruct (entries st !! dl_client record) as [e|] eqn:He;
    [|simpl; rewrite app_nil_r; apply Hpop; naive_solver].
  destruct (N.eqb_spec (generation (session e)) (dl_generation record)) as [Hg|Hg];
    [|simpl; rewrite app_nil_r; apply Hpop; naive_solver].
  pose proof (inv_entries _ _ _ Hinv _ _ He) as (_ & Hge & _ & Hok).
  unfold phase_ok in Hok.
  destruct (phase e) as [|reason claim] eqn:Hp.
  - destruct (N.ltb_spec now (expires_at e)); simpl.
    + rewrite app_nil_r.
      replace (set_deadlines _ _) with
        (set_deadlines (pq_push deadline_key
           (mkDeadline (expires_at e) (dl_client record) (dl_generation record)) rest)
           (set_entry (dl_client record) e st))
        by (unfold set_entry; simpl; by rewrite insert_id).
      eapply (inv_replace cfg st h _ e); eauto; try (by apply Hinv); try done; simpl.
      * intros r ? ?. apply elem_of_pq_push. auto.
      * by apply pq_push_sorted.
      * unfold phase_ok, guard_is_active, idle in *. simpl. rewrite Hp.
        split_and!; try apply Hok.
        exists (mkDeadline (expires_at e) (dl_client record) (dl_generation record)).
        simpl. rewrite elem_of_pq_push. auto with lia.
    + unfold claim_cleanup, set_entry. simpl. rewrite insert_insert_eq, Hge.
      apply (inv_claim_idle cfg st h _ e HeartbeatExpired); try done; simpl.
      * apply Hok.
      * intros s' ?. by rewrite lookup_insert_ne.
      * by rewrite lookup_insert_eq.
  - assert (claim ≠ Ready → registry_inv cfg (set_deadlines rest st) (h ++ [])) as Hkeep.
    { intros Hc. rewrite app_nil_r. apply Hpop. naive_solver. }
    destruct reason; simpl; try (apply Hkeep; destruct claim; naive_solver).
    unfold claim_cleanup. rewrite Hp. case_decide; simpl; [subst claim|by apply Hkeep].
    apply (inv_claim_idle cfg st h _ e HeartbeatExpired); try done; apply Hok.
Qed.

Lemma inv_claim_deadline_loop cfg h now : ∀ n st cl,
  registry_inv cfg st (h ++ cl) →
  registry_inv cfg (claim_deadline_loop now n st cl).1
    (h ++ (claim_deadline_loop now n st cl).2).
Proof.
  induction n as [|n IH]; intros st cl Hinv; simpl; [done|].
  destruct (deadlines st) as [|record rest] eqn:Hd; [done|].
  destruct (now <? dl_expires_at record); [done|].
  pose proof (inv_process_deadline _ _ _ now _ _ Hinv Hd) as H.
  destruct (process_deadline _ _ _) as [claim st1]. apply IH.
  by rewrite (assoc_L (++)).
Qed.

Lemma inv_claim_due cfg st h now budget :
  registry_inv cfg st h →
  registry_inv cfg (claim_due_cleanups cfg now budget st).2
    (h ++ (claim_due_cleanups cfg now budget st).1).
Proof.
  intros Hinv. unfold claim_due_cleanups.
  pose proof (inv_claim_ready_loop cfg h (budget `min` cleanup_scan_budget cfg) st []) as H.
  rewrite app_nil_r in H. specialize (H Hinv).
  destruct (claim_ready_loop _ _ _) as [[n st1] cl].
  pose proof (inv_claim_deadline_loop cfg h now n st1 cl H) as H'.
  by destruct (claim_deadline_loop _ _ _ _).
Qed.

Lemma registry_inv_init cfg : registry_inv cfg registry_init [].
Proof.
  split; simpl; try done; try (by constructor); unfold registry_len; simpl; try set_solver.
  rewrite map_size_empty. lia.
Qed.

Lemma registry_inv_step cfg op w :
  registry_inv cfg (registry w) (held w) →
  registry_inv cfg (registry (client_step cfg op w)) (held (client_step cfg op w)).
Proof.
  destruct w as [st h]. intros Hinv. destruct op; simpl in *.
  - by apply inv_activate.
  - by apply inv_heartbeat.
  - by apply inv_rollback.
  - pose proof (inv_begin_drain cfg st h s reason Hinv) as H.
    destruct (begin_drain s reason st) as [[[claim|]|e|] st'];
      rewrite ?app_nil_r in H; done.
  - pose proof (inv_claim_due cfg st h now budget Hinv) as H.
    by destruct (claim_due_cleanups cfg now budget st).
  - case_decide; [by apply inv_finish|done].
  - case_decide; [by apply inv_drop|done].
Qed.

Lemma registry_inv_run cfg ops :
  registry_inv cfg (registry (client_run cfg ops)) (held (client_run cfg ops)).
Proof.
  unfold client_run. induction ops as [|op ops IH] using rev_ind; simpl.
  - apply registry_inv_init.
  - rewrite foldl_app. simpl. by apply registry_inv_step.
Qed.

(** ** Fencing is permanent

    [guards st !! s] is [None] before the session is issued; afterwards it can
    only go from [true] to [false]. *)
Definition guards_advance (st st' : RegistryState) : Prop :=
  (∀ s, guards st !! s = Some false → guards st' !! s = Some false) ∧
  (∀ s, is_Some (guards st !! s) → is_Some (guards st' !! s)).

Lemma guards_advance_refl st st' : guards st' = guards st → guards_advance st st'.
Proof. intros E. split; by rewrite E. Qed.

Lemma guards_advance_trans st1 st2 st3 :
  guards_advance st1 st2 → guards_advance st2 st3 → guards_advance st1 st3.
Proof. intros [? ?] [? ?]. split; eauto. Qed.

Lemma guards_advance_invalidate g st st' :
  guards st' = <[g := false]> (guards st) → guards_advance st st'.
Proof.
  intros E. split; intros s; rewrite E, lookup_insert; case_decide; naive_solver.
Qed.

Lemma guards_advance_issue cfg st st' h c :
  registry_inv cfg st h →
  guards st' = <[mkSession c (next_generation st) := true]> (guards st) →
  guards_advance st st'.
Proof.
  intros Hinv E. split; intros s; rewrite E, lookup_insert; case_decide as Hs; try done.
  subst s. intros Hb%(inv_issued _ _ _ Hinv). simpl in Hb. lia.
Qed.

Lemma guards_process_deadline now record st :
  guards_advance st (process_deadline now record st).2.
Proof.
  unfold process_deadline, claim_cleanup, mark_expired, fence. simpl.
  repeat case_match; simplify_eq/=; try (by apply guards_advance_refl);
    by eapply guards_advance_invalidate.
Qed.

Lemma guards_claim_ready_loop : ∀ n st cl,
  guards (claim_ready_loop n st cl).1.2 = guards st.
Proof.
  induction n as [|n IH]; intros st cl; simpl; [done|].
  unfold claim_cleanup. repeat case_match; simplify_eq/=; rewrite ?IH; done.
Qed.

Lemma guards_claim_deadline_loop now : ∀ n st cl,
  guards_advance st (claim_deadline_loop now n st cl).1.
Proof.
  induction n as [|n IH]; intros st cl; simpl; [by apply guards_advance_refl|].
  destruct (deadlines st) as [|record rest]; [by apply guards_advance_refl|].
  destruct (now <? dl_expires_at record); [by apply guards_advance_refl|].
  pose proof (guards_process_deadline now record (set_deadlines rest st)) as H.
  destruct (process_deadline _ _ _) as [claim st1].
  eapply guards_advance_trans; [|apply IH]. done.
Qed.

Lemma guards_release s st : guards (release_cleanup s st) = guards st.
Proof. unfold release_cleanup. by repeat case_match. Qed.

Lemma guards_step cfg op w :
  registry_inv cfg (registry w) (held w) →
  guards_advance (registry w) (registry (client_step cfg op w)).
Proof.
  destruct w as [st h]. intros Hinv. destruct op; simpl in *.
  - unfold activate, expire_if_due, allocate_generation.
    repeat case_match; simplify_eq/=; try (by apply guards_advance_refl);
      [by eapply guards_advance_invalidate|by eapply guards_advance_issue].
  - unfold heartbeat, expire_if_due.
    repeat case_match; simplify_eq/=; try (by apply guards_advance_refl);
      by eapply guards_advance_invalidate.
  - unfold rollback_activation.
    repeat case_match; simplify_eq/=; try (by apply guards_advance_refl);
      by eapply guards_advance_invalidate.
  - unfold begin_drain, claim_cleanup, fence.
    repeat case_match; simplify_eq/=; try (by apply guards_advance_refl);
      by eapply guards_advance_invalidate.
  - unfold claim_due_cleanups.
    pose proof (guards_claim_ready_loop (budget `min` cleanup_scan_budget cfg) st []) as H.
    destruct (claim_ready_loop _ _ _) as [[n st1] cl]. simpl in H.
    pose proof (guards_claim_deadline_loop now n st1 cl) as H'.
    destruct (claim_deadline_loop _ _ _ _) as [st2 cl2]. simpl in *.
    eapply guards_advance_trans; [by apply guards_advance_refl|done].
  - case_decide as Hin; [|by apply guards_advance_refl].
    erewrite finish_cleanup_held by eauto. by apply guards_advance_refl.
  - case_decide; apply guards_advance_refl; [apply guards_release|done].
Qed.

Lemma client_run_app cfg ops ops' :
  client_run cfg (ops ++ ops') =
  foldl (fun w op => client_step cfg op w) (client_run cfg ops) ops'.
Proof. unfold client_run. by rewrite foldl_app. Qed.

Lemma guards_run cfg ops ops' :
  guards_advance (registry (client_run cfg ops)) (registry (client_run cfg (ops ++ ops'))).
Proof.
  induction ops' as [|op ops' IH] using rev_ind.
  - rewrite app_nil_r. by apply guards_advance_refl.
  - rewrite (assoc_L (++)), client_run_app. simpl.
    eapply guards_advance_trans; [exact IH|]. apply guards_step, registry_inv_run.
Qed.

(** ** Maintenance rounds make progress *)

Definition due_count (now : N) (q : list DeadlineRecord) : nat :=
  length (filter (fun r => dl_expires_at r <= now) q).

(** Records a round at [now] still has to look at. *)
Definition pending_work (now : N) (st : RegistryState) : nat :=
  length (cleanup_ready st) + due_count now (deadlines st).

Lemma claim_ready_loop_work : ∀ n st cl,
  let '(n', st', _) := claim_ready_loop n st cl in
  n' = (n - length (cleanup_ready st))%nat ∧
  cleanup_ready st' = drop n (cleanup_ready st) ∧ deadlines st' = deadlines st.
Proof.
  induction n as [|n IH]; intros st cl; simpl; [done|].
  destruct (cleanup_ready st) as [|s rest] eqn:Hr; [by rewrite Hr|].
  unfold claim_cleanup.
  repeat case_match; simplify_eq/=;
    match goal with
    | H : claim_ready_loop n ?st0 ?cl0 = _ |- _ => specialize (IH st0 cl0); rewrite H in IH
    end; simpl in IH; done.
Qed.

Lemma due_count_push_late now r q :
  now < dl_expires_at r → due_count now (pq_push deadline_key r q) = due_count now q.
Proof.
  intros Hr. unfold due_count. rewrite pq_push_perm, filter_cons_False; [done|lia].
Qed.

Lemma due_count_head_late now r q :
  key_sorted deadline_key (r :: q) → now < dl_expires_at r → due_count now (r :: q) = 0%nat.
Proof.
  intros Hs Hr. unfold due_count.
  apply StronglySorted_inv in Hs as [_ Hall]. rewrite filter_cons_False by lia.
  induction Hall as [|x q Hx Hall IH]; [done|].
  rewrite filter_cons_False; [done|]. apply lex_leb_head in Hx. lia.
Qed.

Lemma process_deadline_deadlines now record st :
  let st' := (process_deadline now record st).2 in
  cleanup_ready st' = cleanup_ready st ∧
  (deadlines st' = deadlines st ∨
   ∃ r, now < dl_expires_at r ∧ deadlines st' = pq_push deadline_key r (deadlines st)).
Proof.
  unfold process_deadline, claim_cleanup, mark_expired, fence. simpl.
  repeat case_match; simplify_eq/=; eauto.
  split; [done|]. right. eexists. split; [|done]. simpl. by apply N.ltb_lt.
Qed.

Lemma claim_deadline_loop_work now : ∀ n st cl,
  key_sorted deadline_key (deadlines st) →
  let st' := (claim_deadline_loop now n st cl).1 in
  cleanup_ready st' = cleanup_ready st ∧
  due_count now (deadlines st') = (due_count now (deadlines st) - n)%nat.
Proof.
  induction n as [|n IH]; intros st cl Hs; simpl; [split; [done|lia]|].
  destruct (deadlines st) as [|record rest] eqn:Hd; [by simpl; rewrite Hd|].
  destruct (N.ltb_spec now (dl_expires_at record)) as [Hlt|Hle].
  { simpl. rewrite Hd. by rewrite due_count_head_late. }
  pose proof (process_deadline_deadlines now record (set_deadlines rest st)) as [Hr Hq].
  destruct (process_deadline now record _) as [claim st1]. simpl in Hr, Hq.
  assert (key_sorted deadline_key (deadlines st1) ∧
          due_count now (deadlines st1) = due_count now rest) as [Hs1 Hc1].
  { apply pq_tail_sorted in Hs. destruct Hq as [->|(r & Hlt & ->)]; [done|].
    split; [by apply pq_push_sorted|by apply due_count_push_late]. }
  destruct (IH st1 (cl ++ option_list claim) Hs1) as [-> ->]. rewrite Hc1.
  split; [done|]. unfold due_count. rewrite filter_cons_True by lia. simpl. lia.
Qed.

Lemma claim_due_work cfg now budget st :
  key_sorted deadline_key (deadlines st) →
  pending_work now (claim_due_cleanups cfg now budget st).2 =
  (pending_work now st - budget `min` cleanup_scan_budget cfg)%nat.
Proof.
  intros Hs. unfold claim_due_cleanups, pending_work.
  pose proof (claim_ready_loop_work (budget `min` cleanup_scan_budget cfg) st []) as H.
  destruct (claim_ready_loop _ _ _) as [[n st1] cl]. destruct H as (Hn & Hr & Hd).
  rewrite <- Hd in Hs.
  pose proof (claim_deadline_loop_work now n st1 cl Hs) as [Hr' Hd'].
  destruct (claim_deadline_loop _ _ _ _) as [st2 cl2]. simpl in *.
  rewrite Hr', Hd', Hr, Hd, length_drop. lia.
Qed.

Lemma pending_work_rounds cfg ops now budget n :
  let w' := client_run cfg (ops ++ replicate n (OpClaimDue now budget)) in
  pending_work now (registry w') =
  (pending_work now (registry (client_run cfg ops))
     - n * (budget `min` cleanup_scan_budget cfg))%nat.
Proof.
  simpl. induction n as [|n IH]; [simpl; rewrite app_nil_r; lia|].
  rewrite replicate_S_end, (assoc_L (++)), client_run_app. simpl.
  pose proof (claim_due_work cfg now budget
    (registry (client_run cfg (ops ++ replicate n (OpClaimDue now budget))))) as H.
  destruct (claim_due_cleanups _ _ _ _) as [cl st']. simpl in *.
  rewrite H by apply (registry_inv_run cfg). lia.
Qed.

Lemma no_pending_work cfg st h now c e :
  registry_inv cfg st h → pending_work now st = 0%nat → entries st !! c = Some e →
  now < expires_at e ∨
  ∃ reason, phase e = CleanupPending reason Running ∧ mkCleanup (session e) reason ∈ h.
Proof.
  intros Hinv Hw He. unfold pending_work, due_count in Hw.
  assert (cleanup_ready st = []) as Hr by (apply length_zero_iff_nil; lia).
  assert (filter (fun r => dl_expires_at r <= now) (deadlines st) = []) as Hd
    by (apply length_zero_iff_nil; lia).
  assert (tracked st c e → now < expires_at e) as Htr.
  { intros (r & Hin & _ & _ & Hle). destruct (N.lt_ge_cases now (expires_at e)); [done|].
    exfalso. apply (not_elem_of_nil r). rewrite <- Hd.
    apply list_elem_of_filter. split; [lia|done]. }
  pose proof (inv_entries _ _ _ Hinv _ _ He) as (_ & _ & _ & Hok).
  unfold phase_ok in Hok. destruct (phase e) as [|reason []] eqn:Hp.
  - left. naive_solver.
  - left. naive_solver.
  - rewrite Hr in Hok. set_solver.
  - right. naive_solver.
Qed.

(** ** A refreshed session survives until its deadline *)

Definition alive_until (s : ClientSession) (T : N) (st : RegistryState) : Prop :=
  ∃ e, entries st !! session_client s = Some e ∧ session e = s ∧
       phase e = PhaseActive ∧ T <= expires_at e.

(** Operations that do not end the session [s] on purpose and happen before
    the tick [T]. *)
Definition spares (s : ClientSession) (T : N) (op : client_op) : Prop :=
  match op with
  | OpActivate c now | OpHeartbeat c now => c = session_client s → now < T
  | OpRollback s' | OpBeginDrain s' _ => s' ≠ s
  | OpClaimDue now _ => now < T
  | OpFinish _ | OpDrop _ => True
  end.

Lemma alive_set_entry s T st c e' :
  alive_until s T st → (c = session_client s → session e' = s ∧
    phase e' = PhaseActive ∧ T <= expires_at e') →
  alive_until s T (set_entry c e' st).
Proof.
  intros (e & He & Hs & Hp & Ht) H. unfold alive_until; simpl.
  destruct (decide (c = session_client s)) as [->|Hne].
  - exists e'. rewrite lookup_insert_eq. naive_solver.
  - exists e. by rewrite lookup_insert_ne.
Qed.

Lemma alive_ext s T st st' :
  entries st' = entries st → alive_until s T st → alive_until s T st'.
Proof. unfold alive_until. by intros ->. Qed.

Lemma alive_touch s T st c e now ttl :
  alive_until s T st → entries st !! c = Some e → phase e = PhaseActive →
  (c = session_client s → now < T) →
  alive_until s T
    (match expire_if_due now c e st with
     | (true, st') => st'
     | (false, _) => set_entry c (refresh now ttl e) st
     end).
Proof.
  intros Ha He Hp Hnow. pose proof Ha as (e0 & He0 & Hs0 & Hp0 & Ht0).
  unfold expire_if_due.
  destruct (N.ltb_spec now (expires_at e)) as [Hlt|Hge].
  - apply alive_set_entry; [done|]. intros ->. assert (e0 = e) as -> by congruence.
    simpl. split_and!; try done. lia.
  - eapply alive_ext; [|apply (alive_set_entry s T st c
      (set_phase (CleanupPending HeartbeatExpired Ready) e) Ha)]; [done|].
    intros ->. assert (e0 = e) as -> by congruence. specialize (Hnow eq_refl). lia.
Qed.

Lemma alive_claim s T st expected c e :
  alive_until s T st → entries st !! c = Some e →
  alive_until s T (claim_cleanup expected c e st).2.
Proof.
  intros Ha He. pose proof Ha as (e0 & He0 & Hs0 & Hp0 & Ht0).
  unfold claim_cleanup. repeat case_match; try done. simpl.
  apply alive_set_entry; [done|]. intros ->. congruence.
Qed.

Lemma alive_ready_loop s T : ∀ n st cl,
  alive_until s T st → alive_until s T (claim_ready_loop n st cl).1.2.
Proof.
  induction n as [|n IH]; intros st cl Ha; simpl; [done|].
  destruct (cleanup_ready st) as [|s' rest]; [done|].
  assert (alive_until s T (set_cleanup_ready rest st)) as Ha' by done.
  destruct (entries st !! session_client s') as [e|] eqn:He; [|by apply IH].
  case_decide; [|by apply IH].
  pose proof (alive_claim s T _ Queued (session_client s') e Ha' He) as H'.
  destruct (claim_cleanup _ _ _ _) as [[claim|] st2]; by apply IH.
Qed.

Lemma alive_process_deadline s T now record st :
  alive_until s T st → now < T → alive_until s T (process_deadline now record st).2.
Proof.
  intros Ha Hnow. pose proof Ha as (e0 & He0 & Hs0 & Hp0 & Ht0).
  unfold process_deadline.
  destruct (entries st !! dl_client record) as [e|] eqn:He; [|done].
  destruct (_ =? _); [|done].
  destruct (phase e) as [|[] claim] eqn:Hp; try done; [|by apply alive_claim].
  destruct (N.ltb_spec now (expires_at e)); [done|].
  assert (dl_client record ≠ session_client s) as Hne.
  { intros Heq. rewrite Heq in He. assert (e0 = e) as -> by congruence. lia. }
  unfold mark_expired, fence, claim_cleanup; simpl.
  exists e0. simpl. rewrite !lookup_insert_ne by done. done.
Qed.

Lemma alive_deadline_loop s T now : ∀ n st cl,
  alive_until s T st → now < T → alive_until s T (claim_deadline_loop now n st cl).1.
Proof.
  induction n as [|n IH]; intros st cl Ha Hnow; simpl; [done|].
  destruct (deadlines st) as [|record rest]; [done|].
  destruct (now <? _); [done|].
  pose proof (alive_process_deadline s T now record (set_deadlines rest st) Ha Hnow) as H.
  destruct (process_deadline _ _ _) as [claim st1]. by apply IH.
Qed.

Lemma alive_step cfg s T op w :
  registry_inv cfg (registry w) (held w) → alive_until s T (registry w) →
  spares s T op → alive_until s T (registry (client_step cfg op w)).
Proof.
  destruct w as [st h]. intros Hinv Ha Hop.
  pose proof Ha as (e0 & He0 & Hs0 & Hp0 & Ht0).
  assert (∀ claim, claim ∈ h →
            session_client (cleanup_session claim) ≠ session_client s) as Hheld.
  { intros claim Hin Heq. destruct (held_running _ _ _ _ Hinv Hin) as (e & He & _ & Hp).
    rewrite Heq in He. congruence. }
  destruct op; simpl in *.
  - unfold activate. destruct (client_is_nil c); [done|].
    destruct (entries st !! c) as [e|] eqn:He.
    + destruct (entry_is_active e) eqn:Hact; [simpl|done].
      apply entry_is_active_true in Hact.
      pose proof (alive_touch s T st c e now (ttl_ticks cfg) Ha He Hact Hop) as H.
      by destruct (expire_if_due now c e st) as [[] ?].
    + destruct (_ <=? _); [done|]. unfold allocate_generation.
      destruct (checked_add _ _); [|done]. exists e0. simpl.
      rewrite lookup_insert_ne; [done|]. congruence.
  - unfold heartbeat. destruct (entries st !! c) as [e|] eqn:He; [|done].
    destruct (entry_is_active e) eqn:Hact; [simpl|done].
    apply entry_is_active_true in Hact.
    pose proof (alive_touch s T st c e now (ttl_ticks cfg) Ha He Hact Hop) as H.
    by destruct (expire_if_due now c e st) as [[] ?].
  - unfold rollback_activation, ensure_session.
    destruct (entries st !! session_client s0) as [e|] eqn:He; [|done].
    case_decide as Hs; [|done]. destruct (entry_is_active e); [simpl|done].
    exists e0. simpl. rewrite lookup_delete_ne; [done|]. congruence.
  - unfold begin_drain, ensure_session.
    destruct (entries st !! session_client s0) as [e|] eqn:He; [|done].
    case_decide as Hs; [|done].
    assert (session_client s0 ≠ session_client s) as Hne by congruence.
    destruct (entry_is_active e).
    + unfold claim_cleanup. simpl. exists e0. simpl. by rewrite !lookup_insert_ne.
    + pose proof (alive_claim s T st Ready _ e Ha He) as H.
      by destruct (claim_cleanup _ _ _ _) as [[claim|] ?].
  - unfold claim_due_cleanups.
    pose proof (alive_ready_loop s T (budget `min` cleanup_scan_budget cfg) st [] Ha) as H.
    destruct (claim_ready_loop _ _ _) as [[n st1] cl].
    pose proof (alive_deadline_loop s T now n st1 cl H Hop) as H'.
    by destruct (claim_deadline_loop _ _ _ _).
  - case_decide as Hin; [|done]. erewrite finish_cleanup_held by eauto. simpl.
    exists e0. simpl. rewrite lookup_delete_ne by auto. done.
  - case_decide as Hin; [|done]. unfold ClientCleanup_drop, release_cleanup.
    repeat case_match; try done. exists e0. simpl. rewrite lookup_insert_ne by auto. done.
Qed.

Lemma alive_run cfg s T ops ops' :
  alive_until s T (registry (client_run cfg ops)) → Forall (spares s T) ops' →
  alive_until s T (registry (client_run cfg (ops ++ ops'))).
Proof.
  intros Ha. induction ops' as [|op ops' IH] using rev_ind.
  - by rewrite app_nil_r.
  - intros [H1 H2]%Forall_app. rewrite (assoc_L (++)), client_run_app. simpl.
    apply alive_step; [apply registry_inv_run|auto|]. by inversion H2.
Qed.

Lemma heartbeat_alive cfg c now st s st' :
  heartbeat cfg c now st = (Alive s, st') → session_client s = c →
  alive_until s (saturating_add now (ttl_ticks cfg)) st'.
Proof.
  unfold heartbeat, expire_if_due.
  destruct (entries st !! c) as [e|] eqn:He; [|done].
  destruct (entry_is_active e) eqn:Ha; [simpl|done].
  destruct (N.ltb_spec now (expires_at e)); [|done].
  intros [= <- <-] Hc. eexists. simpl. rewrite Hc, lookup_insert_eq.
  apply entry_is_active_true in Ha. split_and!; try done. simpl. lia.
Qed.

(** ** Properties *)

(** C26: For every configuration and every sequence of registry operations, the
    registry is consistent: entries are keyed by their own session, a session
    guard is set exactly for the sessions with an active entry, every active
    or expired-but-unclaimed client has a deadline record no later than its
    expiry, every requeued cleanup is in the ready queue exactly once, every
    running cleanup is a claim some caller holds, the deadline heap is ordered
    and the number of entries never exceeds [max_clients]. *)
Theorem registry_invariant cfg ops :
  registry_inv cfg (registry (client_run cfg ops)) (held (client_run cfg ops)) ∧
  ∀ s, guard_is_active s (registry (client_run cfg ops)) = true ↔
       ∃ e, entries (registry (client_run cfg ops)) !! session_client s = Some e ∧
            session e = s ∧ phase e = PhaseActive.
Proof.
  pose proof (registry_inv_run cfg ops) as Hinv. split; [done|].
  intros s. split.
  - intros Hg. destruct (inv_guards _ _ _ Hinv _ Hg) as (e & He & Hs).
    exists e. split_and!; try done.
    pose proof (inv_entries _ _ _ Hinv _ _ He) as (_ & _ & _ & Hok).
    unfold phase_ok in Hok. rewrite Hs in Hok.
    destruct (phase e); [done|]. destruct Hok as [Hok _]. congruence.
  - intros (e & He & Hs & Hp).
    pose proof (inv_entries _ _ _ Hinv _ _ He) as (_ & _ & _ & Hok).
    unfold phase_ok in Hok. rewrite Hp, Hs in Hok. apply Hok.
Qed.

(** Cleanup claims are exclusive and always completable: in every reachable
    state the callers hold at most one claim per session, and finishing a held
    claim succeeds and removes exactly the fenced client (the errors of
    [finish_cleanup] and the requeue after them are unreachable for a claim
    that is still held). *)
Theorem cleanup_claims_exclusive cfg ops claim :
  claim ∈ held (client_run cfg ops) →
  NoDup (cleanup_session <$> held (client_run cfg ops)) ∧
  ClientCleanup_finish claim (registry (client_run cfg ops)) =
    (Ok tt, remove_entry (session_client (cleanup_session claim))
              (registry (client_run cfg ops))) ∧
  guard_is_active (cleanup_session claim) (registry (client_run cfg ops)) = false.
Proof.
  intros Hin. pose proof (registry_inv_run cfg ops) as Hinv. split_and!.
  - apply Hinv.
  - by eapply finish_cleanup_held.
  - destruct (held_running _ _ _ _ Hinv Hin) as (e & He & Hs & Hp).
    pose proof (inv_entries _ _ _ Hinv _ _ He) as (_ & _ & _ & Hok).
    unfold phase_ok in Hok. rewrite Hp, Hs in Hok. apply Hok.
Qed.

Definition example_config : ClientLifecycleConfig := mkLifecycleConfig 10 2 4.
Definition example_client : ClientId := mkClientId 7 9.
Definition example_expiry : list client_op :=
  [OpActivate example_client 5; OpHeartbeat example_client 12; OpClaimDue 30 4;
   OpClaimDue 30 4].

Lemma cleanup_claims_exclusive_witness :
  NoDup (cleanup_session <$> held (client_run example_config example_expiry)) ∧
  ClientCleanup_finish (mkCleanup (mkSession example_client 1) HeartbeatExpired)
      (registry (client_run example_config example_expiry)) =
    (Ok tt, remove_entry example_client
              (registry (client_run example_config example_expiry))) ∧
  guard_is_active (mkSession example_client 1)
    (registry (client_run example_config example_expiry)) = false.
Proof.
  apply (cleanup_claims_exclusive example_config example_expiry
    (mkCleanup (mkSession example_client 1) HeartbeatExpired)).
  assert (held (client_run example_config example_expiry) =
    [mkCleanup (mkSession example_client 1) HeartbeatExpired]) as -> by reflexivity.
  apply list_elem_of_here.
Defined.

(** Fencing is permanent: once the guard of an issued session has been
    invalidated, no later sequence of operations makes that session active
    again, and a new activation never reuses an issued session. *)
Theorem fenced_forever cfg ops ops' s :
  guards (registry (client_run cfg ops)) !! s = Some false →
  guard_is_active s (registry (client_run cfg (ops ++ ops'))) = false ∧
  ∀ c now st', activate cfg c now (registry (client_run cfg (ops ++ ops'))) ≠
               (Ok (Activated s), st').
Proof.
  intros Hs.
  assert (guards (registry (client_run cfg (ops ++ ops'))) !! s = Some false) as Hf
    by by apply guards_run.
  split; [unfold guard_is_active; by rewrite Hf|].
  pose proof (registry_inv_run cfg (ops ++ ops')) as Hinv.
  intros c now st' Hact. pose proof (inv_issued _ _ _ Hinv _ _ Hf) as Hlt.
  unfold activate, allocate_generation in Hact.
  repeat case_match; simplify_eq/=. lia.
Qed.

Lemma fenced_forever_witness :
  guard_is_active (mkSession example_client 1)
    (registry (client_run example_config
       (example_expiry ++
        [OpFinish (mkCleanup (mkSession example_client 1) HeartbeatExpired);
         OpActivate example_client 40]))) = false ∧
  ∀ c now st', activate example_config c now
    (registry (client_run example_config
       (example_expiry ++
        [OpFinish (mkCleanup (mkSession example_client 1) HeartbeatExpired);
         OpActivate example_client 40]))) ≠
    (Ok (Activated (mkSession example_client 1)), st').
Proof. apply fenced_forever. reflexivity. Defined.

(** No cleanup is lost: whatever happened before, enough maintenance rounds
    at tick [now], each with any positive budget, leave every client either
    with a deadline after [now] or with its cleanup claimed by a caller.  One
    round per outstanding record is enough. *)
Theorem maintenance_claims_everything cfg ops now budget n :
  ClientLifecycleConfig_validate cfg = Ok tt → (0 < budget)%nat →
  (pending_work now (registry (client_run cfg ops)) <= n)%nat →
  let w := client_run cfg (ops ++ replicate n (OpClaimDue now budget)) in
  ∀ c e, entries (registry w) !! c = Some e →
    now < expires_at e ∨
    ∃ reason, phase e = CleanupPending reason Running ∧
              mkCleanup (session e) reason ∈ held w.
Proof.
  intros Hcfg Hb Hn w c e He.
  apply (no_pending_work cfg (registry w) (held w) now c e);
    [apply registry_inv_run| |done].
  unfold w. rewrite pending_work_rounds.
  assert (0 < budget `min` cleanup_scan_budget cfg)%nat; [|nia].
  unfold ClientLifecycleConfig_validate in Hcfg.
  destruct (ttl_ticks cfg =? 0), (max_clients cfg =? 0); try done.
  destruct (Nat.eqb_spec (cleanup_scan_budget cfg) 0); [done|lia].
Qed.

Definition example_maintenance : list client_op :=
  [OpActivate example_client 5; OpHeartbeat example_client 12].

Lemma maintenance_claims_everything_witness :
  40 < 22 ∨
  ∃ reason,
    CleanupPending HeartbeatExpired Running = CleanupPending reason Running ∧
    mkCleanup (mkSession example_client 1) reason ∈
      held (client_run example_config
              (example_maintenance ++ replicate 2 (OpClaimDue 40 1))).
Proof.
  apply (maintenance_claims_everything example_config example_maintenance 40 1 2)
    with (c := example_client)
         (e := mkEntry (mkSession example_client 1) (mkSession example_client 1)
                 (CleanupPending HeartbeatExpired Running) 22);
    [reflexivity|lia|vm_compute; lia|reflexivity].
Defined.

(** A heartbeat that reports [Alive] at tick [now] keeps the session: no
    sequence of operations before [now + ttl] (saturating), other than an
    explicit drain or rollback of that very session, fences it. *)
Theorem heartbeat_keeps_session cfg ops ops' c now s st' :
  heartbeat cfg c now (registry (client_run cfg ops)) = (Alive s, st') →
  Forall (spares s (saturating_add now (ttl_ticks cfg))) ops' →
  guard_is_active s
    (registry (client_run cfg ((ops ++ [OpHeartbeat c now]) ++ ops'))) = true.
Proof.
  intros Hhb Hops.
  assert (session_client s = c) as Hc.
  { unfold heartbeat, expire_if_due in Hhb. repeat case_match; simplify_eq/=.
    by destruct (inv_entries _ _ _ (registry_inv_run cfg ops) c c0) as (-> & _). }
  destruct (alive_run cfg s (saturating_add now (ttl_ticks cfg))
    (ops ++ [OpHeartbeat c now]) ops') as (e & He & Hs & Hp & _); [|done|].
  - rewrite client_run_app. simpl. rewrite Hhb. by eapply heartbeat_alive.
  - pose proof (registry_inv_run cfg ((ops ++ [OpHeartbeat c now]) ++ ops')) as Hinv.
    pose proof (inv_entries _ _ _ Hinv _ _ He) as (_ & _ & _ & Hok).
    unfold phase_ok in Hok. rewrite Hp, Hs in Hok. apply Hok.
Qed.

Lemma heartbeat_keeps_session_witness :
  guard_is_active (mkSession example_client 1)
    (registry (client_run example_config
       (([OpActivate example_client 5] ++ [OpHeartbeat example_client 12]) ++
        [OpClaimDue 15 4; OpClaimDue 21 4]))) = true.
Proof.
  eapply (heartbeat_keeps_session example_config [OpActivate example_client 5]
    [OpClaimDue 15 4; OpClaimDue 21 4] example_client 12); [reflexivity|].
  repeat constructor; vm_compute; reflexivity.
Defined.
