(* ===== verification/ByteAllocator.v ===== *)
(** * Byte allocator

    [src/src/segment/offset_allocator.rs]: the byte-oriented adapter over the
    [offset-allocator] crate.  The crate is not part of this repository; it is
    the class [Upstream], with the documented behaviour the adapter relies on
    as the laws [UpstreamLaws].  [Bump] is a small allocator that satisfies
    them, used by the witnesses.  The mutex makes every method one step. *)
From S2P Require Import Prelude.

(** ** The upstream crate *)

Class Upstream (A Alloc : Type) := {
  with_max_allocs : N → N → A;
  up_allocate : N → A → option (Alloc * A);
  up_free : Alloc → A → A;
  allocation_size : A → Alloc → N;
  alloc_offset : Alloc → N;
  total_free_space : A → N;
  largest_free_region : A → N
}.

(** [up_rep cap live a]: [a] manages [cap] units and its outstanding
    allocations are [live]. *)
Class UpstreamLaws (A Alloc : Type) `{U : Upstream A Alloc} := {
  up_rep : N → list Alloc → A → Prop;
  up_rep_new cap nodes : 0 < cap → 3 <= nodes → up_rep cap [] (with_max_allocs cap nodes);
  up_rep_perm cap l l' a : l ≡ₚ l' → up_rep cap l a → up_rep cap l' a;
  up_rep_allocate cap l a n x a' :
    up_rep cap l a → 0 < n → up_allocate n a = Some (x, a') →
    up_rep cap (x :: l) a' ∧ n <= allocation_size a' x ∧
    (∀ y, y ∈ l → allocation_size a' y = allocation_size a y);
  up_rep_free cap x l a :
    up_rep cap (x :: l) a →
    up_rep cap l (up_free x a) ∧
    (∀ y, y ∈ l → allocation_size (up_free x a) y = allocation_size a y);
  (** Outstanding ranges lie inside the managed space and do not overlap. *)
  up_rep_bounds cap l a x :
    up_rep cap l a → x ∈ l →
    0 < allocation_size a x ∧ alloc_offset x + allocation_size a x <= cap;
  up_rep_disjoint cap x y l a :
    up_rep cap (x :: y :: l) a →
    alloc_offset x + allocation_size a x <= alloc_offset y ∨
    alloc_offset y + allocation_size a y <= alloc_offset x;
  (** "Maximum potential size of a single contiguous allocation." *)
  up_largest_bound cap l a : up_rep cap l a → largest_free_region a <= cap;
  up_largest_sound cap l a n r :
    up_rep cap l a → 0 < n → up_allocate n a = Some r → n <= largest_free_region a;
  up_largest_mono cap l a n x a' :
    up_rep cap l a → 0 < n → up_allocate n a = Some (x, a') →
    largest_free_region a' <= largest_free_region a
}.

(** ** The quantum of a segment *)

(** [while (capacity >> quantum_shift) > u32::MAX { quantum_shift += 1 }]. *)
Fixpoint quantum_shift_loop (fuel : nat) (capacity shift : N) : N :=
  match fuel with
  | O => shift
  | S fuel' =>
      if U32_MAX <? N.shiftr capacity shift
      then quantum_shift_loop fuel' capacity (shift + 1)
      else shift
  end.

(** A [u64] shifted 32 times fits in a [u32]. *)
Definition quantum_shift_of (capacity : N) : N := quantum_shift_loop 32 capacity 0.

(** ** Adapter state *)

Section Adapter.
Context {A Alloc : Type} `{U : Upstream A Alloc}.

Record SharedAllocator := mkShared {
  inner : A;
  used_bytes : N;
  live_allocations : N;
  quantum_shift : N;
  managed_capacity : N;
  largest_free_region_hint : N
}.

Record OffsetAllocationHandle := mkHandle {
  allocation : Alloc;
  offset : N;
  requested_bytes : N;
  reserved_bytes : N
}.

Record AllocatorStats := mkAllocatorStats {
  as_capacity : N;
  as_used_bytes : N;
  as_available_bytes : N;
  as_largest_free_region : N;
  as_live_allocations : N
}.

Definition ByteAllocator_new (capacity max_allocator_nodes : N) : SharedAllocator :=
  let shift := quantum_shift_of capacity in
  let capacity_units := N.shiftr capacity shift in
  let managed := N.shiftl capacity_units shift in
  let up := with_max_allocs capacity_units max_allocator_nodes in
  mkShared up 0 0 shift managed (N.shiftl (largest_free_region up) shift).

Definition may_satisfy (bytes : N) (sh : SharedAllocator) : bool :=
  negb (bytes =? 0) && (bytes <=? managed_capacity sh) &&
  (bytes <=? largest_free_region_hint sh).

Definition refresh_largest_free_region (sh : SharedAllocator) : SharedAllocator :=
  mkShared (inner sh) (used_bytes sh) (live_allocations sh) (quantum_shift sh)
    (managed_capacity sh) (N.shiftl (largest_free_region (inner sh)) (quantum_shift sh)).

(** Units of the request, rounded up. *)
Definition request_units (bytes : N) (sh : SharedAllocator) : N :=
  let quantum := N.shiftl 1 (quantum_shift sh) in
  bytes / quantum + (if bytes mod quantum =? 0 then 0 else 1).

Definition allocate_after_precheck (bytes : N) (sh : SharedAllocator)
    : option OffsetAllocationHandle * SharedAllocator :=
  let units := request_units bytes sh in
  if U32_MAX <? units then (None, sh)
  else match up_allocate units (inner sh) with
  | None => (None, refresh_largest_free_region sh)
  | Some (x, up) =>
      let reserved := N.shiftl (allocation_size up x) (quantum_shift sh) in
      (Some (mkHandle x (N.shiftl (alloc_offset x) (quantum_shift sh)) bytes reserved),
       mkShared up (used_bytes sh + reserved) (live_allocations sh + 1)
         (quantum_shift sh) (managed_capacity sh) (largest_free_region_hint sh))
  end.

Definition allocator_stats (sh : SharedAllocator) : AllocatorStats :=
  mkAllocatorStats (managed_capacity sh) (used_bytes sh)
    (N.shiftl (total_free_space (inner sh)) (quantum_shift sh))
    (N.shiftl (largest_free_region (inner sh)) (quantum_shift sh))
    (live_allocations sh).

(** The body of the release loop: free each range, then settle the counters.
    [None] is a failed [expect]. *)
Definition release_many (releases : list (Alloc * N)) (sh : SharedAllocator)
    : option SharedAllocator :=
  let up := foldl (fun a r => up_free r.1 a) (inner sh) releases in
  let count := N.of_nat (length releases) in
  match checked_sub (live_allocations sh) count with
  | None => None
  | Some live =>
      match checked_sub (used_bytes sh) (sum_by snd releases) with
      | None => None
      | Some used =>
          let sh' := mkShared up used live (quantum_shift sh) (managed_capacity sh)
                       (largest_free_region_hint sh) in
          Some (if negb (count =? 0) &&
                   (largest_free_region_hint sh <? managed_capacity sh)
                then refresh_largest_free_region sh' else sh')
      end
  end.

Definition pending_release (h : OffsetAllocationHandle) : Alloc * N :=
  (allocation h, reserved_bytes h).

(** Dropping one handle. *)
Definition handle_drop (h : OffsetAllocationHandle) (sh : SharedAllocator)
    : option SharedAllocator :=
  release_many [pending_release h] sh.

(** ** Batched release

    Handles name their owner by the address of its [Arc]; [owners] is the
    store of allocators by address. *)

(** The handles of the group that starts the sorted list. *)
Fixpoint take_group (owner : N) (l : list (N * OffsetAllocationHandle))
    : list (N * OffsetAllocationHandle) * list (N * OffsetAllocationHandle) :=
  match l with
  | [] => ([], [])
  | (o, h) :: l' =>
      if o =? owner then
        let '(g, rest) := take_group owner l' in ((o, h) :: g, rest)
      else ([], l)
  end.

(** The grouping loop; each iteration consumes at least the head, so the
    length of the list is enough fuel. *)
Fixpoint release_groups (fuel : nat) (l : list (N * OffsetAllocationHandle))
    (owners : gmap N SharedAllocator) : option (gmap N SharedAllocator) :=
  match fuel, l with
  | _, [] => Some owners
  | O, _ :: _ => None
  | S fuel', (o, h) :: l' =>
      let '(g, rest) := take_group o l' in
      match owners !! o with
      | None => None
      | Some sh =>
          match release_many (map (fun p => pending_release p.2) ((o, h) :: g)) sh with
          | None => None
          | Some sh' => release_groups fuel' rest (<[o := sh']> owners)
          end
      end
  end.

Definition release_batch (handles : list (N * OffsetAllocationHandle))
    (owners : gmap N SharedAllocator) : option (gmap N SharedAllocator) :=
  let sorted := sort_by_key (fun p => [p.1]) handles in
  release_groups (length sorted) sorted owners.

(** One drop after the other, the reference for [release_batch]. *)
Fixpoint drop_each (handles : list (N * OffsetAllocationHandle)) (owners : gmap N SharedAllocator)
    : option (gmap N SharedAllocator) :=
  match handles with
  | [] => Some owners
  | (o, h) :: l =>
      match owners !! o with
      | None => None
      | Some sh =>
          match handle_drop h sh with
          | None => None
          | Some sh' => drop_each l (<[o := sh']> owners)
          end
      end
  end.
End Adapter.

Arguments SharedAllocator A : clear implicits.
Arguments OffsetAllocationHandle Alloc : clear implicits.

(** ** Quantum selection *)

Lemma shiftr_antimono a s t : s <= t → N.shiftr a t <= N.shiftr a s.
Proof.
  intros Hst. rewrite !N.shiftr_div_pow2.
  apply N.div_le_compat_l. split; [|apply N.pow_le_mono_r; lia].
  assert (2 ^ s ≠ 0) by (apply N.pow_nonzero; lia). lia.
Qed.

Lemma quantum_shift_loop_spec capacity : ∀ fuel shift,
  N.shiftr capacity (shift + N.of_nat fuel) <= U32_MAX →
  (∀ s, s < shift → U32_MAX < N.shiftr capacity s) →
  let r := quantum_shift_loop fuel capacity shift in
  N.shiftr capacity r <= U32_MAX ∧ r <= shift + N.of_nat fuel ∧
  ∀ s, s < r → U32_MAX < N.shiftr capacity s.
Proof.
  induction fuel as [|fuel IH]; intros shift Hend Hbelow; simpl quantum_shift_loop.
  { rewrite N.add_0_r in *. split_and!; [done|lia|done]. }
  destruct (N.ltb_spec U32_MAX (N.shiftr capacity shift)) as [Hbig|Hok].
  - destruct (IH (shift + 1)) as (? & ? & ?).
    + by replace (shift + 1 + N.of_nat fuel) with (shift + N.of_nat (S fuel)) by lia.
    + intros s Hs. destruct (decide (s = shift)) as [->|]; [done|]. apply Hbelow. lia.
    + split_and!; [done|lia|done].
  - split_and!; [done|lia|done].
Qed.

Lemma shiftr_32_u32 capacity : capacity <= U64_MAX → N.shiftr capacity 32 <= U32_MAX.
Proof.
  intros H. rewrite N.shiftr_div_pow2. change (2 ^ 32) with 4294967296.
  apply N.lt_succ_r. apply N.Div0.div_lt_upper_bound. u64.
Qed.

Lemma quantum_shift_spec capacity :
  capacity <= U64_MAX →
  N.shiftr capacity (quantum_shift_of capacity) <= U32_MAX ∧
  quantum_shift_of capacity <= 32 ∧
  ∀ s, s < quantum_shift_of capacity → U32_MAX < N.shiftr capacity s.
Proof.
  intros H. apply (quantum_shift_loop_spec capacity 32 0); [by apply shiftr_32_u32|lia].
Qed.

Lemma quantum_units_pos capacity :
  0 < capacity → capacity <= U64_MAX →
  0 < N.shiftr capacity (quantum_shift_of capacity).
Proof.
  intros Hpos Hmax. destruct (quantum_shift_spec _ Hmax) as (_ & _ & Hmin).
  destruct (N.eq_0_gt_0_cases (quantum_shift_of capacity)) as [->|Hs].
  { by rewrite N.shiftr_0_r. }
  specialize (Hmin (quantum_shift_of capacity - 1) ltac:(lia)).
  set (s := quantum_shift_of capacity) in *.
  replace s with ((s - 1) + 1) by lia. rewrite <- N.shiftr_shiftr.
  set (x := N.shiftr capacity (s - 1)) in *.
  rewrite N.shiftr_div_pow2. change (2 ^ 1) with 2. u64.
  apply N.div_str_pos. lia.
Qed.

Lemma managed_le_capacity capacity shift :
  N.shiftl (N.shiftr capacity shift) shift <= capacity.
Proof.
  rewrite N.shiftl_mul_pow2, N.shiftr_div_pow2, N.mul_comm.
  apply N.Div0.mul_div_le.
Qed.

Lemma managed_pos capacity :
  0 < capacity → capacity <= U64_MAX →
  0 < N.shiftl (N.shiftr capacity (quantum_shift_of capacity)) (quantum_shift_of capacity).
Proof.
  intros Hpos Hmax. pose proof (quantum_units_pos _ Hpos Hmax).
  rewrite N.shiftl_mul_pow2.
  assert (2 ^ quantum_shift_of capacity ≠ 0) by (apply N.pow_nonzero; lia). nia.
Qed.

(** ** Intervals *)

(** Pairwise disjoint intervals inside [0, cap) have total length at most [cap]. *)
Lemma disjoint_total (l : list (N * N)) (cap : N) :
  (∀ x, x ∈ l → x.1 + x.2 <= cap) →
  (∀ i j x y, i ≠ j → l !! i = Some x → l !! j = Some y →
     x.1 + x.2 <= y.1 ∨ y.1 + y.2 <= x.1) →
  sum_by snd l <= cap.
Proof.
  set (cells := fun x : N * N => seq (N.to_nat x.1) (N.to_nat x.2)).
  intros Hin Hdisj.
  assert (∀ x p, p ∈ cells x ↔ (N.to_nat x.1 <= p < N.to_nat x.1 + N.to_nat x.2)%nat) as Hc.
  { intros x p. apply elem_of_seq. }
  assert (NoDup (l ≫= cells)) as Hnd.
  { clear Hin. induction l as [|x l IH]; [constructor|]. rewrite bind_cons.
    apply NoDup_app. split_and!; [apply NoDup_seq| |].
    - intros p Hp (y & Hpy & Hy)%list_elem_of_bind. apply Hc in Hp, Hpy.
      apply list_elem_of_lookup in Hy as [j Hj].
      destruct (Hdisj 0%nat (S j) x y); try done; lia.
    - apply IH. intros i j y z Hij Hi Hj. apply (Hdisj (S i) (S j)); [lia|done..]. }
  assert (length (l ≫= cells) <= length (seq 0 (N.to_nat cap)))%nat as Hlen.
  { apply submseteq_length, NoDup_submseteq; [done|]. intros p Hp.
    apply list_elem_of_bind in Hp as (x & Hpx & Hx). apply Hc in Hpx.
    specialize (Hin x Hx). apply elem_of_seq. lia. }
  rewrite length_seq in Hlen.
  assert (∀ k, N.of_nat (length (k ≫= cells)) = sum_by snd k) as Hsum.
  { intros k. induction k as [|x k IH]; [done|]. rewrite bind_cons, length_app.
    unfold cells at 1. rewrite length_seq. rewrite sum_by_cons. lia. }
  rewrite <- Hsum. lia.
Qed.

(** ** Adapter invariant *)

Section AdapterProofs.
Context {A Alloc : Type} `{L : UpstreamLaws A Alloc}.
Implicit Types (sh : SharedAllocator A) (h : OffsetAllocationHandle Alloc).

Record handle_ok (sh : SharedAllocator A) (h : OffsetAllocationHandle Alloc) : Prop := {
  ho_offset : offset h = N.shiftl (alloc_offset (allocation h)) (quantum_shift sh);
  ho_reserved :
    reserved_bytes h = N.shiftl (allocation_size (inner sh) (allocation h)) (quantum_shift sh);
  ho_requested : requested_bytes h <= reserved_bytes h
}.

(** [hs] are the handles the callers hold on [sh]. *)
Record alloc_inv (sh : SharedAllocator A) (hs : list (OffsetAllocationHandle Alloc))
    : Prop := {
  ai_rep : ∃ units, units <= U32_MAX ∧
    managed_capacity sh = N.shiftl units (quantum_shift sh) ∧
    up_rep units (allocation <$> hs) (inner sh);
  ai_managed : managed_capacity sh <= U64_MAX;
  ai_handles : ∀ h, h ∈ hs → handle_ok sh h;
  ai_used : used_bytes sh = sum_by reserved_bytes hs;
  ai_live : live_allocations sh = N.of_nat (length hs);
  ai_hint :
    N.shiftl (largest_free_region (inner sh)) (quantum_shift sh)
      <= largest_free_region_hint sh
}.

Lemma alloc_inv_perm sh hs hs' : hs ≡ₚ hs' → alloc_inv sh hs → alloc_inv sh hs'.
Proof.
  intros Hp [(units & ? & ? & Hrep) ? Hh Hu Hl ?]. split; try done.
  - exists units. split_and!; try done. eapply up_rep_perm; [|done]. by rewrite Hp.
  - intros h Hin. apply Hh. by rewrite Hp.
  - by rewrite Hu, Hp.
  - by rewrite Hl, Hp.
Qed.

Lemma alloc_inv_new capacity nodes :
  0 < capacity → capacity <= U64_MAX → 3 <= nodes →
  alloc_inv (ByteAllocator_new capacity nodes) [].
Proof.
  intros Hpos Hmax Hn. destruct (quantum_shift_spec _ Hmax) as (Hu & _ & _).
  split; simpl; try done; [| |set_solver].
  - eexists. split_and!; [exact Hu|done|]. apply up_rep_new; [|done].
    by apply quantum_units_pos.
  - etrans; [apply managed_le_capacity|done].
Qed.

Lemma shiftl_mono a b s : a <= b → N.shiftl a s <= N.shiftl b s.
Proof. intros. rewrite !N.shiftl_mul_pow2. by apply N.mul_le_mono_r. Qed.

Lemma request_units_spec bytes sh :
  bytes <= N.shiftl (request_units bytes sh) (quantum_shift sh) ∧
  (∀ u, bytes <= N.shiftl u (quantum_shift sh) → request_units bytes sh <= u) ∧
  (0 < bytes → 0 < request_units bytes sh).
Proof.
  unfold request_units. set (s := quantum_shift sh). rewrite !N.shiftl_mul_pow2, N.mul_1_l.
  assert (2 ^ s ≠ 0) as Hq by (apply N.pow_nonzero; lia).
  pose proof (N.Div0.div_mod bytes (2 ^ s)) as Hdm.
  pose proof (N.mod_lt bytes (2 ^ s) Hq) as Hm.
  set (q := 2 ^ s) in *. set (d := bytes / q) in *. set (m := bytes mod q) in *.
  split_and!.
  - destruct (N.eqb_spec m 0); nia.
  - intros u. rewrite N.shiftl_mul_pow2. fold q.
    intros Hu. destruct (N.eqb_spec m 0); nia.
  - intros Hb. destruct (N.eqb_spec m 0); nia.
Qed.

Lemma alloc_inv_refresh sh hs :
  alloc_inv sh hs → alloc_inv (refresh_largest_free_region sh) hs.
Proof. intros []. split; try done. intros h Hh. by destruct (ai_handles0 h Hh). Qed.

Lemma handle_ok_inner sh sh' h :
  quantum_shift sh' = quantum_shift sh →
  allocation_size (inner sh') (allocation h) = allocation_size (inner sh) (allocation h) →
  handle_ok sh h → handle_ok sh' h.
Proof. intros Hq Hs []. split; rewrite ?Hq, ?Hs; done. Qed.

Lemma alloc_inv_allocate sh hs bytes o sh' :
  alloc_inv sh hs → 0 < bytes → allocate_after_precheck bytes sh = (o, sh') →
  alloc_inv sh' (option_list o ++ hs) ∧ (∀ h, o = Some h → requested_bytes h = bytes).
Proof.
  intros Hinv Hb. unfold allocate_after_precheck.
  destruct (request_units_spec bytes sh) as (Hge & _ & Hpos). specialize (Hpos Hb).
  set (units := request_units bytes sh) in *.
  destruct (U32_MAX <? units); [by intros [= <- <-]|].
  destruct (up_allocate units (inner sh)) as [[x up]|] eqn:Ha; intros [= <- <-];
    [|by split; [apply alloc_inv_refresh|]].
  pose proof Hinv as [(cap & Hcap & Hm & Hrep) Hmm Hh Hu Hl Hhint].
  destruct (up_rep_allocate _ _ _ _ _ _ Hrep Hpos Ha) as (Hrep' & Hsz & Hsame).
  split; [|by intros h [= <-]]. split; simpl; try done.
  - by exists cap.
  - intros h [->|Hin]%elem_of_cons.
    + split; simpl; try done. etrans; [exact Hge|]. by apply shiftl_mono.
    + eapply handle_ok_inner; [| |by apply Hh]; [done|]. simpl. apply Hsame.
      apply list_elem_of_fmap. eauto.
  - rewrite Hu, sum_by_cons. simpl. lia.
  - rewrite Hl. lia.
  - etrans; [|exact Hhint]. apply shiftl_mono. by eapply up_largest_mono.
Qed.

(** The precheck is complete: it never turns away a request that the upstream
    allocator would satisfy. *)
Lemma may_satisfy_complete sh hs bytes h sh' :
  alloc_inv sh hs → 0 < bytes →
  allocate_after_precheck bytes sh = (Some h, sh') → may_satisfy bytes sh = true.
Proof.
  intros Hinv Hb. unfold allocate_after_precheck.
  destruct (request_units_spec bytes sh) as (Hge & _ & Hpos). specialize (Hpos Hb).
  set (units := request_units bytes sh) in *.
  destruct (U32_MAX <? units); [done|].
  destruct (up_allocate units (inner sh)) as [[x up]|] eqn:Ha; [|done]. intros _.
  destruct Hinv as [(cap & Hcap & Hm & Hrep) _ _ _ _ Hhint].
  pose proof (up_largest_sound _ _ _ _ _ Hrep Hpos Ha) as Hs.
  pose proof (up_largest_bound _ _ _ Hrep) as Hlb.
  pose proof (shiftl_mono _ _ (quantum_shift sh) Hs).
  pose proof (shiftl_mono _ _ (quantum_shift sh) Hlb).
  unfold may_satisfy. rewrite Hm.
  apply andb_true_iff; split; [apply andb_true_iff; split|].
  - apply negb_true_iff, N.eqb_neq. lia.
  - apply N.leb_le. lia.
  - apply N.leb_le. lia.
Qed.

Lemma up_rep_free_all cap l : ∀ a (rs : list (Alloc * N)),
  up_rep cap ((fst <$> rs) ++ l) a →
  let a' := foldl (fun a r => up_free r.1 a) a rs in
  up_rep cap l a' ∧ ∀ y, y ∈ l → allocation_size a' y = allocation_size a y.
Proof.
  intros a rs. revert a. induction rs as [|[x b] rs IH]; intros a Hrep; simpl in *; [done|].
  destruct (up_rep_free _ _ _ _ Hrep) as [Hrep' Hsz].
  destruct (IH _ Hrep') as [Hfin Hsz']. split; [done|].
  intros y Hy. rewrite Hsz' by done. apply Hsz. set_solver.
Qed.

(** Releasing held handles never fails and gives their bytes back. *)
Lemma alloc_inv_release sh gone rest :
  alloc_inv sh (gone ++ rest) →
  ∃ sh', release_many (map pending_release gone) sh = Some sh' ∧ alloc_inv sh' rest ∧
    managed_capacity sh' = managed_capacity sh ∧ quantum_shift sh' = quantum_shift sh.
Proof.
  intros [(cap & Hcap & Hm & Hrep) Hmm Hh Hu Hl Hhint]. unfold release_many.
  rewrite length_map, sum_by_map.
  change (sum_by (fun x => (pending_release x).2) gone) with (sum_by reserved_bytes gone).
  rewrite length_app in Hl. rewrite sum_by_app in Hu.
  rewrite (proj2 (checked_sub_Some _ _ (N.of_nat (length rest)))) by (split; lia).
  rewrite (proj2 (checked_sub_Some _ _ (sum_by reserved_bytes rest)))
    by (split; lia).
  assert (up_rep cap ((fst <$> map pending_release gone) ++ (allocation <$> rest))
            (inner sh)) as Hrep'.
  { rewrite fmap_app in Hrep.
    replace (fst <$> map pending_release gone) with (allocation <$> gone); [done|].
    clear. induction gone as [|g gone IH]; [done|]. simpl. f_equal. exact IH. }
  destruct (up_rep_free_all _ _ _ _ Hrep') as [Hfin Hsz].
  set (sh' := mkShared _ _ _ _ _ _).
  assert (∀ h, h ∈ rest → handle_ok sh' h) as Hok.
  { intros h Hin. eapply handle_ok_inner; [..|apply Hh; set_solver]; [done|].
    simpl. apply Hsz. apply list_elem_of_fmap. eauto. }
  eexists. split; [done|].
  destruct gone as [|g gone].
  { simpl. split; [|done]. split; simpl; eauto. }
  assert (managed_capacity sh <= largest_free_region_hint sh → alloc_inv sh' rest) as Hsame.
  { intros Hfull. split; simpl; eauto. etrans; [|exact Hfull].
    rewrite Hm. apply shiftl_mono. by eapply up_largest_bound. }
  destruct (N.ltb_spec (largest_free_region_hint sh) (managed_capacity sh)); simpl.
  - split; [|done]. split; simpl; eauto; try done.
    intros h Hin. by eapply handle_ok_inner; [..|apply Hok].
  - auto.
Qed.

Lemma allocations_disjoint cap (a : A) hs i j h k :
  up_rep cap (allocation <$> hs) a → i ≠ j → hs !! i = Some h → hs !! j = Some k →
  let x := allocation h in let y := allocation k in
  alloc_offset x + allocation_size a x <= alloc_offset y ∨
  alloc_offset y + allocation_size a y <= alloc_offset x.
Proof.
  intros Hrep Hij Hi Hj.
  destruct (two_elements_perm hs i j h k) as [l Hl]; [done..|].
  eapply (up_rep_perm _ _ (allocation <$> h :: k :: l)) in Hrep; [|by rewrite Hl].
  simpl in *. exact (up_rep_disjoint _ _ _ _ _ Hrep).
Qed.

Lemma allocations_total cap (a : A) hs :
  up_rep cap (allocation <$> hs) a →
  sum_by (fun h => allocation_size a (allocation h)) hs <= cap.
Proof.
  intros Hrep.
  replace (sum_by _ hs) with (sum_by snd (map (fun h =>
    (alloc_offset (allocation h), allocation_size a (allocation h))) hs))
    by (by rewrite sum_by_map).
  apply disjoint_total.
  - intros x (h & <- & Hin%list_elem_of_In)%list_elem_of_In%in_map_iff. simpl.
    apply (up_rep_bounds _ _ _ _ Hrep). apply list_elem_of_fmap. eauto.
  - intros i j x y Hij. rewrite !list_lookup_fmap.
    intros (h & Hi & ->)%fmap_Some (k & Hj & ->)%fmap_Some. simpl.
    by eapply allocations_disjoint.
Qed.

Lemma handle_range sh hs h :
  alloc_inv sh hs → h ∈ hs →
  0 < reserved_bytes h ∧ offset h + reserved_bytes h <= managed_capacity sh.
Proof.
  intros [(cap & Hcap & Hm & Hrep) _ Hh _ _ _] Hin.
  destruct (Hh h Hin) as [-> -> _].
  destruct (up_rep_bounds _ _ _ (allocation h) Hrep) as [Hpos Hb].
  { apply list_elem_of_fmap. eauto. }
  rewrite Hm, !N.shiftl_mul_pow2.
  assert (2 ^ quantum_shift sh ≠ 0) by (apply N.pow_nonzero; lia). nia.
Qed.

Lemma handles_disjoint sh hs i j h k :
  alloc_inv sh hs → i ≠ j → hs !! i = Some h → hs !! j = Some k →
  offset h + reserved_bytes h <= offset k ∨ offset k + reserved_bytes k <= offset h.
Proof.
  intros [(cap & _ & _ & Hrep) _ Hh _ _ _] Hij Hi Hj.
  destruct (Hh h) as [-> -> _]; [by eapply list_elem_of_lookup_2|].
  destruct (Hh k) as [-> -> _]; [by eapply list_elem_of_lookup_2|].
  rewrite !N.shiftl_mul_pow2.
  pose proof (allocations_disjoint _ _ _ _ _ _ _ Hrep Hij Hi Hj). simpl in *. nia.
Qed.

(** The counters stay within their width: the bytes in use never exceed the
    managed capacity, and the number of live ranges is a [u32]. *)
Lemma alloc_inv_counters sh hs :
  alloc_inv sh hs →
  used_bytes sh <= managed_capacity sh ∧ live_allocations sh <= U32_MAX.
Proof.
  intros [(cap & Hcap & Hm & Hrep) _ Hh Hu Hl _].
  pose proof (allocations_total _ _ _ Hrep) as Htot.
  rewrite Hu, Hl, Hm, N.shiftl_mul_pow2.
  assert (∀ l, l ⊆ hs →
    let total := sum_by (fun h => allocation_size (inner sh) (allocation h)) l in
    sum_by reserved_bytes l = total * 2 ^ quantum_shift sh ∧
    N.of_nat (length l) <= total) as Hsum.
  { intros l. induction l as [|h l IH]; intros Hsub; [done|].
    destruct IH as [IH1 IH2]; [set_solver|]. rewrite !sum_by_cons. simpl in IH1, IH2.
    destruct (Hh h) as [_ Hr _]; [set_solver|]. rewrite N.shiftl_mul_pow2 in Hr.
    destruct (up_rep_bounds _ _ _ (allocation h) Hrep) as [Hpos _].
    { apply list_elem_of_fmap. exists h. set_solver. }
    simpl length. rewrite IH1, Hr. lia. }
  destruct (Hsum hs) as [-> Hlen]; [done|]. split; [|lia].
  by apply N.mul_le_mono_r.
Qed.

(** ** Batched release against one drop at a time *)

Definition of_owner (o : N) (l : list (N * OffsetAllocationHandle Alloc))
    : list (OffsetAllocationHandle Alloc) :=
  snd <$> filter (fun p => p.1 = o) l.

(** Every allocator of the store satisfies its invariant for the handles that
    name it, and every handle names one of them. *)
Definition owners_inv (owners : gmap N (SharedAllocator A))
    (l : list (N * OffsetAllocationHandle Alloc)) : Prop :=
  (∀ o sh, owners !! o = Some sh → alloc_inv sh (of_owner o l)) ∧
  (∀ p, p ∈ l → is_Some (owners !! p.1)).

Lemma of_owner_app o l k : of_owner o (l ++ k) = of_owner o l ++ of_owner o k.
Proof. unfold of_owner. by rewrite filter_app, fmap_app. Qed.

Lemma of_owner_all o l : (∀ p, p ∈ l → p.1 = o) → of_owner o l = snd <$> l.
Proof.
  intros H. unfold of_owner. by rewrite filter_all.
Qed.

Lemma of_owner_none o o' l : (∀ p, p ∈ l → p.1 = o') → o' ≠ o → of_owner o l = [].
Proof.
  intros H Hne. unfold of_owner. rewrite filter_none; [done|].
  intros p Hp Heq. apply Hne. by rewrite <- (H p Hp).
Qed.

Lemma of_owner_perm o l k : l ≡ₚ k → of_owner o l ≡ₚ of_owner o k.
Proof. unfold of_owner. by intros ->. Qed.

Lemma owners_inv_perm owners l k : l ≡ₚ k → owners_inv owners l → owners_inv owners k.
Proof.
  intros Hp [H1 H2]. split.
  - intros o sh Ho. eapply alloc_inv_perm; [by apply of_owner_perm|eauto].
  - intros p Hin. apply H2. by rewrite Hp.
Qed.

(** Releasing a group that names a single owner. *)
Lemma owners_inv_release owners o sh (g rest : list (N * OffsetAllocationHandle Alloc)) :
  (∀ p, p ∈ g → p.1 = o) → owners !! o = Some sh → owners_inv owners (g ++ rest) →
  ∃ sh', release_many (map (fun p => pending_release p.2) g) sh = Some sh' ∧
         owners_inv (<[o := sh']> owners) rest.
Proof.
  intros Hg Ho [Hinv Hdom]. pose proof (Hinv o sh Ho) as Hsh.
  rewrite of_owner_app, of_owner_all in Hsh by done.
  destruct (alloc_inv_release _ _ _ Hsh) as (sh' & Hrel & Hsh' & _ & _).
  exists sh'. split.
  { rewrite <- Hrel. f_equal. clear. induction g as [|p g IH]; [done|].
    simpl. f_equal. exact IH. }
  split.
  - intros o' sh''. rewrite lookup_insert. case_decide as Heq; [by intros [= <-]; subst|].
    intros Ho'. pose proof (Hinv o' sh'' Ho') as H.
    by rewrite of_owner_app, (of_owner_none o' o) in H.
  - intros p Hp. rewrite lookup_insert. case_decide; [eauto|]. apply Hdom. set_solver.
Qed.

Lemma take_group_spec o (l : list (N * OffsetAllocationHandle Alloc)) :
  l = (take_group o l).1 ++ (take_group o l).2 ∧
  ∀ p, p ∈ (take_group o l).1 → p.1 = o.
Proof.
  induction l as [|[o' h] l IH]; simpl; [set_solver|].
  destruct (N.eqb_spec o' o) as [->|]; [|set_solver].
  destruct (take_group o l) as [g rest]. simpl in *. destruct IH as [-> IH].
  split; [done|]. intros p [->|]%elem_of_cons; auto.
Qed.

Lemma release_groups_ok : ∀ fuel l rest owners,
  (length l <= fuel)%nat → owners_inv owners (l ++ rest) →
  ∃ owners', release_groups fuel l owners = Some owners' ∧
             owners_inv owners' rest ∧ dom owners' = dom owners.
Proof.
  induction fuel as [|fuel IH]; intros [|[o h] l] rest owners Hlen Hinv; simpl in *;
    eauto; try lia.
  destruct (take_group_spec o l) as [Hl Hg].
  destruct (take_group o l) as [g tl]. simpl in *.
  destruct (proj2 Hinv (o, h)) as [sh Ho]; [set_solver|]. simpl in Ho. rewrite Ho.
  assert (owners_inv owners (((o, h) :: g) ++ (tl ++ rest))) as Hinv'.
  { subst l. simpl in *. by rewrite <- (assoc_L (++)) in Hinv. }
  destruct (owners_inv_release owners o sh ((o, h) :: g) (tl ++ rest))
    as (sh' & Hrel & Hnext); [|done|done|].
  { intros p [->|]%elem_of_cons; auto. }
  simpl in Hrel. rewrite Hrel.
  destruct (IH tl rest (<[o:=sh']> owners)) as (owners' & Hrun & Hfin & Hdom); [|done|].
  { subst l. rewrite length_app in Hlen. lia. }
  exists owners'. split_and!; try done. rewrite Hdom.
  apply dom_insert_lookup_L. eauto.
Qed.

Lemma drop_each_ok : ∀ l rest owners,
  owners_inv owners (l ++ rest) →
  ∃ owners', drop_each l owners = Some owners' ∧
             owners_inv owners' rest ∧ dom owners' = dom owners.
Proof.
  induction l as [|[o h] l IH]; intros rest owners Hinv; simpl in *; eauto.
  destruct (proj2 Hinv (o, h)) as [sh Ho]; [set_solver|]. simpl in Ho. rewrite Ho.
  destruct (owners_inv_release owners o sh [(o, h)] (l ++ rest))
    as (sh' & Hrel & Hnext); [set_solver|done|done|].
  unfold handle_drop. simpl in Hrel. rewrite Hrel.
  destruct (IH rest _ Hnext) as (owners' & Hrun & Hfin & Hdom).
  exists owners'. split_and!; try done. rewrite Hdom.
  apply dom_insert_lookup_L. eauto.
Qed.

Lemma release_batch_ok batch rest owners :
  owners_inv owners (batch ++ rest) →
  ∃ owners', release_batch batch owners = Some owners' ∧
             owners_inv owners' rest ∧ dom owners' = dom owners.
Proof.
  intros Hinv. unfold release_batch. apply release_groups_ok; [done|].
  eapply owners_inv_perm; [|exact Hinv]. by rewrite sort_by_key_perm.
Qed.

(** ** Sequences of requests and releases on one allocator *)

Inductive alloc_op :=
| AllocOp (bytes : N)
| DropOp (i : nat)
| BatchOp (n : nat).

Definition alloc_step (op : alloc_op)
    (w : SharedAllocator A * list (OffsetAllocationHandle Alloc))
    : option (SharedAllocator A * list (OffsetAllocationHandle Alloc)) :=
  let '(sh, hs) := w in
  match op with
  | AllocOp bytes =>
      if may_satisfy bytes sh then
        let '(o, sh') := allocate_after_precheck bytes sh in
        Some (sh', option_list o ++ hs)
      else Some (sh, hs)
  | DropOp i =>
      match hs !! i with
      | None => Some (sh, hs)
      | Some h => sh' ← handle_drop h sh; Some (sh', delete i hs)
      end
  | BatchOp n =>
      sh' ← release_many (map pending_release (take n hs)) sh; Some (sh', drop n hs)
  end.

Definition alloc_run (ops : list alloc_op)
    (w : SharedAllocator A * list (OffsetAllocationHandle Alloc))
    : option (SharedAllocator A * list (OffsetAllocationHandle Alloc)) :=
  foldl (fun o op => w ← o; alloc_step op w) (Some w) ops.

Lemma may_satisfy_pos bytes sh : may_satisfy bytes sh = true → 0 < bytes.
Proof. unfold may_satisfy. intros H. bool_to_prop. lia. Qed.

Lemma alloc_step_ok op sh hs :
  alloc_inv sh hs →
  ∃ sh' hs', alloc_step op (sh, hs) = Some (sh', hs') ∧ alloc_inv sh' hs' ∧
    managed_capacity sh' = managed_capacity sh.
Proof.
  intros Hinv. destruct op as [bytes|i|n]; simpl.
  - destruct (may_satisfy bytes sh) eqn:Hms; [|eauto].
    apply may_satisfy_pos in Hms.
    destruct (allocate_after_precheck bytes sh) as [o sh'] eqn:Ha.
    destruct (alloc_inv_allocate _ _ _ _ _ Hinv Hms Ha) as [Hinv' _].
    eexists _, _. split_and!; [done|done|].
    unfold allocate_after_precheck in Ha. repeat case_match; by simplify_eq/=.
  - destruct (hs !! i) as [h|] eqn:Hi; [|eauto].
    destruct (alloc_inv_release sh [h] (delete i hs)) as (sh' & Hrel & Hinv' & ? & _).
    { eapply alloc_inv_perm; [|done]. by apply delete_Permutation. }
    unfold handle_drop. simpl in Hrel. rewrite Hrel. simpl. eauto.
  - destruct (alloc_inv_release sh (take n hs) (drop n hs)) as (sh' & Hrel & Hinv' & ? & _).
    { by rewrite take_drop. }
    rewrite Hrel. simpl. eauto.
Qed.

Lemma alloc_run_ok ops sh hs :
  alloc_inv sh hs →
  ∃ sh' hs', alloc_run ops (sh, hs) = Some (sh', hs') ∧ alloc_inv sh' hs' ∧
    managed_capacity sh' = managed_capacity sh.
Proof.
  intros Hinv. unfold alloc_run. induction ops as [|op ops IH] using rev_ind; simpl; [eauto|].
  rewrite foldl_app. destruct IH as (sh' & hs' & -> & Hinv' & Hm).
  destruct (alloc_step_ok op _ _ Hinv') as (sh'' & hs'' & Hs & Hinv'' & Hm').
  exists sh'', hs''. split_and!; [exact Hs|done|congruence].
Qed.
End AdapterProofs.

#[export] Hint Resolve alloc_inv_perm alloc_inv_refresh : cake.

(** ** A concrete upstream allocator

    It hands out ranges above every live one.  It shows that [UpstreamLaws]
    can be met and lets the examples run. *)
Module Bump.
Record bump := mkBump { b_cap : N; b_live : list (N * N) }.

Definition top (l : list (N * N)) : N := foldr (fun x t => N.max (x.1 + x.2) t) 0 l.

#[global] Instance bump_upstream : Upstream bump (N * N) := {
  with_max_allocs cap _ := mkBump cap [];
  up_allocate n b :=
    if top (b_live b) + n <=? b_cap b
    then Some ((top (b_live b), n), mkBump (b_cap b) ((top (b_live b), n) :: b_live b))
    else None;
  up_free x b := mkBump (b_cap b) (filter (fun y => y ≠ x) (b_live b));
  allocation_size _ x := x.2;
  alloc_offset x := x.1;
  total_free_space b := b_cap b - top (b_live b);
  largest_free_region b := b_cap b - top (b_live b)
}.

Definition apart (x y : N * N) : Prop := x.1 + x.2 <= y.1 ∨ y.1 + y.2 <= x.1.

Definition bump_rep (cap : N) (l : list (N * N)) (b : bump) : Prop :=
  b_cap b = cap ∧ b_live b ≡ₚ l ∧
  (∀ x, x ∈ l → 0 < x.2 ∧ x.1 + x.2 <= cap) ∧
  (∀ x y k, l ≡ₚ x :: y :: k → apart x y).

Lemma top_ge l x : x ∈ l → x.1 + x.2 <= top l.
Proof. induction 1; simpl; lia. Qed.

Lemma bump_not_twice cap x l b : bump_rep cap (x :: l) b → x ∉ l.
Proof.
  intros (_ & _ & Hb & Hd) Hin. apply elem_of_Permutation in Hin as [k Hk].
  destruct (Hd x x k); [by rewrite Hk|..]; destruct (Hb x); [set_solver|lia|set_solver|lia].
Qed.

Lemma bump_rep_allocate cap l b n x b' :
  bump_rep cap l b → 0 < n → up_allocate n b = Some (x, b') → bump_rep cap (x :: l) b'.
Proof.
  intros (Hc & Hl & Hb & Hd) Hn. simpl.
  destruct (N.leb_spec (top (b_live b) + n) (b_cap b)); [|done]. intros [= <- <-].
  assert (∀ y, y ∈ l → apart y (top (b_live b), n)) as Hbelow.
  { intros y Hy. left. simpl. apply top_ge. by rewrite Hl. }
  split_and!; simpl; [done|by apply perm_skip| |].
  - intros y [->|Hy]%elem_of_cons; [simpl; lia|auto].
  - intros y z k Hp. set (new := (top (b_live b), n)) in *.
    assert (new ∈ y :: z :: k) as Hin by (rewrite <- Hp; set_solver).
    apply elem_of_cons in Hin as [Heq|Hin].
    { subst y. apply Permutation_cons_inv in Hp.
      destruct (Hbelow z) as [|]; [rewrite Hp; set_solver|by right|by left]. }
    apply elem_of_cons in Hin as [Heq|Hin].
    { subst z. apply Hbelow. rewrite (Permutation_swap new y k) in Hp.
      apply Permutation_cons_inv in Hp. rewrite Hp. set_solver. }
    apply elem_of_Permutation in Hin as [k' Hk']. apply (Hd y z k').
    apply (Permutation_cons_inv (a := new)). rewrite Hp, Hk'.
    rewrite (Permutation_swap new z), (Permutation_swap new y). done.
Qed.

Lemma bump_rep_free cap x l b :
  bump_rep cap (x :: l) b → bump_rep cap l (up_free x b).
Proof.
  intros Hrep. pose proof (bump_not_twice _ _ _ _ Hrep) as Hx.
  destruct Hrep as (Hc & Hl & Hb & Hd). split_and!; simpl; [done| | |].
  - rewrite Hl, filter_cons_False by (intros H; by apply H).
    rewrite filter_all; [done|]. intros y Hy ->. done.
  - intros y Hy. apply Hb. set_solver.
  - intros y z k Hk. apply (Hd y z (x :: k)). rewrite Hk.
    rewrite (Permutation_swap x z), (Permutation_swap x y). done.
Qed.

#[global] Instance bump_laws : UpstreamLaws bump (N * N).
Proof.
  refine {| up_rep := bump_rep |}.
  - intros cap nodes _ _. split_and!; simpl; try done; [set_solver|].
    intros x y k Hp%Permutation_nil_cons. done.
  - intros cap l l' b Hp (? & Hl & Hb & Hd). split_and!; [done|by rewrite Hl| |].
    + intros x Hx. apply Hb. by rewrite Hp.
    + intros x y k Hk. apply (Hd x y k). by rewrite Hp.
  - intros cap l b n x b' Hrep Hn Ha. split_and!; [by eapply bump_rep_allocate| |done].
    simpl in *. destruct (_ <=? _); simplify_eq/=. done.
  - intros cap x l b Hrep. split; [by apply bump_rep_free|done].
  - intros cap l b x (_ & _ & Hb & _) Hx. by apply Hb.
  - intros cap x y l b (_ & _ & _ & Hd). by apply (Hd x y l).
  - intros cap l b (<- & _). simpl. lia.
  - intros cap l b n [x b'] _ Hn. simpl.
    destruct (N.leb_spec (top (b_live b) + n) (b_cap b)); [|done]. intros _. lia.
  - intros cap l b n x b' _ Hn. simpl.
    destruct (N.leb_spec (top (b_live b) + n) (b_cap b)); [|done]. intros [= <- <-].
    simpl. lia.
Defined.
End Bump.

Lemma alloc_run_inv {A Alloc} `{UpstreamLaws A Alloc} capacity nodes ops
    (sh : SharedAllocator A) (hs : list (OffsetAllocationHandle Alloc)) :
  0 < capacity → capacity <= U64_MAX → 3 <= nodes →
  alloc_run ops (ByteAllocator_new capacity nodes, []) = Some (sh, hs) →
  alloc_inv sh hs.
Proof.
  intros Hpos Hmax Hn Hrun.
  destruct (alloc_run_ok ops _ _ (alloc_inv_new capacity nodes Hpos Hmax Hn))
    as (sh' & hs' & Hrun' & Hinv & _).
  rewrite Hrun in Hrun'. by simplify_eq.
Qed.

(** ** Properties *)

(** C35: Over any sequence of requests, drops and batched releases on a fresh
    segment allocator, no [expect] fails; the live ranges stay inside the
    managed capacity, cover what was requested and never overlap; the byte
    counter is exactly their sum, never above the capacity of the segment,
    and the live counter fits in 32 bits. *)
Theorem alloc_run_safe {A Alloc} `{UpstreamLaws A Alloc} capacity nodes ops :
  0 < capacity → capacity <= U64_MAX → 3 <= nodes →
  ∃ (sh : SharedAllocator A) (hs : list (OffsetAllocationHandle Alloc)),
    alloc_run ops (ByteAllocator_new capacity nodes, []) = Some (sh, hs) ∧
    (∀ h, h ∈ hs → 0 < reserved_bytes h ∧ requested_bytes h <= reserved_bytes h ∧
                   offset h + reserved_bytes h <= managed_capacity sh) ∧
    (∀ i j h k, i ≠ j → hs !! i = Some h → hs !! j = Some k →
       offset h + reserved_bytes h <= offset k ∨ offset k + reserved_bytes k <= offset h) ∧
    used_bytes sh = sum_by reserved_bytes hs ∧
    used_bytes sh <= managed_capacity sh ∧ managed_capacity sh <= capacity ∧
    live_allocations sh = N.of_nat (length hs) ∧ live_allocations sh <= U32_MAX.
Proof.
  intros Hpos Hmax Hn.
  destruct (alloc_run_ok ops _ _ (alloc_inv_new capacity nodes Hpos Hmax Hn))
    as (sh & hs & Hrun & Hinv & Hm).
  destruct (alloc_inv_counters _ _ Hinv) as [Hu Hl].
  exists sh, hs. split_and!; try done.
  - intros h Hin. destruct (handle_range _ _ _ Hinv Hin). split_and!; try done.
    by apply (ai_handles _ _ Hinv).
  - intros i j h k. by apply (handles_disjoint sh hs).
  - apply Hinv.
  - rewrite Hm. apply managed_le_capacity.
  - apply Hinv.
Qed.

Lemma alloc_run_safe_witness :
  ∃ (sh : SharedAllocator Bump.bump) (hs : list (OffsetAllocationHandle (N * N))),
    alloc_run [AllocOp 100; AllocOp 28; DropOp 1; AllocOp 900; BatchOp 2]
      (ByteAllocator_new 1024 8, []) = Some (sh, hs) ∧
    (∀ h, h ∈ hs → 0 < reserved_bytes h ∧ requested_bytes h <= reserved_bytes h ∧
                   offset h + reserved_bytes h <= managed_capacity sh) ∧
    (∀ i j h k, i ≠ j → hs !! i = Some h → hs !! j = Some k →
       offset h + reserved_bytes h <= offset k ∨ offset k + reserved_bytes k <= offset h) ∧
    used_bytes sh = sum_by reserved_bytes hs ∧
    used_bytes sh <= managed_capacity sh ∧ managed_capacity sh <= 1024 ∧
    live_allocations sh = N.of_nat (length hs) ∧ live_allocations sh <= U32_MAX.
Proof.
  apply (alloc_run_safe (A := Bump.bump) 1024 8
    [AllocOp 100; AllocOp 28; DropOp 1; AllocOp 900; BatchOp 2]); vm_compute; congruence.
Defined.

(** The lock-free precheck is complete: in every reachable allocator state,
    a request that the locked allocation would grant is never turned away by
    the cached largest-region hint. *)
Theorem precheck_complete {A Alloc} `{UpstreamLaws A Alloc} capacity nodes ops
    (sh : SharedAllocator A) (hs : list (OffsetAllocationHandle Alloc)) bytes :
  0 < capacity → capacity <= U64_MAX → 3 <= nodes → 0 < bytes →
  alloc_run ops (ByteAllocator_new capacity nodes, []) = Some (sh, hs) →
  may_satisfy bytes sh = false → (allocate_after_precheck bytes sh).1 = None.
Proof.
  intros Hpos Hmax Hn Hb Hrun Hms.
  pose proof (alloc_run_inv _ _ _ _ _ Hpos Hmax Hn Hrun) as Hinv.
  destruct (allocate_after_precheck bytes sh) as [[h|] sh'] eqn:Ha; [|done].
  by rewrite (may_satisfy_complete _ _ _ _ _ Hinv Hb Ha) in Hms.
Qed.

Lemma precheck_complete_witness :
  (allocate_after_precheck 500
     (mkShared (Bump.mkBump 1024 [(600, 400); (0, 600)]) 1000 2 0 1024 24)).1 = None.
Proof.
  apply (precheck_complete (A := Bump.bump) 1024 8 [AllocOp 600; AllocOp 400; AllocOp 400; AllocOp 100] _
    [mkHandle (600, 400) 600 400 400; mkHandle (0, 600) 0 600 600] 500);
    vm_compute; congruence.
Defined.

(** Releasing a batch of handles by sorting them by owner and settling each
    owner once has the effect of dropping them one by one: neither fails, and
    every allocator ends with the same bytes in use and the same number of
    live ranges. *)
Theorem release_batch_equiv {A Alloc} `{UpstreamLaws A Alloc}
    (owners : gmap N (SharedAllocator A))
    (batch rest : list (N * OffsetAllocationHandle Alloc)) :
  owners_inv owners (batch ++ rest) →
  ∃ owners1 owners2,
    release_batch batch owners = Some owners1 ∧
    drop_each batch owners = Some owners2 ∧ dom owners1 = dom owners2 ∧
    ∀ o sh1 sh2, owners1 !! o = Some sh1 → owners2 !! o = Some sh2 →
      used_bytes sh1 = used_bytes sh2 ∧ live_allocations sh1 = live_allocations sh2 ∧
      used_bytes sh1 = sum_by reserved_bytes (of_owner o rest).
Proof.
  intros Hinv.
  destruct (release_batch_ok _ _ _ Hinv) as (o1 & Hb & [Hinv1 _] & Hd1).
  destruct (drop_each_ok _ _ _ Hinv) as (o2 & Hd & [Hinv2 _] & Hd2).
  exists o1, o2. split_and!; try done; [congruence|].
  intros o sh1 sh2 H1 H2. specialize (Hinv1 _ _ H1). specialize (Hinv2 _ _ H2).
  rewrite (ai_used _ _ Hinv1), (ai_used _ _ Hinv2).
  by rewrite (ai_live _ _ Hinv1), (ai_live _ _ Hinv2).
Qed.

Definition example_owners : gmap N (SharedAllocator Bump.bump) :=
  {[ 1 := mkShared (Bump.mkBump 1024 [(100, 28); (0, 100)]) 128 2 0 1024 1024;
     2 := mkShared (Bump.mkBump 4096 [(0, 64)]) 64 1 0 4096 4096 ]}.
Definition example_batch : list (N * OffsetAllocationHandle (N * N)) :=
  [(2, mkHandle (0, 64) 0 64 64); (1, mkHandle (100, 28) 100 28 28)].
Definition example_rest : list (N * OffsetAllocationHandle (N * N)) :=
  [(1, mkHandle (0, 100) 0 100 100)].

Lemma example_owners_inv : owners_inv example_owners (example_batch ++ example_rest).
Proof.
  split.
  - intros o sh Ho. unfold example_owners in Ho.
    rewrite lookup_insert in Ho. case_decide as Ho1; [subst o; simplify_eq|].
    + by apply (alloc_run_inv 1024 8 [AllocOp 100; AllocOp 28]).
    + apply lookup_singleton_Some in Ho as [<- <-].
      by apply (alloc_run_inv 4096 8 [AllocOp 64]).
  - intros p Hp. unfold example_batch, example_rest in Hp. simpl in Hp.
    rewrite !elem_of_cons in Hp. destruct Hp as [->|[->|[->|[]%not_elem_of_nil]]]; eauto.
Qed.

Lemma release_batch_equiv_witness :
  ∃ owners1 owners2,
    release_batch example_batch example_owners = Some owners1 ∧
    drop_each example_batch example_owners = Some owners2 ∧
    dom owners1 = dom owners2 ∧
    ∀ o sh1 sh2, owners1 !! o = Some sh1 → owners2 !! o = Some sh2 →
      used_bytes sh1 = used_bytes sh2 ∧ live_allocations sh1 = live_allocations sh2 ∧
      used_bytes sh1 = sum_by reserved_bytes (of_owner o example_rest).
Proof.
  apply (release_batch_equiv example_owners example_batch example_rest).
  apply example_owners_inv.
Defined.

(** The quantum of a segment is the least power of two whose unit count
    fits in 32 bits, and the adapter manages the segment up to less than one
    quantum. *)
Theorem quantum_least capacity :
  capacity <= U64_MAX →
  let s := quantum_shift_of capacity in
  N.shiftr capacity s <= U32_MAX ∧
  (∀ t, N.shiftr capacity t <= U32_MAX → s <= t) ∧
  N.shiftl (N.shiftr capacity s) s <= capacity ∧
  capacity < N.shiftl (N.shiftr capacity s) s + 2 ^ s.
Proof.
  intros Hmax s. destruct (quantum_shift_spec _ Hmax) as (Hfit & _ & Hmin).
  split_and!; [done| |apply managed_le_capacity|].
  - intros t Ht. destruct (N.le_gt_cases s t) as [|Hlt]; [done|].
    specialize (Hmin t Hlt). lia.
  - rewrite N.shiftl_mul_pow2, N.shiftr_div_pow2.
    pose proof (N.Div0.div_mod capacity (2 ^ s)).
    pose proof (N.mod_lt capacity (2 ^ s) ltac:(apply N.pow_nonzero; lia)). lia.
Qed.

Lemma quantum_least_witness :
  N.shiftr 21474836481 (quantum_shift_of 21474836481) <= U32_MAX ∧
  (∀ t, N.shiftr 21474836481 t <= U32_MAX → quantum_shift_of 21474836481 <= t) ∧
  N.shiftl (N.shiftr 21474836481 (quantum_shift_of 21474836481))
    (quantum_shift_of 21474836481) <= 21474836481 ∧
  21474836481 < N.shiftl (N.shiftr 21474836481 (quantum_shift_of 21474836481))
    (quantum_shift_of 21474836481) + 2 ^ quantum_shift_of 21474836481.
Proof. apply (quantum_least 21474836481). vm_compute. congruence. Defined.
