(* ===== verification/Segment.v ===== *)
(** * Segment descriptions

    Transports, regions, registrations and errors of the segment layer:
    [src/src/segment/{transport,descriptor,identity,spec,error,stats,config}.rs]
    and the registration checks of [src/src/segment/pool.rs].  Strings are byte
    strings, as [str::bytes] sees them. *)
From S2P Require Import Prelude Identity.

(** ** Transports *)

Inductive TransportProtocol :=
| Tcp | Rdma | Cxl | NvmeOf
| Custom (name : string).

#[global] Instance TransportProtocol_eq_dec : EqDecision TransportProtocol.
Proof. solve_decision. Defined.

Definition as_str (p : TransportProtocol) : string :=
  match p with
  | Tcp => "tcp"
  | Rdma => "rdma"
  | Cxl => "cxl"
  | NvmeOf => "nvmeof"
  | Custom s => s
  end.

Definition byte_of (c : Ascii.ascii) : N := Ascii.N_of_ascii c.

(** [a-z], [0-9], [_] and [-]. *)
Definition protocol_byte_ok (c : Ascii.ascii) : bool :=
  let b := byte_of c in
  ((97 <=? b) && (b <=? 122)) || ((48 <=? b) && (b <=? 57)) || (b =? 95) || (b =? 45).

Fixpoint all_bytes (f : Ascii.ascii → bool) (s : string) : bool :=
  match s with
  | EmptyString => true
  | String c s' => f c && all_bytes f s'
  end.

Definition str_is_empty (s : string) : bool :=
  match s with
  | EmptyString => true
  | String _ _ => false
  end.

(** [TransportProtocol::from_str]; [None] is [ParseTransportProtocolError]. *)
Definition protocol_from_str (s : string) : option TransportProtocol :=
  if str_is_empty s || negb (all_bytes protocol_byte_ok s) then None
  else Some (if String.eqb s "tcp" then Tcp
             else if String.eqb s "rdma" then Rdma
             else if String.eqb s "cxl" then Cxl
             else if String.eqb s "nvmeof" then NvmeOf
             else Custom s).

Record TransportEndpoint := mkEndpoint {
  protocol : TransportProtocol;
  endpoint : string
}.

#[global] Instance TransportEndpoint_eq_dec : EqDecision TransportEndpoint.
Proof. solve_decision. Defined.

(** ** Regions and registrations *)

Record MemoryRegion := mkRegion { base : N; region_size : N }.

#[global] Instance MemoryRegion_eq_dec : EqDecision MemoryRegion.
Proof. solve_decision. Defined.

(** [MemoryRegion::end]. *)
Definition region_end (r : MemoryRegion) : option N :=
  checked_add (base r) (region_size r).

Record SegmentIdentity := mkIdentity {
  id : SegmentId;
  owner : ClientId;
  name : string;
  host_id : string
}.

#[global] Instance SegmentIdentity_eq_dec : EqDecision SegmentIdentity.
Proof. solve_decision. Defined.

(** [SegmentIdentity::new] leaves the host empty; [with_host_id] sets it. *)
Definition SegmentIdentity_new (i : SegmentId) (o : ClientId) (n : string) :=
  mkIdentity i o n "".
Definition with_host_id (h : string) (x : SegmentIdentity) :=
  mkIdentity (id x) (owner x) (name x) h.

Inductive ReplicaClass := Memory.

Record SegmentSpec := mkSpec {
  identity : SegmentIdentity;
  region : MemoryRegion;
  transport : TransportEndpoint
}.

#[global] Instance SegmentSpec_eq_dec : EqDecision SegmentSpec.
Proof. solve_decision. Defined.

Definition spec_id (s : SegmentSpec) : SegmentId := id (identity s).
Definition spec_owner (s : SegmentSpec) : ClientId := owner (identity s).
Definition replica_class (s : SegmentSpec) : ReplicaClass := Memory.

(** ** Errors and diagnostics *)

Inductive AttachError :=
| NilSegmentId
| NilOwnerId
| EmptyName
| ZeroBaseAddress
| EmptyTransportEndpoint
| InvalidTransportProtocol (protocol : string)
| IncompatibleTransportProtocol (protocol : TransportProtocol)
| AttachZeroSize
| AttachAddressOverflow
| ConflictingSegmentId (id : SegmentId)
| OverlappingAddressRange (existing : SegmentId).

Inductive SegmentStateError :=
| StateNotFound (id : SegmentId)
| OwnerMismatch (segment : SegmentId) (expected actual : ClientId)
| StillAccepting (id : SegmentId)
| Busy (segment : SegmentId) (active_allocations : N).

Inductive ReserveError :=
| ReserveZeroSize
| ForeignCandidate
| ReserveNotFound (id : SegmentId)
| NotAccepting (id : SegmentId)
| OutOfSpace (id : SegmentId)
| ReserveAddressOverflow (id : SegmentId).

Inductive SegmentState := Accepting | Quiesced | Removed.

#[global] Instance SegmentState_eq_dec : EqDecision SegmentState.
Proof. solve_decision. Defined.

Definition is_accepting (s : SegmentState) : bool :=
  match s with Accepting => true | _ => false end.

Record SegmentSpaceStats := mkSpace {
  capacity_bytes : N;
  space_used_bytes : N;
  available_bytes : N;
  largest_free_region_bytes : N
}.

Record SegmentStats := mkStats {
  space : SegmentSpaceStats;
  active_allocations : N;
  stats_state : SegmentState
}.

(** ** Pool configuration *)

Definition DEFAULT_MAX_ALLOCATOR_NODES_PER_SEGMENT : N := 131072.
Definition MIN_ALLOCATOR_NODES_PER_SEGMENT : N := 3.
Definition MAX_ALLOCATOR_NODES_PER_SEGMENT_EXCLUSIVE : N := U32_MAX - 1.

(** The range check of [SegmentPool::with_config]. *)
Definition pool_config_valid (max_nodes : N) : bool :=
  (MIN_ALLOCATOR_NODES_PER_SEGMENT <=? max_nodes) &&
  (max_nodes <? MAX_ALLOCATOR_NODES_PER_SEGMENT_EXCLUSIVE).

(** ** Registration checks *)

Definition validate_direct_range (r : MemoryRegion) (t : TransportEndpoint)
    : res AttachError unit :=
  if str_is_empty (endpoint t) then Err EmptyTransportEndpoint
  else match protocol_from_str (as_str (protocol t)) with
  | None => Err (InvalidTransportProtocol (as_str (protocol t)))
  | Some _ =>
      if region_size r =? 0 then Err AttachZeroSize
      else match region_end r with
      | None => Err AttachAddressOverflow
      | Some _ => Ok tt
      end
  end.

Definition validate_spec (s : SegmentSpec) : res AttachError unit :=
  if segment_is_nil (spec_id s) then Err NilSegmentId
  else if client_is_nil (spec_owner s) then Err NilOwnerId
  else if str_is_empty (name (identity s)) then Err EmptyName
  else if String.eqb (as_str (protocol (transport s))) "cxl"
          || String.eqb (as_str (protocol (transport s))) "nvmeof"
  then Err (IncompatibleTransportProtocol (protocol (transport s)))
  else if base (region s) =? 0 then Err ZeroBaseAddress
  else validate_direct_range (region s) (transport s).

(** What a validated registration guarantees to the rest of the layer. *)
Definition spec_valid (s : SegmentSpec) : Prop :=
  0 < region_size (region s) ∧ 0 < base (region s) ∧
  base (region s) + region_size (region s) <= U64_MAX.

Lemma validate_spec_valid s : validate_spec s = Ok tt → spec_valid s.
Proof.
  unfold validate_spec, validate_direct_range, spec_valid, region_end.
  repeat case_match; try done. intros _. bool_to_prop.
  match goal with H : checked_add _ _ = Some _ |- _ => apply checked_add_Some in H end.
  lia.
Qed.

Definition regions_overlap (a b : MemoryRegion) : Prop :=
  base a < base b + region_size b ∧ base b < base a + region_size a.

(** ** Transport names *)

Lemma as_str_from_str s p : protocol_from_str s = Some p → as_str p = s.
Proof.
  unfold protocol_from_str. case_match; [done|]. intros [= <-].
  repeat case_match; simpl; try (symmetry; by apply String.eqb_eq); done.
Qed.

(** Parsing a transport name and printing it back gives the same bytes,
    the parser accepts exactly the non-empty names over lowercase letters,
    digits, underscore and dash, and no accepted name denotes two protocols. *)
Theorem protocol_parse_print s :
  (∀ p, protocol_from_str s = Some p → as_str p = s) ∧
  (is_Some (protocol_from_str s) ↔ s ≠ "" ∧ all_bytes protocol_byte_ok s = true) ∧
  (∀ p, protocol_from_str s = Some p → protocol_from_str (as_str p) = Some p).
Proof.
  split_and!.
  - intros p. apply as_str_from_str.
  - unfold protocol_from_str. destruct s as [|c s]; simpl.
    + split; [by intros []|by intros [[] _]].
    + destruct (_ && _); simpl; split; naive_solver.
  - intros p Hp. by rewrite (as_str_from_str s p Hp).
Qed.
