(* ===== verification/SegmentPool.v ===== *)
(** * Segment pool

    [src/src/segment/pool.rs], [pool/entry.rs], [pool/catalog.rs],
    [reservation.rs] and [lifetime.rs].  An [Arc<SegmentEntry>] is an address in
    the store [entries]; the allocator and the lifetime of an entry live at the
    same address, so a reservation that outlives its segment still finds them.
    [RwLock] sections are single steps. *)
From S2P Require Import Prelude Identity Segment ByteAllocator.

Section Pool.
Context {A Alloc : Type} `{U : Upstream A Alloc}.

Record SegmentEntry := mkEntry {
  spec : SegmentSpec;
  state : SegmentState;
  live : bool
}.

Record SegmentHandle := mkSegmentHandle { handle_pool : N; handle_entry : N }.

Record Reservation := mkReservation {
  r_allocation : OffsetAllocationHandle Alloc;
  r_entry : N;
  r_region : MemoryRegion
}.

Record Pool := mkPool {
  pool_id : N;
  max_nodes : N;
  segments : gmap SegmentId N;
  segments_by_owner : gmap ClientId (gset SegmentId);
  direct_generation : N;
  direct : list SegmentHandle;
  direct_capacity_epoch : N;
  invalidation_epoch : N;
  entries : gmap N SegmentEntry;
  allocators : gmap N (SharedAllocator A);
  next_entry : N
}.

Inductive AttachOutcome :=
| Attached (h : SegmentHandle)
| AlreadyAttached (h : SegmentHandle).

Definition is_new (o : AttachOutcome) : bool :=
  match o with Attached _ => true | AlreadyAttached _ => false end.

Definition pool_new (pid nodes : N) : Pool :=
  mkPool pid nodes ∅ ∅ 0 [] 0 0 ∅ ∅ 1.

(** ** Field updates *)

Definition set_index (s : gmap SegmentId N) (o : gmap ClientId (gset SegmentId))
    (p : Pool) : Pool :=
  mkPool (pool_id p) (max_nodes p) s o (direct_generation p) (direct p)
    (direct_capacity_epoch p) (invalidation_epoch p) (entries p) (allocators p)
    (next_entry p).
Definition set_entries (es : gmap N SegmentEntry) (p : Pool) : Pool :=
  mkPool (pool_id p) (max_nodes p) (segments p) (segments_by_owner p)
    (direct_generation p) (direct p) (direct_capacity_epoch p) (invalidation_epoch p)
    es (allocators p) (next_entry p).
Definition set_allocators (al : gmap N (SharedAllocator A)) (p : Pool) : Pool :=
  mkPool (pool_id p) (max_nodes p) (segments p) (segments_by_owner p)
    (direct_generation p) (direct p) (direct_capacity_epoch p) (invalidation_epoch p)
    (entries p) al (next_entry p).
Definition set_direct (d : list SegmentHandle) (g : N) (p : Pool) : Pool :=
  mkPool (pool_id p) (max_nodes p) (segments p) (segments_by_owner p) g d
    (direct_capacity_epoch p) (invalidation_epoch p) (entries p) (allocators p)
    (next_entry p).
Definition bump_capacity_epoch (p : Pool) : Pool :=
  mkPool (pool_id p) (max_nodes p) (segments p) (segments_by_owner p)
    (direct_generation p) (direct p) (wrapping_add (direct_capacity_epoch p) 1)
    (invalidation_epoch p) (entries p) (allocators p) (next_entry p).
Definition bump_invalidation_epoch (p : Pool) : Pool :=
  mkPool (pool_id p) (max_nodes p) (segments p) (segments_by_owner p)
    (direct_generation p) (direct p) (direct_capacity_epoch p)
    (wrapping_add (invalidation_epoch p) 1) (entries p) (allocators p) (next_entry p).

(** ** Segment entries *)

Definition entry_new (s : SegmentSpec) : SegmentEntry := mkEntry s Accepting true.

Definition entry_is_accepting (e : SegmentEntry) : bool := is_accepting (state e).

Definition entry_quiesce (e : SegmentEntry) : SegmentEntry :=
  if is_accepting (state e) then mkEntry (spec e) Quiesced (live e) else e.

Definition entry_reactivate (e : SegmentEntry) : SegmentEntry :=
  if decide (state e = Quiesced) then mkEntry (spec e) Accepting (live e) else e.

Definition prepare_remove (e : SegmentEntry) : res SegmentStateError SegmentEntry :=
  match state e with
  | Accepting => Err (StillAccepting (spec_id (spec e)))
  | Quiesced => Ok (mkEntry (spec e) Removed false)
  | Removed => Ok e
  end.

Definition entry_invalidate (e : SegmentEntry) : SegmentEntry :=
  mkEntry (spec e) Removed false.

(** [SegmentEntry::reserve]: the allocator it changes is returned with the
    outcome.  A failed address computation drops the fresh allocation. *)
Definition entry_reserve (addr bytes : N) (e : SegmentEntry) (sh : SharedAllocator A)
    : res ReserveError Reservation * SharedAllocator A :=
  let i := spec_id (spec e) in
  if bytes =? 0 then (Err ReserveZeroSize, sh)
  else if negb (may_satisfy bytes sh) then (Err (OutOfSpace i), sh)
  else if negb (is_accepting (state e)) then (Err (NotAccepting i), sh)
  else match allocate_after_precheck bytes sh with
  | (None, sh') => (Err (OutOfSpace i), sh')
  | (Some h, sh') =>
      match checked_add (base (region (spec e))) (offset h) with
      | None =>
          match handle_drop h sh' with
          | Some sh'' => (Err (ReserveAddressOverflow i), sh'')
          | None => (Panic, sh')
          end
      | Some address => (Ok (mkReservation h addr (mkRegion address bytes)), sh')
      end
  end.

(** Reservations that still hold capacity of the entry: the [Arc] count of its
    lifetime, less the catalog's own. *)
Definition active_leases (addr : N) (rs : list Reservation) : N :=
  N.of_nat (length (filter (fun r => r_entry r = addr) rs)).

Definition entry_stats (addr : N) (e : SegmentEntry) (sh : SharedAllocator A)
    (rs : list Reservation) : SegmentStats :=
  let s := allocator_stats sh in
  mkStats (mkSpace (as_capacity s) (as_used_bytes s) (as_available_bytes s)
             (as_largest_free_region s))
    (active_leases addr rs) (state e).

(** ** Catalog *)

Definition id_of (p : Pool) (addr : N) : list N :=
  match entries p !! addr with
  | Some e => segment_key (spec_id (spec e))
  | None => []
  end.

Definition accepting_at (p : Pool) (addr : N) : bool :=
  match entries p !! addr with
  | Some e => entry_is_accepting e
  | None => false
  end.

(** The accepting mounted entries, by ascending segment id. *)
Definition accepting_index (p : Pool) : list SegmentHandle :=
  mkSegmentHandle (pool_id p) <$>
    sort_by_key (id_of p) (filter (fun a => accepting_at p a) (map snd (map_to_list (segments p)))).

(** Same length and pairwise the same [Arc]. *)
Definition same_handles (l r : list SegmentHandle) : bool :=
  (length l =? length r)%nat &&
  forallb (fun lr => handle_entry lr.1 =? handle_entry lr.2) (zip l r).

Definition rebuild_indexes (p : Pool) : Pool :=
  let d := accepting_index p in
  if same_handles d (direct p) then p
  else set_direct d (wrapping_add (direct_generation p) 1) p.

Definition catalog_segment (i : SegmentId) (p : Pool) : option SegmentHandle :=
  mkSegmentHandle (pool_id p) <$> segments p !! i.

Definition update_entry (addr : N) (f : SegmentEntry → SegmentEntry) (p : Pool) : Pool :=
  set_entries (alter f addr (entries p)) p.

Definition owned_entry (o : ClientId) (i : SegmentId) (p : Pool)
    : res SegmentStateError N :=
  match segments p !! i with
  | None => Err (StateNotFound i)
  | Some addr =>
      match entries p !! addr with
      | None => Panic
      | Some e =>
          if decide (spec_owner (spec e) = o) then Ok addr
          else Err (OwnerMismatch i (spec_owner (spec e)) o)
      end
  end.

(** The scan of the mounted entries for an overlap with a new region.  The
    order of a [HashMap] is not specified; the scan takes that of the map. *)
Fixpoint check_overlap (s : SegmentSpec) (end_ : N) (mounted : list SegmentSpec)
    : res AttachError unit :=
  match mounted with
  | [] => Ok tt
  | existing :: rest =>
      if decide (spec_owner existing = spec_owner s ∧ transport existing = transport s) then
        match region_end (region existing) with
        | None => Panic
        | Some existing_end =>
            if (base (region s) <? existing_end) && (base (region existing) <? end_)
            then Err (OverlappingAddressRange (spec_id existing))
            else check_overlap s end_ rest
        end
      else check_overlap s end_ rest
  end.

Definition mounted_specs (p : Pool) : list SegmentSpec :=
  omap (fun addr => spec <$> entries p !! addr) (map snd (map_to_list (segments p))).

Definition add_owner (o : ClientId) (i : SegmentId)
    (m : gmap ClientId (gset SegmentId)) : gmap ClientId (gset SegmentId) :=
  <[o := {[i]} ∪ default ∅ (m !! o)]> m.

(** Publishing a checked registration. *)
Definition mount (s : SegmentSpec) (p : Pool) : Pool :=
  let addr := next_entry p in
  rebuild_indexes
    (mkPool (pool_id p) (max_nodes p) (<[spec_id s := addr]> (segments p))
       (add_owner (spec_owner s) (spec_id s) (segments_by_owner p))
       (direct_generation p) (direct p) (direct_capacity_epoch p) (invalidation_epoch p)
       (<[addr := entry_new s]> (entries p))
       (<[addr := ByteAllocator_new (region_size (region s)) (max_nodes p)]> (allocators p))
       (addr + 1)).

Definition catalog_attach (s : SegmentSpec) (p : Pool) : res AttachError AttachOutcome * Pool :=
  match segments p !! spec_id s with
  | Some addr =>
      match entries p !! addr with
      | None => (Panic, p)
      | Some e =>
          if decide (spec e = s)
          then (Ok (AlreadyAttached (mkSegmentHandle (pool_id p) addr)), p)
          else (Err (ConflictingSegmentId (spec_id s)), p)
      end
  | None =>
      match region_end (region s) with
      | None => (Err AttachAddressOverflow, p)
      | Some end_ =>
          match check_overlap s end_ (mounted_specs p) with
          | Ok _ => (Ok (Attached (mkSegmentHandle (pool_id p) (next_entry p))), mount s p)
          | Err e => (Err e, p)
          | Panic => (Panic, p)
          end
      end
  end.

Definition catalog_quiesce (o : ClientId) (i : SegmentId) (p : Pool)
    : res SegmentStateError unit * Pool :=
  match owned_entry o i p with
  | Ok addr => (Ok tt, rebuild_indexes (update_entry addr entry_quiesce p))
  | Err e => (Err e, p)
  | Panic => (Panic, p)
  end.

Definition catalog_reactivate (o : ClientId) (i : SegmentId) (p : Pool)
    : res SegmentStateError unit * Pool :=
  match owned_entry o i p with
  | Ok addr => (Ok tt, rebuild_indexes (update_entry addr entry_reactivate p))
  | Err e => (Err e, p)
  | Panic => (Panic, p)
  end.

(** [collect::<Result<Vec<_>, _>>]: the first error stops the collection. *)
Fixpoint owned_entries (o : ClientId) (ids : list SegmentId) (p : Pool)
    : res SegmentStateError (list N) :=
  match ids with
  | [] => Ok []
  | i :: ids' =>
      let? addr := owned_entry o i p in
      let? rest := owned_entries o ids' p in
      Ok (addr :: rest)
  end.

Definition catalog_reactivate_many (o : ClientId) (ids : list SegmentId) (p : Pool)
    : res SegmentStateError unit * Pool :=
  match owned_entries o ids p with
  | Ok addrs =>
      (Ok tt, rebuild_indexes
                (foldl (fun q addr => update_entry addr entry_reactivate q) p addrs))
  | Err e => (Err e, p)
  | Panic => (Panic, p)
  end.

Definition remove_owner_segment (o : ClientId) (i : SegmentId)
    (m : gmap ClientId (gset SegmentId)) : gmap ClientId (gset SegmentId) :=
  match m !! o with
  | None => m
  | Some ids =>
      let ids' := ids ∖ {[i]} in
      if decide (ids' = ∅) then delete o m else <[o := ids']> m
  end.

Definition catalog_remove (o : ClientId) (i : SegmentId) (p : Pool)
    : res SegmentStateError unit * Pool :=
  match owned_entry o i p with
  | Ok addr =>
      match entries p !! addr with
      | None => (Panic, p)
      | Some e =>
          match prepare_remove e with
          | Ok e' =>
              let p1 := set_entries (<[addr := e']> (entries p)) p in
              match segments p1 !! i with
              | None => (Panic, p1)
              | Some _ =>
                  (Ok tt, rebuild_indexes
                     (set_index (delete i (segments p1))
                        (remove_owner_segment o i (segments_by_owner p1)) p1))
              end
          | Err err => (Err err, p)
          | Panic => (Panic, p)
          end
      end
  | Err e => (Err e, p)
  | Panic => (Panic, p)
  end.

(** The inner loop of [invalidate_owners]. *)
Fixpoint invalidate_ids (ids : list SegmentId) (n : N) (p : Pool)
    : res SegmentStateError N * Pool :=
  match ids with
  | [] => (Ok n, p)
  | i :: ids' =>
      match segments p !! i with
      | None => (Panic, p)
      | Some addr =>
          invalidate_ids ids' (n + 1)
            (update_entry addr entry_invalidate
               (set_index (delete i (segments p)) (segments_by_owner p) p))
      end
  end.

Fixpoint invalidate_each (owners : list ClientId) (n : N) (p : Pool)
    : res SegmentStateError N * Pool :=
  match owners with
  | [] => (Ok n, p)
  | o :: owners' =>
      match segments_by_owner p !! o with
      | None => invalidate_each owners' n p
      | Some ids =>
          match invalidate_ids (elements ids) n
                  (set_index (segments p) (delete o (segments_by_owner p)) p) with
          | (Ok n', p') => invalidate_each owners' n' p'
          | r => r
          end
      end
  end.

Definition catalog_invalidate_owners (owners : list ClientId) (p : Pool)
    : res SegmentStateError N * Pool :=
  match invalidate_each owners 0 p with
  | (Ok n, p') => (Ok n, if n =? 0 then p' else rebuild_indexes p')
  | r => r
  end.

(** Dropping the catalog fences every mounted entry. *)
Definition catalog_drop (p : Pool) : Pool :=
  foldl (fun q addr => update_entry addr entry_invalidate q) p
    (map snd (map_to_list (segments p))).

(** ** Pool operations *)

(** A successful catalog change is announced; a failed one is not. *)
Definition update_direct_catalog {T E} (r : res E T * Pool) : res E T * Pool :=
  match r with
  | (Ok t, p) => (Ok t, bump_capacity_epoch p)
  | r => r
  end.

Definition pool_attach (s : SegmentSpec) (p : Pool) : res AttachError AttachOutcome * Pool :=
  match validate_spec s with
  | Ok _ => update_direct_catalog (catalog_attach s p)
  | Err e => (Err e, p)
  | Panic => (Panic, p)
  end.

Definition pool_attach_quiesced (s : SegmentSpec) (p : Pool)
    : res AttachError AttachOutcome * Pool :=
  match validate_spec s with
  | Ok _ =>
      update_direct_catalog
        (match catalog_attach s p with
         | (Ok outcome, p1) =>
             if is_new outcome then
               match catalog_quiesce (spec_owner s) (spec_id s) p1 with
               | (Ok _, p2) => (Ok outcome, p2)
               | (_, p2) => (Panic, p2)
               end
             else (Ok outcome, p1)
         | r => r
         end)
  | Err e => (Err e, p)
  | Panic => (Panic, p)
  end.

Definition pool_quiesce (o : ClientId) (i : SegmentId) (p : Pool) :=
  update_direct_catalog (catalog_quiesce o i p).
Definition pool_reactivate (o : ClientId) (i : SegmentId) (p : Pool) :=
  update_direct_catalog (catalog_reactivate o i p).
Definition pool_reactivate_many (o : ClientId) (ids : list SegmentId) (p : Pool)
    : res SegmentStateError unit * Pool :=
  match ids with
  | [] => (Ok tt, p)
  | _ => update_direct_catalog (catalog_reactivate_many o ids p)
  end.
Definition pool_remove (o : ClientId) (i : SegmentId) (p : Pool)
    : res SegmentStateError unit * Pool :=
  match update_direct_catalog (catalog_remove o i p) with
  | (Ok _, p') => (Ok tt, bump_invalidation_epoch p')
  | r => r
  end.
Definition pool_invalidate_owners (owners : list ClientId) (p : Pool)
    : res SegmentStateError N * Pool :=
  match catalog_invalidate_owners owners p with
  | (Ok n, p') =>
      (Ok n, if n =? 0 then p' else bump_invalidation_epoch (bump_capacity_epoch p'))
  | r => r
  end.

(** [SegmentPool::reserve] on a candidate of a possibly stale snapshot. *)
Definition pool_reserve (c : SegmentHandle) (bytes : N) (p : Pool)
    : res ReserveError Reservation * Pool :=
  if negb (handle_pool c =? pool_id p) then (Err ForeignCandidate, p)
  else match entries p !! handle_entry c, allocators p !! handle_entry c with
  | Some e, Some sh =>
      let '(r, sh') := entry_reserve (handle_entry c) bytes e sh in
      (r, set_allocators (<[handle_entry c := sh']> (allocators p)) p)
  | _, _ => (Panic, p)
  end.

Definition pool_reserve_on (i : SegmentId) (bytes : N) (p : Pool)
    : res ReserveError Reservation * Pool :=
  if bytes =? 0 then (Err ReserveZeroSize, p)
  else match catalog_segment i p with
  | None => (Err (ReserveNotFound i), p)
  | Some c => pool_reserve c bytes p
  end.

(** [Reservation::is_live] reads the lifetime of the issuing entry. *)
Definition reservation_is_live (r : Reservation) (p : Pool) : bool :=
  match entries p !! r_entry r with
  | Some e => live e
  | None => false
  end.

Definition owned_allocation (r : Reservation) : N * OffsetAllocationHandle Alloc :=
  (r_entry r, r_allocation r).

(** [Reservation::release_batch]; [None] is a failed [expect]. *)
Definition pool_release_batch (rs : list Reservation) (p : Pool) : option Pool :=
  al ← release_batch (map owned_allocation rs) (allocators p);
  Some (set_allocators al p).

(** ** Aggregates *)

Definition pool_stats_at (rs : list Reservation) (p : Pool) (addr : N) : option SegmentStats :=
  match entries p !! addr, allocators p !! addr with
  | Some e, Some sh => Some (entry_stats addr e sh rs)
  | _, _ => None
  end.

(** [summarize_capacity] over the accepting snapshot. *)
Definition capacity_for (rs : list Reservation) (p : Pool) : N :=
  foldl (fun acc c =>
           match pool_stats_at rs p (handle_entry c) with
           | Some s => saturating_add acc (capacity_bytes (space s))
           | None => acc
           end) 0 (direct p).

(** [Catalog::space_for], over all mounted entries. *)
Definition space_for (rs : list Reservation) (p : Pool) : SegmentSpaceStats :=
  foldl (fun acc addr =>
           match pool_stats_at rs p addr with
           | Some s =>
               mkSpace (saturating_add (capacity_bytes acc) (capacity_bytes (space s)))
                 (saturating_add (space_used_bytes acc) (space_used_bytes (space s)))
                 (saturating_add (available_bytes acc) (available_bytes (space s)))
                 (N.max (largest_free_region_bytes acc)
                    (largest_free_region_bytes (space s)))
           | None => acc
           end) (mkSpace 0 0 0 0) (map snd (map_to_list (segments p))).

(** ** Incarnations *)

(** A weak token is the address it was taken at: addresses are not reused
    while a token exists. *)
Definition incarnation_matches (token : SegmentHandle) (h : SegmentHandle) : bool :=
  (handle_pool token =? handle_pool h) && (handle_entry token =? handle_entry h).

(** ** The pool with its outstanding reservations *)

Record PoolWorld := mkPoolWorld { pool : Pool; reservations : list Reservation }.

Inductive pool_op :=
| PAttach (s : SegmentSpec)
| PAttachQuiesced (s : SegmentSpec)
| PQuiesce (o : ClientId) (i : SegmentId)
| PReactivate (o : ClientId) (i : SegmentId)
| PReactivateMany (o : ClientId) (ids : list SegmentId)
| PRemove (o : ClientId) (i : SegmentId)
| PInvalidateOwners (owners : list ClientId)
| PReserve (c : SegmentHandle) (bytes : N)
| PReserveOn (i : SegmentId) (bytes : N)
| PRelease (n : nat).

(** [None] is a panic.  A candidate of this pool is a handle some earlier step
    returned, so its entry exists; [PRelease n] drops the [n] latest reservations. *)
Definition pool_step (op : pool_op) (w : PoolWorld) : option PoolWorld :=
  let p := pool w in
  let lift {E T} (r : res E T * Pool) : option PoolWorld :=
    match r with
    | (Panic, _) => None
    | (_, p') => Some (mkPoolWorld p' (reservations w))
    end in
  let lift_reserve (r : res ReserveError Reservation * Pool) : option PoolWorld :=
    match r with
    | (Panic, _) => None
    | (Ok rsv, p') => Some (mkPoolWorld p' (rsv :: reservations w))
    | (Err _, p') => Some (mkPoolWorld p' (reservations w))
    end in
  match op with
  | PAttach s => lift (pool_attach s p)
  | PAttachQuiesced s => lift (pool_attach_quiesced s p)
  | PQuiesce o i => lift (pool_quiesce o i p)
  | PReactivate o i => lift (pool_reactivate o i p)
  | PReactivateMany o ids => lift (pool_reactivate_many o ids p)
  | PRemove o i => lift (pool_remove o i p)
  | PInvalidateOwners os => lift (pool_invalidate_owners os p)
  | PReserve c bytes =>
      if (handle_pool c =? pool_id p) && negb (bool_decide (is_Some (entries p !! handle_entry c)))
      then Some w else lift_reserve (pool_reserve c bytes p)
  | PReserveOn i bytes => lift_reserve (pool_reserve_on i bytes p)
  | PRelease n =>
      p' ← pool_release_batch (take n (reservations w)) p;
      Some (mkPoolWorld p' (drop n (reservations w)))
  end.

Definition pool_run (ops : list pool_op) (w : PoolWorld) : option PoolWorld :=
  foldl (fun o op => w ← o; pool_step op w) (Some w) ops.
End Pool.

Arguments Reservation Alloc : clear implicits.
Arguments Pool A : clear implicits.
Arguments PoolWorld A Alloc : clear implicits.

(** ** Invariant *)

Section PoolProofs.
Context {A Alloc : Type} `{L : UpstreamLaws A Alloc}.
Implicit Types (p : Pool A) (r : Reservation Alloc) (e : SegmentEntry).

Definition mounted (p : Pool A) (i : SegmentId) (a : N) (e : SegmentEntry) : Prop :=
  segments p !! i = Some a ∧ entries p !! a = Some e.

(** [ow] is the owner index as a function; between the steps of
    [invalidate_owners] it is ahead of the stored map. *)
Record catalog_inv (p : Pool A) (ow : ClientId → gset SegmentId) : Prop := {
  ci_mounted : ∀ i a, segments p !! i = Some a →
    ∃ e, entries p !! a = Some e ∧ spec_id (spec e) = i ∧ state e ≠ Removed;
  ci_entry : ∀ a e, entries p !! a = Some e →
    a < next_entry p ∧ spec_valid (spec e) ∧
    live e = negb (bool_decide (state e = Removed)) ∧
    (state e ≠ Removed → segments p !! spec_id (spec e) = Some a);
  ci_owner : ∀ o i, i ∈ ow o ↔ ∃ a e, mounted p i a e ∧ spec_owner (spec e) = o;
  ci_overlap : ∀ i j a b e f, i ≠ j → mounted p i a e → mounted p j b f →
    spec_owner (spec e) = spec_owner (spec f) → transport (spec e) = transport (spec f) →
    ¬ regions_overlap (region (spec e)) (region (spec f))
}.

Definition owner_view (p : Pool A) (o : ClientId) : gset SegmentId :=
  default ∅ (segments_by_owner p !! o).

(** Segment capacity and the reservations drawn from it. *)
Record space_inv (p : Pool A) (rs : list (Reservation Alloc)) : Prop := {
  si_dom : ∀ a, is_Some (entries p !! a) ↔ is_Some (allocators p !! a);
  si_alloc : owners_inv (allocators p) (owned_allocation <$> rs);
  si_managed : ∀ a e sh, entries p !! a = Some e → allocators p !! a = Some sh →
    0 < managed_capacity sh ∧ managed_capacity sh <= region_size (region (spec e));
  si_region : ∀ r, r ∈ rs → ∃ e, entries p !! r_entry r = Some e ∧
    base (r_region r) = base (region (spec e)) + offset (r_allocation r) ∧
    region_size (r_region r) = requested_bytes (r_allocation r)
}.

Record pool_inv (p : Pool A) (rs : list (Reservation Alloc)) : Prop := {
  pi_catalog : catalog_inv p (owner_view p);
  pi_nonempty : ∀ o ids, segments_by_owner p !! o = Some ids → ids ≠ ∅;
  pi_direct : direct p = accepting_index p;
  pi_space : space_inv p rs;
  pi_nodes : 3 <= max_nodes p
}.

Lemma catalog_inv_ext p p' ow ow' :
  segments p' = segments p → entries p' = entries p → next_entry p' = next_entry p →
  (∀ o, ow' o = ow o) → catalog_inv p ow → catalog_inv p' ow'.
Proof.
  intros Hs He Hn How []. unfold mounted in *.
  split; unfold mounted; rewrite ?Hs, ?He, ?Hn; try done.
  intros o i. rewrite How. apply ci_owner0.
Qed.

Lemma mounted_at p ow a e :
  catalog_inv p ow → entries p !! a = Some e → state e ≠ Removed →
  mounted p (spec_id (spec e)) a e.
Proof. intros Hc He Hs. split; [|done]. by apply (ci_entry _ _ Hc). Qed.

Lemma mounted_fn p i a b e f : mounted p i a e → mounted p i b f → a = b ∧ e = f.
Proof. intros [H1 H2] [H3 H4]. by simplify_eq. Qed.

Lemma mounted_id p ow i a e :
  catalog_inv p ow → mounted p i a e → spec_id (spec e) = i ∧ state e ≠ Removed.
Proof.
  intros Hc [Hs He]. destruct (ci_mounted _ _ Hc _ _ Hs) as (e' & He' & ? & ?).
  by simplify_eq.
Qed.

(** Two mounted ids never share an entry. *)
Lemma mounted_inj p ow i j a e f :
  catalog_inv p ow → mounted p i a e → mounted p j a f → i = j.
Proof.
  intros Hc H1 H2. destruct (mounted_id _ _ _ _ _ Hc H1) as [<- _].
  destruct (mounted_id _ _ _ _ _ Hc H2) as [<- _].
  destruct H1, H2. by simplify_eq.
Qed.

(** *** Changing the accepting state of one entry *)

Lemma catalog_inv_alter p ow a f :
  catalog_inv p ow →
  (∀ e, spec (f e) = spec e ∧ live (f e) = live e ∧
        (state (f e) = Removed ↔ state e = Removed)) →
  catalog_inv (update_entry a f p) ow.
Proof.
  intros Hc Hf.
  assert (∀ b e', alter f a (entries p) !! b = Some e' →
    ∃ e, entries p !! b = Some e ∧ spec e' = spec e ∧ live e' = live e ∧
         (state e' = Removed ↔ state e = Removed)) as Hback.
  { intros b e'. destruct (decide (a = b)) as [->|Hne].
    - rewrite lookup_alter_eq. intros (e & He & ->)%fmap_Some. exists e. naive_solver.
    - rewrite lookup_alter_ne by done. eauto. }
  assert (∀ b e, entries p !! b = Some e →
    ∃ e', alter f a (entries p) !! b = Some e' ∧ spec e' = spec e ∧
          (state e' = Removed ↔ state e = Removed)) as Hfwd.
  { intros b e He. destruct (decide (a = b)) as [->|Hne].
    - rewrite lookup_alter_eq, He. simpl. exists (f e). naive_solver.
    - rewrite lookup_alter_ne by done. eauto. }
  destruct Hc as [Hm He Ho Hv]. split; simpl.
  - intros i b Hb. destruct (Hm i b Hb) as (e & He' & Hid & Hs).
    destruct (Hfwd _ _ He') as (e' & ? & Hsp & Hst). exists e'. rewrite Hsp. naive_solver.
  - intros b e' Hb. destruct (Hback _ _ Hb) as (e & Hb' & Hsp & Hl & Hst).
    destruct (He _ _ Hb') as (? & ? & Hlive & Hseg). rewrite Hsp, Hl.
    split_and!; try done; [|naive_solver].
    rewrite Hlive. f_equal. by apply bool_decide_ext.
  - intros o i. rewrite Ho. unfold mounted; simpl. split.
    + intros (b & e & (Hs & Hb) & Hown). destruct (Hfwd _ _ Hb) as (e' & ? & Hsp & _).
      exists b, e'. rewrite Hsp. done.
    + intros (b & e & (Hs & Hb) & Hown). destruct (Hback _ _ Hb) as (e' & ? & Hsp & _).
      exists b, e'. rewrite <- Hsp. done.
  - intros i j b c e g Hij [Hi Hb] [Hj Hc]. simpl in *.
    destruct (Hback _ _ Hb) as (e' & ? & -> & _).
    destruct (Hback _ _ Hc) as (g' & ? & -> & _).
    apply (Hv i j b c); done.
Qed.

Lemma space_inv_specs p p' rs :
  allocators p' = allocators p →
  (∀ a, spec <$> entries p' !! a = spec <$> entries p !! a) →
  space_inv p rs → space_inv p' rs.
Proof.
  intros Ha Hsp [Hd Ho Hm Hr].
  assert (∀ a e', entries p' !! a = Some e' →
            ∃ e, entries p !! a = Some e ∧ spec e' = spec e) as Hback.
  { intros a e' He'. specialize (Hsp a). rewrite He' in Hsp. simpl in Hsp.
    destruct (entries p !! a) as [e|]; [|done]. exists e. simpl in Hsp. split; congruence. }
  split; rewrite ?Ha; try done.
  - intros a. rewrite <- Hd, <- (fmap_is_Some spec), Hsp, fmap_is_Some. done.
  - intros a e' sh He' Hsh. destruct (Hback _ _ He') as (e & He & ->). eauto.
  - intros r Hin. destruct (Hr r Hin) as (e & He & Hb & Hz).
    specialize (Hsp (r_entry r)). rewrite He in Hsp. simpl in Hsp.
    destruct (entries p' !! r_entry r) as [e'|]; [|done].
    exists e'. simpl in Hsp. simplify_eq. by rewrite Hsp.
Qed.

Lemma alter_spec f a (m : gmap N SegmentEntry) b :
  (∀ e, spec (f e) = spec e) → spec <$> alter f a m !! b = spec <$> m !! b.
Proof.
  intros Hf. destruct (decide (a = b)) as [->|].
  - rewrite lookup_alter_eq. destruct (m !! b); simpl; [by rewrite Hf|done].
  - by rewrite lookup_alter_ne.
Qed.

(** *** Rebuilding the candidate index *)

Lemma same_handles_eq pid (l k : list SegmentHandle) :
  (∀ h, h ∈ l → handle_pool h = pid) → (∀ h, h ∈ k → handle_pool h = pid) →
  same_handles l k = true → l = k.
Proof.
  unfold same_handles. revert k. induction l as [|[q x] l IH]; intros [|[q' y] k] Hl Hk;
    simpl; try done.
  intros [Hlen [Hxy Hall]%andb_true_iff]%andb_true_iff. simpl in *.
  f_equal.
  - apply N.eqb_eq in Hxy as ->. f_equal.
    etrans; [apply (Hl (mkSegmentHandle q y)); set_solver|].
    symmetry. apply (Hk (mkSegmentHandle q' y)). set_solver.
  - apply IH; [set_solver..|]. by rewrite Hlen, Hall.
Qed.

Lemma accepting_index_pool p h : h ∈ accepting_index p → handle_pool h = pool_id p.
Proof. unfold accepting_index. by intros (a & -> & _)%list_elem_of_fmap. Qed.

Lemma direct_pool p rs h : pool_inv p rs → h ∈ direct p → handle_pool h = pool_id p.
Proof. intros Hinv. rewrite (pi_direct _ _ Hinv). apply accepting_index_pool. Qed.

Lemma pool_inv_rebuild p rs :
  catalog_inv p (owner_view p) →
  (∀ o ids, segments_by_owner p !! o = Some ids → ids ≠ ∅) →
  (∀ h, h ∈ direct p → handle_pool h = pool_id p) →
  space_inv p rs → 3 <= max_nodes p → pool_inv (rebuild_indexes p) rs.
Proof.
  intros Hc Hne Hd Hs Hn. unfold rebuild_indexes.
  destruct (same_handles (accepting_index p) (direct p)) eqn:E.
  - split; try done. symmetry. eapply same_handles_eq; [|exact Hd|exact E].
    apply accepting_index_pool.
  - split; try done; [by eapply catalog_inv_ext, Hc|]. destruct Hs. by split.
Qed.

Lemma entry_fresh p ow : catalog_inv p ow → entries p !! next_entry p = None.
Proof.
  intros Hc. destruct (entries p !! next_entry p) as [e|] eqn:He; [|done].
  destruct (ci_entry _ _ Hc _ _ He). lia.
Qed.

(** *** Mounting *)

Definition mount_raw (s : SegmentSpec) (p : Pool A) : Pool A :=
  mkPool (pool_id p) (max_nodes p) (<[spec_id s := next_entry p]> (segments p))
    (add_owner (spec_owner s) (spec_id s) (segments_by_owner p))
    (direct_generation p) (direct p) (direct_capacity_epoch p) (invalidation_epoch p)
    (<[next_entry p := entry_new s]> (entries p))
    (<[next_entry p := ByteAllocator_new (region_size (region s)) (max_nodes p)]>
       (allocators p))
    (next_entry p + 1).

Lemma mount_mounted s p ow i a e :
  catalog_inv p ow → segments p !! spec_id s = None →
  mounted (mount_raw s p) i a e ↔
  (i = spec_id s ∧ a = next_entry p ∧ e = entry_new s) ∨ mounted p i a e.
Proof.
  intros Hc Hs. pose proof (entry_fresh _ _ Hc) as Hf. unfold mounted. simpl.
  rewrite lookup_insert. case_decide as Hi.
  - subst i. split.
    + intros [[= <-] He]. rewrite lookup_insert_eq in He. left. by simplify_eq.
    + intros [(_ & -> & ->)|[? _]]; [|congruence]. by rewrite lookup_insert_eq.
  - split.
    + intros [Hi' He]. right. split; [done|]. rewrite lookup_insert_ne in He; [done|].
      intros <-. destruct (ci_mounted _ _ Hc _ _ Hi') as (? & ? & _). congruence.
    + intros [(-> & _)|[Hi' He]]; [done|]. split; [done|].
      rewrite lookup_insert_ne; [done|]. intros <-. congruence.
Qed.

Lemma owner_view_mount s p o :
  owner_view (mount_raw s p) o =
  if decide (spec_owner s = o) then {[spec_id s]} ∪ owner_view p o else owner_view p o.
Proof.
  unfold owner_view. simpl. unfold add_owner. rewrite lookup_insert.
  case_decide; [by subst|done].
Qed.

Lemma catalog_inv_mount s p :
  catalog_inv p (owner_view p) → segments p !! spec_id s = None → spec_valid s →
  (∀ i a e, mounted p i a e → spec_owner (spec e) = spec_owner s →
     transport (spec e) = transport s → ¬ regions_overlap (region s) (region (spec e))) →
  catalog_inv (mount_raw s p) (owner_view (mount_raw s p)).
Proof.
  intros Hc Hs Hv Hno. pose proof (entry_fresh _ _ Hc) as Hf. split.
  - intros i a Ha. simpl in Ha. rewrite lookup_insert in Ha. simpl. case_decide.
    + simplify_eq. exists (entry_new s). by rewrite lookup_insert_eq.
    + destruct (ci_mounted _ _ Hc _ _ Ha) as (e & He & ? & ?). exists e.
      rewrite lookup_insert_ne by congruence. done.
  - intros a e He. simpl in He. rewrite lookup_insert in He. simpl. case_decide.
    + simplify_eq. simpl. rewrite lookup_insert_eq. split_and!; try done. lia.
    + destruct (ci_entry _ _ Hc _ _ He) as (? & ? & ? & Hseg). split_and!; try done; [lia|].
      intros Hr. rewrite lookup_insert_ne; [by apply Hseg|]. intros Heq.
      specialize (Hseg Hr). congruence.
  - intros o i. rewrite owner_view_mount. setoid_rewrite mount_mounted; [|done..].
    case_decide as Ho.
    + rewrite elem_of_union, elem_of_singleton, (ci_owner _ _ Hc). subst o. split.
      * intros [->|(a & e & Hm & He)]; [|by eauto 10].
        exists (next_entry p), (entry_new s). auto.
      * intros (a & e & [(-> & -> & ->)|Hm] & He); eauto.
    + rewrite (ci_owner _ _ Hc). split; [intros (a & e & Hm & He); eauto 10|].
      intros (a & e & [(-> & -> & ->)|Hm] & He); [done|eauto].
  - intros i j a b e f Hij Hi Hj. rewrite mount_mounted in Hi, Hj by done.
    destruct Hi as [(-> & -> & ->)|Hi], Hj as [(-> & -> & ->)|Hj]; try done; simpl.
    + intros Ho Ht. by eapply Hno.
    + intros Ho Ht [H1 H2]. eapply Hno; [exact Hi|done..|]. by split.
    + intros Ho Ht. by eapply (ci_overlap _ _ Hc i j).
Qed.

Definition overlap_scan (s : SegmentSpec) (l : list SegmentSpec) (r : res AttachError unit)
    : Prop :=
  match r with
  | Ok _ => ∀ x, x ∈ l → spec_owner x = spec_owner s → transport x = transport s →
              ¬ regions_overlap (region s) (region x)
  | Err e => ∃ x, x ∈ l ∧ e = OverlappingAddressRange (spec_id x) ∧
              spec_owner x = spec_owner s ∧ transport x = transport s ∧
              regions_overlap (region s) (region x)
  | Panic => False
  end.

Lemma overlap_scan_skip s x l (r : res AttachError unit) :
  ¬ (spec_owner x = spec_owner s ∧ transport x = transport s ∧
     regions_overlap (region s) (region x)) →
  overlap_scan s l r → overlap_scan s (x :: l) r.
Proof.
  intros Hn. destruct r as [u|e|]; simpl; [| |done].
  - intros IH y [->|Hy]%elem_of_cons; naive_solver.
  - intros (y & Hy & ?). exists y. split; [set_solver|done].
Qed.

Lemma check_overlap_ok s end_ l :
  (∀ x, x ∈ l → spec_valid x) → end_ = base (region s) + region_size (region s) →
  overlap_scan s l (check_overlap s end_ l).
Proof.
  intros Hv Hend. induction l as [|x l IH]; simpl check_overlap; [simpl; set_solver|].
  specialize (IH ltac:(set_solver)).
  case_decide as Hd; [|apply overlap_scan_skip; naive_solver].
  assert (region_end (region x) = Some (base (region x) + region_size (region x))) as ->.
  { apply checked_add_Some. destruct (Hv x) as (_ & _ & ?); [set_solver|]. done. }
  destruct (N.ltb_spec (base (region s)) (base (region x) + region_size (region x)));
    [destruct (N.ltb_spec (base (region x)) end_)|]; simpl.
  - exists x. unfold regions_overlap. destruct Hd. split_and!; try done; [set_solver|lia].
  - apply overlap_scan_skip; [unfold regions_overlap; lia|done].
  - apply overlap_scan_skip; [unfold regions_overlap; lia|done].
Qed.

Lemma elem_of_mounted_specs p ow x :
  catalog_inv p ow → x ∈ mounted_specs p ↔ ∃ i a e, mounted p i a e ∧ x = spec e.
Proof.
  intros Hc. unfold mounted_specs. rewrite list_elem_of_omap. split.
  - intros (a & Ha & Hx). apply fmap_Some in Hx as (e & He & ->).
    apply list_elem_of_In, in_map_iff in Ha as ([i a'] & Heq & Hin).
    apply list_elem_of_In, elem_of_map_to_list in Hin. simpl in *. subst a'.
    exists i, a, e. done.
  - intros (i & a & e & [Hs He] & ->). exists a. rewrite He. split; [|done].
    apply list_elem_of_In, in_map_iff. exists (i, a). split; [done|].
    by apply list_elem_of_In, elem_of_map_to_list.
Qed.

Lemma mounted_specs_valid p ow x :
  catalog_inv p ow → x ∈ mounted_specs p → spec_valid x.
Proof.
  intros Hc. rewrite (elem_of_mounted_specs _ _ _ Hc).
  intros (i & a & e & [_ He] & ->). by apply (ci_entry _ _ Hc) in He as (_ & ? & _).
Qed.

Lemma space_inv_mount s p ow rs :
  catalog_inv p ow → space_inv p rs → spec_valid s → 3 <= max_nodes p →
  space_inv (mount_raw s p) rs.
Proof.
  intros Hc [Hd [Ho1 Ho2] Hm Hr] Hv Hn. pose proof (entry_fresh _ _ Hc) as Hf.
  assert (∀ r, r ∈ rs → r_entry r ≠ next_entry p) as Hne.
  { intros r Hin Heq. destruct (Hr r Hin) as (e & He & _). congruence. }
  split; simpl.
  - intros a. rewrite !lookup_insert. case_decide; [split; eauto|apply Hd].
  - split.
    + intros a sh. rewrite lookup_insert. case_decide as Ha; [|apply Ho1].
      intros [= <-]. subst a. unfold of_owner. rewrite filter_none.
      * destruct Hv as (? & ? & ?). apply alloc_inv_new; lia.
      * intros x (r & -> & Hin)%list_elem_of_fmap. by apply Hne.
    + intros x Hin. rewrite lookup_insert. case_decide; [eauto|by apply Ho2].
  - intros a e sh. rewrite !lookup_insert. case_decide; [|apply Hm].
    intros [= <-] [= <-]. simpl. split; [|apply managed_le_capacity].
    destruct Hv as (? & ? & ?). apply managed_pos; lia.
  - intros r Hin. destruct (Hr r Hin) as (e & He & ?). exists e.
    rewrite lookup_insert_ne by (intros Heq; by apply (Hne r Hin)). done.
Qed.

Lemma pool_inv_mount s p rs :
  pool_inv p rs → segments p !! spec_id s = None → spec_valid s →
  (∀ i a e, mounted p i a e → spec_owner (spec e) = spec_owner s →
     transport (spec e) = transport s → ¬ regions_overlap (region s) (region (spec e))) →
  pool_inv (mount s p) rs.
Proof.
  intros Hinv Hs Hv Hno. destruct Hinv as [Hc Hne Hd Hsp Hn] eqn:E.
  apply (pool_inv_rebuild (mount_raw s p)).
  - by apply catalog_inv_mount.
  - simpl. intros o ids. unfold add_owner. rewrite lookup_insert.
    case_decide; [intros [= <-]; set_solver|apply Hne].
  - intros h. simpl. apply (direct_pool p rs h Hinv).
  - by eapply space_inv_mount.
  - done.
Qed.

Definition no_panic {E T} (r : res E T) : Prop := r ≠ Panic.

Lemma catalog_attach_ok s p rs :
  pool_inv p rs → spec_valid s →
  no_panic (catalog_attach s p).1 ∧ pool_inv (catalog_attach s p).2 rs ∧
  (∀ h, (catalog_attach s p).1 = Ok (Attached h) →
     (catalog_attach s p).2 = mount s p ∧ h = mkSegmentHandle (pool_id p) (next_entry p)) ∧
  (∀ h, (catalog_attach s p).1 = Ok (AlreadyAttached h) → (catalog_attach s p).2 = p).
Proof.
  intros Hinv Hv. unfold catalog_attach, no_panic.
  pose proof (pi_catalog _ _ Hinv) as Hc.
  destruct (segments p !! spec_id s) as [a|] eqn:Hs.
  { destruct (ci_mounted _ _ Hc _ _ Hs) as (e & He & _). rewrite He.
    case_decide; naive_solver. }
  assert (region_end (region s) = Some (base (region s) + region_size (region s))) as ->.
  { apply checked_add_Some. destruct Hv as (_ & _ & ?). done. }
  pose proof (check_overlap_ok s _ (mounted_specs p)
    (fun x => mounted_specs_valid p _ x Hc) eq_refl) as Hscan.
  destruct (check_overlap _ _ _) as [u|err|]; simpl in *; [|naive_solver|done].
  split_and!; [done| |naive_solver|done].
  apply pool_inv_mount; try done. intros i a e Hm Ho Ht.
  apply Hscan; [|done..]. apply (elem_of_mounted_specs _ _ _ Hc). eauto 10.
Qed.

(** *** State changes of owned entries *)

Lemma owned_entry_ok o i p rs :
  pool_inv p rs →
  match owned_entry o i p with
  | Ok a => ∃ e, mounted p i a e ∧ spec_owner (spec e) = o
  | Err e => segments p !! i = None ∧ e = StateNotFound i ∨
             ∃ a en, mounted p i a en ∧ spec_owner (spec en) ≠ o ∧
                     e = OwnerMismatch i (spec_owner (spec en)) o
  | Panic => False
  end.
Proof.
  intros Hinv. unfold owned_entry.
  destruct (segments p !! i) as [a|] eqn:Hs; [|auto].
  destruct (ci_mounted _ _ (pi_catalog _ _ Hinv) _ _ Hs) as (e & He & _).
  rewrite He. unfold mounted. case_decide; [eauto|right; eauto 10].
Qed.

Definition benign (f : SegmentEntry → SegmentEntry) : Prop :=
  ∀ e, spec (f e) = spec e ∧ live (f e) = live e ∧
       (state (f e) = Removed ↔ state e = Removed).

Lemma benign_quiesce : benign entry_quiesce.
Proof. intros [s [] l]; done. Qed.

Lemma benign_reactivate : benign entry_reactivate.
Proof. intros [s [] l]; done. Qed.

(** Everything of the pool but the accepting index. *)
Definition settled (p : Pool A) (rs : list (Reservation Alloc)) : Prop :=
  catalog_inv p (owner_view p) ∧
  (∀ o ids, segments_by_owner p !! o = Some ids → ids ≠ ∅) ∧
  (∀ h, h ∈ direct p → handle_pool h = pool_id p) ∧
  space_inv p rs ∧ 3 <= max_nodes p.

Lemma pool_inv_settled p rs : pool_inv p rs → settled p rs.
Proof.
  intros Hinv. pose proof Hinv as []. split_and!; try done.
  intros h. by apply (direct_pool p rs).
Qed.

Lemma settled_rebuild p rs : settled p rs → pool_inv (rebuild_indexes p) rs.
Proof. intros (? & ? & ? & ? & ?). by apply pool_inv_rebuild. Qed.

Lemma settled_alter a f p rs : benign f → settled p rs → settled (update_entry a f p) rs.
Proof.
  intros Hf (Hc & Hne & Hd & Hs & Hn). split_and!; try done.
  - by apply catalog_inv_alter.
  - eapply space_inv_specs; [..|exact Hs]; [done|]. intros b. simpl.
    apply alter_spec. intros e. apply Hf.
Qed.

Lemma settled_alter_many addrs f p rs :
  benign f → settled p rs →
  settled (foldl (fun q a => update_entry a f q) p addrs) rs.
Proof.
  intros Hf. revert p. induction addrs as [|a addrs IH]; intros p Hs; simpl; [done|].
  by apply IH, settled_alter.
Qed.

Lemma catalog_quiesce_ok o i p rs :
  pool_inv p rs →
  no_panic (catalog_quiesce o i p).1 ∧ pool_inv (catalog_quiesce o i p).2 rs.
Proof.
  intros Hinv. unfold catalog_quiesce, no_panic. pose proof (owned_entry_ok o i p rs Hinv) as Ho.
  destruct (owned_entry o i p); [|done..]. split; [done|].
  by apply settled_rebuild, settled_alter, pool_inv_settled; [apply benign_quiesce|].
Qed.

Lemma catalog_reactivate_ok o i p rs :
  pool_inv p rs →
  no_panic (catalog_reactivate o i p).1 ∧ pool_inv (catalog_reactivate o i p).2 rs.
Proof.
  intros Hinv. unfold catalog_reactivate, no_panic.
  pose proof (owned_entry_ok o i p rs Hinv) as Ho.
  destruct (owned_entry o i p); [|done..]. split; [done|].
  by apply settled_rebuild, settled_alter, pool_inv_settled; [apply benign_reactivate|].
Qed.

Lemma owned_entries_ok o p rs ids :
  pool_inv p rs → no_panic (owned_entries o ids p) ∧
  ∀ addrs, owned_entries o ids p = Ok addrs →
    Forall2 (fun i a => ∃ e, mounted p i a e ∧ spec_owner (spec e) = o) ids addrs.
Proof.
  intros Hinv. unfold no_panic. induction ids as [|i ids [IH1 IH2]]; simpl; [naive_solver|].
  pose proof (owned_entry_ok o i p rs Hinv) as Ho.
  destruct (owned_entry o i p); [|done..]. simpl.
  destruct (owned_entries o ids p); [|done..]. simpl. split; [done|].
  intros addrs [= <-]. constructor; eauto.
Qed.

Lemma catalog_reactivate_many_ok o ids p rs :
  pool_inv p rs →
  no_panic (catalog_reactivate_many o ids p).1 ∧
  pool_inv (catalog_reactivate_many o ids p).2 rs.
Proof.
  intros Hinv. unfold catalog_reactivate_many, no_panic.
  destruct (owned_entries_ok o p rs ids Hinv) as [Hp _].
  destruct (owned_entries o ids p); [|done..]. split; [done|].
  by apply settled_rebuild, settled_alter_many, pool_inv_settled; [apply benign_reactivate|].
Qed.

(** *** Unmounting *)

(** The entry is fenced and its id leaves the index. *)
Definition unmount_raw (i : SegmentId) (a : N) (ob : gmap ClientId (gset SegmentId))
    (p : Pool A) : Pool A :=
  set_index (delete i (segments p)) ob (update_entry a entry_invalidate p).

Lemma unmount_mounted i a e ob p ow j b f :
  catalog_inv p ow → mounted p i a e →
  mounted (unmount_raw i a ob p) j b f ↔ j ≠ i ∧ mounted p j b f.
Proof.
  intros Hc Hm. unfold mounted at 1. simpl. rewrite lookup_delete. case_decide as Hj.
  - subst j. split; [by intros [? _]|by intros [? _]].
  - split.
    + intros [Hs He]. split; [done|]. split; [done|].
      destruct (ci_mounted _ _ Hc _ _ Hs) as (g & Hg & _).
      rewrite lookup_alter_ne in He; [done|]. intros <-.
      apply Hj. symmetry. by eapply (mounted_inj _ _ _ _ a).
    + intros [_ [Hs He]]. split; [done|].
      rewrite lookup_alter_ne; [done|]. intros <-.
      apply Hj. symmetry. by eapply (mounted_inj _ _ _ _ a).
Qed.

Lemma catalog_inv_unmount i a e ob p ow :
  catalog_inv p ow → mounted p i a e →
  catalog_inv (unmount_raw i a ob p) (fun o => ow o ∖ {[i]}).
Proof.
  intros Hc Hm. split.
  - intros j b Hj. simpl in *. apply lookup_delete_Some in Hj as [Hij Hj].
    destruct (ci_mounted _ _ Hc _ _ Hj) as (f & Hf & ? & ?). exists f.
    rewrite lookup_alter_ne; [done|]. intros <-.
    apply Hij. by eapply (mounted_inj _ _ _ _ a).
  - intros b f Hb. simpl in *. destruct (decide (a = b)) as [<-|Hab].
    + rewrite lookup_alter_eq in Hb. apply fmap_Some in Hb as (g & Hg & ->).
      destruct (ci_entry _ _ Hc _ _ Hg) as (? & ? & _ & _). simpl. done.
    + rewrite lookup_alter_ne in Hb by done.
      destruct (ci_entry _ _ Hc _ _ Hb) as (? & ? & ? & Hseg). split_and!; try done.
      intros Hr. specialize (Hseg Hr). rewrite lookup_delete_ne; [done|].
      intros Heq. destruct Hm as [Hm _]. congruence.
  - intros o j. rewrite elem_of_difference, elem_of_singleton, (ci_owner _ _ Hc).
    setoid_rewrite (unmount_mounted i a e ob p ow); [|done..]. naive_solver.
  - intros j k b c f g Hjk Hj Hk.
    apply (unmount_mounted i a e ob p ow j b f Hc Hm) in Hj as [_ Hj].
    apply (unmount_mounted i a e ob p ow k c g Hc Hm) in Hk as [_ Hk].
    by apply (ci_overlap _ _ Hc j k b c).
Qed.

Lemma space_inv_unmount i a ob p rs :
  space_inv p rs → space_inv (unmount_raw i a ob p) rs.
Proof.
  intros Hs. eapply space_inv_specs; [..|exact Hs]; [done|].
  intros b. simpl. by apply alter_spec.
Qed.

Lemma owner_view_remove o i (p : Pool A) o' :
  default ∅ (remove_owner_segment o i (segments_by_owner p) !! o') =
  if decide (o' = o) then owner_view p o' ∖ {[i]} else owner_view p o'.
Proof.
  unfold remove_owner_segment, owner_view.
  destruct (decide (o' = o)) as [->|Hne].
  - destruct (segments_by_owner p !! o) as [ids|] eqn:E; simpl;
      [case_decide as He|rewrite E; set_solver].
    + rewrite lookup_delete_eq. by rewrite He.
    + by rewrite lookup_insert_eq.
  - destruct (segments_by_owner p !! o) as [ids|]; [case_decide|done].
    + by rewrite lookup_delete_ne.
    + by rewrite lookup_insert_ne.
Qed.

Lemma prepare_remove_ok e :
  match prepare_remove e with
  | Ok e' => state e ≠ Removed → state e = Quiesced ∧ e' = entry_invalidate e
  | Err err => state e = Accepting ∧ err = StillAccepting (spec_id (spec e))
  | Panic => False
  end.
Proof. by destruct e as [s [] l]. Qed.

Lemma catalog_remove_ok o i p rs :
  pool_inv p rs →
  no_panic (catalog_remove o i p).1 ∧ pool_inv (catalog_remove o i p).2 rs ∧
  ((catalog_remove o i p).1 = Ok tt →
   ∃ a e, mounted p i a e ∧ spec_owner (spec e) = o ∧ state e = Quiesced ∧
     (catalog_remove o i p).2 =
       rebuild_indexes (unmount_raw i a (remove_owner_segment o i (segments_by_owner p)) p)) ∧
  ((catalog_remove o i p).1 ≠ Ok tt → (catalog_remove o i p).2 = p).
Proof.
  intros Hinv. unfold catalog_remove, no_panic.
  pose proof (owned_entry_ok o i p rs Hinv) as Ho.
  pose proof (pi_catalog _ _ Hinv) as Hc.
  destruct (owned_entry o i p) as [a|err|]; [|by split_and!|done].
  destruct Ho as (e & Hm & Ho). pose proof Hm as [Hs He]. rewrite He.
  pose proof (prepare_remove_ok e) as Hp.
  destruct (mounted_id _ _ _ _ _ Hc Hm) as [_ Hnr].
  destruct (prepare_remove e) as [e'|err|]; [|by split_and!|done].
  destruct (Hp Hnr) as [Hq ->]. simpl. rewrite Hs.
  assert (set_index (delete i (segments p)) (remove_owner_segment o i (segments_by_owner p))
     (set_entries (<[a:=entry_invalidate e]> (entries p)) p) =
     unmount_raw i a (remove_owner_segment o i (segments_by_owner p)) p) as ->.
  { unfold unmount_raw, update_entry. do 2 f_equal. apply map_eq. intros b.
    rewrite lookup_insert, lookup_alter. case_decide; [|done]. subst b. by rewrite He. }
  split_and!; try done; [|by eauto 10].
  apply settled_rebuild. split_and!.
  - eapply catalog_inv_ext; [..|by eapply catalog_inv_unmount]; try done.
    intros o'. unfold owner_view at 1. simpl. rewrite owner_view_remove.
    case_decide as Hoo; [done|]. symmetry. apply set_eq. intros j.
    rewrite elem_of_difference, elem_of_singleton. split; [naive_solver|].
    intros Hj. split; [done|]. intros ->. apply (ci_owner _ _ Hc) in Hj as (b & f & Hf & Hfo).
    destruct (mounted_fn _ _ _ _ _ _ Hm Hf) as [<- <-]. congruence.
  - intros o' ids. simpl. unfold remove_owner_segment.
    destruct (segments_by_owner p !! o) as [ids0|] eqn:E; [|apply (pi_nonempty _ _ Hinv)].
    case_decide.
    + intros [_ H']%lookup_delete_Some. by eapply pi_nonempty.
    + rewrite lookup_insert. case_decide; [by intros [= <-]|apply (pi_nonempty _ _ Hinv)].
  - intros h. simpl. apply (direct_pool p rs h Hinv).
  - apply space_inv_unmount, Hinv.
  - apply (pi_nodes _ _ Hinv).
Qed.

(** What one removal step keeps besides the catalog. *)
Definition same_frame (p p' : Pool A) : Prop :=
  direct p' = direct p ∧ direct_generation p' = direct_generation p ∧
  pool_id p' = pool_id p ∧ max_nodes p' = max_nodes p ∧
  direct_capacity_epoch p' = direct_capacity_epoch p ∧
  invalidation_epoch p' = invalidation_epoch p ∧
  allocators p' = allocators p ∧ next_entry p' = next_entry p ∧
  ∀ a, spec <$> entries p' !! a = spec <$> entries p !! a.

Lemma invalidate_ids_ok o : ∀ l n p ow,
  NoDup l → (∀ i, i ∈ l → i ∈ ow o) → catalog_inv p ow →
  ∃ p', invalidate_ids l n p = (Ok (n + N.of_nat (length l)), p') ∧
    catalog_inv p' (fun o' => ow o' ∖ list_to_set l) ∧ same_frame p p' ∧
    segments_by_owner p' = segments_by_owner p ∧
    (∀ j b f, mounted p' j b f ↔ j ∉ l ∧ mounted p j b f) ∧
    N.of_nat (length l) + N.of_nat (size (segments p')) = N.of_nat (size (segments p)).
Proof.
  induction l as [|i l IH]; intros n p ow Hnd Hin Hc; simpl.
  { exists p. split_and!; try done; [by rewrite N.add_0_r| |].
    - eapply catalog_inv_ext; [..|exact Hc]; try done. intros o'. set_solver.
    - set_solver. }
  apply NoDup_cons in Hnd as [Hi Hnd].
  destruct (proj1 (ci_owner _ _ Hc o i)) as (a & e & Hm & Ho); [set_solver|].
  pose proof Hm as [Hs _]. rewrite Hs.
  destruct (IH (n + 1) (unmount_raw i a (segments_by_owner p) p) (fun o' => ow o' ∖ {[i]}))
    as (p' & Hrun & Hc' & Hf & Hob & Hm' & Hsize); [done| |by eapply catalog_inv_unmount|].
  { intros j Hj. apply elem_of_difference. split; [apply Hin; set_solver|].
    rewrite elem_of_singleton. by intros ->. }
  exists p'. split_and!.
  - unfold unmount_raw in Hrun.
    replace (n + N.of_nat (S (length l))) with (n + 1 + N.of_nat (length l)) by lia.
    exact Hrun.
  - eapply catalog_inv_ext; [..|exact Hc']; try done. intros o'. set_solver.
  - destruct Hf as (?&?&?&?&?&?&?&?&Hsp). split_and!; try done.
    intros b. rewrite Hsp. simpl. by apply alter_spec.
  - done.
  - intros j b f. rewrite Hm', (unmount_mounted i a e _ p ow j b f Hc Hm). set_solver.
  - simpl in Hsize. rewrite map_size_delete_Some in Hsize by eauto.
    assert (size (segments p) ≠ 0%nat); [|lia].
    intros H0%map_size_empty_inv. by rewrite H0 in Hs.
Qed.

Lemma same_frame_trans p1 p2 p3 : same_frame p1 p2 → same_frame p2 p3 → same_frame p1 p3.
Proof.
  intros (?&?&?&?&?&?&?&?&Hs1) (?&?&?&?&?&?&?&?&Hs2).
  split_and!; [congruence..|]. intros a. by rewrite Hs2, Hs1.
Qed.

Lemma owner_view_mounted p o i a e :
  catalog_inv p (owner_view p) → mounted p i a e → spec_owner (spec e) = o ↔ i ∈ owner_view p o.
Proof.
  intros Hc Hm. rewrite (ci_owner _ _ Hc). split; [eauto|].
  intros (b & f & Hm' & Hf). by destruct (mounted_fn _ _ _ _ _ _ Hm Hm') as [<- <-].
Qed.

Lemma invalidate_each_ok : ∀ os n p,
  catalog_inv p (owner_view p) →
  (∀ o ids, segments_by_owner p !! o = Some ids → ids ≠ ∅) →
  ∃ n' p', invalidate_each os n p = (Ok n', p') ∧ n <= n' ∧
    catalog_inv p' (owner_view p') ∧
    (∀ o ids, segments_by_owner p' !! o = Some ids → ids ≠ ∅) ∧
    same_frame p p' ∧ (n' = n → p' = p) ∧
    (∀ j b f, mounted p' j b f ↔ mounted p j b f ∧ spec_owner (spec f) ∉ os) ∧
    n' + N.of_nat (size (segments p')) = n + N.of_nat (size (segments p)).
Proof.
  induction os as [|o os IH]; intros n p Hc Hne; simpl.
  { exists n, p. split_and!; try done. set_solver. }
  pose proof (fun j b f => owner_view_mounted p o j b f Hc) as Hown.
  destruct (segments_by_owner p !! o) as [ids|] eqn:E.
  2:{ destruct (IH n p Hc Hne) as (n' & p' & Hrun & ? & ? & ? & ? & ? & Hm & ?).
    exists n', p'. split_and!; try done. intros j b f. rewrite Hm. unfold owner_view in Hown.
    rewrite E in Hown. simpl in Hown. set_solver. }
  set (p0 := set_index (segments p) (delete o (segments_by_owner p)) p).
  destruct (invalidate_ids_ok o (elements ids) n p0 (owner_view p))
    as (p1 & Hrun & Hc1 & Hf1 & Hob1 & Hm1 & Hn1).
  { apply NoDup_elements. }
  { intros i Hi%elem_of_elements. unfold owner_view. by rewrite E. }
  { by eapply catalog_inv_ext, Hc. }
  rewrite Hrun.
  assert (0 < N.of_nat (length (elements ids))) as Hpos.
  { specialize (Hne _ _ E). destruct (elements ids) eqn:Hel; [|simpl; lia].
    apply elements_empty_inv in Hel. apply leibniz_equiv in Hel. done. }
  destruct (IH (n + N.of_nat (length (elements ids))) p1)
    as (n' & p' & Hrun' & Hle & Hc' & Hne' & Hf' & Hsame & Hm' & Hn').
  - eapply catalog_inv_ext; [..|exact Hc1]; try done.
    intros o'. unfold owner_view at 1. rewrite Hob1. simpl.
    destruct (decide (o' = o)) as [->|Hoo].
    + rewrite lookup_delete_eq. unfold owner_view. rewrite E. simpl.
      rewrite list_to_set_elements_L. set_solver.
    + rewrite lookup_delete_ne by done. rewrite list_to_set_elements_L.
      apply set_eq. intros i. rewrite elem_of_difference. split; [|naive_solver].
      intros Hi. split; [done|]. intros Hi'.
      apply (ci_owner _ _ Hc) in Hi as (a & e & Hm & He).
      assert (i ∈ owner_view p o) as Hi2 by (unfold owner_view; by rewrite E).
      apply (Hown _ _ _ Hm) in Hi2. congruence.
  - intros o' ids'. rewrite Hob1. simpl. intros [_ ?]%lookup_delete_Some. eauto.
  - exists n', p'. split_and!; try done; [lia| |lia| |simpl in Hn1; lia].
    { eapply same_frame_trans; [|exact Hf']. done. }
    intros j b f. rewrite Hm', Hm1, elem_of_elements. unfold owner_view in Hown. rewrite E in Hown.
    simpl in Hown. change (mounted p0 j b f) with (mounted p j b f). set_solver.
Qed.

Lemma catalog_invalidate_ok os p rs :
  pool_inv p rs →
  ∃ n p', catalog_invalidate_owners os p = (Ok n, p') ∧ pool_inv p' rs ∧ (n = 0 → p' = p).
Proof.
  intros Hinv. unfold catalog_invalidate_owners.
  destruct (invalidate_each_ok os 0 p) as (n & p' & Hrun & _ & Hc & Hne & Hf & Hsame & _);
    [apply Hinv|apply Hinv|].
  rewrite Hrun. destruct (N.eqb_spec n 0) as [->|Hn].
  - exists 0, p'. rewrite Hsame by done. by split_and!.
  - exists n, (rebuild_indexes p'). split_and!; [done| |done].
    destruct Hf as (Hd & _ & Hpid & Hmn & _ & _ & Hal & _ & Hsp).
    apply settled_rebuild. split_and!; try done.
    + intros h. rewrite Hd, Hpid. apply (direct_pool p rs h Hinv).
    + eapply space_inv_specs; [..|apply Hinv]; done.
    + rewrite Hmn. apply Hinv.
Qed.

(** *** Reserving and releasing *)

Lemma pool_inv_epoch f p rs :
  pool_inv p rs →
  (∀ q : Pool A, segments (f q) = segments q ∧ segments_by_owner (f q) = segments_by_owner q ∧
     direct (f q) = direct q ∧ entries (f q) = entries q ∧ allocators (f q) = allocators q ∧
     next_entry (f q) = next_entry q ∧ max_nodes (f q) = max_nodes q ∧
     pool_id (f q) = pool_id q) →
  pool_inv (f p) rs.
Proof.
  intros [Hc Hne Hd Hs Hn] Hf.
  destruct (Hf p) as (H1 & H2 & H3 & H4 & H5 & H6 & H7 & H8). split.
  - eapply catalog_inv_ext; [..|exact Hc]; try done.
    intros o. unfold owner_view. by rewrite H2.
  - by rewrite H2.
  - rewrite H3, Hd. unfold accepting_index, id_of, accepting_at. by rewrite H1, H4, H8.
  - destruct Hs. split; rewrite ?H4, ?H5; done.
  - by rewrite H7.
Qed.

Lemma update_direct_ok {T E} (x : res E T * Pool A) rs :
  no_panic x.1 → pool_inv x.2 rs →
  no_panic (update_direct_catalog x).1 ∧ pool_inv (update_direct_catalog x).2 rs.
Proof.
  destruct x as [[t|err|] p]; simpl; try done. intros _ Hinv. split; [done|].
  by apply (pool_inv_epoch bump_capacity_epoch).
Qed.

Lemma space_inv_allocators p rs al :
  (∀ a, is_Some (al !! a) ↔ is_Some (allocators p !! a)) →
  (∀ a sh sh', allocators p !! a = Some sh → al !! a = Some sh' →
     managed_capacity sh' = managed_capacity sh) →
  ∀ rs', owners_inv al (owned_allocation <$> rs') →
  (∀ r, r ∈ rs' → ∃ e, entries p !! r_entry r = Some e ∧
    base (r_region r) = base (region (spec e)) + offset (r_allocation r) ∧
    region_size (r_region r) = requested_bytes (r_allocation r)) →
  space_inv p rs → space_inv (set_allocators al p) rs'.
Proof.
  intros Hdom Hman rs' Ho Hr [Hd _ Hm _]. split; simpl; try done.
  - intros a. by rewrite Hd, Hdom.
  - intros a e sh He Hsh. assert (is_Some (allocators p !! a)) as [sh0 Hsh0] by (apply Hd; eauto).
    rewrite (Hman a sh0 sh) by done. eauto.
Qed.

Lemma pool_inv_allocators p rs al rs' :
  pool_inv p rs → space_inv (set_allocators al p) rs' → pool_inv (set_allocators al p) rs'.
Proof. intros [Hc Hne Hd Hs Hn] Hs'. split; try done. by eapply catalog_inv_ext, Hc. Qed.

Lemma allocate_managed bytes (sh : SharedAllocator A) :
  managed_capacity (allocate_after_precheck bytes sh).2 = managed_capacity sh.
Proof. unfold allocate_after_precheck. by repeat case_match. Qed.

(** Reserving from an entry: no panic, and the address cannot overflow, since
    the allocator stays within the registered region. *)
Lemma entry_reserve_ok a bytes e (sh : SharedAllocator A) hs :
  alloc_inv sh hs → spec_valid (spec e) →
  managed_capacity sh <= region_size (region (spec e)) →
  let '(o, sh') := entry_reserve a bytes e sh in
  managed_capacity sh' = managed_capacity sh ∧
  match o with
  | Ok r => alloc_inv sh' (r_allocation r :: hs) ∧ r_entry r = a ∧ state e = Accepting ∧
      base (r_region r) = base (region (spec e)) + offset (r_allocation r) ∧
      region_size (r_region r) = bytes ∧ requested_bytes (r_allocation r) = bytes
  | Err err => alloc_inv sh' hs ∧
      (bytes = 0 ∧ err = ReserveZeroSize ∨
       err = OutOfSpace (spec_id (spec e)) ∨
       state e ≠ Accepting ∧ err = NotAccepting (spec_id (spec e)))
  | Panic => False
  end.
Proof.
  intros Hinv Hv Hm. unfold entry_reserve.
  destruct (N.eqb_spec bytes 0); [naive_solver|].
  destruct (may_satisfy bytes sh) eqn:Hms; simpl; [|naive_solver].
  destruct (state e) eqn:Hst; simpl; [|naive_solver..].
  pose proof (allocate_managed bytes sh) as Hman.
  destruct (allocate_after_precheck bytes sh) as [o sh'] eqn:Ha. simpl in Hman.
  assert (0 < bytes) as Hpos by lia.
  destruct (alloc_inv_allocate _ _ _ _ _ Hinv Hpos Ha) as [Hinv' Hreq].
  destruct o as [h|]; [|naive_solver]. simpl in Hinv'.
  destruct (handle_range _ _ h Hinv') as [_ Hrange]; [set_solver|].
  rewrite (proj2 (checked_add_Some _ _ (base (region (spec e)) + offset h))).
  - simpl. rewrite (Hreq h) by done. naive_solver.
  - split; [done|]. destruct Hv as (_ & _ & Hv). lia.
Qed.

Definition granted {E T} (r : res E T) : list T :=
  match r with Ok t => [t] | _ => [] end.

Lemma owners_inv_update (al : gmap N (SharedAllocator A)) a sh' rs (new : list (Reservation Alloc)) :
  owners_inv al (owned_allocation <$> rs) → is_Some (al !! a) →
  (∀ r, r ∈ new → r_entry r = a) →
  alloc_inv sh' ((r_allocation <$> new) ++ of_owner a (owned_allocation <$> rs)) →
  owners_inv (<[a := sh']> al) (owned_allocation <$> (new ++ rs)).
Proof.
  intros [Ho Hd] Ha Hnew Hinv. rewrite fmap_app. split.
  - intros b sh. rewrite lookup_insert, of_owner_app. case_decide as Hab.
    + intros [= <-]. subst b. rewrite of_owner_all.
      * by rewrite <- list_fmap_compose.
      * intros x (r & -> & Hr)%list_elem_of_fmap. by apply Hnew.
    + intros Hb. rewrite (of_owner_none b a); [by apply Ho| |done].
      intros x (r & -> & Hr)%list_elem_of_fmap. by apply Hnew.
  - intros x. rewrite elem_of_app, lookup_insert. case_decide as Hxa; [eauto|].
    intros [(r & -> & Hr)%list_elem_of_fmap|Hx]; [|by apply Hd].
    exfalso. apply Hxa. symmetry. by apply Hnew.
Qed.

Lemma pool_reserve_ok c bytes p rs :
  pool_inv p rs → (handle_pool c = pool_id p → is_Some (entries p !! handle_entry c)) →
  no_panic (pool_reserve c bytes p).1 ∧
  pool_inv (pool_reserve c bytes p).2 (granted (pool_reserve c bytes p).1 ++ rs).
Proof.
  intros Hinv Hc. unfold pool_reserve, no_panic.
  destruct (N.eqb_spec (handle_pool c) (pool_id p)) as [Hp|]; simpl; [|done].
  destruct (Hc Hp) as [e He].
  pose proof (pi_space _ _ Hinv) as Hs. destruct Hs as [Hd Ho Hm Hr] eqn:Es.
  destruct (proj1 (Hd (handle_entry c))) as [sh Hsh]; [eauto|]. rewrite He, Hsh.
  destruct (ci_entry _ _ (pi_catalog _ _ Hinv) _ _ He) as (_ & Hv & _ & _).
  pose proof (entry_reserve_ok (handle_entry c) bytes e sh _ (proj1 Ho _ _ Hsh) Hv
    (proj2 (Hm _ _ _ He Hsh))) as Hres.
  destruct (entry_reserve _ _ _ _) as [o sh']. destruct Hres as [Hman Hres].
  assert (∀ rs', owners_inv (<[handle_entry c := sh']> (allocators p)) (owned_allocation <$> rs') →
    (∀ r, r ∈ rs' → ∃ e, entries p !! r_entry r = Some e ∧
       base (r_region r) = base (region (spec e)) + offset (r_allocation r) ∧
       region_size (r_region r) = requested_bytes (r_allocation r)) →
    pool_inv (set_allocators (<[handle_entry c := sh']> (allocators p)) p) rs') as Hfin.
  { intros rs' Ho' Hr'. apply (pool_inv_allocators p rs); [done|].
    apply (space_inv_allocators p rs); try done.
    - intros a. rewrite lookup_insert. case_decide; [subst; split; eauto|done].
    - intros a sh0 sh0' H0. rewrite lookup_insert. case_decide; [|congruence].
      subst a. intros [= <-]. congruence. }
  destruct o as [r|err|]; simpl; [| |done]; (split; [done|]); apply Hfin.
  - destruct Hres as (Hai & Hre & _ & Hb & Hz & Hq).
    apply (owners_inv_update _ _ _ rs [r]); [done|eauto|set_solver|]. done.
  - destruct Hres as (Hai & Hre & _ & Hb & Hz & Hq).
    intros r' [->|Hin]%elem_of_cons; [|by apply Hr].
    exists e. rewrite Hre, Hz, Hq. done.
  - apply (owners_inv_update _ _ _ rs []); [done|eauto|set_solver|]. apply Hres.
  - done.
Qed.

(** The pool without its allocators: what reserving and releasing keep. *)
Definition pool_frame (p : Pool A) : Pool A := set_allocators ∅ p.

Lemma frame_entries p p' : pool_frame p' = pool_frame p → entries p' = entries p.
Proof. intros Hf. exact (f_equal entries Hf). Qed.

Lemma handle_drop_managed (l : list (Alloc * N)) (sh sh' : SharedAllocator A) :
  release_many l sh = Some sh' → managed_capacity sh' = managed_capacity sh.
Proof. unfold release_many. repeat case_match; naive_solver. Qed.

Lemma release_groups_managed : ∀ fuel (l : list (N * OffsetAllocationHandle Alloc))
    (al al' : gmap N (SharedAllocator A)),
  release_groups fuel l al = Some al' →
  ∀ a sh sh', al !! a = Some sh → al' !! a = Some sh' →
    managed_capacity sh' = managed_capacity sh.
Proof.
  induction fuel as [|fuel IH]; intros [|[o h] l] al al' Hrun a sh sh' Ha Ha';
    simpl in Hrun; try (simplify_eq; congruence).
  destruct (take_group o l) as [g rest].
  destruct (al !! o) as [sh0|] eqn:Ho; [|done].
  destruct (release_many _ sh0) as [sh1|] eqn:Hrel; [|done].
  apply handle_drop_managed in Hrel.
  destruct (decide (o = a)) as [->|Hoa].
  - rewrite (IH _ _ _ Hrun a sh1 sh'); [congruence|by rewrite lookup_insert_eq|done].
  - apply (IH _ _ _ Hrun a); [by rewrite lookup_insert_ne|done].
Qed.

Lemma pool_release_ok n p rs :
  pool_inv p rs →
  ∃ p', pool_release_batch (take n rs) p = Some p' ∧ pool_inv p' (drop n rs) ∧
    pool_frame p' = pool_frame p.
Proof.
  intros Hinv. pose proof (pi_space _ _ Hinv) as Hs. unfold pool_release_batch.
  destruct (release_batch_ok (map owned_allocation (take n rs))
    (owned_allocation <$> drop n rs) (allocators p)) as (al & Hrun & Ho & Hdom).
  { pose proof (si_alloc _ _ Hs) as Ho. rewrite <- (take_drop n rs) in Ho at 1.
    by rewrite fmap_app in Ho. }
  rewrite Hrun. simpl. eexists. split_and!; [done| |done].
  apply (pool_inv_allocators p rs); [done|]. apply (space_inv_allocators p rs); try done.
  - intros a. by rewrite <- !elem_of_dom, Hdom.
  - intros a sh sh'. unfold release_batch in Hrun. by eapply release_groups_managed.
  - intros r Hr. apply (si_region _ _ Hs). rewrite <- (take_drop n rs), elem_of_app.
    by right.
Qed.

(** *** Every step *)

Lemma pool_attach_ok s p rs :
  pool_inv p rs → no_panic (pool_attach s p).1 ∧ pool_inv (pool_attach s p).2 rs.
Proof.
  intros Hinv. unfold pool_attach.
  destruct (validate_spec s) as [[]|err|] eqn:Hv; [| |].
  - apply validate_spec_valid in Hv.
    destruct (catalog_attach_ok s p rs Hinv Hv) as (? & ? & _). by apply update_direct_ok.
  - done.
  - exfalso. unfold validate_spec, validate_direct_range in Hv. by repeat case_match.
Qed.

Lemma rebuild_fields p :
  segments (rebuild_indexes p) = segments p ∧ entries (rebuild_indexes p) = entries p ∧
  pool_id (rebuild_indexes p) = pool_id p.
Proof. unfold rebuild_indexes. by case_match. Qed.

Lemma pool_attach_quiesced_ok s p rs :
  pool_inv p rs →
  no_panic (pool_attach_quiesced s p).1 ∧ pool_inv (pool_attach_quiesced s p).2 rs.
Proof.
  intros Hinv. unfold pool_attach_quiesced.
  destruct (validate_spec s) as [[]|err|] eqn:Hv; [| |].
  - apply validate_spec_valid in Hv. apply update_direct_ok;
      destruct (catalog_attach_ok s p rs Hinv Hv) as (Hnp & Hinv1 & Hnew & _);
      destruct (catalog_attach s p) as [[o|err|] p1] eqn:Ha; simpl in *; try done;
      (destruct o as [h|h]; simpl; [|done]);
      destruct (Hnew h eq_refl) as [-> _];
      destruct (catalog_quiesce_ok (spec_owner s) (spec_id s) _ _ Hinv1) as [Hq1 Hq2];
      unfold catalog_quiesce, owned_entry in *;
      unfold mount in *; destruct (rebuild_fields (mount_raw s p)) as (Hsg & Hen & _);
      unfold mount_raw in Hsg, Hen; rewrite Hsg, Hen in *; simpl in *;
      rewrite !lookup_insert_eq in *; simpl in *; by rewrite decide_True in *.
  - done.
  - exfalso. unfold validate_spec, validate_direct_range in Hv. by repeat case_match.
Qed.

Lemma pool_invalidate_ok os p rs :
  pool_inv p rs →
  no_panic (pool_invalidate_owners os p).1 ∧ pool_inv (pool_invalidate_owners os p).2 rs.
Proof.
  intros Hinv. unfold pool_invalidate_owners, no_panic.
  destruct (catalog_invalidate_ok os p rs Hinv) as (n & p' & -> & Hinv' & _). split; [done|].
  simpl. destruct (n =? 0); [done|].
  by apply (pool_inv_epoch bump_invalidation_epoch);
    [apply (pool_inv_epoch bump_capacity_epoch)|].
Qed.

Lemma pool_remove_ok o i p rs :
  pool_inv p rs → no_panic (pool_remove o i p).1 ∧ pool_inv (pool_remove o i p).2 rs.
Proof.
  intros Hinv. unfold pool_remove.
  destruct (catalog_remove_ok o i p rs Hinv) as (Hnp & Hinv' & _).
  destruct (update_direct_ok _ rs Hnp Hinv') as [H1 H2].
  destruct (update_direct_catalog _) as [[[]|err|] p']; try done. split; [done|].
  by apply (pool_inv_epoch bump_invalidation_epoch).
Qed.

Lemma pool_reserve_on_ok i bytes p rs :
  pool_inv p rs →
  no_panic (pool_reserve_on i bytes p).1 ∧
  pool_inv (pool_reserve_on i bytes p).2 (granted (pool_reserve_on i bytes p).1 ++ rs).
Proof.
  intros Hinv. unfold pool_reserve_on, catalog_segment.
  destruct (bytes =? 0); [done|].
  destruct (segments p !! i) as [a|] eqn:Hs; simpl; [|done].
  apply pool_reserve_ok; [done|]. intros _. simpl.
  destruct (ci_mounted _ _ (pi_catalog _ _ Hinv) _ _ Hs) as (e & He & _). eauto.
Qed.

Lemma pool_step_ok op (w : PoolWorld A Alloc) :
  pool_inv (pool w) (reservations w) →
  ∃ w', pool_step op w = Some w' ∧ pool_inv (pool w') (reservations w').
Proof.
  destruct w as [p rs]. simpl. intros Hinv.
  destruct op; unfold pool_step; cbn [pool reservations].
  - destruct (pool_attach_ok s p rs Hinv) as [Hn Hi].
    destruct (pool_attach s p) as [[]]; simpl in *; eauto; done.
  - destruct (pool_attach_quiesced_ok s p rs Hinv) as [Hn Hi].
    destruct (pool_attach_quiesced s p) as [[]]; simpl in *; eauto; done.
  - destruct (catalog_quiesce_ok o i p rs Hinv) as [Hn Hi].
    destruct (update_direct_ok _ rs Hn Hi) as [Hn' Hi'].
    unfold pool_quiesce. destruct (update_direct_catalog _) as [[]]; simpl in *; eauto; done.
  - destruct (catalog_reactivate_ok o i p rs Hinv) as [Hn Hi].
    destruct (update_direct_ok _ rs Hn Hi) as [Hn' Hi'].
    unfold pool_reactivate. destruct (update_direct_catalog _) as [[]]; simpl in *; eauto; done.
  - destruct ids as [|i ids]; [simpl; eauto|].
    destruct (catalog_reactivate_many_ok o (i :: ids) p rs Hinv) as [Hn Hi].
    destruct (update_direct_ok _ rs Hn Hi) as [Hn' Hi'].
    unfold pool_reactivate_many.
    destruct (update_direct_catalog _) as [[]]; simpl in *; eauto; done.
  - destruct (pool_remove_ok o i p rs Hinv) as [Hn Hi].
    destruct (pool_remove o i p) as [[]]; simpl in *; eauto; done.
  - destruct (pool_invalidate_ok owners p rs Hinv) as [Hn Hi].
    destruct (pool_invalidate_owners owners p) as [[]]; simpl in *; eauto; done.
  - destruct (_ && _) eqn:Hg; [eauto|].
    destruct (pool_reserve_ok c bytes p rs Hinv) as [Hn Hi].
    { intros Hp. rewrite Hp, N.eqb_refl in Hg. simpl in Hg.
      apply negb_false_iff, bool_decide_eq_true in Hg. done. }
    destruct (pool_reserve c bytes p) as [[]]; simpl in *; eauto; done.
  - destruct (pool_reserve_on_ok i bytes p rs Hinv) as [Hn Hi].
    destruct (pool_reserve_on i bytes p) as [[]]; simpl in *; eauto; done.
  - destruct (pool_release_ok n p rs Hinv) as (p' & -> & Hi & _). simpl. eauto.
Qed.

Lemma pool_inv_new pid nodes : pool_config_valid nodes = true → pool_inv (pool_new pid nodes) [].
Proof.
  intros Hn. split; try done.
  - split; unfold mounted, owner_view; simpl; set_solver.
  - split; simpl.
    + intros a. by rewrite !lookup_empty.
    + split; [intros a sh; by rewrite lookup_empty|by intros x ?%not_elem_of_nil].
    + intros a e sh. by rewrite lookup_empty.
    + by intros r ?%not_elem_of_nil.
  - unfold pool_config_valid, MIN_ALLOCATOR_NODES_PER_SEGMENT in Hn. bool_to_prop.
    simpl. lia.
Qed.

Lemma pool_run_snoc ops op (w : PoolWorld A Alloc) :
  pool_run (ops ++ [op]) w = pool_run ops w ≫= pool_step op.
Proof. unfold pool_run. by rewrite foldl_app. Qed.

Lemma pool_run_ok ops (w : PoolWorld A Alloc) :
  pool_inv (pool w) (reservations w) →
  ∃ w', pool_run ops w = Some w' ∧ pool_inv (pool w') (reservations w').
Proof.
  intros Hinv. induction ops as [|op ops IH] using rev_ind; [eauto|].
  destruct IH as (w' & Hrun & Hinv'). rewrite pool_run_snoc, Hrun. simpl.
  by apply pool_step_ok.
Qed.

(** ** What a step may change *)

(** Entries keep their registration, liveness only goes from true to false, a
    fencing is announced by the invalidation epoch and a change of the
    candidate list by the capacity epoch. *)
Record evolves (p p' : Pool A) : Prop := {
  ev_entry : ∀ a e, entries p !! a = Some e →
    ∃ e', entries p' !! a = Some e' ∧ spec e' = spec e ∧ (live e = false → live e' = false);
  ev_live : (∀ a, live <$> entries p !! a = Some true → live <$> entries p' !! a = Some true) ∨
    invalidation_epoch p' = wrapping_add (invalidation_epoch p) 1;
  ev_direct : direct p' = direct p ∨
    direct_capacity_epoch p' = wrapping_add (direct_capacity_epoch p) 1
}.

(** Entry-wise part, which composes. *)
Definition entries_evolve (m m' : gmap N SegmentEntry) : Prop :=
  ∀ a e, m !! a = Some e →
    ∃ e', m' !! a = Some e' ∧ spec e' = spec e ∧ (live e = false → live e' = false).
Definition entries_keep (m m' : gmap N SegmentEntry) : Prop :=
  ∀ a e, m !! a = Some e → ∃ e', m' !! a = Some e' ∧ spec e' = spec e ∧ live e' = live e.

Lemma entries_keep_evolve m m' : entries_keep m m' → entries_evolve m m'.
Proof. intros H a e He. destruct (H a e He) as (e' & ? & ? & Hl). exists e'. by rewrite Hl. Qed.

Lemma entries_evolve_trans m1 m2 m3 :
  entries_evolve m1 m2 → entries_evolve m2 m3 → entries_evolve m1 m3.
Proof.
  intros H12 H23 a e He. destruct (H12 a e He) as (e' & He' & Hs & Hl).
  destruct (H23 a e' He') as (e'' & ? & ? & ?). exists e''. split_and!; [done|congruence|auto].
Qed.

Lemma entries_keep_trans m1 m2 m3 :
  entries_keep m1 m2 → entries_keep m2 m3 → entries_keep m1 m3.
Proof.
  intros H12 H23 a e He. destruct (H12 a e He) as (e' & He' & Hs & Hl).
  destruct (H23 a e' He') as (e'' & ? & ? & ?). exists e''. split_and!; congruence.
Qed.

Lemma entries_keep_refl m : entries_keep m m.
Proof. intros a e He. eauto. Qed.

Lemma entries_keep_alter f a m : benign f → entries_keep m (alter f a m).
Proof.
  intros Hf b e He. rewrite lookup_alter. case_decide; [|eauto].
  subst b. rewrite He. simpl. exists (f e). destruct (Hf e) as (? & ? & _). done.
Qed.

Lemma entries_evolve_invalidate a m : entries_evolve m (alter entry_invalidate a m).
Proof.
  intros b e He. rewrite lookup_alter. case_decide; [|by eauto].
  subst b. rewrite He. simpl. by exists (entry_invalidate e).
Qed.

Lemma entries_keep_live m m' a :
  entries_keep m m' → live <$> m !! a = Some true → live <$> m' !! a = Some true.
Proof.
  intros Hk. destruct (m !! a) as [e|] eqn:He; [|done]. simpl. intros [= Hl].
  destruct (Hk a e He) as (e' & -> & _ & Hl'). simpl. congruence.
Qed.

Definition epochs (p : Pool A) : N * N := (direct_capacity_epoch p, invalidation_epoch p).

(** A catalog operation: entries are kept, the epochs are untouched, and a
    failure changes nothing. *)
Definition catalog_step {T E} (p : Pool A) (x : res E T * Pool A) : Prop :=
  entries_keep (entries p) (entries x.2) ∧ epochs x.2 = epochs p ∧
  (is_ok x.1 = false → x.2 = p).

Lemma catalog_step_refl {T E} p (x : res E T) : catalog_step p (x, p).
Proof. split; [apply entries_keep_refl|done]. Qed.

Lemma rebuild_epochs p : epochs (rebuild_indexes p) = epochs p.
Proof. unfold rebuild_indexes. by case_match. Qed.

Lemma evolves_refl p : evolves p p.
Proof. split; eauto. Qed.

Lemma evolves_catalog_step {T E} p (x : res E T * Pool A) :
  catalog_step p x → evolves p (update_direct_catalog x).2.
Proof.
  destruct x as [[t|err|] p']; simpl; intros (Hk & He & Hf); simpl in *.
  - injection He as He1 He2. split; simpl.
    + by apply entries_keep_evolve.
    + left. intros a. by apply entries_keep_live.
    + right. by rewrite He1.
  - rewrite Hf by done. apply evolves_refl.
  - rewrite Hf by done. apply evolves_refl.
Qed.

Lemma mount_step s p ow :
  catalog_inv p ow →
  entries_keep (entries p) (entries (mount s p)) ∧ epochs (mount s p) = epochs p.
Proof.
  intros Hc. unfold mount. destruct (rebuild_fields (mount_raw s p)) as (_ & Hen & _).
  split; [|apply (rebuild_epochs (mount_raw s p))].
  unfold mount_raw in Hen. rewrite Hen. simpl. intros a e He. exists e.
  rewrite lookup_insert_ne; [done|]. intros <-. by rewrite (entry_fresh _ _ Hc) in He.
Qed.

Lemma catalog_attach_step s p rs : pool_inv p rs → catalog_step p (catalog_attach s p).
Proof.
  intros Hinv. unfold catalog_attach.
  destruct (mount_step s p _ (pi_catalog _ _ Hinv)) as [Hk He].
  repeat case_match; try apply catalog_step_refl. by split_and!.
Qed.

Lemma state_step f a p :
  benign f →
  entries_keep (entries p) (entries (rebuild_indexes (update_entry a f p))) ∧
  epochs (rebuild_indexes (update_entry a f p)) = epochs p.
Proof.
  intros Hf. destruct (rebuild_fields (update_entry a f p)) as (_ & -> & _).
  rewrite rebuild_epochs. split; [|done]. by apply entries_keep_alter.
Qed.

Lemma catalog_quiesce_step o i p : catalog_step p (catalog_quiesce o i p).
Proof.
  unfold catalog_quiesce. case_match; try apply catalog_step_refl.
  destruct (state_step entry_quiesce a p benign_quiesce). by split_and!.
Qed.

Lemma catalog_reactivate_step o i p : catalog_step p (catalog_reactivate o i p).
Proof.
  unfold catalog_reactivate. case_match; try apply catalog_step_refl.
  destruct (state_step entry_reactivate a p benign_reactivate). by split_and!.
Qed.

Lemma alter_many_step f addrs p :
  benign f →
  let q := foldl (fun q a => update_entry a f q) p addrs in
  entries_keep (entries p) (entries q) ∧ epochs q = epochs p.
Proof.
  intros Hf. revert p. induction addrs as [|a addrs IH]; intros p; simpl.
  { split; [apply entries_keep_refl|done]. }
  destruct (IH (update_entry a f p)) as [Hk He]. split; [|done].
  eapply entries_keep_trans; [|exact Hk]. by apply entries_keep_alter.
Qed.

Lemma catalog_reactivate_many_step o ids p : catalog_step p (catalog_reactivate_many o ids p).
Proof.
  unfold catalog_reactivate_many.
  destruct (owned_entries o ids p) as [addrs|err|];
    try apply catalog_step_refl.
  destruct (alter_many_step entry_reactivate addrs p benign_reactivate) as [Hk He].
  split_and!; [|by rewrite <- He; apply rebuild_epochs|done]. cbn [snd].
  by destruct (rebuild_fields (foldl (λ q a, update_entry a entry_reactivate q) p addrs))
    as (_ & -> & _).
Qed.

Lemma attach_quiesced_step s p rs :
  pool_inv p rs →
  catalog_step p
    (match catalog_attach s p with
     | (Ok outcome, p1) =>
         if is_new outcome then
           match catalog_quiesce (spec_owner s) (spec_id s) p1 with
           | (Ok _, p2) => (Ok outcome, p2)
           | (_, p2) => (Panic, p2)
           end
         else (Ok outcome, p1)
     | r => r
     end) ∨ (pool_attach_quiesced s p).1 = Panic ∨ is_ok (validate_spec s) = false.
Proof.
  intros Hinv. destruct (validate_spec s) as [[]|err|] eqn:Hv; [|by right; right..].
  pose proof (pool_attach_quiesced_ok s p rs Hinv) as [Hnp _].
  unfold pool_attach_quiesced in Hnp. rewrite Hv in Hnp.
  destruct (catalog_attach_step s p rs Hinv) as (Hk & He & Hf).
  destruct (catalog_attach s p) as [[o|err|] p1]; [|by left; split_and!..].
  destruct (is_new o); [|by left; split_and!].
  destruct (catalog_quiesce_step (spec_owner s) (spec_id s) p1) as (Hk' & He' & _).
  destruct (catalog_quiesce _ _ p1) as [[u|err|] p2]; simpl in *; try done.
  left. split_and!; simpl; [by eapply entries_keep_trans|congruence|done].
Qed.

Lemma pool_attach_quiesced_evolves s p rs :
  pool_inv p rs → evolves p (pool_attach_quiesced s p).2.
Proof.
  intros Hinv. destruct (attach_quiesced_step s p rs Hinv) as [Hs|[Hp|Hv]].
  - unfold pool_attach_quiesced.
    destruct (validate_spec s); [by apply evolves_catalog_step|apply evolves_refl..].
  - by destruct (pool_attach_quiesced_ok s p rs Hinv) as [Hnp _].
  - unfold pool_attach_quiesced. destruct (validate_spec s); [done|apply evolves_refl..].
Qed.

Lemma pool_remove_evolves o i p rs : pool_inv p rs → evolves p (pool_remove o i p).2.
Proof.
  intros Hinv. unfold pool_remove.
  destruct (catalog_remove_ok o i p rs Hinv) as (Hnp & _ & Hok & Hfail).
  destruct (catalog_remove o i p) as [[[]|err|] p']; simpl in *;
    [|rewrite Hfail by done; apply evolves_refl|done].
  destruct (Hok eq_refl) as (a & e & Hm & _ & _ & ->).
  set (q := unmount_raw i a _ p).
  destruct (rebuild_fields q) as (_ & Hen & _). pose proof (rebuild_epochs q) as He.
  injection He as He1 He2. split; simpl.
  - rewrite Hen. apply entries_evolve_invalidate.
  - right. by rewrite He2.
  - right. by rewrite He1.
Qed.

Lemma invalidate_ids_evolve : ∀ l n p,
  entries_evolve (entries p) (entries (invalidate_ids l n p).2).
Proof.
  induction l as [|i l IH]; intros n p; simpl; [apply entries_keep_evolve, entries_keep_refl|].
  case_match; [|apply entries_keep_evolve, entries_keep_refl].
  eapply entries_evolve_trans; [|apply IH]. apply entries_evolve_invalidate.
Qed.

Lemma invalidate_each_evolve : ∀ os n p,
  entries_evolve (entries p) (entries (invalidate_each os n p).2).
Proof.
  induction os as [|o os IH]; intros n p; simpl; [apply entries_keep_evolve, entries_keep_refl|].
  case_match; [|apply IH].
  match goal with |- context [invalidate_ids ?l ?n ?q] =>
    pose proof (invalidate_ids_evolve l n q) as Hev; destruct (invalidate_ids l n q) as [[] p'] end;
    simpl in *; [|done..].
  eapply entries_evolve_trans; [exact Hev|apply IH].
Qed.

Lemma pool_invalidate_evolves os p rs :
  pool_inv p rs → evolves p (pool_invalidate_owners os p).2.
Proof.
  intros Hinv. unfold pool_invalidate_owners, catalog_invalidate_owners.
  destruct (invalidate_each_ok os 0 p) as (n & p' & Hrun & _ & _ & _ & Hf & Hsame & _);
    [apply Hinv|apply Hinv|].
  pose proof (invalidate_each_evolve os 0 p) as Hev. rewrite Hrun in *. simpl in *.
  destruct (N.eqb_spec n 0) as [->|Hn].
  - rewrite Hsame by done. apply evolves_refl.
  - destruct Hf as (_ & _ & _ & _ & He1 & He2 & _).
    destruct (rebuild_fields p') as (_ & Hen & _).
    pose proof (rebuild_epochs p') as He. injection He as He3 He4. split; simpl.
    + rewrite Hen. exact Hev.
    + right. by rewrite He4, He2.
    + right. by rewrite He3, He1.
Qed.

Lemma pool_reserve_evolves c bytes p : evolves p (pool_reserve c bytes p).2.
Proof.
  unfold pool_reserve. repeat case_match; try apply evolves_refl. split; simpl; eauto.
Qed.

Lemma pool_step_evolves op (w w' : PoolWorld A Alloc) :
  pool_inv (pool w) (reservations w) → pool_step op w = Some w' →
  evolves (pool w) (pool w').
Proof.
  destruct w as [p rs]. simpl. intros Hinv.
  assert (∀ {E T} (x : res E T * Pool A) (r0 : list (Reservation Alloc)), evolves p x.2 →
    match x with (Panic, _) => None | (_, p') => Some (mkPoolWorld p' r0) end = Some w' →
    evolves p (pool w')) as Hlift.
  { intros E T [[] p'] r0 Hev; simpl in *; intros; by simplify_eq. }
  assert (∀ (x : res ReserveError (Reservation Alloc) * Pool A), evolves p x.2 →
    match x with (Panic, _) => None | (Ok r, p') => Some (mkPoolWorld p' (r :: rs))
    | (Err _, p') => Some (mkPoolWorld p' rs) end = Some w' → evolves p (pool w')) as Hliftr.
  { intros [[] p'] Hev; simpl in *; intros; by simplify_eq. }
  destruct op; unfold pool_step; cbn [pool reservations].
  - apply Hlift. unfold pool_attach.
    destruct (validate_spec s); [|apply evolves_refl..].
    by eapply evolves_catalog_step, catalog_attach_step.
  - apply Hlift. by eapply pool_attach_quiesced_evolves.
  - apply Hlift, evolves_catalog_step, catalog_quiesce_step.
  - apply Hlift, evolves_catalog_step, catalog_reactivate_step.
  - apply Hlift. destruct ids; [apply evolves_refl|].
    apply evolves_catalog_step, catalog_reactivate_many_step.
  - apply Hlift. by eapply pool_remove_evolves.
  - apply Hlift. by eapply pool_invalidate_evolves.
  - destruct (_ && _); [intros [= <-]; apply evolves_refl|].
    apply Hliftr, pool_reserve_evolves.
  - apply Hliftr. unfold pool_reserve_on, catalog_segment.
    repeat case_match; try apply evolves_refl; try done. apply pool_reserve_evolves.
  - unfold pool_release_batch. destruct (release_batch _ _); [|done]. simpl.
    intros [= <-]. split; simpl; eauto.
Qed.

(** ** Consequences *)

Lemma live_mounted p rs a e :
  pool_inv p rs → entries p !! a = Some e → live e = true → mounted p (spec_id (spec e)) a e.
Proof.
  intros Hinv He Hl. apply (mounted_at _ _ _ _ (pi_catalog _ _ Hinv)); [done|].
  destruct (ci_entry _ _ (pi_catalog _ _ Hinv) _ _ He) as (_ & _ & Hlive & _).
  intros Hr. rewrite Hlive, Hr in Hl. by rewrite bool_decide_true in Hl.
Qed.

(** A reservation lies inside the region its segment registered. *)
Lemma reservation_inside p rs r e :
  pool_inv p rs → r ∈ rs → entries p !! r_entry r = Some e →
  base (region (spec e)) <= base (r_region r) ∧
  base (r_region r) + region_size (r_region r) <=
    base (region (spec e)) + region_size (region (spec e)).
Proof.
  intros Hinv Hr He. destruct (pi_space _ _ Hinv) as [Hd [Ho Hod] Hm Hreg].
  destruct (Hreg r Hr) as (e' & He' & -> & ->). simplify_eq.
  destruct (proj1 (Hd (r_entry r))) as [sh Hsh]; [eauto|].
  assert (r_allocation r ∈ of_owner (r_entry r) (owned_allocation <$> rs)) as Hin.
  { unfold of_owner. apply list_elem_of_fmap. exists (owned_allocation r). split; [done|].
    apply list_elem_of_filter. split; [done|]. apply list_elem_of_fmap. eauto. }
  destruct (handle_range _ _ _ (Ho _ _ Hsh) Hin) as [_ Hrange].
  pose proof (ho_requested _ _ (ai_handles _ _ (Ho _ _ Hsh) _ Hin)).
  specialize (Hm _ _ _ He Hsh). lia.
Qed.

Lemma same_entry_disjoint p rs i j r s :
  pool_inv p rs → i ≠ j → rs !! i = Some r → rs !! j = Some s → r_entry r = r_entry s →
  ¬ regions_overlap (r_region r) (r_region s).
Proof.
  intros Hinv Hij Hi Hj Heq.
  destruct (pi_space _ _ Hinv) as [Hd [Ho Hod] Hm Hreg].
  destruct (Hreg r) as (e & He & Hb & Hz); [by eapply list_elem_of_lookup_2|].
  destruct (Hreg s) as (f & Hf & Hb' & Hz'); [by eapply list_elem_of_lookup_2|].
  rewrite <- Heq in Hf. simplify_eq.
  destruct (proj1 (Hd (r_entry r))) as [sh Hsh]; [eauto|].
  destruct (two_elements_perm rs i j r s) as [k Hk]; [done..|].
  pose proof (Ho _ _ Hsh) as Hai.
  eapply alloc_inv_perm in Hai; [|apply of_owner_perm; by rewrite Hk].
  unfold of_owner in Hai. rewrite !fmap_cons in Hai.
  rewrite filter_cons_True in Hai by done.
  rewrite filter_cons_True in Hai by (symmetry; exact Heq). simpl in Hai.
  pose proof (handles_disjoint _ _ 0%nat 1%nat _ _ Hai ltac:(lia) eq_refl eq_refl) as Hdis.
  pose proof (ho_requested _ _ (ai_handles _ _ Hai (r_allocation r) ltac:(set_solver))).
  pose proof (ho_requested _ _ (ai_handles _ _ Hai (r_allocation s) ltac:(set_solver))).
  unfold regions_overlap. lia.
Qed.

Lemma regions_overlap_mono a b a' b' :
  base a <= base a' → base a' + region_size a' <= base a + region_size a →
  base b <= base b' → base b' + region_size b' <= base b + region_size b →
  regions_overlap a' b' → regions_overlap a b.
Proof. unfold regions_overlap. lia. Qed.

(** Two live reservations in one address space share no byte. *)
Lemma pool_live_disjoint p rs i j r s e f :
  pool_inv p rs → i ≠ j → rs !! i = Some r → rs !! j = Some s →
  entries p !! r_entry r = Some e → entries p !! r_entry s = Some f →
  spec_owner (spec e) = spec_owner (spec f) → transport (spec e) = transport (spec f) →
  reservation_is_live r p = true → reservation_is_live s p = true →
  ¬ regions_overlap (r_region r) (r_region s).
Proof.
  intros Hinv Hij Hi Hj He Hf Ho Ht Hlr Hls.
  pose proof (list_elem_of_lookup_2 _ _ _ Hi) as Hir.
  pose proof (list_elem_of_lookup_2 _ _ _ Hj) as Hjs.
  destruct (reservation_inside _ _ _ _ Hinv Hir He) as [Hlo Hhi].
  destruct (decide (r_entry r = r_entry s)) as [Heq|Hne].
  { by eapply same_entry_disjoint. }
  destruct (reservation_inside _ _ _ _ Hinv Hjs Hf) as [Hlo' Hhi'].
  unfold reservation_is_live in *. rewrite He in Hlr. rewrite Hf in Hls.
  pose proof (live_mounted _ _ _ _ Hinv He Hlr) as Hme.
  pose proof (live_mounted _ _ _ _ Hinv Hf Hls) as Hmf.
  intros Hov. eapply (ci_overlap _ _ (pi_catalog _ _ Hinv)); [|exact Hme|exact Hmf|done|done|].
  - intros Hid. rewrite Hid in Hme. by destruct (mounted_fn _ _ _ _ _ _ Hme Hmf).
  - by eapply regions_overlap_mono.
Qed.

Lemma elem_of_accepting_index p rs h :
  pool_inv p rs →
  h ∈ accepting_index p ↔
  ∃ i a e, h = mkSegmentHandle (pool_id p) a ∧ mounted p i a e ∧ state e = Accepting.
Proof.
  intros Hinv. unfold accepting_index. rewrite list_elem_of_fmap. split.
  - intros (a & -> & Ha). rewrite elem_of_sort_by_key, list_elem_of_filter in Ha.
    destruct Ha as [Hacc Ha].
    apply list_elem_of_In, in_map_iff in Ha as ([i a'] & Heq & Hin).
    apply list_elem_of_In, elem_of_map_to_list in Hin. simpl in *. subst a'.
    unfold accepting_at in Hacc. destruct (entries p !! a) as [e|] eqn:He; [|done].
    exists i, a, e. split_and!; [done|done|]. unfold entry_is_accepting in Hacc.
    by destruct (state e).
  - intros (i & a & e & -> & [Hs He] & Hst). exists a. split; [done|].
    rewrite elem_of_sort_by_key, list_elem_of_filter. split.
    + unfold accepting_at, entry_is_accepting. by rewrite He, Hst.
    + apply list_elem_of_In, in_map_iff. exists (i, a). split; [done|].
      by apply list_elem_of_In, elem_of_map_to_list.
Qed.

Lemma invalidate_ids_owner : ∀ l n p, 
  segments_by_owner (invalidate_ids l n p).2 = segments_by_owner p.
Proof.
  induction l as [|i l IH]; intros n p; simpl; [done|].
  case_match; [|done]. by rewrite IH.
Qed.

Lemma invalidate_each_owner o : ∀ os n p,
  is_ok (invalidate_each os n p).1 = true →
  (segments_by_owner p !! o = None ∨ o ∈ os) →
  segments_by_owner (invalidate_each os n p).2 !! o = None.
Proof.
  induction os as [|o' os IH]; intros n p Hok Hin; simpl in *.
  { destruct Hin as [|Hin]; [done|]. by apply not_elem_of_nil in Hin. }
  destruct (segments_by_owner p !! o') as [ids|] eqn:E.
  - match goal with |- context [invalidate_ids ?l ?n ?q] =>
      pose proof (invalidate_ids_owner l n q) as Hob; destruct (invalidate_ids l n q) as [[] p'] end;
      simpl in *; [|done..].
    apply IH; [done|]. rewrite Hob. destruct (decide (o = o')) as [->|Hne].
    + left. by rewrite lookup_delete_eq.
    + rewrite lookup_delete_ne by done. set_solver.
  - apply IH; [done|]. destruct (decide (o = o')) as [->|]; [by left|set_solver].
Qed.

(** Nothing owned by a fenced client stays mounted or live. *)
Lemma invalidate_owners_fences os p rs o a e :
  pool_inv p rs → o ∈ os →
  entries (pool_invalidate_owners os p).2 !! a = Some e → spec_owner (spec e) = o →
  live e = false.
Proof.
  intros Hinv Ho He Hown.
  destruct (pool_invalidate_ok os p rs Hinv) as [_ Hinv'].
  destruct (live e) eqn:Hl; [|done]. exfalso.
  pose proof (live_mounted _ _ _ _ Hinv' He Hl) as Hm.
  assert (spec_id (spec e) ∈ owner_view (pool_invalidate_owners os p).2 o) as Hin.
  { apply (ci_owner _ _ (pi_catalog _ _ Hinv')). eauto. }
  revert Hin. unfold owner_view.
  assert (segments_by_owner (pool_invalidate_owners os p).2 !! o = None) as ->; [|set_solver].
  unfold pool_invalidate_owners, catalog_invalidate_owners.
  destruct (invalidate_each_ok os 0 p) as (n & p' & Hrun & _); [apply Hinv|apply Hinv|].
  pose proof (invalidate_each_owner o os 0 p) as Hnone. rewrite Hrun in *. simpl in *.
  specialize (Hnone eq_refl (or_intror Ho)).
  unfold rebuild_indexes. by repeat case_match.
Qed.
End PoolProofs.

(** ** Properties *)

Definition pool_world_new {A Alloc} `{Upstream A Alloc} (pid nodes : N) : PoolWorld A Alloc :=
  mkPoolWorld (pool_new pid nodes) [].

Lemma pool_run_inv {A Alloc} `{UpstreamLaws A Alloc} pid nodes ops (w : PoolWorld A Alloc) :
  pool_config_valid nodes = true →
  pool_run ops (pool_world_new pid nodes) = Some w → pool_inv (pool w) (reservations w).
Proof.
  intros Hn Hrun. destruct (pool_run_ok ops (pool_world_new pid nodes)) as (w' & Hrun' & Hinv).
  { by apply pool_inv_new. }
  rewrite Hrun in Hrun'. by simplify_eq.
Qed.

(** C31: The segment pool never panics and stays consistent: for every sequence
    of attachments, state changes, removals, client invalidations,
    reservations and releases, every [expect] and index of the code is met,
    the owner index lists exactly the mounted segments, mounted segments of
    one owner and transport never overlap, liveness tracks removal, the
    candidate list is exactly the accepting mounted entries in id order, and
    the space of every entry is accounted for by the outstanding
    reservations. *)
Theorem pool_never_panics {A Alloc} `{UpstreamLaws A Alloc} pid nodes ops :
  pool_config_valid nodes = true →
  ∃ w : PoolWorld A Alloc,
    pool_run ops (pool_world_new pid nodes) = Some w ∧
    pool_inv (pool w) (reservations w) ∧
    ∀ h, h ∈ direct (pool w) ↔
      ∃ i a e, h = mkSegmentHandle (pool_id (pool w)) a ∧ mounted (pool w) i a e ∧
               state e = Accepting.
Proof.
  intros Hn. destruct (pool_run_ok ops (pool_world_new pid nodes)) as (w & Hrun & Hinv).
  { by apply pool_inv_new. }
  exists w. split_and!; try done. intros h. rewrite (pi_direct _ _ Hinv).
  by eapply elem_of_accepting_index.
Qed.

Definition example_spec (n : N) (b : N) : SegmentSpec :=
  mkSpec (SegmentIdentity_new (mkSegmentId 0 n) (mkClientId 0 1) "node")
    (mkRegion b 4096) (mkEndpoint Tcp "10.0.0.1:7000").
Definition example_pool_ops : list pool_op :=
  [PAttach (example_spec 1 4096); PAttachQuiesced (example_spec 2 8192);
   PAttach (example_spec 3 6000); PReserveOn (mkSegmentId 0 1) 100;
   PReactivate (mkClientId 0 1) (mkSegmentId 0 2);
   PReserve (mkSegmentHandle 1 2) 200; PReserveOn (mkSegmentId 0 1) 300;
   PQuiesce (mkClientId 0 1) (mkSegmentId 0 2);
   PRemove (mkClientId 0 1) (mkSegmentId 0 2)].

Lemma pool_never_panics_witness :
  ∃ w : PoolWorld Bump.bump (N * N),
    pool_run example_pool_ops (pool_world_new 1 8) = Some w ∧
    pool_inv (pool w) (reservations w) ∧
    ∀ h, h ∈ direct (pool w) ↔
      ∃ i a e, h = mkSegmentHandle (pool_id (pool w)) a ∧ mounted (pool w) i a e ∧
               state e = Accepting.
Proof. apply (pool_never_panics 1 8 example_pool_ops). reflexivity. Defined.

(** Outstanding reservations are exclusive: in every reachable pool, a
    reservation lies inside the region its segment registered, and two live
    reservations in the same address space (same owner and transport) never
    share a byte, even across removals and remounts. *)
Theorem live_reservations_disjoint {A Alloc} `{UpstreamLaws A Alloc} pid nodes ops
    (w : PoolWorld A Alloc) i j r s e f :
  pool_config_valid nodes = true →
  pool_run ops (pool_world_new pid nodes) = Some w →
  i ≠ j → reservations w !! i = Some r → reservations w !! j = Some s →
  entries (pool w) !! r_entry r = Some e → entries (pool w) !! r_entry s = Some f →
  spec_owner (spec e) = spec_owner (spec f) → transport (spec e) = transport (spec f) →
  reservation_is_live r (pool w) = true → reservation_is_live s (pool w) = true →
  ¬ regions_overlap (r_region r) (r_region s) ∧
  base (region (spec e)) <= base (r_region r) ∧
  base (r_region r) + region_size (r_region r) <=
    base (region (spec e)) + region_size (region (spec e)).
Proof.
  intros Hn Hrun Hij Hi Hj He Hf Ho Ht Hlr Hls.
  pose proof (pool_run_inv _ _ _ _ Hn Hrun) as Hinv. split.
  - by eapply (pool_live_disjoint (pool w) _ i j).
  - by eapply reservation_inside, He; [|eapply list_elem_of_lookup_2].
Qed.

Lemma live_reservations_disjoint_witness :
  ¬ regions_overlap (mkRegion 4196 300) (mkRegion 4096 100) ∧
  4096 <= 4196 ∧ 4196 + 300 <= 4096 + 4096.
Proof.
  eapply (live_reservations_disjoint (A := Bump.bump) 1 8 example_pool_ops _ 0%nat 2%nat
    (mkReservation (mkHandle (100, 300) 100 300 300) 1 (mkRegion 4196 300))
    (mkReservation (mkHandle (0, 100) 0 100 100) 1 (mkRegion 4096 100))
    (mkEntry (example_spec 1 4096) Accepting true)
    (mkEntry (example_spec 1 4096) Accepting true));
    [reflexivity|vm_compute; reflexivity|done|reflexivity..].
Defined.

(** Fencing of segments is permanent and announced: a reservation that is
    no longer live stays so for ever, and a step that ends the life of any
    entry or changes the candidate list advances the invalidation epoch or the
    capacity epoch, respectively. *)
Theorem segment_fencing {A Alloc} `{UpstreamLaws A Alloc} pid nodes ops op
    (w w' : PoolWorld A Alloc) :
  pool_config_valid nodes = true →
  pool_run ops (pool_world_new pid nodes) = Some w → pool_step op w = Some w' →
  (∀ r : Reservation Alloc, is_Some (entries (pool w) !! r_entry r) →
        reservation_is_live r (pool w) = false → reservation_is_live r (pool w') = false) ∧
  ((∃ r : Reservation Alloc, reservation_is_live r (pool w) = true ∧ reservation_is_live r (pool w') = false) →
   invalidation_epoch (pool w') = wrapping_add (invalidation_epoch (pool w)) 1) ∧
  (direct (pool w') ≠ direct (pool w) →
   direct_capacity_epoch (pool w') = wrapping_add (direct_capacity_epoch (pool w)) 1).
Proof.
  intros Hn Hrun Hstep. pose proof (pool_run_inv _ _ _ _ Hn Hrun) as Hinv.
  destruct (pool_step_evolves _ _ _ Hinv Hstep) as [Hev Hlive Hdir].
  unfold reservation_is_live. split_and!.
  - intros r [e He]. rewrite He. destruct (Hev _ _ He) as (e' & -> & _ & Hl). done.
  - intros (r & Hl & Hl'). destruct Hlive as [Hkeep|]; [|done].
    specialize (Hkeep (r_entry r)). destruct (entries (pool w) !! r_entry r); [|done].
    destruct (entries (pool w') !! r_entry r); simpl in *; [|by rewrite Hl in Hkeep; naive_solver].
    rewrite Hl in Hkeep. specialize (Hkeep eq_refl). congruence.
  - by destruct Hdir.
Qed.

Lemma segment_fencing_witness :
  let w := pool_run (A := Bump.bump) example_pool_ops (pool_world_new 1 8) in
  invalidation_epoch (pool (default (pool_world_new 1 8)
    (w ≫= pool_step (PInvalidateOwners [mkClientId 0 1])))) =
  wrapping_add (invalidation_epoch (pool (default (pool_world_new 1 8) w))) 1.
Proof.
  refine (proj1 (proj2 (segment_fencing (A := Bump.bump) 1 8 example_pool_ops
    (PInvalidateOwners [mkClientId 0 1]) _ _ _ _ _)) _);
    [reflexivity|vm_compute; reflexivity|vm_compute; reflexivity|].
  exists (mkReservation (mkHandle (0, 100) 0 100 100) 1 (mkRegion 4096 100)).
  vm_compute. done.
Defined.

(** Invalidating clients fences everything they own: afterwards no segment
    registered by any of them is live, so none of their reservations is
    usable. *)
Theorem invalidated_owner_has_no_live_segment {A Alloc} `{UpstreamLaws A Alloc}
    pid nodes ops (w : PoolWorld A Alloc) owners o (r : Reservation Alloc) e :
  pool_config_valid nodes = true →
  pool_run ops (pool_world_new pid nodes) = Some w → o ∈ owners →
  entries (pool_invalidate_owners owners (pool w)).2 !! r_entry r = Some e →
  spec_owner (spec e) = o →
  reservation_is_live r (pool_invalidate_owners owners (pool w)).2 = false.
Proof.
  intros Hn Hrun Ho He Hown. pose proof (pool_run_inv _ _ _ _ Hn Hrun) as Hinv.
  unfold reservation_is_live. rewrite He.
  by eapply invalidate_owners_fences.
Qed.

Lemma invalidated_owner_has_no_live_segment_witness :
  reservation_is_live (mkReservation (mkHandle (0, 100) 0 100 100) 1 (mkRegion 4096 100))
    (pool_invalidate_owners [mkClientId 0 9; mkClientId 0 1]
       (pool (default (pool_world_new 1 8)
          (pool_run (A := Bump.bump) example_pool_ops (pool_world_new 1 8))))).2 = false.
Proof.
  apply (invalidated_owner_has_no_live_segment 1 8 example_pool_ops
    (default (pool_world_new 1 8) (pool_run (A := Bump.bump) example_pool_ops (pool_world_new 1 8)))
    [mkClientId 0 9; mkClientId 0 1] (mkClientId 0 1)
    (mkReservation (mkHandle (0, 100) 0 100 100) 1 (mkRegion 4096 100))
    (mkEntry (example_spec 1 4096) Removed false));
    [reflexivity|vm_compute; reflexivity|set_solver|vm_compute; reflexivity|reflexivity].
Defined.

(** Reserving is exact: on a reachable pool, a reservation through a
    candidate of this pool fails only for a zero size, a full segment or a
    segment that stopped accepting, and never for an address overflow; when it
    succeeds the segment is accepting and the granted region has exactly the
    requested size inside the registered region. *)
Theorem reserve_outcomes {A Alloc} `{UpstreamLaws A Alloc} pid nodes ops
    (w : PoolWorld A Alloc) a e bytes :
  pool_config_valid nodes = true →
  pool_run ops (pool_world_new pid nodes) = Some w →
  entries (pool w) !! a = Some e →
  match (pool_reserve (mkSegmentHandle (pool_id (pool w)) a) bytes (pool w)).1 with
  | Ok r => 0 < bytes ∧ state e = Accepting ∧ r_entry r = a ∧
      region_size (r_region r) = bytes ∧
      base (region (spec e)) <= base (r_region r) ∧
      base (r_region r) + bytes <= base (region (spec e)) + region_size (region (spec e))
  | Err err => bytes = 0 ∧ err = ReserveZeroSize ∨
      err = OutOfSpace (spec_id (spec e)) ∨
      state e ≠ Accepting ∧ err = NotAccepting (spec_id (spec e))
  | Panic => False
  end.
Proof.
  intros Hn Hrun He. pose proof (pool_run_inv _ _ _ _ Hn Hrun) as Hinv.
  unfold pool_reserve. simpl. rewrite N.eqb_refl. simpl. rewrite He.
  destruct (pi_space _ _ Hinv) as [Hd [Ho _] Hm _].
  destruct (proj1 (Hd a)) as [sh Hsh]; [eauto|]. rewrite Hsh.
  destruct (ci_entry _ _ (pi_catalog _ _ Hinv) _ _ He) as (_ & Hv & _ & _).
  pose proof (entry_reserve_ok a bytes e sh _ (Ho _ _ Hsh) Hv
    (proj2 (Hm _ _ _ He Hsh))) as Hres.
  assert (∀ r sh', entry_reserve a bytes e sh = (Ok r, sh') → bytes ≠ 0) as Hnz.
  { intros r sh' Hr ->. unfold entry_reserve in Hr. simpl in Hr. done. }
  destruct (entry_reserve a bytes e sh) as [[r|err|] sh']; destruct Hres as [Hman Hres];
    [|by apply Hres|done].
  destruct Hres as (Hai & Hre & Hst & Hb & Hz & Hq). specialize (Hnz r sh' eq_refl).
  destruct (handle_range _ _ (r_allocation r) Hai) as [_ Hr]; [set_solver|].
  pose proof (ho_requested _ _ (ai_handles _ _ Hai (r_allocation r) ltac:(set_solver))) as Hle.
  specialize (Hm _ _ _ He Hsh). simpl. split_and!; try done; lia.
Qed.

Definition example_world : PoolWorld Bump.bump (N * N) :=
  default (pool_world_new 1 8) (pool_run example_pool_ops (pool_world_new 1 8)).

Lemma reserve_outcomes_witness :
  match (pool_reserve (mkSegmentHandle (pool_id (pool example_world)) 1) 64
           (pool example_world)).1 with
  | Ok r => 0 < 64 ∧ Accepting = Accepting ∧ r_entry r = 1 ∧
      region_size (r_region r) = 64 ∧ 4096 <= base (r_region r) ∧
      base (r_region r) + 64 <= 4096 + 4096
  | Err err => 64 = 0 ∧ err = ReserveZeroSize ∨
      err = OutOfSpace (mkSegmentId 0 1) ∨
      Accepting ≠ Accepting ∧ err = NotAccepting (mkSegmentId 0 1)
  | Panic => False
  end.
Proof.
  apply (reserve_outcomes 1 8 example_pool_ops example_world
    1 (mkEntry (example_spec 1 4096) Accepting true) 64);
    [reflexivity|vm_compute; reflexivity|vm_compute; reflexivity].
Defined.
