(* ===== verification/PoolView.v ===== *)
(** * The segment pool as a map of mounted segments

    What the pool of [SegmentPool] promises to its callers: its segments are a
    map from segment ids to entries, and attaching, quiescing, reactivating,
    removing and invalidating are operations on that map with their errors.
    The indexes by owner and by accepting state, the allocators and the epochs
    do not show. *)
From S2P Require Import Prelude Identity Segment ByteAllocator SegmentPool.

Abbreviation Mounts := (gmap SegmentId (N * SegmentEntry)).

Section Spec.
Implicit Types (V : Mounts).

Definition view_owned (o : ClientId) (i : SegmentId) V : res SegmentStateError (N * SegmentEntry) :=
  match V !! i with
  | None => Err (StateNotFound i)
  | Some (a, e) =>
      if decide (spec_owner (spec e) = o) then Ok (a, e)
      else Err (OwnerMismatch i (spec_owner (spec e)) o)
  end.

(** Quiescing and reactivating one segment. *)
Definition view_change (f : SegmentEntry → SegmentEntry) (o : ClientId) (i : SegmentId) V
    : res SegmentStateError Mounts :=
  let? (a, e) := view_owned o i V in Ok (<[i := (a, f e)]> V).

(** Reactivating several segments: all of them or none. *)
Definition view_reactivate_many (o : ClientId) (ids : list SegmentId) V
    : res SegmentStateError Mounts :=
  let? _ := foldr (fun i r => let? _ := view_owned o i V in r) (Ok tt) ids in
  Ok (foldl (fun W i => alter (fun x => (x.1, entry_reactivate x.2)) i W) V ids).

Definition view_remove (o : ClientId) (i : SegmentId) V : res SegmentStateError Mounts :=
  let? (a, e) := view_owned o i V in
  if is_accepting (state e) then Err (StillAccepting i) else Ok (delete i V).

(** Segments of one owner on one transport never overlap. *)
Definition view_overlaps (s : SegmentSpec) (x : N * SegmentEntry) : Prop :=
  spec_owner (spec x.2) = spec_owner s ∧ transport (spec x.2) = transport s ∧
  regions_overlap (region s) (region (spec x.2)).

Definition view_invalidate (os : list ClientId) V : Mounts :=
  filter (fun kx : SegmentId * (N * SegmentEntry) => spec_owner (spec kx.2.2) ∉ os) V.

(** Attaching: what is mounted already, what conflicts, and the new entry at
    address [a].  Which of several overlapping segments the error names is not
    determined. *)
Definition view_attach (a : N) (s : SegmentSpec) V (r : res AttachError AttachOutcome) V' : Prop :=
  match validate_spec s with
  | Err e => r = Err e ∧ V' = V
  | Panic => False
  | Ok _ =>
      match V !! spec_id s with
      | Some (b, e) =>
          V' = V ∧
          if decide (spec e = s) then ∃ pid, r = Ok (AlreadyAttached (mkSegmentHandle pid b))
          else r = Err (ConflictingSegmentId (spec_id s))
      | None =>
          (∃ pid, r = Ok (Attached (mkSegmentHandle pid a)) ∧
             V' = <[spec_id s := (a, entry_quiesce (entry_new s))]> V ∧
             ∀ i x, V !! i = Some x → ¬ view_overlaps s x) ∨
          (∃ i x, V !! i = Some x ∧ view_overlaps s x ∧
             r = Err (OverlappingAddressRange i) ∧ V' = V)
      end
  end.
End Spec.

Section View.
Context {A Alloc : Type} `{L : UpstreamLaws A Alloc}.
Implicit Types (p : Pool A) (rs : list (Reservation Alloc)).

Definition view_of p : Mounts := omap (fun a => pair a <$> entries p !! a) (segments p).

Lemma lookup_view p i a e : view_of p !! i = Some (a, e) ↔ mounted p i a e.
Proof.
  unfold view_of, mounted. rewrite lookup_omap. destruct (segments p !! i) as [b|]; simpl.
  - destruct (entries p !! b) as [f|] eqn:E; simpl; split;
      [by intros [= <- <-]|by intros [[= <-] ?]; simplify_eq|done|by intros [[= <-] ?]; simplify_eq].
  - split; [done|by intros []].
Qed.

Lemma lookup_view_None p rs i : pool_inv p rs → view_of p !! i = None ↔ segments p !! i = None.
Proof.
  intros Hp. unfold view_of. rewrite lookup_omap. destruct (segments p !! i) as [a|] eqn:E; [|done].
  destruct (ci_mounted _ _ (pi_catalog _ _ Hp) _ _ E) as (e & He & _). simpl. by rewrite He.
Qed.

Lemma view_eq p V : (∀ i a e, mounted p i a e ↔ V !! i = Some (a, e)) → view_of p = V.
Proof.
  intros HV. apply map_eq. intros i. apply option_eq. intros [a e]. by rewrite lookup_view, HV.
Qed.

Lemma view_same p p' : segments p' = segments p → entries p' = entries p → view_of p' = view_of p.
Proof. unfold view_of. by intros -> ->. Qed.

Lemma view_rebuild p : view_of (rebuild_indexes p) = view_of p.
Proof. apply view_same; apply rebuild_fields. Qed.

Lemma view_bump p : view_of (bump_capacity_epoch p) = view_of p.
Proof. done. Qed.
Lemma view_bump_invalidation p : view_of (bump_invalidation_epoch p) = view_of p.
Proof. done. Qed.

Lemma rebuild_id p : pool_id (rebuild_indexes p) = pool_id p.
Proof. apply rebuild_fields. Qed.

Lemma view_id p rs i a e :
  pool_inv p rs → view_of p !! i = Some (a, e) → spec_id (spec e) = i ∧ state e ≠ Removed.
Proof. rewrite lookup_view. intros Hp. apply (mounted_id _ _ _ _ _ (pi_catalog _ _ Hp)). Qed.

Lemma view_inj p ow i j a e f :
  catalog_inv p ow → view_of p !! i = Some (a, e) → view_of p !! j = Some (a, f) → i = j.
Proof. rewrite !lookup_view. apply mounted_inj. Qed.

(** A call that succeeds as its specification does, or fails as it does and
    changes nothing. *)
Definition refines {E T} p (x : res E T * Pool A) (y : res E Mounts) : Prop :=
  match y with
  | Ok V => is_ok x.1 = true ∧ view_of x.2 = V ∧ pool_id x.2 = pool_id p
  | Err e => x = (Err e, p)
  | Panic => False
  end.

Lemma refines_bump {E T} p (x : res E T * Pool A) y :
  refines p x y → refines p (update_direct_catalog x) y.
Proof.
  unfold refines. destruct y as [V|e|]; [|by intros ->|done]. destruct x as [[t|e|] q]; simpl; try done.
Qed.

Lemma owned_entry_view o i p rs :
  pool_inv p rs →
  match view_owned o i (view_of p) with
  | Ok (a, e) => owned_entry o i p = Ok a ∧ mounted p i a e
  | Err e => owned_entry o i p = Err e
  | Panic => False
  end.
Proof.
  intros Hp. unfold view_owned, owned_entry. destruct (view_of p !! i) as [[a e]|] eqn:E.
  - apply lookup_view in E as Hm. pose proof Hm as [Hs He]. rewrite Hs, He. by case_decide.
  - by apply (lookup_view_None p rs) in E as ->.
Qed.

(** Changing an entry where it is stored changes the one segment mounted there. *)
Lemma view_update f i a e p ow :
  catalog_inv p ow → view_of p !! i = Some (a, e) →
  view_of (update_entry a f p) = <[i := (a, f e)]> (view_of p).
Proof.
  intros Hc Hi. apply lookup_view in Hi as Hm. destruct Hm as [Hs He].
  apply view_eq. intros j b g. rewrite lookup_insert. unfold mounted. simpl. case_decide as Hij.
  - subst j. rewrite Hs. split.
    + intros [[= <-] Hg]. rewrite lookup_alter_eq, He in Hg. by simplify_eq/=.
    + intros [= <- <-]. by rewrite lookup_alter_eq, He.
  - rewrite lookup_view. unfold mounted. split; intros [Hj Hb]; (split; [done|]).
    + rewrite lookup_alter_ne in Hb; [done|]. intros <-.
      destruct (ci_mounted _ _ Hc _ _ Hj) as (g' & Hg' & _).
      apply Hij. eapply (view_inj p ow i j a e g'); [done..|]. by apply lookup_view.
    + rewrite lookup_alter_ne; [done|]. intros <-.
      apply Hij. eapply (view_inj p ow i j a e g); [done..|]. by apply lookup_view.
Qed.

Lemma change_view f o i p rs (x : res SegmentStateError unit * Pool A) :
  pool_inv p rs →
  x = match owned_entry o i p with
      | Ok addr => (Ok tt, rebuild_indexes (update_entry addr f p))
      | Err e => (Err e, p)
      | Panic => (Panic, p)
      end →
  refines p x (view_change f o i (view_of p)).
Proof.
  intros Hp ->. pose proof (owned_entry_view o i p rs Hp) as Ho. unfold view_change.
  destruct (view_owned o i (view_of p)) as [[a e]|err|]; simpl in *; [|by rewrite Ho|done].
  destruct Ho as [-> Hm]. simpl. split_and!; [done| |by rewrite rebuild_id].
  rewrite view_rebuild. eapply view_update; [apply Hp|]. by apply lookup_view.
Qed.

Lemma pool_quiesce_view o i p rs :
  pool_inv p rs → refines p (pool_quiesce o i p) (view_change entry_quiesce o i (view_of p)).
Proof. intros Hp. by eapply refines_bump, change_view. Qed.

Lemma pool_reactivate_view o i p rs :
  pool_inv p rs → refines p (pool_reactivate o i p) (view_change entry_reactivate o i (view_of p)).
Proof. intros Hp. by eapply refines_bump, change_view. Qed.

Lemma catalog_remove_result o i p rs :
  pool_inv p rs →
  (catalog_remove o i p).1 =
    match view_remove o i (view_of p) with Ok _ => Ok tt | Err e => Err e | Panic => Panic end.
Proof.
  intros Hp. unfold view_remove, catalog_remove. pose proof (owned_entry_view o i p rs Hp) as Ho.
  destruct (view_owned o i (view_of p)) as [[a e]|err|] eqn:Hv; simpl in *; [|by rewrite Ho|done].
  destruct Ho as [-> Hm]. pose proof Hm as [Hs He]. rewrite He.
  destruct (mounted_id _ _ _ _ _ (pi_catalog _ _ Hp) Hm) as [Hid Hr]. unfold prepare_remove.
  destruct e as [sp st lv]; simpl in *. destruct st; simpl; try done; [by rewrite Hid|by rewrite Hs].
Qed.

Lemma pool_remove_view o i p rs :
  pool_inv p rs → refines p (pool_remove o i p) (view_remove o i (view_of p)).
Proof.
  intros Hp. pose proof (catalog_remove_result o i p rs Hp) as Hres.
  destruct (catalog_remove_ok o i p rs Hp) as (_ & _ & Hok & Herr). unfold pool_remove.
  destruct (catalog_remove o i p) as [r p']; simpl in *. subst r.
  destruct (view_remove o i (view_of p)) as [V|e|] eqn:HV; simpl.
  - destruct (Hok eq_refl) as (a & e & Hm & Ho & _ & ->). split_and!; [done| |].
    + rewrite view_bump_invalidation, view_bump, view_rebuild.
      revert HV. unfold view_remove, view_owned. rewrite (proj2 (lookup_view p i a e) Hm).
      rewrite decide_True by done. simpl. destruct (is_accepting _); [done|]. intros [= <-].
      apply view_eq. intros j b f. rewrite lookup_delete_Some, lookup_view.
      rewrite (unmount_mounted i a _ _ p _ j b f (pi_catalog _ _ Hp) Hm). naive_solver.
    + by rewrite rebuild_id.
  - by rewrite Herr.
  - revert HV. unfold view_remove, view_owned. destruct (view_of p !! i) as [[a e]|]; [|done].
    case_decide; simpl; [by destruct (is_accepting _)|done].
Qed.

Lemma view_mount s p rs :
  pool_inv p rs → segments p !! spec_id s = None →
  view_of (mount s p) = <[spec_id s := (next_entry p, entry_new s)]> (view_of p).
Proof.
  intros Hp Hs. unfold mount. rewrite view_rebuild. apply view_eq. intros i a e.
  pose proof (mount_mounted s p _ i a e (pi_catalog _ _ Hp) Hs) as Hm. unfold mount_raw in Hm.
  rewrite Hm, lookup_insert. case_decide as Hi.
  - split; [intros [(_ & -> & ->)|[Hn _]]; [done|congruence]|intros [= <- <-]; by left].
  - rewrite lookup_view. split; [intros [(-> & _)|?]; done|by right].
Qed.

Lemma view_overlap_scan s p rs :
  pool_inv p rs →
  match check_overlap s (base (region s) + region_size (region s)) (mounted_specs p) with
  | Ok _ => ∀ i x, view_of p !! i = Some x → ¬ view_overlaps s x
  | Err e => ∃ i x, view_of p !! i = Some x ∧ view_overlaps s x ∧ e = OverlappingAddressRange i
  | Panic => False
  end.
Proof.
  intros Hp. pose proof (pi_catalog _ _ Hp) as Hc.
  pose proof (check_overlap_ok s _ (mounted_specs p)
    (fun x => mounted_specs_valid p _ x Hc) eq_refl) as Hscan.
  destruct (check_overlap _ _ _) as [u|err|]; simpl in *; [| |done].
  - intros i [a e] Hi (Ho & Ht & Hr). apply lookup_view in Hi. simpl in *.
    apply (Hscan (spec e)); try done. apply (elem_of_mounted_specs _ _ _ Hc). eauto 10.
  - destruct Hscan as (x & Hx & -> & Ho & Ht & Hr).
    apply (elem_of_mounted_specs _ _ _ Hc) in Hx as (i & a & e & Hm & ->).
    exists i, (a, e). rewrite lookup_view.
    destruct (mounted_id _ _ _ _ _ Hc Hm) as [-> _]. done.
Qed.

Lemma pool_attach_quiesced_view s p rs :
  pool_inv p rs →
  view_attach (next_entry p) s (view_of p) (pool_attach_quiesced s p).1
    (view_of (pool_attach_quiesced s p).2) ∧
  pool_id (pool_attach_quiesced s p).2 = pool_id p.
Proof.
  intros Hp. unfold view_attach, pool_attach_quiesced.
  destruct (validate_spec s) as [[]|err|] eqn:Hv; [|done|];
    [|exfalso; unfold validate_spec, validate_direct_range in Hv; by repeat case_match].
  apply validate_spec_valid in Hv. pose proof (catalog_attach_ok s p rs Hp Hv) as (_ & Hp1 & _).
  unfold catalog_attach in *. destruct (view_of p !! spec_id s) as [[a e]|] eqn:E.
  { apply lookup_view in E as [Hs He]. rewrite Hs, He. case_decide; simpl; eauto. }
  apply (lookup_view_None p rs) in E as Hs; [|done]. rewrite Hs in *.
  assert (region_end (region s) = Some (base (region s) + region_size (region s))) as Hend.
  { apply checked_add_Some. destruct Hv as (_ & _ & ?). done. }
  rewrite Hend in *. pose proof (view_overlap_scan s p rs Hp) as Hscan.
  destruct (check_overlap _ _ _) as [u|err|]; simpl in *; [| |done].
  - pose proof (change_view entry_quiesce (spec_owner s) (spec_id s) (mount s p) rs _ Hp1 eq_refl) as Hq.
    fold (catalog_quiesce (spec_owner s) (spec_id s) (mount s p)) in Hq.
    rewrite (view_mount s p rs) in Hq by done. unfold view_change, view_owned in Hq.
    rewrite lookup_insert_eq in Hq. simpl in Hq. rewrite decide_True in Hq by done.
    simpl in Hq. rewrite insert_insert_eq in Hq.
    destruct (catalog_quiesce _ _ _) as [[t|e|] p2]; simpl in *; destruct Hq as (? & Hw & Hid); [|done..].
    split; [left; exists (pool_id p); by rewrite view_bump|].
    rewrite Hid. unfold mount. by rewrite rebuild_id.
  - destruct Hscan as (i & x & ? & ? & ->). split; [right; by exists i, x|done].
Qed.

(** The address of a new entry is that of no mounted segment. *)
Lemma view_fresh p rs i a e : pool_inv p rs → view_of p !! i = Some (a, e) → a ≠ next_entry p.
Proof.
  rewrite lookup_view. intros Hp [_ He] ->.
  by rewrite (entry_fresh _ _ (pi_catalog _ _ Hp)) in He.
Qed.

(** Several entries reactivated where they are stored. *)
Lemma view_reactivate_loop ids : ∀ addrs p ow,
  catalog_inv p ow → Forall2 (fun i a => ∃ e, mounted p i a e) ids addrs →
  view_of (foldl (fun q addr => update_entry addr entry_reactivate q) p addrs) =
  foldl (fun W i => alter (fun x => (x.1, entry_reactivate x.2)) i W) (view_of p) ids.
Proof.
  induction ids as [|i ids IH]; intros addrs p ow Hc Hall; inversion Hall as [|? a ? addrs' [e Hm] Hrest];
    subst; simpl; [done|].
  rewrite (IH addrs' (update_entry a entry_reactivate p) ow).
  - f_equal. rewrite (view_update _ i a e p ow) by (done || by apply lookup_view).
    apply map_eq. intros j. rewrite lookup_alter, lookup_insert. case_decide; [|done].
    subst j. by rewrite (proj2 (lookup_view p i a e) Hm).
  - apply catalog_inv_alter; [done|apply benign_reactivate].
  - eapply Forall2_impl; [exact Hrest|]. intros j b [f [Hs Hf]]. unfold mounted. simpl.
    destruct (decide (a = b)) as [->|Hab].
    + exists (entry_reactivate f). by rewrite lookup_alter_eq, Hf.
    + exists f. by rewrite lookup_alter_ne.
Qed.

Lemma owned_entries_view o ids p rs :
  pool_inv p rs →
  match foldr (fun i r => let? _ := view_owned o i (view_of p) in r) (Ok tt) ids with
  | Ok _ => ∃ addrs, owned_entries o ids p = Ok addrs ∧
              Forall2 (fun i a => ∃ e, mounted p i a e) ids addrs
  | Err e => owned_entries o ids p = Err e
  | Panic => False
  end.
Proof.
  intros Hp. induction ids as [|i ids IH]; simpl; [eauto|].
  pose proof (owned_entry_view o i p rs Hp) as Ho.
  destruct (view_owned o i (view_of p)) as [[a e]|err|]; simpl; [|by rewrite Ho|done].
  destruct Ho as [-> Hm]. simpl. destruct (foldr _ _ ids) as [u|err|]; simpl; [|by rewrite IH|done].
  destruct IH as (addrs & -> & Hall). simpl. eauto 10.
Qed.

Lemma pool_reactivate_many_view o ids p rs :
  pool_inv p rs → refines p (pool_reactivate_many o ids p) (view_reactivate_many o ids (view_of p)).
Proof.
  intros Hp. destruct ids as [|i ids']; [done|].
  apply (refines_bump p (catalog_reactivate_many o (i :: ids') p)).
  unfold catalog_reactivate_many, view_reactivate_many.
  pose proof (owned_entries_view o (i :: ids') p rs Hp) as Ho.
  destruct (foldr _ _ (i :: ids')) as [u|err|]; [|by rewrite Ho|done].
  destruct Ho as (addrs & -> & Hall). simpl res_bind. split_and!; cbn [fst snd]; [done| |].
  - rewrite view_rebuild. eapply (view_reactivate_loop (i :: ids')); [apply Hp|done].
  - rewrite rebuild_id. clear. revert p. induction addrs as [|a addrs IH]; intros p; simpl; [done|].
    by rewrite IH.
Qed.

Lemma view_size p rs : pool_inv p rs → size (view_of p) = size (segments p).
Proof.
  intros Hp. rewrite <- !(size_dom (D := gset SegmentId)). f_equal. apply set_eq. intros i.
  rewrite !elem_of_dom, <- !not_eq_None_Some. by rewrite (lookup_view_None p rs).
Qed.

Lemma pool_invalidate_view os p rs :
  pool_inv p rs →
  refines p (pool_invalidate_owners os p) (Ok (view_invalidate os (view_of p))) ∧
  (pool_invalidate_owners os p).1 =
    Ok (N.of_nat (size (view_of p)) - N.of_nat (size (view_invalidate os (view_of p)))).
Proof.
  intros Hp. destruct (pool_invalidate_ok os p rs Hp) as [_ Hp'].
  destruct (invalidate_each_ok os 0 p) as (n & p1 & Hrun & _ & Hc & _ & Hf & _ & Hm & Hn);
    [apply Hp|apply Hp|].
  assert (view_of p1 = view_invalidate os (view_of p)) as HV.
  { apply view_eq. intros i a e. unfold view_invalidate.
    by rewrite map_lookup_filter_Some, lookup_view, Hm. }
  assert (∀ q, segments q = segments p1 → entries q = entries p1 → pool_inv q rs →
    n = N.of_nat (size (view_of p)) - N.of_nat (size (view_invalidate os (view_of p)))) as Hcount.
  { intros q Hs He Hq. rewrite <- HV, <- (view_same p1 q Hs He), (view_size p rs), (view_size q rs) by done.
    rewrite Hs. lia. }
  revert Hp'. unfold pool_invalidate_owners, catalog_invalidate_owners. rewrite Hrun. simpl.
  destruct Hf as (_ & _ & Hid & _). destruct (N.eqb_spec n 0) as [->|Hn0]; simpl; intros Hp'.
  - split; [done|]. f_equal. by apply (Hcount p1).
  - split; [split_and!|].
    + done.
    + by rewrite view_bump_invalidation, view_bump, view_rebuild.
    + by rewrite rebuild_id.
    + f_equal. eapply (Hcount _ _ _ Hp').
  Unshelve. all: simpl; apply rebuild_fields.
Qed.
End View.

(** C27: The pool implements a map from segment ids to mounted segments: on every
    reachable pool, quiescing, reactivating (one segment or several, all or
    none), removing, invalidating owners and attaching have exactly the result
    and the error of the operation on the map, an error leaves the pool as it
    was, and the number reported by an invalidation is the number of segments
    that left the map. *)
Theorem pool_refines_mounts {A Alloc} `{UpstreamLaws A Alloc} pid nodes ops (w : PoolWorld A Alloc) :
  pool_config_valid nodes = true → pool_run ops (pool_world_new pid nodes) = Some w →
  let p := pool w in
  (∀ o i, refines p (pool_quiesce o i p) (view_change entry_quiesce o i (view_of p))) ∧
  (∀ o i, refines p (pool_reactivate o i p) (view_change entry_reactivate o i (view_of p))) ∧
  (∀ o ids, refines p (pool_reactivate_many o ids p) (view_reactivate_many o ids (view_of p))) ∧
  (∀ o i, refines p (pool_remove o i p) (view_remove o i (view_of p))) ∧
  (∀ os, refines p (pool_invalidate_owners os p) (Ok (view_invalidate os (view_of p))) ∧
     (pool_invalidate_owners os p).1 =
       Ok (N.of_nat (size (view_of p)) - N.of_nat (size (view_invalidate os (view_of p))))) ∧
  (∀ s, view_attach (next_entry p) s (view_of p) (pool_attach_quiesced s p).1
     (view_of (pool_attach_quiesced s p).2)).
Proof.
  intros Hn Hw. destruct (pool_run_ok ops (pool_world_new pid nodes)) as (w' & Hw' & Hi); [by apply pool_inv_new|].
  rewrite Hw in Hw'. injection Hw' as <-. split_and!; intros *.
  - by eapply pool_quiesce_view.
  - by eapply pool_reactivate_view.
  - by eapply pool_reactivate_many_view.
  - by eapply pool_remove_view.
  - by eapply pool_invalidate_view.
  - by eapply pool_attach_quiesced_view.
Qed.

Definition example_mounts : Pool Bump.bump :=
  match pool_run (take 2 example_pool_ops) (pool_world_new (Alloc := N * N) 1 8) with
  | Some w => pool w
  | None => pool_new 1 8
  end.

Lemma pool_refines_mounts_witness :
  (pool_invalidate_owners [mkClientId 0 1] example_mounts).1 = Ok 2 ∧
  refines example_mounts (pool_quiesce (mkClientId 0 1) (mkSegmentId 0 1) example_mounts)
    (view_change entry_quiesce (mkClientId 0 1) (mkSegmentId 0 1) (view_of example_mounts)).
Proof.
  destruct (pool_run (take 2 example_pool_ops) (pool_world_new (Alloc := N * N) 1 8)) as [w|] eqn:Hw;
    [|by vm_compute in Hw].
  assert (pool w = example_mounts) as Hp by (unfold example_mounts; by rewrite Hw).
  destruct (pool_refines_mounts 1 8 (take 2 example_pool_ops) w eq_refl Hw) as (Hq & _ & _ & _ & Hi & _).
  rewrite Hp in Hq, Hi. split; [|apply Hq]. destruct (Hi [mkClientId 0 1]) as [_ ->]. by vm_compute.
Defined.
