(* ===== verification/Placement.v ===== *)
(** * Replica placement

    [src/src/segment/placement.rs]: the free-capacity ranking of the candidates
    of a snapshot and the reservation of replicas over distinct failure
    domains.  Candidates may be stale; the ranking and each reservation read
    the pool as it is. *)
From S2P Require Import Prelude Identity Segment ByteAllocator SegmentPool.

Inductive FulfillmentPolicy := AllOrNothing | BestEffort.
Inductive FailureDomain := DomainSegment | DomainOwner.

#[global] Instance FulfillmentPolicy_eq_dec : EqDecision FulfillmentPolicy.
Proof. solve_decision. Defined.

Record PlacementRequest := mkRequest {
  alloc_bytes : N;
  replica_count : nat;
  failure_domain : FailureDomain;
  fulfillment : FulfillmentPolicy;
  preferred_names : list string;
  excluded_segments : gset SegmentId
}.

Inductive PlacementError :=
| PlacementZeroSize
| PlacementZeroReplicas
| InsufficientReplicas (requested allocated : nat)
| PlacementReserve (e : ReserveError).

Inductive DomainKey :=
| KeySegment (i : SegmentId)
| KeyOwner (o : ClientId).

#[global] Instance DomainKey_eq_dec : EqDecision DomainKey.
Proof. solve_decision. Defined.

(** Index of the candidate's name in the preference list, or [usize::MAX]. *)
Fixpoint name_position (n : string) (l : list string) (k : N) : N :=
  match l with
  | [] => U64_MAX
  | m :: l' => if String.eqb m n then k else name_position n l' (k + 1)
  end.

Definition preference_rank (req : PlacementRequest) (s : SegmentSpec) : N :=
  name_position (name (identity s)) (preferred_names req) 0.

Definition domain_key (s : SegmentSpec) (d : FailureDomain) : DomainKey :=
  match d with
  | DomainSegment => KeySegment (spec_id s)
  | DomainOwner => KeyOwner (spec_owner s)
  end.

Record RankedCandidate := mkRanked {
  candidate : SegmentHandle;
  cand_spec : SegmentSpec;
  cand_stats : SegmentStats;
  preference : N
}.

(** The comparison of the sort: preference, then the larger share of free
    capacity by cross multiplication in [u128], then the larger free region,
    then the id. *)
Definition ranked_compare (l r : RankedCandidate) : comparison :=
  let ls := space (cand_stats l) in
  let rs := space (cand_stats r) in
  match N.compare (preference l) (preference r) with
  | Eq =>
      match N.compare (available_bytes rs * capacity_bytes ls)
                      (available_bytes ls * capacity_bytes rs) with
      | Eq =>
          match N.compare (largest_free_region_bytes rs) (largest_free_region_bytes ls) with
          | Eq =>
              if lex_leb (segment_key (spec_id (cand_spec l)))
                         (segment_key (spec_id (cand_spec r)))
              then if lex_leb (segment_key (spec_id (cand_spec r)))
                              (segment_key (spec_id (cand_spec l))) then Eq else Lt
              else Gt
          | c => c
          end
      | c => c
      end
  | c => c
  end.

Definition ranked_le (l r : RankedCandidate) : bool :=
  match ranked_compare l r with
  | Gt => false
  | _ => true
  end.

Fixpoint insert_ranked (x : RankedCandidate) (l : list RankedCandidate)
    : list RankedCandidate :=
  match l with
  | [] => [x]
  | y :: l' => if ranked_le x y then x :: l else y :: insert_ranked x l'
  end.

(** [sort_unstable_by]: candidates have distinct ids, so the result does not
    depend on the algorithm. *)
Definition sort_ranked (l : list RankedCandidate) : list RankedCandidate :=
  foldr insert_ranked [] l.

Section Placement.
Context {A Alloc : Type} `{U : Upstream A Alloc}.

(** The filter of [FreeCapacityPolicy::order]. *)
Definition rank_candidate (req : PlacementRequest) (rs : list (Reservation Alloc))
    (p : Pool A) (c : SegmentHandle) : option RankedCandidate :=
  match entries p !! handle_entry c, pool_stats_at rs p (handle_entry c) with
  | Some e, Some st =>
      if is_accepting (stats_state st)
         && (alloc_bytes req <=? available_bytes (space st))
         && negb (bool_decide (spec_id (spec e) ∈ excluded_segments req))
      then Some (mkRanked c (spec e) st (preference_rank req (spec e)))
      else None
  | _, _ => None
  end.

Definition order (req : PlacementRequest) (rs : list (Reservation Alloc))
    (p : Pool A) (snapshot : list SegmentHandle) : list SegmentHandle :=
  candidate <$> sort_ranked (omap (rank_candidate req rs p) snapshot).

Definition candidate_domain (req : PlacementRequest) (p : Pool A) (c : SegmentHandle)
    : option DomainKey :=
  (fun e => domain_key (spec e) (failure_domain req)) <$> entries p !! handle_entry c.

(** Dropping a vector of reservations, front to back. *)
Definition drop_reservations (rs : list (Reservation Alloc)) (p : Pool A)
    : option (Pool A) :=
  al ← drop_each (map owned_allocation rs) (allocators p);
  Some (set_allocators al p).

Definition fail_with (e : PlacementError) (acc : list (Reservation Alloc)) (p : Pool A)
    : res PlacementError (list (Reservation Alloc)) * Pool A :=
  match drop_reservations acc p with
  | Some p' => (Err e, p')
  | None => (Panic, p)
  end.

Fixpoint reserve_loop (req : PlacementRequest) (candidates : list SegmentHandle)
    (domains : list DomainKey) (acc : list (Reservation Alloc)) (p : Pool A)
    : res PlacementError (list (Reservation Alloc)) * Pool A :=
  match candidates with
  | [] =>
      if decide (fulfillment req = BestEffort) then (Ok acc, p)
      else fail_with (InsufficientReplicas (replica_count req) (length acc)) acc p
  | c :: rest =>
      match candidate_domain req p c with
      | None => (Panic, p)
      | Some d =>
          if decide (d ∈ domains) then reserve_loop req rest domains acc p
          else match pool_reserve c (alloc_bytes req) p with
          | (Ok r, p') =>
              let acc' := acc ++ [r] in
              if (length acc' =? replica_count req)%nat then (Ok acc', p')
              else reserve_loop req rest (d :: domains) acc' p'
          | (Err (NotAccepting _), p') | (Err (OutOfSpace _), p') =>
              reserve_loop req rest domains acc p'
          | (Err e, p') => fail_with (PlacementReserve e) acc p'
          | (Panic, p') => (Panic, p')
          end
      end
  end.

(** [ReplicaAllocator::reserve] with the free-capacity policy; [rs] are the
    reservations already outstanding.  The buffers that the code allocates for
    the count beforehand are left out: a request carries it in 32 bits. *)
Definition placement_reserve (req : PlacementRequest) (rs : list (Reservation Alloc))
    (p : Pool A) : res PlacementError (list (Reservation Alloc)) * Pool A :=
  if alloc_bytes req =? 0 then (Err PlacementZeroSize, p)
  else if (replica_count req =? 0)%nat then (Err PlacementZeroReplicas, p)
  else reserve_loop req (order req rs p (direct p)) [] [] p.
End Placement.

(** ** The ranking *)

Lemma insert_ranked_perm x l : insert_ranked x l ≡ₚ x :: l.
Proof.
  induction l as [|y l IH]; simpl; [done|].
  destruct (ranked_le x y); [done|]. rewrite IH. apply Permutation_swap.
Qed.

Lemma sort_ranked_perm l : sort_ranked l ≡ₚ l.
Proof.
  unfold sort_ranked. induction l as [|x l IH]; simpl; [done|].
  by rewrite insert_ranked_perm, IH.
Qed.

(** The order the comparison stands for. *)
Definition precedes (l r : RankedCandidate) : Prop :=
  let ls := space (cand_stats l) in
  let rs := space (cand_stats r) in
  preference l < preference r ∨
  preference l = preference r ∧
  (available_bytes rs * capacity_bytes ls < available_bytes ls * capacity_bytes rs ∨
   available_bytes rs * capacity_bytes ls = available_bytes ls * capacity_bytes rs ∧
   (largest_free_region_bytes rs < largest_free_region_bytes ls ∨
    largest_free_region_bytes rs = largest_free_region_bytes ls ∧
    lex_leb (segment_key (spec_id (cand_spec l)))
            (segment_key (spec_id (cand_spec r))) = true)).

Lemma ranked_le_precedes l r : ranked_le l r = true ↔ precedes l r.
Proof.
  unfold ranked_le, ranked_compare, precedes.
  destruct (N.compare_spec (preference l) (preference r)) as [H1|H1|H1];
    [|split; [intros _; by left|done]|split; [done|lia]].
  destruct (N.compare_spec
    (available_bytes (space (cand_stats r)) * capacity_bytes (space (cand_stats l)))
    (available_bytes (space (cand_stats l)) * capacity_bytes (space (cand_stats r))))
    as [H2|H2|H2]; [|split; [auto|done]|split; [done|lia]].
  destruct (N.compare_spec (largest_free_region_bytes (space (cand_stats r)))
    (largest_free_region_bytes (space (cand_stats l)))) as [H3|H3|H3];
    [|split; [auto 10|done]|split; [done|lia]].
  destruct (lex_leb _ _) eqn:E1; [|split; [done|]].
  - split; [auto 10|]. intros _. 
    by destruct (lex_leb (segment_key (spec_id (cand_spec r))) _).
  - intros [|[_ [|[_ [|[_ ?]]]]]]; try lia; congruence.
Qed.

Definition has_capacity (l : RankedCandidate) : Prop :=
  0 < capacity_bytes (space (cand_stats l)).

Lemma precedes_total l r : precedes l r ∨ precedes r l.
Proof.
  unfold precedes.
  destruct (lex_leb_total (segment_key (spec_id (cand_spec l)))
    (segment_key (spec_id (cand_spec r)))) as [E|E]; rewrite E; lia.
Qed.

(** Cross multiplication orders by the quotient as long as capacities are not
    zero. *)
Lemma precedes_trans x y z :
  has_capacity x → has_capacity y → has_capacity z →
  precedes x y → precedes y z → precedes x z.
Proof.
  unfold has_capacity, precedes.
  set (ax := available_bytes (space (cand_stats x))).
  set (ay := available_bytes (space (cand_stats y))).
  set (az := available_bytes (space (cand_stats z))).
  set (cx := capacity_bytes (space (cand_stats x))).
  set (cy := capacity_bytes (space (cand_stats y))).
  set (cz := capacity_bytes (space (cand_stats z))).
  intros Hx Hy Hz [H1|[H1 H1']] [H2|[H2 H2']]; try (left; lia).
  right. split; [lia|].
  assert (ay * cx <= ax * cy → az * cy <= ay * cz → az * cx <= ax * cz) as Hle.
  { intros Ha Hb.
    assert (az * cx * cy <= ax * cz * cy) by nia. nia. }
  assert (ay * cx < ax * cy → az * cy <= ay * cz → az * cx < ax * cz) as Hlt1.
  { intros Ha Hb.
    assert (az * cx * cy < ax * cz * cy) by nia. nia. }
  assert (ay * cx <= ax * cy → az * cy < ay * cz → az * cx < ax * cz) as Hlt2.
  { intros Ha Hb.
    assert (az * cx * cy < ax * cz * cy) by nia. nia. }
  destruct H1' as [H1'|[H1' H1'']], H2' as [H2'|[H2' H2'']];
    try (left; (apply Hlt1; lia) || (apply Hlt2; lia)).
  destruct (N.lt_total (az * cx) (ax * cz)) as [|[|]]; [by left| |specialize (Hle ltac:(lia)); lia].
  right. split; [done|].
  destruct H1'' as [|[? E1]], H2'' as [|[? E2]]; try (left; lia).
  right. split; [lia|]. by eapply lex_leb_trans.
Qed.

Lemma insert_ranked_sorted x l :
  has_capacity x → Forall has_capacity l →
  StronglySorted precedes l → StronglySorted precedes (insert_ranked x l).
Proof.
  intros Hx Hl Hs. induction Hs as [|y l Hs IH Hy]; simpl; [repeat constructor|].
  apply Forall_cons in Hl as [Hcy Hl]. destruct (ranked_le x y) eqn:E.
  - apply ranked_le_precedes in E. constructor; [by constructor|]. constructor; [done|].
    rewrite Forall_forall in *. intros z Hz. eapply precedes_trans; [..|exact E|]; auto.
  - constructor; [by apply IH|]. rewrite insert_ranked_perm. constructor; [|done].
    destruct (precedes_total x y) as [Hp|Hp]; [|done].
    apply ranked_le_precedes in Hp. congruence.
Qed.

Lemma sort_ranked_sorted l :
  Forall has_capacity l → StronglySorted precedes (sort_ranked l).
Proof.
  unfold sort_ranked. induction 1 as [|x l Hx Hl IH]; simpl; [constructor|].
  apply insert_ranked_sorted; [done| |done].
  change (Forall has_capacity (sort_ranked l)). by rewrite sort_ranked_perm.
Qed.

(** ** Reserving replicas *)

Section PlacementProofs.
Context {A Alloc : Type} `{L : UpstreamLaws A Alloc}.
Implicit Types (p : Pool A) (r : Reservation Alloc).

Lemma pool_inv_perm p rs rs' : rs ≡ₚ rs' → pool_inv p rs → pool_inv p rs'.
Proof.
  intros Hp [Hc Hne Hd [Hsd Hso Hsm Hsr] Hn]. split; try done. split; try done.
  - eapply owners_inv_perm; [|exact Hso]. by rewrite Hp.
  - intros r Hr. apply Hsr. by rewrite Hp.
Qed.

Lemma drop_each_managed : ∀ (l : list (N * OffsetAllocationHandle Alloc))
    (al al' : gmap N (SharedAllocator A)),
  drop_each l al = Some al' →
  ∀ a sh sh', al !! a = Some sh → al' !! a = Some sh' →
    managed_capacity sh' = managed_capacity sh.
Proof.
  induction l as [|[o h] l IH]; intros al al' Hrun a sh sh' Ha Ha'; simpl in Hrun.
  { simplify_eq. congruence. }
  destruct (al !! o) as [sh0|] eqn:Ho; [|done].
  destruct (handle_drop h sh0) as [sh1|] eqn:Hrel; [|done].
  apply handle_drop_managed in Hrel.
  destruct (decide (o = a)) as [->|Hoa].
  - rewrite (IH _ _ Hrun a sh1 sh'); [congruence|by rewrite lookup_insert_eq|done].
  - apply (IH _ _ Hrun a); [by rewrite lookup_insert_ne|done].
Qed.

Lemma drop_reservations_ok acc p rs :
  pool_inv p (acc ++ rs) →
  ∃ p', drop_reservations acc p = Some p' ∧ pool_inv p' rs ∧ pool_frame p' = pool_frame p.
Proof.
  intros Hinv. pose proof (pi_space _ _ Hinv) as Hs. unfold drop_reservations.
  destruct (drop_each_ok (map owned_allocation acc) (owned_allocation <$> rs) (allocators p))
    as (al & Hrun & Ho & Hdom).
  { pose proof (si_alloc _ _ Hs) as Ho. by rewrite fmap_app in Ho. }
  rewrite Hrun. simpl. eexists. split_and!; [done| |done].
  apply (pool_inv_allocators p (acc ++ rs)); [done|].
  apply (space_inv_allocators p (acc ++ rs)); try done.
  - intros a. by rewrite <- !elem_of_dom, Hdom.
  - intros a sh sh'. by eapply drop_each_managed.
  - intros r Hr. apply (si_region _ _ Hs). set_solver.
Qed.

Lemma fail_with_ok e acc p rs :
  pool_inv p (acc ++ rs) →
  ∃ p', fail_with e acc p = (Err e, p') ∧ pool_inv p' rs ∧ pool_frame p' = pool_frame p.
Proof.
  intros (p' & Hd & ? & ?)%drop_reservations_ok. exists p'. unfold fail_with. by rewrite Hd.
Qed.

Lemma pool_reserve_cases c bytes p rs e :
  pool_inv p rs → handle_pool c = pool_id p → entries p !! handle_entry c = Some e →
  bytes ≠ 0 →
  let '(o, p') := pool_reserve c bytes p in
  pool_frame p' = pool_frame p ∧
  match o with
  | Ok r => pool_inv p' (r :: rs) ∧ r_entry r = handle_entry c ∧ state e = Accepting ∧
            region_size (r_region r) = bytes
  | Err (NotAccepting _) | Err (OutOfSpace _) => pool_inv p' rs
  | _ => False
  end.
Proof.
  intros Hinv Hp He Hb.
  destruct (pool_reserve_ok c bytes p rs Hinv) as [_ Hinv']; [eauto|].
  revert Hinv'. unfold pool_reserve. rewrite Hp, N.eqb_refl. simpl. rewrite He.
  destruct (pi_space _ _ Hinv) as [Hd [Ho _] Hm _].
  destruct (proj1 (Hd (handle_entry c))) as [sh Hsh]; [eauto|]. rewrite Hsh.
  destruct (ci_entry _ _ (pi_catalog _ _ Hinv) _ _ He) as (_ & Hv & _ & _).
  pose proof (entry_reserve_ok (handle_entry c) bytes e sh _ (Ho _ _ Hsh) Hv
    (proj2 (Hm _ _ _ He Hsh))) as Hres.
  destruct (entry_reserve _ _ _ _) as [[r|err|] sh']; simpl; destruct Hres as [_ Hres];
    [|destruct Hres as (_ & [[? _]|[->|[_ ->]]])|]; try done.
  intros Hinv'. destruct Hres as (_ & ? & ? & _ & ? & _). done.
Qed.

Definition keys_of (req : PlacementRequest) (p : Pool A) (rs : list (Reservation Alloc))
    : list DomainKey :=
  omap (fun r => (fun e => domain_key (spec e) (failure_domain req)) <$>
                   entries p !! r_entry r) rs.

(** A replica granted to the request: on an accepting candidate, with the
    requested size. *)
Definition granted_ok (req : PlacementRequest) (p : Pool A) (cs : list SegmentHandle)
    (r : Reservation Alloc) : Prop :=
  region_size (r_region r) = alloc_bytes req ∧
  ∃ c e, c ∈ cs ∧ r_entry r = handle_entry c ∧
         entries p !! r_entry r = Some e ∧ state e = Accepting.

Definition reserve_post (req : PlacementRequest) (p : Pool A) (rs : list (Reservation Alloc))
    (cs : list SegmentHandle)
    (x : res PlacementError (list (Reservation Alloc)) * Pool A) : Prop :=
  pool_frame x.2 = pool_frame p ∧
  match x.1 with
  | Ok out => pool_inv x.2 (out ++ rs) ∧ (length out <= replica_count req)%nat ∧
      (fulfillment req = AllOrNothing → length out = replica_count req) ∧
      NoDup (keys_of req p out) ∧ Forall (granted_ok req p cs) out
  | Err e => pool_inv x.2 rs ∧ fulfillment req = AllOrNothing ∧
      ∃ n, (n < replica_count req)%nat ∧ e = InsufficientReplicas (replica_count req) n
  | Panic => False
  end.

Lemma keys_of_snoc req p acc r e :
  entries p !! r_entry r = Some e →
  keys_of req p (acc ++ [r]) = keys_of req p acc ++ [domain_key (spec e) (failure_domain req)].
Proof. intros He. unfold keys_of. rewrite omap_app. simpl. by rewrite He. Qed.

Lemma reserve_loop_ok req rs p0 all : ∀ cs domains acc p,
  alloc_bytes req ≠ 0 →
  pool_frame p = pool_frame p0 → pool_inv p (acc ++ rs) →
  (∀ c, c ∈ cs → c ∈ all ∧ handle_pool c = pool_id p ∧ is_Some (entries p !! handle_entry c)) →
  (∀ d, d ∈ domains ↔ d ∈ keys_of req p0 acc) → NoDup (keys_of req p0 acc) →
  (length acc < replica_count req)%nat → Forall (granted_ok req p0 all) acc →
  reserve_post req p0 rs all (reserve_loop req cs domains acc p).
Proof.
  induction cs as [|c cs IH]; intros domains acc p Hb Hen Hinv Hcs Hdom Hnd Hlen Hg; simpl.
  { case_decide as Hf.
    - split; [done|]. simpl. split_and!; try done; [lia|congruence].
    - destruct (fail_with_ok (InsufficientReplicas (replica_count req) (length acc)) acc p rs Hinv)
        as (p' & -> & Hinv' & Hen'). split; [simpl; congruence|]. simpl.
      split_and!; [done|by destruct (fulfillment req)|eauto]. }
  destruct (Hcs c) as (Hall & Hpid & [e He]); [set_solver|].
  unfold candidate_domain. rewrite He. simpl.
  pose proof (pool_reserve_cases c (alloc_bytes req) p (acc ++ rs) e Hinv Hpid He Hb) as Hres.
  case_decide as Hd.
  { apply IH; try done. intros c' ?. apply Hcs. set_solver. }
  destruct (pool_reserve c (alloc_bytes req) p) as [o p'].
  destruct Hres as (Hen' & Hres). pose proof (f_equal pool_id Hen') as Hpid'. simpl in Hpid'.
  assert (∀ c', c' ∈ cs → c' ∈ all ∧ handle_pool c' = pool_id p' ∧
            is_Some (entries p' !! handle_entry c')) as Hcs'.
  { intros c' Hc'. rewrite Hpid', (frame_entries _ _ Hen'). apply Hcs. set_solver. }
  destruct o as [r|[]|]; try done; [|apply IH; try done; congruence..].
  destruct Hres as (Hinv' & Hre & Hst & Hsz).
  assert (entries p0 !! r_entry r = Some e) as Her by (rewrite <- (frame_entries _ _ Hen), Hre; done).
  assert (pool_inv p' ((acc ++ [r]) ++ rs)) as Hinv2.
  { eapply pool_inv_perm; [|exact Hinv']. rewrite <- (assoc_L (++)). simpl.
    apply Permutation_middle. }
  assert (NoDup (keys_of req p0 (acc ++ [r]))) as Hnd2.
  { rewrite (keys_of_snoc _ _ _ _ e Her). apply NoDup_app. split_and!; [done| |apply NoDup_singleton].
    intros d Hd' ->%list_elem_of_singleton. by apply Hd, Hdom. }
  assert (Forall (granted_ok req p0 all) (acc ++ [r])) as Hg2.
  { apply Forall_app. split; [done|]. constructor; [|constructor]. split; [done|]. eauto 10. }
  destruct (Nat.eqb_spec (length (acc ++ [r])) (replica_count req)) as [Hc|Hc].
  - split; [simpl; congruence|]. simpl. split_and!; try done; lia.
  - apply IH; try done; [congruence| |rewrite length_app in *; simpl in *; lia].
    intros d. rewrite elem_of_cons, (keys_of_snoc _ _ _ _ e Her), elem_of_app,
      list_elem_of_singleton, Hdom. tauto.
Qed.

Lemma order_elem req rs p snapshot c :
  c ∈ order req rs p snapshot → c ∈ snapshot ∧
  ∃ e sh, entries p !! handle_entry c = Some e ∧ allocators p !! handle_entry c = Some sh ∧
    state e = Accepting ∧ spec_id (spec e) ∉ excluded_segments req ∧
    alloc_bytes req <= as_available_bytes (allocator_stats sh).
Proof.
  unfold order. intros (x & -> & Hx)%list_elem_of_fmap. rewrite sort_ranked_perm in Hx.
  apply list_elem_of_omap in Hx as (c & Hc & Hrank). unfold rank_candidate, pool_stats_at in Hrank.
  destruct (entries p !! handle_entry c) as [e|] eqn:He; [|done].
  destruct (allocators p !! handle_entry c) as [sh|] eqn:Hsh; [|done].
  destruct (_ && _) eqn:Hg; [|done]. injection Hrank as <-. simpl in *.
  bool_to_prop. split; [done|]. exists e, sh. split_and!; try done.
  by destruct (state e).
Qed.

Lemma order_known req rs p c :
  pool_inv p rs → c ∈ order req rs p (direct p) →
  handle_pool c = pool_id p ∧ is_Some (entries p !! handle_entry c).
Proof.
  intros Hinv Hc. apply order_elem in Hc as (Hc & e & sh & He & _). split; [|eauto].
  by eapply direct_pool.
Qed.

(** What a placement request returns on a pool in order. *)
Definition placement_post (req : PlacementRequest) (rs : list (Reservation Alloc)) (p : Pool A)
    (x : res PlacementError (list (Reservation Alloc)) * Pool A) : Prop :=
  pool_frame x.2 = pool_frame p ∧
  match x.1 with
  | Ok out =>
      pool_inv x.2 (out ++ rs) ∧
      (length out <= replica_count req)%nat ∧
      (fulfillment req = AllOrNothing → length out = replica_count req) ∧
      NoDup (keys_of req p out) ∧
      Forall (fun r => region_size (r_region r) = alloc_bytes req ∧
                ∃ e, entries p !! r_entry r = Some e ∧ state e = Accepting ∧
                     spec_id (spec e) ∉ excluded_segments req) out
  | Err err => pool_inv x.2 rs ∧
      (err = PlacementZeroSize ∧ alloc_bytes req = 0 ∨
       err = PlacementZeroReplicas ∧ replica_count req = 0%nat ∨
       fulfillment req = AllOrNothing ∧
       ∃ n, (n < replica_count req)%nat ∧ err = InsufficientReplicas (replica_count req) n)
  | Panic => False
  end.

Lemma placement_reserve_ok req rs p :
  pool_inv p rs → placement_post req rs p (placement_reserve req rs p).
Proof.
  intros Hinv. unfold placement_reserve.
  destruct (N.eqb_spec (alloc_bytes req) 0) as [Hz|Hz]; [by split; [|split; [|left]]|].
  destruct (Nat.eqb_spec (replica_count req) 0) as [Hc|Hc];
    [by split; [|split; [|right; left]]|].
  set (cs := order req rs p (direct p)).
  destruct (reserve_loop_ok req rs p cs cs [] [] p) as [Hen Hpost];
    try done; [|constructor|simpl; lia|].
  { intros c Hcs. destruct (order_known _ _ _ _ Hinv Hcs). done. }
  split; [done|]. destruct (reserve_loop _ _ _ _ _) as [[out|err|] p']; simpl in *; [| |done].
  - destruct Hpost as (? & ? & ? & ? & Hg). split_and!; try done.
    eapply Forall_impl; [exact Hg|]. intros r [Hsz (c & e & Hcs & Hre & He & Hst)].
    split; [done|]. exists e. split_and!; try done.
    apply order_elem in Hcs as (_ & e' & sh & He' & _ & _ & Hex & _).
    rewrite <- Hre in He'. by simplify_eq.
  - destruct Hpost as (? & ? & ?). split; [done|]. right. right. done.
Qed.
End PlacementProofs.

(** ** Properties *)

(** C33: Replica placement is all or nothing, spread and leak-free.  On every
    reachable pool a placement request never panics; when it succeeds it
    returns at most (exactly, unless best effort was asked) the requested
    number of replicas, each of the requested size on an accepting, not
    excluded segment, all in different failure domains; when it fails for
    lack of replicas every range it had taken is released, and the outstanding
    reservations again account for all space in use. *)
Theorem placement_sound {A Alloc} `{UpstreamLaws A Alloc} pid nodes ops
    (w : PoolWorld A Alloc) req :
  pool_config_valid nodes = true →
  pool_run ops (pool_world_new pid nodes) = Some w →
  let x := placement_reserve req (reservations w) (pool w) in
  entries x.2 = entries (pool w) ∧
  match x.1 with
  | Ok out =>
      pool_inv x.2 (out ++ reservations w) ∧
      (length out <= replica_count req)%nat ∧
      (fulfillment req = AllOrNothing → length out = replica_count req) ∧
      NoDup (keys_of req (pool w) out) ∧
      Forall (fun r => region_size (r_region r) = alloc_bytes req ∧
                ∃ e, entries (pool w) !! r_entry r = Some e ∧ state e = Accepting ∧
                     spec_id (spec e) ∉ excluded_segments req) out
  | Err err => pool_inv x.2 (reservations w) ∧
      (err = PlacementZeroSize ∧ alloc_bytes req = 0 ∨
       err = PlacementZeroReplicas ∧ replica_count req = 0%nat ∨
       fulfillment req = AllOrNothing ∧
       ∃ n, (n < replica_count req)%nat ∧ err = InsufficientReplicas (replica_count req) n)
  | Panic => False
  end.
Proof.
  intros Hn Hrun x.
  destruct (placement_reserve_ok req _ _ (pool_run_inv _ _ _ _ Hn Hrun)) as [Hf Hpost].
  split; [by apply frame_entries|exact Hpost].
Qed.

Definition example_request (n : nat) (f : FulfillmentPolicy) : PlacementRequest :=
  mkRequest 64 n DomainSegment f ["node"] ∅.

Lemma placement_sound_witness :
  let x := placement_reserve (example_request 2 AllOrNothing) (reservations example_world)
             (pool example_world) in
  entries x.2 = entries (pool example_world) ∧
  match x.1 with
  | Ok out =>
      pool_inv x.2 (out ++ reservations example_world) ∧
      (length out <= 2)%nat ∧
      (AllOrNothing = AllOrNothing → length out = 2%nat) ∧
      NoDup (keys_of (example_request 2 AllOrNothing) (pool example_world) out) ∧
      Forall (fun r => region_size (r_region r) = 64 ∧
                ∃ e, entries (pool example_world) !! r_entry r = Some e ∧ state e = Accepting ∧
                     spec_id (spec e) ∉ (∅ : gset SegmentId)) out
  | Err err => pool_inv x.2 (reservations example_world) ∧
      (err = PlacementZeroSize ∧ 64 = 0 ∨
       err = PlacementZeroReplicas ∧ 2%nat = 0%nat ∨
       AllOrNothing = AllOrNothing ∧
       ∃ n, (n < 2)%nat ∧ err = InsufficientReplicas 2 n)
  | Panic => False
  end.
Proof.
  apply (placement_sound 1 8 example_pool_ops example_world (example_request 2 AllOrNothing));
    vm_compute; reflexivity.
Defined.

(** The free-capacity policy ranks exactly the eligible candidates: it
    returns a permutation of the candidates that are accepting, have enough
    free bytes and are not excluded, sorted by preference, then by share of
    free capacity, then by largest free region, then by id.  The cross
    multiplication it compares with is a total order because every mounted
    segment has capacity. *)
Theorem order_ranked {A Alloc} `{UpstreamLaws A Alloc} pid nodes ops
    (w : PoolWorld A Alloc) req snapshot :
  pool_config_valid nodes = true →
  pool_run ops (pool_world_new pid nodes) = Some w →
  ∃ ranked, order req (reservations w) (pool w) snapshot = candidate <$> ranked ∧
    ranked ≡ₚ omap (rank_candidate req (reservations w) (pool w)) snapshot ∧
    StronglySorted precedes ranked.
Proof.
  intros Hn Hrun. pose proof (pool_run_inv _ _ _ _ Hn Hrun) as Hinv.
  eexists. split_and!; [done|apply sort_ranked_perm|]. apply sort_ranked_sorted.
  apply Forall_forall. intros x (c & _ & Hx)%list_elem_of_omap.
  unfold rank_candidate, pool_stats_at in Hx.
  destruct (entries (pool w) !! handle_entry c) as [e|] eqn:He; [|done].
  destruct (allocators (pool w) !! handle_entry c) as [sh|] eqn:Hsh; [|done].
  destruct (_ && _); [|done]. injection Hx as <-. unfold has_capacity. simpl.
  by apply (si_managed _ _ (pi_space _ _ Hinv) _ _ _ He Hsh).
Qed.

Lemma order_ranked_witness :
  ∃ ranked, order (example_request 1 BestEffort) (reservations example_world)
              (pool example_world) (direct (pool example_world)) = candidate <$> ranked ∧
    ranked ≡ₚ omap (rank_candidate (example_request 1 BestEffort)
                 (reservations example_world) (pool example_world))
                (direct (pool example_world)) ∧
    StronglySorted precedes ranked.
Proof.
  apply (order_ranked 1 8 example_pool_ops example_world (example_request 1 BestEffort));
    vm_compute; reflexivity.
Defined.
