(* ===== verification/TenantQuota.v ===== *)
(** * Tenant quota accounting

    [src/src/object/tenant/quota.rs]: the per-tenant account, the charge an
    object record carries through its life, the admission guard, and the
    distribution of the accepting capacity over the tenants.  The atomics of an
    account are read and written as one step here. *)
From S2P Require Import Prelude.

(** ** Accounts *)

Record QuotaAccount := mkAccount {
  policy_epoch : N;
  requested : N;
  effective : N;
  demand : N;
  used : N;
  retiring : N
}.

Definition account_new (req : N) : QuotaAccount := mkAccount 0 req 0 0 0 0.

Definition set_requested (req : N) (a : QuotaAccount) : QuotaAccount :=
  mkAccount (policy_epoch a) req (effective a) (demand a) (used a) (retiring a).

(** The epoch is odd while the limit is being replaced. *)
Definition set_effective (eff : N) (a : QuotaAccount) : QuotaAccount :=
  mkAccount (wrapping_add (wrapping_add (policy_epoch a) 1) 1) (requested a) eff
    (demand a) (used a) (retiring a).

Definition set_demand (d : N) (a : QuotaAccount) : QuotaAccount :=
  mkAccount (policy_epoch a) (requested a) (effective a) d (used a) (retiring a).
Definition set_used (u : N) (a : QuotaAccount) : QuotaAccount :=
  mkAccount (policy_epoch a) (requested a) (effective a) (demand a) u (retiring a).
Definition set_retiring (r : N) (a : QuotaAccount) : QuotaAccount :=
  mkAccount (policy_epoch a) (requested a) (effective a) (demand a) (used a) r.

Inductive TenantQuotaExceeded :=
| QuotaExceeded (requested_bytes demand_bytes effective_bytes : N).

Definition reserve_demand (bytes : N) (a : QuotaAccount)
    : res TenantQuotaExceeded unit * QuotaAccount :=
  match checked_add (demand a) bytes with
  | None => (Err (QuotaExceeded bytes (demand a) (effective a)), a)
  | Some next =>
      if effective a <? next
      then (Err (QuotaExceeded bytes (demand a) (effective a)), a)
      else (Ok tt, set_demand next a)
  end.

Definition release_reserved (bytes : N) (a : QuotaAccount) : QuotaAccount :=
  set_demand (saturating_sub (demand a) bytes) a.

Record TenantQuotaSnapshot := mkQuotaSnapshot {
  qs_requested : N; qs_effective : N; qs_demand : N;
  qs_reserved : N; qs_used : N; qs_retiring : N
}.

Definition account_snapshot (a : QuotaAccount) : TenantQuotaSnapshot :=
  mkQuotaSnapshot (requested a) (effective a) (demand a)
    (saturating_sub (demand a) (used a)) (used a) (retiring a).

(** ** Admission guards *)

(** [QuotaReservationGuard::resize] of a guard over [held] bytes. *)
Definition guard_resize (held bytes : N) (a : QuotaAccount)
    : res TenantQuotaExceeded N * QuotaAccount :=
  if bytes =? held then (Ok held, a)
  else if bytes <? held then
    (Ok bytes, set_demand (saturating_sub (demand a) (held - bytes)) a)
  else match reserve_demand (bytes - held) a with
  | (Ok _, a') => (Ok bytes, a')
  | (Err e, a') => (Err e, a')
  | (Panic, a') => (Panic, a')
  end.

Definition guard_drop (held : N) (a : QuotaAccount) : QuotaAccount :=
  release_reserved held a.

(** ** Charges *)

Inductive ChargePhase := ChargeReserved | ChargeCommitted | ChargeRetiring | ChargeReleased.

#[global] Instance ChargePhase_eq_dec : EqDecision ChargePhase.
Proof. solve_decision. Defined.

Definition charge_commit (bytes : N) (a : QuotaAccount) : ChargePhase * QuotaAccount :=
  (ChargeCommitted, set_used (wrapping_add (used a) bytes) a).

Definition charge_abort (bytes : N) (a : QuotaAccount) : ChargePhase * QuotaAccount :=
  (ChargeReleased, release_reserved bytes a).

Definition charge_mark_retiring (bytes : N) (a : QuotaAccount) : ChargePhase * QuotaAccount :=
  (ChargeRetiring, set_retiring (wrapping_add (retiring a) bytes) a).

Definition charge_release_committed_partial (bytes : N) (a : QuotaAccount) : QuotaAccount :=
  let a1 := set_used (saturating_sub (used a) bytes) a in
  set_demand (saturating_sub (demand a1) bytes) a1.

Definition charge_release (phase : ChargePhase) (bytes : N) (a : QuotaAccount)
    : ChargePhase * QuotaAccount :=
  (ChargeReleased,
   match phase with
   | ChargeReserved => release_reserved bytes a
   | ChargeCommitted =>
       let a1 := set_used (saturating_sub (used a) bytes) a in
       set_demand (saturating_sub (demand a1) bytes) a1
   | ChargeRetiring =>
       let a1 := set_used (saturating_sub (used a) bytes) a in
       let a2 := set_retiring (saturating_sub (retiring a1) bytes) a1 in
       set_demand (saturating_sub (demand a2) bytes) a2
   | ChargeReleased => a
   end).

(** ** Distribution of capacity *)

Definition floor_share (capacity total req : N) : N := (req * capacity) / total.

(** The pass that hands out the remainder one byte at a time. *)
Fixpoint spread_remainder (remainder : N) (l : list (N * N)) : list (N * N) :=
  match l with
  | [] => []
  | (req, share) :: l' =>
      if remainder =? 0 then (req, share) :: l'
      else if share <? req
           then (req, share + 1) :: spread_remainder (remainder - 1) l'
           else (req, share) :: spread_remainder remainder l'
  end.

(** The effective limit of each tenant, in the order of the tenants. *)
Definition distribute_effective_quota (capacity : N) (reqs : list N) : list N :=
  let total := foldl N.add 0 reqs in
  if total <=? capacity then reqs
  else
    let shares := map (fun r => (r, floor_share capacity total r)) reqs in
    let assigned := foldl (fun acc s => saturating_add acc s.2) 0 shares in
    map snd (spread_remainder (saturating_sub capacity assigned) shares).

(** ** Lemmas on the distribution *)

Lemma foldl_add_sum l : ∀ a, foldl N.add a l = a + sum_by (fun x => x) l.
Proof.
  induction l as [|x l IH]; intros a; simpl; [unfold sum_by; simpl; lia|].
  rewrite IH, sum_by_cons. lia.
Qed.

Lemma foldl_saturating_sum {X} (f : X → N) l : ∀ a,
  a + sum_by f l <= U64_MAX →
  foldl (fun acc s => saturating_add acc (f s)) a l = a + sum_by f l.
Proof.
  induction l as [|x l IH]; intros a Hle; [unfold sum_by; simpl; lia|].
  simpl foldl. rewrite sum_by_cons in *. rewrite IH; rewrite saturating_add_exact; lia.
Qed.

(** Entries the remainder pass may still raise. *)
Definition below (l : list (N * N)) : list (N * N) := filter (fun s => s.2 < s.1) l.

Lemma spread_remainder_sum l : ∀ n,
  n <= N.of_nat (length (below l)) →
  sum_by snd (spread_remainder n l) = sum_by snd l + n.
Proof.
  induction l as [|[r s] l IH]; intros n Hn; simpl.
  { unfold below in Hn. simpl in Hn. unfold sum_by. simpl. lia. }
  destruct (N.eqb_spec n 0) as [->|Hz]; [lia|].
  unfold below in Hn. rewrite filter_cons in Hn. simpl in Hn.
  destruct (N.ltb_spec s r) as [Hlt|Hge].
  - rewrite decide_True in Hn by done. simpl in Hn.
    rewrite !sum_by_cons, IH; simpl; [lia|unfold below; lia].
  - rewrite decide_False in Hn by lia. rewrite !sum_by_cons, IH; simpl; [lia|done].
Qed.

Lemma spread_remainder_bounds l : ∀ n,
  (∀ s, s ∈ l → s.2 <= s.1) →
  Forall2 (fun old new => new.1 = old.1 ∧ old.2 <= new.2 ∧ new.2 <= old.2 + 1 ∧
                          new.2 <= new.1) l (spread_remainder n l).
Proof.
  induction l as [|[r s] l IH]; intros n Hl; simpl; [constructor|].
  assert (s <= r) by (apply (Hl (r, s)); set_solver).
  assert (∀ k, Forall2 (fun old new : N * N => new.1 = old.1 ∧ old.2 <= new.2 ∧
            new.2 <= old.2 + 1 ∧ new.2 <= new.1) l (spread_remainder k l)) as IH'.
  { intros k. apply IH. set_solver. }
  destruct (N.eqb_spec n 0) as [->|Hz].
  { constructor; [simpl; lia|]. specialize (IH' 0).
    by destruct l as [|[r' s'] l']. }
  destruct (N.ltb_spec s r); (constructor; [simpl; lia|apply IH']).
Qed.

(** The remainder fits in the tenants that rounding cut short. *)
Lemma remainder_le_below capacity total reqs :
  0 < total → capacity < total →
  sum_by (fun r => r * capacity) reqs =
    sum_by (fun r => floor_share capacity total r) reqs * total +
    sum_by (fun r => (r * capacity) mod total) reqs ∧
  sum_by (fun r => (r * capacity) mod total) reqs <=
    N.of_nat (length (below (map (fun r => (r, floor_share capacity total r)) reqs))) * total.
Proof.
  intros Ht Hc. unfold floor_share. induction reqs as [|r reqs [IH1 IH2]]; [done|].
  pose proof (N.Div0.div_mod (r * capacity) total) as Hdm.
  pose proof (N.mod_lt (r * capacity) total ltac:(lia)) as Hm.
  rewrite !sum_by_cons. split; [nia|].
  unfold below in *. simpl map. rewrite filter_cons. simpl.
  case_decide as Hlt; simpl length; [nia|].
  assert ((r * capacity) mod total = 0) as ->; [|nia].
  set (m := (r * capacity) mod total) in *. set (q := r * capacity / total) in *. nia.
Qed.

Lemma distribute_spec capacity reqs :
  capacity <= U64_MAX →
  let total := sum_by (fun r => r) reqs in
  capacity < total →
  sum_by (fun x => x) (distribute_effective_quota capacity reqs) = capacity ∧
  Forall2 (fun r e => e <= r ∧ floor_share capacity total r <= e ∧
                      e <= floor_share capacity total r + 1)
    reqs (distribute_effective_quota capacity reqs).
Proof.
  intros Hmax total Hlt. unfold distribute_effective_quota.
  rewrite foldl_add_sum, N.add_0_l. fold total.
  destruct (N.leb_spec total capacity) as [|_]; [lia|].
  set (shares := map (fun r => (r, floor_share capacity total r)) reqs).
  destruct (remainder_le_below capacity total reqs) as [Hsum Hrem]; [lia..|].
  assert (sum_by (fun r => r * capacity) reqs = total * capacity) as Htot.
  { unfold total. clear. induction reqs as [|r l IH]; [done|].
    rewrite !sum_by_cons, IH. lia. }
  assert (sum_by snd shares = sum_by (fun r => floor_share capacity total r) reqs) as Hsh.
  { unfold shares. by rewrite sum_by_map. }
  assert (sum_by snd shares <= capacity) as Hle by nia.
  rewrite (foldl_saturating_sum snd), N.add_0_l by lia. unfold saturating_sub.
  assert (∀ s, s ∈ shares → s.2 <= s.1) as Hb.
  { intros s (r & <- & _)%list_elem_of_In%in_map_iff. simpl. unfold floor_share.
    apply N.Div0.div_le_upper_bound. nia. }
  pose proof (spread_remainder_bounds shares (capacity - sum_by snd shares) Hb) as Hbounds.
  split.
  - rewrite sum_by_map. change (sum_by (fun x : N * N => x.2)) with (sum_by (@snd N N)).
    rewrite spread_remainder_sum; [lia|]. fold shares in Hrem. nia.
  - apply Forall2_fmap_r. unfold shares in Hbounds at 1. apply Forall2_fmap_l in Hbounds.
    eapply Forall2_impl; [exact Hbounds|]. simpl. intros r [r' s]. simpl. lia.
Qed.

(** ** The ledger of one account

    The guards that are held and the charges that objects carry, with the
    bytes each stands for. *)
Record Ledger := mkLedger {
  account : QuotaAccount;
  guards : list N;
  charges : list (ChargePhase * N)
}.

Inductive ledger_op :=
| LReserve (bytes : N)
| LResize (i : nat) (bytes : N)
| LDropGuard (i : nat)
| LStage (i : nat)
| LCommit (i : nat)
| LAbort (i : nat)
| LRetire (i : nat)
| LPartial (i : nat) (bytes : N)
| LRelease (i : nat)
| LSetRequested (bytes : N)
| LSetEffective (bytes : N).

(** Each transition is taken from the phase the code asserts. *)
Definition ledger_step (op : ledger_op) (w : Ledger) : Ledger :=
  let a := account w in
  match op with
  | LReserve bytes =>
      match reserve_demand bytes a with
      | (Ok _, a') => mkLedger a' (guards w ++ [bytes]) (charges w)
      | (_, a') => mkLedger a' (guards w) (charges w)
      end
  | LResize i bytes =>
      match guards w !! i with
      | Some held =>
          match guard_resize held bytes a with
          | (Ok b, a') => mkLedger a' (<[i := b]> (guards w)) (charges w)
          | (_, a') => mkLedger a' (guards w) (charges w)
          end
      | None => w
      end
  | LDropGuard i =>
      match guards w !! i with
      | Some held => mkLedger (guard_drop held a) (delete i (guards w)) (charges w)
      | None => w
      end
  | LStage i =>
      match guards w !! i with
      | Some held =>
          mkLedger a (delete i (guards w)) (charges w ++ [(ChargeReserved, held)])
      | None => w
      end
  | LCommit i =>
      match charges w !! i with
      | Some (ChargeReserved, b) =>
          let '(ph, a') := charge_commit b a in
          mkLedger a' (guards w) (<[i := (ph, b)]> (charges w))
      | _ => w
      end
  | LAbort i =>
      match charges w !! i with
      | Some (ChargeReserved, b) =>
          let '(ph, a') := charge_abort b a in
          mkLedger a' (guards w) (<[i := (ph, b)]> (charges w))
      | _ => w
      end
  | LRetire i =>
      match charges w !! i with
      | Some (ChargeCommitted, b) =>
          let '(ph, a') := charge_mark_retiring b a in
          mkLedger a' (guards w) (<[i := (ph, b)]> (charges w))
      | _ => w
      end
  | LPartial i bytes =>
      match charges w !! i with
      | Some (ChargeCommitted, b) =>
          if bytes <=? b then
            mkLedger (charge_release_committed_partial bytes a) (guards w)
              (<[i := (ChargeCommitted, b - bytes)]> (charges w))
          else w
      | _ => w
      end
  | LRelease i =>
      match charges w !! i with
      | Some (ph, b) =>
          let '(ph', a') := charge_release ph b a in
          mkLedger a' (guards w) (<[i := (ph', b)]> (charges w))
      | None => w
      end
  | LSetRequested bytes => mkLedger (set_requested bytes a) (guards w) (charges w)
  | LSetEffective bytes => mkLedger (set_effective bytes a) (guards w) (charges w)
  end.

Definition ledger_run (req : N) (ops : list ledger_op) : Ledger :=
  foldl (fun w op => ledger_step op w) (mkLedger (account_new req) [] []) ops.

(** What a charge contributes to each counter. *)
Definition charge_demand (c : ChargePhase * N) : N :=
  match c.1 with ChargeReleased => 0 | _ => c.2 end.
Definition charge_used (c : ChargePhase * N) : N :=
  match c.1 with ChargeCommitted | ChargeRetiring => c.2 | _ => 0 end.
Definition charge_retiring (c : ChargePhase * N) : N :=
  match c.1 with ChargeRetiring => c.2 | _ => 0 end.

Arguments charge_demand !_ /.
Arguments charge_used !_ /.
Arguments charge_retiring !_ /.

Record ledger_inv (w : Ledger) : Prop := {
  li_demand : demand (account w) =
    sum_by (fun b => b) (guards w) + sum_by charge_demand (charges w);
  li_used : used (account w) = sum_by charge_used (charges w);
  li_retiring : retiring (account w) = sum_by charge_retiring (charges w);
  li_max : demand (account w) <= U64_MAX
}.

Lemma charges_ordered l :
  sum_by charge_retiring l <= sum_by charge_used l ∧
  sum_by charge_used l <= sum_by charge_demand l.
Proof.
  unfold charge_retiring, charge_used, charge_demand.
  split; apply sum_by_le; intros [[] b]; simpl; lia.
Qed.

(** One charge moves to another phase or size while the counters move by the
    same amounts. *)
Lemma charge_update a a' gs cs i c c' :
  ledger_inv (mkLedger a gs cs) →
  cs !! i = Some c →
  (charge_demand c <= demand a → charge_used c <= used a →
   charge_retiring c <= retiring a → used a + (charge_demand c - charge_used c) <= U64_MAX →
   retiring a + (charge_used c - charge_retiring c) <= U64_MAX →
   demand a' + charge_demand c = demand a + charge_demand c' ∧
   used a' + charge_used c = used a + charge_used c' ∧
   retiring a' + charge_retiring c = retiring a + charge_retiring c' ∧
   charge_demand c' <= charge_demand c) →
  ledger_inv (mkLedger a' gs (<[i := c']> cs)).
Proof.
  intros [Hd Hu Hr Hm] Hi Hc. simpl in *.
  pose proof (delete_Permutation cs i c Hi) as Hperm.
  pose proof (charges_ordered (delete i cs)) as [Ho1 Ho2].
  pose proof (sum_by_insert charge_demand cs i c c' Hi) as H1.
  pose proof (sum_by_insert charge_used cs i c c' Hi) as H2.
  pose proof (sum_by_insert charge_retiring cs i c c' Hi) as H3.
  rewrite (sum_by_delete charge_demand cs i c Hi) in Hd, H1.
  rewrite (sum_by_delete charge_used cs i c Hi) in Hu, H2.
  rewrite (sum_by_delete charge_retiring cs i c Hi) in Hr, H3.
  assert (charge_used c <= charge_demand c ∧ charge_retiring c <= charge_used c) as [? ?]
    by (destruct c as [[] ?]; simpl; lia).
  destruct Hc as (? & ? & ? & ?); [lia..|]. split; simpl; lia.
Qed.

(** The guards change and the demand with them. *)
Lemma guards_update a a' gs gs' cs :
  ledger_inv (mkLedger a gs cs) →
  demand a' + sum_by (fun b => b) gs = demand a + sum_by (fun b => b) gs' →
  demand a' <= U64_MAX → used a' = used a → retiring a' = retiring a →
  ledger_inv (mkLedger a' gs' cs).
Proof. intros [Hd Hu Hr Hm] ????. simpl in *. split; simpl; lia. Qed.

Lemma reserve_demand_spec bytes a :
  match reserve_demand bytes a with
  | (Ok _, a') =>
      demand a' = demand a + bytes ∧ demand a' <= effective a ∧ demand a' <= U64_MAX ∧
      used a' = used a ∧ retiring a' = retiring a ∧ effective a' = effective a
  | (Err _, a') => a' = a ∧ effective a < demand a + bytes ∨ a' = a ∧ U64_MAX < demand a + bytes
  | (Panic, _) => False
  end.
Proof.
  unfold reserve_demand. destruct (checked_add _ _) as [n|] eqn:Hn.
  - apply checked_add_Some in Hn as [-> Hle].
    destruct (N.ltb_spec (effective a) (demand a + bytes)); simpl; auto 7.
  - apply checked_add_None in Hn. auto.
Qed.

Lemma guard_ops_inv op a gs cs :
  match op with LReserve _ | LResize _ _ | LDropGuard _ | LStage _ => True | _ => False end →
  ledger_inv (mkLedger a gs cs) → ledger_inv (ledger_step op (mkLedger a gs cs)).
Proof.
  intros Hop Hinv. pose proof (li_demand _ Hinv) as Hd. pose proof (li_max _ Hinv) as Hm.
  simpl in Hd, Hm. destruct op as [b|i b|i|i| | | | | | | ]; try done; simpl; clear Hop.
  - pose proof (reserve_demand_spec b a) as Hs. destruct (reserve_demand b a) as [[] a'].
    + destruct Hs as (?&?&?&?&?&?). apply (guards_update a a' gs); try done.
      autorewrite with cake. lia.
    + by destruct Hs as [[-> _]|[-> _]].
    + done.
  - destruct (gs !! i) as [h|] eqn:Hi; [|done]. unfold guard_resize.
    pose proof (sum_by_insert (fun b => b) gs i h b Hi) as Hi'.
    pose proof (sum_by_elem_le (fun b => b) h gs (list_elem_of_lookup_2 _ _ _ Hi)).
    destruct (N.eqb_spec b h) as [->|?]; [by rewrite list_insert_id|].
    destruct (N.ltb_spec b h).
    { apply (guards_update a _ gs); simpl; unfold saturating_sub; try done; lia. }
    pose proof (reserve_demand_spec (b - h) a) as Hs.
    destruct (reserve_demand (b - h) a) as [[] a']; simpl.
    + destruct Hs as (?&?&?&?&?&?). apply (guards_update a a' gs); try done. lia.
    + by destruct Hs as [[-> _]|[-> _]].
    + done.
  - destruct (gs !! i) as [h|] eqn:Hi; [|done].
    pose proof (sum_by_delete (fun b => b) gs i h Hi).
    apply (guards_update a _ gs); simpl; unfold saturating_sub; try done; lia.
  - destruct (gs !! i) as [h|] eqn:Hi; [|done].
    pose proof (sum_by_delete (fun b => b) gs i h Hi).
    destruct Hinv; split; simpl in *; autorewrite with cake; simpl; lia.
Qed.

Lemma ledger_inv_step op w : ledger_inv w → ledger_inv (ledger_step op w).
Proof.
  intros Hinv. destruct w as [a gs cs].
  destruct op as [b|i b|i|i|i|i|i|i b|i|b|b];
    try (by apply guard_ops_inv); simpl; try (by destruct Hinv; split);
    destruct (cs !! i) as [[ph c]|] eqn:Hi; try done;
    destruct ph; try done; simpl; try case_match_eqn; try done; bool_to_prop;
    apply (charge_update a _ _ _ _ _ _ Hinv Hi); simpl; intros; unfold saturating_sub;
    rewrite ?wrapping_add_small by lia; lia.
Qed.

Lemma ledger_inv_run req ops : ledger_inv (ledger_run req ops).
Proof.
  unfold ledger_run. induction ops as [|op ops IH] using rev_ind.
  - split; simpl; unfold sum_by; simpl; u64.
  - rewrite foldl_app. simpl. by apply ledger_inv_step.
Qed.

(** ** Properties *)

(** At every point of every sequence of admissions, resizes, drops,
    stagings and charge transitions, the three counters of an account are
    exactly the bytes its guards and charges stand for: the demand is the
    bytes of every guard and every unreleased charge, the used bytes are those
    of committed and retiring charges, and the snapshot's reserved bytes are
    those of guards and uncommitted charges. No subtraction saturates. *)
Theorem ledger_exact req ops :
  let w := ledger_run req ops in
  demand (account w) = sum_by (fun b => b) (guards w) + sum_by charge_demand (charges w) ∧
  used (account w) = sum_by charge_used (charges w) ∧
  retiring (account w) = sum_by charge_retiring (charges w) ∧
  qs_reserved (account_snapshot (account w)) =
    sum_by (fun b => b) (guards w) +
    sum_by (fun c => charge_demand c - charge_used c) (charges w).
Proof.
  intros w. destruct (ledger_inv_run req ops) as [Hd Hu Hr _]. fold w in Hd, Hu, Hr.
  split_and!; [done..|]. unfold account_snapshot, saturating_sub. simpl.
  rewrite Hd, Hu. generalize (sum_by (fun b => b) (guards w)) (charges w). clear.
  intros g l. induction l as [|c l IH]; autorewrite with cake; [lia|].
  pose proof (charges_ordered l) as [_ ?].
  assert (charge_used c <= charge_demand c) by (destruct c as [[] ?]; simpl; lia). lia.
Qed.

(** An admission succeeds exactly when the demand it would create fits the
    effective limit and the machine word, a grant moves only the demand, and a
    refusal changes nothing and reports the demand and limit it met. *)
Theorem admission_exact req ops bytes :
  let a := account (ledger_run req ops) in
  (demand a + bytes <= effective a ∧ demand a + bytes <= U64_MAX →
     reserve_demand bytes a = (Ok tt, set_demand (demand a + bytes) a)) ∧
  (effective a < demand a + bytes ∨ U64_MAX < demand a + bytes →
     reserve_demand bytes a = (Err (QuotaExceeded bytes (demand a) (effective a)), a)) ∧
  (∀ a', reserve_demand bytes a = (Ok tt, a') → used a' <= demand a' <= effective a').
Proof.
  intros a. destruct (ledger_inv_run req ops) as [Hd Hu Hr _]. fold a in Hd, Hu, Hr.
  pose proof (charges_ordered (charges (ledger_run req ops))) as [_ Ho].
  pose proof (reserve_demand_spec bytes a) as Hspec.
  split_and!.
  - intros [H1 H2]. unfold reserve_demand, checked_add.
    destruct (N.leb_spec (demand a + bytes) U64_MAX); [|lia].
    by destruct (N.ltb_spec (effective a) (demand a + bytes)); [lia|].
  - intros H1. unfold reserve_demand, checked_add.
    destruct (N.leb_spec (demand a + bytes) U64_MAX); [|done].
    destruct (N.ltb_spec (effective a) (demand a + bytes)); [done|lia].
  - intros a' H. rewrite H in Hspec. lia.
Qed.

(** The distribution never hands out more than the capacity. When the
    requests fit, every tenant gets its request; otherwise the effective limits
    sum to exactly the capacity, no limit exceeds its request, and each is the
    floor of its proportional share or one byte more. *)
Theorem distribute_fair capacity reqs (Hcap : capacity <= U64_MAX) :
  let total := sum_by (fun r => r) reqs in
  let eff := distribute_effective_quota capacity reqs in
  sum_by (fun e => e) eff = N.min total capacity ∧
  (total <= capacity → eff = reqs) ∧
  (capacity < total →
     Forall2 (fun r e => e <= r ∧ floor_share capacity total r <= e ∧
                         e <= floor_share capacity total r + 1) reqs eff).
Proof.
  intros total eff. destruct (N.le_gt_cases total capacity) as [Hle|Hgt].
  - assert (eff = reqs) as ->.
    { unfold eff, distribute_effective_quota. rewrite foldl_add_sum, N.add_0_l. fold total.
      by destruct (N.leb_spec total capacity); [|lia]. }
    split_and!; [unfold total; lia|done|lia].
  - destruct (distribute_spec capacity reqs Hcap Hgt) as [Hs Hf]. fold eff total in Hs, Hf.
    split_and!; [lia|lia|done].
Qed.

Lemma distribute_fair_witness :
  sum_by (fun e => e) (distribute_effective_quota 10 [7; 5; 3]) = 10 ∧
  distribute_effective_quota 10 [7; 5; 3] = [5; 3; 2].
Proof.
  split; [|done].
  assert (10 <= U64_MAX) as Hcap by (vm_compute; discriminate).
  destruct (distribute_fair 10 [7; 5; 3] Hcap) as (H & _). rewrite H. reflexivity.
Defined.
