(* ===== verification/Replica.v ===== *)
(** * Replica sets

    [src/src/object/replica.rs] and the replica storage of
    [src/src/object/catalog/version.rs]: the reservations an object version
    owns.  A reservation is any type [R] with its reserved and requested bytes;
    whether the segment incarnation behind it is still valid is a question to
    the segment layer, so it is the argument [alive] of every operation that
    asks it. *)
From S2P Require Import Prelude.

(** What the object layer reads of a reservation. *)
Class Resource (R : Type) := {
  res_reserved : R → N;
  res_requested : R → N
}.

Section Replica.
Context {R : Type} `{Resource R}.

Record ReplicaLease := mkLease { lease_id : N; lease_reservation : R }.

Definition lease_reserved (l : ReplicaLease) : N := res_reserved (lease_reservation l).
Definition lease_capacity (l : ReplicaLease) : N := res_requested (lease_reservation l).

Inductive ReplicaSet :=
| Empty
| One (replica : ReplicaLease)
| Many (replicas : list ReplicaLease).

Definition ReplicaSet_new (l : list ReplicaLease) : ReplicaSet :=
  match l with
  | [] => Empty
  | [first] => One first
  | first :: second :: rest => Many (first :: second :: rest)
  end.

Definition from_vec (l : list ReplicaLease) : ReplicaSet :=
  match length l with
  | 0%nat => Empty
  | 1%nat => match last l with Some x => One x | None => Empty end
  | _ => Many l
  end.

(** [from_reservations] numbers the replicas from one; a count that leaves
    [u32] panics. *)
Definition from_reservations {E} (l : list R) : res E ReplicaSet :=
  if N.of_nat (length l) <=? U32_MAX
  then Ok (ReplicaSet_new (imap (fun i r => mkLease (N.of_nat i + 1) r) l))
  else Panic.

Definition replicas (s : ReplicaSet) : list ReplicaLease :=
  match s with
  | Empty => []
  | One r => [r]
  | Many l => l
  end.

Definition set_len (s : ReplicaSet) : nat :=
  match s with
  | Empty => 0
  | One _ => 1
  | Many l => length l
  end.

Definition set_is_empty (s : ReplicaSet) : bool :=
  match s with Empty => true | _ => false end.

Section Liveness.
Context (alive : R → bool).

Definition lease_is_live (l : ReplicaLease) : bool := alive (lease_reservation l).

Definition all_live (s : ReplicaSet) : bool :=
  negb (set_is_empty s) && forallb lease_is_live (replicas s).

Definition has_live (s : ReplicaSet) : bool := existsb lease_is_live (replicas s).

Definition live_iter (s : ReplicaSet) : list ReplicaLease :=
  List.filter lease_is_live (replicas s).

Inductive ReplicaPartition :=
| PartAllLive (s : ReplicaSet)
| PartAllStale (s : ReplicaSet)
| PartMixed (live stale : ReplicaSet).

(** The loop that pushes each replica on one of the two vectors. *)
Fixpoint split_live (l live stale : list ReplicaLease) : list ReplicaLease * list ReplicaLease :=
  match l with
  | [] => (live, stale)
  | r :: l' =>
      if lease_is_live r then split_live l' (live ++ [r]) stale
      else split_live l' live (stale ++ [r])
  end.

Definition partition_by_liveness (s : ReplicaSet) : ReplicaPartition :=
  let live_count := length (live_iter s) in
  if (live_count =? 0)%nat then PartAllStale s
  else if (live_count =? set_len s)%nat then PartAllLive s
  else
    let '(live, stale) := split_live (replicas s) [] [] in
    PartMixed (from_vec live) (from_vec stale).
End Liveness.

Definition set_reserved_bytes (s : ReplicaSet) : N :=
  foldl (fun total r => saturating_add total (lease_reserved r)) 0 (replicas s).

(** [append_reclaim_resources]: the reservations a set gives back. *)
Definition reclaim_resources (s : ReplicaSet) (batch : list R) : list R :=
  batch ++ map lease_reservation (replicas s).

(** ** Lemmas *)

(** A set is normal when its constructor agrees with its length; every set the
    code builds is. *)
Definition normal (s : ReplicaSet) : Prop :=
  match s with
  | Many l => (2 <= length l)%nat
  | _ => True
  end.

Lemma replicas_new l : replicas (ReplicaSet_new l) = l.
Proof. by destruct l as [|x [|y l]]. Qed.

Lemma new_normal l : normal (ReplicaSet_new l).
Proof. destruct l as [|x [|y l]]; simpl; lia. Qed.

Lemma from_vec_new l : from_vec l = ReplicaSet_new l.
Proof. by destruct l as [|x [|y l]]. Qed.

Lemma set_len_length s : set_len s = length (replicas s).
Proof. by destruct s. Qed.

Lemma normal_new s : normal s → s = ReplicaSet_new (replicas s).
Proof. destruct s as [| |[|x [|y l]]]; simpl; intros; try done; lia. Qed.

Lemma normal_is_empty s : normal s → set_is_empty s = true ↔ replicas s = [].
Proof. destruct s as [| |[|x l]]; simpl; intros; try done; lia. Qed.

Lemma split_live_filter alive l : ∀ lv st,
  split_live alive l lv st =
  (lv ++ List.filter (lease_is_live alive) l,
   st ++ List.filter (fun r => negb (lease_is_live alive r)) l).
Proof.
  induction l as [|r l IH]; intros lv st; simpl; [by rewrite !app_nil_r|].
  destruct (lease_is_live alive r); simpl; rewrite IH, <- app_assoc; done.
Qed.

Lemma filter_split_perm {X} (f : X → bool) l :
  List.filter f l ++ List.filter (fun x => negb (f x)) l ≡ₚ l.
Proof.
  induction l as [|x l IH]; simpl; [done|]. destruct (f x); simpl; [by rewrite IH|].
  rewrite <- Permutation_middle. by rewrite IH.
Qed.

Lemma filter_length_all {X} (f : X → bool) l :
  length (List.filter f l) = length l → forallb f l = true.
Proof.
  induction l as [|x l IH]; simpl; [done|]. destruct (f x); simpl; [auto|].
  pose proof (filter_length_le f l). lia.
Qed.

Lemma filter_length_none {X} (f : X → bool) l :
  length (List.filter f l) = 0%nat ↔ existsb f l = false.
Proof. induction l as [|x l IH]; simpl; [done|]. by destruct (f x). Qed.

Lemma all_live_spec alive s :
  normal s → all_live alive s = true ↔
  replicas s ≠ [] ∧ ∀ r, r ∈ replicas s → alive (lease_reservation r) = true.
Proof.
  intros Hn. unfold all_live. rewrite andb_true_iff, negb_true_iff, forallb_forall.
  rewrite <- (not_true_iff_false (set_is_empty s)), normal_is_empty by done.
  split; intros [? Hr]; (split; [done|]); intros r Hin; apply Hr; by apply list_elem_of_In.
Qed.

Lemma has_live_spec alive s :
  has_live alive s = true ↔ ∃ r, r ∈ replicas s ∧ alive (lease_reservation r) = true.
Proof.
  unfold has_live. rewrite existsb_exists. split; intros (r & Hin & Hr);
    exists r; (split; [by apply list_elem_of_In|done]).
Qed.

(** The partition in every case: what it keeps, what it drops, and that the
    two parts are exactly the set. *)
Lemma partition_spec alive s :
  normal s →
  match partition_by_liveness alive s with
  | PartAllLive s' => s' = s ∧ all_live alive s = true
  | PartAllStale s' => s' = s ∧ has_live alive s = false
  | PartMixed live stale =>
      normal live ∧ normal stale ∧
      replicas live = List.filter (lease_is_live alive) (replicas s) ∧
      replicas stale = List.filter (fun r => negb (lease_is_live alive r)) (replicas s) ∧
      replicas live ++ replicas stale ≡ₚ replicas s ∧
      replicas live ≠ [] ∧ replicas stale ≠ [] ∧ all_live alive live = true
  end.
Proof.
  intros Hn. unfold partition_by_liveness, live_iter.
  destruct (Nat.eqb_spec (length (List.filter (lease_is_live alive) (replicas s))) 0) as [H0|H0].
  { split; [done|]. by apply filter_length_none. }
  destruct (Nat.eqb_spec (length (List.filter (lease_is_live alive) (replicas s))) (set_len s))
    as [H1|H1].
  { split; [done|]. apply all_live_spec; [done|]. rewrite set_len_length in H1. split.
    - intros Hnil. by rewrite Hnil in H0.
    - intros r Hr. apply (proj1 (forallb_forall _ _) (filter_length_all _ _ H1)).
      by apply list_elem_of_In. }
  rewrite split_live_filter, !from_vec_new. simpl. rewrite !replicas_new.
  rewrite set_len_length in H1.
  pose proof (filter_split_perm (lease_is_live alive) (replicas s)) as Hp.
  pose proof (Permutation_length Hp) as Hlen. rewrite length_app in Hlen.
  split_and!; try (by apply new_normal); try done.
  - intros Hnil. by rewrite Hnil in H0.
  - intros Hnil. rewrite Hnil in Hlen. simpl in Hlen. lia.
  - apply all_live_spec; [apply new_normal|]. rewrite replicas_new. split.
    + intros Hnil. by rewrite Hnil in H0.
    + intros r Hr. by apply list_elem_of_In, filter_In in Hr as [_ ?].
Qed.

Lemma foldl_saturating_min {X} (f : X → N) l : ∀ a, a <= U64_MAX →
  foldl (fun t r => saturating_add t (f r)) a l = N.min (a + sum_by f l) U64_MAX.
Proof.
  induction l as [|x l IH]; intros a Ha; simpl; autorewrite with cake; [lia|].
  rewrite IH; u64.
Qed.

(** The saturating sum is the sum of the reserved bytes, cut at the width. *)
Lemma set_reserved_bytes_min s :
  set_reserved_bytes s = N.min (sum_by lease_reserved (replicas s)) U64_MAX.
Proof. unfold set_reserved_bytes. rewrite (foldl_saturating_min lease_reserved); u64. Qed.
End Replica.

Arguments ReplicaLease : clear implicits.
Arguments ReplicaSet : clear implicits.
Arguments ReplicaPartition : clear implicits.
