(* ===== verification/ObjectTypes.v ===== *)
(** * Values of the object layer

    [src/src/object/identity.rs], [content.rs], [write.rs], [config.rs],
    [reclamation.rs] and [error.rs]: identities, contents, write ownership, pin
    requests with their resolution, the catalog configuration with its
    validation, ticks, budgets, reports and errors. *)
From S2P Require Import Prelude Identity Segment.

(** ** Identities *)

Record ObjectIdentity := mkObject { namespace : N; key : string }.

#[global] Instance ObjectIdentity_eq_dec : EqDecision ObjectIdentity.
Proof. solve_decision. Defined.

#[global] Instance ObjectIdentity_countable : Countable ObjectIdentity.
Proof.
  refine (inj_countable' (fun i => (namespace i, key i)) (fun p => mkObject p.1 p.2) _).
  by intros [].
Defined.

Definition key_is_empty (i : ObjectIdentity) : bool := str_is_empty (key i).

(** ** Contents *)

Inductive ObjectKind := KvCache | Tensor | General.

#[global] Instance ObjectKind_eq_dec : EqDecision ObjectKind.
Proof. solve_decision. Defined.

Record ObjectContent := mkContent { logical_bytes : N; kind : ObjectKind }.

Definition ObjectContent_new (n : N) : ObjectContent := mkContent n KvCache.
Definition with_kind (k : ObjectKind) (c : ObjectContent) : ObjectContent :=
  mkContent (logical_bytes c) k.

(** ** Writes *)

(** [ObjectCommit]: the optional checksum of the committed bytes. *)
Record ObjectCommit := mkCommit { checksum : option N }.

#[global] Instance ObjectCommit_eq_dec : EqDecision ObjectCommit.
Proof. solve_decision. Defined.

Inductive WriteMode := Insert | Upsert.

Record WriteOwner := mkWriteOwner { wo_client : ClientId; session_generation : N }.

#[global] Instance WriteOwner_eq_dec : EqDecision WriteOwner.
Proof. solve_decision. Defined.

(** [WriteOwner::new]: generation zero marks callers outside of sessions. *)
Definition WriteOwner_new (c : ClientId) : WriteOwner := mkWriteOwner c 0.

(** ** Ticks *)

Definition tick_saturating_add (t d : N) : N := saturating_add t d.

(** ** Pins *)

Inductive SoftPinAction := Preserve | Enable | Disable.

Record ObjectPinRequest := mkPinRequest {
  soft_pin_action : SoftPinAction;
  soft_pin_ttl_ticks : option N;
  with_hard_pin : bool
}.

Record ResolvedObjectPinRequest := mkResolved {
  pin_action : SoftPinAction;
  pin_ttl_ticks : N;
  pin_hard : bool
}.

(** ** Configuration *)

Record ObjectCatalogConfig := mkCatalogConfig {
  expected_objects : N;
  lease_ttl_ticks : N;
  lease_refresh_ticks : N;
  pending_timeout_ticks : N;
  empty_slot_grace_ticks : N;
  max_retired_bytes : N;
  default_soft_pin_ttl_ticks : N;
  max_soft_pin_ttl_ticks : N;
  allow_evict_soft_pinned_objects : bool
}.

Definition DEFAULT_EXPECTED_OBJECTS : N := 64 * 1024.
Definition DEFAULT_SOFT_PIN_TTL_TICKS : N := 30 * 60 * 1000.
Definition DEFAULT_MAX_SOFT_PIN_TTL_TICKS : N := 24 * 60 * 60 * 1000.

Definition ObjectCatalogConfig_new (expected : N) : ObjectCatalogConfig :=
  mkCatalogConfig expected 10000 5000 30000 60000 (N.shiftl 1 30)
    DEFAULT_SOFT_PIN_TTL_TICKS DEFAULT_MAX_SOFT_PIN_TTL_TICKS true.

Inductive ObjectCatalogConfigError :=
| ZeroExpectedObjects
| ZeroLeaseTtl
| LeaseRefreshExceedsTtl (lease_ttl_ticks lease_refresh_ticks : N)
| ZeroPendingTimeout
| ZeroMaxRetiredBytes
| DefaultSoftPinTtlExceedsMaximum (default_ticks max_ticks : N)
| SoftPinTtlRequiresEnable
| SoftPinTtlExceedsMaximum (soft_pin_ttl_ticks max_ticks : N).

Definition config_validate (c : ObjectCatalogConfig) : res ObjectCatalogConfigError unit :=
  if expected_objects c =? 0 then Err ZeroExpectedObjects
  else if lease_ttl_ticks c =? 0 then Err ZeroLeaseTtl
  else if lease_ttl_ticks c <? lease_refresh_ticks c then
    Err (LeaseRefreshExceedsTtl (lease_ttl_ticks c) (lease_refresh_ticks c))
  else if pending_timeout_ticks c =? 0 then Err ZeroPendingTimeout
  else if max_retired_bytes c =? 0 then Err ZeroMaxRetiredBytes
  else if max_soft_pin_ttl_ticks c <? default_soft_pin_ttl_ticks c then
    Err (DefaultSoftPinTtlExceedsMaximum (default_soft_pin_ttl_ticks c)
           (max_soft_pin_ttl_ticks c))
  else Ok tt.

Definition resolve_pin_request (c : ObjectCatalogConfig) (r : ObjectPinRequest)
    : res ObjectCatalogConfigError ResolvedObjectPinRequest :=
  let? ttl :=
    match soft_pin_action r with
    | Preserve | Disable =>
        match soft_pin_ttl_ticks r with
        | Some _ => Err SoftPinTtlRequiresEnable
        | None => Ok 0
        end
    | Enable =>
        let ttl := default (default_soft_pin_ttl_ticks c) (soft_pin_ttl_ticks r) in
        if max_soft_pin_ttl_ticks c <? ttl
        then Err (SoftPinTtlExceedsMaximum ttl (max_soft_pin_ttl_ticks c))
        else Ok ttl
    end in
  Ok (mkResolved (soft_pin_action r) ttl (with_hard_pin r)).

(** ** Reclamation controls *)

Record CollectBudget := mkBudget {
  max_candidates : nat;
  max_reclaims : nat;
  max_empty_slots : nat
}.

Definition CollectBudget_default : CollectBudget := mkBudget 64 64 16.

Record CollectReport := mkReport {
  busy : bool;
  scanned_candidates : nat;
  expired_pending : nat;
  scanned_soft_pins : nat;
  expired_soft_pins : nat;
  invalidated_pending : nat;
  invalidated_published : nat;
  pruned_objects : nat;
  pruned_replicas : nat;
  pruned_replica_bytes : N;
  report_retired_objects : nat;
  report_retired_bytes : N;
  reclaimed_objects : nat;
  reclaimed_bytes : N;
  reclaimed_memory_bytes : N;
  removed_empty_slots : nat;
  scoped_retired_objects : nat;
  scoped_retired_bytes : N
}.

Definition report_default : CollectReport :=
  mkReport false 0 0 0 0 0 0 0 0 0 0 0 0 0 0 0 0 0.

#[global] Instance ReplicaClass_eq_dec : EqDecision ReplicaClass.
Proof. solve_decision. Defined.

Inductive ReclaimFilter :=
| FilterAny
| FilterClass (c : ReplicaClass)
| FilterScope (ns : N) (c : ReplicaClass).

Record ReclaimTarget := mkTarget { target_filter : ReclaimFilter; target_bytes : N }.

(** ** Errors *)

Inductive BeginError :=
| EmptyKey
| InvalidPinRequest (e : ObjectCatalogConfigError)
| AlreadyExists
| WriteInProgress
| ReclamationBacklog.

Inductive StageError :=
| CatalogDropped
| ClaimLost
| OwnerInactive
| ZeroSize
| NoReplicas
| ReplicaTooSmall (replica required_bytes capacity_bytes : N)
| ReplicaInvalidated (replica : N).

Inductive CommitError :=
| CommitForeignCatalog
| CommitTransactionGone
| NotStaged
| CommitConflict
| ReplicasInvalidated.

Inductive AbortError :=
| AbortForeignCatalog
| AbortTransactionGone
| AlreadyCommitted.

Inductive LookupError := LookupNotFound | LookupNotReady.

Inductive RemoveError :=
| RemoveNotFound
| RemoveNotReady
| Leased (expires_at : N)
| HardPinned.
