(* ===== verification/TenantRegistry.v ===== *)
(** * The tenant registry

    [src/src/object/tenant/registry.rs] and the types of
    [src/src/object/tenant/mod.rs]: tenants and their handles, registration,
    deletion, the share of the accepting capacity each tenant is granted, and
    the reclaim targets of tenants above their share.  Administration runs
    under the registry's lock, one call at a time.

    A shared entry ([Arc<TenantEntry>]) is addressed by its namespace, which no
    two entries have in common; its quota account is the account at that address
    of the accounts that the catalog charges. *)
From Stdlib Require Import Strings.String.
From stdpp Require Import sorting.
From S2P Require Import Prelude Segment ByteAllocator SegmentPool TenantQuota ObjectTypes.

Local Open Scope N_scope.

(** ** Types *)

Abbreviation TenantId := string (only parsing).
Abbreviation Accounts := (gmap N QuotaAccount).

Inductive TenantIdError := TenantIdEmpty.

Definition TenantId_new (value : string) : res TenantIdError string :=
  if String.eqb value EmptyString then Err TenantIdEmpty else Ok value.

(** [TenantQuotaLimits] and [TenantPolicy], with the one resource class there is. *)
Record TenantPolicy := mkPolicy { policy_memory_bytes : N }.

Inductive TenantConfig :=
| Single
| Multi (initial_policies : list (string * TenantPolicy)).

Inductive TenantConfigError := DuplicateTenant (id : string) | ConfigNamespaceExhausted.

Inductive TenantAdminError :=
| SingleTenantMode
| AdminTenantNotRegistered
| TenantNotEmpty
| NamespaceExhausted.

(** The errors of a handle; those of the quota and of the object manager are
    added where they arise. *)
Inductive TenantHandleError := TenantNotRegistered | InvalidTenantHandle.

Record TenantSnapshot := mkTenantSnapshot {
  ts_id : string;
  ts_namespace : N;
  ts_generation : N;
  ts_policy : TenantPolicy;
  ts_memory : TenantQuotaSnapshot
}.

(** ** Versions: a generation and a state in one word *)

Definition TENANT_REGISTERED : N := 0.
Definition TENANT_CLOSING : N := 1.
Definition TENANT_REMOVED : N := 2.
Definition TENANT_STATE_BITS : N := 2.
Definition TENANT_STATE_MASK : N := N.shiftl 1 TENANT_STATE_BITS - 1.
Definition TENANT_MAX_GENERATION : N := N.shiftr U64_MAX TENANT_STATE_BITS.

Definition tenant_version (generation state : N) : N :=
  N.lor (N.shiftl generation TENANT_STATE_BITS mod U64_MOD) state.
Definition tenant_generation (version : N) : N := N.shiftr version TENANT_STATE_BITS.
Definition tenant_state (version : N) : N := N.land version TENANT_STATE_MASK.
Definition with_tenant_state (version state : N) : N :=
  N.lor (N.ldiff version TENANT_STATE_MASK) state.

(** ** State *)

Record TenantEntry := mkTenant { te_id : string; te_namespace : N; te_version : N }.

Record ResolvedTenant := mkResolved {
  rt_manager_id : N;
  rt_namespace : N;
  rt_version : N;
  rt_entry : option N
}.

Record TenantRegistry := mkTenants {
  manager_id : N;
  single : bool;
  directory : gmap string N;
  tenant_entries : gmap N TenantEntry;
  next_namespace : N;
  capacity_generation : N;
  reclaim_state : N
}.

Definition with_entries (e : gmap N TenantEntry) (r : TenantRegistry) : TenantRegistry :=
  mkTenants (manager_id r) (single r) (directory r) e (next_namespace r) (capacity_generation r)
    (reclaim_state r).
Definition with_reclaim (s : N) (r : TenantRegistry) : TenantRegistry :=
  mkTenants (manager_id r) (single r) (directory r) (tenant_entries r) (next_namespace r)
    (capacity_generation r) s.

(** The new entry [e] at its address, listed under its id. *)
Definition add_entry (e : TenantEntry) (next : N) (r : TenantRegistry) : TenantRegistry :=
  mkTenants (manager_id r) (single r) (<[te_id e := te_namespace e]> (directory r))
    (<[te_namespace e := e]> (tenant_entries r)) next (capacity_generation r) (reclaim_state r).

Definition store_version (a v : N) (r : TenantRegistry) : TenantRegistry :=
  with_entries (alter (fun e => mkTenant (te_id e) (te_namespace e) v) a (tenant_entries r)) r.

Definition listed (r : TenantRegistry) : list (N * TenantEntry) :=
  omap (fun x => pair x.2 <$> tenant_entries r !! x.2) (map_to_list (directory r)).

(** ** Shares of the capacity *)

(** The order of tenant ids: bytes, lexicographically. *)
Definition id_le (x y : N * TenantEntry) : Prop := is_true (String.leb (te_id x.2) (te_id y.2)).

#[global] Instance id_le_dec : RelDecision id_le.
Proof. intros x y. unfold id_le, is_true. apply _. Defined.

(** The entries that take part in the distribution, in the order of their ids. *)
Definition sharing (r : TenantRegistry) : list N :=
  map fst (merge_sort id_le
    (filter (fun x => tenant_state (te_version x.2) ≠ TENANT_REMOVED) (listed r))).

Definition account_at (accs : Accounts) (a : N) : QuotaAccount := default (account_new 0) (accs !! a).

Definition set_shares (capacity : N) (addrs : list N) (accs : Accounts) : Accounts :=
  foldl (fun accs x => alter (set_effective x.2) x.1 accs) accs
    (zip addrs (distribute_effective_quota capacity (map (fun a => requested (account_at accs a)) addrs))).

Definition has_reclaim_debt (accs : Accounts) (a : N) : bool :=
  let x := account_at accs a in saturating_add (effective x) (retiring x) <? demand x.

Definition recompute_with_capacity (capacity generation : N) (r : TenantRegistry) (accs : Accounts)
    : TenantRegistry * Accounts :=
  let addrs := sharing r in
  let accs' := set_shares capacity addrs accs in
  let debt := existsb (has_reclaim_debt accs') addrs in
  (mkTenants (manager_id r) (single r) (directory r) (tenant_entries r) (next_namespace r) generation
     (N.lor (N.ldiff (wrapping_add (reclaim_state r) 2) 1) (N.b2n debt)), accs').

Section Registry.
Context {A Alloc : Type} `{U : Upstream A Alloc}.
Implicit Types (rs : list (Reservation Alloc)) (p : Pool A) (r : TenantRegistry) (accs : Accounts).

(** The capacity of the accepting segments and the epoch it was read at. *)
Definition stable_capacity rs p : N * N := (capacity_for rs p, direct_capacity_epoch p).

Definition recompute_quotas rs p r accs : TenantRegistry * Accounts :=
  let '(capacity, generation) := stable_capacity rs p in
  recompute_with_capacity capacity generation r accs.

Definition refresh_capacity rs p r accs : TenantRegistry * Accounts :=
  if single r then (r, accs)
  else if capacity_generation r =? direct_capacity_epoch p then (r, accs)
  else
    let '(capacity, generation) := stable_capacity rs p in
    if negb (capacity_generation r =? generation)
    then recompute_with_capacity capacity generation r accs
    else (r, accs).

(** ** Construction *)

Definition entry_registered (id : string) (ns state : N) : TenantEntry :=
  mkTenant id ns (tenant_version 1 state).

Fixpoint add_policies (l : list (string * TenantPolicy)) (r : TenantRegistry) (accs : Accounts)
    : res TenantConfigError (TenantRegistry * Accounts) :=
  match l with
  | [] => Ok (r, accs)
  | (id, policy) :: l' =>
      match directory r !! id with
      | Some _ => Err (DuplicateTenant id)
      | None =>
          let ns := next_namespace r in
          let? next := ok_or ConfigNamespaceExhausted (checked_add ns 1) in
          add_policies l' (add_entry (entry_registered id ns TENANT_REGISTERED) next r)
            (<[ns := account_new (policy_memory_bytes policy)]> accs)
      end
  end.

(** [mid] is the next number of the process-wide counter of managers. *)
Definition registry_new (mid : N) (config : TenantConfig) rs p
    : res TenantConfigError (TenantRegistry * Accounts) :=
  let '(one, policies) :=
    match config with Single => (true, []) | Multi policies => (false, policies) end in
  let? (r, accs) := add_policies policies (mkTenants mid one ∅ ∅ 1 U64_MAX 0) ∅ in
  Ok (refresh_capacity rs p r accs).

(** ** Handles *)

Definition resolve (id : string) r : res TenantHandleError ResolvedTenant :=
  if single r then Ok (mkResolved (manager_id r) 0 (tenant_version 0 TENANT_REGISTERED) None)
  else
    let? a := ok_or TenantNotRegistered (directory r !! id) in
    let? e := expect (tenant_entries r !! a) in
    if negb (tenant_state (te_version e) =? TENANT_REGISTERED) then Err TenantNotRegistered
    else Ok (mkResolved (manager_id r) (te_namespace e) (te_version e) (Some a)).

Definition validate_binding (t : ResolvedTenant) r : res TenantHandleError unit :=
  if negb (rt_manager_id t =? manager_id r) then Err InvalidTenantHandle else Ok tt.

Definition validate (t : ResolvedTenant) r : res TenantHandleError unit :=
  let? _ := validate_binding t r in
  match rt_entry t with
  | None => Ok tt
  | Some a =>
      let? e := expect (tenant_entries r !! a) in
      if negb (te_version e =? rt_version t) then Err InvalidTenantHandle else Ok tt
  end.

Definition account_is_empty (accs : Accounts) (a : N) : bool := demand (account_at accs a) =? 0.

(** ** Administration *)

(** The last part of [upsert]: the shares, then the version that publishes. *)
Definition publish (a : N) (version : option N) rs p r accs
    : res TenantAdminError ResolvedTenant * (TenantRegistry * Accounts) :=
  let '(r1, accs1) := recompute_quotas rs p r accs in
  let r2 := match version with Some v => store_version a v r1 | None => r1 end in
  match tenant_entries r2 !! a with
  | None => (Panic, (r2, accs1))
  | Some e => (Ok (mkResolved (manager_id r2) (te_namespace e) (te_version e) (Some a)), (r2, accs1))
  end.

Definition upsert (id : string) (policy : TenantPolicy) rs p r accs
    : res TenantAdminError ResolvedTenant * (TenantRegistry * Accounts) :=
  if single r then (Err SingleTenantMode, (r, accs))
  else match directory r !! id with
  | Some a =>
      match tenant_entries r !! a with
      | None => (Panic, (r, accs))
      | Some e =>
          let request := alter (set_requested (policy_memory_bytes policy)) a accs in
          if tenant_state (te_version e) =? TENANT_REGISTERED then publish a None rs p r request
          else if tenant_state (te_version e) =? TENANT_REMOVED then
            if negb (account_is_empty accs a) then (Err TenantNotEmpty, (r, accs))
            else match checked_add (tenant_generation (te_version e)) 1 with
            | Some generation =>
                if generation <=? TENANT_MAX_GENERATION then
                  publish a (Some (tenant_version generation TENANT_REGISTERED)) rs p
                    (store_version a (tenant_version generation TENANT_CLOSING) r) request
                else (Err NamespaceExhausted, (r, accs))
            | None => (Err NamespaceExhausted, (r, accs))
            end
          else (Err AdminTenantNotRegistered, (r, accs))
      end
  | None =>
      let ns := next_namespace r in
      match checked_add ns 1 with
      | None => (Err NamespaceExhausted, (r, accs))
      | Some next =>
          publish ns (Some (tenant_version 1 TENANT_REGISTERED)) rs p
            (add_entry (entry_registered id ns TENANT_CLOSING) next r)
            (<[ns := account_new (policy_memory_bytes policy)]> accs)
      end
  end.

(** A tenant that is not empty gets its version back. *)
Definition delete_tenant (id : string) rs p r accs
    : res TenantAdminError unit * (TenantRegistry * Accounts) :=
  if single r then (Err SingleTenantMode, (r, accs))
  else match directory r !! id with
  | None => (Err AdminTenantNotRegistered, (r, accs))
  | Some a =>
      match tenant_entries r !! a with
      | None => (Panic, (r, accs))
      | Some e =>
          let registered := te_version e in
          if negb (tenant_state registered =? TENANT_REGISTERED)
          then (Err AdminTenantNotRegistered, (r, accs))
          else
            let r1 := store_version a (with_tenant_state registered TENANT_CLOSING) r in
            if negb (account_is_empty accs a)
            then (Err TenantNotEmpty, (store_version a registered r1, accs))
            else
              let r2 := store_version a (with_tenant_state registered TENANT_REMOVED) r1 in
              (Ok tt, recompute_quotas rs p r2 (alter (set_effective 0) a accs))
      end
  end.

(** ** Reports *)

Definition entry_snapshot accs (x : N * TenantEntry) : TenantSnapshot :=
  let memory := account_snapshot (account_at accs x.1) in
  mkTenantSnapshot (te_id x.2) (te_namespace x.2) (tenant_generation (te_version x.2))
    (mkPolicy (qs_requested memory)) memory.

Definition registered (x : N * TenantEntry) : bool := tenant_state (te_version x.2) =? TENANT_REGISTERED.

Definition snapshot (id : string) r accs : option TenantSnapshot :=
  if single r then None
  else
    a ← directory r !! id;
    e ← tenant_entries r !! a;
    if registered (a, e) then Some (entry_snapshot accs (a, e)) else None.

Definition snapshots r accs : list TenantSnapshot :=
  if single r then []
  else map (entry_snapshot accs) (merge_sort id_le (filter (fun x => registered x = true) (listed r))).

(** The bytes a tenant holds above its share, those already retiring apart. *)
Definition excess (x : QuotaAccount) : N :=
  saturating_sub (saturating_sub (demand x) (retiring x)) (effective x).

Definition ns_le (x y : N * N) : Prop := x.1 <= y.1.

#[global] Instance ns_le_dec : RelDecision ns_le.
Proof. intros x y. unfold ns_le. apply _. Defined.

Definition reclaim_targets r accs : list ReclaimTarget * TenantRegistry :=
  if single r || (N.land (reclaim_state r) 1 =? 0) then ([], r)
  else
    let over := omap (fun x =>
      let bytes := excess (account_at accs x.1) in
      if registered x && (0 <? bytes) then Some (te_namespace x.2, bytes) else None) (listed r) in
    let targets := map (fun x => mkTarget (FilterScope x.1 Memory) x.2) (merge_sort ns_le over) in
    (targets, if (length targets =? 0)%nat then with_reclaim (N.ldiff (reclaim_state r) 1) r else r).
End Registry.

(** ** Versions *)

Section Versions.
Implicit Types (g s : N).

Lemma lor_low g s : s < 4 → N.lor (4 * g) s = 4 * g + s.
Proof.
  intros Hs. rewrite <- N.lxor_lor, <- N.add_nocarry_lxor; try done.
  all: apply N.bits_inj; intros n; rewrite N.land_spec, N.bits_0.
  all: change 4 with (2 ^ 2); rewrite N.mul_comm; destruct (N.lt_ge_cases n 2).
  all: try (rewrite N.mul_pow2_bits_low by done; done).
  all: apply andb_false_intro2; rewrite <- (N.mod_small s (2 ^ 2)) by done; by apply N.mod_pow2_bits_high.
Qed.

Lemma tenant_version_eq g s : g <= TENANT_MAX_GENERATION → s < 4 → tenant_version g s = 4 * g + s.
Proof.
  intros Hg Hs. unfold tenant_version, TENANT_STATE_BITS. rewrite N.shiftl_mul_pow2.
  change TENANT_MAX_GENERATION with 4611686018427387903 in Hg. change U64_MOD with 18446744073709551616.
  rewrite N.mod_small by lia. rewrite (N.mul_comm g). by apply lor_low.
Qed.

Lemma tenant_generation_eq g s : s < 4 → tenant_generation (4 * g + s) = g.
Proof.
  intros Hs. unfold tenant_generation, TENANT_STATE_BITS. rewrite N.shiftr_div_pow2.
  symmetry. apply (N.div_unique _ _ _ s); simpl; lia.
Qed.

Lemma tenant_state_eq g s : s < 4 → tenant_state (4 * g + s) = s.
Proof.
  intros Hs. unfold tenant_state. change TENANT_STATE_MASK with (N.ones 2). rewrite N.land_ones.
  symmetry. apply (N.mod_unique _ _ g); simpl; lia.
Qed.

Lemma with_tenant_state_eq g s s' : s < 4 → s' < 4 → with_tenant_state (4 * g + s) s' = 4 * g + s'.
Proof.
  intros Hs Hs'. unfold with_tenant_state. change TENANT_STATE_MASK with (N.ones 2).
  rewrite N.ldiff_ones_r, N.shiftl_mul_pow2. fold TENANT_STATE_BITS. fold (tenant_generation (4 * g + s)).
  rewrite tenant_generation_eq by done. rewrite (N.mul_comm g). by apply lor_low.
Qed.
End Versions.
