(* ===== verification/TenantSteps.v ===== *)
(** * What the tenant registry keeps

    The invariant of [TenantRegistry] and its calls: every entry is listed under
    its id at its own namespace, versions only grow, and the shares of the
    tenants add up to what the accepting capacity allows. *)
From stdpp Require Import sorting.
From S2P Require Import Prelude Segment ByteAllocator SegmentPool TenantQuota ObjectTypes TenantRegistry.

Local Open Scope N_scope.

(** ** Shares *)

Lemma spread_remainder_length n l : length (spread_remainder n l) = length l.
Proof.
  revert n. induction l as [|[q s] l IH]; intros n; simpl; [done|].
  destruct (n =? 0); [done|]. destruct (s <? q); simpl; by rewrite IH.
Qed.

Lemma distribute_length capacity reqs : length (distribute_effective_quota capacity reqs) = length reqs.
Proof.
  unfold distribute_effective_quota. destruct (_ <=? capacity); [done|].
  by rewrite length_map, spread_remainder_length, length_map.
Qed.

(** The limits of the tenants are within the capacity and within the requests. *)
Lemma distribute_limits capacity reqs :
  capacity <= U64_MAX →
  sum_by (fun e => e) (distribute_effective_quota capacity reqs) = N.min (sum_by (fun x => x) reqs) capacity ∧
  Forall2 (fun q e => e <= q) reqs (distribute_effective_quota capacity reqs).
Proof.
  intros Hc. destruct (N.le_gt_cases (sum_by (fun x => x) reqs) capacity) as [Hle|Hgt].
  - assert (distribute_effective_quota capacity reqs = reqs) as ->.
    { unfold distribute_effective_quota. rewrite foldl_add_sum, N.add_0_l.
      by destruct (N.leb_spec (sum_by (fun x => x) reqs) capacity); [|lia]. }
    split; [lia|]. clear. induction reqs; constructor; [lia|done].
  - destruct (distribute_spec capacity reqs Hc Hgt) as [Hs Hf]. split; [lia|].
    eapply Forall2_impl; [exact Hf|]. simpl. naive_solver.
Qed.

(** What of an account the distribution leaves alone. *)
Definition ledger_of (x : QuotaAccount) : N * N * N * N := (requested x, demand x, used x, retiring x).

Section Shares.
Implicit Types (accs : Accounts) (l : list (N * N)).

Definition apply_shares l accs : Accounts :=
  foldl (fun accs x => alter (set_effective x.2) x.1 accs) accs l.

Lemma apply_shares_other l : ∀ accs a, a ∉ l.*1 → apply_shares l accs !! a = accs !! a.
Proof.
  induction l as [|[b e] l IH]; intros accs a Ha; simpl; [done|].
  rewrite IH by set_solver. apply lookup_alter_ne. set_solver.
Qed.

Lemma apply_shares_in l : ∀ accs a e x,
  NoDup l.*1 → (a, e) ∈ l → accs !! a = Some x → apply_shares l accs !! a = Some (set_effective e x).
Proof.
  induction l as [|[b f] l IH]; intros accs a e x Hnd Hin Ha; [set_solver|].
  simpl in *. apply NoDup_cons in Hnd as [Hn Hnd]. apply elem_of_cons in Hin as [[= -> ->]|Hin].
  - rewrite apply_shares_other by done. by rewrite lookup_alter, decide_True, Ha.
  - apply IH; [done..|]. rewrite lookup_alter_ne; [done|].
    intros ->. apply Hn. by apply (list_elem_of_fmap_2 fst l (a, e)).
Qed.

Lemma apply_shares_kept l accs a : ledger_of <$> apply_shares l accs !! a = ledger_of <$> accs !! a.
Proof.
  revert accs. induction l as [|[b e] l IH]; intros accs; simpl; [done|].
  rewrite IH, lookup_alter. case_decide as Hab; [|done]. subst. by destruct (accs !! a).
Qed.

Lemma set_shares_kept capacity addrs accs a :
  ledger_of <$> set_shares capacity addrs accs !! a = ledger_of <$> accs !! a.
Proof. apply apply_shares_kept. Qed.

Lemma kept_dom accs accs' :
  (∀ a, ledger_of <$> accs' !! a = ledger_of <$> accs !! a) → ∀ a, is_Some (accs' !! a) ↔ is_Some (accs !! a).
Proof. intros Hk a. specialize (Hk a). destruct (accs' !! a), (accs !! a); simpl in Hk; naive_solver. Qed.

Lemma kept_requested accs accs' a :
  ledger_of <$> accs' !! a = ledger_of <$> accs !! a →
  requested (account_at accs' a) = requested (account_at accs a) ∧
  demand (account_at accs' a) = demand (account_at accs a).
Proof. unfold account_at. destruct (accs' !! a), (accs !! a); simpl; unfold ledger_of; naive_solver. Qed.

(** What the tenants use stays, and a new account is unused. *)
Definition usage (x : QuotaAccount) : N * N * N := (demand x, used x, retiring x).

Definition usage_kept accs accs' : Prop := ∀ a,
  match accs !! a with
  | Some x => usage <$> accs' !! a = Some (usage x)
  | None => ∀ x', accs' !! a = Some x' → usage x' = (0, 0, 0)
  end.

Lemma usage_refl accs : usage_kept accs accs.
Proof. intros a. by destruct (accs !! a). Qed.

Lemma usage_ledger accs accs1 accs' :
  usage_kept accs accs1 → (∀ a, ledger_of <$> accs' !! a = ledger_of <$> accs1 !! a) →
  usage_kept accs accs'.
Proof.
  intros Hu Hk a. specialize (Hu a). specialize (Hk a).
  unfold usage, ledger_of in *.
  destruct (accs !! a), (accs1 !! a), (accs' !! a); simpl in *; try congruence.
  intros x' [= <-]. specialize (Hu _ eq_refl). congruence.
Qed.

Lemma usage_alter f accs a : (∀ x, usage (f x) = usage x) → usage_kept accs (alter f a accs).
Proof.
  intros Hf b. rewrite lookup_alter. case_decide; [|apply usage_refl]. subst.
  destruct (accs !! b); simpl; [by rewrite Hf|done].
Qed.

Lemma usage_insert accs a n : accs !! a = None → usage_kept accs (<[a := account_new n]> accs).
Proof.
  intros Ha b. rewrite lookup_insert. case_decide; [|apply usage_refl]. subst. rewrite Ha.
  by intros x' [= <-].
Qed.

Lemma usage_trans accs1 accs2 accs3 :
  usage_kept accs1 accs2 → usage_kept accs2 accs3 → usage_kept accs1 accs3.
Proof.
  intros H1 H2 a. specialize (H1 a). specialize (H2 a).
  destruct (accs1 !! a), (accs2 !! a), (accs3 !! a); simpl in *; try congruence.
  - intros x' [= <-]. specialize (H1 _ eq_refl). congruence.
  - auto.
Qed.

(** The limits that [set_shares] sets. *)
Lemma set_shares_limits capacity addrs accs :
  NoDup addrs → (∀ a, a ∈ addrs → is_Some (accs !! a)) →
  map (fun a => effective (account_at (set_shares capacity addrs accs) a)) addrs =
    distribute_effective_quota capacity (map (fun a => requested (account_at accs a)) addrs).
Proof.
  intros Hnd Hin. set (shares := distribute_effective_quota _ _).
  assert (length shares = length addrs) as Hlen by (unfold shares; by rewrite distribute_length, length_map).
  assert ((zip addrs shares).*1 = addrs) as Hfst by (apply fst_zip; lia).
  apply list_eq. intros i. change (map ?f addrs) with (f <$> addrs). rewrite list_lookup_fmap.
  destruct (addrs !! i) as [a|] eqn:Hi; simpl.
  - destruct (lookup_lt_is_Some_2 shares i) as [e He].
    { rewrite Hlen. by eapply lookup_lt_Some. }
    destruct (Hin a) as [x Hx]; [by eapply list_elem_of_lookup_2|].
    rewrite He. unfold account_at, set_shares. fold shares. fold (apply_shares (zip addrs shares) accs).
    rewrite (apply_shares_in _ _ a e x); [done|by rewrite Hfst| |done].
    apply list_elem_of_lookup. exists i. apply lookup_zip_with_Some. by exists a, e.
  - symmetry. apply lookup_ge_None. rewrite Hlen. by apply lookup_ge_None.
Qed.
End Shares.

(** ** Entries *)

Record tenants_inv (r : TenantRegistry) (accs : Accounts) : Prop := {
  (** an id is listed at its entry, whose version is a generation and a state; *)
  ti_listed id a : directory r !! id = Some a →
    ∃ g s, tenant_entries r !! a = Some (mkTenant id a (4 * g + s)) ∧
      s < 3 ∧ 1 <= g ∧ g <= TENANT_MAX_GENERATION;
  (** every entry is listed and has an account, and its namespace was issued; *)
  ti_entry a e : tenant_entries r !! a = Some e →
    directory r !! te_id e = Some a ∧ is_Some (accs !! a) ∧ 0 < a < next_namespace r;
  ti_account a : is_Some (accs !! a) → is_Some (tenant_entries r !! a);
  ti_next : 0 < next_namespace r <= U64_MAX;
  ti_single : single r = true → directory r = ∅
}.

(** No tenant is between two states, as after every call. *)
Definition settled (r : TenantRegistry) : Prop :=
  ∀ a e, tenant_entries r !! a = Some e → tenant_state (te_version e) ≠ TENANT_CLOSING.

(** Registries with the same tenants. *)
Record same_tenants (r r' : TenantRegistry) : Prop := {
  sn_manager : manager_id r' = manager_id r;
  sn_single : single r' = single r;
  sn_directory : directory r' = directory r;
  sn_entries : tenant_entries r' = tenant_entries r;
  sn_next : next_namespace r' = next_namespace r
}.

(** Versions never go back. *)
Record grows (r r' : TenantRegistry) : Prop := {
  gr_manager : manager_id r' = manager_id r;
  gr_single : single r' = single r;
  gr_entries a e : tenant_entries r !! a = Some e → ∃ e', tenant_entries r' !! a = Some e' ∧
    te_id e' = te_id e ∧ te_version e <= te_version e'
}.

Section Entries.
Implicit Types (r : TenantRegistry) (accs : Accounts).

Lemma entry_shape r accs a e :
  tenants_inv r accs → tenant_entries r !! a = Some e →
  ∃ g s, e = mkTenant (te_id e) a (4 * g + s) ∧ s < 3 ∧ 1 <= g ∧ g <= TENANT_MAX_GENERATION.
Proof.
  intros Hi He. destruct (ti_entry _ _ Hi a e He) as [Hd _].
  destruct (ti_listed _ _ Hi _ _ Hd) as (g & s & He' & ?). rewrite He in He'. injection He' as ->. eauto.
Qed.

Lemma elem_of_listed r accs a e :
  tenants_inv r accs → (a, e) ∈ listed r ↔ tenant_entries r !! a = Some e.
Proof.
  intros Hi. unfold listed. rewrite list_elem_of_omap. split.
  - intros ([id b] & _ & Hx). simpl in Hx. destruct (tenant_entries r !! b) as [e'|] eqn:He; [|done].
    simpl in Hx. by injection Hx as <- <-.
  - intros He. exists (te_id e, a). simpl. rewrite He. split; [|done].
    apply elem_of_map_to_list. by apply (ti_entry _ _ Hi).
Qed.

Lemma listed_nodup r accs : tenants_inv r accs → NoDup (listed r).*1.
Proof.
  intros Hi. assert ((listed r).*1 = (map_to_list (directory r)).*2) as ->.
  { unfold listed. assert (∀ x, x ∈ map_to_list (directory r) → is_Some (tenant_entries r !! x.2)) as Hx.
    { intros [id a] Ha%elem_of_map_to_list. simpl. destruct (ti_listed _ _ Hi id a Ha) as (g & s & -> & _). eauto. }
    induction (map_to_list (directory r)) as [|x l IH]; [done|]. simpl.
    destruct (Hx x) as [e ->]; [set_solver|]. simpl. f_equal. apply IH. set_solver. }
  apply NoDup_fmap_2_strong; [|apply NoDup_map_to_list].
  intros [id a] [id' a'] Ha%elem_of_map_to_list Ha'%elem_of_map_to_list. simpl. intros ->.
  destruct (ti_listed _ _ Hi id a' Ha) as (g & s & He & _).
  destruct (ti_listed _ _ Hi id' a' Ha') as (g' & s' & He' & _). naive_solver.
Qed.

Lemma elem_of_sharing r accs a :
  tenants_inv r accs →
  a ∈ sharing r ↔ ∃ e, tenant_entries r !! a = Some e ∧ tenant_state (te_version e) ≠ TENANT_REMOVED.
Proof.
  intros Hi. unfold sharing. change (map fst ?l) with (l.*1). rewrite list_elem_of_fmap. split.
  - intros ([b e] & -> & Hx). rewrite merge_sort_Permutation, list_elem_of_filter in Hx.
    destruct Hx as [Hs Hx]. exists e. by rewrite <- (elem_of_listed r accs).
  - intros (e & He & Hs). exists (a, e). split; [done|].
    rewrite merge_sort_Permutation, list_elem_of_filter. split; [done|]. by apply (elem_of_listed r accs).
Qed.

Lemma sharing_nodup r accs : tenants_inv r accs → NoDup (sharing r).
Proof.
  intros Hi. unfold sharing. change (map fst ?l) with (l.*1). rewrite merge_sort_Permutation.
  pose proof (listed_nodup r accs Hi) as Hnd. induction (listed r) as [|x l IH]; [done|].
  apply NoDup_cons in Hnd as [Hn Hnd]. rewrite filter_cons. case_decide; simpl; [|by apply IH].
  apply NoDup_cons. split; [|by apply IH]. intros (y & Hxy & [_ Hy]%list_elem_of_filter)%list_elem_of_fmap.
  apply Hn. rewrite Hxy. by apply list_elem_of_fmap_2.
Qed.

Lemma inv_same r r' accs accs' :
  tenants_inv r accs → same_tenants r r' → (∀ a, is_Some (accs' !! a) ↔ is_Some (accs !! a)) →
  tenants_inv r' accs'.
Proof.
  intros [] [] Ha. split; rewrite ?sn_directory0, ?sn_entries0, ?sn_next0, ?sn_single0; [done| | |done|done].
  - intros a e He. destruct (ti_entry0 a e He) as (? & ? & ?). split_and!; naive_solver.
  - intros a. rewrite Ha. apply ti_account0.
Qed.

Lemma inv_store r accs a e g s :
  tenants_inv r accs → tenant_entries r !! a = Some e → s < 3 → 1 <= g → g <= TENANT_MAX_GENERATION →
  tenants_inv (store_version a (4 * g + s) r) accs.
Proof.
  intros Hi He Hs Hg Hg'. destruct (entry_shape r accs a e Hi He) as (g0 & s0 & Heq & _).
  assert (tenant_entries (store_version a (4 * g + s) r) =
    <[a := mkTenant (te_id e) a (4 * g + s)]> (tenant_entries r)) as Hst.
  { simpl. apply map_eq. intros b. rewrite lookup_alter, lookup_insert. case_decide as Hb; [|done].
    subst b. rewrite He. rewrite Heq. done. }
  split; simpl; [| | |apply Hi|apply Hi].
  - intros id b Hb. change (alter _ a (tenant_entries r)) with (tenant_entries (store_version a (4 * g + s) r)).
    rewrite Hst, lookup_insert. case_decide as Hab; [|by apply Hi]. subst b.
    destruct (ti_listed _ _ Hi id a Hb) as (g1 & s1 & He1 & _). rewrite He in He1. injection He1 as ->. eauto 10.
  - intros b f. change (alter _ a (tenant_entries r)) with (tenant_entries (store_version a (4 * g + s) r)).
    rewrite Hst, lookup_insert. case_decide as Hab; [|by apply Hi]. subst b. intros [= <-].
    by apply (ti_entry _ _ Hi a e).
  - intros b Hb. rewrite lookup_alter_is_Some. by apply (ti_account _ _ Hi).
Qed.

Lemma inv_add r accs id x s next :
  tenants_inv r accs → directory r !! id = None → single r = false → s < 3 →
  checked_add (next_namespace r) 1 = Some next →
  tenants_inv (add_entry (entry_registered id (next_namespace r) s) next r) (<[next_namespace r := x]> accs).
Proof.
  intros Hi Hid Hsi Hs Hn. unfold checked_add in Hn. destruct (N.leb_spec (next_namespace r + 1) U64_MAX); [|done].
  injection Hn as <-. pose proof (ti_next _ _ Hi) as Hnx.
  assert (tenant_entries r !! next_namespace r = None) as Hf.
  { destruct (tenant_entries r !! next_namespace r) eqn:He; [|done].
    destruct (ti_entry _ _ Hi _ _ He) as (_ & _ & ?). lia. }
  unfold entry_registered. rewrite tenant_version_eq; [|vm_compute; discriminate|lia].
  split; simpl; [| | |lia|congruence].
  - intros id' a. rewrite !lookup_insert. case_decide as Hii.
    + subst id'. intros [= <-]. rewrite decide_True by done. exists 1, s. split_and!; [done|done|lia|vm_compute; discriminate].
    + intros Ha. destruct (ti_listed _ _ Hi id' a Ha) as (g & s' & He & ?).
      rewrite decide_False by congruence. eauto 10.
  - intros a e. rewrite !lookup_insert. case_decide as Haa.
    + subst a. intros [= <-]. simpl. rewrite decide_True by done. split_and!; [done|eauto|lia|lia].
    + intros He. destruct (ti_entry _ _ Hi a e He) as (Hd & Ha & Hlt).
      rewrite decide_False by congruence. split_and!; [done|done|lia|lia].
  - intros a. rewrite !lookup_insert. case_decide; [eauto|]. apply Hi.
Qed.
End Entries.

(** ** Growth *)

Section Growth.
Implicit Types (r : TenantRegistry).

Lemma same_refl r : same_tenants r r.
Proof. by split. Qed.

Lemma same_grows r r' : same_tenants r r' → grows r r'.
Proof. intros []. split; [done..|]. rewrite sn_entries0. intros a e He. exists e. split_and!; [done..|lia]. Qed.

Lemma grows_trans r1 r2 r3 : grows r1 r2 → grows r2 r3 → grows r1 r3.
Proof.
  intros [] []. split; [congruence..|]. intros a e He.
  destruct (gr_entries0 a e He) as (e2 & He2 & ? & ?). destruct (gr_entries1 a e2 He2) as (e3 & He3 & ? & ?).
  exists e3. split_and!; [done|congruence|lia].
Qed.

Lemma grows_store r a e v :
  tenant_entries r !! a = Some e → te_version e <= v → grows r (store_version a v r).
Proof.
  intros He Hv. split; [done..|]. intros b f Hf. simpl. rewrite lookup_alter.
  case_decide as Hab; [|exists f; split_and!; [done..|lia]]. subst b. rewrite Hf. simpl.
  rewrite He in Hf. injection Hf as <-. by eexists.
Qed.

Lemma grows_add r accs e next :
  tenants_inv r accs → te_namespace e = next_namespace r → grows r (add_entry e next r).
Proof.
  intros Hi Hn. split; [done..|]. intros a f Hf. simpl. exists f.
  rewrite lookup_insert_ne; [split_and!; [done..|lia]|]. rewrite Hn.
  destruct (ti_entry _ _ Hi a f Hf) as (_ & _ & ?). lia.
Qed.
End Growth.

(** ** The calls *)

(** The limits of the tenants that share [capacity]. *)
Definition limits (capacity : N) (r : TenantRegistry) (accs : Accounts) : Prop :=
  sum_by (fun a => effective (account_at accs a)) (sharing r) =
    N.min (sum_by (fun a => requested (account_at accs a)) (sharing r)) capacity ∧
  ∀ a, a ∈ sharing r → effective (account_at accs a) <= requested (account_at accs a).

Lemma recompute_ok capacity generation r accs :
  tenants_inv r accs → capacity <= U64_MAX →
  let '(r', accs') := recompute_with_capacity capacity generation r accs in
  tenants_inv r' accs' ∧ same_tenants r r' ∧ capacity_generation r' = generation ∧
  (∀ a, ledger_of <$> accs' !! a = ledger_of <$> accs !! a) ∧ limits capacity r' accs' ∧
  (∀ a, a ∉ sharing r → accs' !! a = accs !! a).
Proof.
  intros Hi Hc. unfold recompute_with_capacity. cbv zeta.
  pose proof (set_shares_kept capacity (sharing r) accs) as Hk.
  assert (∀ a, a ∈ sharing r → is_Some (accs !! a)) as Hin.
  { intros a (e & He & _)%(elem_of_sharing r accs a Hi). by apply (ti_entry _ _ Hi a e). }
  pose proof (set_shares_limits capacity (sharing r) accs (sharing_nodup r accs Hi) Hin) as Hl.
  set (accs' := set_shares capacity (sharing r) accs) in *.
  set (r' := mkTenants _ _ _ _ _ _ _). assert (same_tenants r r') as Hs by done.
  split_and!; [eapply inv_same; [exact Hi|done|by apply kept_dom]|done|done|done| |].
  2: { intros a Ha. unfold accs', set_shares. apply apply_shares_other. rewrite fst_zip; [done|].
       rewrite distribute_length, length_map. done. }
  assert (map (fun a => requested (account_at accs a)) (sharing r) =
    map (fun a => requested (account_at accs' a)) (sharing r)) as Hreq.
  { apply map_ext. intros a. symmetry. by apply kept_requested. }
  destruct (distribute_limits capacity (map (fun a => requested (account_at accs a)) (sharing r)) Hc) as [Hsum Hf].
  rewrite <- Hl, Hreq in Hsum. rewrite <- Hl, Hreq in Hf. rewrite !sum_by_map in Hsum.
  split; [exact Hsum|]. intros a Ha. change (a ∈ sharing r) in Ha. clearbody accs'. clear -Hf Ha.
  induction (sharing r) as [|b l IH]; [set_solver|]. simpl in Hf. inversion Hf; subst.
  apply elem_of_cons in Ha as [->|Ha]; [done|by apply IH].
Qed.

Lemma limits_same capacity r r' accs accs0 accs0' :
  tenants_inv r accs0 → tenants_inv r' accs0' → (∀ a, a ∈ sharing r ↔ a ∈ sharing r') →
  limits capacity r accs → limits capacity r' accs.
Proof.
  intros Hi Hi' Hs [Hsum Hle]. assert (sharing r ≡ₚ sharing r') as Hp.
  { apply NoDup_Permutation; [by eapply sharing_nodup..|done]. }
  split; [|by intros a Ha%Hs; apply Hle].
  by rewrite <- Hp.
Qed.

Section Calls.
Context {A Alloc : Type} `{U : Upstream A Alloc}.
Implicit Types (rs : list (Reservation Alloc)) (p : Pool A) (r : TenantRegistry) (accs : Accounts).

Lemma capacity_bounded rs p : capacity_for rs p <= U64_MAX.
Proof.
  unfold capacity_for. assert (∀ acc, acc <= U64_MAX → foldl (fun acc c =>
    match pool_stats_at rs p (handle_entry c) with
    | Some s => saturating_add acc (capacity_bytes (space s))
    | None => acc
    end) acc (direct p) <= U64_MAX) as H; [|apply H; lia].
  induction (direct p) as [|c l IH]; intros acc Hacc; simpl; [done|]. apply IH.
  destruct (pool_stats_at _ _ _); [unfold saturating_add; lia|done].
Qed.

Lemma refresh_ok rs p r accs :
  tenants_inv r accs →
  let '(r', accs') := refresh_capacity rs p r accs in
  tenants_inv r' accs' ∧ same_tenants r r' ∧
  (∀ a, ledger_of <$> accs' !! a = ledger_of <$> accs !! a) ∧
  (r' = r ∧ accs' = accs ∨ limits (capacity_for rs p) r' accs').
Proof.
  intros Hi. unfold refresh_capacity. destruct (single r); [split_and!; auto using same_refl|].
  destruct (_ =? _); [split_and!; auto using same_refl|]. simpl.
  destruct (negb _); [|split_and!; auto using same_refl].
  pose proof (recompute_ok (capacity_for rs p) (direct_capacity_epoch p) r accs Hi (capacity_bounded rs p)) as Hr.
  destruct (recompute_with_capacity _ _ _ _) as [r' accs']. naive_solver.
Qed.

(** What [publish] does with an entry that is there. *)
Lemma publish_ok a version rs p r accs e v :
  tenants_inv r accs → tenant_entries r !! a = Some e → v = default (te_version e) version →
  (∃ g, v = 4 * g ∧ 1 <= g ∧ g <= TENANT_MAX_GENERATION) →
  tenant_state (te_version e) ≠ TENANT_REMOVED →
  match publish a version rs p r accs with
  | (Ok t, (r', accs')) => tenants_inv r' accs' ∧
      manager_id r' = manager_id r ∧ single r' = single r ∧
      t = mkResolved (manager_id r) a v (Some a) ∧
      tenant_entries r' = <[a := mkTenant (te_id e) a v]> (tenant_entries r) ∧
      directory r' = directory r ∧
      (∀ b, ledger_of <$> accs' !! b = ledger_of <$> accs !! b) ∧ limits (capacity_for rs p) r' accs'
  | _ => False
  end.
Proof.
  intros Hi He Hv (g & Heq & Hg & Hg') Hrem. unfold publish, recompute_quotas, stable_capacity.
  pose proof (recompute_ok (capacity_for rs p) (direct_capacity_epoch p) r accs Hi (capacity_bounded rs p)) as Hr.
  destruct (recompute_with_capacity _ _ _ _) as [r1 accs1]. destruct Hr as (Hi1 & Hsame & _ & Hk & Hlim & _).
  assert (tenant_entries r1 !! a = Some e) as He1 by (by rewrite (sn_entries _ _ Hsame)).
  destruct (entry_shape r accs a e Hi He) as (g0 & s0 & Heq0 & _).
  set (r2 := match version with Some w => store_version a w r1 | None => r1 end).
  assert (tenants_inv r2 accs1 ∧ single r2 = single r1 ∧ manager_id r2 = manager_id r1 ∧
    directory r2 = directory r1 ∧ tenant_entries r2 = <[a := mkTenant (te_id e) a v]> (tenant_entries r1))
    as (Hi2 & Hsg2 & Hm2 & Hd2 & He2).
  { unfold r2. destruct version as [w|]; simpl in Hv; subst v.
    - split_and!; [rewrite Heq, <- (N.add_0_r (4 * g)); by eapply inv_store|done|done|done|].
      simpl. apply map_eq. intros b. rewrite lookup_alter, lookup_insert. case_decide; [|done]. subst b.
      rewrite He1, Heq0. done.
    - split_and!; [done..|]. symmetry. apply insert_id.
      rewrite He1. f_equal. assert (te_namespace e = a) by (by rewrite Heq0). destruct e. simpl in *. by subst. }
  assert (tenant_entries r2 !! a = Some (mkTenant (te_id e) a v)) as -> by (by rewrite He2, lookup_insert_eq).
  simpl. rewrite Hm2, Hsg2, (sn_manager _ _ Hsame), (sn_single _ _ Hsame), He2, Hd2, (sn_entries _ _ Hsame),
    (sn_directory _ _ Hsame).
  split_and!; [done..|].
  eapply limits_same; [exact Hi1|exact Hi2| |exact Hlim].
  intros b. rewrite (elem_of_sharing r1 accs1), (elem_of_sharing r2 accs1) by done. rewrite He2.
  setoid_rewrite lookup_insert. case_decide as Hb; [|done]. subst b. rewrite He1.
  assert (tenant_state v ≠ TENANT_REMOVED) as Hv2
    by (rewrite Heq, <- (N.add_0_r (4 * g)), tenant_state_eq by done; done).
  split; intros (f & [= <-] & _); by eexists.
Qed.

(** What [upsert] answers for a limit of [m] bytes: a handle of the current
    version and the shares recomputed, or an error that changes nothing. *)
Definition upserted id m rs p r accs
    (x : res TenantAdminError ResolvedTenant * (TenantRegistry * Accounts)) : Prop :=
  match x with
  | (Ok t, (r', accs')) => tenants_inv r' accs' ∧ settled r' ∧ grows r r' ∧
      resolve id r' = Ok t ∧ validate t r' = Ok tt ∧ limits (capacity_for rs p) r' accs' ∧
      (∀ a, rt_entry t = Some a → requested (account_at accs' a) = m) ∧
      usage_kept accs accs'
  | (Err _, y) => y = (r, accs)
  | (Panic, _) => False
  end.

Lemma validate_current a e ns r :
  tenant_entries r !! a = Some e →
  validate (mkResolved (manager_id r) ns (te_version e) (Some a)) r = Ok tt.
Proof.
  intros He. unfold validate, validate_binding. simpl. rewrite N.eqb_refl. simpl.
  by rewrite He; simpl; rewrite N.eqb_refl.
Qed.

(** The entry [a], at [rx] on its way, is published for the tenant [id] of [r]. *)
Lemma upsert_publish id a version rs p r accs rx accsx ex v m :
  tenants_inv rx accsx → tenant_entries rx !! a = Some ex → te_id ex = id → directory rx !! id = Some a →
  manager_id rx = manager_id r → single rx = false → single r = false →
  v = default (te_version ex) version → (∃ g, v = 4 * g ∧ 1 <= g ∧ g <= TENANT_MAX_GENERATION) →
  tenant_state (te_version ex) ≠ TENANT_REMOVED → settled r →
  (∀ b, b ≠ a → tenant_entries rx !! b = tenant_entries r !! b) →
  (∀ e, tenant_entries r !! a = Some e → te_id e = id ∧ te_version e <= v) →
  requested (account_at accsx a) = m →
  usage_kept accs accsx →
  upserted id m rs p r accs (publish a version rs p rx accsx).
Proof.
  intros Hix Hex Hid Hdx Hmx Hsx Hsr Hv Hg Hrem Hset Hother Hold Hreq Hdem.
  pose proof (publish_ok a version rs p rx accsx ex v Hix Hex Hv Hg Hrem) as Hp.
  destruct (publish _ _ _ _ _ _) as [[t| |] [r' accs']]; [|done..].
  destruct Hp as (Hi' & Hm' & Hs' & -> & He' & Hd' & Hk & Hl). destruct Hg as (g & -> & Hg1 & Hg2).
  assert (tenant_state (4 * g) = TENANT_REGISTERED) as Hreg
    by (rewrite <- (N.add_0_r (4 * g)), tenant_state_eq by done; done).
  assert (tenant_entries r' !! a = Some (mkTenant id a (4 * g))) as Ha by (by rewrite He', lookup_insert_eq, Hid).
  split_and!; [done| | | | |done| |].
  - intros b e. rewrite He', lookup_insert. case_decide as Hab.
    + intros [= <-]. simpl. by rewrite Hreg.
    + rewrite Hother by done. apply Hset.
  - split; [congruence..|]. intros b e He. destruct (decide (b = a)) as [->|Hb].
    + destruct (Hold e He) as [Hid' Hle]. rewrite Ha. by eexists.
    + rewrite He', lookup_insert_ne, Hother by done. exists e. split_and!; [done..|lia].
  - unfold resolve. rewrite Hs', Hsx, Hd', Hdx. simpl. rewrite Ha. simpl. by rewrite Hreg, Hm'.
  - rewrite <- Hm'. exact (validate_current a _ _ r' Ha).
  - intros b [= <-]. rewrite <- Hreq. by apply kept_requested.
  - by eapply usage_ledger.
Qed.

(** A tenant with a new name gets the next namespace. *)
Lemma upsert_new_ok id policy rs p r accs :
  tenants_inv r accs → settled r → single r = false → directory r !! id = None →
  upserted id (policy_memory_bytes policy) rs p r accs (upsert id policy rs p r accs).
Proof.
  intros Hi Hset Hsr Hd. unfold upsert. rewrite Hsr, Hd.
  destruct (checked_add (next_namespace r) 1) as [next|] eqn:Hn; [|done].
  pose proof (inv_add r accs id (account_new (policy_memory_bytes policy)) TENANT_CLOSING next Hi Hd Hsr
    ltac:(done) Hn) as Hi'.
  assert (tenant_entries r !! next_namespace r = None) as Hf.
  { destruct (tenant_entries r !! next_namespace r) eqn:He; [|done].
    destruct (ti_entry _ _ Hi _ _ He) as (_ & _ & ?). lia. }
  rewrite (tenant_version_eq 1 TENANT_REGISTERED) by done.
  apply (upsert_publish id (next_namespace r) (Some (4 * 1 + TENANT_REGISTERED)) rs p r accs _ _
    (entry_registered id (next_namespace r) TENANT_CLOSING) (4 * 1 + TENANT_REGISTERED)
    (policy_memory_bytes policy) Hi'); try done; simpl.
  - by rewrite lookup_insert_eq.
  - by rewrite lookup_insert_eq.
  - by exists 1.
  - intros b Hb. by rewrite lookup_insert_ne.
  - intros e. by rewrite Hf.
  - unfold account_at. by rewrite lookup_insert_eq.
  - apply usage_insert. destruct (accs !! next_namespace r) eqn:Hx; [|done].
    destruct (ti_account _ _ Hi (next_namespace r)); [by rewrite Hx|congruence].
Qed.

Lemma upsert_ok id policy rs p r accs :
  tenants_inv r accs → settled r →
  upserted id (policy_memory_bytes policy) rs p r accs (upsert id policy rs p r accs).
Proof.
  intros Hi Hset. destruct (single r) eqn:Hsr; [unfold upsert; by rewrite Hsr|].
  destruct (directory r !! id) as [a|] eqn:Hd; [|by apply upsert_new_ok].
  unfold upsert. rewrite Hsr, Hd.
  destruct (ti_listed _ _ Hi id a Hd) as (g & s & He & Hs & Hg1 & Hg2). rewrite He. cbn [te_version].
  set (request := alter _ a accs).
  assert (tenants_inv r request) as Hir.
  { eapply inv_same; [exact Hi|apply same_refl|]. intros b. unfold request. by rewrite lookup_alter_is_Some. }
  assert (requested (account_at request a) = policy_memory_bytes policy) as Hreq.
  { destruct (ti_entry _ _ Hi a _ He) as (_ & [x Hx] & _). unfold account_at, request.
    by rewrite lookup_alter, decide_True, Hx. }
  assert (usage_kept accs request) as Hdem by (by apply usage_alter).
  rewrite tenant_state_eq by lia. destruct (N.eqb_spec s TENANT_REGISTERED) as [->|Hs0].
  - rewrite N.add_0_r in He. apply (upsert_publish id a None rs p r accs r request _ (4 * g) _ Hir He); try done.
    + eauto.
    + simpl. rewrite <- (N.add_0_r (4 * g)). by rewrite tenant_state_eq.
    + intros e. rewrite He. intros [= <-]. simpl. split; [done|lia].
  - destruct (N.eqb_spec s TENANT_REMOVED) as [->|_]; [|done].
    destruct (negb _); [done|]. rewrite tenant_generation_eq by done.
    unfold checked_add. destruct (N.leb_spec (g + 1) U64_MAX) as [_|]; [|done].
    destruct (N.leb_spec (g + 1) TENANT_MAX_GENERATION) as [Hmax|]; [|done].
    rewrite !tenant_version_eq by done. rewrite N.add_0_r.
    apply (upsert_publish id a (Some (4 * (g + 1))) rs p r accs
      (store_version a (4 * (g + 1) + TENANT_CLOSING) r) request
      (mkTenant id a (4 * (g + 1) + TENANT_CLOSING)) (4 * (g + 1)) (policy_memory_bytes policy)); try done.
    + eapply inv_store; [exact Hir|exact He|done|lia|done].
    + simpl. by rewrite lookup_alter, decide_True, He.
    + exists (g + 1). split_and!; [done|lia|done].
    + cbn [te_version]. by rewrite tenant_state_eq.
    + intros b Hb. simpl. by rewrite lookup_alter_ne.
    + intros e. rewrite He. intros [= <-]. cbn [te_id te_version]. unfold TENANT_REMOVED. split; [done|lia].
Qed.

(** Deleting: the tenant was registered and empty, and none of its handles is
    valid any more; an error changes nothing. *)
Lemma delete_ok id rs p r accs :
  tenants_inv r accs → settled r →
  match delete_tenant id rs p r accs with
  | (Ok _, (r', accs')) => tenants_inv r' accs' ∧ settled r' ∧ grows r r' ∧
      limits (capacity_for rs p) r' accs' ∧ resolve id r' = Err TenantNotRegistered ∧
      (∃ a e, directory r !! id = Some a ∧ tenant_entries r !! a = Some e ∧
         demand (account_at accs a) = 0 ∧ effective (account_at accs' a) = 0 ∧
         ∀ e', tenant_entries r' !! a = Some e' → te_version e < te_version e') ∧
      usage_kept accs accs'
  | (Err _, y) => y = (r, accs)
  | (Panic, _) => False
  end.
Proof.
  intros Hi Hset. unfold delete_tenant. destruct (single r) eqn:Hsr; [done|].
  destruct (directory r !! id) as [a|] eqn:Hd; [|done].
  destruct (ti_listed _ _ Hi id a Hd) as (g & s & He & Hs & Hg1 & Hg2). rewrite He. cbn [te_version].
  rewrite tenant_state_eq by lia. destruct (N.eqb_spec s TENANT_REGISTERED) as [->|Hs0]; [|done]. cbn [negb].
  rewrite !with_tenant_state_eq by done.
  assert (∀ v w, store_version a v (store_version a w r) = store_version a v r) as Hss.
  { intros v w. unfold store_version, with_entries. simpl. f_equal. by rewrite alter_alter_eq. }
  rewrite !Hss. unfold account_is_empty. destruct (N.eqb_spec (demand (account_at accs a)) 0) as [Hem|Hne].
  2: { simpl. f_equal. unfold store_version, with_entries. destruct r. simpl in *. f_equal.
       apply map_eq. intros b. rewrite lookup_alter. case_decide; [|done]. subst b. by rewrite He. }
  cbn [negb]. set (r2 := store_version a (4 * g + TENANT_REMOVED) r). set (accs2 := alter (set_effective 0) a accs).
  assert (tenants_inv r2 accs2) as Hi2.
  { eapply inv_same; [exact (inv_store r accs a _ g TENANT_REMOVED Hi He eq_refl Hg1 Hg2)|apply same_refl|].
    intros b. unfold accs2. apply lookup_alter_is_Some. }
  assert (∀ b, ledger_of <$> accs2 !! b = ledger_of <$> accs !! b) as Hk2.
  { intros b. unfold accs2. rewrite lookup_alter. case_decide; [|done]. subst. by destruct (accs !! b). }
  unfold recompute_quotas, stable_capacity.
  pose proof (recompute_ok (capacity_for rs p) (direct_capacity_epoch p) r2 accs2 Hi2 (capacity_bounded rs p)) as Hr.
  destruct (recompute_with_capacity _ _ r2 accs2) as [r' accs']. destruct Hr as (Hi' & Hsame & _ & Hk & Hl & Hout).
  assert (tenant_entries r2 !! a = Some (mkTenant id a (4 * g + TENANT_REMOVED))) as He2
    by (simpl; by rewrite lookup_alter, decide_True, He).
  assert (tenant_entries r' !! a = Some (mkTenant id a (4 * g + TENANT_REMOVED))) as He'
    by (by rewrite (sn_entries _ _ Hsame)).
  split_and!; [done| | |done| | |].
  - intros b e. rewrite (sn_entries _ _ Hsame). simpl. rewrite lookup_alter. case_decide; [|apply Hset]. subst b.
    rewrite He. intros [= <-]. cbn [te_version]. by rewrite tenant_state_eq.
  - eapply grows_trans; [|by apply same_grows]. eapply grows_store; [exact He|]. cbn [te_version]. unfold TENANT_REGISTERED, TENANT_REMOVED. lia.
  - unfold resolve. rewrite (sn_single _ _ Hsame), (sn_directory _ _ Hsame). simpl. rewrite Hsr, Hd. simpl.
    rewrite He'. cbn [expect res_bind te_version]. by rewrite tenant_state_eq.
  - exists a, (mkTenant id a (4 * g + TENANT_REGISTERED)). split_and!; try done.
    + unfold account_at. rewrite Hout.
      * unfold accs2. rewrite lookup_alter, decide_True by done. by destruct (accs !! a).
      * rewrite (elem_of_sharing r2 accs2) by done. rewrite He2. intros (e & [= <-] & Hn). apply Hn.
        cbn [te_version]. by rewrite tenant_state_eq.
    + rewrite He'. intros e' [= <-]. cbn [te_version]. unfold TENANT_REMOVED, TENANT_REGISTERED. lia.
  - apply (usage_ledger accs accs accs'); [apply usage_refl|]. intros b. by rewrite Hk, Hk2.
Qed.

(** A fresh registry. *)
Lemma add_policies_ok l : ∀ r accs,
  tenants_inv r accs → settled r → (l ≠ [] → single r = false) →
  match add_policies l r accs with
  | Ok (r', accs') => tenants_inv r' accs' ∧ settled r' ∧ usage_kept accs accs'
  | Err _ => True
  | Panic => False
  end.
Proof.
  induction l as [|[id policy] l IH]; intros r accs Hi Hset Hs; simpl; [auto using usage_refl|].
  destruct (directory r !! id) eqn:Hd; [done|].
  destruct (checked_add (next_namespace r) 1) as [next|] eqn:Hn; [|done]. simpl.
  specialize (Hs ltac:(done)).
  pose proof (inv_add r accs id (account_new (policy_memory_bytes policy)) TENANT_REGISTERED next Hi Hd Hs
    ltac:(done) Hn) as Hi'.
  set (r1 := add_entry _ _ _) in *. set (accs1 := <[_ := _]> accs) in *.
  assert (settled r1) as Hset1.
  { intros a e. simpl. rewrite lookup_insert. case_decide; [|apply Hset]. by intros [= <-]. }
  specialize (IH r1 accs1 Hi' Hset1 ltac:(done)).
  destruct (add_policies l r1 accs1) as [[r' accs']|e|]; [|done|done].
  destruct IH as (Hi2 & Hs2 & Hdem). split_and!; [done..|]. eapply usage_trans; [|exact Hdem].
  apply usage_insert. destruct (accs !! next_namespace r) eqn:Hx; [|done].
  destruct (ti_account _ _ Hi (next_namespace r)) as [e He]; [by rewrite Hx|].
  destruct (ti_entry _ _ Hi _ _ He) as (_ & _ & ?). lia.
Qed.

Lemma targets_ok r accs : same_tenants r (reclaim_targets r accs).2.
Proof. unfold reclaim_targets. destruct (_ || _); [done|]. simpl. by case_match. Qed.
End Calls.
