(* ===== verification/CatalogState.v ===== *)
(** * State of the object catalog

    [src/src/object/catalog.rs] and [catalog/version.rs]: slots, versions,
    transactions, access control, lifecycle counters, collector queues and the
    helpers every operation shares.  Reference-counted objects are addresses
    into two heaps, [slots] and [versions]; a weak pointer is an address whose
    upgrade is a lookup.  A slot lives while the index holds it and a version
    until the collector reclaims it.  [accounts] are the tenant accounts the
    charges point to, and [freed] the reservations handed back so far, as they
    were handed back. *)
From S2P Require Import Prelude Identity Segment TenantQuota Replica ObjectTypes.

Section State.
Context {R : Type} `{Resource R}.

(** ** Versions *)

Record AccessControl := mkAccess {
  lease_until : N;
  recent : bool;
  soft_pin_until : N;
  hard_pinned : bool
}.

Record CommittedVersion := mkCommitted {
  cv_id : N;
  cv_commit : ObjectCommit;
  cv_access : AccessControl
}.

(** [TenantQuotaCharge]: the account it was admitted on and its phase. *)
Record Charge := mkCharge { charge_entry : N; charge_phase : ChargePhase }.

(** [ObjectVersion] with its [ObjectRecord] inlined; [v_reserved] is the byte
    count cached beside the replica set. *)
Record ObjectVersion := mkVersion {
  origin : N;
  v_owner : WriteOwner;
  v_identity : ObjectIdentity;
  v_content : ObjectContent;
  v_replicas : ReplicaSet R;
  v_reserved : N;
  v_accounting : option Charge;
  v_committed : option CommittedVersion
}.

(** ** Slots *)

Inductive TransactionPhase :=
| Claimed
| Staged (p : N).

Record ActiveTransaction := mkActive {
  at_id : N;
  at_owner : WriteOwner;
  at_base : option N;
  at_pins : ResolvedObjectPinRequest;
  at_phase : TransactionPhase
}.

Record ObjectSlot := mkSlot {
  s_identity : ObjectIdentity;
  committed : option N;
  next_transaction_id : N;
  next_version_id : N;
  active : option ActiveTransaction
}.

(** ** Queues *)

Record GcCandidate := mkGc { gc_slot : N; gc_version : N }.

Record SoftPinCandidate := mkSoftPin { sp_candidate : GcCandidate; sp_deadline : N }.

Record PendingCandidate := mkPending {
  pc_slot : N;
  pc_pending : N;
  pc_transaction : N;
  pc_deadline : N
}.

Record RetiredObject := mkRetired {
  ro_version : N;
  ro_reserved : N;
  ro_reclaim_after : N
}.

Record EmptySlotCandidate := mkEmptySlot {
  es_identity : ObjectIdentity;
  es_slot : N;
  es_deadline : N
}.

Record LivenessSweep := mkSweep {
  sweep_requested : bool;
  young_remaining : nat;
  protected_remaining : nat
}.

(** ** Counters *)

Record LifecycleCounters := mkCounters {
  claims : N;
  pending_objects : N;
  published_objects : N;
  pending_bytes : N;
  live_bytes : N;
  retired_bytes : N;
  retired_memory_bytes : N
}.

Definition counters_new : LifecycleCounters := mkCounters 0 0 0 0 0 0 0.

(** [fetch_add(1)] and [fetch_sub(1)] on an object count: a [usize] cannot
    overflow by counting objects in memory, but it wraps below zero. *)
Definition inc (n : N) : N := n + 1.
Definition dec (n : N) : N := if n =? 0 then U64_MAX else n - 1.

Definition on_claim (c : LifecycleCounters) : LifecycleCounters :=
  mkCounters (inc (claims c)) (pending_objects c) (published_objects c) (pending_bytes c)
    (live_bytes c) (retired_bytes c) (retired_memory_bytes c).

Definition on_claim_dropped (c : LifecycleCounters) : LifecycleCounters :=
  mkCounters (dec (claims c)) (pending_objects c) (published_objects c) (pending_bytes c)
    (live_bytes c) (retired_bytes c) (retired_memory_bytes c).

Definition on_stage (bytes : N) (c : LifecycleCounters) : LifecycleCounters :=
  mkCounters (dec (claims c)) (inc (pending_objects c)) (published_objects c)
    (wrapping_add (pending_bytes c) bytes) (live_bytes c) (retired_bytes c)
    (retired_memory_bytes c).

Definition on_commit (bytes : N) (replaced : option N) (replaced_memory : N)
    (c : LifecycleCounters) : LifecycleCounters :=
  let live1 := wrapping_add (live_bytes c) bytes in
  let pending1 := saturating_sub (pending_bytes c) bytes in
  match replaced with
  | Some rb =>
      mkCounters (claims c) (dec (pending_objects c)) (published_objects c) pending1
        (saturating_sub live1 rb) (wrapping_add (retired_bytes c) rb)
        (wrapping_add (retired_memory_bytes c) replaced_memory)
  | None =>
      mkCounters (claims c) (dec (pending_objects c)) (inc (published_objects c)) pending1
        live1 (retired_bytes c) (retired_memory_bytes c)
  end.

Definition on_abort_pending (bytes : N) (memory : bool) (c : LifecycleCounters)
    : LifecycleCounters :=
  mkCounters (claims c) (dec (pending_objects c)) (published_objects c)
    (saturating_sub (pending_bytes c) bytes) (live_bytes c)
    (wrapping_add (retired_bytes c) bytes)
    (if memory then wrapping_add (retired_memory_bytes c) bytes
     else retired_memory_bytes c).

Definition on_retire_published (bytes : N) (memory : bool) (c : LifecycleCounters)
    : LifecycleCounters :=
  mkCounters (claims c) (pending_objects c) (dec (published_objects c)) (pending_bytes c)
    (saturating_sub (live_bytes c) bytes) (wrapping_add (retired_bytes c) bytes)
    (if memory then wrapping_add (retired_memory_bytes c) bytes
     else retired_memory_bytes c).

Definition on_prune_published (bytes : N) (c : LifecycleCounters) : LifecycleCounters :=
  mkCounters (claims c) (pending_objects c) (published_objects c) (pending_bytes c)
    (saturating_sub (live_bytes c) bytes) (retired_bytes c) (retired_memory_bytes c).

Definition counters_on_reclaim (bytes : N) (memory : bool) (c : LifecycleCounters)
    : LifecycleCounters :=
  mkCounters (claims c) (pending_objects c) (published_objects c) (pending_bytes c)
    (live_bytes c) (saturating_sub (retired_bytes c) bytes)
    (if memory then saturating_sub (retired_memory_bytes c) bytes
     else retired_memory_bytes c).

(** How reservations go back to the segment layer: a reclaim batch that is
    released together, or a replica set that is dropped. *)
Inductive Handback :=
| ReleaseBatch (batch : list R)
| DropReplicas (batch : list R).

(** ** The catalog *)

Record Catalog := mkCatalog {
  catalog_id : N;
  config : ObjectCatalogConfig;
  index : gmap ObjectIdentity N;
  slot_count : N;
  slots : gmap N ObjectSlot;
  versions : gmap N ObjectVersion;
  next_addr : N;
  lifecycle : LifecycleCounters;
  young : list GcCandidate;
  protected : list GcCandidate;
  soft_pins : list SoftPinCandidate;
  pending : list PendingCandidate;
  retired : list RetiredObject;
  empty_slots : list EmptySlotCandidate;
  reclaim_debt : N;
  liveness : LivenessSweep;
  accounts : gmap N QuotaAccount;
  freed : list Handback
}.

Definition catalog_new (cid : N) (c : ObjectCatalogConfig) : Catalog :=
  mkCatalog cid c ∅ 0 ∅ ∅ 0 counters_new [] [] [] [] [] [] 0 (mkSweep false 0 0) ∅ [].

(** [ObjectCatalog::with_config]. *)
Definition with_config (cid : N) (c : ObjectCatalogConfig)
    : res ObjectCatalogConfigError Catalog :=
  let? _ := config_validate c in Ok (catalog_new cid c).

Definition set_index (x : gmap ObjectIdentity N) (st : Catalog) : Catalog :=
  mkCatalog (catalog_id st) (config st) x (slot_count st) (slots st) (versions st)
    (next_addr st) (lifecycle st) (young st) (protected st) (soft_pins st) (pending st)
    (retired st) (empty_slots st) (reclaim_debt st) (liveness st) (accounts st)
    (freed st).
Definition set_slot_count (x : N) (st : Catalog) : Catalog :=
  mkCatalog (catalog_id st) (config st) (index st) x (slots st) (versions st)
    (next_addr st) (lifecycle st) (young st) (protected st) (soft_pins st) (pending st)
    (retired st) (empty_slots st) (reclaim_debt st) (liveness st) (accounts st)
    (freed st).
Definition set_slots (x : gmap N ObjectSlot) (st : Catalog) : Catalog :=
  mkCatalog (catalog_id st) (config st) (index st) (slot_count st) x (versions st)
    (next_addr st) (lifecycle st) (young st) (protected st) (soft_pins st) (pending st)
    (retired st) (empty_slots st) (reclaim_debt st) (liveness st) (accounts st)
    (freed st).
Definition set_versions (x : gmap N ObjectVersion) (st : Catalog) : Catalog :=
  mkCatalog (catalog_id st) (config st) (index st) (slot_count st) (slots st) x
    (next_addr st) (lifecycle st) (young st) (protected st) (soft_pins st) (pending st)
    (retired st) (empty_slots st) (reclaim_debt st) (liveness st) (accounts st)
    (freed st).
Definition set_next_addr (x : N) (st : Catalog) : Catalog :=
  mkCatalog (catalog_id st) (config st) (index st) (slot_count st) (slots st)
    (versions st) x (lifecycle st) (young st) (protected st) (soft_pins st) (pending st)
    (retired st) (empty_slots st) (reclaim_debt st) (liveness st) (accounts st)
    (freed st).
Definition set_lifecycle (x : LifecycleCounters) (st : Catalog) : Catalog :=
  mkCatalog (catalog_id st) (config st) (index st) (slot_count st) (slots st)
    (versions st) (next_addr st) x (young st) (protected st) (soft_pins st) (pending st)
    (retired st) (empty_slots st) (reclaim_debt st) (liveness st) (accounts st)
    (freed st).
Definition set_young (x : list GcCandidate) (st : Catalog) : Catalog :=
  mkCatalog (catalog_id st) (config st) (index st) (slot_count st) (slots st)
    (versions st) (next_addr st) (lifecycle st) x (protected st) (soft_pins st)
    (pending st) (retired st) (empty_slots st) (reclaim_debt st) (liveness st)
    (accounts st) (freed st).
Definition set_protected (x : list GcCandidate) (st : Catalog) : Catalog :=
  mkCatalog (catalog_id st) (config st) (index st) (slot_count st) (slots st)
    (versions st) (next_addr st) (lifecycle st) (young st) x (soft_pins st) (pending st)
    (retired st) (empty_slots st) (reclaim_debt st) (liveness st) (accounts st)
    (freed st).
Definition set_soft_pins (x : list SoftPinCandidate) (st : Catalog) : Catalog :=
  mkCatalog (catalog_id st) (config st) (index st) (slot_count st) (slots st)
    (versions st) (next_addr st) (lifecycle st) (young st) (protected st) x (pending st)
    (retired st) (empty_slots st) (reclaim_debt st) (liveness st) (accounts st)
    (freed st).
Definition set_pending (x : list PendingCandidate) (st : Catalog) : Catalog :=
  mkCatalog (catalog_id st) (config st) (index st) (slot_count st) (slots st)
    (versions st) (next_addr st) (lifecycle st) (young st) (protected st) (soft_pins st)
    x (retired st) (empty_slots st) (reclaim_debt st) (liveness st) (accounts st)
    (freed st).
Definition set_retired (x : list RetiredObject) (st : Catalog) : Catalog :=
  mkCatalog (catalog_id st) (config st) (index st) (slot_count st) (slots st)
    (versions st) (next_addr st) (lifecycle st) (young st) (protected st) (soft_pins st)
    (pending st) x (empty_slots st) (reclaim_debt st) (liveness st) (accounts st)
    (freed st).
Definition set_empty_slots (x : list EmptySlotCandidate) (st : Catalog) : Catalog :=
  mkCatalog (catalog_id st) (config st) (index st) (slot_count st) (slots st)
    (versions st) (next_addr st) (lifecycle st) (young st) (protected st) (soft_pins st)
    (pending st) (retired st) x (reclaim_debt st) (liveness st) (accounts st) (freed st).
Definition set_reclaim_debt (x : N) (st : Catalog) : Catalog :=
  mkCatalog (catalog_id st) (config st) (index st) (slot_count st) (slots st)
    (versions st) (next_addr st) (lifecycle st) (young st) (protected st) (soft_pins st)
    (pending st) (retired st) (empty_slots st) x (liveness st) (accounts st) (freed st).
Definition set_liveness (x : LivenessSweep) (st : Catalog) : Catalog :=
  mkCatalog (catalog_id st) (config st) (index st) (slot_count st) (slots st)
    (versions st) (next_addr st) (lifecycle st) (young st) (protected st) (soft_pins st)
    (pending st) (retired st) (empty_slots st) (reclaim_debt st) x (accounts st)
    (freed st).
Definition set_accounts (x : gmap N QuotaAccount) (st : Catalog) : Catalog :=
  mkCatalog (catalog_id st) (config st) (index st) (slot_count st) (slots st)
    (versions st) (next_addr st) (lifecycle st) (young st) (protected st) (soft_pins st)
    (pending st) (retired st) (empty_slots st) (reclaim_debt st) (liveness st) x
    (freed st).
Definition set_freed (x : list Handback) (st : Catalog) : Catalog :=
  mkCatalog (catalog_id st) (config st) (index st) (slot_count st) (slots st)
    (versions st) (next_addr st) (lifecycle st) (young st) (protected st) (soft_pins st)
    (pending st) (retired st) (empty_slots st) (reclaim_debt st) (liveness st)
    (accounts st) x.

Definition count (f : LifecycleCounters → LifecycleCounters) (st : Catalog) : Catalog :=
  set_lifecycle (f (lifecycle st)) st.

Definition update_slot (a : N) (f : ObjectSlot → ObjectSlot) (st : Catalog) : Catalog :=
  set_slots (alter f a (slots st)) st.

Definition update_version (v : N) (f : ObjectVersion → ObjectVersion) (st : Catalog)
    : Catalog :=
  set_versions (alter f v (versions st)) st.

Definition set_active (t : option ActiveTransaction) (s : ObjectSlot) : ObjectSlot :=
  mkSlot (s_identity s) (committed s) (next_transaction_id s) (next_version_id s) t.

Definition set_committed (v : option N) (s : ObjectSlot) : ObjectSlot :=
  mkSlot (s_identity s) v (next_transaction_id s) (next_version_id s) (active s).

Definition set_next_ids (t v : N) (s : ObjectSlot) : ObjectSlot :=
  mkSlot (s_identity s) (committed s) t v (active s).

Definition set_commit (c : option CommittedVersion) (ver : ObjectVersion) : ObjectVersion :=
  mkVersion (origin ver) (v_owner ver) (v_identity ver) (v_content ver) (v_replicas ver)
    (v_reserved ver) (v_accounting ver) c.

Definition set_accounting (c : option Charge) (ver : ObjectVersion) : ObjectVersion :=
  mkVersion (origin ver) (v_owner ver) (v_identity ver) (v_content ver) (v_replicas ver)
    (v_reserved ver) c (v_committed ver).

Definition set_replicas (s : ReplicaSet R) (bytes : N) (ver : ObjectVersion) : ObjectVersion :=
  mkVersion (origin ver) (v_owner ver) (v_identity ver) (v_content ver) s bytes
    (v_accounting ver) (v_committed ver).

(** ** Access control *)

Definition version_access (ver : ObjectVersion) : option AccessControl :=
  cv_access <$> v_committed ver.

Definition set_access (x : AccessControl) (ver : ObjectVersion) : ObjectVersion :=
  set_commit ((fun cv => mkCommitted (cv_id cv) (cv_commit cv) x) <$> v_committed ver) ver.

(** [soft_pin_until()]: zero is no pin. *)
Definition soft_pin_deadline (x : AccessControl) : option N :=
  if soft_pin_until x =? 0 then None else Some (soft_pin_until x).

Definition for_commit (base : option AccessControl) (pins : ResolvedObjectPinRequest)
    (now : N) : AccessControl :=
  let inherited := base ≫= soft_pin_deadline in
  let until :=
    match pin_action pins with
    | Preserve =>
        match inherited with
        | Some d => if now <? d then d else 0
        | None => 0
        end
    | Enable =>
        if negb (pin_ttl_ticks pins =? 0)
        then tick_saturating_add now (pin_ttl_ticks pins) else 0
    | Disable => 0
    end in
  mkAccess 0 false until
    (match base with Some x => hard_pinned x | None => false end || pin_hard pins).

(** The compare-and-swap loop of [acquire_lease] when nothing interferes. *)
Definition acquire_lease (now ttl refresh : N) (x : AccessControl) : N :=
  let refresh_at := tick_saturating_add now refresh in
  let desired := tick_saturating_add now ttl in
  if lease_until x <? refresh_at then desired else lease_until x.

Definition record_access (now ttl refresh : N) (x : AccessControl) : N * AccessControl :=
  let l := acquire_lease now ttl refresh x in
  (l, mkAccess l true (soft_pin_until x) (hard_pinned x)).

Definition clear_recent (x : AccessControl) : AccessControl :=
  mkAccess (lease_until x) false (soft_pin_until x) (hard_pinned x).

Definition is_leased (now : N) (x : AccessControl) : bool := now <? lease_until x.

Definition is_soft_pinned (now : N) (x : AccessControl) : bool :=
  match soft_pin_deadline x with Some d => now <? d | None => false end.

Definition expire_soft_pin (expected now : N) (x : AccessControl) : bool * AccessControl :=
  if (expected <=? now) && (soft_pin_until x =? expected)
  then (true, mkAccess (lease_until x) (recent x) 0 (hard_pinned x))
  else (false, x).

(** ** Replica storage *)

Inductive ReplicaPrune :=
| PruneAllLive
| PruneAllStale
| PruneMixed (stale : ReplicaSet R).

Definition prune_invalidated (alive : R → bool) (ver : ObjectVersion)
    : ReplicaPrune * ObjectVersion :=
  if all_live alive (v_replicas ver) then (PruneAllLive, ver)
  else match partition_by_liveness alive (v_replicas ver) with
  | PartAllLive cur => (PruneAllLive, set_replicas cur (v_reserved ver) ver)
  | PartAllStale cur => (PruneAllStale, set_replicas cur (v_reserved ver) ver)
  | PartMixed lv stale =>
      (PruneMixed stale,
       set_replicas lv (saturating_sub (v_reserved ver) (set_reserved_bytes stale)) ver)
  end.

(** Every replica is of the one class [Memory], so a version has a direct
    replica class exactly when it has a replica. *)
Definition direct_replica_class (s : ReplicaSet R) : option ReplicaClass :=
  match replicas s with
  | [] => None
  | _ :: _ => Some Memory
  end.

Definition is_memory (ver : ObjectVersion) : bool :=
  match direct_replica_class (v_replicas ver) with Some Memory => true | None => false end.

(** ** Tenant accounting of a record *)

(** The bytes charged for a version: the logical size of each replica. *)
Definition tenant_accounting (ver : ObjectVersion) : option (Charge * N) :=
  match v_accounting ver, direct_replica_class (v_replicas ver) with
  | Some c, Some _ =>
      match checked_mul (logical_bytes (v_content ver))
              (N.of_nat (set_len (v_replicas ver))) with
      | Some bytes => Some (c, bytes)
      | None => None
      end
  | _, _ => None
  end.

(** A transition of the charge of a version. *)
Definition charge_step (f : ChargePhase → N → QuotaAccount → ChargePhase * QuotaAccount)
    (v : N) (st : Catalog) : Catalog :=
  match versions st !! v with
  | None => st
  | Some ver =>
      match tenant_accounting ver with
      | None => st
      | Some (c, bytes) =>
          match accounts st !! charge_entry c with
          | None => st
          | Some a =>
              let '(ph, a') := f (charge_phase c) bytes a in
              set_accounts (<[charge_entry c := a']> (accounts st))
                (update_version v (set_accounting (Some (mkCharge (charge_entry c) ph))) st)
          end
      end
  end.

Definition commit_accounting : N → Catalog → Catalog :=
  charge_step (fun _ bytes a => charge_commit bytes a).
Definition abort_accounting : N → Catalog → Catalog :=
  charge_step (fun _ bytes a => charge_abort bytes a).
Definition mark_accounting_retiring : N → Catalog → Catalog :=
  charge_step (fun _ bytes a => charge_mark_retiring bytes a).
Definition release_accounting : N → Catalog → Catalog :=
  charge_step charge_release.

Definition release_pruned_accounting (ver : ObjectVersion) (stale : ReplicaSet R)
    (st : Catalog) : res unit Catalog :=
  match v_accounting ver, direct_replica_class stale with
  | Some c, Some _ =>
      let? bytes := expect (checked_mul (logical_bytes (v_content ver))
                              (N.of_nat (set_len stale))) in
      Ok (set_accounts (alter (charge_release_committed_partial bytes) (charge_entry c)
                          (accounts st)) st)
  | _, _ => Ok st
  end.

(** ** Small queue and pointer operations *)

Definition committed_points_to (s : ObjectSlot) (v : N) : bool :=
  match committed s with Some w => w =? v | None => false end.

Definition has_committed (s : ObjectSlot) : bool :=
  match committed s with Some _ => true | None => false end.

Definition lookup_slot (i : ObjectIdentity) (st : Catalog) : option N := index st !! i.

Definition request_liveness (st : Catalog) : Catalog :=
  set_liveness (mkSweep true (young_remaining (liveness st))
                  (protected_remaining (liveness st))) st.

Definition begin_if_requested (st : Catalog) : Catalog :=
  if sweep_requested (liveness st) then
    set_liveness (mkSweep false
      (Nat.max (young_remaining (liveness st)) (length (young st)))
      (Nat.max (protected_remaining (liveness st)) (length (protected st)))) st
  else st.

Definition sweep_is_incomplete (st : Catalog) : bool :=
  negb (young_remaining (liveness st) =? 0)%nat ||
  negb (protected_remaining (liveness st) =? 0)%nat.

(** [ReclaimDebt::request] and [on_reclaim]. *)
Definition request_reclaim (bytes : N) (st : Catalog) : Catalog :=
  set_reclaim_debt (N.max (reclaim_debt st) bytes) st.

Definition debt_on_reclaim (bytes : N) (st : Catalog) : Catalog :=
  set_reclaim_debt (saturating_sub (reclaim_debt st) bytes) st.

Definition enqueue_empty (a : N) (i : ObjectIdentity) (now : N) (st : Catalog) : Catalog :=
  set_empty_slots
    (empty_slots st ++
      [mkEmptySlot i a (tick_saturating_add now (empty_slot_grace_ticks (config st)))]) st.

Definition push_retired (v bytes after : N) (st : Catalog) : Catalog :=
  set_retired (retired st ++ [mkRetired v bytes after]) st.

Definition push_young (c : GcCandidate) (st : Catalog) : Catalog :=
  set_young (young st ++ [c]) st.

Definition push_soft_pin (c : SoftPinCandidate) (st : Catalog) : Catalog :=
  set_soft_pins (soft_pins st ++ [c]) st.

(** The two retirements of a version that leaves a slot. *)
Definition retire_aborted_pending (v now : N) (st : Catalog) : Catalog :=
  match versions st !! v with
  | None => st
  | Some ver =>
      push_retired v (v_reserved ver) now
        (count (on_abort_pending (v_reserved ver) (is_memory ver))
          (abort_accounting v st))
  end.

Definition retire_published (a : N) (i : ObjectIdentity) (v now : N) (st : Catalog) : Catalog :=
  match versions st !! v with
  | None => st
  | Some ver =>
      enqueue_empty a i now
        (push_retired v (v_reserved ver) now
          (count (on_retire_published (v_reserved ver) (is_memory ver))
            (mark_accounting_retiring v st)))
  end.
End State.

Arguments ObjectVersion : clear implicits.
Arguments Handback : clear implicits.
Arguments Catalog : clear implicits.
Arguments ReplicaPrune : clear implicits.
