(* ===== verification/CatalogBooks.v ===== *)
(** * The books of the tenant accounts

    What the catalog's accounting amounts to: the quota accounts, for every
    version its charge, its cost and whether it was committed, and the versions
    that are retired.  The transitions of a version's charge are operations on
    these books; they keep every account equal to what its guards and versions
    owe ([balanced]). *)
From S2P Require Import Prelude TenantQuota CatalogState.

(** A version's charge, the bytes it costs and whether it was committed. *)
Abbreviation Item := (option Charge * N * bool)%type.

Record Books := mkBooks {
  b_accounts : gmap N QuotaAccount;
  b_items : gmap N Item;
  b_retired : gset N
}.

(** ** Transitions *)

Definition b_charge (f : ChargePhase → N → QuotaAccount → ChargePhase * QuotaAccount) (v : N)
    (b : Books) : Books :=
  match b_items b !! v with
  | Some (Some c, n, k) =>
      match b_accounts b !! charge_entry c with
      | Some x =>
          let '(ph, x') := f (charge_phase c) n x in
          mkBooks (<[charge_entry c := x']> (b_accounts b))
            (<[v := (Some (mkCharge (charge_entry c) ph), n, k)]> (b_items b)) (b_retired b)
      | None => b
      end
  | _ => b
  end.

Definition b_retire (v : N) (b : Books) : Books :=
  mkBooks (b_accounts b) (b_items b) ({[v]} ∪ b_retired b).

Definition b_commit_item (v : N) (b : Books) : Books :=
  mkBooks (b_accounts b) (alter (fun i => (i.1, true)) v (b_items b)) (b_retired b).

(** A committed version loses [n] bytes of replicas. *)
Definition b_prune (v n : N) (b : Books) : Books :=
  match b_items b !! v with
  | Some (Some c, m, k) =>
      mkBooks (alter (charge_release_committed_partial n) (charge_entry c) (b_accounts b))
        (<[v := (Some c, m - n, k)]> (b_items b)) (b_retired b)
  | Some (None, m, k) => mkBooks (b_accounts b) (<[v := (None, m - n, k)]> (b_items b)) (b_retired b)
  | None => b
  end.

Definition b_delete (v : N) (b : Books) : Books :=
  mkBooks (b_accounts b) (delete v (b_items b)) (b_retired b ∖ {[v]}).

Inductive b_step : Books → Books → Prop :=
| bs_commit v c n b :
    b_items b !! v = Some (c, n, false) → v ∉ b_retired b →
    b_step b (b_charge (fun _ => charge_commit) v (b_commit_item v b))
| bs_abort v c n b :
    b_items b !! v = Some (c, n, false) → v ∉ b_retired b →
    b_step b (b_retire v (b_charge (fun _ => charge_abort) v b))
| bs_retire v c n b :
    b_items b !! v = Some (c, n, true) → v ∉ b_retired b →
    b_step b (b_retire v (b_charge (fun _ => charge_mark_retiring) v b))
| bs_prune v c n m b :
    b_items b !! v = Some (c, m, true) → v ∉ b_retired b → n <= m → b_step b (b_prune v n b)
| bs_reclaim v b : v ∈ b_retired b → b_step b (b_delete v (b_charge charge_release v b)).

(** ** Balance *)

Definition owes (f : ChargePhase * N → N) (a : N) (_ : N) (i : Item) : N :=
  match i.1.1 with
  | Some c => if decide (charge_entry c = a) then f (charge_phase c, i.1.2) else 0
  | None => 0
  end.

(** The phase of a charge follows the life of its version. *)
Definition phase_fits (retired committed : bool) (ph : ChargePhase) : Prop :=
  if retired then ph = ChargeRetiring ∨ ph = ChargeReleased
  else ph = if committed then ChargeCommitted else ChargeReserved.

(** [G a] are the bytes of the guards that are held on the account [a]. *)
Record account_ok (G : N → N) (b : Books) (a : N) (x : QuotaAccount) : Prop := {
  ao_demand : demand x = G a + msum (owes charge_demand a) (b_items b);
  ao_used : used x = msum (owes charge_used a) (b_items b);
  ao_retiring : retiring x = msum (owes charge_retiring a) (b_items b);
  ao_max : demand x <= U64_MAX
}.

Record balanced (G : N → N) (b : Books) : Prop := {
  bl_charge v c n k : b_items b !! v = Some (Some c, n, k) →
    is_Some (b_accounts b !! charge_entry c) ∧
    phase_fits (bool_decide (v ∈ b_retired b)) k (charge_phase c);
  bl_account a x : b_accounts b !! a = Some x → account_ok G b a x
}.

Lemma msum_le {A} (f g : N → A → N) (m : gmap N A) :
  (∀ k x, f k x <= g k x) → msum f m <= msum g m.
Proof. intros Hfg. unfold msum. apply sum_by_le. intros [k x]. apply Hfg. Qed.

Lemma owes_ordered a v i :
  owes charge_retiring a v i <= owes charge_used a v i ∧ owes charge_used a v i <= owes charge_demand a v i.
Proof. unfold owes. destruct i as [[[c|] n] k]; simpl; [|lia]. case_decide; [|lia]. destruct (charge_phase c); simpl; lia. Qed.

(** What the account of a charge has room for. *)
Lemma account_room G b a x v i :
  account_ok G b a x → b_items b !! v = Some i →
  owes charge_demand a v i <= demand x ∧ owes charge_used a v i <= used x ∧
  owes charge_retiring a v i <= retiring x ∧
  used x + (owes charge_demand a v i - owes charge_used a v i) <= demand x ∧
  retiring x + (owes charge_used a v i - owes charge_retiring a v i) <= used x.
Proof.
  intros [Hd Hu Hr Hm] Hv.
  rewrite (msum_delete _ _ v i Hv) in Hd. rewrite (msum_delete _ _ v i Hv) in Hu.
  rewrite (msum_delete _ _ v i Hv) in Hr.
  pose proof (msum_le (owes charge_used a) (owes charge_demand a) (delete v (b_items b))
    (fun k x => proj2 (owes_ordered a k x))).
  pose proof (msum_le (owes charge_retiring a) (owes charge_used a) (delete v (b_items b))
    (fun k x => proj1 (owes_ordered a k x))).
  destruct (owes_ordered a v i). lia.
Qed.

(** The item of one version changes from [i] to [o]. *)
Definition item_at (v : N) (o : option Item) (m : gmap N Item) : gmap N Item := partial_alter (fun _ => o) v m.

Definition owed (f : ChargePhase * N → N) (a v : N) (o : option Item) : N :=
  match o with Some i => owes f a v i | None => 0 end.

Lemma msum_item f v o (m : gmap N Item) a :
  msum (owes f a) (item_at v o m) + owed f a v (m !! v) = msum (owes f a) m + owed f a v o.
Proof.
  assert (msum (owes f a) m = owed f a v (m !! v) + msum (owes f a) (delete v m)) as ->.
  { destruct (m !! v) as [i|] eqn:Hv; simpl; [by apply msum_delete|by rewrite delete_id]. }
  assert (msum (owes f a) (item_at v o m) = owed f a v o + msum (owes f a) (delete v m)) as ->; [|lia].
  unfold item_at. destruct o as [i|]; simpl.
  - change (partial_alter _ v m) with (<[v := i]> m). rewrite <- insert_delete_eq.
    by rewrite msum_insert_new by apply lookup_delete_eq.
  - done.
Qed.

(** ** One version changes *)

(** The item of [v] changes, and no account but [a] notices. *)
Lemma balanced_move G G' b b' v o a :
  balanced G b →
  b_items b' = item_at v o (b_items b) →
  (∀ w, w ≠ v → w ∈ b_retired b' ↔ w ∈ b_retired b) →
  (∀ e x, e ≠ a → b_accounts b' !! e = Some x → b_accounts b !! e = Some x ∧ G' e = G e ∧
     ∀ f, owed f e v o = owed f e v (b_items b !! v)) →
  (∀ e, is_Some (b_accounts b !! e) → is_Some (b_accounts b' !! e)) →
  (∀ c n k, o = Some (Some c, n, k) → is_Some (b_accounts b' !! charge_entry c) ∧
     phase_fits (bool_decide (v ∈ b_retired b')) k (charge_phase c)) →
  (∀ x', b_accounts b' !! a = Some x' → ∃ x, b_accounts b !! a = Some x ∧
     demand x' + (G a + owed charge_demand a v (b_items b !! v)) = demand x + (G' a + owed charge_demand a v o) ∧
     used x' + owed charge_used a v (b_items b !! v) = used x + owed charge_used a v o ∧
     retiring x' + owed charge_retiring a v (b_items b !! v) = retiring x + owed charge_retiring a v o ∧
     demand x' <= U64_MAX) →
  balanced G' b'.
Proof.
  intros [Hch Hac] Hit Hret Hother Hdom Hnew Hmove. split.
  - intros w c n k. rewrite Hit. unfold item_at. destruct (decide (w = v)) as [->|Hw].
    + rewrite lookup_partial_alter_eq. apply Hnew.
    + rewrite lookup_partial_alter_ne by done. intros Hc. destruct (Hch w c n k Hc) as [Ha Hp].
      split; [by apply Hdom|]. by rewrite (bool_decide_ext _ _ (Hret w Hw)).
  - intros e x' Hx'. destruct (decide (e = a)) as [->|He].
    + destruct (Hmove x' Hx') as (x & Hx & Hd & Hu & Hr & Hm). destruct (Hac a x Hx) as [Ad Au Ar _].
      pose proof (fun f => msum_item f v o (b_items b) a) as Hs. rewrite <- Hit in Hs.
      pose proof (Hs charge_demand). pose proof (Hs charge_used). pose proof (Hs charge_retiring).
      split; lia.
    + destruct (Hother e x' He Hx') as (Hx & Hg & Ho). destruct (Hac e x' Hx) as [Ad Au Ar Am].
      pose proof (fun f => msum_item f v o (b_items b) e) as Hs. rewrite <- Hit in Hs.
      pose proof (Hs charge_demand). pose proof (Hs charge_used). pose proof (Hs charge_retiring).
      pose proof (Ho charge_demand). pose proof (Ho charge_used). pose proof (Ho charge_retiring).
      split; lia.
Qed.

(** A version without a charge changes. *)
Lemma free_move G b b' v n k o :
  balanced G b → b_items b !! v = Some (None, n, k) →
  (match o with Some (Some _, _, _) => False | _ => True end) →
  b_items b' = item_at v o (b_items b) → b_accounts b' = b_accounts b →
  (∀ w, w ≠ v → w ∈ b_retired b' ↔ w ∈ b_retired b) →
  balanced G b'.
Proof.
  intros Hb Hv Ho Hit Hacc Hret.
  assert (∀ f a, owed f a v o = 0 ∧ owed f a v (b_items b !! v) = 0) as Hz.
  { intros f a. rewrite Hv. by destruct o as [[[[c|] m] j]|]. }
  apply (balanced_move G G b b' v o 0); try done.
  - intros e x _. rewrite Hacc. intros Hx. split_and!; [done|done|]. intros f. by destruct (Hz f e) as [-> ->].
  - intros e. by rewrite Hacc.
  - intros c m j ->. done.
  - intros x'. rewrite Hacc. intros Hx. exists x'. split; [done|].
    destruct (Hz charge_demand 0) as [-> ->], (Hz charge_used 0) as [-> ->], (Hz charge_retiring 0) as [-> ->].
    destruct (bl_account _ _ Hb 0 x' Hx). lia.
Qed.

(** A version with the charge [c] changes, and the account of [c] with it. *)
Lemma charged_move G b b' v c n k x x' o :
  balanced G b → b_items b !! v = Some (Some c, n, k) → b_accounts b !! charge_entry c = Some x →
  b_accounts b' = <[charge_entry c := x']> (b_accounts b) →
  b_items b' = item_at v o (b_items b) →
  (∀ w, w ≠ v → w ∈ b_retired b' ↔ w ∈ b_retired b) →
  (match o with
   | Some (Some c', n', k') => charge_entry c' = charge_entry c ∧
       phase_fits (bool_decide (v ∈ b_retired b')) k' (charge_phase c')
   | Some (None, _, _) => False
   | None => True
   end) →
  let old f := f (charge_phase c, n) in
  let new f := match o with Some (Some c', n', _) => f (charge_phase c', n') | _ => 0 end in
  demand x' + old charge_demand = demand x + new charge_demand ∧
  used x' + old charge_used = used x + new charge_used ∧
  retiring x' + old charge_retiring = retiring x + new charge_retiring ∧
  demand x' <= demand x →
  balanced G b'.
Proof.
  intros Hb Hv Hx Hacc Hit Hret Ho old new (Hd & Hu & Hr & Hm).
  assert (∀ f, owed f (charge_entry c) v o = new f) as Hnew.
  { intros f. unfold new, owed, owes. destruct o as [[[[c'|] m] j]|]; simpl; [|done|done].
    destruct Ho as [-> _]. by rewrite decide_True. }
  assert (∀ f, owed f (charge_entry c) v (b_items b !! v) = old f) as Hold.
  { intros f. rewrite Hv. unfold owed, owes. simpl. by rewrite decide_True. }
  apply (balanced_move G G b b' v o (charge_entry c)); try done.
  - intros e y He. rewrite Hacc, lookup_insert_ne by done. intros Hy. split_and!; [done|done|].
    intros f. rewrite Hv. unfold owed, owes. destruct o as [[[[c'|] m] j]|]; simpl.
    + destruct Ho as [-> _]. by rewrite !decide_False by congruence.
    + done.
    + by rewrite decide_False by congruence.
  - intros e [y Hy]. rewrite Hacc, lookup_insert. destruct (decide _); by eexists.
  - intros c' m j ->. destruct Ho as [Heq Hp]. split; [|done]. rewrite Hacc, Heq, lookup_insert_eq. by eexists.
  - intros y. rewrite Hacc, lookup_insert_eq. intros [= <-]. exists x. rewrite !Hnew, !Hold.
    destruct (bl_account _ _ Hb _ x Hx). split; [done|]. lia.
Qed.

(** The charge of a version, its account and what there is room for. *)
Lemma charged_room G b v c n k :
  balanced G b → b_items b !! v = Some (Some c, n, k) →
  ∃ x, b_accounts b !! charge_entry c = Some x ∧
    phase_fits (bool_decide (v ∈ b_retired b)) k (charge_phase c) ∧ demand x <= U64_MAX ∧
    charge_demand (charge_phase c, n) <= demand x ∧ charge_used (charge_phase c, n) <= used x ∧
    charge_retiring (charge_phase c, n) <= retiring x ∧
    used x + (charge_demand (charge_phase c, n) - charge_used (charge_phase c, n)) <= demand x ∧
    retiring x + (charge_used (charge_phase c, n) - charge_retiring (charge_phase c, n)) <= used x.
Proof.
  intros Hb Hv. destruct (bl_charge _ _ Hb v c n k Hv) as [[x Hx] Hp]. exists x.
  pose proof (bl_account _ _ Hb _ x Hx) as Ha. pose proof (account_room _ _ _ _ v _ Ha Hv) as Hr.
  unfold owes in Hr. cbn [fst snd] in Hr. rewrite !decide_True in Hr by done. destruct Ha. split_and!; try done; lia.
Qed.

Lemma item_at_twice v o o' m : item_at v o (item_at v o' m) = item_at v o m.
Proof.
  apply map_eq. intros w. unfold item_at. destruct (decide (w = v)) as [->|Hw].
  - by rewrite !lookup_partial_alter_eq.
  - by rewrite !lookup_partial_alter_ne by done.
Qed.

(** Retiring a version that is not retired yet. *)
Lemma retire_balanced G b f ph v c n k :
  balanced G b → b_items b !! v = Some (c, n, k) → v ∉ b_retired b →
  ph = ChargeRetiring ∨ ph = ChargeReleased →
  (∀ q x, phase_fits false k q → demand x <= U64_MAX →
     charge_demand (q, n) <= demand x → charge_used (q, n) <= used x → charge_retiring (q, n) <= retiring x →
     used x + (charge_demand (q, n) - charge_used (q, n)) <= demand x →
     retiring x + (charge_used (q, n) - charge_retiring (q, n)) <= used x →
     ∃ x', f q n x = (ph, x') ∧ demand x' + charge_demand (q, n) = demand x + charge_demand (ph, n) ∧
       used x' + charge_used (q, n) = used x + charge_used (ph, n) ∧
       retiring x' + charge_retiring (q, n) = retiring x + charge_retiring (ph, n) ∧ demand x' <= demand x) →
  balanced G (b_retire v (b_charge f v b)).
Proof.
  intros Hb Hv Hr Hph Hf. unfold b_charge. rewrite Hv. destruct c as [c|].
  - destruct (charged_room G b v c n k Hb Hv) as (x & Hx & Hp & Hm & R1 & R2 & R3 & R4 & R5).
    rewrite bool_decide_false in Hp by done. rewrite Hx.
    destruct (Hf (charge_phase c) x) as (x' & -> & Hd & Hu & Hrt & Hle); try done.
    eapply (charged_move G b _ v c n k x x' (Some (Some (mkCharge (charge_entry c) ph), n, k))); try done; simpl.
    + set_solver.
    + split; [done|]. rewrite bool_decide_true by set_solver. done.
  - eapply (free_move G b _ v n k (Some (None, n, k))); try done; simpl.
    + unfold item_at. symmetry. rewrite <- (insert_id (b_items b) v (None, n, k)) at 2 by done. done.
    + set_solver.
Qed.

Lemma charged_mod n : n <= U64_MAX → n mod U64_MOD = n.
Proof. intros Hn. apply N.mod_small. change U64_MOD with (U64_MAX + 1). lia. Qed.

Lemma b_step_balanced G b b' : balanced G b → b_step b b' → balanced G b'.
Proof.
  intros Hb Hs. destruct Hs as [v c n b Hv Hr|v c n b Hv Hr|v c n b Hv Hr|v c n m b Hv Hr Hn|v b Hr].
  - unfold b_charge, b_commit_item. cbn [b_items b_accounts b_retired].
    rewrite lookup_alter_eq, Hv. cbn. destruct c as [c|].
    + destruct (charged_room G b v c n false Hb Hv) as (x & Hx & Hp & Hm & Hroom). rewrite Hx. cbn.
      rewrite bool_decide_false in Hp by done. simpl in Hp. rewrite Hp in Hroom. cbn in Hroom.
      eapply (charged_move G b _ v c n false x _ (Some (Some (mkCharge (charge_entry c) ChargeCommitted), n, true)));
        try done; cbn.
      * rewrite (alter_lookup_insert _ _ _ _ Hv). apply item_at_twice.
      * by rewrite bool_decide_false by done.
      * rewrite Hp. cbn. unfold wrapping_add. rewrite charged_mod by lia. lia.
    + eapply (free_move G b _ v n false (Some (None, n, true))); try done. cbn. exact (alter_lookup_insert _ _ _ _ Hv).
  - eapply (retire_balanced G b _ ChargeReleased v c n false); [done..|by right|].
    intros q x Hq Hm. simpl in Hq. subst q. cbn. intros. eexists. split; [done|]. cbn. unfold saturating_sub. lia.
  - eapply (retire_balanced G b _ ChargeRetiring v c n true); [done..|by left|].
    intros q x Hq Hm. simpl in Hq. subst q. cbn. intros. eexists. split; [done|]. cbn. unfold wrapping_add.
    rewrite charged_mod by lia. lia.
  - unfold b_prune. rewrite Hv. destruct c as [c|].
    + destruct (charged_room G b v c m true Hb Hv) as (x & Hx & Hp & Hm & Hroom).
      rewrite bool_decide_false in Hp by done. simpl in Hp. rewrite Hp in Hroom. cbn in Hroom.
      eapply (charged_move G b _ v c m true x _ (Some (Some c, m - n, true))); try done; cbn.
      * by rewrite (alter_lookup_insert _ _ _ _ Hx).
      * split; [done|]. by rewrite bool_decide_false.
      * rewrite Hp. cbn. unfold saturating_sub. lia.
    + by eapply (free_move G b _ v m true (Some (None, m - n, true))).
  - unfold b_charge, b_delete. destruct (b_items b !! v) as [[[[c|] n] k]|] eqn:Hv.
    + destruct (charged_room G b v c n k Hb Hv) as (x & Hx & Hp & Hm & Hroom). rewrite Hx.
      rewrite bool_decide_true in Hp by done.
      destruct (charge_release (charge_phase c) n x) as [ph x'] eqn:Hrel. cbn.
      eapply (charged_move G b _ v c n k x x' None); try done; cbn.
      * apply (item_at_twice v None).
      * set_solver.
      * destruct Hp as [Hp|Hp]; rewrite Hp in *; cbn in *; injection Hrel as _ <-; cbn; unfold saturating_sub; lia.
    + eapply (free_move G b _ v n k None); try done. cbn. set_solver.
    + destruct Hb as [Hch Hac]. split; cbn [b_accounts b_items b_retired].
      * intros w c n k [Hw Hc]%lookup_delete_Some. destruct (Hch w c n k Hc) as [Ha Hp]. split; [done|].
        rewrite (bool_decide_ext _ (w ∈ b_retired b)); [done|set_solver].
      * intros a x Hx. destruct (Hac a x Hx). split; cbn [b_items]; by rewrite ?delete_id.
Qed.

Lemma b_steps_balanced G b b' : balanced G b → rtc b_step b b' → balanced G b'.
Proof. intros Hb Hr. induction Hr as [|b b1 b' Hs _ IH]; [done|]. by apply IH, (b_step_balanced G b). Qed.

(** ** Guards *)

(** The bytes an admission guard adds to its account. *)
Definition hold (g : option (N * N)) (G : N → N) (a : N) : N :=
  G a + match g with Some (e, n) => if decide (e = a) then n else 0 | None => 0 end.

(** The accounts change with the guards; the versions do not. *)
Lemma guards_move G G' b accs :
  balanced G b →
  (∀ e, is_Some (b_accounts b !! e) → is_Some (accs !! e)) →
  (∀ e x', accs !! e = Some x' →
     (∃ x, b_accounts b !! e = Some x ∧ demand x' + G e = demand x + G' e ∧ used x' = used x ∧
       retiring x' = retiring x ∧ demand x' <= U64_MAX) ∨
     (b_accounts b !! e = None ∧ demand x' = 0 ∧ used x' = 0 ∧ retiring x' = 0 ∧ G' e = 0)) →
  balanced G' (mkBooks accs (b_items b) (b_retired b)).
Proof.
  intros [Hch Hac] Hdom Hmove. split; cbn [b_accounts b_items b_retired].
  - intros v c n k Hv. destruct (Hch v c n k Hv) as [Ha Hp]. split; [by apply Hdom|done].
  - intros e x' Hx'. destruct (Hmove e x' Hx') as [(x & Hx & Hd & Hu & Hr & Hm)|(Hn & Hd & Hu & Hr & Hg)].
    + destruct (Hac e x Hx). split; cbn [b_items]; lia.
    + assert (∀ f, msum (owes f e) (b_items b) = 0) as Hz.
      { intros f. apply msum_zero. intros v i Hv. unfold owes. destruct i as [[[c|] n] k]; [|done]. cbn.
        destruct (decide (charge_entry c = e)) as [<-|]; [|done].
        destruct (Hch v c n k Hv) as [[y Hy] _]. congruence. }
      split; cbn [b_items]; rewrite ?Hz, ?Hg; lia.
Qed.

Lemma guard_drop_balanced G b e n :
  balanced (hold (Some (e, n)) G) b →
  balanced G (mkBooks (alter (guard_drop n) e (b_accounts b)) (b_items b) (b_retired b)).
Proof.
  intros Hb. apply (guards_move (hold (Some (e, n)) G) G b); [done|..].
  - intros a. by rewrite lookup_alter_is_Some.
  - intros a x' Hx'. left. unfold hold. destruct (decide (e = a)) as [<-|Hne].
    + rewrite lookup_alter_eq in Hx'. destruct (b_accounts b !! e) as [x|] eqn:Hx; [|done].
      injection Hx' as <-. exists x. destruct (bl_account _ _ Hb e x Hx) as [Hd _ _ Hm].
      unfold hold in Hd. rewrite decide_True in Hd by done. cbn. unfold saturating_sub.
      split_and!; [done|lia|done|done|lia].
    + rewrite lookup_alter_ne in Hx' by done. exists x'.
      destruct (bl_account _ _ Hb a x' Hx') as [_ _ _ Hm]. split_and!; [done|lia|done|done|lia].
Qed.

(** A guard becomes the charge of a new version. *)
Lemma admit_balanced G b v g n :
  balanced (hold g G) b → b_items b !! v = None → v ∉ b_retired b →
  (∀ e m, g = Some (e, m) → is_Some (b_accounts b !! e) ∧ m = n) →
  balanced G (mkBooks (b_accounts b)
    (<[v := ((fun g => mkCharge g.1 ChargeReserved) <$> g, n, false)]> (b_items b)) (b_retired b)).
Proof.
  intros Hb Hv Hr Hg.
  apply (balanced_move (hold g G) G b _ v (Some ((fun g => mkCharge g.1 ChargeReserved) <$> g, n, false))
    (match g with Some (e, _) => e | None => 0 end)); try done.
  - intros a x Hne Hx. cbn in Hx. split; [done|]. rewrite Hv. unfold hold. cbn. destruct g as [[e m]|]; [|split; [lia|done]].
    split; [rewrite decide_False by done; lia|]. intros f. unfold owes. cbn. by rewrite decide_False.
  - intros c m k Heq. destruct g as [[e q]|]; [|done]. injection Heq as <- _ <-. cbn.
    rewrite bool_decide_false by done. split; [by apply (Hg e q)|done].
  - intros x Hx. cbn in Hx. exists x. split; [done|]. destruct (bl_account _ _ Hb _ x Hx) as [_ _ _ Hm].
    rewrite Hv. unfold hold. destruct g as [[e m]|]; cbn; [|lia]. destruct (Hg e m eq_refl) as [_ ->].
    unfold owes. cbn. rewrite !decide_True by done. cbn. lia.
Qed.

(** ** What the books leave *)

(** The limits of an account. *)
Definition policy_of (x : QuotaAccount) : N * N := (requested x, effective x).

Definition same_policies (m m' : gmap N QuotaAccount) : Prop :=
  ∀ e, policy_of <$> m' !! e = policy_of <$> m !! e.

#[global] Instance same_policies_pre : PreOrder same_policies.
Proof. split; [by intros m e|]. intros m1 m2 m3 H1 H2 e. by rewrite H2. Qed.

Lemma same_policies_dom m m' e : same_policies m m' → is_Some (m' !! e) ↔ is_Some (m !! e).
Proof. intros H. specialize (H e). rewrite <- !(fmap_is_Some policy_of). by rewrite H. Qed.

Lemma same_policies_insert (m : gmap N QuotaAccount) e x x' :
  m !! e = Some x → policy_of x' = policy_of x → same_policies m (<[e := x']> m).
Proof.
  intros Hx Hp a. rewrite lookup_insert. case_decide; [|done]. subst a. rewrite Hx. simpl. by rewrite Hp.
Qed.

Lemma same_policies_alter (m : gmap N QuotaAccount) e f :
  (∀ x, policy_of (f x) = policy_of x) → same_policies m (alter f e m).
Proof.
  intros Hf a. rewrite lookup_alter. case_decide; [|done]. subst a. destruct (m !! e); [|done].
  simpl. by rewrite Hf.
Qed.

Lemma b_charge_policies f v b :
  (∀ ph n x, policy_of (f ph n x).2 = policy_of x) →
  same_policies (b_accounts b) (b_accounts (b_charge f v b)).
Proof.
  intros Hf. unfold b_charge. destruct (b_items b !! v) as [[[[c|] n] k]|]; [|done..].
  destruct (b_accounts b !! charge_entry c) as [x|] eqn:Hx; [|done].
  pose proof (Hf (charge_phase c) n x) as Hp. destruct (f _ _ _) as [ph x'].
  by apply (same_policies_insert _ _ x).
Qed.

Lemma b_step_policies b b' : b_step b b' → same_policies (b_accounts b) (b_accounts b').
Proof.
  destruct 1 as [v c n b _ _|v c n b _ _|v c n b _ _|v c n m b Hv _ _|v b _].
  - by apply (b_charge_policies (fun _ => charge_commit) v (b_commit_item v b)).
  - by apply (b_charge_policies (fun _ => charge_abort)).
  - by apply (b_charge_policies (fun _ => charge_mark_retiring)).
  - unfold b_prune. rewrite Hv. destruct c as [c|]; [|done]. by apply same_policies_alter.
  - apply b_charge_policies. by intros [].
Qed.

Lemma b_steps_policies b b' : rtc b_step b b' → same_policies (b_accounts b) (b_accounts b').
Proof. induction 1; [done|]. etrans; [by apply b_step_policies|done]. Qed.

Lemma balanced_ext G G' b : (∀ a, G a = G' a) → balanced G b → balanced G' b.
Proof.
  intros He [Hch Hac]. split; [done|]. intros a x Hx. destruct (Hac a x Hx). split; [|done..].
  by rewrite <- He.
Qed.
