(* ===== verification/CatalogWrite.v ===== *)
(** * Reads and write transactions of the object catalog

    [src/src/object/catalog/write.rs] and [catalog/read.rs].  Every operation
    is one step: the slot mutex and the stage gate serialise the writers, and
    the compare-and-retry loops are taken where nothing interferes. *)
From S2P Require Import Prelude Identity Segment TenantQuota Replica ObjectTypes CatalogState.

Section Write.
Context {R : Type} `{Resource R}.

(** ** Handles of the callers *)

Record WriteClaim := mkClaim {
  wc_slot : N;
  wc_identity : ObjectIdentity;
  wc_id : N;
  wc_owner : WriteOwner;
  wc_started_at : N
}.

(** [tx_catalog] is the catalog the transaction belongs to, [None] once that
    catalog is dropped. *)
Record WriteTransaction := mkTx {
  tx_catalog : option N;
  tx_slot : N;
  tx_pending : N;
  tx_id : N
}.

(** ** Begin *)

Definition begin_write_resolved (i : ObjectIdentity) (o : WriteOwner) (mode : WriteMode)
    (pins : ResolvedObjectPinRequest) (now : N) (st : Catalog R)
    : res BeginError WriteClaim * Catalog R :=
  if key_is_empty i then (Err EmptyKey, st)
  else if max_retired_bytes (config st) <=? retired_bytes (lifecycle st)
  then (Err ReclamationBacklog, st)
  else match lookup_slot i st with
  | None =>
      let a := next_addr st in
      let slot := mkSlot i None 2 1 (Some (mkActive 1 o None pins Claimed)) in
      (Ok (mkClaim a i 1 o now),
       count on_claim
         (set_slot_count (inc (slot_count st))
           (set_index (<[i := a]> (index st))
             (set_slots (<[a := slot]> (slots st))
               (set_next_addr (a + 1) st)))))
  | Some a =>
      match slots st !! a with
      | None => (Panic, st)
      | Some s =>
          match active s with
          | Some _ => (Err WriteInProgress, st)
          | None =>
              match mode, committed s with
              | Insert, Some _ => (Err AlreadyExists, st)
              | _, base =>
                  let id := next_transaction_id s in
                  match checked_add id 1 with
                  | None => (Panic, st)
                  | Some next =>
                      (Ok (mkClaim a (s_identity s) id o now),
                       count on_claim
                         (update_slot a (fun s =>
                            set_active (Some (mkActive id o base pins Claimed))
                              (set_next_ids next (next_version_id s) s)) st))
                  end
              end
          end
      end
  end.

Definition begin_write (i : ObjectIdentity) (o : WriteOwner) (mode : WriteMode)
    (pins : ObjectPinRequest) (now : N) (st : Catalog R)
    : res BeginError WriteClaim * Catalog R :=
  match resolve_pin_request (config st) pins with
  | Ok p => begin_write_resolved i o mode p now st
  | Err e => (Err (InvalidPinRequest e), st)
  | Panic => (Panic, st)
  end.

(** ** Stage *)

Fixpoint validate_replicas (alive : R → bool) (required : N) (undersized : option (N * N))
    (l : list (ReplicaLease R)) : res StageError unit :=
  match l with
  | [] =>
      match undersized with
      | Some (r, cap) => Err (ReplicaTooSmall r required cap)
      | None => Ok tt
      end
  | r :: l' =>
      if negb (lease_is_live alive r) then Err (ReplicaInvalidated (lease_id r))
      else validate_replicas alive required
             (match undersized with
              | Some u => Some u
              | None => if lease_capacity r <? required
                        then Some (lease_id r, lease_capacity r) else None
              end) l'
  end.

Definition validate_stage_replicas (alive : R → bool) (s : ReplicaSet R) (required : N)
    : res StageError unit :=
  if set_is_empty s then Err NoReplicas
  else validate_replicas alive required None (replicas s).

(** Whether the base of a transaction has lost every replica. *)
Definition base_is_invalid (alive : R → bool) (t : ActiveTransaction) (st : Catalog R) : bool :=
  match at_base t with
  | Some b =>
      match versions st !! b with
      | Some ver => negb (has_live alive (v_replicas ver))
      | None => false
      end
  | None => false
  end.

(** What follows the end of a transaction: an empty slot is queued, and a dead
    base asks for a sweep. *)
Definition after_transaction (a : N) (s : ObjectSlot) (invalid : bool) (now : N)
    (st : Catalog R) : Catalog R :=
  let st1 := if has_committed s then st else enqueue_empty a (s_identity s) now st in
  if invalid then request_liveness st1 else st1.

(** [Drop] of an armed [WriteClaim]. *)
Definition claim_drop (alive : R → bool) (c : WriteClaim) (st : Catalog R) : Catalog R :=
  match slots st !! wc_slot c with
  | None => st
  | Some s =>
      match active s with
      | Some t =>
          match at_phase t with
          | Claimed =>
              if at_id t =? wc_id c then
                after_transaction (wc_slot c) s (base_is_invalid alive t st)
                  (wc_started_at c)
                  (count on_claim_dropped (update_slot (wc_slot c) (set_active None) st))
              else st
          | Staged _ => st
          end
      | None => st
      end
  end.

(** Replicas that are dropped without entering the catalog. *)
Definition free_replicas (s : ReplicaSet R) (st : Catalog R) : Catalog R :=
  set_freed (freed st ++ [DropReplicas (map lease_reservation (replicas s))]) st.

(** An admission guard: the account and the bytes it holds. *)
Definition guard_release (g : option (N * N)) (st : Catalog R) : Catalog R :=
  match g with
  | Some (e, bytes) => set_accounts (alter (guard_drop bytes) e (accounts st)) st
  | None => st
  end.

(** ** Abort *)

Definition abort_staged (alive : R → bool) (a : N) (s : ObjectSlot) (t : ActiveTransaction)
    (p now : N) (st : Catalog R) : Catalog R :=
  let invalid := base_is_invalid alive t st in
  after_transaction a s invalid now
    (retire_aborted_pending p now (update_slot a (set_active None) st)).

Definition abort (alive : R → bool) (tx : WriteTransaction) (now : N) (st : Catalog R)
    : res AbortError unit * Catalog R :=
  match tx_catalog tx with
  | None => (Err AbortTransactionGone, st)
  | Some k =>
      if negb (k =? catalog_id st) then (Err AbortForeignCatalog, st)
      else match slots st !! tx_slot tx with
      | None => (Err AbortTransactionGone, st)
      | Some s =>
          match active s with
          | None =>
              match committed s ≫= fun v => versions st !! v with
              | Some ver =>
                  if origin ver =? tx_id tx then (Err AlreadyCommitted, st)
                  else (Err AbortTransactionGone, st)
              | None => (Err AbortTransactionGone, st)
              end
          | Some t =>
              if negb (at_id t =? tx_id tx) then (Err AbortTransactionGone, st)
              else match at_phase t with
              | Claimed => (Err AbortTransactionGone, st)
              | Staged p =>
                  if negb (p =? tx_pending tx) then (Err AbortTransactionGone, st)
                  else (Ok tt, abort_staged alive (tx_slot tx) s t p now st)
              end
          end
      end
  end.

(** The early returns of [stage_inner], where the claim, the replicas and the
    admission guard are all dropped. *)
Definition stage_fail (alive : R → bool) (c : WriteClaim) (rs : ReplicaSet R)
    (g : option (N * N)) (st : Catalog R) : Catalog R :=
  claim_drop alive c (free_replicas rs (guard_release g st)).

(** The pending version of a claim; the guard becomes its charge. *)
Definition staged_version (c : WriteClaim) (content : ObjectContent) (rs : ReplicaSet R)
    (g : option (N * N)) : ObjectVersion R :=
  mkVersion (wc_id c) (wc_owner c) (wc_identity c) content rs (set_reserved_bytes rs)
    ((fun g => mkCharge g.1 ChargeReserved) <$> g) None.

(** [ClaimLost] after the guard became a charge: the unpublished record is
    dropped, which releases the charge from its reserved phase. *)
Definition stage_lost (alive : R → bool) (c : WriteClaim) (content : ObjectContent)
    (rs : ReplicaSet R) (g : option (N * N)) (st : Catalog R) : Catalog R :=
  let st1 :=
    match tenant_accounting (staged_version c content rs g) with
    | Some (ch, bytes) =>
        set_accounts (alter (fun a => (charge_release ChargeReserved bytes a).2)
                        (charge_entry ch) (accounts st)) st
    | None => st
    end in
  claim_drop alive c (free_replicas rs st1).

(** The claimed transaction becomes staged on a fresh version. *)
Definition stage_publish (c : WriteClaim) (ver : ObjectVersion R) (t : ActiveTransaction)
    (st : Catalog R) : Catalog R :=
  let p := next_addr st in
  let deadline := tick_saturating_add (wc_started_at c) (pending_timeout_ticks (config st)) in
  set_pending (pending st ++ [mkPending (wc_slot c) p (wc_id c) deadline])
    (count (on_stage (v_reserved ver))
      (update_slot (wc_slot c)
         (set_active (Some (mkActive (at_id t) (at_owner t) (at_base t) (at_pins t) (Staged p))))
        (set_versions (<[p := ver]> (versions st)) (set_next_addr (p + 1) st)))).

Definition stage_inner (alive : R → bool) (active_before active_after : bool)
    (c : WriteClaim) (content : ObjectContent) (rs : ReplicaSet R) (g : option (N * N))
    (st : Catalog R) : res StageError WriteTransaction * Catalog R :=
  if negb active_before then (Err OwnerInactive, stage_fail alive c rs g st)
  else if logical_bytes content =? 0 then (Err ZeroSize, stage_fail alive c rs g st)
  else match validate_stage_replicas alive rs (logical_bytes content) with
  | Err e => (Err e, stage_fail alive c rs g st)
  | Panic => (Panic, st)
  | Ok _ =>
      match slots st !! wc_slot c with
      | None => (Err ClaimLost, stage_fail alive c rs g st)
      | Some s =>
          match active s with
          | None => (Err ClaimLost, stage_lost alive c content rs g st)
          | Some t =>
              if negb (at_id t =? wc_id c) || negb (bool_decide (at_owner t = wc_owner c)) ||
                 match at_phase t with Claimed => false | Staged _ => true end
              then (Err ClaimLost, stage_lost alive c content rs g st)
              else
                let tx := mkTx (Some (catalog_id st)) (wc_slot c) (next_addr st) (wc_id c) in
                let st1 := stage_publish c (staged_version c content rs g) t st in
                if active_after then (Ok tx, st1)
                else (Err OwnerInactive, (abort alive tx (wc_started_at c) st1).2)
          end
      end
  end.

(** ** Commit *)

(** The end of a commit, once it can no longer fail. *)
Definition commit_publish (alive : R → bool) (a : N) (t : ActiveTransaction) (p : N)
    (ver : ObjectVersion R) (base : option (ObjectVersion R))
    (cv : CommittedVersion) (next_version : N) (st : Catalog R) : Catalog R :=
  let st1 := commit_accounting p (update_version p (set_commit (Some cv)) st) in
  let st2 :=
    update_slot a (fun s => set_active None (set_committed (Some p)
                     (set_next_ids (next_transaction_id s) next_version s))) st1 in
  let replaced_memory :=
    match base with
    | Some old => if is_memory old then v_reserved old else 0
    | None => 0
    end in
  let st3 := count (on_commit (v_reserved ver) (v_reserved <$> base) replaced_memory) st2 in
  let st4 := push_young (mkGc a p) st3 in
  let st5 :=
    match soft_pin_deadline (cv_access cv) with
    | Some d => push_soft_pin (mkSoftPin (mkGc a p) d) st4
    | None => st4
    end in
  let st6 :=
    match at_base t, base with
    | Some b, Some old =>
        push_retired b (v_reserved old)
          (match version_access old with Some x => lease_until x | None => 0 end)
          (mark_accounting_retiring b st5)
    | _, _ => st5
    end in
  if all_live alive (v_replicas ver) then st6 else request_liveness st6.

Definition base_matches (s : ObjectSlot) (t : ActiveTransaction) : bool :=
  match at_base t with
  | Some b => committed_points_to s b
  | None => negb (has_committed s)
  end.

(** [alive] answers the liveness check before the publication and
    [alive_after] the one that follows it. *)
Definition commit (alive alive_after : R → bool) (tx : WriteTransaction) (c : ObjectCommit)
    (now : N) (st : Catalog R) : res CommitError N * Catalog R :=
  match tx_catalog tx with
  | None => (Err CommitTransactionGone, st)
  | Some k =>
      if negb (k =? catalog_id st) then (Err CommitForeignCatalog, st)
      else match slots st !! tx_slot tx with
      | None => (Err CommitTransactionGone, st)
      | Some s =>
          match active s with
          | None =>
              match committed s with
              | None => (Err CommitTransactionGone, st)
              | Some v =>
                  match versions st !! v with
                  | None => (Panic, st)
                  | Some ver =>
                      if negb (origin ver =? tx_id tx) then (Err CommitTransactionGone, st)
                      else match v_committed ver with
                      | None => (Panic, st)
                      | Some cv =>
                          if bool_decide (cv_commit cv = c) then (Ok v, st)
                          else (Err CommitConflict, st)
                      end
                  end
              end
          | Some t =>
              if negb (at_id t =? tx_id tx) then (Err CommitTransactionGone, st)
              else match at_phase t with
              | Claimed => (Err NotStaged, st)
              | Staged p =>
                  if negb (p =? tx_pending tx) then (Err CommitTransactionGone, st)
                  else match versions st !! p with
                  | None => (Panic, st)
                  | Some ver =>
                      if negb (all_live alive (v_replicas ver))
                      then (Err ReplicasInvalidated, st)
                      else if negb (base_matches s t) then (Err CommitTransactionGone, st)
                      else
                        let base := at_base t ≫= fun b => versions st !! b in
                        match base, base ≫= version_access with
                        | Some _, None => (Panic, st)
                        | _, x =>
                            match checked_add (next_version_id s) 1, v_committed ver with
                            | Some next, None =>
                                let cv := mkCommitted (next_version_id s) c
                                            (for_commit x (at_pins t) now) in
                                (Ok p, commit_publish alive_after (tx_slot tx) t p ver base
                                         cv next st)
                            | _, _ => (Panic, st)
                            end
                        end
                  end
              end
          end
      end
  end.

Inductive WriteResolution :=
| WriteActive (tx : WriteTransaction)
| WriteCommitted (v : N).

Definition resolve_write (i : ObjectIdentity) (st : Catalog R) : res LookupError WriteResolution :=
  match lookup_slot i st with
  | None => Err LookupNotFound
  | Some a =>
      match slots st !! a with
      | None => Panic
      | Some s =>
          match active s with
          | Some t =>
              match at_phase t with
              | Claimed => Err LookupNotReady
              | Staged p => Ok (WriteActive (mkTx (Some (catalog_id st)) a p (at_id t)))
              end
          | None => ok_or LookupNotFound (WriteCommitted <$> committed s)
          end
      end
  end.

(** ** Reads *)

(** The version that was read and the end of its lease. *)
Record ObjectRead := mkRead { read_version : N; lease_expires_at : N }.

Definition get (alive : R → bool) (i : ObjectIdentity) (now : N) (st : Catalog R)
    : res LookupError ObjectRead * Catalog R :=
  match lookup_slot i st with
  | None => (Err LookupNotFound, st)
  | Some a =>
      match slots st !! a with
      | None => (Panic, st)
      | Some s =>
          match committed s with
          | None =>
              (Err (match active s with Some _ => LookupNotReady | None => LookupNotFound end), st)
          | Some v =>
              match versions st !! v with
              | None => (Panic, st)
              | Some ver =>
                  match version_access ver with
                  | None => (Panic, st)
                  | Some x =>
                      let '(l, x') := record_access now (lease_ttl_ticks (config st))
                                        (lease_refresh_ticks (config st)) x in
                      let st' := update_version v (set_access x') st in
                      if has_live alive (v_replicas ver) then (Ok (mkRead v l), st')
                      else (Err LookupNotFound, st')
                  end
              end
          end
      end
  end.

Fixpoint get_batch (alive : R → bool) (l : list ObjectIdentity) (now : N) (st : Catalog R)
    : list (res LookupError ObjectRead) * Catalog R :=
  match l with
  | [] => ([], st)
  | i :: l' =>
      let '(r, st1) := get alive i now st in
      let '(rs, st2) := get_batch alive l' now st1 in
      (r :: rs, st2)
  end.

(** [ObjectCatalogStats] and [ObjectCatalog::stats]. *)
Record ObjectCatalogStats := mkStats {
  st_slots : N;
  st_claims : N;
  st_pending_objects : N;
  st_published_objects : N;
  st_pending_bytes : N;
  st_live_bytes : N;
  st_retired_bytes : N;
  st_retired_memory_bytes : N;
  st_reclaim_debt : N;
  st_pending_candidates : nat;
  st_soft_pin_candidates : nat;
  st_liveness_scan_remaining : N;
  st_young_candidates : nat;
  st_protected_candidates : nat;
  st_retired_candidates : nat;
  st_empty_slot_candidates : nat
}.

Definition stats (st : Catalog R) : ObjectCatalogStats :=
  let l := lifecycle st in
  mkStats (slot_count st) (claims l) (pending_objects l) (published_objects l) (pending_bytes l)
    (live_bytes l) (retired_bytes l) (retired_memory_bytes l) (reclaim_debt st)
    (length (pending st)) (length (soft_pins st))
    (saturating_add (N.of_nat (young_remaining (liveness st)))
       (N.of_nat (protected_remaining (liveness st))))
    (length (young st)) (length (protected st)) (length (retired st))
    (length (empty_slots st)).

(** [identities]: the published keys of a namespace. *)
Definition identities (ns : N) (st : Catalog R) : list ObjectIdentity :=
  (filter (fun ia => namespace ia.1 = ns ∧
     match slots st !! ia.2 with Some s => has_committed s | None => false end = true)
    (map_to_list (index st))).*1.
End Write.
