(* ===== verification/CatalogCollector.v ===== *)
(** * Removal and collection

    [src/src/object/catalog/collector.rs]: explicit removal, the bounded
    collector step (soft-pin expiry, liveness sweep, pending expiry, scoped and
    global eviction, reclamation, empty-slot cleanup) and the revocation of
    the pending writes of fenced owners.  [None] stands for a panic; [alive]
    answers segment liveness for the whole step, and [held v] says whether a
    caller still holds a handle to version [v]. *)
From S2P Require Import Prelude Identity Segment TenantQuota Replica ObjectTypes CatalogState.
From S2P Require Import CatalogWrite.

(** ** Report updates *)

Definition r_scanned (r : CollectReport) : CollectReport :=
  mkReport (busy r) (S (scanned_candidates r)) (expired_pending r) (scanned_soft_pins r)
    (expired_soft_pins r) (invalidated_pending r) (invalidated_published r)
    (pruned_objects r) (pruned_replicas r) (pruned_replica_bytes r)
    (report_retired_objects r) (report_retired_bytes r) (reclaimed_objects r)
    (reclaimed_bytes r) (reclaimed_memory_bytes r) (removed_empty_slots r)
    (scoped_retired_objects r) (scoped_retired_bytes r).
Definition r_scanned_soft (r : CollectReport) : CollectReport :=
  mkReport (busy r) (scanned_candidates r) (expired_pending r) (S (scanned_soft_pins r))
    (expired_soft_pins r) (invalidated_pending r) (invalidated_published r)
    (pruned_objects r) (pruned_replicas r) (pruned_replica_bytes r)
    (report_retired_objects r) (report_retired_bytes r) (reclaimed_objects r)
    (reclaimed_bytes r) (reclaimed_memory_bytes r) (removed_empty_slots r)
    (scoped_retired_objects r) (scoped_retired_bytes r).
Definition r_expired_soft (r : CollectReport) : CollectReport :=
  mkReport (busy r) (scanned_candidates r) (expired_pending r) (scanned_soft_pins r)
    (S (expired_soft_pins r)) (invalidated_pending r) (invalidated_published r)
    (pruned_objects r) (pruned_replicas r) (pruned_replica_bytes r)
    (report_retired_objects r) (report_retired_bytes r) (reclaimed_objects r)
    (reclaimed_bytes r) (reclaimed_memory_bytes r) (removed_empty_slots r)
    (scoped_retired_objects r) (scoped_retired_bytes r).
Definition r_expired_pending (r : CollectReport) : CollectReport :=
  mkReport (busy r) (scanned_candidates r) (S (expired_pending r)) (scanned_soft_pins r)
    (expired_soft_pins r) (invalidated_pending r) (invalidated_published r)
    (pruned_objects r) (pruned_replicas r) (pruned_replica_bytes r)
    (report_retired_objects r) (report_retired_bytes r) (reclaimed_objects r)
    (reclaimed_bytes r) (reclaimed_memory_bytes r) (removed_empty_slots r)
    (scoped_retired_objects r) (scoped_retired_bytes r).
Definition r_invalidated_pending (r : CollectReport) : CollectReport :=
  mkReport (busy r) (scanned_candidates r) (expired_pending r) (scanned_soft_pins r)
    (expired_soft_pins r) (S (invalidated_pending r)) (invalidated_published r)
    (pruned_objects r) (pruned_replicas r) (pruned_replica_bytes r)
    (report_retired_objects r) (report_retired_bytes r) (reclaimed_objects r)
    (reclaimed_bytes r) (reclaimed_memory_bytes r) (removed_empty_slots r)
    (scoped_retired_objects r) (scoped_retired_bytes r).
Definition r_retired (bytes : N) (r : CollectReport) : CollectReport :=
  mkReport (busy r) (scanned_candidates r) (expired_pending r) (scanned_soft_pins r)
    (expired_soft_pins r) (invalidated_pending r) (invalidated_published r)
    (pruned_objects r) (pruned_replicas r) (pruned_replica_bytes r)
    (S (report_retired_objects r)) (saturating_add (report_retired_bytes r) bytes)
    (reclaimed_objects r) (reclaimed_bytes r) (reclaimed_memory_bytes r)
    (removed_empty_slots r) (scoped_retired_objects r) (scoped_retired_bytes r).
Definition r_invalidated (r : CollectReport) : CollectReport :=
  mkReport (busy r) (scanned_candidates r) (expired_pending r) (scanned_soft_pins r)
    (expired_soft_pins r) (invalidated_pending r) (S (invalidated_published r))
    (pruned_objects r) (pruned_replicas r) (pruned_replica_bytes r)
    (report_retired_objects r) (report_retired_bytes r) (reclaimed_objects r)
    (reclaimed_bytes r) (reclaimed_memory_bytes r) (removed_empty_slots r)
    (scoped_retired_objects r) (scoped_retired_bytes r).
Definition r_pruned (n : nat) (bytes : N) (r : CollectReport) : CollectReport :=
  mkReport (busy r) (scanned_candidates r) (expired_pending r) (scanned_soft_pins r)
    (expired_soft_pins r) (invalidated_pending r) (invalidated_published r)
    (S (pruned_objects r)) ((pruned_replicas r + n)%nat)
    (saturating_add (pruned_replica_bytes r) bytes) (report_retired_objects r)
    (report_retired_bytes r) (reclaimed_objects r) (reclaimed_bytes r)
    (reclaimed_memory_bytes r) (removed_empty_slots r) (scoped_retired_objects r)
    (scoped_retired_bytes r).
Definition r_scoped (bytes : N) (r : CollectReport) : CollectReport :=
  mkReport (busy r) (scanned_candidates r) (expired_pending r) (scanned_soft_pins r)
    (expired_soft_pins r) (invalidated_pending r) (invalidated_published r)
    (pruned_objects r) (pruned_replicas r) (pruned_replica_bytes r)
    (report_retired_objects r) (report_retired_bytes r) (reclaimed_objects r)
    (reclaimed_bytes r) (reclaimed_memory_bytes r) (removed_empty_slots r)
    (S (scoped_retired_objects r)) (saturating_add (scoped_retired_bytes r) bytes).
Definition r_reclaimed (bytes : N) (memory : bool) (r : CollectReport) : CollectReport :=
  mkReport (busy r) (scanned_candidates r) (expired_pending r) (scanned_soft_pins r)
    (expired_soft_pins r) (invalidated_pending r) (invalidated_published r)
    (pruned_objects r) (pruned_replicas r) (pruned_replica_bytes r)
    (report_retired_objects r) (report_retired_bytes r) (S (reclaimed_objects r))
    (saturating_add (reclaimed_bytes r) bytes)
    (if memory then saturating_add (reclaimed_memory_bytes r) bytes else reclaimed_memory_bytes r)
    (removed_empty_slots r) (scoped_retired_objects r) (scoped_retired_bytes r).
Definition r_removed_slot (r : CollectReport) : CollectReport :=
  mkReport (busy r) (scanned_candidates r) (expired_pending r) (scanned_soft_pins r)
    (expired_soft_pins r) (invalidated_pending r) (invalidated_published r)
    (pruned_objects r) (pruned_replicas r) (pruned_replica_bytes r)
    (report_retired_objects r) (report_retired_bytes r) (reclaimed_objects r)
    (reclaimed_bytes r) (reclaimed_memory_bytes r) (S (removed_empty_slots r))
    (scoped_retired_objects r) (scoped_retired_bytes r).
Definition r_busy (r : CollectReport) : CollectReport :=
  mkReport (true) (scanned_candidates r) (expired_pending r) (scanned_soft_pins r)
    (expired_soft_pins r) (invalidated_pending r) (invalidated_published r)
    (pruned_objects r) (pruned_replicas r) (pruned_replica_bytes r)
    (report_retired_objects r) (report_retired_bytes r) (reclaimed_objects r)
    (reclaimed_bytes r) (reclaimed_memory_bytes r) (removed_empty_slots r)
    (scoped_retired_objects r) (scoped_retired_bytes r).

Section Collector.
Context {R : Type} `{Resource R}.

(** ** Explicit removal *)

Definition remove_with_force (i : ObjectIdentity) (now : N) (force : bool) (st : Catalog R)
    : res RemoveError unit * Catalog R :=
  match lookup_slot i st with
  | None => (Err RemoveNotFound, st)
  | Some a =>
      match slots st !! a with
      | None => (Panic, st)
      | Some s =>
          match active s, committed s with
          | Some _, _ => (Err RemoveNotReady, st)
          | None, None => (Err RemoveNotFound, st)
          | None, Some v =>
              match versions st !! v ≫= version_access with
              | None => (Panic, st)
              | Some x =>
                  if negb force && is_leased now x then (Err (Leased (lease_until x)), st)
                  else if negb force && hard_pinned x then (Err HardPinned, st)
                  else
                    let st1 := update_slot a (set_committed None) st in
                    if negb force && is_leased now x
                    then (Err (Leased (lease_until x)),
                          update_slot a (set_committed (Some v)) st1)
                    else (Ok tt, retire_published a (s_identity s) v now st1)
              end
          end
      end
  end.

Definition remove (i : ObjectIdentity) (now : N) : Catalog R → res RemoveError unit * Catalog R :=
  remove_with_force i now false.

(** ** Soft pins *)

Definition soft_pin_step (now : N) (c : SoftPinCandidate) (rep : CollectReport)
    (st : Catalog R) : option (CollectReport * Catalog R) :=
  let rep1 := r_scanned_soft rep in
  let v := gc_version (sp_candidate c) in
  match slots st !! gc_slot (sp_candidate c), versions st !! v with
  | Some s, Some ver =>
      if negb (committed_points_to s v) then Some (rep1, st)
      else if now <? sp_deadline c then
        Some (rep1, set_soft_pins (soft_pins st ++ [c]) st)
      else
        x ← version_access ver;
        let '(expired, x') := expire_soft_pin (sp_deadline c) now x in
        Some (if expired then r_expired_soft rep1 else rep1,
              update_version v (set_access x') st)
  | _, _ => Some (rep1, st)
  end.

Fixpoint soft_pin_loop (n : nat) (now : N) (rep : CollectReport) (st : Catalog R)
    : option (CollectReport * Catalog R) :=
  match n with
  | O => Some (rep, st)
  | S n' =>
      match soft_pins st with
      | [] => Some (rep, st)
      | c :: q =>
          '(rep1, st1) ← soft_pin_step now c rep (set_soft_pins q st);
          soft_pin_loop n' now rep1 st1
      end
  end.

Definition expire_soft_pins (now : N) (budget : CollectBudget) (rep : CollectReport)
    (st : Catalog R) : option (CollectReport * Catalog R) :=
  soft_pin_loop (Nat.min (length (soft_pins st)) (max_candidates budget)) now rep st.

(** ** The two generations *)

(** [false] is the young queue and [true] the protected one. *)
Definition gen_queue (g : bool) (st : Catalog R) : list GcCandidate :=
  if g then protected st else young st.

Definition set_gen_queue (g : bool) (q : list GcCandidate) (st : Catalog R) : Catalog R :=
  if g then set_protected q st else set_young q st.

Definition push_gen (g : bool) (c : GcCandidate) (st : Catalog R) : Catalog R :=
  set_gen_queue g (gen_queue g st ++ [c]) st.

Definition gen_remaining (g : bool) (st : Catalog R) : nat :=
  if g then protected_remaining (liveness st) else young_remaining (liveness st).

Definition set_gen_remaining (g : bool) (n : nat) (st : Catalog R) : Catalog R :=
  let w := liveness st in
  set_liveness
    (if g then mkSweep (sweep_requested w) (young_remaining w) n
     else mkSweep (sweep_requested w) n (protected_remaining w)) st.

(** ** Liveness sweep *)

Definition sweep_candidate (alive : R → bool) (g : bool) (now : N) (c : GcCandidate)
    (rep : CollectReport) (resources : list R) (st : Catalog R)
    : option (CollectReport * list R * Catalog R) :=
  let rep1 := r_scanned rep in
  let v := gc_version c in
  match slots st !! gc_slot c, versions st !! v with
  | Some s, Some ver =>
      if negb (committed_points_to s v) then Some (rep1, resources, st)
      else
        let '(pruned, ver') := prune_invalidated alive ver in
        let st1 := update_version v (fun _ => ver') st in
        match pruned with
        | PruneAllLive => Some (rep1, resources, push_gen g c st1)
        | PruneAllStale =>
            match active s with
            | Some _ => Some (rep1, resources, push_gen g c st1)
            | None =>
                Some (r_retired (v_reserved ver') (r_invalidated rep1), resources,
                      retire_published (gc_slot c) (s_identity s) v now
                        (update_slot (gc_slot c) (set_committed None) st1))
            end
        | PruneMixed stale =>
            match release_pruned_accounting ver' stale st1 with
            | Ok st2 =>
                Some (r_pruned (set_len stale) (set_reserved_bytes stale) rep1,
                      reclaim_resources stale resources,
                      push_gen g c
                        (debt_on_reclaim (set_reserved_bytes stale)
                          (count (on_prune_published (set_reserved_bytes stale)) st2)))
            | _ => None
            end
        end
  | _, _ => Some (rep1, resources, st)
  end.

Fixpoint sweep_loop (n : nat) (alive : R → bool) (g : bool) (now : N) (scanned : nat)
    (rep : CollectReport) (resources : list R) (st : Catalog R)
    : option (nat * CollectReport * list R * Catalog R) :=
  match n with
  | O => Some (scanned, rep, resources, st)
  | S n' =>
      match gen_queue g st with
      | [] => Some (scanned, rep, resources, set_gen_remaining g 0 st)
      | c :: q =>
          '(rep1, res1, st1) ← sweep_candidate alive g now c rep resources
             (set_gen_remaining g (gen_remaining g st - 1) (set_gen_queue g q st));
          sweep_loop n' alive g now (S scanned) rep1 res1 st1
      end
  end.

Definition retire_invalidated_published (alive : R → bool) (now : N) (budget : CollectBudget)
    (rep : CollectReport) (st : Catalog R) : option (nat * CollectReport * Catalog R) :=
  '(scanned1, rep1, res1, st1) ←
     sweep_loop (Nat.min (gen_remaining false st) (max_candidates budget))
       alive false now 0 rep [] st;
  let budget1 := (max_candidates budget - scanned1)%nat in
  '(scanned2, rep2, res2, st2) ←
     (if (budget1 =? 0)%nat then Some (scanned1, rep1, res1, st1)
      else sweep_loop (Nat.min (gen_remaining true st1) budget1)
             alive true now scanned1 rep1 res1 st1);
  Some (scanned2, rep2, set_freed (freed st2 ++ [ReleaseBatch res2]) st2).

(** ** Pending writes *)

Definition abort_pending (alive : R → bool) (a id expected now : N) (st : Catalog R)
    : bool * Catalog R :=
  match slots st !! a with
  | None => (false, st)
  | Some s =>
      match active s with
      | None => (false, st)
      | Some t =>
          if negb (at_id t =? id) then (false, st)
          else match at_phase t with
          | Claimed => (false, st)
          | Staged p =>
              if negb (p =? expected) then (false, st)
              else (true, abort_staged alive a s t p now st)
          end
      end
  end.

Definition pending_snapshot (c : PendingCandidate) (st : Catalog R) : option WriteOwner :=
  match versions st !! pc_pending c with
  | None => None
  | Some ver =>
      match v_committed ver with
      | Some _ => None
      | None =>
          s ← slots st !! pc_slot c;
          t ← active s;
          if negb (at_id t =? pc_transaction c) then None
          else match at_phase t with
          | Claimed => None
          | Staged p => if negb (p =? pc_pending c) then None else Some (at_owner t)
          end
      end
  end.

Fixpoint revoke_loop (alive : R → bool) (owners : list WriteOwner) (now : N)
    (l : list PendingCandidate) (revoked : N) (st : Catalog R) : N * Catalog R :=
  match l with
  | [] => (revoked, st)
  | c :: l' =>
      match pending_snapshot c st with
      | None => revoke_loop alive owners now l' revoked st
      | Some o =>
          if negb (bool_decide (o ∈ owners)) then
            revoke_loop alive owners now l' revoked (set_pending (pending st ++ [c]) st)
          else
            let '(done, st1) :=
              abort_pending alive (pc_slot c) (pc_transaction c) (pc_pending c) now st in
            revoke_loop alive owners now l' (if done then revoked + 1 else revoked) st1
      end
  end.

(** Owners outside of sessions are never revoked. *)
Definition revoke_pending_owners (alive : R → bool) (owners : list WriteOwner) (now : N)
    (st : Catalog R) : N * Catalog R :=
  let owners := filter (fun o => session_generation o ≠ 0) owners in
  match owners with
  | [] => (0, st)
  | _ :: _ => revoke_loop alive owners now (pending st) 0 (set_pending [] st)
  end.

Definition expire_candidate (alive : R → bool) (now : N) (c : PendingCandidate)
    (rep : CollectReport) (st : Catalog R) : CollectReport * Catalog R :=
  match versions st !! pc_pending c with
  | None => (rep, st)
  | Some ver =>
      match v_committed ver with
      | Some _ => (rep, st)
      | None =>
          let live := all_live alive (v_replicas ver) in
          if live && (now <? pc_deadline c)
          then (rep, set_pending (pending st ++ [c]) st)
          else
            let '(done, st1) :=
              abort_pending alive (pc_slot c) (pc_transaction c) (pc_pending c) now st in
            (if done then (if live then r_expired_pending rep else r_invalidated_pending rep)
             else rep, st1)
      end
  end.

Fixpoint expire_loop (n : nat) (alive : R → bool) (now : N) (rep : CollectReport)
    (st : Catalog R) : CollectReport * Catalog R :=
  match n with
  | O => (rep, st)
  | S n' =>
      match pending st with
      | [] => (rep, st)
      | c :: q =>
          let '(rep1, st1) := expire_candidate alive now c rep (set_pending q st) in
          expire_loop n' alive now rep1 st1
      end
  end.

Definition expire_pending (alive : R → bool) (now : N) (budget : CollectBudget)
    (rep : CollectReport) (st : Catalog R) : CollectReport * Catalog R :=
  expire_loop (Nat.min (length (pending st)) (max_candidates budget)) alive now rep st.

(** ** Eviction *)

Record RetiredBytes := mkRetiredBytes { physical : N; quota : N }.

Definition no_bytes : RetiredBytes := mkRetiredBytes 0 0.

(** Whether a pin keeps the version out of eviction. *)
Definition pin_protects (now : N) (st : Catalog R) (x : AccessControl) : bool :=
  hard_pinned x ||
  (is_soft_pinned now x && negb (allow_evict_soft_pinned_objects (config st))).

Definition evict_candidate (c : GcCandidate) (from_protected : bool) (now : N)
    (rep : CollectReport) (st : Catalog R) : option (RetiredBytes * CollectReport * Catalog R) :=
  let rep1 := r_scanned rep in
  let v := gc_version c in
  match slots st !! gc_slot c, versions st !! v with
  | Some s, Some ver =>
      if negb (committed_points_to s v) then Some (no_bytes, rep1, st)
      else
        x ← version_access ver;
        if pin_protects now st x then Some (no_bytes, rep1, push_gen from_protected c st)
        else match active s with
        | Some _ => Some (no_bytes, rep1, push_gen true c st)
        | None =>
            let st1 := update_version v (set_access (clear_recent x)) st in
            if recent x then Some (no_bytes, rep1, push_gen true c st1)
            else if is_leased now x then Some (no_bytes, rep1, push_gen true c st1)
            else
              let bytes := v_reserved ver in
              let quota_bytes :=
                match tenant_accounting ver with Some (_, b) => b | None => bytes end in
              Some (mkRetiredBytes bytes quota_bytes, r_retired bytes rep1,
                    retire_published (gc_slot c) (s_identity s) v now
                      (update_slot (gc_slot c) (set_committed None) st1))
        end
  | _, _ => Some (no_bytes, rep1, st)
  end.

Definition reclaim_target_is_covered (st : Catalog R) : bool :=
  reclaim_debt st <=? retired_bytes (lifecycle st).

(** The inner loop of [evict] over one generation: whether it returned because
    the debt is covered, and the budget left. *)
Fixpoint evict_loop (n : nat) (g : bool) (now : N) (remaining : nat) (rep : CollectReport)
    (st : Catalog R) : option (bool * nat * CollectReport * Catalog R) :=
  match n with
  | O => Some (false, remaining, rep, st)
  | S n' =>
      if reclaim_target_is_covered st then Some (true, remaining, rep, st)
      else match gen_queue g st with
      | [] => Some (false, remaining, rep, st)
      | c :: q =>
          '(retired, rep1, st1) ← evict_candidate c g now rep (set_gen_queue g q st);
          evict_loop n' g now (remaining - 1) rep1 st1
      end
  end.

Definition evict (now : N) (budget : CollectBudget) (rep : CollectReport) (st : Catalog R)
    : option (CollectReport * Catalog R) :=
  let young_len := length (young st) in
  let protected_len := length (protected st) in
  '(covered, remaining, rep1, st1) ←
     evict_loop (Nat.min young_len (max_candidates budget)) false now
       (max_candidates budget) rep st;
  if (covered : bool) then Some (rep1, st1)
  else
    '(covered2, budget2, rep2, st2) ←
       evict_loop (Nat.min protected_len remaining) true now remaining rep1 st1;
    Some (rep2, st2).

(** ** Scoped eviction *)

Inductive ScopedCandidate :=
| ScopedStale
| ScopedUnmatched
| ScopedMatches (indices : list nat).

Definition filter_matches (f : ReclaimFilter) (ver : ObjectVersion R) : bool :=
  match f with
  | FilterAny => true
  | FilterClass k => bool_decide (direct_replica_class (v_replicas ver) = Some k)
  | FilterScope ns k =>
      match v_accounting ver with Some _ => true | None => false end &&
      (namespace (v_identity ver) =? ns) &&
      bool_decide (direct_replica_class (v_replicas ver) = Some k)
  end.

Definition classify_scoped_candidate (c : GcCandidate) (debts : list (ReclaimFilter * N))
    (st : Catalog R) : ScopedCandidate :=
  match slots st !! gc_slot c, versions st !! gc_version c with
  | Some s, Some ver =>
      if negb (committed_points_to s (gc_version c)) then ScopedStale
      else
        let hits := omap (fun x => x)
          (imap (fun i d => if (0 <? d.2) && filter_matches d.1 ver then Some i else None)
             debts) in
        match hits with
        | [] => ScopedUnmatched
        | _ :: _ => ScopedMatches hits
        end
  | _, _ => ScopedStale
  end.

Definition pay_debt (retired : RetiredBytes) (d : ReclaimFilter * N) : ReclaimFilter * N :=
  (d.1, saturating_sub d.2
          (match d.1 with FilterScope _ _ => quota retired | _ => physical retired end)).

Definition pay_debts (indices : list nat) (retired : RetiredBytes)
    (debts : list (ReclaimFilter * N)) : list (ReclaimFilter * N) :=
  foldl (fun ds i => alter (pay_debt retired) i ds) debts indices.

(** One generation of [evict_scoped]: whether every debt was paid, the number
    scanned and the debts left. *)
Fixpoint scoped_loop (n : nat) (g : bool) (now : N) (scanned : nat)
    (debts : list (ReclaimFilter * N)) (rep : CollectReport) (st : Catalog R)
    : option (bool * nat * list (ReclaimFilter * N) * CollectReport * Catalog R) :=
  match n with
  | O => Some (false, scanned, debts, rep, st)
  | S n' =>
      if forallb (fun d => d.2 =? 0) debts then Some (true, scanned, debts, rep, st)
      else match gen_queue g st with
      | [] => Some (false, scanned, debts, rep, st)
      | c :: q =>
          let st0 := set_gen_queue g q st in
          match classify_scoped_candidate c debts st0 with
          | ScopedMatches indices =>
              '(retired, rep1, st1) ← evict_candidate c g now rep st0;
              if 0 <? physical retired then
                scoped_loop n' g now (S scanned) (pay_debts indices retired debts)
                  (r_scoped (physical retired) rep1) st1
              else scoped_loop n' g now (S scanned) debts rep1 st1
          | ScopedUnmatched =>
              scoped_loop n' g now (S scanned) debts (r_scanned rep) (push_gen g c st0)
          | ScopedStale => scoped_loop n' g now (S scanned) debts (r_scanned rep) st0
          end
      end
  end.

Definition evict_scoped (now : N) (budget : CollectBudget) (targets : list ReclaimTarget)
    (rep : CollectReport) (st : Catalog R) : option (nat * CollectReport * Catalog R) :=
  if (max_candidates budget =? 0)%nat then Some (0%nat, rep, st)
  else
    let debts := map (fun t => (target_filter t, target_bytes t))
                   (filter (fun t : ReclaimTarget => 0 < target_bytes t) targets) in
    match debts with
    | [] => Some (0%nat, rep, st)
    | _ :: _ =>
        let young_len := length (young st) in
        let protected_len := length (protected st) in
        '(paid, scanned, debts1, rep1, st1) ←
           scoped_loop (Nat.min young_len (max_candidates budget)) false now 0 debts rep st;
        if (paid : bool) then Some (scanned, rep1, st1)
        else
          '(paid2, scanned2, debts2, rep2, st2) ←
             scoped_loop (Nat.min protected_len (max_candidates budget - scanned)) true now
               scanned debts1 rep1 st1;
          Some (scanned2, rep2, st2)
    end.

(** ** Reclamation *)

(** The strong references a slot holds to a version. *)
Definition slot_refers (v : N) (s : ObjectSlot) : bool :=
  committed_points_to s v ||
  match active s with
  | Some t =>
      match at_base t with Some b => b =? v | None => false end ||
      match at_phase t with Staged p => p =? v | Claimed => false end
  | None => false
  end.

(** [Arc::try_unwrap] on the version of a popped entry succeeds when nothing
    else refers to it: no caller, no slot and no other retired entry. *)
Definition try_unwrap (held : N → bool) (v : N) (st : Catalog R) : bool :=
  negb (held v) && forallb (fun s => negb (slot_refers v s)) (map_to_list (slots st)).*2 &&
  forallb (fun e => negb (ro_version e =? v)) (retired st).

Definition reclaim_one (held : N → bool) (now : N) (e : RetiredObject) (rep : CollectReport)
    (resources : list R) (st : Catalog R) : CollectReport * list R * Catalog R :=
  if now <? ro_reclaim_after e then (rep, resources, set_retired (retired st ++ [e]) st)
  else if negb (try_unwrap held (ro_version e) st)
  then (rep, resources, set_retired (retired st ++ [e]) st)
  else match versions st !! ro_version e with
  | None => (rep, resources, st)
  | Some ver =>
      let memory := is_memory ver in
      let st1 := release_accounting (ro_version e) st in
      let st2 := set_versions (delete (ro_version e) (versions st1)) st1 in
      (r_reclaimed (ro_reserved e) memory rep,
       reclaim_resources (v_replicas ver) resources,
       debt_on_reclaim (ro_reserved e)
         (count (counters_on_reclaim (ro_reserved e) memory) st2))
  end.

Fixpoint reclaim_loop (n : nat) (held : N → bool) (now : N) (attempts : nat)
    (rep : CollectReport) (resources : list R) (st : Catalog R)
    : nat * CollectReport * list R * Catalog R :=
  match n with
  | O => (attempts, rep, resources, st)
  | S n' =>
      match retired st with
      | [] => (attempts, rep, resources, st)
      | e :: q =>
          let '(rep1, res1, st1) := reclaim_one held now e rep resources (set_retired q st) in
          reclaim_loop n' held now (S attempts) rep1 res1 st1
      end
  end.

Definition reclaim (held : N → bool) (now : N) (budget : CollectBudget) (rep : CollectReport)
    (st : Catalog R) : nat * CollectReport * Catalog R :=
  let '(attempts, rep1, resources, st1) :=
    reclaim_loop (Nat.min (length (retired st)) (max_reclaims budget)) held now 0 rep [] st in
  (attempts, rep1, set_freed (freed st1 ++ [ReleaseBatch resources]) st1).

(** ** Empty slots *)

Definition clean_one (now : N) (c : EmptySlotCandidate) (rep : CollectReport) (st : Catalog R)
    : CollectReport * Catalog R :=
  if now <? es_deadline c then (rep, set_empty_slots (empty_slots st ++ [c]) st)
  else match slots st !! es_slot c with
  | None => (rep, st)
  | Some s =>
      if has_committed s || match active s with Some _ => true | None => false end
      then (rep, st)
      else if bool_decide (index st !! es_identity c = Some (es_slot c)) then
        (r_removed_slot rep,
         set_slot_count (dec (slot_count st))
           (set_index (delete (es_identity c) (index st))
             (set_slots (delete (es_slot c) (slots st)) st)))
      else (rep, st)
  end.

Fixpoint clean_loop (n : nat) (now : N) (rep : CollectReport) (st : Catalog R)
    : CollectReport * Catalog R :=
  match n with
  | O => (rep, st)
  | S n' =>
      match empty_slots st with
      | [] => (rep, st)
      | c :: q =>
          let '(rep1, st1) := clean_one now c rep (set_empty_slots q st) in
          clean_loop n' now rep1 st1
      end
  end.

Definition clean_empty_slots (now : N) (budget : CollectBudget) (rep : CollectReport)
    (st : Catalog R) : CollectReport * Catalog R :=
  clean_loop (Nat.min (length (empty_slots st)) (max_empty_slots budget)) now rep st.

(** ** The collector step *)

(** [watermark] is what the caller's closure asks for, from the state after
    the first reclamation. *)
Definition collect_step_inner (alive : R → bool) (held : N → bool) (gate_busy : bool)
    (now : N) (budget : CollectBudget) (targets : list ReclaimTarget) (reclaim_first : bool)
    (watermark : Catalog R → N) (st : Catalog R) : option (CollectReport * Catalog R) :=
  if gate_busy then Some (r_busy report_default, st)
  else
    let '(attempts, rep1, st1) :=
      if reclaim_first then reclaim held now budget report_default st
      else (0%nat, report_default, st) in
    let bytes := watermark st1 in
    let scoped :=
      if bytes =? 0 then targets else targets ++ [mkTarget (FilterClass Memory) bytes] in
    '(rep2, st2) ← expire_soft_pins now budget rep1 (begin_if_requested st1);
    '(scanned, rep3, st3) ← retire_invalidated_published alive now budget rep2 st2;
    let '(rep4, st4) := expire_pending alive now budget rep3 st3 in
    '(rep5, st5) ←
      (if sweep_is_incomplete st4 then Some (rep4, st4)
       else
         let budget1 := mkBudget (max_candidates budget - scanned) (max_reclaims budget)
                          (max_empty_slots budget) in
         '(scanned1, repa, sta) ← evict_scoped now budget1 scoped rep4 st4;
         evict now (mkBudget (max_candidates budget1 - scanned1) (max_reclaims budget)
                      (max_empty_slots budget)) repa sta);
    let '(attempts2, rep6, st6) :=
      reclaim held now (mkBudget (max_candidates budget) (max_reclaims budget - attempts)
                          (max_empty_slots budget)) rep5 st5 in
    Some (clean_empty_slots now budget rep6 st6).

Definition collect_step (alive : R → bool) (held : N → bool) (gate_busy : bool) (now : N)
    (budget : CollectBudget) : Catalog R → option (CollectReport * Catalog R) :=
  collect_step_inner alive held gate_busy now budget [] false (fun _ => 0).
End Collector.
