(* ===== verification/CatalogInv.v ===== *)
(** * The catalog invariant

    The structural invariant of the object catalog and its preservation by the
    transitions the operations are made of: claiming, staging, dropping and
    aborting a transaction, committing, retiring, pruning, reclaiming and
    cleaning.  Slots and versions of different keys never interact, so every
    transition is proved local to one key ([core_local]). *)
From S2P Require Import Prelude Identity Segment TenantQuota Replica ObjectTypes CatalogState.

Section Inv.
Context {R : Type} `{Resource R}.
Implicit Types (st : Catalog R) (ver : ObjectVersion R).

(** ** What the counters count *)

Inductive role := RPending | RLive | RRetired.

#[global] Instance role_eq_dec : EqDecision role.
Proof. solve_decision. Defined.

(** The addresses on the retired queue. *)
Definition retired_addrs st : list N := ro_version <$> retired st.

Definition role_of (ret : list N) (v : N) ver : role :=
  if bool_decide (v ∈ ret) then RRetired
  else match v_committed ver with Some _ => RLive | None => RPending end.

Definition bytes_in (k : role) (ret : list N) (v : N) ver : N :=
  if bool_decide (role_of ret v ver = k) then v_reserved ver else 0.

Definition is_claimed (a : N) (s : ObjectSlot) : N :=
  match active s with
  | Some t => match at_phase t with Claimed => 1 | Staged _ => 0 end
  | None => 0
  end.

Definition is_staged (a : N) (s : ObjectSlot) : N :=
  match active s with
  | Some t => match at_phase t with Claimed => 0 | Staged _ => 1 end
  | None => 0
  end.

Definition is_published (a : N) (s : ObjectSlot) : N :=
  match committed s with Some _ => 1 | None => 0 end.

Arguments is_claimed _ !_ /.
Arguments is_staged _ !_ /.
Arguments is_published _ !_ /.

(** ** The invariant *)

(** A version that is not retired is owned by the slot of its key. *)
Definition owned st (v : N) ver : Prop :=
  ∃ a s, slots st !! a = Some s ∧ s_identity s = v_identity ver ∧
    match v_committed ver with
    | Some _ => committed s = Some v
    | None => ∃ t, active s = Some t ∧ at_phase t = Staged v
    end.

Record slot_ok st (a : N) (s : ObjectSlot) : Prop := {
  so_committed v : committed s = Some v →
    ∃ ver, versions st !! v = Some ver ∧ v_identity ver = s_identity s ∧
           is_Some (v_committed ver) ∧ v ∉ retired_addrs st ∧
           mkGc a v ∈ young st ++ protected st;
  so_base t : active s = Some t → at_base t = committed s ∧ at_id t < next_transaction_id s;
  so_staged t p : active s = Some t → at_phase t = Staged p →
    ∃ ver, versions st !! p = Some ver ∧ v_identity ver = s_identity s ∧
           v_committed ver = None ∧ p ∉ retired_addrs st ∧ origin ver = at_id t ∧
           v_owner ver = at_owner t ∧ ∃ d, mkPending a p (at_id t) d ∈ pending st;
  so_empty : committed s = None → active s = None →
    ∃ d, mkEmptySlot (s_identity s) a d ∈ empty_slots st
}.

Record version_ok st (v : N) ver : Prop := {
  vo_addr : v < next_addr st;
  vo_normal : normal (v_replicas ver);
  vo_replicas : replicas (v_replicas ver) ≠ [];
  vo_reserved : v_reserved ver = sum_by lease_reserved (replicas (v_replicas ver));
  vo_size r : r ∈ replicas (v_replicas ver) → logical_bytes (v_content ver) <= lease_reserved r;
  vo_owned : v ∉ retired_addrs st → owned st v ver
}.

Record queues_ok st : Prop := {
  q_retired_nodup : NoDup (retired_addrs st);
  q_retired e : e ∈ retired st →
    ∃ ver, versions st !! ro_version e = Some ver ∧ ro_reserved e = v_reserved ver;
  q_gc_nodup : NoDup (young st ++ protected st);
  q_gc c : c ∈ young st ++ protected st → gc_version c < next_addr st ∧
    ∀ ver, versions st !! gc_version c = Some ver → is_Some (v_committed ver)
}.

Record counters_ok st : Prop := {
  n_slots : slot_count st = msum (fun _ _ => 1) (slots st);
  n_claims : claims (lifecycle st) = msum is_claimed (slots st);
  n_pending : pending_objects (lifecycle st) = msum is_staged (slots st);
  n_published : published_objects (lifecycle st) = msum is_published (slots st);
  n_pending_bytes : pending_bytes (lifecycle st) =
    msum (bytes_in RPending (retired_addrs st)) (versions st);
  n_live_bytes : live_bytes (lifecycle st) =
    msum (bytes_in RLive (retired_addrs st)) (versions st);
  n_retired_bytes : retired_bytes (lifecycle st) =
    msum (bytes_in RRetired (retired_addrs st)) (versions st);
  n_retired_memory : retired_memory_bytes (lifecycle st) = retired_bytes (lifecycle st);
  n_bytes : msum (fun _ => v_reserved) (versions st) <= U64_MAX
}.

Record core st : Prop := {
  c_index i a : index st !! i = Some a ↔
    ∃ s, slots st !! a = Some s ∧ s_identity s = i;
  c_addr a s : slots st !! a = Some s → a < next_addr st;
  c_slot a s : slots st !! a = Some s → slot_ok st a s;
  c_version v ver : versions st !! v = Some ver → version_ok st v ver;
  c_queues : queues_ok st;
  c_counters : counters_ok st
}.

(** ** Consequences *)

Lemma slot_unique st a a' s s' :
  core st → slots st !! a = Some s → slots st !! a' = Some s' →
  s_identity s = s_identity s' → a = a'.
Proof.
  intros Hc Hs Hs' Hid.
  assert (index st !! s_identity s = Some a) as H1 by (apply (c_index _ Hc); eauto).
  assert (index st !! s_identity s = Some a') as H2
    by (apply (c_index _ Hc); exists s'; split; [done|by symmetry]).
  congruence.
Qed.

Lemma bytes_split ver ret v :
  v_reserved ver = bytes_in RPending ret v ver + bytes_in RLive ret v ver +
                   bytes_in RRetired ret v ver.
Proof.
  unfold bytes_in. destruct (role_of ret v ver); rewrite !bool_decide_decide; simpl;
    repeat case_decide; try done; lia.
Qed.

(** The three byte counters together are the bytes of every version. *)
Lemma bytes_total (m : gmap N (ObjectVersion R)) ret :
  msum (fun _ => v_reserved) m =
  msum (bytes_in RPending ret) m + msum (bytes_in RLive ret) m + msum (bytes_in RRetired ret) m.
Proof.
  rewrite <- !msum_add. apply msum_ext. intros v ver _. unfold bytes_in.
  destruct (role_of ret v ver); rewrite !bool_decide_decide; simpl;
    repeat case_decide; try done; lia.
Qed.

Lemma retired_elem st v : v ∈ retired_addrs st → ∃ e, e ∈ retired st ∧ ro_version e = v.
Proof. intros (e & -> & He)%list_elem_of_fmap. eauto. Qed.

(** ** Locality

    A transition that touches only the slot [a] of key [i] and versions of
    that key owes the invariant only there. *)
Lemma core_local st st' a s s' :
  core st →
  slots st !! a = Some s → slots st' = <[a := s']> (slots st) →
  s_identity s' = s_identity s →
  index st' = index st → next_addr st <= next_addr st' →
  (∀ v ver, v_identity ver ≠ s_identity s →
     versions st' !! v = Some ver ↔ versions st !! v = Some ver) →
  (∀ v ver, v_identity ver ≠ s_identity s → versions st !! v = Some ver →
     v ∈ retired_addrs st' ↔ v ∈ retired_addrs st) →
  (∀ c, gc_slot c ≠ a → c ∈ young st ++ protected st → c ∈ young st' ++ protected st') →
  (∀ c, pc_slot c ≠ a → c ∈ pending st → c ∈ pending st') →
  (∀ c, es_slot c ≠ a → c ∈ empty_slots st → c ∈ empty_slots st') →
  slot_ok st' a s' →
  (∀ v ver, versions st' !! v = Some ver → v_identity ver = s_identity s →
     version_ok st' v ver) →
  queues_ok st' → counters_ok st' →
  core st'.
Proof.
  intros Hc Hs Hsl Hid Hix Hna Hv Hr Hgc Hpe Hem Hso Hvo Hq Hn.
  split; [| | | |done|done].
  - intros i b. rewrite Hix, (c_index _ Hc), Hsl. split.
    + intros (t & Ht & <-). destruct (decide (a = b)) as [->|Hne].
      * exists s'. rewrite lookup_insert_eq. rewrite Hs in Ht. injection Ht as <-. auto.
      * exists t. by rewrite lookup_insert_ne.
    + intros (t & Ht & <-). destruct (decide (a = b)) as [->|Hne].
      * rewrite lookup_insert_eq in Ht. injection Ht as <-. eauto.
      * rewrite lookup_insert_ne in Ht by done. eauto.
  - intros b t. rewrite Hsl. intros [[-> _]|[_ Ht]]%lookup_insert_Some.
    + pose proof (c_addr _ Hc _ _ Hs). lia.
    + pose proof (c_addr _ Hc _ _ Ht). lia.
  - intros b t. rewrite Hsl. intros [[-> <-]|[Hne Ht]]%lookup_insert_Some; [done|].
    assert (s_identity t ≠ s_identity s) as Hti.
    { intros Heq. apply Hne. symmetry. by apply (slot_unique st b a t s). }
    destruct (c_slot _ Hc _ _ Ht) as [S1 S2 S3 S4]. split.
    + intros v Hcm. destruct (S1 v Hcm) as (ver & Hl & Hvi & Hsome & Hnr & Hg).
      exists ver. split_and!; try done; [by apply Hv; [congruence|]|..].
      * intros Hin. apply Hnr. apply (Hr v ver); congruence.
      * by apply Hgc.
    + done.
    + intros x p Ha Hp. destruct (S3 x p Ha Hp) as (ver & Hl & Hvi & Hnc & Hnr & Ho & Hw & d & Hd).
      exists ver. split_and!; try done; [by apply Hv; [congruence|]|..].
      * intros Hin. apply Hnr. apply (Hr p ver); congruence.
      * exists d. by apply Hpe.
    + intros H1 H2. destruct (S4 H1 H2) as [d Hd]. exists d. by apply Hem.
  - intros v ver Hl. destruct (decide (v_identity ver = s_identity s)) as [?|Hne]; [auto|].
    apply Hv in Hl; [|done]. destruct (c_version _ Hc _ _ Hl) as [V1 V2 V3 V4 V6 V5].
    split; [lia|done..|]. intros Hnr.
    destruct V5 as (b & t & Ht & Hti & Hown); [by rewrite <- (Hr v ver) by congruence|].
    exists b, t. split_and!; try done. rewrite Hsl, lookup_insert_ne; [done|].
    intros <-. congruence.
Qed.

(** ** Frames of the transitions *)

(** The transition replaces slot [a] and leaves the queue entries of every
    other slot. *)
Record moves st st' (a : N) (s s' : ObjectSlot) : Prop := {
  mv_slot : slots st !! a = Some s;
  mv_slots : slots st' = <[a := s']> (slots st);
  mv_identity : s_identity s' = s_identity s;
  mv_index : index st' = index st;
  mv_count : slot_count st' = slot_count st;
  mv_next : next_addr st <= next_addr st';
  mv_gc c : gc_slot c ≠ a → c ∈ young st ++ protected st → c ∈ young st' ++ protected st';
  mv_pending c : pc_slot c ≠ a → c ∈ pending st → c ∈ pending st';
  mv_empty c : es_slot c ≠ a → c ∈ empty_slots st → c ∈ empty_slots st'
}.

Lemma moves_sum st st' a s s' (f : N → ObjectSlot → N) :
  moves st st' a s s' → msum f (slots st') + f a s = msum f (slots st) + f a s'.
Proof.
  intros M. rewrite (mv_slots _ _ _ _ _ M). apply msum_update; [apply M|done].
Qed.

Lemma moves_slot_le st st' a s s' (f : N → ObjectSlot → N) :
  moves st st' a s s' → f a s <= msum f (slots st).
Proof. intros M. apply msum_elem_le, M. Qed.

(** The slot counters after a move, from what they count. *)
Lemma moves_counters st st' a s s' :
  core st → moves st st' a s s' →
  claims (lifecycle st') + is_claimed a s = claims (lifecycle st) + is_claimed a s' →
  pending_objects (lifecycle st') + is_staged a s =
    pending_objects (lifecycle st) + is_staged a s' →
  published_objects (lifecycle st') + is_published a s =
    published_objects (lifecycle st) + is_published a s' →
  slot_count st' = msum (fun _ _ => 1) (slots st') ∧
  claims (lifecycle st') = msum is_claimed (slots st') ∧
  pending_objects (lifecycle st') = msum is_staged (slots st') ∧
  published_objects (lifecycle st') = msum is_published (slots st').
Proof.
  intros Hc M H1 H2 H3. destruct (c_counters _ Hc) as [N1 N2 N3 N4 _ _ _ _ _].
  pose proof (moves_sum _ _ _ _ _ (fun _ _ => 1) M) as E1. simpl in E1.
  pose proof (moves_sum _ _ _ _ _ is_claimed M) as E2.
  pose proof (moves_sum _ _ _ _ _ is_staged M) as E3.
  pose proof (moves_sum _ _ _ _ _ is_published M) as E4.
  rewrite (mv_count _ _ _ _ _ M). split_and!; lia.
Qed.

(** How the bytes move when one version changes and the retired queue changes
    at most there. *)
Lemma bytes_move (m : gmap N (ObjectVersion R)) ret ret' v ver ver' k :
  m !! v = Some ver → (∀ w, w ≠ v → w ∈ ret' ↔ w ∈ ret) →
  msum (bytes_in k ret') (<[v := ver']> m) + bytes_in k ret v ver =
  msum (bytes_in k ret) m + bytes_in k ret' v ver'.
Proof.
  intros Hv Hret. apply msum_update; [done|]. intros w ver'' Hne _.
  unfold bytes_in, role_of. by rewrite (bool_decide_ext _ _ (Hret w Hne)).
Qed.

Lemma bytes_in_role k ret v ver r :
  role_of ret v ver = r → bytes_in k ret v ver = if bool_decide (r = k) then v_reserved ver else 0.
Proof. intros <-. done. Qed.

Lemma role_retired ret v ver : v ∈ ret → role_of ret v ver = RRetired.
Proof. intros Hin. unfold role_of. by rewrite bool_decide_eq_true_2. Qed.

Lemma role_live ret v ver : v ∉ ret → is_Some (v_committed ver) → role_of ret v ver = RLive.
Proof. intros Hin [cv Hcv]. unfold role_of. by rewrite bool_decide_eq_false_2, Hcv. Qed.

Lemma role_pending ret v ver : v ∉ ret → v_committed ver = None → role_of ret v ver = RPending.
Proof. intros Hin Hcv. unfold role_of. by rewrite bool_decide_eq_false_2, Hcv. Qed.

Lemma dec_pos n : 0 < n → dec n = n - 1.
Proof. intros Hn. unfold dec. destruct (N.eqb_spec n 0); [lia|done]. Qed.

Lemma version_is_memory ver : replicas (v_replicas ver) ≠ [] → is_memory ver = true.
Proof.
  unfold is_memory, direct_replica_class. by destruct (replicas (v_replicas ver)).
Qed.

(** Nothing about bytes changes when neither the versions nor the retired
    queue do. *)
Lemma counters_same_versions st st' :
  core st → versions st' = versions st → retired st' = retired st →
  pending_bytes (lifecycle st') = pending_bytes (lifecycle st) →
  live_bytes (lifecycle st') = live_bytes (lifecycle st) →
  retired_bytes (lifecycle st') = retired_bytes (lifecycle st) →
  retired_memory_bytes (lifecycle st') = retired_memory_bytes (lifecycle st) →
  slot_count st' = msum (fun _ _ => 1) (slots st') ∧
  claims (lifecycle st') = msum is_claimed (slots st') ∧
  pending_objects (lifecycle st') = msum is_staged (slots st') ∧
  published_objects (lifecycle st') = msum is_published (slots st') →
  counters_ok st'.
Proof.
  intros Hc Hv Hr B1 B2 B3 B4 (?&?&?&?).
  destruct (c_counters _ Hc) as [_ _ _ _ N5 N6 N7 N8 N9].
  split; unfold retired_addrs in *; rewrite ?Hv, ?Hr; first [done | congruence].
Qed.

Lemma queues_same st st' :
  core st → versions st' = versions st → retired st' = retired st →
  next_addr st <= next_addr st' →
  NoDup (young st' ++ protected st') →
  (∀ c, c ∈ young st' ++ protected st' → c ∈ young st ++ protected st) →
  queues_ok st'.
Proof.
  intros Hc Hv Hr Hn Hnd Hsub. destruct (c_queues _ Hc) as [Q1 Q2 Q3 Q4].
  split; unfold retired_addrs; rewrite ?Hv, ?Hr; try done.
  intros c Hin. destruct (Q4 c (Hsub c Hin)) as [? ?]. split; [lia|done].
Qed.

(** ** Claims *)

(** A slot of a new key, claimed by its first writer. *)
Lemma core_new_slot st i o pins :
  core st → index st !! i = None →
  core (count on_claim
    (set_slot_count (inc (slot_count st))
      (set_index (<[i := next_addr st]> (index st))
        (set_slots (<[next_addr st := mkSlot i None 2 1 (Some (mkActive 1 o None pins Claimed))]>
                      (slots st))
          (set_next_addr (next_addr st + 1) st))))).
Proof.
  intros Hc Hi. set (a := next_addr st).
  assert (slots st !! a = None) as Ha.
  { destruct (slots st !! a) as [s|] eqn:Hs; [|done].
    pose proof (c_addr _ Hc _ _ Hs). unfold a in *. lia. }
  assert (∀ b t, slots st !! b = Some t → s_identity t ≠ i) as Hfresh.
  { intros b t Ht Heq. assert (index st !! i = Some b) by (apply (c_index _ Hc); eauto).
    congruence. }
  split; simpl.
  - intros j b. split.
    + intros [[<- <-]|[Hne Hj]]%lookup_insert_Some.
      * eexists. by rewrite lookup_insert_eq.
      * apply (c_index _ Hc) in Hj as (t & Ht & <-). exists t.
        rewrite lookup_insert_ne by congruence. done.
    + intros (t & [[<- <-]|[Hne Ht]]%lookup_insert_Some & <-); [by rewrite lookup_insert_eq|].
      rewrite lookup_insert_ne by (by apply not_eq_sym, (Hfresh b)).
      apply (c_index _ Hc). eauto.
  - intros b t [[<- _]|[_ Ht]]%lookup_insert_Some; [unfold a; lia|].
    pose proof (c_addr _ Hc _ _ Ht). unfold a. lia.
  - intros b t [[<- <-]|[_ Ht]]%lookup_insert_Some.
    + by split; simpl; [|intros x [= <-]|intros x p [= <-]|].
    + destruct (c_slot _ Hc _ _ Ht). by split.
  - intros v ver Hv. destruct (c_version _ Hc _ _ Hv) as [V1 V2 V3 V4 V6 V5].
    split; simpl; try done; [unfold a; lia|]. intros Hnr.
    destruct (V5 Hnr) as (b & t & Ht & Hti & Hown). exists b, t. simpl.
    by rewrite lookup_insert_ne by congruence.
  - apply (queues_same st); simpl; try done; [lia|apply (c_queues _ Hc)].
  - destruct (c_counters _ Hc). split; simpl; rewrite ?msum_insert_new by done;
      unfold inc; simpl; try done; lia.
Qed.

(** The slot that owns a version of its key is that slot. *)
Lemma owned_here st a s v ver :
  core st → slots st !! a = Some s → v_identity ver = s_identity s → owned st v ver →
  match v_committed ver with
  | Some _ => committed s = Some v
  | None => ∃ t, active s = Some t ∧ at_phase t = Staged v
  end.
Proof.
  intros Hc Hs Hi (b & t & Ht & Hti & Hown).
  assert (b = a) as -> by (apply (slot_unique st b a t s); first [done | congruence]).
  by assert (t = s) as -> by congruence.
Qed.

(** A transition that changes neither versions nor retirements nor what the
    slot owns. *)
Lemma core_slot_only st st' a s s' :
  core st → moves st st' a s s' →
  versions st' = versions st → retired st' = retired st →
  young st' = young st → protected st' = protected st →
  committed s' = committed s →
  (∀ t p, active s = Some t → at_phase t ≠ Staged p) →
  (∀ t p, active s' = Some t → at_phase t ≠ Staged p) →
  (∀ t, active s' = Some t → at_base t = committed s' ∧ at_id t < next_transaction_id s') →
  (committed s' = None → active s' = None →
     ∃ d, mkEmptySlot (s_identity s') a d ∈ empty_slots st') →
  counters_ok st' →
  core st'.
Proof.
  intros Hc M Hv Hr Hy Hp Hcm Hns Hns' Hb He Hn.
  assert (retired_addrs st' = retired_addrs st) as Hra by (unfold retired_addrs; by rewrite Hr).
  pose proof (mv_slot _ _ _ _ _ M) as Hs. pose proof (mv_next _ _ _ _ _ M) as Hna.
  destruct (c_slot _ Hc _ _ Hs) as [S1 _ _ _].
  apply (core_local st st' a s s'); try apply M; try done.
  - intros v ver _. by rewrite Hv.
  - intros v ver _ _. by rewrite Hra.
  - split; [|done| |done].
    + intros v. rewrite Hcm, Hv, Hra, Hy, Hp, (mv_identity _ _ _ _ _ M). apply S1.
    + intros t p Ha Hph. by destruct (Hns' t p Ha).
  - intros v ver Hl Hvi. rewrite Hv in Hl.
    destruct (c_version _ Hc _ _ Hl) as [V1 V2 V3 V4 V6 V5].
    split; [lia|done..|]. rewrite Hra. intros Hnr. pose proof (V5 Hnr) as Hown.
    apply (owned_here st a s) in Hown; try done.
    exists a, s'. rewrite (mv_slots _ _ _ _ _ M), lookup_insert_eq.
    split_and!; [done|by rewrite (mv_identity _ _ _ _ _ M)|].
    destruct (v_committed ver); [congruence|].
    destruct Hown as (t & Ha & Hph). by destruct (Hns t v Ha).
  - apply (queues_same st); rewrite ?Hy, ?Hp; try done. apply (c_queues _ Hc).
Qed.

(** A write claims an idle slot. *)
Lemma core_claim st a s o pins :
  core st → slots st !! a = Some s → active s = None →
  core (count on_claim (update_slot a (fun s0 =>
    set_active (Some (mkActive (next_transaction_id s) o (committed s) pins Claimed))
      (set_next_ids (next_transaction_id s + 1) (next_version_id s0) s0)) st)).
Proof.
  intros Hc Hs Ha.
  set (f := fun s0 => set_active _ _). set (st' := count _ _).
  assert (moves st st' a s (f s)) as M.
  { split; simpl; try done. by apply alter_lookup_insert. }
  apply (core_slot_only st st' a s (f s)); simpl; try done.
  - intros t p. by rewrite Ha.
  - by intros t p [= <-].
  - intros t [= <-]. simpl. split; [done|lia].
  - apply (counters_same_versions st); try done. apply (moves_counters st st' a s (f s)); try done;
      simpl; unfold is_claimed, is_staged, is_published; simpl; rewrite Ha; unfold inc; lia.
Qed.

(** A claimed transaction ends. *)
Lemma core_drop_claim st st' a s t :
  core st → slots st !! a = Some s → active s = Some t → at_phase t = Claimed →
  moves st st' a s (set_active None s) →
  versions st' = versions st → retired st' = retired st →
  young st' = young st → protected st' = protected st →
  lifecycle st' = on_claim_dropped (lifecycle st) →
  (committed s = None → ∃ d, mkEmptySlot (s_identity s) a d ∈ empty_slots st') →
  core st'.
Proof.
  intros Hc Hs Ha Hph M Hv Hr Hy Hp Hl He.
  apply (core_slot_only st st' a s (set_active None s)); simpl; try done.
  - intros t' p. rewrite Ha. intros [= <-]. by rewrite Hph.
  - auto.
  - apply (counters_same_versions st); try (by rewrite ?Hl).
    pose proof (moves_slot_le st st' a s _ is_claimed M) as Hle.
    unfold is_claimed in Hle at 1. rewrite Ha, Hph in Hle.
    rewrite <- (n_claims _ (c_counters _ Hc)) in Hle.
    apply (moves_counters st st' a s (set_active None s)); try done; rewrite Hl; simpl;
      unfold is_claimed, is_staged, is_published; simpl; rewrite ?Ha, ?Hph, ?dec_pos by lia; lia.
Qed.

(** ** Staging *)

Lemma fresh_addr st : core st → versions st !! next_addr st = None ∧
  next_addr st ∉ retired_addrs st ∧ ∀ c, c ∈ young st ++ protected st → gc_version c ≠ next_addr st.
Proof.
  intros Hc.
  assert (versions st !! next_addr st = None) as Hn.
  { destruct (versions st !! next_addr st) as [ver|] eqn:Hv; [|done].
    pose proof (vo_addr _ _ _ (c_version _ Hc _ _ Hv)). lia. }
  split_and!; [done| |].
  - intros (e & He & Heq)%retired_elem.
    destruct (q_retired _ (c_queues _ Hc) e He) as (ver & ? & _). congruence.
  - intros c Hin. destruct (q_gc _ (c_queues _ Hc) c Hin). lia.
Qed.

Lemma core_stage st a s t ver d :
  core st → slots st !! a = Some s → active s = Some t → at_phase t = Claimed →
  v_identity ver = s_identity s → v_committed ver = None → origin ver = at_id t →
  v_owner ver = at_owner t → normal (v_replicas ver) → replicas (v_replicas ver) ≠ [] →
  v_reserved ver = sum_by lease_reserved (replicas (v_replicas ver)) →
  (∀ r, r ∈ replicas (v_replicas ver) → logical_bytes (v_content ver) <= lease_reserved r) →
  msum (fun _ => v_reserved) (versions st) + v_reserved ver <= U64_MAX →
  let p := next_addr st in
  core (set_pending (pending st ++ [mkPending a p (at_id t) d])
         (count (on_stage (v_reserved ver))
           (update_slot a (set_active (Some (mkActive (at_id t) (at_owner t) (at_base t)
                                               (at_pins t) (Staged p))))
             (set_versions (<[p := ver]> (versions st)) (set_next_addr (p + 1) st))))).
Proof.
  intros Hc Hs Ha Hph Hvi Hcm Hor How Hnm Hrep Hres Hsize Hbytes p.
  destruct (fresh_addr st Hc) as (Hfv & Hfr & Hfg). fold p in Hfv, Hfr, Hfg.
  set (f := set_active (Some _)). set (st' := set_pending _ _).
  assert (moves st st' a s (f s)) as M.
  { split; simpl; try done; [by apply alter_lookup_insert|unfold p; lia|].
    intros c _ Hin. apply elem_of_app. by left. }
  destruct (c_slot _ Hc _ _ Hs) as [S1 S2 _ _].
  apply (core_local st st' a s (f s)); try apply M; try done.
  - intros v ver' Hne. simpl. rewrite lookup_insert_Some. split; [|].
    + intros [[<- <-]|[_ ?]]; [congruence|done].
    + intros Hl. right. split; [|done]. intros <-. congruence.
  - split; simpl.
    + intros v Hv. destruct (S1 v Hv) as (ver' & Hl & Hx). exists ver'. split; [|done].
      rewrite lookup_insert_ne; [done|]. intros <-. congruence.
    + intros x [= <-]. simpl. by apply S2.
    + intros x q [= <-] [= <-]. exists ver. rewrite lookup_insert_eq. split_and!; try done.
      exists d. apply elem_of_app. right. by apply list_elem_of_singleton.
    + done.
  - intros v ver'. simpl. intros [[<- <-]|[Hne Hl]]%lookup_insert_Some Hid.
    + split; simpl; try done; [unfold p; lia|]. intros _. exists a, (f s).
      rewrite (mv_slots _ _ _ _ _ M), lookup_insert_eq, Hcm. split_and!; [done..|].
      by eexists.
    + destruct (c_version _ Hc _ _ Hl) as [V1 V2 V3 V4 V6 V5].
      split; try done; [simpl; lia|]. intros Hnr. pose proof (V5 Hnr) as Hown.
      apply (owned_here st a s) in Hown; try done. exists a, (f s).
      rewrite (mv_slots _ _ _ _ _ M), lookup_insert_eq. split_and!; [done..|].
      destruct (v_committed ver'); [done|]. destruct Hown as (t' & Ht' & Hph'). congruence.
  - destruct (c_queues _ Hc) as [Q1 Q2 Q3 Q4]. split; simpl; try done.
    + intros e He. destruct (Q2 e He) as (ver' & Hl & ?). exists ver'.
      rewrite lookup_insert_ne; [done|]. intros Heq. congruence.
    + intros c Hin. destruct (Q4 c Hin) as [Hlt Hcc]. split; [lia|]. intros ver'.
      rewrite lookup_insert_ne; [by apply Hcc|]. apply not_eq_sym, Hfg, Hin.
  - destruct (c_counters _ Hc) as [N1 N2 N3 N4 N5 N6 N7 N8 N9].
    pose proof (moves_slot_le st st' a s _ is_claimed M) as Hle.
    unfold is_claimed in Hle at 1. rewrite Ha, Hph in Hle. rewrite <- N2 in Hle.
    destruct (moves_counters st st' a s (f s) Hc M) as (?&?&?&?); simpl;
      try (unfold is_claimed, is_staged, is_published; simpl; rewrite ?Ha, ?Hph, ?dec_pos by lia;
           unfold inc; lia).
    pose proof (bytes_total (versions st) (retired_addrs st)) as Htot.
    pose proof (role_pending _ _ _ Hfr Hcm) as Hrole.
    split; try done; change (retired_addrs st') with (retired_addrs st); simpl;
      rewrite ?msum_insert_new by done; rewrite ?(bytes_in_role _ _ _ _ _ Hrole); simpl;
      try (rewrite wrapping_add_small by lia); lia.
Qed.

(** ** Retirement *)

Lemma retired_addrs_push st st' v b d :
  retired st' = retired st ++ [mkRetired v b d] → retired_addrs st' = retired_addrs st ++ [v].
Proof. intros Hr. unfold retired_addrs. by rewrite Hr, fmap_app. Qed.

Lemma elem_of_push {A} (l : list A) x y : x ∈ l ++ [y] ↔ x ∈ l ∨ x = y.
Proof. rewrite elem_of_app, list_elem_of_singleton. done. Qed.

(** The queues when a version is retired. *)
Lemma queues_retire st st' v ver d :
  core st → versions st !! v = Some ver → v ∉ retired_addrs st →
  versions st' = versions st → retired st' = retired st ++ [mkRetired v (v_reserved ver) d] →
  next_addr st' = next_addr st →
  NoDup (young st' ++ protected st') →
  (∀ c, c ∈ young st' ++ protected st' → c ∈ young st ++ protected st) →
  queues_ok st'.
Proof.
  intros Hc Hv Hnr Hvs Hr Hna Hnd Hsub. destruct (c_queues _ Hc) as [Q1 Q2 Q3 Q4].
  split; rewrite ?Hvs; try done.
  - rewrite (retired_addrs_push _ _ _ _ _ Hr). apply NoDup_app. split_and!; [done| |].
    + intros x Hx ->%list_elem_of_singleton. done.
    + apply NoDup_singleton.
  - intros e. rewrite Hr, elem_of_push. intros [He| ->]; [by apply Q2|]. by exists ver.
  - intros c Hin. rewrite Hna. by apply Q4, Hsub.
Qed.

(** A version leaves its slot for the retired queue. *)
Lemma core_retire st st' a s s' v ver d :
  core st → moves st st' a s s' →
  versions st !! v = Some ver → v_identity ver = s_identity s → v ∉ retired_addrs st →
  versions st' = versions st → retired st' = retired st ++ [mkRetired v (v_reserved ver) d] →
  next_addr st' = next_addr st →
  NoDup (young st' ++ protected st') →
  (∀ c, c ∈ young st' ++ protected st' → c ∈ young st ++ protected st) →
  (∀ t, active s' = Some t → at_base t = committed s' ∧ at_id t < next_transaction_id s') →
  (∀ t' p, active s' = Some t' → at_phase t' = Staged p → p ≠ v ∧ pending st' = pending st ∧
     ∃ t, active s = Some t ∧ at_phase t = Staged p ∧ at_id t = at_id t' ∧
          at_owner t = at_owner t') →
  (∀ t p, p ≠ v → active s = Some t → at_phase t = Staged p →
     ∃ t', active s' = Some t' ∧ at_phase t' = Staged p) →
  (∀ w, committed s' = Some w →
     committed s = Some w ∧ w ≠ v ∧ mkGc a w ∈ young st' ++ protected st') →
  (∀ w, w ≠ v → committed s = Some w → committed s' = Some w) →
  (committed s' = None → active s' = None → ∃ e, mkEmptySlot (s_identity s) a e ∈ empty_slots st') →
  counters_ok st' →
  core st'.
Proof.
  intros Hc M Hv Hvi Hnr Hvs Hr Hna Hnd Hsub Hb Hst' Hst Hcm Hcm' He Hn.
  pose proof (retired_addrs_push _ _ _ _ _ Hr) as Hra.
  pose proof (mv_slot _ _ _ _ _ M) as Hs. pose proof (mv_identity _ _ _ _ _ M) as Hid.
  destruct (c_slot _ Hc _ _ Hs) as [S1 _ S3 _].
  apply (core_local st st' a s s'); try apply M; try done.
  - intros w wer _. by rewrite Hvs.
  - intros w wer Hne Hl. rewrite Hra, elem_of_push. split; [|by auto].
    intros [?| ->]; [done|]. congruence.
  - split; rewrite ?Hid, ?Hvs, ?Hra; try done.
    + intros w Hw. destruct (Hcm w Hw) as (Hw' & Hne & Hg).
      destruct (S1 w Hw') as (wer & Hl & ? & ? & Hnr' & _). exists wer.
      rewrite elem_of_push. split_and!; try done. intros [?|?]; done.
    + intros t' p Ha' Hp. destruct (Hst' t' p Ha' Hp) as (Hne & -> & t & Ha & Hph & <- & <-).
      destruct (S3 t p Ha Hph) as (wer & ? & ? & ? & ? & Hx). exists wer.
      rewrite elem_of_push. split_and!; try done; try apply Hx. intros [?|?]; done.
  - intros w wer Hl Hwi. rewrite Hvs in Hl.
    destruct (c_version _ Hc _ _ Hl) as [V1 V2 V3 V4 V6 V5].
    split; [by rewrite Hna|done..|]. rewrite Hra, elem_of_push. intros Hw.
    assert (w ≠ v) by (intros ->; auto).
    assert (owned st w wer) as Hown by (apply V5; auto).
    apply (owned_here st a s) in Hown; try done. exists a, s'.
    rewrite (mv_slots _ _ _ _ _ M), lookup_insert_eq. split_and!; [done|congruence|].
    destruct (v_committed wer); [by apply Hcm'|]. destruct Hown as (t & Ht & Hph). eauto.
  - by apply (queues_retire st st' v ver d).
Qed.

(** The counters when a version is retired from role [r]. *)
Lemma counters_retire st st' v ver d r :
  core st → versions st !! v = Some ver → v ∉ retired_addrs st →
  role_of (retired_addrs st) v ver = r →
  versions st' = versions st → retired st' = retired st ++ [mkRetired v (v_reserved ver) d] →
  pending_bytes (lifecycle st') + (if bool_decide (r = RPending) then v_reserved ver else 0) =
    pending_bytes (lifecycle st) →
  live_bytes (lifecycle st') + (if bool_decide (r = RLive) then v_reserved ver else 0) =
    live_bytes (lifecycle st) →
  retired_bytes (lifecycle st') = retired_bytes (lifecycle st) + v_reserved ver →
  retired_memory_bytes (lifecycle st') = retired_bytes (lifecycle st') →
  slot_count st' = msum (fun _ _ => 1) (slots st') ∧
  claims (lifecycle st') = msum is_claimed (slots st') ∧
  pending_objects (lifecycle st') = msum is_staged (slots st') ∧
  published_objects (lifecycle st') = msum is_published (slots st') →
  counters_ok st'.
Proof.
  intros Hc Hv Hnr Hrole Hvs Hr B1 B2 B3 B4 (?&?&?&?).
  destruct (c_counters _ Hc) as [_ _ _ _ N5 N6 N7 N8 N9].
  pose proof (retired_addrs_push _ _ _ _ _ Hr) as Hra.
  assert (∀ k, msum (bytes_in k (retired_addrs st')) (versions st) +
               (if bool_decide (r = k) then v_reserved ver else 0) =
               msum (bytes_in k (retired_addrs st)) (versions st) +
               (if bool_decide (RRetired = k) then v_reserved ver else 0)) as Hk.
  { intros k. rewrite <- (bytes_in_role k _ _ _ _ Hrole).
    rewrite <- (bytes_in_role k (retired_addrs st') v ver RRetired)
      by (apply role_retired; rewrite Hra, elem_of_push; auto).
    apply msum_change; [done|]. intros w wer Hne _. unfold bytes_in, role_of.
    rewrite (bool_decide_ext (w ∈ retired_addrs st') (w ∈ retired_addrs st)); [done|].
    rewrite Hra, elem_of_push. tauto. }
  assert (r ≠ RRetired) as Hne.
  { intros ->. revert Hrole. unfold role_of. rewrite bool_decide_eq_false_2 by done.
    by destruct (v_committed ver). }
  pose proof (Hk RPending) as H1'. pose proof (Hk RLive) as H2'. pose proof (Hk RRetired) as H3'.
  rewrite (bool_decide_eq_false_2 (r = RRetired)) in H3' by done. simpl in H1', H2', H3'.
  split; rewrite ?Hvs; try done; lia.
Qed.

Lemma core_abort st st' a s t p ver d :
  core st → slots st !! a = Some s → active s = Some t → at_phase t = Staged p →
  versions st !! p = Some ver →
  moves st st' a s (set_active None s) →
  versions st' = versions st → retired st' = retired st ++ [mkRetired p (v_reserved ver) d] →
  next_addr st' = next_addr st →
  young st' = young st → protected st' = protected st →
  lifecycle st' = on_abort_pending (v_reserved ver) true (lifecycle st) →
  (committed s = None → ∃ e, mkEmptySlot (s_identity s) a e ∈ empty_slots st') →
  core st'.
Proof.
  intros Hc Hs Ha Hph Hv M Hvs Hr Hna Hy Hp Hl He.
  destruct (c_slot _ Hc _ _ Hs) as [S1 S2 S3 _].
  destruct (S3 t p Ha Hph) as (ver' & Hv' & Hvi & Hcm & Hnr & _).
  assert (ver' = ver) as -> by congruence.
  pose proof (role_pending _ _ _ Hnr Hcm) as Hrole.
  apply (core_retire st st' a s (set_active None s) p ver d); try done.
  - rewrite Hy, Hp. apply (c_queues _ Hc).
  - intros c. by rewrite Hy, Hp.
  - intros x q Hne. rewrite Ha. intros [= <-]. congruence.
  - simpl. intros w Hw. destruct (S1 w Hw) as (wer & Hwl & _ & Hwc & _ & Hg).
    split_and!; [done| |by rewrite Hy, Hp]. intros ->. rewrite Hv in Hwl.
    injection Hwl as <-. rewrite Hcm in Hwc. by apply is_Some_None in Hwc.
  - auto.
  - destruct (c_counters _ Hc) as [_ _ N3 _ N5 N6 N7 N8 N9].
    pose proof (msum_elem_le (bytes_in RPending (retired_addrs st)) _ _ _ Hv) as Hb.
    rewrite (bytes_in_role _ _ _ _ _ Hrole), <- N5 in Hb. simpl in Hb.
    pose proof (bytes_total (versions st) (retired_addrs st)) as Htot.
    pose proof (moves_slot_le st st' a s _ is_staged M) as Hle.
    unfold is_staged in Hle at 1. rewrite Ha, Hph, <- N3 in Hle.
    apply (counters_retire st st' p ver d RPending); try done;
      try (rewrite ?Hl; simpl; unfold saturating_sub; rewrite ?wrapping_add_small by lia; lia).
    apply (moves_counters st st' a s (set_active None s)); try done; rewrite Hl; simpl;
      unfold is_claimed, is_staged, is_published; simpl; rewrite ?Ha, ?Hph, ?dec_pos by lia; lia.
Qed.

(** The committed version of an idle slot is retired. *)
Lemma core_retire_published st st' a s v ver d :
  core st → slots st !! a = Some s → active s = None → committed s = Some v →
  versions st !! v = Some ver →
  moves st st' a s (set_committed None s) →
  versions st' = versions st → retired st' = retired st ++ [mkRetired v (v_reserved ver) d] →
  next_addr st' = next_addr st →
  NoDup (young st' ++ protected st') →
  (∀ c, c ∈ young st' ++ protected st' → c ∈ young st ++ protected st) →
  lifecycle st' = on_retire_published (v_reserved ver) true (lifecycle st) →
  (∃ e, mkEmptySlot (s_identity s) a e ∈ empty_slots st') →
  core st'.
Proof.
  intros Hc Hs Ha Hcm Hv M Hvs Hr Hna Hnd Hsub Hl He.
  destruct (c_slot _ Hc _ _ Hs) as [S1 _ _ _].
  destruct (S1 v Hcm) as (ver' & Hv' & Hvi & Hvc & Hnr & _).
  assert (ver' = ver) as -> by congruence.
  pose proof (role_live _ _ _ Hnr Hvc) as Hrole.
  apply (core_retire st st' a s (set_committed None s) v ver d); try done.
  - simpl. intros x. by rewrite Ha.
  - simpl. intros x q. by rewrite Ha.
  - intros x q _. by rewrite Ha.
  - congruence.
  - destruct (c_counters _ Hc) as [_ _ _ N4 N5 N6 N7 N8 N9].
    pose proof (msum_elem_le (bytes_in RLive (retired_addrs st)) _ _ _ Hv) as Hb.
    rewrite (bytes_in_role _ _ _ _ _ Hrole), <- N6 in Hb. simpl in Hb.
    pose proof (bytes_total (versions st) (retired_addrs st)) as Htot.
    pose proof (moves_slot_le st st' a s _ is_published M) as Hle.
    unfold is_published in Hle at 1. rewrite Hcm, <- N4 in Hle.
    apply (counters_retire st st' v ver d RLive); try done;
      try (rewrite ?Hl; simpl; unfold saturating_sub; rewrite ?wrapping_add_small by lia; lia).
    apply (moves_counters st st' a s (set_committed None s)); try done; rewrite Hl; simpl;
      unfold is_claimed, is_staged, is_published; simpl; rewrite ?Ha, ?Hcm, ?dec_pos by lia; lia.
Qed.

(** ** Commit *)

(** The counters of a first publication. *)
Lemma counters_publish st st' a s t p ver cv nv :
  core st → active s = Some t → at_phase t = Staged p → committed s = None →
  versions st !! p = Some ver → v_committed ver = None → p ∉ retired_addrs st →
  moves st st' a s (set_active None (set_committed (Some p)
                      (set_next_ids (next_transaction_id s) nv s))) →
  versions st' = <[p := set_commit (Some cv) ver]> (versions st) →
  retired_addrs st' = retired_addrs st →
  lifecycle st' = on_commit (v_reserved ver) None 0 (lifecycle st) →
  counters_ok st'.
Proof.
  intros Hc Ha Hph Hcm Hv Hvc Hnr M Hvs Hra Hl.
  destruct (c_counters _ Hc) as [N1 N2 N3 N4 N5 N6 N7 N8 N9].
  pose proof (role_pending _ _ _ Hnr Hvc) as Hrole.
  pose proof (role_live _ _ (set_commit (Some cv) ver) Hnr (mk_is_Some _ _ eq_refl)) as Hrole'.
  assert (∀ k, msum (bytes_in k (retired_addrs st')) (versions st') +
               (if bool_decide (RPending = k) then v_reserved ver else 0) =
               msum (bytes_in k (retired_addrs st)) (versions st) +
               (if bool_decide (RLive = k) then v_reserved ver else 0)) as Hk.
  { intros k. rewrite <- (bytes_in_role k _ _ _ _ Hrole), Hra, Hvs.
    etrans; [by apply bytes_move|]. by rewrite (bytes_in_role k _ _ _ _ Hrole'). }
  pose proof (Hk RPending) as H1'. pose proof (Hk RLive) as H2'. pose proof (Hk RRetired) as H3'.
  simpl in H1', H2', H3'.
  pose proof (msum_elem_le (bytes_in RPending (retired_addrs st)) _ _ _ Hv) as Hb.
  rewrite (bytes_in_role _ _ _ _ _ Hrole), <- N5 in Hb. simpl in Hb.
  pose proof (bytes_total (versions st) (retired_addrs st)) as Htot.
  pose proof (bytes_total (versions st') (retired_addrs st')) as Htot'.
  pose proof (moves_slot_le st st' a s _ is_staged M) as Hle.
  unfold is_staged in Hle at 1. rewrite Ha, Hph, <- N3 in Hle.
  edestruct (moves_counters st st' a s) as (?&?&?&?); try done;
    try (rewrite Hl; simpl; unfold is_claimed, is_staged, is_published; simpl;
         rewrite ?Ha, ?Hph, ?Hcm, ?dec_pos by lia; unfold inc; lia).
  split; try done; rewrite ?Hl; simpl; unfold saturating_sub;
    rewrite ?wrapping_add_small by lia; lia.
Qed.

(** A staged version is published on a slot with nothing committed. *)
Lemma core_publish st st' a s t p ver cv nv :
  core st → slots st !! a = Some s → active s = Some t → at_phase t = Staged p →
  committed s = None → versions st !! p = Some ver →
  moves st st' a s (set_active None (set_committed (Some p)
                      (set_next_ids (next_transaction_id s) nv s))) →
  versions st' = <[p := set_commit (Some cv) ver]> (versions st) → retired st' = retired st →
  next_addr st' = next_addr st →
  young st' = young st ++ [mkGc a p] → protected st' = protected st →
  lifecycle st' = on_commit (v_reserved ver) None 0 (lifecycle st) →
  core st'.
Proof.
  intros Hc Hs Ha Hph Hcm Hv M Hvs Hr Hna Hy Hp Hl.
  destruct (c_slot _ Hc _ _ Hs) as [_ _ S3 _].
  destruct (S3 t p Ha Hph) as (ver' & Hv' & Hvi & Hvc & Hnr & _).
  assert (ver' = ver) as -> by congruence. clear Hv'.
  assert (retired_addrs st' = retired_addrs st) as Hra by (unfold retired_addrs; by rewrite Hr).
  assert (young st' ++ protected st' ≡ₚ mkGc a p :: (young st ++ protected st)) as Hgc.
  { rewrite Hy, Hp, <- app_assoc. simpl. by rewrite <- Permutation_middle. }
  destruct (c_queues _ Hc) as [Q1 Q2 Q3 Q4].
  eapply (core_local st st' a s); try apply M; try done.
  - intros w wer Hne. rewrite Hvs, lookup_insert_Some. split.
    + intros [[<- <-]|[_ ?]]; [done|done].
    + intros Hw. right. split; [|done]. intros <-. congruence.
  - intros w wer _ _. by rewrite Hra.
  - simpl. split; simpl; try done. intros w [= <-]. exists (set_commit (Some cv) ver).
    rewrite Hvs, lookup_insert_eq, Hra, Hgc. split_and!; try done. set_solver.
  - intros w wer. rewrite Hvs. intros [[<- <-]|[Hne Hw]]%lookup_insert_Some Hwi.
    + destruct (c_version _ Hc _ _ Hv) as [V1 V2 V3 V4 V6 V5].
      split; try done; [by rewrite Hna|]. intros _. eexists a, _.
      rewrite (mv_slots _ _ _ _ _ M), lookup_insert_eq. by split_and!.
    + destruct (c_version _ Hc _ _ Hw) as [V1 V2 V3 V4 V6 V5].
      split; try done; [by rewrite Hna|]. rewrite Hra. intros Hw'.
      pose proof (V5 Hw') as Hown. apply (owned_here st a s) in Hown; try done.
      destruct (v_committed wer); [congruence|]. destruct Hown as (x & Hx & Hxp). congruence.
  - split; rewrite ?Hra, ?Hr, ?Hgc; try done.
    + intros e He. rewrite Hvs. destruct (Q2 e He) as (wer & Hw & ?). exists wer.
      rewrite lookup_insert_ne; [done|]. intros Heq. apply Hnr.
      apply list_elem_of_fmap. by exists e.
    + constructor; [|done]. intros Hin. destruct (Q4 _ Hin) as [_ Hx]. simpl in Hx.
      specialize (Hx _ Hv). rewrite Hvc in Hx. by apply is_Some_None in Hx.
    + intros c. rewrite Hgc, Hna, Hvs. intros [->|Hin]%elem_of_cons; simpl.
      * rewrite lookup_insert_eq. split; [by apply (c_version _ Hc _ _ Hv)|].
        intros wer [= <-]. by eexists.
      * destruct (Q4 c Hin) as [? Hx]. split; [done|]. intros wer.
        intros [[_ <-]|[_ ?]]%lookup_insert_Some; [by eexists|auto].
  - apply (counters_publish st st' a s t p ver cv nv); done.
Qed.

(** The base of a staged transaction is retired before its replacement. *)
Definition detach_base (a : N) (t : ActiveTransaction) (b bytes d : N) st : Catalog R :=
  count (on_retire_published bytes true)
    (push_retired b bytes d
      (update_slot a (fun s0 => set_committed None
         (set_active (Some (mkActive (at_id t) (at_owner t) None (at_pins t) (at_phase t))) s0))
        st)).

Lemma core_detach_base st a s t p b old d :
  core st → slots st !! a = Some s → active s = Some t → at_phase t = Staged p →
  committed s = Some b → versions st !! b = Some old →
  core (detach_base a t b (v_reserved old) d st).
Proof.
  intros Hc Hs Ha Hph Hcm Hb. set (st' := detach_base _ _ _ _ _ _).
  set (f := fun s0 => set_committed None
         (set_active (Some (mkActive (at_id t) (at_owner t) None (at_pins t) (at_phase t))) s0)).
  assert (moves st st' a s (f s)) as M.
  { split; simpl; try done. by apply alter_lookup_insert. }
  destruct (c_slot _ Hc _ _ Hs) as [S1 S2 S3 _].
  destruct (S1 b Hcm) as (old' & Hb' & Hbi & Hbc & Hnr & _).
  assert (old' = old) as -> by congruence.
  destruct (S3 t p Ha Hph) as (ver & Hv & _ & Hvc & _).
  assert (p ≠ b) as Hpb.
  { intros ->. rewrite Hb in Hv. injection Hv as <-. rewrite Hvc in Hbc. by destruct Hbc. }
  pose proof (role_live _ _ _ Hnr Hbc) as Hrole.
  apply (core_retire st st' a s (f s) b old d); try done.
  - apply (c_queues _ Hc).
  - simpl. intros x [= <-]. simpl. split; [done|]. by apply (S2 t).
  - simpl. intros x q [= <-]. simpl. intros Hq. rewrite Hph in Hq. injection Hq as <-.
    split_and!; [done..|]. by exists t.
  - simpl. intros x q Hne. rewrite Ha. intros [= <-] Hx. by eexists.
  - congruence.
  - destruct (c_counters _ Hc) as [_ _ _ N4 N5 N6 N7 N8 N9].
    pose proof (msum_elem_le (bytes_in RLive (retired_addrs st)) _ _ _ Hb) as Hle'.
    rewrite (bytes_in_role _ _ _ _ _ Hrole), <- N6 in Hle'. simpl in Hle'.
    pose proof (bytes_total (versions st) (retired_addrs st)) as Htot.
    pose proof (moves_slot_le st st' a s _ is_published M) as Hle.
    unfold is_published in Hle at 1. rewrite Hcm, <- N4 in Hle.
    apply (counters_retire st st' b old d RLive); try done; simpl; unfold saturating_sub;
      rewrite ?wrapping_add_small by lia; try lia.
    apply (moves_counters st st' a s (f s)); try done; simpl;
      unfold is_claimed, is_staged, is_published; simpl; rewrite ?Ha, ?Hcm, ?dec_pos by lia; lia.
Qed.

(** Publishing over a base counts as retiring the base and publishing. *)
Lemma on_commit_replaced st a s v ver p pver :
  core st → slots st !! a = Some s → committed s = Some v → versions st !! v = Some ver →
  versions st !! p = Some pver → v_committed pver = None → p ∉ retired_addrs st →
  on_commit (v_reserved pver) (Some (v_reserved ver)) (v_reserved ver) (lifecycle st) =
  on_commit (v_reserved pver) None 0
    (on_retire_published (v_reserved ver) true (lifecycle st)).
Proof.
  intros Hc Hs Hcm Hv Hp Hpc Hpr. destruct (c_counters _ Hc) as [_ _ _ N4 N5 N6 N7 N8 N9].
  destruct (so_committed _ _ _ (c_slot _ Hc _ _ Hs) v Hcm) as (ver' & Hv' & _ & Hvc & Hnr & _).
  assert (ver' = ver) as -> by congruence.
  pose proof (msum_elem_le (bytes_in RLive (retired_addrs st)) _ _ _ Hv) as Hb.
  rewrite (bytes_in_role _ _ _ _ _ (role_live _ _ _ Hnr Hvc)), <- N6 in Hb. simpl in Hb.
  pose proof (msum_elem_le (bytes_in RPending (retired_addrs st)) _ _ _ Hp) as Hb'.
  rewrite (bytes_in_role _ _ _ _ _ (role_pending _ _ _ Hpr Hpc)), <- N5 in Hb'. simpl in Hb'.
  pose proof (bytes_total (versions st) (retired_addrs st)) as Htot.
  pose proof (msum_elem_le is_published _ _ _ Hs) as Hle.
  unfold is_published in Hle at 1. rewrite Hcm, <- N4 in Hle.
  unfold on_commit, on_retire_published. simpl. unfold saturating_sub, inc.
  rewrite !wrapping_add_small, (dec_pos (published_objects _)) by lia. f_equal; lia.
Qed.

Lemma core_commit st st' a s t p ver cv nv d :
  core st → slots st !! a = Some s → active s = Some t → at_phase t = Staged p →
  versions st !! p = Some ver →
  let base := committed s ≫= fun b => versions st !! b in
  moves st st' a s (set_active None (set_committed (Some p)
                      (set_next_ids (next_transaction_id s) nv s))) →
  versions st' = <[p := set_commit (Some cv) ver]> (versions st) →
  retired st' = retired st ++
    match committed s, base with
    | Some b, Some old => [mkRetired b (v_reserved old) d]
    | _, _ => []
    end →
  next_addr st' = next_addr st →
  young st' = young st ++ [mkGc a p] → protected st' = protected st →
  lifecycle st' = on_commit (v_reserved ver) (v_reserved <$> base)
    (match base with Some old => v_reserved old | None => 0 end) (lifecycle st) →
  core st'.
Proof.
  intros Hc Hs Ha Hph Hv base M Hvs Hr Hna Hy Hp Hl.
  destruct (c_slot _ Hc _ _ Hs) as [S1 S2 S3 _].
  destruct (committed s) as [b|] eqn:Hcm; unfold base in *; simpl in *.
  - destruct (S1 b eq_refl) as (old & Hb & _). rewrite Hb in Hr, Hl. simpl in Hl.
    destruct (S3 t p Ha Hph) as (ver' & Hv' & _ & Hvc & Hnr & _).
    assert (ver' = ver) as -> by congruence.
    pose proof (core_detach_base st a s t p b old d Hc Hs Ha Hph Hcm Hb) as Hc1.
    set (st1 := detach_base a t b (v_reserved old) d st) in *.
    set (s1 := set_committed None (set_active (Some (mkActive (at_id t) (at_owner t) None
                 (at_pins t) (at_phase t))) s)).
    assert (slots st1 = <[a := s1]> (slots st)) as Hsl1
      by exact (alter_lookup_insert _ _ _ _ Hs).
    assert (slots st1 !! a = Some s1) as Hs1 by (rewrite Hsl1; apply lookup_insert_eq).
    eapply (core_publish st1 st' a s1 _ p ver cv nv); try done.
    + destruct M as [? Mslots ???? Mg Mp Me]. split; simpl; try done.
      change (alter _ a (slots st)) with (slots st1). by rewrite Mslots, Hsl1, insert_insert_eq.
    + rewrite Hl. by apply (on_commit_replaced st a s b old p ver).
  - rewrite app_nil_r in Hr. by eapply (core_publish st st' a s t p ver cv nv).
Qed.

(** ** Queue maintenance *)

(** Only queues change, and no entry that still matters is lost. *)
Lemma core_requeue st st' :
  core st →
  index st' = index st → slot_count st' = slot_count st → slots st' = slots st →
  versions st' = versions st → next_addr st' = next_addr st →
  lifecycle st' = lifecycle st → retired st' = retired st →
  NoDup (young st' ++ protected st') →
  (∀ c, c ∈ young st' ++ protected st' → c ∈ young st ++ protected st) →
  (∀ a s v, slots st !! a = Some s → committed s = Some v →
     mkGc a v ∈ young st ++ protected st → mkGc a v ∈ young st' ++ protected st') →
  (∀ a s t p d, slots st !! a = Some s → active s = Some t → at_phase t = Staged p →
     mkPending a p (at_id t) d ∈ pending st → mkPending a p (at_id t) d ∈ pending st') →
  (∀ a s d, slots st !! a = Some s → committed s = None → active s = None →
     mkEmptySlot (s_identity s) a d ∈ empty_slots st →
     mkEmptySlot (s_identity s) a d ∈ empty_slots st') →
  core st'.
Proof.
  intros [C1 C2 C3 C4 C5 C6] Hix Hsc Hsl Hv Hna Hl Hr Hnd Hsub Hgc Hpe Hem.
  assert (retired_addrs st' = retired_addrs st) as Hra by (unfold retired_addrs; by rewrite Hr).
  split.
  - intros i a. rewrite Hix, Hsl. apply C1.
  - intros a s. rewrite Hsl, Hna. apply C2.
  - intros a s. rewrite Hsl. intros Hs. destruct (C3 a s Hs) as [S1 S2 S3 S4].
    split; rewrite ?Hv, ?Hra; try done.
    + intros v Hcm. destruct (S1 v Hcm) as (ver & ? & ? & ? & ? & ?).
      exists ver. split_and!; eauto.
    + intros t p Ha Hph. destruct (S3 t p Ha Hph) as (ver & ? & ? & ? & ? & ? & ? & d & ?).
      exists ver. split_and!; eauto.
    + intros Hcm Ha. destruct (S4 Hcm Ha) as [d ?]. eauto.
  - intros v ver. rewrite Hv. intros Hver. destruct (C4 v ver Hver) as [V1 V2 V3 V4 V6 V5].
    split; try done; [by rewrite Hna|]. rewrite Hra. intros Hn.
    destruct (V5 Hn) as (a & s & ? & ? & ?). exists a, s. by rewrite Hsl.
  - destruct C5 as [Q1 Q2 Q3 Q4]. split; rewrite ?Hra, ?Hr, ?Hv, ?Hna; try done. eauto.
  - destruct C6. split; rewrite ?Hra, ?Hl, ?Hv, ?Hsl, ?Hsc; done.
Qed.

(** ** Pruning *)

Lemma counters_prune st st' v ver rs bytes :
  core st → versions st !! v = Some ver → is_Some (v_committed ver) → v ∉ retired_addrs st →
  bytes <= v_reserved ver →
  retired_addrs st' = retired_addrs st → slot_count st' = slot_count st →
  slots st' = slots st →
  versions st' = <[v := set_replicas rs (v_reserved ver - bytes) ver]> (versions st) →
  lifecycle st' = on_prune_published bytes (lifecycle st) →
  counters_ok st'.
Proof.
  intros Hc Hv Hvc Hnr Hb Hra Hsc Hsl Hvs Hl.
  set (new := set_replicas rs (v_reserved ver - bytes) ver) in *.
  destruct (c_counters _ Hc) as [N1 N2 N3 N4 N5 N6 N7 N8 N9].
  pose proof (role_live _ _ _ Hnr Hvc) as Hrole.
  assert (role_of (retired_addrs st) v new = RLive) as Hrole' by (by apply role_live).
  assert (∀ k, msum (bytes_in k (retired_addrs st')) (versions st') +
               (if bool_decide (RLive = k) then v_reserved ver else 0) =
               msum (bytes_in k (retired_addrs st)) (versions st) +
               (if bool_decide (RLive = k) then v_reserved ver - bytes else 0)) as Hk.
  { intros k. rewrite <- (bytes_in_role k _ _ _ _ Hrole), Hra, Hvs.
    etrans; [by apply bytes_move|]. by rewrite (bytes_in_role k _ _ _ _ Hrole'). }
  pose proof (Hk RPending) as H1'. pose proof (Hk RLive) as H2'. pose proof (Hk RRetired) as H3'.
  simpl in H1', H2', H3'.
  pose proof (bytes_total (versions st) (retired_addrs st)) as Htot.
  pose proof (bytes_total (versions st') (retired_addrs st')) as Htot'.
  split; rewrite ?Hsl, ?Hsc, ?Hl; simpl; unfold saturating_sub; try done; lia.
Qed.

Lemma core_prune st st' a s v ver rs bytes :
  core st → slots st !! a = Some s → committed s = Some v → versions st !! v = Some ver →
  normal rs → replicas rs ≠ [] → (∀ r, r ∈ replicas rs → r ∈ replicas (v_replicas ver)) →
  sum_by lease_reserved (replicas rs) + bytes = v_reserved ver →
  index st' = index st → slot_count st' = slot_count st → slots st' = slots st →
  next_addr st' = next_addr st → retired st' = retired st →
  pending st' = pending st → empty_slots st' = empty_slots st →
  young st' ++ protected st' ≡ₚ young st ++ protected st →
  versions st' = <[v := set_replicas rs (v_reserved ver - bytes) ver]> (versions st) →
  lifecycle st' = on_prune_published bytes (lifecycle st) →
  core st'.
Proof.
  intros Hc Hs Hcm Hv Hn1 Hn2 Hin Hsum Hix Hsc Hsl Hna Hr Hpe Hem Hgc Hvs Hl.
  destruct (c_slot _ Hc _ _ Hs) as [S1 S2 S3 S4]. destruct (S1 v Hcm) as (ver' & Hv' & Hvi & Hvc & Hnr & _).
  assert (ver' = ver) as -> by congruence. clear Hv'.
  assert (retired_addrs st' = retired_addrs st) as Hra by (unfold retired_addrs; by rewrite Hr).
  set (new := set_replicas rs (v_reserved ver - bytes) ver) in *.
  assert (moves st st' a s s) as M.
  { split; try done; [by rewrite Hsl, insert_id|by rewrite Hna| |by rewrite Hpe|by rewrite Hem].
    intros c _. by rewrite Hgc. }
  apply (core_local st st' a s s); try apply M; try done.
  - intros w wer Hne. rewrite Hvs, lookup_insert_Some. split.
    + intros [[<- <-]|[_ ?]]; [done|done].
    + intros Hw. right. split; [|done]. intros <-. congruence.
  - intros w wer _ _. by rewrite Hra.
  - split; rewrite ?Hra, ?Hvs, ?Hpe, ?Hem; try done.
    + intros w Hw. assert (w = v) as -> by congruence. exists new.
      rewrite lookup_insert_eq, Hgc. destruct (S1 v Hcm) as (? & _ & _ & _ & _ & ?). by split_and!.
    + intros t p Ha Hph. destruct (S3 t p Ha Hph) as (wer & Hw & ? & Hwc & ?). exists wer.
      rewrite lookup_insert_ne; [done|]. intros <-. rewrite Hv in Hw. injection Hw as <-.
      rewrite Hwc in Hvc. by destruct Hvc.
  - intros w wer. rewrite Hvs. intros Hw Hwi.
    assert (∃ wer', versions st !! w = Some wer' ∧ v_identity wer' = v_identity wer ∧
              v_committed wer' = v_committed wer) as (wer' & Hw' & Hid' & Hco').
    { apply lookup_insert_Some in Hw as [[<- <-]|[_ Hw]]; eauto. }
    destruct (c_version _ Hc _ _ Hw') as [V1 V2 V3 V4 V6 V5].
    split; [by rewrite Hna|..].
    + apply lookup_insert_Some in Hw as [[<- <-]|[_ Hw]]; [done|congruence].
    + apply lookup_insert_Some in Hw as [[<- <-]|[_ Hw]]; [done|congruence].
    + apply lookup_insert_Some in Hw as [[<- <-]|[_ Hw]]; [simpl; lia|congruence].
    + apply lookup_insert_Some in Hw as [[<- <-]|[_ Hw]];
        [|rewrite Hw' in Hw; by injection Hw as <-].
      intros r Hr'. apply (c_version _ Hc _ _ Hv). by apply Hin.
    + rewrite Hra. intros Hn. destruct (V5 Hn) as (b & t & Ht & Hti & Hown).
      exists b, t. rewrite Hsl, <- Hid', <- Hco'. done.
  - destruct (c_queues _ Hc) as [Q1 Q2 Q3 Q4]. split; rewrite ?Hra, ?Hr, ?Hvs, ?Hgc, ?Hna; try done.
    + intros e He. destruct (Q2 e He) as (wer & Hw & ?). exists wer.
      rewrite lookup_insert_ne; [done|]. intros Heq. apply Hnr, list_elem_of_fmap. by exists e.
    + intros c. rewrite Hgc. intros Hc'. destruct (Q4 c Hc') as [? Hx]. split; [done|].
      intros wer [[_ <-]|[_ ?]]%lookup_insert_Some; [done|auto].
  - apply (counters_prune st st' v ver rs bytes); try done. lia.
Qed.

(** The order of the retired queue does not matter. *)
Lemma core_perm st st' :
  core st → retired st' ≡ₚ retired st →
  index st' = index st → slot_count st' = slot_count st → slots st' = slots st →
  versions st' = versions st → next_addr st' = next_addr st → lifecycle st' = lifecycle st →
  young st' = young st → protected st' = protected st → pending st' = pending st →
  empty_slots st' = empty_slots st →
  core st'.
Proof.
  intros [C1 C2 C3 C4 C5 C6] Hr Hix Hsc Hsl Hv Hna Hl Hy Hp Hpe Hem.
  assert (retired_addrs st' ≡ₚ retired_addrs st) as Hra by (unfold retired_addrs; by rewrite Hr).
  assert (∀ v, v ∈ retired_addrs st' ↔ v ∈ retired_addrs st) as Hin by (intros v; by rewrite Hra).
  split.
  - intros i a. rewrite Hix, Hsl. apply C1.
  - intros a s. rewrite Hsl, Hna. apply C2.
  - intros a s. rewrite Hsl. intros Hs. destruct (C3 a s Hs) as [S1 S2 S3 S4].
    split; rewrite ?Hv, ?Hy, ?Hp, ?Hpe, ?Hem; try done.
    + intros v Hcm. setoid_rewrite Hin. by apply S1.
    + intros t p Ha Hph. setoid_rewrite Hin. by apply (S3 t p).
  - intros v ver. rewrite Hv. intros Hver. destruct (C4 v ver Hver) as [V1 V2 V3 V4 V6 V5].
    split; try done; [by rewrite Hna|]. rewrite Hin. intros Hn.
    destruct (V5 Hn) as (a & s & ? & ? & ?). exists a, s. by rewrite Hsl.
  - destruct C5 as [Q1 Q2 Q3 Q4].
    split; rewrite ?Hra, ?Hv, ?Hna, ?Hy, ?Hp; try done. intros e. rewrite Hr. apply Q2.
  - destruct C6 as [? ? ? ? N5 N6 N7 N8 N9].
    assert (∀ k, msum (bytes_in k (retired_addrs st')) (versions st) =
                 msum (bytes_in k (retired_addrs st)) (versions st)) as Hk.
    { intros k. apply msum_ext. intros v ver _. unfold bytes_in, role_of.
      by rewrite (bool_decide_ext _ _ (Hin v)). }
    split; rewrite ?Hl, ?Hv, ?Hsl, ?Hsc, ?Hk; done.
Qed.

(** ** Reclamation *)

Lemma counters_reclaim st st' e q ver :
  core st → retired st = e :: q → versions st !! ro_version e = Some ver →
  slot_count st' = slot_count st → slots st' = slots st →
  versions st' = delete (ro_version e) (versions st) → retired st' = q →
  lifecycle st' = counters_on_reclaim (ro_reserved e) true (lifecycle st) →
  counters_ok st'.
Proof.
  intros Hc Hr Hv Hsc Hsl Hvs Hr' Hl.
  destruct (c_counters _ Hc) as [N1 N2 N3 N4 N5 N6 N7 N8 N9].
  destruct (c_queues _ Hc) as [Q1 Q2 _ _].
  assert (ro_reserved e = v_reserved ver) as Hb.
  { destruct (Q2 e) as (ver' & ? & ?); [rewrite Hr; set_solver|congruence]. }
  assert (retired_addrs st = ro_version e :: retired_addrs st') as Hra
    by (unfold retired_addrs; by rewrite Hr, Hr').
  assert (role_of (retired_addrs st) (ro_version e) ver = RRetired) as Hrole
    by (apply role_retired; rewrite Hra; set_solver).
  assert (∀ k, msum (bytes_in k (retired_addrs st)) (versions st) =
               msum (bytes_in k (retired_addrs st')) (versions st') +
               (if bool_decide (RRetired = k) then v_reserved ver else 0)) as Hk.
  { intros k. rewrite <- (bytes_in_role k _ _ _ _ Hrole), Hvs, (msum_delete _ _ _ _ Hv).
    rewrite (msum_ext (bytes_in k (retired_addrs st)) (bytes_in k (retired_addrs st'))
               (delete (ro_version e) (versions st))); [lia|].
    intros w wer [Hne Hw]%lookup_delete_Some. unfold bytes_in, role_of.
    rewrite (bool_decide_ext (w ∈ retired_addrs st) (w ∈ retired_addrs st')); [done|].
    rewrite Hra. set_solver. }
  pose proof (Hk RPending) as H1'. pose proof (Hk RLive) as H2'. pose proof (Hk RRetired) as H3'.
  simpl in H1', H2', H3'.
  pose proof (bytes_total (versions st) (retired_addrs st)) as Htot.
  pose proof (bytes_total (versions st') (retired_addrs st')) as Htot'.
  split; rewrite ?Hsl, ?Hsc, ?Hl; simpl; unfold saturating_sub; try done; lia.
Qed.

Lemma core_reclaim st st' e q ver :
  core st → retired st = e :: q → versions st !! ro_version e = Some ver →
  index st' = index st → slot_count st' = slot_count st → slots st' = slots st →
  next_addr st' = next_addr st → young st' = young st → protected st' = protected st →
  pending st' = pending st → empty_slots st' = empty_slots st →
  versions st' = delete (ro_version e) (versions st) → retired st' = q →
  lifecycle st' = counters_on_reclaim (ro_reserved e) true (lifecycle st) →
  core st'.
Proof.
  intros Hc Hr Hv Hix Hsc Hsl Hna Hy Hp Hpe Hem Hvs Hr' Hl.
  assert (retired_addrs st = ro_version e :: retired_addrs st') as Hra
    by (unfold retired_addrs; by rewrite Hr, Hr').
  assert (∀ w, w ∉ retired_addrs st → w ∉ retired_addrs st' ∧ w ≠ ro_version e) as Hnr
    by (rewrite Hra; set_solver).
  destruct (c_queues _ Hc) as [Q1 Q2 Q3 Q4]. rewrite Hra in Q1.
  apply NoDup_cons in Q1 as [Q1a Q1b].
  split.
  - intros i a. rewrite Hix, Hsl. apply (c_index _ Hc).
  - intros a s. rewrite Hsl, Hna. apply (c_addr _ Hc).
  - intros a s. rewrite Hsl. intros Hs. destruct (c_slot _ Hc _ _ Hs) as [S1 S2 S3 S4].
    split; rewrite ?Hvs, ?Hy, ?Hp, ?Hpe, ?Hem; try done.
    + intros v Hcm. destruct (S1 v Hcm) as (wer & ? & ? & ? & Hn & ?).
      destruct (Hnr v Hn). exists wer. rewrite lookup_delete_ne by done. done.
    + intros t p Ha Hph. destruct (S3 t p Ha Hph) as (wer & ? & ? & ? & Hn & ?).
      destruct (Hnr p Hn). exists wer. rewrite lookup_delete_ne by done. done.
  - intros v wer. rewrite Hvs. intros [Hne Hw]%lookup_delete_Some.
    destruct (c_version _ Hc _ _ Hw) as [V1 V2 V3 V4 V6 V5].
    split; try done; [by rewrite Hna|]. intros Hn.
    destruct V5 as (a & s & ? & ? & ?); [rewrite Hra; set_solver|].
    exists a, s. by rewrite Hsl.
  - split; rewrite ?Hy, ?Hp, ?Hna, ?Hr', ?Hvs; try done.
    + intros x Hx. destruct (Q2 x) as (wer & Hw & ?); [rewrite Hr; set_solver|].
      exists wer. rewrite lookup_delete_ne; [done|]. intros Heq. apply Q1a.
      rewrite Heq. unfold retired_addrs. rewrite Hr'. apply list_elem_of_fmap. by exists x.
    + intros c Hin. destruct (Q4 c Hin) as [? Hx]. split; [done|].
      intros wer [_ ?]%lookup_delete_Some. auto.
  - by apply (counters_reclaim st st' e q ver).
Qed.

(** ** Empty slots *)

Lemma core_clean st st' a s :
  core st → slots st !! a = Some s → committed s = None → active s = None →
  index st' = delete (s_identity s) (index st) → slot_count st' = dec (slot_count st) →
  slots st' = delete a (slots st) → versions st' = versions st →
  next_addr st' = next_addr st → lifecycle st' = lifecycle st → retired st' = retired st →
  young st' = young st → protected st' = protected st → pending st' = pending st →
  (∀ c, es_slot c ≠ a → c ∈ empty_slots st → c ∈ empty_slots st') →
  core st'.
Proof.
  intros Hc Hs Hcm Ha Hix Hsc Hsl Hvs Hna Hl Hr Hy Hp Hpe Hem.
  assert (retired_addrs st' = retired_addrs st) as Hra by (unfold retired_addrs; by rewrite Hr).
  split.
  - intros i b. rewrite Hix, Hsl, lookup_delete_Some. rewrite (c_index _ Hc). split.
    + intros [Hne (t & Ht & <-)]. exists t. rewrite lookup_delete_ne; [done|].
      intros <-. congruence.
    + intros (t & [Hne Ht]%lookup_delete_Some & <-). split; [|by eauto].
      intros Heq. apply Hne. by apply (slot_unique st a b s t).
  - intros b t. rewrite Hsl, Hna. intros [_ Ht]%lookup_delete_Some. by apply (c_addr _ Hc b t).
  - intros b t. rewrite Hsl. intros [Hne Ht]%lookup_delete_Some.
    destruct (c_slot _ Hc _ _ Ht) as [S1 S2 S3 S4].
    split; rewrite ?Hvs, ?Hra, ?Hy, ?Hp, ?Hpe; try done.
    intros H1 H2. destruct (S4 H1 H2) as [d Hd]. exists d. by apply Hem.
  - intros v ver. rewrite Hvs. intros Hv. destruct (c_version _ Hc _ _ Hv) as [V1 V2 V3 V4 V6 V5].
    split; try done; [by rewrite Hna|]. rewrite Hra. intros Hn.
    destruct (V5 Hn) as (b & t & Ht & ? & Hown). exists b, t.
    rewrite Hsl, lookup_delete_ne; [done|]. intros <-. rewrite Hs in Ht. injection Ht as <-.
    destruct (v_committed ver); [congruence|]. destruct Hown as (x & ? & _). congruence.
  - apply (queues_same st); try done; [by rewrite Hna|rewrite Hy, Hp; apply (c_queues _ Hc)|].
    intros c. by rewrite Hy, Hp.
  - destruct (c_counters _ Hc) as [N1 N2 N3 N4 N5 N6 N7 N8 N9].
    assert (∀ f, msum f (slots st) = f a s + msum f (slots st')) as Hm.
    { intros f. rewrite Hsl. by apply msum_delete. }
    pose proof (Hm (fun _ _ => 1)) as E1. pose proof (Hm is_claimed) as E2.
    pose proof (Hm is_staged) as E3. pose proof (Hm is_published) as E4. simpl in E1.
    unfold is_claimed in E2 at 2. unfold is_staged in E3 at 2. unfold is_published in E4 at 2.
    rewrite Ha in E2, E3. rewrite Hcm in E4.
    split; rewrite ?Hra, ?Hvs, ?Hl, ?Hsc, ?dec_pos by lia; try done; lia.
Qed.

Lemma core_new cid c : core (catalog_new cid c).
Proof.
  split; simpl; try done.
  - intros i a. rewrite lookup_empty. split; [done|]. intros (s & Hs & _).
    by rewrite lookup_empty in Hs.
  - split; simpl; [apply NoDup_nil_2| |apply NoDup_nil_2|];
      intros x Hx; by apply not_elem_of_nil in Hx.
Qed.
End Inv.
