(* ===== verification/CatalogOps.v ===== *)
(** * The operations preserve the catalog invariant

    The structural invariant does not depend on tenant accounting, access
    control, soft-pin entries, reclaim debt or sweep progress.  [erase] forgets
    them, and [inv] is the invariant of the erased state: the steps that touch
    only those parts leave it as it is, and the others are the transitions of
    [CatalogInv]. *)
From S2P Require Import Prelude Identity Segment TenantQuota Replica ObjectTypes CatalogState.
From S2P Require Import CatalogWrite CatalogCollector CatalogInv.

Section Ops.
Context {R : Type} `{Resource R}.
Implicit Types (st : Catalog R) (ver : ObjectVersion R).

(** ** Erasure *)

Definition erase_commit (cv : CommittedVersion) : CommittedVersion :=
  mkCommitted (cv_id cv) (cv_commit cv) (mkAccess 0 false 0 false).

Definition erase_version ver : ObjectVersion R :=
  mkVersion (origin ver) (v_owner ver) (v_identity ver) (v_content ver) (v_replicas ver)
    (v_reserved ver) None (erase_commit <$> v_committed ver).

Definition erase st : Catalog R :=
  mkCatalog (catalog_id st) (config st) (index st) (slot_count st) (slots st)
    (erase_version <$> versions st) (next_addr st) (lifecycle st) (young st) (protected st)
    [] (pending st) (retired st) (empty_slots st) 0 (mkSweep false 0 0) ∅ [].

Definition inv st : Prop := core (erase st).

Lemma erase_lookup st v : versions (erase st) !! v = erase_version <$> versions st !! v.
Proof. apply lookup_fmap. Qed.

Lemma erase_update_same st v f :
  (∀ ver, erase_version (f ver) = erase_version ver) → erase (update_version v f st) = erase st.
Proof.
  intros Hf. unfold erase, update_version. simpl. f_equal.
  apply map_eq. intros w. rewrite !lookup_fmap. destruct (decide (v = w)) as [->|Hne].
  - rewrite lookup_alter_eq. destruct (versions st !! w); simpl; [by rewrite Hf|done].
  - by rewrite lookup_alter_ne.
Qed.

Lemma erase_charge_step f v st : erase (charge_step f v st) = erase st.
Proof.
  unfold charge_step. destruct (versions st !! v); [|done].
  destruct (tenant_accounting _) as [[c b]|]; [|done].
  destruct (accounts st !! _); [|done]. destruct (f _ _ _) as [ph a'].
  etrans; [|apply (erase_update_same st v (set_accounting (Some (mkCharge (charge_entry c) ph))));
             by intros []]. done.
Qed.

Lemma erase_commit_accounting v st : erase (commit_accounting v st) = erase st.
Proof. apply erase_charge_step. Qed.
Lemma erase_abort_accounting v st : erase (abort_accounting v st) = erase st.
Proof. apply erase_charge_step. Qed.
Lemma erase_mark_retiring v st : erase (mark_accounting_retiring v st) = erase st.
Proof. apply erase_charge_step. Qed.
Lemma erase_release_accounting v st : erase (release_accounting v st) = erase st.
Proof. apply erase_charge_step. Qed.

Lemma erase_set_access v x st : erase (update_version v (set_access x) st) = erase st.
Proof.
  apply erase_update_same. intros [? ? ? ? ? ? ? [cv|]]; done.
Qed.

Lemma erase_set_commit v cv st :
  erase (update_version v (set_commit (Some cv)) st) =
  update_version v (set_commit (Some (erase_commit cv))) (erase st).
Proof.
  unfold erase, update_version, set_versions. simpl. f_equal. apply map_eq. intros w.
  rewrite lookup_fmap. destruct (decide (v = w)) as [->|Hne].
  - rewrite !lookup_alter_eq, lookup_fmap. by destruct (versions st !! w).
  - by rewrite !lookup_alter_ne, lookup_fmap.
Qed.

(** The other updates commute with erasure or vanish under it. *)
Lemma erase_count f st : erase (count f st) = count f (erase st).
Proof. done. Qed.
Lemma erase_update_slot a f st : erase (update_slot a f st) = update_slot a f (erase st).
Proof. done. Qed.
Lemma erase_push_retired v b d st : erase (push_retired v b d st) = push_retired v b d (erase st).
Proof. done. Qed.
Lemma erase_enqueue_empty a i d st :
  erase (enqueue_empty a i d st) = enqueue_empty a i d (erase st).
Proof. done. Qed.
Lemma erase_push_young c st : erase (push_young c st) = push_young c (erase st).
Proof. done. Qed.
Lemma erase_push_soft_pin c st : erase (push_soft_pin c st) = erase st.
Proof. done. Qed.
Lemma erase_set_young q st : erase (set_young q st) = set_young q (erase st).
Proof. done. Qed.
Lemma erase_set_protected q st : erase (set_protected q st) = set_protected q (erase st).
Proof. done. Qed.
Lemma erase_set_pending q st : erase (set_pending q st) = set_pending q (erase st).
Proof. done. Qed.
Lemma erase_set_retired q st : erase (set_retired q st) = set_retired q (erase st).
Proof. done. Qed.
Lemma erase_set_empty_slots q st : erase (set_empty_slots q st) = set_empty_slots q (erase st).
Proof. done. Qed.
Lemma erase_request_liveness st : erase (request_liveness st) = erase st.
Proof. done. Qed.
Lemma erase_set_liveness w st : erase (set_liveness w st) = erase st.
Proof. done. Qed.
Lemma erase_debt_on_reclaim b st : erase (debt_on_reclaim b st) = erase st.
Proof. done. Qed.
Lemma erase_set_soft_pins q st : erase (set_soft_pins q st) = erase st.
Proof. done. Qed.
Lemma erase_set_freed q st : erase (set_freed q st) = erase st.
Proof. done. Qed.
Lemma erase_set_accounts q st : erase (set_accounts q st) = erase st.
Proof. done. Qed.
End Ops.

Create Rewrite HintDb erase.
#[export] Hint Rewrite @erase_commit_accounting @erase_abort_accounting @erase_mark_retiring
  @erase_release_accounting @erase_set_access @erase_set_commit @erase_count @erase_update_slot
  @erase_push_retired @erase_push_young @erase_push_soft_pin
  @erase_enqueue_empty @erase_set_young @erase_set_protected
  @erase_set_pending @erase_set_retired @erase_set_empty_slots @erase_request_liveness
  @erase_set_liveness @erase_debt_on_reclaim @erase_set_soft_pins @erase_set_freed
  @erase_set_accounts : erase.

Section Preservation.
Context {R : Type} `{Resource R}.
Implicit Types (st : Catalog R) (ver : ObjectVersion R).

(** ** What the invariant says of the unerased state *)

Lemma inv_committed st a s v :
  inv st → slots st !! a = Some s → committed s = Some v →
  ∃ ver, versions st !! v = Some ver ∧ v_identity ver = s_identity s ∧
         is_Some (v_committed ver) ∧ v ∉ retired_addrs st ∧
         mkGc a v ∈ young st ++ protected st.
Proof.
  intros Hc Hs Hcm.
  destruct (so_committed _ _ _ (c_slot _ Hc a s Hs) v Hcm) as (ver & Hv & ? & Hs' & ? & ?).
  rewrite erase_lookup in Hv. apply fmap_Some in Hv as (ver0 & Hv & ->).
  exists ver0. split_and!; try done. simpl in Hs'. by rewrite fmap_is_Some in Hs'.
Qed.

Lemma inv_staged st a s t p :
  inv st → slots st !! a = Some s → active s = Some t → at_phase t = Staged p →
  ∃ ver, versions st !! p = Some ver ∧ v_identity ver = s_identity s ∧
         v_committed ver = None ∧ p ∉ retired_addrs st ∧ origin ver = at_id t ∧
         v_owner ver = at_owner t ∧ ∃ d, mkPending a p (at_id t) d ∈ pending st.
Proof.
  intros Hc Hs Ha Hp.
  destruct (so_staged _ _ _ (c_slot _ Hc a s Hs) t p Ha Hp) as (ver & Hv & ? & Hn & ? & ? & ? & ?).
  rewrite erase_lookup in Hv. apply fmap_Some in Hv as (ver0 & Hv & ->).
  exists ver0. split_and!; try done. simpl in Hn. by apply fmap_None in Hn.
Qed.

Lemma inv_base st a s t :
  inv st → slots st !! a = Some s → active s = Some t →
  at_base t = committed s ∧ at_id t < next_transaction_id s.
Proof. intros Hc Hs Ha. by apply (so_base _ _ _ (c_slot _ Hc a s Hs)). Qed.

Lemma inv_index st i a :
  inv st → index st !! i = Some a ↔ ∃ s, slots st !! a = Some s ∧ s_identity s = i.
Proof. intros Hc. apply (c_index _ Hc i a). Qed.

Lemma inv_version st v ver :
  inv st → versions st !! v = Some ver → version_ok (erase st) v (erase_version ver).
Proof. intros Hc Hv. apply (c_version _ Hc). by rewrite erase_lookup, Hv. Qed.

Lemma inv_is_memory st v ver : inv st → versions st !! v = Some ver → is_memory ver = true.
Proof. intros Hc Hv. apply version_is_memory. by apply (inv_version st v ver Hc Hv). Qed.

(** ** Writes *)

Lemma begin_inv i o mode pins now st :
  inv st → inv (begin_write_resolved i o mode pins now st).2.
Proof.
  intros Hc. unfold begin_write_resolved. destruct (key_is_empty i); [done|].
  destruct (_ <=? _); [done|]. unfold lookup_slot.
  destruct (index st !! i) as [a|] eqn:Hi.
  - destruct (slots st !! a) as [s|] eqn:Hs; [|done].
    destruct (active s) eqn:Ha; [done|].
    destruct (checked_add (next_transaction_id s) 1) as [nx|] eqn:Hnx.
    + apply checked_add_Some in Hnx as [-> _]. unfold inv.
      destruct mode, (committed s) as [b|] eqn:Hcm; simpl; try done;
        autorewrite with erase; rewrite <- Hcm; by apply core_claim.
    + by destruct mode, (committed s).
  - unfold inv. by apply (core_new_slot (erase st)).
Qed.

Lemma erase_after_transaction a s b now st :
  erase (after_transaction a s b now st) = after_transaction a s false now (erase st).
Proof. unfold after_transaction. by destruct b, (has_committed s). Qed.

(** The fields [after_transaction] leaves, and the entry it adds. *)
Lemma after_transaction_empty a s b now st :
  committed s = None →
  ∃ d, mkEmptySlot (s_identity s) a d ∈ empty_slots (after_transaction a s b now st).
Proof.
  intros Hcm. unfold after_transaction, has_committed. rewrite Hcm.
  eexists. destruct b; simpl; apply elem_of_push; by right.
Qed.

Lemma after_transaction_moves st st1 a s s' now :
  moves st st1 a s s' → moves st (after_transaction a s false now st1) a s s'.
Proof.
  intros [? ? ? ? ? ? ? ? Me]. unfold after_transaction. destruct (has_committed s); [by split|].
  split; try done. intros c Hne Hin. simpl. apply elem_of_push. left. auto.
Qed.

Lemma after_transaction_fields a s now st :
  let st' := after_transaction a s false now st in
  versions st' = versions st ∧ retired st' = retired st ∧ next_addr st' = next_addr st ∧
  young st' = young st ∧ protected st' = protected st ∧ lifecycle st' = lifecycle st.
Proof. unfold after_transaction. by destruct (has_committed s). Qed.

Lemma claim_drop_inv alive c st : inv st → inv (claim_drop alive c st).
Proof.
  intros Hc. unfold claim_drop. destruct (slots st !! wc_slot c) as [s|] eqn:Hs; [|done].
  destruct (active s) as [t|] eqn:Ha; [|done]. destruct (at_phase t) eqn:Hp; [|done].
  destruct (_ =? _); [|done]. unfold inv. rewrite erase_after_transaction.
  set (st1 := erase (count _ _)).
  destruct (after_transaction_fields (wc_slot c) s (wc_started_at c) st1) as (?&?&?&?&?&?).
  apply (core_drop_claim (erase st) _ (wc_slot c) s t); try done.
  - apply after_transaction_moves. split; simpl; try done. by apply alter_lookup_insert.
  - apply after_transaction_empty.
Qed.

Lemma abort_staged_inv alive a s t p now st :
  inv st → slots st !! a = Some s → active s = Some t → at_phase t = Staged p →
  inv (abort_staged alive a s t p now st).
Proof.
  intros Hc Hs Ha Hp. destruct (inv_staged st a s t p Hc Hs Ha Hp) as (ver & Hv & _).
  unfold inv, abort_staged. rewrite erase_after_transaction.
  unfold retire_aborted_pending. simpl. rewrite Hv. autorewrite with erase.
  set (st1 := push_retired _ _ _ _).
  destruct (after_transaction_fields a s now st1) as (?&?&?&?&?&?).
  apply (core_abort (erase st) (after_transaction a s false now st1) a s t p (erase_version ver) now); try done.
  - by rewrite erase_lookup, Hv.
  - apply after_transaction_moves. split; simpl; try done. by apply alter_lookup_insert.
  - etrans; [done|]. simpl. by rewrite (inv_is_memory st p ver).
  - apply after_transaction_empty.
Qed.

Lemma abort_inv alive tx now st : inv st → inv (abort alive tx now st).2.
Proof.
  intros Hc. unfold abort. destruct (tx_catalog tx); [|done]. destruct (negb _); [done|].
  destruct (slots st !! tx_slot tx) as [s|] eqn:Hs; [|done].
  destruct (active s) as [t|] eqn:Ha.
  - destruct (negb _); [done|]. destruct (at_phase t) as [|p] eqn:Hp; [done|].
    destruct (negb _); [done|]. simpl. by apply abort_staged_inv.
  - destruct (_ ≫= _); [|done]. by destruct (_ =? _).
Qed.

Lemma abort_pending_inv alive a id e now st : inv st → inv (abort_pending alive a id e now st).2.
Proof.
  intros Hc. unfold abort_pending.
  destruct (slots st !! a) as [s|] eqn:Hs; [|done].
  destruct (active s) as [t|] eqn:Ha; [|done].
  destruct (negb _); [done|]. destruct (at_phase t) as [|p] eqn:Hp; [done|].
  destruct (negb _); [done|]. simpl. by apply abort_staged_inv.
Qed.

(** What the placement layer promises of the replicas it hands over, and that
    the byte counters have room for them. *)
Record stage_env (rs : ReplicaSet R) st : Prop := {
  se_normal : normal rs;
  se_size r : r ∈ replicas rs → lease_capacity r <= lease_reserved r;
  se_room : msum (fun _ => v_reserved) (versions st) +
            sum_by lease_reserved (replicas rs) <= U64_MAX
}.

Lemma validate_replicas_ok alive need u l :
  validate_replicas alive need u l = Ok tt →
  u = None ∧ ∀ r, r ∈ l → need <= lease_capacity r ∧ lease_is_live alive r = true.
Proof.
  revert u. induction l as [|r l IH]; intros u; simpl.
  { destruct u as [[? ?]|]; [done|]. intros _. split; [done|]. intros r Hr. set_solver. }
  destruct (lease_is_live alive r) eqn:Hl; simpl; [|done]. intros Hv.
  apply IH in Hv as [Hu Hin]. destruct u; [done|].
  destruct (N.ltb_spec (lease_capacity r) need); [done|]. split; [done|].
  intros x [->|?]%elem_of_cons; auto.
Qed.

Lemma validate_stage_ok alive rs need :
  normal rs → validate_stage_replicas alive rs need = Ok tt →
  replicas rs ≠ [] ∧ ∀ r, r ∈ replicas rs → need <= lease_capacity r ∧
    alive (lease_reservation r) = true.
Proof.
  intros Hn. unfold validate_stage_replicas. destruct (set_is_empty rs) eqn:He; [done|].
  intros [_ Hv]%validate_replicas_ok. split; [|done].
  intros Hnil. apply normal_is_empty in Hnil; [congruence|done].
Qed.

Lemma erase_bytes st :
  msum (fun _ => v_reserved) (versions (erase st)) = msum (fun _ => v_reserved) (versions st).
Proof.
  simpl. unfold msum. rewrite map_to_list_fmap, sum_by_map. done.
Qed.

Lemma stage_fail_inv alive c rs g st : inv st → inv (stage_fail alive c rs g st).
Proof. intros Hc. apply claim_drop_inv. by destruct g as [[]|]. Qed.

Lemma stage_lost_inv alive c ct rs g st : inv st → inv (stage_lost alive c ct rs g st).
Proof.
  intros Hc. unfold stage_lost. apply claim_drop_inv. by destruct (tenant_accounting _) as [[]|].
Qed.

Lemma stage_publish_inv alive c ct rs g s t st :
  inv st → stage_env rs st → slots st !! wc_slot c = Some s → active s = Some t →
  at_phase t = Claimed → at_id t = wc_id c → at_owner t = wc_owner c →
  s_identity s = wc_identity c →
  validate_stage_replicas alive rs (logical_bytes ct) = Ok tt →
  inv (stage_publish c (staged_version c ct rs g) t st).
Proof.
  intros Hc [En Es Er] Hs Ha Hp Hid Ho Hi Hval.
  destruct (validate_stage_ok _ _ _ En Hval) as [Hne Hcap].
  assert (set_reserved_bytes rs = sum_by lease_reserved (replicas rs)) as Hres
    by (rewrite set_reserved_bytes_min; lia).
  pose proof (core_stage (erase st) (wc_slot c) s t
    (erase_version (staged_version c ct rs g))
    (tick_saturating_add (wc_started_at c) (pending_timeout_ticks (config st))) Hc Hs Ha Hp)
    as Hcore. simpl in Hcore. unfold inv, stage_publish.
  rewrite <- Hid. unfold erase at 1. simpl. rewrite fmap_insert.
  apply Hcore; try done.
  - intros r Hr. destruct (Hcap r Hr). specialize (Es r Hr). lia.
  - rewrite Hres. setoid_rewrite erase_bytes. lia.
Qed.

Lemma stage_inv alive b1 b2 c ct rs g st :
  inv st → stage_env rs st →
  (∀ s, slots st !! wc_slot c = Some s → s_identity s = wc_identity c) →
  inv (stage_inner alive b1 b2 c ct rs g st).2.
Proof.
  intros Hc Henv Hcl. unfold stage_inner.
  destruct b1; simpl; [|by apply stage_fail_inv].
  destruct (_ =? 0); [by apply stage_fail_inv|].
  destruct (validate_stage_replicas _ _ _) as [[]| |] eqn:Hval; [|by apply stage_fail_inv|done].
  destruct (slots st !! wc_slot c) as [s|] eqn:Hs; [|by apply stage_fail_inv].
  destruct (active s) as [t|] eqn:Ha; [|by apply stage_lost_inv].
  destruct (negb (at_id t =? wc_id c) || _ || _) eqn:Hm; [by apply stage_lost_inv|].
  destruct (at_phase t) eqn:Hp; bool_to_prop; [|done].
  assert (inv (stage_publish c (staged_version c ct rs g) t st)) as Hc1
    by (apply (stage_publish_inv alive c ct rs g s); auto).
  destruct b2; simpl; [done|by apply abort_inv].
Qed.

Lemma commit_publish_inv alive a s t p ver cv nv st :
  inv st → slots st !! a = Some s → active s = Some t → at_phase t = Staged p →
  versions st !! p = Some ver → at_base t = committed s →
  inv (commit_publish alive a t p ver (at_base t ≫= fun b => versions st !! b) cv nv st).
Proof.
  intros Hc Hs Ha Hp Hv Hb. unfold inv, commit_publish. rewrite Hb.
  set (base := committed s ≫= _).
  match goal with |- core (erase (if _ then ?st6 else _)) =>
    assert (core (erase st6)) as Hcore; [|by destruct (all_live _ _)] end.
  assert (∀ old, base = Some old → is_memory old = true) as Hmem.
  { intros old Hold. unfold base in Hold. destruct (committed s) as [b|]; simpl in Hold; [|done].
    by apply (inv_is_memory st b old). }
  set (d := match base ≫= version_access with Some x => lease_until x | None => 0 end).
  eapply (core_commit (erase st) _ a s t p (erase_version ver) (erase_commit cv) nv d Hc Hs Ha Hp);
    [by rewrite erase_lookup, Hv|..].
  all: destruct (soft_pin_deadline (cv_access cv)); destruct base as [old|] eqn:Hbase;
    unfold base in Hbase; destruct (committed s) as [b|] eqn:Hcm; simpl in Hbase; try done.
  all: autorewrite with erase; simpl; rewrite ?lookup_fmap, ?Hbase; simpl;
    rewrite ?Hmem, ?app_nil_r by done; try done.
  all: try (apply alter_lookup_insert; by rewrite lookup_fmap, Hv).
  all: try (split; simpl; try done; [exact (alter_lookup_insert _ _ _ _ Hs)|];
            intros c _; rewrite !elem_of_app; tauto).
  all: destruct (inv_committed st a s _ Hc Hs Hcm) as (? & ? & _); congruence.
Qed.

Lemma commit_inv alive alive' tx c now st : inv st → inv (commit alive alive' tx c now st).2.
Proof.
  intros Hc. unfold commit. destruct (tx_catalog tx); [|done]. destruct (negb _); [done|].
  destruct (slots st !! tx_slot tx) as [s|] eqn:Hs; [|done].
  destruct (active s) as [t|] eqn:Ha.
  - destruct (negb _); [done|]. destruct (at_phase t) as [|p] eqn:Hp; [done|].
    destruct (negb _); [done|]. destruct (versions st !! p) as [ver|] eqn:Hv; [|done].
    destruct (negb _); [done|]. destruct (negb _); [done|].
    pose proof (commit_publish_inv alive' (tx_slot tx) s t p ver) as Hpub.
    destruct (inv_base st _ s t Hc Hs Ha) as [Hb _].
    destruct (at_base t ≫= _) as [old|] eqn:Hold; simpl;
      [destruct (version_access old)|]; destruct (checked_add (next_version_id s) 1); try done;
      destruct (v_committed ver); simpl; try done; rewrite <- Hold; by apply Hpub.
  - destruct (committed s); [|done]. destruct (versions st !! _) as [ver|]; [|done].
    destruct (negb _); [done|]. destruct (v_committed ver); [|done]. by case_bool_decide.
Qed.

Lemma get_inv alive i now st : inv st → inv (get alive i now st).2.
Proof.
  intros Hc. unfold get. destruct (lookup_slot i st); [|done].
  destruct (slots st !! _) as [s|]; [|done]. destruct (committed s) as [v|]; [|done].
  destruct (versions st !! v) as [ver|]; [|done]. destruct (version_access ver) as [x|]; [|done].
  destruct (record_access _ _ _ _) as [l x'].
  unfold inv. destruct (has_live _ _); simpl; by rewrite erase_set_access.
Qed.

Lemma get_batch_inv alive l now st : inv st → inv (get_batch alive l now st).2.
Proof.
  revert st. induction l as [|i l IH]; intros st Hc; simpl; [done|].
  pose proof (get_inv alive i now st Hc) as H1. destruct (get alive i now st) as [r st1].
  pose proof (IH st1 H1) as H2. by destruct (get_batch alive l now st1).
Qed.

(** ** Removal and retirement *)

(** A state whose candidate queues are a sublist of those of an invariant
    state: a candidate was popped and has not been put back. *)
Record popped st st0 : Prop := {
  po_index : index st0 = index st;
  po_count : slot_count st0 = slot_count st;
  po_slots : slots st0 = slots st;
  po_versions : versions st0 = versions st;
  po_next : next_addr st0 = next_addr st;
  po_life : lifecycle st0 = lifecycle st;
  po_retired : retired st0 = retired st;
  po_pending : pending st0 = pending st;
  po_empty : empty_slots st0 = empty_slots st
}.

Lemma popped_refl st : popped st st.
Proof. by split. Qed.

Lemma set_gen_queue_popped g q st : popped st (set_gen_queue g q st).
Proof. by destruct g. Qed.

Lemma retire_published_inv st st0 a s v now :
  inv st → popped (erase st) (erase st0) → slots st !! a = Some s → active s = None →
  committed s = Some v →
  NoDup (young st0 ++ protected st0) →
  (∀ c, c ∈ young st0 ++ protected st0 → c ∈ young st ++ protected st) →
  (∀ c, gc_slot c ≠ a → c ∈ young st ++ protected st → c ∈ young st0 ++ protected st0) →
  inv (retire_published a (s_identity s) v now (update_slot a (set_committed None) st0)).
Proof.
  intros Hc [P1 P2 P3 P4 P5 P6 P7 P8 P9] Hs Ha Hcm Hnd Hsub Hkeep.
  destruct (inv_committed st a s v Hc Hs Hcm) as (ver & Hv & _).
  pose proof (f_equal (fun m => m !! v) P4) as Hv0. rewrite !erase_lookup, Hv in Hv0.
  apply fmap_Some in Hv0 as (ver0 & Hv0 & Heq).
  unfold inv, retire_published. simpl. rewrite Hv0. autorewrite with erase.
  assert (v_reserved ver0 = v_reserved ver) as Hres by (injection Heq; auto).
  assert (is_memory ver0 = true) as Hmem.
  { apply version_is_memory.
    replace (v_replicas ver0) with (v_replicas ver) by (injection Heq; auto).
    apply (inv_version st v ver Hc Hv). }
  set (st1 := enqueue_empty _ _ _ _).
  apply (core_retire_published (erase st) st1 a s v (erase_version ver) now); try done; simpl.
  - by rewrite lookup_fmap, Hv.
  - split; simpl; try done; simpl in *; rewrite ?P3, ?P5; try done.
    + exact (alter_lookup_insert _ _ _ _ Hs).
    + intros c _. by rewrite <- P8.
    + intros c _. rewrite P9, elem_of_app. by left.
  - simpl in P7. by rewrite P7, Hres.
  - simpl in P6. by rewrite Hres, Hmem, P6.
  - eexists. apply elem_of_push. by right.
Qed.

Lemma remove_inv i now force st : inv st → inv (remove_with_force i now force st).2.
Proof.
  intros Hc. unfold remove_with_force. destruct (lookup_slot i st) as [a|]; [|done].
  destruct (slots st !! a) as [s|] eqn:Hs; [|done]. destruct (active s) eqn:Ha; [done|].
  destruct (committed s) as [v|] eqn:Hcm; [|done]. destruct (_ ≫= _) as [x|]; [|done].
  destruct (negb force && is_leased now x); [done|]. destruct (negb force && hard_pinned x); [done|].
  simpl. apply (retire_published_inv st st); try done. apply (c_queues _ Hc).
Qed.

(** ** Candidates of the collector *)

Lemma pop_perm g c q st :
  gen_queue g st = c :: q →
  young st ++ protected st ≡ₚ c :: (young (set_gen_queue g q st) ++ protected (set_gen_queue g q st)).
Proof. destruct g; simpl; intros ->; [by rewrite <- Permutation_middle|done]. Qed.

Lemma push_perm g c st :
  young (push_gen g c st) ++ protected (push_gen g c st) ≡ₚ c :: (young st ++ protected st).
Proof.
  destruct g; simpl; rewrite ?app_assoc; [by rewrite <- Permutation_cons_append|].
  rewrite <- app_assoc. simpl. by rewrite <- Permutation_middle.
Qed.

(** The fields of the popped state and what it lost. *)
Lemma pop_facts g c q st :
  inv st → gen_queue g st = c :: q →
  let st0 := set_gen_queue g q st in
  NoDup (young st0 ++ protected st0) ∧
  (∀ x, x ∈ young st0 ++ protected st0 → x ∈ young st ++ protected st) ∧
  (∀ x, x ≠ c → x ∈ young st ++ protected st → x ∈ young st0 ++ protected st0) ∧
  c ∉ young st0 ++ protected st0.
Proof.
  intros Hc Hq st0. pose proof (pop_perm g c q st Hq) as Hp.
  pose proof (q_gc_nodup _ (c_queues _ Hc)) as Hnd. simpl in Hnd.
  rewrite Hp in Hnd. apply NoDup_cons in Hnd as [? ?].
  split_and!; try done; intros x; setoid_rewrite Hp; set_solver.
Qed.

Lemma erase_gen_queue g q st : erase (set_gen_queue g q st) = set_gen_queue g q (erase st).
Proof. by destruct g. Qed.

Lemma erase_push_gen g c st : erase (push_gen g c st) = push_gen g c (erase st).
Proof. by destruct g. Qed.

(** A popped candidate that no longer points to a published version can be
    dropped. *)
Lemma pop_drop_inv g c q st :
  inv st → gen_queue g st = c :: q →
  (∀ s, slots st !! gc_slot c = Some s → committed s ≠ Some (gc_version c)) →
  inv (set_gen_queue g q st).
Proof.
  intros Hc Hq Hstale. destruct (pop_facts g c q st Hc Hq) as (Hnd & Hsub & Hkeep & _).
  unfold inv. rewrite erase_gen_queue.
  apply (core_requeue (erase st)); destruct g; try done; simpl;
    intros a s v Hs Hcm Hin; apply Hkeep; try done; intros Heq; apply (Hstale s); by subst c.
Qed.

(** A popped candidate goes to the back of either queue, whatever happened to
    the access state of its version. *)
Lemma pop_push_inv g g' c q st st1 :
  inv st → gen_queue g st = c :: q → erase st1 = erase (set_gen_queue g q st) →
  inv (push_gen g' c st1).
Proof.
  intros Hc Hq He. pose proof (pop_perm g c q st Hq) as Hp.
  unfold inv. rewrite erase_push_gen, He, erase_gen_queue.
  assert (young (push_gen g' c (set_gen_queue g q (erase st))) ++
          protected (push_gen g' c (set_gen_queue g q (erase st))) ≡ₚ
          young (erase st) ++ protected (erase st)) as Hp'.
  { rewrite push_perm. simpl. rewrite Hp. by destruct g. }
  apply (core_requeue (erase st)); try (by destruct g, g').
  - rewrite Hp'. apply (c_queues _ Hc).
  - intros x. by rewrite Hp'.
  - intros a s v _ _. by rewrite Hp'.
Qed.

Lemma not_pointing s v : committed_points_to s v = false → committed s ≠ Some v.
Proof.
  unfold committed_points_to. intros Hp Heq. rewrite Heq, N.eqb_refl in Hp. done.
Qed.

Lemma pointing s v : committed_points_to s v = true → committed s = Some v.
Proof.
  unfold committed_points_to. destruct (committed s); [|done]. by intros ->%N.eqb_eq.
Qed.

(** Eviction of one candidate neither panics nor breaks the invariant. *)
Lemma evict_candidate_inv g c q now rep st :
  inv st → gen_queue g st = c :: q →
  ∃ r rep' st', evict_candidate c g now rep (set_gen_queue g q st) = Some (r, rep', st') ∧ inv st'.
Proof.
  intros Hc Hq. set (st0 := set_gen_queue g q st).
  assert (slots st0 = slots st ∧ versions st0 = versions st ∧ config st0 = config st)
    as (Hsl & Hvs & Hcf) by (by destruct g).
  unfold evict_candidate. rewrite Hsl, Hvs.
  destruct (slots st !! gc_slot c) as [s|] eqn:Hs.
  2:{ do 3 eexists. split; [done|]. apply (pop_drop_inv g c q); [done..|]. by rewrite Hs. }
  destruct (versions st !! gc_version c) as [ver|] eqn:Hv.
  2:{ do 3 eexists. split; [done|]. apply (pop_drop_inv g c q); [done..|].
      intros s' Hs' Hcm. destruct (inv_committed st _ s' _ Hc Hs' Hcm) as (? & ? & _). congruence. }
  destruct (committed_points_to s (gc_version c)) eqn:Hpt; simpl.
  2:{ do 3 eexists. split; [done|]. apply (pop_drop_inv g c q); [done..|].
      intros s' Hs'. rewrite Hs in Hs'. injection Hs' as <-. by apply not_pointing. }
  apply pointing in Hpt.
  destruct (inv_committed st _ s _ Hc Hs Hpt) as (ver' & Hv' & _ & [cv Hcv] & _).
  assert (ver' = ver) as -> by congruence. unfold version_access. rewrite Hcv. simpl.
  destruct (pin_protects now st0 (cv_access cv)).
  { do 3 eexists. split; [done|]. by apply (pop_push_inv g g c q st). }
  destruct (active s) eqn:Ha.
  { do 3 eexists. split; [done|]. by apply (pop_push_inv g true c q st). }
  set (st1 := update_version _ _ _).
  assert (erase st1 = erase st0) as He by apply erase_set_access.
  destruct (recent (cv_access cv)).
  { do 3 eexists. split; [done|]. by apply (pop_push_inv g true c q st). }
  destruct (is_leased now (cv_access cv)).
  { do 3 eexists. split; [done|]. by apply (pop_push_inv g true c q st). }
  do 3 eexists. split; [done|].
  destruct (pop_facts g c q st Hc Hq) as (Hnd & Hsub & Hkeep & _).
  apply (retire_published_inv st); try done.
  - rewrite He. unfold st0. rewrite erase_gen_queue. apply set_gen_queue_popped.
  - intros x Hne Hin. apply Hkeep; [|done]. intros ->. done.
Qed.

Lemma evict_loop_inv n g now : ∀ left rep st,
  inv st → ∃ b left' rep' st', evict_loop n g now left rep st = Some (b, left', rep', st') ∧ inv st'.
Proof.
  induction n as [|n IH]; intros left rep st Hc; simpl; [by do 4 eexists|].
  destruct (reclaim_target_is_covered st); [by do 4 eexists|].
  destruct (gen_queue g st) as [|c q] eqn:Hq; [by do 4 eexists|].
  destruct (evict_candidate_inv g c q now rep st Hc Hq) as (r & rep' & st' & -> & Hc').
  simpl. by apply IH.
Qed.

Lemma evict_inv now budget rep st :
  inv st → ∃ rep' st', evict now budget rep st = Some (rep', st') ∧ inv st'.
Proof.
  intros Hc. unfold evict.
  destruct (evict_loop_inv (Nat.min (length (young st)) (max_candidates budget)) false now
              (max_candidates budget) rep st Hc) as (b & left & rep1 & st1 & -> & Hc1). simpl.
  destruct b; [by do 2 eexists|].
  destruct (evict_loop_inv (Nat.min (length (protected st)) left) true now left rep1 st1 Hc1)
    as (b & left' & rep2 & st2 & -> & Hc2). simpl. by do 2 eexists.
Qed.

Lemma classify_stale c debts st :
  inv st → classify_scoped_candidate c debts st = ScopedStale →
  ∀ s, slots st !! gc_slot c = Some s → committed s ≠ Some (gc_version c).
Proof.
  intros Hc. unfold classify_scoped_candidate. intros Hcl s Hs Hcm. rewrite Hs in Hcl.
  destruct (inv_committed st _ s _ Hc Hs Hcm) as (ver & Hv & _). rewrite Hv in Hcl.
  unfold committed_points_to in Hcl. rewrite Hcm, N.eqb_refl in Hcl. simpl in Hcl.
  by destruct (omap _ _).
Qed.

Lemma scoped_loop_inv n g now : ∀ scanned debts rep st,
  inv st → ∃ b scanned' debts' rep' st',
    scoped_loop n g now scanned debts rep st = Some (b, scanned', debts', rep', st') ∧ inv st'.
Proof.
  induction n as [|n IH]; intros scanned debts rep st Hc; simpl; [by do 5 eexists|].
  destruct (forallb _ debts); [by do 5 eexists|].
  destruct (gen_queue g st) as [|c q] eqn:Hq; [by do 5 eexists|].
  assert (classify_scoped_candidate c debts (set_gen_queue g q st) =
          classify_scoped_candidate c debts st) as -> by (by destruct g).
  destruct (classify_scoped_candidate c debts st) as [| |ix] eqn:Hcl.
  - apply IH. apply (pop_drop_inv g c q); [done..|]. by apply (classify_stale c debts).
  - apply IH. by apply (pop_push_inv g g c q st).
  - destruct (evict_candidate_inv g c q now rep st Hc Hq) as (r & rep' & st' & -> & Hc').
    simpl. destruct (0 <? physical r); by apply IH.
Qed.

Lemma evict_scoped_inv now budget targets rep st :
  inv st → ∃ n rep' st', evict_scoped now budget targets rep st = Some (n, rep', st') ∧ inv st'.
Proof.
  intros Hc. unfold evict_scoped. destruct (_ =? _)%nat; [by do 3 eexists|].
  destruct (map _ _) as [|d ds]; [by do 3 eexists|].
  destruct (scoped_loop_inv (Nat.min (length (young st)) (max_candidates budget)) false now 0
              (d :: ds) rep st Hc) as (b & n1 & ds1 & rep1 & st1 & -> & Hc1). simpl.
  destruct b; [by do 3 eexists|].
  destruct (scoped_loop_inv (Nat.min (length (protected st)) (max_candidates budget - n1)) true
              now n1 ds1 rep1 st1 Hc1) as (b & n2 & ds2 & rep2 & st2 & -> & Hc2).
  simpl. by do 3 eexists.
Qed.

(** ** Liveness sweep *)

Lemma prune_spec alive ver :
  normal (v_replicas ver) →
  match prune_invalidated alive ver with
  | (PruneAllLive, ver') => ver' = ver
  | (PruneAllStale, ver') => ver' = ver ∧ has_live alive (v_replicas ver) = false
  | (PruneMixed stale, ver') =>
      ∃ lv, ver' = set_replicas lv (v_reserved ver - set_reserved_bytes stale) ver ∧
        normal lv ∧ replicas lv ≠ [] ∧
        replicas lv = List.filter (lease_is_live alive) (replicas (v_replicas ver)) ∧
        replicas lv ++ replicas stale ≡ₚ replicas (v_replicas ver) ∧
        has_live alive (v_replicas ver) = true
  end.
Proof.
  intros Hn. assert (set_replicas (v_replicas ver) (v_reserved ver) ver = ver) as Hid
    by (by destruct ver).
  unfold prune_invalidated. destruct (all_live alive (v_replicas ver)) eqn:Hal; [done|].
  pose proof (partition_spec alive (v_replicas ver) Hn) as Hp.
  destruct (partition_by_liveness alive (v_replicas ver)) as [cur|cur|lv stale].
  - destruct Hp as [-> _]. done.
  - by destruct Hp as [-> ?].
  - destruct Hp as (Hn1 & Hn2 & Hl & _ & Hperm & Hne & _ & Hall). exists lv. split_and!; try done.
    apply has_live_spec. apply all_live_spec in Hall as [_ Hall]; [|done].
    destruct (replicas lv) as [|r l] eqn:Hr; [done|]. exists r. split; [|apply Hall; set_solver].
    rewrite <- Hperm. set_solver.
Qed.

Lemma erase_update_id v ver st :
  versions st !! v = Some ver → erase (update_version v (fun _ => ver) st) = erase st.
Proof.
  intros Hv. unfold update_version.
  rewrite (alter_lookup_insert _ _ _ _ Hv), insert_id by done. done.
Qed.

(** The bytes of the replicas a prune drops. *)
Lemma stale_bytes st v ver lv stale :
  inv st → versions st !! v = Some ver →
  replicas lv ++ replicas stale ≡ₚ replicas (v_replicas ver) →
  sum_by lease_reserved (replicas lv) + set_reserved_bytes stale = v_reserved ver ∧
  N.of_nat (set_len stale) * logical_bytes (v_content ver) <= U64_MAX.
Proof.
  intros Hc Hv Hp. destruct (inv_version st v ver Hc Hv) as [_ _ _ V4 V6 _]. simpl in V4, V6.
  assert (v_reserved ver <= U64_MAX) as Hmax.
  { pose proof (n_bytes _ (c_counters _ Hc)) as Hb. rewrite erase_bytes in Hb.
    pose proof (msum_elem_le (fun _ => v_reserved) _ _ _ Hv). simpl in *. lia. }
  rewrite <- Hp, sum_by_app in V4. rewrite set_reserved_bytes_min, set_len_length.
  split; [lia|].
  assert (∀ l : list (ReplicaLease R),
    (∀ r, r ∈ l → logical_bytes (v_content ver) <= lease_reserved r) →
    N.of_nat (length l) * logical_bytes (v_content ver) <= sum_by lease_reserved l) as Hgen.
  { induction l as [|r l IH]; intros Hl; [done|]. rewrite sum_by_cons. simpl length.
    assert (logical_bytes (v_content ver) <= lease_reserved r) by (apply Hl; set_solver).
    specialize (IH ltac:(intros x Hx; apply Hl; set_solver)). lia. }
  etrans; [apply Hgen|lia]. intros r Hr. apply V6. rewrite <- Hp. set_solver.
Qed.

Lemma erase_update_replicas v ver rs b st :
  versions st !! v = Some ver →
  erase (update_version v (fun _ => set_replicas rs b ver) st) =
  set_versions (<[v := set_replicas rs b (erase_version ver)]> (versions (erase st))) (erase st).
Proof.
  intros Hv. unfold update_version. rewrite (alter_lookup_insert _ _ _ _ Hv).
  unfold erase, set_versions. simpl. by rewrite fmap_insert.
Qed.

Lemma release_pruned_ok ver stale st :
  N.of_nat (set_len stale) * logical_bytes (v_content ver) <= U64_MAX →
  ∃ st', release_pruned_accounting ver stale st = Ok st' ∧ erase st' = erase st.
Proof.
  intros Hb. unfold release_pruned_accounting.
  destruct (v_accounting ver) as [ch|]; [|by eexists].
  destruct (direct_replica_class stale); [|by eexists].
  unfold checked_mul. rewrite N.mul_comm in Hb.
  destruct (N.leb_spec (logical_bytes (v_content ver) * N.of_nat (set_len stale)) U64_MAX); [|lia].
  simpl. by eexists.
Qed.

(** The sweep of one candidate neither panics nor breaks the invariant. *)
Lemma sweep_candidate_inv alive g c q n now rep res0 st :
  inv st → gen_queue g st = c :: q →
  ∃ rep' res' st', sweep_candidate alive g now c rep res0
    (set_gen_remaining g n (set_gen_queue g q st)) = Some (rep', res', st') ∧ inv st'.
Proof.
  intros Hc Hq. set (st0 := set_gen_remaining g n (set_gen_queue g q st)).
  assert (slots st0 = slots st ∧ versions st0 = versions st) as (Hsl & Hvs) by (by destruct g).
  assert (erase st0 = erase (set_gen_queue g q st)) as He0 by done.
  unfold sweep_candidate. rewrite Hsl, Hvs.
  assert (∀ st', erase st' = erase (set_gen_queue g q st) →
    (∀ s, slots st !! gc_slot c = Some s → committed s ≠ Some (gc_version c)) → inv st') as Hdrop.
  { intros st' He Hst. unfold inv. rewrite He. by apply (pop_drop_inv g c q). }
  destruct (slots st !! gc_slot c) as [s|] eqn:Hs.
  2:{ do 3 eexists. split; [done|]. by apply Hdrop. }
  destruct (versions st !! gc_version c) as [ver|] eqn:Hv.
  2:{ do 3 eexists. split; [done|]. apply Hdrop; [done|]. intros s' [= <-] Hcm.
      destruct (inv_committed st _ s _ Hc Hs Hcm) as (? & ? & _). congruence. }
  destruct (committed_points_to s (gc_version c)) eqn:Hpt; simpl.
  2:{ do 3 eexists. split; [done|]. apply Hdrop; [done|]. intros s' [= <-].
      by apply not_pointing. }
  apply pointing in Hpt.
  pose proof (prune_spec alive ver (vo_normal _ _ _ (inv_version st _ ver Hc Hv))) as Hps.
  assert (erase (update_version (gc_version c) (fun _ => ver) st0) =
          erase (set_gen_queue g q st)) as Hid.
  { rewrite <- He0. apply erase_update_id. by rewrite Hvs. }
  destruct (prune_invalidated alive ver) as [[| |stale] ver'].
  - subst ver'. do 3 eexists. split; [done|]. by apply (pop_push_inv g g c q st).
  - destruct Hps as [-> _]. destruct (active s) eqn:Ha.
    { do 3 eexists. split; [done|]. by apply (pop_push_inv g g c q st). }
    do 3 eexists. split; [done|].
    destruct (pop_facts g c q st Hc Hq) as (Hnd & Hsub & Hkeep & _).
    apply (retire_published_inv st); try done.
    + rewrite Hid, erase_gen_queue. apply set_gen_queue_popped.
    + intros x Hne Hin. apply Hkeep; [|done]. by intros ->.
  - destruct Hps as (lv & -> & Hn & Hne & _ & Hperm & _).
    destruct (stale_bytes st _ ver lv stale Hc Hv Hperm) as [Hb Hlen].
    edestruct (release_pruned_ok (set_replicas lv (v_reserved ver - set_reserved_bytes stale) ver)
                 stale) as (st2 & -> & He2); [done|].
    do 3 eexists. split; [done|]. unfold inv. rewrite erase_push_gen. autorewrite with erase.
    rewrite He2, erase_update_replicas by (by rewrite Hvs).
    rewrite He0, erase_gen_queue. pose proof (pop_perm g c q st Hq) as Hp.
    apply (core_prune (erase st) _ (gc_slot c) s (gc_version c) (erase_version ver) lv
             (set_reserved_bytes stale)); try (by destruct g); simpl; try done.
    + by rewrite lookup_fmap, Hv.
    + intros r Hr. rewrite <- Hperm. set_solver.
    + rewrite push_perm. destruct g; simpl in *; by rewrite Hp.
Qed.

Lemma sweep_loop_inv n alive g now : ∀ scanned rep res0 st,
  inv st → ∃ scanned' rep' res' st',
    sweep_loop n alive g now scanned rep res0 st = Some (scanned', rep', res', st') ∧ inv st'.
Proof.
  induction n as [|n IH]; intros scanned rep res0 st Hc; simpl; [by do 4 eexists|].
  destruct (gen_queue g st) as [|c q] eqn:Hq; [by do 4 eexists|].
  destruct (sweep_candidate_inv alive g c q (gen_remaining g st - 1) now rep res0 st Hc Hq)
    as (rep' & res' & st' & -> & Hc'). simpl. by apply IH.
Qed.

Lemma sweep_inv alive now budget rep st :
  inv st → ∃ n rep' st',
    retire_invalidated_published alive now budget rep st = Some (n, rep', st') ∧ inv st'.
Proof.
  intros Hc. unfold retire_invalidated_published.
  destruct (sweep_loop_inv (Nat.min (gen_remaining false st) (max_candidates budget))
              alive false now 0 rep [] st Hc) as (n1 & rep1 & res1 & st1 & -> & Hc1). simpl.
  destruct (_ =? 0)%nat; simpl; [by do 3 eexists|].
  match goal with |- context [sweep_loop ?n alive true now n1 rep1 res1 st1] =>
    destruct (sweep_loop_inv n alive true now n1 rep1 res1 st1 Hc1)
      as (n2 & rep2 & res2 & st2 & -> & Hc2) end.
  simpl. by do 3 eexists.
Qed.

(** ** Soft pins *)

Lemma soft_pin_step_inv now c q rep st :
  inv st → ∃ rep' st', soft_pin_step now c rep (set_soft_pins q st) = Some (rep', st') ∧ inv st'.
Proof.
  intros Hc. unfold soft_pin_step. simpl.
  destruct (slots st !! _) as [s|] eqn:Hs; [|by do 2 eexists].
  destruct (versions st !! _) as [ver|] eqn:Hv; [|by do 2 eexists].
  destruct (committed_points_to s _) eqn:Hpt; simpl; [|by do 2 eexists].
  destruct (now <? sp_deadline c); [by do 2 eexists|].
  destruct (inv_committed st _ s _ Hc Hs (pointing _ _ Hpt)) as (ver' & Hv' & _ & [cv Hcv] & _).
  assert (ver' = ver) as -> by congruence. unfold version_access. rewrite Hcv. simpl.
  destruct (expire_soft_pin _ _ _) as [b x]. do 2 eexists. split; [done|].
  unfold inv. by rewrite erase_set_access, erase_set_soft_pins.
Qed.

Lemma soft_pin_loop_inv n now : ∀ rep st,
  inv st → ∃ rep' st', soft_pin_loop n now rep st = Some (rep', st') ∧ inv st'.
Proof.
  induction n as [|n IH]; intros rep st Hc; simpl; [by do 2 eexists|].
  destruct (soft_pins st) as [|c q]; [by do 2 eexists|].
  destruct (soft_pin_step_inv now c q rep st Hc) as (rep' & st' & -> & Hc'). simpl. by apply IH.
Qed.

(** ** Pending candidates *)

(** The invariant while the candidates [extra] are off the queue. *)
Definition inv_pend (extra : list PendingCandidate) st : Prop :=
  inv (set_pending (extra ++ pending st) st).

Definition irrelevant (c : PendingCandidate) st : Prop :=
  ∀ s t, slots st !! pc_slot c = Some s → active s = Some t →
    at_phase t = Staged (pc_pending c) → at_id t ≠ pc_transaction c.

Lemma inv_pend_nil st : inv_pend [] st ↔ inv st.
Proof. unfold inv_pend. simpl. by destruct st. Qed.

Lemma inv_pend_pop c q st : inv st → pending st = c :: q → inv_pend [c] (set_pending q st).
Proof. intros Hc Hq. unfold inv_pend. simpl. rewrite <- Hq. by destruct st. Qed.

Lemma pend_requeue l l' st st' :
  inv_pend l st → erase st' = set_pending (pending st') (erase st) →
  (∀ c, c ∈ l ++ pending st → irrelevant c st ∨ c ∈ l' ++ pending st') →
  inv_pend l' st'.
Proof.
  intros Hc He Hin. unfold inv_pend, inv in *. rewrite erase_set_pending, He.
  eapply (core_requeue _ _ Hc); try done; [apply (c_queues _ Hc)|].
  simpl. intros a s t p d Hs Ha Hp Hd.
  destruct (Hin _ Hd) as [Hirr|?]; [|done]. by destruct (Hirr s t Hs Ha Hp).
Qed.

Lemma pend_drop c l st : inv_pend (c :: l) st → irrelevant c st → inv_pend l st.
Proof.
  intros Hc Hirr. apply (pend_requeue (c :: l) l st st Hc); [by destruct st|].
  intros x [->|?]%elem_of_cons; auto.
Qed.

Lemma pend_push c l st : inv_pend (c :: l) st → inv_pend l (set_pending (pending st ++ [c]) st).
Proof.
  intros Hc. apply (pend_requeue (c :: l) l st _ Hc); [done|].
  intros x Hx. right. simpl. set_solver.
Qed.

Lemma erase_abort_staged alive a s t p now st ver :
  versions st !! p = Some ver →
  erase (abort_staged alive a s t p now st) =
  after_transaction a s false now
    (push_retired p (v_reserved ver) now
      (count (on_abort_pending (v_reserved ver) (is_memory ver))
        (update_slot a (set_active None) (erase st)))).
Proof.
  intros Hv. unfold abort_staged. rewrite erase_after_transaction.
  unfold retire_aborted_pending. simpl. rewrite Hv. by autorewrite with erase.
Qed.

Lemma after_transaction_slots a s b now st : slots (after_transaction a s b now st) = slots st.
Proof. unfold after_transaction. by destruct b, (has_committed s). Qed.

Lemma pend_abort alive c l s t p now st :
  inv_pend (c :: l) st → slots st !! pc_slot c = Some s → active s = Some t →
  at_phase t = Staged p → inv_pend l (abort_staged alive (pc_slot c) s t p now st).
Proof.
  intros Hc Hs Ha Hp. pose proof (abort_staged_inv alive _ s t p now _ Hc Hs Ha Hp) as Hc'.
  destruct (inv_staged _ _ s t p Hc Hs Ha Hp) as (ver & Hv & _). simpl in Hv.
  set (st1 := abort_staged alive (pc_slot c) s t p now st).
  assert (erase st1 = _) as He1 by exact (erase_abort_staged _ _ _ _ _ _ _ _ Hv).
  assert (inv_pend (c :: l) st1) as Hc1.
  { unfold inv_pend, inv in *. rewrite erase_set_pending.
    rewrite (erase_abort_staged _ _ _ _ _ _ _ ver) in Hc' by done.
    rewrite erase_set_pending in Hc'.
    replace (pending st1) with (pending st); [|change (pending st1) with (pending (erase st1));
      rewrite He1; unfold after_transaction; by destruct (has_committed s)].
    rewrite He1. revert Hc'. unfold after_transaction. by destruct (has_committed s). }
  apply (pend_drop c l st1 Hc1). intros s' t' Hs' Ha'.
  change (slots st1) with (slots (erase st1)) in Hs'.
  rewrite He1, after_transaction_slots in Hs'. simpl in Hs'.
  rewrite lookup_alter_eq, Hs in Hs'. injection Hs' as <-. done.
Qed.

(** Aborting the transaction of an off-queue candidate. *)
Lemma abort_pending_pend alive c l now st :
  inv_pend (c :: l) st →
  inv_pend l (abort_pending alive (pc_slot c) (pc_transaction c) (pc_pending c) now st).2.
Proof.
  intros Hc. unfold abort_pending.
  destruct (slots st !! pc_slot c) as [s|] eqn:Hs.
  2:{ apply (pend_drop c l st Hc). intros s t. by rewrite Hs. }
  destruct (active s) as [t|] eqn:Ha.
  2:{ apply (pend_drop c l st Hc). intros s' t. rewrite Hs. intros [= <-]. by rewrite Ha. }
  destruct (N.eqb_spec (at_id t) (pc_transaction c)) as [Hid|Hid]; simpl.
  2:{ apply (pend_drop c l st Hc). intros s' t'. rewrite Hs. intros [= <-].
      rewrite Ha. by intros [= <-]. }
  destruct (at_phase t) as [|p] eqn:Hp.
  { apply (pend_drop c l st Hc). intros s' t'. rewrite Hs. intros [= <-].
    rewrite Ha. intros [= <-]. by rewrite Hp. }
  destruct (N.eqb_spec p (pc_pending c)) as [->|Hne]; simpl.
  - by apply (pend_abort alive c l s t).
  - apply (pend_drop c l st Hc). intros s' t'. rewrite Hs. intros [= <-].
    rewrite Ha. intros [= <-]. congruence.
Qed.

(** A candidate of a version that is gone or committed is irrelevant. *)
Lemma irrelevant_version c l st :
  inv_pend (c :: l) st →
  (∀ ver, versions st !! pc_pending c = Some ver → is_Some (v_committed ver)) → irrelevant c st.
Proof.
  intros Hc Hv s t Hs Ha Hp _.
  destruct (inv_staged _ _ s t _ Hc Hs Ha Hp) as (ver & Hl & _ & Hn & _).
  specialize (Hv ver Hl). rewrite Hn in Hv. by destruct Hv.
Qed.

Lemma expire_candidate_inv alive now c rep st :
  inv_pend [c] st → inv (expire_candidate alive now c rep st).2.
Proof.
  intros Hc. apply (proj1 (inv_pend_nil _)). unfold expire_candidate.
  destruct (versions st !! pc_pending c) as [ver|] eqn:Hv.
  2:{ apply (pend_drop c [] st Hc), (irrelevant_version c [] st Hc). intros ver'. by rewrite Hv. }
  destruct (v_committed ver) eqn:Hcm.
  { apply (pend_drop c [] st Hc), (irrelevant_version c [] st Hc). intros ver'. rewrite Hv.
    intros [= <-]. by rewrite Hcm. }
  destruct (_ && _); [by apply (pend_push c [])|].
  pose proof (abort_pending_pend alive c [] now st Hc) as Hab.
  by destruct (abort_pending _ _ _ _ _ _).
Qed.

Lemma expire_loop_inv n alive now : ∀ rep st, inv st → inv (expire_loop n alive now rep st).2.
Proof.
  induction n as [|n IH]; intros rep st Hc; simpl; [done|].
  destruct (pending st) as [|c q] eqn:Hq; [done|].
  pose proof (expire_candidate_inv alive now c rep _ (inv_pend_pop c q st Hc Hq)) as Hc'.
  destruct (expire_candidate _ _ _ _ _) as [rep1 st1]. by apply IH.
Qed.

Lemma pending_snapshot_none c l st :
  inv_pend (c :: l) st → pending_snapshot c st = None → irrelevant c st.
Proof.
  intros Hc. unfold pending_snapshot. intros Hs s t Hsl Ha Hp Hid.
  destruct (inv_staged _ _ s t _ Hc Hsl Ha Hp) as (ver & Hl & _ & Hn & _). simpl in Hl.
  rewrite Hl, Hn, Hsl in Hs. simpl in Hs. rewrite Ha in Hs. simpl in Hs.
  by rewrite Hid, Hp, !N.eqb_refl in Hs.
Qed.

Lemma revoke_loop_inv alive owners now l : ∀ n st,
  inv_pend l st → inv (revoke_loop alive owners now l n st).2.
Proof.
  induction l as [|c l IH]; intros n st Hc; simpl; [by apply (proj1 (inv_pend_nil _))|].
  destruct (pending_snapshot c st) as [o|] eqn:Hs.
  - destruct (negb _); [by apply IH, pend_push|].
    pose proof (abort_pending_pend alive c l now st Hc) as Hab.
    destruct (abort_pending _ _ _ _ _ _) as [b st1]. by apply IH.
  - apply IH. apply (pend_drop c l st Hc). by apply (pending_snapshot_none c l).
Qed.

Lemma revoke_inv alive owners now st : inv st → inv (revoke_pending_owners alive owners now st).2.
Proof.
  intros Hc. unfold revoke_pending_owners. destruct (filter _ owners) as [|o os]; [done|].
  apply revoke_loop_inv. unfold inv_pend. simpl. rewrite app_nil_r. by destruct st.
Qed.

(** ** Reclamation *)

Lemma forallb_lookup {A} (f : A → bool) (m : gmap N A) k x :
  forallb f (map_to_list m).*2 = true → m !! k = Some x → f x = true.
Proof.
  intros Hf Hk. apply (proj1 (forallb_forall _ _) Hf). apply list_elem_of_In.
  apply list_elem_of_fmap. exists (k, x). split; [done|]. by apply elem_of_map_to_list.
Qed.

(** The last entry goes back, or its version is reclaimed. *)
Lemma reclaim_one_inv held now e q rep res0 st :
  inv st → retired st = e :: q →
  inv (reclaim_one held now e rep res0 (set_retired q st)).2.
Proof.
  intros Hc Hq. unfold reclaim_one.
  assert (inv (set_retired (q ++ [e]) st)) as Hback.
  { unfold inv. rewrite erase_set_retired. set (st' := set_retired _ _).
    apply (core_perm (erase st) st'); try done. simpl.
    by rewrite Hq, <- Permutation_cons_append. }
  destruct (now <? ro_reclaim_after e); [done|].
  destruct (try_unwrap held (ro_version e) _); [|done]. simpl.
  destruct (q_retired _ (c_queues _ Hc) e) as (ver & Hv & Hres).
  { simpl. rewrite Hq. set_solver. }
  rewrite erase_lookup in Hv. apply fmap_Some in Hv as (ver0 & Hv & ->). rewrite Hv. simpl.
  unfold inv. autorewrite with erase.
  set (st1 := set_versions _ _).
  assert (erase st1 = set_versions (delete (ro_version e) (versions (erase st)))
                        (set_retired q (erase st))) as ->.
  { pose proof (erase_release_accounting (ro_version e) (set_retired q st)) as He.
    unfold st1. transitivity (set_versions (delete (ro_version e) (versions (erase
      (release_accounting (ro_version e) (set_retired q st)))))
      (erase (release_accounting (ro_version e) (set_retired q st)))).
    - unfold erase, set_versions. simpl. by rewrite fmap_delete.
    - by rewrite He. }
  rewrite (inv_is_memory st _ ver0 Hc Hv).
  apply (core_reclaim (erase st) _ e q (erase_version ver0)); try done.
  by rewrite erase_lookup, Hv.
Qed.

Lemma reclaim_loop_inv n held now : ∀ k rep res0 st,
  inv st → inv (reclaim_loop n held now k rep res0 st).2.
Proof.
  induction n as [|n IH]; intros k rep res0 st Hc; simpl; [done|].
  destruct (retired st) as [|e q] eqn:Hq; [done|].
  pose proof (reclaim_one_inv held now e q rep res0 st Hc Hq) as Hc'.
  destruct (reclaim_one _ _ _ _ _ _) as [[rep1 res1] st1]. by apply IH.
Qed.

Lemma reclaim_inv held now budget rep st : inv st → inv (reclaim held now budget rep st).2.
Proof.
  intros Hc. unfold reclaim.
  pose proof (reclaim_loop_inv (Nat.min (length (retired st)) (max_reclaims budget)) held now 0
                rep [] st Hc) as Hc'.
  by destruct (reclaim_loop _ _ _ _ _ _ _) as [[[k rep1] res1] st1].
Qed.

(** ** Empty slots *)

Lemma clean_one_inv now c q rep st :
  inv st → empty_slots st = c :: q → inv (clean_one now c rep (set_empty_slots q st)).2.
Proof.
  intros Hc Hq. unfold clean_one.
  assert (∀ q', (∀ x, x ∈ c :: q → x ∈ q' ∨ ∀ s, slots st !! es_slot x = Some s →
            s_identity s = es_identity x → committed s = None → active s ≠ None) →
          inv (set_empty_slots q' st)) as Hre.
  { intros q' Hq'. unfold inv. rewrite erase_set_empty_slots.
    apply (core_requeue (erase st)); try done; [apply (c_queues _ Hc)|].
    simpl. rewrite Hq. intros a s d Hs Hcm Ha Hin.
    destruct (Hq' _ Hin) as [?|Hx]; [done|]. by destruct (Hx s Hs). }
  destruct (now <? es_deadline c); simpl.
  { apply Hre. intros x Hx. left. set_solver. }
  destruct (slots st !! es_slot c) as [s|] eqn:Hs.
  2:{ apply Hre. intros x [->|?]%elem_of_cons; [right; by rewrite Hs|by left]. }
  destruct (has_committed s || _) eqn:Hb.
  { apply Hre. intros x [->|?]%elem_of_cons; [right|by left]. rewrite Hs. intros s' [= <-] _ Hcm.
    unfold has_committed in Hb. rewrite Hcm in Hb. by destruct (active s). }
  apply orb_false_iff in Hb as [Hcm Ha].
  assert (committed s = None) as Hcm' by (by destruct s as [? [] ? ? ?]).
  assert (active s = None) as Ha' by (by destruct (active s)).
  case_bool_decide as Hix; simpl.
  - apply (inv_index st) in Hix as (s' & Hs' & Hid); [|done].
    assert (s' = s) as -> by congruence.
    unfold inv. set (st1 := set_slot_count _ _).
    apply (core_clean (erase st) (erase st1) (es_slot c) s); try done; simpl.
    + by rewrite Hid.
    + intros x Hne. rewrite Hq. set_solver.
  - apply Hre. intros x [->|?]%elem_of_cons; [right|by left]. rewrite Hs. intros s' [= <-] Hid.
    exfalso. apply Hix. apply (inv_index st); [done|]. eauto.
Qed.

Lemma clean_loop_inv n now : ∀ rep st, inv st → inv (clean_loop n now rep st).2.
Proof.
  induction n as [|n IH]; intros rep st Hc; simpl; [done|].
  destruct (empty_slots st) as [|c q] eqn:Hq; [done|].
  pose proof (clean_one_inv now c q rep st Hc Hq) as Hc'.
  destruct (clean_one _ _ _ _) as [rep1 st1]. by apply IH.
Qed.

(** ** The collector step *)

Lemma begin_if_requested_inv st : inv st → inv (begin_if_requested st).
Proof. intros Hc. unfold begin_if_requested. by destruct (sweep_requested _). Qed.

(** A collector step never panics and preserves the invariant. *)
Lemma collect_inv alive held gate now budget targets first wm st :
  inv st → ∃ rep st',
    collect_step_inner alive held gate now budget targets first wm st = Some (rep, st') ∧ inv st'.
Proof.
  intros Hc. unfold collect_step_inner. destruct gate; [by do 2 eexists|].
  set (r0 := if first then _ else _).
  assert (inv r0.2) as Hc1 by (unfold r0; destruct first; [by apply reclaim_inv|done]).
  destruct r0 as [[att rep1] st1]. simpl in Hc1.
  destruct (soft_pin_loop_inv (Nat.min (length (soft_pins (begin_if_requested st1)))
    (max_candidates budget)) now rep1 _ (begin_if_requested_inv _ Hc1)) as (rep2 & st2 & He2 & Hc2).
  unfold expire_soft_pins. rewrite He2. simpl.
  destruct (sweep_inv alive now budget rep2 st2 Hc2) as (n3 & rep3 & st3 & -> & Hc3). simpl.
  pose proof (expire_loop_inv (Nat.min (length (pending st3)) (max_candidates budget)) alive now
                rep3 st3 Hc3) as Hc4. unfold expire_pending.
  destruct (expire_loop _ _ _ _ _) as [rep4 st4]. simpl in Hc4.
  assert (∃ rep5 st5,
    (if sweep_is_incomplete st4 then Some (rep4, st4) else
       '(n, repa, sta) ← evict_scoped now (mkBudget (max_candidates budget - n3)
           (max_reclaims budget) (max_empty_slots budget))
           (if wm st1 =? 0 then targets else targets ++ [mkTarget (FilterClass Memory) (wm st1)])
           rep4 st4;
       evict now (mkBudget (max_candidates budget - n3 - n) (max_reclaims budget)
                    (max_empty_slots budget)) repa sta) = Some (rep5, st5) ∧ inv st5)
    as (rep5 & st5 & He5 & Hc5).
  { destruct (sweep_is_incomplete st4); [by do 2 eexists|].
    edestruct (evict_scoped_inv now) as (n & repa & sta & -> & Hca); [done|]. simpl.
    by apply evict_inv. }
  simpl in He5. simpl. rewrite He5. simpl.
  match goal with |- context [reclaim held now ?b rep5 st5] =>
    pose proof (reclaim_inv held now b rep5 st5 Hc5) as Hc6;
    destruct (reclaim held now b rep5 st5) as [[k rep6] st6] end.
  simpl in Hc6.
  pose proof (clean_loop_inv (Nat.min (length (empty_slots st6)) (max_empty_slots budget)) now
                rep6 st6 Hc6) as Hc7. unfold clean_empty_slots.
  destruct (clean_loop _ _ _ _) as [rep7 st7]. by do 2 eexists.
Qed.
End Preservation.
