(* ===== verification/CatalogSteps.v ===== *)
(** * The collector as a step relation

    A run of the collector is a sequence of steps on single candidates.  The
    relation [gc_step] has one rule per kind of candidate; [collect_steps] shows
    that every call of [collect_step_inner] is a sequence of such steps, so
    that properties of the collector are proved by induction on them. *)
From stdpp Require Import relations.
From S2P Require Import Prelude Identity Segment TenantQuota Replica ObjectTypes CatalogState.
From S2P Require Import CatalogWrite CatalogCollector CatalogInv CatalogOps.

Section Steps.
Context {R : Type} `{Resource R}.
Implicit Types (st : Catalog R).
Context (alive : R → bool) (held : N → bool) (now : N).

Inductive gc_step : Catalog R → Catalog R → Prop :=
| gc_liveness w st : gc_step st (set_liveness w st)
| gc_release l st : gc_step st (set_freed (freed st ++ l) st)
| gc_soft_pin c q rep rep' st st' :
    soft_pins st = c :: q →
    soft_pin_step now c rep (set_soft_pins q st) = Some (rep', st') → gc_step st st'
| gc_sweep g c q n rep res0 rep' res' st st' :
    gen_queue g st = c :: q →
    sweep_candidate alive g now c rep res0 (set_gen_remaining g n (set_gen_queue g q st)) =
      Some (rep', res', st') → gc_step st st'
| gc_expire c q rep st :
    pending st = c :: q → gc_step st (expire_candidate alive now c rep (set_pending q st)).2
| gc_evict g c q rep b rep' st st' :
    gen_queue g st = c :: q →
    evict_candidate c g now rep (set_gen_queue g q st) = Some (b, rep', st') → gc_step st st'
| gc_rotate g c q st :
    gen_queue g st = c :: q → gc_step st (push_gen g c (set_gen_queue g q st))
| gc_drop_stale g c q debts st :
    gen_queue g st = c :: q →
    classify_scoped_candidate c debts (set_gen_queue g q st) = ScopedStale →
    gc_step st (set_gen_queue g q st)
| gc_reclaim e q rep res0 st :
    retired st = e :: q → gc_step st (reclaim_one held now e rep res0 (set_retired q st)).2
| gc_clean c q rep st :
    empty_slots st = c :: q → gc_step st (clean_one now c rep (set_empty_slots q st)).2.

(** ** The loops *)

Lemma soft_pin_steps n : ∀ rep st rep' st',
  soft_pin_loop n now rep st = Some (rep', st') → rtc gc_step st st'.
Proof.
  induction n as [|n IH]; intros rep st rep' st'; simpl; [by intros [= <- <-]|].
  destruct (soft_pins st) as [|c q] eqn:Hq; [by intros [= <- <-]|].
  destruct (soft_pin_step _ _ _ _) as [[rep1 st1]|] eqn:He; [|done]. simpl. intros Hl.
  eapply rtc_l; [by eapply gc_soft_pin|by eapply IH].
Qed.

Lemma sweep_steps n g : ∀ k rep res0 st k' rep' res' st',
  sweep_loop n alive g now k rep res0 st = Some (k', rep', res', st') → rtc gc_step st st'.
Proof.
  induction n as [|n IH]; intros k rep res0 st k' rep' res' st'; simpl;
    [by intros [= <- <- <- <-]|].
  destruct (gen_queue g st) as [|c q] eqn:Hq.
  { intros [= <- <- <- <-]. apply rtc_once, gc_liveness. }
  destruct (sweep_candidate _ _ _ _ _ _ _) as [[[rep1 res1] st1]|] eqn:He; [|done]. simpl.
  intros Hl. eapply rtc_l; [by eapply gc_sweep|by eapply IH].
Qed.

Lemma expire_steps n : ∀ rep st, rtc gc_step st (expire_loop n alive now rep st).2.
Proof.
  induction n as [|n IH]; intros rep st; simpl; [done|].
  destruct (pending st) as [|c q] eqn:Hq; [done|].
  pose proof (gc_expire c q rep st Hq) as Hs.
  destruct (expire_candidate _ _ _ _ _) as [rep1 st1]. by eapply rtc_l.
Qed.

Lemma evict_steps n g : ∀ k rep st b k' rep' st',
  evict_loop n g now k rep st = Some (b, k', rep', st') → rtc gc_step st st'.
Proof.
  induction n as [|n IH]; intros k rep st b k' rep' st'; simpl; [by intros [= <- <- <- <-]|].
  destruct (reclaim_target_is_covered st); [by intros [= <- <- <- <-]|].
  destruct (gen_queue g st) as [|c q] eqn:Hq; [by intros [= <- <- <- <-]|].
  destruct (evict_candidate _ _ _ _ _) as [[[b1 rep1] st1]|] eqn:He; [|done]. simpl.
  intros Hl. eapply rtc_l; [by eapply gc_evict|by eapply IH].
Qed.

Lemma scoped_steps n g : ∀ k ds rep st b k' ds' rep' st',
  scoped_loop n g now k ds rep st = Some (b, k', ds', rep', st') → rtc gc_step st st'.
Proof.
  induction n as [|n IH]; intros k ds rep st b k' ds' rep' st'; simpl;
    [by intros [= <- <- <- <- <-]|].
  destruct (forallb _ ds); [by intros [= <- <- <- <- <-]|].
  destruct (gen_queue g st) as [|c q] eqn:Hq; [by intros [= <- <- <- <- <-]|].
  destruct (classify_scoped_candidate c ds _) eqn:Hcl; intros Hl.
  - eapply rtc_l; [by eapply gc_drop_stale|by eapply IH].
  - eapply rtc_l; [by eapply gc_rotate|by eapply IH].
  - destruct (evict_candidate _ _ _ _ _) as [[[b1 rep1] st1]|] eqn:He; [|done]. simpl in Hl.
    eapply rtc_l; [by eapply gc_evict|]. destruct (0 <? _); by eapply IH.
Qed.

Lemma reclaim_steps n : ∀ k rep res0 st,
  rtc gc_step st (reclaim_loop n held now k rep res0 st).2.
Proof.
  induction n as [|n IH]; intros k rep res0 st; simpl; [done|].
  destruct (retired st) as [|e q] eqn:Hq; [done|].
  pose proof (gc_reclaim e q rep res0 st Hq) as Hs.
  destruct (reclaim_one _ _ _ _ _ _) as [[rep1 res1] st1]. by eapply rtc_l.
Qed.

Lemma clean_steps n : ∀ rep st, rtc gc_step st (clean_loop n now rep st).2.
Proof.
  induction n as [|n IH]; intros rep st; simpl; [done|].
  destruct (empty_slots st) as [|c q] eqn:Hq; [done|].
  pose proof (gc_clean c q rep st Hq) as Hs.
  destruct (clean_one _ _ _ _) as [rep1 st1]. by eapply rtc_l.
Qed.

(** ** The phases *)

Lemma reclaim_phase_steps budget rep st : rtc gc_step st (reclaim held now budget rep st).2.
Proof.
  unfold reclaim.
  pose proof (reclaim_steps (Nat.min (length (retired st)) (max_reclaims budget)) 0 rep [] st) as Hs.
  destruct (reclaim_loop _ _ _ _ _ _ _) as [[[k rep1] res1] st1].
  eapply rtc_r; [exact Hs|apply gc_release].
Qed.

Lemma sweep_phase_steps budget rep st n rep' st' :
  retire_invalidated_published alive now budget rep st = Some (n, rep', st') → rtc gc_step st st'.
Proof.
  unfold retire_invalidated_published.
  destruct (sweep_loop _ _ _ _ _ _ _ _) as [[[[n1 rep1] res1] st1]|] eqn:H1; [|done]. simpl.
  apply sweep_steps in H1. intros He. etrans; [exact H1|].
  destruct (_ =? 0)%nat; simpl in He; [injection He as <- <- <-; apply rtc_once, gc_release|].
  destruct (sweep_loop _ _ _ _ _ _ _ st1) as [[[[n2 rep2] res2] st2]|] eqn:H2; [|done].
  injection He as <- <- <-. eapply rtc_r; [by eapply sweep_steps|apply gc_release].
Qed.

Lemma evict_phase_steps budget rep st rep' st' :
  evict now budget rep st = Some (rep', st') → rtc gc_step st st'.
Proof.
  unfold evict. destruct (evict_loop _ _ _ _ _ _) as [[[[b k1] rep1] st1]|] eqn:H1; [|done].
  simpl. apply evict_steps in H1. destruct b; [by intros [= <- <-]|].
  destruct (evict_loop _ _ _ _ _ st1) as [[[[b k2] rep2] st2]|] eqn:H2; [|done].
  apply evict_steps in H2. intros [= <- <-]. by etrans.
Qed.

Lemma scoped_phase_steps budget ts rep st n rep' st' :
  evict_scoped now budget ts rep st = Some (n, rep', st') → rtc gc_step st st'.
Proof.
  unfold evict_scoped. destruct (_ =? _)%nat; [by intros [= <- <- <-]|].
  destruct (map _ _) as [|d ds]; [by intros [= <- <- <-]|].
  destruct (scoped_loop _ _ _ _ _ _ _) as [[[[[b k1] ds1] rep1] st1]|] eqn:H1; [|done].
  simpl. apply scoped_steps in H1. destruct b; [by intros [= <- <- <-]|].
  destruct (scoped_loop _ _ _ _ _ _ st1) as [[[[[b k2] ds2] rep2] st2]|] eqn:H2; [|done].
  apply scoped_steps in H2. intros [= <- <- <-]. by etrans.
Qed.

Lemma collect_steps gate budget targets first wm st rep st' :
  collect_step_inner alive held gate now budget targets first wm st = Some (rep, st') →
  rtc gc_step st st'.
Proof.
  unfold collect_step_inner. destruct gate; [by intros [= <- <-]|].
  set (r0 := if first then _ else _). intros He.
  assert (rtc gc_step st r0.2) as H0
    by (unfold r0; destruct first; [apply reclaim_phase_steps|done]).
  destruct r0 as [[att rep1] st1]. simpl in H0. etrans; [exact H0|]. clear H0.
  etrans; [apply rtc_once, (gc_liveness (liveness (begin_if_requested st1)))|].
  replace (set_liveness _ st1) with (begin_if_requested st1) by
    (unfold begin_if_requested; destruct st1; simpl; by destruct (sweep_requested _)).
  destruct (expire_soft_pins _ _ _ _) as [[rep2 st2]|] eqn:H2; [|done].
  simpl in He. etrans; [eapply soft_pin_steps, H2|].
  destruct (retire_invalidated_published _ _ _ _ _) as [[[n3 rep3] st3]|] eqn:H3; [|done].
  simpl in He. etrans; [eapply sweep_phase_steps, H3|].
  unfold expire_pending in He.
  pose proof (expire_steps (Nat.min (length (pending st3)) (max_candidates budget)) rep3 st3) as H4.
  destruct (expire_loop _ _ _ _ _) as [rep4 st4]. etrans; [exact H4|].
  destruct (if sweep_is_incomplete st4 then _ else _) as [[rep5 st5]|] eqn:H5; [|done].
  simpl in He. transitivity st5.
  { destruct (sweep_is_incomplete st4); [by injection H5 as <- <-|].
    destruct (evict_scoped _ _ _ _ _) as [[[na repa] sta]|] eqn:Ha; [|done]. simpl in H5.
    etrans; [eapply scoped_phase_steps, Ha|eapply evict_phase_steps, H5]. }
  match type of He with context [reclaim held now ?b rep5 st5] =>
    pose proof (reclaim_phase_steps b rep5 st5) as H6;
    destruct (reclaim held now b rep5 st5) as [[k rep6] st6] end.
  etrans; [exact H6|]. injection He as He. unfold clean_empty_slots in He.
  match type of He with clean_loop ?n now rep6 st6 = _ => pose proof (clean_steps n rep6 st6) as H7 end.
  by rewrite He in H7.
Qed.

(** ** The invariant along the steps *)

Lemma gc_step_inv st st' : inv st → gc_step st st' → inv st'.
Proof.
  intros Hc Hs. destruct Hs as [w st|l st|c q rep rep' st st' Hq He
    |g c q n rep res0 rep' res' st st' Hq He|c q rep st Hq|g c q rep b rep' st st' Hq He
    |g c q st Hq|g c q ds st Hq Hcl|e q rep res0 st Hq|c q rep st Hq]; [done|done|..].
  - destruct (soft_pin_step_inv now c q rep st Hc) as (rep1 & st1 & He1 & Hc1).
    rewrite He in He1. by injection He1 as _ ->.
  - destruct (sweep_candidate_inv alive g c q n now rep res0 st Hc Hq)
      as (rep1 & res1 & st1 & He1 & Hc1). rewrite He in He1. by injection He1 as _ _ ->.
  - by apply expire_candidate_inv, inv_pend_pop.
  - destruct (evict_candidate_inv g c q now rep st Hc Hq) as (b1 & rep1 & st1 & He1 & Hc1).
    rewrite He in He1. by injection He1 as _ _ ->.
  - by apply (pop_push_inv g g c q st).
  - apply (pop_drop_inv g c q); [done..|]. apply (classify_stale c ds); [done|].
    rewrite <- Hcl. by destruct g.
  - by apply reclaim_one_inv.
  - by apply clean_one_inv.
Qed.

(** Induction over a run of the collector. *)
Lemma gc_run_ind (P : Catalog R → Prop) :
  (∀ st st', inv st → gc_step st st' → P st → P st') →
  ∀ st st', inv st → rtc gc_step st st' → P st → P st'.
Proof.
  intros Hstep st st' Hc Hr. revert Hc.
  induction Hr as [st|st st1 st' Hs _ IH]; intros Hc HP; [done|].
  apply IH; [by apply (gc_step_inv st)|by apply (Hstep st)].
Qed.

Lemma gc_run_rel (rel : Catalog R → Catalog R → Prop) `{!PreOrder rel} :
  (∀ st st', inv st → gc_step st st' → rel st st') →
  ∀ st st', inv st → rtc gc_step st st' → rel st st'.
Proof.
  intros Hstep st st' Hc Hr. apply (gc_run_ind (rel st)) with st; try done.
  intros s s' Hi Hs Hrel. etrans; [exact Hrel|auto].
Qed.
End Steps.
