(* ===== verification/CatalogGuard.v ===== *)
(** * Protection of published and retired versions

    What keeps a version's bytes in place: a published version whose access
    state satisfies [Q] (a running lease, a hard pin) is [guarded], a replaced
    version whose retirement entry waits for [L] is [kept].  Every step of the
    collector preserves both, as long as one replica [r] of the version stays
    alive. *)
From S2P Require Import Prelude Identity Segment TenantQuota Replica ObjectTypes CatalogState.
From S2P Require Import CatalogWrite CatalogCollector CatalogInv CatalogOps CatalogSteps.

Section Guard.
Context {R : Type} `{Resource R}.
Implicit Types (st : Catalog R) (ver : ObjectVersion R).

(** Leases grow and hard pins stay. *)
Definition access_le (x x' : AccessControl) : Prop :=
  lease_until x <= lease_until x' ∧ hard_pinned x' = hard_pinned x.

(** What a version keeps: its replicas, and its access state up to growth. *)
Definition version_le ver ver' : Prop :=
  v_replicas ver' = v_replicas ver ∧
  ∀ x, version_access ver = Some x → ∃ x', version_access ver' = Some x' ∧ access_le x x'.

(** A step that keeps every version. *)
Definition keeps st st' : Prop :=
  ∀ v ver, versions st !! v = Some ver →
    ∃ ver', versions st' !! v = Some ver' ∧ version_le ver ver'.

Definition points st (a v : N) : Prop :=
  ∃ s, slots st !! a = Some s ∧ committed s = Some v.

(** The version [v] holds replica [r] and its access state satisfies [Q]. *)
Definition holds (Q : AccessControl → Prop) (v : N) (r : ReplicaLease R) st : Prop :=
  ∃ ver x, versions st !! v = Some ver ∧ version_access ver = Some x ∧ Q x ∧
           r ∈ replicas (v_replicas ver).

Definition guarded (Q : AccessControl → Prop) (a v : N) (r : ReplicaLease R) st : Prop :=
  points st a v ∧ holds Q v r st.

Definition kept (L v : N) (r : ReplicaLease R) st : Prop :=
  (∃ e, e ∈ retired st ∧ ro_version e = v ∧ L <= ro_reclaim_after e) ∧
  ∃ ver, versions st !! v = Some ver ∧ r ∈ replicas (v_replicas ver).

Definition safe (Q : AccessControl → Prop) (L a v : N) (r : ReplicaLease R) st : Prop :=
  guarded Q a v r st ∨ kept L v r st.

(** ** Primitive steps *)

#[global] Instance access_le_preorder : PreOrder access_le.
Proof.
  unfold access_le. split; [by intros x|]. intros x y z [? ?] [? ?].
  split; [lia|congruence].
Qed.

#[global] Instance version_le_preorder : PreOrder version_le.
Proof.
  unfold version_le. split.
  - intros x. split; [done|]. intros y Hy. by exists y.
  - intros x y z [H1 H2] [H3 H4]. split; [congruence|]. intros u Hu.
    destruct (H2 u Hu) as (u' & Hu' & ?). destruct (H4 u' Hu') as (w & ? & ?).
    exists w. split; [done|]. by etrans.
Qed.

#[global] Instance keeps_preorder : PreOrder keeps.
Proof.
  split; [by intros st v ver Hv; exists ver|]. intros s1 s2 s3 H1 H2 v ver Hv.
  destruct (H1 v ver Hv) as (ver2 & Hv2 & ?). destruct (H2 v ver2 Hv2) as (ver3 & Hv3 & ?).
  exists ver3. split; [done|]. by etrans.
Qed.

Lemma keeps_same st st' : versions st' = versions st → keeps st st'.
Proof. intros He v ver Hv. exists ver. by rewrite He. Qed.

Lemma keeps_alter st w f :
  (∀ ver, version_le ver (f ver)) → keeps st (update_version w f st).
Proof.
  intros Hf v ver Hv. simpl. destruct (decide (w = v)) as [->|Hne].
  - exists (f ver). rewrite lookup_alter_eq, Hv. done.
  - exists ver. by rewrite lookup_alter_ne.
Qed.

Lemma keeps_charge f w st : keeps st (charge_step f w st).
Proof.
  unfold charge_step. destruct (versions st !! w); [|done].
  destruct (tenant_accounting _) as [[c b]|]; [|done].
  destruct (accounts st !! _); [|done]. destruct (f _ _ _) as [ph a'].
  etrans; [apply (keeps_alter st w (set_accounting (Some (mkCharge (charge_entry c) ph))))|].
  - intros ver. split; [done|]. intros x Hx. by exists x.
  - by apply keeps_same.
Qed.

Lemma charge_step_fields f w st :
  slots (charge_step f w st) = slots st ∧ retired (charge_step f w st) = retired st ∧
  config (charge_step f w st) = config st.
Proof.
  unfold charge_step. destruct (versions st !! w); [|done].
  destruct (tenant_accounting _) as [[c b]|]; [|done].
  destruct (accounts st !! _); [|done]. by destruct (f _ _ _).
Qed.

Lemma keeps_set_access w y st :
  (∀ ver x, versions st !! w = Some ver → version_access ver = Some x → access_le x y) →
  keeps st (update_version w (set_access y) st).
Proof.
  intros Hy v ver Hv. simpl. destruct (decide (w = v)) as [->|Hne].
  - exists (set_access y ver). rewrite lookup_alter_eq, Hv. split; [done|]. split; [done|].
    intros x Hx. exists y. split; [|by apply (Hy ver)].
    unfold version_access in *. simpl. by destruct (v_committed ver).
  - exists ver. by rewrite lookup_alter_ne.
Qed.

Lemma keeps_holds Q v r st st' :
  (∀ x x', access_le x x' → Q x → Q x') → keeps st st' → holds Q v r st → holds Q v r st'.
Proof.
  intros HQ Hk (ver & x & Hv & Hx & Hq & Hr).
  destruct (Hk v ver Hv) as (ver' & Hv' & Hrep & Hacc). destruct (Hacc x Hx) as (x' & Hx' & Hle).
  exists ver', x'. rewrite Hrep. split_and!; try done. by apply (HQ x).
Qed.

Lemma keeps_kept L v r st st' :
  keeps st st' → (∀ e, e ∈ retired st → e ∈ retired st') → kept L v r st → kept L v r st'.
Proof.
  intros Hk Hr ((e & He & ? & ?) & ver & Hv & Hin).
  destruct (Hk v ver Hv) as (ver' & Hv' & Hrep & _).
  split; [by exists e; auto|]. exists ver'. by rewrite Hrep.
Qed.

(** A step that keeps versions, published pointers and retired entries. *)
Record gentle st st' : Prop := {
  g_keeps : keeps st st';
  g_points a v : points st a v → points st' a v;
  g_retired e : e ∈ retired st → e ∈ retired st'
}.

#[global] Instance gentle_preorder : PreOrder gentle.
Proof.
  split; [by intros st; split|]. intros s1 s2 s3 [K1 P1 E1] [K2 P2 E2].
  split; [by etrans|auto..].
Qed.

Lemma gentle_same st st' :
  versions st' = versions st → slots st' = slots st → retired st' = retired st → gentle st st'.
Proof.
  intros Hv Hs Hr. split; [by apply keeps_same| |by rewrite Hr].
  intros a v. unfold points. by rewrite Hs.
Qed.

Lemma gentle_safe Q L a v r st st' :
  (∀ x x', access_le x x' → Q x → Q x') → gentle st st' →
  safe Q L a v r st → safe Q L a v r st'.
Proof.
  intros HQ [K P E] [[Hp Hh]|Hk]; [left|right].
  - split; [by apply P|]. by apply (keeps_holds Q v r st).
  - by apply (keeps_kept L v r st).
Qed.

Lemma gentle_charge f w st : gentle st (charge_step f w st).
Proof.
  destruct (charge_step_fields f w st) as (Hs & Hr & _).
  split; [apply keeps_charge| |by rewrite Hr]. intros a v. unfold points. by rewrite Hs.
Qed.

Lemma gentle_set_access w y st :
  (∀ ver x, versions st !! w = Some ver → version_access ver = Some x → access_le x y) →
  gentle st (update_version w (set_access y) st).
Proof. intros Hy. split; [by apply keeps_set_access|done..]. Qed.

Lemma gentle_update_slot b f st :
  (∀ s v, slots st !! b = Some s → committed s = Some v → committed (f s) = Some v) →
  gentle st (update_slot b f st).
Proof.
  intros Hf. split; [by apply keeps_same| |done]. intros a v (s & Hs & Hcm).
  unfold points. simpl. destruct (decide (b = a)) as [->|Hne].
  - exists (f s). rewrite lookup_alter_eq, Hs. eauto.
  - exists s. by rewrite lookup_alter_ne.
Qed.

Lemma gentle_push_retired v b d st : gentle st (push_retired v b d st).
Proof. split; [by apply keeps_same|done|]. intros e He. apply elem_of_app. by left. Qed.

Lemma gentle_after_transaction a s b now st : gentle st (after_transaction a s b now st).
Proof. unfold after_transaction. by destruct b, (has_committed s); apply gentle_same. Qed.

Lemma gentle_retire_aborted p now st : gentle st (retire_aborted_pending p now st).
Proof.
  unfold retire_aborted_pending. destruct (versions st !! p); [|done].
  etrans; [apply (gentle_charge (fun _ bytes a => charge_abort bytes a) p st)|]. etrans; [|apply gentle_push_retired].
  by apply gentle_same.
Qed.

Lemma gentle_abort_staged alive b s t p now st :
  gentle st (abort_staged alive b s t p now st).
Proof.
  unfold abort_staged. etrans; [|apply gentle_after_transaction].
  etrans; [|apply gentle_retire_aborted]. by apply gentle_update_slot.
Qed.

Lemma gentle_abort alive tx now st : gentle st (abort alive tx now st).2.
Proof.
  unfold abort. destruct (tx_catalog tx); [|done]. destruct (negb _); [done|].
  destruct (slots st !! tx_slot tx) as [s|]; [|done]. destruct (active s) as [t|].
  - destruct (negb _); [done|]. destruct (at_phase t); [done|]. destruct (negb _); [done|].
    apply gentle_abort_staged.
  - destruct (_ ≫= _); [|done]. by destruct (_ =? _).
Qed.

Lemma gentle_abort_pending alive b id e now st : gentle st (abort_pending alive b id e now st).2.
Proof.
  unfold abort_pending. destruct (slots st !! b) as [s|]; [|done].
  destruct (active s) as [t|]; [|done]. destruct (negb _); [done|].
  destruct (at_phase t); [done|]. destruct (negb _); [done|]. apply gentle_abort_staged.
Qed.

Lemma gentle_expire_candidate alive now c q rep st :
  gentle st (expire_candidate alive now c rep (set_pending q st)).2.
Proof.
  etrans; [by apply (gentle_same st (set_pending q st))|]. unfold expire_candidate.
  destruct (versions _ !! _) as [ver|]; [|done]. destruct (v_committed ver); [done|].
  destruct (_ && _); [by apply gentle_same|].
  pose proof (gentle_abort_pending alive (pc_slot c) (pc_transaction c) (pc_pending c) now
                (set_pending q st)). by destruct (abort_pending _ _ _ _ _ _).
Qed.

Lemma gentle_soft_pin_step now c q rep st rep' st' :
  soft_pin_step now c rep (set_soft_pins q st) = Some (rep', st') → gentle st st'.
Proof.
  intros Hst. etrans; [by apply (gentle_same st (set_soft_pins q st))|].
  revert Hst. unfold soft_pin_step.
  destruct (slots _ !! _) as [s|]; [|by intros [= <- <-]].
  destruct (versions _ !! _) as [ver|] eqn:Hv; [|by intros [= <- <-]].
  destruct (negb _); [by intros [= <- <-]|].
  destruct (now <? _); [intros [= <- <-]; by apply gentle_same|].
  destruct (version_access ver) as [x|] eqn:Hx; [|done]. simpl. unfold expire_soft_pin.
  destruct (_ && _); intros [= <- <-]; apply gentle_set_access; intros ver' x' Hv' Hx';
    rewrite Hv in Hv'; injection Hv' as <-; rewrite Hx in Hx'; by injection Hx' as <-.
Qed.

Lemma gentle_retire_published a i v now st : gentle st (retire_published a i v now st).
Proof.
  unfold retire_published. destruct (versions st !! v); [|done].
  etrans; [apply (gentle_charge (fun _ bytes a => charge_mark_retiring bytes a) v st)|].
  etrans; [|by apply (gentle_same (push_retired v (v_reserved o) now
    (count (on_retire_published (v_reserved o) (is_memory o)) (mark_accounting_retiring v st))))].
  etrans; [|apply gentle_push_retired]. by apply gentle_same.
Qed.

Lemma gentle_push_gen g c st : gentle st (push_gen g c st).
Proof. destruct g; by apply gentle_same. Qed.

Lemma gentle_gen_queue g q st : gentle st (set_gen_queue g q st).
Proof. destruct g; by apply gentle_same. Qed.

Lemma gentle_clean_one now c q rep st :
  gentle st (clean_one now c rep (set_empty_slots q st)).2.
Proof.
  unfold clean_one. simpl. destruct (now <? es_deadline c); [by apply gentle_same|].
  destruct (slots st !! es_slot c) as [s|] eqn:Hs; [|by apply gentle_same].
  destruct (has_committed s || _) eqn:Hb; [by apply gentle_same|].
  case_bool_decide; [|by apply gentle_same]. apply orb_false_iff in Hb as [Hb _].
  split; [by apply keeps_same| |done]. intros a v (s' & Hs' & Hcm). exists s'. simpl.
  split; [|done]. rewrite lookup_delete_ne; [done|]. intros <-. rewrite Hs in Hs'.
  injection Hs' as <-. unfold has_committed in Hb. by rewrite Hcm in Hb.
Qed.

(** ** Steps that retire, prune or reclaim *)

Section Protected.
Context (Q : AccessControl → Prop) (L now a v : N) (alive : R → bool) (r : ReplicaLease R).
Hypothesis HQ : ∀ x x', access_le x x' → Q x → Q x'.
Hypothesis HQnow : ∀ x, Q x → is_leased now x = true ∨ hard_pinned x = true.
Hypothesis HL : now < L.
Hypothesis Hr : lease_is_live alive r = true.
Let ok := safe Q L a v r.

(** A published version other than the protected one is retired. *)
Lemma retire_safe b w st st1 s :
  ok st → gentle st st1 → slots st !! b = Some s → committed s = Some w →
  (guarded Q a v r st → b ≠ a) →
  ok (retire_published b (s_identity s) w now (update_slot b (set_committed None) st1)).
Proof.
  intros Hok Hg Hs Hw Hne. eapply gentle_safe; [exact HQ|apply gentle_retire_published|].
  destruct Hok as [Hgu|Hk].
  - left. specialize (Hne Hgu). destruct Hgu as [Hp Hh].
    destruct (g_points _ _ Hg a v Hp) as (s' & Hs' & Hcm).
    split; [|by apply (keeps_holds Q v r st); [|apply Hg|]].
    exists s'. simpl. by rewrite lookup_alter_ne.
  - right. by apply (keeps_kept L v r st); [apply Hg|apply Hg|].
Qed.

(** Pruning keeps the live replica. *)
Lemma prune_safe c st ver lv bytes :
  versions st !! gc_version c = Some ver →
  replicas lv = List.filter (lease_is_live alive) (replicas (v_replicas ver)) →
  ok st → ok (update_version (gc_version c) (fun _ => set_replicas lv bytes ver) st).
Proof.
  intros Hv Hfil Hok.
  assert (∀ w wer, versions st !! w = Some wer → r ∈ replicas (v_replicas wer) →
    ∃ wer', versions (update_version (gc_version c) (fun _ => set_replicas lv bytes ver) st) !! w
              = Some wer' ∧ version_access wer' = version_access wer ∧
            r ∈ replicas (v_replicas wer')) as Hkeep.
  { intros w wer Hw Hin. simpl. destruct (decide (gc_version c = w)) as [<-|Hne].
    - rewrite lookup_alter_eq, Hv. assert (wer = ver) as -> by congruence.
      exists (set_replicas lv bytes ver). split_and!; [done..|]. simpl. rewrite Hfil.
      apply list_elem_of_In, filter_In. split; [by apply list_elem_of_In|done].
    - exists wer. by rewrite lookup_alter_ne. }
  destruct Hok as [[Hp (wer & x & Hw & Hx & Hq & Hin)]|[He (wer & Hw & Hin)]];
    destruct (Hkeep v wer Hw Hin) as (wer' & Hw' & Hacc & Hin'); [left|right].
  - split; [done|]. exists wer', x. by rewrite Hacc.
  - split; [done|]. by exists wer'.
Qed.

Lemma evict_candidate_safe c g rep st b rep' st' :
  evict_candidate c g now rep st = Some (b, rep', st') → ok st → ok st'.
Proof.
  unfold evict_candidate. intros He Hok.
  destruct (slots st !! gc_slot c) as [s|] eqn:Hs; [|by injection He as <- <- <-].
  destruct (versions st !! gc_version c) as [ver|] eqn:Hv; [|by injection He as <- <- <-].
  destruct (committed_points_to s _) eqn:Hpt; simpl in He; [|by injection He as <- <- <-].
  apply pointing in Hpt. destruct (version_access ver) as [x|] eqn:Hx; [|done]. simpl in He.
  assert (∀ g', ok (push_gen g' c st)) as Hpush
    by (intros g'; by apply (gentle_safe Q L a v r st); [|apply gentle_push_gen|]).
  destruct (pin_protects now st x) eqn:Hpin; [injection He as <- <- <-; apply Hpush|].
  destruct (active s); [injection He as <- <- <-; apply (Hpush true)|].
  set (st1 := update_version _ _ _) in He.
  assert (gentle st st1) as Hg1.
  { apply gentle_set_access. intros ver' x' Hv' Hx'. assert (x' = x) as -> by congruence. done. }
  assert (∀ g', ok (push_gen g' c st1)) as Hpush1.
  { intros g'. apply (gentle_safe Q L a v r st); [done| |done].
    etrans; [exact Hg1|apply gentle_push_gen]. }
  destruct (recent x); [injection He as <- <- <-; apply (Hpush1 true)|].
  destruct (is_leased now x) eqn:Hl; [injection He as <- <- <-; apply (Hpush1 true)|].
  injection He as <- <- <-. apply (retire_safe _ _ st); try done.
  intros [(s' & Hs' & Hcm) (ver' & x' & Hv' & Hx' & Hq & _)] Heq. subst a.
  assert (s' = s) as -> by congruence. assert (v = gc_version c) as -> by congruence.
  assert (ver' = ver) as -> by congruence. assert (x' = x) as -> by congruence.
  destruct (HQnow x Hq) as [?|Hh]; [congruence|].
  unfold pin_protects in Hpin. by rewrite Hh in Hpin.
Qed.

Lemma sweep_candidate_safe g c rep res0 st rep' res' st' :
  sweep_candidate alive g now c rep res0 st = Some (rep', res', st') →
  (∀ ver, versions st !! gc_version c = Some ver → normal (v_replicas ver)) →
  ok st → ok st'.
Proof.
  unfold sweep_candidate. intros He Hnorm Hok.
  destruct (slots st !! gc_slot c) as [s|] eqn:Hs; [|by injection He as <- <- <-].
  destruct (versions st !! gc_version c) as [ver|] eqn:Hv; [|by injection He as <- <- <-].
  destruct (committed_points_to s _) eqn:Hpt; simpl in He; [|by injection He as <- <- <-].
  apply pointing in Hpt. pose proof (prune_spec alive ver (Hnorm ver eq_refl)) as Hps.
  assert (gentle st (update_version (gc_version c) (fun _ => ver) st)) as Hg1.
  { apply gentle_same; [|done..]. simpl. by rewrite (alter_lookup_insert _ _ _ _ Hv), insert_id. }
  assert (∀ g', ok (push_gen g' c (update_version (gc_version c) (fun _ => ver) st))) as Hpush.
  { intros g'. apply (gentle_safe Q L a v r st); [done| |done].
    etrans; [exact Hg1|apply gentle_push_gen]. }
  destruct (prune_invalidated alive ver) as [[| |stale] ver'].
  - subst ver'. injection He as <- <- <-. apply Hpush.
  - destruct Hps as [-> Hdead]. destruct (active s); injection He as <- <- <-; [apply Hpush|].
    apply (retire_safe _ _ st); try done.
    intros [(s' & Hs' & Hcm) (wer & x & Hw & _ & _ & Hin)] Heq. subst a.
    assert (s' = s) as -> by congruence. assert (v = gc_version c) as -> by congruence.
    assert (wer = ver) as -> by congruence.
    assert (has_live alive (v_replicas ver) = true); [|congruence].
    apply has_live_spec. by exists r.
  - destruct Hps as (lv & -> & _ & _ & Hfil & _).
    destruct (release_pruned_accounting _ _ _) as [st2| |] eqn:Hrel; [|done..].
    injection He as <- <- <-.
    apply (gentle_safe Q L a v r st2); [done|
      etrans; [|apply gentle_push_gen]; by apply gentle_same|].
    apply (gentle_safe Q L a v r (update_version (gc_version c)
      (fun _ => set_replicas lv (v_reserved ver - set_reserved_bytes stale) ver) st)); [done| |].
    { revert Hrel. unfold release_pruned_accounting. destruct (v_accounting _); simpl;
        [|by intros [= <-]]. destruct (direct_replica_class stale); [|by intros [= <-]].
      destruct (checked_mul _ _); simpl; [|done]. intros [= <-]. by apply gentle_same. }
    by apply (prune_safe c st ver lv).
Qed.

(** Popping the entry of another version. *)
Lemma pop_retired_safe e q st :
  retired st = e :: q → ro_version e ≠ v → ok st → ok (set_retired q st).
Proof.
  intros Hq Hne [Hg|[(x & Hx & Hxv & Hxl) Hv]]; [by left|right].
  split; [|done]. exists x. split; [|done]. simpl. rewrite Hq in Hx.
  apply elem_of_cons in Hx as [->|?]; done.
Qed.

(** Reclamation frees neither a published version nor a retired one that
    still waits. *)
Lemma reclaim_one_safe held e q rep res0 st :
  inv st → retired st = e :: q → ok st → ok (reclaim_one held now e rep res0 (set_retired q st)).2.
Proof.
  intros Hc Hq Hok. unfold reclaim_one. simpl.
  assert (ok (set_retired (q ++ [e]) st)) as Hback.
  { apply (gentle_safe Q L a v r st); [done| |done]. split; [by apply keeps_same|done|].
    intros x. rewrite Hq. simpl. set_solver. }
  destruct (N.ltb_spec now (ro_reclaim_after e)) as [_|Hdue]; [done|].
  destruct (negb _); [done|].
  pose proof (q_retired_nodup _ (c_queues _ Hc)) as Hnd. unfold retired_addrs in Hnd.
  simpl in Hnd. rewrite Hq in Hnd. apply NoDup_cons in Hnd as [Hnd _].
  assert (ro_version e ≠ v) as Hne.
  { destruct Hok as [[(s & Hs & Hcm) _]|[(x & Hx & Hxv & Hxl) _]].
    - destruct (inv_committed st a s v Hc Hs Hcm) as (_ & _ & _ & _ & Hnr & _). intros <-.
      apply Hnr. unfold retired_addrs. rewrite Hq. set_solver.
    - rewrite Hq in Hx. apply elem_of_cons in Hx as [->|Hx]; [lia|]. intros Heq. apply Hnd.
      apply list_elem_of_fmap. exists x. split; [congruence|done]. }
  destruct (versions st !! ro_version e) as [wer|] eqn:Hw; simpl.
  - set (st1 := release_accounting (ro_version e) (set_retired q st)).
    assert (gentle (set_retired q st) st1) as Hg by apply gentle_charge.
    assert (ok (set_retired q st)) as Hok0 by by apply (pop_retired_safe e q st).
    apply (gentle_safe Q L a v r _ st1 HQ Hg) in Hok0.
    destruct Hok0 as [[Hp (ver & x & Hv & Hx)]|[He (ver & Hv & Hin)]]; [left|right].
    + split; [done|]. exists ver, x. simpl. by rewrite lookup_delete_ne.
    + split; [done|]. exists ver. simpl. by rewrite lookup_delete_ne.
  - by apply (pop_retired_safe e q st).
Qed.

Lemma gc_step_safe held st st' : inv st → gc_step alive held now st st' → ok st → ok st'.
Proof.
  intros Hc Hs Hok.
  assert (∀ s1 s2, gentle s1 s2 → ok s1 → ok s2) as Hgen by (intros s1 s2; by apply gentle_safe).
  destruct Hs as [w st|l st|c q rep rep' st st' Hq He
    |g c q n rep res0 rep' res' st st' Hq He|c q rep st Hq|g c q rep b rep' st st' Hq He
    |g c q st Hq|g c q ds st Hq Hcl|e q rep res0 st Hq|c q rep st Hq].
  - by apply (Hgen st); [apply gentle_same|].
  - by apply (Hgen st); [apply gentle_same|].
  - apply (Hgen st); [by apply (gentle_soft_pin_step now c q rep st rep')|done].
  - apply (sweep_candidate_safe _ _ _ _ _ _ _ _ He).
    + intros ver. destruct g; simpl; intros Hv; apply (inv_version st _ ver Hc Hv).
    + apply (Hgen st); [|done]. etrans; [apply (gentle_gen_queue g q)|]. by apply gentle_same.
  - apply (Hgen st); [apply gentle_expire_candidate|done].
  - apply (evict_candidate_safe _ _ _ _ _ _ _ He). apply (Hgen st); [apply gentle_gen_queue|done].
  - apply (Hgen st); [|done]. etrans; [apply (gentle_gen_queue g q)|apply gentle_push_gen].
  - apply (Hgen st); [apply gentle_gen_queue|done].
  - by apply reclaim_one_safe.
  - apply (Hgen st); [apply gentle_clean_one|done].
Qed.

Lemma collect_safe held gate budget targets first wm st rep st' :
  inv st →
  collect_step_inner alive held gate now budget targets first wm st = Some (rep, st') →
  ok st → ok st'.
Proof.
  intros Hc He. apply (gc_run_ind alive held now ok); [|done|by eapply collect_steps].
  intros s s' Hi Hs. by apply (gc_step_safe held).
Qed.

(** A removal that is not forced. *)
Lemma remove_safe i st : ok st → ok (remove_with_force i now false st).2.
Proof.
  intros Hok. unfold remove_with_force. destruct (lookup_slot i st) as [b|]; [|done].
  destruct (slots st !! b) as [s|] eqn:Hs; [|done]. destruct (active s); [done|].
  destruct (committed s) as [w|] eqn:Hcm; [|done].
  destruct (versions st !! w ≫= version_access) as [x|] eqn:Hx; [|done]. simpl.
  destruct (is_leased now x) eqn:Hl; [done|]. destruct (hard_pinned x) eqn:Hh; [done|]. simpl.
  apply (retire_safe _ _ st); try done.
  intros [(s' & Hs' & Hcm') (ver & x' & Hv & Hx' & Hq & _)] Heq. subst a.
  assert (s' = s) as -> by congruence. assert (w = v) as -> by congruence.
  rewrite Hv in Hx. simpl in Hx. assert (x' = x) as -> by congruence.
  destruct (HQnow x Hq); congruence.
Qed.
End Protected.

(** ** Reads and writes *)

Lemma record_access_le now ttl refresh x :
  refresh <= ttl → access_le x (record_access now ttl refresh x).2.
Proof.
  intros Hle. unfold record_access, acquire_lease, access_le, tick_saturating_add. cbn.
  split; [|reflexivity].
  assert (saturating_add now refresh <= saturating_add now ttl) by (unfold saturating_add; lia).
  destruct (N.ltb_spec (lease_until x) (saturating_add now refresh)); cbn; lia.
Qed.

Lemma gentle_get alive i now st :
  lease_refresh_ticks (config st) <= lease_ttl_ticks (config st) →
  gentle st (get alive i now st).2.
Proof.
  intros Hcfg. unfold get. destruct (lookup_slot i st); [|done].
  destruct (slots st !! _) as [s|]; [|done]. destruct (committed s) as [w|]; [|done].
  destruct (versions st !! w) as [ver|] eqn:Hv; [|done].
  destruct (version_access ver) as [x|] eqn:Hx; [|done].
  pose proof (record_access_le now _ _ x Hcfg) as Hle.
  destruct (record_access _ _ _ _) as [l x']. simpl in Hle.
  assert (gentle st (update_version w (set_access x') st)).
  { apply gentle_set_access. intros ver' y Hv' Hy. assert (y = x) as -> by congruence. done. }
  by destruct (has_live _ _).
Qed.

Lemma gentle_begin i o mode pins now st :
  inv st → gentle st (begin_write_resolved i o mode pins now st).2.
Proof.
  intros Hc. unfold begin_write_resolved. destruct (key_is_empty i); [done|].
  destruct (_ <=? _); [done|]. destruct (lookup_slot i st) as [a|].
  - destruct (slots st !! a) as [s|] eqn:Hs; [|done]. destruct (active s); [done|].
    destruct (checked_add (next_transaction_id s) 1) as [nx|].
    + assert (∀ base, gentle st (count on_claim (update_slot a (fun s0 =>
        set_active (Some (mkActive (next_transaction_id s) o base pins Claimed))
          (set_next_ids nx (next_version_id s0) s0)) st))) as Hg.
      { intros base. match goal with |- gentle _ (count _ ?m) => transitivity m end;
          [by apply gentle_update_slot|by apply gentle_same]. }
      destruct mode, (committed s); try done; apply Hg.
    + by destruct mode, (committed s).
  - simpl. split; [by apply keeps_same| |done]. intros a v (s & Hs & Hcm). exists s. simpl.
    split; [|done]. rewrite lookup_insert_ne; [done|].
    pose proof (c_addr _ Hc a s Hs) as Hlt. simpl in Hlt. lia.
Qed.

Lemma gentle_claim_drop alive c st : gentle st (claim_drop alive c st).
Proof.
  unfold claim_drop. destruct (slots st !! wc_slot c) as [s|]; [|done].
  destruct (active s) as [t|]; [|done]. destruct (at_phase t); [|done].
  destruct (_ =? _); [|done]. etrans; [|apply gentle_after_transaction].
  etrans; [|by apply (gentle_same (update_slot (wc_slot c) (set_active None) st))].
  by apply gentle_update_slot.
Qed.

Lemma gentle_stage_fail alive c rs g st : gentle st (stage_fail alive c rs g st).
Proof.
  unfold stage_fail. etrans; [|apply gentle_claim_drop]. by destruct g as [[]|]; apply gentle_same.
Qed.

Lemma gentle_stage_lost alive c ct rs g st : gentle st (stage_lost alive c ct rs g st).
Proof.
  unfold stage_lost. etrans; [|apply gentle_claim_drop].
  by destruct (tenant_accounting _) as [[]|]; apply gentle_same.
Qed.

Lemma gentle_stage_publish c ver t st : inv st → gentle st (stage_publish c ver t st).
Proof.
  intros Hc. destruct (fresh_addr _ Hc) as (Hf & _). rewrite erase_lookup in Hf.
  apply fmap_None in Hf. simpl in Hf. unfold stage_publish.
  set (st1 := set_versions _ _). transitivity st1;
    [|match goal with |- context [update_slot ?b ?f st1] => transitivity (update_slot b f st1) end;
      [by apply gentle_update_slot|by apply gentle_same]].
  split; [|done..]. intros v ver' Hv. exists ver'. split; [|done]. simpl.
  rewrite lookup_insert_ne; [done|]. congruence.
Qed.

Lemma gentle_stage alive b1 b2 c ct rs g st :
  inv st → gentle st (stage_inner alive b1 b2 c ct rs g st).2.
Proof.
  intros Hc. unfold stage_inner. destruct b1; simpl; [|apply gentle_stage_fail].
  destruct (_ =? 0); [apply gentle_stage_fail|].
  destruct (validate_stage_replicas _ _ _) as [[]| |]; [|apply gentle_stage_fail|done].
  destruct (slots st !! wc_slot c) as [s|]; [|apply gentle_stage_fail].
  destruct (active s) as [t|]; [|apply gentle_stage_lost].
  destruct (negb (at_id t =? wc_id c) || _ || _); [apply gentle_stage_lost|].
  destruct b2; simpl; [by apply gentle_stage_publish|].
  etrans; [by apply gentle_stage_publish|apply gentle_abort].
Qed.

Lemma gentle_revoke alive owners now st : gentle st (revoke_pending_owners alive owners now st).2.
Proof.
  unfold revoke_pending_owners. destruct (filter _ owners) as [|o os]; [done|].
  assert (∀ l n st, gentle st (revoke_loop alive (o :: os) now l n st).2) as Hl.
  { induction l as [|c l IH]; intros n s; simpl; [done|].
    destruct (pending_snapshot c s); [|apply IH].
    destruct (negb _); [etrans; [|apply IH]; by apply gentle_same|].
    pose proof (gentle_abort_pending alive (pc_slot c) (pc_transaction c) (pc_pending c) now s) as Hg.
    destruct (abort_pending _ _ _ _ _ _) as [b s1]. etrans; [exact Hg|apply IH]. }
  etrans; [|apply Hl]. by apply gentle_same.
Qed.

(** A step that keeps every version and touches neither slots nor the retired
    queue. *)
Record quiet st st' : Prop := {
  qt_keeps : keeps st st';
  qt_slots : slots st' = slots st;
  qt_retired : retired st' = retired st;
  qt_config : config st' = config st
}.

#[global] Instance quiet_preorder : PreOrder quiet.
Proof.
  split; [by intros st; split|]. intros s1 s2 s3 [K1 P1 E1 C1] [K2 P2 E2 C2].
  split; [by etrans|congruence..].
Qed.

Lemma quiet_same st st' :
  versions st' = versions st → slots st' = slots st → retired st' = retired st →
  config st' = config st → quiet st st'.
Proof. intros ? ? ? ?. split; [by apply keeps_same|done..]. Qed.

Lemma quiet_charge f w st : quiet st (charge_step f w st).
Proof. destruct (charge_step_fields f w st) as (? & ? & ?). split; [apply keeps_charge|done..]. Qed.

Lemma quiet_set_commit cv p ver st :
  versions st !! p = Some ver → v_committed ver = None →
  quiet st (update_version p (set_commit (Some cv)) st).
Proof.
  intros Hv Hvc. split; [|done..]. intros w wer Hw. simpl.
  destruct (decide (p = w)) as [->|Hne].
  - rewrite lookup_alter_eq, Hw. eexists. split; [done|]. split; [done|].
    intros x. unfold version_access. assert (wer = ver) as -> by congruence. by rewrite Hvc.
  - exists wer. by rewrite lookup_alter_ne.
Qed.

(** The slot after a publication. *)
Definition publish_slot (p nv : N) (s : ObjectSlot) : ObjectSlot :=
  set_active None (set_committed (Some p) (set_next_ids (next_transaction_id s) nv s)).

Lemma commit_publish_fields alive b t p ver base cv nv st :
  versions st !! p = Some ver → v_committed ver = None →
  let st' := commit_publish alive b t p ver base cv nv st in
  keeps st st' ∧
  slots st' = alter (publish_slot p nv) b (slots st) ∧
  retired st' = retired st ++
    match at_base t, base with
    | Some w, Some old =>
        [mkRetired w (v_reserved old)
           (match version_access old with Some x => lease_until x | None => 0 end)]
    | _, _ => []
    end ∧
  config st' = config st.
Proof.
  intros Hv Hvc. unfold commit_publish. fold (publish_slot p nv). cbv zeta.
  set (st1 := commit_accounting _ _).
  assert (quiet st st1) as [K1 S1 R1 C1].
  { etrans; [by apply (quiet_set_commit cv p ver)|apply quiet_charge]. }
  clearbody st1. set (st2 := update_slot _ _ _).
  assert (keeps st st2 ∧ slots st2 = alter (publish_slot p nv) b (slots st) ∧
          retired st2 = retired st ∧ config st2 = config st) as (K2 & S2 & R2 & C2).
  { split; [etrans; [exact K1|by apply keeps_same]|]. unfold st2. simpl. by rewrite S1, R1. }
  clearbody st2. set (st5 := match soft_pin_deadline (cv_access cv) with Some _ => _ | _ => _ end).
  assert (quiet st2 st5) as Q5 by (unfold st5; destruct (soft_pin_deadline _); by apply quiet_same).
  clearbody st5. destruct Q5 as [K5 S5 R5 C5].
  match goal with |- context [if _ then ?s else request_liveness ?s] => set (st6 := s) end.
  assert (keeps st5 st6 ∧ slots st6 = slots st5 ∧ retired st6 = retired st5 ++
    match at_base t, base with
    | Some w, Some old => [mkRetired w (v_reserved old)
        (match version_access old with Some x => lease_until x | None => 0 end)]
    | _, _ => []
    end ∧ config st6 = config st5) as (K6 & S6 & R6 & C6).
  { unfold st6. destruct (at_base t) as [w|], base as [old|]; try by rewrite app_nil_r.
    destruct (quiet_charge (fun _ bytes a => charge_mark_retiring bytes a) w st5) as [Kc Sc Rc Cc].
    unfold mark_accounting_retiring. simpl. rewrite Sc, Rc, Cc. split; [|done].
    etrans; [exact Kc|by apply keeps_same]. }
  clearbody st6.
  assert (quiet st6 (if all_live alive (v_replicas ver) then st6 else request_liveness st6))
    as [K7 S7 R7 C7] by (destruct (all_live _ _); [done|by apply quiet_same]).
  rewrite S7, R7, C7, S6, R6, C6, S5, R5, C5, S2, R2, C2. split; [|done].
  etrans; [exact K2|]. etrans; [exact K5|]. by etrans.
Qed.

(** A commit replaces a leased version by keeping it until its lease ends. *)
Lemma commit_safe (Q : AccessControl → Prop) L a v r alive alive' tx c now st :
  (∀ x x', access_le x x' → Q x → Q x') → (∀ x, Q x → L <= lease_until x) →
  inv st → safe Q L a v r st → safe Q L a v r (commit alive alive' tx c now st).2.
Proof.
  intros HQ HQL Hc Hok. unfold commit. destruct (tx_catalog tx); [|done]. destruct (negb _); [done|].
  destruct (slots st !! tx_slot tx) as [s|] eqn:Hs; [|done].
  destruct (active s) as [t|] eqn:Ha.
  - destruct (negb _); [done|]. destruct (at_phase t) as [|p] eqn:Hp; [done|].
    destruct (negb _); [done|]. destruct (versions st !! p) as [ver|] eqn:Hv; [|done].
    destruct (negb _); [done|]. destruct (negb _); [done|].
    destruct (inv_base st _ s t Hc Hs Ha) as [Hb _].
    destruct (inv_staged st _ s t p Hc Hs Ha Hp) as (ver' & Hv' & _ & Hvc & _).
    assert (ver' = ver) as -> by congruence. rewrite Hvc.
    assert (∀ cv nv, safe Q L a v r (commit_publish alive' (tx_slot tx) t p ver
              (at_base t ≫= fun b => versions st !! b) cv nv st)) as Hpub.
    { intros cv nv. destruct (commit_publish_fields alive' (tx_slot tx) t p ver
        (at_base t ≫= fun b => versions st !! b) cv nv st Hv Hvc) as (K & S & Rt & _).
      destruct Hok as [[(s' & Hs' & Hcm) Hh]|Hk].
      - destruct (decide (tx_slot tx = a)) as [<-|Hne].
        + right. assert (s' = s) as -> by congruence.
          destruct Hh as (wer & x & Hw & Hx & Hq & Hin).
          destruct (K v wer Hw) as (wer' & Hw' & Hrep & _).
          split; [|exists wer'; by rewrite Hrep].
          rewrite Rt, Hb, Hcm. simpl. rewrite Hw, Hx.
          eexists. split; [apply elem_of_app; right; by apply list_elem_of_singleton|].
          simpl. split; [done|auto].
        + left. split; [|by apply (keeps_holds Q v r st)]. exists s'.
          by rewrite S, lookup_alter_ne.
      - right. apply (keeps_kept L v r st); [done| |done]. intros e He. rewrite Rt.
        apply elem_of_app. by left. }
    destruct (at_base t ≫= _) as [old|] eqn:Hold; simpl;
      [destruct (version_access old)|]; destruct (checked_add (next_version_id s) 1); try done;
      apply Hpub.
  - destruct (committed s); [|done]. destruct (versions st !! _) as [ver|]; [|done].
    destruct (negb _); [done|]. destruct (v_committed ver); [|done]. by case_bool_decide.
Qed.
End Guard.
