(* ===== verification/CatalogSlots.v ===== *)
(** * The life of a key's slot

    The slot of a key goes through a small state machine: it is created with a
    claimed write, a claim is dropped or staged, a staged write is aborted or
    published, a published version is retired, an empty slot is removed.  Every
    operation of the catalog moves every slot along this machine, with the
    transitions and on the slots that the operation allows ([lsteps]). *)
From stdpp Require Import relations.
From S2P Require Import Prelude Identity Segment TenantQuota Replica ObjectTypes CatalogState.
From S2P Require Import CatalogWrite CatalogCollector CatalogInv CatalogOps CatalogSteps.
From S2P Require Import CatalogGuard.

Inductive slot_label :=
| LNew | LClean | LClaim | LUnclaim | LStage | LUnstage | LPublish (v : N) | LUnpublish.

Inductive slot_step : slot_label → option ObjectSlot → option ObjectSlot → Prop :=
| ss_new i t :
    at_phase t = Claimed → at_base t = None →
    slot_step LNew None (Some (mkSlot i None 2 1 (Some t)))
| ss_clean s :
    committed s = None → active s = None → slot_step LClean (Some s) None
| ss_claim s t nx :
    active s = None → at_phase t = Claimed → at_base t = committed s →
    at_id t = next_transaction_id s → next_transaction_id s < nx →
    slot_step LClaim (Some s) (Some (set_active (Some t) (set_next_ids nx (next_version_id s) s)))
| ss_unclaim s t :
    active s = Some t → at_phase t = Claimed →
    slot_step LUnclaim (Some s) (Some (set_active None s))
| ss_stage s t p :
    active s = Some t → at_phase t = Claimed →
    slot_step LStage (Some s)
      (Some (set_active (Some (mkActive (at_id t) (at_owner t) (at_base t) (at_pins t) (Staged p))) s))
| ss_unstage s t p :
    active s = Some t → at_phase t = Staged p →
    slot_step LUnstage (Some s) (Some (set_active None s))
| ss_publish s t p nv :
    active s = Some t → at_phase t = Staged p → at_base t = committed s →
    next_version_id s < nv →
    slot_step (LPublish p) (Some s) (Some (publish_slot p nv s))
| ss_unpublish s v :
    active s = None → committed s = Some v →
    slot_step LUnpublish (Some s) (Some (set_committed None s)).

Section Slots.
Context {R : Type} `{Resource R}.
Implicit Types (st : Catalog R) (ver : ObjectVersion R).

(** The transitions an operation may take on each slot. *)
Definition allowed := N → slot_label → Prop.
Implicit Types K : allowed.

Definition slot_moves K (a : N) (o o' : option ObjectSlot) : Prop :=
  ∃ l, K a l ∧ slot_step l o o'.

(** Every slot moves by allowed transitions, and the configuration stays. *)
Definition lsteps K st st' : Prop :=
  config st' = config st ∧ ∀ a, rtc (slot_moves K a) (slots st !! a) (slots st' !! a).

#[global] Instance lsteps_preorder K : PreOrder (lsteps K).
Proof.
  split; [intros st; split; [done|]; by intros a|].
  intros s1 s2 s3 [C1 H1] [C2 H2]. split; [congruence|].
  intros a. etrans; [apply H1|apply H2].
Qed.

Lemma lsteps_weaken K K' st st' :
  (∀ a l, K a l → K' a l) → lsteps K st st' → lsteps K' st st'.
Proof.
  intros HK [Hc Hs]. split; [done|]. intros a. eapply rtc_subrel, Hs.
  intros o o' (l & Hl & Hst). exists l. auto.
Qed.

Lemma ls_same K st st' : slots st' = slots st → config st' = config st → lsteps K st st'.
Proof. intros Hs Hc. split; [done|]. intros a. by rewrite Hs. Qed.

Lemma ls_update K b f st :
  (∀ s, slots st !! b = Some s → slot_moves K b (Some s) (Some (f s))) →
  lsteps K st (update_slot b f st).
Proof.
  intros Hf. split; [done|]. intros a. simpl. destruct (decide (b = a)) as [->|Hne].
  - rewrite lookup_alter_eq. destruct (slots st !! a) as [s|]; [|done]. apply rtc_once. auto.
  - by rewrite lookup_alter_ne.
Qed.

(** ** Steps that leave the slots *)

Lemma ls_charge K f w st : lsteps K st (charge_step f w st).
Proof. by apply ls_same; apply charge_step_fields. Qed.

Lemma ls_after_transaction K a s b now st : lsteps K st (after_transaction a s b now st).
Proof. unfold after_transaction. by destruct (has_committed s), b; apply ls_same. Qed.

Lemma ls_retire_aborted K p now st : lsteps K st (retire_aborted_pending p now st).
Proof.
  unfold retire_aborted_pending. destruct (versions st !! p); [|done].
  etrans; [apply (ls_charge K (fun _ bytes a => charge_abort bytes a) p)|]. by apply ls_same.
Qed.

Lemma ls_retire_published K a i v now st : lsteps K st (retire_published a i v now st).
Proof.
  unfold retire_published. destruct (versions st !! v); [|done].
  etrans; [apply (ls_charge K (fun _ bytes a => charge_mark_retiring bytes a) v)|].
  by apply ls_same.
Qed.

Lemma ls_get K alive i now st : lsteps K st (get alive i now st).2.
Proof.
  unfold get. destruct (lookup_slot i st); [|done]. destruct (slots st !! _) as [s|]; [|done].
  destruct (committed s) as [v|]; [|done]. destruct (versions st !! v) as [ver|]; [|done].
  destruct (version_access ver); [|done]. destruct (record_access _ _ _ _).
  by destruct (has_live _ _); apply ls_same.
Qed.

Lemma ls_soft_pin K now c rep st rep' st' :
  soft_pin_step now c rep st = Some (rep', st') → lsteps K st st'.
Proof.
  unfold soft_pin_step. destruct (slots _ !! _); [|by intros [= <- <-]].
  destruct (versions _ !! _) as [ver|]; [|by intros [= <- <-]].
  destruct (negb _); [by intros [= <- <-]|].
  destruct (now <? _); [intros [= <- <-]; by apply ls_same|].
  destruct (version_access ver); [|done]. simpl. destruct (expire_soft_pin _ _ _).
  intros [= <- <-]. by apply ls_same.
Qed.

Lemma ls_gen_queue K g q st : lsteps K st (set_gen_queue g q st).
Proof. by destruct g; apply ls_same. Qed.

Lemma ls_push_gen K g c st : lsteps K st (push_gen g c st).
Proof. by destruct g; apply ls_same. Qed.

Lemma ls_reclaim K held now e q rep res0 st :
  lsteps K st (reclaim_one held now e rep res0 (set_retired q st)).2.
Proof.
  unfold reclaim_one. destruct (now <? _); [by apply ls_same|].
  destruct (negb _); [by apply ls_same|]. destruct (versions _ !! _); [|by apply ls_same].
  transitivity (release_accounting (ro_version e) (set_retired q st)); [|by apply ls_same].
  transitivity (set_retired q st); [by apply ls_same|apply ls_charge].
Qed.

(** ** Aborts and retirements *)

Lemma ls_abort_staged K alive b s t p now st :
  K b LUnstage → slots st !! b = Some s → active s = Some t → at_phase t = Staged p →
  lsteps K st (abort_staged alive b s t p now st).
Proof.
  intros HK Hs Ha Hp. unfold abort_staged. etrans; [|apply ls_after_transaction].
  etrans; [|apply ls_retire_aborted]. apply ls_update. rewrite Hs. intros s' [= <-].
  exists LUnstage. split; [done|by eapply ss_unstage].
Qed.

Lemma ls_abort K alive tx now st :
  K (tx_slot tx) LUnstage → lsteps K st (abort alive tx now st).2.
Proof.
  intros HK. unfold abort. destruct (tx_catalog tx); [|done]. destruct (negb _); [done|].
  destruct (slots st !! tx_slot tx) as [s|] eqn:Hs; [|done]. destruct (active s) as [t|] eqn:Ha.
  - destruct (negb _); [done|]. destruct (at_phase t) eqn:Hp; [done|]. destruct (negb _); [done|].
    by apply ls_abort_staged.
  - destruct (_ ≫= _); [|done]. by destruct (_ =? _).
Qed.

Lemma ls_abort_pending K alive b id e now st :
  K b LUnstage → lsteps K st (abort_pending alive b id e now st).2.
Proof.
  intros HK. unfold abort_pending. destruct (slots st !! b) as [s|] eqn:Hs; [|done].
  destruct (active s) as [t|] eqn:Ha; [|done]. destruct (negb _); [done|].
  destruct (at_phase t) eqn:Hp; [done|]. destruct (negb _); [done|]. by apply ls_abort_staged.
Qed.

Lemma ls_retire K b s i v now st :
  K b LUnpublish → slots st !! b = Some s → active s = None → committed s = Some v →
  lsteps K st (retire_published b i v now (update_slot b (set_committed None) st)).
Proof.
  intros HK Hs Ha Hv. etrans; [|apply ls_retire_published]. apply ls_update. rewrite Hs.
  intros s' [= <-]. exists LUnpublish. split; [done|by eapply ss_unpublish].
Qed.

Lemma ls_remove K i now force st :
  (∀ a, lookup_slot i st = Some a → K a LUnpublish) →
  lsteps K st (remove_with_force i now force st).2.
Proof.
  intros HK. unfold remove_with_force. destruct (lookup_slot i st) as [a|]; [|done].
  destruct (slots st !! a) as [s|] eqn:Hs; [|done]. destruct (active s) eqn:Ha; [done|].
  destruct (committed s) eqn:Hv; [|done]. destruct (_ ≫= _) as [y|]; [|done].
  destruct (negb force && is_leased now y); [done|].
  destruct (negb force && hard_pinned y); [done|]. apply (ls_retire K a s); auto.
Qed.

(** ** Writes *)

Lemma ls_begin K i o mode pins now st :
  inv st → (∀ a, lookup_slot i st = Some a → K a LClaim) →
  (lookup_slot i st = None → K (next_addr st) LNew) →
  lsteps K st (begin_write_resolved i o mode pins now st).2.
Proof.
  intros Hc HK HN. unfold begin_write_resolved. destruct (key_is_empty i); [done|].
  destruct (_ <=? _); [done|]. destruct (lookup_slot i st) as [a|].
  - destruct (slots st !! a) as [s|] eqn:Hs; [|done]. destruct (active s) eqn:Ha; [done|].
    destruct (checked_add (next_transaction_id s) 1) as [nx|] eqn:Hnx;
      [|by destruct mode, (committed s)].
    apply checked_add_Some in Hnx as [-> _].
    assert (lsteps K st (update_slot a (fun s0 =>
        set_active (Some (mkActive (next_transaction_id s) o (committed s) pins Claimed))
          (set_next_ids (next_transaction_id s + 1) (next_version_id s0) s0)) st)) as Hg.
    { apply ls_update. rewrite Hs. intros s' [= <-]. exists LClaim. split; [auto|].
      apply ss_claim; simpl; try done. lia. }
    destruct mode, (committed s); try done; exact Hg.
  - simpl. split; [done|]. intros a. simpl. destruct (decide (next_addr st = a)) as [<-|Hne].
    + rewrite lookup_insert_eq.
      destruct (slots st !! next_addr st) as [s|] eqn:Hs;
        [pose proof (c_addr _ Hc _ s Hs) as Hlt; simpl in Hlt; lia|].
      apply rtc_once. exists LNew. split; [auto|by apply ss_new].
    + by rewrite lookup_insert_ne.
Qed.

Lemma ls_claim_drop K alive c st :
  K (wc_slot c) LUnclaim → lsteps K st (claim_drop alive c st).
Proof.
  intros HK. unfold claim_drop. destruct (slots st !! wc_slot c) as [s|] eqn:Hs; [|done].
  destruct (active s) as [t|] eqn:Ha; [|done]. destruct (at_phase t) eqn:Hp; [|done].
  destruct (_ =? _); [|done]. etrans; [|apply ls_after_transaction].
  transitivity (update_slot (wc_slot c) (set_active None) st); [|by apply ls_same].
  apply ls_update. rewrite Hs. intros s' [= <-]. exists LUnclaim. split; [done|by eapply ss_unclaim].
Qed.

Lemma ls_stage_fail K alive c rs g st :
  K (wc_slot c) LUnclaim → lsteps K st (stage_fail alive c rs g st).
Proof.
  intros HK. unfold stage_fail. etrans; [|by apply ls_claim_drop].
  by destruct g as [[]|]; apply ls_same.
Qed.

Lemma ls_stage_lost K alive c ct rs g st :
  K (wc_slot c) LUnclaim → lsteps K st (stage_lost alive c ct rs g st).
Proof.
  intros HK. unfold stage_lost. etrans; [|by apply ls_claim_drop].
  by destruct (tenant_accounting _) as [[]|]; apply ls_same.
Qed.

Lemma ls_stage K alive b1 b2 c ct rs g st :
  K (wc_slot c) LUnclaim → K (wc_slot c) LStage → K (wc_slot c) LUnstage →
  lsteps K st (stage_inner alive b1 b2 c ct rs g st).2.
Proof.
  intros KC KS KU. unfold stage_inner. destruct b1; simpl; [|by apply ls_stage_fail].
  destruct (_ =? 0); [by apply ls_stage_fail|].
  destruct (validate_stage_replicas _ _ _) as [[]| |]; [|by apply ls_stage_fail|done].
  destruct (slots st !! wc_slot c) as [s|] eqn:Hs; [|by apply ls_stage_fail].
  destruct (active s) as [t|] eqn:Ha; [|by apply ls_stage_lost].
  destruct (negb (at_id t =? wc_id c) || _ || _) eqn:Hb; [by apply ls_stage_lost|].
  apply orb_false_iff in Hb as [_ Hb].
  assert (at_phase t = Claimed) as Hp by (by destruct (at_phase t)).
  assert (lsteps K st (stage_publish c (staged_version c ct rs g) t st)) as Hpub.
  { unfold stage_publish. set (st1 := set_versions _ _).
    match goal with |- context [update_slot ?b ?f st1] =>
      transitivity (update_slot b f st1); [|by apply ls_same] end.
    etrans; [by apply (ls_same K st st1)|]. apply ls_update. simpl. rewrite Hs.
    intros s' [= <-]. exists LStage. split; [done|by apply ss_stage]. }
  destruct b2; simpl; [done|]. etrans; [exact Hpub|by apply ls_abort].
Qed.

Lemma ls_commit K alive alive' tx c now st :
  inv st → (∀ p, K (tx_slot tx) (LPublish p)) → lsteps K st (commit alive alive' tx c now st).2.
Proof.
  intros Hc HK. unfold commit. destruct (tx_catalog tx); [|done]. destruct (negb _); [done|].
  destruct (slots st !! tx_slot tx) as [s|] eqn:Hs; [|done]. destruct (active s) as [t|] eqn:Ha.
  - destruct (negb _); [done|]. destruct (at_phase t) as [|p] eqn:Hp; [done|].
    destruct (negb _); [done|]. destruct (versions st !! p) as [ver|] eqn:Hv; [|done].
    destruct (negb _); [done|]. destruct (negb _); [done|].
    destruct (inv_staged st _ s t p Hc Hs Ha Hp) as (ver' & Hv' & _ & Hvc & _).
    assert (ver' = ver) as -> by congruence. rewrite Hvc.
    destruct (inv_base st _ s t Hc Hs Ha) as [Hb _].
    assert (∀ base cv nv, next_version_id s < nv →
      lsteps K st (commit_publish alive' (tx_slot tx) t p ver base cv nv st)) as Hpub.
    { intros base cv nv Hnv. destruct (commit_publish_fields alive' (tx_slot tx) t p ver base cv nv
        st Hv Hvc) as (_ & S & _ & Cf).
      transitivity (update_slot (tx_slot tx) (publish_slot p nv) st); [|by apply ls_same].
      apply ls_update. rewrite Hs. intros s' [= <-]. exists (LPublish p).
      split; [done|by apply (ss_publish s t)]. }
    destruct (at_base t ≫= _) as [old|]; simpl; [destruct (version_access old)|];
      destruct (checked_add (next_version_id s) 1) eqn:Hn; try done;
      apply checked_add_Some in Hn as [-> _]; apply Hpub; lia.
  - destruct (committed s); [|done]. destruct (versions st !! _) as [ver|]; [|done].
    destruct (negb _); [done|]. destruct (v_committed ver); [|done]. by case_bool_decide.
Qed.

(** ** The collector *)

Lemma ls_revoke K alive owners now st :
  (∀ a, K a LUnstage) → lsteps K st (revoke_pending_owners alive owners now st).2.
Proof.
  intros HK. unfold revoke_pending_owners. destruct (filter _ owners) as [|o os]; [done|].
  assert (∀ l n st, lsteps K st (revoke_loop alive (o :: os) now l n st).2) as Hl.
  { induction l as [|c l IH]; intros n s; simpl; [done|].
    destruct (pending_snapshot c s); [|apply IH].
    destruct (negb _); [etrans; [|apply IH]; by apply ls_same|].
    pose proof (ls_abort_pending K alive (pc_slot c) (pc_transaction c) (pc_pending c) now s (HK _)).
    destruct (abort_pending _ _ _ _ _ _) as [b s1]. etrans; [done|apply IH]. }
  etrans; [|apply Hl]. by apply ls_same.
Qed.

Lemma ls_expire K alive now c q rep st :
  K (pc_slot c) LUnstage →
  lsteps K st (expire_candidate alive now c rep (set_pending q st)).2.
Proof.
  intros HK. etrans; [by apply (ls_same K st (set_pending q st))|]. unfold expire_candidate.
  destruct (versions _ !! _) as [ver|]; [|done]. destruct (v_committed ver); [done|].
  destruct (_ && _); [by apply ls_same|].
  pose proof (ls_abort_pending K alive (pc_slot c) (pc_transaction c) (pc_pending c) now
                (set_pending q st) HK). by destruct (abort_pending _ _ _ _ _ _).
Qed.

Lemma ls_evict K c g now rep st b rep' st' :
  K (gc_slot c) LUnpublish →
  evict_candidate c g now rep st = Some (b, rep', st') → lsteps K st st'.
Proof.
  intros HK. unfold evict_candidate.
  destruct (slots st !! gc_slot c) as [s|] eqn:Hs; [|by intros [= <- <- <-]].
  destruct (versions st !! gc_version c) as [ver|]; [|by intros [= <- <- <-]].
  destruct (committed_points_to s _) eqn:Hpt; simpl; [|by intros [= <- <- <-]].
  destruct (version_access ver) as [y|]; [|done]. simpl.
  destruct (pin_protects now st y); [intros [= <- <- <-]; apply ls_push_gen|].
  destruct (active s) eqn:Ha; [by intros [= <- <- <-]; apply ls_same|].
  destruct (recent y); [by intros [= <- <- <-]; apply ls_same|].
  destruct (is_leased now y); [by intros [= <- <- <-]; apply ls_same|].
  intros [= <- <- <-]. etrans; [|apply (ls_retire K _ s); [done..|by apply pointing]].
  by apply ls_same.
Qed.

Lemma ls_sweep K alive c g now rep res0 st rep' res' st' :
  K (gc_slot c) LUnpublish →
  sweep_candidate alive g now c rep res0 st = Some (rep', res', st') → lsteps K st st'.
Proof.
  intros HK. unfold sweep_candidate.
  destruct (slots st !! gc_slot c) as [s|] eqn:Hs; [|by intros [= <- <- <-]].
  destruct (versions st !! gc_version c) as [ver|]; [|by intros [= <- <- <-]].
  destruct (committed_points_to s _) eqn:Hpt; simpl; [|by intros [= <- <- <-]].
  destruct (prune_invalidated alive ver) as [[| |stale] ver'].
  - intros [= <- <- <-]. etrans; [|apply ls_push_gen]. by apply ls_same.
  - destruct (active s) eqn:Ha; intros [= <- <- <-].
    + etrans; [|apply ls_push_gen]. by apply ls_same.
    + etrans; [|apply (ls_retire K _ s); [done..|by apply pointing]]. by apply ls_same.
  - unfold release_pruned_accounting.
    destruct (v_accounting _); simpl; [destruct (direct_replica_class stale); simpl|];
      [destruct (checked_mul _ _); simpl; [|done]|..]; intros [= <- <- <-];
      (etrans; [|apply ls_push_gen]); by apply ls_same.
Qed.

Lemma ls_clean K now c q rep st :
  K (es_slot c) LClean → lsteps K st (clean_one now c rep (set_empty_slots q st)).2.
Proof.
  intros HK. unfold clean_one. simpl. destruct (now <? _); [by apply ls_same|].
  destruct (slots st !! _) as [s|] eqn:Hs; [|by apply ls_same].
  destruct (has_committed s || _) eqn:Hb; [by apply ls_same|].
  case_bool_decide; [|by apply ls_same]. apply orb_false_iff in Hb as [Hcm Ha].
  split; [done|]. intros a. simpl. destruct (decide (es_slot c = a)) as [<-|Hne].
  - rewrite lookup_delete_eq, Hs. apply rtc_once. exists LClean. split; [done|].
    apply ss_clean; [by unfold has_committed in Hcm; destruct (committed s)|by destruct (active s)].
  - by rewrite lookup_delete_ne.
Qed.

(** The transitions of the collector. *)
Definition collector_labels : allowed := fun _ l => l = LUnstage ∨ l = LUnpublish ∨ l = LClean.

Lemma ls_gc_step alive held now st st' :
  gc_step alive held now st st' → lsteps collector_labels st st'.
Proof.
  unfold collector_labels. intros Hs. destruct Hs as [w st|l st|c q rep rep' st st' Hq He
    |g c q n rep res0 rep' res' st st' Hq He|c q rep st Hq|g c q rep b rep' st st' Hq He
    |g c q st Hq|g c q ds st Hq Hcl|e q rep res0 st Hq|c q rep st Hq];
    [by apply ls_same..| | | | | | | |].
  - transitivity (set_soft_pins q st); [by apply ls_same|by eapply ls_soft_pin].
  - etrans; [|eapply ls_sweep, He; auto]. etrans; [apply (ls_gen_queue _ g q)|by apply ls_same].
  - apply ls_expire. auto.
  - etrans; [|eapply ls_evict, He; auto]. apply ls_gen_queue.
  - etrans; [apply (ls_gen_queue _ g q)|apply ls_push_gen].
  - apply ls_gen_queue.
  - apply ls_reclaim.
  - apply ls_clean. auto.
Qed.

Lemma ls_collect alive held gate now budget targets first wm st rep st' :
  inv st →
  collect_step_inner alive held gate now budget targets first wm st = Some (rep, st') →
  lsteps collector_labels st st'.
Proof.
  intros Hc He. apply (gc_run_rel alive held now (lsteps collector_labels));
    [|done|by eapply collect_steps]. intros s s' _. apply ls_gc_step.
Qed.
End Slots.
