(* ===== verification/CatalogWorld.v ===== *)
(** * The catalog with its callers

    The catalog together with the write claims and version handles that callers
    hold, the operations they can take in any order, and the invariant of the
    whole.  The environment of a step is what the segment layer promises of the
    replicas that are staged. *)
From stdpp Require Import relations.
From S2P Require Import Prelude Identity Segment TenantQuota Replica ObjectTypes CatalogState.
From S2P Require Import CatalogWrite CatalogCollector CatalogInv CatalogOps CatalogSteps CatalogGuard CatalogSlots.

Section World.
Context {R : Type} `{Resource R}.
Implicit Types (st : Catalog R) (ver : ObjectVersion R).

Record CatWorld := mkWorld {
  cat : Catalog R;
  held_claims : list WriteClaim;
  handles : list N
}.

Inductive cat_op :=
| OBegin (i : ObjectIdentity) (o : WriteOwner) (mode : WriteMode) (pins : ObjectPinRequest)
    (now : N)
| OStage (k : nat) (alive : R → bool) (active_before active_after : bool)
    (content : ObjectContent) (rs : ReplicaSet R) (g : option (N * N))
| ODropClaim (k : nat) (alive : R → bool)
| OCommit (tx : WriteTransaction) (alive alive_after : R → bool) (c : ObjectCommit) (now : N)
| OAbort (tx : WriteTransaction) (alive : R → bool) (now : N)
| OGet (i : ObjectIdentity) (alive : R → bool) (now : N)
| ORemove (i : ObjectIdentity) (now : N) (force : bool)
| OCollect (alive : R → bool) (gate_busy : bool) (now : N) (budget : CollectBudget)
    (targets : list ReclaimTarget) (reclaim_first : bool) (watermark : Catalog R → N)
| ORevoke (alive : R → bool) (owners : list WriteOwner) (now : N)
| ORequestReclaim (bytes : N)
| ORequestLiveness
| ODropHandle (k : nat)
| OAccounts (accs : gmap N QuotaAccount).

(** [OAccounts]: the tenant layer changes its accounts between two calls. *)

(** The new handle a successful call returns. *)
Definition keep_handle {E A} (f : A → N) (r : res E A) (hs : list N) : list N :=
  match r with Ok x => f x :: hs | _ => hs end.

(** One call; [None] is a panic. *)
Definition cat_step (op : cat_op) (w : CatWorld) : option CatWorld :=
  let st := cat w in
  let hs := handles w in
  match op with
  | OBegin i o mode pins now =>
      match begin_write i o mode pins now st with
      | (Panic, _) => None
      | (Ok c, st') => Some (mkWorld st' (held_claims w ++ [c]) hs)
      | (Err _, st') => Some (mkWorld st' (held_claims w) hs)
      end
  | OStage k alive b1 b2 content rs g =>
      match held_claims w !! k with
      | None => Some w
      | Some c =>
          match stage_inner alive b1 b2 c content rs g st with
          | (Panic, _) => None
          | (r, st') =>
              Some (mkWorld st' (delete k (held_claims w)) (keep_handle tx_pending r hs))
          end
      end
  | ODropClaim k alive =>
      match held_claims w !! k with
      | None => Some w
      | Some c => Some (mkWorld (claim_drop alive c st) (delete k (held_claims w)) hs)
      end
  | OCommit tx alive alive_after c now =>
      match commit alive alive_after tx c now st with
      | (Panic, _) => None
      | (r, st') => Some (mkWorld st' (held_claims w) (keep_handle (fun v => v) r hs))
      end
  | OAbort tx alive now =>
      match abort alive tx now st with
      | (Panic, _) => None
      | (_, st') => Some (mkWorld st' (held_claims w) hs)
      end
  | OGet i alive now =>
      match get alive i now st with
      | (Panic, _) => None
      | (r, st') => Some (mkWorld st' (held_claims w) (keep_handle read_version r hs))
      end
  | ORemove i now force =>
      match remove_with_force i now force st with
      | (Panic, _) => None
      | (_, st') => Some (mkWorld st' (held_claims w) hs)
      end
  | OCollect alive busy now budget targets first wm =>
      '(_, st') ← collect_step_inner alive (fun v => bool_decide (v ∈ hs)) busy now budget
                    targets first wm st;
      Some (mkWorld st' (held_claims w) hs)
  | ORevoke alive owners now =>
      Some (mkWorld (revoke_pending_owners alive owners now st).2 (held_claims w) hs)
  | ORequestReclaim bytes => Some (mkWorld (request_reclaim bytes st) (held_claims w) hs)
  | ORequestLiveness => Some (mkWorld (request_liveness st) (held_claims w) hs)
  | ODropHandle k => Some (mkWorld st (held_claims w) (delete k hs))
  | OAccounts accs => Some (mkWorld (set_accounts accs st) (held_claims w) hs)
  end.

(** What a step may assume of its environment. *)
Definition cat_env (op : cat_op) (w : CatWorld) : Prop :=
  match op with
  | OStage _ _ _ _ _ rs _ => stage_env rs (cat w)
  | _ => True
  end.

Inductive reachable (cid : N) (conf : ObjectCatalogConfig) : CatWorld → Prop :=
| reach_new : config_validate conf = Ok tt →
    reachable cid conf (mkWorld (catalog_new cid conf) [] [])
| reach_step w op w' :
    reachable cid conf w → cat_env op w → cat_step op w = Some w' → reachable cid conf w'.

(** ** The slots along a step *)

(** The slot transitions each call may take. *)
Definition op_allows (op : cat_op) (w : CatWorld) : allowed := fun a l =>
  match op with
  | OBegin i _ _ _ _ =>
      (lookup_slot i (cat w) = Some a ∧ l = LClaim) ∨
      (lookup_slot i (cat w) = None ∧ a = next_addr (cat w) ∧ l = LNew)
  | OStage k _ _ _ _ _ _ =>
      wc_slot <$> held_claims w !! k = Some a ∧ (l = LUnclaim ∨ l = LStage ∨ l = LUnstage)
  | ODropClaim k _ => wc_slot <$> held_claims w !! k = Some a ∧ l = LUnclaim
  | OCommit tx _ _ _ _ => a = tx_slot tx ∧ ∃ p, l = LPublish p
  | OAbort tx _ _ => a = tx_slot tx ∧ l = LUnstage
  | ORemove i _ _ => lookup_slot i (cat w) = Some a ∧ l = LUnpublish
  | OCollect _ _ _ _ _ _ _ => collector_labels a l
  | ORevoke _ _ _ => l = LUnstage
  | OGet _ _ _ | ORequestReclaim _ | ORequestLiveness | ODropHandle _ | OAccounts _ => False
  end.

Lemma cat_step_slots op w w' :
  inv (cat w) → cat_step op w = Some w' → lsteps (op_allows op w) (cat w) (cat w').
Proof.
  intros Hc. set (K := op_allows op w). destruct op; simpl.
  - unfold begin_write. destruct (resolve_pin_request _ _) as [p|e|]; [|by intros [= <-]|done].
    assert (lsteps K (cat w) (begin_write_resolved i o mode p now (cat w)).2) as Hl
      by (apply ls_begin; unfold K; simpl; auto).
    destruct (begin_write_resolved _ _ _ _ _ _) as [[]]; [..|done]; by intros [= <-].
  - destruct (held_claims w !! k) as [c|] eqn:Hk; [|by intros [= <-]].
    assert (lsteps K (cat w) (stage_inner alive active_before active_after c content rs g (cat w)).2)
      as Hl by (apply ls_stage; unfold K; simpl; rewrite Hk; auto).
    destruct (stage_inner _ _ _ _ _ _ _ _) as [[]]; [..|done]; by intros [= <-].
  - destruct (held_claims w !! k) as [c|] eqn:Hk; [|by intros [= <-]]. intros [= <-].
    apply ls_claim_drop. unfold K. simpl. by rewrite Hk.
  - assert (lsteps K (cat w) (commit alive alive_after tx c now (cat w)).2) as Hl
      by (apply ls_commit; unfold K; simpl; eauto).
    destruct (commit _ _ _ _ _ _) as [[]]; [..|done]; by intros [= <-].
  - assert (lsteps K (cat w) (abort alive tx now (cat w)).2) as Hl by (by apply ls_abort).
    destruct (abort _ _ _ _) as [[]]; [..|done]; by intros [= <-].
  - pose proof (ls_get K alive i now (cat w)) as Hl.
    destruct (get _ _ _ _) as [[]]; [..|done]; by intros [= <-].
  - assert (lsteps K (cat w) (remove_with_force i now force (cat w)).2) as Hl
      by (apply ls_remove; unfold K; simpl; auto).
    destruct (remove_with_force _ _ _ _) as [[]]; [..|done]; by intros [= <-].
  - destruct (collect_step_inner _ _ _ _ _ _ _ _ _) as [[rep st']|] eqn:He; [|done].
    simpl. intros [= <-]. by eapply ls_collect.
  - intros [= <-]. by apply ls_revoke.
  - intros [= <-]. by apply ls_same.
  - intros [= <-]. by apply ls_same.
  - intros [= <-]. by apply ls_same.
  - intros [= <-]. by apply ls_same.
Qed.

(** ** Claimed slots *)

(** Without [LUnclaim] and [LStage] a claimed slot stays as it is. *)
Lemma claimed_stays K a s t o' :
  (∀ l, K a l → l ≠ LUnclaim ∧ l ≠ LStage) → active s = Some t → at_phase t = Claimed →
  rtc (slot_moves K a) (Some s) o' → o' = Some s.
Proof.
  intros HK Ha Hp Hr. apply rtc_inv in Hr as [<-|(o1 & (l & Hl & Hs) & _)]; [done|].
  destruct (HK l Hl). inversion Hs; simplify_eq; congruence.
Qed.

(** ** The invariant of the world *)

(** A held claim owns the active, claimed transaction of its slot. *)
Definition claim_ok st (c : WriteClaim) : Prop :=
  ∃ s t, slots st !! wc_slot c = Some s ∧ active s = Some t ∧ at_phase t = Claimed ∧
    at_id t = wc_id c ∧ at_owner t = wc_owner c ∧ s_identity s = wc_identity c.

Record world_inv (conf : ObjectCatalogConfig) (w : CatWorld) : Prop := {
  w_inv : inv (cat w);
  w_claims c : c ∈ held_claims w → claim_ok (cat w) c;
  w_nodup : NoDup (wc_slot <$> held_claims w);
  w_config : config (cat w) = conf
}.

(** The claims on the slots an operation does not unclaim or stage. *)
Lemma claim_ok_stay K st st' c :
  lsteps K st st' → (∀ l, K (wc_slot c) l → l ≠ LUnclaim ∧ l ≠ LStage) →
  claim_ok st c → claim_ok st' c.
Proof.
  intros [_ Hst] HK (s & t & Hs & Ha & Hp & Hr). exists s, t. split; [|done].
  specialize (Hst (wc_slot c)). rewrite Hs in Hst. by eapply claimed_stays.
Qed.

Lemma world_keep conf w K st' hs :
  world_inv conf w → inv st' → lsteps K (cat w) st' →
  (∀ a l, K a l → l ≠ LUnclaim ∧ l ≠ LStage) →
  world_inv conf (mkWorld st' (held_claims w) hs).
Proof.
  intros [Hi Hcl Hnd Hcf] Hi' Hst HK. split; simpl; [done| |done|].
  - intros c Hc. apply (claim_ok_stay K (cat w)); [done|apply HK|by apply Hcl].
  - destruct Hst. congruence.
Qed.

(** A claim is consumed: the others are of other slots. *)
Lemma world_consume conf w k c K st' hs :
  world_inv conf w → held_claims w !! k = Some c → inv st' →
  lsteps K (cat w) st' → (∀ a l, K a l → a = wc_slot c) →
  world_inv conf (mkWorld st' (delete k (held_claims w)) hs).
Proof.
  intros [Hi Hcl Hnd Hcf] Hk Hi' Hst HK.
  pose proof (delete_Permutation _ _ _ Hk) as Hperm.
  assert (NoDup (wc_slot c :: (wc_slot <$> delete k (held_claims w)))) as Hnd'.
  { change (NoDup (wc_slot <$> c :: delete k (held_claims w))). by rewrite <- Hperm. }
  apply NoDup_cons in Hnd' as [Hnin Hnd']. split; simpl; [done| |done|].
  - intros c' Hc'. apply (claim_ok_stay K (cat w)); [done| |].
    + intros l He%HK. exfalso. apply Hnin. rewrite <- He. by apply list_elem_of_fmap_2.
    + apply Hcl. rewrite Hperm. by right.
  - destruct Hst. congruence.
Qed.

Lemma begin_claim_ok i o mode pins now st c st' :
  inv st → begin_write_resolved i o mode pins now st = (Ok c, st') →
  claim_ok st' c ∧ ∀ s, slots st !! wc_slot c = Some s → active s = None.
Proof.
  intros Hc. unfold begin_write_resolved. destruct (key_is_empty i); [done|].
  destruct (_ <=? _); [done|]. destruct (lookup_slot i st) as [a|].
  - destruct (slots st !! a) as [s|] eqn:Hs; [|done]. destruct (active s) eqn:Ha; [done|].
    assert (∀ base nx, claim_ok (count on_claim (update_slot a (fun s0 =>
        set_active (Some (mkActive (next_transaction_id s) o base pins Claimed))
          (set_next_ids nx (next_version_id s0) s0)) st))
        (mkClaim a (s_identity s) (next_transaction_id s) o now)) as Hok.
    { intros base nx. eexists _, _. simpl. by rewrite lookup_alter_eq, Hs. }
    destruct (checked_add (next_transaction_id s) 1) as [nx|];
      destruct mode, (committed s); try done; intros [= <- <-]; (split; [apply Hok|]);
      simpl; intros s'; rewrite Hs; by intros [= <-].
  - intros [= <- <-]. split.
    + eexists _, _. simpl. by rewrite lookup_insert_eq.
    + intros s Hs. simpl in Hs. pose proof (c_addr _ Hc _ s Hs) as Hlt. simpl in Hlt. lia.
Qed.

Lemma world_begin conf w c st' hs :
  world_inv conf (mkWorld st' (held_claims w) hs) → world_inv conf w → claim_ok st' c →
  (∀ s, slots (cat w) !! wc_slot c = Some s → active s = None) →
  world_inv conf (mkWorld st' (held_claims w ++ [c]) hs).
Proof.
  intros [Hi Hcl Hnd Hcf] Hw Hok Hfree. split; simpl; [done| | |done].
  - intros c' [Hc'| ->%list_elem_of_singleton]%elem_of_app; [by apply Hcl|done].
  - rewrite fmap_app. apply NoDup_app. split; [apply Hw|]. split; [|apply NoDup_singleton].
    intros a (c' & -> & Hc')%list_elem_of_fmap Heq%list_elem_of_singleton.
    destruct (w_claims _ _ Hw c' Hc') as (s & t & Hs & Ha & _).
    rewrite Heq in Hs. by rewrite (Hfree s Hs) in Ha.
Qed.

(** The catalog of the next world. *)
Lemma cat_step_inv conf w op w' :
  world_inv conf w → cat_env op w → cat_step op w = Some w' → inv (cat w').
Proof.
  intros Hw Henv. pose proof (w_inv _ _ Hw) as Hc. destruct op; simpl in *.
  - unfold begin_write. destruct (resolve_pin_request _ _) as [p|e|]; [|by intros [= <-]|done].
    pose proof (begin_inv i o mode p now (cat w) Hc) as Hi.
    destruct (begin_write_resolved _ _ _ _ _ _) as [[]]; [..|done]; by intros [= <-].
  - destruct (held_claims w !! k) as [c|] eqn:Hk; [|by intros [= <-]].
    destruct (w_claims _ _ Hw c) as (s & t & Hs & _ & _ & _ & _ & Hid);
      [by eapply list_elem_of_lookup_2|].
    assert (inv (stage_inner alive active_before active_after c content rs g (cat w)).2) as Hi
      by (apply stage_inv; [done..|]; intros s'; rewrite Hs; by intros [= <-]).
    destruct (stage_inner _ _ _ _ _ _ _ _) as [[]]; [..|done]; by intros [= <-].
  - destruct (held_claims w !! k); intros [= <-]; [by apply claim_drop_inv|done].
  - pose proof (commit_inv alive alive_after tx c now (cat w) Hc) as Hi.
    destruct (commit _ _ _ _ _ _) as [[]]; [..|done]; by intros [= <-].
  - pose proof (abort_inv alive tx now (cat w) Hc) as Hi.
    destruct (abort _ _ _ _) as [[]]; [..|done]; by intros [= <-].
  - pose proof (get_inv alive i now (cat w) Hc) as Hi.
    destruct (get _ _ _ _) as [[]]; [..|done]; by intros [= <-].
  - pose proof (remove_inv i now force (cat w) Hc) as Hi.
    destruct (remove_with_force _ _ _ _) as [[]]; [..|done]; by intros [= <-].
  - edestruct (collect_inv alive (fun v => bool_decide (v ∈ handles w)) gate_busy now budget targets
      reclaim_first watermark (cat w) Hc) as (rep1 & st1 & -> & Hi). by intros [= <-].
  - intros [= <-]. by apply revoke_inv.
  - by intros [= <-].
  - by intros [= <-].
  - by intros [= <-].
  - by intros [= <-].
Qed.

Lemma world_inv_step conf w op w' :
  world_inv conf w → cat_env op w → cat_step op w = Some w' → world_inv conf w'.
Proof.
  intros Hw Henv Hs. pose proof (w_inv _ _ Hw) as Hc.
  pose proof (cat_step_inv _ _ _ _ Hw Henv Hs) as Hi.
  pose proof (cat_step_slots _ _ _ Hc Hs) as Hl.
  assert (∀ hs, (∀ a l, op_allows op w a l → l ≠ LUnclaim ∧ l ≠ LStage) →
    world_inv conf (mkWorld (cat w') (held_claims w) hs)) as Hkeep by (intros hs; by eapply world_keep).
  destruct op; simpl in *.
  - specialize (Hkeep (handles w) ltac:(naive_solver)). unfold begin_write in Hs.
    destruct (resolve_pin_request _ _) as [p|e|]; [|by injection Hs as <-|done].
    destruct (begin_write_resolved i o mode p now (cat w)) as [[c|e|] st'] eqn:Hb;
      [|by injection Hs as <-|done].
    injection Hs as <-. destruct (begin_claim_ok _ _ _ _ _ _ _ _ Hc Hb). by apply world_begin.
  - destruct (held_claims w !! k) as [c|] eqn:Hk; [|by injection Hs as <-].
    destruct (stage_inner _ _ _ _ _ _ _ _) as [[]]; [..|done]; injection Hs as <-;
      (eapply (world_consume conf w k c); [done..|]); simpl; rewrite Hk; simpl;
      by intros ? ? [[= <-] _].
  - destruct (held_claims w !! k) as [c|] eqn:Hk; [|by injection Hs as <-]. injection Hs as <-.
    (eapply (world_consume conf w k c); [done..|]); simpl; rewrite Hk; simpl;
      by intros ? ? [[= <-] _].
  - destruct (commit _ _ _ _ _ _) as [[]]; [..|done]; injection Hs as <-; apply Hkeep; naive_solver.
  - destruct (abort _ _ _ _) as [[]]; [..|done]; injection Hs as <-; apply Hkeep; naive_solver.
  - destruct (get _ _ _ _) as [[]]; [..|done]; injection Hs as <-; apply Hkeep; naive_solver.
  - destruct (remove_with_force _ _ _ _) as [[]]; [..|done]; injection Hs as <-; apply Hkeep;
      naive_solver.
  - destruct (collect_step_inner _ _ _ _ _ _ _ _ _) as [[rep st']|]; [|done]. injection Hs as <-.
    apply Hkeep. unfold collector_labels. naive_solver.
  - injection Hs as <-. apply Hkeep. naive_solver.
  - injection Hs as <-. apply Hkeep. naive_solver.
  - injection Hs as <-. apply Hkeep. naive_solver.
  - injection Hs as <-. apply Hkeep. naive_solver.
  - injection Hs as <-. apply Hkeep. naive_solver.
Qed.

Lemma new_inv cid conf : inv (catalog_new cid conf : Catalog R).
Proof.
  pose proof (core_new (R := R) cid conf) as Hc. unfold inv, erase. simpl. by rewrite fmap_empty.
Qed.

Lemma reachable_inv cid conf w : reachable cid conf w → world_inv conf w.
Proof.
  induction 1 as [Hv|w op w' _ IH Henv Hs]; [|by apply (world_inv_step conf w op)].
  split; [apply new_inv|set_solver|apply NoDup_nil_2|done].
Qed.
End World.
