(* ===== verification/CatalogCharges.v ===== *)
(** * The catalog keeps the books

    Every operation of [src/src/object/catalog.rs] and its collector acts on
    the tenant accounts as a sequence of the transitions of the books
    ([b_step]), so that the accounts stay balanced whatever the order of the
    calls.  A staged write moves the bytes of its admission guard into the
    charge of its version; a stage that fails gives them back. *)
From stdpp Require Import relations.
From S2P Require Import Prelude Identity Segment TenantQuota Replica ObjectTypes CatalogState.
From S2P Require Import CatalogBooks CatalogWrite CatalogCollector CatalogInv CatalogOps CatalogSteps CatalogGuard CatalogSlots CatalogWorld.

Section Charges.
Context {R : Type} `{Resource R}.
Implicit Types (st : Catalog R) (ver : ObjectVersion R).

(** ** The books of a catalog *)

(** What a version is charged: its logical size for each replica. *)
Definition cost ver : N := logical_bytes (v_content ver) * N.of_nat (set_len (v_replicas ver)).

Definition item ver : Item := (v_accounting ver, cost ver, bool_decide (is_Some (v_committed ver))).

Definition books st : Books :=
  mkBooks (accounts st) (item <$> versions st) (list_to_set (retired_addrs st)).

Definition costed st (v : N) : Prop :=
  ∀ ver, versions st !! v = Some ver → replicas (v_replicas ver) ≠ [] ∧ cost ver <= U64_MAX.

Lemma inv_costed st v : inv st → costed st v.
Proof.
  intros Hc ver Hv. pose proof (inv_version st v ver Hc Hv) as [_ _ Hn _ _ _]. simpl in Hn. split; [done|].
  destruct (stale_bytes st v ver Empty (v_replicas ver) Hc Hv) as [_ Hb]; [done|].
  unfold cost. lia.
Qed.

Lemma tenant_accounting_cost ver :
  replicas (v_replicas ver) ≠ [] → cost ver <= U64_MAX →
  tenant_accounting ver = (fun c => (c, cost ver)) <$> v_accounting ver.
Proof.
  intros Hn Hm. unfold tenant_accounting, direct_replica_class, checked_mul. fold (cost ver).
  destruct (v_accounting ver), (replicas (v_replicas ver)); try done.
  by rewrite (proj2 (N.leb_le _ _) Hm).
Qed.

Lemma books_charge f v st : costed st v → books (charge_step f v st) = b_charge f v (books st).
Proof.
  intros Hk. unfold charge_step, b_charge, books at 2 3. cbn [b_items b_accounts].
  rewrite lookup_fmap. destruct (versions st !! v) as [ver|] eqn:Hv; [|done].
  destruct (Hk ver Hv) as [Hn Hm]. rewrite (tenant_accounting_cost ver Hn Hm). cbn.
  destruct (v_accounting ver) as [c|]; [|done]. cbn.
  destruct (accounts st !! charge_entry c) as [x|]; [|done].
  destruct (f _ _ _) as [ph x']. unfold books. cbn. f_equal.
  by rewrite (alter_lookup_insert _ _ _ _ Hv), fmap_insert.
Qed.

Lemma books_update v f st :
  (∀ ver, versions st !! v = Some ver → item (f ver) = item ver) →
  books (update_version v f st) = books st.
Proof.
  intros Hf. unfold books. cbn. f_equal. destruct (versions st !! v) as [ver|] eqn:Hv.
  - rewrite (alter_lookup_insert _ _ _ _ Hv), fmap_insert, (Hf ver eq_refl).
    apply insert_id. by rewrite lookup_fmap, Hv.
  - f_equal. apply map_eq. intros w. destruct (decide (v = w)) as [<-|]; [|by rewrite lookup_alter_ne].
    by rewrite lookup_alter_eq, Hv.
Qed.

Lemma item_access x ver : item (set_access x ver) = item ver.
Proof. unfold item, set_access. cbn. by destruct (v_committed ver). Qed.

Lemma books_access v x st : books (update_version v (set_access x) st) = books st.
Proof. apply books_update. intros. apply item_access. Qed.

Lemma books_push_retired v b d st : books (push_retired v b d st) = b_retire v (books st).
Proof.
  unfold books, b_retire, push_retired, retired_addrs. cbn. f_equal. rewrite fmap_app. cbn. set_solver.
Qed.

Lemma books_push_gen g c st : books (push_gen g c st) = books st.
Proof. by destruct g. Qed.

Lemma books_gen_queue g q st : books (set_gen_queue g q st) = books st.
Proof. by destruct g. Qed.

Lemma books_item st v ver : versions st !! v = Some ver → b_items (books st) !! v = Some (item ver).
Proof. intros Hv. cbn. by rewrite lookup_fmap, Hv. Qed.

Lemma books_retired st v : v ∈ b_retired (books st) ↔ v ∈ retired_addrs st.
Proof. cbn. apply elem_of_list_to_set. Qed.

Lemma item_committed ver : is_Some (v_committed ver) → item ver = (v_accounting ver, cost ver, true).
Proof. intros Hs. unfold item. by rewrite bool_decide_true. Qed.

Lemma item_pending ver : v_committed ver = None → item ver = (v_accounting ver, cost ver, false).
Proof. intros Hs. unfold item. by rewrite Hs. Qed.

(** ** Retirement *)

Abbreviation booked st st' := (rtc b_step (books st) (books st')).

Lemma booked_same st st' : books st' = books st → booked st st'.
Proof. by intros ->. Qed.

Lemma retire_aborted_booked v now st ver :
  costed st v → versions st !! v = Some ver → v_committed ver = None → v ∉ retired_addrs st →
  booked st (retire_aborted_pending v now st).
Proof.
  intros Hk Hv Hn Hr. apply rtc_once. unfold retire_aborted_pending. rewrite Hv, books_push_retired.
  change (books (count _ ?s)) with (books s). unfold abort_accounting. rewrite books_charge by done.
  eapply bs_abort; [|by rewrite books_retired]. rewrite (books_item _ _ _ Hv). by rewrite item_pending.
Qed.

Lemma mark_retiring_booked v b d st ver :
  costed st v → versions st !! v = Some ver → is_Some (v_committed ver) → v ∉ retired_addrs st →
  booked st (push_retired v b d (mark_accounting_retiring v st)).
Proof.
  intros Hk Hv Hn Hr. apply rtc_once. rewrite books_push_retired.
  unfold mark_accounting_retiring. rewrite books_charge by done.
  eapply bs_retire; [|by rewrite books_retired]. rewrite (books_item _ _ _ Hv). by rewrite item_committed.
Qed.

Lemma retire_published_booked a i v now st ver :
  costed st v → versions st !! v = Some ver → is_Some (v_committed ver) → v ∉ retired_addrs st →
  booked st (retire_published a i v now st).
Proof.
  intros Hk Hv Hn Hr. unfold retire_published. rewrite Hv.
  exact (mark_retiring_booked v (v_reserved ver) now st ver Hk Hv Hn Hr).
Qed.

(** The published version of a slot is retired from a state that keeps it. *)
Lemma published_booked st st1 a s v i now ver ver1 :
  inv st → slots st !! a = Some s → committed s = Some v → books st1 = books st →
  versions st !! v = Some ver → versions st1 !! v = Some ver1 → v_replicas ver1 = v_replicas ver →
  v_content ver1 = v_content ver → is_Some (v_committed ver1) →
  booked st (retire_published a i v now (update_slot a (set_committed None) st1)).
Proof.
  intros Hc Hs Hcm Hb Hv Hv1 Hr Hct Hk. rewrite <- Hb.
  destruct (inv_committed st a s v Hc Hs Hcm) as (ver0 & Hv0 & _ & _ & Hnr & _).
  change (books st1) with (books (update_slot a (set_committed None) st1)).
  apply (retire_published_booked _ _ _ _ _ ver1); try done.
  - intros w Hw. cbn in Hw. simplify_eq. unfold cost. rewrite Hr, Hct. by apply (inv_costed st v Hc).
  - rewrite <- books_retired in Hnr |- *. change (books (update_slot _ _ st1)) with (books st1). by rewrite Hb.
Qed.

Lemma abort_staged_booked alive a s t p now l st :
  inv_pend l st → slots st !! a = Some s → active s = Some t → at_phase t = Staged p →
  booked st (abort_staged alive a s t p now st).
Proof.
  intros Hc Hs Ha Hp.
  destruct (inv_staged _ a s t p Hc Hs Ha Hp) as (ver & Hv & _ & Hn & Hr & _).
  unfold abort_staged, after_transaction.
  assert (booked st (retire_aborted_pending p now (update_slot a (set_active None) st))) as Hb.
  { apply (retire_aborted_booked p now (update_slot a (set_active None) st) ver); try done.
    apply (inv_costed _ p Hc). }
  by destruct (has_committed s), (base_is_invalid _ _ _).
Qed.

Lemma abort_booked alive tx now st : inv st → booked st (abort alive tx now st).2.
Proof.
  intros Hc. unfold abort. destruct (tx_catalog tx); [|done]. destruct (negb _); [done|].
  destruct (slots st !! tx_slot tx) as [s|] eqn:Hs; [|done].
  destruct (active s) as [t|] eqn:Ha; [|by repeat case_match].
  destruct (negb _); [done|]. destruct (at_phase t) as [|p] eqn:Hp; [done|].
  destruct (negb _); [done|].
  apply (abort_staged_booked _ _ _ _ _ _ []); [by apply inv_pend_nil|done..].
Qed.

Lemma abort_pending_booked alive a id e now l st : inv_pend l st → booked st (abort_pending alive a id e now st).2.
Proof.
  intros Hc. unfold abort_pending. destruct (slots st !! a) as [s|] eqn:Hs; [|done].
  destruct (active s) as [t|] eqn:Ha; [|done]. destruct (negb _); [done|].
  destruct (at_phase t) as [|p] eqn:Hp; [done|]. destruct (negb _); [done|].
  by apply (abort_staged_booked _ _ _ _ _ _ l).
Qed.

(** ** Commit *)

Lemma books_commit p cv st ver :
  versions st !! p = Some ver → v_committed ver = None →
  books (update_version p (set_commit (Some cv)) st) = b_commit_item p (books st).
Proof.
  intros Hv Hn. unfold books, b_commit_item. cbn. f_equal.
  rewrite (alter_lookup_insert _ _ _ _ Hv), fmap_insert. symmetry.
  etrans; [apply (alter_lookup_insert _ _ (item ver)); by rewrite lookup_fmap, Hv|done].
Qed.

Lemma commit_accounting_booked p cv st ver :
  inv st → versions st !! p = Some ver → v_committed ver = None → p ∉ retired_addrs st →
  booked st (commit_accounting p (update_version p (set_commit (Some cv)) st)).
Proof.
  intros Hc Hv Hn Hr. apply rtc_once. unfold commit_accounting. rewrite books_charge.
  - rewrite (books_commit p cv st ver) by done.
    eapply bs_commit; [|by rewrite books_retired]. by rewrite (books_item _ _ _ Hv), item_pending.
  - intros w Hw. cbn in Hw. rewrite lookup_alter_eq, Hv in Hw. injection Hw as <-.
    apply (inv_costed st p Hc ver Hv).
Qed.

Lemma charge_step_other f v w st : w ≠ v → versions (charge_step f v st) !! w = versions st !! w.
Proof.
  intros Hne. unfold charge_step. repeat case_match; try done. cbn. by rewrite lookup_alter_ne.
Qed.

Lemma commit_publish_booked alive a s t p ver cv nv st :
  inv st → slots st !! a = Some s → active s = Some t → at_phase t = Staged p →
  versions st !! p = Some ver → at_base t = committed s →
  booked st (commit_publish alive a t p ver (at_base t ≫= fun b => versions st !! b) cv nv st).
Proof.
  intros Hc Hs Ha Hp Hv Hb. destruct (inv_staged st a s t p Hc Hs Ha Hp) as (ver0 & Hv0 & _ & Hn & Hr & _).
  assert (ver0 = ver) as -> by congruence. unfold commit_publish. cbv zeta.
  match goal with |- booked _ (if _ then ?st6 else _) =>
    assert (booked st st6) as Hcore; [|by destruct (all_live _ _)] end.
  pose proof (commit_accounting_booked p cv st ver Hc Hv Hn Hr) as H1.
  set (st1 := commit_accounting p _) in *.
  match goal with |- context [mark_accounting_retiring _ ?st5] =>
    assert (books st5 = books st1 ∧ versions st5 = versions st1 ∧ retired st5 = retired st1)
      as (E1 & E2 & E3); [by destruct (soft_pin_deadline _)|];
    generalize dependent st5 end.
  intros st5 E1 E2 E3. rewrite <- E1 in H1. rewrite Hb.
  destruct (committed s) as [b|] eqn:Hcm; [|done]. cbn.
  destruct (inv_committed st a s b Hc Hs Hcm) as (old & Hold & _ & Hok & Hnr & _). rewrite Hold.
  etrans; [exact H1|].
  assert (versions st5 !! b = Some old) as Hb5.
  { rewrite E2. unfold st1, commit_accounting. rewrite charge_step_other; cbn;
      [rewrite lookup_alter_ne|]; try done; intros ->; rewrite Hv in Hold; injection Hold as ->;
      rewrite Hn in Hok; by destruct Hok. }
  apply (mark_retiring_booked _ _ _ _ old); try done.
  - intros w Hw. rewrite Hb5 in Hw. injection Hw as <-. by apply (inv_costed st b Hc).
  - unfold retired_addrs. rewrite E3. unfold st1, commit_accounting. by destruct (charge_step_fields (fun _ bytes a => charge_commit bytes a) p
      (update_version p (set_commit (Some cv)) st)) as (_ & -> & _).
Qed.

Lemma commit_booked alive alive' tx c now st : inv st → booked st (commit alive alive' tx c now st).2.
Proof.
  intros Hc. unfold commit. destruct (tx_catalog tx); [|done]. destruct (negb _); [done|].
  destruct (slots st !! tx_slot tx) as [s|] eqn:Hs; [|done].
  destruct (active s) as [t|] eqn:Ha; [|by repeat case_match].
  destruct (negb _); [done|]. destruct (at_phase t) as [|p] eqn:Hp; [done|].
  destruct (negb _); [done|]. destruct (versions st !! p) as [ver|] eqn:Hv; [|done].
  destruct (negb _); [done|]. destruct (negb _); [done|].
  pose proof (commit_publish_booked alive' (tx_slot tx) s t p ver) as Hpub.
  destruct (inv_base st _ s t Hc Hs Ha) as [Hb _].
  destruct (at_base t ≫= _) as [old|] eqn:Hold; simpl;
    [destruct (version_access old)|]; destruct (checked_add (next_version_id s) 1); try done;
    destruct (v_committed ver); simpl; try done; rewrite <- Hold; by apply Hpub.
Qed.

(** ** Calls that leave the books *)

Lemma books_claim_drop alive c st : books (claim_drop alive c st) = books st.
Proof. unfold claim_drop, after_transaction. by repeat case_match. Qed.

Lemma books_begin i o mode pins now st : books (begin_write i o mode pins now st).2 = books st.
Proof. unfold begin_write, begin_write_resolved. by repeat case_match. Qed.

Lemma books_get alive i now st : books (get alive i now st).2 = books st.
Proof. unfold get. repeat case_match; try done; apply books_access. Qed.

Lemma books_soft_pin now c rep st rep' st' :
  soft_pin_step now c rep st = Some (rep', st') → books st' = books st.
Proof.
  unfold soft_pin_step. intros Hs. repeat (case_match; simplify_eq/=; try done).
  all: unfold mbind, option_bind in Hs; repeat (case_match; simplify_eq/=; try done); apply books_access.
Qed.

Lemma remove_booked i now force st : inv st → booked st (remove_with_force i now force st).2.
Proof.
  intros Hc. unfold remove_with_force. destruct (lookup_slot i st) as [a|]; [|done].
  destruct (slots st !! a) as [s|] eqn:Hs; [|done]. destruct (active s) eqn:Ha; [done|].
  destruct (committed s) as [v|] eqn:Hcm; [|done]. destruct (_ ≫= _) as [x|]; [|done].
  destruct (negb force && is_leased now x); [done|]. destruct (negb force && hard_pinned x); [done|]. cbn.
  destruct (inv_committed st a s v Hc Hs Hcm) as (ver & Hv & _ & Hk & _).
  by apply (published_booked st st a s v _ now ver ver).
Qed.

(** ** The collector *)

Lemma evict_candidate_booked c g now rep st st0 r rep' st' :
  inv st → books st0 = books st → slots st0 = slots st → versions st0 = versions st →
  evict_candidate c g now rep st0 = Some (r, rep', st') → booked st st'.
Proof.
  intros Hc Hb Hsl Hvs. unfold evict_candidate. rewrite Hsl, Hvs.
  destruct (slots st !! _) as [s|] eqn:Hs; [|by intros [= _ _ <-]; apply booked_same].
  destruct (versions st !! _) as [ver|] eqn:Hv; [|by intros [= _ _ <-]; apply booked_same].
  destruct (committed_points_to s _) eqn:Hpt; cbn [negb]; [|by intros [= _ _ <-]; apply booked_same].
  destruct (version_access ver) as [x|] eqn:Hx; [|done]. cbn [mbind option_bind].
  assert (∀ g' st2, books st2 = books st → booked st (push_gen g' c st2)) as Hpush
    by (intros; apply booked_same; by rewrite books_push_gen).
  destruct (pin_protects now st0 x); [intros [= _ _ <-]; by apply Hpush|].
  destruct (active s) eqn:Ha; [intros [= _ _ <-]; by apply (Hpush true)|].
  pose proof (books_access (gc_version c) (clear_recent x) st0) as Hacc.
  destruct (recent x); [intros [= _ _ <-]; apply (Hpush true); congruence|].
  destruct (is_leased now x); intros [= _ _ <-]; [apply (Hpush true); congruence|].
  apply (published_booked st _ _ s _ _ _ ver (set_access (clear_recent x) ver)); try done.
  - by apply pointing.
  - congruence.
  - cbn. by rewrite Hvs, lookup_alter_eq, Hv.
  - unfold version_access in Hx. unfold set_access, set_commit. cbn. by destruct (v_committed ver).
Qed.

(** The item of a version that lost the replicas [stale]. *)
Lemma item_pruned lv stale b ver :
  replicas lv ++ replicas stale ≡ₚ replicas (v_replicas ver) →
  item (set_replicas lv b ver) =
    (v_accounting ver, cost ver - logical_bytes (v_content ver) * N.of_nat (set_len stale),
     bool_decide (is_Some (v_committed ver))) ∧
  logical_bytes (v_content ver) * N.of_nat (set_len stale) <= cost ver.
Proof.
  intros Hp. apply Permutation_length in Hp. rewrite length_app in Hp.
  unfold item, cost. cbn. rewrite !set_len_length in *.
  assert (N.of_nat (length (replicas (v_replicas ver))) =
    N.of_nat (length (replicas lv)) + N.of_nat (length (replicas stale))) as -> by lia.
  split; [|nia]. do 2 f_equal. nia.
Qed.

Lemma books_replicas v ver ver' st :
  versions st !! v = Some ver →
  books (update_version v (fun _ => ver') st) =
    mkBooks (accounts st) (<[v := item ver']> (item <$> versions st)) (list_to_set (retired_addrs st)).
Proof. intros Hv. unfold books. cbn. by rewrite (alter_lookup_insert _ _ _ _ Hv), fmap_insert. Qed.

Lemma prune_booked v ver lv stale b st st' :
  versions st !! v = Some ver → is_Some (v_committed ver) → v ∉ retired_addrs st →
  replicas lv ++ replicas stale ≡ₚ replicas (v_replicas ver) →
  release_pruned_accounting (set_replicas lv b ver) stale
    (update_version v (fun _ => set_replicas lv b ver) st) = Ok st' →
  booked st st'.
Proof.
  intros Hv Hk Hr Hp. destruct (item_pruned lv stale b ver Hp) as [Hi Hle].
  pose proof (books_replicas v ver (set_replicas lv b ver) st Hv) as Hb.
  rewrite bool_decide_true in Hi by done. set (n := _ * N.of_nat (set_len stale)) in *.
  assert (b_step (books st) (b_prune v n (books st))) as Hstep.
  { eapply bs_prune; [|by rewrite books_retired|exact Hle]. by rewrite (books_item _ _ _ Hv), item_committed. }
  unfold b_prune in Hstep. rewrite (books_item _ _ _ Hv), item_committed in Hstep by done.
  unfold release_pruned_accounting. cbn [set_replicas v_accounting v_content].
  destruct (v_accounting ver) as [c|] eqn:Ha.
  - destruct (direct_replica_class stale) eqn:Hd.
    + fold n. unfold checked_mul. destruct (n <=? U64_MAX) eqn:Hm; fold n; rewrite ?Hm; [|done]. cbn.
      intros [= <-]. apply rtc_once. cbn in Hstep. unfold books at 2. cbn.
      unfold update_version in Hb. unfold books in Hb at 1. cbn in Hb. injection Hb as Hb.
      rewrite Hb, Hi. exact Hstep.
    + intros [= <-]. apply booked_same. rewrite Hb, Hi.
      assert (n = 0) as -> by (unfold n; unfold direct_replica_class in Hd; rewrite set_len_length;
        destruct (replicas stale); [simpl; lia|done]).
      rewrite N.sub_0_r. unfold books. f_equal. apply insert_id.
      by rewrite lookup_fmap, Hv, <- Ha, <- item_committed.
  - intros [= <-]. apply rtc_once. rewrite Hb, Hi. exact Hstep.
Qed.

Lemma sweep_candidate_booked alive g now c rep out st st0 rep' out' st' :
  inv st → books st0 = books st → slots st0 = slots st → versions st0 = versions st →
  retired st0 = retired st →
  sweep_candidate alive g now c rep out st0 = Some (rep', out', st') → booked st st'.
Proof.
  intros Hc Hb Hsl Hvs Hrt. unfold sweep_candidate. rewrite Hsl, Hvs.
  destruct (slots st !! _) as [s|] eqn:Hs; [|by intros [= _ _ <-]; apply booked_same].
  destruct (versions st !! _) as [ver|] eqn:Hv; [|by intros [= _ _ <-]; apply booked_same].
  destruct (committed_points_to s _) eqn:Hpt; cbn [negb]; [|by intros [= _ _ <-]; apply booked_same].
  apply pointing in Hpt.
  destruct (inv_committed st _ s _ Hc Hs Hpt) as (ver0 & Hv0 & _ & Hk & Hnr & _).
  rewrite Hv in Hv0. injection Hv0 as <-.
  pose proof (prune_spec alive ver (vo_normal _ _ _ (inv_version st _ ver Hc Hv))) as Hps.
  assert (books (update_version (gc_version c) (fun _ => ver) st0) = books st) as Hid.
  { rewrite books_update; [done|]. intros w. rewrite Hvs, Hv. by intros [= <-]. }
  destruct (prune_invalidated alive ver) as [[| |stale] ver'].
  - subst ver'. intros [= _ _ <-]. apply booked_same. by rewrite books_push_gen.
  - destruct Hps as [-> _]. destruct (active s) eqn:Ha; intros [= _ _ <-].
    { apply booked_same. by rewrite books_push_gen. }
    apply (published_booked st _ _ s _ _ _ ver ver); try done.
    cbn. by rewrite Hvs, lookup_alter_eq, Hv.
  - destruct Hps as (lv & -> & _ & _ & _ & Hperm & _).
    destruct (release_pruned_accounting _ _ _) as [st2| |] eqn:Hrel; try done.
    intros [= _ _ <-]. rewrite books_push_gen. change (booked st st2). rewrite <- Hb.
    eapply (prune_booked (gc_version c) ver lv stale _ st0 st2); try done; [by rewrite Hvs|].
    unfold retired_addrs in *. by rewrite Hrt.
Qed.

Lemma reclaim_one_booked held now e q rep out st :
  inv st → retired st = e :: q → booked st (reclaim_one held now e rep out (set_retired q st)).2.
Proof.
  intros Hc Hq. unfold reclaim_one.
  assert (booked st (set_retired (q ++ [e]) st)) as Hback.
  { apply booked_same. unfold books, retired_addrs. cbn. rewrite Hq, fmap_app. f_equal. set_solver. }
  destruct (now <? _); [exact Hback|]. destruct (negb _); [exact Hback|]. cbn [versions set_retired].
  pose proof (c_queues _ Hc) as [Hnd Hret _ _]. unfold retired_addrs in Hnd. cbn in Hnd.
  rewrite Hq in Hnd. apply NoDup_cons in Hnd as [Hnin _].
  destruct (versions st !! ro_version e) as [ver|] eqn:Hv.
  - apply rtc_once. cbn. change (books (debt_on_reclaim _ ?s)) with (books s).
    assert (ro_version e ∈ b_retired (books st)) as Hin
      by (rewrite books_retired; unfold retired_addrs; rewrite Hq; left).
    pose proof (bs_reclaim (ro_version e) (books st) Hin) as Hstep.
    rewrite <- (books_charge charge_release _ st) in Hstep by (by apply inv_costed).
    unfold b_delete, books at 2 3 4 in Hstep. cbn in Hstep.
    assert (∀ g v st1, accounts (charge_step g v (set_retired q st1)) = accounts (charge_step g v st1) ∧
      versions (charge_step g v (set_retired q st1)) = versions (charge_step g v st1)) as Hcs.
    { intros g v st1. unfold charge_step. cbn. by repeat case_match. }
    unfold books at 2. cbn. unfold release_accounting.
    destruct (Hcs charge_release (ro_version e) st) as [E1 E2]. rewrite E1, E2, fmap_delete.
    destruct (charge_step_fields charge_release (ro_version e) (set_retired q st)) as (_ & E3 & _).
    destruct (charge_step_fields charge_release (ro_version e) st) as (_ & E4 & _).
    unfold retired_addrs in *. cbn. rewrite E3. rewrite E4, Hq in Hstep. cbn in Hstep.
    replace (list_to_set (ro_version <$> q)) with
      (({[ro_version e]} ∪ list_to_set (ro_version <$> q)) ∖ {[ro_version e]} : gset N); [exact Hstep|].
    apply set_eq. intros w. rewrite elem_of_difference, elem_of_union, elem_of_singleton, elem_of_list_to_set.
    split; [tauto|]. intros Hw. split; [by right|]. by intros ->.
  - destruct (Hret e) as (ver & Hver & _); [cbn; rewrite Hq; left|].
    cbn in Hver. by rewrite lookup_fmap, Hv in Hver.
Qed.

Lemma expire_candidate_booked alive now c q rep st :
  inv st → pending st = c :: q → booked st (expire_candidate alive now c rep (set_pending q st)).2.
Proof.
  intros Hc Hq. unfold expire_candidate. destruct (versions _ !! _) as [ver|]; [|by apply booked_same].
  destruct (v_committed ver); [by apply booked_same|]. destruct (_ && _); [by apply booked_same|].
  pose proof (abort_pending_booked alive (pc_slot c) (pc_transaction c) (pc_pending c) now [c]
    (set_pending q st) (inv_pend_pop c q st Hc Hq)) as Ha.
  destruct (abort_pending _ _ _ _ _ _) as [d st1]. cbn in *. done.
Qed.

Lemma gc_step_booked alive held now st st' : inv st → gc_step alive held now st st' → booked st st'.
Proof.
  intros Hc Hs. destruct Hs as [w st|l st|c q rep rep' st st' Hq He
    |g c q n rep res0 rep' res' st st' Hq He|c q rep st Hq|g c q rep b rep' st st' Hq He
    |g c q st Hq|g c q ds st Hq Hcl|e q rep res0 st Hq|c q rep st Hq]; [done|done|..].
  - apply booked_same. by rewrite (books_soft_pin _ _ _ _ _ _ He).
  - by eapply (sweep_candidate_booked alive g now c rep res0 st); [..|exact He]; destruct g.
  - by apply expire_candidate_booked.
  - by eapply (evict_candidate_booked c g now rep st); [..|exact He]; destruct g.
  - apply booked_same. by rewrite books_push_gen, books_gen_queue.
  - apply booked_same. by rewrite books_gen_queue.
  - by apply reclaim_one_booked.
  - apply booked_same. unfold clean_one. by repeat case_match.
Qed.

Lemma collect_booked alive held gate now budget targets first wm st rep st' :
  inv st → collect_step_inner alive held gate now budget targets first wm st = Some (rep, st') →
  booked st st'.
Proof.
  intros Hc He%collect_steps.
  refine (gc_run_ind alive held now (fun st1 => booked st st1) _ st st' Hc He _); [|done].
  intros s s' Hi Hs Hrel. etrans; [exact Hrel|by eapply gc_step_booked].
Qed.

Lemma revoke_loop_booked alive owners now l : ∀ n st,
  inv_pend l st → booked st (revoke_loop alive owners now l n st).2.
Proof.
  induction l as [|c l IH]; intros n st Hc; simpl; [done|].
  destruct (pending_snapshot c st) as [o|] eqn:Hs.
  - destruct (negb _).
    { etrans; [|by apply IH, pend_push]. done. }
    pose proof (abort_pending_pend alive c l now st Hc) as Hab.
    pose proof (abort_pending_booked alive (pc_slot c) (pc_transaction c) (pc_pending c) now _ st Hc) as Hb.
    destruct (abort_pending _ _ _ _ _ _) as [b st1]. etrans; [exact Hb|]. by apply IH.
  - apply IH. apply (pend_drop c l st Hc). by apply (pending_snapshot_none c l).
Qed.

Lemma revoke_booked alive owners now st : inv st → booked st (revoke_pending_owners alive owners now st).2.
Proof.
  intros Hc. unfold revoke_pending_owners. destruct (filter _ owners) as [|o os]; [done|].
  apply (revoke_loop_booked alive _ now (pending st) 0 (set_pending [] st)).
  unfold inv_pend. simpl. rewrite app_nil_r. by destruct st.
Qed.

(** ** Staging *)

(** The guard of a stage holds the cost of the version on a known account. *)
Definition guard_fits (g : option (N * N)) (ct : ObjectContent) (rs : ReplicaSet R) st : Prop :=
  ∀ e n, g = Some (e, n) → is_Some (accounts st !! e) ∧
    n = logical_bytes ct * N.of_nat (set_len rs) ∧ n <= U64_MAX.

Lemma stage_fail_balanced G alive c rs g st :
  balanced (hold g G) (books st) → balanced G (books (stage_fail alive c rs g st)).
Proof.
  intros Hb. unfold stage_fail. rewrite books_claim_drop. change (books (free_replicas _ ?s)) with (books s).
  destruct g as [[e n]|]; [exact (guard_drop_balanced G (books st) e n Hb)|].
  cbn. assert (books st = mkBooks (accounts st) (b_items (books st)) (b_retired (books st))) as -> by done.
  apply (guards_move (hold None G) G (books st)); [done..|]. intros e x Hx. left. exists x.
  destruct (bl_account _ _ Hb e x Hx). unfold hold. split_and!; [done|lia|done|done|done].
Qed.

(** Dropping the unpublished record gives back what the guard held. *)
Lemma stage_lost_fail alive c ct rs g st :
  replicas rs ≠ [] → guard_fits g ct rs st → stage_lost alive c ct rs g st = stage_fail alive c rs g st.
Proof.
  intros Hn Hg. unfold stage_lost, stage_fail. do 2 f_equal.
  destruct g as [[e n]|]; [|done]. destruct (Hg e n eq_refl) as (_ & -> & Hm).
  by rewrite (tenant_accounting_cost (staged_version c ct rs _) Hn Hm).
Qed.

Lemma stage_publish_balanced G c ct rs g t st :
  inv st → guard_fits g ct rs st → balanced (hold g G) (books st) →
  balanced G (books (stage_publish c (staged_version c ct rs g) t st)).
Proof.
  intros Hc Hg Hb. destruct (fresh_addr _ Hc) as (Hf & Hr & _).
  assert (versions st !! next_addr st = None) as Hf'
    by (cbn in Hf; rewrite lookup_fmap in Hf; by destruct (versions st !! next_addr st)).
  unfold books, stage_publish. cbn. rewrite fmap_insert.
  apply (admit_balanced G (books st) (next_addr st) g
    (logical_bytes ct * N.of_nat (set_len rs))); [done|..].
  - cbn. by rewrite lookup_fmap, Hf'.
  - rewrite books_retired. exact Hr.
  - intros e n Heq. by destruct (Hg e n Heq) as (Ha & Hn & _).
Qed.

Lemma stage_balanced G alive b1 b2 c ct rs g st :
  inv st → stage_env rs st → (∀ s, slots st !! wc_slot c = Some s → s_identity s = wc_identity c) →
  guard_fits g ct rs st → balanced (hold g G) (books st) →
  balanced G (books (stage_inner alive b1 b2 c ct rs g st).2) ∨ (stage_inner alive b1 b2 c ct rs g st).1 = Panic.
Proof.
  intros Hc Henv Hcl Hg Hb. pose proof (stage_fail_balanced G alive c rs g st Hb) as Hfail.
  unfold stage_inner. destruct b1; cbn [negb]; [|by left]. destruct (_ =? 0); [by left|].
  destruct (validate_stage_replicas alive rs (logical_bytes ct)) as [[]|e|] eqn:Hval; [|by left|by right].
  destruct (slots st !! wc_slot c) as [s|] eqn:Hs; [|by left].
  destruct (validate_stage_ok _ _ _ (se_normal _ _ Henv) Hval) as [Hne _].
  rewrite (stage_lost_fail alive c ct rs g st Hne Hg).
  destruct (active s) as [t|] eqn:Ha; [|by left].
  destruct (negb (at_id t =? wc_id c)) eqn:Hid; [by left|]. cbn [orb].
  destruct (negb (bool_decide (at_owner t = wc_owner c))) eqn:Ho; [by left|]. cbn [orb].
  destruct (at_phase t) eqn:Hp; [|by left].
  pose proof (stage_publish_balanced G c ct rs g t st Hc Hg Hb) as Hpub. left.
  destruct b2; [done|]. refine (b_steps_balanced G _ _ Hpub (abort_booked _ _ _ _ _)).
  apply negb_false_iff, N.eqb_eq in Hid. apply negb_false_iff, bool_decide_eq_true in Ho.
  by apply (stage_publish_inv alive c ct rs g s t); auto.
Qed.

Lemma stage_policies alive b1 b2 c ct rs g st :
  inv st → stage_env rs st → (∀ s, slots st !! wc_slot c = Some s → s_identity s = wc_identity c) →
  same_policies (accounts st) (accounts (stage_inner alive b1 b2 c ct rs g st).2).
Proof.
  intros Hc Henv Hcl.
  assert (∀ x, accounts (claim_drop alive c x) = accounts x) as Hd
    by (intros x; unfold claim_drop, after_transaction; by repeat case_match).
  assert (same_policies (accounts st) (accounts (stage_fail alive c rs g st))) as Hfail.
  { unfold stage_fail. rewrite Hd. destruct g as [[e n]|]; [|done]. by apply same_policies_alter. }
  assert (same_policies (accounts st) (accounts (stage_lost alive c ct rs g st))) as Hlost.
  { unfold stage_lost. rewrite Hd. destruct (tenant_accounting _) as [[ch n]|]; [|done].
    by apply same_policies_alter. }
  unfold stage_inner. destruct b1; cbn [negb]; [|done]. destruct (_ =? 0); [done|].
  destruct (validate_stage_replicas alive rs (logical_bytes ct)) as [[]|e|] eqn:Hval; [|done|done].
  destruct (slots st !! wc_slot c) as [s|] eqn:Hs; [|done]. destruct (active s) as [t|] eqn:Ha; [|done].
  destruct (negb (at_id t =? wc_id c)) eqn:Hid; [done|]. cbn [orb].
  destruct (negb (bool_decide (at_owner t = wc_owner c))) eqn:Ho; [done|]. cbn [orb].
  destruct (at_phase t) eqn:Hp; [|done]. destruct b2; [done|]. cbn [snd].
  refine (b_steps_policies _ _ (abort_booked _ _ _ (stage_publish c (staged_version c ct rs g) t st) _)).
  apply negb_false_iff, N.eqb_eq in Hid. apply negb_false_iff, bool_decide_eq_true in Ho.
  by apply (stage_publish_inv alive c ct rs g s t); auto.
Qed.

(** ** Calls *)

(** The calls that neither stage nor replace the accounts. *)
Definition plain_call (op : cat_op (R := R)) : bool :=
  match op with OStage _ _ _ _ _ _ _ | OAccounts _ => false | _ => true end.

Lemma cat_step_booked op w w' :
  inv (cat w) → plain_call op = true → cat_step op w = Some w' → booked (cat w) (cat w').
Proof.
  intros Hc Hp. destruct op; try done; simpl.
  - pose proof (books_begin i o mode pins now (cat w)) as Hb.
    destruct (begin_write _ _ _ _ _ _) as [[]]; [..|done]; intros [= <-]; by apply booked_same.
  - destruct (held_claims w !! k) as [c|]; intros [= <-]; [|done]. apply booked_same, books_claim_drop.
  - pose proof (commit_booked alive alive_after tx c now (cat w) Hc) as Hb.
    destruct (commit _ _ _ _ _ _) as [[]]; [..|done]; by intros [= <-].
  - pose proof (abort_booked alive tx now (cat w) Hc) as Hb.
    destruct (abort _ _ _ _) as [[]]; [..|done]; by intros [= <-].
  - pose proof (books_get alive i now (cat w)) as Hb.
    destruct (get _ _ _ _) as [[]]; [..|done]; intros [= <-]; by apply booked_same.
  - pose proof (remove_booked i now force (cat w) Hc) as Hb.
    destruct (remove_with_force _ _ _ _) as [[]]; [..|done]; by intros [= <-].
  - destruct (collect_step_inner _ _ _ _ _ _ _ _ _) as [[rep st']|] eqn:He; [|done].
    simpl. intros [= <-]. by eapply collect_booked.
  - intros [= <-]. by apply revoke_booked.
  - by intros [= <-].
  - by intros [= <-].
  - by intros [= <-].
Qed.
End Charges.
