(* ===== verification/CatalogStaged.v ===== *)
(** * The owners of staged writes

    Which owners have a write staged in the catalog: only staging adds one, it
    is the owner of the claim, and only while its admission holds; revoking
    owners takes away their staged writes and nothing else. *)
From stdpp Require Import relations.
From S2P Require Import Prelude Identity Replica TenantQuota ObjectTypes CatalogState CatalogWrite CatalogCollector.
From S2P Require Import CatalogInv CatalogOps CatalogSteps CatalogGuard CatalogSlots CatalogWorld.

Section Staged.
Context {R : Type} `{Resource R}.
Implicit Types (st : Catalog R).

(** A slot whose write is staged for [o]. *)
Definition staged_slot (o : WriteOwner) (x : option ObjectSlot) : Prop :=
  ∃ s t p, x = Some s ∧ active s = Some t ∧ at_phase t = Staged p ∧ at_owner t = o.

Definition staged_by st (o : WriteOwner) : Prop := ∃ a, staged_slot o (slots st !! a).

(** Without [LStage] no slot becomes staged. *)
Lemma moves_unstaged K a o x y :
  (∀ l, K a l → l ≠ LStage) → rtc (slot_moves K a) x y → staged_slot o y → staged_slot o x.
Proof.
  intros HK. induction 1 as [|x y z (l & Hl & Hs) _ IH]; [done|]. intros Hz. specialize (IH Hz).
  destruct IH as (s & t & p & -> & Ha & Hp & Ho). specialize (HK l Hl).
  inversion Hs; simplify_eq/=; try congruence.
Qed.

Lemma lsteps_unstaged K st st' o :
  (∀ a l, K a l → l ≠ LStage) → lsteps K st st' → staged_by st' o → staged_by st o.
Proof. intros HK [_ Hl] [a Ha]. exists a. eapply moves_unstaged; [apply HK|apply Hl|done]. Qed.

(** A claimed slot is staged for the owner of the claim. *)
Lemma moves_claimed_owner K a o x y :
  (∀ l, K a l → l = LUnclaim ∨ l = LStage ∨ l = LUnstage) → rtc (slot_moves K a) x y →
  (∀ s t, x = Some s → active s = Some t → at_owner t = o) →
  ∀ s t, y = Some s → active s = Some t → at_owner t = o.
Proof.
  intros HK. induction 1 as [|x y z (l & Hl & Hs) _ IH]; [done|]. intros Hx. apply IH.
  intros s t -> Ha. destruct (HK l Hl) as [-> | [-> | ->]]; inversion Hs; simplify_eq/=; eauto.
Qed.

(** Slots that an operation does not touch. *)
Lemma lsteps_slot K st st' a : (∀ l, ¬ K a l) → lsteps K st st' → slots st' !! a = slots st !! a.
Proof.
  intros HK [_ Hl]. specialize (Hl a). apply rtc_inv in Hl as [<-|(x & (l & Hk & _) & _)]; [done|].
  by destruct (HK l).
Qed.

Lemma lsteps_slots st st' : (∀ K, lsteps K st st') → slots st' = slots st.
Proof. intros Hl. apply map_eq. intros a. apply (lsteps_slot (fun _ _ => False)); auto. Qed.

Lemma abort_staged_slots alive a s t p now st :
  slots (abort_staged alive a s t p now st) = alter (set_active None) a (slots st).
Proof.
  transitivity (slots (update_slot a (set_active None) st)); [|done].
  apply lsteps_slots. intros K. unfold abort_staged.
  etrans; [apply ls_retire_aborted|apply ls_after_transaction].
Qed.

(** ** Staging *)

Definition at_slot (a : N) (P : slot_label → Prop) : allowed := fun b l => b = a ∧ P l.

(** A failed stage leaves the claim's slot unstaged. *)
Lemma unclaim_unstaged st st' c o :
  lsteps (at_slot (wc_slot c) (fun l => l = LUnclaim)) st st' → staged_by st' o → staged_by st o.
Proof. apply lsteps_unstaged. by intros a l [_ ->]. Qed.

Lemma stage_unstaged alive b1 c ct rs g st o :
  claim_ok st c → staged_by (stage_inner alive b1 false c ct rs g st).2 o → staged_by st o.
Proof.
  intros (s & t & Hs & Ha & Hp & Hid & Ho & _). unfold stage_inner.
  set (K := at_slot (wc_slot c) (fun l => l = LUnclaim)).
  assert (K (wc_slot c) LUnclaim) as HK by done.
  assert (staged_by (stage_fail alive c rs g st) o → staged_by st o) as Hf
    by (apply (unclaim_unstaged _ _ c); by apply ls_stage_fail).
  destruct b1; simpl; [|done]. destruct (_ =? 0); [done|].
  destruct (validate_stage_replicas _ _ _); [|done|done].
  rewrite Hs, Ha, Hid, Ho, Hp, N.eqb_refl, bool_decide_true by done. simpl.
  unfold abort. simpl. rewrite N.eqb_refl. simpl. rewrite lookup_alter_eq, Hs. simpl.
  rewrite Hid, N.eqb_refl. simpl. rewrite N.eqb_refl. simpl.
  unfold staged_by. rewrite abort_staged_slots. simpl.
  intros [b (s' & t' & p' & Hb & Ha' & Hp' & Ho')].
  destruct (decide (b = wc_slot c)) as [->|Hne].
  - rewrite !lookup_alter_eq, Hs in Hb. simpl in Hb. injection Hb as <-. done.
  - rewrite !lookup_alter_ne in Hb by done. by exists b, s', t', p'.
Qed.

Lemma stage_staged alive b1 b2 c ct rs g st o :
  claim_ok st c → staged_by (stage_inner alive b1 b2 c ct rs g st).2 o →
  staged_by st o ∨ b2 = true ∧ o = wc_owner c.
Proof.
  intros Hok. destruct b2; [|left; by eapply stage_unstaged].
  set (K := at_slot (wc_slot c) (fun l => l = LUnclaim ∨ l = LStage ∨ l = LUnstage)).
  assert (lsteps K st (stage_inner alive b1 true c ct rs g st).2) as Hl.
  { apply ls_stage; unfold K, at_slot; auto. }
  intros [a Ha]. destruct (decide (a = wc_slot c)) as [->|Hne].
  - right. split; [done|]. destruct Ha as (s' & t' & p' & Hs' & Ha' & _ & <-).
    destruct Hok as (s & t & Hs & Hat & _ & _ & Ho & _). destruct Hl as [_ Hl].
    eapply (moves_claimed_owner K (wc_slot c)); [|apply Hl| |exact Hs'|exact Ha'].
    + by intros l [_ Hk].
    + rewrite Hs. intros ? ? [= <-]. rewrite Hat. by intros [= <-].
  - left. exists a. rewrite (lsteps_slot K st _ a) in Ha; [done| |exact Hl]. intros l [? _]. done.
Qed.

(** ** Revocation *)

Lemma pending_snapshot_owner c l st s t :
  inv_pend l st → slots st !! pc_slot c = Some s → active s = Some t →
  at_phase t = Staged (pc_pending c) → at_id t = pc_transaction c →
  pending_snapshot c st = Some (at_owner t).
Proof.
  intros Hc Hs Ha Hp Hid. destruct (inv_staged _ _ s t _ Hc Hs Ha Hp) as (ver & Hl & _ & Hn & _).
  simpl in Hl. unfold pending_snapshot. rewrite Hl, Hn, Hs. simpl. rewrite Ha. simpl.
  by rewrite Hid, Hp, !N.eqb_refl.
Qed.

(** Every write staged for one of the owners is still to be looked at. *)
Definition to_revoke (owners : list WriteOwner) (l : list PendingCandidate) st : Prop :=
  ∀ a s t p, slots st !! a = Some s → active s = Some t → at_phase t = Staged p →
    at_owner t ∈ owners → ∃ d, mkPending a p (at_id t) d ∈ l.

Lemma to_revoke_skip owners c l st :
  inv_pend (c :: l) st → (∀ o, pending_snapshot c st = Some o → o ∉ owners) →
  to_revoke owners (c :: l) st → to_revoke owners l st.
Proof.
  intros Hc Hn Hr a s t p Hs Ha Hp Ho. destruct (Hr a s t p Hs Ha Hp Ho) as [d [<-|Hd]%elem_of_cons];
    [|eauto]. exfalso. apply (Hn (at_owner t)); [|done].
  by apply (pending_snapshot_owner (mkPending a p (at_id t) d) (mkPending a p (at_id t) d :: l) st s).
Qed.

(** A slot without its write, if that is staged for one of the owners. *)
Definition revoked_slot (revoked : WriteOwner → bool) (s : ObjectSlot) : ObjectSlot :=
  match active s with
  | Some t => match at_phase t with Staged _ => if revoked (at_owner t) then set_active None s else s | Claimed => s end
  | None => s
  end.

Definition among (owners : list WriteOwner) (o : WriteOwner) : bool := bool_decide (o ∈ owners).

Lemma revoked_none (P : WriteOwner → bool) (m : gmap N ObjectSlot) :
  (∀ a s t p, m !! a = Some s → active s = Some t → at_phase t = Staged p → P (at_owner t) = false) →
  revoked_slot P <$> m = m.
Proof.
  intros HP. etrans; [|apply map_fmap_id]. apply map_fmap_ext. intros a s Hs. unfold revoked_slot.
  destruct (active s) as [t|] eqn:Ha; [|done]. destruct (at_phase t) as [|p] eqn:Hp; [done|].
  by rewrite (HP a s t p Hs Ha Hp).
Qed.

Lemma revoked_alter (P : WriteOwner → bool) (m : gmap N ObjectSlot) a s t p :
  m !! a = Some s → active s = Some t → at_phase t = Staged p → P (at_owner t) = true →
  revoked_slot P <$> alter (set_active None) a m = revoked_slot P <$> m.
Proof.
  intros Hs Ha Hp HP. apply map_eq. intros b. rewrite !lookup_fmap. destruct (decide (a = b)) as [<-|Hne].
  - rewrite lookup_alter_eq, Hs. simpl. f_equal. unfold revoked_slot at 2. by rewrite Ha, Hp, HP.
  - by rewrite lookup_alter_ne.
Qed.

(** Revoking takes away exactly the writes staged for the owners. *)
Lemma revoke_loop_slots alive owners now l : ∀ n st,
  inv_pend l st → to_revoke owners l st →
  slots (revoke_loop alive owners now l n st).2 = revoked_slot (among owners) <$> slots st.
Proof.
  induction l as [|c l IH]; intros n st Hc Hr; simpl.
  { symmetry. apply revoked_none. intros a s t p Hs Ha Hp. apply bool_decide_eq_false. intros Ho.
    destruct (Hr a s t p Hs Ha Hp Ho). set_solver. }
  destruct (pending_snapshot c st) as [o'|] eqn:Hsn.
  - case_bool_decide as Hin; simpl.
    + pose proof (abort_pending_pend alive c l now st Hc) as Hab.
      destruct (abort_pending alive (pc_slot c) (pc_transaction c) (pc_pending c) now st) as [b st1] eqn:Habt.
      unfold pending_snapshot in Hsn. unfold abort_pending in Habt.
      destruct (versions st !! _) as [ver|]; [|done]. destruct (v_committed ver); [done|].
      destruct (slots st !! pc_slot c) as [s0|] eqn:Hs0; [|done]. simpl in Hsn.
      destruct (active s0) as [t0|] eqn:Ha0; [|done]. simpl in Hsn. destruct (negb (at_id t0 =? _)); [done|].
      destruct (at_phase t0) as [|p0] eqn:Hp0; [done|]. destruct (negb _); [done|]. injection Habt as _ <-.
      injection Hsn as Hown. rewrite IH; [|exact Hab|].
      * rewrite abort_staged_slots. apply (revoked_alter _ _ _ s0 t0 p0); try done.
        rewrite Hown. by apply bool_decide_eq_true.
      * intros a s t p. rewrite abort_staged_slots. destruct (decide (a = pc_slot c)) as [->|Hne].
        -- rewrite lookup_alter_eq, Hs0. by intros [= <-].
        -- rewrite lookup_alter_ne by done. intros Hs Ha Hp Hot.
           destruct (Hr a s t p Hs Ha Hp Hot) as [d [<-|Hd]%elem_of_cons]; [done|eauto].
    + rewrite IH; [done|by apply pend_push|].
      apply (to_revoke_skip owners c l st Hc); [by rewrite Hsn; intros ? [= <-]|exact Hr].
  - apply IH; [|by apply (to_revoke_skip owners c l st Hc); [rewrite Hsn|]].
    apply (pend_drop c l st Hc). by apply (pending_snapshot_none c l).
Qed.

Lemma revoke_slots alive owners now st :
  inv st →
  slots (revoke_pending_owners alive owners now st).2 =
    revoked_slot (among (filter (fun o => session_generation o ≠ 0) owners)) <$> slots st.
Proof.
  intros Hc. unfold revoke_pending_owners. destruct (filter _ owners) as [|o1 os].
  { symmetry. by apply revoked_none. }
  change (slots st) with (slots (set_pending [] st)). apply revoke_loop_slots.
  - unfold inv_pend. simpl. rewrite app_nil_r. by destruct st.
  - intros a s t p Hs Ha Hp _. simpl in Hs. by destruct (inv_staged st a s t p Hc Hs Ha Hp)
      as (ver & _ & _ & _ & _ & _ & _ & Hd).
Qed.

(** What is still staged was staged before, and not for a revoked owner. *)
Lemma staged_revoked st st' (P : WriteOwner → bool) o :
  slots st' = revoked_slot P <$> slots st → staged_by st' o ↔ staged_by st o ∧ P o = false.
Proof.
  intros Hs'. unfold staged_by. split.
  - intros (a & s' & t & p & Ha & Hact & Hp & <-). rewrite Hs', lookup_fmap in Ha.
    destruct (slots st !! a) as [s|] eqn:Hs; [|done]. simpl in Ha. injection Ha as <-.
    unfold revoked_slot in Hact. destruct (active s) as [t0|] eqn:Ht0; [|by rewrite Ht0 in Hact].
    destruct (at_phase t0) as [|p0] eqn:Hp0; [rewrite Ht0 in Hact; congruence|].
    destruct (P (at_owner t0)) eqn:HP; [done|]. rewrite Ht0 in Hact. injection Hact as ->.
    split; [|done]. by exists a, s, t, p0.
  - intros [(a & s & t & p & Ha & Hact & Hp & <-) HP]. exists a, s, t, p.
    rewrite Hs', lookup_fmap, Ha. simpl. unfold revoked_slot. by rewrite Hact, Hp, HP.
Qed.

(** ** Every call *)

Lemma cat_step_staged op w w' o :
  inv (cat w) → cat_step op w = Some w' →
  (∀ k alive b1 b2 ct rs g, op ≠ OStage k alive b1 b2 ct rs g) →
  staged_by (cat w') o → staged_by (cat w) o.
Proof.
  intros Hc Hs Hop. apply (lsteps_unstaged (op_allows op w)); [|by apply cat_step_slots].
  intros a l. destruct op; simpl; unfold collector_labels; naive_solver.
Qed.
End Staged.
