(* ===== verification/CatalogProps.v ===== *)
(** * What the object catalog promises

    The properties of every reachable catalog: exact statistics, absence of
    panics, the state machine of every slot, and the map of published versions
    that the operations implement. *)
From stdpp Require Import relations.
From S2P Require Import Prelude Identity Segment TenantQuota Replica ObjectTypes CatalogState.
From S2P Require Import CatalogWrite CatalogCollector CatalogInv CatalogOps CatalogSteps.
From S2P Require Import CatalogGuard CatalogSlots CatalogWorld.

(** ** An example world *)

(** Reservations as pairs of reserved and requested bytes. *)
#[export] Instance pair_resource : Resource (N * N) := {
  res_reserved := fst;
  res_requested := snd
}.

Section Example.
Let W := @CatWorld (N * N).

Definition example_config : ObjectCatalogConfig := ObjectCatalogConfig_new 16.
Definition example_key : ObjectIdentity := mkObject 1 "key".
Definition example_owner : WriteOwner := WriteOwner_new (mkClientId 0 9).
Definition example_pins : ObjectPinRequest := mkPinRequest Preserve None false.
Definition example_replica : ReplicaLease (N * N) := mkLease 1 (64, 40).
Definition example_tx : WriteTransaction := mkTx (Some 7) 0 1 1.

Definition no_world : W := mkWorld (catalog_new 7 example_config) [] [].
Definition step_or (op : cat_op) (w : W) : W := default w (cat_step op w).

Definition claimed_world : W :=
  step_or (OBegin example_key example_owner Insert example_pins 5) no_world.
Definition staged_world : W :=
  step_or (OStage 0 (fun _ => true) true true (mkContent 40 KvCache) (One example_replica) None)
    claimed_world.
Definition published_world : W :=
  step_or (OCommit example_tx (fun _ => true) (fun _ => true) (mkCommit (Some 3)) 6) staged_world.

Lemma claimed_reachable : reachable 7 example_config claimed_world.
Proof.
  apply (reach_step _ _ no_world (OBegin example_key example_owner Insert example_pins 5));
    [by apply reach_new|done|by vm_compute].
Qed.

Lemma example_stage_env : stage_env (One example_replica) (cat claimed_world).
Proof.
  split; [done| |by vm_compute].
  intros r Hr. apply list_elem_of_singleton in Hr as ->. by vm_compute.
Qed.

Lemma staged_reachable : reachable 7 example_config staged_world.
Proof.
  apply (reach_step _ _ claimed_world (OStage 0 (fun _ => true) true true (mkContent 40 KvCache)
    (One example_replica) None)); [apply claimed_reachable|apply example_stage_env|by vm_compute].
Qed.

Lemma published_reachable : reachable 7 example_config published_world.
Proof.
  apply (reach_step _ _ staged_world (OCommit example_tx (fun _ => true) (fun _ => true)
    (mkCommit (Some 3)) 6)); [apply staged_reachable|done|by vm_compute].
Qed.
End Example.

(** ** The map of published versions *)

Section Published.
Context {R : Type} `{Resource R}.
Implicit Types (st : Catalog R).

(** The abstract catalog: the published version of every key. *)
Definition published st : gmap ObjectIdentity N :=
  omap (fun a => slots st !! a ≫= committed) (index st).

(** What a slot publishes. *)
Definition slot_pub (o : option ObjectSlot) : option (ObjectIdentity * N) :=
  s ← o; v ← committed s; Some (s_identity s, v).

Lemma slot_pub_Some o i v :
  slot_pub o = Some (i, v) ↔ ∃ s, o = Some s ∧ s_identity s = i ∧ committed s = Some v.
Proof.
  destruct o as [s|]; simpl; [|naive_solver]. destruct (committed s) eqn:Hc; simpl; naive_solver.
Qed.

Lemma published_Some st i v :
  inv st → published st !! i = Some v ↔ ∃ a, slot_pub (slots st !! a) = Some (i, v).
Proof.
  intros Hc. unfold published. rewrite lookup_omap, bind_Some. split.
  - intros (a & Hi & (s & Hs & Hv)%bind_Some). apply (inv_index st i a Hc) in Hi as (s' & Hs' & Hid).
    exists a. apply slot_pub_Some. exists s. split_and!; [done|congruence|done].
  - intros (a & (s & Hs & Hid & Hv)%slot_pub_Some). exists a. rewrite (inv_index st i a Hc).
    split; [by exists s|]. apply bind_Some. by exists s.
Qed.

Lemma slot_pub_step l o o' :
  slot_step l o o' →
  match l with
  | LPublish p => ∃ s, o = Some s ∧ slot_pub o' = Some (s_identity s, p)
  | LUnpublish => slot_pub o' = None
  | _ => slot_pub o' = slot_pub o
  end.
Proof.
  destruct 1 as [i t Hp Hb|s Hcm Ha|s t nx Ha Hp Hb ? ?|s t Ha Hp|s t p Ha Hp|s t p Ha Hp
    |s t p nv Ha Hp Hb ?|s v Ha Hcm]; simpl; try done; [by rewrite Hcm|by exists s].
Qed.

Lemma slot_pub_same K a o o' :
  (∀ l, K a l → l ≠ LUnpublish ∧ ∀ p, l ≠ LPublish p) →
  rtc (slot_moves K a) o o' → slot_pub o' = slot_pub o.
Proof.
  intros HK. induction 1 as [o|o o1 o' (l & Hl & Hs) _ IH]; [done|]. rewrite IH.
  destruct (HK l Hl) as [Hu Hp]. apply slot_pub_step in Hs.
  destruct l; first [exact Hs|done|by destruct (Hp v)].
Qed.

Lemma slot_pub_less K a o o' :
  (∀ l p, K a l → l ≠ LPublish p) →
  rtc (slot_moves K a) o o' → slot_pub o' = slot_pub o ∨ slot_pub o' = None.
Proof.
  intros HK. induction 1 as [o|o o1 o' (l & Hl & Hs) _ IH]; [by left|].
  apply slot_pub_step in Hs. pose proof (HK l) as Hp.
  destruct l; first [by rewrite Hs in IH|by destruct (Hp v)|right; destruct IH; congruence].
Qed.

(** A slot keeps its key. *)
Lemma slot_identity_stays K a s s' :
  (∀ l, K a l → l ≠ LNew) →
  rtc (slot_moves K a) (Some s) (Some s') → s_identity s' = s_identity s.
Proof.
  intros HK Hr. assert (∀ o o', rtc (slot_moves K a) o o' →
    o' = None ∨ s_identity <$> o' = s_identity <$> o) as Hgen.
  { induction 1 as [o|o o1 o' (l & Hl & Hs) _ IH]; [by right|]. specialize (HK l Hl).
    destruct IH as [?|IH]; [by left|]. rewrite IH. inversion Hs; subst; simpl in *; try done; auto.
    left. by destruct o'. }
  destruct (Hgen _ _ Hr) as [?|He]; [done|]. simpl in He. congruence.
Qed.

Lemma published_ext st st' :
  inv st → inv st' → (∀ a, slot_pub (slots st' !! a) = slot_pub (slots st !! a)) →
  published st' = published st.
Proof.
  intros Hc Hc' He. apply map_eq. intros i. apply option_eq. intros v.
  rewrite !published_Some by done. by setoid_rewrite He.
Qed.

Lemma published_sub st st' :
  inv st → inv st' →
  (∀ a, slot_pub (slots st' !! a) = slot_pub (slots st !! a) ∨ slot_pub (slots st' !! a) = None) →
  published st' ⊆ published st.
Proof.
  intros Hc Hc' He. apply map_subseteq_spec. intros i v.
  rewrite !published_Some by done. intros (a & Ha). exists a. destruct (He a); congruence.
Qed.

(** One slot publishes or retires a version. *)
Lemma published_set st st' b s o :
  inv st → inv st' → slots st !! b = Some s →
  slot_pub (slots st' !! b) = (pair (s_identity s) <$> o) →
  (∀ a, a ≠ b → slot_pub (slots st' !! a) = slot_pub (slots st !! a)) →
  published st' = partial_alter (fun _ => o) (s_identity s) (published st).
Proof.
  intros Hc Hc' Hs Hb Ho. apply map_eq. intros i. apply option_eq. intros v.
  rewrite published_Some by done. destruct (decide (s_identity s = i)) as [<-|Hne].
  - rewrite lookup_partial_alter_eq. split.
    + intros (a & Ha). destruct (decide (a = b)) as [->|Hab].
      { rewrite Ha in Hb. destruct o; simpl in Hb; congruence. }
      rewrite Ho in Ha by done. apply slot_pub_Some in Ha as (s' & Hs' & Hid & _).
      destruct Hab. by apply (slot_unique (erase st) a b s' s Hc).
    + intros ->. exists b. by rewrite Hb.
  - rewrite lookup_partial_alter_ne by done. rewrite published_Some by done. split.
    + intros (a & Ha). exists a. destruct (decide (a = b)) as [->|Hab]; [|by rewrite <- Ho].
      rewrite Hb in Ha. destruct o; naive_solver.
    + intros (a & Ha). exists a. destruct (decide (a = b)) as [->|Hab]; [|by rewrite Ho].
      apply slot_pub_Some in Ha as (s' & Hs' & Hid & _). naive_solver.
Qed.
End Published.

(** ** Results of the operations *)

Section Results.
Context {R : Type} `{Resource R}.
Implicit Types (st : Catalog R) (w : @CatWorld R).

(** What a successful commit did: it published the staged version, or the
    transaction had been committed before. *)
Lemma commit_Ok alive alive' tx c now st v st' :
  inv st → commit alive alive' tx c now st = (Ok v, st') →
  ∃ s, slots st !! tx_slot tx = Some s ∧
    ((active s = None ∧ committed s = Some v ∧ st' = st) ∨
     (v = tx_pending tx ∧ ∃ t nv, active s = Some t ∧ at_phase t = Staged v ∧
        at_id t = tx_id tx ∧
        slots st' = alter (publish_slot v nv) (tx_slot tx) (slots st))).
Proof.
  intros Hc. unfold commit. destruct (tx_catalog tx); [|done]. destruct (negb _); [done|].
  destruct (slots st !! tx_slot tx) as [s|] eqn:Hs; [|done]. destruct (active s) as [t|] eqn:Ha.
  - destruct (N.eqb_spec (at_id t) (tx_id tx)) as [Hid|]; simpl; [|done].
    destruct (at_phase t) as [|p] eqn:Hp; [done|].
    destruct (N.eqb_spec p (tx_pending tx)) as [->|]; simpl; [|done].
    destruct (versions st !! tx_pending tx) as [ver|] eqn:Hv; [|done].
    destruct (negb _); [done|]. destruct (negb _); [done|].
    destruct (inv_staged st _ s t _ Hc Hs Ha Hp) as (ver' & Hv' & _ & Hvc & _).
    assert (ver' = ver) as -> by congruence. rewrite Hvc. intros He. exists s. split; [done|].
    right. assert (∃ base cv nv, (Ok v, st') = (Ok (E := CommitError) (tx_pending tx),
      commit_publish alive' (tx_slot tx) t (tx_pending tx) ver base cv nv st))
      as (base & cv & nv & [= -> ->]).
    { destruct (at_base t ≫= _) as [old|]; simpl in He; [destruct (version_access old)|];
        destruct (checked_add (next_version_id s) 1); try done; by eexists _, _, _. }
    split; [done|]. exists t, nv. split_and!; [done..|]. by apply commit_publish_fields.
  - destruct (committed s) as [u|] eqn:Hcm; [|done]. destruct (versions st !! u) as [ver|]; [|done].
    destruct (negb _); [done|]. destruct (v_committed ver); [|done].
    case_bool_decide; [|done]. intros [= <- <-]. exists s. naive_solver.
Qed.

Lemma commit_Err alive alive' tx c now st e st' :
  commit alive alive' tx c now st = (Err e, st') → st' = st.
Proof.
  unfold commit. repeat case_match; simpl; congruence.
Qed.

Lemma abort_Err alive tx now st e st' : abort alive tx now st = (Err e, st') → st' = st.
Proof. unfold abort. repeat case_match; simpl; congruence. Qed.

Lemma remove_Ok i now force st st' :
  inv st → remove_with_force i now force st = (Ok tt, st') →
  ∃ a s v, slots st !! a = Some s ∧ s_identity s = i ∧ committed s = Some v ∧
    slots st' = alter (set_committed None) a (slots st).
Proof.
  intros Hc. unfold remove_with_force. destruct (lookup_slot i st) as [a|] eqn:Hi; [|done].
  apply (inv_index st i a Hc) in Hi as (s & Hs & Hid). rewrite Hs.
  destruct (active s); [done|]. destruct (committed s) as [v|] eqn:Hv; [|done].
  destruct (versions st !! v ≫= _) as [y|]; [|done].
  destruct (negb force && is_leased now y); [done|].
  destruct (negb force && hard_pinned y); [done|]. intros [= <-]. exists a, s, v.
  split_and!; [done..|]. unfold retire_published. destruct (versions _ !! v); [|done].
  apply (charge_step_fields _ v).
Qed.

Lemma remove_Err i now force st e st' : remove_with_force i now force st = (Err e, st') → st' = st.
Proof. unfold remove_with_force. repeat case_match; simpl; congruence. Qed.

Lemma begin_Err i o mode pins now st e st' :
  begin_write i o mode pins now st = (Err e, st') → st' = st.
Proof.
  unfold begin_write, begin_write_resolved. repeat case_match; simpl; congruence.
Qed.

Lemma get_Ok alive i now st rd st' :
  inv st → get alive i now st = (Ok rd, st') →
  published st !! i = Some (read_version rd) ∧
  ∃ ver x, versions st !! read_version rd = Some ver ∧ version_access ver = Some x ∧
    has_live alive (v_replicas ver) = true ∧
    let '(l, x') := record_access now (lease_ttl_ticks (config st))
                      (lease_refresh_ticks (config st)) x in
    lease_expires_at rd = l ∧ st' = update_version (read_version rd) (set_access x') st.
Proof.
  intros Hc. unfold get, published. rewrite lookup_omap. unfold lookup_slot.
  destruct (index st !! i) as [a|]; [|done]. simpl.
  destruct (slots st !! a) as [s|]; [|done]. simpl. destruct (committed s) as [v|]; [|done].
  destruct (versions st !! v) as [ver|] eqn:Hv; [|done].
  destruct (version_access ver) as [x|] eqn:Hx; [|done].
  unfold record_access. cbv zeta. destruct (has_live _ _) eqn:Hl; [|done].
  intros [= <- <-]. split; [done|]. by exists ver, x.
Qed.

(** ** No panics *)

(** Transaction and version numbers of every slot are below the last one. *)
Definition ids_left st : Prop :=
  ∀ a s, slots st !! a = Some s → next_transaction_id s < U64_MAX ∧ next_version_id s < U64_MAX.

Lemma checked_succ n : n < U64_MAX → checked_add n 1 = Some (n + 1).
Proof. intros Hn. apply checked_add_Some. split; [done|lia]. Qed.

Lemma begin_total i o mode pins now st :
  inv st → ids_left st → (begin_write i o mode pins now st).1 ≠ Panic.
Proof.
  intros Hc Hids. unfold begin_write. destruct (resolve_pin_request _ _) as [p| |] eqn:Hres;
    [|done|by revert Hres; unfold resolve_pin_request; repeat case_match; simpl; congruence].
  unfold begin_write_resolved. destruct (key_is_empty i); [done|]. destruct (_ <=? _); [done|].
  destruct (lookup_slot i st) as [a|] eqn:Hi; [|done].
  apply (inv_index st i a Hc) in Hi as (s & Hs & _). rewrite Hs.
  destruct (active s); [done|]. rewrite checked_succ by (by eapply Hids).
  by destruct mode, (committed s).
Qed.

Lemma stage_total alive b1 b2 c ct rs g st : (stage_inner alive b1 b2 c ct rs g st).1 ≠ Panic.
Proof.
  unfold stage_inner. destruct b1; simpl; [|done]. destruct (_ =? 0); [done|].
  assert (∀ l u, validate_replicas alive (logical_bytes ct) u l ≠ Panic) as Hval.
  { induction l as [|r l IH]; intros u; simpl; [by destruct u as [[]|]|].
    destruct (negb _); [done|apply IH]. }
  unfold validate_stage_replicas. destruct (set_is_empty rs); [done|].
  specialize (Hval (replicas rs) None). destruct (validate_replicas _ _ _ _); [|done..].
  destruct (slots st !! wc_slot c) as [s|]; [|done]. destruct (active s) as [t|]; [|done].
  destruct (_ || _); [done|]. by destruct b2.
Qed.

Lemma commit_total alive alive' tx c now st :
  inv st → ids_left st → (commit alive alive' tx c now st).1 ≠ Panic.
Proof.
  intros Hc Hids. unfold commit. destruct (tx_catalog tx); [|done]. destruct (negb _); [done|].
  destruct (slots st !! tx_slot tx) as [s|] eqn:Hs; [|done]. destruct (active s) as [t|] eqn:Ha.
  - destruct (negb _); [done|]. destruct (at_phase t) as [|p] eqn:Hp; [done|]. destruct (negb _); [done|].
    destruct (inv_staged st _ s t p Hc Hs Ha Hp) as (ver & Hv & _ & Hvc & _). rewrite Hv.
    destruct (negb _); [done|]. destruct (negb _); [done|].
    rewrite checked_succ by (by eapply Hids). rewrite Hvc.
    destruct (inv_base st _ s t Hc Hs Ha) as [Hb _]. rewrite Hb.
    destruct (committed s) as [u|] eqn:Hcm; [|done]. simpl.
    destruct (inv_committed st _ s u Hc Hs Hcm) as (old & Hold & _ & [cv Hcv] & _).
    rewrite Hold. simpl. unfold version_access. by rewrite Hcv.
  - destruct (committed s) as [u|] eqn:Hcm; [|done].
    destruct (inv_committed st _ s u Hc Hs Hcm) as (old & Hold & _ & [cv Hcv] & _).
    rewrite Hold. destruct (negb _); [done|]. rewrite Hcv. by case_bool_decide.
Qed.

Lemma abort_total alive tx now st : inv st → (abort alive tx now st).1 ≠ Panic.
Proof.
  intros Hc. unfold abort. destruct (tx_catalog tx); [|done]. destruct (negb _); [done|].
  destruct (slots st !! tx_slot tx) as [s|] eqn:Hs; [|done]. destruct (active s) as [t|].
  - destruct (negb _); [done|]. destruct (at_phase t); [done|]. by destruct (negb _).
  - destruct (committed s ≫= _); [|done]. by destruct (_ =? _).
Qed.

Lemma lookup_total st (s : ObjectSlot) a v :
  inv st → slots st !! a = Some s → committed s = Some v →
  ∃ ver x, versions st !! v = Some ver ∧ version_access ver = Some x.
Proof.
  intros Hc Hs Hcm. destruct (inv_committed st _ s v Hc Hs Hcm) as (ver & Hv & _ & [cv Hcv] & _).
  exists ver, (cv_access cv). split; [done|]. unfold version_access. by rewrite Hcv.
Qed.

Lemma get_total alive i now st : inv st → (get alive i now st).1 ≠ Panic.
Proof.
  intros Hc. unfold get. destruct (lookup_slot i st) as [a|] eqn:Hi; [|done].
  apply (inv_index st i a Hc) in Hi as (s & Hs & _). rewrite Hs.
  destruct (committed s) as [v|] eqn:Hcm; [|done].
  destruct (lookup_total st s a v Hc Hs Hcm) as (ver & x & -> & ->).
  destruct (record_access _ _ _ _). by destruct (has_live _ _).
Qed.

Lemma remove_total i now force st : inv st → (remove_with_force i now force st).1 ≠ Panic.
Proof.
  intros Hc. unfold remove_with_force. destruct (lookup_slot i st) as [a|] eqn:Hi; [|done].
  apply (inv_index st i a Hc) in Hi as (s & Hs & _). rewrite Hs. destruct (active s); [done|].
  destruct (committed s) as [v|] eqn:Hcm; [|done].
  destruct (lookup_total st s a v Hc Hs Hcm) as (ver & x & -> & Hx). simpl. rewrite Hx.
  destruct (_ && _); [done|]. by destruct (_ && _).
Qed.

Lemma cat_step_total conf op w :
  world_inv conf w → ids_left (cat w) → is_Some (cat_step op w).
Proof.
  intros Hw Hids. pose proof (w_inv _ _ Hw) as Hc. destruct op; simpl.
  - pose proof (begin_total i o mode pins now (cat w) Hc Hids).
    by destruct (begin_write _ _ _ _ _ _) as [[]].
  - destruct (held_claims w !! k) as [c|]; [|done].
    pose proof (stage_total alive active_before active_after c content rs g (cat w)).
    by destruct (stage_inner _ _ _ _ _ _ _ _) as [[]].
  - by destruct (held_claims w !! k).
  - pose proof (commit_total alive alive_after tx c now (cat w) Hc Hids).
    by destruct (commit _ _ _ _ _ _) as [[]].
  - pose proof (abort_total alive tx now (cat w) Hc). by destruct (abort _ _ _ _) as [[]].
  - pose proof (get_total alive i now (cat w) Hc). by destruct (get _ _ _ _) as [[]].
  - pose proof (remove_total i now force (cat w) Hc). by destruct (remove_with_force _ _ _ _) as [[]].
  - edestruct (collect_inv alive (fun v => bool_decide (v ∈ handles w)) gate_busy now budget targets
      reclaim_first watermark (cat w) Hc) as (rep1 & st1 & -> & _). done.
  - done.
  - done.
  - done.
  - done.
  - done.
Qed.
End Results.

(** ** The catalog as a map *)

(** The labels an operation allows exclude the wanted ones. *)
Ltac labels :=
  intros; unfold op_allows, collector_labels in *; simpl in *; intros; intuition congruence.

Section Claims.
Context {R : Type} `{Resource R}.
Implicit Types (st : Catalog R) (w : @CatWorld R).

(** The effect a call may have on the published versions [m]. *)
Definition map_spec (op : cat_op) w (m m' : gmap ObjectIdentity N) : Prop :=
  match op with
  | OCommit tx alive alive_after c now =>
      match (commit alive alive_after tx c now (cat w)).1 with
      | Ok v => ∃ s, slots (cat w) !! tx_slot tx = Some s ∧ m' = <[s_identity s := v]> m
      | _ => m' = m
      end
  | ORemove i now force =>
      match (remove_with_force i now force (cat w)).1 with
      | Ok _ => is_Some (m !! i) ∧ m' = delete i m
      | _ => m' = m
      end
  | OGet i alive now =>
      m' = m ∧
      match (get alive i now (cat w)).1 with
      | Ok rd => m !! i = Some (read_version rd)
      | _ => True
      end
  | OCollect _ _ _ _ _ _ _ => m' ⊆ m
  | _ => m' = m
  end.

Lemma published_commit conf tx alive alive' c now w v w' :
  world_inv conf w → inv (cat w') →
  commit alive alive' tx c now (cat w) = (Ok v, cat w') →
  ∃ s, slots (cat w) !! tx_slot tx = Some s ∧
    published (cat w') = <[s_identity s := v]> (published (cat w)).
Proof.
  intros Hw Hc' He. pose proof (w_inv _ _ Hw) as Hc.
  destruct (commit_Ok _ _ _ _ _ _ _ _ Hc He) as (s & Hs & Hcase). exists s. split; [done|].
  apply (published_set _ _ (tx_slot tx) s (Some v)); [done..| |].
  - destruct Hcase as [(_ & Hcm & ->)|(_ & t & nv & _ & _ & _ & ->)].
    + rewrite Hs. simpl. by rewrite Hcm.
    + rewrite lookup_alter_eq, Hs. done.
  - intros a Ha. destruct Hcase as [(_ & _ & ->)|(_ & t & nv & _ & _ & _ & ->)]; [done|].
    by rewrite lookup_alter_ne.
Qed.

Lemma published_remove i now force st st' :
  inv st → inv st' → remove_with_force i now force st = (Ok tt, st') →
  is_Some (published st !! i) ∧ published st' = delete i (published st).
Proof.
  intros Hc Hc' He. destruct (remove_Ok _ _ _ _ _ Hc He) as (a & s & v & Hs & <- & Hv & Hsl). split.
  - exists v. apply published_Some; [done|]. exists a. apply slot_pub_Some. by exists s.
  - apply (published_set _ _ a s None); [done..| |]; rewrite Hsl.
    + by rewrite lookup_alter_eq, Hs.
    + intros b Hb. by rewrite lookup_alter_ne.
Qed.

(** C6: The catalog implements a map from keys to published versions: a commit
    inserts exactly its version under its key, a successful removal deletes
    exactly its key, a lookup returns the entry of the map, the collector only
    deletes entries, and every other call, failed calls included, leaves the
    map as it is. *)
Theorem catalog_refines_map cid conf w op w' :
  reachable cid conf w → cat_env op w → cat_step op w = Some w' →
  map_spec op w (published (cat w)) (published (cat w')).
Proof.
  intros Hr Henv Hs. pose proof (reachable_inv _ _ _ Hr) as Hw. pose proof (w_inv _ _ Hw) as Hc.
  pose proof (cat_step_inv _ _ _ _ Hw Henv Hs) as Hc'. pose proof (cat_step_slots _ _ _ Hc Hs) as [_ Hl].
  assert ((∀ a l, op_allows op w a l → l ≠ LUnpublish ∧ ∀ p, l ≠ LPublish p) →
    published (cat w') = published (cat w)) as Hsame.
  { intros HK. apply published_ext; [done..|]. intros a. eapply slot_pub_same, Hl. apply HK. }
  destruct op; simpl in *; try (apply Hsame; labels).
  - destruct (commit _ _ _ _ _ _) as [[v|e|] st'] eqn:He; simpl; [| |done].
    + injection Hs as <-. by apply (published_commit conf tx alive alive_after c now).
    + injection Hs as <-. by apply commit_Err in He as ->.
  - destruct (get _ _ _ _) as [[rd|e|] st'] eqn:He; simpl in *; [| |done].
    + injection Hs as <-. split; [apply Hsame; labels|]. by apply get_Ok in He as [? _].
    + split; [apply Hsame; labels|done].
  - destruct (remove_with_force _ _ _ _) as [[[]|e|] st'] eqn:He; simpl; [| |done].
    + injection Hs as <-. by apply (published_remove i now force).
    + injection Hs as <-. by apply remove_Err in He as ->.
  - apply published_sub; [done..|]. intros a. eapply slot_pub_less, Hl. labels.
Qed.

(** The slot of every key moves only along its state machine, and a call
    takes only its own transitions, on the slots it addresses: for example the
    collector never claims, stages or publishes, and a commit only publishes
    the slot of its transaction. *)
Theorem slot_machine cid conf w op w' a :
  reachable cid conf w → cat_step op w = Some w' →
  rtc (slot_moves (op_allows op w) a) (slots (cat w) !! a) (slots (cat w') !! a).
Proof.
  intros Hr Hs. apply reachable_inv in Hr. by apply (cat_step_slots op w w' (w_inv _ _ Hr)).
Qed.

(** No call panics in a reachable world, as long as the 64-bit transaction
    and version numbers of the addressed slots are not used up; in particular
    the collector never meets a missing version or an overflowing product. *)
Theorem catalog_no_panic cid conf w op :
  reachable cid conf w → ids_left (cat w) → is_Some (cat_step op w).
Proof. intros Hr Hids. apply reachable_inv in Hr. by eapply cat_step_total. Qed.

Lemma erase_bytes_in k ret st :
  msum (bytes_in k ret) (versions (erase st)) = msum (bytes_in k ret) (versions st).
Proof.
  simpl. unfold msum. rewrite map_to_list_fmap, sum_by_map. apply sum_by_ext.
  intros [v ver] _. unfold bytes_in, role_of. simpl. by destruct (v_committed ver).
Qed.

(** C17: The statistics are exact in every reachable world: the numbers of
    slots, claims, staged and published objects are those of the slots, and the
    pending, live and retired bytes are the reserved bytes of the versions in
    each of the three roles, without any wrap-around. *)
Theorem stats_exact cid conf w :
  reachable cid conf w →
  let st := cat w in
  let s := stats st in
  st_slots s = msum (fun _ _ => 1) (slots st) ∧
  st_claims s = msum is_claimed (slots st) ∧
  st_pending_objects s = msum is_staged (slots st) ∧
  st_published_objects s = msum is_published (slots st) ∧
  st_pending_bytes s = msum (bytes_in RPending (retired_addrs st)) (versions st) ∧
  st_live_bytes s = msum (bytes_in RLive (retired_addrs st)) (versions st) ∧
  st_retired_bytes s = msum (bytes_in RRetired (retired_addrs st)) (versions st) ∧
  st_retired_memory_bytes s = st_retired_bytes s ∧
  st_pending_bytes s + st_live_bytes s + st_retired_bytes s <= U64_MAX.
Proof.
  intros Hr. destruct (c_counters _ (w_inv _ _ (reachable_inv _ _ _ Hr)))
    as [N1 N2 N3 N4 N5 N6 N7 N8 N9].
  rewrite erase_bytes_in in N5, N6, N7. rewrite erase_bytes in N9.
  rewrite (bytes_total _ (retired_addrs (cat w))) in N9.
  split_and!; try done. simpl in *. rewrite N5, N6, N7. exact N9.
Qed.
End Claims.
