(* ===== verification/CatalogProtect.v ===== *)
(** * What the catalog protects

    A lease keeps the bytes that were read in place until it ends, whatever the
    other callers do; leases and hard pins keep a published version published;
    a held claim is never lost. *)
From stdpp Require Import relations.
From S2P Require Import Prelude Identity Segment TenantQuota Replica ObjectTypes CatalogState.
From S2P Require Import CatalogWrite CatalogCollector CatalogInv CatalogOps CatalogSteps.
From S2P Require Import CatalogGuard CatalogSlots CatalogWorld CatalogProps.

Section Protect.
Context {R : Type} `{Resource R}.
Implicit Types (st : Catalog R) (w : @CatWorld R).

(** ** Runs *)

Fixpoint run (ops : list cat_op) w : option CatWorld :=
  match ops with
  | [] => Some w
  | op :: ops' => w' ← cat_step op w; run ops' w'
  end.

Fixpoint env_run (ops : list cat_op) w : Prop :=
  match ops with
  | [] => True
  | op :: ops' => cat_env op w ∧ ∀ w', cat_step op w = Some w' → env_run ops' w'
  end.

(** Calls before the time [L] during which the replica [r] stays alive, and no
    removal is forced. *)
Definition respects (L : N) (r : ReplicaLease R) (op : cat_op) : Prop :=
  match op with
  | OCollect alive _ now _ _ _ _ => lease_is_live alive r = true ∧ now < L
  | ORemove _ now force => force = false ∧ now < L
  | _ => True
  end.

(** ** Leases *)

Definition leased_until (L : N) (x : AccessControl) : Prop := L <= lease_until x.

Lemma leased_mono L x x' : access_le x x' → leased_until L x → leased_until L x'.
Proof. unfold leased_until. intros [? _] ?. lia. Qed.

Lemma leased_now L now x :
  now < L → leased_until L x → is_leased now x = true ∨ hard_pinned x = true.
Proof. unfold leased_until, is_leased. intros ? ?. left. apply N.ltb_lt. lia. Qed.

Lemma lease_step_safe conf L a v r w op w' :
  world_inv conf w → lease_refresh_ticks conf <= lease_ttl_ticks conf → respects L r op →
  cat_step op w = Some w' →
  safe (leased_until L) L a v r (cat w) → safe (leased_until L) L a v r (cat w').
Proof.
  intros Hw Hcf Hre Hs Hsafe. pose proof (w_inv _ _ Hw) as Hc.
  assert (∀ st', gentle (cat w) st' → safe (leased_until L) L a v r st') as Hgen.
  { intros st' Hg. apply (gentle_safe _ L a v r (cat w)); [apply leased_mono|done..]. }
  destruct op; simpl in *.
  - unfold begin_write in Hs.
    destruct (resolve_pin_request _ _) as [p|e|]; [|by injection Hs as <-|done].
    pose proof (gentle_begin i o mode p now (cat w) Hc) as Hg.
    destruct (begin_write_resolved _ _ _ _ _ _) as [[]]; [..|done]; injection Hs as <-; by apply Hgen.
  - destruct (held_claims w !! k) as [c|]; [|by injection Hs as <-].
    pose proof (gentle_stage alive active_before active_after c content rs g (cat w) Hc) as Hg.
    destruct (stage_inner _ _ _ _ _ _ _ _) as [[]]; [..|done]; injection Hs as <-; by apply Hgen.
  - destruct (held_claims w !! k); injection Hs as <-; [apply Hgen, gentle_claim_drop|done].
  - pose proof (commit_safe _ L a v r alive alive_after tx c now (cat w) (leased_mono L)
      (fun x Hx => Hx) Hc Hsafe) as Hok.
    destruct (commit _ _ _ _ _ _) as [[]]; [..|done]; by injection Hs as <-.
  - pose proof (gentle_abort alive tx now (cat w)) as Hg.
    destruct (abort _ _ _ _) as [[]]; [..|done]; injection Hs as <-; by apply Hgen.
  - pose proof (gentle_get alive i now (cat w)) as Hg. rewrite (w_config _ _ Hw) in Hg.
    destruct (get _ _ _ _) as [[]]; [..|done]; injection Hs as <-; by apply Hgen, Hg.
  - destruct Hre as [-> Hnow].
    pose proof (remove_safe _ L now a v r (leased_mono L) (fun x => leased_now L now x Hnow)
      i (cat w) Hsafe) as Hok.
    destruct (remove_with_force _ _ _ _) as [[]]; [..|done]; by injection Hs as <-.
  - destruct (collect_step_inner _ _ _ _ _ _ _ _ _) as [[rep st']|] eqn:He; [|done].
    destruct Hre as [Hr Hnow]. injection Hs as <-.
    by apply (collect_safe _ L now a v alive r (leased_mono L) (fun x => leased_now L now x Hnow)
      Hnow Hr _ _ _ _ _ _ _ _ _ Hc He).
  - injection Hs as <-. apply Hgen, gentle_revoke.
  - injection Hs as <-. by apply Hgen, gentle_same.
  - injection Hs as <-. by apply Hgen, gentle_same.
  - by injection Hs as <-.
  - injection Hs as <-. by apply Hgen, gentle_same.
Qed.

Lemma lease_run_safe conf L a v r ops : ∀ w w',
  world_inv conf w → lease_refresh_ticks conf <= lease_ttl_ticks conf →
  Forall (respects L r) ops → env_run ops w → run ops w = Some w' →
  safe (leased_until L) L a v r (cat w) → safe (leased_until L) L a v r (cat w').
Proof.
  induction ops as [|op ops IH]; intros w w' Hw Hcf Hre Henv Hrun Hsafe; simpl in *;
    [by injection Hrun as <-|].
  apply Forall_cons in Hre as [Hop Hre]. destruct Henv as [Henv Hrest].
  destruct (cat_step op w) as [w1|] eqn:Hs; [|done]. simpl in Hrun.
  apply (IH w1 w'); try done; [by eapply world_inv_step|by apply Hrest|].
  by eapply lease_step_safe.
Qed.

Lemma config_refresh conf :
  config_validate conf = Ok tt → lease_refresh_ticks conf <= lease_ttl_ticks conf.
Proof.
  unfold config_validate. destruct (_ =? 0); [done|]. destruct (_ =? 0); [done|].
  destruct (N.ltb_spec (lease_ttl_ticks conf) (lease_refresh_ticks conf)); [done|]. done.
Qed.

Lemma reachable_config cid conf w : reachable cid conf w → config_validate conf = Ok tt.
Proof. by induction 1. Qed.

Lemma versions_set_access v x ver st :
  versions st !! v = Some ver →
  versions (update_version v (set_access x) st) !! v = Some (set_access x ver).
Proof. intros Hv. simpl. by rewrite lookup_alter_eq, Hv. Qed.

Lemma version_access_set x y (ver : ObjectVersion R) :
  version_access ver = Some x → version_access (set_access y ver) = Some y.
Proof. unfold version_access, set_access. simpl. by destruct (v_committed ver). Qed.

(** The state right after a read. *)
Lemma get_safe alive i now st rd st' ver r :
  inv st → get alive i now st = (Ok rd, st') →
  versions st !! read_version rd = Some ver → r ∈ replicas (v_replicas ver) →
  ∃ a, safe (leased_until (lease_expires_at rd)) (lease_expires_at rd) a (read_version rd) r st'.
Proof.
  intros Hc He Hv Hin. destruct (get_Ok _ _ _ _ _ _ Hc He) as (Hpub & ver' & x & Hv' & Hx & _ & Hrec).
  assert (ver' = ver) as -> by congruence. unfold record_access in Hrec. destruct Hrec as [Hl ->].
  apply published_Some in Hpub as (a & (s & Hs & _ & Hcm)%slot_pub_Some); [|done].
  exists a. left. split; [by exists s|].
  eexists _, _. split; [by eapply versions_set_access|].
  split; [by eapply version_access_set|]. split; [|done]. unfold leased_until. simpl. lia.
Qed.

(** A lease protects the bytes it was given for.  After a read returned a
    version with a lease until [L], no sequence of calls by anyone before [L]
    (reads, writes, replacements, aborts, revocations, unforced removals and
    collector runs, in any order) frees a replica of that version that stays
    alive. *)
Theorem lease_protects cid conf w alive i now rd w1 ver r ops w2 :
  reachable cid conf w →
  get alive i now (cat w) = (Ok rd, cat w1) → cat_step (OGet i alive now) w = Some w1 →
  versions (cat w) !! read_version rd = Some ver → r ∈ replicas (v_replicas ver) →
  Forall (respects (lease_expires_at rd) r) ops → env_run ops w1 → run ops w1 = Some w2 →
  ∃ ver', versions (cat w2) !! read_version rd = Some ver' ∧ r ∈ replicas (v_replicas ver').
Proof.
  intros Hr He Hs Hv Hin Hre Henv Hrun. pose proof (reachable_inv _ _ _ Hr) as Hw.
  destruct (get_safe _ _ _ _ _ _ ver r (w_inv _ _ Hw) He Hv Hin) as (a & Hsafe).
  pose proof (world_inv_step conf w (OGet i alive now) w1 Hw I Hs) as Hw1.
  assert (lease_refresh_ticks conf <= lease_ttl_ticks conf) as Hcf
    by (by eapply config_refresh, reachable_config).
  destruct (lease_run_safe _ _ _ _ _ _ _ _ Hw1 Hcf Hre Henv Hrun Hsafe)
    as [[_ (wer & x & Hwv & _ & _ & Hwin)]|[_ (wer & Hwv & Hwin)]]; by exists wer.
Qed.

(** ** Pins and leases keep a version published *)

Definition protects (now : N) (x : AccessControl) : Prop :=
  now < lease_until x ∨ hard_pinned x = true.

Lemma protects_mono now x x' : access_le x x' → protects now x → protects now x'.
Proof. unfold protects. intros [? ->] [?|?]; [left; lia|by right]. Qed.

Lemma protects_now now x : protects now x → is_leased now x = true ∨ hard_pinned x = true.
Proof. unfold protects, is_leased. intros [?|?]; [left; by apply N.ltb_lt|by right]. Qed.

(** A time after every entry of the retired queue. *)
Lemma late_time st now : ∃ L, now < L ∧ ∀ e, e ∈ retired st → ro_reclaim_after e < L.
Proof.
  induction (retired st) as [|e l (L & HL & Hl)].
  - exists (now + 1). split; [lia|]. intros e He. by apply elem_of_nil in He.
  - exists (N.max L (ro_reclaim_after e + 1)). split; [lia|].
    intros e' [->|He']%elem_of_cons; [lia|]. specialize (Hl e' He'). lia.
Qed.

(** A protected version is still published when it is safe for every [L]. *)
Lemma safe_points Q a v r now st :
  (∀ L, now < L → safe Q L a v r st) → points st a v.
Proof.
  intros Hs. destruct (late_time st now) as (L & HL & Hl).
  destruct (Hs L HL) as [[Hp _]|[(e & He & _ & Hle) _]]; [done|]. specialize (Hl e He). lia.
Qed.

Definition unforced (r : ReplicaLease R) (now : N) (op : cat_op) : Prop :=
  match op with
  | OCollect alive _ t _ _ _ _ => lease_is_live alive r = true ∧ t = now
  | ORemove _ t force => force = false ∧ t = now
  | _ => False
  end.

Lemma protected_step Q now L a v r w op w' :
  (∀ x x', access_le x x' → Q x → Q x') →
  (∀ x, Q x → is_leased now x = true ∨ hard_pinned x = true) → now < L →
  inv (cat w) → unforced r now op → cat_step op w = Some w' →
  safe Q L a v r (cat w) → safe Q L a v r (cat w').
Proof.
  intros HQ HQn HL Hc Hop Hs Hsafe. destruct op; try done; simpl in *.
  - destruct Hop as [-> ->]. pose proof (remove_safe Q L now a v r HQ HQn i (cat w) Hsafe) as Hok.
    destruct (remove_with_force _ _ _ _) as [[]]; [..|done]; by injection Hs as <-.
  - destruct Hop as [Hr ->].
    destruct (collect_step_inner _ _ _ _ _ _ _ _ _) as [[rep st']|] eqn:He; [|done].
    injection Hs as <-. by apply (collect_safe Q L now a v alive r HQ HQn HL Hr _ _ _ _ _ _ _ _ _ Hc He).
Qed.

(** C18: A leased or hard-pinned version with a live replica stays published: no
    collector run, under any budget, reclaim target or watermark, and no
    unforced removal of any key takes it out of the map. *)
Theorem protected_stays_published cid conf w op w' i v ver x r now :
  reachable cid conf w → cat_env op w → cat_step op w = Some w' →
  published (cat w) !! i = Some v → versions (cat w) !! v = Some ver →
  version_access ver = Some x → protects now x → r ∈ replicas (v_replicas ver) →
  unforced r now op →
  published (cat w') !! i = Some v.
Proof.
  intros Hr Henv Hs Hpub Hv Hx Hprot Hin Hop. pose proof (reachable_inv _ _ _ Hr) as Hw.
  pose proof (w_inv _ _ Hw) as Hc. pose proof (cat_step_inv _ _ _ _ Hw Henv Hs) as Hc'.
  apply published_Some in Hpub as (a & (s & Hsl & Hid & Hcm)%slot_pub_Some); [|done].
  assert (points (cat w') a v) as (s' & Hs' & Hcm').
  { apply (safe_points (protects now) a v r now). intros L HL.
    apply (protected_step _ now L a v r w op w' (protects_mono now) (protects_now now)); try done.
    left. split; [by exists s|]. by exists ver, x. }
  apply published_Some; [done|]. exists a. apply slot_pub_Some. exists s'. split_and!; try done.
  pose proof (proj2 (cat_step_slots _ _ _ Hc Hs) a) as Hl. rewrite Hsl, Hs' in Hl. rewrite <- Hid.
  eapply slot_identity_stays, Hl. destruct op; labels.
Qed.
End Protect.
