(* ===== verification/CatalogLife.v ===== *)
(** * From commit to reclamation

    Round trips of the write path, the ownership of every version, and the
    reclamation of what is no longer referenced. *)
From stdpp Require Import relations.
From S2P Require Import Prelude Identity Segment TenantQuota Replica ObjectTypes CatalogState.
From S2P Require Import CatalogWrite CatalogCollector CatalogInv CatalogOps CatalogSteps.
From S2P Require Import CatalogGuard CatalogSlots CatalogWorld CatalogProps CatalogProtect.

Section Life.
Context {R : Type} `{Resource R}.
Implicit Types (st : Catalog R) (ver : ObjectVersion R) (w : @CatWorld R).

(** ** Claims *)

Lemma stage_result_claimed alive b1 b2 c ct rs g st :
  claim_ok st c →
  (stage_inner alive b1 b2 c ct rs g st).1 =
    if negb b1 then Err OwnerInactive
    else if logical_bytes ct =? 0 then Err ZeroSize
    else match validate_stage_replicas alive rs (logical_bytes ct) with
    | Ok _ =>
        if b2 then Ok (mkTx (Some (catalog_id st)) (wc_slot c) (next_addr st) (wc_id c))
        else Err OwnerInactive
    | Err e => Err e
    | Panic => Panic
    end.
Proof.
  intros (s & t & Hs & Ha & Hp & Hid & Ho & _). unfold stage_inner.
  destruct b1; simpl; [|done]. destruct (_ =? 0); [done|].
  destruct (validate_stage_replicas _ _ _); [|done..].
  rewrite Hs, Ha, Hid, Ho, Hp, N.eqb_refl, bool_decide_true by done. simpl. by destruct b2.
Qed.

(** Staging a held claim fails only for the reasons the caller gives it: an
    inactive owner, an empty object, or unfit replicas.  The claim itself is
    never lost to another writer, to the collector or to a revocation, and a
    success names the claim's slot and a fresh version. *)
Theorem stage_result cid conf w k c alive b1 b2 ct rs g :
  reachable cid conf w → held_claims w !! k = Some c →
  (stage_inner alive b1 b2 c ct rs g (cat w)).1 =
    if negb b1 then Err OwnerInactive
    else if logical_bytes ct =? 0 then Err ZeroSize
    else match validate_stage_replicas alive rs (logical_bytes ct) with
    | Ok _ =>
        if b2
        then Ok (mkTx (Some (catalog_id (cat w))) (wc_slot c) (next_addr (cat w)) (wc_id c))
        else Err OwnerInactive
    | Err e => Err e
    | Panic => Panic
    end.
Proof.
  intros Hr Hk. apply stage_result_claimed.
  by eapply (w_claims _ _ (reachable_inv _ _ _ Hr)), list_elem_of_lookup_2.
Qed.

(** A call that fails changes nothing: an error of begin, commit, abort or
    remove leaves the catalog exactly as it was. *)
Theorem failed_calls_change_nothing st :
  (∀ i o mode pins now e st', begin_write i o mode pins now st = (Err e, st') → st' = st) ∧
  (∀ alive alive' tx c now e st', commit alive alive' tx c now st = (Err e, st') → st' = st) ∧
  (∀ alive tx now e st', abort alive tx now st = (Err e, st') → st' = st) ∧
  (∀ i now force e st', remove_with_force i now force st = (Err e, st') → st' = st).
Proof.
  split_and!; intros *; [apply begin_Err|apply commit_Err|apply abort_Err|apply remove_Err].
Qed.

(** ** Commit *)

Lemma charge_step_version f u st v ver :
  versions st !! v = Some ver →
  ∃ ver', versions (charge_step f u st) !! v = Some ver' ∧ origin ver' = origin ver ∧
    v_committed ver' = v_committed ver ∧ v_content ver' = v_content ver.
Proof.
  intros Hv. unfold charge_step. destruct (versions st !! u); [|by exists ver].
  destruct (tenant_accounting _) as [[c b]|]; [|by exists ver].
  destruct (accounts st !! _); [|by exists ver]. destruct (f _ _ _) as [ph a']. simpl.
  destruct (decide (u = v)) as [->|Hne].
  - eexists. by rewrite lookup_alter_eq, Hv.
  - exists ver. by rewrite lookup_alter_ne.
Qed.

Lemma commit_publish_version alive b t p ver base cv nv st :
  versions st !! p = Some ver →
  ∃ ver', versions (commit_publish alive b t p ver base cv nv st) !! p = Some ver' ∧
    origin ver' = origin ver ∧ v_committed ver' = Some cv ∧ v_content ver' = v_content ver.
Proof.
  intros Hv. unfold commit_publish. cbv zeta. set (st1 := commit_accounting _ _).
  assert (∃ ver', versions st1 !! p = Some ver' ∧ origin ver' = origin ver ∧
            v_committed ver' = Some cv ∧ v_content ver' = v_content ver)
    as (ver1 & Hv1 & Ho1 & Hc1 & Hct1).
  { destruct (charge_step_version (fun _ bytes a => charge_commit bytes a) p
      (update_version p (set_commit (Some cv)) st) p (set_commit (Some cv) ver)) as (ver' & ? & ? & ? & ?);
      [simpl; by rewrite lookup_alter_eq, Hv|]. by exists ver'. }
  clearbody st1.
  match goal with |- context [if _ then ?s else request_liveness ?s] => set (st6 := s) end.
  assert (∃ ver', versions st6 !! p = Some ver' ∧ origin ver' = origin ver ∧
            v_committed ver' = Some cv ∧ v_content ver' = v_content ver) as Hst6;
    [|by destruct (all_live _ _)].
  unfold st6. set (st5 := match soft_pin_deadline _ with Some _ => _ | None => _ end).
  assert (versions st5 = versions st1) as H5 by (unfold st5; by destruct (soft_pin_deadline _)).
  clearbody st5. rewrite <- H5 in Hv1. clear H5.
  destruct (at_base t) as [b'|], base as [old|]; try by exists ver1.
  destruct (charge_step_version (fun _ bytes a => charge_mark_retiring bytes a) b' st5 p ver1 Hv1)
    as (ver' & ? & ? & ? & ?). exists ver'. split; [done|]. split_and!; congruence.
Qed.

(** The published version of a successful commit. *)
Lemma commit_Ok_version alive alive' tx c now st v st' :
  inv st → commit alive alive' tx c now st = (Ok v, st') →
  ∃ ver cv, versions st' !! v = Some ver ∧ origin ver = tx_id tx ∧
    v_committed ver = Some cv ∧ cv_commit cv = c.
Proof.
  intros Hc. unfold commit. destruct (tx_catalog tx); [|done]. destruct (negb _); [done|].
  destruct (slots st !! tx_slot tx) as [s|] eqn:Hs; [|done]. destruct (active s) as [t|] eqn:Ha.
  - destruct (N.eqb_spec (at_id t) (tx_id tx)) as [Hid|]; simpl; [|done].
    destruct (at_phase t) as [|p] eqn:Hp; [done|]. destruct (negb _); [done|].
    destruct (versions st !! p) as [ver|] eqn:Hv; [|done].
    destruct (negb _); [done|]. destruct (negb _); [done|].
    destruct (inv_staged st _ s t p Hc Hs Ha Hp) as (ver' & Hv' & _ & Hvc & _ & Hor & _).
    assert (ver' = ver) as -> by congruence. rewrite Hvc. intros He.
    assert (∃ base cv nv, cv_commit cv = c ∧ (Ok v, st') = (Ok (E := CommitError) p,
      commit_publish alive' (tx_slot tx) t p ver base cv nv st))
      as (base & cv & nv & Hcv & [= -> ->]).
    { destruct (at_base t ≫= _) as [old|]; simpl in He; [destruct (version_access old)|];
        destruct (checked_add (next_version_id s) 1); try done; eexists _, _, _;
        (split; [|exact (eq_sym He)]); done. }
    destruct (commit_publish_version alive' (tx_slot tx) t p ver base cv nv st Hv)
      as (ver' & ? & ? & ? & _). exists ver', cv. split_and!; congruence.
  - destruct (committed s) as [u|]; [|done]. destruct (versions st !! u) as [ver|] eqn:Hv; [|done].
    destruct (N.eqb_spec (origin ver) (tx_id tx)) as [Ho|]; simpl; [|done].
    destruct (v_committed ver) as [cv|] eqn:Hcv; [|done].
    case_bool_decide; [|done]. intros [= <- <-]. by exists ver, cv.
Qed.

Lemma charge_step_catalog f u st : catalog_id (charge_step f u st) = catalog_id st.
Proof.
  unfold charge_step. destruct (versions st !! u); [|done].
  destruct (tenant_accounting _) as [[c b]|]; [|done].
  destruct (accounts st !! _); [|done]. by destruct (f _ _ _).
Qed.

Lemma commit_publish_catalog alive b t p ver base cv nv st :
  catalog_id (commit_publish alive b t p ver base cv nv st) = catalog_id st.
Proof.
  unfold commit_publish. cbv zeta. set (st1 := commit_accounting _ _).
  assert (catalog_id st1 = catalog_id st) as H1 by (unfold st1, commit_accounting; by rewrite charge_step_catalog).
  clearbody st1. rewrite <- H1. clear H1.
  match goal with |- context [if _ then ?s else request_liveness ?s] => set (st6 := s) end.
  transitivity (catalog_id st6); [by destruct (all_live _ _)|]. unfold st6.
  set (st5 := match soft_pin_deadline _ with Some _ => _ | None => _ end).
  transitivity (catalog_id st5); [|unfold st5; by destruct (soft_pin_deadline _)].
  destruct (at_base t), base; try done. apply charge_step_catalog.
Qed.

Lemma commit_Ok_catalog alive alive' tx c now st v st' :
  commit alive alive' tx c now st = (Ok v, st') → tx_catalog tx = Some (catalog_id st').
Proof.
  unfold commit. destruct (tx_catalog tx) as [k|]; [|done].
  destruct (N.eqb_spec k (catalog_id st)) as [->|]; simpl; [|done].
  intros He. f_equal. symmetry. revert He.
  repeat case_match; intros [= <- <-]; try done; apply commit_publish_catalog.
Qed.

(** Repeating a committed transaction. *)
Lemma commit_again alive alive' tx c c' now st s v ver cv :
  tx_catalog tx = Some (catalog_id st) → slots st !! tx_slot tx = Some s → active s = None →
  committed s = Some v → versions st !! v = Some ver → origin ver = tx_id tx →
  v_committed ver = Some cv → cv_commit cv = c →
  commit alive alive' tx c' now st =
    (if bool_decide (c = c') then Ok v else Err CommitConflict, st).
Proof.
  intros Hk Hs Ha Hcm Hv Ho Hcv Hcc. unfold commit.
  rewrite Hk, N.eqb_refl, Hs, Ha, Hcm, Hv, Ho, N.eqb_refl, Hcv, Hcc. simpl.
  by case_bool_decide.
Qed.

(** The slot after a successful commit. *)
Lemma commit_Ok_slot alive alive' tx c now st v st' :
  inv st → commit alive alive' tx c now st = (Ok v, st') →
  ∃ s, slots st' !! tx_slot tx = Some s ∧ active s = None ∧ committed s = Some v.
Proof.
  intros Hc He. destruct (commit_Ok _ _ _ _ _ _ _ _ Hc He)
    as (s & Hs & [(? & ? & ->)|(_ & t & nv & _ & _ & _ & ->)]); [by exists s|].
  eexists. by rewrite lookup_alter_eq, Hs.
Qed.

(** A commit is durable and idempotent.  Once a commit returned a version,
    a lookup of its key returns that version while one of its replicas lives, a
    repeated commit with the same contents returns it again, and one with other
    contents is refused as a conflict; neither changes the catalog. *)
Theorem commit_round_trip cid conf w tx alive alive' c now v w' :
  reachable cid conf w → cat_step (OCommit tx alive alive' c now) w = Some w' →
  commit alive alive' tx c now (cat w) = (Ok v, cat w') →
  ∃ s ver, slots (cat w') !! tx_slot tx = Some s ∧ versions (cat w') !! v = Some ver ∧
    (∀ alive2 alive2' c' now2, commit alive2 alive2' tx c' now2 (cat w') =
       (if bool_decide (c = c') then Ok v else Err CommitConflict, cat w')) ∧
    (∀ alive2 now2, has_live alive2 (v_replicas ver) = true →
       ∃ l, (get alive2 (s_identity s) now2 (cat w')).1 = Ok (mkRead v l)).
Proof.
  intros Hr Hs He. pose proof (reachable_inv _ _ _ Hr) as Hw. pose proof (w_inv _ _ Hw) as Hc.
  pose proof (cat_step_inv conf w (OCommit tx alive alive' c now) w' Hw I Hs) as Hc'.
  destruct (commit_Ok_slot _ _ _ _ _ _ _ _ Hc He) as (s & Hsl & Ha & Hcm).
  destruct (commit_Ok_version _ _ _ _ _ _ _ _ Hc He) as (ver & cv & Hv & Ho & Hcv & Hcc).
  exists s, ver. split; [done|]. split; [done|]. split.
  - intros *. eapply commit_again; try done. by eapply commit_Ok_catalog.
  - intros alive2 now2 Hl. unfold get, lookup_slot.
    rewrite (proj2 (inv_index (cat w') (s_identity s) (tx_slot tx) Hc')) by (by exists s).
    rewrite Hsl, Hcm, Hv. unfold version_access. rewrite Hcv. simpl. rewrite Hl. by eexists.
Qed.

(** ** Ownership and reclamation *)

Lemma slot_refers_spec v s :
  slot_refers v s = true ↔
  committed s = Some v ∨ (∃ t, active s = Some t ∧ (at_base t = Some v ∨ at_phase t = Staged v)).
Proof.
  assert (∀ o : option N, match o with Some b => b =? v | None => false end = true ↔ o = Some v)
    as Ho by (intros [b|]; [rewrite N.eqb_eq|]; split; congruence).
  unfold slot_refers, committed_points_to. rewrite orb_true_iff, Ho.
  destruct (active s) as [t|].
  - rewrite orb_true_iff, Ho.
    assert (match at_phase t with Staged p => p =? v | Claimed => false end = true ↔
            at_phase t = Staged v) as -> by
      (destruct (at_phase t); [|rewrite N.eqb_eq]; split; congruence).
    split; [intros [?|?]; [by left|right; by exists t]|].
    intros [?|(t' & [= <-] & ?)]; [by left|by right].
  - split; [intros [?|?]; [by left|done]|intros [?|(t & ? & _)]; [by left|done]].
Qed.

(** A slot refers to a version only as its published or staged one. *)
Lemma refers_inv st a s v :
  inv st → slots st !! a = Some s → slot_refers v s = true →
  ∃ ver, versions st !! v = Some ver ∧ v_identity ver = s_identity s ∧ v ∉ retired_addrs st.
Proof.
  intros Hc Hs Hr.
  assert (committed s = Some v ∨ ∃ t, active s = Some t ∧ at_phase t = Staged v)
    as [Hcm|(t & Ha & Hp)].
  { apply slot_refers_spec in Hr as [?|(t & Ha & [Hb|Hp])]; [by left| |right; by exists t].
    left. destruct (inv_base st a s t Hc Hs Ha). congruence. }
  - destruct (inv_committed st a s v Hc Hs Hcm) as (ver & ? & ? & _ & ? & _). by exists ver.
  - destruct (inv_staged st a s t v Hc Hs Ha Hp) as (ver & ? & ? & _ & ? & _). by exists ver.
Qed.

Lemma owned_refers st v ver :
  inv st → versions st !! v = Some ver → v ∉ retired_addrs st →
  ∃ a s, slots st !! a = Some s ∧ s_identity s = v_identity ver ∧ slot_refers v s = true.
Proof.
  intros Hc Hv Hn. destruct (vo_owned _ _ _ (inv_version st v ver Hc Hv) Hn)
    as (a & s & Hs & Hid & Hcase). exists a, s. split; [done|]. split; [done|].
  apply slot_refers_spec. simpl in Hcase. destruct (v_committed ver); simpl in Hcase; [by left|].
  destruct Hcase as (t & Ha & Hp). right. exists t. auto.
Qed.

(** C13: Every version of a reachable catalog has exactly one owner.  It is on
    the retired queue, exactly once, and no slot refers to it; or it is not on
    the queue, and the slot of its own key, and no other, refers to it.  So
    nothing is leaked and nothing is retired twice. *)
Theorem version_ownership cid conf w v ver :
  reachable cid conf w → versions (cat w) !! v = Some ver →
  NoDup (retired_addrs (cat w)) ∧
  ((v ∈ retired_addrs (cat w) ∧
    ∀ a s, slots (cat w) !! a = Some s → slot_refers v s = false) ∨
   (v ∉ retired_addrs (cat w) ∧
    ∃ a s, slots (cat w) !! a = Some s ∧ s_identity s = v_identity ver ∧
      slot_refers v s = true ∧
      ∀ a' s', slots (cat w) !! a' = Some s' → slot_refers v s' = true → a' = a)).
Proof.
  intros Hr Hv. pose proof (w_inv _ _ (reachable_inv _ _ _ Hr)) as Hc.
  split; [apply (q_retired_nodup _ (c_queues _ Hc))|].
  destruct (decide (v ∈ retired_addrs (cat w))) as [Hin|Hn]; [left|right].
  - split; [done|]. intros a s Hs. apply not_true_is_false. intros Href.
    by destruct (refers_inv _ _ _ _ Hc Hs Href) as (? & _ & _ & ?).
  - split; [done|]. destruct (owned_refers _ _ _ Hc Hv Hn) as (a & s & Hs & Hid & Href).
    exists a, s. split_and!; try done. intros a' s' Hs' Href'.
    destruct (refers_inv _ _ _ _ Hc Hs' Href') as (ver' & Hv' & Hid' & _).
    apply (slot_unique (erase (cat w)) a' a s' s Hc); [done..|]. congruence.
Qed.

(** A due entry of an unreferenced version is reclaimed. *)
Lemma reclaim_one_done held now e q rep res0 st :
  inv st → retired st = e :: q → ro_reclaim_after e <= now → held (ro_version e) = false →
  retired (reclaim_one held now e rep res0 (set_retired q st)).2 = q.
Proof.
  intros Hc Hq Hdue Hh. unfold reclaim_one.
  destruct (N.ltb_spec now (ro_reclaim_after e)); [lia|].
  assert (try_unwrap held (ro_version e) (set_retired q st) = true) as ->.
  { unfold try_unwrap. rewrite Hh. simpl. apply andb_true_iff. split.
    - apply forallb_forall. intros s Hs%list_elem_of_In. apply negb_true_iff, not_true_is_false.
      apply list_elem_of_fmap in Hs as ([a s'] & -> & Has%elem_of_map_to_list). intros Href.
      destruct (refers_inv st a _ _ Hc Has Href) as (_ & _ & _ & Hn). apply Hn.
      unfold retired_addrs. rewrite Hq. by left.
    - apply forallb_forall. intros e' He'%list_elem_of_In. apply negb_true_iff, N.eqb_neq.
      pose proof (q_retired_nodup _ (c_queues _ Hc)) as Hnd. unfold retired_addrs in Hnd.
      simpl in Hnd. rewrite Hq in Hnd. apply NoDup_cons in Hnd as [Hnd _]. intros Heq. apply Hnd.
      rewrite <- Heq. by apply list_elem_of_fmap_2. }
  simpl. destruct (q_retired _ (c_queues _ Hc) e) as (ver & Hv & _); [simpl; rewrite Hq; by left|].
  rewrite erase_lookup in Hv. apply fmap_Some in Hv as (ver0 & Hv & _). rewrite Hv. simpl.
  apply (charge_step_fields _ (ro_version e) (set_retired q st)).
Qed.

Lemma reclaim_loop_done held now n : ∀ k rep res0 st,
  inv st → (length (retired st) <= n)%nat →
  (∀ e, e ∈ retired st → ro_reclaim_after e <= now ∧ held (ro_version e) = false) →
  retired (reclaim_loop n held now k rep res0 st).2 = [].
Proof.
  induction n as [|n IH]; intros k rep res0 st Hc Hn Hdue; simpl.
  { destruct (retired st); [done|]. simpl in Hn. lia. }
  destruct (retired st) as [|e q] eqn:Hq; [done|].
  destruct (Hdue e) as [Hd Hh]; [by left|].
  pose proof (reclaim_one_inv held now e q rep res0 st Hc Hq) as Hc'.
  pose proof (reclaim_one_done held now e q rep res0 st Hc Hq Hd Hh) as Hq'.
  destruct (reclaim_one _ _ _ _ _ _) as [[rep1 res1] st1]. simpl in Hc', Hq'.
  apply IH; [done|rewrite Hq'; simpl in Hn; lia|]. rewrite Hq'. intros e' He'. apply Hdue. by right.
Qed.

(** C37: Retired versions are reclaimed.  Once their leases are over and no
    caller holds them, one reclamation with a large enough budget empties the
    retired queue and brings the retired bytes to zero. *)
Theorem reclaim_drains cid conf w held now budget rep :
  reachable cid conf w →
  (∀ e, e ∈ retired (cat w) → ro_reclaim_after e <= now ∧ held (ro_version e) = false) →
  (length (retired (cat w)) <= max_reclaims budget)%nat →
  let st' := (reclaim held now budget rep (cat w)).2 in
  retired st' = [] ∧ st_retired_bytes (stats st') = 0.
Proof.
  intros Hr Hdue Hb. pose proof (w_inv _ _ (reachable_inv _ _ _ Hr)) as Hc. simpl.
  pose proof (reclaim_inv held now budget rep (cat w) Hc) as Hc'.
  assert (retired (reclaim held now budget rep (cat w)).2 = []) as Hnil.
  { unfold reclaim. pose proof (reclaim_loop_done held now
      (Nat.min (length (retired (cat w))) (max_reclaims budget)) 0 rep [] (cat w) Hc) as Hl.
    destruct (reclaim_loop _ _ _ _ _ _ _) as [[[k rep1] res1] st1]. apply Hl; [lia|done]. }
  split; [done|]. destruct (c_counters _ Hc') as [_ _ _ _ _ _ N7 _ _]. simpl in N7 |- *.
  rewrite N7. apply msum_zero. intros v ver _. unfold bytes_in, role_of, retired_addrs. simpl.
  rewrite Hnil. simpl. by destruct (v_committed ver).
Qed.
End Life.
