(* ===== verification/CatalogWitness.v ===== *)
(** * Concrete runs of the catalog

    The theorems on reachable catalogs applied to a key that is claimed,
    staged, published, read and removed. *)
From stdpp Require Import relations.
From S2P Require Import Prelude Identity Segment TenantQuota Replica ObjectTypes CatalogState.
From S2P Require Import CatalogWrite CatalogCollector CatalogInv CatalogOps CatalogSteps.
From S2P Require Import CatalogGuard CatalogSlots CatalogWorld CatalogProps CatalogProtect.
From S2P Require Import CatalogLife.

Definition example_commit : @cat_op (N * N) :=
  OCommit example_tx (fun _ => true) (fun _ => true) (mkCommit (Some 3)) 6.
Definition example_collect : @cat_op (N * N) :=
  OCollect (fun _ => true) false 100 CollectBudget_default [] true (fun _ => 64).
Definition removed_world : @CatWorld (N * N) :=
  step_or (ORemove example_key 7 false) published_world.
Definition read_world : @CatWorld (N * N) :=
  step_or (OGet example_key (fun _ => true) 10) published_world.
Definition collected_world : @CatWorld (N * N) := step_or example_collect read_world.
Definition example_version : ObjectVersion (N * N) :=
  default (staged_version (mkClaim 0 example_key 1 example_owner 5) (mkContent 40 KvCache)
             (One example_replica) None) (versions (cat read_world) !! 1).

Lemma removed_reachable : reachable 7 example_config removed_world.
Proof.
  apply (reach_step _ _ published_world (ORemove example_key 7 false));
    [apply published_reachable|done|by vm_compute].
Qed.

Lemma read_reachable : reachable 7 example_config read_world.
Proof.
  apply (reach_step _ _ published_world (OGet example_key (fun _ => true) 10));
    [apply published_reachable|done|by vm_compute].
Qed.

Lemma catalog_refines_map_witness :
  map_spec example_commit staged_world (published (cat staged_world))
    (published (cat published_world)) ∧
  published (cat published_world) = {[ example_key := 1 ]}.
Proof.
  split; [|by vm_compute].
  apply (catalog_refines_map 7 example_config staged_world example_commit published_world);
    [apply staged_reachable|done|by vm_compute].
Defined.

Lemma slot_machine_witness :
  rtc (slot_moves (op_allows example_commit staged_world) 0) (slots (cat staged_world) !! 0)
    (slots (cat published_world) !! 0) ∧
  slots (cat staged_world) !! 0 ≠ slots (cat published_world) !! 0.
Proof.
  split; [|by vm_compute].
  apply (slot_machine 7 example_config staged_world example_commit published_world 0);
    [apply staged_reachable|by vm_compute].
Defined.

Lemma example_ids_left : ids_left (cat staged_world).
Proof.
  assert (map_Forall (fun _ s => next_transaction_id s < U64_MAX ∧ next_version_id s < U64_MAX)
            (slots (cat staged_world))) as Hall by (apply (bool_decide_eq_true_1 _); by vm_compute).
  exact Hall.
Qed.

Lemma catalog_no_panic_witness : is_Some (cat_step example_commit staged_world).
Proof.
  apply (catalog_no_panic 7 example_config staged_world example_commit);
    [apply staged_reachable|apply example_ids_left].
Defined.

Lemma stats_exact_witness :
  st_published_objects (stats (cat published_world)) = 1 ∧
  st_live_bytes (stats (cat published_world)) =
    msum (bytes_in RLive (retired_addrs (cat published_world))) (versions (cat published_world)).
Proof.
  split; [by vm_compute|].
  apply (stats_exact 7 example_config published_world published_reachable).
Defined.

Lemma lease_protects_witness :
  ∃ w2 ver',
    run [example_collect; ORemove example_key 50 false] read_world = Some w2 ∧
    versions (cat w2) !! 1 = Some ver' ∧ example_replica ∈ replicas (v_replicas ver').
Proof.
  set (ops := [example_collect; ORemove example_key 50 false]).
  set (w2 := default read_world (run ops read_world)).
  destruct (lease_protects 7 example_config published_world (fun _ => true) example_key 10
    (mkRead 1 10010) read_world (default example_version (versions (cat published_world) !! 1))
    example_replica ops w2) as (ver' & Hv & Hin);
    [apply published_reachable|by vm_compute|by vm_compute|by vm_compute
    |apply list_elem_of_singleton; by vm_compute|by repeat constructor| |by vm_compute|].
  - split; [done|]. intros w' _. split; [done|]. by intros w'' _.
  - exists w2, ver'. split; [by vm_compute|]. by split.
Defined.

Lemma protected_stays_published_witness :
  published (cat collected_world) !! example_key = Some 1.
Proof.
  apply (protected_stays_published 7 example_config read_world example_collect collected_world
    example_key 1 example_version (mkAccess 10010 true 0 false) example_replica 100);
    [apply read_reachable|done|by vm_compute|by vm_compute|by vm_compute|by vm_compute
    |by left|apply list_elem_of_singleton; by vm_compute|done].
Defined.

Lemma stage_result_witness :
  (stage_inner (fun _ => true) true true (mkClaim 0 example_key 1 example_owner 5)
     (mkContent 40 KvCache) (One example_replica) None (cat claimed_world)).1 = Ok example_tx.
Proof.
  rewrite (stage_result 7 example_config claimed_world 0);
    [by vm_compute|apply claimed_reachable|by vm_compute].
Defined.

Lemma commit_round_trip_witness :
  ∃ s ver, slots (cat published_world) !! 0 = Some s ∧
    versions (cat published_world) !! 1 = Some ver ∧
    commit (fun _ => true) (fun _ => true) example_tx (mkCommit None) 9 (cat published_world) =
      (Err CommitConflict, cat published_world).
Proof.
  destruct (commit_round_trip 7 example_config staged_world example_tx (fun _ => true)
    (fun _ => true) (mkCommit (Some 3)) 6 1 published_world) as (s & ver & Hs & Hv & Hagain & _);
    [apply staged_reachable|by vm_compute|by vm_compute|].
  exists s, ver. split; [done|]. split; [done|]. by rewrite Hagain.
Defined.

Lemma version_ownership_witness :
  NoDup (retired_addrs (cat read_world)) ∧ (1 ∈ retired_addrs (cat read_world) → False).
Proof.
  destruct (version_ownership 7 example_config read_world 1 example_version) as [Hnd [[Hin _]|[Hn _]]];
    [apply read_reachable|by vm_compute| |by split].
  exfalso. revert Hin. apply (bool_decide_eq_false_1 (1 ∈ retired_addrs (cat read_world))).
  by vm_compute.
Defined.

Lemma reclaim_drains_witness :
  st_retired_bytes (stats (cat removed_world)) = 64 ∧
  retired (reclaim (fun _ => false) 7 CollectBudget_default report_default (cat removed_world)).2 = [].
Proof.
  split; [by vm_compute|].
  apply (reclaim_drains 7 example_config removed_world (fun _ => false) 7 CollectBudget_default
    report_default); [apply removed_reachable| |apply Nat.leb_le; by vm_compute].
  assert (retired (cat removed_world) = [mkRetired 1 64 7]) as -> by (by vm_compute).
  intros e ->%list_elem_of_singleton. done.
Defined.
