(* ===== verification/CatalogResources.v ===== *)
(** * Conservation of reservations

    Every reservation that enters the catalog with a staged write is either in
    the replica set of exactly one version or has been handed back, at any time
    and through every operation. *)
From S2P Require Import Prelude Identity Segment TenantQuota Replica ObjectTypes CatalogState.
From S2P Require Import CatalogWrite CatalogCollector CatalogInv CatalogOps CatalogSteps CatalogGuard CatalogSlots CatalogWorld CatalogProps CatalogProtect.

Section Resources.
Context {R : Type} `{Resource R}.
Implicit Types (st : Catalog R) (ver : ObjectVersion R).

Definition res_of (s : ReplicaSet R) : list R := map lease_reservation (replicas s).

(** The reservations in a heap of replica sets. *)
Definition stored (m : gmap N (ReplicaSet R)) : list R := concat (map res_of (map_to_list m).*2).

Definition reps st : gmap N (ReplicaSet R) := v_replicas <$> versions st.

(** What an operation can change of the reservations. *)
Definition sig st : gmap N (ReplicaSet R) * list (Handback R) := (reps st, freed st).

Definition batch_of (h : Handback R) : list R :=
  match h with ReleaseBatch l | DropReplicas l => l end.

(** The reservations of a sequence of hand-backs. *)
Definition handed (hs : list (Handback R)) : list R := concat (map batch_of hs).

(** From [st] to [st'] the reservations [extra] came in, some were handed back,
    and the others are where they were. *)
Definition conserves st (extra : list R) st' : Prop :=
  ∃ new, freed st' = freed st ++ new ∧
    stored (reps st') ++ handed new ≡ₚ stored (reps st) ++ extra.

Lemma handed_app a b : handed (a ++ b) = handed a ++ handed b.
Proof. unfold handed. by rewrite map_app, concat_app. Qed.

Lemma conserves_sig st st' : sig st' = sig st → conserves st [] st'.
Proof. intros [= Hr Hf]. exists []. rewrite Hr, Hf. by rewrite !app_nil_r. Qed.

Lemma conserves_trans st1 a st2 b st3 :
  conserves st1 a st2 → conserves st2 b st3 → conserves st1 (a ++ b) st3.
Proof.
  intros (n1 & F1 & P1) (n2 & F2 & P2). exists (n1 ++ n2).
  split; [by rewrite F2, F1, app_assoc|]. rewrite handed_app, (app_assoc _ a b), <- P1.
  rewrite <- (app_assoc _ _ b), (Permutation_app_comm (handed n1) b), (app_assoc _ b), <- P2.
  by rewrite <- !app_assoc, (Permutation_app_comm (handed n1)).
Qed.

Lemma conserves_step st1 st2 b st3 :
  conserves st1 [] st2 → conserves st2 b st3 → conserves st1 b st3.
Proof. apply (conserves_trans st1 [] st2 b st3). Qed.

Lemma stored_insert m p s : m !! p = None → stored (<[p := s]> m) ≡ₚ res_of s ++ stored m.
Proof.
  intros Hp. unfold stored. rewrite (map_to_list_insert m p s Hp). done.
Qed.

Lemma stored_delete m p s : m !! p = Some s → stored m ≡ₚ res_of s ++ stored (delete p m).
Proof. intros Hp. unfold stored. by rewrite <- (map_to_list_delete m p s Hp). Qed.

Lemma stored_replace m v s s1 x :
  m !! v = Some s → res_of s ≡ₚ res_of s1 ++ x → stored m ≡ₚ stored (<[v := s1]> m) ++ x.
Proof.
  intros Hv Hx. rewrite (stored_delete m v s Hv), <- (insert_delete_eq m v s1).
  rewrite (stored_insert _ v s1) by apply lookup_delete_eq.
  by rewrite Hx, <- !app_assoc, (Permutation_app_comm x).
Qed.

(** ** Operations that leave the reservations alone *)

Lemma reps_update v f st :
  (∀ ver, v_replicas (f ver) = v_replicas ver) → reps (update_version v f st) = reps st.
Proof.
  intros Hf. unfold reps, update_version. simpl. apply map_eq. intros i.
  rewrite !lookup_fmap. destruct (decide (i = v)) as [->|Hi].
  - rewrite lookup_alter_eq. destruct (versions st !! v); simpl; [by rewrite Hf|done].
  - by rewrite lookup_alter_ne.
Qed.

Lemma sig_update v f st :
  (∀ ver, v_replicas (f ver) = v_replicas ver) → sig (update_version v f st) = sig st.
Proof. intros Hf. unfold sig. by rewrite reps_update. Qed.

Lemma sig_set_access v x st : sig (update_version v (set_access x) st) = sig st.
Proof. by apply sig_update. Qed.
Lemma sig_set_commit v x st : sig (update_version v (set_commit x) st) = sig st.
Proof. by apply sig_update. Qed.
Lemma sig_set_accounting v x st : sig (update_version v (set_accounting x) st) = sig st.
Proof. by apply sig_update. Qed.

Lemma sig_set_slots q st : sig (set_slots q st) = sig st. Proof. done. Qed.
Lemma sig_set_index q st : sig (CatalogState.set_index q st) = sig st. Proof. done. Qed.
Lemma sig_set_slot_count q st : sig (set_slot_count q st) = sig st. Proof. done. Qed.
Lemma sig_set_next_addr q st : sig (set_next_addr q st) = sig st. Proof. done. Qed.
Lemma sig_set_young q st : sig (set_young q st) = sig st. Proof. done. Qed.
Lemma sig_set_protected q st : sig (set_protected q st) = sig st. Proof. done. Qed.
Lemma sig_set_soft_pins q st : sig (set_soft_pins q st) = sig st. Proof. done. Qed.
Lemma sig_set_pending q st : sig (set_pending q st) = sig st. Proof. done. Qed.
Lemma sig_set_retired q st : sig (set_retired q st) = sig st. Proof. done. Qed.
Lemma sig_set_empty q st : sig (set_empty_slots q st) = sig st. Proof. done. Qed.
Lemma sig_set_debt q st : sig (set_reclaim_debt q st) = sig st. Proof. done. Qed.
Lemma sig_set_liveness q st : sig (set_liveness q st) = sig st. Proof. done. Qed.
Lemma sig_set_accounts q st : sig (set_accounts q st) = sig st. Proof. done. Qed.
Lemma sig_count f st : sig (count f st) = sig st. Proof. done. Qed.
Lemma sig_update_slot a f st : sig (update_slot a f st) = sig st. Proof. done. Qed.
Lemma sig_enqueue_empty a i now st : sig (enqueue_empty a i now st) = sig st. Proof. done. Qed.
Lemma sig_push_retired v b t st : sig (push_retired v b t st) = sig st. Proof. done. Qed.
Lemma sig_push_young c st : sig (push_young c st) = sig st. Proof. done. Qed.
Lemma sig_push_soft_pin c st : sig (push_soft_pin c st) = sig st. Proof. done. Qed.
Lemma sig_request_liveness st : sig (request_liveness st) = sig st. Proof. done. Qed.
Lemma sig_debt_on_reclaim b st : sig (debt_on_reclaim b st) = sig st. Proof. done. Qed.
Lemma sig_request_reclaim b st : sig (request_reclaim b st) = sig st. Proof. done. Qed.

Lemma sig_charge_step f v st : sig (charge_step f v st) = sig st.
Proof.
  unfold charge_step. repeat case_match; try done. rewrite sig_set_accounts. by apply sig_update.
Qed.
Lemma sig_commit_accounting v st : sig (commit_accounting v st) = sig st.
Proof. apply sig_charge_step. Qed.
Lemma sig_abort_accounting v st : sig (abort_accounting v st) = sig st.
Proof. apply sig_charge_step. Qed.
Lemma sig_mark_retiring v st : sig (mark_accounting_retiring v st) = sig st.
Proof. apply sig_charge_step. Qed.
Lemma sig_release_accounting v st : sig (release_accounting v st) = sig st.
Proof. apply sig_charge_step. Qed.

Lemma sig_gen g q st : sig (set_gen_queue g q st) = sig st. Proof. by destruct g. Qed.
Lemma sig_push_gen g c st : sig (push_gen g c st) = sig st. Proof. apply sig_gen. Qed.
Lemma sig_gen_remaining g n st : sig (set_gen_remaining g n st) = sig st. Proof. done. Qed.
Lemma sig_guard_release g st : sig (guard_release g st) = sig st.
Proof. by destruct g as [[]|]. Qed.
Lemma sig_begin_if_requested st : sig (begin_if_requested st) = sig st.
Proof. unfold begin_if_requested. by case_match. Qed.
End Resources.

Create Rewrite HintDb sig.
#[export] Hint Rewrite @sig_set_access @sig_set_commit @sig_set_accounting @sig_set_slots
  @sig_set_index @sig_set_slot_count @sig_set_next_addr @sig_set_young @sig_set_protected
  @sig_set_soft_pins @sig_set_pending @sig_set_retired @sig_set_empty @sig_set_debt
  @sig_set_liveness @sig_set_accounts @sig_count @sig_update_slot @sig_enqueue_empty
  @sig_push_retired @sig_push_young @sig_push_soft_pin @sig_request_liveness
  @sig_debt_on_reclaim @sig_request_reclaim @sig_commit_accounting @sig_abort_accounting
  @sig_mark_retiring @sig_release_accounting @sig_gen @sig_push_gen @sig_gen_remaining
  @sig_guard_release @sig_begin_if_requested : sig.

Ltac sig_solve := repeat first [done | progress autorewrite with sig | case_match]; done.

Section Operations.
Context {R : Type} `{Resource R}.
Implicit Types (st : Catalog R) (ver : ObjectVersion R).

Lemma sig_retire_aborted v now st : sig (retire_aborted_pending v now st) = sig st.
Proof. unfold retire_aborted_pending. sig_solve. Qed.
Lemma sig_retire_published a i v now st : sig (retire_published a i v now st) = sig st.
Proof. unfold retire_published. sig_solve. Qed.
Lemma sig_after_transaction a s b now st : sig (after_transaction a s b now st) = sig st.
Proof. unfold after_transaction. sig_solve. Qed.
End Operations.

#[export] Hint Rewrite @sig_retire_aborted @sig_retire_published @sig_after_transaction : sig.

Section Operations2.
Context {R : Type} `{Resource R}.
Implicit Types (st : Catalog R) (ver : ObjectVersion R).

Lemma sig_claim_drop alive c st : sig (claim_drop alive c st) = sig st.
Proof. unfold claim_drop. sig_solve. Qed.
Lemma sig_abort_staged alive a s t p now st : sig (abort_staged alive a s t p now st) = sig st.
Proof. unfold abort_staged. sig_solve. Qed.
Lemma sig_abort_pending alive a id e now st : sig (abort_pending alive a id e now st).2 = sig st.
Proof.
  unfold abort_pending. repeat case_match; simpl; try done. apply sig_abort_staged.
Qed.

Lemma sig_abort alive tx now st : sig (abort alive tx now st).2 = sig st.
Proof. unfold abort. repeat case_match; simpl; try done. apply sig_abort_staged. Qed.

Lemma sig_begin i o mode pins now st : sig (begin_write_resolved i o mode pins now st).2 = sig st.
Proof. unfold begin_write_resolved. repeat case_match; simpl; done. Qed.

Lemma sig_begin_write i o mode pins now st : sig (begin_write i o mode pins now st).2 = sig st.
Proof. unfold begin_write. case_match; [apply sig_begin|done..]. Qed.

Lemma sig_commit_publish alive a t p ver base cv nx st :
  sig (commit_publish alive a t p ver base cv nx st) = sig st.
Proof. unfold commit_publish. sig_solve. Qed.

Lemma sig_commit alive alive' tx c now st : sig (commit alive alive' tx c now st).2 = sig st.
Proof.
  unfold commit. repeat case_match; simpl; try done; apply sig_commit_publish.
Qed.

Lemma sig_get alive i now st : sig (get alive i now st).2 = sig st.
Proof.
  unfold get. repeat case_match; simpl; try done; apply sig_set_access.
Qed.

Lemma sig_remove i now force st : sig (remove_with_force i now force st).2 = sig st.
Proof.
  unfold remove_with_force. repeat case_match; simpl; try done; by rewrite sig_retire_published.
Qed.

(** ** The collector *)

Lemma sig_soft_pin_step now c rep st rep' st' :
  soft_pin_step now c rep st = Some (rep', st') → sig st' = sig st.
Proof.
  unfold soft_pin_step. destruct (slots st !! _) as [s|]; [|by intros [= <- <-]].
  destruct (versions st !! _) as [ver|]; [|by intros [= <- <-]].
  destruct (negb _); [by intros [= <- <-]|]. destruct (now <? _); [by intros [= <- <-]|].
  destruct (version_access ver) as [x|]; [|done]. simpl. destruct (expire_soft_pin _ _ x).
  intros [= _ <-]. apply sig_set_access.
Qed.

Lemma sig_soft_pin_loop n now : ∀ rep st rep' st',
  soft_pin_loop n now rep st = Some (rep', st') → sig st' = sig st.
Proof.
  induction n as [|n IH]; intros rep st rep' st'; simpl; [by intros [= _ <-]|].
  destruct (soft_pins st) as [|c q]; [by intros [= _ <-]|].
  destruct (soft_pin_step now c rep (set_soft_pins q st)) as [[rep1 st1]|] eqn:Hs; [|done]. simpl.
  intros Hl%IH. rewrite Hl. by rewrite (sig_soft_pin_step _ _ _ _ _ _ Hs).
Qed.

Lemma sig_evict_candidate c g now rep st b rep' st' :
  evict_candidate c g now rep st = Some (b, rep', st') → sig st' = sig st.
Proof.
  unfold evict_candidate. destruct (slots st !! _) as [s|]; [|by intros [= _ _ <-]].
  destruct (versions st !! _) as [ver|]; [|by intros [= _ _ <-]].
  destruct (negb _); [by intros [= _ _ <-]|]. destruct (version_access ver) as [x|]; [|done]. simpl.
  destruct (pin_protects now st x); [intros [= _ _ <-]; apply sig_push_gen|].
  destruct (active s); [by intros [= _ _ <-]|].
  destruct (recent x); [intros [= _ _ <-]; sig_solve|].
  destruct (is_leased now x); intros [= _ _ <-]; sig_solve.
Qed.

Lemma sig_evict_loop n g now : ∀ rem rep st b rem' rep' st',
  evict_loop n g now rem rep st = Some (b, rem', rep', st') → sig st' = sig st.
Proof.
  induction n as [|n IH]; intros rem rep st b rem' rep' st'; simpl; [by intros [= _ _ _ <-]|].
  destruct (reclaim_target_is_covered st); [by intros [= _ _ _ <-]|].
  destruct (gen_queue g st) as [|c q]; [by intros [= _ _ _ <-]|].
  destruct (evict_candidate _ _ _ _ _) as [[[b1 rep1] st1]|] eqn:He; [|done]. simpl.
  intros ->%IH. by rewrite (sig_evict_candidate _ _ _ _ _ _ _ _ He), sig_gen.
Qed.

Lemma sig_evict now budget rep st rep' st' :
  evict now budget rep st = Some (rep', st') → sig st' = sig st.
Proof.
  unfold evict. destruct (evict_loop _ _ _ _ _ _) as [[[[b rem] rep1] st1]|] eqn:H1; [|done]. simpl.
  apply sig_evict_loop in H1. destruct b; [by intros [= _ <-]|].
  destruct (evict_loop _ _ _ rem _ _) as [[[[b2 rem2] rep2] st2]|] eqn:H2; [|done]. simpl.
  apply sig_evict_loop in H2. intros [= _ <-]. congruence.
Qed.

Lemma sig_scoped_loop n g now : ∀ sc debts rep st b sc' debts' rep' st',
  scoped_loop n g now sc debts rep st = Some (b, sc', debts', rep', st') → sig st' = sig st.
Proof.
  induction n as [|n IH]; intros sc debts rep st b sc' debts' rep' st'; simpl;
    [by intros [= _ _ _ _ <-]|].
  destruct (forallb _ debts); [by intros [= _ _ _ _ <-]|].
  destruct (gen_queue g st) as [|c q]; [by intros [= _ _ _ _ <-]|].
  destruct (classify_scoped_candidate _ _ _); [intros ->%IH; sig_solve..|].
  destruct (evict_candidate _ _ _ _ _) as [[[b1 rep1] st1]|] eqn:He; [|done]. simpl.
  apply sig_evict_candidate in He. rewrite sig_gen in He.
  destruct (0 <? _); intros ->%IH; done.
Qed.

Lemma sig_evict_scoped now budget targets rep st n rep' st' :
  evict_scoped now budget targets rep st = Some (n, rep', st') → sig st' = sig st.
Proof.
  unfold evict_scoped. destruct (_ =? 0)%nat; [by intros [= _ _ <-]|].
  destruct (map _ _) as [|d ds]; [by intros [= _ _ <-]|].
  destruct (scoped_loop _ _ _ _ _ _ _) as [[[[[b sc] ds1] rep1] st1]|] eqn:H1; [|done]. simpl.
  apply sig_scoped_loop in H1. destruct b; [by intros [= _ _ <-]|].
  destruct (scoped_loop _ _ _ sc _ _ _) as [[[[[b2 sc2] ds2] rep2] st2]|] eqn:H2; [|done]. simpl.
  apply sig_scoped_loop in H2. intros [= _ _ <-]. congruence.
Qed.

Lemma sig_expire_candidate alive now c rep st : sig (expire_candidate alive now c rep st).2 = sig st.
Proof.
  unfold expire_candidate. destruct (versions st !! _) as [ver|]; [|done].
  destruct (v_committed ver); [done|]. destruct (_ && _); [done|].
  pose proof (sig_abort_pending alive (pc_slot c) (pc_transaction c) (pc_pending c) now st) as Ha.
  by destruct (abort_pending _ _ _ _ _ _) as [d st1].
Qed.

Lemma sig_expire_loop n alive now : ∀ rep st, sig (expire_loop n alive now rep st).2 = sig st.
Proof.
  induction n as [|n IH]; intros rep st; simpl; [done|]. destruct (pending st) as [|c q]; [done|].
  pose proof (sig_expire_candidate alive now c rep (set_pending q st)) as He.
  destruct (expire_candidate _ _ _ _ _) as [rep1 st1]. by rewrite IH.
Qed.

Lemma sig_revoke_loop alive owners now l : ∀ n st, sig (revoke_loop alive owners now l n st).2 = sig st.
Proof.
  induction l as [|c l IH]; intros n st; simpl; [done|].
  destruct (pending_snapshot c st) as [o|]; [|apply IH].
  destruct (negb _); [by rewrite IH|].
  pose proof (sig_abort_pending alive (pc_slot c) (pc_transaction c) (pc_pending c) now st) as Ha.
  destruct (abort_pending _ _ _ _ _ _) as [d st1]. by rewrite IH.
Qed.

Lemma sig_revoke alive owners now st : sig (revoke_pending_owners alive owners now st).2 = sig st.
Proof.
  unfold revoke_pending_owners. destruct (filter _ owners); [done|]. by rewrite sig_revoke_loop.
Qed.

Lemma sig_clean_loop n now : ∀ rep st, sig (clean_loop n now rep st).2 = sig st.
Proof.
  induction n as [|n IH]; intros rep st; simpl; [done|]. destruct (empty_slots st) as [|c q]; [done|].
  assert (sig (clean_one now c rep (set_empty_slots q st)).2 = sig st) as Hc
    by (unfold clean_one; by repeat case_match).
  destruct (clean_one _ _ _ _) as [rep1 st1]. by rewrite IH.
Qed.
End Operations2.

(** ** Operations that move reservations *)

Section Moves.
Context {R : Type} `{Resource R}.
Implicit Types (st : Catalog R) (ver : ObjectVersion R).

Lemma split_live_perm alive (l : list (ReplicaLease R)) : ∀ lv sl,
  (split_live alive l lv sl).1 ++ (split_live alive l lv sl).2 ≡ₚ lv ++ sl ++ l.
Proof.
  induction l as [|r l IH]; intros lv sl; simpl; [by rewrite app_nil_r|].
  destruct (lease_is_live alive r); rewrite IH, <- !app_assoc; simpl.
  - by rewrite (Permutation_middle sl).
  - done.
Qed.

Lemma prune_res alive ver pr ver' :
  prune_invalidated alive ver = (pr, ver') →
  res_of (v_replicas ver) ≡ₚ
    res_of (v_replicas ver') ++ match pr with PruneMixed stale => res_of stale | _ => [] end.
Proof.
  unfold prune_invalidated. destruct (all_live alive _); [intros [= <- <-]; by rewrite app_nil_r|].
  unfold partition_by_liveness. destruct (_ =? 0)%nat; [intros [= <- <-]; by rewrite app_nil_r|].
  destruct (_ =? set_len _)%nat; [intros [= <- <-]; by rewrite app_nil_r|].
  pose proof (split_live_perm alive (replicas (v_replicas ver)) [] []) as Hp.
  destruct (split_live alive _ [] []) as [lv sl]. intros [= <- <-]. simpl in *. unfold res_of.
  rewrite !from_vec_new, !replicas_new, <- map_app. by rewrite Hp.
Qed.

Lemma reps_set_version v ver ver' st :
  versions st !! v = Some ver →
  reps (update_version v (fun _ => ver') st) = <[v := v_replicas ver']> (reps st).
Proof.
  intros Hv. unfold reps, update_version. simpl. rewrite <- fmap_insert. f_equal.
  apply map_eq. intros i. destruct (decide (i = v)) as [->|Hi].
  - by rewrite lookup_alter_eq, lookup_insert_eq, Hv.
  - by rewrite lookup_alter_ne, lookup_insert_ne.
Qed.

(** The reservations in the heap and those taken out so far. *)
Definition moved st (out : list R) st' (out' : list R) : Prop :=
  freed st' = freed st ∧ stored (reps st') ++ out' ≡ₚ stored (reps st) ++ out.

Lemma moved_sig st st' out : sig st' = sig st → moved st out st' out.
Proof. unfold sig, moved. intros [= -> ->]. done. Qed.

Lemma moved_trans st1 o1 st2 o2 st3 o3 : moved st1 o1 st2 o2 → moved st2 o2 st3 o3 → moved st1 o1 st3 o3.
Proof. intros [F1 P1] [F2 P2]. split; [congruence|]. by rewrite P2. Qed.

Lemma sweep_candidate_moves alive g now c rep out st rep' out' st' :
  sweep_candidate alive g now c rep out st = Some (rep', out', st') → moved st out st' out'.
Proof.
  unfold sweep_candidate. destruct (slots st !! _) as [s|]; [|by intros [= _ <- <-]].
  destruct (versions st !! _) as [ver|] eqn:Hv; [|by intros [= _ <- <-]].
  destruct (negb _); [by intros [= _ <- <-]|].
  destruct (prune_invalidated alive ver) as [pr ver'] eqn:Hp. pose proof (prune_res _ _ _ _ Hp) as Hr.
  set (st1 := update_version (gc_version c) (fun _ => ver') st).
  assert (reps st1 = <[gc_version c := v_replicas ver']> (reps st)) as Hst1
    by (by apply (reps_set_version _ ver)).
  assert (reps st !! gc_version c = Some (v_replicas ver)) as Hl
    by (unfold reps; by rewrite lookup_fmap, Hv).
  pose proof (stored_replace (reps st) (gc_version c) _ (v_replicas ver') _ Hl Hr) as Hst.
  rewrite <- Hst1 in Hst.
  assert (∀ st2, sig st2 = sig st1 → match pr with PruneMixed _ => False | _ => True end →
    moved st out st2 out) as Hkeep.
  { unfold sig. intros st2 [= E1 E2] Hno. split; [by rewrite E2|]. rewrite E1, Hst.
    destruct pr; [by rewrite app_nil_r..|done]. }
  destruct pr as [| |stale].
  - intros [= _ <- <-]. apply Hkeep; [apply sig_push_gen|done].
  - destruct (active s); intros [= _ <- <-]; apply Hkeep; try done; [apply sig_push_gen|].
    by rewrite sig_retire_published.
  - unfold release_pruned_accounting.
    assert (∀ st2, sig st2 = sig st1 → moved st out st2 (reclaim_resources stale out)) as Hmix.
    { unfold sig. intros st2 [= E1 E2]. split; [by rewrite E2|]. rewrite E1, Hst.
      unfold reclaim_resources. by rewrite <- app_assoc, (Permutation_app_comm (res_of stale)). }
    destruct (v_accounting ver'), (direct_replica_class stale);
      try (intros [= _ <- <-]; apply Hmix; sig_solve).
    destruct (expect _) as [bytes| |]; simpl; try done. intros [= _ <- <-]. apply Hmix. sig_solve.
Qed.

Lemma sweep_loop_moves n alive g now : ∀ sc rep out st sc' rep' out' st',
  sweep_loop n alive g now sc rep out st = Some (sc', rep', out', st') → moved st out st' out'.
Proof.
  induction n as [|n IH]; intros sc rep out st sc' rep' out' st'; simpl;
    [intros [= _ _ <- <-]; by apply moved_sig|].
  destruct (gen_queue g st) as [|c q]; [intros [= _ _ <- <-]; by apply moved_sig|].
  destruct (sweep_candidate _ _ _ _ _ _ _) as [[[rep1 out1] st1]|] eqn:Hs; [|done]. simpl.
  intros Hl%IH. eapply moved_trans; [|exact Hl]. eapply moved_trans; [|by eapply sweep_candidate_moves].
  apply moved_sig. by rewrite sig_gen_remaining, sig_gen.
Qed.

Lemma released st st' out :
  moved st [] st' out → conserves st [] (set_freed (freed st' ++ [ReleaseBatch out]) st').
Proof.
  intros [Hf Hp]. exists [ReleaseBatch out]. cbn [freed set_freed]. rewrite Hf. split; [done|].
  change (reps (set_freed _ st')) with (reps st'). unfold handed. simpl. by rewrite (app_nil_r out).
Qed.

Lemma retire_invalidated_conserves alive now budget rep st n rep' st' :
  retire_invalidated_published alive now budget rep st = Some (n, rep', st') →
  conserves st [] st'.
Proof.
  unfold retire_invalidated_published.
  destruct (sweep_loop _ _ _ _ _ _ _ _) as [[[[s1 r1] o1] st1]|] eqn:H1; [|done]. simpl.
  apply sweep_loop_moves in H1. destruct (_ =? 0)%nat; simpl.
  - intros [= _ _ <-]. by apply released.
  - destruct (sweep_loop _ _ _ _ s1 _ _ _) as [[[[s2 r2] o2] st2]|] eqn:H2; [|done]. simpl.
    apply sweep_loop_moves in H2. intros [= _ _ <-]. apply released. by eapply moved_trans.
Qed.

Lemma reclaim_one_moves held now e rep out st :
  moved st out (reclaim_one held now e rep out st).2 (reclaim_one held now e rep out st).1.2.
Proof.
  unfold reclaim_one. destruct (now <? _); [by apply moved_sig|].
  destruct (negb _); [by apply moved_sig|]. destruct (versions st !! _) as [ver|] eqn:Hv; [|by apply moved_sig].
  simpl. pose proof (sig_release_accounting (ro_version e) st) as Hs. unfold sig in Hs.
  injection Hs as E1 E2. split; [exact E2|].
  unfold reps in *. simpl. rewrite fmap_delete, E1.
  assert ((v_replicas <$> versions st) !! ro_version e = Some (v_replicas ver)) as Hl
    by (by rewrite lookup_fmap, Hv).
  rewrite (stored_delete _ _ _ Hl). unfold reclaim_resources.
  by rewrite app_assoc, <- (app_assoc (res_of _)), (Permutation_app_comm _ (map _ _)).
Qed.

Lemma reclaim_loop_moves n held now : ∀ at_ rep out st at' rep' out' st',
  reclaim_loop n held now at_ rep out st = (at', rep', out', st') → moved st out st' out'.
Proof.
  induction n as [|n IH]; intros at_ rep out st at' rep' out' st'; simpl;
    [intros [= _ _ <- <-]; by apply moved_sig|].
  destruct (retired st) as [|e q]; [intros [= _ _ <- <-]; by apply moved_sig|].
  pose proof (reclaim_one_moves held now e rep out (set_retired q st)) as Hm.
  destruct (reclaim_one _ _ _ _ _ _) as [[rep1 out1] st1]. simpl in Hm.
  intros Hl%IH. by eapply moved_trans.
Qed.

Lemma reclaim_conserves held now budget rep st : conserves st [] (reclaim held now budget rep st).2.
Proof.
  unfold reclaim. destruct (reclaim_loop _ _ _ _ _ _ _) as [[[at' rep'] out] st1] eqn:Hl.
  apply reclaim_loop_moves in Hl. simpl. by apply released.
Qed.

Lemma collect_conserves alive held busy now budget targets first wm st rep st' :
  collect_step_inner alive held busy now budget targets first wm st = Some (rep, st') →
  conserves st [] st'.
Proof.
  unfold collect_step_inner. destruct busy; [intros [= _ <-]; by apply conserves_sig|].
  assert (conserves st [] (if first then reclaim held now budget report_default st
    else (0%nat, report_default, st)).2) as H1
    by (destruct first; [apply reclaim_conserves|by apply conserves_sig]).
  destruct (if first then _ else _) as [[at1 rep1] st1]. simpl in H1.
  unfold expire_soft_pins. destruct (soft_pin_loop _ _ _ _) as [[rep2 st2]|] eqn:H2; [|done]. simpl.
  apply sig_soft_pin_loop in H2. rewrite sig_begin_if_requested in H2. apply conserves_sig in H2.
  destruct (retire_invalidated_published _ _ _ _ _) as [[[sc rep3] st3]|] eqn:H3; [|done]. simpl.
  apply retire_invalidated_conserves in H3.
  pose proof (sig_expire_loop (Nat.min (length (pending st3)) (max_candidates budget)) alive now rep3 st3) as H4.
  unfold expire_pending. destruct (expire_loop _ _ _ _ _) as [rep4 st4]. simpl in H4.
  apply conserves_sig in H4.
  simpl. destruct (if sweep_is_incomplete st4 then _ else _) as [[rep5 st5]|] eqn:H6; [|done]. simpl.
  assert (conserves st4 [] st5) as H5.
  { apply conserves_sig. destruct (sweep_is_incomplete st4); [by injection H6 as _ <-|].
    destruct (evict_scoped _ _ _ _ _) as [[[s1 repa] sta]|] eqn:Ha; [|done]. simpl in H6.
    apply sig_evict in H6. apply sig_evict_scoped in Ha. congruence. }
  pose proof (reclaim_conserves held now (mkBudget (max_candidates budget) (max_reclaims budget - at1)
    (max_empty_slots budget)) rep5 st5) as H7.
  destruct (reclaim _ _ _ _ _) as [[at2 rep6] st6]. simpl in H7. intros [= Hc].
  pose proof (sig_clean_loop (Nat.min (length (empty_slots st6)) (max_empty_slots budget)) now rep6 st6) as H8.
  unfold clean_empty_slots in Hc. rewrite Hc in H8. apply conserves_sig in H8. simpl in H8.
  eauto 10 using conserves_step.
Qed.
End Moves.

(** ** Staging, and the whole catalog *)

Section Staging.
Context {R : Type} `{Resource R}.
Implicit Types (st : Catalog R) (w : @CatWorld R).

Lemma conserves_free rs st : conserves st (res_of rs) (free_replicas rs st).
Proof.
  exists [DropReplicas (res_of rs)]. split; [done|]. unfold handed. simpl. by rewrite (app_nil_r (res_of rs)).
Qed.

Lemma fresh_version st : inv st → versions st !! next_addr st = None.
Proof.
  intros Hi. destruct (fresh_addr _ Hi) as [Hn _]. change (next_addr (erase st)) with (next_addr st) in Hn.
  rewrite erase_lookup in Hn. by destruct (versions st !! _).
Qed.

Lemma conserves_publish c ver t st :
  inv st → conserves st (res_of (v_replicas ver)) (stage_publish c ver t st).
Proof.
  intros Hi%fresh_version. exists []. split; [simpl; by rewrite app_nil_r|].
  unfold reps. simpl. rewrite fmap_insert, stored_insert by (by rewrite lookup_fmap, Hi).
  rewrite app_nil_r. apply Permutation_app_comm.
Qed.

Lemma conserves_stage alive b1 b2 c content rs g st r st' :
  inv st → stage_inner alive b1 b2 c content rs g st = (r, st') → r ≠ Panic →
  conserves st (res_of rs) st'.
Proof.
  intros Hi Hs Hr.
  assert (∀ st0 st1, sig st0 = sig st → st1 = claim_drop alive c (free_replicas rs st0) →
    conserves st (res_of rs) st1) as Hfree.
  { intros st0 st1 E0 ->. apply (conserves_step _ st0); [by apply conserves_sig|].
    rewrite <- (app_nil_r (res_of rs)). eapply conserves_trans; [apply conserves_free|].
    apply conserves_sig, sig_claim_drop. }
  assert (conserves st (res_of rs) (stage_fail alive c rs g st)) as Hf
    by (by apply (Hfree (guard_release g st)); [apply sig_guard_release|]).
  assert (conserves st (res_of rs) (stage_lost alive c content rs g st)) as Hl.
  { eapply Hfree; [|done]. by destruct (tenant_accounting _) as [[]|]. }
  unfold stage_inner in Hs. destruct (negb b1); [by injection Hs as _ <-|].
  destruct (_ =? 0); [by injection Hs as _ <-|].
  destruct (validate_stage_replicas _ _ _); [|by injection Hs as _ <-|by injection Hs as <- _].
  destruct (slots st !! _); [|by injection Hs as _ <-]. destruct (active _) as [t|]; [|by injection Hs as _ <-].
  destruct (_ || _); [by injection Hs as _ <-|].
  pose proof (conserves_publish c (staged_version c content rs g) t st Hi) as Hp.
  destruct b2; injection Hs as _ <-; [done|]. rewrite <- (app_nil_r (res_of rs)).
  eapply conserves_trans; [exact Hp|]. apply conserves_sig, sig_abort.
Qed.

(** The reservations a call hands to the catalog. *)
Definition staged (op : cat_op) w : list R :=
  match op with
  | OStage k _ _ _ _ rs _ => match held_claims w !! k with Some _ => res_of rs | None => [] end
  | _ => []
  end.

Lemma cat_step_conserves op w w' :
  inv (cat w) → cat_step op w = Some w' → conserves (cat w) (staged op w) (cat w').
Proof.
  intros Hi. destruct op; simpl.
  - pose proof (sig_begin_write i o mode pins now (cat w)) as Hs.
    destruct (begin_write _ _ _ _ _ _) as [[] st1]; simpl in Hs; try done;
      intros [= <-]; exact (conserves_sig _ _ Hs).
  - destruct (held_claims w !! k); [|intros [= <-]; by apply conserves_sig].
    destruct (stage_inner _ _ _ _ _ _ _ _) as [[x|x|] st1] eqn:Hs; try done; intros [= <-];
      simpl; by eapply conserves_stage.
  - destruct (held_claims w !! k); intros [= <-]; [apply conserves_sig, sig_claim_drop|by apply conserves_sig].
  - pose proof (sig_commit alive alive_after tx c now (cat w)) as Hs.
    destruct (commit _ _ _ _ _ _) as [[] st1]; simpl in Hs; try done; intros [= <-]; exact (conserves_sig _ _ Hs).
  - pose proof (sig_abort alive tx now (cat w)) as Hs.
    destruct (abort _ _ _ _) as [[] st1]; simpl in Hs; try done; intros [= <-]; exact (conserves_sig _ _ Hs).
  - pose proof (sig_get alive i now (cat w)) as Hs.
    destruct (get _ _ _ _) as [[] st1]; simpl in Hs; try done; intros [= <-]; exact (conserves_sig _ _ Hs).
  - pose proof (sig_remove i now force (cat w)) as Hs.
    destruct (remove_with_force _ _ _ _) as [[] st1]; simpl in Hs; try done; intros [= <-]; exact (conserves_sig _ _ Hs).
  - destruct (collect_step_inner _ _ _ _ _ _ _ _ _) as [[rep st1]|] eqn:Hs; [|done]. simpl.
    intros [= <-]. by apply collect_conserves in Hs.
  - intros [= <-]. apply conserves_sig, sig_revoke.
  - intros [= <-]. apply conserves_sig, sig_request_reclaim.
  - intros [= <-]. apply conserves_sig, sig_request_liveness.
  - intros [= <-]. by apply conserves_sig.
  - intros [= <-]. by apply conserves_sig.
Qed.

Fixpoint staged_run (ops : list cat_op) w : list R :=
  match ops with
  | [] => []
  | op :: ops' => staged op w ++ match cat_step op w with Some w' => staged_run ops' w' | None => [] end
  end.

Lemma run_conserves cid conf ops : ∀ w w',
  reachable cid conf w → env_run ops w → run ops w = Some w' →
  conserves (cat w) (staged_run ops w) (cat w').
Proof.
  induction ops as [|op ops IH]; intros w w' Hw Henv; simpl in *;
    [intros [= <-]; by apply conserves_sig|].
  destruct Henv as [He Henv]. destruct (cat_step op w) as [w1|] eqn:Hs; [|done]. simpl. intros Hrun.
  eapply conserves_trans; [|apply IH; eauto using reachable].
  apply cat_step_conserves; [|done]. by eapply w_inv, reachable_inv.
Qed.

(** Over any sequence of calls the catalog hands reservations back only by
    appending to what it handed back before; the reservations in the replica
    sets of the versions, together with those newly handed back, are exactly
    the ones there before and the ones staged meanwhile: none is lost,
    duplicated or handed back twice. *)
Theorem reservations_conserved cid conf ops w w' :
  reachable cid conf w → env_run ops w → run ops w = Some w' →
  ∃ new, freed (cat w') = freed (cat w) ++ new ∧
    stored (reps (cat w')) ++ handed new ≡ₚ stored (reps (cat w)) ++ staged_run ops w.
Proof. exact (run_conserves cid conf ops w w'). Qed.
End Staging.

Lemma reservations_conserved_witness :
  ∃ w' new, run [OStage 0 (fun _ => true) true true (mkContent 40 KvCache) (One example_replica) None;
      OAbort example_tx (fun _ => true) 6] claimed_world = Some w' ∧
    freed (cat w') = new ∧ stored (reps (cat w')) ++ handed new ≡ₚ [(64, 40)].
Proof.
  set (ops := [_; _]). set (w' := default claimed_world (run ops claimed_world)).
  destruct (reservations_conserved 7 example_config ops claimed_world w') as (new & Hf & Hp);
    [apply claimed_reachable| |by vm_compute|].
  - split; [apply example_stage_env|]. intros w1 _. split; [done|]. by intros.
  - exists w', new. split; [by vm_compute|]. split; [by rewrite Hf|]. rewrite Hp. by vm_compute.
Defined.
