(* ===== verification/Eviction.v ===== *)
(** * Memory-watermark eviction

    [src/src/object/eviction.rs]: the validated policy, with its ratios
    converted to parts per million, and the controller that samples physical
    usage, keeps the hysteresis between the two watermarks and the debt of
    failed allocations.  [f64] is the specification of binary64 of the standard
    library; the [Notify] is its permit.  Controller methods run under the mutex
    and are single steps. *)
From Stdlib Require Import SpecFloat ZArith.
From S2P Require Import Prelude Segment ObjectTypes CatalogState CatalogWrite.

Definition WATERMARK_SCALE : N := 1000000.
Definition MAX_ALLOCATION_RETRIES : nat := 3.
Definition DEFAULT_ALLOCATION_FAILURE_BUDGET : CollectBudget := mkBudget 64 64 0.

(** ** Ratios *)

Definition f64 := spec_float.
Definition f64_mul : f64 → f64 → f64 := SFmul 53 1024.
Definition f64_lt (x y : f64) : bool := SFltb x y.
Definition f64_le (x y : f64) : bool := SFleb x y.
Definition f64_eq (x y : f64) : bool := SFeqb x y.
Definition f64_zero : f64 := S754_zero false.
Definition f64_one : f64 := S754_finite false 4503599627370496 (-52).
Definition f64_scale : f64 := S754_finite false 8589934592000000 (-33).

Definition is_finite (x : f64) : bool :=
  match x with
  | S754_zero _ | S754_finite _ _ _ => true
  | S754_infinity _ | S754_nan => false
  end.

(** [f64::round] of a finite value as an integer: halves away from zero. *)
Definition f64_round (x : f64) : Z :=
  match x with
  | S754_finite s m e =>
      let a :=
        match e with
        | Zneg k => ((2 * Zpos m + 2 ^ Zpos k) / (2 * 2 ^ Zpos k))%Z
        | _ => (Zpos m * 2 ^ e)%Z
        end in
      if s then (- a)%Z else a
  | _ => 0%Z
  end.

(** The rounded product is below [2^53], so the comparisons and the cast to
    [u32] see the integer itself. *)
Definition ratio_to_ppm (ratio : f64) : option N :=
  if negb (is_finite ratio) || negb (f64_le f64_zero ratio && f64_lt ratio f64_one) ||
     f64_eq ratio f64_zero
  then None
  else
    let scaled := f64_round (f64_mul ratio f64_scale) in
    if (0 <? scaled)%Z && (scaled <? Z.of_N WATERMARK_SCALE)%Z
    then Some (Z.to_N scaled) else None.

(** [scale_bytes], in [u128]; [None] is a failed [expect]. *)
Definition scale_bytes (bytes ppm : N) : option N :=
  let scaled := bytes * ppm / WATERMARK_SCALE in
  if scaled <=? U64_MAX then Some scaled else None.

(** ** Policy *)

Record MemoryEvictionConfig := mkEviction {
  high_watermark_ppm : N;
  low_watermark_ppm : N;
  allocation_failure_budget : CollectBudget;
  allocation_retry_limit : nat
}.

Inductive MemoryEvictionConfigError :=
| InvalidHighWatermark
| InvalidLowWatermark
| LowNotBelowHigh
| ZeroFailureCandidates
| ZeroFailureReclaims
| TooManyAllocationRetries.

Definition MemoryEvictionConfig_new (high low : f64)
    : res MemoryEvictionConfigError MemoryEvictionConfig :=
  match ratio_to_ppm high with
  | None => Err InvalidHighWatermark
  | Some h =>
      match ratio_to_ppm low with
      | None => Err InvalidLowWatermark
      | Some l =>
          if h <=? l then Err LowNotBelowHigh
          else Ok (mkEviction h l DEFAULT_ALLOCATION_FAILURE_BUDGET 1)
      end
  end.

Definition with_allocation_failure_policy (c : MemoryEvictionConfig) (budget : CollectBudget)
    (retry_limit : nat) : res MemoryEvictionConfigError MemoryEvictionConfig :=
  if (max_candidates budget =? 0)%nat then Err ZeroFailureCandidates
  else if (max_reclaims budget =? 0)%nat then Err ZeroFailureReclaims
  else if (MAX_ALLOCATION_RETRIES <? retry_limit)%nat then Err TooManyAllocationRetries
  else Ok (mkEviction (high_watermark_ppm c) (low_watermark_ppm c) budget retry_limit).

(** 0.90 and 0.80 as binary64. *)
Definition MemoryEvictionConfig_default : res MemoryEvictionConfigError MemoryEvictionConfig :=
  MemoryEvictionConfig_new (S754_finite false 8106479329266893 (-53))
    (S754_finite false 7205759403792794 (-53)).

Definition high_bytes (c : MemoryEvictionConfig) (capacity : N) : option N :=
  scale_bytes capacity (high_watermark_ppm c).
Definition low_bytes (c : MemoryEvictionConfig) (capacity : N) : option N :=
  scale_bytes capacity (low_watermark_ppm c).

(** ** Controller *)

Record MemoryEvictionStats := mkEvictionStats {
  es_active : bool;
  es_capacity : N;
  es_used : N;
  es_maximum_used : N;
  es_maximum_used_ratio_ppm : N;
  es_available : N;
  es_high_watermark : N;
  es_low_watermark : N;
  es_pending : N;
  es_live : N;
  es_retired : N;
  es_reclaim_debt : N;
  es_requested_debt : N;
  es_allocation_debt : N;
  es_watermark_debt : N;
  es_trigger_events : N;
  es_controller_steps : N;
  es_busy_steps : N;
  es_retired_objects : N;
  es_retired_total : N;
  es_reclaimed_objects : N;
  es_reclaimed_total : N;
  es_allocation_failures : N;
  es_allocation_retries : N;
  es_allocation_retry_successes : N;
  es_wakeups : N
}.

Definition MemoryEvictionStats_default : MemoryEvictionStats :=
  mkEvictionStats false 0 0 0 0 0 0 0 0 0 0 0 0 0 0 0 0 0 0 0 0 0 0 0 0 0.

Record MemoryEvictionState := mkEvictionState {
  e_stats : MemoryEvictionStats;
  watermark_active : bool;
  allocation_reclaim_bytes : N;
  allocation_generation : N
}.

(** The policy, the permit of the notification and the guarded state. *)
Record MemoryEvictionController := mkController {
  e_config : MemoryEvictionConfig;
  e_notified : bool;
  e_state : MemoryEvictionState
}.

Definition controller_new (c : MemoryEvictionConfig) : MemoryEvictionController :=
  mkController c false (mkEvictionState MemoryEvictionStats_default false 0 0).

Definition with_stats (s : MemoryEvictionStats) (x : MemoryEvictionState)
    : MemoryEvictionState :=
  mkEvictionState s (watermark_active x) (allocation_reclaim_bytes x) (allocation_generation x).
Definition with_watermark (b : bool) (x : MemoryEvictionState) : MemoryEvictionState :=
  mkEvictionState (e_stats x) b (allocation_reclaim_bytes x) (allocation_generation x).
Definition with_allocation (bytes generation : N) (x : MemoryEvictionState)
    : MemoryEvictionState :=
  mkEvictionState (e_stats x) (watermark_active x) bytes generation.
Definition with_state (x : MemoryEvictionState) (c : MemoryEvictionController)
    : MemoryEvictionController :=
  mkController (e_config c) (e_notified c) x.

(** A saturating increment of one of the cumulative counters. *)
Inductive EvictionCounter :=
| TriggerEvents | ControllerSteps | BusySteps | RetiredObjects | RetiredTotal
| ReclaimedObjects | ReclaimedTotal | AllocationFailures | AllocationRetries
| AllocationRetrySuccesses | Wakeups.

#[global] Instance EvictionCounter_eq_dec : EqDecision EvictionCounter.
Proof. solve_decision. Defined.

Definition bump (k : EvictionCounter) (n : N) (x : MemoryEvictionState) : MemoryEvictionState :=
  let s := e_stats x in
  let up k' v := if decide (k = k') then saturating_add v n else v in
  with_stats
    (mkEvictionStats (es_active s) (es_capacity s) (es_used s) (es_maximum_used s)
       (es_maximum_used_ratio_ppm s) (es_available s) (es_high_watermark s)
       (es_low_watermark s) (es_pending s) (es_live s) (es_retired s) (es_reclaim_debt s)
       (es_requested_debt s) (es_allocation_debt s) (es_watermark_debt s)
       (up TriggerEvents (es_trigger_events s)) (up ControllerSteps (es_controller_steps s))
       (up BusySteps (es_busy_steps s)) (up RetiredObjects (es_retired_objects s))
       (up RetiredTotal (es_retired_total s)) (up ReclaimedObjects (es_reclaimed_objects s))
       (up ReclaimedTotal (es_reclaimed_total s))
       (up AllocationFailures (es_allocation_failures s))
       (up AllocationRetries (es_allocation_retries s))
       (up AllocationRetrySuccesses (es_allocation_retry_successes s))
       (up Wakeups (es_wakeups s))) x.

Definition refresh_debt_stats (requested : N) (watermark : option N) (x : MemoryEvictionState)
    : MemoryEvictionState :=
  let s := e_stats x in
  let wm := default (es_watermark_debt s) watermark in
  with_stats
    (mkEvictionStats
       (watermark_active x || negb (allocation_reclaim_bytes x =? 0) || negb (requested =? 0))
       (es_capacity s) (es_used s) (es_maximum_used s) (es_maximum_used_ratio_ppm s)
       (es_available s) (es_high_watermark s) (es_low_watermark s) (es_pending s) (es_live s)
       (es_retired s) (N.max (N.max requested (allocation_reclaim_bytes x)) wm) requested
       (allocation_reclaim_bytes x) wm (es_trigger_events s) (es_controller_steps s)
       (es_busy_steps s) (es_retired_objects s) (es_retired_total s) (es_reclaimed_objects s)
       (es_reclaimed_total s) (es_allocation_failures s) (es_allocation_retries s)
       (es_allocation_retry_successes s) (es_wakeups s)) x.

Definition used_ratio_ppm (space : SegmentSpaceStats) : N :=
  let r := space_used_bytes space * WATERMARK_SCALE / capacity_bytes space in
  if r <=? U64_MAX then r else U64_MAX.

Definition update_sample (space : SegmentSpaceStats) (catalog : ObjectCatalogStats)
    (high low watermark : N) (x : MemoryEvictionState) : MemoryEvictionState :=
  let s := e_stats x in
  refresh_debt_stats (st_reclaim_debt catalog) (Some watermark)
    (with_stats
       (mkEvictionStats (es_active s) (capacity_bytes space) (space_used_bytes space)
          (N.max (es_maximum_used s) (space_used_bytes space))
          (if capacity_bytes space =? 0 then es_maximum_used_ratio_ppm s
           else N.max (es_maximum_used_ratio_ppm s) (used_ratio_ppm space))
          (available_bytes space) high low (st_pending_bytes catalog) (st_live_bytes catalog)
          (st_retired_bytes catalog) (es_reclaim_debt s) (es_requested_debt s)
          (es_allocation_debt s) (es_watermark_debt s) (es_trigger_events s)
          (es_controller_steps s) (es_busy_steps s) (es_retired_objects s)
          (es_retired_total s) (es_reclaimed_objects s) (es_reclaimed_total s)
          (es_allocation_failures s) (es_allocation_retries s)
          (es_allocation_retry_successes s) (es_wakeups s)) x).

Definition watermark_reclaim_bytes (space : SegmentSpaceStats) (low : N)
    (x : MemoryEvictionState) : N :=
  if watermark_active x then saturating_sub (space_used_bytes space) low else 0.

(** [None] is a panic of [scale_bytes]. *)
Definition prepare_step (space : SegmentSpaceStats) (catalog : ObjectCatalogStats)
    (c : MemoryEvictionController) : option (N * MemoryEvictionController) :=
  high ← high_bytes (e_config c) (capacity_bytes space);
  low ← low_bytes (e_config c) (capacity_bytes space);
  let x := e_state c in
  let x1 :=
    if (capacity_bytes space =? 0) || watermark_active x && (space_used_bytes space <=? low)
    then with_watermark false x
    else if negb (watermark_active x) && (high <? space_used_bytes space)
    then bump TriggerEvents 1 (with_watermark true x)
    else x in
  let wm := watermark_reclaim_bytes space low x1 in
  let x2 := update_sample space catalog high low wm x1 in
  Some (N.max (saturating_sub wm (st_retired_memory_bytes catalog))
          (allocation_reclaim_bytes x2),
        with_state x2 c).

Definition finish_step (space : SegmentSpaceStats) (catalog : ObjectCatalogStats)
    (report : CollectReport) (c : MemoryEvictionController)
    : option (bool * MemoryEvictionController) :=
  high ← high_bytes (e_config c) (capacity_bytes space);
  low ← low_bytes (e_config c) (capacity_bytes space);
  let x := e_state c in
  let x1 :=
    with_allocation (saturating_sub (allocation_reclaim_bytes x) (reclaimed_memory_bytes report))
      (allocation_generation x) x in
  let x2 :=
    if (capacity_bytes space =? 0) || (space_used_bytes space <=? low)
    then with_watermark false x1 else x1 in
  let wm := watermark_reclaim_bytes space low x2 in
  let x3 :=
    bump ReclaimedTotal (reclaimed_bytes report)
      (bump ReclaimedObjects (N.of_nat (reclaimed_objects report))
        (bump RetiredTotal (report_retired_bytes report)
          (bump RetiredObjects (N.of_nat (report_retired_objects report))
            (bump ControllerSteps 1 x2)))) in
  let x4 := update_sample space catalog high low wm x3 in
  Some (es_active (e_stats x4), with_state x4 c).

Definition record_busy_step (c : MemoryEvictionController) : MemoryEvictionController :=
  with_state (bump BusySteps 1 (bump ControllerSteps 1 (e_state c))) c.

Definition request_allocation_reclaim (bytes : N) (c : MemoryEvictionController)
    : N * MemoryEvictionController :=
  let x := e_state c in
  let generation := wrapping_add (allocation_generation x) 1 in
  let x1 := with_allocation (N.max (allocation_reclaim_bytes x) bytes) generation x in
  let x2 := bump Wakeups 1 (bump AllocationFailures 1 x1) in
  let x3 := refresh_debt_stats (es_requested_debt (e_stats x2)) None x2 in
  (generation, mkController (e_config c) true x3).

Definition clear_allocation_reclaim (generation : N) (c : MemoryEvictionController)
    : MemoryEvictionController :=
  let x := e_state c in
  if negb (allocation_generation x =? generation) then c
  else
    let x1 := with_allocation 0 (allocation_generation x) x in
    with_state (refresh_debt_stats (es_requested_debt (e_stats x1)) None x1) c.

Definition record_allocation_retry (c : MemoryEvictionController) : MemoryEvictionController :=
  with_state (bump AllocationRetries 1 (e_state c)) c.

Definition record_allocation_retry_success (c : MemoryEvictionController)
    : MemoryEvictionController :=
  with_state (bump AllocationRetrySuccesses 1 (e_state c)) c.

(** ** Policies that pass validation *)

Inductive configured : MemoryEvictionConfig → Prop :=
| configured_new high low c : MemoryEvictionConfig_new high low = Ok c → configured c
| configured_policy c budget n c' :
    configured c → with_allocation_failure_policy c budget n = Ok c' → configured c'.

Record eviction_valid (c : MemoryEvictionConfig) : Prop := {
  ev_low : 0 < low_watermark_ppm c;
  ev_order : low_watermark_ppm c < high_watermark_ppm c;
  ev_high : high_watermark_ppm c < WATERMARK_SCALE;
  ev_candidates : (0 < max_candidates (allocation_failure_budget c))%nat;
  ev_reclaims : (0 < max_reclaims (allocation_failure_budget c))%nat;
  ev_retries : (allocation_retry_limit c <= MAX_ALLOCATION_RETRIES)%nat
}.

Lemma ratio_to_ppm_range x p : ratio_to_ppm x = Some p → 0 < p < WATERMARK_SCALE.
Proof.
  unfold ratio_to_ppm. destruct (_ || _); [done|]. destruct (_ && _) eqn:Hb; [|done].
  intros [= <-]. apply andb_prop in Hb as [H1%Z.ltb_lt H2%Z.ltb_lt]. lia.
Qed.

Lemma configured_valid c : configured c → eviction_valid c.
Proof.
  induction 1 as [high low c Hn|c budget n c' _ [] Hp].
  - unfold MemoryEvictionConfig_new in Hn.
    destruct (ratio_to_ppm high) as [h|] eqn:Hh; [|done].
    destruct (ratio_to_ppm low) as [l|] eqn:Hl; [|done].
    apply ratio_to_ppm_range in Hh, Hl. destruct (N.leb_spec h l); [done|]. injection Hn as <-.
    split; simpl; unfold MAX_ALLOCATION_RETRIES; lia.
  - unfold with_allocation_failure_policy in Hp.
    destruct (Nat.eqb_spec (max_candidates budget) 0); [done|].
    destruct (Nat.eqb_spec (max_reclaims budget) 0); [done|].
    destruct (Nat.ltb_spec MAX_ALLOCATION_RETRIES n); [done|]. injection Hp as <-.
    split; simpl; lia.
Qed.

Lemma scale_bytes_ok bytes ppm :
  bytes <= U64_MAX → ppm <= WATERMARK_SCALE →
  scale_bytes bytes ppm = Some (bytes * ppm / WATERMARK_SCALE) ∧
  bytes * ppm / WATERMARK_SCALE <= bytes.
Proof.
  intros Hb Hp.
  assert (bytes * ppm / WATERMARK_SCALE <= bytes) as Hle.
  { apply N.Div0.div_le_upper_bound. rewrite N.mul_comm. by apply N.mul_le_mono_r. }
  split; [|done]. unfold scale_bytes. by rewrite (proj2 (N.leb_le _ _)) by lia.
Qed.

(** The two watermarks of a capacity. *)
Definition low_of (c : MemoryEvictionConfig) (capacity : N) : N :=
  capacity * low_watermark_ppm c / WATERMARK_SCALE.
Definition high_of (c : MemoryEvictionConfig) (capacity : N) : N :=
  capacity * high_watermark_ppm c / WATERMARK_SCALE.

Lemma watermarks_ok c capacity :
  eviction_valid c → capacity <= U64_MAX →
  high_bytes c capacity = Some (high_of c capacity) ∧
  low_bytes c capacity = Some (low_of c capacity) ∧
  low_of c capacity <= high_of c capacity ∧ high_of c capacity <= capacity.
Proof.
  intros [] Hc. destruct (scale_bytes_ok capacity (high_watermark_ppm c)) as [H1 H2]; [done|lia|].
  destruct (scale_bytes_ok capacity (low_watermark_ppm c)) as [H3 H4]; [done|lia|].
  split_and!; try done. apply N.Div0.div_le_mono, N.mul_le_mono_l. lia.
Qed.

(** ** Runs of the controller *)

Inductive evict_op :=
| EPrepare (space : SegmentSpaceStats) (catalog : ObjectCatalogStats)
| EFinish (space : SegmentSpaceStats) (catalog : ObjectCatalogStats) (report : CollectReport)
| EBusy
| ERequest (bytes : N)
| EClear (generation : N)
| ERetry
| ERetrySuccess.

Definition evict_op_step (op : evict_op) (c : MemoryEvictionController)
    : option MemoryEvictionController :=
  match op with
  | EPrepare space catalog => snd <$> prepare_step space catalog c
  | EFinish space catalog report => snd <$> finish_step space catalog report c
  | EBusy => Some (record_busy_step c)
  | ERequest bytes => Some (request_allocation_reclaim bytes c).2
  | EClear g => Some (clear_allocation_reclaim g c)
  | ERetry => Some (record_allocation_retry c)
  | ERetrySuccess => Some (record_allocation_retry_success c)
  end.

Fixpoint evict_run (ops : list evict_op) (c : MemoryEvictionController)
    : option MemoryEvictionController :=
  match ops with
  | [] => Some c
  | op :: ops' => c' ← evict_op_step op c; evict_run ops' c'
  end.

Definition sample_ok (op : evict_op) : Prop :=
  match op with
  | EPrepare space _ | EFinish space _ _ => capacity_bytes space <= U64_MAX
  | _ => True
  end.

(** The watermark a sample crosses: below the low one, above the high one, or
    none.  Only the sample before a step can switch the controller on. *)
Definition crossing (c : MemoryEvictionConfig) (op : evict_op) : option bool :=
  match op with
  | EPrepare space _ =>
      if (capacity_bytes space =? 0) || (space_used_bytes space <=? low_of c (capacity_bytes space))
      then Some false
      else if high_of c (capacity_bytes space) <? space_used_bytes space then Some true else None
  | EFinish space _ _ =>
      if (capacity_bytes space =? 0) || (space_used_bytes space <=? low_of c (capacity_bytes space))
      then Some false else None
  | _ => None
  end.

(** What the published statistics say of the state. *)
Record debts_ok (x : MemoryEvictionState) : Prop := {
  d_active : es_active (e_stats x) =
    watermark_active x || negb (allocation_reclaim_bytes x =? 0) ||
    negb (es_requested_debt (e_stats x) =? 0);
  d_allocation : es_allocation_debt (e_stats x) = allocation_reclaim_bytes x;
  d_watermark : es_watermark_debt (e_stats x) =
    if watermark_active x then es_used (e_stats x) - es_low_watermark (e_stats x) else 0;
  d_total : es_reclaim_debt (e_stats x) =
    N.max (N.max (es_requested_debt (e_stats x)) (es_allocation_debt (e_stats x)))
      (es_watermark_debt (e_stats x))
}.

Lemma debts_bump k n x : debts_ok x → debts_ok (bump k n x).
Proof. by intros []. Qed.

Lemma bump_fields k n x :
  watermark_active (bump k n x) = watermark_active x ∧
  allocation_reclaim_bytes (bump k n x) = allocation_reclaim_bytes x.
Proof. done. Qed.

Lemma debts_sample space catalog high low wm x :
  wm = watermark_reclaim_bytes space low x → debts_ok (update_sample space catalog high low wm x).
Proof. by intros ->. Qed.

Lemma debts_refresh requested x :
  es_watermark_debt (e_stats x) =
    (if watermark_active x then es_used (e_stats x) - es_low_watermark (e_stats x) else 0) →
  debts_ok (refresh_debt_stats requested None x).
Proof. intros Hw. by split. Qed.

Lemma evict_op_step_ok op c :
  eviction_valid (e_config c) → sample_ok op → debts_ok (e_state c) →
  ∃ c', evict_op_step op c = Some c' ∧ e_config c' = e_config c ∧ debts_ok (e_state c') ∧
    watermark_active (e_state c') =
      default (watermark_active (e_state c)) (crossing (e_config c) op).
Proof.
  intros Hv Hs Hd. destruct op as [space catalog|space catalog report| |bytes|g| |]; simpl in *.
  - destruct (watermarks_ok _ _ Hv Hs) as (Hh & Hl & Hlh & _). unfold prepare_step.
    rewrite Hh, Hl. simpl. eexists. split_and!; [done|done| |].
    + by apply debts_sample.
    + simpl. destruct (capacity_bytes space =? 0); simpl; [done|].
      destruct (watermark_active (e_state c)) eqn:Ha; simpl;
        destruct (N.leb_spec (space_used_bytes space) (low_of (e_config c) (capacity_bytes space)));
        simpl; try done; destruct (N.ltb_spec (high_of (e_config c) (capacity_bytes space))
          (space_used_bytes space)); simpl; try done; lia.
  - destruct (watermarks_ok _ _ Hv Hs) as (Hh & Hl & _). unfold finish_step.
    rewrite Hh, Hl. simpl. eexists. split_and!; [done|done| |].
    + by apply debts_sample.
    + simpl. by destruct (_ || _).
  - eexists. split_and!; [done..|by do 2 apply debts_bump|done].
  - eexists. split_and!; [done..| |done]. simpl. apply debts_refresh. apply (d_watermark _ Hd).
  - eexists. split_and!; [done| | |]; unfold clear_allocation_reclaim; destruct (negb _); try done.
    apply debts_refresh. apply (d_watermark _ Hd).
  - eexists. split_and!; [done..|by apply debts_bump|done].
  - eexists. split_and!; [done..|by apply debts_bump|done].
Qed.

(** The last crossing of a sequence, if any. *)
Definition last_crossing (c : MemoryEvictionConfig) (ops : list evict_op) : option bool :=
  last (omap (crossing c) ops).

Lemma evict_run_ok ops : ∀ c,
  eviction_valid (e_config c) → Forall sample_ok ops → debts_ok (e_state c) →
  ∃ c', evict_run ops c = Some c' ∧ debts_ok (e_state c') ∧
    watermark_active (e_state c') =
      default (watermark_active (e_state c)) (last_crossing (e_config c) ops).
Proof.
  induction ops as [|op ops IH]; intros c Hv Hs Hd; simpl; [eauto|].
  apply Forall_cons in Hs as [Hop Hs].
  destruct (evict_op_step_ok op c Hv Hop Hd) as (c1 & -> & Hcf & Hd1 & Ha1). simpl.
  destruct (IH c1) as (c' & Hrun & Hd' & Ha'); [by rewrite Hcf|done..|].
  exists c'. split_and!; [done..|]. rewrite Ha', Hcf, Ha1. unfold last_crossing. simpl.
  destruct (crossing (e_config c) op) as [b|]; simpl; [|done].
  rewrite last_cons. by destruct (last _).
Qed.

(** The eviction controller, over any sequence of samples, allocation
    failures and retries of a validated policy, never panics; it is reclaiming
    exactly when the last watermark that was crossed is the high one (usage
    between the two watermarks changes nothing); and the debts it publishes are
    the ones it acts on. *)
Theorem watermark_hysteresis conf ops :
  configured conf → Forall sample_ok ops →
  ∃ c, evict_run ops (controller_new conf) = Some c ∧
    watermark_active (e_state c) = default false (last_crossing conf ops) ∧
    debts_ok (e_state c).
Proof.
  intros Hc%configured_valid Hs.
  destruct (evict_run_ok ops (controller_new conf)) as (c & Hr & Hd & Ha); [done|done|by split|eauto].
Qed.

Definition example_eviction : MemoryEvictionConfig :=
  mkEviction 900000 800000 DEFAULT_ALLOCATION_FAILURE_BUDGET 1.

Lemma example_configured : configured example_eviction.
Proof.
  apply (configured_new (S754_finite false 8106479329266893 (-53))
    (S754_finite false 7205759403792794 (-53))). by vm_compute.
Qed.

Definition sample (used : N) : evict_op :=
  EPrepare (mkSpace 1000 used (1000 - used) (1000 - used)) (stats (catalog_new (R := N * N) 1 (ObjectCatalogConfig_new 4))).

Lemma watermark_hysteresis_witness :
  ∃ c, evict_run [sample 850; sample 950; sample 850] (controller_new example_eviction) = Some c ∧
    watermark_active (e_state c) = true ∧ debts_ok (e_state c).
Proof.
  destruct (watermark_hysteresis example_eviction [sample 850; sample 950; sample 850])
    as (c & Hr & Ha & Hd); [apply example_configured|repeat constructor; by vm_compute|].
  exists c. split; [done|]. split; [|done]. rewrite Ha. by vm_compute.
Defined.
