(* ===== verification/ObjectManager.v ===== *)
(** * The object manager

    [src/src/object/manager.rs]: puts that claim a key, place replicas and stage
    them, with bounded eviction and retries when placement fails; finishing and
    revoking them; reads, removals and maintenance.  The manager owns a catalog
    of reservations of a segment pool; whether a reservation is live, and how
    much space is used, are read from that pool.  Reservations the catalog hands
    back are released in the pool in the same step.  A manager call is one step;
    [None] is a panic. *)
From S2P Require Import Prelude Identity Segment ByteAllocator SegmentPool Placement TenantQuota Replica ObjectTypes.
From S2P Require Import CatalogState CatalogWrite CatalogCollector CatalogResources Eviction.

(** What the catalog reads of a reservation. *)
#[global] Instance reservation_resource {Alloc} : Resource (Reservation Alloc) := {
  res_reserved r := reserved_bytes (r_allocation r);
  res_requested r := requested_bytes (r_allocation r)
}.

(** ** Plans and errors *)

Record ObjectPutPlan := mkPlan {
  plan_content : ObjectContent;
  plan_placement : PlacementRequest;
  plan_pins : ObjectPinRequest
}.

Definition ObjectPutPlan_new (c : ObjectContent) (p : PlacementRequest) : ObjectPutPlan :=
  mkPlan c p (mkPinRequest Preserve None false).

Inductive ReplicaSelector :=
| SelectAll
| SelectClass (c : ReplicaClass).

#[global] Instance ReplicaClass_eq_dec : EqDecision ReplicaClass.
Proof. solve_decision. Defined.

Inductive ObjectManagerError :=
| InvalidPlan
| ObjectAlreadyExists
| NoAvailableReplicas
| ObjectNotFound
| IllegalOwner
| ReplicaClassMismatch (requested actual : ReplicaClass)
| InvalidWrite
| ManagerInternal.

Definition from_begin_error (e : BeginError) : ObjectManagerError :=
  match e with
  | EmptyKey | InvalidPinRequest _ => InvalidPlan
  | AlreadyExists | WriteInProgress => ObjectAlreadyExists
  | ReclamationBacklog => NoAvailableReplicas
  end.

Definition from_placement_error (e : PlacementError) : ObjectManagerError :=
  match e with
  | PlacementZeroSize | PlacementZeroReplicas | PlacementReserve ReserveZeroSize => InvalidPlan
  | InsufficientReplicas _ _ | PlacementReserve (NotAccepting _)
  | PlacementReserve (OutOfSpace _) | PlacementReserve (ReserveNotFound _) => NoAvailableReplicas
  | PlacementReserve ForeignCandidate | PlacementReserve (ReserveAddressOverflow _) =>
      ManagerInternal
  end.

Definition from_stage_error (e : StageError) : ObjectManagerError :=
  match e with
  | ZeroSize => InvalidPlan
  | NoReplicas | ReplicaInvalidated _ => NoAvailableReplicas
  | CatalogDropped | ClaimLost | ReplicaTooSmall _ _ _ => ManagerInternal
  | OwnerInactive => InvalidWrite
  end.

Inductive ObjectRemoveError :=
| ObjectRemoveNotFound
| ObjectRemoveNotReady
| ObjectLeased (expires_at : N)
| ObjectHardPinned.

Definition from_remove_error (e : RemoveError) : ObjectRemoveError :=
  match e with
  | RemoveNotFound => ObjectRemoveNotFound
  | RemoveNotReady => ObjectRemoveNotReady
  | Leased t => ObjectLeased t
  | HardPinned => ObjectHardPinned
  end.

Record AllocatedReplica := mkAllocated {
  allocated_id : N;
  allocated_region : MemoryRegion;
  allocated_transport : option TransportEndpoint
}.

Record StartedPut := mkStarted {
  started_class : ReplicaClass;
  started_replicas : list AllocatedReplica
}.

Record AllocationShortfall := mkShortfall {
  reclaim_bytes : N;
  allocation_bytes : N
}.

Record AllocationEviction := mkAllocationEviction {
  made_progress : bool;
  eviction_generation : N
}.

Inductive PrepareClaimedPutError :=
| PrepareAllocation (s : AllocationShortfall)
| PrepareManager (e : ObjectManagerError).

Record ObjectManagerMaintenance := mkMaintenance {
  expired_writes : nat;
  maintenance_catalog : CollectReport;
  maintenance_eviction : option MemoryEvictionStats
}.

Definition allocation_shortfall (plan : ObjectPutPlan) (requested allocated : nat)
    : AllocationShortfall :=
  let missing :=
    match fulfillment (plan_placement plan) with
    | AllOrNothing => (requested - allocated)%nat
    | BestEffort => 1%nat
    end in
  let bytes := alloc_bytes (plan_placement plan) in
  mkShortfall (saturating_mul bytes (N.of_nat missing)) bytes.

Definition validate_selector (actual : ReplicaClass) (s : ReplicaSelector)
    : res ObjectManagerError unit :=
  match s with
  | SelectAll => Ok tt
  | SelectClass requested =>
      if decide (requested = actual) then Ok tt
      else Err (ReplicaClassMismatch requested actual)
  end.

(** ** State *)

Section Manager.
Context {A Alloc : Type} `{U : Upstream A Alloc}.

Local Abbreviation R := (Reservation Alloc).

Record PreparedPut := mkPrepared {
  pp_content : ObjectContent;
  pp_claim : WriteClaim;
  pp_replicas : ReplicaSet R;
  pp_started : StartedPut
}.

(** The manager, with the puts that are prepared but not finalized and the
    version handles that callers hold. *)
Record ObjectManager := mkManager {
  om_catalog : Catalog R;
  om_pool : Pool A;
  observed_segment_epoch : N;
  memory_eviction : option MemoryEvictionController;
  om_prepared : list PreparedPut;
  om_handles : list N
}.

Definition om_new (cid : N) (config : ObjectCatalogConfig)
    (eviction : option MemoryEvictionConfig) (pool : Pool A)
    : res ObjectCatalogConfigError ObjectManager :=
  let? st := with_config cid config in
  Ok (mkManager st pool (invalidation_epoch pool) (controller_new <$> eviction) [] []).

Definition with_catalog (st : Catalog R) (m : ObjectManager) : ObjectManager :=
  mkManager st (om_pool m) (observed_segment_epoch m) (memory_eviction m) (om_prepared m)
    (om_handles m).
Definition with_pool (p : Pool A) (m : ObjectManager) : ObjectManager :=
  mkManager (om_catalog m) p (observed_segment_epoch m) (memory_eviction m) (om_prepared m)
    (om_handles m).
Definition with_epoch (e : N) (m : ObjectManager) : ObjectManager :=
  mkManager (om_catalog m) (om_pool m) e (memory_eviction m) (om_prepared m) (om_handles m).
Definition with_eviction (c : option MemoryEvictionController) (m : ObjectManager)
    : ObjectManager :=
  mkManager (om_catalog m) (om_pool m) (observed_segment_epoch m) c (om_prepared m)
    (om_handles m).
Definition with_prepared (l : list PreparedPut) (m : ObjectManager) : ObjectManager :=
  mkManager (om_catalog m) (om_pool m) (observed_segment_epoch m) (memory_eviction m) l
    (om_handles m).
Definition with_handles (l : list N) (m : ObjectManager) : ObjectManager :=
  mkManager (om_catalog m) (om_pool m) (observed_segment_epoch m) (memory_eviction m)
    (om_prepared m) l.

(** The reservations the callers hold in prepared puts, and all of them. *)
Definition prepared_reservations (m : ObjectManager) : list R :=
  concat (map (fun pp => res_of (pp_replicas pp)) (om_prepared m)).

Definition outstanding (m : ObjectManager) : list R :=
  stored (reps (om_catalog m)) ++ prepared_reservations m.

Definition live_in (p : Pool A) (r : R) : bool := reservation_is_live r p.

Definition is_held (m : ObjectManager) (v : N) : bool := bool_decide (v ∈ om_handles m).

(** Reservations leave the catalog: a batch by [Reservation::release_batch], a
    dropped replica set one by one. *)
Definition hand_back (h : Handback R) (p : Pool A) : option (Pool A) :=
  match h with
  | ReleaseBatch l => pool_release_batch l p
  | DropReplicas l => drop_reservations l p
  end.

Fixpoint hand_back_all (hs : list (Handback R)) (p : Pool A) : option (Pool A) :=
  match hs with
  | [] => Some p
  | h :: hs' => p' ← hand_back h p; hand_back_all hs' p'
  end.

(** The pool after the catalog went from [st] to [st']. *)
Definition settle (st st' : Catalog R) (p : Pool A) : option (Pool A) :=
  hand_back_all (drop (length (freed st)) (freed st')) p.

Definition update_catalog (st' : Catalog R) (m : ObjectManager) : option ObjectManager :=
  p' ← settle (om_catalog m) st' (om_pool m);
  Some (with_pool p' (with_catalog st' m)).

Definition memory_space (m : ObjectManager) : SegmentSpaceStats :=
  space_for (outstanding m) (om_pool m).

(** ** Maintenance *)

Definition observe_epoch (m : ObjectManager) : ObjectManager :=
  let epoch := invalidation_epoch (om_pool m) in
  let m1 := with_epoch epoch m in
  if negb (observed_segment_epoch m =? epoch)
  then with_catalog (request_liveness (om_catalog m)) m1 else m1.

(** The collector run of an enabled controller: a first reclamation, the
    sample, the rest of the run with the bytes the sample asks for, and the
    closing sample. *)
Definition collect_with_watermark (eviction : MemoryEvictionController) (now : N)
    (budget : CollectBudget) (targets : list ReclaimTarget) (m : ObjectManager)
    : option (CollectReport * ObjectManager) :=
  let st := om_catalog m in
  let st1 := (reclaim (is_held m) now budget report_default st).2 in
  m1 ← update_catalog st1 m;
  '(bytes, e1) ← prepare_step (memory_space m1) (stats st1) eviction;
  '(report, st2) ← collect_step_inner (live_in (om_pool m)) (is_held m) false now budget
                     targets true (fun _ => bytes) st;
  m2 ← update_catalog st2 m;
  '(_, e2) ← finish_step (memory_space m2) (stats st2) report e1;
  Some (report, with_eviction (Some e2) m2).

Definition maintenance_with_targets (gate_busy : bool) (now : N) (budget : CollectBudget)
    (targets : list ReclaimTarget) (m : ObjectManager)
    : option (ObjectManagerMaintenance * ObjectManager) :=
  let m1 := observe_epoch m in
  '(report, m2) ←
    match memory_eviction m1 with
    | Some eviction =>
        if gate_busy
        then Some (r_busy report_default, with_eviction (Some (record_busy_step eviction)) m1)
        else collect_with_watermark eviction now budget targets m1
    | None =>
        '(report, st) ← collect_step_inner (live_in (om_pool m1)) (is_held m1) gate_busy now
                          budget targets false (fun _ => 0) (om_catalog m1);
        m2 ← update_catalog st m1;
        Some (report, m2)
    end;
  Some (mkMaintenance (expired_pending report) report
          (e_stats ∘ e_state <$> memory_eviction m2), m2).

Definition maintenance (gate_busy : bool) (now : N) (budget : CollectBudget)
    (m : ObjectManager) : option (ObjectManagerMaintenance * ObjectManager) :=
  maintenance_with_targets gate_busy now budget [] m.

(** ** Allocation failures *)

Definition om_retry_limit (m : ObjectManager) : nat :=
  match memory_eviction m with
  | Some e => allocation_retry_limit (e_config e)
  | None => 0%nat
  end.

Definition evict_after_allocation_failure (gate_busy : bool) (shortfall : AllocationShortfall)
    (now : N) (m : ObjectManager) : option (option AllocationEviction * ObjectManager) :=
  match memory_eviction m with
  | None => Some (None, m)
  | Some eviction =>
      let '(generation, e1) := request_allocation_reclaim (reclaim_bytes shortfall) eviction in
      let m1 := with_eviction (Some e1) m in
      let before := memory_space m1 in
      '(done, m2) ← maintenance gate_busy now (allocation_failure_budget (e_config e1)) m1;
      let report := maintenance_catalog done in
      let after := memory_space m2 in
      let should_retry :=
        negb (busy report) &&
        (allocation_bytes shortfall <=? largest_free_region_bytes after) &&
        (negb (reclaimed_memory_bytes report =? 0) ||
         (space_used_bytes after <? space_used_bytes before) ||
         (largest_free_region_bytes before <? largest_free_region_bytes after)) in
      Some (Some (mkAllocationEviction should_retry generation), m2)
  end.

Definition om_clear_allocation (generation : option N) (m : ObjectManager) : ObjectManager :=
  match memory_eviction m, generation with
  | Some e, Some g => with_eviction (Some (clear_allocation_reclaim g e)) m
  | _, _ => m
  end.

Definition om_record_retry (m : ObjectManager) : ObjectManager :=
  with_eviction (record_allocation_retry <$> memory_eviction m) m.

Definition om_record_retry_success (m : ObjectManager) : ObjectManager :=
  with_eviction (record_allocation_retry_success <$> memory_eviction m) m.

(** ** Puts *)

Definition validate_plan (plan : ObjectPutPlan) (m : ObjectManager)
    : res ObjectManagerError ResolvedObjectPinRequest :=
  if (logical_bytes (plan_content plan) =? 0) ||
     negb (alloc_bytes (plan_placement plan) =? logical_bytes (plan_content plan)) ||
     (replica_count (plan_placement plan) =? 0)%nat
  then Err InvalidPlan
  else match resolve_pin_request (config (om_catalog m)) (plan_pins plan) with
       | Ok pins => Ok pins
       | Err _ => Err InvalidPlan
       | Panic => Panic
       end.

Definition owned_descriptor (p : Pool A) (r : R) : MemoryRegion * option TransportEndpoint :=
  (r_region r, transport ∘ spec <$> entries p !! r_entry r).

Definition started_put (p : Pool A) (c : ReplicaClass) (l : list (ReplicaLease R)) : StartedPut :=
  mkStarted c (map (fun r =>
    let d := owned_descriptor p (lease_reservation r) in
    mkAllocated (lease_id r) d.1 d.2) l).

(** The claim is dropped on every error. *)
Definition prepare_claimed_put (c : WriteClaim) (plan : ObjectPutPlan) (m : ObjectManager)
    : res PrepareClaimedPutError PreparedPut * ObjectManager :=
  let drop_claim m' := with_catalog (claim_drop (live_in (om_pool m')) c (om_catalog m')) m' in
  match placement_reserve (plan_placement plan) (outstanding m) (om_pool m) with
  | (Ok reservations, p) =>
      let m1 := with_pool p m in
      match from_reservations (E := PrepareClaimedPutError) reservations with
      | Ok replicas =>
          if set_is_empty replicas
          then (Err (PrepareAllocation
                  (allocation_shortfall plan (replica_count (plan_placement plan)) 0)),
                drop_claim m1)
          else (Ok (mkPrepared (plan_content plan) c replicas
                      (started_put p Memory (Replica.replicas replicas))), m1)
      | Err e => (Err e, m1)
      | Panic => (Panic, m1)
      end
  | (Err (InsufficientReplicas requested allocated), p) =>
      (Err (PrepareAllocation (allocation_shortfall plan requested allocated)),
       drop_claim (with_pool p m))
  | (Err e, p) => (Err (PrepareManager (from_placement_error e)), drop_claim (with_pool p m))
  | (Panic, p) => (Panic, with_pool p m)
  end.

(** The loop of [prepare_write]: [remaining] retries are left, [retries] were
    taken, and [busy k] tells whether the collector gate is taken during the
    eviction of attempt [k]. *)
Fixpoint prepare_loop (remaining retries : nat) (generation : option N) (busy : nat → bool)
    (i : ObjectIdentity) (o : WriteOwner) (plan : ObjectPutPlan) (mode : WriteMode)
    (pins : ResolvedObjectPinRequest) (now : N) (m : ObjectManager)
    : res ObjectManagerError PreparedPut * ObjectManager :=
  match begin_write_resolved i o mode pins now (om_catalog m) with
  | (Panic, st) => (Panic, with_catalog st m)
  | (Err e, st) => (Err (from_begin_error e), om_clear_allocation generation (with_catalog st m))
  | (Ok claim, st) =>
      match prepare_claimed_put claim plan (with_catalog st m) with
      | (Panic, m1) => (Panic, m1)
      | (Ok prepared, m1) =>
          let m2 := om_clear_allocation generation m1 in
          (Ok prepared, if (retries =? 0)%nat then m2 else om_record_retry_success m2)
      | (Err (PrepareManager e), m1) => (Err e, om_clear_allocation generation m1)
      | (Err (PrepareAllocation shortfall), m1) =>
          match evict_after_allocation_failure (busy retries) shortfall now m1 with
          | None => (Panic, m1)
          | Some (eviction, m2) =>
              let progress := match eviction with Some e => made_progress e | None => false end in
              let generation' :=
                match eviction with Some e => Some (eviction_generation e) | None => generation end in
              if negb progress then (Err NoAvailableReplicas, m2)
              else match remaining with
              | O => (Err NoAvailableReplicas, m2)
              | S n =>
                  prepare_loop n (S retries) generation' busy i o plan mode pins now
                    (om_record_retry m2)
              end
          end
      end
  end.

Definition prepare_write (mode : WriteMode) (busy : nat → bool) (i : ObjectIdentity)
    (o : WriteOwner) (plan : ObjectPutPlan) (now : N) (m : ObjectManager)
    : res ObjectManagerError PreparedPut * ObjectManager :=
  match validate_plan plan m with
  | Err e => (Err e, m)
  | Panic => (Panic, m)
  | Ok pins => prepare_loop (om_retry_limit m) 0 None busy i o plan mode pins now m
  end.

Definition actual_charge_bytes (pp : PreparedPut) : res ObjectManagerError N :=
  ok_or InvalidPlan
    (checked_mul (logical_bytes (pp_content pp)) (N.of_nat (set_len (pp_replicas pp)))).

(** [active_before] and [active_after] are what the admission of the claim says
    before and after staging. *)
Definition finalize_start_put (active_before active_after : bool) (pp : PreparedPut)
    (accounting : option (N * N)) (m : ObjectManager)
    : res ObjectManagerError StartedPut * ObjectManager :=
  match stage_inner (live_in (om_pool m)) active_before active_after (pp_claim pp)
          (pp_content pp) (pp_replicas pp) accounting (om_catalog m) with
  | (Panic, st) => (Panic, with_catalog st m)
  | (r, st) =>
      match update_catalog st m with
      | None => (Panic, m)
      | Some m' =>
          (match r with
           | Ok _ => Ok (pp_started pp)
           | Err e => Err (from_stage_error e)
           | Panic => Panic
           end, m')
      end
  end.

(** A prepared put that is dropped: the claim, then the replicas. *)
Definition drop_prepared (pp : PreparedPut) (m : ObjectManager) : option ObjectManager :=
  let st := claim_drop (live_in (om_pool m)) (pp_claim pp) (om_catalog m) in
  p ← drop_reservations (res_of (pp_replicas pp)) (om_pool m);
  Some (with_pool p (with_catalog st m)).

(** [start_put] and [start_upsert]. *)
Definition start_write (mode : WriteMode) (busy : nat → bool) (i : ObjectIdentity)
    (o : WriteOwner) (plan : ObjectPutPlan) (now : N) (active_before active_after : bool)
    (m : ObjectManager) : res ObjectManagerError StartedPut * ObjectManager :=
  match prepare_write mode busy i o plan now m with
  | (Ok pp, m1) => finalize_start_put active_before active_after pp None m1
  | (Err e, m1) => (Err e, m1)
  | (Panic, m1) => (Panic, m1)
  end.

(** ** Finishing and revoking *)

Definition validate_replicas_of (l : list (ReplicaLease R)) (s : ReplicaSelector)
    : res ObjectManagerError unit :=
  match l with
  | [] => Err ManagerInternal
  | _ :: _ => validate_selector Memory s
  end.

(** The owner of a version and the class of the replicas that [view] shows of
    it. *)
Definition validate_version (view : list (ReplicaLease R) → list (ReplicaLease R)) (v : N) (o : WriteOwner)
    (s : ReplicaSelector) (m : ObjectManager) : res ObjectManagerError unit :=
  match versions (om_catalog m) !! v with
  | None => Panic
  | Some ver =>
      if negb (bool_decide (v_owner ver = o)) then Err IllegalOwner
      else validate_replicas_of (view (replicas (v_replicas ver))) s
  end.

(** A pending version shows all its replicas, a published one those that are
    live. *)
Definition validate_pending : N → WriteOwner → ReplicaSelector → ObjectManager → res ObjectManagerError unit :=
  validate_version (fun l => l).
Definition validate_published (v : N) (o : WriteOwner) (s : ReplicaSelector) (m : ObjectManager)
    : res ObjectManagerError unit :=
  validate_version (filter (fun r => live_in (om_pool m) (lease_reservation r) = true)) v o s m.

Definition finish_put (i : ObjectIdentity) (o : WriteOwner) (s : ReplicaSelector) (now : N)
    (m : ObjectManager) : res ObjectManagerError unit * ObjectManager :=
  match resolve_write i (om_catalog m) with
  | Panic => (Panic, m)
  | Err LookupNotFound => (Err ObjectNotFound, m)
  | Err LookupNotReady => (Err InvalidWrite, m)
  | Ok (WriteCommitted v) => (validate_published v o s m, m)
  | Ok (WriteActive tx) =>
      match validate_pending (tx_pending tx) o s m with
      | Panic => (Panic, m)
      | Err e => (Err e, m)
      | Ok _ =>
          let alive := live_in (om_pool m) in
          let '(r, st) := commit alive alive tx (mkCommit None) now (om_catalog m) in
          (match r with
           | Ok _ => Ok tt
           | Err CommitTransactionGone | Err NotStaged => Err ObjectNotFound
           | Err ReplicasInvalidated => Err NoAvailableReplicas
           | Err CommitForeignCatalog | Err CommitConflict => Err ManagerInternal
           | Panic => Panic
           end, with_catalog st m)
      end
  end.

Definition revoke_put (i : ObjectIdentity) (o : WriteOwner) (s : ReplicaSelector) (now : N)
    (m : ObjectManager) : res ObjectManagerError unit * ObjectManager :=
  match resolve_write i (om_catalog m) with
  | Panic => (Panic, m)
  | Err _ => (Err ObjectNotFound, m)
  | Ok (WriteCommitted v) =>
      (let? _ := validate_published v o s m in Err InvalidWrite, m)
  | Ok (WriteActive tx) =>
      match validate_pending (tx_pending tx) o s m with
      | Panic => (Panic, m)
      | Err e => (Err e, m)
      | Ok _ =>
          let '(r, st) := abort (live_in (om_pool m)) tx now (om_catalog m) in
          (match r with
           | Ok _ => Ok tt
           | Err AbortTransactionGone => Err ObjectNotFound
           | Err AlreadyCommitted => Err InvalidWrite
           | Err AbortForeignCatalog => Err ManagerInternal
           | Panic => Panic
           end, with_catalog st m)
      end
  end.

Definition revoke_sessions (owners : list WriteOwner) (now : N) (m : ObjectManager)
    : N * ObjectManager :=
  let '(n, st) := revoke_pending_owners (live_in (om_pool m)) owners now (om_catalog m) in
  (n, with_catalog st m).

(** ** Reads and removals *)

Definition om_get (i : ObjectIdentity) (now : N) (m : ObjectManager)
    : res LookupError ObjectRead * ObjectManager :=
  let '(r, st) := get (live_in (om_pool m)) i now (om_catalog m) in (r, with_catalog st m).

Definition om_exists (i : ObjectIdentity) (now : N) (m : ObjectManager)
    : bool * ObjectManager :=
  let '(r, m') := om_get i now m in
  (match r with Ok _ => true | _ => false end, m').

Definition om_remove (i : ObjectIdentity) (now : N) (force : bool) (m : ObjectManager)
    : res ObjectRemoveError unit * ObjectManager :=
  let '(r, st) := remove_with_force i now force (om_catalog m) in
  (match r with
   | Ok x => Ok x
   | Err e => Err (from_remove_error e)
   | Panic => Panic
   end, with_catalog st m).

Fixpoint remove_batch (l : list ObjectIdentity) (now : N) (force : bool) (m : ObjectManager)
    : list (res ObjectRemoveError unit) * ObjectManager :=
  match l with
  | [] => ([], m)
  | i :: l' =>
      let '(r, m1) := om_remove i now force m in
      let '(rs, m2) := remove_batch l' now force m1 in
      (r :: rs, m2)
  end.

(** [pattern] is the match of the regular expression, when there is one. *)
Definition remove_matching (ns : N) (pattern : option (string → bool)) (now : N)
    (force : bool) (m : ObjectManager) : nat * ObjectManager :=
  let selected :=
    filter (fun i => match pattern with Some f => f (key i) | None => true end = true)
      (identities ns (om_catalog m)) in
  let '(rs, m') := remove_batch selected now force m in
  (length (filter (fun r => match r with Ok _ => true | _ => false end = true) rs), m').
End Manager.

Arguments ObjectManager A Alloc : clear implicits.
Arguments PreparedPut Alloc : clear implicits.
