(* ===== verification/ManagerWorld.v ===== *)
(** * The object manager with its callers

    The calls of the object manager and of the segment pool in any order, the
    invariant of both together, and the catalog calls each manager call is made
    of: every state of the manager's catalog is a state of the catalog of
    [CatalogWorld], and the reservations that the pool counts as handed out are
    exactly those of the catalog's replica sets and of the prepared puts. *)
From stdpp Require Import relations.
From S2P Require Import Prelude Identity Segment ByteAllocator SegmentPool Placement TenantQuota Replica ObjectTypes.
From S2P Require Import CatalogState CatalogWrite CatalogCollector CatalogInv CatalogOps CatalogSteps CatalogSlots.
From S2P Require Import CatalogWorld CatalogProps CatalogProtect CatalogResources Eviction ObjectManager.

Section Steps.
Context {A Alloc : Type} `{U : Upstream A Alloc}.
Local Abbreviation R := (Reservation Alloc).
Implicit Types (m : ObjectManager A Alloc).

Inductive manager_op :=
| MPrepare (mode : WriteMode) (busy : nat → bool) (i : ObjectIdentity) (o : WriteOwner)
    (plan : ObjectPutPlan) (now : N)
| MFinalize (k : nat) (active_before active_after : bool) (accounting : option (N * N))
| MDropPrepared (k : nat)
| MFinish (i : ObjectIdentity) (o : WriteOwner) (s : ReplicaSelector) (now : N)
| MRevoke (i : ObjectIdentity) (o : WriteOwner) (s : ReplicaSelector) (now : N)
| MRevokeSessions (owners : list WriteOwner) (now : N)
| MGet (i : ObjectIdentity) (now : N)
| MRemove (i : ObjectIdentity) (now : N) (force : bool)
| MRemoveMatching (ns : N) (pattern : option (string → bool)) (now : N) (force : bool)
| MMaintenance (busy : bool) (now : N) (budget : CollectBudget) (targets : list ReclaimTarget)
| MSegment (op : pool_op)
| MDropHandle (k : nat)
| MAccounts (accs : gmap N QuotaAccount).

(** The calls of the segment pool that are not made by the manager. *)
Definition segment_op (op : pool_op) : bool :=
  match op with
  | PReserve _ _ | PReserveOn _ _ | PRelease _ => false
  | _ => true
  end.

(** [None] is a panic. *)
Definition manager_step (op : manager_op) m : option (ObjectManager A Alloc) :=
  match op with
  | MPrepare mode busy i o plan now =>
      match prepare_write mode busy i o plan now m with
      | (Panic, _) => None
      | (Ok pp, m') => Some (with_prepared (om_prepared m' ++ [pp]) m')
      | (Err _, m') => Some m'
      end
  | MFinalize k b1 b2 accounting =>
      match om_prepared m !! k with
      | None => Some m
      | Some pp =>
          match finalize_start_put b1 b2 pp accounting
                  (with_prepared (delete k (om_prepared m)) m) with
          | (Panic, _) => None
          | (_, m') => Some m'
          end
      end
  | MDropPrepared k =>
      match om_prepared m !! k with
      | None => Some m
      | Some pp => drop_prepared pp (with_prepared (delete k (om_prepared m)) m)
      end
  | MFinish i o s now =>
      match finish_put i o s now m with (Panic, _) => None | (_, m') => Some m' end
  | MRevoke i o s now =>
      match revoke_put i o s now m with (Panic, _) => None | (_, m') => Some m' end
  | MRevokeSessions owners now => Some (revoke_sessions owners now m).2
  | MGet i now =>
      match om_get i now m with
      | (Panic, _) => None
      | (r, m') => Some (with_handles (keep_handle read_version r (om_handles m')) m')
      end
  | MRemove i now force =>
      match om_remove i now force m with (Panic, _) => None | (_, m') => Some m' end
  | MRemoveMatching ns pattern now force => Some (remove_matching ns pattern now force m).2
  | MMaintenance busy now budget targets =>
      snd <$> maintenance_with_targets busy now budget targets m
  | MSegment pop =>
      if segment_op pop
      then w ← pool_step pop (mkPoolWorld (om_pool m) (outstanding m));
           Some (with_pool (pool w) m)
      else Some m
  | MDropHandle k => Some (with_handles (delete k (om_handles m)) m)
  | MAccounts accs => Some (with_catalog (set_accounts accs (om_catalog m)) m)
  end.

(** The bytes handed out fit the byte counters when a put is staged. *)
Definition manager_env (op : manager_op) m : Prop :=
  match op with
  | MFinalize _ _ _ _ => sum_by res_reserved (outstanding m) <= U64_MAX
  | _ => True
  end.

Inductive manager_reachable (cid pid nodes : N) (conf : ObjectCatalogConfig)
    (eviction : option MemoryEvictionConfig) : ObjectManager A Alloc → Prop :=
| mreach_new m :
    pool_config_valid nodes = true → (∀ c, eviction = Some c → configured c) →
    om_new cid conf eviction (pool_new pid nodes) = Ok m →
    manager_reachable cid pid nodes conf eviction m
| mreach_step op m m' :
    manager_reachable cid pid nodes conf eviction m → manager_env op m →
    manager_step op m = Some m' → manager_reachable cid pid nodes conf eviction m'.

(** The manager's catalog and what its callers hold of it. *)
Definition cat_world m : CatWorld :=
  mkWorld (om_catalog m) (pp_claim <$> om_prepared m) (om_handles m).
End Steps.

(** ** Catalog calls *)

Section Calls.
Context {A Alloc : Type} `{L : UpstreamLaws A Alloc}.
Local Abbreviation R := (Reservation Alloc).
Implicit Types (m : ObjectManager A Alloc) (st : Catalog R) (es : gmap N SegmentEntry).

Definition live_at es (r : R) : bool :=
  match es !! r_entry r with Some e => live e | None => false end.

(** The bytes that are still held of segments that are no longer mounted. *)
Definition stray_bytes es (rs : list R) : N := sum_by res_reserved (filter (fun r => live_at es r = false) rs).

Lemma stray_app es (l k : list R) : stray_bytes es (l ++ k) = stray_bytes es l + stray_bytes es k.
Proof. unfold stray_bytes. by rewrite filter_app, sum_by_app. Qed.

#[export] Instance stray_perm es : Proper ((≡ₚ) ==> eq) (stray_bytes es).
Proof. intros l k Hl. unfold stray_bytes. by rewrite Hl. Qed.

(** The catalog calls of a manager call: collector runs read the segments as
    they are, at the time of the call, removals are the ones asked for, only a
    put that is finalized stages, and only the tenants change the accounts. *)
Definition cat_allowed es (now : N) (force stages tenants : bool) (op : cat_op (R := R)) : Prop :=
  match op with
  | OStage _ _ _ _ _ _ _ => stages = true
  | OAccounts _ => tenants = true
  | OCollect alive _ t _ _ _ _ => t = now ∧ ∀ r, alive r = live_at es r
  | ORemove _ t f => t = now ∧ f = force
  | _ => True
  end.

Definition cstep (P : cat_op → Prop) (w w' : CatWorld (R := R)) : Prop :=
  ∃ op, P op ∧ cat_env op w ∧ cat_step op w = Some w'.

Lemma csteps_reachable P cid conf w w' :
  rtc (cstep P) w w' → reachable cid conf w → reachable cid conf w'.
Proof. induction 1 as [|w1 w2 w3 (op & _ & He & Hs) _ IH]; eauto using reachable. Qed.

(** ** Handing reservations back *)

Lemma hand_back_ok h p rest :
  pool_inv p (batch_of h ++ rest) →
  ∃ p', hand_back h p = Some p' ∧ pool_inv p' rest ∧ pool_frame p' = pool_frame p.
Proof.
  intros Hp. destruct h as [l|l]; simpl in *.
  - destruct (pool_release_ok (length l) p (l ++ rest) Hp) as (p' & Hr & Hi & He).
    rewrite take_app_length in Hr. rewrite drop_app_length in Hi. eauto.
  - by apply drop_reservations_ok.
Qed.

Lemma hand_back_all_ok hs : ∀ p rest,
  pool_inv p (handed hs ++ rest) →
  ∃ p', hand_back_all hs p = Some p' ∧ pool_inv p' rest ∧ pool_frame p' = pool_frame p.
Proof.
  induction hs as [|h hs IH]; intros p rest Hp; simpl; [eauto|].
  destruct (hand_back_ok h p (handed hs ++ rest)) as (p1 & -> & Hp1 & He1);
    [by rewrite app_assoc|]. simpl.
  destruct (IH p1 rest Hp1) as (p' & -> & Hp' & He'). exists p'. split_and!; [done..|congruence].
Qed.

Lemma settle_ok st extra st' p rest :
  conserves st extra st' → pool_inv p (stored (reps st) ++ extra ++ rest) →
  ∃ p', settle st st' p = Some p' ∧ pool_inv p' (stored (reps st') ++ rest) ∧
    pool_frame p' = pool_frame p.
Proof.
  intros (new & Hf & Hc) Hp. unfold settle. rewrite Hf, drop_app_length.
  apply hand_back_all_ok. eapply pool_inv_perm; [|exact Hp].
  rewrite app_assoc, <- Hc, <- !app_assoc. rewrite !app_assoc.
  by rewrite (Permutation_app_comm (stored (reps st'))).
Qed.

(** What is handed back is no longer held. *)
Lemma conserves_stray es st extra st' :
  conserves st extra st' → stray_bytes es (stored (reps st')) <= stray_bytes es (stored (reps st)) + stray_bytes es extra.
Proof. intros (new & _ & Hc). rewrite <- stray_app, <- Hc, stray_app. lia. Qed.

(** ** The invariant *)

(** A prepared put has replicas, and its answer tells their regions. *)
Definition regions_of (l : list (ReplicaLease R)) : list (N * MemoryRegion) :=
  map (fun r => (lease_id r, r_region (lease_reservation r))) l.

Record prepared_ok (pp : PreparedPut Alloc) : Prop := {
  po_normal : normal (pp_replicas pp);
  po_started : map (fun a => (allocated_id a, allocated_region a)) (started_replicas (pp_started pp)) =
    regions_of (replicas (pp_replicas pp))
}.

Record minv cid conf m : Prop := {
  mi_cat : reachable cid conf (cat_world m);
  mi_pool : pool_inv (om_pool m) (outstanding m);
  mi_prepared : Forall prepared_ok (om_prepared m);
  mi_eviction e : memory_eviction m = Some e → eviction_valid (e_config e)
}.

(** From [m] to [m'] by catalog calls and pool changes that leave the segments. *)
Record mpath (P : cat_op → Prop) (fr : Pool A) cid conf m m' : Prop := {
  mp_inv : minv cid conf m';
  mp_frame : pool_frame (om_pool m') = fr;
  mp_cat : rtc (cstep P) (cat_world m) (cat_world m');
  mp_stray : stray_bytes (entries fr) (outstanding m') <= stray_bytes (entries fr) (outstanding m)
}.

Lemma mpath_refl P fr cid conf m :
  minv cid conf m → pool_frame (om_pool m) = fr → mpath P fr cid conf m m.
Proof. by split. Qed.

Lemma mpath_trans P fr cid conf m1 m2 m3 :
  mpath P fr cid conf m1 m2 → mpath P fr cid conf m2 m3 →
  mpath P fr cid conf m1 m3.
Proof. intros [] []. split; [done..|by etrans|by etrans]. Qed.

Lemma minv_inv cid conf m : minv cid conf m → inv (om_catalog m).
Proof. intros Hm. exact (w_inv _ _ (reachable_inv _ _ _ (mi_cat _ _ _ Hm))). Qed.

Lemma minv_config cid conf m : minv cid conf m → config (om_catalog m) = conf.
Proof. intros Hm. exact (w_config _ _ (reachable_inv _ _ _ (mi_cat _ _ _ Hm))). Qed.

Lemma mpath_weaken (P Q : cat_op → Prop) fr cid conf m m' :
  (∀ op, P op → Q op) → mpath P fr cid conf m m' → mpath Q fr cid conf m m'.
Proof.
  intros HPQ [Hi He Hc Hst]. split; [done..| |done]. eapply rtc_subrel; [|exact Hc].
  intros w w' (op & Hop & Hs). exists op. auto.
Qed.

(** The controller may change as long as its policy stays valid. *)
Lemma mpath_eviction P fr cid conf m e :
  minv cid conf m → pool_frame (om_pool m) = fr →
  (∀ c, e = Some c → eviction_valid (e_config c)) →
  mpath P fr cid conf m (with_eviction e m).
Proof. intros [Hc Hp Hn _] He Hv. split; [by split|done|apply rtc_refl|done]. Qed.

Lemma mpath_epoch P fr cid conf m e :
  minv cid conf m → pool_frame (om_pool m) = fr → mpath P fr cid conf m (with_epoch e m).
Proof. intros [] He. split; [by split|done|apply rtc_refl|done]. Qed.

Lemma outstanding_sig m st' : sig st' = sig (om_catalog m) → outstanding (with_catalog st' m) = outstanding m.
Proof. unfold sig, outstanding. simpl. by intros [= -> _]. Qed.

(** One catalog call, the pool settled after it. *)
Lemma call_settled P fr cid conf m op st' :
  minv cid conf m → pool_frame (om_pool m) = fr → P op →
  cat_env op (cat_world m) → staged op (cat_world m) = [] →
  cat_step op (cat_world m) = Some (mkWorld st' (pp_claim <$> om_prepared m) (om_handles m)) →
  ∃ m', update_catalog st' m = Some m' ∧ mpath P fr cid conf m m' ∧
    om_catalog m' = st' ∧ memory_eviction m' = memory_eviction m ∧ om_handles m' = om_handles m.
Proof.
  intros Hm He Ha Henv Hst Hs.
  pose proof (cat_step_conserves op (cat_world m) _ (minv_inv _ _ _ Hm) Hs) as Hcons. rewrite Hst in Hcons.
  destruct (settle_ok (om_catalog m) [] st' (om_pool m) (prepared_reservations m) Hcons
    (mi_pool _ _ _ Hm)) as (p' & Hset & Hp' & Hen).
  exists (with_pool p' (with_catalog st' m)). unfold update_catalog. rewrite Hset.
  split_and!; try done. split; simpl; [split; simpl|congruence| |].
  - eapply reach_step; [apply Hm|exact Henv|exact Hs].
  - exact Hp'.
  - apply Hm.
  - apply Hm.
  - apply rtc_once. by exists op.
  - unfold outstanding. simpl. rewrite !stray_app. change (prepared_reservations (with_pool _ _)) with (prepared_reservations m).
    pose proof (conserves_stray (entries fr) _ _ _ Hcons) as Hle. change (stray_bytes _ []) with 0 in Hle. cbn [cat cat_world] in Hle. lia.
Qed.

(** One catalog call that keeps all reservations. *)
Lemma call_kept P fr cid conf m op st' :
  minv cid conf m → pool_frame (om_pool m) = fr → P op →
  cat_env op (cat_world m) → sig st' = sig (om_catalog m) →
  cat_step op (cat_world m) = Some (mkWorld st' (pp_claim <$> om_prepared m) (om_handles m)) →
  mpath P fr cid conf m (with_catalog st' m).
Proof.
  intros Hm He Ha Henv Hsig Hs. pose proof (outstanding_sig m st' Hsig) as Hout. split; simpl; [split; simpl|done| |].
  - eapply reach_step; [apply Hm|exact Henv|exact Hs].
  - rewrite Hout. apply Hm.
  - apply Hm.
  - apply Hm.
  - apply rtc_once. by exists op.
  - by rewrite Hout.
Qed.
End Calls.

(** ** Maintenance *)

Section Maintenance.
Context {A Alloc : Type} `{L : UpstreamLaws A Alloc}.
Local Abbreviation R := (Reservation Alloc).
Implicit Types (m : ObjectManager A Alloc) (st : Catalog R).
Context (fr : Pool A) (now : N) (cid : N) (conf : ObjectCatalogConfig).

(** Maintenance requests liveness scans and runs the collector. *)
Definition maintenance_call (op : cat_op (R := R)) : Prop :=
  match op with
  | OCollect alive _ t _ _ _ _ => t = now ∧ ∀ r, alive r = live_at (entries fr) r
  | ORequestLiveness => True
  | _ => False
  end.

Local Abbreviation path := (mpath maintenance_call fr cid conf).

Lemma space_for_capacity (rs : list R) (p : Pool A) : capacity_bytes (space_for rs p) <= U64_MAX.
Proof.
  unfold space_for. generalize (map snd (map_to_list (segments p))). intros l.
  assert (∀ acc, capacity_bytes acc <= U64_MAX → capacity_bytes (foldl (fun acc addr =>
    match pool_stats_at rs p addr with
    | Some s => mkSpace (saturating_add (capacity_bytes acc) (capacity_bytes (space s)))
        (saturating_add (space_used_bytes acc) (space_used_bytes (space s)))
        (saturating_add (available_bytes acc) (available_bytes (space s)))
        (N.max (largest_free_region_bytes acc) (largest_free_region_bytes (space s)))
    | None => acc end) acc l) <= U64_MAX) as Hgen; [|by apply Hgen].
  induction l as [|a l IH]; intros acc Hacc; simpl; [done|]. apply IH.
  destruct (pool_stats_at rs p a); simpl; [apply N.le_min_r|done].
Qed.

Lemma prepare_step_total space catalog e :
  eviction_valid (e_config e) → capacity_bytes space <= U64_MAX →
  ∃ bytes e', prepare_step space catalog e = Some (bytes, e') ∧ e_config e' = e_config e.
Proof.
  intros Hv Hc. destruct (watermarks_ok _ _ Hv Hc) as (Hh & Hl & _). unfold prepare_step.
  rewrite Hh, Hl. simpl. eauto.
Qed.

Lemma finish_step_total space catalog report e :
  eviction_valid (e_config e) → capacity_bytes space <= U64_MAX →
  ∃ b e', finish_step space catalog report e = Some (b, e') ∧ e_config e' = e_config e.
Proof.
  intros Hv Hc. destruct (watermarks_ok _ _ Hv Hc) as (Hh & Hl & _). unfold finish_step.
  rewrite Hh, Hl. simpl. eauto.
Qed.

(** A collector run and its hand-backs. *)
Lemma collect_call m busy budget targets first wm :
  minv cid conf m → pool_frame (om_pool m) = fr →
  ∃ rep st' m', collect_step_inner (live_in (om_pool m)) (is_held m) busy now budget targets first
      wm (om_catalog m) = Some (rep, st') ∧
    update_catalog st' m = Some m' ∧ path m m' ∧ om_catalog m' = st' ∧
    memory_eviction m' = memory_eviction m.
Proof.
  intros Hm He.
  destruct (collect_inv (live_in (om_pool m)) (is_held m) busy now budget targets first wm _
    (minv_inv _ _ _ Hm)) as (rep & st' & Hc & _).
  destruct (call_settled maintenance_call fr cid conf m
    (OCollect (live_in (om_pool m)) busy now budget targets first wm) st')
    as (m' & Hu & Hp & Hcat & Hev & _); try done.
  - split; [done|]. intros r. unfold live_in, reservation_is_live, live_at. by rewrite <- He.
  - simpl. change (fun v => bool_decide (v ∈ om_handles m)) with (is_held m). by rewrite Hc.
  - exists rep, st', m'. done.
Qed.

Lemma observe_path m : minv cid conf m → pool_frame (om_pool m) = fr → path m (observe_epoch m).
Proof.
  intros Hm He. unfold observe_epoch.
  pose proof (mpath_epoch maintenance_call fr cid conf m (invalidation_epoch (om_pool m)) Hm He) as Hp.
  destruct (negb _); [|done]. eapply mpath_trans; [exact Hp|].
  by apply (call_kept maintenance_call fr cid conf _ ORequestLiveness); [apply Hp|..].
Qed.

Lemma collect_with_watermark_path eviction budget targets m :
  minv cid conf m → pool_frame (om_pool m) = fr → eviction_valid (e_config eviction) →
  ∃ rep m', collect_with_watermark eviction now budget targets m = Some (rep, m') ∧ path m m'.
Proof.
  intros Hm He Hv. unfold collect_with_watermark.
  set (st1 := (reclaim (is_held m) now budget report_default (om_catalog m)).2).
  destruct (settle_ok (om_catalog m) [] st1 (om_pool m) (prepared_reservations m)
    (reclaim_conserves _ _ _ _ _) (mi_pool _ _ _ Hm)) as (p1 & Hs1 & _).
  assert (update_catalog st1 m = Some (with_pool p1 (with_catalog st1 m))) as ->
    by (unfold update_catalog; by rewrite Hs1). cbn [mbind option_bind].
  edestruct (prepare_step_total (memory_space (with_pool p1 (with_catalog st1 m))) (stats st1)
    eviction) as (bytes & e1 & -> & Hc1); [done|apply space_for_capacity|]. cbn [mbind option_bind].
  destruct (collect_call m false budget targets true (fun _ => bytes) Hm He)
    as (rep & st2 & m2 & -> & Hu & Hp & _). cbn [mbind option_bind]. rewrite Hu. cbn [mbind option_bind].
  edestruct (finish_step_total (memory_space m2) (stats st2) rep e1) as (b & e2 & -> & Hc2);
    [by rewrite Hc1|apply space_for_capacity|]. cbn [mbind option_bind].
  eexists _, _. split; [done|]. eapply mpath_trans; [exact Hp|].
  apply mpath_eviction; [apply Hp..|]. intros c [= <-]. by rewrite Hc2, Hc1.
Qed.

Lemma maintenance_path busy budget targets m :
  minv cid conf m → pool_frame (om_pool m) = fr →
  ∃ rep m', maintenance_with_targets busy now budget targets m = Some (rep, m') ∧ path m m'.
Proof.
  intros Hm He. unfold maintenance_with_targets.
  pose proof (observe_path m Hm He) as Hp1. set (m1 := observe_epoch m) in *.
  pose proof (mp_inv _ _ _ _ _ _ Hp1) as Hm1. pose proof (mp_frame _ _ _ _ _ _ Hp1) as He1.
  destruct (memory_eviction m1) as [e|] eqn:Hev.
  - pose proof (mi_eviction _ _ _ Hm1 e Hev) as Hv. destruct busy.
    + simpl. eexists _, _. split; [done|]. eapply mpath_trans; [exact Hp1|].
      apply mpath_eviction; [done..|]. by intros c [= <-].
    + destruct (collect_with_watermark_path e budget targets m1 Hm1 He1 Hv) as (rep & m2 & -> & Hp2).
      simpl. eexists _, _. split; [done|]. by eapply mpath_trans.
  - destruct (collect_call m1 busy budget targets false (fun _ => 0) Hm1 He1)
      as (rep & st2 & m2 & -> & Hu & Hp2 & _). simpl. rewrite Hu. simpl.
    eexists _, _. split; [done|]. by eapply mpath_trans.
Qed.

Lemma evict_after_path busy shortfall m :
  minv cid conf m → pool_frame (om_pool m) = fr →
  ∃ ev m', evict_after_allocation_failure busy shortfall now m = Some (ev, m') ∧ path m m'.
Proof.
  intros Hm He. unfold evict_after_allocation_failure.
  destruct (memory_eviction m) as [e|] eqn:Hev; [|eexists _, _; split; [done|by apply mpath_refl]].
  destruct (request_allocation_reclaim (reclaim_bytes shortfall) e) as [g e1] eqn:Hr.
  assert (e_config e1 = e_config e) as Hc1 by (by unfold request_allocation_reclaim in Hr; injection Hr as _ <-).
  assert (path m (with_eviction (Some e1) m)) as Hp1.
  { apply mpath_eviction; [done..|]. intros c [= <-]. rewrite Hc1. by apply (mi_eviction _ _ _ Hm). }
  destruct (maintenance_path busy (allocation_failure_budget (e_config e1)) []
    (with_eviction (Some e1) m)) as (rep & m2 & Hmt & Hp2); [apply Hp1..|].
  unfold maintenance. rewrite Hmt. simpl. eexists _, _. split; [done|]. by eapply mpath_trans.
Qed.

(** The small changes of the controller. *)
Lemma clear_allocation_path g m :
  minv cid conf m → pool_frame (om_pool m) = fr → path m (om_clear_allocation g m).
Proof.
  intros Hm He. unfold om_clear_allocation.
  destruct (memory_eviction m) as [e|] eqn:Hev; [|by apply mpath_refl].
  destruct g as [g|]; [|by apply mpath_refl]. apply mpath_eviction; [done..|]. intros c [= <-].
  unfold clear_allocation_reclaim. destruct (negb _); exact (mi_eviction _ _ _ Hm e Hev).
Qed.

Lemma record_path f m :
  (∀ e, e_config (f e) = e_config e) → minv cid conf m → pool_frame (om_pool m) = fr →
  path m (with_eviction (f <$> memory_eviction m) m).
Proof.
  intros Hf Hm He. apply mpath_eviction; [done..|]. intros c Hc.
  destruct (memory_eviction m) as [e|] eqn:Hev; simpl in Hc; [|done]. injection Hc as <-.
  rewrite Hf. exact (mi_eviction _ _ _ Hm e Hev).
Qed.
End Maintenance.

(** ** Numbers left *)

Section Numbers.
Context {R : Type} `{Resource R}.
Implicit Types (st : Catalog R).

(** Every slot can begin [n] more transactions and publish once more. *)
Definition spare (n : N) st : Prop :=
  ∀ a s, slots st !! a = Some s →
    next_transaction_id s + n <= U64_MAX ∧ next_version_id s < U64_MAX.

Lemma spare_ids_left n st : 0 < n → spare n st → ids_left st.
Proof. intros Hn Hs a s Ha. destruct (Hs a s Ha). split; [lia|done]. Qed.

Definition quiet_label (l : slot_label) : bool :=
  match l with LNew | LClaim | LPublish _ => false | _ => true end.

Lemma quiet_moves K a o o' n :
  (∀ b l, K b l → quiet_label l = true) → rtc (slot_moves K a) o o' →
  (∀ s, o = Some s → next_transaction_id s + n <= U64_MAX ∧ next_version_id s < U64_MAX) →
  ∀ s, o' = Some s → next_transaction_id s + n <= U64_MAX ∧ next_version_id s < U64_MAX.
Proof.
  intros HK Hr. induction Hr as [|o1 o2 o3 (l & Hl & Hst) _ IH]; [done|]. intros Ho. apply IH.
  pose proof (HK a l Hl) as Hq. intros s ->.
  inversion Hst; subst; simpl in *; try done; by apply (Ho _ eq_refl).
Qed.

Lemma quiet_spare K st st' n :
  (∀ b l, K b l → quiet_label l = true) → lsteps K st st' → spare n st → spare n st'.
Proof.
  intros HK [_ Hs] Hn a s. apply (quiet_moves K a (slots st !! a)); [done|apply Hs|apply Hn].
Qed.

Lemma begin_spare i o mode pins now st n c st' :
  n <= 16 → spare (n + 1) st → begin_write_resolved i o mode pins now st = (Ok c, st') → spare n st'.
Proof.
  intros Hle Hn. unfold begin_write_resolved. destruct (key_is_empty i); [done|].
  destruct (_ <=? _); [done|]. destruct (lookup_slot i st) as [a|].
  - destruct (slots st !! a) as [s|] eqn:Hs; [|done]. destruct (active s); [done|].
    destruct (checked_add (next_transaction_id s) 1) as [nx|] eqn:Hx.
    2: { destruct mode, (committed s); done. }
    apply checked_add_Some in Hx as [-> Hx]. destruct (Hn a s Hs) as [H1 H2].
    assert (∀ t, spare n (count on_claim (update_slot a (fun s0 => set_active (Some t)
      (set_next_ids (next_transaction_id s + 1) (next_version_id s0) s0)) st))) as Hsp.
    { intros t b s'. simpl. destruct (decide (a = b)) as [->|Hne].
      - rewrite lookup_alter_eq, Hs. intros [= <-]. simpl. split; [lia|done].
      - rewrite lookup_alter_ne by done. intros Hb. destruct (Hn b s' Hb). split; [lia|done]. }
    destruct mode, (committed s); try done; intros [= _ <-]; apply Hsp.
  - intros [= _ <-] b s'. simpl. intros [[_ <-]|[_ Hb]]%lookup_insert_Some.
    + simpl. unfold U64_MAX. lia.
    + destruct (Hn b s' Hb). split; [lia|done].
Qed.

Lemma claim_drop_spare alive c st n : spare n st → spare n (claim_drop alive c st).
Proof.
  apply (quiet_spare (fun _ l => l = LUnclaim)); [by intros b l ->|]. by apply ls_claim_drop.
Qed.

Lemma collect_call_spare (P : cat_op (R := R) → Prop) cid conf w w' n :
  (∀ op, P op → match op with OCollect _ _ _ _ _ _ _ | ORequestLiveness => True | _ => False end) →
  rtc (fun v v' => ∃ op, P op ∧ cat_env op v ∧ cat_step op v = Some v') w w' →
  reachable cid conf w → spare n (cat w) → spare n (cat w').
Proof.
  intros HP. induction 1 as [|w1 w2 w3 (op & Hop & Henv & Hs) _ IH]; [done|]. intros Hr Hn.
  apply IH; [by eapply reach_step|].
  eapply (quiet_spare (op_allows op w1)); [|apply cat_step_slots; [|exact Hs]|exact Hn].
  - intros b l. specialize (HP op Hop). destruct op; try done. simpl. unfold collector_labels.
    by intros [->|[->| ->]].
  - exact (w_inv _ _ (reachable_inv _ _ _ Hr)).
Qed.
End Numbers.

(** ** Puts *)

Section Puts.
Context {A Alloc : Type} `{L : UpstreamLaws A Alloc}.
Local Abbreviation R := (Reservation Alloc).
Implicit Types (m : ObjectManager A Alloc) (st : Catalog R).
Context (fr : Pool A) (now : N) (force : bool) (cid : N) (conf : ObjectCatalogConfig).
Local Abbreviation path := (mpath (cat_allowed (entries fr) now force false false) fr cid conf).

(** A caller keeps a prepared put. *)
Definition pushed (pp : PreparedPut Alloc) m : ObjectManager A Alloc :=
  with_prepared (om_prepared m ++ [pp]) m.

Lemma res_of_reservations (l : list R) rs :
  from_reservations (E := PrepareClaimedPutError) l = Ok rs → normal rs ∧ res_of rs = l.
Proof.
  unfold from_reservations. destruct (_ <=? _); [|done]. intros [= <-].
  split; [apply new_normal|]. unfold res_of. rewrite replicas_new.
  change (lease_reservation <$> imap (λ (i : nat) (r : R), mkLease (N.of_nat i + 1) r) l = l).
  rewrite fmap_imap. apply list_eq. intros k. rewrite list_lookup_imap. by destruct (l !! k).
Qed.

Lemma outstanding_pushed pp m : outstanding (pushed pp m) ≡ₚ res_of (pp_replicas pp) ++ outstanding m.
Proof.
  unfold outstanding, prepared_reservations. simpl. rewrite map_app, concat_app. simpl.
  rewrite app_nil_r, (app_assoc (stored _)). apply Permutation_app_comm.
Qed.

(** Reservations of accepting segments are of mounted ones. *)
Lemma accepting_stray (p : Pool A) rs (l : list R) :
  pool_inv p rs → Forall (fun r => ∃ e, entries p !! r_entry r = Some e ∧ state e = Accepting) l →
  stray_bytes (entries (pool_frame p)) l = 0.
Proof.
  intros Hp Hl. unfold stray_bytes. induction Hl as [|r l (e & He & Hs) _ IH]; [done|].
  rewrite filter_cons_False; [done|]. unfold live_at. simpl. rewrite He.
  destruct (ci_entry _ _ (pi_catalog _ _ Hp) _ _ He) as (_ & _ & -> & _). by rewrite Hs.
Qed.

(** The claim of an attempt that fails is dropped again. *)
Lemma attempt_dropped m c st p :
  minv cid conf m → pool_frame p = fr → pool_inv p (outstanding m) → sig st = sig (om_catalog m) →
  rtc (cstep (cat_allowed (entries fr) now force false false)) (cat_world m)
    (mkWorld st ((pp_claim <$> om_prepared m) ++ [c]) (om_handles m)) →
  path m (with_catalog (claim_drop (live_in p) c st) (with_pool p (with_catalog st m))).
Proof.
  intros Hm He Hp Hsig Hr.
  assert (rtc (cstep (cat_allowed (entries fr) now force false false)) (cat_world m)
    (mkWorld (claim_drop (live_in p) c st) (pp_claim <$> om_prepared m) (om_handles m))) as Hr'.
  { eapply rtc_r; [exact Hr|]. exists (ODropClaim (length (pp_claim <$> om_prepared m)) (live_in p)).
    split_and!; [done..|]. simpl. rewrite list_lookup_middle by done.
    by rewrite delete_middle, app_nil_r. }
  pose proof (sig_claim_drop (live_in p) c st) as Hd. rewrite Hsig in Hd. apply outstanding_sig in Hd.
  split; [split|done|exact Hr'|].
  - eapply csteps_reachable; [exact Hr'|apply Hm].
  - change (pool_inv p (outstanding (with_catalog (claim_drop (live_in p) c st) m))). by rewrite Hd.
  - apply Hm.
  - apply Hm.
  - change (outstanding (with_catalog _ (with_pool _ _))) with (outstanding (with_catalog (claim_drop (live_in p) c st) m)).
    by rewrite Hd.
Qed.

(** One attempt of [prepare_write]. *)
Lemma attempt_path i o mode plan pins m :
  minv cid conf m → pool_frame (om_pool m) = fr →
  resolve_pin_request conf (plan_pins plan) = Ok pins →
  match begin_write_resolved i o mode pins now (om_catalog m) with
  | (Panic, _) => True
  | (Err _, st) => path m (with_catalog st m)
  | (Ok c, st) =>
      match prepare_claimed_put c plan (with_catalog st m) with
      | (Panic, _) => U32_MAX < N.of_nat (replica_count (plan_placement plan))
      | (Err _, m1) => path m m1 ∧ ∃ alive, om_catalog m1 = claim_drop alive c st
      | (Ok pp, m1) => path m (pushed pp m1)
      end
  end.
Proof.
  intros Hm He Hpins. pose proof (sig_begin i o mode pins now (om_catalog m)) as Hsig.
  assert (begin_write i o mode (plan_pins plan) now (om_catalog m) =
    begin_write_resolved i o mode pins now (om_catalog m)) as Hb
    by (unfold begin_write; by rewrite (minv_config _ _ _ Hm), Hpins).
  destruct (begin_write_resolved i o mode pins now (om_catalog m)) as [[c|e|] st] eqn:Hbegin;
    simpl in Hsig; [| |done].
  2: { apply (call_kept (cat_allowed (entries fr) now force false false) fr cid conf m (OBegin i o mode (plan_pins plan) now)); try done.
       simpl. by rewrite Hb. }
  assert (rtc (cstep (cat_allowed (entries fr) now force false false)) (cat_world m)
    (mkWorld st ((pp_claim <$> om_prepared m) ++ [c]) (om_handles m))) as Hr.
  { apply rtc_once. exists (OBegin i o mode (plan_pins plan) now). split_and!; [done..|].
    simpl. by rewrite Hb. }
  pose proof (outstanding_sig m st Hsig) as Hout.
  unfold prepare_claimed_put. cbn [om_pool om_catalog with_catalog with_pool]. rewrite Hout.
  pose proof (placement_reserve_ok (plan_placement plan) (outstanding m) (om_pool m)
    (mi_pool _ _ _ Hm)) as [Hen Hpost].
  destruct (placement_reserve _ _ _) as [[out|e|] p]; simpl in Hen, Hpost; [| |done].
  - destruct Hpost as (Hp & Hlen & _ & _ & Hacc).
    assert (stray_bytes (entries fr) out = 0) as Hst.
    { rewrite <- He. apply (accepting_stray (om_pool m) (outstanding m)); [apply Hm|].
      eapply Forall_impl; [exact Hacc|]. intros r (_ & e & Her & Hse & _). by exists e. }
    destruct (from_reservations (E := PrepareClaimedPutError) out) as [rs|e|] eqn:Hrs.
    + destruct (res_of_reservations _ _ Hrs) as [Hn Hres].
      destruct (set_is_empty rs) eqn:Hempty.
      * apply normal_is_empty in Hempty; [|done]. unfold res_of in Hres. rewrite Hempty in Hres.
        simpl in Hres. subst out. split; [|simpl; eauto]. apply attempt_dropped; try done. by rewrite Hen.
      * assert (cat_world (pushed (mkPrepared (plan_content plan) c rs
          (started_put p Memory (replicas rs))) (with_pool p (with_catalog st m))) =
          mkWorld st ((pp_claim <$> om_prepared m) ++ [c]) (om_handles m)) as Hcw
          by (unfold cat_world; simpl; by rewrite fmap_app).
        split; [split|simpl; by rewrite Hen|by rewrite Hcw|].
        -- rewrite Hcw. eapply csteps_reachable; [exact Hr|apply Hm].
        -- eapply pool_inv_perm; [symmetry; apply outstanding_pushed|].
           change (outstanding (with_pool p (with_catalog st m))) with (outstanding (with_catalog st m)).
           simpl. rewrite Hres, Hout. exact Hp.
        -- simpl. apply Forall_app. split; [apply Hm|]. apply Forall_singleton. split; [done|].
           simpl. by rewrite map_map.
        -- apply Hm.
        -- rewrite outstanding_pushed, stray_app.
           change (outstanding (with_pool p (with_catalog st m))) with (outstanding (with_catalog st m)).
           simpl. rewrite Hres, Hst, Hout. lia.
    + unfold from_reservations in Hrs. by destruct (_ <=? _).
    + unfold from_reservations in Hrs. destruct (N.leb_spec (N.of_nat (length out)) U32_MAX); [done|]. lia.
  - destruct Hpost as [Hp _].
    destruct e; (split; [|simpl; eauto]); apply attempt_dropped; try done; by rewrite Hen.
Qed.
Lemma pushed_clear pp g m : pushed pp (om_clear_allocation g m) = om_clear_allocation g (pushed pp m).
Proof. unfold om_clear_allocation. simpl. by destruct (memory_eviction m), g. Qed.

Lemma maintenance_weaken m m' : mpath (maintenance_call fr now) fr cid conf m m' → path m m'.
Proof. apply mpath_weaken. by intros []. Qed.

(** A prepared put leaves the loop. *)
Lemma loop_done pp g retries m m1 :
  path m (pushed pp m1) →
  path m (pushed pp (if (retries =? 0)%nat then om_clear_allocation g m1
                     else om_record_retry_success (om_clear_allocation g m1))).
Proof.
  intros Hp.
  assert (path m (pushed pp (om_clear_allocation g m1))) as Hc.
  { eapply mpath_trans; [exact Hp|]. rewrite pushed_clear.
    apply maintenance_weaken, clear_allocation_path; apply Hp. }
  destruct (retries =? 0)%nat; [done|]. eapply mpath_trans; [exact Hc|].
  change (pushed pp (om_record_retry_success (om_clear_allocation g m1))) with
    (om_record_retry_success (pushed pp (om_clear_allocation g m1))).
  apply maintenance_weaken, record_path; [done|apply Hc..].
Qed.

Lemma prepare_loop_path busy i o plan mode pins : 
  resolve_pin_request conf (plan_pins plan) = Ok pins →
  ∀ remaining retries generation m,
  minv cid conf m → pool_frame (om_pool m) = fr →
  match prepare_loop remaining retries generation busy i o plan mode pins now m with
  | (Panic, _) => N.of_nat remaining <= 15 → spare (N.of_nat remaining + 1) (om_catalog m) →
      U32_MAX < N.of_nat (replica_count (plan_placement plan))
  | (Err _, m') => path m m'
  | (Ok pp, m') => path m (pushed pp m')
  end.
Proof.
  intros Hpins. induction remaining as [|n IH]; intros retries generation m Hm He; simpl;
    pose proof (attempt_path i o mode plan pins m Hm He Hpins) as Hat;
    pose proof (begin_total i o mode (plan_pins plan) now (om_catalog m) (minv_inv _ _ _ Hm)) as Htot;
    unfold begin_write in Htot; rewrite (minv_config _ _ _ Hm), Hpins in Htot;
    pose proof (begin_spare i o mode pins now (om_catalog m)) as Hsp;
    destruct (begin_write_resolved i o mode pins now (om_catalog m)) as [[c|e|] st].
  2, 5: eapply mpath_trans; [exact Hat|]; apply maintenance_weaken, clear_allocation_path; apply Hat.
  2, 4: by intros _ Hs; destruct Htot; [apply (spare_ids_left _ _ ltac:(done) Hs) || (eapply spare_ids_left; [|exact Hs]; lia)|].
  all: destruct (prepare_claimed_put c plan (with_catalog st m)) as [[pp|[sf|e]|] m1].
  1, 5: by apply loop_done.
  2, 5: destruct Hat as [Hat _]; eapply mpath_trans; [exact Hat|];
    apply maintenance_weaken, clear_allocation_path; apply Hat.
  2, 4: done.
  all: destruct Hat as [Hat [alive Hcat]];
    destruct (evict_after_path fr now cid conf (busy retries) sf m1) as (ev & m2 & -> & Hev);
    [apply Hat..|]; pose proof (maintenance_weaken _ _ Hev) as Hev';
    assert (path m m2) as Hp2 by (by eapply mpath_trans).
  - by destruct (negb _).
  - destruct (negb _); [done|].
    assert (path m2 (om_record_retry m2)) as Hrec
      by (apply maintenance_weaken, record_path; [done|apply Hp2..]).
    assert (path m (om_record_retry m2)) as Hp3 by (by eapply mpath_trans).
    specialize (IH (S retries)
      (match ev with Some e => Some (eviction_generation e) | None => generation end)
      (om_record_retry m2) ltac:(apply Hp3) ltac:(apply Hp3)).
    destruct (prepare_loop n _ _ _ _ _ _ _ _ _ _) as [[pp|e|] m3]; [by eapply mpath_trans..|].
    intros Hle Hs. apply IH; [lia|]. simpl.
    apply (collect_call_spare (maintenance_call fr now) cid conf (cat_world m1) (cat_world m2));
      [by intros []|apply Hev|apply Hat|].
    simpl. rewrite Hcat. apply claim_drop_spare, (Hsp _ c); [lia| |done].
    by replace (N.of_nat n + 1 + 1) with (N.of_nat (S n) + 1) by lia.
Qed.

Lemma prepare_write_path mode busy i o plan m :
  minv cid conf m → pool_frame (om_pool m) = fr →
  match prepare_write mode busy i o plan now m with
  | (Panic, _) => spare 4 (om_catalog m) →
      U32_MAX < N.of_nat (replica_count (plan_placement plan))
  | (Err _, m') => path m m'
  | (Ok pp, m') => path m (pushed pp m')
  end.
Proof.
  intros Hm He. unfold prepare_write, validate_plan. rewrite (minv_config _ _ _ Hm).
  destruct (_ || _); [by apply mpath_refl|].
  destruct (resolve_pin_request conf (plan_pins plan)) as [pins|e|] eqn:Hpins;
    [|by apply mpath_refl|by revert Hpins; unfold resolve_pin_request; repeat case_match; simpl; congruence].
  pose proof (prepare_loop_path busy i o plan mode pins Hpins (om_retry_limit m) 0 None m Hm He) as Hp.
  destruct (prepare_loop _ _ _ _ _ _ _ _ _ _ _) as [[pp|e|] m']; [done..|]. intros Hs.
  assert (om_retry_limit m <= 3)%nat as Hlim.
  { unfold om_retry_limit. destruct (memory_eviction m) as [e|] eqn:Hev; [|lia].
    exact (ev_retries _ (mi_eviction _ _ _ Hm e Hev)). }
  apply Hp; [lia|]. intros a s Ha. destruct (Hs a s Ha). split; [lia|done].
Qed.
End Puts.

(** ** Bytes *)

Section Bytes.
Context {A Alloc : Type} `{L : UpstreamLaws A Alloc}.
Local Abbreviation R := (Reservation Alloc).
Implicit Types (m : ObjectManager A Alloc) (st : Catalog R).

Lemma sum_by_concat {X} (f : X → N) (l : list (list X)) :
  sum_by f (concat l) = sum_by (sum_by f) l.
Proof. induction l as [|x l IH]; [done|]. simpl. by rewrite sum_by_app, sum_by_cons, IH. Qed.

(** The reserved bytes of the versions are those of their reservations. *)
Lemma stored_bytes st :
  inv st → sum_by res_reserved (stored (reps st)) = msum (fun _ => v_reserved) (versions st).
Proof.
  intros Hi. unfold stored, reps, msum.
  rewrite sum_by_concat, map_to_list_fmap, <- list_fmap_compose, sum_by_map.
  change ((snd ∘ prod_map id v_replicas) <$> map_to_list (versions st)) with
    (map (fun x : N * ObjectVersion R => v_replicas x.2) (map_to_list (versions st))).
  rewrite sum_by_map. apply sum_by_ext. intros [v ver] Hin%elem_of_map_to_list. simpl.
  pose proof (vo_reserved _ _ _ (inv_version st v ver Hi Hin)) as Hr. simpl in Hr. rewrite Hr.
  unfold res_of. by rewrite sum_by_map.
Qed.

Lemma requested_reserved (p : Pool A) (rs : list R) r :
  pool_inv p rs → r ∈ rs → res_requested r <= res_reserved r.
Proof.
  intros Hinv Hr. destruct (pi_space _ _ Hinv) as [Hd [Ho Hod] _ _].
  destruct (Hod (owned_allocation r)) as [sh Hsh]; [by apply list_elem_of_fmap_2|].
  apply (ho_requested sh), (ai_handles _ _ (Ho _ _ Hsh)).
  unfold of_owner. apply list_elem_of_fmap. exists (owned_allocation r). split; [done|].
  apply list_elem_of_filter. split; [done|]. by apply list_elem_of_fmap_2.
Qed.

Lemma concat_delete {X Y} (f : X → list Y) l : ∀ k x,
  l !! k = Some x → concat (map f l) ≡ₚ f x ++ concat (map f (delete k l)).
Proof.
  induction l as [|y l IH]; intros k x; [done|]. destruct k as [|k]; simpl; [by intros [= ->]|].
  intros Hk. rewrite (IH k x Hk), !app_assoc. by rewrite (Permutation_app_comm (f y)).
Qed.

(** Taking a prepared put from its caller. *)
Lemma outstanding_take m k pp :
  om_prepared m !! k = Some pp →
  outstanding m ≡ₚ outstanding (with_prepared (delete k (om_prepared m)) m) ++ res_of (pp_replicas pp).
Proof.
  intros Hk. unfold outstanding, prepared_reservations. simpl.
  by rewrite (concat_delete _ _ _ _ Hk), <- app_assoc, (Permutation_app_comm (res_of _)).
Qed.

Lemma prepared_stage_env cid conf m k pp :
  minv cid conf m → sum_by res_reserved (outstanding m) <= U64_MAX →
  om_prepared m !! k = Some pp → stage_env (pp_replicas pp) (om_catalog m).
Proof.
  intros Hm Hb Hk. pose proof (outstanding_take m k pp Hk) as Hperm. split.
  - apply po_normal, (proj1 (Forall_forall _ _) (mi_prepared _ _ _ Hm)). by eapply list_elem_of_lookup_2.
  - intros r Hr. apply (requested_reserved _ _ _ (mi_pool _ _ _ Hm)). rewrite Hperm.
    apply elem_of_app. right. by apply list_elem_of_fmap_2.
  - rewrite <- stored_bytes by (by eapply minv_inv).
    rewrite Hperm in Hb. unfold outstanding in Hb.
    cbn [om_catalog with_prepared] in Hb.
    rewrite !sum_by_app in Hb. unfold res_of in Hb. rewrite sum_by_map in Hb.
    unfold lease_reserved. lia.
Qed.
End Bytes.

(** ** Every call *)

Section Every.
Context {A Alloc : Type} `{L : UpstreamLaws A Alloc}.
Local Abbreviation R := (Reservation Alloc).
Implicit Types (m : ObjectManager A Alloc) (st : Catalog R).

Definition op_time (op : manager_op) : N :=
  match op with
  | MPrepare _ _ _ _ _ now | MFinish _ _ _ now | MRevoke _ _ _ now | MRevokeSessions _ now
  | MGet _ now | MRemove _ now _ | MRemoveMatching _ _ now _ | MMaintenance _ now _ _ => now
  | _ => 0
  end.

Definition op_force (op : manager_op) : bool :=
  match op with
  | MRemove _ _ force | MRemoveMatching _ _ _ force => force
  | _ => false
  end.

Definition op_stages (op : manager_op) : bool :=
  match op with MFinalize _ _ _ _ => true | _ => false end.

Definition op_tenants (op : manager_op) : bool :=
  match op with MAccounts _ => true | _ => false end.

(** Only the segment calls change what is mounted; no other call takes memory of
    a segment that is not. *)
Definition op_frame (op : manager_op) m m' : Prop :=
  match op with
  | MSegment _ => True
  | _ => pool_frame (om_pool m') = pool_frame (om_pool m) ∧
      stray_bytes (entries (om_pool m)) (outstanding m') <= stray_bytes (entries (om_pool m)) (outstanding m)
  end.

(** Requests for more replicas than replica numbers are refused by the caller. *)
Definition op_fits (op : manager_op) : Prop :=
  match op with
  | MPrepare _ _ _ _ plan _ => N.of_nat (replica_count (plan_placement plan)) <= U32_MAX
  | _ => True
  end.

(** The calls that take slot numbers, and panic when there are none left. *)
Definition needs_numbers (op : manager_op) : bool :=
  match op with MPrepare _ _ _ _ _ _ | MFinish _ _ _ _ => true | _ => false end.

(** A call: it never panics while numbers are left, it keeps the invariant, and
    it is a sequence of catalog calls. *)
Definition call_ok (cid : N) (conf : ObjectCatalogConfig) (op : manager_op) m
    (x : option (ObjectManager A Alloc)) : Prop :=
  match x with
  | Some m' => minv cid conf m' ∧
      rtc (cstep (cat_allowed (entries (om_pool m)) (op_time op) (op_force op) (op_stages op) (op_tenants op)))
        (cat_world m) (cat_world m') ∧
      op_frame op m m'
  | None => needs_numbers op = true ∧ (op_fits op → ¬ spare 4 (om_catalog m))
  end.

Context (cid : N) (conf : ObjectCatalogConfig).
Local Abbreviation ok := (call_ok cid conf).

Lemma path_ok op m m' :
  mpath (cat_allowed (entries (om_pool m)) (op_time op) (op_force op) (op_stages op) (op_tenants op))
    (pool_frame (om_pool m)) cid conf m m' → ok op m (Some m').
Proof. intros []. split_and!; [done..|]. by destruct op. Qed.

(** The catalog moves by one call, the reservations stay. *)
Lemma kept_ok op m cop st' :
  minv cid conf m → cat_allowed (entries (om_pool m)) (op_time op) (op_force op) (op_stages op) (op_tenants op) cop →
  cat_env cop (cat_world m) → sig st' = sig (om_catalog m) →
  cat_step cop (cat_world m) = Some (mkWorld st' (pp_claim <$> om_prepared m) (om_handles m)) →
  ok op m (Some (with_catalog st' m)).
Proof. intros Hm Ha He Hs Hc. apply path_ok. by eapply call_kept. Qed.

(** The catalog after a put is finalized. *)
Lemma finalize_catalog k b1 b2 g m m' pp :
  om_prepared m !! k = Some pp → manager_step (MFinalize k b1 b2 g) m = Some m' →
  om_catalog m' = (stage_inner (live_in (om_pool m)) b1 b2 (pp_claim pp) (pp_content pp)
    (pp_replicas pp) g (om_catalog m)).2.
Proof.
  intros Hk. simpl. rewrite Hk. unfold finalize_start_put. cbn [om_pool om_catalog with_prepared].
  destruct (stage_inner _ _ _ _ _ _ _ _) as [[tx|e|] st]; [| |done];
    unfold update_catalog; (destruct (settle _ _ _); [|done]); simpl; by intros [= <-].
Qed.

Lemma finalize_ok k b1 b2 g m :
  minv cid conf m → manager_env (MFinalize k b1 b2 g) m →
  ok (MFinalize k b1 b2 g) m (manager_step (MFinalize k b1 b2 g) m).
Proof.
  intros Hm Henv. simpl in *.
  destruct (om_prepared m !! k) as [pp|] eqn:Hk; [|apply path_ok, mpath_refl; done].
  pose proof (prepared_stage_env cid conf m k pp Hm Henv Hk) as Hse.
  unfold finalize_start_put. cbn [om_pool om_catalog with_prepared].
  pose proof (stage_total (live_in (om_pool m)) b1 b2 (pp_claim pp) (pp_content pp) (pp_replicas pp) g
    (om_catalog m)) as Htot.
  destruct (stage_inner _ _ _ _ _ _ _ _) as [r st'] eqn:Hst. simpl in Htot.
  assert (cat_step (OStage k (live_in (om_pool m)) b1 b2 (pp_content pp) (pp_replicas pp) g)
    (cat_world m) = Some (mkWorld st' (delete k (pp_claim <$> om_prepared m))
      (keep_handle tx_pending r (om_handles m)))) as Hs.
  { simpl. rewrite list_lookup_fmap, Hk. simpl. rewrite Hst. by destruct r. }
  pose proof (conserves_stage _ _ _ _ _ _ _ _ _ _ (minv_inv _ _ _ Hm) Hst Htot) as Hcons.
  set (m0 := with_prepared (delete k (om_prepared m)) m).
  destruct (settle_ok (om_catalog m) (res_of (pp_replicas pp)) st' (om_pool m)
    (prepared_reservations m0) Hcons) as (p' & Hset & Hp' & Hen).
  { eapply pool_inv_perm; [|apply Hm]. rewrite (outstanding_take m k pp Hk).
    unfold outstanding. fold m0. change (om_catalog m0) with (om_catalog m).
    by rewrite <- app_assoc, (Permutation_app_comm (prepared_reservations m0)). }
  assert (update_catalog st' m0 = Some (with_pool p' (with_catalog st' m0))) as Hu
    by (unfold update_catalog; change (om_catalog m0) with (om_catalog m);
        change (om_pool m0) with (om_pool m); by rewrite Hset).
  assert (rtc (cstep (cat_allowed (entries (om_pool m)) 0 false true false)) (cat_world m)
    (mkWorld st' (pp_claim <$> delete k (om_prepared m)) (om_handles m))) as Hr.
  { rewrite list_fmap_delete.
    eapply rtc_l; [exists (OStage k (live_in (om_pool m)) b1 b2 (pp_content pp) (pp_replicas pp) g); done|].
    destruct r as [tx|e|]; simpl; [|apply rtc_refl|done].
    apply rtc_once. by exists (ODropHandle 0). }
  assert (ok (MFinalize k b1 b2 g) m (Some (with_pool p' (with_catalog st' m0)))) as Hok.
  { apply path_ok. split; [split|exact Hen|exact Hr|]; [|exact Hp'| |apply Hm|].
    - eapply csteps_reachable; [exact Hr|apply Hm].
    - simpl. apply Forall_delete, Hm.
    - cbn [entries pool_frame set_allocators]. rewrite (outstanding_take m k pp Hk), stray_app. fold m0.
      unfold outstanding. rewrite !stray_app. pose proof (conserves_stray (entries (om_pool m)) _ _ _ Hcons) as Hle.
      change (om_catalog m0) with (om_catalog m). change (prepared_reservations (with_pool _ _)) with (prepared_reservations m0).
      change (om_catalog (with_pool _ _)) with st'. lia. }
  destruct r as [tx|e|]; [| |done]; by rewrite Hu.
Qed.

Lemma drop_prepared_ok k m :
  minv cid conf m → ok (MDropPrepared k) m (manager_step (MDropPrepared k) m).
Proof.
  intros Hm. simpl. destruct (om_prepared m !! k) as [pp|] eqn:Hk; [|apply path_ok, mpath_refl; done].
  unfold drop_prepared. cbn [om_pool om_catalog with_prepared].
  set (m0 := with_prepared (delete k (om_prepared m)) m).
  destruct (drop_reservations_ok (res_of (pp_replicas pp)) (om_pool m) (outstanding m0))
    as (p' & -> & Hp' & Hen).
  { eapply pool_inv_perm; [|apply Hm]. rewrite (outstanding_take m k pp Hk). apply Permutation_app_comm. }
  simpl. set (st' := claim_drop _ _ _).
  assert (cat_step (ODropClaim k (live_in (om_pool m))) (cat_world m) =
    Some (mkWorld st' (pp_claim <$> delete k (om_prepared m)) (om_handles m))) as Hs.
  { simpl. by rewrite list_lookup_fmap, Hk, list_fmap_delete. }
  assert (rtc (cstep (cat_allowed (entries (om_pool m)) 0 false false false)) (cat_world m)
    (mkWorld st' (pp_claim <$> delete k (om_prepared m)) (om_handles m))) as Hr
    by (apply rtc_once; by exists (ODropClaim k (live_in (om_pool m)))).
  pose proof (outstanding_sig m0 st' (sig_claim_drop (live_in (om_pool m)) (pp_claim pp) (om_catalog m))) as Hd.
  apply (path_ok (MDropPrepared k)). split; [split|exact Hen|exact Hr|]; [| | |apply Hm|].
  - eapply csteps_reachable; [exact Hr|apply Hm].
  - change (pool_inv p' (outstanding (with_catalog st' m0))). by rewrite Hd.
  - simpl. apply Forall_delete, Hm.
  - change (outstanding (with_pool _ _)) with (outstanding (with_catalog st' m0)).
    rewrite Hd, (outstanding_take m k pp Hk), stray_app. fold m0. lia.
Qed.
Lemma resolve_write_ok i st :
  inv st →
  match resolve_write i st with
  | Panic => False
  | Ok (WriteActive tx) => is_Some (versions st !! tx_pending tx)
  | Ok (WriteCommitted v) => is_Some (versions st !! v)
  | Err _ => True
  end.
Proof.
  intros Hi. unfold resolve_write. destruct (lookup_slot i st) as [a|] eqn:Ha; [|done].
  apply (inv_index st i a Hi) in Ha as (s & Hs & _). rewrite Hs.
  destruct (active s) as [t|] eqn:Ht.
  - destruct (at_phase t) as [|p] eqn:Hp; [done|].
    destruct (inv_staged st a s t p Hi Hs Ht Hp) as (ver & Hv & _). simpl. eauto.
  - destruct (committed s) as [v|] eqn:Hc; [|done].
    destruct (inv_committed st a s v Hi Hs Hc) as (ver & Hv & _). simpl. eauto.
Qed.

Lemma validate_version_ok view v o s m :
  is_Some (versions (om_catalog m) !! v) → validate_version view v o s m ≠ Panic.
Proof.
  intros [ver Hv]. unfold validate_version. rewrite Hv. destruct (negb _); [done|].
  destruct (view _); [done|]. simpl. unfold validate_selector. destruct s; [done|]. by case_decide.
Qed.

Lemma finish_ok i o s now m :
  minv cid conf m → ok (MFinish i o s now) m (manager_step (MFinish i o s now) m).
Proof.
  intros Hm. simpl. unfold finish_put. pose proof (resolve_write_ok i _ (minv_inv _ _ _ Hm)) as Hres.
  assert (ok (MFinish i o s now) m (Some m)) as Hsame by (by apply path_ok, mpath_refl).
  destruct (resolve_write i (om_catalog m)) as [[tx|v]|[]|]; [| |done..].
  2: { unfold validate_published. set (view := filter _). pose proof (validate_version_ok view v o s m Hres).
       by destruct (validate_version view v o s m). }
  pose proof (validate_version_ok (fun l => l) _ o s m Hres) as Hval. unfold validate_pending.
  destruct (validate_version _ _ o s m) as [u|e|]; [|done|done].
  set (alive := live_in (om_pool m)).
  pose proof (sig_commit alive alive tx (mkCommit None) now (om_catalog m)) as Hsig.
  pose proof (commit_total alive alive tx (mkCommit None) now (om_catalog m) (minv_inv _ _ _ Hm)) as Htot.
  destruct (commit alive alive tx (mkCommit None) now (om_catalog m)) as [r st'] eqn:Hc.
  simpl in Hsig, Htot.
  assert (r ≠ Panic → ok (MFinish i o s now) m (Some (with_catalog st' m))) as Hok.
  { intros Hr. assert (cat_step (OCommit tx alive alive (mkCommit None) now) (cat_world m) =
      Some (mkWorld st' (pp_claim <$> om_prepared m) (keep_handle (fun v => v) r (om_handles m)))) as Hs
      by (simpl; rewrite Hc; by destruct r).
    assert (rtc (cstep (cat_allowed (entries (om_pool m)) now false false false)) (cat_world m)
      (cat_world (with_catalog st' m))) as Hrt.
    { eapply rtc_l; [exists (OCommit tx alive alive (mkCommit None) now); done|].
      destruct r as [v|e|]; simpl; [|apply rtc_refl|done]. apply rtc_once. by exists (ODropHandle 0). }
    apply path_ok. split; [split| |exact Hrt|]; [|rewrite (outstanding_sig m st' Hsig); apply Hm|apply Hm..|done|].
    - eapply csteps_reachable; [exact Hrt|apply Hm].
    - by rewrite (outstanding_sig m st' Hsig). }
  destruct r as [v|[]|]; try (by apply Hok). simpl. split; [done|]. intros _ Hsp. destruct Htot; [|done].
  by apply (spare_ids_left 4).
Qed.

Lemma revoke_ok i o s now m :
  minv cid conf m → ok (MRevoke i o s now) m (manager_step (MRevoke i o s now) m).
Proof.
  intros Hm. simpl. unfold revoke_put. pose proof (resolve_write_ok i _ (minv_inv _ _ _ Hm)) as Hres.
  assert (ok (MRevoke i o s now) m (Some m)) as Hsame by (by apply path_ok, mpath_refl).
  destruct (resolve_write i (om_catalog m)) as [[tx|v]|e|]; [| |done..].
  2: { unfold validate_published. set (view := filter _). pose proof (validate_version_ok view v o s m Hres).
       by destruct (validate_version view v o s m). }
  pose proof (validate_version_ok (fun l => l) _ o s m Hres) as Hval. unfold validate_pending.
  destruct (validate_version _ _ o s m) as [u|e|]; [|done|done].
  pose proof (sig_abort (live_in (om_pool m)) tx now (om_catalog m)) as Hsig.
  pose proof (abort_total (live_in (om_pool m)) tx now (om_catalog m) (minv_inv _ _ _ Hm)) as Htot.
  destruct (abort (live_in (om_pool m)) tx now (om_catalog m)) as [r st'] eqn:Hc. simpl in Hsig, Htot.
  assert (ok (MRevoke i o s now) m (Some (with_catalog st' m))) as Hok.
  { apply (kept_ok _ m (OAbort tx (live_in (om_pool m)) now)); try done. simpl. rewrite Hc. by destruct r. }
  by destruct r as [v|[]|].
Qed.

Lemma get_ok i now m :
  minv cid conf m → ok (MGet i now) m (manager_step (MGet i now) m).
Proof.
  intros Hm. simpl. unfold om_get. pose proof (sig_get (live_in (om_pool m)) i now (om_catalog m)) as Hsig.
  pose proof (get_total (live_in (om_pool m)) i now (om_catalog m) (minv_inv _ _ _ Hm)) as Htot.
  destruct (get (live_in (om_pool m)) i now (om_catalog m)) as [r st'] eqn:Hc. simpl in Hsig, Htot.
  set (m' := with_handles (keep_handle read_version r (om_handles m)) (with_catalog st' m)).
  assert (cat_step (OGet i (live_in (om_pool m)) now) (cat_world m) = Some (cat_world m')) as Hs
    by (simpl; rewrite Hc; by destruct r).
  pose proof (outstanding_sig m st' Hsig) as Hout.
  assert (ok (MGet i now) m (Some m')) as Hok.
  { change (outstanding (with_catalog st' m)) with (outstanding m') in Hout.
    apply path_ok. split; [split| | |]; [|rewrite Hout; apply Hm|apply Hm..|done| |by rewrite Hout].
    - by eapply reach_step; [apply Hm| |exact Hs].
    - apply rtc_once. by exists (OGet i (live_in (om_pool m)) now). }
  by destruct r.
Qed.

Lemma remove_path i now force m :
  minv cid conf m →
  mpath (cat_allowed (entries (om_pool m)) now force false false) (pool_frame (om_pool m)) cid conf m
    (om_remove i now force m).2 ∧ (om_remove i now force m).1 ≠ Panic ∧
  om_pool (om_remove i now force m).2 = om_pool m.
Proof.
  intros Hm. unfold om_remove. pose proof (sig_remove i now force (om_catalog m)) as Hsig.
  pose proof (remove_total i now force (om_catalog m) (minv_inv _ _ _ Hm)) as Htot.
  destruct (remove_with_force i now force (om_catalog m)) as [r st'] eqn:Hc. simpl in *.
  split_and!; [|by destruct r|done].
  apply (call_kept _ _ _ _ m (ORemove i now force)); try done. simpl. rewrite Hc. by destruct r.
Qed.

Lemma remove_batch_path now force l : ∀ m,
  minv cid conf m →
  mpath (cat_allowed (entries (om_pool m)) now force false false) (pool_frame (om_pool m)) cid conf m
    (remove_batch l now force m).2.
Proof.
  induction l as [|i l IH]; intros m Hm; simpl; [by apply mpath_refl|].
  destruct (remove_path i now force m Hm) as (Hp & _ & Hpool).
  destruct (om_remove i now force m) as [r m1]. simpl in *.
  specialize (IH m1 (mp_inv _ _ _ _ _ _ Hp)). rewrite Hpool in IH.
  destruct (remove_batch l now force m1) as [rs m2]. simpl in *. by eapply mpath_trans.
Qed.

Lemma segment_ok pop m :
  minv cid conf m → ok (MSegment pop) m (manager_step (MSegment pop) m).
Proof.
  intros Hm. simpl. destruct (segment_op pop) eqn:Hseg; [|by apply path_ok, mpath_refl].
  destruct (pool_step_ok pop (mkPoolWorld (om_pool m) (outstanding m)) (mi_pool _ _ _ Hm))
    as (w & Hw & Hp). rewrite Hw. simpl.
  assert (reservations w = outstanding m) as Hres.
  { destruct pop; try done; unfold pool_step in Hw; cbn [pool reservations] in Hw;
      repeat case_match; simplify_eq; done. }
  rewrite Hres in Hp. split; [split|split; [apply rtc_refl|done]]; [apply Hm|exact Hp|apply Hm..].
Qed.

Lemma manager_step_ok op m :
  minv cid conf m → manager_env op m → ok op m (manager_step op m).
Proof.
  intros Hm Henv. destruct op.
  - simpl. pose proof (prepare_write_path (pool_frame (om_pool m)) now false cid conf mode busy i o plan m Hm
      eq_refl) as Hp.
    destruct (prepare_write mode busy i o plan now m) as [[pp|e|] m']; [by apply path_ok..|].
    simpl. split; [done|]. intros Hf Hs. specialize (Hp Hs). lia.
  - by apply finalize_ok.
  - by apply drop_prepared_ok.
  - by apply finish_ok.
  - by apply revoke_ok.
  - simpl. unfold revoke_sessions.
    pose proof (sig_revoke (live_in (om_pool m)) owners now (om_catalog m)) as Hsig.
    destruct (revoke_pending_owners _ _ _ _) as [n st'] eqn:Hr. simpl in Hsig.
    apply (kept_ok (MRevokeSessions owners now) m (ORevoke (live_in (om_pool m)) owners now)); try done.
    simpl. by rewrite Hr.
  - by apply get_ok.
  - simpl. destruct (remove_path i now force m Hm) as (Hp & Hn & _).
    destruct (om_remove i now force m) as [[x|e|] m']; [by apply (path_ok (MRemove i now force))..|done].
  - simpl. unfold remove_matching.
    set (l := filter _ (identities _ _)). pose proof (remove_batch_path now force l m Hm) as Hp.
    destruct (remove_batch l now force m) as [rs m'].
    by apply (path_ok (MRemoveMatching ns pattern now force)).
  - simpl. destruct (maintenance_path (pool_frame (om_pool m)) now cid conf busy budget targets m Hm eq_refl)
      as (rep & m' & Hmt & Hp). rewrite Hmt. simpl.
    apply (path_ok (MMaintenance busy now budget targets)).
    eapply mpath_weaken; [|exact Hp]. by intros [].
  - by apply segment_ok.
  - split; [split|split; [apply rtc_once; by exists (ODropHandle k)|done]]; [|apply Hm..].
    apply (reach_step _ _ (cat_world m) (ODropHandle k)); [apply Hm|done|done].
  - by apply (kept_ok (MAccounts accs) m (OAccounts accs)).
Qed.

Lemma manager_new_inv pid nodes eviction m :
  pool_config_valid nodes = true → (∀ c, eviction = Some c → configured c) →
  om_new cid conf eviction (pool_new pid nodes) = Ok m → minv cid conf m.
Proof.
  intros Hn Hc Hm. unfold om_new, with_config in Hm.
  destruct (config_validate conf) as [[]|e|] eqn:Hv; [|done|done]. simpl in Hm. injection Hm as <-.
  split; simpl.
  - by apply reach_new.
  - unfold outstanding, reps. simpl. rewrite fmap_empty. unfold stored. rewrite map_to_list_empty.
    simpl. by apply pool_inv_new.
  - constructor.
  - intros e He. destruct eviction as [c|]; [|done]. simpl in He. injection He as <-. simpl.
    by apply configured_valid, Hc.
Qed.
End Every.

Lemma manager_reachable_inv {A Alloc} `{UpstreamLaws A Alloc} cid pid nodes conf eviction
    (m : ObjectManager A Alloc) :
  manager_reachable cid pid nodes conf eviction m → minv cid conf m.
Proof.
  induction 1 as [m Hn Hc Hm|op m m' _ IH Henv Hs]; [by eapply manager_new_inv|].
  pose proof (manager_step_ok cid conf op m IH Henv) as Hok. rewrite Hs in Hok. apply Hok.
Qed.
