(* ===== verification/ManagerProps.v ===== *)
(** * What the object manager guarantees

    The catalog and the segment pool together: the manager's calls refine the
    catalog's, all memory in use is accounted for by the objects and the puts in
    progress, replicas never share memory, a lease keeps the leased memory in
    place, and what was put is what is read. *)
From stdpp Require Import relations.
From S2P Require Import Prelude Identity Segment ByteAllocator SegmentPool Placement TenantQuota Replica ObjectTypes.
From S2P Require Import CatalogState CatalogWrite CatalogCollector CatalogInv CatalogOps CatalogSteps CatalogGuard CatalogSlots.
From S2P Require Import CatalogWorld CatalogProps CatalogProtect CatalogLife CatalogResources Eviction ObjectManager ManagerWorld.

Section Sharing.
Context {A Alloc : Type} `{L : UpstreamLaws A Alloc}.
Local Abbreviation R := (Reservation Alloc).
Implicit Types (m : ObjectManager A Alloc) (st : Catalog R).

Lemma res_of_one (s : ReplicaSet R) k r :
  replicas s !! k = Some r → ∃ rest, res_of s ≡ₚ lease_reservation r :: rest.
Proof.
  intros Hk. exists (map lease_reservation (delete k (replicas s))).
  exact (Permutation_map lease_reservation (delete_Permutation _ _ _ Hk)).
Qed.

(** Two replicas of the catalog are two reservations. *)
Lemma stored_two (x : gmap N (ReplicaSet R)) v v' s s' k k' r r' :
  x !! v = Some s → x !! v' = Some s' → replicas s !! k = Some r → replicas s' !! k' = Some r' →
  (v, k) ≠ (v', k') →
  ∃ rest, stored x ≡ₚ lease_reservation r :: lease_reservation r' :: rest.
Proof.
  intros Hv Hv' Hk Hk' Hne.
  destruct (decide (v = v')) as [<-|Hvv].
  - assert (s' = s) as -> by congruence. assert (k ≠ k') as Hkk by congruence.
    destruct (two_elements_perm (replicas s) k k' r r' Hkk Hk Hk') as [l Hl].
    exists (map lease_reservation l ++ stored (delete v x)). rewrite (stored_delete x v s Hv).
    unfold res_of. by rewrite Hl.
  - destruct (res_of_one _ _ _ Hk) as [l Hl]. destruct (res_of_one _ _ _ Hk') as [l' Hl'].
    exists (l ++ l' ++ stored (delete v' (delete v x))). rewrite (stored_delete x v s Hv), Hl.
    rewrite (stored_delete (delete v x) v' s'), Hl' by (by rewrite lookup_delete_ne).
    simpl. apply perm_skip. symmetry. apply Permutation_middle.
Qed.

Lemma reps_lookup st v ver : versions st !! v = Some ver → reps st !! v = Some (v_replicas ver).
Proof. intros Hv. unfold reps. by rewrite lookup_fmap, Hv. Qed.

(** The memory of a live replica: its own, away from any other live one. *)
Definition exclusive (p : Pool A) (others : list R) (r : R) : Prop :=
  ∀ s e f, s ∈ others → entries p !! r_entry r = Some e → entries p !! r_entry s = Some f →
    spec_owner (spec e) = spec_owner (spec f) → transport (spec e) = transport (spec f) →
    reservation_is_live r p = true → reservation_is_live s p = true →
    ¬ regions_overlap (r_region r) (r_region s).

Lemma exclusive_perm p rs r rest :
  pool_inv p rs → rs ≡ₚ r :: rest → exclusive p rest r.
Proof.
  intros Hp Hperm s e f Hs He Hf Ho Ht Hr Hl. apply (pool_inv_perm _ _ _ Hperm) in Hp.
  apply list_elem_of_lookup in Hs as [j Hj].
  by apply (pool_live_disjoint p (r :: rest) 0 (S j) r s e f).
Qed.

(** C8: replicas never share memory.  In every reachable state of the manager,
    two different replicas of the catalog, of one version or of two, pending,
    published or retired, whose segments are live and in one address space,
    occupy disjoint ranges. *)
Theorem replicas_never_share cid pid nodes conf eviction m v v' ver ver' k k' r r' e f :
  manager_reachable cid pid nodes conf eviction m →
  versions (om_catalog m) !! v = Some ver → versions (om_catalog m) !! v' = Some ver' →
  replicas (v_replicas ver) !! k = Some r → replicas (v_replicas ver') !! k' = Some r' →
  (v, k) ≠ (v', k') →
  entries (om_pool m) !! r_entry (lease_reservation r) = Some e →
  entries (om_pool m) !! r_entry (lease_reservation r') = Some f →
  spec_owner (spec e) = spec_owner (spec f) → transport (spec e) = transport (spec f) →
  live_in (om_pool m) (lease_reservation r) = true →
  live_in (om_pool m) (lease_reservation r') = true →
  ¬ regions_overlap (r_region (lease_reservation r)) (r_region (lease_reservation r')).
Proof.
  intros Hm%manager_reachable_inv Hv Hv' Hk Hk' Hne He Hf Ho Ht Hl Hl'.
  destruct (stored_two (reps (om_catalog m)) v v' _ _ k k' r r' (reps_lookup _ _ _ Hv)
    (reps_lookup _ _ _ Hv') Hk Hk' Hne) as [rest Hrest].
  eapply (exclusive_perm (om_pool m) (outstanding m) (lease_reservation r)
    (lease_reservation r' :: rest ++ prepared_reservations m)); try done; [apply Hm| |by left].
  unfold outstanding. by rewrite Hrest.
Qed.

(** ** Accounting *)

Lemma of_owner_reservations a (rs : list R) :
  sum_by reserved_bytes (of_owner a (owned_allocation <$> rs)) =
  sum_by res_reserved (filter (fun r => r_entry r = a) rs).
Proof.
  induction rs as [|r rs IH]; [done|]. unfold of_owner in *. rewrite fmap_cons, !filter_cons.
  cbn [owned_allocation fst]. destruct (decide (r_entry r = a)); [|exact IH].
  by rewrite fmap_cons, !sum_by_cons, IH.
Qed.

(** C7: memory is neither leaked nor freed early.  In every reachable state the
    bytes each segment has in use are exactly the reserved bytes of the replicas
    of the catalog's versions and of the prepared puts in that segment; in
    particular a manager without objects and puts uses no memory. *)
Theorem memory_accounted cid pid nodes conf eviction m a sh :
  manager_reachable cid pid nodes conf eviction m → allocators (om_pool m) !! a = Some sh →
  used_bytes sh = sum_by res_reserved (filter (fun r => r_entry r = a) (outstanding m)) ∧
  (versions (om_catalog m) = ∅ → om_prepared m = [] → used_bytes sh = 0).
Proof.
  intros Hm%manager_reachable_inv Ha.
  destruct (si_alloc _ _ (pi_space _ _ (mi_pool _ _ _ Hm))) as [Ho _].
  assert (used_bytes sh = sum_by res_reserved (filter (fun r => r_entry r = a) (outstanding m))) as Hu
    by (by rewrite (ai_used _ _ (Ho a sh Ha)), of_owner_reservations).
  split; [exact Hu|]. intros Hv Hp. rewrite Hu. unfold outstanding, prepared_reservations, reps.
  rewrite Hv, Hp, fmap_empty. unfold stored. by rewrite map_to_list_empty.
Qed.

(** ** Refinement *)

(** C9: the manager implements the catalog.  Every call of the manager or of
    the segment pool moves the manager's catalog, with the claims and handles
    its callers hold, by a sequence of catalog calls from one state of the
    catalog of [CatalogWorld] to another; collector runs in it read the liveness
    of the segments as they are and the time of the call, and removals are
    forced only when the call is; only finalizing a put stages, and only the tenants
    change the accounts.  While slot numbers are left, no call panics. *)
Theorem manager_refines_catalog cid pid nodes conf eviction m op :
  manager_reachable cid pid nodes conf eviction m → manager_env op m → op_fits op →
  spare 4 (om_catalog m) →
  ∃ m', manager_step op m = Some m' ∧ reachable cid conf (cat_world m) ∧
    rtc (cstep (cat_allowed (entries (om_pool m)) (op_time op) (op_force op) (op_stages op) (op_tenants op)))
      (cat_world m) (cat_world m').
Proof.
  intros Hm%manager_reachable_inv Henv Hf Hs.
  pose proof (manager_step_ok cid conf op m Hm Henv) as Hok.
  destruct (manager_step op m) as [m'|]; [|by destruct (proj2 Hok Hf Hs)].
  exists m'. split; [done|]. split; [apply Hm|apply Hok].
Qed.

(** ** Leases *)

(** Calls before [until] that force no removal, while the segment of [r] stays
    valid. *)
Fixpoint calm_run (until : N) (r : ReplicaLease R) (ops : list manager_op) m : Prop :=
  live_in (om_pool m) (lease_reservation r) = true ∧
  match ops with
  | [] => True
  | op :: ops' =>
      manager_env op m ∧ op_time op < until ∧ op_force op = false ∧
      ∀ m', manager_step op m = Some m' → calm_run until r ops' m'
  end.

Fixpoint manager_run (ops : list manager_op) m : option (ObjectManager A Alloc) :=
  match ops with
  | [] => Some m
  | op :: ops' => m' ← manager_step op m; manager_run ops' m'
  end.

Lemma csteps_safe es now stages tenants until conf a v (r : ReplicaLease R) w w' :
  rtc (cstep (cat_allowed es now false stages tenants)) w w' → world_inv conf w →
  lease_refresh_ticks conf <= lease_ttl_ticks conf →
  live_at es (lease_reservation r) = true → now < until →
  safe (leased_until until) until a v r (cat w) →
  safe (leased_until until) until a v r (cat w').
Proof.
  intros Hr Hw Hcf Hl Hnow. revert Hw. induction Hr as [|w1 w2 w3 (op & Hop & Henv & Hs) _ IH]; [done|].
  intros Hw Hsafe. apply IH; [by eapply world_inv_step|].
  eapply (lease_step_safe conf); try done. destruct op; try done; simpl in *.
  - destruct Hop as [-> ->]. done.
  - destruct Hop as [-> Ha]. split; [|done]. unfold lease_is_live. by rewrite Ha.
Qed.

Lemma calm_run_safe cid conf until a v (r : ReplicaLease R) ops : ∀ m m',
  minv cid conf m → calm_run until r ops m → manager_run ops m = Some m' →
  safe (leased_until until) until a v r (om_catalog m) →
  minv cid conf m' ∧ live_in (om_pool m') (lease_reservation r) = true ∧
  safe (leased_until until) until a v r (om_catalog m').
Proof.
  induction ops as [|op ops IH]; intros m m' Hm [Hl Hrest] Hrun Hsafe; simpl in Hrun;
    [by injection Hrun as <-|].
  destruct Hrest as (Henv & Ht & Hf & Hnext).
  pose proof (manager_step_ok cid conf op m Hm Henv) as Hok.
  destruct (manager_step op m) as [m1|]; [|done]. simpl in Hrun. destruct Hok as (Hm1 & Hr & _).
  rewrite Hf in Hr. apply (IH m1); auto.
  apply (csteps_safe (entries (om_pool m)) (op_time op) (op_stages op) (op_tenants op) until conf a v r (cat_world m) (cat_world m1));
    try done; [apply (reachable_inv cid), Hm|].
  exact (config_refresh _ (reachable_config _ _ _ (mi_cat _ _ _ Hm))).
Qed.

(** C1: a lease keeps memory in place.  After a read returned a lease until
    [L], whatever calls are made before [L] without forcing a removal (puts,
    replacements, revocations, removals, evictions, segment changes), every
    replica of the version that was read whose segment stays valid is still a
    replica of that version, and its range is not handed to anyone else: it is
    disjoint from the ranges of all other outstanding live reservations. *)
Theorem leased_memory_stays cid pid nodes conf eviction m i now rd m1 ver r ops m2 :
  manager_reachable cid pid nodes conf eviction m →
  (om_get i now m).1 = Ok rd → manager_step (MGet i now) m = Some m1 →
  versions (om_catalog m) !! read_version rd = Some ver → r ∈ replicas (v_replicas ver) →
  calm_run (lease_expires_at rd) r ops m1 → manager_run ops m1 = Some m2 →
  ∃ ver' rest, versions (om_catalog m2) !! read_version rd = Some ver' ∧
    r ∈ replicas (v_replicas ver') ∧
    outstanding m2 ≡ₚ lease_reservation r :: rest ∧ exclusive (om_pool m2) rest (lease_reservation r).
Proof.
  intros Hm%manager_reachable_inv Hget Hs Hv Hin Hcalm Hrun.
  pose proof (manager_step_ok cid conf (MGet i now) m Hm I) as Hok. rewrite Hs in Hok.
  destruct Hok as [Hm1 _]. unfold om_get in Hget. simpl in Hs. unfold om_get in Hs.
  destruct (get (live_in (om_pool m)) i now (om_catalog m)) as [x st'] eqn:Hg. simpl in Hget. subst x.
  injection Hs as <-.
  destruct (get_safe _ _ _ _ _ _ ver r (minv_inv _ _ _ Hm) Hg Hv Hin) as (a & Hsafe).
  destruct (calm_run_safe cid conf _ a (read_version rd) r ops _ m2 Hm1 Hcalm Hrun Hsafe)
    as (Hm2 & _ & Hsafe2).
  assert (∃ ver', versions (om_catalog m2) !! read_version rd = Some ver' ∧ r ∈ replicas (v_replicas ver'))
    as (ver' & Hv' & Hin')
    by (destruct Hsafe2 as [[_ (wer & x & ? & _ & _ & ?)]|[_ (wer & ? & ?)]]; eauto).
  apply list_elem_of_lookup in Hin' as Hk. destruct Hk as [k Hk].
  assert (∃ rest, outstanding m2 ≡ₚ lease_reservation r :: rest) as [rest Hrest].
  { destruct (res_of_one _ _ _ Hk) as [l Hl]. eexists. unfold outstanding.
    rewrite (stored_delete _ _ _ (reps_lookup _ _ _ Hv')), Hl. simpl. reflexivity. }
  exists ver', rest. split_and!; [done..|]. eapply exclusive_perm; [apply Hm2|exact Hrest].
Qed.
End Sharing.

(** ** Puts *)

Section Puts.
Context {R : Type} `{Resource R}.
Implicit Types (st : Catalog R).

(** The commit of a staged write whose replicas live. *)
Lemma commit_staged alive alive' a s t p ver c now st :
  inv st → slots st !! a = Some s → active s = Some t → at_phase t = Staged p →
  versions st !! p = Some ver → all_live alive (v_replicas ver) = true → ids_left st →
  ∃ base cv nv, commit alive alive' (mkTx (Some (catalog_id st)) a p (at_id t)) c now st =
    (Ok p, commit_publish alive' a t p ver base cv nv st).
Proof.
  intros Hi Hs Ha Hp Hv Hl Hids. unfold commit. cbn [tx_catalog tx_slot tx_pending tx_id].
  rewrite N.eqb_refl. cbn [negb]. rewrite Hs, Ha, N.eqb_refl. cbn [negb]. rewrite Hp, N.eqb_refl.
  cbn [negb]. rewrite Hv, Hl. cbn [negb].
  destruct (inv_staged st a s t p Hi Hs Ha Hp) as (ver' & Hv' & _ & Hvc & _).
  assert (ver' = ver) as -> by congruence.
  destruct (inv_base st a s t Hi Hs Ha) as [Hb _].
  assert (base_matches s t = true) as ->.
  { unfold base_matches, committed_points_to, has_committed. rewrite Hb.
    destruct (committed s); [by rewrite N.eqb_refl|done]. }
  cbn [negb]. rewrite checked_succ by (by eapply Hids). rewrite Hvc, Hb.
  destruct (committed s) as [u|] eqn:Hcm; simpl; [|eauto].
  destruct (inv_committed st a s u Hi Hs Hcm) as (old & Hold & _ & [cv Hcv] & _).
  rewrite Hold. simpl. unfold version_access. rewrite Hcv. simpl. eauto.
Qed.

(** A read of a published key with a live replica. *)
Lemma get_published alive a s p ver cv now st :
  inv st → slots st !! a = Some s → committed s = Some p → versions st !! p = Some ver →
  v_committed ver = Some cv → has_live alive (v_replicas ver) = true →
  ∃ l st' ver', get alive (s_identity s) now st = (Ok (mkRead p l), st') ∧
    versions st' !! p = Some ver' ∧ v_content ver' = v_content ver ∧ v_replicas ver' = v_replicas ver.
Proof.
  intros Hi Hs Hc Hv Hcv Hl. unfold get, lookup_slot.
  rewrite (proj2 (inv_index st (s_identity s) a Hi)) by (by exists s).
  rewrite Hs, Hc, Hv. unfold version_access. rewrite Hcv. simpl. rewrite Hl.
  eexists _, _, _. split; [done|]. split; [simpl; by rewrite lookup_alter_eq, Hv|]. done.
Qed.

(** From a staged write to the read of what was staged. *)
Lemma staged_commit_get alive a s t p ver c now now' st :
  inv st → slots st !! a = Some s → active s = Some t → at_phase t = Staged p →
  versions st !! p = Some ver → all_live alive (v_replicas ver) = true →
  has_live alive (v_replicas ver) = true → ids_left st →
  ∃ st2 l st3 ver3,
    commit alive alive (mkTx (Some (catalog_id st)) a p (at_id t)) c now st = (Ok p, st2) ∧
    get alive (s_identity s) now' st2 = (Ok (mkRead p l), st3) ∧
    versions st3 !! p = Some ver3 ∧ v_content ver3 = v_content ver ∧ v_replicas ver3 = v_replicas ver.
Proof.
  intros Hi Hs Ha Hp Hv Hall Hhas Hids.
  destruct (commit_staged alive alive a s t p ver c now st Hi Hs Ha Hp Hv Hall Hids) as (base & cv & nv & Hc).
  pose proof (commit_inv alive alive (mkTx (Some (catalog_id st)) a p (at_id t)) c now st Hi) as Hi2.
  pose proof (sig_commit alive alive (mkTx (Some (catalog_id st)) a p (at_id t)) c now st) as Hsig.
  destruct (commit_publish_version alive a t p ver base cv nv st Hv) as (ver2 & Hv2 & _ & Hcv2 & Hct2).
  rewrite Hc in Hi2, Hsig. simpl in Hi2, Hsig.
  set (st2 := commit_publish _ _ _ _ _ _ _ _ _) in *.
  assert (∃ s2, slots st2 !! a = Some s2 ∧ committed s2 = Some p ∧ s_identity s2 = s_identity s)
    as (s2 & Hs2 & Hcm2 & Hid2).
  { destruct (commit_Ok _ _ _ _ _ _ _ _ Hi Hc) as (s' & Hs' & Hcase). cbn [tx_slot] in *.
    assert (s' = s) as -> by congruence.
    destruct Hcase as [(Hn & _)|(_ & t2 & nv2 & _ & _ & _ & Hsl)]; [congruence|].
    eexists. rewrite Hsl, lookup_alter_eq, Hs. by split. }
  assert (v_replicas ver2 = v_replicas ver) as Hrep2.
  { unfold sig, reps in Hsig. injection Hsig as Hr _. apply (f_equal (lookup p)) in Hr.
    rewrite !lookup_fmap, Hv2, Hv in Hr. by injection Hr. }
  destruct (get_published alive a s2 p ver2 cv now' st2) as (l & st3 & ver3 & Hg & Hv3 & Hct3 & Hrep3);
    try done; [by rewrite Hrep2|].
  rewrite Hid2 in Hg. exists st2, l, st3, ver3. split_and!; try done; congruence.
Qed.

Lemma validated_live alive rs need :
  normal rs → validate_stage_replicas alive rs need = Ok tt →
  replicas rs ≠ [] ∧ all_live alive rs = true ∧ has_live alive rs = true.
Proof.
  intros Hn Hv. destruct (validate_stage_ok alive rs need Hn Hv) as [Hne Hall].
  split; [done|]. split.
  - apply all_live_spec; [done|]. split; [done|]. intros r Hr. apply Hall, Hr.
  - apply has_live_spec. destruct (replicas rs) as [|r l] eqn:Hl; [done|].
    exists r. split; [by left|]. apply Hall. by left.
Qed.
End Puts.

Section RoundTrip.
Context {A Alloc : Type} `{L : UpstreamLaws A Alloc}.
Local Abbreviation R := (Reservation Alloc).
Implicit Types (m : ObjectManager A Alloc) (st : Catalog R).

(** A put that started: its record is staged in the slot of its key. *)
Lemma started_state cid conf m k pp g sp m1 :
  minv cid conf m → om_prepared m !! k = Some pp → manager_env (MFinalize k true true g) m →
  finalize_start_put true true pp g (with_prepared (delete k (om_prepared m)) m) = (Ok sp, m1) →
  sp = pp_started pp ∧ minv cid conf m1 ∧ entries (om_pool m1) = entries (om_pool m) ∧
  validate_stage_replicas (live_in (om_pool m)) (pp_replicas pp) (logical_bytes (pp_content pp)) = Ok tt ∧
  ∃ s t, slots (om_catalog m) !! wc_slot (pp_claim pp) = Some s ∧
    s_identity s = wc_identity (pp_claim pp) ∧ at_id t = wc_id (pp_claim pp) ∧
    om_catalog m1 = stage_publish (pp_claim pp)
      (staged_version (pp_claim pp) (pp_content pp) (pp_replicas pp) g) t (om_catalog m).
Proof.
  intros Hm Hk Henv Hf.
  pose proof (manager_step_ok cid conf (MFinalize k true true g) m Hm Henv) as Hok.
  simpl in Hok. rewrite Hk, Hf in Hok. destruct Hok as [Hm1 _].
  destruct (w_claims _ _ (reachable_inv _ _ _ (mi_cat _ _ _ Hm)) (pp_claim pp))
    as (s & t & Hs & Ha & Hp & Hid & Ho & Hi).
  { simpl. eapply list_elem_of_fmap_2, list_elem_of_lookup_2, Hk. }
  unfold finalize_start_put, stage_inner in Hf. cbn [om_pool om_catalog with_prepared cat] in *.
  simpl in Hs. cbn [negb] in Hf. destruct (_ =? 0); [|destruct (validate_stage_replicas _ _ _) as [[]| |] eqn:Hv].
  1, 3: by (destruct (update_catalog _ _) in Hf).
  2: done.
  rewrite Hs, Ha, Hid, Ho, Hp, N.eqb_refl, bool_decide_true in Hf by done. cbn [negb orb] in Hf.
  unfold update_catalog in Hf. destruct (settle _ _ _) as [p'|] eqn:Hset; [|done].
  simpl in Hf. injection Hf as <- <-. split_and!; [done|done| |done|].
  - simpl. unfold settle in Hset. revert Hset. simpl. rewrite drop_ge by done. by intros [= <-].
  - exists s, t. split_and!; done.
Qed.

(** The catalog right after a put has started. *)
Lemma started_slot c ct rs g (s : ObjectSlot) t st :
  slots st !! wc_slot c = Some s → s_identity s = wc_identity c → spare 1 st →
  let p := next_addr st in
  let st1 := stage_publish c (staged_version c ct rs g) t st in
  let t' := mkActive (at_id t) (at_owner t) (at_base t) (at_pins t) (Staged p) in
  slots st1 !! wc_slot c = Some (set_active (Some t') s) ∧
  versions st1 !! p = Some (staged_version c ct rs g) ∧ ids_left st1.
Proof.
  intros Hs Hi Hsp p st1 t'. split; [simpl; by rewrite lookup_alter_eq, Hs|].
  split; [simpl; by rewrite lookup_insert_eq|].
  apply (spare_ids_left 1); [done|]. intros a s'. simpl. destruct (decide (a = wc_slot c)) as [->|Hne].
  - rewrite lookup_alter_eq, Hs. intros [= <-]. apply (Hsp _ _ Hs).
  - rewrite lookup_alter_ne by done. apply Hsp.
Qed.

(** C4: what was put is what is read.  Once a put has started (its replicas are
    placed and staged, and the caller knows their regions), the owner's finish
    succeeds, and from then on a read of the key returns a version of the
    planned content whose replicas are exactly the regions the caller was told
    to write. *)
Theorem put_get_round_trip cid pid nodes conf eviction m k pp g sp m1 now now' :
  manager_reachable cid pid nodes conf eviction m → om_prepared m !! k = Some pp →
  manager_env (MFinalize k true true g) m → spare 1 (om_catalog m) →
  finalize_start_put true true pp g (with_prepared (delete k (om_prepared m)) m) = (Ok sp, m1) →
  ∃ m2 rd m3 ver,
    finish_put (wc_identity (pp_claim pp)) (wc_owner (pp_claim pp)) SelectAll now m1 = (Ok tt, m2) ∧
    om_get (wc_identity (pp_claim pp)) now' m2 = (Ok rd, m3) ∧
    versions (om_catalog m3) !! read_version rd = Some ver ∧ v_content ver = pp_content pp ∧
    regions_of (replicas (v_replicas ver)) =
      map (fun a => (allocated_id a, allocated_region a)) (started_replicas sp).
Proof.
  intros Hm%manager_reachable_inv Hk Henv Hsp Hf.
  destruct (started_state cid conf m k pp g sp m1 Hm Hk Henv Hf)
    as (-> & Hm1 & Hen & Hval & s & t & Hs & Hi & Hid & Hcat).
  destruct (proj1 (Forall_forall _ _) (mi_prepared _ _ _ Hm) pp (list_elem_of_lookup_2 _ _ _ Hk))
    as [Hn Hreg]. rewrite Hreg.
  destruct (validated_live _ _ _ Hn Hval) as (Hne & Hall & Hhas).
  destruct (started_slot (pp_claim pp) (pp_content pp) (pp_replicas pp) g s t (om_catalog m) Hs Hi Hsp)
    as (Hs1 & Hv1 & Hids). rewrite <- Hcat in Hs1, Hv1, Hids.
  pose proof (minv_inv _ _ _ Hm1) as Hi1.
  assert (live_in (om_pool m1) = live_in (Alloc := Alloc) (om_pool m)) as Hlive
    by (unfold live_in, reservation_is_live; by rewrite Hen).
  destruct (staged_commit_get (live_in (om_pool m)) _ _ _ _ _ (mkCommit None) now now' _ Hi1 Hs1 eq_refl
    eq_refl Hv1 Hall Hhas Hids) as (st2 & l & st3 & ver3 & Hc & Hg & Hv3 & Hct3 & Hrep3).
  simpl in Hct3, Hrep3, Hg. rewrite Hi in Hg.
  exists (with_catalog st2 m1), (mkRead (next_addr (om_catalog m)) l), (with_catalog st3 m1), ver3.
  split; [|split_and!; [|done|done|by rewrite Hrep3]].
  - unfold finish_put, resolve_write, lookup_slot.
    rewrite (proj2 (inv_index (om_catalog m1) _ (wc_slot (pp_claim pp)) Hi1)) by (eexists; split; [exact Hs1|done]).
    rewrite Hs1. cbn [active set_active at_phase at_id tx_pending].
    unfold validate_pending, validate_version. rewrite Hv1. cbn [v_owner v_replicas staged_version].
    rewrite bool_decide_true by done. cbn [negb]. unfold validate_replicas_of.
    destruct (replicas (pp_replicas pp)); [done|]. cbn [validate_selector].
    rewrite Hlive. cbn [at_id] in Hc. by rewrite Hc.
  - unfold om_get. simpl. by rewrite Hlive, Hg.
Qed.
End RoundTrip.

(** ** A run *)

Section Example.
Local Abbreviation M := (ObjectManager Bump.bump (N * N)).

Definition example_plan : ObjectPutPlan :=
  mkPlan (mkContent 64 KvCache) (example_request 2 AllOrNothing) example_pins.

Definition empty_manager : M :=
  mkManager (catalog_new 7 example_config) (pool_new 1 8) 0
    (Some (controller_new example_eviction)) [] [].

Definition mstep_or (op : manager_op) (m : M) : M := default m (manager_step op m).

Definition attached_manager : M :=
  mstep_or (MSegment (PAttach (example_spec 2 8192)))
    (mstep_or (MSegment (PAttach (example_spec 1 4096))) empty_manager).
Definition example_prepare : manager_op :=
  MPrepare Insert (fun _ => false) example_key example_owner example_plan 5.
Definition prepared_manager : M := mstep_or example_prepare attached_manager.
Definition started_manager : M := mstep_or (MFinalize 0 true true None) prepared_manager.
Definition put_manager : M :=
  mstep_or (MFinish example_key example_owner SelectAll 6) started_manager.
Definition read_manager : M := mstep_or (MGet example_key 7) put_manager.

Local Abbreviation mreach := (manager_reachable 7 1 8 example_config (Some example_eviction)).

Lemma mstep_or_reach op m :
  mreach m → manager_env op m → bool_decide (is_Some (manager_step op m)) = true → mreach (mstep_or op m).
Proof.
  intros Hm He Hs%bool_decide_eq_true. unfold mstep_or.
  destruct (manager_step op m) as [m'|] eqn:Heq; [|by destruct Hs]. by eapply mreach_step.
Qed.

Lemma attached_reach : mreach attached_manager.
Proof.
  do 2 (apply mstep_or_reach; [|done|by vm_compute]).
  apply mreach_new; [done| |by vm_compute]. intros c [= <-]. apply example_configured.
Qed.

Lemma prepared_reach : mreach prepared_manager.
Proof. apply mstep_or_reach; [apply attached_reach|done|by vm_compute]. Qed.

Lemma started_reach : mreach started_manager.
Proof. apply mstep_or_reach; [apply prepared_reach|by vm_compute|by vm_compute]. Qed.

Lemma put_reach : mreach put_manager.
Proof. apply mstep_or_reach; [apply started_reach|done|by vm_compute]. Qed.

(** A put that can be prepared has numbers left. *)
Lemma spare_dec n (st : Catalog (Reservation (N * N))) :
  bool_decide (map_Forall (fun _ s => next_transaction_id s + n <= U64_MAX ∧ next_version_id s < U64_MAX)
    (slots st)) = true → spare n st.
Proof. intros Hs%bool_decide_eq_true a s Ha. exact (Hs a s Ha). Qed.

Definition example_pp : PreparedPut (N * N) :=
  default (mkPrepared (mkContent 0 KvCache) (mkClaim 0 example_key 0 example_owner 0) Empty
             (mkStarted Memory [])) (om_prepared prepared_manager !! 0%nat).
End Example.

Lemma put_get_round_trip_witness :
  ∃ m2 rd m3 ver,
    finish_put example_key example_owner SelectAll 6 started_manager = (Ok tt, m2) ∧
    om_get example_key 7 m2 = (Ok rd, m3) ∧
    versions (om_catalog m3) !! read_version rd = Some ver ∧ v_content ver = mkContent 64 KvCache ∧
    regions_of (replicas (v_replicas ver)) = [(1, mkRegion 4096 64); (2, mkRegion 8192 64)].
Proof.
  destruct (put_get_round_trip 7 1 8 example_config (Some example_eviction) prepared_manager 0 example_pp
    None (pp_started example_pp) started_manager 6 7) as (m2 & rd & m3 & ver & Hf & Hg & Hv & Hc & Hr);
    [apply prepared_reach|by vm_compute|by vm_compute|apply spare_dec; by vm_compute|by vm_compute|].
  exists m2, rd, m3, ver. split; [exact Hf|]. split; [exact Hg|]. split; [exact Hv|].
  split; [rewrite Hc; by vm_compute|]. rewrite Hr. by vm_compute.
Defined.

Lemma manager_refines_catalog_witness :
  ∃ m', manager_step example_prepare attached_manager = Some m' ∧
    reachable 7 example_config (cat_world attached_manager).
Proof.
  destruct (manager_refines_catalog 7 1 8 example_config (Some example_eviction) attached_manager example_prepare)
    as (m' & Hs & Hr & _); [apply attached_reach|done|by vm_compute|apply spare_dec; by vm_compute|].
  exists m'. by split.
Defined.

Lemma memory_accounted_witness :
  ∃ sh, allocators (om_pool put_manager) !! 1 = Some sh ∧ used_bytes sh = 64.
Proof.
  destruct (allocators (om_pool put_manager) !! 1) as [sh|] eqn:Ha; [|by vm_compute in Ha].
  exists sh. split; [done|].
  destruct (memory_accounted 7 1 8 example_config (Some example_eviction) put_manager 1 sh) as [Hu _];
    [apply put_reach|exact Ha|]. rewrite Hu. by vm_compute.
Defined.

Definition put_version : ObjectVersion (Reservation (N * N)) :=
  default (staged_version (pp_claim example_pp) (pp_content example_pp) Empty None)
    (versions (om_catalog put_manager) !! 1).
Definition put_replica (k : nat) : ReplicaLease (Reservation (N * N)) :=
  default (mkLease 0 (mkReservation (mkHandle (0, 0) 0 0 0) 0 (mkRegion 0 0)))
    (replicas (v_replicas put_version) !! k).
Definition entry_at (a : N) : SegmentEntry :=
  default (entry_new (example_spec 0 0)) (entries (om_pool put_manager) !! a).

Lemma replicas_never_share_witness :
  ¬ regions_overlap (r_region (lease_reservation (put_replica 0)))
      (r_region (lease_reservation (put_replica 1))).
Proof.
  apply (replicas_never_share 7 1 8 example_config (Some example_eviction) put_manager 1 1 put_version
    put_version 0 1 (put_replica 0) (put_replica 1) (entry_at 1) (entry_at 2));
    [apply put_reach|by vm_compute|by vm_compute|by vm_compute|by vm_compute|done|by vm_compute..].
Defined.

Definition calm_ops : list manager_op :=
  [MMaintenance false 8 CollectBudget_default []; MRemove example_key 9 false].

Definition calm_manager : ObjectManager Bump.bump (N * N) :=
  default read_manager (manager_run calm_ops read_manager).

(** A run whose calls need nothing of their environment, evaluated. *)
Fixpoint calm_runb (until : N) (r : ReplicaLease (Reservation (N * N))) (ops : list manager_op)
    (m : ObjectManager Bump.bump (N * N)) : bool :=
  live_in (om_pool m) (lease_reservation r) &&
  match ops with
  | [] => true
  | op :: ops' =>
      match op with MFinalize _ _ _ _ => false | _ => true end && (op_time op <? until) &&
      negb (op_force op) &&
      match manager_step op m with Some m' => calm_runb until r ops' m' | None => true end
  end.

Lemma calm_check until r ops : ∀ m, calm_runb until r ops m = true → calm_run until r ops m.
Proof.
  induction ops as [|op ops IH]; intros m Hb; simpl in Hb; apply andb_prop in Hb as [Hl Hb];
    (split; [exact Hl|]); [done|].
  apply andb_prop in Hb as [Hb Hn]. apply andb_prop in Hb as [Hb Hf]. apply andb_prop in Hb as [Ho Ht].
  split; [by destruct op|]. split; [by apply N.ltb_lt|]. split; [by apply negb_true_iff|].
  intros m' Hs. rewrite Hs in Hn. by apply IH.
Qed.

Lemma leased_memory_stays_witness :
  ∃ m2 ver' rest, manager_run calm_ops read_manager = Some m2 ∧
    versions (om_catalog m2) !! 1 = Some ver' ∧ put_replica 0 ∈ replicas (v_replicas ver') ∧
    outstanding m2 ≡ₚ lease_reservation (put_replica 0) :: rest ∧
    exclusive (om_pool m2) rest (lease_reservation (put_replica 0)).
Proof.
  destruct (leased_memory_stays 7 1 8 example_config (Some example_eviction) put_manager example_key 7
    (mkRead 1 10007) read_manager put_version (put_replica 0) calm_ops calm_manager)
    as (ver' & rest & Hv & Hin & Hp & He);
    [apply put_reach|vm_compute; reflexivity|vm_compute; reflexivity|vm_compute; reflexivity| |
    |vm_compute; reflexivity|].
  - apply list_elem_of_lookup. exists 0%nat. vm_compute. reflexivity.
  - apply calm_check. vm_compute. reflexivity.
  - exists calm_manager, ver', rest. split; [vm_compute; reflexivity|].
    exact (conj Hv (conj Hin (conj Hp He))).
Defined.
