(* ===== verification/TenantManager.v ===== *)
(** * The tenant object manager

    [src/src/object/tenant/manager.rs] with the admission of
    [src/src/object/tenant/quota.rs]: the calls tenants make through their
    handles.  The manager is an object manager and a tenant registry; the quota
    accounts are those the object manager's catalog charges.  A call checks the
    handle, admits a put against the quota of its tenant, and passes to the
    object manager in the namespace of the handle. *)
From S2P Require Import Prelude Identity Segment ByteAllocator SegmentPool Placement TenantQuota Replica ObjectTypes.
From S2P Require Import TenantRegistry CatalogState CatalogWrite CatalogCollector Eviction ObjectManager.

(** ** Errors *)

Inductive TenantObjectError :=
| HandleError (e : TenantHandleError)
| QuotaError (e : TenantQuotaExceeded)
| ObjectError (e : ObjectManagerError).

Inductive TenantObjectManagerCreateError :=
| CreateCatalog (e : ObjectCatalogConfigError)
| CreateTenant (e : TenantConfigError).

Inductive TenantGetError :=
| GetTenant (e : TenantHandleError)
| GetLookup (e : LookupError).

Inductive TenantRemoveError :=
| RemoveTenant (e : TenantHandleError)
| RemoveObject (e : ObjectRemoveError).

Record TenantPutRequest := mkPut { put_key : string; put_plan : ObjectPutPlan }.

(** ** Admission *)

(** The bytes a put is admitted for: every replica, or the one a best-effort
    placement must have. *)
Definition admission_charge (plan : ObjectPutPlan) : res ObjectManagerError N :=
  let count := N.of_nat (replica_count (plan_placement plan)) in
  let? requested := ok_or InvalidPlan (if count <=? U64_MAX then Some count else None) in
  let admitted :=
    match fulfillment (plan_placement plan) with
    | AllOrNothing => requested
    | BestEffort => 1
    end in
  ok_or InvalidPlan (checked_mul (logical_bytes (plan_content plan)) admitted).

(** [TenantEntry::reserve_checked] on the entry [a]: the bytes are taken first,
    and given back when the version is no longer the expected one. *)
Definition reserve_checked (a bytes expected : N) (r : TenantRegistry) (accs : Accounts)
    : res TenantObjectError unit * Accounts :=
  match tenant_entries r !! a with
  | None => (Panic, accs)
  | Some e =>
      match reserve_demand bytes (account_at accs a) with
      | (Panic, _) => (Panic, accs)
      | (Err error, _) =>
          (Err (if te_version e =? expected then QuotaError error
                else HandleError InvalidTenantHandle), accs)
      | (Ok _, x) =>
          if negb (te_version e =? expected)
          then (Err (HandleError InvalidTenantHandle), <[a := release_reserved bytes x]> accs)
          else (Ok tt, <[a := x]> accs)
      end
  end.

(** The bytes of a batch: the number of plans with a charge, up to the one that
    overflows, and their total. *)
Fixpoint batch_total (charges : list (res ObjectManagerError N)) (count : nat) (total : N)
    : nat * option N :=
  match charges with
  | [] => (count, Some total)
  | Ok bytes :: l =>
      match checked_add total bytes with
      | Some total' => batch_total l (S count) total'
      | None => (S count, None)
      end
  | _ :: l => batch_total l count total
  end.

Section TenantManager.
Context {A Alloc : Type} `{U : Upstream A Alloc}.

Record TenantObjectManager := mkTenantManager {
  tm_object : ObjectManager A Alloc;
  tm_registry : TenantRegistry
}.

Implicit Types (tm : TenantObjectManager) (m : ObjectManager A Alloc) (t : ResolvedTenant).

Definition tm_accounts tm : Accounts := accounts (om_catalog (tm_object tm)).

Definition with_accounts (accs : Accounts) m : ObjectManager A Alloc :=
  with_catalog (set_accounts accs (om_catalog m)) m.

Definition with_object m tm : TenantObjectManager := mkTenantManager m (tm_registry tm).

Definition with_tenants (x : TenantRegistry * Accounts) tm : TenantObjectManager :=
  mkTenantManager (with_accounts x.2 (tm_object tm)) x.1.

(** [with_config] and [with_eviction_config]. *)
Definition tenant_manager_new (cid mid : N) (config : ObjectCatalogConfig)
    (eviction : option MemoryEvictionConfig) (tenants : TenantConfig) (p : Pool A)
    : res TenantObjectManagerCreateError TenantObjectManager :=
  let? m := res_map_err CreateCatalog (om_new cid config eviction p) in
  let? (r, accs) := res_map_err CreateTenant (registry_new mid tenants (outstanding m) p) in
  Ok (mkTenantManager (with_accounts accs m) r).

Definition resolve_tenant (id : string) tm : res TenantObjectError ResolvedTenant :=
  res_map_err HandleError (resolve id (tm_registry tm)).

(** ** Puts *)

(** The environment of a put: whether the collector gate is taken during the
    eviction of each attempt, and what the session says before and after
    staging. *)
Record PutEnv := mkPutEnv {
  gate_busy : nat → bool;
  session_before : bool;
  session_after : bool
}.

Definition drop_guard (g : N * N) m : ObjectManager A Alloc :=
  with_accounts (alter (guard_drop g.2) g.1 (accounts (om_catalog m))) m.

(** The prepared put, then the guard, are dropped on an error. *)
Definition abandon (pp : PreparedPut Alloc) (g : N * N) (e : TenantObjectError) m
    : res TenantObjectError StartedPut * ObjectManager A Alloc :=
  match drop_prepared pp m with
  | None => (Panic, m)
  | Some m' => (Err e, drop_guard g m')
  end.

(** [g] is the admission guard: the account and the bytes it holds. *)
Definition start_write_accounted (env : PutEnv) (i : ObjectIdentity) (o : WriteOwner)
    (plan : ObjectPutPlan) (now : N) (mode : WriteMode) (g : N * N) m
    : res TenantObjectError StartedPut * ObjectManager A Alloc :=
  match prepare_write mode (gate_busy env) i o plan now m with
  | (Panic, m1) => (Panic, m1)
  | (Err e, m1) => (Err (ObjectError e), drop_guard g m1)
  | (Ok pp, m1) =>
      match actual_charge_bytes pp with
      | Panic => (Panic, m1)
      | Err e => abandon pp g (ObjectError e) m1
      | Ok actual =>
          let accs := accounts (om_catalog m1) in
          match guard_resize g.2 actual (account_at accs g.1) with
          | (Panic, _) => (Panic, m1)
          | (Err q, x) => abandon pp g (QuotaError q) (with_accounts (<[g.1 := x]> accs) m1)
          | (Ok held, x) =>
              let '(r, m2) := finalize_start_put (session_before env) (session_after env) pp
                                (Some (g.1, held)) (with_accounts (<[g.1 := x]> accs) m1) in
              (res_map_err ObjectError r, m2)
          end
      end
  end.

Definition object_start_write (env : PutEnv) (i : ObjectIdentity) (o : WriteOwner)
    (plan : ObjectPutPlan) (now : N) (mode : WriteMode) m
    : res TenantObjectError StartedPut * ObjectManager A Alloc :=
  let '(r, m') := start_write mode (gate_busy env) i o plan now (session_before env)
                    (session_after env) m in
  (res_map_err ObjectError r, m').

(** Only the manager of the handle is checked first: the version check after
    the bytes were taken decides. *)
Definition tenant_start_write (env : PutEnv) t (k : string) (o : WriteOwner)
    (plan : ObjectPutPlan) (now : N) (mode : WriteMode) tm
    : res TenantObjectError StartedPut * TenantObjectManager :=
  match validate_binding t (tm_registry tm) with
  | Panic => (Panic, tm)
  | Err e => (Err (HandleError e), tm)
  | Ok _ =>
      let i := mkObject (rt_namespace t) k in
      match rt_entry t with
      | None =>
          let '(r, m) := object_start_write env i o plan now mode (tm_object tm) in
          (r, with_object m tm)
      | Some a =>
          match admission_charge plan with
          | Panic => (Panic, tm)
          | Err e => (Err (ObjectError e), tm)
          | Ok bytes =>
              match reserve_checked a bytes (rt_version t) (tm_registry tm) (tm_accounts tm) with
              | (Panic, _) => (Panic, tm)
              | (Err e, accs) => (Err e, with_object (with_accounts accs (tm_object tm)) tm)
              | (Ok _, accs) =>
                  let '(r, m) := start_write_accounted env i o plan now mode (a, bytes)
                                   (with_accounts accs (tm_object tm)) in
                  (r, with_object m tm)
              end
          end
      end
  end.

(** The items of a batch, in order.  The call ends at an item that panics: its
    [Panic] is the answer of the whole call, and what follows it is moot. *)
Fixpoint each {X Y : Type} (f : X → ObjectManager A Alloc → Y * ObjectManager A Alloc)
    (l : list X) m : list Y * ObjectManager A Alloc :=
  match l with
  | [] => ([], m)
  | x :: l' =>
      let '(y, m1) := f x m in
      let '(ys, m2) := each f l' m1 in
      (y :: ys, m2)
  end.

(** One item of an accounted batch: the plan's own error, the error of the
    batch, or a put with its part of the bytes that were reserved together. *)
Definition batch_item (env : PutEnv) t (a : N) (o : WriteOwner) (now : N) (mode : WriteMode)
    (batch_error : option TenantObjectError)
    (x : TenantPutRequest * res ObjectManagerError N) m
    : res TenantObjectError StartedPut * ObjectManager A Alloc :=
  match x.2, batch_error with
  | Panic, _ => (Panic, m)
  | Err e, _ => (Err (ObjectError e), m)
  | Ok _, Some e => (Err e, m)
  | Ok bytes, None =>
      start_write_accounted env (mkObject (rt_namespace t) (put_key x.1)) o (put_plan x.1) now mode
        (a, bytes) m
  end.

(** The one reservation of a batch: its error, and the accounts after it. *)
Definition reserve_batch t (a : N) (charges : list (res ObjectManagerError N))
    (r : TenantRegistry) (accs : Accounts) : res unit (option TenantObjectError) * Accounts :=
  match batch_total charges 0 0 with
  | (O, _) => (Ok None, accs)
  | (_, None) => (Ok (Some (ObjectError InvalidPlan)), accs)
  | (_, Some total) =>
      match reserve_checked a total (rt_version t) r accs with
      | (Panic, accs') => (Panic, accs')
      | (Err e, accs') => (Ok (Some e), accs')
      | (Ok _, accs') => (Ok None, accs')
      end
  end.

(** A batch of several puts: one check of the handle and one reservation. *)
Definition start_write_many (env : PutEnv) t (o : WriteOwner) (requests : list TenantPutRequest)
    (now : N) (mode : WriteMode) tm
    : list (res TenantObjectError StartedPut) * TenantObjectManager :=
  match validate t (tm_registry tm) with
  | Panic => (map (fun _ => Panic) requests, tm)
  | Err e => (map (fun _ => Err (HandleError e)) requests, tm)
  | Ok _ =>
      match rt_entry t with
      | None =>
          let '(rs, m) := each (fun q => object_start_write env (mkObject (rt_namespace t) (put_key q))
                            o (put_plan q) now mode) requests (tm_object tm) in
          (rs, with_object m tm)
      | Some a =>
          let charges := map (fun q => admission_charge (put_plan q)) requests in
          match reserve_batch t a charges (tm_registry tm) (tm_accounts tm) with
          | (Ok error, accs) =>
              let '(rs, m) := each (batch_item env t a o now mode error)
                                (zip requests charges) (with_accounts accs (tm_object tm)) in
              (rs, with_object m tm)
          | (_, accs) => (map (fun _ => Panic) requests, with_object (with_accounts accs (tm_object tm)) tm)
          end
      end
  end.

Definition start_write_batch (env : PutEnv) t (o : WriteOwner) (requests : list TenantPutRequest)
    (now : N) (mode : WriteMode) tm
    : list (res TenantObjectError StartedPut) * TenantObjectManager :=
  match requests with
  | [q] =>
      let '(r, tm') := tenant_start_write env t (put_key q) o (put_plan q) now mode tm in ([r], tm')
  | _ => start_write_many env t o requests now mode tm
  end.

(** ** Calls through a handle *)

(** The object manager's call [f] once the handle is known to be current. *)
Definition validated {E X} (inject : TenantHandleError → E) t
    (f : ObjectManager A Alloc → res E X * ObjectManager A Alloc) tm
    : res E X * TenantObjectManager :=
  match validate t (tm_registry tm) with
  | Panic => (Panic, tm)
  | Err e => (Err (inject e), tm)
  | Ok _ => let '(r, m) := f (tm_object tm) in (r, with_object m tm)
  end.

Definition finish_put_at t (k : string) (o : WriteOwner) (s : ReplicaSelector) (now : N)
    : TenantObjectManager → res TenantObjectError unit * TenantObjectManager :=
  validated HandleError t (fun m =>
    let '(r, m') := finish_put (mkObject (rt_namespace t) k) o s now m in (res_map_err ObjectError r, m')).

(** Without a tick the commit is at tick zero. *)
Definition tenant_finish_put t (k : string) (o : WriteOwner) (s : ReplicaSelector)
    : TenantObjectManager → res TenantObjectError unit * TenantObjectManager :=
  finish_put_at t k o s 0.

Definition tenant_revoke_put t (k : string) (o : WriteOwner) (s : ReplicaSelector) (now : N)
    : TenantObjectManager → res TenantObjectError unit * TenantObjectManager :=
  validated HandleError t (fun m =>
    let '(r, m') := revoke_put (mkObject (rt_namespace t) k) o s now m in (res_map_err ObjectError r, m')).

Definition tenant_get t (k : string) (now : N)
    : TenantObjectManager → res TenantGetError ObjectRead * TenantObjectManager :=
  validated GetTenant t (fun m =>
    let '(r, m') := om_get (mkObject (rt_namespace t) k) now m in (res_map_err GetLookup r, m')).

Definition tenant_exists t (k : string) (now : N)
    : TenantObjectManager → res TenantObjectError bool * TenantObjectManager :=
  validated HandleError t (fun m =>
    let '(b, m') := om_exists (mkObject (rt_namespace t) k) now m in (Ok b, m')).

Definition tenant_remove t (k : string) (now : N) (force : bool)
    : TenantObjectManager → res TenantRemoveError unit * TenantObjectManager :=
  validated RemoveTenant t (fun m =>
    let '(r, m') := om_remove (mkObject (rt_namespace t) k) now force m in (res_map_err RemoveObject r, m')).

Definition tenant_remove_matching t (pattern : option (string → bool)) (now : N) (force : bool)
    : TenantObjectManager → res TenantObjectError nat * TenantObjectManager :=
  validated HandleError t (fun m =>
    let '(n, m') := remove_matching (rt_namespace t) pattern now force m in (Ok n, m')).

(** [map_validated_keys]: one check of the handle for a batch of keys. *)
Definition map_validated_keys {Y} t (keys : list string)
    (f : ObjectIdentity → ObjectManager A Alloc → Y * ObjectManager A Alloc)
    : TenantObjectManager → res TenantObjectError (list Y) * TenantObjectManager :=
  validated HandleError t (fun m =>
    let '(ys, m') := each (fun k => f (mkObject (rt_namespace t) k)) keys m in (Ok ys, m')).

Definition tenant_remove_batch t (keys : list string) (now : N) (force : bool) :=
  map_validated_keys t keys (fun i => om_remove i now force).
Definition tenant_exists_batch t (keys : list string) (now : N) :=
  map_validated_keys t keys (fun i => om_exists i now).
Definition tenant_get_batch t (keys : list string) (now : N) :=
  map_validated_keys t keys (fun i => om_get i now).
Definition finish_put_batch_at t (keys : list string) (o : WriteOwner) (s : ReplicaSelector) (now : N) :=
  map_validated_keys t keys (fun i => finish_put i o s now).
Definition revoke_put_batch t (keys : list string) (o : WriteOwner) (s : ReplicaSelector) (now : N) :=
  map_validated_keys t keys (fun i => revoke_put i o s now).

(** ** Administration and maintenance *)

(** Every registered tenant that still resolves loses its objects. *)
Definition remove_all_tenants (now : N) (force : bool) tm : nat * TenantObjectManager :=
  let handles := omap (fun s => match resolve (ts_id s) (tm_registry tm) with Ok t => Some t | _ => None end)
                   (snapshots (tm_registry tm) (tm_accounts tm)) in
  let '(ns, m) := each (fun t => remove_matching (rt_namespace t) None now force) handles (tm_object tm) in
  (foldr Nat.add 0%nat ns, with_object m tm).

(** [None] is a panic. *)
Definition tenant_maintenance (busy : bool) (now : N) (budget : CollectBudget) tm
    : option (ObjectManagerMaintenance * TenantObjectManager) :=
  let m := tm_object tm in
  let '(r1, accs1) := refresh_capacity (outstanding m) (om_pool m) (tm_registry tm) (tm_accounts tm) in
  let '(targets, r2) := reclaim_targets r1 accs1 in
  '(report, m') ← maintenance_with_targets busy now budget targets (with_accounts accs1 m);
  Some (report, mkTenantManager m' r2).

Definition upsert_tenant (id : string) (policy : TenantPolicy) tm
    : res TenantAdminError ResolvedTenant * TenantObjectManager :=
  let m := tm_object tm in
  let '(r, x) := upsert id policy (outstanding m) (om_pool m) (tm_registry tm) (tm_accounts tm) in
  (r, with_tenants x tm).

Definition tm_delete_tenant (id : string) tm : res TenantAdminError unit * TenantObjectManager :=
  let m := tm_object tm in
  let '(r, x) := delete_tenant id (outstanding m) (om_pool m) (tm_registry tm) (tm_accounts tm) in
  (r, with_tenants x tm).

Definition tenant_snapshot (id : string) tm : option TenantSnapshot :=
  snapshot id (tm_registry tm) (tm_accounts tm).

Definition list_tenants tm : list TenantSnapshot := snapshots (tm_registry tm) (tm_accounts tm).
End TenantManager.

Arguments TenantObjectManager A Alloc : clear implicits.
