(* ===== verification/TenantWorld.v ===== *)
(** * The tenants with their callers

    The calls of the tenant object manager in the steps that other calls can
    come between: an admission and its guard, the object manager's calls, and
    administration, which runs under the registry's lock.  The world keeps the
    admission guards that are held.  Its invariant: the object manager's and the
    registry's, every account equal to what its guards and versions owe, and
    limits that share the capacity they were computed for. *)
From stdpp Require Import relations.
From S2P Require Import Prelude Identity Segment ByteAllocator SegmentPool Placement TenantQuota Replica ObjectTypes.
From S2P Require Import TenantRegistry TenantSteps CatalogState CatalogBooks CatalogWrite CatalogCollector CatalogInv CatalogOps.
From S2P Require Import CatalogWorld CatalogCharges CatalogProps CatalogResources Eviction ObjectManager ManagerWorld TenantManager.

Section World.
Context {A Alloc : Type} `{U : Upstream A Alloc}.

Record TenantWorld := mkTenantWorld {
  tw_manager : TenantObjectManager A Alloc;
  tw_guards : list (N * N)
}.

Implicit Types (w : TenantWorld) (tm : TenantObjectManager A Alloc).

Inductive tenant_op :=
| TObject (op : manager_op)
| TReserve (a bytes expected : N)
| TSplit (k : nat) (parts : list N)
| TResize (k : nat) (bytes : N)
| TDropGuard (k : nat)
| TFinalize (k j : nat) (active_before active_after : bool)
| TRefresh
| TTargets
| TUpsert (id : string) (policy : TenantPolicy)
| TDelete (id : string).

(** The calls of the object manager that leave the accounts to the tenants. *)
Definition object_only (op : manager_op) : bool :=
  match op with
  | MFinalize _ _ _ (Some _) | MAccounts _ => false
  | _ => true
  end.

Definition set_world_accounts (accs : Accounts) (gs : list (N * N)) w : TenantWorld :=
  mkTenantWorld (with_object (with_accounts accs (tm_object (tw_manager w))) (tw_manager w)) gs.

(** One step; [None] is a panic. *)
Definition tenant_step (op : tenant_op) w : option TenantWorld :=
  let tm := tw_manager w in
  let m := tm_object tm in
  let r := tm_registry tm in
  let accs := tm_accounts tm in
  let gs := tw_guards w in
  match op with
  | TObject op =>
      if object_only op
      then m' ← manager_step op m; Some (mkTenantWorld (with_object m' tm) gs)
      else Some w
  | TReserve a bytes expected =>
      match reserve_checked a bytes expected r accs with
      | (Panic, _) => None
      | (Err _, accs') => Some (set_world_accounts accs' gs w)
      | (Ok _, accs') => Some (set_world_accounts accs' (gs ++ [(a, bytes)]) w)
      end
  | TSplit k parts =>
      match gs !! k with
      | Some (a, bytes) =>
          if sum_by (fun n => n) parts =? bytes
          then Some (mkTenantWorld tm (delete k gs ++ map (pair a) parts)) else Some w
      | None => Some w
      end
  | TResize k bytes =>
      match gs !! k with
      | Some (a, held) =>
          match guard_resize held bytes (account_at accs a) with
          | (Panic, _) => None
          | (Err _, x) => Some (set_world_accounts (<[a := x]> accs) gs w)
          | (Ok held', x) => Some (set_world_accounts (<[a := x]> accs) (<[k := (a, held')]> gs) w)
          end
      | None => Some w
      end
  | TDropGuard k =>
      match gs !! k with
      | Some (a, held) => Some (set_world_accounts (alter (guard_drop held) a accs) (delete k gs) w)
      | None => Some w
      end
  | TFinalize k j b1 b2 =>
      match om_prepared m !! k, gs !! j with
      | Some pp, Some g =>
          (* a guard is finalized with the bytes of the replicas it was resized to *)
          match actual_charge_bytes pp with
          | Ok n =>
              if n =? g.2
              then m' ← manager_step (MFinalize k b1 b2 (Some g)) m;
                   Some (mkTenantWorld (with_object m' tm) (delete j gs))
              else Some w
          | _ => Some w
          end
      | _, _ => Some w
      end
  | TRefresh =>
      Some (mkTenantWorld (with_tenants (refresh_capacity (outstanding m) (om_pool m) r accs) tm) gs)
  | TTargets => Some (mkTenantWorld (mkTenantManager m (reclaim_targets r accs).2) gs)
  | TUpsert id policy =>
      match upsert_tenant id policy tm with
      | (Panic, _) => None
      | (_, tm') => Some (mkTenantWorld tm' gs)
      end
  | TDelete id =>
      match tm_delete_tenant id tm with
      | (Panic, _) => None
      | (_, tm') => Some (mkTenantWorld tm' gs)
      end
  end.

(** What the object manager's calls assume; an admission is of a tenant of this
    registry, as its handle tells. *)
Definition tenant_env (op : tenant_op) w : Prop :=
  match op with
  | TObject op => manager_env op (tm_object (tw_manager w))
  | TFinalize k j b1 b2 => manager_env (MFinalize k b1 b2 None) (tm_object (tw_manager w))
  | TReserve a _ _ => is_Some (tenant_entries (tm_registry (tw_manager w)) !! a)
  | _ => True
  end.

Inductive tenant_reachable (cid mid pid nodes : N) (conf : ObjectCatalogConfig)
    (eviction : option MemoryEvictionConfig) (tenants : TenantConfig) : TenantWorld → Prop :=
| treach_new tm :
    pool_config_valid nodes = true → (∀ c, eviction = Some c → configured c) →
    tenant_manager_new cid mid conf eviction tenants (pool_new pid nodes) = Ok tm →
    tenant_reachable cid mid pid nodes conf eviction tenants (mkTenantWorld tm [])
| treach_step op w w' :
    tenant_reachable cid mid pid nodes conf eviction tenants w → tenant_env op w →
    tenant_step op w = Some w' → tenant_reachable cid mid pid nodes conf eviction tenants w'.

(** The bytes the guards hold on an account. *)
Definition guarded (gs : list (N * N)) (a : N) : N :=
  sum_by (fun g => if decide (g.1 = a) then g.2 else 0) gs.
End World.

Arguments TenantWorld A Alloc : clear implicits.
