(* ===== verification/TenantInv.v ===== *)
(** * The invariant of the tenants

    Every step of the world of [TenantWorld] keeps the object manager's and the
    registry's invariants, the balance of the accounts and the shares. *)
From stdpp Require Import relations.
From S2P Require Import Prelude Identity Segment ByteAllocator SegmentPool Placement TenantQuota Replica ObjectTypes.
From S2P Require Import TenantRegistry TenantSteps CatalogState CatalogBooks CatalogWrite CatalogCollector CatalogInv CatalogOps.
From S2P Require Import CatalogWorld CatalogCharges CatalogProps CatalogResources Eviction ObjectManager ManagerWorld TenantManager TenantWorld.

Section Invariant.
Context {A Alloc : Type} `{L : UpstreamLaws A Alloc}.
Local Abbreviation R := (Reservation Alloc).
Implicit Types (w : TenantWorld A Alloc) (tm : TenantObjectManager A Alloc) (m : ObjectManager A Alloc).
Context (cid : N) (conf : ObjectCatalogConfig).

Record tenant_inv w : Prop := {
  tv_objects : minv cid conf (tm_object (tw_manager w));
  tv_tenants : tenants_inv (tm_registry (tw_manager w)) (tm_accounts (tw_manager w));
  tv_settled : settled (tm_registry (tw_manager w));
  tv_balanced : balanced (guarded (tw_guards w)) (books (om_catalog (tm_object (tw_manager w))));
  tv_guards g : g ∈ tw_guards w → is_Some (tm_accounts (tw_manager w) !! g.1);
  tv_limits : ∃ capacity, limits capacity (tm_registry (tw_manager w)) (tm_accounts (tw_manager w))
}.

(** ** Guards *)

Lemma guarded_delete gs k g a : gs !! k = Some g → guarded gs a = hold (Some g) (guarded (delete k gs)) a.
Proof.
  intros Hk. unfold guarded, hold. rewrite (sum_by_delete _ _ _ _ Hk). destruct g as [e n]. simpl. lia.
Qed.

Lemma guarded_app gs gs' a : guarded (gs ++ gs') a = guarded gs a + guarded gs' a.
Proof. apply sum_by_app. Qed.

Lemma guarded_parts e parts a : guarded (map (pair e) parts) a =
  if decide (e = a) then sum_by (fun n => n) parts else 0.
Proof.
  unfold guarded. rewrite sum_by_map. simpl. case_decide; [done|].
  induction parts as [|n parts IH]; [done|]. rewrite sum_by_cons. simpl. by rewrite IH.
Qed.

(** ** Changes of the accounts *)

Lemma minv_accounts m accs : minv cid conf m → minv cid conf (with_accounts accs m).
Proof. intros Hm. exact (proj1 (manager_step_ok cid conf (MAccounts accs) m Hm I)). Qed.

Lemma limits_policies c r accs accs' : same_policies accs accs' → limits c r accs → limits c r accs'.
Proof.
  intros Hp [Hs Hle].
  assert (∀ a, effective (account_at accs' a) = effective (account_at accs a) ∧
    requested (account_at accs' a) = requested (account_at accs a)) as Ha.
  { intros a. specialize (Hp a). unfold account_at. destruct (accs' !! a), (accs !! a); simpl in Hp; try done.
    unfold policy_of in Hp. simpl. split; congruence. }
  split.
  - rewrite !(sum_by_ext _ (fun a => effective (account_at accs a))) by (intros; apply Ha).
    rewrite (sum_by_ext (fun a => requested (account_at accs' a)) (fun a => requested (account_at accs a)))
      by (intros; apply Ha). done.
  - intros a Hin. destruct (Ha a) as [-> ->]. auto.
Qed.

(** The accounts and the registry change together with the guards. *)
Lemma accounts_move w r accs gs :
  tenant_inv w → tenants_inv r accs → settled r → (∃ c, limits c r accs) →
  (∀ g, g ∈ gs → is_Some (accs !! g.1)) →
  balanced (guarded gs) (mkBooks accs (b_items (books (om_catalog (tm_object (tw_manager w)))))
    (b_retired (books (om_catalog (tm_object (tw_manager w)))))) →
  tenant_inv (mkTenantWorld (mkTenantManager (with_accounts accs (tm_object (tw_manager w))) r) gs).
Proof.
  intros [Ho Ht Hs Hb Hg Hl] Ht' Hs' Hl' Hg' Hb'. split; try done. by apply minv_accounts.
Qed.

(** The registry stays, and the limits with it. *)
Lemma accounts_only w accs gs :
  tenant_inv w → same_policies (tm_accounts (tw_manager w)) accs →
  (∀ g, g ∈ gs → is_Some (accs !! g.1)) →
  balanced (guarded gs) (mkBooks accs (b_items (books (om_catalog (tm_object (tw_manager w)))))
    (b_retired (books (om_catalog (tm_object (tw_manager w)))))) →
  tenant_inv (set_world_accounts accs gs w).
Proof.
  intros Hw Hp Hg Hb. apply accounts_move; try done; [|apply Hw|].
  - eapply inv_same; [apply Hw|apply same_refl|]. intros a. by apply same_policies_dom.
  - destruct (tv_limits _ Hw) as [c Hc]. exists c. by eapply limits_policies.
Qed.

(** Administration: what the tenants use stays. *)
Lemma usage_move w r accs :
  tenant_inv w → tenants_inv r accs → settled r → (∃ c, limits c r accs) →
  usage_kept (tm_accounts (tw_manager w)) accs →
  tenant_inv (mkTenantWorld (with_tenants (r, accs) (tw_manager w)) (tw_guards w)).
Proof.
  intros Hw Ht Hs Hl Hu.
  assert (∀ a, is_Some (tm_accounts (tw_manager w) !! a) → is_Some (accs !! a)) as Hdom.
  { intros a [x Hx]. specialize (Hu a). rewrite Hx in Hu. by destruct (accs !! a). }
  apply (accounts_move w r accs (tw_guards w)); try done.
  - intros g Hg. by apply Hdom, (tv_guards _ Hw).
  - apply (guards_move (guarded (tw_guards w))); [apply Hw|exact Hdom|].
    intros e x' Hx'. specialize (Hu e). change (b_accounts (books _)) with (tm_accounts (tw_manager w)).
    destruct (tm_accounts (tw_manager w) !! e) as [x|] eqn:Hx.
    + left. exists x. rewrite Hx' in Hu. simpl in Hu. unfold usage in Hu. injection Hu as Hd Hu Hr.
      destruct (bl_account _ _ (tv_balanced _ Hw) e x Hx). split_and!; [done|lia..].
    + right. specialize (Hu x' Hx'). unfold usage in Hu. injection Hu as Hd Hu Hr. split_and!; [done..|].
      unfold guarded. apply sum_by_zero. intros g Hg. case_decide; [|done]. subst e.
      destruct (tv_guards _ Hw g Hg). congruence.
Qed.

(** ** Admission *)

Lemma set_demand_same x : set_demand (demand x) x = x.
Proof. by destruct x. Qed.

(** An admission takes the bytes of the current version of a tenant, within its
    limit, or leaves the accounts as they were. *)
Lemma reserve_checked_ok a bytes v r accs :
  tenants_inv r accs → is_Some (tenant_entries r !! a) →
  match reserve_checked a bytes v r accs with
  | (Ok _, accs') => ∃ x e, accs !! a = Some x ∧ accs' = <[a := set_demand (demand x + bytes) x]> accs ∧
      demand x + bytes <= effective x ∧ demand x + bytes <= U64_MAX ∧
      tenant_entries r !! a = Some e ∧ te_version e = v
  | (Err _, accs') => accs' = accs
  | (Panic, _) => False
  end.
Proof.
  intros Hi [e He]. destruct (ti_entry _ _ Hi a e He) as (_ & [x Hx] & _).
  unfold reserve_checked. rewrite He. unfold account_at. rewrite Hx. simpl.
  unfold reserve_demand. destruct (checked_add (demand x) bytes) as [next|] eqn:Hn; [|done].
  apply checked_add_Some in Hn as [-> Hn].
  destruct (N.ltb_spec (effective x) (demand x + bytes)); [done|].
  destruct (N.eqb_spec (te_version e) v) as [Hv|Hv]; cbn [negb].
  - exists x, e. done.
  - apply insert_id. rewrite Hx. f_equal. unfold release_reserved, saturating_sub. simpl.
    rewrite N.add_sub. destruct x; done.
Qed.

Lemma reserve_inv w a bytes v accs :
  tenant_inv w → is_Some (tenant_entries (tm_registry (tw_manager w)) !! a) →
  reserve_checked a bytes v (tm_registry (tw_manager w)) (tm_accounts (tw_manager w)) = (Ok tt, accs) →
  tenant_inv (set_world_accounts accs (tw_guards w ++ [(a, bytes)]) w).
Proof.
  intros Hw Ha Hr. pose proof (reserve_checked_ok a bytes v _ _ (tv_tenants _ Hw) Ha) as Hok.
  rewrite Hr in Hok. destruct Hok as (x & e & Hx & -> & _ & Hm & _). set (x' := set_demand _ x).
  assert (same_policies (tm_accounts (tw_manager w)) (<[a := x']> (tm_accounts (tw_manager w)))) as Hp
    by (by apply (same_policies_insert _ _ x)).
  apply accounts_only; [done|done|..].
  - intros g [Hg| ->%list_elem_of_singleton]%elem_of_app; [|by rewrite lookup_insert_eq].
    apply (same_policies_dom _ _ _ Hp). by apply (tv_guards _ Hw).
  - apply (guards_move (guarded (tw_guards w))); [apply Hw|intros b; by apply (same_policies_dom _ _ _ Hp)|].
    intros b y. rewrite guarded_app. cbn. change (accounts _) with (tm_accounts (tw_manager w)).
    rewrite lookup_insert. case_decide as Hb.
    + intros [= <-]. subst b. left. exists x. unfold guarded at 3, sum_by. simpl. rewrite decide_True by done.
      split_and!; [done|lia|done|done|done].
    + intros Hy. left. exists y. unfold guarded at 3, sum_by. simpl. rewrite decide_False by done.
      destruct (bl_account _ _ (tv_balanced _ Hw) b y Hy). split_and!; [done|lia|done|done|done].
Qed.

(** One guard changes, and its account with it. *)
Lemma guard_inv w k a held held' x x' :
  tenant_inv w → tw_guards w !! k = Some (a, held) → tm_accounts (tw_manager w) !! a = Some x →
  demand x' + held = demand x + held' → demand x' <= U64_MAX → policy_of x' = policy_of x →
  used x' = used x → retiring x' = retiring x →
  tenant_inv (set_world_accounts (<[a := x']> (tm_accounts (tw_manager w))) (<[k := (a, held')]> (tw_guards w)) w).
Proof.
  intros Hw Hk Hx Hd Hm Hpo Hu Hr.
  assert (same_policies (tm_accounts (tw_manager w)) (<[a := x']> (tm_accounts (tw_manager w)))) as Hp
    by (by apply (same_policies_insert _ _ x)).
  apply accounts_only; [done|done|..].
  - intros g Hg. apply (same_policies_dom _ _ _ Hp).
    apply list_elem_of_lookup in Hg as [i Hi].
    apply list_lookup_insert_Some in Hi as [(_ & <- & _)|[_ Hi]]; [simpl; by rewrite Hx|].
    apply (tv_guards _ Hw). by eapply list_elem_of_lookup_2.
  - apply (guards_move (guarded (tw_guards w))); [apply Hw|intros b; by apply (same_policies_dom _ _ _ Hp)|].
    intros b y. cbn. change (accounts _) with (tm_accounts (tw_manager w)).
    pose proof (sum_by_insert (fun g => if decide (g.1 = b) then g.2 else 0) _ _ _ (a, held') Hk) as Hs.
    simpl in Hs. fold (guarded (<[k:=(a, held')]> (tw_guards w)) b) in Hs. fold (guarded (tw_guards w) b) in Hs.
    rewrite lookup_insert. case_decide as Hb.
    + intros [= <-]. subst b. left. exists x. split_and!; [done|lia|done..].
    + intros Hy. left. exists y.
      destruct (bl_account _ _ (tv_balanced _ Hw) b y Hy). split_and!; [done|lia|done|done|done].
Qed.

Lemma drop_guard_inv w k a held :
  tenant_inv w → tw_guards w !! k = Some (a, held) →
  tenant_inv (set_world_accounts (alter (guard_drop held) a (tm_accounts (tw_manager w)))
    (delete k (tw_guards w)) w).
Proof.
  intros Hw Hk.
  assert (same_policies (tm_accounts (tw_manager w)) (alter (guard_drop held) a (tm_accounts (tw_manager w))))
    as Hp by (by apply same_policies_alter).
  apply accounts_only; [done|done|..].
  - intros g Hg. apply (same_policies_dom _ _ _ Hp), (tv_guards _ Hw).
    rewrite (delete_Permutation _ _ _ Hk). by right.
  - apply (guard_drop_balanced _ (books (om_catalog (tm_object (tw_manager w)))) a held).
    apply (balanced_ext (guarded (tw_guards w))); [|apply Hw]. intros b. by apply guarded_delete.
Qed.

(** ** The object manager *)

(** The object manager moves and leaves the limits. *)
Lemma object_move w m gs :
  tenant_inv w → minv cid conf m →
  same_policies (tm_accounts (tw_manager w)) (accounts (om_catalog m)) →
  (∀ g, g ∈ gs → g ∈ tw_guards w) → balanced (guarded gs) (books (om_catalog m)) →
  tenant_inv (mkTenantWorld (with_object m (tw_manager w)) gs).
Proof.
  intros Hw Hm Hp Hg Hb. split; simpl; [done| |apply Hw|done| |].
  - eapply inv_same; [apply Hw|apply same_refl|]. intros a. by apply same_policies_dom.
  - intros g Hin. apply (same_policies_dom _ _ _ Hp). by apply (tv_guards _ Hw), Hg.
  - destruct (tv_limits _ Hw) as [c Hc]. exists c. by eapply limits_policies.
Qed.

Lemma csteps_booked P (v v' : CatWorld (R := R)) :
  (∀ op, P op → plain_call op = true) → reachable cid conf v → rtc (cstep P) v v' →
  rtc b_step (books (cat v)) (books (cat v')).
Proof.
  intros HP Hr Hs. revert Hr. induction Hs as [|v v1 v' (op & Hop & Henv & Hst) _ IH]; intros Hr; [done|].
  etrans; [|apply IH; by eapply reach_step].
  apply (cat_step_booked op); [by eapply w_inv, reachable_inv|by apply HP|done].
Qed.

(** A put that is finalized moves its guard into the charge of its version. *)
Lemma finalize_balanced G k b1 b2 g m m' :
  minv cid conf m → manager_env (MFinalize k b1 b2 g) m →
  manager_step (MFinalize k b1 b2 g) m = Some m' →
  (∀ pp, om_prepared m !! k = Some pp →
     guard_fits g (pp_content pp) (pp_replicas pp) (om_catalog m)) →
  balanced (hold g G) (books (om_catalog m)) → is_Some (om_prepared m !! k) →
  same_policies (accounts (om_catalog m)) (accounts (om_catalog m')) ∧ balanced G (books (om_catalog m')).
Proof.
  intros Hm Henv Hs Hg Hb [pp Hk]. pose proof (prepared_stage_env cid conf m k pp Hm Henv Hk) as Hse.
  rewrite (finalize_catalog k b1 b2 g m m' pp Hk Hs).
  assert (∀ s, slots (om_catalog m) !! wc_slot (pp_claim pp) = Some s →
    s_identity s = wc_identity (pp_claim pp)) as Hcl.
  { destruct (w_claims _ _ (reachable_inv _ _ _ (mi_cat _ _ _ Hm)) (pp_claim pp)) as
      (s & t & Hsl & _ & _ & _ & _ & Hid).
    - apply list_elem_of_fmap. exists pp. split; [done|]. by eapply list_elem_of_lookup_2.
    - intros s'. simpl in Hsl. rewrite Hsl. by intros [= <-]. }
  pose proof (minv_inv _ _ _ Hm) as Hc. split; [by apply stage_policies|].
  destruct (stage_balanced G (live_in (om_pool m)) b1 b2 (pp_claim pp) (pp_content pp) (pp_replicas pp) g
    (om_catalog m) Hc Hse Hcl (Hg pp Hk) Hb) as [?|Hp]; [done|]. by destruct (stage_total _ _ _ _ _ _ _ _ Hp).
Qed.

Lemma object_inv w op m' :
  tenant_inv w → object_only op = true → manager_env op (tm_object (tw_manager w)) →
  manager_step op (tm_object (tw_manager w)) = Some m' →
  tenant_inv (mkTenantWorld (with_object m' (tw_manager w)) (tw_guards w)).
Proof.
  intros Hw Ho Henv Hs. set (m := tm_object (tw_manager w)) in *.
  pose proof (tv_objects _ Hw) as Hm. fold m in Hm.
  pose proof (manager_step_ok cid conf op m Hm Henv) as Hok. rewrite Hs in Hok. destruct Hok as (Hm' & Hc & _).
  assert (same_policies (accounts (om_catalog m)) (accounts (om_catalog m')) ∧
    balanced (guarded (tw_guards w)) (books (om_catalog m'))) as [Hp Hb]; [|by apply object_move].
  destruct (op_stages op) eqn:Hst.
  - destruct op; try done. destruct accounting; [done|].
    destruct (om_prepared m !! k) as [pp|] eqn:Hk.
    + apply (finalize_balanced _ k active_before active_after None m m'); try done.
      apply (balanced_ext (guarded (tw_guards w))); [|apply Hw]. intros a. unfold hold. lia.
    + simpl in Hs. rewrite Hk in Hs. injection Hs as <-. split; [done|apply Hw].
  - assert (rtc b_step (books (om_catalog m)) (books (om_catalog m'))) as Hbk.
    { assert (op_tenants op = false) as Hte by (by destruct op). rewrite Hte in Hc.
      refine (csteps_booked _ (cat_world m) (cat_world m') _ (mi_cat _ _ _ Hm) Hc). by intros []. }
    split; [exact (b_steps_policies _ _ Hbk)|]. apply (b_steps_balanced _ (books (om_catalog m))); [apply Hw|done].
Qed.

(** ** Every step *)

Lemma charge_fits w k g pp :
  tenant_inv w → g ∈ tw_guards w → om_prepared (tm_object (tw_manager w)) !! k = Some pp →
  actual_charge_bytes pp = Ok g.2 →
  guard_fits (Some g) (pp_content pp) (pp_replicas pp) (om_catalog (tm_object (tw_manager w))).
Proof.
  intros Hw Hg Hk Ha e n [= ->]. split; [exact (tv_guards _ Hw _ Hg)|].
  unfold actual_charge_bytes, checked_mul in Ha. simpl in Ha.
  destruct (N.leb_spec (logical_bytes (pp_content pp) * N.of_nat (set_len (pp_replicas pp))) U64_MAX); [|done].
  simpl in Ha. injection Ha as <-. done.
Qed.

Lemma resize_inv w k a held bytes :
  tenant_inv w → tw_guards w !! k = Some (a, held) →
  match guard_resize held bytes (account_at (tm_accounts (tw_manager w)) a) with
  | (Ok held', x) => held' = bytes ∧ tenant_inv (set_world_accounts (<[a := x]> (tm_accounts (tw_manager w)))
      (<[k := (a, held')]> (tw_guards w)) w)
  | (Err _, x) => <[a := x]> (tm_accounts (tw_manager w)) = tm_accounts (tw_manager w)
  | (Panic, _) => False
  end.
Proof.
  intros Hw Hk. destruct (tv_guards _ Hw (a, held)) as [x Hx]; [by eapply list_elem_of_lookup_2|]. simpl in Hx.
  unfold account_at. rewrite Hx. change (default _ (Some x)) with x. unfold guard_resize.
  destruct (bl_account _ _ (tv_balanced _ Hw) a x Hx) as [Hd _ _ Hm].
  assert (held <= guarded (tw_guards w) a) as Hh.
  { rewrite (guarded_delete _ _ _ _ Hk). unfold hold. rewrite decide_True by done. lia. }
  destruct (N.eqb_spec bytes held) as [->|Hne].
  { split; [done|]. by apply (guard_inv w k a held held x x). }
  destruct (N.ltb_spec bytes held).
  { split; [done|]. apply (guard_inv w k a held bytes x); try done; simpl; unfold saturating_sub; lia. }
  pose proof (reserve_demand_spec (bytes - held) x) as Hs.
  assert (requested (reserve_demand (bytes - held) x).2 = requested x) as Hreq
    by (unfold reserve_demand; by repeat case_match).
  destruct (reserve_demand (bytes - held) x) as [[u|e|] x']; [| |done].
  - destruct Hs as (?&?&?&?&?&?). split; [done|]. simpl in Hreq.
    apply (guard_inv w k a held bytes x); try done; [lia|]. unfold policy_of. congruence.
  - assert (x' = x) as -> by (by destruct Hs as [[-> _]|[-> _]]). by apply insert_id.
Qed.

Lemma set_world_same w : set_world_accounts (tm_accounts (tw_manager w)) (tw_guards w) w = w.
Proof. by destruct w as [[[[] ? ? ? ? ?] ?] ?]. Qed.

Local Abbreviation step_keeps op w := (∀ w', tenant_step op w = Some w' → tenant_inv w').

Lemma split_keeps k parts w : tenant_inv w → step_keeps (TSplit k parts) w.
Proof.
  intros Hw w' Hs. cbn [tenant_step] in Hs.
  destruct (tw_guards w !! k) as [[a bytes]|] eqn:Hk; [|by injection Hs as <-].
  destruct (N.eqb_spec (sum_by (fun n => n) parts) bytes) as [Hb|]; injection Hs as <-; [|done].
  destruct Hw as [Ho Ht Hset Hbal Hg Hl]. split; try done; simpl.
  - apply (balanced_ext (guarded (tw_guards w))); [|done]. intros b.
    rewrite guarded_app, (guarded_delete _ _ _ _ Hk), guarded_parts, Hb. done.
  - intros g [Hin|Hin]%elem_of_app.
    + apply Hg. rewrite (delete_Permutation _ _ _ Hk). by right.
    + apply list_elem_of_fmap in Hin as (n & -> & _). apply (Hg (a, bytes)). by eapply list_elem_of_lookup_2.
Qed.

Lemma finalize_keeps k j b1 b2 w :
  tenant_inv w → tenant_env (TFinalize k j b1 b2) w → step_keeps (TFinalize k j b1 b2) w.
Proof.
  intros Hw Henv w' Hs. cbn [tenant_step] in Hs.
  destruct (om_prepared _ !! k) as [pp|] eqn:Hk; [|by injection Hs as <-].
  destruct (tw_guards w !! j) as [g|] eqn:Hj; [|by injection Hs as <-].
  destruct (actual_charge_bytes pp) as [n| |] eqn:Ha; [|by injection Hs as <-..].
  destruct (N.eqb_spec n g.2) as [->|]; [|by injection Hs as <-].
  destruct (manager_step _ _) as [m'|] eqn:Hm; [|done]. simpl in Hs. injection Hs as <-.
  pose proof (manager_step_ok cid conf (MFinalize k b1 b2 (Some g)) _ (tv_objects _ Hw) Henv) as Hok.
  rewrite Hm in Hok. destruct Hok as (Hm' & _).
  destruct (finalize_balanced (guarded (delete j (tw_guards w))) k b1 b2 (Some g) _ m' (tv_objects _ Hw) Henv Hm)
    as [Hp Hb].
  - intros pp' Hk'. rewrite Hk in Hk'. injection Hk' as <-. apply (charge_fits w k); try done.
    by eapply list_elem_of_lookup_2.
  - apply (balanced_ext (guarded (tw_guards w))); [|apply Hw]. intros b. by apply guarded_delete.
  - by rewrite Hk.
  - apply object_move; try done. intros g' Hg'. rewrite (delete_Permutation _ _ _ Hj). by right.
Qed.

Lemma refresh_keeps w : tenant_inv w → step_keeps TRefresh w.
Proof.
  intros Hw w' Hs. cbn [tenant_step] in Hs. injection Hs as <-.
  pose proof (refresh_ok (outstanding (tm_object (tw_manager w)))
    (om_pool (tm_object (tw_manager w))) _ _ (tv_tenants _ Hw)) as Hr.
  destruct (refresh_capacity _ _ _ _) as [r accs]. destruct Hr as (Hi & Hsame & Hk & Hl).
  apply usage_move; try done.
  - intros b e. rewrite (sn_entries _ _ Hsame). apply (tv_settled _ Hw).
  - destruct Hl as [[-> ->]|Hl]; [apply Hw|eauto].
  - eapply usage_ledger; [apply usage_refl|done].
Qed.

Lemma targets_keeps w : tenant_inv w → step_keeps TTargets w.
Proof.
  intros Hw w' Hs. cbn [tenant_step] in Hs. injection Hs as <-.
  pose proof (targets_ok (tm_registry (tw_manager w)) (tm_accounts (tw_manager w))) as Hsame.
  destruct Hw as [Ho Ht Hset Hbal Hg [c Hl]].
  pose proof (inv_same _ _ _ _ Ht Hsame (fun a => iff_refl _)) as Ht'. split; try done; simpl.
  - intros b e. rewrite (sn_entries _ _ Hsame). apply Hset.
  - exists c. eapply limits_same; [exact Ht|exact Ht'| |exact Hl].
    intros b. rewrite (elem_of_sharing _ _ _ Ht), (elem_of_sharing _ _ _ Ht'). by rewrite (sn_entries _ _ Hsame).
Qed.

Lemma upsert_keeps id policy w : tenant_inv w → step_keeps (TUpsert id policy) w.
Proof.
  intros Hw w' Hs. cbn [tenant_step] in Hs. unfold upsert_tenant in Hs.
  pose proof (upsert_ok id policy (outstanding (tm_object (tw_manager w)))
    (om_pool (tm_object (tw_manager w))) _ _ (tv_tenants _ Hw) (tv_settled _ Hw)) as Hu.
  destruct (upsert _ _ _ _ _ _) as [[t|e|] [r accs]]; [| |done]; injection Hs as <-.
  - destruct Hu as (? & ? & _ & _ & _ & ? & _ & ?). apply usage_move; eauto.
  - injection Hu as -> ->. exact (eq_ind_r tenant_inv Hw (set_world_same w)).
Qed.

Lemma delete_keeps id w : tenant_inv w → step_keeps (TDelete id) w.
Proof.
  intros Hw w' Hs. cbn [tenant_step] in Hs. unfold tm_delete_tenant in Hs.
  pose proof (delete_ok id (outstanding (tm_object (tw_manager w)))
    (om_pool (tm_object (tw_manager w))) _ _ (tv_tenants _ Hw) (tv_settled _ Hw)) as Hu.
  destruct (delete_tenant _ _ _ _ _) as [[t|e|] [r accs]]; [| |done]; injection Hs as <-.
  - destruct Hu as (? & ? & _ & ? & _ & _ & ?). apply usage_move; eauto.
  - injection Hu as -> ->. exact (eq_ind_r tenant_inv Hw (set_world_same w)).
Qed.

Lemma tenant_step_inv op w : tenant_inv w → tenant_env op w → step_keeps op w.
Proof.
  intros Hw Henv w' Hs. destruct op as [op|a bytes v|k parts|k bytes|k|k j b1 b2| | |id policy|id].
  - cbn [tenant_step] in Hs. destruct (object_only op) eqn:Ho; [|by injection Hs as <-].
    destruct (manager_step op _) as [m'|] eqn:Hm; [|done]. simpl in Hs. injection Hs as <-.
    by apply (object_inv w op m').
  - cbn [tenant_step] in Hs. pose proof (reserve_checked_ok a bytes v _ _ (tv_tenants _ Hw) Henv) as Hok.
    pose proof (reserve_inv w a bytes v) as Hinv.
    destruct (reserve_checked _ _ _ _ _) as [[[]|e|] accs]; [| |done]; injection Hs as <-; [by apply Hinv|].
    by rewrite Hok, set_world_same.
  - by eapply split_keeps.
  - cbn [tenant_step] in Hs. destruct (tw_guards w !! k) as [[a held]|] eqn:Hk; [|by injection Hs as <-].
    pose proof (resize_inv w k a held bytes Hw Hk) as Hr.
    destruct (guard_resize _ _ _) as [[h|e|] x]; [| |done]; injection Hs as <-; [apply Hr|].
    by rewrite Hr, set_world_same.
  - cbn [tenant_step] in Hs. destruct (tw_guards w !! k) as [[a held]|] eqn:Hk; injection Hs as <-; [|done].
    by apply drop_guard_inv.
  - by eapply finalize_keeps.
  - by eapply refresh_keeps.
  - by eapply targets_keeps.
  - by eapply upsert_keeps.
  - by eapply delete_keeps.
Qed.
End Invariant.
