(* ===== verification/ManagerNumbers.v ===== *)
(** * Numbers left for a batch

    Slots number their transactions and versions with 64-bit counters, and a call
    that finds none left panics.  A put takes at most four transaction numbers
    of its slot, and a commit one version number: [units n] says that they last
    for [n] items of a batch. *)
From stdpp Require Import relations.
From S2P Require Import Prelude Identity Segment ByteAllocator SegmentPool Placement TenantQuota Replica ObjectTypes.
From S2P Require Import CatalogState CatalogWrite CatalogCollector CatalogInv CatalogOps CatalogSteps CatalogGuard CatalogSlots.
From S2P Require Import CatalogWorld CatalogProps Eviction ObjectManager ManagerWorld.

(** ** The numbers of the slots *)

Section Room.
Context {R : Type} `{Resource R}.
Implicit Types (st : Catalog R).

Definition room (t v : N) st : Prop :=
  ∀ a s, slots st !! a = Some s → next_transaction_id s + t <= U64_MAX ∧ next_version_id s + v <= U64_MAX.

Lemma room_weaken t v t' v' st : t' <= t → v' <= v → room t v st → room t' v' st.
Proof. intros Ht Hv Hr a s Ha. destruct (Hr a s Ha). lia. Qed.

Lemma room_slots t v st st' : slots st' = slots st → room t v st → room t v st'.
Proof. unfold room. by intros ->. Qed.

Lemma room_spare t v st : 4 <= t → 1 <= v → room t v st → spare 4 st.
Proof. intros Ht Hv Hr a s Ha. destruct (Hr a s Ha). lia. Qed.

Lemma quiet_numbers K a o o' :
  (∀ b l, K b l → quiet_label l = true) → rtc (slot_moves K a) o o' → ∀ s', o' = Some s' →
  ∃ s, o = Some s ∧ next_transaction_id s = next_transaction_id s' ∧ next_version_id s = next_version_id s'.
Proof.
  intros HK Hr. induction Hr as [|o1 o2 o3 (l & Hl & Hst) _ IH]; intros s'; [eauto|].
  intros (s2 & -> & <- & <-)%IH. pose proof (HK a l Hl) as Hq. inversion Hst; subst; try done; eauto.
Qed.

Lemma quiet_room K st st' t v :
  (∀ b l, K b l → quiet_label l = true) → lsteps K st st' → room t v st → room t v st'.
Proof.
  intros HK [_ Hs] Hr a s' Ha. destruct (quiet_numbers K a _ _ HK (Hs a) s' Ha) as (s & Hs' & <- & <-).
  by apply Hr in Hs'.
Qed.

Lemma claim_drop_room alive c st t v : room t v st → room t v (claim_drop alive c st).
Proof.
  apply (quiet_room (fun _ l => l = LUnclaim)); [by intros b l ->|]. by apply ls_claim_drop.
Qed.

Lemma begin_room i o mode pins now st t v c st' :
  2 + t <= U64_MAX → 1 + v <= U64_MAX → room (t + 1) v st →
  begin_write_resolved i o mode pins now st = (c, st') → room t v st'.
Proof.
  intros Ht Hv Hn. assert (room t v st) as Hw by (eapply room_weaken, Hn; lia).
  unfold begin_write_resolved. destruct (key_is_empty i); [by intros [= _ <-]|].
  destruct (_ <=? _); [by intros [= _ <-]|]. destruct (lookup_slot i st) as [a|].
  - destruct (slots st !! a) as [s|] eqn:Hs; [|by intros [= _ <-]]. destruct (active s); [by intros [= _ <-]|].
    destruct (checked_add (next_transaction_id s) 1) as [nx|] eqn:Hx.
    2: { destruct mode, (committed s); by intros [= _ <-]. }
    apply checked_add_Some in Hx as [-> Hx]. destruct (Hn a s Hs) as [H1 H2].
    assert (∀ t', room t v (count on_claim (update_slot a (fun s0 => set_active (Some t')
      (set_next_ids (next_transaction_id s + 1) (next_version_id s0) s0)) st))) as Hsp.
    { intros t' b s'. simpl. destruct (decide (a = b)) as [->|Hne].
      - rewrite lookup_alter_eq, Hs. intros [= <-]. simpl. split; [lia|done].
      - rewrite lookup_alter_ne by done. apply Hw. }
    destruct mode, (committed s); try (by intros [= _ <-]); intros [= _ <-]; apply Hsp.
  - intros [= _ <-] b s'. simpl. intros [[_ <-]|[_ Hb]]%lookup_insert_Some.
    + simpl. lia.
    + by apply Hw in Hb.
Qed.

Lemma collect_call_room (P : cat_op (R := R) → Prop) cid conf w w' t v :
  (∀ op, P op → match op with OCollect _ _ _ _ _ _ _ | ORequestLiveness => True | _ => False end) →
  rtc (fun v v' => ∃ op, P op ∧ cat_env op v ∧ cat_step op v = Some v') w w' →
  reachable cid conf w → room t v (cat w) → room t v (cat w').
Proof.
  intros HP. induction 1 as [|w1 w2 w3 (op & Hop & Henv & Hs) _ IH]; [done|]. intros Hr Hn.
  apply IH; [by eapply reach_step|].
  eapply (quiet_room (op_allows op w1)); [|apply cat_step_slots; [|exact Hs]|exact Hn].
  - intros b l. specialize (HP op Hop). destruct op; try done. simpl. unfold collector_labels.
    by intros [->|[->| ->]].
  - exact (w_inv _ _ (reachable_inv _ _ _ Hr)).
Qed.

Lemma commit_room alive alive' tx c now st t v :
  1 <= v → room t v st → room t (v - 1) (commit alive alive' tx c now st).2.
Proof.
  intros Hv Hr. assert (room t (v - 1) st) as Hw by (eapply room_weaken, Hr; lia).
  unfold commit. destruct (tx_catalog tx); [|done]. destruct (negb _); [done|].
  destruct (slots st !! tx_slot tx) as [s|] eqn:Hs; [|done]. destruct (active s) as [x|].
  - destruct (negb _); [done|]. destruct (at_phase x) as [|p]; [done|].
    destruct (negb _); [done|]. destruct (versions st !! p) as [ver|] eqn:Hver; [|done].
    destruct (negb _); [done|]. destruct (negb _); [done|].
    assert (∀ base cv, v_committed ver = None → next_version_id s + 1 <= U64_MAX →
      room t (v - 1) (commit_publish alive' (tx_slot tx) x p ver base cv (next_version_id s + 1) st)) as Hpub.
    { intros base cv Hvc Hnv.
      destruct (commit_publish_fields alive' (tx_slot tx) x p ver base cv (next_version_id s + 1) st Hver Hvc)
        as (_ & S & _). intros b s'. rewrite S.
      destruct (decide (tx_slot tx = b)) as [<-|Hne]; [|rewrite lookup_alter_ne by done; apply Hw].
      rewrite lookup_alter_eq, Hs. intros [= <-]. destruct (Hr _ s Hs). simpl. lia. }
    destruct (at_base x ≫= _) as [old|]; simpl; [destruct (version_access old)|];
      (destruct (checked_add (next_version_id s) 1) eqn:Hn; [|done]);
      apply checked_add_Some in Hn as [-> Hn]; destruct (v_committed ver) eqn:Hvc; try done; by apply Hpub.
  - destruct (committed s); [|done]. destruct (versions st !! _) as [ver|]; [|done].
    destruct (negb _); [done|]. destruct (v_committed ver); [|done]. by case_bool_decide.
Qed.
End Room.

(** ** The calls of the manager *)

Section Calls.
Context {A Alloc : Type} `{L : UpstreamLaws A Alloc}.
Local Abbreviation R := (Reservation Alloc).
Implicit Types (m : ObjectManager A Alloc).
Context (cid : N) (conf : ObjectCatalogConfig).
Local Abbreviation room_in t v m := (room t v (om_catalog m)).

Lemma claimed_room c plan m x m' t v :
  prepare_claimed_put c plan m = (x, m') → room_in t v m → room_in t v m'.
Proof.
  unfold prepare_claimed_put. intros Hp Hr.
  repeat case_match_eqn; simplify_eq; simpl; auto using claim_drop_room.
Qed.

Lemma clear_room g m t v : room_in t v m → room_in t v (om_clear_allocation g m).
Proof. unfold om_clear_allocation. by destruct (memory_eviction m), g. Qed.

Lemma evict_room busy sf now m ev m' t v :
  minv cid conf m → evict_after_allocation_failure busy sf now m = Some (ev, m') →
  room_in t v m → room_in t v m'.
Proof.
  intros Hm He. destruct (evict_after_path (pool_frame (om_pool m)) now cid conf busy sf m)
    as (ev1 & m1 & He1 & Hp); [done..|].
  rewrite He in He1. injection He1 as <- <-.
  apply (collect_call_room (maintenance_call (pool_frame (om_pool m)) now) cid conf (cat_world m) (cat_world m'));
    [by intros []|apply Hp|apply Hm].
Qed.

(** One attempt takes one number. *)
Lemma attempt_room i o mode plan pins now m t v c st x m1 :
  minv cid conf m → resolve_pin_request conf (plan_pins plan) = Ok pins → 2 + t <= U64_MAX → 1 + v <= U64_MAX →
  room_in (t + 1) v m → begin_write_resolved i o mode pins now (om_catalog m) = (Ok c, st) →
  prepare_claimed_put c plan (with_catalog st m) = (x, m1) →
  room_in t v m1 ∧ ∀ e, x = Err e → minv cid conf m1.
Proof.
  intros Hm Hpins Ht Hv Hr Hb Hp. split.
  - eapply claimed_room; [exact Hp|]. by eapply begin_room.
  - intros e ->.
    pose proof (attempt_path (pool_frame (om_pool m)) now false cid conf i o mode plan pins m Hm eq_refl Hpins) as Hat.
    rewrite Hb, Hp in Hat. apply Hat.
Qed.

Lemma prepare_loop_room busy i o plan mode pins now t v :
  resolve_pin_request conf (plan_pins plan) = Ok pins → t + 5 <= U64_MAX → 1 + v <= U64_MAX →
  ∀ remaining retries generation m x m',
  minv cid conf m → (remaining <= 3)%nat → room_in (t + N.of_nat remaining + 1) v m →
  prepare_loop remaining retries generation busy i o plan mode pins now m = (x, m') → room_in t v m'.
Proof.
  intros Hpins Ht Hv. induction remaining as [|n IH]; intros retries generation m x m' Hm Hle Hr; simpl;
    destruct (begin_write_resolved i o mode pins now (om_catalog m)) as [c st] eqn:Hb;
    (match type of Hr with room (?k + 1) _ _ => assert (2 + k <= U64_MAX) as Hk by lia end);
    pose proof (begin_room _ _ _ _ _ _ _ _ _ _ Hk Hv Hr Hb) as Hst;
    assert (room_in t v (with_catalog st m)) as Hst' by (eapply room_weaken, Hst; lia);
    (destruct c as [c|e|]; [|intros [= _ <-]; auto using clear_room..]);
    destruct (prepare_claimed_put c plan (with_catalog st m)) as [y m1] eqn:Hp;
    destruct (attempt_room _ _ _ _ _ _ _ _ _ _ _ _ _ Hm Hpins Hk Hv Hr Hb Hp) as [Hr1 Hm1];
    assert (room_in t v m1) as Hr1' by (eapply room_weaken, Hr1; lia).
  all: destruct y as [pp|[sf|e]|]; [intros [= _ <-]; destruct (retries =? 0)%nat; by apply clear_room| |
    intros [= _ <-]; by apply clear_room|by intros [= _ <-]].
  all: destruct (evict_after_allocation_failure _ _ _ _) as [[ev m2]|] eqn:Hev; [|by intros [= _ <-]].
  all: pose proof (evict_room _ _ _ _ _ _ _ _ (Hm1 _ eq_refl) Hev Hr1') as Hr2'.
  - by destruct (negb _); intros [= _ <-].
  - pose proof (evict_room _ _ _ _ _ _ _ _ (Hm1 _ eq_refl) Hev Hr1) as Hr2.
    destruct (negb _); [by intros [= _ <-]|]. apply IH; [|lia|].
    + destruct (evict_after_path (pool_frame (om_pool m1)) now cid conf (busy retries) sf m1)
        as (ev1 & m3 & He1 & Hp3); [by eapply Hm1|done|].
      rewrite Hev in He1. injection He1 as <- <-.
      assert (mpath (maintenance_call (pool_frame (om_pool m1)) now) (pool_frame (om_pool m1)) cid conf m2
        (om_record_retry m2)) as Hrec by (apply record_path; [done|apply Hp3..]). apply Hrec.
    + eapply room_weaken, Hr2; lia.
Qed.

Lemma prepare_room mode busy i o plan now m x m' t v :
  minv cid conf m → t + 5 <= U64_MAX → 1 + v <= U64_MAX → room_in (t + 4) v m →
  prepare_write mode busy i o plan now m = (x, m') → room_in t v m'.
Proof.
  intros Hm Ht Hv Hr. assert (room_in t v m) as Hw by (eapply room_weaken, Hr; lia).
  unfold prepare_write, validate_plan. rewrite (minv_config _ _ _ Hm).
  destruct (_ || _); [by intros [= _ <-]|].
  destruct (resolve_pin_request conf (plan_pins plan)) as [pins|e|] eqn:Hpins; [|by intros [= _ <-]..].
  assert (om_retry_limit m <= 3)%nat as Hlim.
  { unfold om_retry_limit. destruct (memory_eviction m) as [e|] eqn:Hev; [|lia].
    exact (ev_retries _ (mi_eviction _ _ _ Hm e Hev)). }
  eapply prepare_loop_room; [done..|]. eapply room_weaken, Hr; lia.
Qed.

Lemma finalize_room b1 b2 pp g m x m' t v :
  finalize_start_put b1 b2 pp g m = (x, m') → room_in t v m → room_in t v m'.
Proof.
  unfold finalize_start_put. intros Hf Hr.
  assert (room t v (stage_inner (live_in (om_pool m)) b1 b2 (pp_claim pp) (pp_content pp) (pp_replicas pp) g
    (om_catalog m)).2) as Hst.
  { eapply (quiet_room (fun _ l => l = LUnclaim ∨ l = LStage ∨ l = LUnstage)), Hr;
      [by intros b l [->|[->| ->]]|]. apply ls_stage; auto. }
  destruct (stage_inner _ _ _ _ _ _ _ _) as [y st]. simpl in Hst. unfold update_catalog in Hf.
  destruct (settle (om_catalog m) st (om_pool m)) as [p|]; destruct y; by simplify_eq/=.
Qed.

Lemma drop_prepared_room pp m m' t v : drop_prepared pp m = Some m' → room_in t v m → room_in t v m'.
Proof.
  unfold drop_prepared. intros Hd Hr. destruct (drop_reservations _ _) as [p|]; [|done]. injection Hd as <-.
  by apply claim_drop_room.
Qed.

Lemma finish_room i o s now m x m' t v :
  1 <= v → finish_put i o s now m = (x, m') → room_in t v m → room_in t (v - 1) m'.
Proof.
  intros Hv Hf Hr. assert (room_in t (v - 1) m) as Hw by (eapply room_weaken, Hr; lia). unfold finish_put in Hf.
  destruct (resolve_write i (om_catalog m)) as [[tx|w]|[]|]; try (by injection Hf as _ <-).
  destruct (validate_pending _ _ _ _); try (by injection Hf as _ <-).
  pose proof (commit_room (live_in (om_pool m)) (live_in (om_pool m)) tx (mkCommit None) now _ t v Hv Hr) as Hc.
  destruct (commit _ _ _ _ _ _) as [y st]. by injection Hf as _ <-.
Qed.

(** Numbers for [n] more items. *)
Definition units (n : N) m : Prop := n <= U32_MAX ∧ room_in (4 * n) n m.

Lemma units_spare n m : 1 <= n → units n m → spare 4 (om_catalog m).
Proof. intros Hn [_ Hr]. eapply room_spare, Hr; lia. Qed.

Lemma units_weaken n n' m : n' <= n → units n m → units n' m.
Proof. intros Hn [Hle Hr]. split; [lia|]. eapply room_weaken, Hr; lia. Qed.

Lemma units_prepare mode busy i o plan now m x m' n :
  minv cid conf m → units (n + 1) m → prepare_write mode busy i o plan now m = (x, m') → units n m'.
Proof.
  intros Hm [Hle Hr] Hp. unfold U32_MAX in Hle. split; [unfold U32_MAX; lia|].
  eapply prepare_room; [done| | | |exact Hp]; [unfold U64_MAX; lia..|]. eapply room_weaken, Hr; lia.
Qed.

Lemma units_finalize b1 b2 pp g m x m' n : finalize_start_put b1 b2 pp g m = (x, m') → units n m → units n m'.
Proof. intros Hf [Hle Hr]. split; [done|]. by eapply finalize_room. Qed.

Lemma units_drop pp m m' n : drop_prepared pp m = Some m' → units n m → units n m'.
Proof. intros Hd [Hle Hr]. split; [done|]. by eapply drop_prepared_room. Qed.

Lemma units_finish i o s now m x m' n :
  units (n + 1) m → finish_put i o s now m = (x, m') → units n m'.
Proof.
  intros [Hle Hr] Hf. split; [lia|]. replace n with (n + 1 - 1) at 2 by lia.
  eapply finish_room; [|exact Hf|]; [lia|]. eapply room_weaken, Hr; lia.
Qed.
End Calls.
