(* ===== verification/TenantCalls.v ===== *)
(** * The calls of tenants as runs

    Every call of the tenant object manager is a sequence of the steps of
    [TenantWorld], so that what holds along every interleaving of the steps
    holds of concurrent calls.  The sizes of the mounted segments, together with
    the bytes that objects still hold of segments no longer mounted, are assumed
    to fit a 64-bit counter ([memory_fits]). *)
From stdpp Require Import relations.
From S2P Require Import Prelude Identity Segment ByteAllocator SegmentPool Placement TenantQuota Replica ObjectTypes.
From S2P Require Import TenantRegistry TenantSteps CatalogState CatalogBooks CatalogWrite CatalogCollector CatalogInv CatalogOps.
From S2P Require Import CatalogWorld CatalogCharges CatalogProps CatalogResources Eviction ObjectManager ManagerWorld ManagerProps TenantManager TenantWorld TenantInv.

(** ** Bytes handed out *)

Section Bytes.
Context {A Alloc : Type} `{L : UpstreamLaws A Alloc}.
Local Abbreviation R := (Reservation Alloc).
Implicit Types m : ObjectManager A Alloc.

(** The memory objects can lie in: the segments that are mounted, and what is
    still held of those that no longer are. *)
Definition memory_fits (m : ObjectManager A Alloc) : Prop :=
  msum (fun _ e => if live e then region_size (region (spec e)) else 0) (entries (om_pool m)) +
  stray_bytes (entries (om_pool m)) (outstanding m) <= U64_MAX.

Lemma msum_mono {X} (f g : N → X → N) (m : gmap N X) :
  (∀ k x, m !! k = Some x → f k x <= g k x) → msum f m <= msum g m.
Proof.
  intros Hfg. unfold msum. assert (∀ kx, kx ∈ map_to_list m → f kx.1 kx.2 <= g kx.1 kx.2) as Hl.
  { intros [k x] Hin%elem_of_map_to_list. by apply Hfg. }
  induction (map_to_list m) as [|kx l IH]; [done|]. rewrite !sum_by_cons.
  pose proof (Hl kx (list_elem_of_here _ _)). specialize (IH (fun kx' H => Hl kx' (list_elem_of_further _ _ _ H))).
  lia.
Qed.

Lemma msum_at {X} (m : gmap N X) b n :
  is_Some (m !! b) → msum (fun a _ => if decide (b = a) then n else 0) m = n.
Proof.
  intros [x Hx]. rewrite (msum_delete _ _ b x Hx), decide_True by done.
  rewrite msum_zero; [lia|]. intros a y Hy. rewrite decide_False; [done|].
  intros ->. by rewrite lookup_delete_eq in Hy.
Qed.

(** A sum over a list, grouped by a key. *)
Lemma sum_by_group {X Y} (f : Y → N) (key : Y → N) (m : gmap N X) l :
  (∀ y, y ∈ l → is_Some (m !! key y)) →
  sum_by f l = msum (fun a _ => sum_by f (filter (fun y => key y = a) l)) m.
Proof.
  induction l as [|y l IH]; intros Hin.
  { symmetry. by apply msum_zero. }
  rewrite sum_by_cons, IH by (intros z Hz; apply Hin; by right).
  rewrite <- (msum_at m (key y) (f y)) at 1 by (apply Hin; by left).
  rewrite <- msum_add. apply msum_ext. intros a x _. rewrite filter_cons. by destruct (decide _).
Qed.

Lemma entry_reserved (p : Pool A) (rs : list R) a e :
  pool_inv p rs → entries p !! a = Some e →
  sum_by res_reserved (filter (fun r => r_entry r = a) rs) <= region_size (region (spec e)).
Proof.
  intros Hp He. destruct (pi_space _ _ Hp) as [Hd [Ho _] Hm Hr].
  destruct (proj1 (Hd a) ltac:(by rewrite He)) as [sh Hsh]. destruct (Hm a e sh He Hsh) as [_ Hle].
  rewrite <- of_owner_reservations, <- (ai_used _ _ (Ho a sh Hsh)).
  etrans; [|exact Hle]. by destruct (alloc_inv_counters _ _ (Ho a sh Hsh)).
Qed.

Lemma sum_by_split {X} (f : X → N) (P : X → bool) l :
  sum_by f l = sum_by f (filter (fun x => P x = true) l) + sum_by f (filter (fun x => P x = false) l).
Proof.
  induction l as [|x l IH]; [done|]. rewrite !filter_cons, sum_by_cons, IH.
  destruct (P x); [rewrite decide_True, decide_False by done|rewrite decide_False, decide_True by done];
    rewrite sum_by_cons; lia.
Qed.

Lemma sum_by_filter_le {X} (f : X → N) (P Q : X → Prop) `{!∀ x, Decision (P x), !∀ x, Decision (Q x)} l :
  (∀ x, P x → Q x) → sum_by f (filter P l) <= sum_by f (filter Q l).
Proof.
  intros HPQ. induction l as [|x l IH]; [done|]. rewrite !filter_cons.
  destruct (decide (P x)) as [HP|]; [rewrite decide_True by auto; rewrite !sum_by_cons; lia|].
  destruct (decide (Q x)); [rewrite sum_by_cons; lia|done].
Qed.

Lemma reserved_fits m : pool_inv (om_pool m) (outstanding m) → memory_fits m → sum_by res_reserved (outstanding m) <= U64_MAX.
Proof.
  intros Hp Hf. set (rs := outstanding m) in *. set (es := entries (om_pool m)).
  rewrite (sum_by_split res_reserved (live_at es) rs). etrans; [|exact Hf]. apply N.add_le_mono_r.
  rewrite (sum_by_group res_reserved r_entry es).
  2: { intros r [_ Hin]%list_elem_of_filter. destruct (pi_space _ _ Hp) as [_ _ _ Hr].
       destruct (Hr r Hin) as (e & He & _). fold es in He. by rewrite He. }
  apply msum_mono. intros a e He. rewrite list_filter_filter. destruct (live e) eqn:Hl.
  - etrans; [|exact (entry_reserved _ _ a e Hp He)]. apply sum_by_filter_le. by intros r [].
  - rewrite sum_by_zero; [done|]. intros r [[<- Hr] _]%list_elem_of_filter. unfold live_at in Hr. fold es in He. by rewrite He, Hl in Hr.
Qed.
End Bytes.

(** ** Runs *)

Lemma delete_insert_at {X} (l : list X) j x : delete j (<[j := x]> l) = delete j l.
Proof. revert j. induction l as [|y l IH]; intros [|j]; [done..|]. simpl. f_equal. apply IH. Qed.

Section Runs.
Context {A Alloc : Type} `{L : UpstreamLaws A Alloc}.
Implicit Types (w : TenantWorld A Alloc) (tm : TenantObjectManager A Alloc) (m : ObjectManager A Alloc).
Context (cid : N) (conf : ObjectCatalogConfig).

Definition tstep w w' : Prop := ∃ op, tenant_env op w ∧ tenant_step op w = Some w'.

(** The steps a call is made of: it changes no segment, and what it stages is
    under the admission [after] of the owner of the claim. *)
Definition call_op (after : WriteOwner → bool) (op : tenant_op) w : Prop :=
  match op with
  | TObject (MSegment _) => False
  | TObject (MFinalize k _ b2 _) | TFinalize k _ _ b2 =>
      ∀ pp, om_prepared (tm_object (tw_manager w)) !! k = Some pp → b2 = after (wc_owner (pp_claim pp))
  | _ => True
  end.

Definition step_under (after : WriteOwner → bool) w w' : Prop :=
  ∃ op, call_op after op w ∧ tenant_env op w ∧ tenant_step op w = Some w'.

Lemma step_under_tstep after w w' : rtc (step_under after) w w' → rtc tstep w w'.
Proof. apply rtc_subrel. intros w1 w2 (op & _ & Henv & Hs). by exists op. Qed.

Context (after : WriteOwner → bool).

Local Abbreviation world m r gs := (mkTenantWorld (mkTenantManager m r) gs).
Local Abbreviation inv := (tenant_inv cid conf).

Lemma run_inv w w' : inv w → rtc tstep w w' → inv w'.
Proof.
  intros Hw Hr. revert Hw. induction Hr as [|w w1 w' (op & Henv & Hs) _ IH]; intros Hw; [done|].
  by apply IH, (tenant_step_inv cid conf op w).
Qed.

(** Calls of the object manager leave the mounted segments. *)
Record object_run (m m' : ObjectManager A Alloc) (r : TenantRegistry) (gs gs' : list (N * N)) : Prop := {
  or_run : rtc (step_under after) (world m r gs) (world m' r gs');
  or_inv : inv (world m' r gs');
  or_frame : pool_frame (om_pool m') = pool_frame (om_pool m);
  or_stray : stray_bytes (entries (om_pool m)) (outstanding m') <= stray_bytes (entries (om_pool m)) (outstanding m)
}.

Lemma object_run_refl m r gs : inv (world m r gs) → object_run m m r gs gs.
Proof. intros Hw. by split. Qed.

Lemma fits_run m m' r gs gs' : object_run m m' r gs gs' → memory_fits m → memory_fits m'.
Proof.
  intros Hr Hf. pose proof (frame_entries _ _ (or_frame _ _ _ _ _ Hr)) as He. pose proof (or_stray _ _ _ _ _ Hr).
  unfold memory_fits in *. rewrite He. lia.
Qed.

Lemma object_run_trans m1 m2 m3 r gs1 gs2 gs3 :
  object_run m1 m2 r gs1 gs2 → object_run m2 m3 r gs2 gs3 → object_run m1 m3 r gs1 gs3.
Proof.
  intros [H1 _ F1 S1] [H2 I2 F2 S2]. split; [by etrans|done|congruence|].
  rewrite (frame_entries _ _ F1) in S2. by etrans.
Qed.

Lemma object_run_step m m' r gs gs' op :
  inv (world m r gs) → call_op after op (world m r gs) → tenant_env op (world m r gs) →
  tenant_step op (world m r gs) = Some (world m' r gs') →
  pool_frame (om_pool m') = pool_frame (om_pool m) →
  stray_bytes (entries (om_pool m)) (outstanding m') <= stray_bytes (entries (om_pool m)) (outstanding m) →
  object_run m m' r gs gs'.
Proof.
  intros Hw Hc Henv Hs Hf Hst.
  split; [apply rtc_once; by exists op|by eapply tenant_step_inv|done..].
Qed.

Lemma object_call_run m m' r gs op :
  inv (world m r gs) → object_only op = true → manager_env op m → manager_step op m = Some m' →
  call_op after (TObject op) (world m r gs) → object_run m m' r gs gs.
Proof.
  intros Hw Ho Henv Hs Hop.
  pose proof (manager_step_ok cid conf op m (tv_objects _ _ _ Hw) Henv) as Hok. rewrite Hs in Hok.
  destruct Hok as (_ & _ & Hf). apply (object_run_step _ _ _ _ _ (TObject op)); try done.
  - cbn [tenant_step]. rewrite Ho. simpl. by rewrite Hs.
  - by destruct op; destruct Hf.
  - by destruct op; destruct Hf.
Qed.

Lemma drop_guard_run m r gs j g :
  inv (world m r gs) → gs !! j = Some g → object_run m (drop_guard g m) r gs (delete j gs).
Proof.
  intros Hw Hj. apply (object_run_step _ _ _ _ _ (TDropGuard j)); try done.
  cbn [tenant_step tw_guards]. rewrite Hj. by destruct g.
Qed.

(** ** Puts *)

Lemma prepared_take pp m : with_prepared (delete (length (om_prepared m)) (om_prepared m ++ [pp]))
  (pushed pp m) = m.
Proof.
  destruct m. unfold with_prepared, pushed. simpl. f_equal.
  by rewrite delete_middle, app_nil_r.
Qed.

(** The claim of a prepared put is of its owner. *)
Lemma prepare_loop_owner n : ∀ retries gen busy i o plan mode pins now m pp m',
  prepare_loop n retries gen busy i o plan mode pins now m = (Ok pp, m') → wc_owner (pp_claim pp) = o.
Proof.
  induction n as [|n IH]; intros retries gen busy i o plan mode pins now m pp m' Hp; cbn [prepare_loop] in Hp.
  all: destruct (begin_write_resolved _ _ _ _ _ _) as [[c|e|] st] eqn:Hb; try done.
  all: assert (wc_owner c = o) as <- by (unfold begin_write_resolved in Hb; repeat case_match_eqn; by simplify_eq).
  all: destruct (prepare_claimed_put _ _ _) as [[pp1|[|e]|] m1] eqn:Hc; try done.
  1,3: injection Hp as -> _; unfold prepare_claimed_put in Hc; repeat case_match_eqn; by simplify_eq.
  all: destruct (evict_after_allocation_failure _ _ _ _) as [[ev m2]|]; [|done]; destruct (negb _); try done.
  by eapply IH.
Qed.

Lemma prepare_owner mode busy i o plan now m pp m' :
  prepare_write mode busy i o plan now m = (Ok pp, m') → wc_owner (pp_claim pp) = o.
Proof. unfold prepare_write. destruct (validate_plan _ _); [apply prepare_loop_owner|done..]. Qed.

Lemma prepare_run m r gs mode busy i o plan now :
  inv (world m r gs) →
  match prepare_write mode busy i o plan now m with
  | (Ok pp, m') => object_run m (pushed pp m') r gs gs
  | (Err _, m') => object_run m m' r gs gs
  | (Panic, _) => True
  end.
Proof.
  intros Hw. pose proof (fun m' => object_call_run m m' r gs (MPrepare mode busy i o plan now) Hw) as Hc.
  cbn [manager_step] in Hc. destruct (prepare_write _ _ _ _ _ _ _) as [[pp|e|] m']; [| |done]; by apply Hc.
Qed.

Lemma drop_prepared_run pp m m' r gs :
  inv (world (pushed pp m) r gs) → drop_prepared pp m = Some m' → object_run (pushed pp m) m' r gs gs.
Proof.
  intros Hw Hd. apply (object_call_run _ _ _ _ (MDropPrepared (length (om_prepared m)))); try done.
  cbn [manager_step]. cbn [pushed with_prepared om_prepared].
  rewrite lookup_app_r, Nat.sub_diag by done. cbn [lookup list_lookup].
  fold (pushed pp m). by rewrite prepared_take.
Qed.

Lemma take_pushed pp m : om_prepared (pushed pp m) !! length (om_prepared m) = Some pp.
Proof. simpl. rewrite lookup_app_r, Nat.sub_diag by done. done. Qed.

(** [finalize_start_put] of the last prepared put. *)
Lemma finalize_pushed b1 b2 g pp m m' x :
  finalize_start_put b1 b2 pp g m = (x, m') → x ≠ Panic →
  manager_step (MFinalize (length (om_prepared m)) b1 b2 g) (pushed pp m) = Some m'.
Proof.
  intros Hf Hx. cbn [manager_step]. rewrite take_pushed. cbn [pushed om_prepared with_prepared].
  fold (pushed pp m). rewrite prepared_take, Hf. by destruct x.
Qed.

Lemma fits_env pp m r gs k b1 b2 g :
  inv (world (pushed pp m) r gs) → memory_fits (pushed pp m) → manager_env (MFinalize k b1 b2 g) (pushed pp m).
Proof. intros Hw Hf. exact (reserved_fits _ (mi_pool _ _ _ (tv_objects _ _ _ Hw)) Hf). Qed.

Lemma finalize_run pp m m' r gs b1 b2 j a n x :
  inv (world (pushed pp m) r gs) → memory_fits (pushed pp m) → b2 = after (wc_owner (pp_claim pp)) →
  actual_charge_bytes pp = Ok n → gs !! j = Some (a, n) → finalize_start_put b1 b2 pp (Some (a, n)) m = (x, m') → x ≠ Panic →
  object_run (pushed pp m) m' r gs (delete j gs).
Proof.
  intros Hw Hf Hb Ha Hj Hs Hx. pose proof (finalize_pushed _ _ _ _ _ _ _ Hs Hx) as Hm.
  set (k := length (om_prepared m)) in *.
  pose proof (fits_env pp m r gs k b1 b2 (Some (a, n)) Hw Hf) as Henv.
  pose proof (manager_step_ok cid conf (MFinalize k b1 b2 (Some (a, n))) (pushed pp m)
    (tv_objects _ _ _ Hw) Henv) as Hok. rewrite Hm in Hok.
  apply (object_run_step _ _ _ _ _ (TFinalize k j b1 b2)); [done| |exact Henv|..].
  - intros pp'. cbn [tw_manager tm_object]. unfold k. rewrite take_pushed. by intros [= <-].
  - cbn [tenant_step tw_manager tm_object tw_guards]. unfold k at 1. rewrite take_pushed, Hj, Ha. cbn [snd].
    rewrite N.eqb_refl, Hm. done.
  - apply Hok.
  - apply Hok.
Qed.

Lemma accounts_pushed pp accs m : pushed pp (with_accounts accs m) = with_accounts accs (pushed pp m).
Proof. done. Qed.

(** The prepared put and its guard are dropped. *)
Lemma abandon_run pp m m' r gs j g e x :
  inv (world (pushed pp m) r gs) → gs !! j = Some g → abandon pp g e m = (x, m') → x ≠ Panic →
  object_run (pushed pp m) m' r gs (delete j gs).
Proof.
  intros Hw Hj. unfold abandon. destruct (drop_prepared pp m) as [m1|] eqn:Hd; [|by intros [= <- <-]].
  intros [= <- <-] _. pose proof (drop_prepared_run pp m m1 r gs Hw Hd) as H1.
  eapply object_run_trans; [exact H1|]. by apply drop_guard_run; [apply H1|].
Qed.

Lemma resize_run m r gs j a held n :
  inv (world m r gs) → gs !! j = Some (a, held) →
  match guard_resize held n (account_at (accounts (om_catalog m)) a) with
  | (Ok h, x) => h = n ∧
      object_run m (with_accounts (<[a := x]> (accounts (om_catalog m))) m) r gs (<[j := (a, h)]> gs)
  | (Err _, x) => object_run m (with_accounts (<[a := x]> (accounts (om_catalog m))) m) r gs gs
  | (Panic, _) => False
  end.
Proof.
  intros Hw Hj. pose proof (resize_inv cid conf _ j a held n Hw Hj) as Hr.
  change (tm_accounts (tw_manager (world m r gs))) with (accounts (om_catalog m)) in Hr.
  pose proof (fun m' gs' Hs => object_run_step m m' r gs gs' (TResize j n) Hw I I Hs) as Hst.
  cbn [tenant_step tw_guards tw_manager tm_accounts tm_object] in Hst. rewrite Hj in Hst.
  destruct (guard_resize _ _ _) as [[h|e|] x]; [| |done]; [destruct Hr as [-> _]; split; [done|]|];
    by apply Hst.
Qed.

Lemma accounted_run env i o plan now mode m r gs j g x m' :
  inv (world m r gs) → memory_fits m → session_after env = after o → gs !! j = Some g →
  start_write_accounted env i o plan now mode g m = (x, m') → x ≠ Panic →
  object_run m m' r gs (delete j gs).
Proof.
  intros Hw Hf Hb Hj. unfold start_write_accounted.
  pose proof (prepare_run m r gs mode (gate_busy env) i o plan now Hw) as Hp.
  destruct (prepare_write _ _ _ _ _ _ _) as [[pp|e|] m1] eqn:Hpw; [| |by intros [= <- <-]].
  2: { intros [= <- <-] _. eapply object_run_trans; [exact Hp|]. by apply drop_guard_run; [apply Hp|]. }
  destruct (actual_charge_bytes pp) as [n|e|] eqn:Ha; [| |by intros [= <- <-]].
  2: { intros Hx Hn. eapply object_run_trans; [exact Hp|]. eapply abandon_run; [apply Hp|done..]. }
  destruct g as [a held]. cbn [fst snd].
  pose proof (resize_run (pushed pp m1) r gs j a held n (or_inv _ _ _ _ _ Hp) Hj) as Hr.
  change (accounts (om_catalog (pushed pp m1))) with (accounts (om_catalog m1)) in Hr.
  destruct (guard_resize _ _ _) as [[h|e|] y]; [| |done].
  - destruct Hr as [-> Hr]. rewrite <- accounts_pushed in Hr.
    destruct (finalize_start_put _ _ _ _ _) as [z m2] eqn:Hz. intros [= <- <-] Hn.
    eapply object_run_trans; [exact Hp|]. eapply object_run_trans; [exact Hr|].
    rewrite <- (delete_insert_at gs j (a, n)).
    eapply (finalize_run _ _ _ _ _ _ _ _ a n z); [apply Hr| | |done| |exact Hz|by destruct z].
    + exact (fits_run _ _ _ _ _ Hr (fits_run _ _ _ _ _ Hp Hf)).
    + by rewrite (prepare_owner _ _ _ _ _ _ _ _ _ Hpw).
    + apply list_lookup_insert_eq. by eapply lookup_lt_Some.
  - rewrite <- accounts_pushed in Hr. intros Hx Hn.
    eapply object_run_trans; [exact Hp|]. eapply object_run_trans; [exact Hr|].
    eapply abandon_run; [apply Hr|done..].
Qed.

(** ** Calls through a handle *)

Lemma finalize_none_run pp m m' r gs b1 b2 x :
  inv (world (pushed pp m) r gs) → memory_fits (pushed pp m) → b2 = after (wc_owner (pp_claim pp)) →
  finalize_start_put b1 b2 pp None m = (x, m') → x ≠ Panic → object_run (pushed pp m) m' r gs gs.
Proof.
  intros Hw Hf Hb Hs Hx.
  apply (object_call_run _ _ _ _ (MFinalize (length (om_prepared m)) b1 b2 None)); try done.
  - by eapply fits_env.
  - by eapply finalize_pushed.
  - intros pp'. cbn [tw_manager tm_object]. rewrite take_pushed. by intros [= <-].
Qed.

Lemma object_start_run env i o plan now mode m r gs x m' :
  inv (world m r gs) → memory_fits m → session_after env = after o →
  object_start_write env i o plan now mode m = (x, m') → x ≠ Panic → object_run m m' r gs gs.
Proof.
  intros Hw Hf Hb. unfold object_start_write, start_write.
  pose proof (prepare_run m r gs mode (gate_busy env) i o plan now Hw) as Hp.
  destruct (prepare_write _ _ _ _ _ _ _) as [[pp|e|] m1] eqn:Hpw; [| |by intros [= <- <-]]; [|by intros [= <- <-]].
  destruct (finalize_start_put _ _ _ _ _) as [z m2] eqn:Hz. intros [= <- <-] Hx.
  eapply object_run_trans; [exact Hp|].
  eapply (finalize_none_run pp m1 m2); [apply Hp|exact (fits_run _ _ _ _ _ Hp Hf)|
    by rewrite (prepare_owner _ _ _ _ _ _ _ _ _ Hpw)|exact Hz|by destruct z].
Qed.

(** A handle of this registry: its entry is there. *)
Definition handle_known (t : ResolvedTenant) (r : TenantRegistry) : Prop :=
  ∀ a, rt_entry t = Some a → is_Some (tenant_entries r !! a).

Lemma reserve_run m r gs a bytes v :
  inv (world m r gs) → is_Some (tenant_entries r !! a) →
  match reserve_checked a bytes v r (accounts (om_catalog m)) with
  | (Ok _, accs) => object_run m (with_accounts accs m) r gs (gs ++ [(a, bytes)])
  | (Err _, accs) => object_run m (with_accounts accs m) r gs gs
  | (Panic, _) => False
  end.
Proof.
  intros Hw Ha. pose proof (reserve_checked_ok a bytes v r _ (tv_tenants _ _ _ Hw) Ha) as Hok.
  change (tm_accounts (tw_manager (world m r gs))) with (accounts (om_catalog m)) in Hok.
  pose proof (fun m' gs' Hs => object_run_step m m' r gs gs' (TReserve a bytes v) Hw I Ha Hs) as Hst.
  cbn [tenant_step tw_guards tw_manager tm_accounts tm_object tm_registry] in Hst.
  destruct (reserve_checked _ _ _ _ _) as [[u|e|] accs]; [| |done]; by apply Hst.
Qed.

Lemma start_write_run env t k o plan now mode tm gs x tm' :
  inv (mkTenantWorld tm gs) → memory_fits (tm_object tm) → handle_known t (tm_registry tm) →
  session_after env = after o → tenant_start_write env t k o plan now mode tm = (x, tm') → x ≠ Panic →
  object_run (tm_object tm) (tm_object tm') (tm_registry tm) gs gs ∧ tm_registry tm' = tm_registry tm.
Proof.
  destruct tm as [m r]. intros Hw Hf Hk Hb. unfold tenant_start_write.
  assert (object_run m m r gs gs) as Hrefl by (by apply object_run_refl).
  destruct (validate_binding t _) as [u|e|]; [|by intros [= <- <-]..]. destruct (rt_entry t) as [a|] eqn:Ha.
  - destruct (admission_charge plan) as [bytes|e|]; [|by intros [= <- <-]..].
    pose proof (reserve_run m r gs a bytes (rt_version t) Hw (Hk a Ha)) as Hr. cbn [tm_registry tm_object] in *.
    change (tm_accounts (mkTenantManager m r)) with (accounts (om_catalog m)).
    destruct (reserve_checked _ _ _ _ _) as [[z|e|] accs]; [| |done].
    + destruct (start_write_accounted _ _ _ _ _ _ _ _) as [y m2] eqn:Hs. intros [= <- <-] Hx. split; [|done].
      eapply object_run_trans; [exact Hr|].
      assert (gs = delete (length gs) (gs ++ [(a, bytes)])) as Hgs by (by rewrite delete_middle, app_nil_r).
      rewrite Hgs at 2. eapply accounted_run; [apply Hr|exact Hf|exact Hb| |exact Hs|done].
      by rewrite lookup_app_r, Nat.sub_diag.
    + intros [= <- <-] _. by split.
  - cbn [tm_object tm_registry]. destruct (object_start_write _ _ _ _ _ _ _) as [y m2] eqn:Hs.
    intros [= <- <-] Hx. split; [|done]. by eapply object_start_run.
Qed.

(** ** Batches *)

Lemma each_run {X Y} (f : X → ObjectManager A Alloc → Y * ObjectManager A Alloc) (fine : Y → Prop) r gs l :
  (∀ x m y m', inv (world m r gs) → memory_fits m → f x m = (y, m') → fine y →
     object_run m m' r gs gs) →
  ∀ m ys m', inv (world m r gs) → memory_fits m → each f l m = (ys, m') → Forall fine ys →
  object_run m m' r gs gs.
Proof.
  intros Hf. induction l as [|x l IH]; intros m ys m' Hw Hfit; simpl.
  { intros [= <- <-] _. by apply object_run_refl. }
  destruct (f x m) as [y m1] eqn:Hx. destruct (each f l m1) as [ys1 m2] eqn:Hl. intros [= <- <-].
  intros [Hy Hys]%Forall_cons. pose proof (Hf x m y m1 Hw Hfit Hx Hy) as H1.
  eapply object_run_trans; [exact H1|].
  eapply IH; [apply H1|by eapply fits_run|exact Hl|done].
Qed.

(** The bytes of the plans that have a charge. *)
Definition charged (charges : list (res ObjectManagerError N)) : list N :=
  omap (fun c => match c with Ok n => Some n | _ => None end) charges.

Lemma batch_total_spec charges : ∀ count total,
  match batch_total charges count total with
  | (n, Some t) => n = (count + length (charged charges))%nat ∧ t = total + sum_by (fun b => b) (charged charges)
  | (n, None) => n ≠ 0%nat
  end.
Proof.
  induction charges as [|[b|e|] charges IH]; intros count total; simpl.
  - split; [lia|]. by rewrite sum_by_nil, N.add_0_r.
  - destruct (checked_add total b) as [t|] eqn:Ht; [|done]. apply checked_add_Some in Ht as [-> _].
    specialize (IH (S count) (total + b)). destruct (batch_total _ _ _) as [n [t|]]; [|done].
    destruct IH as [-> ->]. change (charged (Ok b :: charges)) with (b :: charged charges).
    rewrite sum_by_cons. simpl. split; lia.
  - apply IH.
  - apply IH.
Qed.

(** The items of a batch take the guards one by one. *)
Lemma batch_items_run env t a o now mode r gs l : ∀ m ys m',
  inv (world m r (gs ++ map (pair a) (charged l.*2))) → memory_fits m → session_after env = after o →
  each (batch_item env t a o now mode None) l m = (ys, m') → Forall (fun y => y ≠ Panic) ys →
  object_run m m' r (gs ++ map (pair a) (charged l.*2)) gs.
Proof.
  induction l as [|[q c] l IH]; intros m ys m' Hw Hfit Hb; simpl.
  { intros [= <- <-] _. rewrite app_nil_r in *. by apply object_run_refl. }
  destruct (batch_item _ _ _ _ _ _ _ _ m) as [y m1] eqn:Hx.
  destruct (each _ l m1) as [ys1 m2] eqn:Hl. intros [= <- <-] [Hy Hys]%Forall_cons.
  unfold batch_item in Hx. cbn [snd fst] in Hx. destruct c as [b|e|]; [| |by injection Hx as <- <-].
  - change (charged (Ok b :: l.*2)) with (b :: charged l.*2) in *. cbn [map] in *.
    apply (accounted_run _ _ _ _ _ _ _ r (gs ++ (a, b) :: map (pair a) (charged l.*2)) (length gs)) in Hx;
      [|exact Hw|exact Hfit|exact Hb| |exact Hy].
    2: { rewrite lookup_app_r, Nat.sub_diag by done. done. }
    rewrite delete_middle in Hx. eapply object_run_trans; [exact Hx|].
    eapply IH; [apply Hx|by eapply fits_run|done|exact Hl|done].
  - injection Hx as _ <-. by eapply IH.
Qed.

Lemma reserve_batch_run t a charges m r gs :
  inv (world m r gs) → is_Some (tenant_entries r !! a) →
  match reserve_batch t a charges r (accounts (om_catalog m)) with
  | (Ok None, accs) => object_run m (with_accounts accs m) r gs (gs ++ map (pair a) (charged charges))
  | (Ok (Some _), accs) => object_run m (with_accounts accs m) r gs gs
  | _ => False
  end.
Proof.
  intros Hw Ha. pose proof (batch_total_spec charges 0 0) as Hb. unfold reserve_batch.
  assert (with_accounts (accounts (om_catalog m)) m = m) as Hid by (by destruct m as [[] ? ? ? ? ?]).
  destruct (batch_total charges 0 0) as [n [total|]].
  2: { destruct n; [done|]. rewrite Hid. by apply object_run_refl. }
  destruct Hb as [-> ->]. destruct (length (charged charges)) as [|k] eqn:Hn; cbn [Nat.add].
  { apply nil_length_inv in Hn. rewrite Hn. simpl. rewrite app_nil_r, Hid. by apply object_run_refl. }
  rewrite N.add_0_l. set (total := sum_by _ _).
  pose proof (reserve_run m r gs a total (rt_version t) Hw Ha) as Hr.
  destruct (reserve_checked _ _ _ _ _) as [[u|e|] accs]; [|done|done].
  eapply object_run_trans; [exact Hr|].
  apply (object_run_step _ _ _ _ _ (TSplit (length gs) (charged charges))); [apply Hr|done|done| |done|done].
  cbn [tenant_step tw_guards]. rewrite lookup_app_r, Nat.sub_diag by done. cbn [lookup list_lookup].
  fold total. rewrite N.eqb_refl, delete_middle, app_nil_r. done.
Qed.

Lemma start_many_run env t o requests now mode tm gs ys tm' :
  inv (mkTenantWorld tm gs) → memory_fits (tm_object tm) → handle_known t (tm_registry tm) →
  session_after env = after o → start_write_many env t o requests now mode tm = (ys, tm') → Forall (fun y => y ≠ Panic) ys →
  object_run (tm_object tm) (tm_object tm') (tm_registry tm) gs gs ∧ tm_registry tm' = tm_registry tm.
Proof.
  intros Hw Hf Hk Hb Hs Hys. unfold start_write_many in Hs. destruct tm as [m r]. cbn [tm_object tm_registry] in *.
  assert (object_run m m r gs gs) as Hrefl by (by apply object_run_refl).
  destruct (validate t r) as [u|e|]; [|injection Hs as <- <-; by split..]. destruct (rt_entry t) as [a|] eqn:Ha.
  - cbv zeta in Hs. set (charges := map _ requests) in *.
    pose proof (reserve_batch_run t a charges m r gs Hw (Hk a Ha)) as Hr.
    change (tm_accounts (mkTenantManager m r)) with (accounts (om_catalog m)) in Hs.
    destruct (reserve_batch _ _ _ _ _) as [[[e|]| |] accs]; [..|done|done];
      destruct (each _ _ _) as [zs m1] eqn:He; injection Hs as <- <-; (split; [|done]);
      (eapply object_run_trans; [exact Hr|]).
    + eapply (each_run _ (fun y => y ≠ Panic)); [|apply Hr|by eapply fits_run|exact He|done].
      intros [q c] m2 y m3 Hw2 _. unfold batch_item. simpl.
      destruct c; intros [= <- <-] _; by apply object_run_refl.
    + assert ((zip requests charges).*2 = charges) as Hc
        by (apply snd_zip; unfold charges; by rewrite length_map).
      rewrite <- Hc in Hr |- *. eapply batch_items_run; [apply Hr|by eapply fits_run|done|exact He|done].
  - destruct (each _ _ _) as [zs m1] eqn:He. injection Hs as <- <-. split; [|done].
    eapply (each_run _ (fun y => y ≠ Panic)); [|done|done|exact He|done].
    intros q m2 y m3 Hw2 Hf2 Hx Hy. eapply object_start_run; [exact Hw2|exact Hf2|exact Hb|exact Hx|exact Hy].
Qed.

Lemma start_batch_run env t o requests now mode tm gs ys tm' :
  inv (mkTenantWorld tm gs) → memory_fits (tm_object tm) → handle_known t (tm_registry tm) →
  session_after env = after o → start_write_batch env t o requests now mode tm = (ys, tm') → Forall (fun y => y ≠ Panic) ys →
  object_run (tm_object tm) (tm_object tm') (tm_registry tm) gs gs ∧ tm_registry tm' = tm_registry tm.
Proof.
  intros Hw Hf Hk Hb. unfold start_write_batch.
  destruct requests as [|q [|q' l]]; [by eapply start_many_run| |by eapply start_many_run].
  destruct (tenant_start_write _ _ _ _ _ _ _ _) as [y tm1] eqn:Hx. intros [= <- <-] [Hys _]%Forall_cons.
  exact (start_write_run env t _ o _ now mode tm gs y tm1 Hw Hf Hk Hb Hx Hys).
Qed.

(** ** Other calls *)

Lemma simple_run {E X} (f : ObjectManager A Alloc → res E X * ObjectManager A Alloc) op m r gs x m' :
  inv (world m r gs) → object_only op = true → manager_env op m → call_op after (TObject op) (world m r gs) →
  manager_step op m = match f m with (Panic, _) => None | (_, m1) => Some m1 end →
  f m = (x, m') → x ≠ Panic → object_run m m' r gs gs.
Proof.
  intros Hw Ho Henv Hop Hs Hf Hx. apply (object_call_run _ _ _ _ op); try done.
  rewrite Hs, Hf. by destruct x.
Qed.

(** The version a read returns is dropped when the answer is sent. *)
Lemma get_run i now m r gs x m' :
  inv (world m r gs) → om_get i now m = (x, m') → object_run m m' r gs gs.
Proof.
  intros Hw Hg. unfold om_get in Hg.
  pose proof (get_total (live_in (om_pool m)) i now _ (minv_inv _ _ _ (tv_objects _ _ _ Hw))) as Ht.
  cbn [tw_manager tm_object] in Ht.
  assert (manager_step (MGet i now) m =
    Some (with_handles (keep_handle read_version x (om_handles m')) m')) as Hs.
  { cbn [manager_step]. unfold om_get. destruct (get _ _ _ _) as [y st]. injection Hg as <- <-. by destruct y. }
  assert (om_handles m' = om_handles m) as Hh
    by (destruct (get _ _ _ _) as [y st]; by injection Hg as _ <-).
  assert (object_run m (with_handles (keep_handle read_version x (om_handles m')) m') r gs gs) as H1
    by (by apply (object_call_run _ _ _ _ (MGet i now))).
  destruct x as [rd|e|].
  - eapply object_run_trans; [exact H1|]. apply (object_call_run _ _ _ _ (MDropHandle 0)); try done; [apply H1|].
    simpl. by destruct m'.
  - simpl in H1. by destruct m'.
  - destruct (get _ _ _ _) as [y st]. injection Hg as -> _. done.
Qed.

Lemma remove_run i now force m r gs x m' :
  inv (world m r gs) → om_remove i now force m = (x, m') → x ≠ Panic → object_run m m' r gs gs.
Proof.
  intros Hw. apply (simple_run (om_remove i now force) (MRemove i now force)); try done.
Qed.

Lemma remove_matching_run ns pattern now force m r gs n m' :
  inv (world m r gs) → remove_matching ns pattern now force m = (n, m') → object_run m m' r gs gs.
Proof.
  intros Hw Hr. apply (object_call_run _ _ _ _ (MRemoveMatching ns pattern now force)); try done.
  cbn [manager_step]. by rewrite Hr.
Qed.

Lemma finish_run i o s now m r gs x m' :
  inv (world m r gs) → finish_put i o s now m = (x, m') → x ≠ Panic → object_run m m' r gs gs.
Proof. intros Hw. by apply (simple_run (finish_put i o s now) (MFinish i o s now)). Qed.

Lemma revoke_run i o s now m r gs x m' :
  inv (world m r gs) → revoke_put i o s now m = (x, m') → x ≠ Panic → object_run m m' r gs gs.
Proof. intros Hw. by apply (simple_run (revoke_put i o s now) (MRevoke i o s now)). Qed.
End Runs.

(** ** Every call *)

Section Calls.
Context {A Alloc : Type} `{L : UpstreamLaws A Alloc}.
Implicit Types (tm : TenantObjectManager A Alloc) (m : ObjectManager A Alloc).

Inductive tenant_call :=
| CStart (env : PutEnv) (t : ResolvedTenant) (k : string) (o : WriteOwner) (plan : ObjectPutPlan)
    (now : N) (mode : WriteMode)
| CStartBatch (env : PutEnv) (t : ResolvedTenant) (o : WriteOwner) (requests : list TenantPutRequest)
    (now : N) (mode : WriteMode)
| CFinish (t : ResolvedTenant) (k : string) (o : WriteOwner) (s : ReplicaSelector) (now : N)
| CRevoke (t : ResolvedTenant) (k : string) (o : WriteOwner) (s : ReplicaSelector) (now : N)
| CGet (t : ResolvedTenant) (k : string) (now : N)
| CExists (t : ResolvedTenant) (k : string) (now : N)
| CRemove (t : ResolvedTenant) (k : string) (now : N) (force : bool)
| CRemoveMatching (t : ResolvedTenant) (pattern : option (string → bool)) (now : N) (force : bool)
| CFinishBatch (t : ResolvedTenant) (ks : list string) (o : WriteOwner) (s : ReplicaSelector) (now : N)
| CRevokeBatch (t : ResolvedTenant) (ks : list string) (o : WriteOwner) (s : ReplicaSelector) (now : N)
| CGetBatch (t : ResolvedTenant) (ks : list string) (now : N)
| CExistsBatch (t : ResolvedTenant) (ks : list string) (now : N)
| CRemoveBatch (t : ResolvedTenant) (ks : list string) (now : N) (force : bool)
| CRemoveAll (now : N) (force : bool)
| CMaintenance (busy : bool) (now : N) (budget : CollectBudget)
| CUpsert (id : string) (policy : TenantPolicy)
| CDelete (id : string).

Definition call_handle (c : tenant_call) : option ResolvedTenant :=
  match c with
  | CStart _ t _ _ _ _ _ | CStartBatch _ t _ _ _ _ | CFinish t _ _ _ _ | CRevoke t _ _ _ _ | CGet t _ _
  | CExists t _ _ | CRemove t _ _ _ | CRemoveMatching t _ _ _ | CFinishBatch t _ _ _ _
  | CRevokeBatch t _ _ _ _ | CGetBatch t _ _ | CExistsBatch t _ _ | CRemoveBatch t _ _ _ => Some t
  | _ => None
  end.

Definition is_panic {E X} (x : res E X) : bool := match x with Panic => true | _ => false end.

Lemma existsb_is_panic {E X} (l : list (res E X)) :
  existsb is_panic l = false → Forall (fun z => z ≠ Panic) l.
Proof.
  induction l as [|z l IH]; simpl; [by constructor|]. intros [Hz Hl]%orb_false_iff.
  constructor; [by destruct z|by apply IH].
Qed.

(** The manager after a call; [None] is a panic. *)
Definition answered {E X} (x : res E X * TenantObjectManager A Alloc) : option (TenantObjectManager A Alloc) :=
  if is_panic x.1 then None else Some x.2.

Definition all_answered {E F X} (x : res F (list (res E X)) * TenantObjectManager A Alloc)
    : option (TenantObjectManager A Alloc) :=
  match x.1 with
  | Panic => None
  | Err _ => Some x.2
  | Ok l => if existsb is_panic l then None else Some x.2
  end.

Definition run_call (c : tenant_call) tm : option (TenantObjectManager A Alloc) :=
  match c with
  | CStart env t k o plan now mode => answered (tenant_start_write env t k o plan now mode tm)
  | CStartBatch env t o qs now mode =>
      let '(l, tm') := start_write_batch env t o qs now mode tm in
      if existsb is_panic l then None else Some tm'
  | CFinish t k o s now => answered (finish_put_at t k o s now tm)
  | CRevoke t k o s now => answered (tenant_revoke_put t k o s now tm)
  | CGet t k now => answered (tenant_get t k now tm)
  | CExists t k now => answered (tenant_exists t k now tm)
  | CRemove t k now force => answered (tenant_remove t k now force tm)
  | CRemoveMatching t pattern now force => answered (tenant_remove_matching t pattern now force tm)
  | CFinishBatch t ks o s now => all_answered (finish_put_batch_at t ks o s now tm)
  | CRevokeBatch t ks o s now => all_answered (revoke_put_batch t ks o s now tm)
  | CGetBatch t ks now => all_answered (tenant_get_batch t ks now tm)
  | CExistsBatch t ks now => answered (tenant_exists_batch t ks now tm)
  | CRemoveBatch t ks now force => all_answered (tenant_remove_batch t ks now force tm)
  | CRemoveAll now force => Some (remove_all_tenants now force tm).2
  | CMaintenance busy now budget => snd <$> tenant_maintenance busy now budget tm
  | CUpsert id policy => answered (upsert_tenant id policy tm)
  | CDelete id => answered (tm_delete_tenant id tm)
  end.

Context (cid : N) (conf : ObjectCatalogConfig) (after : WriteOwner → bool).
Local Abbreviation inv := (tenant_inv cid conf).

(** A call that leaves the registry is a run of the object manager. *)
Definition call_run tm tm' (gs : list (N * N)) : Prop :=
  object_run cid conf after (tm_object tm) (tm_object tm') (tm_registry tm) gs gs ∧ tm_registry tm' = tm_registry tm.

Lemma call_run_refl tm gs : inv (mkTenantWorld tm gs) → call_run tm tm gs.
Proof. intros Hw. split; [|done]. destruct tm. by apply object_run_refl. Qed.

Lemma validated_run {E X} (inject : TenantHandleError → E) t
    (f : ObjectManager A Alloc → res E X * ObjectManager A Alloc) tm gs x tm' :
  inv (mkTenantWorld tm gs) → validated inject t f tm = (x, tm') → x ≠ Panic →
  (∀ m', f (tm_object tm) = (x, m') → object_run cid conf after (tm_object tm) m' (tm_registry tm) gs gs) →
  call_run tm tm' gs.
Proof.
  intros Hw Hv Hx Hf. unfold validated in Hv.
  destruct (validate _ _) as [u|e|]; [|injection Hv as <- <-; by apply call_run_refl..].
  destruct (f (tm_object tm)) as [y m'] eqn:Hy. injection Hv as <- <-. split; [|done]. by apply Hf.
Qed.

Lemma answered_Some {E X} (x : res E X * TenantObjectManager A Alloc) tm' :
  answered x = Some tm' → ∃ y, x = (y, tm') ∧ y ≠ Panic.
Proof. unfold answered. destruct x as [[] ?]; simpl; try done; intros [= <-]; eauto. Qed.

Lemma all_answered_Some {E F X} (x : res F (list (res E X)) * TenantObjectManager A Alloc) tm' :
  all_answered x = Some tm' →
  ∃ y, x = (y, tm') ∧ y ≠ Panic ∧ ∀ l, y = Ok l → Forall (fun z => z ≠ Panic) l.
Proof.
  unfold all_answered. destruct x as [[l|e|] tm1]; simpl; try done; [|intros [= <-]; by eexists].
  destruct (existsb is_panic l) eqn:Hl; [done|]. intros [= <-]. eexists. split_and!; [done..|].
  intros l' [= <-]. by apply existsb_is_panic.
Qed.

(** A batch of keys under one handle. *)
Lemma keys_run {Y} (fine : Y → Prop) t ks
    (f : ObjectIdentity → ObjectManager A Alloc → Y * ObjectManager A Alloc) tm gs x tm' :
  inv (mkTenantWorld tm gs) → memory_fits (tm_object tm) →
  (∀ i m y m', inv (mkTenantWorld (mkTenantManager m (tm_registry tm)) gs) → f i m = (y, m') → fine y →
     object_run cid conf after m m' (tm_registry tm) gs gs) →
  map_validated_keys t ks f tm = (x, tm') → x ≠ Panic → (∀ l, x = Ok l → Forall fine l) →
  call_run tm tm' gs.
Proof.
  intros Hw Hfit Hf Hk Hx Hl. eapply validated_run; [done|exact Hk|done|].
  assert (inv (mkTenantWorld (mkTenantManager (tm_object tm) (tm_registry tm)) gs)) as Hw' by (by destruct tm).
  intros m' He. cbv beta in He. destruct (each _ _ _) as [ys m1] eqn:Hy. injection He as <- <-.
  eapply (each_run _ _ _ _ fine); [|exact Hw'|done|exact Hy|by apply Hl].
  intros k m y m2 Hw2 _ Hfx Hfine. eapply Hf; [exact Hw2|exact Hfx|done].
Qed.

Lemma call_run_steps tm tm' gs : call_run tm tm' gs → rtc (step_under after) (mkTenantWorld tm gs) (mkTenantWorld tm' gs).
Proof. destruct tm as [m r], tm' as [m' r']. intros [[Hr _ _ _] Hreg]. simpl in *. by rewrite Hreg. Qed.

Lemma maintenance_steps busy now budget tm gs tm' :
  inv (mkTenantWorld tm gs) → snd <$> tenant_maintenance busy now budget tm = Some tm' →
  rtc (step_under after) (mkTenantWorld tm gs) (mkTenantWorld tm' gs).
Proof.
  intros Hw Hm. unfold tenant_maintenance in Hm. set (m := tm_object tm) in *.
  destruct (refresh_capacity _ _ _ _) as [r1 accs1] eqn:Hr.
  destruct (reclaim_targets r1 accs1) as [targets r2] eqn:Ht.
  destruct (maintenance_with_targets _ _ _ _ _) as [[rep m']|] eqn:Hmt; [|done]. simpl in Hm. injection Hm as <-.
  apply (rtc_l _ _ (mkTenantWorld (with_tenants (r1, accs1) tm) gs)).
  { exists TRefresh. split_and!; [done..|]. cbn [tenant_step tw_manager tw_guards]. fold m. by rewrite Hr. }
  apply (rtc_l _ _ (mkTenantWorld (mkTenantManager (with_accounts accs1 m) r2) gs)).
  { exists TTargets. split_and!; [done..|]. cbn [tenant_step]. unfold with_tenants, tm_accounts.
    cbn [tw_manager tm_registry tm_object fst snd with_accounts with_catalog om_catalog accounts set_accounts tw_guards].
    by rewrite Ht. }
  apply rtc_once. exists (TObject (MMaintenance busy now budget targets)). split_and!; [done..|].
  cbn [tenant_step object_only manager_step]. cbn [tw_manager tm_object]. by rewrite Hmt.
Qed.

Lemma admin_steps op tm tm' gs :
  match op with TUpsert _ _ | TDelete _ => True | _ => False end →
  tenant_step op (mkTenantWorld tm gs) = Some (mkTenantWorld tm' gs) →
  rtc (step_under after) (mkTenantWorld tm gs) (mkTenantWorld tm' gs).
Proof. intros Hop Hs. apply rtc_once. exists op. by destruct op. Qed.

(** What the admission says after staging. *)
Definition call_admission (c : tenant_call) : Prop :=
  match c with
  | CStart env _ _ o _ _ _ | CStartBatch env _ o _ _ _ => session_after env = after o
  | _ => True
  end.

Lemma call_steps c tm gs tm' :
  inv (mkTenantWorld tm gs) → memory_fits (tm_object tm) → call_admission c →
  (∀ t, call_handle c = Some t → handle_known t (tm_registry tm)) →
  run_call c tm = Some tm' → rtc (step_under after) (mkTenantWorld tm gs) (mkTenantWorld tm' gs).
Proof.
  intros Hw Hf Hb Hk Hc. assert (inv (mkTenantWorld (mkTenantManager (tm_object tm) (tm_registry tm)) gs)) as Hw'
    by (by destruct tm).
  destruct c; cbn [run_call call_handle call_admission] in *;
    try (apply answered_Some in Hc as (y & Hy & Hn));
    try (apply all_answered_Some in Hc as (y & Hy & Hn & Hl)).
  - by eapply call_run_steps, start_write_run; eauto.
  - destruct (start_write_batch _ _ _ _ _ _ _) as [l tm1] eqn:Hs. destruct (existsb is_panic l) eqn:Hp; [done|].
    injection Hc as <-. eapply call_run_steps, start_batch_run; eauto using existsb_is_panic.
  - eapply call_run_steps, validated_run; [done|exact Hy|done|]. intros m' He. cbv beta in He.
    destruct (finish_put _ _ _ _ _) as [z m1] eqn:Hz. injection He as <- <-. eapply finish_run; eauto. by destruct z.
  - eapply call_run_steps, validated_run; [done|exact Hy|done|]. intros m' He. cbv beta in He.
    destruct (revoke_put _ _ _ _ _) as [z m1] eqn:Hz. injection He as <- <-. eapply revoke_run; eauto. by destruct z.
  - eapply call_run_steps, validated_run; [done|exact Hy|done|]. intros m' He. cbv beta in He.
    destruct (om_get _ _ _) as [z m1] eqn:Hz. injection He as <- <-. by eapply get_run; eauto.
  - eapply call_run_steps, validated_run; [done|exact Hy|done|]. intros m' He. cbv beta in He. unfold om_exists in He.
    destruct (om_get _ _ _) as [z m1] eqn:Hz. injection He as <- <-. by eapply get_run; eauto.
  - eapply call_run_steps, validated_run; [done|exact Hy|done|]. intros m' He. cbv beta in He.
    destruct (om_remove _ _ _ _) as [z m1] eqn:Hz. injection He as <- <-. eapply remove_run; eauto. by destruct z.
  - eapply call_run_steps, validated_run; [done|exact Hy|done|]. intros m' He. cbv beta in He.
    destruct (remove_matching _ _ _ _ _) as [z m1] eqn:Hz. injection He as <- <-. by eapply remove_matching_run; eauto.
  - eapply call_run_steps, (keys_run (fun z => z ≠ Panic)); [done|done| |exact Hy|done|done].
    intros i m z m' Hwm He Hz. eapply finish_run; [exact Hwm|exact He|exact Hz].
  - eapply call_run_steps, (keys_run (fun z => z ≠ Panic)); [done|done| |exact Hy|done|done].
    intros i m z m' Hwm He Hz. eapply revoke_run; [exact Hwm|exact He|exact Hz].
  - eapply call_run_steps, (keys_run (fun z => z ≠ Panic)); [done|done| |exact Hy|done|done].
    intros i m z m' Hwm He Hz. eapply get_run; [exact Hwm|exact He].
  - eapply call_run_steps, (keys_run (fun _ => True)); [done|done| |exact Hy|done|].
    + intros i m b m' Hwm He _. unfold om_exists in He. destruct (om_get _ _ _) as [z m1] eqn:Hz.
      injection He as <- <-. by eapply get_run.
    + intros l _. by apply Forall_true.
  - eapply call_run_steps, (keys_run (fun z => z ≠ Panic)); [done|done| |exact Hy|done|done].
    intros i m z m' Hwm He Hz. eapply remove_run; [exact Hwm|exact He|exact Hz].
  - injection Hc as <-. unfold remove_all_tenants. destruct (each _ _ _) as [ns m1] eqn:He. apply call_run_steps.
    split; [|done]. eapply (each_run _ _ _ _ (fun _ => True)); [|done|done|exact He|by apply Forall_true].
    intros t m n m' Hwm _ Hr _. eapply remove_matching_run; [exact Hwm|exact Hr].
  - by eapply maintenance_steps.
  - apply (admin_steps (TUpsert id policy)); [done|]. cbn [tenant_step tw_manager]. rewrite Hy. by destruct y.
  - apply (admin_steps (TDelete id)); [done|]. cbn [tenant_step tw_manager]. rewrite Hy. by destruct y.
Qed.
End Calls.
