(* ===== verification/TenantAnswers.v ===== *)
(** * The calls of tenants answer

    No call of the tenant object manager panics on a reachable state, while the
    slots have numbers left for its items ([units] of [ManagerNumbers]). *)
From stdpp Require Import relations.
From S2P Require Import Prelude Identity Segment ByteAllocator SegmentPool Placement TenantQuota Replica ObjectTypes.
From S2P Require Import TenantRegistry TenantSteps CatalogState CatalogBooks CatalogWrite CatalogCollector CatalogInv CatalogOps.
From S2P Require Import CatalogWorld CatalogCharges CatalogProps CatalogResources Eviction ObjectManager ManagerWorld ManagerProps TenantManager TenantWorld TenantInv.
From S2P Require Import ManagerNumbers TenantCalls.

Section Answers.
Context {A Alloc : Type} `{L : UpstreamLaws A Alloc}.
Implicit Types (tm : TenantObjectManager A Alloc) (m : ObjectManager A Alloc).
Context (cid : N) (conf : ObjectCatalogConfig) (after : WriteOwner → bool).
Local Abbreviation inv := (tenant_inv cid conf).
Local Abbreviation world m r gs := (mkTenantWorld (mkTenantManager m r) gs).

Lemma step_total op m r gs :
  inv (world m r gs) → manager_env op m →
  (needs_numbers op = true → op_fits op ∧ spare 4 (om_catalog m)) → manager_step op m ≠ None.
Proof.
  intros Hw Henv Hn Hs. pose proof (manager_step_ok cid conf op m (tv_objects _ _ _ Hw) Henv) as Hok.
  rewrite Hs in Hok. destruct Hok as [Hop Hsp]. destruct (Hn Hop) as [Hf Hsp4]. by apply Hsp.
Qed.

Lemma simple_total {E X} (f : ObjectManager A Alloc → res E X * ObjectManager A Alloc) op m r gs :
  inv (world m r gs) → manager_env op m →
  (needs_numbers op = true → op_fits op ∧ spare 4 (om_catalog m)) →
  manager_step op m = match f m with (Panic, _) => None | (_, m1) => Some m1 end → (f m).1 ≠ Panic.
Proof.
  intros Hw Henv Hn Hs Hp. apply (step_total op m r gs Hw Henv Hn). rewrite Hs.
  destruct (f m) as [[] ?]; done.
Qed.

Lemma finalize_total pp m r gs b1 b2 g :
  inv (world (pushed pp m) r gs) → memory_fits (pushed pp m) → (finalize_start_put b1 b2 pp g m).1 ≠ Panic.
Proof.
  intros Hw Hf Hp.
  apply (step_total (MFinalize (length (om_prepared m)) b1 b2 g) (pushed pp m) r gs Hw); [|done|].
  - by eapply fits_env.
  - cbn [manager_step]. rewrite take_pushed. cbn [pushed om_prepared with_prepared].
    fold (pushed pp m). rewrite prepared_take. destruct (finalize_start_put _ _ _ _ _) as [[] ?]; done.
Qed.

Lemma abandon_total pp g e m r gs : inv (world (pushed pp m) r gs) → (abandon pp g e m).1 ≠ Panic.
Proof.
  intros Hw. unfold abandon. destruct (drop_prepared pp m) as [m'|] eqn:Hd; [done|].
  exfalso. apply (step_total (MDropPrepared (length (om_prepared m))) (pushed pp m) r gs Hw); [done|done|].
  cbn [manager_step]. rewrite take_pushed. cbn [pushed om_prepared with_prepared].
  fold (pushed pp m). by rewrite prepared_take.
Qed.

Definition put_numbered (plan : ObjectPutPlan) m : Prop :=
  N.of_nat (replica_count (plan_placement plan)) <= U32_MAX ∧ spare 4 (om_catalog m).

Lemma prepare_total mode busy i o plan now m r gs :
  inv (world m r gs) → put_numbered plan m → (prepare_write mode busy i o plan now m).1 ≠ Panic.
Proof.
  intros Hw Hn Hp. apply (step_total (MPrepare mode busy i o plan now) m r gs Hw); [done|done|].
  cbn [manager_step]. destruct (prepare_write _ _ _ _ _ _ _) as [[] ?]; done.
Qed.

Lemma accounted_total env i o plan now mode m r gs j g :
  inv (world m r gs) → memory_fits m → gs !! j = Some g → put_numbered plan m →
  (start_write_accounted env i o plan now mode g m).1 ≠ Panic.
Proof.
  intros Hw Hf Hj Hn. unfold start_write_accounted.
  pose proof (prepare_run cid conf after m r gs mode (gate_busy env) i o plan now Hw) as Hp.
  pose proof (prepare_total mode (gate_busy env) i o plan now m r gs Hw Hn) as Ht.
  destruct (prepare_write _ _ _ _ _ _ _) as [[pp|e|] m1]; [|done|done].
  pose proof (fits_run _ _ _ _ _ _ _ _ Hp Hf) as Hf1.
  destruct (actual_charge_bytes pp) as [n|e|] eqn:Ha; [|by eapply abandon_total, Hp|].
  2: { unfold actual_charge_bytes in Ha. by destruct (checked_mul _ _). }
  destruct g as [a held]. cbn [fst snd].
  pose proof (resize_run cid conf after (pushed pp m1) r gs j a held n (or_inv _ _ _ _ _ _ _ _ Hp) Hj) as Hr.
  change (accounts (om_catalog (pushed pp m1))) with (accounts (om_catalog m1)) in Hr.
  destruct (guard_resize _ _ _) as [[h|e|] y]; [| |done]; rewrite <- accounts_pushed in Hr.
  - destruct Hr as [-> Hr].
    pose proof (finalize_total pp _ r _ (session_before env) (session_after env) (Some (a, n))
      (or_inv _ _ _ _ _ _ _ _ Hr) Hf1) as Hz.
    destruct (finalize_start_put _ _ _ _ _) as [[] ?]; done.
  - eapply abandon_total, Hr.
Qed.

Lemma object_start_total env i o plan now mode m r gs :
  inv (world m r gs) → memory_fits m → put_numbered plan m →
  (object_start_write env i o plan now mode m).1 ≠ Panic.
Proof.
  intros Hw Hf Hn. unfold object_start_write, start_write.
  pose proof (prepare_run cid conf after m r gs mode (gate_busy env) i o plan now Hw) as Hp.
  pose proof (prepare_total mode (gate_busy env) i o plan now m r gs Hw Hn) as Ht.
  destruct (prepare_write _ _ _ _ _ _ _) as [[pp|e|] m1]; [|done|done].
  pose proof (finalize_total pp m1 r gs (session_before env) (session_after env) None
    (or_inv _ _ _ _ _ _ _ _ Hp) (fits_run _ _ _ _ _ _ _ _ Hp Hf)) as Hz.
  by destruct (finalize_start_put _ _ _ _ _) as [[] ?].
Qed.

Lemma start_total env t k o plan now mode tm gs :
  inv (mkTenantWorld tm gs) → memory_fits (tm_object tm) → handle_known t (tm_registry tm) →
  put_numbered plan (tm_object tm) → (tenant_start_write env t k o plan now mode tm).1 ≠ Panic.
Proof.
  destruct tm as [m r]. intros Hw Hf Hk Hn. unfold tenant_start_write, validate_binding.
  destruct (negb _); [done|]. cbn [tm_object tm_registry] in *. destruct (rt_entry t) as [a|] eqn:Ha.
  - destruct (admission_charge plan) as [bytes|e|] eqn:Hc; [|done|].
    2: { unfold admission_charge in Hc. destruct (_ <=? _); [|done]. simpl in Hc. by destruct (checked_mul _ _). }
    pose proof (reserve_run cid conf after m r gs a bytes (rt_version t) Hw (Hk a Ha)) as Hr.
    change (tm_accounts (mkTenantManager m r)) with (accounts (om_catalog m)).
    destruct (reserve_checked _ _ _ _ _) as [[u|e|] accs]; [|done|done].
    assert ((gs ++ [(a, bytes)]) !! length gs = Some (a, bytes)) as Hj by (by rewrite lookup_app_r, Nat.sub_diag).
    pose proof (accounted_total env (mkObject (rt_namespace t) k) o plan now mode (with_accounts accs m) r _ _ _
      (or_inv _ _ _ _ _ _ _ _ Hr) Hf Hj Hn) as Hx.
    by destruct (start_write_accounted _ _ _ _ _ _ _ _).
  - pose proof (object_start_total env (mkObject (rt_namespace t) k) o plan now mode m r gs Hw Hf Hn) as Hx.
    by destruct (object_start_write _ _ _ _ _ _ _).
Qed.

Lemma validated_total {E X} (inject : TenantHandleError → E) t
    (f : ObjectManager A Alloc → res E X * ObjectManager A Alloc) tm :
  handle_known t (tm_registry tm) → (f (tm_object tm)).1 ≠ Panic → (validated inject t f tm).1 ≠ Panic.
Proof.
  intros Hk Hf. unfold validated, validate, validate_binding. destruct (negb _); simpl; [done|].
  destruct (rt_entry t) as [a|] eqn:Ha.
  - destruct (Hk a Ha) as [e ->]. simpl. destruct (negb _); [done|]. by destruct (f _).
  - by destruct (f _).
Qed.

Lemma each_total {X Y} (f : X → ObjectManager A Alloc → Y * ObjectManager A Alloc) (fine : Y → Prop) r gs l :
  (∀ x m, inv (world m r gs) → fine (f x m).1 ∧ object_run cid conf after m (f x m).2 r gs gs) →
  ∀ m, inv (world m r gs) → Forall fine (each f l m).1.
Proof.
  intros Hf. induction l as [|x l IH]; intros m Hw; simpl; [done|].
  destruct (Hf x m Hw) as [H1 H2]. destruct (f x m) as [y m1]. simpl in *.
  specialize (IH m1 (or_inv _ _ _ _ _ _ _ _ H2)). destruct (each f l m1) as [ys m2]. by constructor.
Qed.

Lemma fine_panics {E X} (l : list (res E X)) : Forall (fun z => z ≠ Panic) l → existsb is_panic l = false.
Proof.
  induction 1 as [|z l Hz _ IH]; [done|]. simpl. rewrite IH, orb_false_r. by destruct z.
Qed.

(** ** Batches *)

Lemma units_accounted env i o plan now mode g m n x m' :
  minv cid conf m → units (n + 1) m → start_write_accounted env i o plan now mode g m = (x, m') → units n m'.
Proof.
  intros Hm Hu. unfold start_write_accounted.
  destruct (prepare_write _ _ _ _ _ _ _) as [y m1] eqn:Hp. pose proof (units_prepare _ _ _ _ _ _ _ _ _ _ _ _ Hm Hu Hp) as H1.
  assert (∀ pp e accs z m2, abandon pp g e (with_accounts accs m1) = (z, m2) → units n m2) as Hab.
  { intros pp e accs z m2. unfold abandon. destruct (drop_prepared _ _) as [m3|] eqn:Hd; intros [= _ <-]; [|done].
    exact (units_drop _ _ _ _ Hd H1). }
  destruct y as [pp|e|]; [|by intros [= _ <-]..].
  destruct (actual_charge_bytes pp); [| |by intros [= _ <-]].
  - destruct (guard_resize _ _ _) as [[h|q|] z]; [|apply Hab|by intros [= _ <-]].
    destruct (finalize_start_put _ _ _ _ _) as [w m2] eqn:Hf. intros [= _ <-]. exact (units_finalize _ _ _ _ _ _ _ _ Hf H1).
  - intros Ha. apply (Hab pp (ObjectError e) (accounts (om_catalog m1)) x). rewrite <- Ha.
    f_equal. by destruct m1 as [[] ? ? ? ? ?].
Qed.

Lemma units_started env i o plan now mode m n x m' :
  minv cid conf m → units (n + 1) m → object_start_write env i o plan now mode m = (x, m') → units n m'.
Proof.
  intros Hm Hu. unfold object_start_write, start_write.
  destruct (prepare_write _ _ _ _ _ _ _) as [y m1] eqn:Hp. pose proof (units_prepare _ _ _ _ _ _ _ _ _ _ _ _ Hm Hu Hp) as H1.
  destruct y as [pp|e|]; [|by intros [= _ <-]..].
  destruct (finalize_start_put _ _ _ _ _) as [w m2] eqn:Hf. intros [= _ <-]. exact (units_finalize _ _ _ _ _ _ _ _ Hf H1).
Qed.

(** The items of a batch are done one by one, each with its numbers. *)
Lemma each_units {X E Y} (f : X → ObjectManager A Alloc → res E Y * ObjectManager A Alloc) r gs l :
  (∀ x m n, x ∈ l → inv (world m r gs) → memory_fits m → units (n + 1) m →
     (f x m).1 ≠ Panic ∧ inv (world (f x m).2 r gs) ∧ memory_fits (f x m).2 ∧ units n (f x m).2) →
  ∀ m, inv (world m r gs) → memory_fits m → units (N.of_nat (length l)) m →
  Forall (fun z => z ≠ Panic) (each f l m).1.
Proof.
  induction l as [|x l IH]; intros Hf m Hw Hfit Hu; simpl; [done|].
  destruct (Hf x m (N.of_nat (length l)) ltac:(by left) Hw Hfit) as (H1 & Hw1 & Hf1 & Hu1).
  { eapply units_weaken, Hu. cbn [length]. lia. }
  destruct (f x m) as [y m1]. simpl in *.
  specialize (IH ltac:(intros; apply Hf; [by right|done..]) m1 Hw1 Hf1 Hu1).
  destruct (each f l m1). by constructor.
Qed.

Definition plan_numbered (plan : ObjectPutPlan) : Prop :=
  N.of_nat (replica_count (plan_placement plan)) <= U32_MAX.

Lemma batch_items_total env t a o now mode r gs l : ∀ m,
  inv (world m r (gs ++ map (pair a) (charged l.*2))) → memory_fits m →
  Forall (fun x => plan_numbered (put_plan x.1) ∧ x.2 ≠ Panic) l → units (N.of_nat (length l)) m →
  Forall (fun z => z ≠ Panic) (each (batch_item env t a o now mode None) l m).1.
Proof.
  induction l as [|[q c] l IH]; intros m Hw Hfit Hall Hu; [done|].
  apply Forall_cons in Hall as [[Hp Hc] Hall]. cbn [each].
  destruct (batch_item env t a o now mode None (q, c) m) as [y m1] eqn:Hx.
  unfold batch_item in Hx. cbn [snd fst] in *.
  assert (units (N.of_nat (length l) + 1) m) as Hu' by (eapply units_weaken, Hu; cbn [length]; lia).
  assert (spare 4 (om_catalog m)) as Hsp by (eapply units_spare, Hu'; lia).
  assert (y ≠ Panic ∧ inv (world m1 r (gs ++ map (pair a) (charged l.*2))) ∧ memory_fits m1 ∧
    units (N.of_nat (length l)) m1) as (Hy & Hw1 & Hf1 & Hu1).
  { destruct c as [b|e|]; [| |done].
    - assert ((gs ++ (a, b) :: map (pair a) (charged l.*2)) !! length gs = Some (a, b)) as Hj
        by (by rewrite lookup_app_r, Nat.sub_diag).
      pose proof (accounted_total env (mkObject (rt_namespace t) (put_key q)) o (put_plan q) now mode m r _ _ _ Hw Hfit Hj
        (conj Hp Hsp)) as Hy. rewrite Hx in Hy.
      pose proof (accounted_run cid conf (fun _ => session_after env) env _ _ _ _ _ _ _ _ _ _ _ _ Hw Hfit eq_refl Hj Hx Hy) as Hr.
      change (charged ((q, Ok b) :: l).*2) with (b :: charged l.*2) in Hr. cbn [map] in Hr.
      rewrite delete_middle in Hr. split_and!; [done|apply Hr|by eapply fits_run|].
      eapply units_accounted; [apply (tv_objects _ _ _ Hw)|exact Hu'|exact Hx].
    - injection Hx as <- <-. split_and!; [done..|]. eapply units_weaken, Hu'. lia. }
  specialize (IH m1 Hw1 Hf1 Hall Hu1). destruct (each _ l m1). by constructor.
Qed.

Lemma admission_charge_total plan : admission_charge plan ≠ Panic.
Proof. unfold admission_charge. destruct (_ <=? _); [|done]. simpl. by destruct (checked_mul _ _). Qed.

Lemma panics_none {X E Y} (l : list X) (z : res E Y) : z ≠ Panic → Forall (fun z => z ≠ Panic) (map (fun _ => z) l).
Proof. intros Hz. by induction l; constructor. Qed.

Lemma start_many_total env t o requests now mode tm gs :
  inv (mkTenantWorld tm gs) → memory_fits (tm_object tm) → handle_known t (tm_registry tm) →
  Forall (fun q => plan_numbered (put_plan q)) requests → units (N.of_nat (length requests)) (tm_object tm) →
  Forall (fun z => z ≠ Panic) (start_write_many env t o requests now mode tm).1.
Proof.
  destruct tm as [m r]. intros Hw Hf Hk Hp Hu. unfold start_write_many. cbn [tm_object tm_registry] in *.
  pose proof (validated_total HandleError t (fun m => (Ok tt, m)) (mkTenantManager m r) Hk ltac:(done)) as Hv.
  unfold validated in Hv. cbn [tm_registry] in Hv.
  destruct (validate t r) as [u|e|]; [|by apply panics_none|done]. destruct (rt_entry t) as [a|] eqn:Ha.
  - cbv zeta. set (charges := map _ requests).
    pose proof (reserve_batch_run cid conf after t a charges m r gs Hw (Hk a Ha)) as Hr.
    change (tm_accounts (mkTenantManager m r)) with (accounts (om_catalog m)).
    assert (Forall (fun x => plan_numbered (put_plan x.1) ∧ x.2 ≠ Panic) (zip requests charges)) as Hall.
    { unfold charges. clear -Hp. induction Hp; simpl; constructor; [|done].
      split; [done|apply admission_charge_total]. }
    assert (length (zip requests charges) = length requests) as Hlen
      by (rewrite length_zip; unfold charges; rewrite length_map; lia).
    destruct (reserve_batch _ _ _ _ _) as [[[e|]| |] accs]; [..|done|done].
    + destruct (each _ _ _) as [zs m1] eqn:He. simpl.
      replace zs with (each (batch_item env t a o now mode (Some e)) (zip requests charges) (with_accounts accs m)).1
        by (by rewrite He). clear -Hall. generalize (with_accounts accs m).
      induction Hall as [|[q c] l [_ Hc] _ IH]; intros m0; [done|]. cbn [each]. unfold batch_item at 1. simpl in *.
      destruct c; [..|done]; specialize (IH m0); destruct (each _ l m0); by constructor.
    + pose proof (batch_items_total env t a o now mode r gs (zip requests charges) (with_accounts accs m)) as Hb.
      assert ((zip requests charges).*2 = charges) as Hc
        by (apply snd_zip; unfold charges; by rewrite length_map).
      rewrite Hc, Hlen in Hb. specialize (Hb (or_inv _ _ _ _ _ _ _ _ Hr) ltac:(by eapply fits_run) Hall Hu).
      by destruct (each _ _ _).
  - pose proof (each_units (fun q => object_start_write env (mkObject (rt_namespace t) (put_key q)) o (put_plan q) now mode)
      r gs requests) as He.
    destruct (each _ _ _) as [zs m1] eqn:Hz. simpl. replace zs with (zs, m1).1 by done. rewrite <- Hz. apply He; try done.
    intros q m2 n Hin Hw2 Hf2 Hu2.
    pose proof (object_start_total env (mkObject (rt_namespace t) (put_key q)) o (put_plan q) now mode m2 r gs Hw2 Hf2) as Hy.
    destruct (object_start_write _ _ _ _ _ _ _) as [y m3] eqn:Hx. cbn [fst snd] in *.
    assert (y ≠ Panic) as Hy'.
    { apply Hy. split; [by eapply (proj1 (Forall_forall _ _) Hp)|]. eapply units_spare, Hu2. lia. }
    pose proof (object_start_run cid conf (fun _ => session_after env) env _ _ _ _ _ _ _ _ _ _ Hw2 Hf2 eq_refl Hx Hy') as Hr.
    split_and!; [done|apply Hr|by eapply fits_run|].
    eapply units_started; [apply (tv_objects _ _ _ Hw2)|exact Hu2|exact Hx].
Qed.

Lemma start_batch_total env t o requests now mode tm gs :
  inv (mkTenantWorld tm gs) → memory_fits (tm_object tm) → handle_known t (tm_registry tm) →
  Forall (fun q => plan_numbered (put_plan q)) requests → units (N.of_nat (length requests)) (tm_object tm) →
  Forall (fun z => z ≠ Panic) (start_write_batch env t o requests now mode tm).1.
Proof.
  intros Hw Hf Hk Hp Hu. unfold start_write_batch.
  destruct requests as [|q [|q' l]]; [by eapply start_many_total| |by eapply start_many_total].
  apply Forall_cons in Hp as [Hp _].
  pose proof (start_total env t (put_key q) o (put_plan q) now mode tm gs Hw Hf Hk) as Ht.
  destruct (tenant_start_write _ _ _ _ _ _ _ _) as [y tm1]. constructor; [|done]. apply Ht. split; [done|].
  eapply units_spare, Hu. done.
Qed.

Lemma finish_batch_total t ks o s now tm gs :
  inv (mkTenantWorld tm gs) → memory_fits (tm_object tm) → handle_known t (tm_registry tm) →
  units (N.of_nat (length ks)) (tm_object tm) → is_Some (all_answered (finish_put_batch_at t ks o s now tm)).
Proof.
  intros Hw Hf Hk Hu. unfold finish_put_batch_at, map_validated_keys, all_answered, validated.
  pose proof (validated_total HandleError t (fun m => (Ok tt, m)) tm Hk ltac:(done)) as Hv. unfold validated in Hv.
  destruct (validate _ _) as [u|e|]; [|done|done].
  pose proof (each_units (fun k => finish_put (mkObject (rt_namespace t) k) o s now) (tm_registry tm) gs ks) as He.
  destruct (each _ _ _) as [zs m1] eqn:Hz. cbn [fst]. assert (zs = (each (fun k => finish_put (mkObject (rt_namespace t) k) o s now) ks (tm_object tm)).1) as -> by (by rewrite Hz).
  rewrite fine_panics; [done|]. apply He; [|by destruct tm|done..].
  intros k m n _ Hwm Hfm Hum.
  pose proof (simple_total (finish_put (mkObject (rt_namespace t) k) o s now)
      (MFinish (mkObject (rt_namespace t) k) o s now) m (tm_registry tm) gs Hwm I
      (fun _ => conj I (units_spare _ _ (N.le_add_l 1 n) Hum)) eq_refl) as Hx.
  destruct (finish_put _ _ _ _ _) as [y m2] eqn:Hfp. cbn [fst snd] in *.
  pose proof (finish_run cid conf after _ _ _ _ m (tm_registry tm) gs _ _ Hwm Hfp Hx) as Hr.
  split_and!; [done|apply Hr|by eapply fits_run|by eapply units_finish].
Qed.

(** The numbers a call needs. *)
Definition call_numbered (c : tenant_call) m : Prop :=
  match c with
  | CStart _ _ _ _ plan _ _ => put_numbered plan m
  | CFinish _ _ _ _ _ => spare 4 (om_catalog m)
  | CStartBatch _ _ _ qs _ _ => Forall (fun q => plan_numbered (put_plan q)) qs ∧ units (N.of_nat (length qs)) m
  | CFinishBatch _ ks _ _ _ => units (N.of_nat (length ks)) m
  | _ => True
  end.

Lemma get_answers i now m r gs : inv (world m r gs) → (om_get i now m).1 ≠ Panic.
Proof.
  intros Hw. unfold om_get.
  pose proof (get_total (live_in (om_pool m)) i now _ (minv_inv _ _ _ (tv_objects _ _ _ Hw))) as Ht.
  by destruct (get _ _ _ _).
Qed.

Lemma keys_total {E X} t ks
    (f : ObjectIdentity → ObjectManager A Alloc → res E X * ObjectManager A Alloc) tm gs :
  inv (mkTenantWorld tm gs) → handle_known t (tm_registry tm) →
  (∀ i m, inv (world m (tm_registry tm) gs) → (f i m).1 ≠ Panic) →
  (∀ i m y m', inv (world m (tm_registry tm) gs) → f i m = (y, m') → y ≠ Panic →
     object_run cid conf after m m' (tm_registry tm) gs gs) →
  is_Some (all_answered (map_validated_keys t ks f tm)).
Proof.
  intros Hw Hk Ht Hr. unfold all_answered, map_validated_keys.
  pose proof (validated_total HandleError t (fun m => let '(ys, m') := each (fun k => f (mkObject (rt_namespace t) k)) ks m in
    (Ok ys, m')) tm Hk) as Hv.
  assert (∀ l tm', validated HandleError t (fun m => let '(ys, m') := each (fun k => f (mkObject (rt_namespace t) k)) ks m
    in (Ok ys, m')) tm = (Ok l, tm') → existsb is_panic l = false) as Hl.
  { intros l tm' He. apply fine_panics. unfold validated in He.
    pose proof (each_total (fun k => f (mkObject (rt_namespace t) k)) (fun z => z ≠ Panic) (tm_registry tm) gs ks) as Hall.
    destruct (validate _ _); [|done|done]. specialize (Hall ltac:(intros x m Hwm; split; [by apply Ht|];
      eapply Hr; [exact Hwm|apply surjective_pairing|by apply Ht]) (tm_object tm) ltac:(by destruct tm)).
    destruct (each _ _ _) as [ys m']. by injection He as -> _. }
  destruct (validated _ _ _ tm) as [[l|e|] tm'] eqn:He; simpl in *; [by rewrite (Hl l tm')|done|].
  destruct Hv; [|done]. by destruct (each _ _ _).
Qed.

Lemma answered_total {E X} (x : res E X * TenantObjectManager A Alloc) : x.1 ≠ Panic → is_Some (answered x).
Proof. unfold answered. destruct x as [[] ?]; by eauto. Qed.

Lemma revoke_total i o s now m r gs : inv (world m r gs) → (revoke_put i o s now m).1 ≠ Panic.
Proof. intros Hw. by apply (simple_total (revoke_put i o s now) (MRevoke i o s now) m r gs). Qed.

Lemma tenant_remove_total i now force m r gs : inv (world m r gs) → (om_remove i now force m).1 ≠ Panic.
Proof. intros Hw. by apply (simple_total (om_remove i now force) (MRemove i now force) m r gs). Qed.

Lemma admin_total tm gs id policy :
  inv (mkTenantWorld tm gs) → (upsert_tenant id policy tm).1 ≠ Panic ∧ (tm_delete_tenant id tm).1 ≠ Panic.
Proof.
  intros Hw. split; [unfold upsert_tenant|unfold tm_delete_tenant].
  - pose proof (upsert_ok id policy (outstanding (tm_object tm)) (om_pool (tm_object tm)) _ _
      (tv_tenants _ _ _ Hw) (tv_settled _ _ _ Hw)) as Hu.
    cbn [tw_manager] in Hu. by destruct (upsert _ _ _ _ _ _) as [[] ?].
  - pose proof (delete_ok id (outstanding (tm_object tm)) (om_pool (tm_object tm)) _ _
      (tv_tenants _ _ _ Hw) (tv_settled _ _ _ Hw)) as Hu.
    cbn [tw_manager] in Hu. by destruct (delete_tenant _ _ _ _ _) as [[] ?].
Qed.

Lemma maintenance_total busy now budget tm gs :
  inv (mkTenantWorld tm gs) → is_Some (snd <$> tenant_maintenance busy now budget tm).
Proof.
  intros Hw. unfold tenant_maintenance.
  destruct (refresh_capacity _ _ _ _) as [r1 accs1]. destruct (reclaim_targets r1 accs1) as [targets r2].
  destruct (maintenance_path (pool_frame (om_pool (tm_object tm))) now cid conf busy budget targets
    (with_accounts accs1 (tm_object tm))) as (rep & m' & -> & _); [|done|by eauto].
  apply minv_accounts, Hw.
Qed.

Lemma call_total c tm gs :
  inv (mkTenantWorld tm gs) → memory_fits (tm_object tm) →
  (∀ t, call_handle c = Some t → handle_known t (tm_registry tm)) → call_numbered c (tm_object tm) →
  is_Some (run_call c tm).
Proof.
  intros Hw Hf Hk Hn.
  assert (inv (world (tm_object tm) (tm_registry tm) gs)) as Hw' by (by destruct tm).
  destruct c; cbn [run_call call_handle call_numbered] in *; try done; try (specialize (Hk _ eq_refl)).
  - by eapply answered_total, start_total.
  - destruct Hn as [Hp Hu]. pose proof (start_batch_total env t o requests now mode tm gs Hw Hf Hk Hp Hu) as Hl.
    destruct (start_write_batch _ _ _ _ _ _ _) as [l tm']. by rewrite fine_panics.
  - apply answered_total, validated_total; [done|].
    pose proof (simple_total (finish_put (mkObject (rt_namespace t) k) o s now)
      (MFinish (mkObject (rt_namespace t) k) o s now) _ _ _ Hw' I (fun _ => conj I Hn) eq_refl) as Hx.
    by destruct (finish_put _ _ _ _ _) as [[] ?].
  - apply answered_total, validated_total; [done|].
    pose proof (revoke_total (mkObject (rt_namespace t) k) o s now _ _ _ Hw') as Hx.
    by destruct (revoke_put _ _ _ _ _) as [[] ?].
  - apply answered_total, validated_total; [done|].
    pose proof (get_answers (mkObject (rt_namespace t) k) now _ _ _ Hw') as Hx. by destruct (om_get _ _ _) as [[] ?].
  - apply answered_total, validated_total; [done|]. by destruct (om_exists _ _ _).
  - apply answered_total, validated_total; [done|].
    pose proof (tenant_remove_total (mkObject (rt_namespace t) k) now force _ _ _ Hw') as Hx.
    by destruct (om_remove _ _ _ _) as [[] ?].
  - apply answered_total, validated_total; [done|]. by destruct (remove_matching _ _ _ _ _).
  - by eapply finish_batch_total.
  - eapply (keys_total t ks _ tm gs); [done|done|intros; by eapply revoke_total|].
    intros i m y m' Hwm He Hy. by eapply revoke_run.
  - eapply (keys_total t ks _ tm gs); [done|done|intros; by eapply get_answers|].
    intros i m y m' Hwm He Hy. by eapply get_run.
  - apply answered_total, validated_total; [done|]. by destruct (each _ _ _).
  - eapply (keys_total t ks _ tm gs); [done|done|intros; by eapply tenant_remove_total|].
    intros i m y m' Hwm He Hy. by eapply remove_run.
  - by eapply maintenance_total.
  - by eapply answered_total, admin_total.
  - eapply answered_total. by apply (admin_total tm gs id (mkPolicy 0)).
Qed.
End Answers.
