(* ===== verification/TenantProps.v ===== *)
(** * What the tenants can rely on

    Exact accounts, shares within the capacity, deletion only of tenants that
    use nothing, handles that stay invalid once their tenant was deleted, and
    the calls of the tenant object manager as runs of the world these hold in. *)
From stdpp Require Import relations.
From S2P Require Import Prelude Identity Segment ByteAllocator SegmentPool Placement TenantQuota Replica ObjectTypes.
From S2P Require Import TenantRegistry TenantSteps CatalogState CatalogBooks CatalogWrite CatalogCollector CatalogInv CatalogOps.
From S2P Require Import CatalogWorld CatalogCharges CatalogProps CatalogResources Eviction ObjectManager ManagerWorld ManagerProps TenantManager TenantWorld TenantInv TenantCalls ManagerNumbers TenantAnswers.

Section Reachable.
Context {A Alloc : Type} `{L : UpstreamLaws A Alloc}.
Implicit Types (w : TenantWorld A Alloc) (tm : TenantObjectManager A Alloc).

(** ** The first state *)

Lemma add_policies_effective l : ∀ r accs r' accs',
  (∀ a x, accs !! a = Some x → effective x = 0) → add_policies l r accs = Ok (r', accs') →
  ∀ a x, accs' !! a = Some x → effective x = 0.
Proof.
  induction l as [|[id policy] l IH]; intros r accs r' accs' H0; simpl; [by intros [= _ <-]|].
  destruct (directory r !! id); [done|]. destruct (checked_add _ _) as [next|]; [|done]. simpl.
  apply IH. intros a x. rewrite lookup_insert. case_decide; [by intros [= <-]|]. apply H0.
Qed.

Lemma registry_new_ok mid config rs (p : Pool A) r accs :
  registry_new mid config rs p = Ok (r, accs) →
  tenants_inv r accs ∧ settled r ∧ usage_kept ∅ accs ∧ ∃ c, limits c r accs.
Proof.
  unfold registry_new. set (start := match config with Single => _ | Multi _ => _ end).
  assert (start.2 ≠ [] → start.1 = false) as Hs by (unfold start; by destruct config).
  destruct start as [one policies]. set (r0 := mkTenants mid one ∅ ∅ 1 U64_MAX 0).
  assert (tenants_inv r0 ∅) as Hi0.
  { split; try done. intros a [x Hx]. by rewrite lookup_empty in Hx. }
  pose proof (add_policies_ok policies r0 ∅ Hi0 ltac:(done) Hs) as Ha.
  pose proof (add_policies_effective policies r0 ∅) as He.
  destruct (add_policies policies r0 ∅) as [[r1 accs1]|e|]; [|done|done]. simpl. intros [= Hr].
  destruct Ha as (Hi & Hset & Hu). specialize (He r1 accs1 ltac:(done) eq_refl).
  pose proof (refresh_ok rs p r1 accs1 Hi) as Hf. rewrite Hr in Hf. destruct Hf as (Hi' & Hsame & Hk & Hl).
  split_and!; [done| |by eapply usage_ledger|].
  - intros a e. rewrite (sn_entries _ _ Hsame). apply Hset.
  - destruct Hl as [[-> ->]|Hl]; [|by eexists]. exists 0.
    assert (∀ a, effective (account_at accs1 a) = 0) as Hz.
    { intros a. unfold account_at. destruct (accs1 !! a) eqn:Hx; simpl; [by eapply He|done]. }
    split; [|intros a _; rewrite Hz; lia]. rewrite N.min_0_r. apply sum_by_zero. auto.
Qed.

Lemma tenant_new_inv cid mid pid nodes conf eviction tenants tm :
  pool_config_valid nodes = true → (∀ c, eviction = Some c → configured c) →
  tenant_manager_new cid mid conf eviction tenants (pool_new pid nodes) = Ok tm →
  tenant_inv cid conf (mkTenantWorld tm []).
Proof.
  intros Hn Hc. unfold tenant_manager_new.
  destruct (om_new cid conf eviction (pool_new pid nodes)) as [m|e|] eqn:Hm; [|done|done]. simpl.
  destruct (registry_new mid tenants _ _) as [[r accs]|e|] eqn:Hr; [|done|done]. simpl. intros [= <-].
  destruct (registry_new_ok _ _ _ _ _ _ Hr) as (Hi & Hs & Hu & Hl).
  pose proof (manager_new_inv cid conf pid nodes eviction m Hn Hc Hm) as Hmi.
  assert (versions (om_catalog m) = ∅) as Hv.
  { unfold om_new, with_config in Hm. destruct (config_validate conf); [|done|done]. simpl in Hm. by injection Hm as <-. }
  split; try done; simpl; [by apply minv_accounts| |intros g Hg; set_solver].
  unfold books. simpl. rewrite Hv, fmap_empty. split; simpl.
  - intros v c n k Hvc. by rewrite lookup_empty in Hvc.
  - intros a x Hx. specialize (Hu a). rewrite lookup_empty in Hu. specialize (Hu x Hx). unfold usage in Hu.
    injection Hu as Hd Hus Hre. split; simpl; rewrite ?msum_empty, ?Hd; done.
Qed.

Lemma tenant_reachable_inv cid mid pid nodes conf eviction tenants w :
  tenant_reachable cid mid pid nodes conf eviction tenants w → tenant_inv cid conf w.
Proof.
  induction 1 as [tm Hn Hc Hm|op w w' _ IH Henv Hs]; [by eapply tenant_new_inv|by eapply tenant_step_inv].
Qed.

Lemma tenant_reachable_run cid mid pid nodes conf eviction tenants w w' :
  tenant_reachable cid mid pid nodes conf eviction tenants w → rtc tstep w w' →
  tenant_reachable cid mid pid nodes conf eviction tenants w'.
Proof.
  intros Hr Hs. revert Hr. induction Hs as [|w w1 w' (op & Henv & Hst) _ IH]; intros Hr; [done|].
  apply IH. by eapply treach_step.
Qed.

(** ** Versions along a run *)

Lemma tenant_step_grows cid conf op w w' :
  tenant_inv cid conf w → tenant_step op w = Some w' →
  grows (tm_registry (tw_manager w)) (tm_registry (tw_manager w')).
Proof.
  intros Hw Hs. pose proof (same_grows _ _ (same_refl (tm_registry (tw_manager w)))) as Hrefl.
  destruct op as [op|a bytes v|k parts|k bytes|k|k j b1 b2| | |id policy|id]; cbn [tenant_step] in Hs.
  - destruct (object_only op); [|by injection Hs as <-].
    destruct (manager_step op _) as [m'|]; [|done]. simpl in Hs. by injection Hs as <-.
  - destruct (reserve_checked _ _ _ _ _) as [[] ?]; try done; by injection Hs as <-.
  - destruct (tw_guards w !! k) as [[a b]|]; [|by injection Hs as <-]. destruct (_ =? _); by injection Hs as <-.
  - destruct (tw_guards w !! k) as [[a b]|]; [|by injection Hs as <-].
    destruct (guard_resize _ _ _) as [[] ?]; try done; by injection Hs as <-.
  - destruct (tw_guards w !! k) as [[a b]|]; by injection Hs as <-.
  - destruct (om_prepared _ !! k); [|by injection Hs as <-]. destruct (tw_guards w !! j); [|by injection Hs as <-].
    destruct (actual_charge_bytes _); [|by injection Hs as <-..]. destruct (_ =? _); [|by injection Hs as <-].
    destruct (manager_step _ _) as [m'|]; [|done]. simpl in Hs. by injection Hs as <-.
  - injection Hs as <-. apply same_grows.
    pose proof (refresh_ok (outstanding (tm_object (tw_manager w))) (om_pool (tm_object (tw_manager w)))
      _ _ (tv_tenants _ _ _ Hw)) as Hr. destruct (refresh_capacity _ _ _ _). apply Hr.
  - injection Hs as <-. apply same_grows, targets_ok.
  - unfold upsert_tenant in Hs. pose proof (upsert_ok id policy (outstanding (tm_object (tw_manager w)))
      (om_pool (tm_object (tw_manager w))) _ _ (tv_tenants _ _ _ Hw) (tv_settled _ _ _ Hw)) as Hu.
    destruct (upsert _ _ _ _ _ _) as [[t|e|] [r accs]]; [| |done]; injection Hs as <-; [apply Hu|].
    by injection Hu as -> ->.
  - unfold tm_delete_tenant in Hs. pose proof (delete_ok id (outstanding (tm_object (tw_manager w)))
      (om_pool (tm_object (tw_manager w))) _ _ (tv_tenants _ _ _ Hw) (tv_settled _ _ _ Hw)) as Hu.
    destruct (delete_tenant _ _ _ _ _) as [[t|e|] [r accs]]; [| |done]; injection Hs as <-; [apply Hu|].
    by injection Hu as -> ->.
Qed.

Lemma run_grows cid conf w w' :
  tenant_inv cid conf w → rtc tstep w w' → grows (tm_registry (tw_manager w)) (tm_registry (tw_manager w')).
Proof.
  intros Hw Hr. revert Hw. induction Hr as [|w w1 w' (op & Henv & Hs) _ IH]; intros Hw.
  { apply same_grows, same_refl. }
  eapply grows_trans; [by eapply tenant_step_grows|]. by apply IH, (tenant_step_inv cid conf op w).
Qed.

(** A handle whose version has passed. *)
Definition outdated (t : ResolvedTenant) (r : TenantRegistry) : Prop :=
  ∃ a e, rt_entry t = Some a ∧ tenant_entries r !! a = Some e ∧ rt_version t < te_version e.

Lemma outdated_grows t r r' : grows r r' → outdated t r → outdated t r'.
Proof.
  intros Hg (a & e & Ha & He & Hv). destruct (gr_entries _ _ Hg a e He) as (e' & He' & _ & Hle).
  exists a, e'. split_and!; [done..|lia].
Qed.

Lemma outdated_refused t r accs bytes :
  outdated t r → validate t r = Err InvalidTenantHandle ∧
  ∀ a, rt_entry t = Some a → ∃ e accs', reserve_checked a bytes (rt_version t) r accs = (Err e, accs').
Proof.
  intros (a & e & Ha & He & Hv). split.
  - unfold validate, validate_binding. destruct (negb _); simpl; [done|]. rewrite Ha, He. simpl.
    by rewrite (proj2 (N.eqb_neq _ _)) by lia.
  - intros b Hb. assert (b = a) as -> by congruence. unfold reserve_checked. rewrite He.
    rewrite (proj2 (N.eqb_neq _ _)) by lia. pose proof (reserve_demand_spec bytes (account_at accs a)) as Hs.
    destruct (reserve_demand _ _) as [[u|q|] x]; [eauto|eauto|done].
Qed.

(** ** Claims *)

(** What the versions charged to the account [a] owe, by the phase of their
    charge. *)
Definition charged_to (a : N) (f : ChargePhase * N → N) (st : Catalog (Reservation Alloc)) : N :=
  msum (fun _ ver => match v_accounting ver with
                     | Some c => if decide (charge_entry c = a) then f (charge_phase c, cost ver) else 0
                     | None => 0
                     end) (versions st).

Lemma owed_versions a f (st : Catalog (Reservation Alloc)) :
  msum (owes f a) (b_items (books st)) = charged_to a f st.
Proof.
  unfold charged_to, msum. cbn. rewrite map_to_list_fmap. change (prod_map id item <$> ?l) with (map (prod_map id item) l).
  rewrite sum_by_map. done.
Qed.

(** C5: the accounts are exact.  In every state the calls can reach, in any
    interleaving, the demand of a tenant's account is the bytes of the admission
    guards held on it and the cost of the versions charged to it, its used bytes
    are the cost of the published and retiring ones, and its retiring bytes that
    of the retiring ones.  The phase of a charge follows its version: reserved
    while the version is pending, committed while it is published, and retiring
    or released once it is retired. *)
Theorem tenant_accounts_exact cid mid pid nodes conf eviction tenants w a x :
  tenant_reachable cid mid pid nodes conf eviction tenants w →
  tm_accounts (tw_manager w) !! a = Some x →
  let st := om_catalog (tm_object (tw_manager w)) in
  demand x = guarded (tw_guards w) a + charged_to a charge_demand st ∧
  used x = charged_to a charge_used st ∧ retiring x = charged_to a charge_retiring st ∧
  demand x <= U64_MAX ∧
  ∀ v ver c, versions st !! v = Some ver → v_accounting ver = Some c →
    is_Some (tm_accounts (tw_manager w) !! charge_entry c) ∧
    (v ∉ retired_addrs st → v_committed ver = None → charge_phase c = ChargeReserved) ∧
    (v ∉ retired_addrs st → is_Some (v_committed ver) → charge_phase c = ChargeCommitted) ∧
    (v ∈ retired_addrs st → charge_phase c = ChargeRetiring ∨ charge_phase c = ChargeReleased).
Proof.
  intros Hw%tenant_reachable_inv Hx st. pose proof (tv_balanced _ _ _ Hw) as [Hch Hac]. fold st in Hch, Hac.
  destruct (Hac a x Hx) as [Hd Hu Hr Hm]. rewrite owed_versions in Hd, Hu, Hr. split_and!; [done..|].
  intros v ver c Hv Hc. pose proof (books_item st v ver Hv) as Hi. unfold item in Hi. rewrite Hc in Hi.
  destruct (Hch v c _ _ Hi) as [Hs Hp]. split; [done|].
  rewrite (bool_decide_ext _ _ (books_retired st v)) in Hp. unfold phase_fits in Hp.
  split_and!; [intros Hn Hk|intros Hn Hk|intros Hn].
  - by rewrite (bool_decide_false _ Hn), Hk in Hp.
  - rewrite (bool_decide_false _ Hn), (bool_decide_true _ Hk) in Hp. done.
  - by rewrite (bool_decide_true _ Hn) in Hp.
Qed.

(** What a deletion finds and leaves. *)
Lemma delete_facts cid conf w id tm :
  tenant_inv cid conf w → tm_delete_tenant id (tw_manager w) = (Ok tt, tm) →
  ∃ a e, directory (tm_registry (tw_manager w)) !! id = Some a ∧
    tenant_entries (tm_registry (tw_manager w)) !! a = Some e ∧
    (guarded (tw_guards w) a = 0 ∧ charged_to a charge_demand (om_catalog (tm_object (tw_manager w))) = 0) ∧
    tenant_inv cid conf (mkTenantWorld tm (tw_guards w)) ∧
    ∃ e', tenant_entries (tm_registry tm) !! a = Some e' ∧ te_version e < te_version e'.
Proof.
  intros Hw Hdel.
  assert (tenant_step (TDelete id) w = Some (mkTenantWorld tm (tw_guards w))) as Hstep
    by (cbn [tenant_step]; by rewrite Hdel).
  pose proof (tenant_step_inv cid conf (TDelete id) w Hw I _ Hstep) as Hw1. unfold tm_delete_tenant in Hdel.
  pose proof (delete_ok id (outstanding (tm_object (tw_manager w))) (om_pool (tm_object (tw_manager w)))
    _ _ (tv_tenants _ _ _ Hw) (tv_settled _ _ _ Hw)) as Hd.
  destruct (delete_tenant _ _ _ _ _) as [[u|e|] [r accs]]; [|done|done]. injection Hdel as _ <-.
  destruct Hd as (_ & _ & Hg & _ & _ & (a & e & Hdir & He & Hdem & _ & Hv) & _).
  exists a, e. split; [done|]. split; [done|]. split; [|split; [done|]].
  - destruct (ti_entry _ _ (tv_tenants _ _ _ Hw) a e He) as (_ & [x Hx] & _).
    destruct (bl_account _ _ (tv_balanced _ _ _ Hw) a x Hx) as [Hd _ _ _]. rewrite owed_versions in Hd.
    unfold account_at in Hdem. rewrite Hx in Hdem. simpl in Hdem. lia.
  - destruct (gr_entries _ _ Hg a e He) as (e' & He' & _). eauto.
Qed.

(** A handle that was resolved before is of the entry of its tenant. *)
Lemma resolved_before cid conf w0 w id t a e :
  tenant_inv cid conf w0 → rtc tstep w0 w → resolve id (tm_registry (tw_manager w0)) = Ok t →
  directory (tm_registry (tw_manager w)) !! id = Some a →
  tenant_entries (tm_registry (tw_manager w)) !! a = Some e →
  rt_entry t = Some a ∧ rt_version t <= te_version e.
Proof.
  intros Hw0 Hr Hres Hdir He. pose proof (run_inv cid conf _ _ Hw0 Hr) as Hw.
  pose proof (run_grows cid conf w0 w Hw0 Hr) as Hg. unfold resolve in Hres.
  destruct (single (tm_registry (tw_manager w0))) eqn:Hsg.
  { rewrite <- (gr_single _ _ Hg) in Hsg.
    by rewrite (ti_single _ _ (tv_tenants _ _ _ Hw) Hsg), lookup_empty in Hdir. }
  destruct (directory _ !! id) as [b|] eqn:Hb in Hres; [|done]. simpl in Hres.
  destruct (ti_listed _ _ (tv_tenants _ _ _ Hw0) id b Hb) as (g & s & Hb0 & _). rewrite Hb0 in Hres. simpl in Hres.
  destruct (negb _); [done|]. injection Hres as <-. simpl.
  destruct (gr_entries _ _ Hg b _ Hb0) as (e1 & He1 & Hid & Hle). simpl in Hid, Hle.
  destruct (ti_entry _ _ (tv_tenants _ _ _ Hw) b e1 He1) as (Hd1 & _). rewrite Hid, Hdir in Hd1.
  injection Hd1 as ->. rewrite He in He1. injection He1 as ->. done.
Qed.

(** C14: only a tenant that uses nothing is deleted, and its handles are dead.
    When a tenant is deleted no admission guard holds bytes of its account and no
    version owes it any, whatever calls are under way.  From then on, in every
    later state and also when a tenant is registered under the same id again,
    the handles that were issued before are refused: they do not validate, and
    no put is admitted with them. *)
Theorem deleted_tenant_fenced cid mid pid nodes conf eviction tenants w0 w id tm t :
  tenant_reachable cid mid pid nodes conf eviction tenants w0 →
  resolve id (tm_registry (tw_manager w0)) = Ok t → rtc tstep w0 w →
  tm_delete_tenant id (tw_manager w) = (Ok tt, tm) →
  (∀ a, rt_entry t = Some a → guarded (tw_guards w) a = 0 ∧
     charged_to a charge_demand (om_catalog (tm_object (tw_manager w))) = 0) ∧
  ∀ w', rtc tstep (mkTenantWorld tm (tw_guards w)) w' →
    validate t (tm_registry (tw_manager w')) = Err InvalidTenantHandle ∧
    ∀ a bytes, rt_entry t = Some a →
      ∃ e accs, reserve_checked a bytes (rt_version t) (tm_registry (tw_manager w'))
                  (tm_accounts (tw_manager w')) = (Err e, accs).
Proof.
  intros Hw0%tenant_reachable_inv Hres Hrun Hdel. pose proof (run_inv cid conf _ _ Hw0 Hrun) as Hw.
  destruct (delete_facts cid conf w id tm Hw Hdel) as (a & e & Hdir & He & Huse & Hw1 & Hnew).
  assert (rt_entry t = Some a ∧ rt_version t <= te_version e) as [Ha Hver]
    by (by eapply (resolved_before cid conf w0 w)).
  split; [intros b Hb; assert (b = a) as -> by congruence; exact Huse|]. intros w' Hr.
  assert (outdated t (tm_registry (tw_manager w'))) as Ho.
  { eapply outdated_grows; [by eapply run_grows|]. destruct Hnew as (e' & He' & Hv').
    exists a, e'. split_and!; [done..|lia]. }
  split; [by apply (outdated_refused t _ ∅ 0)|]. intros b bytes Hb. by apply outdated_refused.
Qed.

(** C20: the shares fit the capacity.  In every reachable state no tenant's limit
    is above what it asked for, and together the limits are what the tenants ask
    for or, when that is more, the capacity they were computed for.  After a
    tenant is registered, changed or deleted that is the capacity of the
    accepting segments as they are; a registered tenant resolves to the handle
    that was returned, a deleted one no longer resolves. *)
Theorem tenant_shares_fit cid mid pid nodes conf eviction tenants w id policy :
  tenant_reachable cid mid pid nodes conf eviction tenants w →
  let m := tm_object (tw_manager w) in
  (∃ capacity, limits capacity (tm_registry (tw_manager w)) (tm_accounts (tw_manager w))) ∧
  (∀ t tm, upsert_tenant id policy (tw_manager w) = (Ok t, tm) →
     limits (capacity_for (outstanding m) (om_pool m)) (tm_registry tm) (tm_accounts tm) ∧
     resolve id (tm_registry tm) = Ok t ∧
     ∀ a, rt_entry t = Some a → requested (account_at (tm_accounts tm) a) = policy_memory_bytes policy) ∧
  (∀ tm, tm_delete_tenant id (tw_manager w) = (Ok tt, tm) →
     limits (capacity_for (outstanding m) (om_pool m)) (tm_registry tm) (tm_accounts tm) ∧
     resolve id (tm_registry tm) = Err TenantNotRegistered).
Proof.
  intros Hw%tenant_reachable_inv m. split; [apply Hw|]. split.
  - intros t tm Hu. unfold upsert_tenant in Hu.
    pose proof (upsert_ok id policy (outstanding m) (om_pool m) _ _ (tv_tenants _ _ _ Hw) (tv_settled _ _ _ Hw)) as Ho.
    fold m in Hu. destruct (upsert _ _ _ _ _ _) as [x [r accs]]. injection Hu as -> <-.
    by destruct Ho as (_ & _ & _ & Hres & _ & Hl & Hq & _).
  - intros tm Hu. unfold tm_delete_tenant in Hu.
    pose proof (delete_ok id (outstanding m) (om_pool m) _ _ (tv_tenants _ _ _ Hw) (tv_settled _ _ _ Hw)) as Ho.
    fold m in Hu. destruct (delete_tenant _ _ _ _ _) as [x [r accs]]. injection Hu as -> <-.
    by destruct Ho as (_ & _ & _ & Hl & Hres & _).
Qed.

(** C10: the tenant object manager implements its world.  Every call, puts and
    batches with their admission included, that is made on a reachable state
    takes it to another reachable state by a sequence of the world's steps, at
    the end of which it holds no admission guard; and it answers, without a panic,
    while the catalog has slot numbers left for it.  The handle of the call is one
    of this registry, and [memory_fits]: the sizes of the mounted segments, plus
    the bytes that objects still hold of segments no longer mounted, sum to at
    most [u64::MAX]. *)
Theorem tenant_calls_refine cid mid pid nodes conf eviction tenants w c :
  tenant_reachable cid mid pid nodes conf eviction tenants w →
  memory_fits (tm_object (tw_manager w)) →
  (∀ t, call_handle c = Some t → handle_known t (tm_registry (tw_manager w))) →
  (∀ tm, run_call c (tw_manager w) = Some tm →
     rtc tstep w (mkTenantWorld tm (tw_guards w)) ∧
     tenant_reachable cid mid pid nodes conf eviction tenants (mkTenantWorld tm (tw_guards w))) ∧
  (call_numbered c (tm_object (tw_manager w)) → is_Some (run_call c (tw_manager w))).
Proof.
  intros Hr Hf Hk. pose proof (tenant_reachable_inv _ _ _ _ _ _ _ _ Hr) as Hw. destruct w as [tm0 gs]. split.
  - intros tm Hc. pose (b := match c with
      CStart env _ _ _ _ _ _ | CStartBatch env _ _ _ _ _ => session_after env | _ => true end).
    assert (rtc tstep (mkTenantWorld tm0 gs) (mkTenantWorld tm gs)) as Hs.
    { apply (step_under_tstep (fun _ => b)), (call_steps cid conf (fun _ => b) c tm0 gs tm); try done. by destruct c. }
    split; [exact Hs|]. by eapply tenant_reachable_run.
  - by apply (call_total cid conf (fun _ => true) c tm0 gs).
Qed.
End Reachable.

(** ** A run *)

Section Example.
Local Abbreviation TM := (TenantObjectManager Bump.bump (N * N)).
Local Abbreviation TW := (TenantWorld Bump.bump (N * N)).

Definition example_tenants : TenantConfig := Multi [("acme"%string, mkPolicy 512)].

Definition empty_tenants : TW :=
  mkTenantWorld
    (match tenant_manager_new 7 3 example_config (Some example_eviction) example_tenants (pool_new 1 8) with
     | Ok tm => tm
     | _ => mkTenantManager empty_manager (mkTenants 0 true ∅ ∅ 1 0 0)
     end) [].

Definition tstep_or (op : tenant_op) (w : TW) : TW := default w (tenant_step op w).

Definition attached_tenants : TW :=
  tstep_or TRefresh
    (tstep_or (TObject (MSegment (PAttach (example_spec 2 8192))))
      (tstep_or (TObject (MSegment (PAttach (example_spec 1 4096)))) empty_tenants)).
Definition admitted_tenants : TW := tstep_or (TReserve 1 128 4) attached_tenants.
Definition prepared_tenants : TW := tstep_or (TObject example_prepare) admitted_tenants.
Definition staged_tenants : TW := tstep_or (TFinalize 0 0 true true) prepared_tenants.
Definition busy_tenants : TW := tstep_or (TReserve 1 64 4) staged_tenants.

Local Abbreviation treach := (tenant_reachable 7 3 1 8 example_config (Some example_eviction) example_tenants).

Lemma tstep_or_reach op w :
  treach w → tenant_env op w → bool_decide (is_Some (tenant_step op w)) = true → treach (tstep_or op w).
Proof.
  intros Hm He Hs%bool_decide_eq_true. unfold tstep_or.
  destruct (tenant_step op w) as [w'|] eqn:Heq; [|by destruct Hs]. by eapply treach_step.
Qed.

Lemma attached_tenants_reach : treach attached_tenants.
Proof.
  apply tstep_or_reach; [|done|vm_compute; reflexivity].
  do 2 (apply tstep_or_reach; [|done|vm_compute; reflexivity]).
  apply treach_new; [done| |vm_compute; reflexivity]. intros c [= <-]. apply example_configured.
Qed.

Lemma busy_tenants_reach : treach busy_tenants.
Proof.
  apply tstep_or_reach; [|by eexists; vm_compute; reflexivity|vm_compute; reflexivity].
  apply tstep_or_reach; [|by vm_compute|vm_compute; reflexivity].
  apply tstep_or_reach; [|done|vm_compute; reflexivity].
  apply tstep_or_reach; [apply attached_tenants_reach|by eexists; vm_compute; reflexivity|vm_compute; reflexivity].
Qed.

Definition acme_handle : ResolvedTenant := mkResolved 3 1 4 (Some 1).

Definition acme_account : QuotaAccount := account_at (tm_accounts (tw_manager busy_tenants)) 1.
End Example.

Lemma tenant_accounts_exact_witness :
  demand acme_account = 192 ∧ guarded (tw_guards busy_tenants) 1 = 64 ∧
  charged_to 1 charge_demand (om_catalog (tm_object (tw_manager busy_tenants))) = 128.
Proof.
  destruct (tenant_accounts_exact 7 3 1 8 example_config (Some example_eviction) example_tenants busy_tenants 1
    acme_account) as (Hd & _); [apply busy_tenants_reach|vm_compute; reflexivity|].
  assert (guarded (tw_guards busy_tenants) 1 = 64) as Hg by (vm_compute; reflexivity).
  assert (charged_to 1 charge_demand (om_catalog (tm_object (tw_manager busy_tenants))) = 128) as Hc
    by (vm_compute; reflexivity).
  split; [|exact (conj Hg Hc)]. rewrite Hd, Hg, Hc. reflexivity.
Defined.

Definition deleted_tenants : TenantObjectManager Bump.bump (N * N) :=
  (tm_delete_tenant "acme" (tw_manager attached_tenants)).2.

Definition renewed_tenants : TenantWorld Bump.bump (N * N) :=
  tstep_or (TUpsert "acme" (mkPolicy 256)) (mkTenantWorld deleted_tenants []).

Lemma deleted_tenant_fenced_witness :
  validate acme_handle (tm_registry (tw_manager renewed_tenants)) = Err InvalidTenantHandle ∧
  ∃ t, resolve "acme" (tm_registry (tw_manager renewed_tenants)) = Ok t.
Proof.
  destruct (deleted_tenant_fenced 7 3 1 8 example_config (Some example_eviction) example_tenants attached_tenants
    attached_tenants "acme" deleted_tenants acme_handle) as [_ Hf];
    [apply attached_tenants_reach|vm_compute; reflexivity|apply rtc_refl|vm_compute; reflexivity|].
  split; [|eexists; vm_compute; reflexivity].
  apply Hf. apply rtc_once. exists (TUpsert "acme" (mkPolicy 256)). split; [exact I|vm_compute; reflexivity].
Defined.

Definition beta_tenants : TenantObjectManager Bump.bump (N * N) :=
  (upsert_tenant "beta" (mkPolicy 20000) (tw_manager attached_tenants)).2.

Lemma tenant_shares_fit_witness :
  limits 8192 (tm_registry beta_tenants) (tm_accounts beta_tenants) ∧
  sum_by (fun a => effective (account_at (tm_accounts beta_tenants) a)) (sharing (tm_registry beta_tenants)) = 8192.
Proof.
  destruct (tenant_shares_fit 7 3 1 8 example_config (Some example_eviction) example_tenants attached_tenants "beta"
    (mkPolicy 20000)) as (_ & Hu & _); [apply attached_tenants_reach|].
  destruct (Hu (mkResolved 3 2 4 (Some 2)) beta_tenants) as [Hl _]; [vm_compute; reflexivity|].
  split; [exact Hl|vm_compute; reflexivity].
Defined.

Definition example_put : tenant_call :=
  CStart (mkPutEnv (fun _ => false) true true) acme_handle "page" example_owner example_plan 5 Insert.

Lemma tenant_calls_refine_witness :
  ∃ tm, run_call example_put (tw_manager attached_tenants) = Some tm ∧
    tenant_reachable 7 3 1 8 example_config (Some example_eviction) example_tenants (mkTenantWorld tm []).
Proof.
  destruct (tenant_calls_refine 7 3 1 8 example_config (Some example_eviction) example_tenants attached_tenants
    example_put) as [Hr Hs]; [apply attached_tenants_reach|vm_compute; discriminate| |].
  - intros t [= <-] a [= <-]. eexists. vm_compute. reflexivity.
  - destruct Hs as [tm Htm].
    + split; [vm_compute; discriminate|apply spare_dec; vm_compute; reflexivity].
    + exists tm. split; [exact Htm|]. by apply Hr.
Defined.
