(* ===== verification/TenantRace.v ===== *)
(** * Admissions against a deletion, atomic by atomic

    [TenantEntry::reserve_checked] with [QuotaAccount::reserve_demand] of
    [src/src/object/tenant/quota.rs], the growth, shrinking and dropping of
    guards, and the administration of one entry ([upsert], [delete] and the
    recomputation of the limits of [registry.rs]) as programs over the entry's
    four atomics, interleaved one atomic access at a time.  A program is what it
    accesses next and how it goes on with the answer; what an access answers is
    up to the memory.  There are two memories: an interleaving one, and one with
    the views of release and acquire accesses, in which a load may return an
    older value than the latest. *)
From stdpp Require Import relations.
From S2P Require Import Prelude TenantQuota TenantRegistry ObjectTypes TenantManager.

(** ** Accesses and memories *)

Inductive loc := Version | Demand | Effective | Epoch.

#[global] Instance loc_eq_dec : EqDecision loc.
Proof. solve_decision. Defined.

Inductive ordering := Relaxed | Acquire | Release | AcqRel.

(** A read-modify-write stores [f] of what it reads, and nothing when that is
    [None]; a weak one may also store nothing for no reason. *)
Inductive access :=
| Load (l : loc) (o : ordering)
| Store (l : loc) (v : N) (o : ordering)
| Update (l : loc) (f : N → option N) (o : ordering) (weak : bool).

Definition compare_exchange (l : loc) (old new : N) (weak : bool) : access :=
  Update l (fun x => if x =? old then Some new else None) AcqRel weak.
Definition fetch_add_one (l : loc) (o : ordering) : access :=
  Update l (fun x => Some (wrapping_add x 1)) o false.
Definition atomic_saturating_sub (n : N) : access :=
  Update Demand (fun x => Some (saturating_sub x n)) Relaxed false.

(** [perform who access choice]: the value read, whether an update stored, and
    the memory afterwards; [choice] resolves what the memory leaves open. *)
Class Memory (M : Type) := {
  perform : nat → access → nat → M → option (N * bool * M);
  latest : loc → M → N
}.

(** ** The calls of tenants *)

Inductive reserve_pc :=
| REpoch
| REffective (epoch : N)
| RDemand (epoch limit : N)
| RCas (epoch limit now next : N)
| RCheck (epoch : N)
| RUndo
| RRefuse (now limit : N)
| RVersion
| RRelease.

(** A guard that is being reserved, with the bytes it holds already when it
    grows; a guard, or the charge it became; a guard that gives [bytes] back and
    keeps [keep]; and the answer of a refused admission. *)
Inductive putter :=
| Reserving (guard : option N) (bytes : N) (pc : reserve_pc)
| Holding (bytes : N)
| Giving (bytes keep : N)
| Refused (e : TenantObjectError).

Definition attempt (bytes epoch limit now : N) : reserve_pc :=
  match checked_add now bytes with
  | None => RRefuse now limit
  | Some next => if limit <? next then RRefuse now limit else RCas epoch limit now next
  end.

Definition reserve_access (bytes : N) (pc : reserve_pc) : access :=
  match pc with
  | REpoch | RCheck _ => Load Epoch Acquire
  | REffective _ => Load Effective Acquire
  | RDemand _ _ => Load Demand Relaxed
  | RCas _ _ now next => compare_exchange Demand now next true
  | RUndo | RRelease => atomic_saturating_sub bytes
  | RRefuse _ _ | RVersion => Load Version Acquire
  end.

(** [x] is the value read, [ok] whether an update stored.  A guard that grows
    does not look at the version. *)
Definition reserve_resume (expected : N) (guard : option N) (bytes : N) (pc : reserve_pc) (x : N) (ok : bool)
    : putter :=
  let go := Reserving guard bytes in
  match pc with
  | REpoch => if negb (N.land x 1 =? 0) then go REpoch else go (REffective x)
  | REffective e => go (RDemand e x)
  | RDemand e limit => go (attempt bytes e limit x)
  | RCas e limit now next => if ok then go (RCheck e) else go (attempt bytes e limit x)
  | RCheck e =>
      if x =? e then match guard with None => go RVersion | Some held => Holding (held + bytes) end
      else go RUndo
  | RUndo => go REpoch
  | RRefuse now limit =>
      match guard with
      | None => Refused (if x =? expected then QuotaError (QuotaExceeded bytes now limit)
                         else HandleError InvalidTenantHandle)
      | Some held => Holding held
      end
  | RVersion => if negb (x =? expected) then go RRelease else Holding bytes
  | RRelease => Refused (HandleError InvalidTenantHandle)
  end.

Definition putter_access (p : putter) : option access :=
  match p with
  | Reserving _ bytes pc => Some (reserve_access bytes pc)
  | Giving bytes _ => Some (atomic_saturating_sub bytes)
  | Holding _ | Refused _ => None
  end.

Definition putter_resume (expected : N) (p : putter) (x : N) (ok : bool) : putter :=
  match p with
  | Reserving guard bytes pc => reserve_resume expected guard bytes pc x ok
  | Giving _ keep => Holding keep
  | _ => p
  end.

(** ** Administration, one call at a time *)

Inductive admin :=
| AIdle
| ADelete
| AClose (v : N)
| AEmpty (v : N)
| ARestore (v : N)
| ARemove (v : N)
| AUpsert (limit : N)
| AVacant (v limit : N)
| AReopen (generation limit : N)
| ARecompute (limit : N)
| ASetOdd (limit : N) (publish : option N)
| ASetLimit (limit : N) (publish : option N)
| ASetEven (publish : option N)
| APublish (v : N).

Definition admin_access (a : admin) : option access :=
  match a with
  | AIdle => None
  | ADelete | AUpsert _ | ARecompute _ => Some (Load Version Acquire)
  | AClose v => Some (compare_exchange Version v (with_tenant_state v TENANT_CLOSING) false)
  | AEmpty _ | AVacant _ _ => Some (Load Demand Acquire)
  | ARestore v => Some (Store Version v Release)
  | ARemove v => Some (Store Version (with_tenant_state v TENANT_REMOVED) Release)
  | AReopen g _ => Some (Store Version (tenant_version g TENANT_CLOSING) Release)
  | ASetOdd _ _ => Some (fetch_add_one Epoch AcqRel)
  | ASetLimit limit _ => Some (Store Effective limit Release)
  | ASetEven _ => Some (fetch_add_one Epoch Release)
  | APublish v => Some (Store Version v Release)
  end.

(** [ADelete] to [ARemove] are [delete], [AUpsert] to [AReopen] an [upsert] of
    the entry, [ARecompute] the share it gets when another tenant changes, and
    [ASetOdd] to [ASetEven] are [set_effective]. *)
Definition admin_resume (a : admin) (x : N) (ok : bool) : admin :=
  match a with
  | ADelete => if negb (tenant_state x =? TENANT_REGISTERED) then AIdle else AClose x
  | AClose v => if ok then AEmpty v else AIdle
  | AEmpty v => if negb (x =? 0) then ARestore v else ARemove v
  | ARemove _ => ASetOdd 0 None
  | AUpsert limit =>
      if tenant_state x =? TENANT_REGISTERED then ASetOdd limit None
      else if tenant_state x =? TENANT_REMOVED then AVacant x limit else AIdle
  | AVacant v limit =>
      if negb (x =? 0) then AIdle
      else match checked_add (tenant_generation v) 1 with
      | Some g => if g <=? TENANT_MAX_GENERATION then AReopen g limit else AIdle
      | None => AIdle
      end
  | AReopen g limit => ASetOdd limit (Some (tenant_version g TENANT_REGISTERED))
  | ARecompute limit => if tenant_state x =? TENANT_REMOVED then AIdle else ASetOdd limit None
  | ASetOdd limit publish => ASetLimit limit publish
  | ASetLimit _ publish => ASetEven publish
  | ASetEven (Some v) => APublish v
  | AIdle | ARestore _ | ASetEven None | APublish _ => AIdle
  end.

(** ** The race *)

(** A call of a tenant: the version of its handle, where it is, and, recorded
    when its bytes were last added, the demand and the limit in force then. *)
Record call := mkCall { c_expected : N; c_putter : putter; c_mark : N * N }.

Record race (M : Type) := mkRace { r_memory : M; r_calls : list call; r_admin : admin }.
Arguments mkRace {M}.
Arguments r_memory {M}.
Arguments r_calls {M}.
Arguments r_admin {M}.

(** Only a guard that holds bytes grows: a plan of no bytes is refused before
    its guard is resized. *)
Inductive race_op :=
| RStart (bytes : N)
| RGrow (i : nat) (bytes : N)
| RGive (i : nat) (bytes keep : N)
| RCall (i : nat) (choice : nat)
| RDelete
| RUpsert (limit : N)
| RRecompute (limit : N)
| RAdmin (choice : nat).

Definition adds (p : putter) (ok : bool) : bool :=
  match p with Reserving _ _ (RCas _ _ _ _) => ok | _ => false end.

Section Race.
Context {M : Type} `{Memory M}.
Implicit Types (r : race M).

Definition set_call (i : nat) (c : call) r : race M := mkRace (r_memory r) (<[i := c]> (r_calls r)) (r_admin r).
Definition start_admin (a : admin) r : race M :=
  match r_admin r with AIdle => mkRace (r_memory r) (r_calls r) a | _ => r end.

Definition race_step (op : race_op) r : option (race M) :=
  match op with
  | RStart bytes =>
      let v := latest Version (r_memory r) in
      if tenant_state v =? TENANT_REGISTERED
      then Some (mkRace (r_memory r) (r_calls r ++ [mkCall v (Reserving None bytes REpoch) (0, 0)]) (r_admin r))
      else None
  | RGrow i bytes =>
      c ← r_calls r !! i;
      match c_putter c with
      | Holding held =>
          if 0 <? held
          then Some (set_call i (mkCall (c_expected c) (Reserving (Some held) bytes REpoch) (c_mark c)) r)
          else None
      | _ => None
      end
  | RGive i bytes keep =>
      c ← r_calls r !! i;
      match c_putter c with
      | Holding held =>
          if held =? bytes + keep
          then Some (set_call i (mkCall (c_expected c) (Giving bytes keep) (c_mark c)) r)
          else None
      | _ => None
      end
  | RCall i choice =>
      c ← r_calls r !! i;
      a ← putter_access (c_putter c);
      '(x, ok, m) ← perform (S i) a choice (r_memory r);
      Some (mkRace m (<[i := mkCall (c_expected c) (putter_resume (c_expected c) (c_putter c) x ok)
                              (if adds (c_putter c) ok then (latest Demand m, latest Effective m)
                               else c_mark c)]> (r_calls r)) (r_admin r))
  | RDelete => Some (start_admin ADelete r)
  | RUpsert limit => Some (start_admin (AUpsert limit) r)
  | RRecompute limit => Some (start_admin (ARecompute limit) r)
  | RAdmin choice =>
      a ← admin_access (r_admin r);
      '(x, ok, m) ← perform 0 a choice (r_memory r);
      Some (mkRace m (r_calls r) (admin_resume (r_admin r) x ok))
  end.

(** The epoch does not come round: it would take 2^63 changes of the limit. *)
Definition race_env (op : race_op) r : bool :=
  match op with
  | RAdmin _ => latest Epoch (r_memory r) <? U64_MAX
  | _ => true
  end.

Inductive races (r0 : race M) : race M → Prop :=
| races_refl : races r0 r0
| races_step op r r' : races r0 r → race_env op r = true → race_step op r = Some r' → races r0 r'.

Fixpoint run_race (ops : list race_op) r : option (race M) :=
  match ops with
  | [] => Some r
  | op :: ops' => if race_env op r then r' ← race_step op r; run_race ops' r' else None
  end.

Lemma run_races r0 ops r r' : races r0 r → run_race ops r = Some r' → races r0 r'.
Proof.
  intros Hr. revert r Hr. induction ops as [|op ops IH]; intros r Hr Hs; simpl in Hs; [by simplify_eq|].
  destruct (race_env op r) eqn:He; [|done]. destruct (race_step op r) as [r1|] eqn:H1; [|done].
  apply (IH r1); [by eapply races_step|done].
Qed.
End Race.

(** ** The two memories *)

Record cells (X : Type) := mkCells { q_version : X; q_demand : X; q_effective : X; q_epoch : X }.
Arguments mkCells {X}.
Arguments q_version {X}.
Arguments q_demand {X}.
Arguments q_effective {X}.
Arguments q_epoch {X}.

Definition cell {X} (l : loc) (c : cells X) : X :=
  match l with
  | Version => q_version c | Demand => q_demand c | Effective => q_effective c | Epoch => q_epoch c
  end.

Definition set_cell {X} (l : loc) (x : X) (c : cells X) : cells X :=
  match l with
  | Version => mkCells x (q_demand c) (q_effective c) (q_epoch c)
  | Demand => mkCells (q_version c) x (q_effective c) (q_epoch c)
  | Effective => mkCells (q_version c) (q_demand c) x (q_epoch c)
  | Epoch => mkCells (q_version c) (q_demand c) (q_effective c) x
  end.

(** Interleaving: every access is to the latest value. *)
#[global] Instance interleaving : Memory (cells N) := {
  perform _ a choice c :=
    match a with
    | Load l _ => Some (cell l c, false, c)
    | Store l v _ => Some (0, false, set_cell l v c)
    | Update l f _ weak =>
        match (if weak && negb (choice =? 0)%nat then None else f (cell l c)) with
        | Some v => Some (cell l c, true, set_cell l v c)
        | None => Some (cell l c, false, c)
        end
    end;
  latest l c := cell l c
}.

(** Views: each atomic has the history of its values with the view each was
    written with, a thread has the position in every history it has to be past,
    and a load may return any value from there on.  An update reads the latest
    value also when it stores nothing, with the ordering of its success; the
    language allows a failed one more than that. *)
Record histories := mkHistories {
  h_history : cells (list (N * cells nat));
  h_views : gmap nat (cells nat)
}.

Definition no_view : cells nat := mkCells 0%nat 0%nat 0%nat 0%nat.
Definition join (v w : cells nat) : cells nat :=
  mkCells (max (q_version v) (q_version w)) (max (q_demand v) (q_demand w))
    (max (q_effective v) (q_effective w)) (max (q_epoch v) (q_epoch w)).
Definition acquires (o : ordering) : bool := match o with Acquire | AcqRel => true | _ => false end.
Definition releases (o : ordering) : bool := match o with Release | AcqRel => true | _ => false end.

Definition view_read (l : loc) (o : ordering) (k : nat) (v : cells nat) (h : cells (list (N * cells nat)))
    : option (N * cells nat * cells nat) :=
  '(x, w) ← cell l h !! k;
  let v1 := set_cell l (max k (cell l v)) v in
  Some (x, w, if acquires o then join v1 w else v1).

(** The value is appended to the history; [w] is the view of the value that an
    update read, which its own carries on. *)
Definition view_write (l : loc) (o : ordering) (x : N) (w v : cells nat) (h : cells (list (N * cells nat)))
    : cells nat * cells (list (N * cells nat)) :=
  let k := length (cell l h) in
  let v1 := set_cell l k v in
  let mine := if releases o then v1 else set_cell l k no_view in
  (v1, set_cell l (cell l h ++ [(x, join w mine)]) h).

#[global] Instance views : Memory histories := {
  perform who a choice m :=
    let v := default no_view (h_views m !! who) in
    let h := h_history m in
    match a with
    | Load l o =>
        '(x, _, v') ← view_read l o (cell l v + choice) v h;
        Some (x, false, mkHistories h (<[who := v']> (h_views m)))
    | Store l x o =>
        let '(v', h') := view_write l o x no_view v h in
        Some (0, false, mkHistories h' (<[who := v']> (h_views m)))
    | Update l f o weak =>
        '(x, w, v1) ← view_read l o (length (cell l h) - 1) v h;
        match (if weak && negb (choice =? 0)%nat then None else f x) with
        | Some y =>
            let '(v2, h') := view_write l o y w v1 h in
            Some (x, true, mkHistories h' (<[who := v2]> (h_views m)))
        | None => Some (x, false, mkHistories h (<[who := v1]> (h_views m)))
        end
    end;
  latest l m := default 0 (fst <$> last (cell l (h_history m)))
}.

Definition fresh_cells (version limit : N) : cells N := mkCells version 0 limit 0.
Definition fresh_histories (version limit : N) : histories :=
  mkHistories (mkCells [(version, no_view)] [(0, no_view)] [(limit, no_view)] [(0, no_view)]) ∅.
Definition quiet {M} (m : M) : race M := mkRace m [] AIdle.

(** ** The invariant of the interleavings *)

Definition added (pc : reserve_pc) : bool :=
  match pc with RCheck _ | RUndo | RVersion | RRelease => true | _ => false end.

(** The bytes of the demand that are a call's. *)
Definition holds (p : putter) : N :=
  match p with
  | Reserving guard bytes pc => default 0 guard + (if added pc then bytes else 0)
  | Holding n => n
  | Giving n keep => n + keep
  | Refused _ => 0
  end.

(** The bytes of the guard or charge of an admitted call. *)
Definition owned (p : putter) : N :=
  match p with
  | Reserving guard _ _ => default 0 guard
  | Holding n => n
  | Giving n keep => n + keep
  | Refused _ => 0
  end.

Definition versioned (pc : reserve_pc) : bool := match pc with RVersion | RRelease => true | _ => false end.

(** What a call knows of the epoch [ep] and the limit [lim]. *)
Definition pc_ok (ep lim bytes : N) (mark : N * N) (pc : reserve_pc) : Prop :=
  match pc with
  | REffective e => e mod 2 = 0 ∧ e <= ep
  | RDemand e limit => e mod 2 = 0 ∧ e <= ep ∧ (ep = e → lim = limit)
  | RCas e limit now next =>
      e mod 2 = 0 ∧ e <= ep ∧ (ep = e → lim = limit) ∧ next = now + bytes ∧ next <= limit ∧ next <= U64_MAX
  | RCheck e => e mod 2 = 0 ∧ e <= ep ∧ (ep = e → mark.1 <= mark.2)
  | _ => True
  end.

Definition removing (a : admin) : bool := match a with ARemove _ => true | _ => false end.

Definition call_ok (ep lim g s : N) (a : admin) (c : call) : Prop :=
  (∃ g', c_expected c = 4 * g' ∧ g' <= g) ∧
  (0 < owned (c_putter c) → c_expected c = 4 * g ∧ s ≠ 2 ∧ removing a = false) ∧
  match c_putter c with
  | Reserving guard bytes pc => (∀ n, guard = Some n → 0 < n ∧ versioned pc = false) ∧ pc_ok ep lim bytes (c_mark c) pc
  | _ => True
  end.

Definition admin_ok (g s : N) (a : admin) : Prop :=
  match a with
  | AIdle | ADelete | AUpsert _ | ARecompute _ => s = 0 ∨ s = 2
  | AClose v => s = 0 ∧ v = 4 * g
  | AEmpty v | ARestore v | ARemove v | APublish v => s = 1 ∧ v = 4 * g
  | AVacant v _ => s = 2 ∧ v = 4 * g + 2
  | AReopen g' _ => s = 2 ∧ g' = g + 1 ∧ g' <= TENANT_MAX_GENERATION
  | ASetOdd _ p | ASetLimit _ p | ASetEven p =>
      match p with None => s = 0 ∨ s = 2 | Some v => s = 1 ∧ v = 4 * g end
  end.

Definition setting (a : admin) : bool :=
  match a with ASetLimit _ _ | ASetEven _ => true | _ => false end.

Record race_inv (g s : N) (r : race (cells N)) : Prop := {
  ri_demand : q_demand (r_memory r) = sum_by (fun c => holds (c_putter c)) (r_calls r);
  ri_word : q_demand (r_memory r) <= U64_MAX;
  ri_version : q_version (r_memory r) = 4 * g + s;
  ri_generation : g <= TENANT_MAX_GENERATION;
  ri_admin : admin_ok g s (r_admin r);
  ri_epoch : q_epoch (r_memory r) mod 2 = N.b2n (setting (r_admin r));
  ri_calls : Forall (call_ok (q_epoch (r_memory r)) (q_effective (r_memory r)) g s (r_admin r)) (r_calls r)
}.

Lemma owned_le p : owned p <= holds p.
Proof. destruct p as [[] ? []| | |]; simpl; lia. Qed.

Lemma land_one x : N.land x 1 = x mod 2.
Proof. exact (N.land_ones x 1). Qed.

Lemma attempt_ok ep lim bytes mark e limit now :
  e mod 2 = 0 → e <= ep → (ep = e → lim = limit) →
  pc_ok ep lim bytes mark (attempt bytes e limit now) ∧
  added (attempt bytes e limit now) = false ∧ versioned (attempt bytes e limit now) = false.
Proof.
  intros He Hle Hl. unfold attempt. destruct (checked_add now bytes) as [next|] eqn:Hn; [|done].
  apply checked_add_Some in Hn. destruct (N.ltb_spec limit next); [done|]. simpl. split_and!; try done; lia.
Qed.

(** One access of a reservation. *)
Lemma reserve_step ep lim g s a expected guard bytes pc x ok m m' choice who mark :
  (∃ g', expected = 4 * g' ∧ g' <= g) →
  (0 < default 0 guard → expected = 4 * g ∧ s ≠ 2 ∧ removing a = false) →
  (∀ n, guard = Some n → 0 < n ∧ versioned pc = false) → pc_ok ep lim bytes mark pc →
  q_epoch m = ep → q_effective m = lim → q_version m = 4 * g + s → admin_ok g s a →
  holds (Reserving guard bytes pc) <= q_demand m → q_demand m <= U64_MAX →
  perform who (reserve_access bytes pc) choice m = Some (x, ok, m') →
  let c' := mkCall expected (reserve_resume expected guard bytes pc x ok)
              (if adds (Reserving guard bytes pc) ok then (q_demand m', q_effective m') else mark) in
  m' = set_cell Demand (q_demand m') m ∧ q_demand m' <= U64_MAX ∧
  q_demand m' + holds (Reserving guard bytes pc) = q_demand m + holds (c_putter c') ∧ call_ok ep lim g s a c'.
Proof.
  intros Hexp Hown Hg Hpc He Hl Hv Ha Hh Hw Hp c'. subst c'. unfold call_ok. destruct m as [v d ef ep'].
  destruct pc as [|e|e limit|e limit now next|e| |now limit| |]; cbn in He, Hl, Hv, Hw, Hp, Hpc, Hh |- *.
  4: { destruct (negb _); [|destruct (N.eqb_spec d now)]; injection Hp as <- <- <-; subst ep lim v; cbn.
       2: destruct Hpc as (? & ? & Hlim & -> & ? & ?); split_and!; [done|lia|lia|done..|]; intros Heq;
          rewrite (Hlim Heq); lia.
       all: destruct (attempt_ok ep' ef bytes mark e limit d) as (Hok & -> & ->); [apply Hpc..|]; split_and!; done. }
  all: injection Hp as <- <- <-; subst ep lim v; cbn.
  - rewrite land_one. destruct (N.eqb_spec (ep' mod 2) 0); cbn; split_and!; done || lia.
  - split_and!; done || lia.
  - destruct (attempt_ok ep' ef bytes mark e limit d) as (Hok & -> & ->); [apply Hpc..|]. split_and!; done.
  - destruct (N.eqb_spec ep' e); [destruct guard as [held|]|]; cbn in *; split_and!; try done; try lia.
    intros _. by apply Hown, Hg.
  - split_and!; try done; u64.
  - destruct guard as [held|]; cbn in *; split_and!; done || lia.
  - destruct guard as [held|]; [by destruct (Hg held)|].
    destruct (N.eqb_spec (4 * g + s) expected) as [Heq|]; cbn; split_and!; try done; try lia; [].
    intros _. destruct Hexp as (g' & -> & Hle). assert (s < 3) by (destruct a as [| | | | | | | | | |? []|? []|[]|]; cbn in Ha; lia).
    split_and!; [lia|lia|]. destruct a; cbn in *; done || lia.
  - destruct guard as [held|]; [by destruct (Hg held)|]. cbn in *. split_and!; try done; u64.
Qed.

(** One access of a call: only the demand changes, by what the call holds. *)
Lemma call_step ep lim g s a c acc x ok m m' choice who mark' :
  call_ok ep lim g s a c → q_epoch m = ep → q_effective m = lim → q_version m = 4 * g + s →
  admin_ok g s a → holds (c_putter c) <= q_demand m → q_demand m <= U64_MAX →
  putter_access (c_putter c) = Some acc → perform who acc choice m = Some (x, ok, m') →
  mark' = (if adds (c_putter c) ok then (q_demand m', q_effective m') else c_mark c) →
  let c' := mkCall (c_expected c) (putter_resume (c_expected c) (c_putter c) x ok) mark' in
  m' = set_cell Demand (q_demand m') m ∧ q_demand m' <= U64_MAX ∧
  q_demand m' + holds (c_putter c) = q_demand m + holds (c_putter c') ∧ call_ok ep lim g s a c'.
Proof.
  intros (Hexp & Hown & Hpc) He Hl Hv Ha Hh Hw Hacc Hp ->.
  destruct c as [expected [guard bytes pc|n|n keep|err] mark]; cbn [c_expected c_putter c_mark] in *; try done.
  - destruct Hpc as [Hg Hpc]. injection Hacc as <-.
    by apply (reserve_step ep lim g s a expected guard bytes pc x ok m m' choice who mark).
  - injection Hacc as <-. injection Hp as <- <- <-. cbn in *. split_and!; [done|u64..|].
    unfold call_ok; cbn. split_and!; try done. intros ?. apply Hown. lia.
Qed.

(** One access of administration: the calls keep what they know. *)
Lemma calls_weaken ep lim g s a ep' lim' g' s' a' l :
  Forall (call_ok ep lim g s a) l →
  (∀ c, c ∈ l → 0 < owned (c_putter c) → s ≠ 2 → removing a = false → g' = g ∧ s' ≠ 2 ∧ removing a' = false) →
  g <= g' → ep <= ep' → (ep' mod 2 = 0 → ep = ep' → lim' = lim) →
  Forall (call_ok ep' lim' g' s' a') l.
Proof.
  intros Hl Hc Hg Hep Hlim. rewrite Forall_forall in *. intros c Hin. destruct (Hl c Hin) as ((g0 & Hx & Hle) & Hown & Hpc).
  split_and!; [exists g0; split; [done|lia]| |].
  - intros Ho. destruct (Hown Ho) as (-> & Hs & Hr). by destruct (Hc c Hin Ho Hs Hr) as (-> & ? & ?).
  - destruct (c_putter c) as [guard bytes pc| | |]; try done. destruct Hpc as [Hgd Hpc]. split; [done|].
    destruct pc; cbn in *; try done; destruct_and! Hpc; split_and!; try done; try lia; intros ->.
    all: assert (ep = epoch) as Heq by lia; rewrite Hlim by done; auto.
Qed.

Lemma admin_small g s a : admin_ok g s a → s < 4.
Proof. destruct a as [| | | | | | | | | |? []|? []|[]|]; cbn; lia. Qed.

(** Nothing is owned once the demand is zero. *)
Lemma nothing_owned g s r c : race_inv g s r → q_demand (r_memory r) = 0 → c ∈ r_calls r → owned (c_putter c) = 0.
Proof.
  intros Hr Hd Hc. pose proof (sum_by_elem_le (fun c => holds (c_putter c)) c _ Hc) as Hle.
  rewrite <- (ri_demand _ _ _ Hr), Hd in Hle. pose proof (owned_le (c_putter c)). lia.
Qed.

Lemma admin_kept g s r m' a' g' s' :
  race_inv g s r → q_demand m' = q_demand (r_memory r) → q_version m' = 4 * g' + s' →
  g' <= TENANT_MAX_GENERATION → admin_ok g' s' a' → q_epoch m' mod 2 = N.b2n (setting a') →
  g <= g' → q_epoch (r_memory r) <= q_epoch m' →
  (q_epoch m' mod 2 = 0 → q_epoch (r_memory r) = q_epoch m' → q_effective m' = q_effective (r_memory r)) →
  (∀ c, c ∈ r_calls r → 0 < owned (c_putter c) → s ≠ 2 → removing (r_admin r) = false →
     g' = g ∧ s' ≠ 2 ∧ removing a' = false) →
  race_inv g' s' (mkRace m' (r_calls r) a').
Proof.
  intros [] Hd Hv Hg Ha He Hgg Hee Hl Hc. split; cbn; try done; try congruence.
  by eapply calls_weaken.
Qed.

(** The state of the version an access of administration leaves, and its
    generation. *)
Definition next_version (g s : N) (a : admin) : N * N :=
  match a with
  | AClose _ => (g, 1)
  | ARestore _ | APublish _ => (g, 0)
  | ARemove _ => (g, 2)
  | AReopen g' _ => (g', 1)
  | _ => (g, s)
  end.

Local Ltac kept Hk Hr :=
  apply Hk; [exact Hr|..]; cbn; try done; try lia; try (intros; split_and!; done || lia).

Lemma admin_step g s r choice r' :
  race_inv g s r → q_epoch (r_memory r) < U64_MAX → race_step (RAdmin choice) r = Some r' →
  race_inv (next_version g s (r_admin r)).1 (next_version g s (r_admin r)).2 r'.
Proof.
  intros Hr Hep Hs. pose proof (fun c => nothing_owned g s r c Hr) as Hno. pose proof (ri_admin _ _ _ Hr) as Ha.
  pose proof (ri_generation _ _ _ Hr) as Hg. pose proof (ri_epoch _ _ _ Hr) as He.
  pose proof (admin_small _ _ _ Ha) as Hsm. pose proof (ri_version _ _ _ Hr) as Hv.
  pose proof (admin_kept g s r) as Hk. destruct r as [[v0 d ef ep] calls a]. cbn in *. subst v0.
  destruct a as [| |v|v|v|v|limit|v limit|g' limit|limit|limit p|limit p|p|v]; cbn in Hs, Ha; try done.
  2: rewrite (proj2 Ha), (proj1 Ha), N.add_0_r, N.eqb_refl in Hs; cbn in Hs.
  all: cbn in Hno, He; injection Hs as <-; cbn [next_version fst snd].
  all: rewrite ?tenant_state_eq by done; unfold TENANT_REGISTERED, TENANT_CLOSING, TENANT_REMOVED in *.
  - destruct (N.eqb_spec s 0); cbn; kept Hk Hr.
  - rewrite <- (N.add_0_r (4 * g)), with_tenant_state_eq by done. kept Hk Hr.
  - destruct (N.eqb_spec d 0) as [Hd|]; cbn; kept Hk Hr. intros c Hin Ho. rewrite (Hno c Hd Hin) in Ho. lia.
  - kept Hk Hr.
  - destruct Ha as [-> ->]. rewrite <- (N.add_0_r (4 * g)), with_tenant_state_eq by done. kept Hk Hr.
  - destruct (N.eqb_spec s 0); [|destruct (N.eqb_spec s 2)]; cbn; kept Hk Hr.
  - destruct Ha as [-> ->]. destruct (N.eqb_spec d 0); cbn; [|kept Hk Hr].
    rewrite tenant_generation_eq by done. destruct (checked_add g 1) as [g'|] eqn:Hn; [|kept Hk Hr].
    apply checked_add_Some in Hn. destruct (N.leb_spec g' TENANT_MAX_GENERATION); kept Hk Hr.
  - destruct Ha as (-> & -> & Hm). rewrite !tenant_version_eq by done. kept Hk Hr.
  - destruct (N.eqb_spec s 2); cbn; kept Hk Hr.
  - rewrite wrapping_add_small by (unfold U64_MAX in *; lia). kept Hk Hr.
    rewrite <- N.Div0.add_mod_idemp_l, He. done.
  - kept Hk Hr.
  - rewrite wrapping_add_small by (unfold U64_MAX in *; lia).
    assert ((ep + 1) mod 2 = 0) by (rewrite <- N.Div0.add_mod_idemp_l, He; done). destruct p; kept Hk Hr.
  - kept Hk Hr.
Qed.

(** ** Every interleaving *)

Lemma race_call_inv g s r i choice r' :
  race_inv g s r → race_step (RCall i choice) r = Some r' → race_inv g s r'.
Proof.
  intros [Hd Hw Hv Hg Ha He Hc] Hs. unfold race_step in Hs.
  destruct (r_calls r !! i) as [c|] eqn:Hi; [|done]. cbn [mbind option_bind] in Hs.
  destruct (putter_access (c_putter c)) as [acc|] eqn:Hacc; [|done]. cbn [mbind option_bind] in Hs.
  destruct (perform (S i) acc choice (r_memory r)) as [[[x ok] m']|] eqn:Hp; [|done].
  cbn [mbind option_bind] in Hs. injection Hs as <-.
  assert (holds (c_putter c) <= q_demand (r_memory r)) as Hh.
  { rewrite Hd. apply (sum_by_elem_le (fun c => holds (c_putter c))). by eapply list_elem_of_lookup_2. }
  pose proof (proj1 (Forall_lookup _ _) Hc i c Hi) as Hci.
  destruct (call_step _ _ g s _ c acc x ok _ m' choice (S i) _ Hci eq_refl eq_refl Hv Ha Hh Hw Hacc Hp eq_refl)
    as (Hm & Hw' & Hsum & Hci').
  pose proof (sum_by_insert (fun c => holds (c_putter c)) (r_calls r) i c
    (mkCall (c_expected c) (putter_resume (c_expected c) (c_putter c) x ok)
       (if adds (c_putter c) ok then (q_demand m', q_effective m') else c_mark c)) Hi) as Hins.
  rewrite Hm. split; cbn in *; try done; [rewrite Hm in *; cbn in *; lia|].
  apply Forall_insert; [done|]. by rewrite Hm in Hci'.
Qed.

Lemma set_call_inv g s r i c c' :
  race_inv g s r → r_calls r !! i = Some c → holds (c_putter c') = holds (c_putter c) →
  call_ok (q_epoch (r_memory r)) (q_effective (r_memory r)) g s (r_admin r) c' → race_inv g s (set_call i c' r).
Proof.
  intros [] Hi Hh Hok. pose proof (sum_by_insert (fun c => holds (c_putter c)) (r_calls r) i c c' Hi).
  split; cbn in *; try done; [lia|]. by apply Forall_insert.
Qed.

Lemma start_admin_inv g s r a :
  race_inv g s r → (admin_ok g s AIdle → admin_ok g s a) → removing a = false → setting a = false →
  race_inv g s (start_admin a r).
Proof.
  intros Hr Ha Hrm Hst. unfold start_admin. destruct r as [m calls ad]. cbn. destruct ad; try exact Hr.
  destruct Hr. split; cbn in *; try done; [by apply Ha|by rewrite Hst|].
  eapply Forall_impl; [done|]. intros c (? & Ho & ?). split_and!; try done. intros Hpos. by destruct (Ho Hpos) as (? & ? & _).
Qed.

Lemma race_step_inv g s op r r' :
  race_inv g s r → race_env op r = true → race_step op r = Some r' → ∃ g' s', race_inv g' s' r'.
Proof.
  intros Hr He Hs. destruct op as [bytes|i bytes|i bytes keep|i choice| |limit|limit|choice].
  4: exists g, s; by eapply race_call_inv.
  7: eexists _, _; eapply admin_step; [done|by apply N.ltb_lt|done].
  all: exists g, s; unfold race_step in Hs.
  2,3: destruct (r_calls r !! i) as [c|] eqn:Hi; [|done]; cbn [mbind option_bind] in Hs;
    pose proof (proj1 (Forall_lookup _ _) (ri_calls _ _ _ Hr) i c Hi) as Hc;
    destruct (c_putter c) as [|held| |] eqn:Hp; try done; case_match_eqn; try done; injection Hs as <-;
    bool_to_prop; apply (set_call_inv g s r i c); try done; rewrite ?Hp; cbn; try lia;
    destruct Hc as (Hx & Ho & _); unfold call_ok; rewrite Hp in Ho; cbn in *.
  - cbn [latest interleaving cell] in Hs. rewrite (ri_version _ _ _ Hr) in Hs.
    rewrite (tenant_state_eq g s) in Hs by (by eapply admin_small, Hr).
    destruct (N.eqb_spec s TENANT_REGISTERED) as [->|]; [|done]. injection Hs as <-.
    destruct Hr. split; cbn in *; try done; [rewrite sum_by_app, sum_by_cons; cbn; rewrite sum_by_nil; lia|].
    apply Forall_app. split; [done|]. constructor; [|constructor]. unfold call_ok; cbn.
    split_and!; [exists g; unfold TENANT_REGISTERED; lia|lia|done|done].
  - split_and!; [done|exact Ho| |done]. intros n [= <-]. done.
  - split_and!; [done|intros ?; apply Ho; lia|done].
  - injection Hs as <-. by apply start_admin_inv.
  - injection Hs as <-. by apply start_admin_inv.
  - injection Hs as <-. by apply start_admin_inv.
Qed.

Lemma races_inv g limit r :
  g <= TENANT_MAX_GENERATION → races (quiet (fresh_cells (tenant_version g TENANT_REGISTERED) limit)) r →
  ∃ g' s', race_inv g' s' r.
Proof.
  intros Hg. induction 1 as [|op r r' _ (g' & s' & IH) He Hs]; [|by eapply race_step_inv].
  exists g, 0. rewrite tenant_version_eq by done. split; cbn; try done; try lia.
Qed.

(** ** A call that runs alone *)

Fixpoint alone (n : nat) (expected : N) (p : putter) (m : cells N) : putter * cells N :=
  match n with
  | O => (p, m)
  | S n' =>
      match putter_access p with
      | None => (p, m)
      | Some a =>
          match perform 0 a 0 m with
          | None => (p, m)
          | Some (x, ok, m') => alone n' expected (putter_resume expected p x ok) m'
          end
      end
  end.

Definition cells_of (version : N) (x : QuotaAccount) : cells N :=
  mkCells version (demand x) (effective x) (policy_epoch x).

Definition outcome (bytes : N) (x : res TenantObjectError unit) : option putter :=
  match x with Ok _ => Some (Holding bytes) | Err e => Some (Refused e) | Panic => None end.

(** Seven accesses later it has done what the admission in one step does. *)
Lemma reserve_alone a e x bytes expected r accs :
  tenant_entries r !! a = Some e → accs !! a = Some x → policy_epoch x mod 2 = 0 →
  let '(answer, accs') := reserve_checked a bytes expected r accs in
  ∃ p, outcome bytes answer = Some p ∧
    alone 7 expected (Reserving None bytes REpoch) (cells_of (te_version e) x) =
      (p, cells_of (te_version e) (account_at accs' a)).
Proof.
  intros He Hx Hp. unfold reserve_checked, reserve_demand, account_at. rewrite He, Hx.
  change (default _ (Some x)) with x. cbn [alone putter_access reserve_access perform interleaving cell cells_of
    q_version q_demand q_effective q_epoch putter_resume reserve_resume]. rewrite land_one, Hp. cbn -[N.add attempt].
  unfold attempt. destruct (checked_add (demand x) bytes) as [next|]; [destruct (effective x <? next)|]; cbn.
  - rewrite Hx. by eexists.
  - rewrite N.eqb_refl. cbn. rewrite N.eqb_refl. cbn.
    destruct (te_version e =? expected); cbn; rewrite lookup_insert_eq; by eexists.
  - rewrite Hx. by eexists.
Qed.

(** ** The claims *)

(** The generation and the state of a version, from its parts. *)
Lemma race_version g s r :
  race_inv g s r → tenant_generation (q_version (r_memory r)) = g ∧ tenant_state (q_version (r_memory r)) = s.
Proof.
  intros Hr. rewrite (ri_version _ _ _ Hr). pose proof (admin_small _ _ _ (ri_admin _ _ _ Hr)).
  by rewrite tenant_generation_eq, tenant_state_eq.
Qed.

(** C16: admissions and administration are safe in every interleaving of their
    atomic accesses.  The demand is always the bytes the calls hold, so no
    subtraction saturates.  While a call owns bytes the tenant is not removed
    and is still in the generation of the call's handle: a deletion and an
    admission cannot both succeed.  Bytes are accepted only if they fitted under
    the limit in force at the moment they were added, although the limit was
    read before.  And a call that runs alone does what the admission in one step
    does. *)
Theorem admissions_linearize g limit r :
  g <= TENANT_MAX_GENERATION → races (quiet (fresh_cells (tenant_version g TENANT_REGISTERED) limit)) r →
  q_demand (r_memory r) = sum_by (fun c => holds (c_putter c)) (r_calls r) ∧
  (∀ c, c ∈ r_calls r → 0 < owned (c_putter c) →
     tenant_generation (q_version (r_memory r)) = tenant_generation (c_expected c) ∧
     tenant_state (q_version (r_memory r)) ≠ TENANT_REMOVED) ∧
  (∀ i choice r' c c' guard bytes e,
     r_calls r !! i = Some c → c_putter c = Reserving guard bytes (RCheck e) →
     race_step (RCall i choice) r = Some r' → r_calls r' !! i = Some c' →
     c_putter c' ≠ Reserving guard bytes RUndo → (c_mark c').1 <= (c_mark c').2) ∧
  (∀ a e x bytes expected reg accs,
     tenant_entries reg !! a = Some e → accs !! a = Some x → policy_epoch x mod 2 = 0 →
     let '(answer, accs') := reserve_checked a bytes expected reg accs in
     ∃ p, outcome bytes answer = Some p ∧
       alone 7 expected (Reserving None bytes REpoch) (cells_of (te_version e) x) =
         (p, cells_of (te_version e) (account_at accs' a))).
Proof.
  intros Hg (g' & s & Hr)%races_inv; [|done]. pose proof (ri_calls _ _ _ Hr) as Hc.
  split_and!; [apply Hr| | |apply reserve_alone].
  - intros c Hin Ho. destruct (race_version _ _ _ Hr) as [-> ->].
    destruct (proj1 (Forall_forall _ _) Hc c Hin) as (_ & Hown & _). destruct (Hown Ho) as (-> & Hs & _).
    rewrite <- (N.add_0_r (4 * g')), tenant_generation_eq by done. done.
  - intros i choice r' c c' guard bytes e Hi Hp Hs Hi' Hn.
    destruct (proj1 (Forall_lookup _ _) Hc i c Hi) as (_ & _ & Hok). rewrite Hp in Hok.
    destruct Hok as (_ & _ & _ & Hmark). unfold race_step in Hs. rewrite Hi in Hs. cbn [mbind option_bind] in Hs.
    rewrite Hp in Hs. cbn in Hs. injection Hs as <-. cbn in Hi'.
    rewrite list_lookup_insert_eq in Hi' by (by eapply lookup_lt_Some). injection Hi' as <-. cbn in *.
    destruct (N.eqb_spec (q_epoch (r_memory r)) e); [by apply Hmark|]. done.
Qed.

(** An admission and a deletion that finds the bytes and gives up. *)
Definition example_race : race (cells N) :=
  default (quiet (fresh_cells 0 0)) (run_race
    [RStart 64; RCall 0 0; RCall 0 0; RCall 0 0; RDelete; RAdmin 0; RCall 0 1; RCall 0 0; RAdmin 0; RAdmin 0;
     RAdmin 0; RCall 0 0; RCall 0 0]
    (quiet (fresh_cells (tenant_version 1 TENANT_REGISTERED) 100))).

Lemma admissions_linearize_witness :
  r_calls example_race = [mkCall 4 (Holding 64) (64, 100)] ∧
  tenant_state (q_version (r_memory example_race)) ≠ TENANT_REMOVED.
Proof.
  destruct (admissions_linearize 1 100 example_race) as (_ & Ho & _); [vm_compute; discriminate| |].
  - eapply (run_races _ [RStart 64; RCall 0 0; RCall 0 0; RCall 0 0; RDelete; RAdmin 0; RCall 0 1; RCall 0 0;
      RAdmin 0; RAdmin 0; RAdmin 0; RCall 0 0; RCall 0 0]); [apply races_refl|vm_compute; reflexivity].
  - assert (r_calls example_race = [mkCall 4 (Holding 64) (64, 100)]) as Hc by (vm_compute; reflexivity).
    split; [exact Hc|]. apply (Ho (mkCall 4 (Holding 64) (64, 100))); [rewrite Hc; by left|done].
Defined.

(** A run of the memory with views, in which neither the addition to the demand
    and the load of the version that follows it, nor the closing of the version
    and the load of the demand that follows that, are ordered: each side reads
    the value from before the other's update, and the removed tenant is left
    with the demand. *)
Example unordered_deletion_run :
  ∃ ops r, run_race ops (quiet (fresh_histories (tenant_version 1 TENANT_REGISTERED) 100)) = Some r ∧
    (∃ mark, r_calls r = [mkCall (tenant_version 1 TENANT_REGISTERED) (Holding 64) mark]) ∧
    r_admin r = AIdle ∧ latest Demand (r_memory r) = 64 ∧
    latest Version (r_memory r) = tenant_version 1 TENANT_REMOVED.
Proof.
  exists ([RStart 64] ++ replicate 5 (RCall 0 0) ++ [RDelete] ++ replicate 4 (RAdmin 0) ++ [RCall 0 0] ++
          replicate 3 (RAdmin 0)).
  eexists. split; [vm_compute; reflexivity|]. split; [eexists; vm_compute; reflexivity|].
  split_and!; vm_compute; reflexivity.
Qed.
