(* ===== verification/GracefulUnmount.v ===== *)
(** * The queue of graceful unmounts

    [GracefulUnmountQueue] of [src/src/client/manager.rs]: unmounts keyed by
    session and segment, each with a deadline and a revision, and a heap of
    deadline records that is cleaned lazily: a record counts only while the
    pending entry of its key still carries its revision and deadline.  The heap
    is a list sorted by the order of its records; the loops consume it from the
    front, so they are recursions on that list. *)
From S2P Require Import Prelude Identity ClientLifecycle Segment ByteAllocator SegmentPool.

(** ** Data *)

Record GracefulUnmountKey := mkKey { key_session : ClientSession; key_segment : SegmentId }.

#[global] Instance GracefulUnmountKey_eq_dec : EqDecision GracefulUnmountKey.
Proof. solve_decision. Defined.
#[global] Instance GracefulUnmountKey_countable : Countable GracefulUnmountKey.
Proof.
  refine (inj_countable' (fun k => (key_session k, key_segment k))
    (fun p => mkKey p.1 p.2) _); by intros [].
Defined.

Record PendingGracefulUnmount := mkUnmount {
  pu_deadline : N;
  pu_incarnation : SegmentHandle;
  pu_revision : N;
  pu_claimed : bool
}.

Record GracefulUnmountJob := mkJob {
  job_key : GracefulUnmountKey;
  job_incarnation : SegmentHandle;
  job_revision : N
}.

Record GracefulDeadlineRecord := mkRecord {
  rec_deadline : N;
  rec_revision : N;
  rec_key : GracefulUnmountKey
}.

(** [Ord] of the records. *)
Definition record_key (r : GracefulDeadlineRecord) : list N :=
  rec_deadline r :: rec_revision r ::
  client_key (session_client (key_session (rec_key r))) ++
  generation (key_session (rec_key r)) :: segment_key (key_segment (rec_key r)).

Record GracefulUnmountQueue := mkQueue {
  q_deadlines : list GracefulDeadlineRecord;
  q_pending : gmap GracefulUnmountKey PendingGracefulUnmount;
  next_revision : N;
  cancelled_since_report : N
}.

Definition queue_default : GracefulUnmountQueue := mkQueue [] ∅ 0 0.

(** ** Operations *)

Definition queue_insert (k : GracefulUnmountKey) (inc : SegmentHandle) (deadline : N)
    (q : GracefulUnmountQueue) : GracefulUnmountQueue :=
  let revision := N.max (wrapping_add (next_revision q) 1) 1 in
  mkQueue (pq_push record_key (mkRecord deadline revision k) (q_deadlines q))
    (<[k := mkUnmount deadline inc revision false]> (q_pending q))
    revision (cancelled_since_report q).

Definition queue_schedule (k : GracefulUnmountKey) (inc : SegmentHandle) (deadline : N)
    (q : GracefulUnmountQueue) : GracefulUnmountQueue :=
  match q_pending q !! k with
  | Some pu =>
      if incarnation_matches (pu_incarnation pu) inc &&
         (pu_claimed pu || (pu_deadline pu <=? deadline))
      then q
      else queue_insert k inc deadline q
  | None => queue_insert k inc deadline q
  end.

Definition queue_cancel (k : GracefulUnmountKey) (q : GracefulUnmountQueue)
    : GracefulUnmountQueue :=
  mkQueue (q_deadlines q) (delete k (q_pending q)) (next_revision q)
    (match q_pending q !! k with
     | Some pu =>
         if pu_claimed pu then cancelled_since_report q
         else saturating_add (cancelled_since_report q) 1
     | None => cancelled_since_report q
     end).

Definition unclaimed_of (s : ClientSession)
    (m : gmap GracefulUnmountKey PendingGracefulUnmount) : N :=
  N.of_nat (size (filter (fun kp => key_session kp.1 = s ∧ pu_claimed kp.2 = false) m)).

Definition queue_cancel_session (s : ClientSession) (q : GracefulUnmountQueue)
    : GracefulUnmountQueue :=
  mkQueue (q_deadlines q) (filter (fun kp => key_session kp.1 ≠ s) (q_pending q))
    (next_revision q)
    (saturating_add (cancelled_since_report q) (unclaimed_of s (q_pending q))).

Definition queue_contains (k : GracefulUnmountKey) (inc : SegmentHandle)
    (q : GracefulUnmountQueue) : bool :=
  match q_pending q !! k with
  | Some pu => incarnation_matches (pu_incarnation pu) inc
  | None => false
  end.

Definition record_current (m : gmap GracefulUnmountKey PendingGracefulUnmount)
    (r : GracefulDeadlineRecord) : bool :=
  match m !! rec_key r with
  | Some pu => (pu_revision pu =? rec_revision r) && (pu_deadline pu =? rec_deadline r)
  | None => false
  end.

Fixpoint prune_records (m : gmap GracefulUnmountKey PendingGracefulUnmount)
    (l : list GracefulDeadlineRecord) : list GracefulDeadlineRecord :=
  match l with
  | [] => []
  | r :: l' => if record_current m r then l else prune_records m l'
  end.

Definition prune_stale_deadlines (q : GracefulUnmountQueue) : GracefulUnmountQueue :=
  mkQueue (prune_records (q_pending q) (q_deadlines q)) (q_pending q) (next_revision q)
    (cancelled_since_report q).

Definition next_deadline (q : GracefulUnmountQueue) : option N * GracefulUnmountQueue :=
  let q' := prune_stale_deadlines q in (rec_deadline <$> head (q_deadlines q'), q').

(** [while jobs.len() < budget], [remaining] being the difference.  A pruned
    record leaves the loop where it was, so pruning and claiming are one
    recursion on the records. *)
Fixpoint claim_loop (now : N) (remaining : nat) (l : list GracefulDeadlineRecord)
    (m : gmap GracefulUnmountKey PendingGracefulUnmount) (jobs : list GracefulUnmountJob)
    : list GracefulUnmountJob * list GracefulDeadlineRecord *
      gmap GracefulUnmountKey PendingGracefulUnmount :=
  match remaining, l with
  | O, _ | _, [] => (jobs, l, m)
  | S remaining', r :: l' =>
      if negb (record_current m r) then claim_loop now remaining l' m jobs
      else if now <? rec_deadline r then (jobs, l, m)
      else match m !! rec_key r with
      | None => claim_loop now remaining l' m jobs
      | Some pu =>
          if negb (pu_revision pu =? rec_revision r) || negb (pu_deadline pu =? rec_deadline r)
             || pu_claimed pu
          then claim_loop now remaining l' m jobs
          else
            claim_loop now remaining' l'
              (<[rec_key r :=
                  mkUnmount (pu_deadline pu) (pu_incarnation pu) (pu_revision pu) true]> m)
              (jobs ++ [mkJob (rec_key r) (pu_incarnation pu) (rec_revision r)])
      end
  end.

Definition claim_due (now : N) (budget : nat) (q : GracefulUnmountQueue)
    : list GracefulUnmountJob * GracefulUnmountQueue :=
  let '(jobs, l, m) := claim_loop now budget (q_deadlines q) (q_pending q) [] in
  (jobs, mkQueue l m (next_revision q) (cancelled_since_report q)).

Definition take_cancelled (q : GracefulUnmountQueue) : N * GracefulUnmountQueue :=
  (cancelled_since_report q, mkQueue (q_deadlines q) (q_pending q) (next_revision q) 0).

Definition job_current (j : GracefulUnmountJob) (q : GracefulUnmountQueue) : bool :=
  match q_pending q !! job_key j with
  | Some pu => pu_revision pu =? job_revision j
  | None => false
  end.

Definition queue_finish (j : GracefulUnmountJob) (q : GracefulUnmountQueue)
    : GracefulUnmountQueue :=
  if job_current j q
  then mkQueue (q_deadlines q) (delete (job_key j) (q_pending q)) (next_revision q)
         (cancelled_since_report q)
  else q.

Definition queue_retry (j : GracefulUnmountJob) (deadline : N) (q : GracefulUnmountQueue)
    : bool * GracefulUnmountQueue :=
  if negb (job_current j q) then (false, q)
  else (true, queue_insert (job_key j) (job_incarnation j) deadline q).

(** ** The queue between two calls *)

(** The heap is sorted, and every unmount that is not claimed has its record. *)
Record queue_ok (q : GracefulUnmountQueue) : Prop := {
  qo_sorted : key_sorted record_key (q_deadlines q);
  qo_record k pu : q_pending q !! k = Some pu → pu_claimed pu = false →
    mkRecord (pu_deadline pu) (pu_revision pu) k ∈ q_deadlines q
}.

Definition queue_idle (q : GracefulUnmountQueue) : Prop :=
  ∀ k pu, q_pending q !! k = Some pu → pu_claimed pu = false.

Lemma queue_default_ok : queue_ok queue_default ∧ queue_idle queue_default.
Proof. split; [split; [constructor|]|]; intros k pu; simpl; by rewrite lookup_empty. Qed.

(** Dropping entries keeps the queue in order. *)
Lemma queue_ok_less q q' :
  q_deadlines q' = q_deadlines q → q_pending q' ⊆ q_pending q → queue_ok q → queue_ok q'.
Proof.
  intros Hd Hp [Hs Hr]. split; rewrite Hd; [done|]. intros k pu Hk.
  apply Hr. by eapply lookup_weaken.
Qed.

Lemma queue_insert_ok k inc d q : queue_ok q → queue_ok (queue_insert k inc d q).
Proof.
  intros [Hs Hr]. split; simpl; [by apply pq_push_sorted|].
  intros k' pu. rewrite lookup_insert, elem_of_pq_push. case_decide as Hk.
  - subst k'. intros [= <-]. by left.
  - intros Hp Hc. right. by apply Hr.
Qed.

Lemma queue_schedule_ok k inc d q : queue_ok q → queue_ok (queue_schedule k inc d q).
Proof. intros Hq. unfold queue_schedule. repeat case_match; auto using queue_insert_ok. Qed.

Lemma queue_cancel_ok k q : queue_ok q → queue_ok (queue_cancel k q).
Proof. apply queue_ok_less; [done|]. simpl. apply delete_subseteq. Qed.

Lemma queue_cancel_session_ok s q : queue_ok q → queue_ok (queue_cancel_session s q).
Proof. apply queue_ok_less; [done|]. simpl. apply map_filter_subseteq. Qed.

Lemma queue_finish_ok j q : queue_ok q → queue_ok (queue_finish j q).
Proof.
  unfold queue_finish. destruct (job_current j q); [|done].
  apply queue_ok_less; [done|]. simpl. apply delete_subseteq.
Qed.

#[export] Hint Resolve queue_insert_ok queue_schedule_ok queue_cancel_ok queue_cancel_session_ok
  queue_finish_ok : cake.

(** ** Due unmounts *)

Definition set_claimed (pu : PendingGracefulUnmount) : PendingGracefulUnmount :=
  mkUnmount (pu_deadline pu) (pu_incarnation pu) (pu_revision pu) true.

(** A job that may be claimed at [now]: an unmount whose deadline has passed. *)
Definition due (now : N) (m : gmap GracefulUnmountKey PendingGracefulUnmount)
    (j : GracefulUnmountJob) : Prop :=
  ∃ pu, m !! job_key j = Some pu ∧ pu_claimed pu = false ∧ pu_deadline pu <= now ∧
    job_incarnation j = pu_incarnation pu ∧ job_revision j = pu_revision pu.

(** [m'] is [m] with the jobs of [new] claimed. *)
Definition claims_jobs (new : list GracefulUnmountJob)
    (m m' : gmap GracefulUnmountKey PendingGracefulUnmount) : Prop :=
  ∀ k, m' !! k = if bool_decide (k ∈ (job_key <$> new)) then set_claimed <$> m !! k else m !! k.

Definition covered (l : list GracefulDeadlineRecord)
    (m : gmap GracefulUnmountKey PendingGracefulUnmount) : Prop :=
  ∀ k pu, m !! k = Some pu → pu_claimed pu = false →
    mkRecord (pu_deadline pu) (pu_revision pu) k ∈ l.

Definition none_due (now : N) (m : gmap GracefulUnmountKey PendingGracefulUnmount) : Prop :=
  ∀ k pu, m !! k = Some pu → pu_claimed pu = false → now < pu_deadline pu.

Lemma claims_nil m : claims_jobs [] m m.
Proof. intros k. by rewrite bool_decide_false by (simpl; set_solver). Qed.

Lemma claims_cons k pu inc r new m m' :
  m !! k = Some pu →
  claims_jobs new (<[k := set_claimed pu]> m) m' → claims_jobs (mkJob k inc r :: new) m m'.
Proof.
  intros Hk Hnew k'. rewrite (Hnew k'). simpl. rewrite lookup_insert.
  destruct (decide (k = k')) as [<-|Hne].
  - rewrite Hk, (bool_decide_true (k ∈ k :: _)) by set_solver. simpl. by case_bool_decide.
  - by rewrite (bool_decide_ext (k' ∈ (job_key <$> new)) (k' ∈ k :: (job_key <$> new))) by set_solver.
Qed.

(** Records are passed over only when they are stale or claimed now. *)
Lemma covered_skip r l m : covered (r :: l) m → record_current m r = false → covered l m.
Proof.
  intros Hc Hr k pu Hk Hcl. specialize (Hc k pu Hk Hcl). apply elem_of_cons in Hc as [<-|]; [|done].
  unfold record_current in Hr. simpl in Hr. rewrite Hk, !N.eqb_refl in Hr. done.
Qed.

Lemma covered_claim r l m pu :
  covered (r :: l) m → m !! rec_key r = Some pu → covered l (<[rec_key r := set_claimed pu]> m).
Proof.
  intros Hc Hr k pu' Hk Hcl. rewrite lookup_insert in Hk. case_decide as Heq.
  - injection Hk as <-. done.
  - specialize (Hc k pu' Hk Hcl). apply elem_of_cons in Hc as [<-|]; done.
Qed.

Lemma late_head now r l m :
  key_sorted record_key (r :: l) → covered (r :: l) m → now < rec_deadline r → none_due now m.
Proof.
  intros Hs Hc Hr k pu Hk Hcl. specialize (Hc k pu Hk Hcl).
  apply StronglySorted_inv in Hs as [_ Hall]. apply elem_of_cons in Hc as [<-|Hin]; [done|].
  rewrite Forall_forall in Hall. specialize (Hall _ Hin). apply lex_leb_head in Hall.
  simpl in Hall. lia.
Qed.

(** The loop claims different due jobs, as many as the budget allows or all. *)
Lemma claim_loop_ok now l : ∀ n m jobs,
  key_sorted record_key l → covered l m →
  ∃ new l' m', claim_loop now n l m jobs = (jobs ++ new, l', m') ∧
    key_sorted record_key l' ∧ covered l' m' ∧ claims_jobs new m m' ∧
    NoDup (job_key <$> new) ∧ Forall (due now m) new ∧ (length new <= n)%nat ∧
    (length new = n ∨ none_due now m').
Proof.
  induction l as [|r l IH]; intros n m jobs Hs Hc.
  - exists [], [], m. simpl. rewrite app_nil_r. split_and!;
      [by destruct n|done|done|apply claims_nil|constructor|constructor|lia|].
    right. intros k pu Hk Hcl. specialize (Hc k pu Hk Hcl). set_solver.
  - destruct n as [|n].
    { exists [], (r :: l), m. simpl. rewrite app_nil_r. split_and!; auto using claims_nil, NoDup_nil_2. }
    simpl. apply pq_tail_sorted in Hs as Hs'. destruct (record_current m r) eqn:Hr; simpl.
    2: { apply (IH (S n) m jobs Hs'). by eapply covered_skip. }
    destruct (N.ltb_spec now (rec_deadline r)) as [Hlate|Hdue].
    { exists [], (r :: l), m. rewrite app_nil_r.
      split_and!; auto using claims_nil, NoDup_nil_2; simpl; [lia|right]. by eapply late_head. }
    unfold record_current in Hr. destruct (m !! rec_key r) as [pu|] eqn:Hk; [|done].
    apply andb_prop in Hr as [Hrev Hd]. rewrite Hrev, Hd. simpl. apply N.eqb_eq in Hrev, Hd.
    destruct (pu_claimed pu) eqn:Hcl.
    { apply (IH (S n) m jobs Hs'). intros k pu' Hk' Hcl'. specialize (Hc k pu' Hk' Hcl').
      apply elem_of_cons in Hc as [<-|]; [|done]. simpl in Hk. congruence. }
    fold (set_claimed pu).
    destruct (IH n (<[rec_key r := set_claimed pu]> m)
      (jobs ++ [mkJob (rec_key r) (pu_incarnation pu) (rec_revision r)]) Hs')
      as (new & l' & m' & -> & Hs1 & Hc1 & Hcj & Hnd & Hdue' & Hlen & Hend);
      [by eapply covered_claim|].
    exists (mkJob (rec_key r) (pu_incarnation pu) (rec_revision r) :: new), l', m'.
    assert (Forall (fun j => job_key j ≠ rec_key r ∧ due now m j) new) as Hnew.
    { eapply Forall_impl; [exact Hdue'|]. intros j (pu' & Hj & Hj'). rewrite lookup_insert in Hj.
      case_decide as Heq; [by injection Hj as <-; destruct Hj'|]. split; [congruence|by exists pu']. }
    split_and!; [by rewrite <- app_assoc|done|done|by eapply claims_cons| | |simpl; lia|].
    + simpl. apply NoDup_cons. split; [|done]. intros (j & Heq & Hj)%list_elem_of_fmap.
      rewrite Forall_forall in Hnew. by destruct (Hnew j Hj) as [[] _].
    + constructor; [|by eapply Forall_impl; [exact Hnew|intros j []]].
      exists pu. simpl. split_and!; auto; lia.
    + destruct Hend; [left; simpl; lia|by right].
Qed.

(** [claim_due] on a queue in order. *)
Lemma claim_due_ok now budget q jobs q' :
  queue_ok q → claim_due now budget q = (jobs, q') →
  queue_ok q' ∧ claims_jobs jobs (q_pending q) (q_pending q') ∧ NoDup (job_key <$> jobs) ∧
  Forall (due now (q_pending q)) jobs ∧ (length jobs <= budget)%nat ∧
  (length jobs = budget ∨ none_due now (q_pending q')).
Proof.
  intros [Hs Hr] Hc. unfold claim_due in Hc.
  destruct (claim_loop_ok now (q_deadlines q) budget (q_pending q) [] Hs Hr)
    as (new & l' & m' & He & Hs' & Hc' & Hrest).
  rewrite He in Hc. simpl in Hc. injection Hc as <- <-. split; [by split|exact Hrest].
Qed.

(** ** The next deadline *)

Lemma prune_records_ok m l :
  key_sorted record_key l → covered l m →
  key_sorted record_key (prune_records m l) ∧ covered (prune_records m l) m.
Proof.
  induction l as [|r l IH]; intros Hs Hc; simpl; [done|].
  destruct (record_current m r) eqn:Hr; [done|].
  apply IH; [by eapply pq_tail_sorted|by eapply covered_skip].
Qed.

Lemma prune_records_head m l r l' : prune_records m l = r :: l' → record_current m r = true.
Proof.
  induction l as [|x l IH]; simpl; [done|].
  destruct (record_current m x) eqn:Hx; [by intros [= <- <-]|done].
Qed.

Lemma next_deadline_ok q : queue_ok q → queue_ok (next_deadline q).2.
Proof. intros [Hs Hc]. split; simpl; by apply prune_records_ok. Qed.

(** What [next_deadline] answers: the least deadline of the pending unmounts. *)
Lemma next_deadline_least q :
  queue_ok q → queue_idle q →
  match (next_deadline q).1 with
  | None => q_pending q = ∅
  | Some d => (∃ k pu, q_pending q !! k = Some pu ∧ pu_deadline pu = d) ∧
      ∀ k pu, q_pending q !! k = Some pu → d <= pu_deadline pu
  end.
Proof.
  intros [Hs Hc] Hi. simpl. destruct (prune_records_ok _ _ Hs Hc) as [Hs' Hc'].
  pose proof (prune_records_head (q_pending q) (q_deadlines q)) as Hh.
  destruct (prune_records _ _) as [|r l]; simpl.
  - apply map_eq. intros k. rewrite lookup_empty. destruct (q_pending q !! k) as [pu|] eqn:Hk; [|done].
    specialize (Hc' k pu Hk (Hi k pu Hk)). set_solver.
  - split.
    + specialize (Hh r l eq_refl). unfold record_current in Hh.
      destruct (q_pending q !! rec_key r) as [pu|] eqn:Hk; [|done]. bool_to_prop. eauto.
    + intros k pu Hk. destruct (N.le_gt_cases (rec_deadline r) (pu_deadline pu)) as [|Hlt]; [done|].
      pose proof (late_head (pu_deadline pu) r l _ Hs' Hc' Hlt k pu Hk (Hi k pu Hk)). lia.
Qed.
