(* ===== verification/ClientManager.v ===== *)
(** * Client manager

    [src/src/client/manager.rs]: the sessions of [ClientRegistry], the segments
    each session has mounted in the pool that the object manager allocates
    from, the staged writes that are revoked when a session ends, and the
    graceful unmounts.  Every call is one step: the per-client lock is held from
    the first change of a client's resources to the last.  A [ClientSlot] is an
    entry of [cm_slots]; the calling thread and the map hold the only two
    references to it.  Logging is left out. *)
From S2P Require Import Prelude Identity ClientLifecycle Segment ByteAllocator SegmentPool Placement TenantQuota Replica.
From S2P Require Import ObjectTypes CatalogState CatalogWrite CatalogCollector CatalogResources Eviction ObjectManager.
From S2P Require Import GracefulUnmount.

Definition GRACEFUL_UNMOUNT_RETRY_TICKS : N := 100.

Record ClientCleanupReport := mkCleanupReport {
  completed_sessions : N;
  revoked_pending_writes : N;
  invalidated_segments : N
}.

Record GracefulUnmountReport := mkUnmountReport {
  gr_completed : N;
  stale_or_cancelled : N;
  gr_retried : N
}.

Inductive SegmentUnmountOutcome := Unmounted | AlreadyAbsent.

Inductive ClientManagerError :=
| ManagerLifecycle (e : ClientLifecycleError)
| ManagerAttach (e : AttachError)
| ManagerSegmentState (e : SegmentStateError)
| ActiveRemountConflict
| InconsistentSlot
| SegmentUnavailable (i : SegmentId)
| ManagerRollback (segment : SegmentId) (source : SegmentStateError).

Record ClientMountState := mkMount {
  ms_session : option ClientSession;
  ms_segments : gset SegmentId
}.

Definition mount_default : ClientMountState := mkMount None ∅.

(** [WriteOwner::for_session], and the session a generation-bound owner names. *)
Definition for_session (s : ClientSession) : WriteOwner :=
  mkWriteOwner (session_client s) (generation s).

Definition outcome_session (o : ActivateOutcome) : ClientSession :=
  match o with Activated s | AlreadyActive s => s end.

Definition outcome_segment (o : AttachOutcome) : SegmentHandle :=
  match o with Attached h | AlreadyAttached h => h end.

Section Manager.
Context {A Alloc : Type} `{U : Upstream A Alloc} (cfg : ClientLifecycleConfig).

Record ClientManager := mkClientManager {
  cm_registry : RegistryState;
  cm_objects : ObjectManager A Alloc;
  cm_slots : gmap ClientId ClientMountState;
  graceful_unmounts : GracefulUnmountQueue
}.

Implicit Types (m : ClientManager).

Definition cm_pool m : Pool A := om_pool (cm_objects m).

Definition cm_new (objects : ObjectManager A Alloc) : ClientManager :=
  mkClientManager registry_init objects ∅ queue_default.

Definition with_registry (r : RegistryState) m :=
  mkClientManager r (cm_objects m) (cm_slots m) (graceful_unmounts m).
Definition with_objects (o : ObjectManager A Alloc) m :=
  mkClientManager (cm_registry m) o (cm_slots m) (graceful_unmounts m).
Definition with_slots (s : gmap ClientId ClientMountState) m :=
  mkClientManager (cm_registry m) (cm_objects m) s (graceful_unmounts m).
Definition with_queue (q : GracefulUnmountQueue) m :=
  mkClientManager (cm_registry m) (cm_objects m) (cm_slots m) q.

(** ** Calls that may fail *)

Definition act (E T : Type) : Type := ClientManager → res E T * ClientManager.

Definition ret {E T} (x : T) : act E T := fun m => (Ok x, m).
Definition throw {E T} (e : E) : act E T := fun m => (Err e, m).

Definition bind {E T S} (f : act E T) (k : T → act E S) : act E S := fun m =>
  match f m with
  | (Ok x, m') => k x m'
  | (Err e, m') => (Err e, m')
  | (Panic, m') => (Panic, m')
  end.

(** [?] with the conversion of the error. *)
Definition map_error {E E' T} (g : E → E') (f : act E T) : act E' T := fun m =>
  match f m with
  | (Ok x, m') => (Ok x, m')
  | (Err e, m') => (Err (g e), m')
  | (Panic, m') => (Panic, m')
  end.

Definition of_option {E T} (e : E) (o : option T) : act E T :=
  match o with Some x => ret x | None => throw e end.
Definition of_res {E T} (r : res E T) : act E T := fun m => (r, m).
Definition update {E} (f : ClientManager → ClientManager) : act E unit := fun m => (Ok tt, f m).
Definition read {E T} (f : ClientManager → T) : act E T := fun m => (Ok (f m), m).

(** A failed call is handled by [h], which has its own outcome. *)
Definition handle {E E' T S} (f : act E T) (k : T → act E' S) (h : E → act E' S) : act E' S :=
  fun m =>
    match f m with
    | (Ok x, m') => k x m'
    | (Err e, m') => h e m'
    | (Panic, m') => (Panic, m')
    end.

Definition pool_call {E T} (f : Pool A → res E T * Pool A) : act E T := fun m =>
  let '(r, p) := f (cm_pool m) in (r, with_objects (with_pool p (cm_objects m)) m).

Definition registry_call {E T} (f : RegistryState → res E T * RegistryState) : act E T := fun m =>
  let '(r, st) := f (cm_registry m) in (r, with_registry st m).

Definition queue_update (f : GracefulUnmountQueue → GracefulUnmountQueue) m :=
  with_queue (f (graceful_unmounts m)) m.

Local Notation "'let!' x := f 'in' k" := (bind f (fun x => k))
  (at level 10, x pattern, f at level 100, k at level 200).
Local Notation "f ;; k" := (bind f (fun _ => k))
  (at level 100, k at level 200, right associativity).

(** [handle.spec()] and [handle.stats().state] of an entry the pool stores. *)
Definition segment_entry {E} (h : SegmentHandle) : act E SegmentEntry := fun m =>
  match entries (cm_pool m) !! handle_entry h with
  | Some e => (Ok e, m)
  | None => (Panic, m)
  end.

(** ** Slots *)

Definition slot (c : ClientId) m : ClientManager :=
  match cm_slots m !! c with
  | Some _ => m
  | None => with_slots (<[c := mount_default]> (cm_slots m)) m
  end.

Definition existing_slot (c : ClientId) m : option ClientMountState := cm_slots m !! c.

Definition set_slot (c : ClientId) (s : ClientMountState) m : ClientManager :=
  with_slots (<[c := s]> (cm_slots m)) m.

Definition prune_unused_slot (c : ClientId) m : ClientManager :=
  match cm_slots m !! c with
  | Some s =>
      match ms_session s with
      | Some _ => m
      | None => with_slots (delete c (cm_slots m)) m
      end
  | None => m
  end.

(** The shape of [mount_segment] and [remount] around the locked part. *)
Definition with_slot {T} (c : ClientId) (f : ClientMountState → act ClientManagerError T)
    : act ClientManagerError T := fun m =>
  let m1 := slot c m in
  match f (default mount_default (cm_slots m1 !! c)) m1 with
  | (Err e, m2) => (Err e, prune_unused_slot c m2)
  | r => r
  end.

(** ** Rollback *)

Definition first_or {E} (first : option E) (e : E) : option E :=
  match first with Some x => Some x | None => Some e end.

Fixpoint rollback_reactivated (c : ClientId) (ids : list SegmentId)
    (first : option ClientManagerError) (p : Pool A)
    : res ClientManagerError (option ClientManagerError) * Pool A :=
  match ids with
  | [] => (Ok first, p)
  | i :: ids' =>
      match pool_quiesce c i p with
      | (Ok _, p') => rollback_reactivated c ids' first p'
      | (Err e, p') => rollback_reactivated c ids' (first_or first (ManagerRollback i e)) p'
      | (Panic, p') => (Panic, p')
      end
  end.

Fixpoint rollback_attached (c : ClientId) (ids : list SegmentId)
    (first : option ClientManagerError) (p : Pool A)
    : res ClientManagerError (option ClientManagerError) * Pool A :=
  match ids with
  | [] => (Ok first, p)
  | i :: ids' =>
      match pool_quiesce c i p with
      | (Ok _, p1) =>
          match pool_remove c i p1 with
          | (Ok _, p2) => rollback_attached c ids' first p2
          | (Err e, p2) => rollback_attached c ids' (first_or first (ManagerRollback i e)) p2
          | (Panic, p2) => (Panic, p2)
          end
      | (Err e, p1) => rollback_attached c ids' (first_or first (ManagerRollback i e)) p1
      | (Panic, p1) => (Panic, p1)
      end
  end.

Definition rollback (c : ClientId) (attached reactivated : list SegmentId)
    : act ClientManagerError unit :=
  let! first := pool_call (rollback_reactivated c (rev reactivated) None) in
  let! first := pool_call (rollback_attached c (rev attached) first) in
  match first with Some e => throw e | None => ret tt end.

(** [self.rollback(..)?; return Err(e)]. *)
Definition undo {T} (c : ClientId) (attached reactivated : list SegmentId)
    (e : ClientManagerError) : act ClientManagerError T :=
  rollback c attached reactivated ;; throw e.

(** ** Mounting *)

Definition mount_segment_absent (c : ClientId) (s : SegmentSpec) (now : N)
    (ms : ClientMountState) : act ClientManagerError ActivateOutcome :=
  let! outcome := map_error ManagerAttach (pool_call (pool_attach_quiesced s)) in
  let! e := segment_entry (outcome_segment outcome) in
  let i := spec_id (spec e) in
  let attached := if is_new outcome then [i] else [] in
  handle (registry_call (activate cfg c now))
    (fun activation =>
      match activation with
      | AlreadyActive _ => undo c attached [] InconsistentSlot
      | Activated session =>
          handle (pool_call (pool_reactivate c i))
            (fun _ =>
              update (set_slot c (mkMount (Some session) ({[i]} ∪ ms_segments ms))) ;;
              ret activation)
            (fun source m =>
              let '(registry_rollback, st) := rollback_activation session (cm_registry m) in
              (rollback c attached [] ;;
               map_error ManagerLifecycle (of_res registry_rollback) ;;
               throw (ManagerSegmentState source)) (with_registry st m))
      end)
    (fun e => undo c attached [] (ManagerLifecycle e)).

Definition mount_segment_active (c : ClientId) (s : SegmentSpec) (now : N)
    (ms : ClientMountState) : act ClientManagerError ActivateOutcome :=
  let! registered := map_error ManagerLifecycle (fun m => (active_session c (cm_registry m), m)) in
  if negb (bool_decide (ms_session ms = Some registered)) then throw InconsistentSlot
  else
    let i := spec_id s in
    if bool_decide (i ∈ ms_segments ms) then
      let! found := read (fun m => catalog_segment i (cm_pool m)) in
      let! h := of_option InconsistentSlot found in
      let! e := segment_entry h in
      if negb (bool_decide (spec e = s)) then throw ActiveRemountConflict
      else if negb (is_accepting (state e)) then throw (SegmentUnavailable i)
      else map_error ManagerLifecycle (registry_call (activate cfg c now))
    else
      let! outcome := map_error ManagerAttach (pool_call (pool_attach_quiesced s)) in
      if negb (is_new outcome) then throw InconsistentSlot
      else
        handle (pool_call (pool_reactivate c i))
          (fun _ =>
            handle (registry_call (activate cfg c now))
              (fun activation =>
                match activation with
                | AlreadyActive current =>
                    if bool_decide (current = registered) then
                      update (set_slot c (mkMount (ms_session ms) ({[i]} ∪ ms_segments ms))) ;;
                      ret activation
                    else undo c [i] [] InconsistentSlot
                | Activated _ => undo c [i] [] InconsistentSlot
                end)
              (fun e => undo c [i] [] (ManagerLifecycle e)))
          (fun source => undo c [i] [] (ManagerSegmentState source)).

Definition mount_segment (c : ClientId) (s : SegmentSpec) (now : N)
    : act ClientManagerError ActivateOutcome :=
  if client_is_nil c then throw (ManagerLifecycle NilClientId)
  else if negb (bool_decide (spec_owner s = c)) then
    throw (ManagerSegmentState (OwnerMismatch (spec_id s) (spec_owner s) c))
  else
    with_slot c (fun ms m =>
      match registry_state c (cm_registry m) with
      | None => mount_segment_absent c s now ms m
      | Some Active => mount_segment_active c s now ms m
      | Some state => throw (ManagerLifecycle (CleanupInProgress state)) m
      end).

(** ** Remounting *)

Definition remount_active (c : ClientId) (specs : list SegmentSpec) (now : N)
    (ms : ClientMountState) : act ClientManagerError ActivateOutcome :=
  let! registered := map_error ManagerLifecycle (fun m => (active_session c (cm_registry m), m)) in
  if negb (bool_decide (ms_session ms = Some registered)) then throw InconsistentSlot
  else
    let! p := read cm_pool in
    if negb (bool_decide (list_to_set (map spec_id specs) = ms_segments ms)) ||
       existsb (fun s =>
         match catalog_segment (spec_id s) p with
         | None => true
         | Some h =>
             match entries p !! handle_entry h with
             | None => true
             | Some e => negb (bool_decide (spec e = s))
             end
         end) specs
    then throw ActiveRemountConflict
    else map_error ManagerLifecycle (registry_call (activate cfg c now)).

Fixpoint attach_each (c : ClientId) (specs : list SegmentSpec)
    (attached quiesced_existing : list SegmentId)
    : act ClientManagerError (list SegmentId * list SegmentId) :=
  match specs with
  | [] => ret (attached, quiesced_existing)
  | s :: rest =>
      handle (pool_call (pool_attach_quiesced s))
        (fun outcome =>
          let! e := segment_entry (outcome_segment outcome) in
          let i := spec_id (spec e) in
          if is_new outcome then attach_each c rest (attached ++ [i]) quiesced_existing
          else if bool_decide (state e = Quiesced) then
            attach_each c rest attached (quiesced_existing ++ [i])
          else attach_each c rest attached quiesced_existing)
        (fun e => undo c attached [] (ManagerAttach e))
  end.

Definition remount_absent (c : ClientId) (specs : list SegmentSpec) (now : N)
    : act ClientManagerError ActivateOutcome :=
  let! (attached, quiesced_existing) := attach_each c specs [] [] in
  handle (pool_call (pool_reactivate_many c (attached ++ quiesced_existing)))
    (fun _ =>
      handle (registry_call (activate cfg c now))
        (fun outcome =>
          match outcome with
          | Activated session =>
              update (set_slot c (mkMount (Some session) (list_to_set (map spec_id specs)))) ;;
              ret outcome
          | AlreadyActive _ => undo c attached quiesced_existing InconsistentSlot
          end)
        (fun e => undo c attached quiesced_existing (ManagerLifecycle e)))
    (fun e => undo c attached quiesced_existing (ManagerSegmentState e)).

(** [remount_locked]. *)
Definition remount_locked (c : ClientId) (specs : list SegmentSpec) (now : N)
    (ms : ClientMountState) : act ClientManagerError ActivateOutcome := fun m =>
  match registry_state c (cm_registry m) with
  | Some Active => remount_active c specs now ms m
  | Some state => throw (ManagerLifecycle (CleanupInProgress state)) m
  | None => remount_absent c specs now m
  end.

Definition remount (c : ClientId) (specs : list SegmentSpec) (now : N)
    : act ClientManagerError ActivateOutcome :=
  if client_is_nil c then throw (ManagerLifecycle NilClientId)
  else with_slot c (remount_locked c specs now).

(** ** Unmounting *)

(** The checks that [unmount_segment] and [schedule_graceful_unmount] share once
    the segment is found: its owner, the active session and its slot. *)
Definition owned_segment (c : ClientId) (i : SegmentId) (h : SegmentHandle)
    : act ClientManagerError (SegmentEntry * ClientSession * ClientMountState) :=
  let! e := segment_entry h in
  if negb (bool_decide (spec_owner (spec e) = c)) then
    throw (ManagerSegmentState (OwnerMismatch i (spec_owner (spec e)) c))
  else
    let! registered := map_error ManagerLifecycle (fun m => (active_session c (cm_registry m), m)) in
    let! found := read (existing_slot c) in
    let! ms := of_option InconsistentSlot found in
    ret (e, registered, ms).

Definition slot_holds (ms : ClientMountState) (s : ClientSession) (i : SegmentId) : bool :=
  bool_decide (ms_session ms = Some s) && bool_decide (i ∈ ms_segments ms).

Definition drop_segment (i : SegmentId) (ms : ClientMountState) : ClientMountState :=
  mkMount (ms_session ms) (ms_segments ms ∖ {[i]}).

Definition unmount_segment (c : ClientId) (i : SegmentId)
    : act ClientManagerError SegmentUnmountOutcome :=
  if client_is_nil c then throw (ManagerLifecycle NilClientId)
  else if segment_is_nil i then throw (ManagerSegmentState (StateNotFound i))
  else
    let! found := read (fun m => catalog_segment i (cm_pool m)) in
    match found with
    | None => ret AlreadyAbsent
    | Some h =>
        let! (e, registered, ms) := owned_segment c i h in
        if negb (slot_holds ms registered i) then throw InconsistentSlot
        else
          map_error ManagerSegmentState (pool_call (pool_quiesce c i)) ;;
          map_error ManagerSegmentState (pool_call (pool_remove c i)) ;;
          update (set_slot c (drop_segment i ms)) ;;
          update (queue_update (queue_cancel (mkKey registered i))) ;;
          ret Unmounted
    end.

Definition schedule_graceful_unmount (c : ClientId) (i : SegmentId) (deadline : N)
    : act ClientManagerError unit :=
  if client_is_nil c then throw (ManagerLifecycle NilClientId)
  else if segment_is_nil i then throw (ManagerSegmentState (StateNotFound i))
  else
    let! found := read (fun m => catalog_segment i (cm_pool m)) in
    let! h := of_option (ManagerSegmentState (StateNotFound i)) found in
    let! (e, registered, ms) := owned_segment c i h in
    if negb (slot_holds ms registered i) then throw (ManagerSegmentState (StateNotFound i))
    else
      let k := mkKey registered i in
      let! q := read graceful_unmounts in
      (match state e with
       | Accepting => map_error ManagerSegmentState (pool_call (pool_quiesce c i))
       | Quiesced => if queue_contains k h q then ret tt else throw (SegmentUnavailable i)
       | Removed => throw (SegmentUnavailable i)
       end) ;;
      update (queue_update (queue_schedule k h deadline)).

Definition complete_graceful_unmount (j : GracefulUnmountJob) : act SegmentStateError bool :=
  let s := key_session (job_key j) in
  let c := session_client s in
  let i := key_segment (job_key j) in
  let! found := read (existing_slot c) in
  match found with
  | None => ret false
  | Some ms =>
      if negb (slot_holds ms s i) then ret false
      else
        let! found := read (fun m => catalog_segment i (cm_pool m)) in
        match found with
        | None => ret false
        | Some h =>
            if negb (incarnation_matches (job_incarnation j) h) then ret false
            else
              let! e := segment_entry h in
              match state e with
              | Accepting => pool_call (pool_quiesce c i) ;; throw (StillAccepting i)
              | Removed => ret false
              | Quiesced =>
                  pool_call (pool_remove c i) ;;
                  update (set_slot c (drop_segment i ms)) ;;
                  ret true
              end
        end
  end.

Fixpoint complete_each (now : N) (jobs : list GracefulUnmountJob) (rep : GracefulUnmountReport)
    m : res ClientManagerError GracefulUnmountReport * ClientManager :=
  match jobs with
  | [] => (Ok rep, m)
  | j :: jobs' =>
      match complete_graceful_unmount j m with
      | (Ok true, m1) =>
          complete_each now jobs'
            (mkUnmountReport (gr_completed rep + 1) (stale_or_cancelled rep) (gr_retried rep))
            (queue_update (queue_finish j) m1)
      | (Ok false, m1) =>
          complete_each now jobs'
            (mkUnmountReport (gr_completed rep) (stale_or_cancelled rep + 1) (gr_retried rep))
            (queue_update (queue_finish j) m1)
      | (Err _, m1) =>
          let '(again, q) :=
            queue_retry j (tick_saturating_add now GRACEFUL_UNMOUNT_RETRY_TICKS)
              (graceful_unmounts m1) in
          complete_each now jobs'
            (if again
             then mkUnmountReport (gr_completed rep) (stale_or_cancelled rep) (gr_retried rep + 1)
             else mkUnmountReport (gr_completed rep) (stale_or_cancelled rep + 1) (gr_retried rep))
            (with_queue q m1)
      | (Panic, m1) => (Panic, m1)
      end
  end.

Definition run_graceful_unmount_step (now : N)
    : act ClientManagerError GracefulUnmountReport := fun m =>
  let '(jobs, q1) := claim_due now (cleanup_scan_budget cfg) (graceful_unmounts m) in
  let '(cancelled, q2) := take_cancelled q1 in
  complete_each now jobs (mkUnmountReport 0 cancelled 0) (with_queue q2 m).

Definition next_graceful_unmount_deadline m : option N * ClientManager :=
  let '(d, q) := next_deadline (graceful_unmounts m) in (d, with_queue q m).

(** ** Cleanup of ended sessions *)

(** Claims that an early return drops, in the order they are dropped. *)
Definition drop_claims (claims : list ClientCleanup) m : ClientManager :=
  with_registry (foldl (fun st c => ClientCleanup_drop c st) (cm_registry m) claims) m.

(** The first loop of [cleanup_batch]; [ready] are the claims already seen. *)
Fixpoint detach_each (cleanups ready : list ClientCleanup) : act ClientManagerError unit :=
  match cleanups with
  | [] => ret tt
  | claim :: rest =>
      let s := cleanup_session claim in
      let c := session_client s in
      update (queue_update (queue_cancel_session s)) ;;
      let! found := read (existing_slot c) in
      match found with
      | None => detach_each rest (ready ++ [claim])
      | Some ms =>
          match ms_session ms with
          | None => detach_each rest (ready ++ [claim])
          | Some current =>
              if bool_decide (current = s) then
                update (set_slot c mount_default) ;; detach_each rest (ready ++ [claim])
              else
                update (drop_claims (claim :: rest ++ ready)) ;; throw InconsistentSlot
          end
      end
  end.

Fixpoint finish_each (ready : list ClientCleanup) (n : N) : act ClientManagerError N :=
  match ready with
  | [] => ret n
  | claim :: rest =>
      handle (registry_call (ClientCleanup_finish claim))
        (fun _ => finish_each rest (n + 1))
        (fun e => update (drop_claims rest) ;; throw (ManagerLifecycle e))
  end.

Definition cleanup_batch (cleanups : list ClientCleanup) (now : N)
    : act ClientManagerError ClientCleanupReport :=
  detach_each cleanups [] ;;
  let! revoked := fun m =>
    let '(n, o) := revoke_sessions (map (fun k => for_session (cleanup_session k)) cleanups) now
                     (cm_objects m) in
    (Ok n, with_objects o m) in
  let! invalidated :=
    map_error ManagerSegmentState
      (pool_call (pool_invalidate_owners
        (map (fun k => session_client (cleanup_session k)) cleanups))) in
  update (fun m => foldl (fun m k => prune_unused_slot (session_client (cleanup_session k)) m)
                     m cleanups) ;;
  let! completed := finish_each cleanups 0 in
  ret (mkCleanupReport completed revoked invalidated).

Fixpoint begin_each (sessions : list ClientSession) (reason : CleanupReason)
    (cleanups : list ClientCleanup) : act ClientManagerError (list ClientCleanup) :=
  match sessions with
  | [] => ret cleanups
  | s :: rest =>
      handle (registry_call (begin_drain s reason))
        (fun cleanup => begin_each rest reason (cleanups ++ option_list cleanup))
        (fun e => update (drop_claims cleanups) ;; throw (ManagerLifecycle e))
  end.

Definition drain_sessions (sessions : list ClientSession) (reason : CleanupReason) (now : N)
    : act ClientManagerError ClientCleanupReport :=
  let! cleanups := begin_each sessions reason [] in cleanup_batch cleanups now.

Definition run_cleanup_step (client_now catalog_now : N)
    : act ClientManagerError ClientCleanupReport :=
  let! cleanups := fun m =>
    let '(cleanups, st) :=
      claim_due_cleanups cfg client_now (cleanup_scan_budget cfg) (cm_registry m) in
    (Ok cleanups, with_registry st m) in
  cleanup_batch cleanups catalog_now.

(** ** Sessions *)

Definition cm_heartbeat (c : ClientId) (now : N) m : HeartbeatOutcome * ClientManager :=
  let '(o, st) := heartbeat cfg c now (cm_registry m) in (o, with_registry st m).

Definition write_owner (c : ClientId) m : res ClientLifecycleError WriteOwner :=
  let? s := active_session c (cm_registry m) in Ok (for_session s).

(** [WriteAdmission::guarded]: the admission is the owner it is made for. *)
Definition write_admission (c : ClientId) m : res ClientLifecycleError WriteOwner :=
  let? s := active_session_guard c (cm_registry m) in Ok (for_session s).

(** [WriteAdmission::is_active]: generation zero has no guard. *)
Definition admission_is_active (o : WriteOwner) m : bool :=
  (session_generation o =? 0) ||
  guard_is_active (mkSession (wo_client o) (session_generation o)) (cm_registry m).
End Manager.

Arguments ClientManager : clear implicits.
Arguments act : clear implicits.
