(* ===== verification/ClientViews.v ===== *)
(** * What the client manager keeps consistent

    The sessions of the registry, the mounted segments of the pool, the slots
    and the pending graceful unmounts as four maps, the relation between them
    that the calls of [ClientManager] keep, and the changes of the maps that
    keep it. *)
From S2P Require Import Prelude Identity ClientLifecycle Segment ByteAllocator SegmentPool PoolView.
From S2P Require Import Placement TenantQuota Replica ObjectTypes CatalogState CatalogWrite CatalogCollector CatalogResources.
From S2P Require Import Eviction ObjectManager GracefulUnmount ClientManager.

Abbreviation Sessions := (gmap ClientId ClientSession).
Abbreviation Slots := (gmap ClientId ClientMountState).
Abbreviation Unmounts := (gmap GracefulUnmountKey PendingGracefulUnmount).

(** The segments of a client. *)
Definition owned_by (c : ClientId) (V : Mounts) : gset SegmentId :=
  dom (filter (fun kx : SegmentId * (N * SegmentEntry) => spec_owner (spec kx.2.2) = c) V).

Lemma elem_of_owned i c V :
  i ∈ owned_by c V ↔ ∃ a e, V !! i = Some (a, e) ∧ spec_owner (spec e) = c.
Proof.
  unfold owned_by. rewrite elem_of_dom. split.
  - intros [[a e] [Hi Hc]%map_lookup_filter_Some]. eauto.
  - intros (a & e & Hi & Hc). exists (a, e). by apply map_lookup_filter_Some.
Qed.

Record consistent (S : Sessions) (V : Mounts) (pid : N) (sl : Slots) (Q : Unmounts) : Prop := {
  (** a session is registered for its own client; *)
  cn_client c s : S !! c = Some s → session_client s = c;
  (** the slots are those of the registered clients, with the session and
      exactly the segments the client has mounted; *)
  cn_slots c : sl !! c = (fun s => mkMount (Some s) (owned_by c V)) <$> S !! c;
  (** only registered clients have segments mounted; *)
  cn_owner i a e : V !! i = Some (a, e) → is_Some (S !! spec_owner (spec e));
  (** an unmount is pending for a segment that its session has mounted, that no
      longer accepts allocations, and in the incarnation it was asked for; *)
  cn_pending k pu : Q !! k = Some pu →
    S !! session_client (key_session k) = Some (key_session k) ∧
    ∃ a e, V !! key_segment k = Some (a, e) ∧
      spec_owner (spec e) = session_client (key_session k) ∧ state e = Quiesced ∧
      pu_incarnation pu = mkSegmentHandle pid a;
  (** every mounted segment that does not accept allocations is scheduled. *)
  cn_quiesced i a e s : V !! i = Some (a, e) → state e ≠ Accepting →
    S !! spec_owner (spec e) = Some s → is_Some (Q !! mkKey s i)
}.

Section Consistent.
Context (pid : N).
Implicit Types (S : Sessions) (V : Mounts) (sl : Slots) (Q : Unmounts).

Lemma consistent_empty : consistent ∅ ∅ pid ∅ ∅.
Proof. split; intros *; rewrite ?lookup_empty; try done. Qed.

(** A registered client gets more segments, or a new one registers with them. *)
Lemma consistent_mount S V sl Q c s V' :
  consistent S V pid sl Q →
  S !! c = None ∨ S !! c = Some s → session_client s = c →
  V ⊆ V' →
  (∀ i a e, V' !! i = Some (a, e) → V !! i = None → spec_owner (spec e) = c ∧ state e = Accepting) →
  consistent (<[c := s]> S) V' pid (<[c := mkMount (Some s) (owned_by c V')]> sl) Q.
Proof.
  intros H Hc Hs Hsub Hnew.
  assert (∀ i a e, V' !! i = Some (a, e) → V !! i = Some (a, e) ∨
    spec_owner (spec e) = c ∧ state e = Accepting) as Hcase.
  { intros i a e Hi. destruct (V !! i) as [x|] eqn:Hx; [left|right; eauto].
    rewrite <- Hi. symmetry. by apply (lookup_weaken V). }
  assert (∀ o s', S !! o = Some s' → (<[c := s]> S) !! o = Some s') as Hkeep.
  { intros o s' Ho. rewrite lookup_insert. case_decide; [subst; destruct Hc; congruence|done]. }
  split.
  - intros o s'. rewrite lookup_insert. case_decide; [naive_solver|apply (cn_client _ _ _ _ _ H)].
  - intros o. rewrite !lookup_insert. case_decide as Ho; [by subst|].
    rewrite (cn_slots _ _ _ _ _ H). destruct (S !! o); [|done]. simpl. do 2 f_equal.
    apply set_eq. intros i. rewrite !elem_of_owned. split.
    + intros (a & e & Hi & He). exists a, e. split; [by eapply lookup_weaken|done].
    + intros (a & e & Hi & He). destruct (Hcase _ _ _ Hi) as [?|[? _]]; [eauto|congruence].
  - intros i a e Hi. rewrite lookup_insert. case_decide as Ho; [eauto|].
    destruct (Hcase _ _ _ Hi) as [?|[? _]]; [by eapply cn_owner|congruence].
  - intros k pu Hk. destruct (cn_pending _ _ _ _ _ H k pu Hk) as (? & a & e & Hi & ?).
    split; [by apply Hkeep|]. exists a, e. split; [by eapply lookup_weaken|done].
  - intros i a e s' Hi Hst Ho. destruct (Hcase _ _ _ Hi) as [Hi'|[_ ?]]; [|done].
    eapply (cn_quiesced _ _ _ _ _ H); [done..|].
    destruct (cn_owner _ _ _ _ _ H _ _ _ Hi') as [s2 Hs2]. rewrite (Hkeep _ _ Hs2) in Ho. congruence.
Qed.

(** A segment leaves with its pending unmount. *)
Lemma consistent_unmount S V sl Q c s i a e :
  consistent S V pid sl Q → S !! c = Some s → V !! i = Some (a, e) → spec_owner (spec e) = c →
  consistent S (delete i V) pid (<[c := mkMount (Some s) (owned_by c V ∖ {[i]})]> sl)
    (delete (mkKey s i) Q).
Proof.
  intros H Hc Hi Ho. split.
  - apply (cn_client _ _ _ _ _ H).
  - intros o. rewrite lookup_insert. case_decide as Hoc.
    + subst o. rewrite Hc. simpl. do 2 f_equal. apply set_eq. intros j.
      rewrite elem_of_difference, !elem_of_owned, elem_of_singleton.
      setoid_rewrite lookup_delete_Some. naive_solver.
    + rewrite (cn_slots _ _ _ _ _ H). destruct (S !! o); [|done]. simpl. do 2 f_equal.
      apply set_eq. intros j. rewrite !elem_of_owned. setoid_rewrite lookup_delete_Some.
      split; [|naive_solver]. intros (b & f & Hj & Hf). exists b, f. split_and!; [|done..]. congruence.
  - intros j b f [_ Hj]%lookup_delete_Some. by eapply cn_owner.
  - intros k pu [Hne Hk]%lookup_delete_Some.
    destruct (cn_pending _ _ _ _ _ H k pu Hk) as (Hs & b & f & Hj & Hf & Hrest).
    split; [done|]. exists b, f. split; [|done]. apply lookup_delete_Some. split; [|done].
    intros ->. apply Hne. destruct k as [ks kseg]; simpl in *. rewrite Hj in Hi. injection Hi as <- <-. congruence.
  - intros j b f s' [Hne Hj]%lookup_delete_Some Hst Hs'.
    rewrite lookup_delete_ne by (intros [= _ ?]; done). by eapply (cn_quiesced _ _ _ _ _ H).
Qed.

(** A segment stops accepting and is scheduled. *)
Lemma consistent_schedule S V sl Q c s i a e pu :
  consistent S V pid sl Q → S !! c = Some s → V !! i = Some (a, e) → spec_owner (spec e) = c →
  state e ≠ Removed → pu_incarnation pu = mkSegmentHandle pid a →
  consistent S (<[i := (a, entry_quiesce e)]> V) pid sl (<[mkKey s i := pu]> Q).
Proof.
  intros H Hc Hi Ho Hst Hpu.
  assert (spec (entry_quiesce e) = spec e ∧ state (entry_quiesce e) = Quiesced) as [Hsp Hq]
    by (destruct e as [sp [] lv]; done).
  assert (∀ j b f, (<[i := (a, entry_quiesce e)]> V) !! j = Some (b, f) →
    ∃ f0, V !! j = Some (b, f0) ∧ spec f = spec f0 ∧ (j = i ∨ f = f0)) as Hback.
  { intros j b f. rewrite lookup_insert. case_decide; [|by eauto].
    subst j. intros [= <- <-]. eauto. }
  split.
  - apply (cn_client _ _ _ _ _ H).
  - intros o. rewrite (cn_slots _ _ _ _ _ H). destruct (S !! o); [|done]. simpl. do 2 f_equal.
    apply set_eq. intros j. rewrite !elem_of_owned. split.
    + intros (b & f & Hj & Hf). rewrite lookup_insert. case_decide; [|by eauto].
      subst j. exists a, (entry_quiesce e). split; [done|]. congruence.
    + intros (b & f & Hj & Hf). destruct (Hback _ _ _ Hj) as (f0 & ? & Hsp' & _). exists b, f0.
      split; [done|congruence].
  - intros j b f Hj. destruct (Hback _ _ _ Hj) as (f0 & ? & -> & _). by eapply cn_owner.
  - intros k pu'. rewrite lookup_insert. case_decide as Hk.
    + subst k. intros [= <-]. simpl. rewrite (cn_client _ _ _ _ _ H _ _ Hc). split; [done|].
      exists a, (entry_quiesce e). rewrite lookup_insert_eq. split_and!; congruence.
    + intros Hk'. destruct (cn_pending _ _ _ _ _ H k pu' Hk') as (Hs & b & f & Hj & Hf & Hrest).
      split; [done|]. rewrite lookup_insert. case_decide as Hji; [|by eauto].
      rewrite <- Hji, Hi in Hj. injection Hj as <- <-. exists a, (entry_quiesce e).
      split; [done|]. rewrite Hsp. naive_solver.
  - intros j b f s' Hj Hfs Hs'. rewrite lookup_insert. case_decide as Hk; [eauto|].
    destruct (Hback _ _ _ Hj) as (f0 & Hj0 & Hsp' & [-> | ->]).
    + rewrite Hj0 in Hi. injection Hi as <- <-. rewrite Hsp', Ho, Hc in Hs'. congruence.
    + by eapply (cn_quiesced _ _ _ _ _ H).
Qed.

(** Clients leave with all they have. *)
Lemma consistent_leave S V sl Q (cs : list ClientId) :
  consistent S V pid sl Q →
  consistent (filter (fun kx => kx.1 ∉ cs) S) (view_invalidate cs V) pid
    (filter (fun kx => kx.1 ∉ cs) sl)
    (filter (fun kx => session_client (key_session kx.1) ∉ cs) Q).
Proof.
  intros H. split.
  - intros c s [Hc _]%map_lookup_filter_Some. by eapply cn_client.
  - intros c. destruct (decide (c ∈ cs)) as [Hin|Hin].
    + rewrite !map_lookup_filter_None_2; [done|right; naive_solver..].
    + rewrite !map_lookup_filter, (cn_slots _ _ _ _ _ H). destruct (S !! c) as [s|]; simpl; [|done].
      rewrite !option_guard_True by done. simpl. do 2 f_equal. apply set_eq. intros i.
      rewrite !elem_of_owned. unfold view_invalidate. setoid_rewrite map_lookup_filter_Some.
      naive_solver.
  - intros i a e [Hi Ho]%map_lookup_filter_Some. destruct (cn_owner _ _ _ _ _ H _ _ _ Hi) as [s Hs].
    exists s. by apply map_lookup_filter_Some.
  - intros k pu [Hk Hin]%map_lookup_filter_Some. simpl in Hin.
    destruct (cn_pending _ _ _ _ _ H k pu Hk) as (Hs & a & e & Hi & Ho & Hrest).
    split; [by apply map_lookup_filter_Some|]. exists a, e. split; [|done].
    apply map_lookup_filter_Some. simpl. by rewrite Ho.
  - intros i a e s [Hi Ho]%map_lookup_filter_Some Hst [Hs _]%map_lookup_filter_Some. simpl in *.
    destruct (cn_quiesced _ _ _ _ _ H i a e s Hi Hst Hs) as [pu Hpu]. exists pu.
    apply map_lookup_filter_Some. split; [done|]. simpl. by rewrite (cn_client _ _ _ _ _ H _ _ Hs).
Qed.
End Consistent.
