(* ===== verification/ClientPool.v ===== *)
(** * Segment calls of the client manager

    The segment calls that [ClientManager] makes, on the pool that an object
    manager allocates from: each one is a step of that object manager and the
    operation of [PoolView] on what is mounted.  Attaching the segments of a
    remount, and the rollback that undoes it. *)
From S2P Require Import Prelude Identity ClientLifecycle Segment ByteAllocator SegmentPool PoolView.
From S2P Require Import Placement TenantQuota Replica ObjectTypes CatalogState CatalogWrite CatalogCollector CatalogResources.
From S2P Require Import Eviction ObjectManager ManagerWorld GracefulUnmount ClientManager ClientViews.

(** ** Changes of the mounted segments *)

Section Changes.
Implicit Types (V : Mounts).

Lemma owned_view_owned o i V :
  i ∈ owned_by o V → ∃ a e, V !! i = Some (a, e) ∧ view_owned o i V = Ok (a, e) ∧ spec_owner (spec e) = o.
Proof.
  intros (a & e & Hi & Ho)%elem_of_owned. exists a, e. unfold view_owned. rewrite Hi.
  by rewrite decide_True.
Qed.

Definition view_without (ids : list SegmentId) V : Mounts := filter (fun kx => kx.1 ∉ ids) V.

Lemma view_without_cons i ids V : view_without ids (delete i V) = view_without (i :: ids) V.
Proof.
  apply map_eq. intros j. apply option_eq. intros x. unfold view_without.
  rewrite !map_lookup_filter_Some, lookup_delete_Some. simpl. set_solver.
Qed.

Lemma view_without_nil V : view_without [] V = V.
Proof. apply map_filter_id. intros i x _. simpl. set_solver. Qed.

Lemma owned_delete o i j V : j ∈ owned_by o V → j ≠ i → j ∈ owned_by o (delete i V).
Proof.
  rewrite !elem_of_owned. intros (a & e & Hj & Ho) Hne. exists a, e.
  split; [|done]. by apply lookup_delete_Some.
Qed.

Lemma owned_insert o i a e f V :
  V !! i = Some (a, e) → spec f = spec e → owned_by o (<[i := (a, f)]> V) = owned_by o V.
Proof.
  intros Hi Hf. apply set_eq. intros j. rewrite !elem_of_owned. rewrite lookup_insert.
  case_decide as Hij; [|done]. subst j. split.
  - intros (b & g & [= <- <-] & Hg). exists a, e. by rewrite <- Hf.
  - intros (b & g & Hg & Ho). rewrite Hi in Hg. injection Hg as <- <-. exists a, f. by rewrite Hf.
Qed.

(** Reactivating several segments, looked up. *)
Lemma entry_reactivate_idem e : entry_reactivate (entry_reactivate e) = entry_reactivate e.
Proof. by destruct e as [s [] l]. Qed.

Lemma reactivated_lookup ids : ∀ V i,
  foldl (fun W i => alter (fun x : N * SegmentEntry => (x.1, entry_reactivate x.2)) i W) V ids !! i =
  if bool_decide (i ∈ ids) then (fun x => (x.1, entry_reactivate x.2)) <$> V !! i else V !! i.
Proof.
  induction ids as [|j ids IH]; intros V i; [done|]. cbn [foldl].
  rewrite IH, lookup_alter. destruct (decide (j = i)) as [->|Hne].
  - rewrite (bool_decide_true (i ∈ i :: ids)) by set_solver. case_bool_decide; [|done].
    destruct (V !! i) as [[a e]|]; [|done]. simpl. by rewrite entry_reactivate_idem.
  - by rewrite (bool_decide_ext (i ∈ ids) (i ∈ j :: ids)) by set_solver.
Qed.

Lemma view_reactivate_many_owned o ids V :
  (∀ i, i ∈ ids → i ∈ owned_by o V) →
  view_reactivate_many o ids V =
    Ok (foldl (fun W i => alter (fun x : N * SegmentEntry => (x.1, entry_reactivate x.2)) i W) V ids).
Proof.
  intros Hall. unfold view_reactivate_many.
  assert (foldr (fun i r => let? _ := view_owned o i V in r) (Ok tt) ids = Ok tt) as ->; [|done].
  revert Hall. generalize V at 1 2. intros W Hall.
  induction ids as [|i ids IH]; simpl; [done|].
  destruct (owned_view_owned o i W) as (a & e & _ & -> & _); [apply Hall; set_solver|].
  apply IH. intros j Hj. apply Hall. set_solver.
Qed.
End Changes.

(** ** Segment calls *)

Section Calls.
Context {A Alloc : Type} `{L : UpstreamLaws A Alloc}.
Context (cid pid nodes : N) (conf : ObjectCatalogConfig) (eviction : option MemoryEvictionConfig).
Context (om : ObjectManager A Alloc).
Implicit Types (p : Pool A) (V : Mounts).

(** Pools that the segment calls leave to the object manager [om]. *)
Definition good p : Prop :=
  manager_reachable cid pid nodes conf eviction (with_pool p om) ∧ pool_id p = pid.

Lemma good_inv p : good p → pool_inv p (outstanding om).
Proof. intros [Hr _]. apply manager_reachable_inv in Hr. exact (mi_pool _ _ _ Hr). Qed.

(** The segment calls as calls of the object manager. *)
Lemma good_step pop p p' :
  good p → segment_op pop = true → pool_id p' = pool_id p →
  pool_step pop (mkPoolWorld p (outstanding om)) = Some (mkPoolWorld p' (outstanding om)) → good p'.
Proof.
  intros [Hr Hid] Hseg Hid' Hs. split; [|congruence].
  apply (mreach_step _ _ _ _ _ (MSegment pop) (with_pool p om)); [done|done|].
  simpl. rewrite Hseg. change (outstanding (with_pool p om)) with (outstanding om). by rewrite Hs.
Qed.

(** A call that refines a change of the mounted segments. *)
Lemma call_refines {E} pop (f : Pool A → res E unit * Pool A) p y :
  good p → segment_op pop = true →
  pool_step pop (mkPoolWorld p (outstanding om)) =
    match f p with (Panic, _) => None | (_, p') => Some (mkPoolWorld p' (outstanding om)) end →
  refines p (f p) y →
  match y with
  | Ok V => ∃ p', f p = (Ok tt, p') ∧ good p' ∧ view_of p' = V
  | Err e => f p = (Err e, p)
  | Panic => False
  end.
Proof.
  intros Hg Hseg Hs Hr. destruct y as [V|e|]; [|done..]. destruct Hr as (Hok & HV & Hid).
  destruct (f p) as [[[]|e|] p']; [|done..]. exists p'. split_and!; [done| |done].
  by eapply good_step.
Qed.

Lemma good_quiesce o i p :
  good p →
  match view_change entry_quiesce o i (view_of p) with
  | Ok V => ∃ p', pool_quiesce o i p = (Ok tt, p') ∧ good p' ∧ view_of p' = V
  | Err e => pool_quiesce o i p = (Err e, p)
  | Panic => False
  end.
Proof.
  intros Hg. apply (call_refines (PQuiesce o i)); [done..|].
  by eapply pool_quiesce_view, good_inv.
Qed.

Lemma good_reactivate o i p :
  good p →
  match view_change entry_reactivate o i (view_of p) with
  | Ok V => ∃ p', pool_reactivate o i p = (Ok tt, p') ∧ good p' ∧ view_of p' = V
  | Err e => pool_reactivate o i p = (Err e, p)
  | Panic => False
  end.
Proof.
  intros Hg. apply (call_refines (PReactivate o i)); [done..|].
  by eapply pool_reactivate_view, good_inv.
Qed.

Lemma good_reactivate_many o ids p :
  good p → (∀ i, i ∈ ids → i ∈ owned_by o (view_of p)) →
  ∃ p', pool_reactivate_many o ids p = (Ok tt, p') ∧ good p' ∧
    ∀ i, view_of p' !! i =
      if bool_decide (i ∈ ids) then (fun x => (x.1, entry_reactivate x.2)) <$> view_of p !! i
      else view_of p !! i.
Proof.
  intros Hg Hall. pose proof (pool_reactivate_many_view o ids p _ (good_inv p Hg)) as Hr.
  rewrite view_reactivate_many_owned in Hr by done.
  destruct (call_refines (PReactivateMany o ids) (pool_reactivate_many o ids) p _ Hg eq_refl eq_refl Hr)
    as (p' & Hp & Hg' & HV). exists p'. split_and!; [done..|]. intros i. rewrite HV.
  apply reactivated_lookup.
Qed.

Lemma good_remove o i p :
  good p →
  match view_remove o i (view_of p) with
  | Ok V => ∃ p', pool_remove o i p = (Ok tt, p') ∧ good p' ∧ view_of p' = V
  | Err e => pool_remove o i p = (Err e, p)
  | Panic => False
  end.
Proof.
  intros Hg. apply (call_refines (PRemove o i)); [done..|]. by eapply pool_remove_view, good_inv.
Qed.

Lemma good_attach s p :
  good p →
  ∃ r p', pool_attach_quiesced s p = (r, p') ∧ good p' ∧
    view_attach (next_entry p) s (view_of p) r (view_of p').
Proof.
  intros Hg. pose proof (pool_attach_quiesced_view s p _ (good_inv p Hg)) as [Hv Hid].
  destruct (pool_attach_quiesced_ok s p _ (good_inv p Hg)) as [Hnp _].
  destruct (pool_attach_quiesced s p) as [r p'] eqn:Hp. simpl in *. exists r, p'.
  split_and!; [done| |done]. apply (good_step (PAttachQuiesced s) p); [done..|].
  simpl. rewrite Hp. by destruct r.
Qed.

Lemma good_invalidate os p :
  good p →
  ∃ n p', pool_invalidate_owners os p = (Ok n, p') ∧ good p' ∧
    view_of p' = view_invalidate os (view_of p) ∧
    n = N.of_nat (size (view_of p)) - N.of_nat (size (view_invalidate os (view_of p))).
Proof.
  intros Hg. pose proof (pool_invalidate_view os p _ (good_inv p Hg)) as [(_ & HV & Hid) Hn].
  destruct (pool_invalidate_owners os p) as [r p'] eqn:Hp. simpl in *. subst r.
  eexists _, p'. split_and!; [done| |done|done].
  apply (good_step (PInvalidateOwners os) p); [done..|]. simpl. by rewrite Hp.
Qed.

(** ** Rollback *)

(** An owned segment is quiesced. *)
Lemma good_quiesce_owned o i p a e :
  good p → view_of p !! i = Some (a, e) → spec_owner (spec e) = o →
  ∃ p', pool_quiesce o i p = (Ok tt, p') ∧ good p' ∧
    view_of p' = <[i := (a, entry_quiesce e)]> (view_of p).
Proof.
  intros Hg Hi Ho. pose proof (good_quiesce o i p Hg) as Hq. unfold view_change, view_owned in Hq.
  rewrite Hi, decide_True in Hq by done. exact Hq.
Qed.

(** A quiesced segment is removed. *)
Lemma good_remove_owned o i p a e :
  good p → view_of p !! i = Some (a, e) → spec_owner (spec e) = o → state e = Quiesced →
  ∃ p', pool_remove o i p = (Ok tt, p') ∧ good p' ∧ view_of p' = delete i (view_of p).
Proof.
  intros Hg Hi Ho Hst. pose proof (good_remove o i p Hg) as Hr. unfold view_remove, view_owned in Hr.
  rewrite Hi, decide_True in Hr by done. simpl in Hr. by rewrite Hst in Hr.
Qed.

Lemma quiesced_entry p i a e :
  good p → view_of p !! i = Some (a, e) →
  spec (entry_quiesce e) = spec e ∧ state (entry_quiesce e) = Quiesced.
Proof.
  intros Hg Hi. destruct (view_id p _ i a e (good_inv p Hg) Hi) as [_ Hr].
  by destruct e as [s [] l].
Qed.

(** Owned segments are quiesced and removed. *)
Lemma good_unmount o i p a e :
  good p → view_of p !! i = Some (a, e) → spec_owner (spec e) = o →
  ∃ p1 p2, pool_quiesce o i p = (Ok tt, p1) ∧ pool_remove o i p1 = (Ok tt, p2) ∧ good p2 ∧
    view_of p2 = delete i (view_of p).
Proof.
  intros Hg Hi Ho. destruct (quiesced_entry p i a e Hg Hi) as [Hsp Hst].
  destruct (good_quiesce_owned o i p a e Hg Hi Ho) as (p1 & Hp1 & Hg1 & HV1).
  destruct (good_remove_owned o i p1 a (entry_quiesce e) Hg1) as (p2 & Hp2 & Hg2 & HV2);
    [by rewrite HV1, lookup_insert_eq|congruence|done|].
  exists p1, p2. split_and!; [done..|]. by rewrite HV2, HV1, delete_insert_eq.
Qed.

Lemma rollback_attached_ok c ids : ∀ first p,
  good p → NoDup ids → (∀ i, i ∈ ids → i ∈ owned_by c (view_of p)) →
  ∃ p', rollback_attached c ids first p = (Ok first, p') ∧ good p' ∧
    view_of p' = view_without ids (view_of p).
Proof.
  induction ids as [|i ids IH]; intros first p Hg Hnd Hall; simpl.
  { exists p. split_and!; [done..|]. by rewrite view_without_nil. }
  apply NoDup_cons in Hnd as [Hi Hnd].
  destruct (owned_view_owned c i (view_of p)) as (a & e & Hv & _ & Ho); [apply Hall; set_solver|].
  destruct (good_unmount c i p a e Hg Hv Ho) as (p1 & p2 & -> & -> & Hg2 & HV2).
  destruct (IH first p2 Hg2 Hnd) as (p' & -> & Hg' & HV').
  - intros j Hj. rewrite HV2. apply owned_delete; [apply Hall; set_solver|by intros ->].
  - exists p'. split_and!; [done..|]. by rewrite HV', HV2, view_without_cons.
Qed.

Lemma rollback_reactivated_ok c ids : ∀ first p,
  good p → (∀ i, i ∈ ids → i ∈ owned_by c (view_of p)) →
  ∃ p', rollback_reactivated c ids first p = (Ok first, p') ∧ good p' ∧
    owned_by c (view_of p') = owned_by c (view_of p) ∧
    ∀ j, j ∉ ids → view_of p' !! j = view_of p !! j.
Proof.
  induction ids as [|i ids IH]; intros first p Hg Hall; simpl.
  { by exists p. }
  destruct (owned_view_owned c i (view_of p)) as (a & e & Hv & _ & Ho); [apply Hall; set_solver|].
  destruct (good_quiesce_owned c i p a e Hg Hv Ho) as (p1 & -> & Hg1 & HV1).
  destruct (quiesced_entry p i a e Hg Hv) as [Hsp _].
  assert (owned_by c (view_of p1) = owned_by c (view_of p)) as Hown
    by (rewrite HV1; by apply (owned_insert c i a e)).
  destruct (IH first p1 Hg1) as (p' & -> & Hg' & Hown' & HV'); [intros j Hj; rewrite Hown; apply Hall; set_solver|].
  exists p'. split_and!; [done|done|congruence|]. intros j Hj.
  rewrite HV' by set_solver. rewrite HV1, lookup_insert_ne; [done|set_solver].
Qed.
End Calls.

(** ** Remounting and rolling back *)

Section Remount.
Context {A Alloc : Type} `{L : UpstreamLaws A Alloc}.
Context (cid pid nodes : N) (conf : ObjectCatalogConfig) (eviction : option MemoryEvictionConfig).
Implicit Types (m : ClientManager A Alloc) (p : Pool A) (V : Mounts).

Definition set_pool p m : ClientManager A Alloc := with_objects (with_pool p (cm_objects m)) m.

Local Abbreviation ok m := (good cid pid nodes conf eviction (cm_objects m)).

Lemma set_pool_same m : set_pool (cm_pool m) m = m.
Proof. by destruct m as [r [] sl q]. Qed.

Lemma view_without_eq ids ids' V V' :
  (∀ i, i ∈ ids ↔ i ∈ ids') → (∀ i, i ∉ ids → V !! i = V' !! i) →
  view_without ids V = view_without ids' V'.
Proof.
  intros Hids HV. apply map_eq. intros i. apply option_eq. intros x. unfold view_without.
  rewrite !map_lookup_filter_Some. simpl. rewrite <- Hids. split; intros [Hi Hn]; by rewrite HV in *.
Qed.

Lemma rollback_ok c attached reactivated m p :
  ok m p → NoDup attached → (∀ i, i ∈ attached → i ∈ owned_by c (view_of p)) →
  (∀ i, i ∈ reactivated → i ∈ attached) →
  ∃ p', rollback c attached reactivated (set_pool p m) = (Ok tt, set_pool p' m) ∧ ok m p' ∧
    view_of p' = view_without attached (view_of p).
Proof.
  intros Hg Hnd Hown Hsub.
  destruct (rollback_reactivated_ok cid pid nodes conf eviction (cm_objects m) c (rev reactivated) None p Hg)
    as (p1 & Hr1 & Hg1 & Ho1 & HV1).
  { intros i Hi. rewrite <- Permutation_rev in Hi. eauto. }
  destruct (rollback_attached_ok cid pid nodes conf eviction (cm_objects m) c (rev attached) None p1 Hg1)
    as (p2 & Hr2 & Hg2 & HV2).
  { by rewrite <- Permutation_rev. }
  { intros i Hi. rewrite <- Permutation_rev in Hi. rewrite Ho1. eauto. }
  exists p2. split_and!; [|done|].
  - unfold rollback, bind, pool_call, cm_pool. simpl. rewrite Hr1. simpl. by rewrite Hr2.
  - rewrite HV2. apply view_without_eq; [intros i; by rewrite <- Permutation_rev|].
    intros i. rewrite <- Permutation_rev. intros Hi. apply HV1. rewrite <- Permutation_rev. eauto.
Qed.

Lemma undo_ok {T} c attached reactivated e m p :
  ok m p → NoDup attached → (∀ i, i ∈ attached → i ∈ owned_by c (view_of p)) →
  (∀ i, i ∈ reactivated → i ∈ attached) →
  ∃ p', undo (T := T) c attached reactivated e (set_pool p m) = (Err e, set_pool p' m) ∧ ok m p' ∧
    view_of p' = view_without attached (view_of p).
Proof.
  intros Hg Hnd Hown Hsub. destruct (rollback_ok c attached reactivated m p) as (p' & Hr & Hg' & HV);
    [done..|]. exists p'. split_and!; [|done..]. unfold undo, bind. by rewrite Hr.
Qed.

(** [V] is [V0] with the segments [att] of client [c], none of which accepts. *)
Record attached_to (c : ClientId) (V0 : Mounts) (att : list SegmentId) V : Prop := {
  at_nodup : NoDup att;
  at_old i : i ∉ att → V !! i = V0 !! i;
  at_new i : i ∈ att → V0 !! i = None ∧
    ∃ a e, V !! i = Some (a, e) ∧ spec_owner (spec e) = c ∧ state e = Quiesced
}.

Lemma attached_owned c V0 att V i : attached_to c V0 att V → i ∈ att → i ∈ owned_by c V.
Proof.
  intros H Hi. apply elem_of_owned. destruct (at_new _ _ _ _ H i Hi) as (_ & a & e & ? & ? & _). eauto.
Qed.

Lemma attached_back c V0 att V : attached_to c V0 att V → view_without att V = V0.
Proof.
  intros H. apply map_eq. intros i. apply option_eq. intros x. unfold view_without.
  rewrite map_lookup_filter_Some. simpl. destruct (decide (i ∈ att)) as [Hi|Hi].
  - destruct (at_new _ _ _ _ H i Hi) as [-> _]. naive_solver.
  - rewrite (at_old _ _ _ _ H i Hi). naive_solver.
Qed.

Lemma attached_start c V0 : attached_to c V0 [] V0.
Proof. split; [constructor|done|set_solver]. Qed.

(** One more segment is attached. *)
Lemma attached_more c V0 att V s a :
  attached_to c V0 att V → V !! spec_id s = None → spec_owner s = c →
  attached_to c V0 (att ++ [spec_id s]) (<[spec_id s := (a, entry_quiesce (entry_new s))]> V).
Proof.
  intros H Hs Ho. assert (spec_id s ∉ att) as Hn.
  { intros Hi. destruct (at_new _ _ _ _ H _ Hi) as (_ & b & e & He & _). congruence. }
  split.
  - apply NoDup_app. split_and!; [apply H|set_solver|apply NoDup_singleton].
  - intros i Hi. rewrite lookup_insert_ne by set_solver. apply (at_old _ _ _ _ H). set_solver.
  - intros i [Hi| ->%list_elem_of_singleton]%elem_of_app.
    + rewrite lookup_insert_ne by (by intros <-). by apply (at_new _ _ _ _ H).
    + rewrite lookup_insert_eq. split; [|by eauto].
      by rewrite <- (at_old _ _ _ _ H (spec_id s) Hn).
Qed.

(** A segment of the client that is mounted is one of the attached ones. *)
Lemma attached_found c V0 att V i a e :
  attached_to c V0 att V → owned_by c V0 = ∅ → V !! i = Some (a, e) → spec_owner (spec e) = c →
  i ∈ att ∧ state e = Quiesced.
Proof.
  intros H H0 Hi Ho. destruct (decide (i ∈ att)) as [Hin|Hin].
  - destruct (at_new _ _ _ _ H i Hin) as (_ & b & f & Hf & _ & Hst). rewrite Hi in Hf.
    injection Hf as <- <-. done.
  - rewrite (at_old _ _ _ _ H i Hin) in Hi.
    assert (i ∈ owned_by c V0) by (apply elem_of_owned; eauto). set_solver.
Qed.

(** Undoing what was attached. *)
Lemma attach_undone {T} c V0 att qs e m p :
  ok m p → (∀ i, i ∈ att → i ∈ owned_by c (view_of p)) → NoDup att → (∀ i, i ∈ qs → i ∈ att) →
  view_without att (view_of p) = V0 →
  ∃ p', undo (T := T) c att qs e (set_pool p m) = (Err e, set_pool p' m) ∧ ok m p' ∧ view_of p' = V0.
Proof.
  intros Hg Hown Hnd Hqs HV. destruct (undo_ok (T := T) c att qs e m p) as (p' & Hu & Hg' & HV'); [done..|].
  exists p'. split_and!; [done..|]. by rewrite HV'.
Qed.

(** Attaching the segments of a client that has none: all of them, or the pool
    shows again what it did before. *)
Lemma attach_each_ok c V0 m specs : ∀ att qs p,
  ok m p → attached_to c V0 att (view_of p) → owned_by c V0 = ∅ →
  Forall (fun s => spec_owner s = c) specs → (∀ i, i ∈ qs → i ∈ att) →
  match attach_each c specs att qs (set_pool p m) with
  | (Ok (att', qs'), m') => ∃ p', m' = set_pool p' m ∧ ok m p' ∧
      attached_to c V0 att' (view_of p') ∧ (∀ i, i ∈ qs' → i ∈ att') ∧
      ∀ i, i ∈ att' ↔ i ∈ att ∨ i ∈ map spec_id specs
  | (Err e, m') => (∃ cause, e = ManagerAttach cause) ∧
      ∃ p', m' = set_pool p' m ∧ ok m p' ∧ view_of p' = V0
  | (Panic, _) => False
  end.
Proof.
  induction specs as [|s specs IH]; intros att qs p Hg Hat H0 Hsp Hqs; simpl.
  { exists p. split_and!; try done. set_solver. }
  apply Forall_cons in Hsp as [Ho Hsp]. unfold handle, pool_call at 1, cm_pool. simpl.
  destruct (good_attach cid pid nodes conf eviction (cm_objects m) s p Hg) as (r & p1 & -> & Hg1 & Hv).
  change (with_objects (with_pool p1 (with_pool p (cm_objects m))) (set_pool p m)) with (set_pool p1 m).
  assert (∀ e, view_of p1 = view_of p → ∃ p',
    undo (T := list SegmentId * list SegmentId) c att [] e (set_pool p1 m) = (Err e, set_pool p' m) ∧
    ok m p' ∧ view_of p' = V0) as Hundo.
  { intros e HV. apply attach_undone; rewrite ?HV; [done| |apply Hat|set_solver|by eapply attached_back].
    intros i. by eapply attached_owned. }
  unfold view_attach in Hv. destruct (validate_spec s) as [u|e|]; [| |done].
  2: { destruct Hv as [-> HV]. destruct (Hundo (ManagerAttach e) HV) as (p' & -> & ?). eauto 10. }
  destruct (view_of p !! spec_id s) as [[b e]|] eqn:Hs.
  - destruct Hv as [HV Hr]. case_decide as He; [destruct Hr as [pid' ->]|subst r].
    2: { destruct (Hundo (ManagerAttach (ConflictingSegmentId (spec_id s))) HV) as (p' & -> & ?). eauto 10. }
    apply lookup_view in Hs as Hm. destruct Hm as [Hm1 Hm2].
    assert (entries p1 !! b = Some e) as He1.
    { rewrite <- HV in Hs. by apply lookup_view in Hs as [_ ?]. }
    unfold bind, segment_entry, cm_pool. simpl. rewrite He1, He.
    destruct (attached_found c V0 att (view_of p) (spec_id s) b e) as [Hin Hq]; [done..|congruence|].
    rewrite bool_decide_true by done.
    specialize (IH att (qs ++ [spec_id s]) p1 Hg1).
    rewrite HV in IH. specialize (IH Hat H0 Hsp ltac:(set_solver)).
    destruct (attach_each _ _ _ _ _) as [[[att' qs']|?|] m']; [|done..].
    destruct IH as (p' & ? & ? & ? & ? & Hiff). exists p'. split_and!; try done.
    intros i. rewrite Hiff. set_solver.
  - destruct Hv as [(pid' & -> & HV & _)|(i & x & _ & _ & -> & HV)].
    2: { destruct (Hundo (ManagerAttach (OverlappingAddressRange i)) HV) as (p' & -> & ?). eauto 10. }
    assert (entries p1 !! next_entry p = Some (entry_quiesce (entry_new s))) as He1.
    { assert (view_of p1 !! spec_id s = Some (next_entry p, entry_quiesce (entry_new s))) as Hl
        by (by rewrite HV, lookup_insert_eq). by apply lookup_view in Hl as [_ ?]. }
    unfold bind, segment_entry, cm_pool. simpl. rewrite He1. simpl.
    specialize (IH (att ++ [spec_id s]) qs p1 Hg1).
    specialize (IH ltac:(rewrite HV; by apply attached_more) H0 Hsp ltac:(set_solver)).
    destruct (attach_each _ _ _ _ _) as [[[att' qs']|?|] m']; [|done..].
    destruct IH as (p' & ? & ? & ? & ? & Hiff). exists p'. split_and!; try done.
    intros i. rewrite Hiff. set_solver.
Qed.
End Remount.
