(* ===== verification/ClientSessions.v ===== *)
(** * The sessions of the registry

    The registry seen as the map of its sessions: heartbeats, expiry, drains and
    claims keep it, activating an absent client adds one session, and finishing
    a cleanup removes the sessions that were claimed. *)
From S2P Require Import Prelude Identity ClientLifecycle.

Definition sessions (st : RegistryState) : gmap ClientId ClientSession := session <$> entries st.

(** Claiming due cleanups changes phases only. *)
Section Claims.
Context {X : Type} (f : ClientEntry → X) (Hf : ∀ p e, f (set_phase p e) = f e) (cfg : ClientLifecycleConfig).
Implicit Types (st : RegistryState).

Local Abbreviation seen st := (f <$> entries st).

Lemma set_phase_kept st c e p :
  entries st !! c = Some e → seen (set_entry c (set_phase p e) st) = seen st.
Proof.
  intros He. simpl. rewrite fmap_insert, Hf. apply insert_id. by rewrite lookup_fmap, He.
Qed.

Lemma claim_cleanup_kept expected c e st :
  entries st !! c = Some e → seen (claim_cleanup expected c e st).2 = seen st.
Proof.
  intros He. unfold claim_cleanup. destruct (phase e); [done|]. case_decide; [|done].
  simpl. by apply set_phase_kept.
Qed.

Lemma claim_ready_kept : ∀ n st cl, seen (claim_ready_loop n st cl).1.2 = seen st.
Proof.
  induction n as [|n IH]; intros st cl; simpl; [done|].
  destruct (cleanup_ready st) as [|s rest]; [done|]. set (st1 := set_cleanup_ready rest st).
  change (entries st) with (entries st1).
  destruct (entries st1 !! session_client s) as [e|] eqn:He; [|by rewrite IH].
  case_decide; [|by rewrite IH].
  pose proof (claim_cleanup_kept Queued (session_client s) e st1 He) as Hc.
  destruct (claim_cleanup _ _ _ _) as [[claim|] st2]; simpl in Hc; by rewrite IH.
Qed.

Lemma process_deadline_kept now record st : seen (process_deadline now record st).2 = seen st.
Proof.
  unfold process_deadline. destruct (entries st !! dl_client record) as [e|] eqn:He; [|done].
  destruct (_ =? _); [|done]. destruct (phase e) as [|[] ?] eqn:Hp; try done.
  - destruct (_ <? _); [done|]. simpl. unfold set_entry. simpl.
    rewrite insert_insert_eq, fmap_insert, !Hf. apply insert_id. by rewrite lookup_fmap, He.
  - by apply claim_cleanup_kept.
Qed.

Lemma claim_deadline_kept now : ∀ n st cl, seen (claim_deadline_loop now n st cl).1 = seen st.
Proof.
  induction n as [|n IH]; intros st cl; simpl; [done|].
  destruct (deadlines st) as [|record rest]; [done|]. destruct (now <? _); [done|].
  pose proof (process_deadline_kept now record (set_deadlines rest st)) as Hp.
  destruct (process_deadline _ _ _) as [claim st1]. simpl in Hp. by rewrite IH, Hp.
Qed.

Lemma claim_due_kept now budget st : seen (claim_due_cleanups cfg now budget st).2 = seen st.
Proof.
  unfold claim_due_cleanups.
  pose proof (claim_ready_kept (Nat.min budget (cleanup_scan_budget cfg)) st []) as H1.
  destruct (claim_ready_loop _ _ _) as [[n st1] cl]. simpl in H1.
  pose proof (claim_deadline_kept now n st1 cl) as H2.
  destruct (claim_deadline_loop _ _ _ _) as [st2 cl2]. simpl in *. congruence.
Qed.
End Claims.

Section Sessions.
Context (cfg : ClientLifecycleConfig).
Implicit Types (st : RegistryState) (h : list ClientCleanup).

Lemma sessions_lookup st c : sessions st !! c = session <$> entries st !! c.
Proof. apply lookup_fmap. Qed.

Lemma sessions_set_entry st c e e' :
  entries st !! c = Some e → session e' = session e → sessions (set_entry c e' st) = sessions st.
Proof.
  intros He Hs. unfold sessions. simpl. rewrite fmap_insert, Hs. apply insert_id.
  by rewrite lookup_fmap, He.
Qed.

Lemma sessions_same st st' : entries st' = entries st → sessions st' = sessions st.
Proof. unfold sessions. by intros ->. Qed.

(** What an active session answers. *)
Lemma active_session_ok st c s : active_session c st = Ok s → sessions st !! c = Some s.
Proof.
  unfold active_session. rewrite sessions_lookup. destruct (client_is_nil c); [done|].
  destruct (entries st !! c) as [e|]; [|done]. destruct (entry_is_active e); [|done].
  by intros [= <-].
Qed.

Lemma active_session_total st c : active_session c st ≠ Panic.
Proof. unfold active_session. by repeat case_match. Qed.

Lemma registry_state_None st c : registry_state c st = None ↔ sessions st !! c = None.
Proof. unfold registry_state. rewrite sessions_lookup. by destruct (entries st !! c). Qed.

Lemma registry_state_Active st c :
  registry_state c st = Some Active → ∃ e, entries st !! c = Some e ∧ entry_is_active e = true.
Proof.
  unfold registry_state, entry_state, entry_is_active. destruct (entries st !! c) as [e|]; [|done].
  simpl. intros Hs. exists e. split; [done|]. by destruct (phase e) as [|[] ?].
Qed.

Lemma sessions_touch st c e now :
  entries st !! c = Some e →
  sessions (expire_if_due now c e st).2 = sessions st ∧
  sessions (set_entry c (refresh now (ttl_ticks cfg) e) st) = sessions st.
Proof.
  intros He. split; [|by eapply sessions_set_entry]. unfold expire_if_due.
  destruct (now <? expires_at e); [done|]. simpl. by eapply (sessions_set_entry st c e).
Qed.

Lemma heartbeat_sessions st c now : sessions (heartbeat cfg c now st).2 = sessions st.
Proof.
  unfold heartbeat. destruct (entries st !! c) as [e|] eqn:He; [|done].
  destruct (negb _); [done|]. destruct (sessions_touch st c e now He) as [H1 H2].
  by destruct (expire_if_due now c e st) as [[] st'].
Qed.

(** Activating a registered client answers with its session, or fails. *)
Lemma activate_present st c s now :
  sessions st !! c = Some s →
  sessions (activate cfg c now st).2 = sessions st ∧
  match (activate cfg c now st).1 with
  | Ok (AlreadyActive s') => s' = s
  | Ok (Activated _) | Panic => False
  | Err _ => True
  end.
Proof.
  rewrite sessions_lookup. intros (e & He & ->)%fmap_Some. unfold activate.
  destruct (client_is_nil c); [done|]. rewrite He. destruct (negb _); [done|].
  destruct (sessions_touch st c e now He) as [H1 H2].
  by destruct (expire_if_due now c e st) as [[] st'].
Qed.

(** Activating an absent client adds a session of it, or changes nothing. *)
Lemma activate_absent st c now :
  sessions st !! c = None →
  match activate cfg c now st with
  | (Ok (Activated s), st') => session_client s = c ∧ sessions st' = <[c := s]> (sessions st)
  | (Err _, st') => st' = st
  | _ => False
  end.
Proof.
  rewrite sessions_lookup. intros He%fmap_None. unfold activate.
  destruct (client_is_nil c); [done|]. rewrite He. destruct (_ <=? _); [done|].
  unfold allocate_generation. destruct (checked_add _ _); [|done]. split; [done|].
  unfold sessions. simpl. by rewrite fmap_insert.
Qed.

Lemma begin_drain_sessions st s reason : sessions (begin_drain s reason st).2 = sessions st.
Proof.
  unfold begin_drain, ensure_session. destruct (entries st !! session_client s) as [e|] eqn:He; [|done].
  case_decide; [|done]. destruct (entry_is_active e); simpl.
  - unfold claim_cleanup, sessions, set_entry. simpl. rewrite insert_insert_eq, fmap_insert. simpl.
    apply insert_id. by rewrite lookup_fmap, He.
  - pose proof (claim_cleanup_kept session ltac:(done) Ready (session_client s) e st He) as Hc.
    by destruct (claim_cleanup _ _ _ _).
Qed.

Lemma begin_drain_total st s reason : (begin_drain s reason st).1 ≠ Panic.
Proof.
  unfold begin_drain, ensure_session. destruct (entries st !! _) as [e|]; [|done].
  case_decide; [|done]. destruct (entry_is_active e); simpl; [done|].
  by destruct (claim_cleanup Ready (session_client s) e st).
Qed.

Lemma claim_due_sessions now budget st : sessions (claim_due_cleanups cfg now budget st).2 = sessions st.
Proof. by apply claim_due_kept. Qed.

Lemma drop_sessions claim st : sessions (ClientCleanup_drop claim st) = sessions st.
Proof.
  unfold ClientCleanup_drop, release_cleanup. destruct (entries st !! _) as [e|] eqn:He; [|done].
  case_decide; [|done]. unfold queue_running_cleanup. destruct (phase e) as [|reason []]; try done.
  exact (sessions_set_entry st _ e (set_phase (CleanupPending reason Queued) e) He eq_refl).
Qed.
End Sessions.
