(* ===== verification/ClientWorld.v ===== *)
(** * The client manager with its callers

    The calls of the client manager and of the object manager it shares the
    segment pool with, in any order, and the invariant of the whole: the
    registry, the slots, the mounted segments and the pending unmounts agree,
    and every staged write belongs to a registered session. *)
From stdpp Require Import relations.
From S2P Require Import Prelude Identity ClientLifecycle ClientSessions Segment ByteAllocator SegmentPool PoolView Placement.
From S2P Require Import TenantQuota Replica ObjectTypes CatalogState CatalogWrite CatalogCollector CatalogInv CatalogOps.
From S2P Require Import CatalogSlots CatalogWorld CatalogStaged CatalogResources Eviction ObjectManager ManagerWorld.
From S2P Require Import GracefulUnmount ClientManager ClientViews ClientPool.

Section Steps.
Context {A Alloc : Type} `{U : Upstream A Alloc} (cfg : ClientLifecycleConfig).
Implicit Types (m : ClientManager A Alloc).

Inductive cm_op :=
| CHeartbeat (c : ClientId) (now : N)
| CDrain (l : list ClientSession) (reason : CleanupReason) (now : N)
| CCleanup (client_now catalog_now : N)
| CMount (c : ClientId) (s : SegmentSpec) (now : N)
| CUnmount (c : ClientId) (i : SegmentId)
| CSchedule (c : ClientId) (i : SegmentId) (deadline : N)
| CGraceful (now : N)
| CNextDeadline
| CRemount (c : ClientId) (specs : list SegmentSpec) (now : N)
| CFinalize (k : nat) (active_before : bool) (accounting : option (N * N))
| CObject (op : manager_op).

(** The object calls that clients make besides finalizing a put; segments are
    changed by the client manager only. *)
Definition object_call (op : manager_op) : bool :=
  match op with MSegment _ | MFinalize _ _ _ _ => false | _ => true end.

Definition outcome_of {E T} (x : res E T * ClientManager A Alloc) : option (ClientManager A Alloc) :=
  match x with (Panic, _) => None | (_, m') => Some m' end.

(** [None] is a panic.  A put is finalized under the admission of its owner:
    what it says after staging is read here, what it said before is given, since
    the session may have been fenced in between. *)
Definition cm_step (op : cm_op) m : option (ClientManager A Alloc) :=
  match op with
  | CHeartbeat c now => Some (cm_heartbeat cfg c now m).2
  | CDrain l reason now => outcome_of (drain_sessions l reason now m)
  | CCleanup client_now catalog_now => outcome_of (run_cleanup_step cfg client_now catalog_now m)
  | CMount c s now => outcome_of (mount_segment cfg c s now m)
  | CUnmount c i => outcome_of (unmount_segment c i m)
  | CSchedule c i deadline => outcome_of (schedule_graceful_unmount c i deadline m)
  | CGraceful now => outcome_of (run_graceful_unmount_step cfg now m)
  | CNextDeadline => Some (next_graceful_unmount_deadline m).2
  | CRemount c specs now => outcome_of (remount cfg c specs now m)
  | CFinalize k before accounting =>
      match om_prepared (cm_objects m) !! k with
      | None => Some m
      | Some pp =>
          o ← manager_step
                (MFinalize k before (admission_is_active (wc_owner (pp_claim pp)) m) accounting)
                (cm_objects m);
          Some (with_objects o m)
      end
  | CObject op =>
      if object_call op then o ← manager_step op (cm_objects m); Some (with_objects o m) else Some m
  end.

(** The remote interface makes the caller the owner of the segments it remounts;
    bytes fit their counters when a put is staged. *)
Definition cm_env (op : cm_op) m : Prop :=
  match op with
  | CRemount c specs _ => Forall (fun s => spec_owner s = c) specs
  | CFinalize k before accounting => manager_env (MFinalize k before true accounting) (cm_objects m)
  | _ => True
  end.

Inductive cm_reachable (cid pid nodes : N) (conf : ObjectCatalogConfig)
    (eviction : option MemoryEvictionConfig) : ClientManager A Alloc → Prop :=
| creach_new o :
    pool_config_valid nodes = true → (∀ c, eviction = Some c → configured c) →
    om_new cid conf eviction (pool_new pid nodes) = Ok o →
    cm_reachable cid pid nodes conf eviction (cm_new o)
| creach_step op m m' :
    cm_reachable cid pid nodes conf eviction m → cm_env op m → cm_step op m = Some m' →
    cm_reachable cid pid nodes conf eviction m'.
End Steps.

Arguments cm_op : clear implicits.

(** ** The invariant *)

Section Invariant.
Context {A Alloc : Type} `{L : UpstreamLaws A Alloc} (cfg : ClientLifecycleConfig).
Context (cid pid nodes : N) (conf : ObjectCatalogConfig) (eviction : option MemoryEvictionConfig).
Implicit Types (m : ClientManager A Alloc) (p : Pool A).

Local Abbreviation ok m := (good cid pid nodes conf eviction (cm_objects m)).

(** The session a write owner names. *)
Definition owner_session (o : WriteOwner) : ClientSession :=
  mkSession (wo_client o) (session_generation o).

Record cinv m : Prop := {
  ci_registry : registry_inv cfg (cm_registry m) [];
  ci_objects : ok m (cm_pool m);
  ci_consistent : consistent (sessions (cm_registry m)) (view_of (cm_pool m)) pid (cm_slots m)
    (q_pending (graceful_unmounts m));
  ci_queue : queue_ok (graceful_unmounts m);
  ci_idle : queue_idle (graceful_unmounts m);
  ci_staged o : staged_by (om_catalog (cm_objects m)) o → session_generation o ≠ 0 →
    sessions (cm_registry m) !! wo_client o = Some (owner_session o)
}.

(** [m'] has the resources of [m]: sessions, segments, slots, unmounts, writes. *)
Record quiet m m' : Prop := {
  qt_registry : registry_inv cfg (cm_registry m') [];
  qt_sessions : sessions (cm_registry m') = sessions (cm_registry m);
  qt_objects : ok m' (cm_pool m');
  qt_view : view_of (cm_pool m') = view_of (cm_pool m);
  qt_slots : cm_slots m' = cm_slots m;
  qt_queue : graceful_unmounts m' = graceful_unmounts m;
  qt_catalog : om_catalog (cm_objects m') = om_catalog (cm_objects m)
}.

Lemma quiet_refl m : cinv m → quiet m m.
Proof. intros H. split; try done; apply H. Qed.

Lemma quiet_inv m m' : cinv m → quiet m m' → cinv m'.
Proof.
  intros [Hr Ho Hc Hq Hi Hs] []. split; [done|done|..]; rewrite ?qt_sessions0, ?qt_view0, ?qt_slots0,
    ?qt_queue0, ?qt_catalog0; done.
Qed.

(** ** Calls of the parts *)

Lemma pool_call_eq {E T} (f : Pool A → res E T * Pool A) p m r p' :
  f p = (r, p') → pool_call f (set_pool p m) = (r, set_pool p' m).
Proof. intros Hf. unfold pool_call, cm_pool. simpl. by rewrite Hf. Qed.

Lemma pool_call_start {E T} (f : Pool A → res E T * Pool A) m r p' :
  f (cm_pool m) = (r, p') → pool_call f m = (r, set_pool p' m).
Proof. intros Hf. unfold pool_call. by rewrite Hf. Qed.

Lemma registry_call_eq {E T} (f : RegistryState → res E T * RegistryState) p m r st' :
  f (cm_registry m) = (r, st') →
  registry_call f (set_pool p m) = (r, set_pool p (with_registry st' m)).
Proof. intros Hf. unfold registry_call. simpl. by rewrite Hf. Qed.

Lemma segment_entry_eq {E} h p m e :
  entries p !! handle_entry h = Some e → segment_entry (E := E) h (set_pool p m) = (Ok e, set_pool p m).
Proof. intros He. unfold segment_entry, cm_pool. simpl. by rewrite He. Qed.

Lemma view_entry p i a e : view_of p !! i = Some (a, e) → entries p !! a = Some e.
Proof. by intros [_ ?]%lookup_view. Qed.

(** The registry moves and the pool shows what it did. *)
Lemma quiet_registry m p st' :
  cinv m → ok m p → view_of p = view_of (cm_pool m) → registry_inv cfg st' [] →
  sessions st' = sessions (cm_registry m) → quiet m (set_pool p (with_registry st' m)).
Proof. intros H Hg HV Hi Hs. by split. Qed.

Lemma quiet_pool m p :
  cinv m → ok m p → view_of p = view_of (cm_pool m) → quiet m (set_pool p m).
Proof. intros H Hg HV. split; try done. apply H. Qed.

(** Errors that tell of a broken invariant. *)
Definition internal (e : ClientManagerError) : bool :=
  match e with InconsistentSlot | ManagerRollback _ _ => true | _ => false end.
End Invariant.
