(* ===== verification/ClientMount.v ===== *)
(** * Mounting and remounting

    [mount_segment] and [remount] keep the invariant of [ClientWorld], never end
    in an internal error, and leave all resources as they were when they fail. *)
From S2P Require Import Prelude Identity ClientLifecycle ClientSessions Segment ByteAllocator SegmentPool PoolView Placement.
From S2P Require Import TenantQuota Replica ObjectTypes CatalogState CatalogWrite CatalogCollector CatalogResources.
From S2P Require Import CatalogStaged Eviction ObjectManager ManagerWorld GracefulUnmount ClientManager ClientViews ClientPool ClientWorld.

Section Mount.
Context {A Alloc : Type} `{L : UpstreamLaws A Alloc} (cfg : ClientLifecycleConfig).
Context (cid pid nodes : N) (conf : ObjectCatalogConfig) (eviction : option MemoryEvictionConfig).
Implicit Types (m : ClientManager A Alloc) (p : Pool A).

Local Abbreviation ok m := (good cid pid nodes conf eviction (cm_objects m)).
Local Abbreviation inv := (cinv cfg cid pid nodes conf eviction).
Local Abbreviation quiet := (quiet cfg cid pid nodes conf eviction).
Local Abbreviation S m := (sessions (cm_registry m)).

(** ** Slots around a call *)

Lemma slot_absent m c : inv m → S m !! c = None → cm_slots m !! c = None.
Proof. intros H Hc. by rewrite (cn_slots _ _ _ _ _ (ci_consistent _ _ _ _ _ _ _ H)), Hc. Qed.

Lemma slot_present m c s :
  inv m → S m !! c = Some s →
  cm_slots m !! c = Some (mkMount (Some s) (owned_by c (view_of (cm_pool m)))).
Proof. intros H Hc. by rewrite (cn_slots _ _ _ _ _ (ci_consistent _ _ _ _ _ _ _ H)), Hc. Qed.

Lemma absent_owns_nothing m c : inv m → S m !! c = None → owned_by c (view_of (cm_pool m)) = ∅.
Proof.
  intros H Hc. apply set_eq. intros i. rewrite elem_of_owned. split; [|set_solver].
  intros (a & e & Hi & <-).
  destruct (cn_owner _ _ _ _ _ (ci_consistent _ _ _ _ _ _ _ H) _ _ _ Hi). congruence.
Qed.

(** The state of a call on an absent client. *)
Definition opened (c : ClientId) (p : Pool A) (st : RegistryState) m : ClientManager A Alloc :=
  set_pool p (with_registry st (set_slot c mount_default m)).

Lemma opened_start c m :
  cm_slots m !! c = None → slot c m = opened c (cm_pool m) (cm_registry m) m.
Proof. intros Hc. unfold slot. rewrite Hc. by destruct m as [r [] sl q]. Qed.

Lemma prune_opened c p st m :
  cm_slots m !! c = None → prune_unused_slot c (opened c p st m) = set_pool p (with_registry st m).
Proof.
  intros Hc. unfold prune_unused_slot. simpl. rewrite lookup_insert_eq. simpl.
  unfold with_slots, set_pool, with_objects, with_registry. simpl. by rewrite delete_insert_id.
Qed.

Lemma with_slot_absent {T} c (f : ClientMountState → act A Alloc ClientManagerError T) m :
  inv m → S m !! c = None →
  with_slot c f m =
    match f mount_default (opened c (cm_pool m) (cm_registry m) m) with
    | (Err e, m2) => (Err e, prune_unused_slot c m2)
    | r => r
    end.
Proof.
  intros H Hc. pose proof (slot_absent m c H Hc) as Hs. unfold with_slot.
  rewrite (opened_start c m Hs). simpl. by rewrite lookup_insert_eq.
Qed.

Lemma with_slot_present {T} c (f : ClientMountState → act A Alloc ClientManagerError T) m s :
  inv m → S m !! c = Some s →
  (∀ e m', f (mkMount (Some s) (owned_by c (view_of (cm_pool m)))) m = (Err e, m') →
    cm_slots m' = cm_slots m) →
  with_slot c f m = f (mkMount (Some s) (owned_by c (view_of (cm_pool m)))) m.
Proof.
  intros H Hc Hf. pose proof (slot_present m c s H Hc) as Hs. unfold with_slot, slot. rewrite Hs, Hs. simpl.
  destruct (f _ m) as [[x|e|] m'] eqn:He; [done| |done].
  f_equal. unfold prune_unused_slot. by rewrite (Hf e m' eq_refl), Hs.
Qed.

(** ** Outcomes *)

(** A failed call changes no resource and its error is one of the caller's. *)
Definition failed m (e : ClientManagerError) m' : Prop := quiet m m' ∧ internal e = false.

Definition mount_ok (c : ClientId) (ids : gset SegmentId) m
    (x : res ClientManagerError ActivateOutcome * ClientManager A Alloc) : Prop :=
  match x with
  | (Ok o, m') => inv m' ∧ S m' = <[c := outcome_session o]> (S m) ∧
      owned_by c (view_of (cm_pool m')) = ids ∪ owned_by c (view_of (cm_pool m)) ∧
      view_of (cm_pool m) ⊆ view_of (cm_pool m') ∧
      om_catalog (cm_objects m') = om_catalog (cm_objects m) ∧
      graceful_unmounts m' = graceful_unmounts m
  | (Err e, m') => failed m e m'
  | (Panic, _) => False
  end.

(** A client's session and segments become visible together. *)
Lemma mount_done m c s V' p st' sl ids o :
  inv m → S m !! c = None ∨ S m !! c = Some s → session_client s = c → outcome_session o = s →
  view_of (cm_pool m) ⊆ V' →
  (∀ i a e, V' !! i = Some (a, e) → view_of (cm_pool m) !! i = None →
    spec_owner (spec e) = c ∧ state e = Accepting) →
  owned_by c V' = ids ∪ owned_by c (view_of (cm_pool m)) →
  ok m p → view_of p = V' → registry_inv cfg st' [] → sessions st' = <[c := s]> (S m) →
  sl = <[c := mkMount (Some s) (owned_by c V')]> (cm_slots m) →
  mount_ok c ids m (Ok o, with_slots sl (set_pool p (with_registry st' m))).
Proof.
  intros H Hc Hs Ho Hsub Hnew Hown Hg HV Hi HS Hsl. set (m' := with_slots _ _).
  assert (cm_pool m' = p) as Hp by done. assert (S m' = <[c := s]> (S m)) as HS' by done.
  unfold mount_ok. rewrite Hp, HV, HS', Ho. split_and!; [|done..]. split; [done|done| |apply H..|].
  - rewrite Hp, HV, HS'. change (cm_slots m') with sl. rewrite Hsl. apply (consistent_mount pid (S m) (view_of (cm_pool m))); try done.
    apply H.
  - intros w Hw Hg0. rewrite HS', lookup_insert.
    pose proof (ci_staged _ _ _ _ _ _ _ H w Hw Hg0) as Hl. case_decide as Hwc; [|done].
    subst c. destruct Hc as [Hc|Hc]; congruence.
Qed.

(** ** One segment *)

(** Attaching a segment that its owner has not mounted. *)
Lemma attach_fresh om s p :
  good cid pid nodes conf eviction om p → spec_id s ∉ owned_by (spec_owner s) (view_of p) →
  (∃ e p1, pool_attach_quiesced s p = (Err e, p1) ∧ good cid pid nodes conf eviction om p1 ∧
     view_of p1 = view_of p) ∨
  (∃ h p1, pool_attach_quiesced s p = (Ok (Attached h), p1) ∧ good cid pid nodes conf eviction om p1 ∧
     view_of p !! spec_id s = None ∧
     view_of p1 = <[spec_id s := (handle_entry h, entry_quiesce (entry_new s))]> (view_of p)).
Proof.
  intros Hg Hn. destruct (good_attach cid pid nodes conf eviction om s p Hg) as (r & p1 & Hp & Hg1 & Hv).
  rewrite Hp. unfold view_attach in Hv. destruct (validate_spec s); [|destruct Hv as [-> HV]|done].
  2: { left. eauto 10. }
  destruct (view_of p !! spec_id s) as [[b e]|] eqn:Hs.
  - destruct Hv as [HV Hr]. case_decide as He; [|subst r; left; eauto 10].
    destruct Hn. apply elem_of_owned. exists b, e. by rewrite He.
  - destruct Hv as [(pid' & -> & HV & _)|(i & x & _ & _ & -> & HV)]; [right|left]; eauto 10.
Qed.

(** The view with one more segment of [c], accepting. *)
Lemma one_more c V i a e :
  V !! i = None → spec_owner (spec e) = c → state e = Accepting →
  V ⊆ <[i := (a, e)]> V ∧
  (∀ j b f, <[i := (a, e)]> V !! j = Some (b, f) → V !! j = None →
    spec_owner (spec f) = c ∧ state f = Accepting) ∧
  owned_by c (<[i := (a, e)]> V) = {[i]} ∪ owned_by c V.
Proof.
  intros Hi Ho Hst. split_and!.
  - by apply insert_subseteq.
  - intros j b f. rewrite lookup_insert. case_decide; [|congruence]. by intros [= <- <-].
  - apply set_eq. intros j. rewrite elem_of_union, elem_of_singleton, !elem_of_owned, lookup_insert.
    case_decide as Hj; [subst j|naive_solver]. split; [by left|]. intros _. eauto.
Qed.

Lemma delete_insert_view i x V : V !! i = None → view_without [i] (<[i := x]> V) = V.
Proof.
  intros Hi. rewrite <- view_without_cons, view_without_nil. by rewrite delete_insert_id.
Qed.

(** What one segment needs after it was attached: it can be reactivated, and it
    can be taken back. *)
Lemma attached_one om s p a e :
  good cid pid nodes conf eviction om p → view_of p !! spec_id s = Some (a, e) →
  spec_owner (spec e) = spec_owner s →
  ∃ p', pool_reactivate (spec_owner s) (spec_id s) p = (Ok tt, p') ∧
    good cid pid nodes conf eviction om p' ∧
    view_of p' = <[spec_id s := (a, entry_reactivate e)]> (view_of p).
Proof.
  intros Hg Hi Ho.
  pose proof (good_reactivate cid pid nodes conf eviction om (spec_owner s) (spec_id s) p Hg) as Hr.
  unfold view_change, view_owned in Hr. rewrite Hi, decide_True in Hr by done. exact Hr.
Qed.

Lemma undo_one {T} c i V a e err m p :
  ok m p → V !! i = None → view_of p = <[i := (a, e)]> V → spec_owner (spec e) = c →
  ∃ p', undo (T := T) c [i] [] err (set_pool p m) = (Err err, set_pool p' m) ∧ ok m p' ∧ view_of p' = V.
Proof.
  intros Hg Hi HV Ho.
  apply attach_undone; [done| |apply NoDup_singleton|set_solver|by rewrite HV, delete_insert_view].
  intros j ->%list_elem_of_singleton. apply elem_of_owned. rewrite HV, lookup_insert_eq. eauto.
Qed.

Lemma mount_absent_ok c s now m :
  inv m → S m !! c = None → spec_owner s = c →
  mount_ok c {[spec_id s]} m
    (match mount_segment_absent cfg c s now mount_default
             (opened c (cm_pool m) (cm_registry m) m) with
     | (Err e, m2) => (Err e, prune_unused_slot c m2)
     | r => r
     end).
Proof.
  intros H Hc Ho. pose proof (slot_absent m c H Hc) as Hsl.
  pose proof (absent_owns_nothing m c H Hc) as H0.
  unfold mount_segment_absent, bind at 1, map_error at 1, opened at 1.
  destruct (attach_fresh (cm_objects m) s (cm_pool m)) as
    [(e & p1 & Hp & Hg & HV)|(h & p1 & Hp & Hg & Hn & HV)]; [apply H|rewrite Ho, H0; set_solver|..];
    rewrite (pool_call_eq _ _ _ _ _ Hp).
  { fold (opened c p1 (cm_registry m) m). rewrite prune_opened by done. split; [|done].
    by apply quiet_registry; [| | |apply H|]. }
  assert (view_of p1 !! spec_id s = Some (handle_entry h, entry_quiesce (entry_new s))) as Hi
    by (by rewrite HV, lookup_insert_eq).
  unfold bind at 1. rewrite (segment_entry_eq _ _ _ _ (view_entry _ _ _ _ Hi)). cbn [is_new outcome_segment].
  change (spec_id (spec (entry_quiesce (entry_new s)))) with (spec_id s).
  pose proof (activate_absent cfg (cm_registry m) c now Hc) as Hact.
  pose proof (inv_activate cfg (cm_registry m) [] c now (ci_registry _ _ _ _ _ _ _ H)) as Hri.
  destruct (activate cfg c now (cm_registry m)) as [[[session|session]|e|] st'] eqn:Ha; [|done| |done];
    unfold handle at 1; rewrite (registry_call_eq _ _ _ _ st') by exact Ha.
  - destruct Hact as [Hsc HS].
    destruct (attached_one (cm_objects m) s p1 _ _ Hg Hi eq_refl) as (p2 & Hp2 & Hg2 & HV2).
    unfold handle. rewrite Ho in Hp2. rewrite (pool_call_eq _ _ _ _ _ Hp2). unfold bind, update, ret.
    rewrite HV, insert_insert_eq in HV2.
    destruct (one_more c (view_of (cm_pool m)) (spec_id s) (handle_entry h)
      (entry_reactivate (entry_quiesce (entry_new s))) Hn Ho eq_refl) as (Hsub & Hnew & Hown).
    apply (mount_done m c session (view_of p2)); rewrite ?HV2; auto. simpl.
    rewrite insert_insert_eq. do 2 f_equal. rewrite Hown, H0. set_solver.
  - subst st'. destruct (undo_one (T := ActivateOutcome) c (spec_id s) _ _ _ (ManagerLifecycle e)
      (with_registry (cm_registry m) (set_slot c mount_default m)) p1 Hg Hn HV Ho) as (p2 & Hu & Hg2 & HV2).
    change (with_registry (cm_registry m) (with_registry (cm_registry m) (set_slot c mount_default m)))
      with (with_registry (cm_registry m) (set_slot c mount_default m)).
    rewrite Hu. fold (opened c p2 (cm_registry m) m). rewrite prune_opened by done. split; [|done].
    by apply quiet_registry; [| | |apply H|].
Qed.

(** Refreshing the session of an active client. *)
Lemma reactivate_session c s now m ids :
  inv m → S m !! c = Some s → ids ⊆ owned_by c (view_of (cm_pool m)) →
  mount_ok c ids m (map_error ManagerLifecycle (registry_call (activate cfg c now)) m).
Proof.
  intros H Hc Hids. destruct (activate_present cfg (cm_registry m) c s now Hc) as [HS Hr].
  pose proof (inv_activate cfg (cm_registry m) [] c now (ci_registry _ _ _ _ _ _ _ H)) as Hi.
  unfold map_error, registry_call.
  destruct (activate cfg c now (cm_registry m)) as [r st'] eqn:Ha. simpl in *.
  assert (quiet m (with_registry st' m)) as Hq by (split; try done; apply H).
  destruct r as [[s'|s']|e|]; [done| | |done].
  - subst s'. split_and!; [by eapply quiet_inv| |set_solver|done|done|done].
    simpl. rewrite HS. symmetry. by apply insert_id.
  - by split.
Qed.

Lemma mount_active_ok c s now m e0 :
  inv m → ClientLifecycle.entries (cm_registry m) !! c = Some e0 → entry_is_active e0 = true →
  client_is_nil c = false → spec_owner s = c →
  mount_ok c {[spec_id s]} m
    (mount_segment_active cfg c s now
       (mkMount (Some (session e0)) (owned_by c (view_of (cm_pool m)))) m).
Proof.
  intros H He0 Hact Hnil Ho.
  assert (S m !! c = Some (session e0)) as Hc by (by rewrite sessions_lookup, He0).
  assert (active_session c (cm_registry m) = Ok (session e0)) as Has
    by (unfold active_session; by rewrite Hnil, He0, Hact).
  assert (∀ e, internal e = false → mount_ok c {[spec_id s]} m (Err e, m)) as Herr
    by (intros e He; split; [by apply quiet_refl|done]).
  unfold mount_segment_active, bind at 1, map_error at 1. rewrite Has. cbn [ms_session ms_segments].
  rewrite bool_decide_true by done. cbn [negb].
  case_bool_decide as Hin.
  - apply elem_of_owned in Hin as Hv. destruct Hv as (a & e & Hi & _).
    unfold bind, read, of_option, ret, catalog_segment.
    apply lookup_view in Hi as Hm. destruct Hm as [Hseg Hen]. rewrite Hseg. cbn [fmap option_fmap option_map].
    unfold segment_entry. cbn [handle_entry]. rewrite Hen.
    destruct (negb _); [by apply Herr|]. destruct (negb _); [by apply Herr|].
    apply (reactivate_session c (session e0)); [done..|]. set_solver.
  - unfold bind at 1, map_error at 1.
    destruct (attach_fresh (cm_objects m) s (cm_pool m)) as
      [(e & p1 & Hp & Hg & HV)|(h & p1 & Hp & Hg & Hn & HV)]; [apply H|by rewrite Ho|..];
      rewrite (pool_call_start _ _ _ _ Hp); cbn [is_new negb].
    { split; [|done]. by apply quiet_pool. }
    assert (view_of p1 !! spec_id s = Some (handle_entry h, entry_quiesce (entry_new s))) as Hi
      by (by rewrite HV, lookup_insert_eq).
    destruct (attached_one (cm_objects m) s p1 _ _ Hg Hi eq_refl) as (p2 & Hp2 & Hg2 & HV2).
    unfold handle at 1. rewrite Ho in Hp2. rewrite (pool_call_eq _ _ _ _ _ Hp2).
    rewrite HV, insert_insert_eq in HV2.
    destruct (activate_present cfg (cm_registry m) c _ now Hc) as [HS Hr].
    pose proof (inv_activate cfg (cm_registry m) [] c now (ci_registry _ _ _ _ _ _ _ H)) as Hri.
    destruct (activate cfg c now (cm_registry m)) as [r st'] eqn:Ha. simpl in HS, Hr, Hri.
    unfold handle at 1. rewrite (registry_call_eq _ _ _ _ _ Ha).
    destruct r as [[s'|s']|e|]; [done| | |done].
    + subst s'. rewrite bool_decide_true by done. unfold bind, update, ret.
      destruct (one_more c (view_of (cm_pool m)) (spec_id s) (handle_entry h)
        (entry_reactivate (entry_quiesce (entry_new s))) Hn Ho eq_refl) as (Hsub & Hnew & Hown).
      pose proof (cn_client _ _ _ _ _ (ci_consistent _ _ _ _ _ _ _ H) _ _ Hc) as Hsc.
      apply (mount_done m c (session e0) (view_of p2)); rewrite ?HV2; auto.
      * rewrite HS. symmetry. by apply insert_id.
      * simpl. by rewrite Hown.
    + destruct (undo_one (T := ActivateOutcome) c (spec_id s) _ _ _ (ManagerLifecycle e)
        (with_registry st' m) p2 Hg2 Hn HV2 Ho) as (p3 & Hu & Hg3 & HV3). rewrite Hu.
      split; [|done]. by apply quiet_registry.
Qed.

Lemma mount_ok_slots c ids m x e m' : x = (Err e, m') → mount_ok c ids m x → cm_slots m' = cm_slots m.
Proof. intros -> [Hq _]. apply Hq. Qed.

(** The three states a client can be in. *)
Lemma with_slot_ok c ids m (f : ClientMountState → act A Alloc ClientManagerError ActivateOutcome) :
  inv m →
  (S m !! c = None → mount_ok c ids m
    (match f mount_default (opened c (cm_pool m) (cm_registry m) m) with
     | (Err e, m2) => (Err e, prune_unused_slot c m2)
     | r => r
     end)) →
  (∀ s, S m !! c = Some s →
    mount_ok c ids m (f (mkMount (Some s) (owned_by c (view_of (cm_pool m)))) m)) →
  mount_ok c ids m (with_slot c f m).
Proof.
  intros H Habs Hpres. destruct (S m !! c) as [s|] eqn:Hc.
  - erewrite with_slot_present; [by apply Hpres|done|done|].
    intros e m' He. eapply mount_ok_slots; [exact He|by apply Hpres].
  - rewrite with_slot_absent by done. by apply Habs.
Qed.

Lemma refused c ids m e : inv m → internal e = false → mount_ok c ids m (Err e, m).
Proof. intros H He. split; [by apply quiet_refl|done]. Qed.

Lemma mount_segment_ok c s now m : inv m → mount_ok c {[spec_id s]} m (mount_segment cfg c s now m).
Proof.
  intros H. unfold mount_segment. destruct (client_is_nil c) eqn:Hnil; [by apply refused|].
  case_bool_decide as Ho; [|by apply refused]. simpl. apply with_slot_ok; [done|..].
  - intros Hc. pose proof (mount_absent_ok c s now m H Hc Ho) as Hm. simpl.
    by rewrite (proj2 (registry_state_None (cm_registry m) c) Hc).
  - intros s0 Hc. destruct (registry_state c (cm_registry m)) as [[]|] eqn:Hst; [|by apply refused..|].
    + apply registry_state_Active in Hst as (e0 & He0 & Hact).
      rewrite sessions_lookup, He0 in Hc. injection Hc as <-. by apply mount_active_ok.
    + apply registry_state_None in Hst. congruence.
Qed.

(** ** Remount *)

Lemma remount_active_ok c specs now m e0 :
  inv m → ClientLifecycle.entries (cm_registry m) !! c = Some e0 → entry_is_active e0 = true →
  client_is_nil c = false →
  mount_ok c (list_to_set (map spec_id specs)) m
    (remount_active cfg c specs now
       (mkMount (Some (session e0)) (owned_by c (view_of (cm_pool m)))) m).
Proof.
  intros H He0 Hact Hnil.
  assert (S m !! c = Some (session e0)) as Hc by (by rewrite sessions_lookup, He0).
  unfold remount_active, bind at 1, map_error at 1, active_session. rewrite Hnil, He0, Hact.
  cbn [ms_session ms_segments]. rewrite bool_decide_true by done. cbn [negb].
  unfold bind, read. destruct (_ || _) eqn:Hb; [by apply refused|].
  apply orb_false_elim in Hb as [Hids%negb_false_iff _]. apply bool_decide_eq_true in Hids.
  apply (reactivate_session c (session e0)); [done..|]. by rewrite Hids.
Qed.

(** The attached segments, reactivated. *)
Lemma reactivated_view c V0 att V V' (ids : list SegmentId) :
  attached_to c V0 att V → (∀ i, i ∈ ids ↔ i ∈ att) →
  (∀ i, V' !! i = if bool_decide (i ∈ ids) then (fun x => (x.1, entry_reactivate x.2)) <$> V !! i
                  else V !! i) →
  V0 ⊆ V' ∧
  (∀ i a e, V' !! i = Some (a, e) → V0 !! i = None → spec_owner (spec e) = c ∧ state e = Accepting) ∧
  owned_by c V' = list_to_set att ∪ owned_by c V0 ∧ view_without att V' = V0.
Proof.
  intros Hat Hids HV'.
  assert (∀ i, i ∉ att → V' !! i = V0 !! i) as Hold.
  { intros i Hi. rewrite HV', bool_decide_false by (by rewrite Hids). by apply (at_old _ _ _ _ Hat). }
  assert (∀ i, i ∈ att → V0 !! i = None ∧ ∃ a e, V' !! i = Some (a, e) ∧
    spec_owner (spec e) = c ∧ state e = Accepting) as Hnew.
  { intros i Hi. destruct (at_new _ _ _ _ Hat i Hi) as (Hn & a & e & He & Ho & Hst). split; [done|].
    exists a, (entry_reactivate e). rewrite HV', bool_decide_true, He by (by apply Hids).
    destruct e as [sp [] lv]; done. }
  split_and!.
  - apply map_subseteq_spec. intros i x Hx. rewrite Hold; [done|].
    intros Hi. destruct (Hnew i Hi). congruence.
  - intros i a e Hi Hn. destruct (decide (i ∈ att)) as [Hin|Hin].
    + destruct (Hnew i Hin) as (_ & b & f & Hf & ?). rewrite Hi in Hf. by injection Hf as <- <-.
    + rewrite Hold in Hi by done. congruence.
  - apply set_eq. intros i. rewrite elem_of_union, elem_of_list_to_set, !elem_of_owned.
    destruct (decide (i ∈ att)) as [Hin|Hin].
    + destruct (Hnew i Hin) as (_ & a & e & ? & ? & _). naive_solver.
    + rewrite Hold by done. naive_solver.
  - apply map_eq. intros i. apply option_eq. intros x. unfold view_without.
    rewrite map_lookup_filter_Some. simpl. destruct (decide (i ∈ att)) as [Hin|Hin].
    + destruct (Hnew i Hin) as [-> _]. naive_solver.
    + rewrite Hold by done. naive_solver.
Qed.

Lemma remount_absent_ok c specs now m :
  inv m → S m !! c = None → Forall (fun s => spec_owner s = c) specs →
  mount_ok c (list_to_set (map spec_id specs)) m
    (match remount_absent cfg c specs now (opened c (cm_pool m) (cm_registry m) m) with
     | (Err e, m2) => (Err e, prune_unused_slot c m2)
     | r => r
     end).
Proof.
  intros H Hc Hsp. pose proof (slot_absent m c H Hc) as Hsl.
  pose proof (absent_owns_nothing m c H Hc) as H0.
  assert (∀ e p, internal e = false → ok m p → view_of p = view_of (cm_pool m) →
    mount_ok c (list_to_set (map spec_id specs)) m
      (Err e, prune_unused_slot c (opened c p (cm_registry m) m))) as Hfail.
  { intros e p He Hg HV. rewrite prune_opened by done. split; [|done].
    by apply quiet_registry; [| | |apply H|]. }
  set (m1 := with_registry (cm_registry m) (set_slot c mount_default m)).
  unfold remount_absent, bind at 1. change (opened c (cm_pool m) (cm_registry m) m) with (set_pool (cm_pool m) m1).
  pose proof (attach_each_ok cid pid nodes conf eviction c (view_of (cm_pool m)) m1 specs [] [] (cm_pool m)
    (ci_objects _ _ _ _ _ _ _ H) (attached_start _ _) H0 Hsp ltac:(set_solver)) as Hat.
  destruct (attach_each c specs [] [] _) as [[[att qs]|e|] m2]; [| |done].
  2: { destruct Hat as ([cause ->] & p' & -> & Hg' & HV'). by apply Hfail. }
  destruct Hat as (p1 & -> & Hg1 & Hat & Hqs & Hiff).
  destruct (good_reactivate_many cid pid nodes conf eviction (cm_objects m) c (att ++ qs) p1 Hg1)
    as (p2 & Hp2 & Hg2 & HV2).
  { intros i Hi. apply (attached_owned _ _ _ _ _ Hat). set_solver. }
  unfold handle at 1. rewrite (pool_call_eq _ _ m1 _ _ Hp2).
  destruct (reactivated_view c _ att _ _ (att ++ qs) Hat ltac:(set_solver) HV2)
    as (Hsub & Hnew & Hown & Hback).
  pose proof (activate_absent cfg (cm_registry m) c now Hc) as Hact.
  pose proof (inv_activate cfg (cm_registry m) [] c now (ci_registry _ _ _ _ _ _ _ H)) as Hri.
  destruct (activate cfg c now (cm_registry m)) as [[[session|session]|e|] st'] eqn:Ha; [|done| |done];
    unfold handle; rewrite (registry_call_eq _ _ m1 _ st') by exact Ha.
  - destruct Hact as [Hsc HS]. unfold bind, update, ret.
    assert (list_to_set (map spec_id specs) = (list_to_set att : gset SegmentId)) as Hids.
    { apply set_eq. intros i. rewrite !elem_of_list_to_set, Hiff. set_solver. }
    apply (mount_done m c session (view_of p2)); rewrite ?Hids; auto.
    simpl. rewrite insert_insert_eq, Hown, H0. do 2 f_equal. set_solver.
  - subst st'.
    destruct (attach_undone cid pid nodes conf eviction (T := ActivateOutcome) c (view_of (cm_pool m)) att qs
      (ManagerLifecycle e) (with_registry (cm_registry m) m1) p2) as (p3 & Hu & Hg3 & HV3);
      [done| |apply Hat|done|done|].
    { intros i Hi. rewrite Hown. set_solver. }
    rewrite Hu. by apply Hfail.
Qed.

Lemma remount_opened m c specs now :
  inv m → client_is_nil c = false → S m !! c = None →
  remount cfg c specs now m =
    match remount_absent cfg c specs now (set_slot c mount_default m) with
    | (Err e, m2) => (Err e, prune_unused_slot c m2)
    | r => r
    end.
Proof.
  intros H Hnil Hc. unfold remount, with_slot, slot. rewrite Hnil, (slot_absent m c H Hc). simpl.
  rewrite lookup_insert_eq. simpl. unfold remount_locked. simpl.
  by rewrite (proj2 (registry_state_None (cm_registry m) c) Hc).
Qed.

Lemma remount_ok c specs now m :
  inv m → Forall (fun s => spec_owner s = c) specs →
  mount_ok c (list_to_set (map spec_id specs)) m (remount cfg c specs now m).
Proof.
  intros H Hsp. unfold remount. destruct (client_is_nil c) eqn:Hnil; [by apply refused|].
  apply with_slot_ok; [done|..].
  - intros Hc. pose proof (remount_absent_ok c specs now m H Hc Hsp) as Hm. unfold remount_locked. simpl.
    by rewrite (proj2 (registry_state_None (cm_registry m) c) Hc).
  - intros s0 Hc. unfold remount_locked.
    destruct (registry_state c (cm_registry m)) as [[]|] eqn:Hst; [|by apply refused..|].
    + apply registry_state_Active in Hst as (e0 & He0 & Hact).
      rewrite sessions_lookup, He0 in Hc. injection Hc as <-. by apply remount_active_ok.
    + apply registry_state_None in Hst. congruence.
Qed.
End Mount.
