(* ===== verification/ClientUnmount.v ===== *)
(** * Unmounting

    [unmount_segment], [schedule_graceful_unmount] and the maintenance step that
    completes due graceful unmounts keep the invariant of [ClientWorld]; the
    step completes everything it claims. *)
From S2P Require Import Prelude Identity ClientLifecycle ClientSessions Segment ByteAllocator SegmentPool PoolView Placement.
From S2P Require Import TenantQuota Replica ObjectTypes CatalogState CatalogWrite CatalogCollector CatalogResources.
From S2P Require Import CatalogStaged Eviction ObjectManager ManagerWorld GracefulUnmount ClientManager ClientViews ClientPool ClientWorld.
From S2P Require Import ClientMount.

Section Unmount.
Context {A Alloc : Type} `{L : UpstreamLaws A Alloc} (cfg : ClientLifecycleConfig).
Context (cid pid nodes : N) (conf : ObjectCatalogConfig) (eviction : option MemoryEvictionConfig).
Implicit Types (m : ClientManager A Alloc) (p : Pool A).

Local Abbreviation ok m := (good cid pid nodes conf eviction (cm_objects m)).
Local Abbreviation inv := (cinv cfg cid pid nodes conf eviction).
Local Abbreviation S m := (sessions (cm_registry m)).
Local Abbreviation V m := (view_of (cm_pool m)).

(** ** Finding the segment *)

Lemma catalog_segment_view m i :
  inv m →
  match V m !! i with
  | Some (a, e) => catalog_segment i (cm_pool m) = Some (mkSegmentHandle pid a) ∧
      entries (cm_pool m) !! a = Some e
  | None => catalog_segment i (cm_pool m) = None
  end.
Proof.
  intros H. destruct (ci_objects _ _ _ _ _ _ _ H) as [_ Hid]. unfold catalog_segment. rewrite Hid.
  destruct (V m !! i) as [[a e]|] eqn:Hi.
  - apply lookup_view in Hi as [-> ->]. done.
  - apply (lookup_view_None _ (outstanding (cm_objects m))) in Hi as ->; [done|].
    exact (good_inv _ _ _ _ _ _ _ (ci_objects _ _ _ _ _ _ _ H)).
Qed.

(** What the checks before an unmount find. *)
Lemma owned_segment_ok c i a e m :
  inv m → V m !! i = Some (a, e) →
  match owned_segment c i (mkSegmentHandle pid a) m with
  | (Ok (e', s, ms), m') => m' = m ∧ e' = e ∧ spec_owner (spec e) = c ∧ S m !! c = Some s ∧
      ms = mkMount (Some s) (owned_by c (V m)) ∧ slot_holds ms s i = true
  | (Err err, m') => m' = m ∧ internal err = false
  | (Panic, _) => False
  end.
Proof.
  intros H Hi. unfold owned_segment, bind at 1, segment_entry. simpl.
  rewrite (view_entry _ _ _ _ Hi). case_bool_decide as Ho; [|done]. simpl.
  unfold bind at 1, map_error. destruct (active_session c (cm_registry m)) as [s|err|] eqn:Hs; [|done|].
  2: { by destruct (active_session_total (cm_registry m) c). }
  apply active_session_ok in Hs.
  pose proof (slot_present cfg cid pid nodes conf eviction m c s H Hs) as Hsl.
  unfold bind, read, existing_slot, of_option. rewrite Hsl. unfold ret, slot_holds. cbn [ms_session ms_segments].
  split_and!; [done..|]. rewrite !bool_decide_true; [done|apply elem_of_owned; eauto|done].
Qed.

(** A segment of an active client leaves. *)
Lemma unmount_inv m c s i a e p sl q :
  inv m → S m !! c = Some s → V m !! i = Some (a, e) → spec_owner (spec e) = c →
  ok m p → view_of p = delete i (V m) →
  sl = <[c := mkMount (Some s) (owned_by c (V m) ∖ {[i]})]> (cm_slots m) →
  q_pending q = delete (mkKey s i) (q_pending (graceful_unmounts m)) →
  queue_ok q → inv (with_queue q (with_slots sl (set_pool p m))).
Proof.
  intros H Hc Hi Ho Hg HV -> Hq Hqok. split; [apply H|done| |done| |apply H].
  - simpl. unfold cm_pool. simpl. rewrite HV, Hq. by apply (consistent_unmount pid _ _ _ _ c s i a e); [apply H|..].
  - intros k pu. simpl. rewrite Hq. intros [_ Hk]%lookup_delete_Some. by apply (ci_idle _ _ _ _ _ _ _ H k).
Qed.

Lemma unmount_segment_ok c i m :
  inv m →
  match unmount_segment c i m with
  | (Ok Unmounted, m') => inv m' ∧ V m' = delete i (V m) ∧ S m' = S m ∧
      ∃ s, S m !! c = Some s ∧ q_pending (graceful_unmounts m') =
        delete (mkKey s i) (q_pending (graceful_unmounts m))
  | (Ok AlreadyAbsent, m') => m' = m ∧ V m !! i = None
  | (Err e, m') => m' = m ∧ internal e = false
  | (Panic, _) => False
  end.
Proof.
  intros H. unfold unmount_segment. destruct (client_is_nil c); [done|]. destruct (segment_is_nil i); [done|].
  unfold bind at 1, read. pose proof (catalog_segment_view m i H) as Hf.
  destruct (V m !! i) as [[a e]|] eqn:Hi; [|by rewrite Hf]. destruct Hf as [-> _]. unfold bind at 1.
  pose proof (owned_segment_ok c i a e m H Hi) as Hos.
  destruct (owned_segment c i _ m) as [[[[e' s] ms]|err|] m0]; [|done|done].
  destruct Hos as (-> & -> & Ho & Hc & -> & Hh). rewrite Hh. cbn [negb].
  destruct (good_unmount cid pid nodes conf eviction (cm_objects m) c i (cm_pool m) a e)
    as (p1 & p2 & Hp1 & Hp2 & Hg2 & HV2); [apply H|done..|].
  unfold bind, map_error. rewrite (pool_call_start _ _ _ _ Hp1), (pool_call_eq _ _ _ _ _ Hp2).
  unfold update, ret. split_and!; [|done|done|by exists s].
  apply (unmount_inv m c s i a e p2); try done. apply queue_cancel_ok, H.
Qed.

(** ** Scheduling *)

Lemma incarnation_matches_refl h : incarnation_matches h h = true.
Proof. unfold incarnation_matches. by rewrite !N.eqb_refl. Qed.

Lemma queue_schedule_deadline k h d q pu :
  queue_idle q → q_pending q !! k = Some pu → pu_incarnation pu = h →
  ∃ pu', q_pending (queue_schedule k h d q) = <[k := pu']> (q_pending q) ∧
    pu_incarnation pu' = h ∧ pu_claimed pu' = false ∧ pu_deadline pu' = N.min (pu_deadline pu) d.
Proof.
  intros Hi Hk Hh. unfold queue_schedule. rewrite Hk, Hh, incarnation_matches_refl, (Hi k pu Hk). simpl.
  destruct (N.leb_spec (pu_deadline pu) d).
  - exists pu. rewrite insert_id by done. split_and!; [done|done|by eapply Hi|lia].
  - eexists. split; [done|]. simpl. split_and!; [done|done|lia].
Qed.

(** A segment is quiesced and its unmount recorded. *)
Lemma schedule_inv m c s i a e p q pu :
  inv m → S m !! c = Some s → V m !! i = Some (a, e) → spec_owner (spec e) = c →
  ok m p → view_of p = <[i := (a, entry_quiesce e)]> (V m) →
  q_pending q = <[mkKey s i := pu]> (q_pending (graceful_unmounts m)) →
  pu_incarnation pu = mkSegmentHandle pid a → pu_claimed pu = false → queue_ok q →
  inv (with_queue q (set_pool p m)).
Proof.
  intros H Hc Hi Ho Hg HV Hq Hpu Hcl Hqok. split; [apply H|done| |done| |apply H].
  - simpl. unfold cm_pool. simpl. rewrite HV, Hq. apply (consistent_schedule pid _ _ _ _ c); try done; [apply H|].
    by apply (view_id (cm_pool m) (outstanding (cm_objects m)) i a e);
      [exact (good_inv _ _ _ _ _ _ _ (ci_objects _ _ _ _ _ _ _ H))|].
  - intros k pu'. simpl. rewrite Hq, lookup_insert. case_decide; [by intros [= <-]|].
    apply (ci_idle _ _ _ _ _ _ _ H k).
Qed.

(** The deadline a new request gives a pending unmount. *)
Definition sooner (old : option PendingGracefulUnmount) (d : N) : N :=
  match old with Some pu => N.min (pu_deadline pu) d | None => d end.

Lemma schedule_ok c i d m :
  inv m →
  match schedule_graceful_unmount c i d m with
  | (Ok _, m') => inv m' ∧ S m' = S m ∧
      ∃ s a e pu, S m !! c = Some s ∧ V m !! i = Some (a, e) ∧ spec_owner (spec e) = c ∧
        V m' = <[i := (a, entry_quiesce e)]> (V m) ∧
        q_pending (graceful_unmounts m') = <[mkKey s i := pu]> (q_pending (graceful_unmounts m)) ∧
        pu_deadline pu = sooner (q_pending (graceful_unmounts m) !! mkKey s i) d
  | (Err e, m') => m' = m ∧ internal e = false
  | (Panic, _) => False
  end.
Proof.
  intros H. unfold schedule_graceful_unmount. destruct (client_is_nil c); [done|].
  destruct (segment_is_nil i); [done|]. unfold bind at 1, read. pose proof (catalog_segment_view m i H) as Hf.
  destruct (V m !! i) as [[a e]|] eqn:Hi; [|by rewrite Hf]. destruct Hf as [-> _].
  unfold bind at 1, of_option, ret at 1. unfold bind at 1. pose proof (owned_segment_ok c i a e m H Hi) as Hos.
  destruct (owned_segment c i _ m) as [[[[e' s] ms]|err|] m0]; [|done|done].
  destruct Hos as (-> & -> & Ho & Hc & -> & Hh). rewrite Hh. cbn [negb]. unfold bind at 1.
  pose proof (ci_consistent _ _ _ _ _ _ _ H) as Hcn.
  assert (spec_owner (spec e) = c → S m !! spec_owner (spec e) = Some s) as HcO by (by intros ->).
  destruct (state e) eqn:Hst.
  - destruct (good_quiesce_owned cid pid nodes conf eviction (cm_objects m) c i (cm_pool m) a e)
      as (p1 & Hp1 & Hg1 & HV1); [apply H|done..|].
    unfold bind, map_error. rewrite (pool_call_start _ _ _ _ Hp1). unfold update, queue_update.
    assert (q_pending (graceful_unmounts m) !! mkKey s i = None) as Hnone.
    { destruct (q_pending _ !! _) as [pu|] eqn:Hk; [|done].
      destruct (cn_pending _ _ _ _ _ Hcn _ _ Hk) as (_ & b & f & Hf & _ & Hq & _).
      simpl in Hf. rewrite Hi in Hf. injection Hf as <- <-. congruence. }
    unfold queue_schedule at 1. cbn [graceful_unmounts set_pool with_objects]. rewrite Hnone. split_and!; [|done|].
    + eapply (schedule_inv m c s i a e p1); [done..|]. apply queue_insert_ok, H.
    + eexists s, a, e, _. split_and!; [done..|by unfold queue_schedule; rewrite Hnone|]. by rewrite Hnone.
  - destruct (cn_quiesced _ _ _ _ _ Hcn i a e s Hi) as [pu Hk]; [congruence|by apply HcO|].
    destruct (cn_pending _ _ _ _ _ Hcn _ _ Hk) as (_ & b & f & Hf & _ & _ & Hinc).
    simpl in Hf. rewrite Hi in Hf. injection Hf as <- <-.
    unfold queue_contains. rewrite Hk, Hinc, incarnation_matches_refl. unfold bind, ret, update, queue_update.
    destruct (queue_schedule_deadline (mkKey s i) (mkSegmentHandle pid a) d (graceful_unmounts m) pu)
      as (pu' & Hq & Hinc' & Hcl & Hd); [apply H|done..|].
    assert (V m = <[i := (a, entry_quiesce e)]> (V m)) as HV.
    { symmetry. apply insert_id. rewrite Hi. by destruct e as [sp st lv]; simpl in *; subst st. }
    split_and!; [|done|exists s, a, e, pu'; split_and!; try done; by rewrite Hk].
    rewrite <- (set_pool_same m) at 2. eapply (schedule_inv m c s i a e); try done; [apply H|].
    apply queue_schedule_ok, H.
  - destruct (view_id (cm_pool m) (outstanding (cm_objects m)) i a e) as [_ Hr]; [|done|done].
    exact (good_inv _ _ _ _ _ _ _ (ci_objects _ _ _ _ _ _ _ H)).
Qed.

(** ** Due unmounts *)

(** The manager while [jobs] are claimed: the invariant, but for their mark. *)
Record working (jobs : list GracefulUnmountJob) m : Prop := {
  wk_registry : registry_inv cfg (cm_registry m) [];
  wk_objects : ok m (cm_pool m);
  wk_consistent : consistent (S m) (V m) pid (cm_slots m) (q_pending (graceful_unmounts m));
  wk_queue : queue_ok (graceful_unmounts m);
  wk_staged o : staged_by (om_catalog (cm_objects m)) o → session_generation o ≠ 0 →
    S m !! wo_client o = Some (owner_session o);
  wk_jobs : Forall (fun j => ∃ pu, q_pending (graceful_unmounts m) !! job_key j = Some pu ∧
    pu_revision pu = job_revision j ∧ pu_incarnation pu = job_incarnation j) jobs;
  wk_nodup : NoDup (job_key <$> jobs);
  wk_idle k pu : q_pending (graceful_unmounts m) !! k = Some pu → k ∉ (job_key <$> jobs) →
    pu_claimed pu = false
}.

Lemma working_done m : working [] m → inv m.
Proof. intros []. split; try done. intros k pu Hk. eapply wk_idle0; [done|]. simpl. set_solver. Qed.

(** One claimed job is completed. *)
Lemma complete_ok j jobs m :
  working (j :: jobs) m →
  ∃ p, complete_graceful_unmount j m = (Ok true, set_slot (session_client (key_session (job_key j)))
      (mkMount (Some (key_session (job_key j)))
        (owned_by (session_client (key_session (job_key j))) (V m) ∖ {[key_segment (job_key j)]}))
      (set_pool p m)) ∧
    ok m p ∧ view_of p = delete (key_segment (job_key j)) (V m).
Proof.
  intros H. pose proof (wk_consistent _ _ H) as Hcn.
  destruct (proj1 (Forall_cons _ _ _) (wk_jobs _ _ H)) as [(pu & Hk & _ & Hinc) _].
  destruct (cn_pending _ _ _ _ _ Hcn _ _ Hk) as (Hc & a & e & Hi & Ho & Hst & Hpu).
  unfold complete_graceful_unmount, bind at 1, read, existing_slot.
  rewrite (cn_slots _ _ _ _ _ Hcn), Hc. cbn [fmap option_fmap option_map]. unfold slot_holds. cbn [ms_session ms_segments].
  rewrite !bool_decide_true; [|apply elem_of_owned; eauto|done]. cbn [andb negb]. unfold bind at 1, catalog_segment.
  apply lookup_view in Hi as Hm. destruct Hm as [Hseg Hen]. rewrite Hseg. cbn [fmap option_fmap option_map].
  destruct (wk_objects _ _ H) as [_ Hid]. rewrite Hid, <- Hinc, Hpu, incarnation_matches_refl. cbn [negb].
  unfold bind at 1, segment_entry. cbn [handle_entry]. rewrite Hen, Hst.
  destruct (good_remove_owned cid pid nodes conf eviction (cm_objects m) _ _ (cm_pool m) a e
    (wk_objects _ _ H) Hi Ho Hst) as (p & Hp & Hg & HV).
  exists p. split_and!; [|done..]. unfold bind, update, ret. by rewrite (pool_call_start _ _ _ _ Hp).
Qed.

Lemma working_next j jobs m p :
  working (j :: jobs) m → ok m p → view_of p = delete (key_segment (job_key j)) (V m) →
  let c := session_client (key_session (job_key j)) in
  let m' := queue_update (queue_finish j)
    (set_slot c (mkMount (Some (key_session (job_key j)))
       (owned_by c (V m) ∖ {[key_segment (job_key j)]})) (set_pool p m)) in
  working jobs m' ∧
  q_pending (graceful_unmounts m') = delete (job_key j) (q_pending (graceful_unmounts m)).
Proof.
  intros H Hg HV c m'. pose proof (wk_consistent _ _ H) as Hcn.
  destruct (proj1 (Forall_cons _ _ _) (wk_jobs _ _ H)) as [(pu & Hk & Hrev & _) Hjobs].
  destruct (proj1 (NoDup_cons _ _) (wk_nodup _ _ H)) as [Hj Hnd].
  destruct (cn_pending _ _ _ _ _ Hcn _ _ Hk) as (Hc & a & e & Hi & Ho & _).
  assert (q_pending (graceful_unmounts m') = delete (job_key j) (q_pending (graceful_unmounts m))) as Hq.
  { simpl. unfold queue_finish, job_current. by rewrite Hk, Hrev, N.eqb_refl. }
  split; [|done]. split; [apply H|done| |apply queue_finish_ok, H|apply H| |done|].
  - rewrite Hq. change (V m') with (view_of p). rewrite HV.
    pose proof (consistent_unmount pid _ _ _ _ c _ _ a e Hcn Hc Hi Ho) as Hu.
    by destruct (job_key j) as [ks ki].
  - rewrite Forall_forall in Hjobs |- *. rewrite Hq. intros j' Hj'.
    destruct (Hjobs j' Hj') as (pu' & Hk' & Hr'). exists pu'. split; [|done]. apply lookup_delete_Some. split; [|done].
    intros Heq. apply Hj. rewrite Heq. by apply list_elem_of_fmap_2.
  - intros k pu'. rewrite Hq. intros [Hne Hk']%lookup_delete_Some Hnin.
    eapply (wk_idle _ _ H); [done|]. simpl. set_solver.
Qed.

Definition job_segments (jobs : list GracefulUnmountJob) : list SegmentId :=
  (fun j => key_segment (job_key j)) <$> jobs.

Definition unmounts_without (jobs : list GracefulUnmountJob) (Q : Unmounts) : Unmounts :=
  filter (fun kp => kp.1 ∉ (job_key <$> jobs)) Q.

Lemma unmounts_without_cons j jobs Q :
  unmounts_without jobs (delete (job_key j) Q) = unmounts_without (j :: jobs) Q.
Proof.
  apply map_eq. intros k. apply option_eq. intros pu. unfold unmounts_without.
  rewrite !map_lookup_filter_Some, lookup_delete_Some. simpl. set_solver.
Qed.

Lemma complete_each_ok now jobs : ∀ rep m,
  working jobs m →
  ∃ m', complete_each now jobs rep m =
      (Ok (mkUnmountReport (gr_completed rep + N.of_nat (length jobs)) (stale_or_cancelled rep)
             (gr_retried rep)), m') ∧
    inv m' ∧ S m' = S m ∧ V m' = view_without (job_segments jobs) (V m) ∧
    q_pending (graceful_unmounts m') = unmounts_without jobs (q_pending (graceful_unmounts m)) ∧
    om_catalog (cm_objects m') = om_catalog (cm_objects m).
Proof.
  induction jobs as [|j jobs IH]; intros rep m H; simpl.
  { exists m. split_and!; [by destruct rep; simpl; rewrite N.add_0_r|by apply working_done|done| | |done].
    - by rewrite view_without_nil.
    - symmetry. apply map_filter_id. simpl. set_solver. }
  destruct (complete_ok j jobs m H) as (p & -> & Hg & HV).
  destruct (working_next j jobs m p H Hg HV) as [Hw Hq].
  set (m1 := queue_update _ _) in *.
  destruct (IH (mkUnmountReport (gr_completed rep + 1) (stale_or_cancelled rep) (gr_retried rep)) m1 Hw)
    as (m' & -> & Hi & HS & HV' & Hq' & Hcat).
  exists m'. split_and!; [|done..| | |done].
  - simpl. do 3 f_equal. lia.
  - rewrite HV'. change (V m1) with (view_of p). rewrite HV. apply view_without_cons.
  - by rewrite Hq', Hq, unmounts_without_cons.
Qed.

(** The step: every job it claims is completed, and it claims every due one as
    far as the budget reaches. *)
Lemma graceful_ok now m :
  inv m →
  ∃ jobs m', run_graceful_unmount_step cfg now m =
      (Ok (mkUnmountReport (N.of_nat (length jobs)) (cancelled_since_report (graceful_unmounts m)) 0), m') ∧
    inv m' ∧ S m' = S m ∧ V m' = view_without (job_segments jobs) (V m) ∧
    q_pending (graceful_unmounts m') = unmounts_without jobs (q_pending (graceful_unmounts m)) ∧
    Forall (due now (q_pending (graceful_unmounts m))) jobs ∧
    NoDup (job_key <$> jobs) ∧ (length jobs <= cleanup_scan_budget cfg)%nat ∧
    (length jobs = cleanup_scan_budget cfg ∨ none_due now (q_pending (graceful_unmounts m'))) ∧
    om_catalog (cm_objects m') = om_catalog (cm_objects m).
Proof.
  intros H. unfold run_graceful_unmount_step.
  destruct (claim_due now (cleanup_scan_budget cfg) (graceful_unmounts m)) as [jobs q1] eqn:Hcd.
  pose proof Hcd as (Hq1 & Hcl & Hnd & Hdue & Hlen & Hend)%claim_due_ok; [|apply H]. simpl.
  set (m1 := with_queue _ m).
  assert (∀ k pu, q_pending q1 !! k = Some pu → k ∉ (job_key <$> jobs) →
    q_pending (graceful_unmounts m) !! k = Some pu) as Hkeep.
  { intros k pu. rewrite (Hcl k). intros Hk Hn. by rewrite bool_decide_false in Hk. }
  assert (unmounts_without jobs (q_pending q1) = unmounts_without jobs (q_pending (graceful_unmounts m))) as Hwo.
  { apply map_eq. intros k. apply option_eq. intros pu. unfold unmounts_without.
    rewrite !map_lookup_filter_Some, (Hcl k). simpl. case_bool_decide; naive_solver. }
  destruct (complete_each_ok now jobs
    (mkUnmountReport 0 (cancelled_since_report (graceful_unmounts m)) 0) m1) as (m' & He & Hi & HS & HV & Hq & Hcat).
  { split; [apply H|apply H| | |apply H| |done|].
    - simpl. pose proof (ci_consistent _ _ _ _ _ _ _ H) as Hcn. split; try apply Hcn.
      + intros k pu Hk. simpl in Hk. rewrite (Hcl k) in Hk. case_bool_decide; [|by apply (cn_pending _ _ _ _ _ Hcn)].
        apply fmap_Some in Hk as (pu0 & Hk & ->). by apply (cn_pending _ _ _ _ _ Hcn _ _ Hk).
      + intros i a e s Hi Hst Hs. destruct (cn_quiesced _ _ _ _ _ Hcn i a e s Hi Hst Hs) as [pu Hk].
        simpl. rewrite (Hcl (mkKey s i)), Hk. case_bool_decide; simpl; eauto.
    - destruct Hq1 as [Hs Hr]. by split.
    - rewrite Forall_forall in Hdue |- *. intros j Hj. destruct (Hdue j Hj) as (pu & Hk & _ & _ & Hinc & Hrev).
      exists (set_claimed pu). simpl. rewrite (Hcl (job_key j)), Hk, bool_decide_true by (by apply list_elem_of_fmap_2).
      done.
    - intros k pu Hk Hn. simpl in Hk. by apply (ci_idle _ _ _ _ _ _ _ H k), Hkeep. }
  exists jobs, m'. assert (cancelled_since_report q1 = cancelled_since_report (graceful_unmounts m)) as ->.
  { unfold claim_due in Hcd. destruct (claim_loop _ _ _ _ _) as [[? ?] ?]. by injection Hcd as _ <-. }
  split_and!; try done; [by rewrite Hq|]. destruct Hend as [|Hn]; [by left|right].
  intros k pu. rewrite Hq. intros [Hk _]%map_lookup_filter_Some. by apply (Hn k pu).
Qed.
End Unmount.
