(* ===== verification/ClientCleanup.v ===== *)
(** * Cleaning up after ended sessions

    [drain_sessions] and [run_cleanup_step] keep the invariant of [ClientWorld];
    a batch that is claimed is completed: the clients are gone with their slots,
    their segments, their pending unmounts and their staged writes. *)
From stdpp Require Import relations.
From S2P Require Import Prelude Identity ClientLifecycle ClientSessions Segment ByteAllocator SegmentPool PoolView Placement.
From S2P Require Import TenantQuota Replica ObjectTypes CatalogState CatalogWrite CatalogCollector CatalogInv CatalogOps CatalogSlots.
From S2P Require Import CatalogWorld CatalogStaged CatalogResources Eviction ObjectManager ManagerWorld GracefulUnmount.
From S2P Require Import ClientManager ClientViews ClientPool ClientWorld.

(** ** Claims in the registry *)

Section Claims.
Context (cfg : ClientLifecycleConfig).
Implicit Types (st : RegistryState) (h : list ClientCleanup).

Lemma filter_claim claim h :
  NoDup (cleanup_session <$> claim :: h) → filter (fun k => k ≠ claim) (claim :: h) = h.
Proof.
  intros [Hn _]%NoDup_cons. rewrite filter_cons_False by naive_solver.
  induction h as [|k h IH]; [done|]. rewrite filter_cons_True.
  - f_equal. apply IH. set_solver.
  - intros ->. apply Hn. simpl. set_solver.
Qed.

Lemma drop_claims_inv h : ∀ st,
  registry_inv cfg st h →
  registry_inv cfg (foldl (fun st c => ClientCleanup_drop c st) st h) [] ∧
  sessions (foldl (fun st c => ClientCleanup_drop c st) st h) = sessions st.
Proof.
  induction h as [|k h IH]; intros st Hi; simpl; [done|].
  pose proof (inv_drop cfg st (k :: h) k Hi ltac:(set_solver)) as Hd.
  rewrite filter_claim in Hd by apply Hi. destruct (IH _ Hd) as [H1 H2]. split; [done|].
  by rewrite H2, drop_sessions.
Qed.

(** The clients of the held claims. *)
Definition claim_client (k : ClientCleanup) : ClientId := session_client (cleanup_session k).

Lemma held_session st h k :
  registry_inv cfg st h → k ∈ h → sessions st !! claim_client k = Some (cleanup_session k).
Proof.
  intros Hi Hk. destruct (held_running cfg st h k Hi Hk) as (e & He & Hs & _).
  rewrite sessions_lookup. unfold claim_client. by rewrite He, <- Hs.
Qed.

Lemma held_clients_nodup st h : registry_inv cfg st h → NoDup (claim_client <$> h).
Proof.
  intros Hi. pose proof (inv_held_nodup _ _ _ Hi) as Hnd.
  assert (∀ k, k ∈ h → sessions st !! claim_client k = Some (cleanup_session k)) as Hs
    by (intros k; by apply held_session). clear Hi.
  induction h as [|k h IH]; simpl; [constructor|]. apply NoDup_cons in Hnd as [Hn Hnd].
  apply NoDup_cons. split; [|apply IH; [done|]; intros k' Hk'; apply Hs; set_solver].
  intros (k' & Heq & Hk')%list_elem_of_fmap. apply Hn. apply list_elem_of_fmap. exists k'. split; [|done].
  pose proof (Hs k ltac:(set_solver)) as H1. pose proof (Hs k' ltac:(set_solver)) as H2.
  rewrite Heq in H1. congruence.
Qed.

Lemma finish_claim st k h :
  registry_inv cfg st (k :: h) →
  ∃ st', ClientCleanup_finish k st = (Ok tt, st') ∧ registry_inv cfg st' h ∧
    sessions st' = delete (claim_client k) (sessions st).
Proof.
  intros Hi. pose proof (inv_finish cfg st (k :: h) k Hi ltac:(set_solver)) as Hf.
  rewrite filter_claim in Hf by apply Hi.
  rewrite (finish_cleanup_held cfg st (k :: h) k Hi ltac:(set_solver)) in Hf |- *.
  eexists. split_and!; [done|done|]. unfold sessions. simpl. by rewrite fmap_delete.
Qed.
End Claims.

Section Cleanup.
Context {A Alloc : Type} `{L : UpstreamLaws A Alloc} (cfg : ClientLifecycleConfig).
Context (cid pid nodes : N) (conf : ObjectCatalogConfig) (eviction : option MemoryEvictionConfig).
Implicit Types (m : ClientManager A Alloc) (p : Pool A).

Local Abbreviation ok m := (good cid pid nodes conf eviction (cm_objects m)).
Local Abbreviation inv := (cinv cfg cid pid nodes conf eviction).
Local Abbreviation S m := (sessions (cm_registry m)).
Local Abbreviation V m := (view_of (cm_pool m)).

(** ** The loops *)

Lemma begin_each_ok reason l : ∀ cl m,
  registry_inv cfg (cm_registry m) cl →
  match begin_each l reason cl m with
  | (Ok cl', m') => ∃ st', m' = with_registry st' m ∧ registry_inv cfg st' cl' ∧ sessions st' = S m
  | (Err e, m') => ∃ st', m' = with_registry st' m ∧ registry_inv cfg st' [] ∧ sessions st' = S m ∧
      internal e = false
  | (Panic, _) => False
  end.
Proof.
  induction l as [|s l IH]; intros cl m Hi; simpl.
  { exists (cm_registry m). by destruct m. }
  unfold handle, registry_call. pose proof (inv_begin_drain cfg (cm_registry m) cl s reason Hi) as Hd.
  pose proof (begin_drain_sessions (cm_registry m) s reason) as HS.
  pose proof (begin_drain_total (cm_registry m) s reason) as Ht.
  destruct (begin_drain s reason (cm_registry m)) as [[o|e|] st1]; simpl in *; [| |done].
  - assert (registry_inv cfg st1 (cl ++ option_list o)) as Hd' by (by destruct o).
    specialize (IH (cl ++ option_list o) (with_registry st1 m) Hd').
    destruct (begin_each _ _ _ _) as [[cl'|e|] m']; simpl in IH; [| |done].
    + destruct IH as (st' & -> & ? & ?). exists st'. split_and!; [done|done|by etrans; [eassumption|exact HS]].
    + destruct IH as (st' & -> & ? & ? & ?). exists st'. split_and!; [done|done|by etrans; [eassumption|exact HS]|done].
  - rewrite app_nil_r in Hd. destruct (drop_claims_inv cfg cl st1 Hd) as [H1 H2].
    unfold bind, update, throw. eexists. split_and!; [done|exact H1|by etrans; [exact H2|exact HS]|done].
Qed.

(** Clearing the slots of the claimed sessions. *)
Definition clear_slots (cl : list ClientCleanup) (sl : Slots) : Slots :=
  foldl (fun sl k => <[claim_client k := mount_default]> sl) sl cl.
Definition cancel_all (cl : list ClientCleanup) (q : GracefulUnmountQueue) : GracefulUnmountQueue :=
  foldl (fun q k => queue_cancel_session (cleanup_session k) q) q cl.

Lemma detach_each_ok cl : ∀ ready m,
  NoDup (claim_client <$> cl) →
  (∀ k, k ∈ cl → ∃ ids, cm_slots m !! claim_client k = Some (mkMount (Some (cleanup_session k)) ids)) →
  detach_each cl ready m =
    (Ok tt, with_queue (cancel_all cl (graceful_unmounts m)) (with_slots (clear_slots cl (cm_slots m)) m)).
Proof.
  induction cl as [|k cl IH]; intros ready m Hnd Hsl; simpl; [by destruct m|].
  apply NoDup_cons in Hnd as [Hn Hnd]. destruct (Hsl k) as [ids Hk]; [set_solver|].
  unfold bind, update, read, existing_slot. simpl. fold (claim_client k). rewrite Hk. cbn [ms_session].
  rewrite bool_decide_true by done. rewrite IH; [done|done|].
  intros k' Hk'. simpl. rewrite lookup_insert_ne; [apply Hsl; set_solver|].
  intros Heq. apply Hn. rewrite Heq. by apply list_elem_of_fmap_2.
Qed.

Lemma clear_slots_lookup cl : ∀ sl c,
  clear_slots cl sl !! c = if bool_decide (c ∈ (claim_client <$> cl)) then Some mount_default else sl !! c.
Proof.
  induction cl as [|k cl IH]; intros sl c; [by rewrite bool_decide_false by (simpl; set_solver)|].
  unfold clear_slots. cbn [foldl]. fold (clear_slots cl (<[claim_client k := mount_default]> sl)). rewrite IH, lookup_insert. simpl.
  destruct (decide (claim_client k = c)) as [<-|Hne].
  - rewrite (bool_decide_true (_ ∈ _ :: _)) by set_solver. by case_bool_decide.
  - by rewrite (bool_decide_ext (c ∈ (claim_client <$> cl)) (c ∈ claim_client k :: (claim_client <$> cl)))
      by set_solver.
Qed.

Lemma cancel_all_ok cl : ∀ q,
  queue_ok q → queue_ok (cancel_all cl q) ∧
  q_pending (cancel_all cl q) =
    filter (fun kp => key_session kp.1 ∉ (cleanup_session <$> cl)) (q_pending q).
Proof.
  induction cl as [|k cl IH]; intros q Hq; simpl.
  { split; [done|]. symmetry. apply map_filter_id. simpl. set_solver. }
  destruct (IH _ (queue_cancel_session_ok (cleanup_session k) q Hq)) as [H1 H2].
  split; [done|]. unfold cancel_all in *. simpl. rewrite H2. simpl.
  apply map_eq. intros x. apply option_eq. intros pu.
  rewrite !map_lookup_filter_Some. simpl. set_solver.
Qed.

(** Pruning the cleared slots. *)
Lemma prune_all cl : ∀ m,
  NoDup (claim_client <$> cl) → (∀ k, k ∈ cl → cm_slots m !! claim_client k = Some mount_default) →
  foldl (fun m k => prune_unused_slot (claim_client k) m) m cl =
    with_slots (filter (fun kx => kx.1 ∉ (claim_client <$> cl)) (cm_slots m)) m.
Proof.
  induction cl as [|k cl IH]; intros m Hnd Hsl; simpl.
  { destruct m as [r o sl q]. unfold with_slots. simpl. f_equal. symmetry. apply map_filter_id. simpl. set_solver. }
  apply NoDup_cons in Hnd as [Hn Hnd]. unfold prune_unused_slot at 2. rewrite Hsl by set_solver. simpl.
  rewrite IH; [|done|].
  - unfold with_slots. simpl. f_equal. apply map_eq. intros c. apply option_eq. intros x.
    rewrite !map_lookup_filter_Some, lookup_delete_Some. simpl. set_solver.
  - intros k' Hk'. simpl. rewrite lookup_delete_ne; [apply Hsl; set_solver|].
    intros Heq. apply Hn. rewrite Heq. by apply list_elem_of_fmap_2.
Qed.

Lemma finish_each_ok cl : ∀ n m,
  registry_inv cfg (cm_registry m) cl →
  ∃ st', finish_each cl n m = (Ok (n + N.of_nat (length cl)), with_registry st' m) ∧
    registry_inv cfg st' [] ∧
    sessions st' = filter (fun kx => kx.1 ∉ (claim_client <$> cl)) (S m).
Proof.
  induction cl as [|k cl IH]; intros n m Hi; simpl.
  { exists (cm_registry m). split_and!; [by destruct m; rewrite N.add_0_r|done|].
    symmetry. apply map_filter_id. simpl. set_solver. }
  destruct (finish_claim cfg _ _ _ Hi) as (st1 & Hf & Hi1 & HS1).
  unfold handle, registry_call. rewrite Hf.
  destruct (IH (n + 1) (with_registry st1 m) Hi1) as (st' & -> & Hi' & HS'). exists st'.
  split_and!; [|done|].
  - f_equal. f_equal. lia.
  - rewrite HS'. simpl. rewrite HS1. apply map_eq. intros c. apply option_eq. intros x.
    rewrite !map_lookup_filter_Some, lookup_delete_Some. simpl. set_solver.
Qed.

(** ** The batch *)

Lemma with_pool_same (o : ObjectManager A Alloc) : with_pool (om_pool o) o = o.
Proof. by destruct o. Qed.

Lemma revoke_good (o : ObjectManager A Alloc) owners now :
  good cid pid nodes conf eviction o (om_pool o) →
  good cid pid nodes conf eviction (revoke_sessions owners now o).2 (om_pool o).
Proof.
  intros [Hr Hid]. split; [|done]. rewrite with_pool_same in Hr.
  pose proof (mreach_step cid pid nodes conf eviction (MRevokeSessions owners now) o _ Hr I eq_refl) as Hs.
  simpl in Hs. unfold revoke_sessions in *. by destruct (revoke_pending_owners _ _ _ _).
Qed.

Lemma good_catalog (o : ObjectManager A Alloc) p :
  good cid pid nodes conf eviction o p → CatalogOps.inv (om_catalog o).
Proof.
  intros [Hr _]. apply manager_reachable_inv in Hr. exact (minv_inv _ _ _ Hr).
Qed.

Lemma revoke_sessions_slots (o : ObjectManager A Alloc) p owners now :
  good cid pid nodes conf eviction o p →
  slots (om_catalog (revoke_sessions owners now o).2) =
    revoked_slot (among (filter (fun w => session_generation w ≠ 0) owners)) <$> slots (om_catalog o).
Proof.
  intros Hg. pose proof (revoke_slots (live_in (om_pool o)) owners now (om_catalog o) (good_catalog o p Hg)) as Hs.
  unfold revoke_sessions. by destruct (revoke_pending_owners _ _ _ _).
Qed.

(** The writes of the sessions of clients. *)
Definition of_clients (cs : list ClientId) (w : WriteOwner) : bool :=
  bool_decide (session_generation w ≠ 0 ∧ wo_client w ∈ cs).

(** A client has staged writes of its session only, so that revoking the claimed
    sessions is revoking their clients. *)
Lemma revoked_clients cl st m :
  inv m → registry_inv cfg st cl → sessions st = S m →
  revoked_slot (among (filter (fun w => session_generation w ≠ 0) (map (fun k => for_session (cleanup_session k)) cl))) <$>
    slots (om_catalog (cm_objects m)) =
  revoked_slot (of_clients (claim_client <$> cl)) <$> slots (om_catalog (cm_objects m)).
Proof.
  intros H Hi HS. apply map_fmap_ext. intros a s Hs. unfold revoked_slot.
  destruct (active s) as [t|] eqn:Ha; [|done]. destruct (at_phase t) as [|p] eqn:Hp; [done|].
  replace (of_clients (claim_client <$> cl) (at_owner t)) with
    (among (filter (fun w => session_generation w ≠ 0) (map (fun k => for_session (cleanup_session k)) cl)) (at_owner t));
    [done|].
  apply bool_decide_ext. rewrite list_elem_of_filter. split.
  - intros [H0 (k & Heq & Hk)%list_elem_of_fmap]. split; [done|]. rewrite Heq. by apply (list_elem_of_fmap_2 claim_client).
  - intros [H0 (k & Heq & Hk)%list_elem_of_fmap]. split; [done|]. apply list_elem_of_fmap. exists k. split; [|done].
    assert (staged_by (om_catalog (cm_objects m)) (at_owner t)) as Hst by (by exists a, s, t, p).
    pose proof (ci_staged _ _ _ _ _ _ _ H _ Hst H0) as Hse.
    rewrite Heq, <- HS, (held_session cfg st cl k Hi Hk) in Hse. injection Hse as Hse.
    unfold for_session. rewrite Hse. by destruct (at_owner t).
Qed.

(** The pending unmounts of the claimed sessions are those of their clients. *)
Lemma pending_of_clients cl st (S0 : Sessions) V0 sl Q :
  consistent S0 V0 pid sl Q → registry_inv cfg st cl → sessions st = S0 →
  filter (fun kp => key_session kp.1 ∉ (cleanup_session <$> cl)) Q =
  filter (fun kp => session_client (key_session kp.1) ∉ (claim_client <$> cl)) Q.
Proof.
  intros Hcn Hi HS. apply map_eq. intros k. apply option_eq. intros pu.
  rewrite !map_lookup_filter_Some. simpl. split; intros [Hk Hn]; (split; [done|]); intros Hin; apply Hn.
  - apply list_elem_of_fmap in Hin as (c & Heq & Hc).
    destruct (cn_pending _ _ _ _ _ Hcn k pu Hk) as [Hs _]. rewrite Heq, <- HS in Hs.
    rewrite (held_session cfg st cl c Hi Hc) in Hs. injection Hs as <-. by apply list_elem_of_fmap_2.
  - apply list_elem_of_fmap in Hin as (c & Heq & Hc). rewrite Heq. fold (claim_client c).
    by apply list_elem_of_fmap_2.
Qed.

(** The slots of clients, the scheduled unmounts and the slots of the catalog
    without those of the clients [cs]. *)
Definition leaves (cs : list ClientId) m m' : Prop :=
  cm_slots m' = filter (fun kx => kx.1 ∉ cs) (cm_slots m) ∧
  q_pending (graceful_unmounts m') =
    filter (fun kp => session_client (key_session kp.1) ∉ cs) (q_pending (graceful_unmounts m)) ∧
  slots (om_catalog (cm_objects m')) = revoked_slot (of_clients cs) <$> slots (om_catalog (cm_objects m)).

Lemma cleanup_batch_ok cl now m st :
  inv m → registry_inv cfg st cl → sessions st = S m →
  ∃ n m', cleanup_batch cl now (with_registry st m) =
      (Ok (mkCleanupReport (N.of_nat (length cl)) n
             (N.of_nat (size (V m)) - N.of_nat (size (view_invalidate (claim_client <$> cl) (V m))))), m') ∧
    inv m' ∧ S m' = filter (fun kx => kx.1 ∉ (claim_client <$> cl)) (S m) ∧
    V m' = view_invalidate (claim_client <$> cl) (V m) ∧ leaves (claim_client <$> cl) m m'.
Proof.
  intros H Hi HS. pose proof (ci_consistent _ _ _ _ _ _ _ H) as Hcn.
  pose proof (held_clients_nodup cfg st cl Hi) as Hnd.
  assert (∀ k, k ∈ cl → ∃ ids, cm_slots (with_registry st m) !! claim_client k =
    Some (mkMount (Some (cleanup_session k)) ids)) as Hsl.
  { intros k Hk. simpl. rewrite (cn_slots _ _ _ _ _ Hcn), <- HS, (held_session cfg st cl k Hi Hk). simpl. eauto. }
  unfold cleanup_batch, bind at 1. rewrite (detach_each_ok cl [] _ Hnd Hsl).
  set (owners := map _ cl). set (m1 := with_queue _ _). unfold bind at 1.
  destruct (cancel_all_ok cl (graceful_unmounts m) (ci_queue _ _ _ _ _ _ _ H)) as [Hqok Hq].
  pose proof (revoke_good (cm_objects m) owners now (ci_objects _ _ _ _ _ _ _ H)) as Hg1.
  pose proof (revoke_sessions_slots (cm_objects m) _ owners now (ci_objects _ _ _ _ _ _ _ H)) as Hrev.
  unfold owners in Hrev. rewrite (revoked_clients cl st m H Hi HS) in Hrev. fold owners in Hrev.
  change (cm_objects m1) with (cm_objects m).
  assert (om_pool (revoke_sessions owners now (cm_objects m)).2 = om_pool (cm_objects m)) as Hpool
    by (unfold revoke_sessions; by destruct (revoke_pending_owners _ _ _ _)).
  destruct (revoke_sessions owners now (cm_objects m)) as [n o1]. simpl in Hg1, Hrev, Hpool.
  set (cs := claim_client <$> cl) in *.
  destruct (good_invalidate cid pid nodes conf eviction o1 cs (cm_pool m) Hg1) as (k & p2 & Hp2 & Hg2 & HV2 & Hk).
  unfold bind at 1, map_error. rewrite (pool_call_start _ (with_objects o1 m1) (Ok k) p2)
    by (unfold cm_pool; simpl; by rewrite Hpool).
  unfold bind at 1, update. set (m2 := set_pool p2 (with_objects o1 m1)).
  change (foldl _ m2 cl) with (foldl (fun m k => prune_unused_slot (claim_client k) m) m2 cl).
  rewrite (prune_all cl m2); [|done|].
  2: { intros x Hx. simpl. rewrite clear_slots_lookup, bool_decide_true by (by apply list_elem_of_fmap_2). done. }
  unfold bind at 1. set (m3 := with_slots _ m2).
  destruct (finish_each_ok cl 0 m3 Hi) as (st' & -> & Hi' & HS').
  exists n, (with_registry st' m3). rewrite Hk. change (S m3) with (sessions st) in HS'. rewrite HS in HS'.
  assert (cm_slots m3 = filter (fun kx => kx.1 ∉ cs) (cm_slots m)) as Hsl3.
  { apply map_eq. intros c. apply option_eq. intros x. simpl. rewrite !map_lookup_filter_Some, clear_slots_lookup.
    simpl. fold cs. case_bool_decide; naive_solver. }
  rewrite (pending_of_clients cl st (S m) _ _ _ Hcn Hi HS) in Hq. fold cs in Hq.
  split_and!; [done| |done|exact HV2|exact (conj Hsl3 (conj Hq Hrev))].
  split; [done|done| |done| |].
  - change (consistent (sessions st') (view_of p2) pid (cm_slots m3)
      (q_pending (cancel_all cl (graceful_unmounts m)))).
    rewrite Hsl3, HS', HV2, Hq. exact (consistent_leave pid _ _ _ _ cs Hcn).
  - intros x pu. simpl. rewrite Hq. intros [Hx _]%map_lookup_filter_Some. by apply (ci_idle _ _ _ _ _ _ _ H x).
  - intros w Hw Hw0. simpl. rewrite HS'. apply (staged_revoked _ _ _ w Hrev) in Hw as [Hw' Hno%bool_decide_eq_false].
    pose proof (ci_staged _ _ _ _ _ _ _ H w Hw' Hw0) as Hs. apply map_lookup_filter_Some. split; [done|].
    simpl. intros Hc. by apply Hno.
Qed.

Lemma drain_ok l reason now m :
  inv m →
  match drain_sessions l reason now m with
  | (Ok _, m') => inv m'
  | (Err e, m') => inv m' ∧ internal e = false
  | (Panic, _) => False
  end.
Proof.
  intros H. unfold drain_sessions, bind.
  pose proof (begin_each_ok reason l [] m (ci_registry _ _ _ _ _ _ _ H)) as Hb.
  destruct (begin_each l reason [] m) as [[cl|e|] m1]; [| |done].
  - destruct Hb as (st & -> & Hi & HS).
    destruct (cleanup_batch_ok cl now m st H Hi HS) as (n & m' & -> & Hm' & _). done.
  - destruct Hb as (st & -> & Hi & HS & He). split; [|done].
    apply (quiet_inv _ _ _ _ _ _ m); [done|]. split; try done; apply H.
Qed.

(** A cleanup round ends every session it claims. *)
Lemma cleanup_step_ok client_now now m :
  inv m →
  ∃ cl n m', claim_due_cleanups cfg client_now (cleanup_scan_budget cfg) (cm_registry m) =
      (cl, (claim_due_cleanups cfg client_now (cleanup_scan_budget cfg) (cm_registry m)).2) ∧
    run_cleanup_step cfg client_now now m =
      (Ok (mkCleanupReport (N.of_nat (length cl)) n
             (N.of_nat (size (V m)) - N.of_nat (size (view_invalidate (claim_client <$> cl) (V m))))), m') ∧
    inv m' ∧ S m' = filter (fun kx => kx.1 ∉ (claim_client <$> cl)) (S m) ∧
    V m' = view_invalidate (claim_client <$> cl) (V m) ∧ leaves (claim_client <$> cl) m m'.
Proof.
  intros H. unfold run_cleanup_step, bind at 1.
  pose proof (inv_claim_due cfg (cm_registry m) [] client_now (cleanup_scan_budget cfg)
    (ci_registry _ _ _ _ _ _ _ H)) as Hi.
  pose proof (claim_due_sessions cfg client_now (cleanup_scan_budget cfg) (cm_registry m)) as HS.
  destruct (claim_due_cleanups _ _ _ _) as [cl st]. simpl in Hi, HS.
  destruct (cleanup_batch_ok cl now m st H Hi HS) as (n & m' & -> & Hm' & HS' & HV' & Hl).
  exists cl, n, m'. done.
Qed.
End Cleanup.
