(* ===== verification/ClientSteps.v ===== *)
(** * Every call of the client manager

    The remaining calls — heartbeats, the next unmount deadline, the object calls
    and the finalization of a put under its owner's admission — and with them
    every step of [ClientWorld]: it keeps the invariant, and nothing panics
    except an object call that runs out of catalog numbers. *)
From stdpp Require Import relations.
From S2P Require Import Prelude Identity ClientLifecycle ClientSessions Segment ByteAllocator SegmentPool PoolView Placement.
From S2P Require Import TenantQuota Replica ObjectTypes CatalogState CatalogWrite CatalogCollector CatalogInv CatalogOps CatalogSlots.
From S2P Require Import CatalogWorld CatalogStaged CatalogResources Eviction ObjectManager ManagerWorld GracefulUnmount.
From S2P Require Import ClientManager ClientViews ClientPool ClientWorld ClientMount ClientUnmount ClientCleanup.

Section Steps.
Context {A Alloc : Type} `{L : UpstreamLaws A Alloc} (cfg : ClientLifecycleConfig).
Context (cid pid nodes : N) (conf : ObjectCatalogConfig) (eviction : option MemoryEvictionConfig).
Implicit Types (m : ClientManager A Alloc) (o : ObjectManager A Alloc).

Local Abbreviation inv := (cinv cfg cid pid nodes conf eviction).
Local Abbreviation S m := (sessions (cm_registry m)).

(** ** Object calls *)

Lemma csteps_staged P w w' x :
  rtc (cstep P) w w' → reachable (R := Reservation Alloc) cid conf w →
  (∀ k alive b1 b2 ct rs g, ¬ P (OStage k alive b1 b2 ct rs g)) →
  staged_by (cat w') x → staged_by (cat w) x.
Proof.
  intros Hr Hw HP. induction Hr as [|w w1 w2 (op & Hop & He & Hs) _ IH]; [done|].
  intros H2. specialize (IH (reach_step _ _ _ _ _ Hw He Hs) H2).
  eapply cat_step_staged; [apply (reachable_inv _ _ _ Hw)|exact Hs| |exact IH].
  intros * ->. by eapply HP.
Qed.

Lemma frame_view (p p' : Pool A) :
  pool_frame p' = pool_frame p → view_of p' = view_of p ∧ pool_id p' = pool_id p.
Proof.
  intros Hf. split; [|exact (f_equal pool_id Hf)].
  apply view_same; [exact (f_equal segments Hf)|exact (f_equal entries Hf)].
Qed.

(** A call that leaves the segments, and what it stages belongs to sessions. *)
Lemma object_step op m o' :
  inv m → manager_env op (cm_objects m) → manager_step op (cm_objects m) = Some o' →
  (∀ pop, op ≠ MSegment pop) →
  (∀ x, staged_by (om_catalog o') x → session_generation x ≠ 0 →
     S m !! wo_client x = Some (owner_session x)) →
  inv (with_objects o' m).
Proof.
  intros H He Hs Hop Hst. destruct (ci_objects _ _ _ _ _ _ _ H) as [Hr Hid].
  unfold cm_pool in Hr. rewrite with_pool_same in Hr.
  pose proof (manager_step_ok cid conf op (cm_objects m) (manager_reachable_inv _ _ _ _ _ _ Hr) He) as Hok.
  rewrite Hs in Hok. destruct Hok as (_ & _ & Hf).
  assert (pool_frame (om_pool o') = pool_frame (om_pool (cm_objects m))) as [HV Hid']%frame_view
    by (destruct op; try exact (proj1 Hf); by destruct (Hop op)).
  split; [apply H| | |apply H|apply H|exact Hst].
  - split; [|unfold cm_pool; simpl; by rewrite Hid'].
    unfold cm_pool. rewrite with_pool_same. by eapply mreach_step.
  - pose proof (ci_consistent _ _ _ _ _ _ _ H) as Hcn. unfold cm_pool in *. simpl. by rewrite HV.
Qed.

Lemma objects_minv m : inv m → minv cid conf (cm_objects m).
Proof.
  intros H. destruct (ci_objects _ _ _ _ _ _ _ H) as [Hr _]. unfold cm_pool in Hr.
  rewrite with_pool_same in Hr. by eapply manager_reachable_inv.
Qed.

Lemma object_call_ok op m o' :
  inv m → object_call op = true → manager_step op (cm_objects m) = Some o' → inv (with_objects o' m).
Proof.
  intros H Hop Hs. assert (manager_env op (cm_objects m)) as He by (by destruct op).
  pose proof (objects_minv m H) as Hm.
  pose proof (manager_step_ok cid conf op _ Hm He) as Hok. rewrite Hs in Hok.
  destruct Hok as (_ & Hc & _).
  apply (object_step op); [done..|by intros pop ->|].
  intros x Hx. apply (ci_staged _ _ _ _ _ _ _ H).
  apply (csteps_staged _ _ _ x Hc); [apply Hm| |exact Hx].
  intros k * Hst. simpl in Hst. by destruct op.
Qed.

Lemma admitted_session m x :
  inv m → admission_is_active x m = true → session_generation x ≠ 0 →
  S m !! wo_client x = Some (owner_session x).
Proof.
  intros H Ha Hx. unfold admission_is_active in Ha. rewrite (proj2 (N.eqb_neq _ _) Hx) in Ha.
  destruct (inv_guards _ _ _ (ci_registry _ _ _ _ _ _ _ H) _ Ha) as (e & He & Hs).
  simpl in He. by rewrite sessions_lookup, He; simpl; rewrite Hs.
Qed.

(** What a put stages belongs to the session that the admission checked. *)
Lemma finalize_call_ok k b1 g m pp o' :
  inv m → manager_env (MFinalize k b1 true g) (cm_objects m) →
  om_prepared (cm_objects m) !! k = Some pp →
  manager_step (MFinalize k b1 (admission_is_active (wc_owner (pp_claim pp)) m) g) (cm_objects m) = Some o' →
  inv (with_objects o' m).
Proof.
  intros H He Hk Hs. eapply object_step; [done| |exact Hs|done|]; [exact He|].
  intros x. rewrite (finalize_catalog _ _ _ _ _ _ _ Hk Hs). intros Hx Hx0.
  pose proof (reachable_inv _ _ _ (mi_cat _ _ _ (objects_minv m H))) as Hw.
  apply stage_staged in Hx as [Hx|[Ha ->]].
  - by apply (ci_staged _ _ _ _ _ _ _ H).
  - by apply admitted_session.
  - apply (w_claims _ _ Hw). simpl. apply list_elem_of_fmap_2. by eapply list_elem_of_lookup_2.
Qed.

(** ** Every call *)

Definition cm_call_ok (op : cm_op) m (x : option (ClientManager A Alloc)) : Prop :=
  match x with
  | Some m' => inv m'
  | None =>
      match op with
      | CObject oop => needs_numbers oop = true ∧ (op_fits oop → ¬ spare 4 (om_catalog (cm_objects m)))
      | _ => False
      end
  end.

Lemma mounted_call c ids m op x :
  inv m → mount_ok cfg cid pid nodes conf eviction c ids m x → cm_call_ok op m (outcome_of x).
Proof.
  intros H. destruct x as [[t|e|] m']; simpl; [by intros [? _]| |done].
  intros [Hq _]. by eapply quiet_inv.
Qed.

Lemma heartbeat_ok c now m : inv m → quiet cfg cid pid nodes conf eviction m (cm_heartbeat cfg c now m).2.
Proof.
  intros H. unfold cm_heartbeat. pose proof (heartbeat_sessions cfg (cm_registry m) c now) as HS.
  pose proof (inv_heartbeat cfg (cm_registry m) [] c now (ci_registry _ _ _ _ _ _ _ H)) as Hi.
  destruct (heartbeat _ _ _ _) as [o st]. split; try done. apply H.
Qed.

Lemma deadline_ok m : inv m → inv (next_graceful_unmount_deadline m).2.
Proof.
  intros H. unfold next_graceful_unmount_deadline.
  pose proof (next_deadline_ok (graceful_unmounts m) (ci_queue _ _ _ _ _ _ _ H)) as Hq.
  assert (q_pending (next_deadline (graceful_unmounts m)).2 = q_pending (graceful_unmounts m)) as Hp by done.
  destruct (next_deadline _) as [d q]. simpl in *. split; try apply H; simpl; [|done|].
  - rewrite Hp. apply H.
  - intros k pu. rewrite Hp. apply (ci_idle _ _ _ _ _ _ _ H).
Qed.

Lemma cm_step_ok op m : inv m → cm_env op m → cm_call_ok op m (cm_step cfg op m).
Proof.
  intros H He. destruct op as [c now|l r now|cn now|c s now|c i|c i d|now| |c specs now|k b g|oop].
  - simpl. by eapply quiet_inv, heartbeat_ok.
  - pose proof (drain_ok cfg cid pid nodes conf eviction l r now m H) as Hd. simpl.
    destruct (drain_sessions l r now m) as [[] ?]; simpl; naive_solver.
  - destruct (cleanup_step_ok cfg cid pid nodes conf eviction cn now m H)
      as (cl & n & m' & _ & Hs & Hm' & _). simpl. by rewrite Hs.
  - eapply mounted_call; [done|]. by apply mount_segment_ok.
  - pose proof (unmount_segment_ok cfg cid pid nodes conf eviction c i m H) as Hu. simpl.
    destruct (unmount_segment c i m) as [[[]|e|] m']; simpl; [by destruct Hu| | |done]; by destruct Hu as [-> _].
  - pose proof (schedule_ok cfg cid pid nodes conf eviction c i d m H) as Hu. simpl.
    destruct (schedule_graceful_unmount c i d m) as [[x|e|] m']; simpl; [by destruct Hu| |done].
    by destruct Hu as [-> _].
  - destruct (graceful_ok cfg cid pid nodes conf eviction now m H) as (jobs & m' & Hs & Hm' & _).
    simpl. by rewrite Hs.
  - simpl. by apply deadline_ok.
  - eapply mounted_call; [done|]. by apply remount_ok.
  - cbn [cm_step]. destruct (om_prepared (cm_objects m) !! k) as [pp|] eqn:Hk; [|done].
    pose proof (finalize_ok cid conf k b (admission_is_active (wc_owner (pp_claim pp)) m) g
      (cm_objects m) (objects_minv m H) He) as Hok.
    destruct (manager_step _ _) as [o'|] eqn:Hs; [|by destruct Hok]. by eapply finalize_call_ok.
  - simpl. destruct (object_call oop) eqn:Hop; [|done].
    assert (manager_env oop (cm_objects m)) as He' by (by destruct oop).
    pose proof (manager_step_ok cid conf oop (cm_objects m) (objects_minv m H) He') as Hok.
    destruct (manager_step _ _) as [o'|] eqn:Hs; [|exact Hok]. by eapply object_call_ok.
Qed.

Lemma cm_new_inv o :
  pool_config_valid nodes = true → (∀ c, eviction = Some c → configured c) →
  om_new cid conf eviction (pool_new pid nodes) = Ok o → inv (cm_new o).
Proof.
  intros Hn Hc Ho. pose proof (mreach_new _ _ _ _ _ _ Hn Hc Ho) as Hr.
  unfold om_new, with_config in Ho.
  destruct (config_validate conf) as [[]|e|] eqn:Hv; [|done|done]. simpl in Ho. injection Ho as <-.
  destruct queue_default_ok as [Hq Hi].
  split; [apply registry_inv_init|by split| |done|done|].
  - change (consistent (sessions registry_init) (view_of (pool_new (A := A) pid nodes)) pid ∅ ∅).
    assert (sessions registry_init = ∅) as -> by (unfold sessions; simpl; apply fmap_empty).
    assert (view_of (pool_new (A := A) pid nodes) = ∅) as -> by (unfold view_of; simpl; apply omap_empty).
    apply consistent_empty.
  - intros x (a & s & t & p & Hs & _). simpl in Hs. by rewrite lookup_empty in Hs.
Qed.
End Steps.

Lemma cm_reachable_inv {A Alloc} `{UpstreamLaws A Alloc} cfg cid pid nodes conf eviction
    (m : ClientManager A Alloc) :
  cm_reachable cfg cid pid nodes conf eviction m → cinv cfg cid pid nodes conf eviction m.
Proof.
  induction 1 as [o Hn Hc Ho|op m m' _ IH Henv Hs]; [by apply cm_new_inv|].
  pose proof (cm_step_ok cfg cid pid nodes conf eviction op m IH Henv) as Hok. by rewrite Hs in Hok.
Qed.
