(* ===== verification/ClientProps.v ===== *)
(** * What the client manager promises

    The theorems of the client manager on every reachable state: the resources
    of the clients stay consistent across the registry, the pool, the slots, the
    unmount queue and the catalog; mounts and remounts happen entirely or not at
    all; cleanups and due unmounts are completed; and no call reports a broken
    invariant.  Runs on the example allocator are the witnesses. *)
From stdpp Require Import relations.
From S2P Require Import Prelude Identity ClientLifecycle ClientSessions Segment ByteAllocator SegmentPool PoolView Placement.
From S2P Require Import TenantQuota Replica ObjectTypes CatalogState CatalogWrite CatalogCollector CatalogInv CatalogOps CatalogSlots.
From S2P Require Import CatalogWorld CatalogStaged CatalogProps CatalogResources Eviction ObjectManager ManagerWorld ManagerProps GracefulUnmount.
From S2P Require Import ClientManager ClientViews ClientPool ClientWorld ClientMount ClientUnmount ClientCleanup ClientSteps.

Section Props.
Context {A Alloc : Type} `{L : UpstreamLaws A Alloc} (cfg : ClientLifecycleConfig).
Context (cid pid nodes : N) (conf : ObjectCatalogConfig) (eviction : option MemoryEvictionConfig).
Implicit Types (m : ClientManager A Alloc).

Local Abbreviation reach := (cm_reachable cfg cid pid nodes conf eviction).
Local Abbreviation S m := (sessions (cm_registry m)).
Local Abbreviation pending m := (q_pending (graceful_unmounts m)).

(** C3: In every reachable state the parts of the client manager agree: a mounted
    segment belongs to a registered client, is listed in its slot and accepts
    allocations unless its unmount is scheduled; a slot holds the registered
    session of its client and exactly the segments the client has mounted; a
    scheduled unmount is for the current session and for the quiesced segment it
    was asked for; and every staged write of a session belongs to a session that
    is still registered, so a departed client leaves none behind. *)
Theorem client_resources_consistent m :
  reach m →
  (∀ i a e, mounted (cm_pool m) i a e →
     ∃ s ids, S m !! spec_owner (spec e) = Some s ∧
       cm_slots m !! spec_owner (spec e) = Some (mkMount (Some s) ids) ∧ i ∈ ids ∧
       (state e = Accepting ∨ is_Some (pending m !! mkKey s i))) ∧
  (∀ c ms, cm_slots m !! c = Some ms →
     ∃ s, ms_session ms = Some s ∧ S m !! c = Some s ∧
       ∀ i, i ∈ ms_segments ms ↔ ∃ a e, mounted (cm_pool m) i a e ∧ spec_owner (spec e) = c) ∧
  (∀ k pu, pending m !! k = Some pu →
     S m !! session_client (key_session k) = Some (key_session k) ∧
     ∃ a e, mounted (cm_pool m) (key_segment k) a e ∧
       spec_owner (spec e) = session_client (key_session k) ∧ state e = Quiesced ∧
       pu_incarnation pu = mkSegmentHandle pid a) ∧
  (∀ o, staged_by (om_catalog (cm_objects m)) o → session_generation o ≠ 0 →
     S m !! wo_client o = Some (owner_session o)).
Proof.
  intros Hr%cm_reachable_inv. pose proof (ci_consistent _ _ _ _ _ _ _ Hr) as Hcn.
  split_and!; [| | |apply (ci_staged _ _ _ _ _ _ _ Hr)].
  - intros i a e Hm%lookup_view. destruct (cn_owner _ _ _ _ _ Hcn i a e Hm) as [s Hs].
    exists s, (owned_by (spec_owner (spec e)) (view_of (cm_pool m))).
    split_and!; [done| |apply elem_of_owned; eauto|].
    + by rewrite (cn_slots _ _ _ _ _ Hcn), Hs.
    + destruct (decide (state e = Accepting)); [by left|right].
      by apply (cn_quiesced _ _ _ _ _ Hcn i a e s).
  - intros c ms. rewrite (cn_slots _ _ _ _ _ Hcn). intros (s & Hs & ->)%fmap_Some. exists s.
    split_and!; [done|done|]. intros i. simpl. rewrite elem_of_owned. by setoid_rewrite lookup_view.
  - intros k pu Hk. destruct (cn_pending _ _ _ _ _ Hcn k pu Hk) as (Hs & a & e & He & ? & ? & ?).
    split; [done|]. exists a, e. by rewrite <- lookup_view.
Qed.

(** The sessions, the mounted segments, the slots, the unmounts and the catalog
    of [m'] are those of [m]. *)
Definition same_resources m m' : Prop :=
  S m' = S m ∧ (∀ i a e, mounted (cm_pool m') i a e ↔ mounted (cm_pool m) i a e) ∧
  cm_slots m' = cm_slots m ∧ graceful_unmounts m' = graceful_unmounts m ∧
  om_catalog (cm_objects m') = om_catalog (cm_objects m).

(** Mounting all of [ids] for [c], or nothing. *)
Definition mounts_all (c : ClientId) (ids : list SegmentId) m
    (x : res ClientManagerError ActivateOutcome * ClientManager A Alloc) : Prop :=
  match x with
  | (Ok o, m') => S m' = <[c := outcome_session o]> (S m) ∧
      (∀ i a e, mounted (cm_pool m) i a e → mounted (cm_pool m') i a e) ∧
      (∀ i, (∃ a e, mounted (cm_pool m') i a e ∧ spec_owner (spec e) = c) ↔
         i ∈ ids ∨ ∃ a e, mounted (cm_pool m) i a e ∧ spec_owner (spec e) = c)
  | (Err _, m') => same_resources m m'
  | (Panic, _) => False
  end.

Lemma mount_ok_all c ids m x :
  mount_ok cfg cid pid nodes conf eviction c (list_to_set ids) m x → mounts_all c ids m x.
Proof.
  destruct x as [[o|e|] m']; simpl; [| |done].
  - intros (_ & HS & Ho & Hsub & _). split_and!; [done| |].
    + intros i a e. rewrite <- !lookup_view. intros Hi. by apply (lookup_weaken _ _ _ _ Hi Hsub).
    + intros i. setoid_rewrite <- lookup_view. rewrite <- !elem_of_owned, Ho. set_solver.
  - intros [[] _]. split_and!; try done. intros i a e0. by rewrite <- !lookup_view, qt_view.
Qed.

(** C15: Mounting a segment, and remounting a list of segments that all have the
    caller as owner, as the RPC handlers pass them, are atomic: a call
    that succeeds leaves the client's session registered, with all requested
    segments mounted beside those it had and no other segment touched; a call
    that fails, at whichever step, leaves the sessions, the mounted segments, the
    slots, the scheduled unmounts and the catalog as they were; neither panics. *)
Theorem mount_atomic m c :
  reach m →
  (∀ s now, mounts_all c [spec_id s] m (mount_segment cfg c s now m)) ∧
  (∀ specs now, Forall (fun s => spec_owner s = c) specs →
     mounts_all c (map spec_id specs) m (remount cfg c specs now m)).
Proof.
  intros Hr%cm_reachable_inv. split.
  - intros s now. apply mount_ok_all. simpl. rewrite (right_id_L ∅ (∪)). by apply mount_segment_ok.
  - intros specs now Hs. apply mount_ok_all. by apply remount_ok.
Qed.

(** What a client does not own it can neither reactivate nor take back. *)
Lemma foreign_refused {T} c i a e p err m :
  mounted p i a e → spec_owner (spec e) ≠ c →
  pool_call (pool_reactivate_many c [i]) (set_pool p m) =
    (Err (OwnerMismatch i (spec_owner (spec e)) c), set_pool p m) ∧
  undo (T := T) c [i] [] err (set_pool p m) =
    (Err (ManagerRollback i (OwnerMismatch i (spec_owner (spec e)) c)), set_pool p m).
Proof.
  intros [Hi He] Ho.
  assert (owned_entry c i p = Err (OwnerMismatch i (spec_owner (spec e)) c)) as Hown
    by (unfold owned_entry; by rewrite Hi, He, decide_False).
  split.
  - apply pool_call_eq. unfold pool_reactivate_many, catalog_reactivate_many. cbn [owned_entries]. by rewrite Hown.
  - unfold undo, rollback, bind. rewrite (pool_call_eq _ p m (Ok None) p) by done.
    rewrite (pool_call_eq _ p m (Ok (Some (ManagerRollback i (OwnerMismatch i (spec_owner (spec e)) c)))) p); [done|].
    simpl. unfold pool_quiesce, catalog_quiesce. by rewrite Hown.
Qed.

(** Attaching one segment that is not mounted. *)
Lemma attach_one m c s :
  cinv cfg cid pid nodes conf eviction m → (∀ a e, ¬ mounted (cm_pool m) (spec_id s) a e) →
  let m1 := set_slot c mount_default m in
  match (pool_attach_quiesced s (cm_pool m)).1 with
  | Ok _ => ∃ p a, attach_each c [s] [] [] m1 = (Ok ([spec_id s], []), set_pool p m1) ∧
      view_of p = <[spec_id s := (a, mkEntry s Quiesced true)]> (view_of (cm_pool m))
  | Err e => ∃ p, attach_each c [s] [] [] m1 = (Err (ManagerAttach e), set_pool p m1) ∧
      view_of p = view_of (cm_pool m)
  | Panic => False
  end.
Proof.
  intros Hr Hfresh m1. cbn [attach_each]. unfold handle.
  destruct (attach_fresh cid pid nodes conf eviction (cm_objects m) s (cm_pool m) (ci_objects _ _ _ _ _ _ _ Hr))
    as [(e & p1 & Hp & Hg & HV)|(h & p1 & Hp & _ & _ & HV)].
  { intros (a & e & He%lookup_view & _)%elem_of_owned. by destruct (Hfresh a e). }
  - rewrite (pool_call_start _ m1 _ _ Hp), Hp. simpl.
    destruct (undo_ok cid pid nodes conf eviction (T := list SegmentId * list SegmentId) c [] [] (ManagerAttach e) m1 p1)
      as (p2 & Hu & _ & HV2); [exact Hg|by constructor|by intros ? ?%elem_of_nil..|].
    exists p2. split; [exact Hu|]. rewrite HV2, view_without_nil. done.
  - rewrite (pool_call_start _ m1 _ _ Hp), Hp. simpl. exists p1, (handle_entry h). split; [|done].
    assert (mounted p1 (spec_id s) (handle_entry h) (mkEntry s Quiesced true)) as [_ He]
      by (apply lookup_view; by rewrite HV, lookup_insert_eq).
    unfold bind. by rewrite (segment_entry_eq h p1 m1 _ He).
Qed.

(** C40: Remounting does not check whose segments it is given.  A client without a session that remounts a segment of another
    owner, not mounted yet, either is refused by the pool and changes nothing; or
    the segment is attached, its reactivation is refused for the owner, so is the
    rollback, and the call fails with the error of the rollback and leaves the
    segment mounted and quiesced, with no session for the caller; the other
    segments, the sessions, slots, unmounts and the catalog are as they were. *)
Theorem foreign_remount_leaves_segment m c s now :
  reach m → client_is_nil c = false → S m !! c = None → spec_owner s ≠ c →
  (∀ a e, ¬ mounted (cm_pool m) (spec_id s) a e) →
  ∃ m', match (pool_attach_quiesced s (cm_pool m)).1 with
  | Ok _ =>
      remount cfg c [s] now m =
        (Err (ManagerRollback (spec_id s) (OwnerMismatch (spec_id s) (spec_owner s) c)), m') ∧
      (∃ a, mounted (cm_pool m') (spec_id s) a (mkEntry s Quiesced true)) ∧
      (∀ i a e, i ≠ spec_id s → mounted (cm_pool m') i a e ↔ mounted (cm_pool m) i a e) ∧
      S m' = S m ∧ cm_slots m' = cm_slots m ∧ graceful_unmounts m' = graceful_unmounts m ∧
      om_catalog (cm_objects m') = om_catalog (cm_objects m)
  | Err e => remount cfg c [s] now m = (Err (ManagerAttach e), m') ∧ same_resources m m'
  | Panic => False
  end.
Proof.
  intros Hr%cm_reachable_inv Hnil Hc Ho Hfresh. pose proof (slot_absent _ _ _ _ _ _ m c Hr Hc) as Hsl.
  rewrite (remount_opened cfg cid pid nodes conf eviction m c [s] now Hr Hnil Hc).
  pose proof (attach_one m c s Hr Hfresh) as Hat. cbv zeta in Hat. set (m1 := set_slot c mount_default m) in *.
  assert (∀ p, prune_unused_slot c (set_pool p m1) = set_pool p m) as Hprune.
  { intros p. unfold prune_unused_slot. simpl. rewrite lookup_insert_eq. simpl.
    unfold set_pool, with_slots, with_objects. simpl. by rewrite delete_insert_id. }
  unfold remount_absent.
  destruct (pool_attach_quiesced s (cm_pool m)).1 as [o|e|]; [| |done]; unfold bind at 1.
  - destruct Hat as (p & a & -> & HV). cbn [app].
    assert (mounted p (spec_id s) a (mkEntry s Quiesced true)) as Hm
      by (apply lookup_view; by rewrite HV, lookup_insert_eq).
    destruct (foreign_refused (T := ActivateOutcome) c _ _ _ p
      (ManagerSegmentState (OwnerMismatch (spec_id s) (spec_owner s) c)) m1 Hm Ho) as [Hre Hun].
    cbn [spec] in Hre, Hun. unfold handle at 1. rewrite Hre, Hun, Hprune. eexists. split_and!; [done|by exists a| |done..].
    intros i b e Hi. rewrite <- !lookup_view. change (cm_pool (set_pool p m)) with p. by rewrite HV, lookup_insert_ne.
  - destruct Hat as (p & -> & HV). rewrite Hprune. eexists. split; [done|]. split_and!; try done.
    intros i b e0. rewrite <- !lookup_view. change (cm_pool (set_pool p m)) with p. by rewrite HV.
Qed.

(** A call answers, and its error does not tell of a broken invariant. *)
Definition answers {T} (x : res ClientManagerError T * ClientManager A Alloc) : Prop :=
  match x.1 with Ok _ => True | Err e => internal e = false | Panic => False end.

(** C30: On every reachable state no call of the client manager panics or reports
    an inconsistent slot or a failed rollback, remounts of segments that all have
    the caller as owner included; and no call at all panics, except a put or its
    commit once the catalog has no numbers left for it. *)
Theorem client_calls_answer m :
  reach m →
  (∀ c s now, answers (mount_segment cfg c s now m)) ∧
  (∀ c specs now, Forall (fun s => spec_owner s = c) specs → answers (remount cfg c specs now m)) ∧
  (∀ c i, answers (unmount_segment c i m)) ∧
  (∀ c i d, answers (schedule_graceful_unmount c i d m)) ∧
  (∀ l reason now, answers (drain_sessions l reason now m)) ∧
  (∀ client_now now, is_ok (run_cleanup_step cfg client_now now m).1 = true) ∧
  (∀ now, is_ok (run_graceful_unmount_step cfg now m).1 = true) ∧
  (∀ op, cm_env op m → cm_step cfg op m = None →
     match op with
     | CObject oop => needs_numbers oop = true ∧ (op_fits oop → ¬ spare 4 (om_catalog (cm_objects m)))
     | _ => False
     end).
Proof.
  intros Hr%cm_reachable_inv. unfold answers. split_and!.
  - intros c s now. pose proof (mount_segment_ok cfg cid pid nodes conf eviction c s now m Hr) as Hm.
    destruct (mount_segment _ _ _ _ _) as [[] ?]; [done|by destruct Hm|done].
  - intros c specs now Hs. pose proof (remount_ok cfg cid pid nodes conf eviction c specs now m Hr Hs) as Hm.
    destruct (remount _ _ _ _ _) as [[] ?]; [done|by destruct Hm|done].
  - intros c i. pose proof (unmount_segment_ok cfg cid pid nodes conf eviction c i m Hr) as Hu.
    destruct (unmount_segment _ _ _) as [[[]| |] ?]; [done|done|by destruct Hu|done].
  - intros c i d. pose proof (schedule_ok cfg cid pid nodes conf eviction c i d m Hr) as Hu.
    destruct (schedule_graceful_unmount _ _ _ _) as [[] ?]; [done|by destruct Hu|done].
  - intros l reason now. pose proof (drain_ok cfg cid pid nodes conf eviction l reason now m Hr) as Hu.
    destruct (drain_sessions _ _ _ _) as [[] ?]; [done|by destruct Hu|done].
  - intros cn now. destruct (cleanup_step_ok cfg cid pid nodes conf eviction cn now m Hr)
      as (? & ? & ? & _ & -> & _). done.
  - intros now. destruct (graceful_ok cfg cid pid nodes conf eviction now m Hr) as (? & ? & -> & _). done.
  - intros op He Hn. pose proof (cm_step_ok cfg cid pid nodes conf eviction op m Hr He) as Hok.
    by rewrite Hn in Hok.
Qed.

Lemma mounted_invalidate (p p' : Pool A) cs :
  view_of p' = view_invalidate cs (view_of p) →
  ∀ i a e, mounted p' i a e ↔ mounted p i a e ∧ spec_owner (spec e) ∉ cs.
Proof.
  intros HV i a e. rewrite <- !lookup_view, HV. unfold view_invalidate. by rewrite map_lookup_filter_Some.
Qed.

(** What is due and within the budget is claimed. *)
Lemma due_claimed m now c e :
  cinv cfg cid pid nodes conf eviction m →
  (pending_work now (cm_registry m) <= cleanup_scan_budget cfg)%nat →
  ClientLifecycle.entries (cm_registry m) !! c = Some e → expires_at e <= now →
  c ∈ claim_client <$> (claim_due_cleanups cfg now (cleanup_scan_budget cfg) (cm_registry m)).1.
Proof.
  intros Hi Hb He Hx. pose proof (ci_registry _ _ _ _ _ _ _ Hi) as Hreg.
  pose proof (inv_claim_due cfg _ [] now (cleanup_scan_budget cfg) Hreg) as Hc.
  pose proof (claim_due_work cfg now (cleanup_scan_budget cfg) (cm_registry m)
    (inv_sorted _ _ _ Hreg)) as Hw.
  pose proof (claim_due_kept (fun e => (session e, expires_at e)) ltac:(done) cfg now
    (cleanup_scan_budget cfg) (cm_registry m)) as Hk.
  destruct (claim_due_cleanups _ _ _ _) as [cl st]. simpl in *.
  assert (∃ e', ClientLifecycle.entries st !! c = Some e' ∧ session e' = session e ∧
    expires_at e' = expires_at e) as (e' & He' & Hs & Hx').
  { pose proof (f_equal (lookup c) Hk) as Hl. rewrite !lookup_fmap, He in Hl.
    destruct (ClientLifecycle.entries st !! c) as [e'|]; [|done]. simpl in Hl. naive_solver. }
  destruct (no_pending_work cfg st cl now c e' Hc ltac:(lia) He') as [?|(reason & _ & Hin)]; [lia|].
  apply list_elem_of_fmap. exists (mkCleanup (session e') reason). split; [|done].
  unfold claim_client. simpl. rewrite Hs.
  by destruct (inv_entries _ _ _ Hreg c e He) as (-> & _).
Qed.

(** C19: A cleanup round succeeds and ends every session it claims: the client is
    gone from the registry with its slot, its segments, its scheduled unmounts
    and its staged writes.  Nothing else changes of the sessions, the mounted
    segments, the slots of clients and the scheduled unmounts, and of the slots
    of the catalog only the writes staged by those sessions are taken away.  When
    the due work fits the scan budget, every client whose heartbeat deadline has
    passed is among them. *)
Theorem cleanup_ends_sessions m client_now now :
  reach m →
  let gone := claim_client <$>
    (claim_due_cleanups cfg client_now (cleanup_scan_budget cfg) (cm_registry m)).1 in
  ∃ report m', run_cleanup_step cfg client_now now m = (Ok report, m') ∧
    completed_sessions report = N.of_nat (length gone) ∧
    (∀ c s, S m' !! c = Some s ↔ S m !! c = Some s ∧ c ∉ gone) ∧
    (∀ i a e, mounted (cm_pool m') i a e ↔ mounted (cm_pool m) i a e ∧ spec_owner (spec e) ∉ gone) ∧
    (∀ c ms, cm_slots m' !! c = Some ms ↔ cm_slots m !! c = Some ms ∧ c ∉ gone) ∧
    (∀ k pu, pending m' !! k = Some pu ↔ pending m !! k = Some pu ∧ session_client (key_session k) ∉ gone) ∧
    slots (om_catalog (cm_objects m')) = revoked_slot (of_clients gone) <$> slots (om_catalog (cm_objects m)) ∧
    (∀ o, staged_by (om_catalog (cm_objects m')) o ↔
       staged_by (om_catalog (cm_objects m)) o ∧ ¬ (session_generation o ≠ 0 ∧ wo_client o ∈ gone)) ∧
    ((pending_work client_now (cm_registry m) <= cleanup_scan_budget cfg)%nat →
       ∀ c e, ClientLifecycle.entries (cm_registry m) !! c = Some e → expires_at e <= client_now → c ∈ gone).
Proof.
  intros Hr%cm_reachable_inv.
  destruct (cleanup_step_ok cfg cid pid nodes conf eviction client_now now m Hr)
    as (cl & n & m' & Hcl & Hs & Hi' & HS & HV & Hsl & Hq & Hst). rewrite Hcl. simpl.
  exists (mkCleanupReport (N.of_nat (length cl)) n
    (N.of_nat (size (view_of (cm_pool m))) -
       N.of_nat (size (view_invalidate (claim_client <$> cl) (view_of (cm_pool m)))))), m'.
  split_and!; [done|simpl; by rewrite length_fmap| |by apply mounted_invalidate| | |done| |].
  - intros c s. rewrite HS. by rewrite map_lookup_filter_Some.
  - intros c s. rewrite Hsl. by rewrite map_lookup_filter_Some.
  - intros k pu. rewrite Hq. by rewrite map_lookup_filter_Some.
  - intros o. rewrite (staged_revoked _ _ _ o Hst). unfold of_clients. by rewrite bool_decide_eq_false.
  - intros Hb c e He Hx. pose proof (due_claimed m client_now c e Hr Hb He Hx) as Hd. by rewrite Hcl in Hd.
Qed.

(** C24: A round of graceful unmounts succeeds: each job it claims was due and its
    segment is removed, no other segment and no session changes, nothing is left
    for a retry, and when the budget is not used up nothing is due any more; at
    or after the deadline announced before, a round completes at least one, so a
    worker that sleeps until the announced deadline always makes progress. *)
Theorem graceful_unmounts_complete m now :
  reach m →
  ∃ jobs report m', run_graceful_unmount_step cfg now m = (Ok report, m') ∧
    gr_completed report = N.of_nat (length jobs) ∧ gr_retried report = 0 ∧
    Forall (due now (pending m)) jobs ∧ NoDup (job_key <$> jobs) ∧
    S m' = S m ∧
    (∀ i a e, mounted (cm_pool m') i a e ↔ mounted (cm_pool m) i a e ∧ i ∉ job_segments jobs) ∧
    pending m' = unmounts_without jobs (pending m) ∧
    ((length jobs < cleanup_scan_budget cfg)%nat → none_due now (pending m')) ∧
    (∀ d, (next_graceful_unmount_deadline m).1 = Some d → d <= now →
       (0 < cleanup_scan_budget cfg)%nat → jobs ≠ []).
Proof.
  intros Hr%cm_reachable_inv.
  destruct (graceful_ok cfg cid pid nodes conf eviction now m Hr)
    as (jobs & m' & Hs & Hi' & HS & HV & HQ & Hd & Hnd & Hlen & Hend & _).
  exists jobs, (mkUnmountReport (N.of_nat (length jobs)) (cancelled_since_report (graceful_unmounts m)) 0), m'.
  split_and!; try done.
  - intros i a e. rewrite <- !lookup_view, HV. unfold view_without. by rewrite map_lookup_filter_Some.
  - intros ?. destruct Hend; [lia|done].
  - intros d Hdl Hle Hb ->. destruct Hend as [Hend|Hend]; [simpl in Hend; lia|].
    pose proof (next_deadline_least (graceful_unmounts m) (ci_queue _ _ _ _ _ _ _ Hr)
      (ci_idle _ _ _ _ _ _ _ Hr)) as Hnl.
    unfold next_graceful_unmount_deadline in Hdl.
    destruct (next_deadline (graceful_unmounts m)) as [x q]. simpl in Hdl, Hnl. rewrite Hdl in Hnl.
    destruct Hnl as [(k & pu & Hk & Hpu) _].
    assert (pending m' !! k = Some pu) as Hk'.
    { rewrite HQ. unfold unmounts_without. apply map_lookup_filter_Some. split; [done|]. simpl. set_solver. }
    pose proof (Hend k pu Hk' (ci_idle _ _ _ _ _ _ _ Hr k pu Hk)). lia.
Qed.
End Props.

(** ** An example *)

Section Example.
Local Abbreviation CM := (ClientManager Bump.bump (N * N)).
Local Abbreviation cfg := ClientLifecycle.example_config.
Local Abbreviation reach := (cm_reachable cfg 7 1 8 CatalogProps.example_config (Some example_eviction)).

Definition example_session : ClientSession := mkSession (mkClientId 0 1) 1.

Definition cm_step_or (op : cm_op) (m : CM) : CM := default m (cm_step cfg op m).

Definition fresh_clients : CM := cm_new empty_manager.

(** Two segments mounted, a put staged in them by their client, and the unmount
    of the first one scheduled. *)
Definition mounted_clients : CM :=
  cm_step_or (CRemount (mkClientId 0 1) [example_spec 1 4096; example_spec 2 8192] 5) fresh_clients.
Definition writing_clients : CM :=
  cm_step_or (CFinalize 0 true None)
    (cm_step_or (CObject (MPrepare Insert (fun _ => false) example_key (for_session example_session)
       example_plan 5)) mounted_clients).
Definition leaving_clients : CM :=
  cm_step_or (CSchedule (mkClientId 0 1) (mkSegmentId 0 1) 9) writing_clients.

Lemma cm_step_or_reach op m :
  reach m → cm_env op m → bool_decide (is_Some (cm_step cfg op m)) = true → reach (cm_step_or op m).
Proof.
  intros Hm He Hs%bool_decide_eq_true. unfold cm_step_or.
  destruct (cm_step cfg op m) as [m'|] eqn:Heq; [|by destruct Hs]. by eapply creach_step.
Qed.

Lemma fresh_reach : reach fresh_clients.
Proof. apply creach_new; [done| |by vm_compute]. intros c [= <-]. apply example_configured. Qed.

Lemma mounted_reach : reach mounted_clients.
Proof. apply cm_step_or_reach; [apply fresh_reach|by repeat constructor|by vm_compute]. Qed.

Lemma leaving_reach : reach leaving_clients.
Proof.
  apply cm_step_or_reach; [|done|by vm_compute].
  apply cm_step_or_reach; [|by vm_compute|by vm_compute].
  apply cm_step_or_reach; [apply mounted_reach|done|by vm_compute].
Qed.

Definition staged_at (a : N) (o : WriteOwner) (m : CM) : bool :=
  match slots (om_catalog (cm_objects m)) !! a ≫= active with
  | Some t => match at_phase t with Staged _ => bool_decide (at_owner t = o) | _ => false end
  | None => false
  end.

Lemma staged_at_by a o m : staged_at a o m = true → staged_by (om_catalog (cm_objects m)) o.
Proof.
  unfold staged_at. destruct (slots _ !! a) as [s|] eqn:Hs; [|done]. simpl.
  destruct (active s) as [t|] eqn:Ht; [|done]. destruct (at_phase t) as [|v] eqn:Hp; [done|].
  intros Ho%bool_decide_eq_true. by exists a, s, t, v.
Qed.
End Example.

Lemma client_resources_consistent_witness :
  sessions (cm_registry leaving_clients) !! mkClientId 0 1 = Some example_session ∧
  is_Some (q_pending (graceful_unmounts leaving_clients) !! mkKey example_session (mkSegmentId 0 1)).
Proof.
  destruct (client_resources_consistent _ _ _ _ _ _ leaving_clients leaving_reach) as (Hm & _ & _ & Hst).
  split.
  - apply (Hst (for_session example_session)); [apply (staged_at_by 0); vm_compute; reflexivity|discriminate].
  - destruct (Hm (mkSegmentId 0 1) 1 (mkEntry (example_spec 1 4096) Quiesced true))
      as (s & ids & Hs & _ & _ & [Hacc|Hp]);
      [split; vm_compute; reflexivity|discriminate Hacc|].
    assert (s = example_session) as <-; [|exact Hp]. vm_compute in Hs. injection Hs as <-. reflexivity.
Defined.

Lemma mount_atomic_witness :
  ∃ e m', remount ClientLifecycle.example_config (mkClientId 0 1) [example_spec 1 4096; example_spec 3 6000] 5
      fresh_clients = (Err e, m') ∧
    same_resources fresh_clients m'.
Proof.
  destruct (mount_atomic _ _ _ _ _ _ fresh_clients (mkClientId 0 1) fresh_reach) as [_ Hr].
  specialize (Hr [example_spec 1 4096; example_spec 3 6000] 5 ltac:(repeat constructor)).
  destruct (remount _ _ _ _ _) as [[o|e|] m'] eqn:Hx; [vm_compute in Hx; discriminate Hx| |destruct Hr].
  exists e, m'. split; [reflexivity|exact Hr].
Defined.

Lemma client_calls_answer_witness :
  answers (unmount_segment (mkClientId 0 1) (mkSegmentId 0 1) leaving_clients) ∧
  is_ok (run_cleanup_step ClientLifecycle.example_config 20 20 leaving_clients).1 = true.
Proof.
  destruct (client_calls_answer _ _ _ _ _ _ leaving_clients leaving_reach)
    as (_ & _ & Hu & _ & _ & Hc & _).
  split; [apply Hu|apply Hc].
Defined.

Lemma cleanup_ends_sessions_witness :
  ∃ report m',
    run_cleanup_step ClientLifecycle.example_config 20 20 leaving_clients = (Ok report, m') ∧
    completed_sessions report = 1 ∧ cm_slots m' !! mkClientId 0 1 = None ∧
    ¬ staged_by (om_catalog (cm_objects m')) (for_session example_session).
Proof.
  destruct (cleanup_ends_sessions _ _ _ _ _ _ leaving_clients 20 20 leaving_reach)
    as (report & m' & Hrun & Hn & _ & _ & Hslots & _ & _ & Hst & Hdue).
  assert (mkClientId 0 1 ∈ claim_client <$> (claim_due_cleanups ClientLifecycle.example_config 20
    (cleanup_scan_budget ClientLifecycle.example_config) (cm_registry leaving_clients)).1) as Hgone.
  { apply (Hdue ltac:(vm_compute; lia) (mkClientId 0 1)
      (ClientLifecycle.mkEntry example_session example_session PhaseActive 15)); [vm_compute; reflexivity|simpl; lia]. }
  exists report, m'. split; [exact Hrun|]. split; [rewrite Hn; vm_compute; reflexivity|]. split.
  - destruct (cm_slots m' !! mkClientId 0 1) as [ms|] eqn:Hms; [|reflexivity].
    apply Hslots in Hms as [_ Hno]. destruct (Hno Hgone).
  - intros Hs. apply Hst in Hs as [_ Hno]. apply Hno. split; [discriminate|exact Hgone].
Defined.

Lemma graceful_unmounts_complete_witness :
  ∃ (jobs : list GracefulUnmountJob) report m',
    run_graceful_unmount_step ClientLifecycle.example_config 9 leaving_clients = (Ok report, m') ∧
    gr_completed report = N.of_nat (length jobs) ∧ jobs ≠ [].
Proof.
  destruct (graceful_unmounts_complete _ _ _ _ _ _ leaving_clients 9 leaving_reach)
    as (jobs & report & m' & Hrun & Hn & _ & _ & _ & _ & _ & _ & _ & Hd).
  exists jobs, report, m'. split; [exact Hrun|]. split; [exact Hn|].
  apply (Hd 9); [vm_compute; reflexivity|reflexivity|vm_compute; lia].
Defined.

Lemma foreign_remount_leaves_segment_witness :
  ∃ m', remount ClientLifecycle.example_config (mkClientId 0 9) [example_spec 1 4096] 5 fresh_clients =
      (Err (ManagerRollback (mkSegmentId 0 1) (OwnerMismatch (mkSegmentId 0 1) (mkClientId 0 1) (mkClientId 0 9))), m') ∧
    ∃ a, mounted (cm_pool m') (mkSegmentId 0 1) a (mkEntry (example_spec 1 4096) Quiesced true).
Proof.
  destruct (foreign_remount_leaves_segment _ _ _ _ _ _ fresh_clients (mkClientId 0 9) (example_spec 1 4096) 5
    fresh_reach eq_refl eq_refl ltac:(discriminate)) as [m' Hm].
  - intros a e [H _]. vm_compute in H. discriminate H.
  - exists m'. destruct (pool_attach_quiesced _ _).1 eqn:Hp; [|vm_compute in Hp; discriminate Hp..].
    destruct Hm as (Hr & Ha & _). split; [exact Hr|exact Ha].
Defined.
