(* ===== verification/RpcRequest.v ===== *)
(** * Requests and responses of the master

    [src/src/server/rpc/request.rs] and [response.rs]: the validation of what
    arrives on the wire and its translation to plans, selectors and segment
    registrations, and the translation of answers and errors back. *)
From S2P Require Import Prelude Identity ClientLifecycle Segment ByteAllocator SegmentPool Placement TenantQuota Replica ObjectTypes.
From S2P Require Import TenantRegistry CatalogState CatalogWrite ObjectManager TenantManager GracefulUnmount ClientManager.

(** ** The types of the interface

    The enumerations, structures and unions of
    [src/idl/mooncake_master.thrift] that the RPC service of the master takes and
    returns.  A union marked as expected is a [res] over [ErrorCode]. *)
Module Mooncake.

Inductive ErrorCode :=
| Ok_
| InternalError
| BufferOverflow
| ShardIndexOutOfRange
| SegmentNotFound
| SegmentAlreadyExists
| ClientNotFound
| NoAvailableHandle
| InvalidVersion
| InvalidKey
| WriteFail
| InvalidParams
| IllegalClient
| InvalidWrite
| InvalidRead
| InvalidReplica
| ReplicaIsNotReady
| ObjectNotFound
| ObjectAlreadyExists
| ObjectHasLease
| LeaseExpired
| ObjectHasReplicationTask
| ObjectNoReplicationTask
| ReplicaNotFound
| ReplicaAlreadyExists
| ReplicaIsGone
| ReplicaNotInLocalMemory
| ObjectReplicaBusy
| TransferFail
| ChecksumMismatch
| RpcFail
| RpcTimeout
| EtcdOperationError
| EtcdKeyNotExist
| EtcdTransactionFail
| EtcdCtxCancelled
| OplogEntryNotFound
| K8sLeaseOperationError
| K8sLeaseNotFound
| IncompleteOplogCatchUp
| UnavailableInCurrentStatus
| UnavailableInCurrentMode
| FileNotFound
| FileOpenFail
| FileReadFail
| FileWriteFail
| FileInvalidBuffer
| FileLockFail
| FileInvalidHandle
| BucketNotFound
| BucketAlreadyExists
| KeysExceedBucketLimit
| KeysUltraLimit
| UnableOffload
| UnableOffloading
| TaskNotFound
| TaskPendingLimitExceeded
| JobNotFound
| SerializeUnsupported
| SerializeFail
| DeserializeFail
| PersistentFail
| DfsNetworkTimeout
| DfsServiceUnavailable
| DfsQuotaExceeded
| DfsPermissionDenied
| DfsStaleHandle
| DfsPartialWrite
| TenantQuotaExceeded
| TenantNotRegistered
| TenantNotEmpty.

#[global] Instance ErrorCode_eq_dec : EqDecision ErrorCode.
Proof. solve_decision. Defined.

Inductive ObjectDataType :=
| Unknown | Kvcache | Tensor | Weight | Sample | Activation | Gradient | OptimizerState | Metadata
| General.

Inductive ReplicaType := Memory | Disk | LocalDisk | NofSsd | All.

Inductive ReplicaStatus := StatusUndefined | Initialized | Processing | Complete | StatusRemoved | Failed.

Inductive SoftPinAction := Preserve | Enable | Disable.

Record Uuid := mkUuid { high : N; low : N }.

Inductive ClientStatus := ClientUndefined | ClientOk | NeedRemount.

Record Segment := mkSegment {
  id : Uuid;
  name : string;
  base : N;
  size : N;
  te_endpoint : string;
  protocol : string;
  host_id : string
}.

Record PingResponse := mkPing { view_version_id : Z; client_status : ClientStatus }.

Record GetStorageConfigResponse := mkStorageConfig {
  fsdir : string;
  enable_disk_eviction : bool;
  quota_bytes : N
}.

Record BufferDescriptor := mkBuffer {
  buffer_size : N;
  buffer_address : N;
  buffer_protocol : string;
  transport_endpoint : string
}.

Inductive DescriptorVariant :=
| MemoryDescriptor (buffer_descriptor : BufferDescriptor)
| NoFDescriptor (buffer_descriptor : BufferDescriptor)
| DiskDescriptor (file_path : string) (object_size : N)
| LocalDiskDescriptor (client_id : Uuid) (object_size : N) (transport_endpoint : string).

Record ReplicaDescriptor := mkDescriptor {
  replica_id : N;
  descriptor_variant : DescriptorVariant;
  status : ReplicaStatus
}.

Record GetReplicaListResponse := mkReplicaList {
  replicas : list ReplicaDescriptor;
  lease_ttl_ms : N;
  object_checksum : option N
}.

Record ObjectMeta := mkMeta { meta_key : string; meta_checksum : option N }.

Record ReplicateConfig := mkReplicate {
  replica_num : N;
  nof_replica_num : N;
  soft_pin_action : SoftPinAction;
  soft_pin_ttl_ms : option N;
  with_hard_pin : bool;
  preferred_segments : list string;
  preferred_segment : string;
  preferred_nof_segments : list string;
  prefer_alloc_in_same_node : bool;
  data_type : ObjectDataType;
  config_host_id : string;
  group_ids : option (list string)
}.
End Mooncake.

(** ** Puts *)

Record PutPlanTemplate := mkTemplate {
  template_replicas : nat;
  template_preferred : list string;
  template_kind : ObjectKind;
  template_pins : ObjectPinRequest
}.

Definition template_plan (t : PutPlanTemplate) (bytes : N) : ObjectPutPlan :=
  mkPlan (with_kind (template_kind t) (ObjectContent_new bytes))
    (mkRequest bytes (template_replicas t) DomainSegment BestEffort (template_preferred t) ∅)
    (template_pins t).

(** The names that are not empty, each once, where it is first. *)
Fixpoint normalize (seen : gset string) (names : list string) : list string :=
  match names with
  | [] => []
  | n :: names' =>
      if str_is_empty n || bool_decide (n ∈ seen) then normalize seen names'
      else n :: normalize ({[ n ]} ∪ seen) names'
  end.

Definition normalize_names : list string → list string := normalize ∅.

Definition object_kind (d : Mooncake.ObjectDataType) : ObjectKind :=
  match d with
  | Mooncake.Kvcache => KvCache
  | Mooncake.Tensor => Tensor
  | Mooncake.Unknown | Mooncake.Weight | Mooncake.Sample | Mooncake.Activation | Mooncake.Gradient
  | Mooncake.OptimizerState | Mooncake.Metadata | Mooncake.General => General
  end.

Definition wire_pin_action (a : Mooncake.SoftPinAction) : SoftPinAction :=
  match a with
  | Mooncake.Preserve => Preserve
  | Mooncake.Enable => Enable
  | Mooncake.Disable => Disable
  end.

(** [PutPlanTemplate::try_from]. *)
Definition template_of_config (c : Mooncake.ReplicateConfig) : res Mooncake.ErrorCode PutPlanTemplate :=
  if Mooncake.prefer_alloc_in_same_node c || negb (str_is_empty (Mooncake.config_host_id c)) ||
     match Mooncake.group_ids c with Some _ => true | None => false end
  then Err Mooncake.InvalidParams
  else if (Mooncake.replica_num c =? 0) || (U32_MAX <? Mooncake.replica_num c) ||
          negb (Mooncake.nof_replica_num c =? 0) ||
          negb (length (Mooncake.preferred_nof_segments c) =? 0)%nat
  then Err Mooncake.InvalidParams
  else
    let preferred :=
      if str_is_empty (Mooncake.preferred_segment c) then Mooncake.preferred_segments c
      else [Mooncake.preferred_segment c] in
    let action := wire_pin_action (Mooncake.soft_pin_action c) in
    if match action with Enable => false | _ => true end &&
       match Mooncake.soft_pin_ttl_ms c with Some _ => true | None => false end
    then Err Mooncake.InvalidParams
    else Ok (mkTemplate (N.to_nat (Mooncake.replica_num c)) (normalize_names preferred)
               (object_kind (Mooncake.data_type c))
               (mkPinRequest action (Mooncake.soft_pin_ttl_ms c) (Mooncake.with_hard_pin c))).

Definition replica_selector (t : Mooncake.ReplicaType) : res Mooncake.ErrorCode ReplicaSelector :=
  match t with
  | Mooncake.All => Ok SelectAll
  | Mooncake.Memory => Ok (SelectClass Memory)
  | Mooncake.NofSsd | Mooncake.Disk | Mooncake.LocalDisk => Err Mooncake.InvalidParams
  end.

(** ** Clients and segments *)

Definition client_id_from_uuid (u : Mooncake.Uuid) : ClientId :=
  mkClientId (Mooncake.high u) (Mooncake.low u).
Definition segment_id_from_uuid (u : Mooncake.Uuid) : SegmentId :=
  mkSegmentId (Mooncake.high u) (Mooncake.low u).

Definition segment_spec_from_wire (s : Mooncake.Segment) (o : ClientId) : res Mooncake.ErrorCode SegmentSpec :=
  let? p := ok_or Mooncake.InvalidParams (protocol_from_str (Mooncake.protocol s)) in
  let i := with_host_id (Mooncake.host_id s)
             (SegmentIdentity_new (segment_id_from_uuid (Mooncake.id s)) o (Mooncake.name s)) in
  match p with
  | Cxl | NvmeOf => Err Mooncake.InvalidParams
  | _ => Ok (mkSpec i (mkRegion (Mooncake.base s) (Mooncake.size s))
               (mkEndpoint p (Mooncake.te_endpoint s)))
  end.

(** ** Replicas *)

Definition buffer_descriptor (address size : N) (protocol endpoint : string) : Mooncake.BufferDescriptor :=
  Mooncake.mkBuffer size address protocol endpoint.

(** The transport of a replica is that of its segment; a replica holds the entry
    of its segment, so that it is there. *)
Definition owned_descriptor_variant (r : MemoryRegion) (t : option TransportEndpoint)
    : res Mooncake.ErrorCode Mooncake.DescriptorVariant :=
  let? t := expect t in
  Ok (Mooncake.MemoryDescriptor
        (buffer_descriptor (base r) (region_size r) (as_str (protocol t)) (endpoint t))).

Definition started_replica_descriptor (a : AllocatedReplica)
    : res Mooncake.ErrorCode Mooncake.ReplicaDescriptor :=
  let? d := owned_descriptor_variant (allocated_region a) (allocated_transport a) in
  Ok (Mooncake.mkDescriptor (allocated_id a) d Mooncake.Processing).

(** ** Errors *)

Definition map_lookup_error (e : LookupError) : Mooncake.ErrorCode :=
  match e with
  | LookupNotFound => Mooncake.ObjectNotFound
  | LookupNotReady => Mooncake.ReplicaIsNotReady
  end.

Definition map_manager_error (e : ObjectManagerError) : Mooncake.ErrorCode :=
  match e with
  | InvalidPlan => Mooncake.InvalidParams
  | ObjectAlreadyExists => Mooncake.ObjectAlreadyExists
  | NoAvailableReplicas => Mooncake.NoAvailableHandle
  | ObjectNotFound => Mooncake.ObjectNotFound
  | IllegalOwner => Mooncake.IllegalClient
  | ReplicaClassMismatch _ _ | InvalidWrite => Mooncake.InvalidWrite
  | ManagerInternal => Mooncake.InternalError
  end.

(** The wire has no error of its own for pinned objects. *)
Definition map_remove_error (e : ObjectRemoveError) : Mooncake.ErrorCode :=
  match e with
  | ObjectRemoveNotFound => Mooncake.ObjectNotFound
  | ObjectRemoveNotReady => Mooncake.ReplicaIsNotReady
  | ObjectLeased _ | ObjectHardPinned => Mooncake.ObjectHasLease
  end.

Definition map_tenant_error (e : TenantObjectError) : Mooncake.ErrorCode :=
  match e with
  | HandleError _ => Mooncake.TenantNotRegistered
  | QuotaError _ => Mooncake.TenantQuotaExceeded
  | ObjectError e => map_manager_error e
  end.

Definition client_manager_error (e : ClientManagerError) : Mooncake.ErrorCode :=
  match e with
  | ManagerLifecycle NilClientId => Mooncake.InvalidParams
  | ManagerLifecycle (CleanupInProgress _) => Mooncake.UnavailableInCurrentStatus
  | ManagerLifecycle ClientNotActive | ManagerLifecycle CleanupNotStarted
  | ManagerLifecycle StaleSession => Mooncake.ClientNotFound
  | ManagerLifecycle (CapacityExceeded _) | ManagerLifecycle GenerationExhausted
  | InconsistentSlot | ManagerRollback _ _ => Mooncake.InternalError
  | SegmentUnavailable _ => Mooncake.UnavailableInCurrentStatus
  | ManagerSegmentState (OwnerMismatch _ _ _) => Mooncake.InvalidParams
  | ManagerSegmentState (StateNotFound i) =>
      if segment_is_nil i then Mooncake.InvalidParams else Mooncake.SegmentNotFound
  | ManagerSegmentState (StillAccepting _) | ManagerSegmentState (Busy _ _) =>
      Mooncake.UnavailableInCurrentStatus
  | ManagerAttach (ConflictingSegmentId _) => Mooncake.SegmentAlreadyExists
  | ManagerAttach _ | ActiveRemountConflict => Mooncake.InvalidParams
  end.

Definition mount_segment_error (e : ClientManagerError) : Mooncake.ErrorCode :=
  match e with
  | ActiveRemountConflict | ManagerAttach (ConflictingSegmentId _) => Mooncake.SegmentAlreadyExists
  | e => client_manager_error e
  end.

Definition client_lifecycle_error (e : ClientLifecycleError) : Mooncake.ErrorCode :=
  client_manager_error (ManagerLifecycle e).

(** ** Batches *)

Definition batch_error {T} (n : nat) (e : Mooncake.ErrorCode) : list (res Mooncake.ErrorCode T) :=
  replicate n (Err e).

Definition only_item {T} (l : list (res Mooncake.ErrorCode T)) : res Mooncake.ErrorCode T :=
  match l with [x] => x | _ => Err Mooncake.InternalError end.

(** [i64::try_from]. *)
Definition usize_to_i64 (n : nat) : res Mooncake.ErrorCode Z :=
  if N.of_nat n <? 2 ^ 63 then Ok (Z.of_nat n) else Err Mooncake.InternalError.

Definition mutation_maintenance_budget (n : nat) : CollectBudget :=
  let b := CollectBudget_default in
  mkBudget (max (max_candidates b) n) (max_reclaims b) (max_empty_slots b).
