(* ===== verification/MasterBackend.v ===== *)
(** * The object backends of the master

    [src/src/server/rpc/backend.rs], [single_tenant.rs] and [multi_tenant.rs]:
    what the RPC service asks of the objects, as a class with its two instances.
    Operations take batches; those that change objects end with a bounded round
    of maintenance.  [None] is a panic outside of an item, a [Panic] in the list
    one in the item. *)
From S2P Require Import Prelude Identity ClientLifecycle Segment ByteAllocator SegmentPool Placement TenantQuota Replica ObjectTypes.
From S2P Require Import TenantRegistry CatalogState CatalogWrite CatalogCollector Eviction ObjectManager TenantManager.
From S2P Require Import GracefulUnmount ClientManager RpcRequest.

Abbreviation reply T := (res Mooncake.ErrorCode T) (only parsing).
Abbreviation batch B T := (option (list (res Mooncake.ErrorCode T) * B)) (only parsing).

Section Backend.
Context {A Alloc : Type} `{U : Upstream A Alloc}.
Local Abbreviation OM := (ObjectManager A Alloc).
Local Abbreviation TM := (TenantObjectManager A Alloc).

(** [objects] is the object manager that the backend shares with the client
    manager. *)
Class ObjectBatchBackend (B Tenant : Type) := {
  objects : B → OM;
  set_objects : OM → B → B;
  resolve_backend : string → B → reply Tenant;
  exists_batch : Tenant → list string → N → B → batch B bool;
  get_batch : Tenant → list string → N → B → batch B ObjectRead;
  start_batch : WriteMode → PutEnv → Tenant → WriteOwner → list TenantPutRequest → N → B → batch B StartedPut;
  finish_batch : bool → Tenant → list string → WriteOwner → ReplicaSelector → N → B → batch B unit;
  revoke_batch : bool → Tenant → list string → WriteOwner → ReplicaSelector → N → B → batch B unit;
  remove_keys : bool → Tenant → list string → N → bool → B → batch B unit;
  remove_pattern : bool → Tenant → option (string → bool) → N → bool → B → option (reply nat * B);
  remove_everything : bool → string → N → bool → B → option (reply nat * B);
  reconcile_objects : bool → N → CollectBudget → B → option (ObjectManagerMaintenance * B)
}.

(** The tenant is resolved once, and its error is that of every item. *)
Definition execute_batch {B Tenant T} `{ObjectBatchBackend B Tenant} (tenant_id : string) (n : nat)
    (operation : Tenant → B → batch B T) (b : B) : batch B T :=
  match resolve_backend tenant_id b with
  | Ok tenant => operation tenant b
  | Err e => Some (batch_error n e, b)
  | Panic => None
  end.

(** ** One tenant *)

Definition DEFAULT_NAMESPACE : N := 0.

(** A call on each key, its error translated. *)
Definition on_keys {E T} (f : ObjectIdentity → OM → res E T * OM) (g : E → Mooncake.ErrorCode)
    (keys : list string) : OM → list (reply T) * OM :=
  each (fun k m => let '(r, m') := f (mkObject DEFAULT_NAMESPACE k) m in (res_map_err g r, m')) keys.

(** The answer [x] of a mutation of [n] items, after maintenance. *)
Definition maintained {T} (busy : bool) (now : N) (n : nat) (x : T * OM) : option (T * OM) :=
  '(_, m) ← maintenance busy now (mutation_maintenance_budget n) x.2; Some (x.1, m).

Definition single_start (mode : WriteMode) (env : PutEnv) (o : WriteOwner) (now : N)
    (q : TenantPutRequest) (m : OM) : reply StartedPut * OM :=
  let '(r, m') := start_write mode (gate_busy env) (mkObject DEFAULT_NAMESPACE (put_key q)) o (put_plan q)
                    now (session_before env) (session_after env) m in
  (res_map_err map_manager_error r, m').

Definition single_remove_matching (busy : bool) (pattern : option (string → bool)) (now : N) (force : bool)
    (m : OM) : option (reply nat * OM) :=
  let '(n, m1) := remove_matching DEFAULT_NAMESPACE pattern now force m in
  maintained busy now n (Ok n, m1).

#[global] Instance single_tenant : ObjectBatchBackend OM unit := {
  objects m := m;
  set_objects m _ := m;
  resolve_backend _ _ := Ok tt;
  exists_batch _ keys now m :=
    Some (each (fun k m => let '(b, m') := om_exists (mkObject DEFAULT_NAMESPACE k) now m in (Ok b, m')) keys m);
  get_batch _ keys now m := Some (on_keys (fun i => om_get i now) map_lookup_error keys m);
  start_batch mode env _ o requests now m := Some (each (single_start mode env o now) requests m);
  finish_batch busy _ keys o s now m :=
    maintained busy now (length keys) (on_keys (fun i => finish_put i o s now) map_manager_error keys m);
  revoke_batch busy _ keys o s now m :=
    maintained busy now (length keys) (on_keys (fun i => revoke_put i o s now) map_manager_error keys m);
  remove_keys busy _ keys now force m :=
    let '(rs, m1) := remove_batch (map (mkObject DEFAULT_NAMESPACE) keys) now force m in
    maintained busy now (length keys) (map (res_map_err map_remove_error) rs, m1);
  remove_pattern busy _ pattern now force := single_remove_matching busy pattern now force;
  remove_everything busy _ now force := single_remove_matching busy None now force;
  reconcile_objects busy now budget m := maintenance busy now budget m
}.

(** ** Several tenants *)

Definition tenant_maintained {T} (busy : bool) (now : N) (n : nat) (x : T * TM) : option (T * TM) :=
  '(_, tm) ← tenant_maintenance busy now (mutation_maintenance_budget n) x.2; Some (x.1, tm).

Definition map_tenant_batch {T T'} (n : nat) (f : T → reply T') (x : res TenantObjectError (list T) * TM)
    : batch TM T' :=
  match x with
  | (Ok items, tm) => Some (map f items, tm)
  | (Err e, tm) => Some (batch_error n (map_tenant_error e), tm)
  | (Panic, _) => None
  end.

Definition multi_resolve (tenant_id : string) (tm : TM) : reply ResolvedTenant :=
  let? id := res_map_err (fun _ => Mooncake.InvalidParams) (TenantId_new tenant_id) in
  res_map_err map_tenant_error (resolve_tenant id tm).

Definition multi_remove_matching (busy : bool) (t : ResolvedTenant) (pattern : option (string → bool))
    (now : N) (force : bool) (tm : TM) : option (reply nat * TM) :=
  match tenant_remove_matching t pattern now force tm with
  | (Ok n, tm1) => tenant_maintained busy now n (Ok n, tm1)
  | (Err e, tm1) => Some (Err (map_tenant_error e), tm1)
  | (Panic, _) => None
  end.

#[global] Instance multi_tenant : ObjectBatchBackend TM ResolvedTenant := {
  objects tm := tm_object tm;
  set_objects m tm := with_object m tm;
  resolve_backend := multi_resolve;
  exists_batch t keys now tm := map_tenant_batch (length keys) Ok (tenant_exists_batch t keys now tm);
  get_batch t keys now tm :=
    map_tenant_batch (length keys) (res_map_err map_lookup_error) (tenant_get_batch t keys now tm);
  start_batch mode env t o requests now tm :=
    let '(l, tm') := start_write_batch env t o requests now mode tm in
    Some (map (res_map_err map_tenant_error) l, tm');
  finish_batch busy t keys o s now tm :=
    x ← map_tenant_batch (length keys) (res_map_err map_manager_error) (finish_put_batch_at t keys o s now tm);
    tenant_maintained busy now (length keys) x;
  revoke_batch busy t keys o s now tm :=
    x ← map_tenant_batch (length keys) (res_map_err map_manager_error) (revoke_put_batch t keys o s now tm);
    tenant_maintained busy now (length keys) x;
  remove_keys busy t keys now force tm :=
    x ← map_tenant_batch (length keys) (res_map_err map_remove_error) (tenant_remove_batch t keys now force tm);
    tenant_maintained busy now (length keys) x;
  remove_pattern := multi_remove_matching;
  remove_everything busy tenant_id now force tm :=
    if str_is_empty tenant_id then
      let '(n, tm1) := remove_all_tenants now force tm in tenant_maintained busy now n (Ok n, tm1)
    else match multi_resolve tenant_id tm with
    | Ok t => multi_remove_matching busy t None now force tm
    | Err e => Some (Err e, tm)
    | Panic => None
    end;
  reconcile_objects := tenant_maintenance
}.
End Backend.
