(* ===== verification/MasterService.v ===== *)
(** * The RPC service of the master

    [ObjectCatalogRpcService] of [src/src/server/rpc/mod.rs], one definition for
    each method, over either backend of [MasterBackend], and one step of the
    reconciler of [src/src/server/reconciler.rs].  The service and the client
    manager share the object manager.  A method is a function of the tick of the
    clock; what other threads do to the collector's gate meanwhile is an
    argument.  [None] is a panic; log lines are left out. *)
From S2P Require Import Prelude Identity ClientLifecycle Segment ByteAllocator SegmentPool Placement TenantQuota Replica ObjectTypes.
From S2P Require Import TenantRegistry CatalogState CatalogWrite CatalogCollector Eviction ObjectManager TenantManager.
From S2P Require Import GracefulUnmount ClientManager RpcRequest MasterBackend.

(** Whether the collector's gate is taken during the eviction of each attempt to
    place a put, and during maintenance. *)
Record Gate := mkGate { attempt_busy : nat → bool; maintenance_busy : bool }.

Definition MOONCAKE_STORE_VERSION : string := "2.0.0".
Definition DEFAULT_MASTER_VIEW_VERSION : Z := 1.

Definition and_then {E T S} (x : res E T) (f : T → res E S) : res E S := let? y := x in f y.

Section Service.
Context {A Alloc : Type} `{U : Upstream A Alloc} (cfg : ClientLifecycleConfig).
Context {B Tenant : Type} `{ObjectBatchBackend A Alloc B Tenant}.

(** The backend, the client manager without the object manager, and the permit
    of the notification that wakes the reconciler. *)
Record Service := mkService {
  sv_backend : B;
  sv_registry : RegistryState;
  sv_slots : gmap ClientId ClientMountState;
  sv_unmounts : GracefulUnmountQueue;
  sv_wake : bool;
  sv_view : Z
}.

Implicit Types (s : Service).

Definition clients s : ClientManager A Alloc :=
  mkClientManager (sv_registry s) (objects (sv_backend s)) (sv_slots s) (sv_unmounts s).

Definition with_clients (m : ClientManager A Alloc) s : Service :=
  mkService (set_objects (cm_objects m) (sv_backend s)) (cm_registry m) (cm_slots m) (graceful_unmounts m)
    (sv_wake s) (sv_view s).
Definition with_backend (b : B) s : Service :=
  mkService b (sv_registry s) (sv_slots s) (sv_unmounts s) (sv_wake s) (sv_view s).
Definition notify s : Service :=
  mkService (sv_backend s) (sv_registry s) (sv_slots s) (sv_unmounts s) true (sv_view s).

Definition service_new (b : B) (view : Z) : Service :=
  let m := cm_new (objects b) in
  mkService b (cm_registry m) (cm_slots m) (graceful_unmounts m) false view.

(** A call of the client manager and the translation of its error. *)
Definition client_call {E T} (f : act A Alloc E T) (g : E → Mooncake.ErrorCode) s
    : option (reply T * Service) :=
  match f (clients s) with
  | (Panic, _) => None
  | (r, m) => Some (res_map_err g r, with_clients m s)
  end.

Definition on_backend {T} (x : option (T * B)) s : option (T * Service) :=
  '(r, b) ← x; Some (r, with_backend b s).

Definition without_value {T} (x : reply T * Service) : reply unit * Service :=
  (res_map (fun _ => tt) x.1, x.2).

(** ** Sessions and segments *)

Definition ping (now : N) (client_id : Mooncake.Uuid) s : Mooncake.PingResponse * Service :=
  let '(o, m) := cm_heartbeat cfg (client_id_from_uuid client_id) now (clients s) in
  (Mooncake.mkPing (sv_view s)
     (match o with Alive _ => Mooncake.ClientOk | NeedRemount => Mooncake.NeedRemount end),
   with_clients m s).

Definition get_storage_config : Mooncake.GetStorageConfigResponse := Mooncake.mkStorageConfig "" false 0.

Definition service_ready : string := MOONCAKE_STORE_VERSION.

Definition rpc_mount_segment (now : N) (segment : Mooncake.Segment) (client_id : Mooncake.Uuid) s
    : option (reply unit * Service) :=
  let c := client_id_from_uuid client_id in
  match segment_spec_from_wire segment c with
  | Err e => Some (Err e, s)
  | Panic => None
  | Ok spec => without_value <$> client_call (mount_segment cfg c spec now) mount_segment_error s
  end.

Definition re_mount_segment (now : N) (segments : list Mooncake.Segment) (client_id : Mooncake.Uuid) s
    : option (reply unit * Service) :=
  let c := client_id_from_uuid client_id in
  match collect_results (fun segment => segment_spec_from_wire segment c) segments with
  | Err e => Some (Err e, s)
  | Panic => None
  | Ok specs => without_value <$> client_call (remount cfg c specs now) client_manager_error s
  end.

(** A success wakes the reconciler. *)
Definition notified {T} (x : reply T * Service) : reply T * Service :=
  match x.1 with Ok _ => (x.1, notify x.2) | _ => x end.

Definition rpc_unmount_segment (segment_id client_id : Mooncake.Uuid) s : option (reply unit * Service) :=
  (without_value ∘ notified) <$>
    client_call (unmount_segment (client_id_from_uuid client_id) (segment_id_from_uuid segment_id))
      client_manager_error s.

Definition graceful_unmount_segment (now : N) (segment_id client_id : Mooncake.Uuid) (grace_period_ms : N) s
    : option (reply unit * Service) :=
  (without_value ∘ notified) <$>
    client_call (schedule_graceful_unmount (client_id_from_uuid client_id) (segment_id_from_uuid segment_id)
                   (tick_saturating_add now grace_period_ms)) client_manager_error s.

(** ** Reads *)

(** The live replicas of a version that was read, as they are when the response
    is made. *)
Definition replica_descriptor (m : ObjectManager A Alloc) (status : Mooncake.ReplicaStatus)
    (r : ReplicaLease (Reservation Alloc)) : reply Mooncake.ReplicaDescriptor :=
  let d := owned_descriptor (om_pool m) (lease_reservation r) in
  let? v := owned_descriptor_variant d.1 d.2 in
  Ok (Mooncake.mkDescriptor (lease_id r) v status).

Definition get_replica_list_response (now : N) (m : ObjectManager A Alloc) (read : reply ObjectRead)
    : reply Mooncake.GetReplicaListResponse :=
  let? rd := read in
  let? ver := expect (versions (om_catalog m) !! read_version rd) in
  let view := live_iter (live_in (om_pool m)) (v_replicas ver) in
  if (length view =? 0)%nat then Err Mooncake.ObjectNotFound
  else
    let? replicas := collect_results (replica_descriptor m Mooncake.Complete) view in
    Ok (Mooncake.mkReplicaList replicas (saturating_sub (lease_expires_at rd) now) None).

Definition batch_exist_key (now : N) (keys : list string) (tenant_id : string) s : batch Service bool :=
  on_backend (execute_batch tenant_id (length keys) (fun t => exists_batch t keys now) (sv_backend s)) s.

Definition exist_key (now : N) (key tenant_id : string) s : option (reply bool * Service) :=
  '(l, s') ← on_backend (execute_batch tenant_id 1 (fun t => exists_batch t [key] now) (sv_backend s)) s;
  Some (only_item l, s').

Definition batch_get_replica_list (now : N) (keys : list string) (tenant_id : string) s
    : batch Service Mooncake.GetReplicaListResponse :=
  '(l, s') ← on_backend (execute_batch tenant_id (length keys) (fun t => get_batch t keys now) (sv_backend s)) s;
  Some (map (get_replica_list_response now (objects (sv_backend s'))) l, s').

Definition get_replica_list (now : N) (key tenant_id : string) s
    : option (reply Mooncake.GetReplicaListResponse * Service) :=
  '(l, s') ← on_backend (execute_batch tenant_id 1 (fun t => get_batch t [key] now) (sv_backend s)) s;
  Some (get_replica_list_response now (objects (sv_backend s')) (only_item l), s').

(** ** Puts *)

(** The admission of a put is that of its owner's session. *)
Definition put_env (gate : Gate) (o : WriteOwner) s : PutEnv :=
  let active := admission_is_active o (clients s) in mkPutEnv (attempt_busy gate) active active.

Definition started_descriptors (p : StartedPut) : reply (list Mooncake.ReplicaDescriptor) :=
  collect_results started_replica_descriptor (started_replicas p).

(** [put_start] and [upsert_start]. *)
Definition start_one (mode : WriteMode) (gate : Gate) (now : N) (client_id : Mooncake.Uuid) (key : string)
    (slice_length : N) (config : Mooncake.ReplicateConfig) (tenant_id : string) s
    : option (reply (list Mooncake.ReplicaDescriptor) * Service) :=
  match template_of_config config with
  | Err e => Some (Err e, s)
  | Panic => None
  | Ok template =>
      match write_admission (client_id_from_uuid client_id) (clients s) with
      | Err e => Some (Err (client_lifecycle_error e), s)
      | Panic => None
      | Ok o =>
          let requests := [mkPut key (template_plan template slice_length)] in
          '(l, s') ← on_backend (execute_batch tenant_id 1
                       (fun t => start_batch mode (put_env gate o s) t o requests now) (sv_backend s)) s;
          Some (and_then (only_item l) started_descriptors, s')
      end
  end.

Definition put_start := start_one Insert.
Definition upsert_start := start_one Upsert.

(** [batch_put_start] and [batch_upsert_start]. *)
Definition start_many (mode : WriteMode) (gate : Gate) (now : N) (client_id : Mooncake.Uuid)
    (keys : list string) (slice_lengths : list N) (config : Mooncake.ReplicateConfig) (tenant_id : string) s
    : batch Service (list Mooncake.ReplicaDescriptor) :=
  let n := length keys in
  if negb (n =? length slice_lengths)%nat then Some (batch_error n Mooncake.InvalidParams, s)
  else match template_of_config config with
  | Err e => Some (batch_error n e, s)
  | Panic => None
  | Ok template =>
      match write_admission (client_id_from_uuid client_id) (clients s) with
      | Err e => Some (batch_error n (client_lifecycle_error e), s)
      | Panic => None
      | Ok o =>
          let requests := zip_with (fun k len => mkPut k (template_plan template len)) keys slice_lengths in
          '(l, s') ← on_backend (execute_batch tenant_id n
                       (fun t => start_batch mode (put_env gate o s) t o requests now) (sv_backend s)) s;
          Some (map (fun x => and_then x started_descriptors) l, s')
      end
  end.

Definition batch_put_start := start_many Insert.
Definition batch_upsert_start := start_many Upsert.

(** The owner of the writes of a client, and its error for [n] items. *)
Definition with_owner {T} (client_id : Mooncake.Uuid) (on_error : Mooncake.ErrorCode → T)
    (f : WriteOwner → option (T * Service)) s : option (T * Service) :=
  match write_owner (client_id_from_uuid client_id) (clients s) with
  | Err e => Some (on_error (client_lifecycle_error e), s)
  | Panic => None
  | Ok o => f o
  end.

Definition with_selector {T} (t : Mooncake.ReplicaType) (on_error : Mooncake.ErrorCode → T)
    (f : ReplicaSelector → option (T * Service)) s : option (T * Service) :=
  match replica_selector t with
  | Err e => Some (on_error e, s)
  | Panic => None
  | Ok x => f x
  end.

Definition has_checksum (x : Mooncake.ObjectMeta) : bool :=
  match Mooncake.meta_checksum x with Some _ => true | None => false end.

(** [put_end] and [upsert_end], which are alike. *)
Definition put_end (gate : Gate) (now : N) (client_id : Mooncake.Uuid) (meta : Mooncake.ObjectMeta)
    (replica_type : Mooncake.ReplicaType) (tenant_id : string) s : option (reply unit * Service) :=
  if has_checksum meta then Some (Err Mooncake.InvalidParams, s)
  else with_selector replica_type Err (fun selector =>
    with_owner client_id Err (fun o =>
      '(l, s') ← on_backend (execute_batch tenant_id 1
                   (fun t => finish_batch (maintenance_busy gate) t [Mooncake.meta_key meta] o selector now)
                   (sv_backend s)) s;
      Some (only_item l, s')) s) s.

(** [put_revoke] and [upsert_revoke]. *)
Definition put_revoke (gate : Gate) (now : N) (client_id : Mooncake.Uuid) (key : string)
    (replica_type : Mooncake.ReplicaType) (tenant_id : string) s : option (reply unit * Service) :=
  with_selector replica_type Err (fun selector =>
    with_owner client_id Err (fun o =>
      '(l, s') ← on_backend (execute_batch tenant_id 1
                   (fun t => revoke_batch (maintenance_busy gate) t [key] o selector now) (sv_backend s)) s;
      Some (only_item l, s')) s) s.

Definition upsert_end := put_end.
Definition upsert_revoke := put_revoke.

(** The results of the items [indices], in their places. *)
Definition place_results {T} (indices : list nat) (results output : list (reply T)) : list (reply T) :=
  foldl (fun out x => <[x.1 := x.2]> out) output (zip indices results).

(** The end of a batch of puts: items with a checksum are refused. *)
Definition finish_many (gate : Gate) (now : N) (o : WriteOwner) (selector : ReplicaSelector)
    (metas : list Mooncake.ObjectMeta) (tenant_id : string) s : batch Service unit :=
  let output := batch_error (length metas) Mooncake.InvalidParams in
  let valid := filter (fun x => has_checksum x.2 = false) (imap pair metas) in
  if (length valid =? 0)%nat then Some (output, s)
  else
    let keys := map (fun x => Mooncake.meta_key x.2) valid in
    '(l, s') ← on_backend (execute_batch tenant_id (length keys)
                 (fun t => finish_batch (maintenance_busy gate) t keys o selector now) (sv_backend s)) s;
    Some (place_results (map fst valid) l output, s').

Definition batch_put_end (gate : Gate) (now : N) (client_id : Mooncake.Uuid) (metas : list Mooncake.ObjectMeta)
    (replica_type : Mooncake.ReplicaType) (tenant_id : string) s : batch Service unit :=
  let fail := batch_error (length metas) in
  with_selector replica_type fail (fun selector =>
    with_owner client_id fail (fun o => finish_many gate now o selector metas tenant_id s) s) s.

Definition batch_upsert_end (gate : Gate) (now : N) (client_id : Mooncake.Uuid)
    (metas : list Mooncake.ObjectMeta) (tenant_id : string) s : batch Service unit :=
  with_owner client_id (batch_error (length metas))
    (fun o => finish_many gate now o SelectAll metas tenant_id s) s.

Definition revoke_many (gate : Gate) (now : N) (o : WriteOwner) (selector : ReplicaSelector)
    (keys : list string) (tenant_id : string) s : batch Service unit :=
  on_backend (execute_batch tenant_id (length keys)
    (fun t => revoke_batch (maintenance_busy gate) t keys o selector now) (sv_backend s)) s.

Definition batch_put_revoke (gate : Gate) (now : N) (client_id : Mooncake.Uuid) (keys : list string)
    (replica_type : Mooncake.ReplicaType) (tenant_id : string) s : batch Service unit :=
  let fail := batch_error (length keys) in
  with_selector replica_type fail (fun selector =>
    with_owner client_id fail (fun o => revoke_many gate now o selector keys tenant_id s) s) s.

Definition batch_upsert_revoke (gate : Gate) (now : N) (client_id : Mooncake.Uuid) (keys : list string)
    (tenant_id : string) s : batch Service unit :=
  with_owner client_id (batch_error (length keys))
    (fun o => revoke_many gate now o SelectAll keys tenant_id s) s.

(** ** Removals *)

Definition rpc_batch_remove (gate : Gate) (now : N) (keys : list string) (force : bool) (tenant_id : string) s
    : batch Service unit :=
  on_backend (execute_batch tenant_id (length keys)
    (fun t => remove_keys (maintenance_busy gate) t keys now force) (sv_backend s)) s.

Definition rpc_remove (gate : Gate) (now : N) (key : string) (force : bool) (tenant_id : string) s
    : option (reply unit * Service) :=
  '(l, s') ← on_backend (execute_batch tenant_id 1
               (fun t => remove_keys (maintenance_busy gate) t [key] now force) (sv_backend s)) s;
  Some (only_item l, s').

(** [pattern] is the compiled regular expression, [None] when it does not
    compile. *)
Definition remove_by_regex (gate : Gate) (now : N) (pattern : option (string → bool)) (force : bool)
    (tenant_id : string) s : option (reply Z * Service) :=
  match pattern with
  | None => Some (Err Mooncake.InvalidParams, s)
  | Some f =>
      '(l, s') ← on_backend (execute_batch tenant_id 1 (fun t b =>
                   '(n, b') ← remove_pattern (maintenance_busy gate) t (Some f) now force b;
                   Some ([and_then n usize_to_i64], b')) (sv_backend s)) s;
      Some (only_item l, s')
  end.

(** An error is reported as no removal. *)
Definition remove_all (gate : Gate) (now : N) (force : bool) (tenant_id : string) s : option (Z * Service) :=
  '(n, s') ← on_backend (remove_everything (maintenance_busy gate) tenant_id now force (sv_backend s)) s;
  match and_then n usize_to_i64 with
  | Ok z => Some (z, s')
  | Err _ => Some (0%Z, s')
  | Panic => None
  end.

(** ** Reconciliation *)

Record ReconcileStepReport := mkStepReport {
  client_cleanup : res ClientManagerError ClientCleanupReport;
  graceful_unmount : GracefulUnmountReport;
  object_collection : ObjectManagerMaintenance
}.

(** The clock is read twice, for the clients and for the catalog. *)
Definition reconcile_once (gate : Gate) (client_now catalog_now : N) (budget : CollectBudget) s
    : option (ReconcileStepReport * Service) :=
  match run_cleanup_step cfg client_now catalog_now (clients s) with
  | (Panic, _) => None
  | (cleanup, m1) =>
      match run_graceful_unmount_step cfg client_now m1 with
      | (Ok unmounts, m2) =>
          let s2 := with_clients m2 s in
          '(objects, b) ← reconcile_objects (maintenance_busy gate) catalog_now budget (sv_backend s2);
          Some (mkStepReport cleanup unmounts objects, with_backend b s2)
      | _ => None
      end
  end.

(** [reconcile_and_log]: whether another round is to follow at once. *)
Definition reschedules (r : ReconcileStepReport) : bool :=
  let c := maintenance_catalog (object_collection r) in
  match maintenance_eviction (object_collection r) with Some x => es_active x | None => false end &&
  negb (busy c) &&
  (negb (reclaimed_objects c =? 0)%nat || negb (pruned_objects c =? 0)%nat).
End Service.

Arguments Service : clear implicits.
