(* ===== verification/MasterWorld.v ===== *)
(** * The whole master with its callers

    The client manager and the tenants over one object manager, in the steps that
    concurrent requests are made of: the calls of the client manager, and the
    steps of a tenant's calls, which stage under the admission of the owner's
    session as it is then.  A reachable state is a reachable state of the client
    manager ([ClientWorld]) and keeps the invariant of the tenants
    ([TenantInv]). *)
From stdpp Require Import relations.
From S2P Require Import Prelude Identity ClientLifecycle ClientSessions Segment ByteAllocator SegmentPool PoolView Placement.
From S2P Require Import TenantQuota Replica ObjectTypes TenantRegistry TenantSteps CatalogState CatalogBooks CatalogWrite CatalogCollector CatalogInv CatalogOps.
From S2P Require Import CatalogWorld CatalogCharges CatalogProps CatalogResources Eviction ObjectManager ManagerWorld ManagerProps.
From S2P Require Import TenantManager TenantWorld TenantInv TenantCalls ManagerNumbers TenantAnswers TenantProps GracefulUnmount ClientManager ClientViews ClientPool.
From S2P Require Import ClientWorld ClientMount ClientUnmount ClientCleanup ClientSteps.

(** ** What the calls of the client manager do to the catalog *)

Create HintDb tame.

Section Tame.
Context {A Alloc : Type} `{U : Upstream A Alloc} (cfg : ClientLifecycleConfig).
Implicit Types (m : ClientManager A Alloc).

Local Abbreviation cat_of m := (om_catalog (cm_objects m)).

(** Calls that leave the catalog. *)
Definition tame {E T} (f : act A Alloc E T) : Prop := ∀ m, cat_of (f m).2 = cat_of m.
Definition tame_update (f : ClientManager A Alloc → ClientManager A Alloc) : Prop :=
  ∀ m, cat_of (f m) = cat_of m.

Lemma tame_const {E T} (g : ClientManager A Alloc → res E T) : tame (fun m => (g m, m)).
Proof. by intros m. Qed.
Lemma tame_ret {E T} (x : T) : tame (ret (E := E) x).
Proof. by intros m. Qed.
Lemma tame_throw {E T} (e : E) : tame (throw (T := T) e).
Proof. by intros m. Qed.
Lemma tame_read {E T} (g : ClientManager A Alloc → T) : tame (read (E := E) g).
Proof. by intros m. Qed.
Lemma tame_of_res {E T} (r : res E T) : tame (of_res r).
Proof. by intros m. Qed.
Lemma tame_of_option {E T} (e : E) (o : option T) : tame (of_option e o).
Proof. by destruct o. Qed.
Lemma tame_update_act {E} g : tame_update g → tame (update (E := E) g).
Proof. intros Hg m. apply Hg. Qed.

Lemma tame_bind {E T S} (f : act A Alloc E T) (k : T → act A Alloc E S) :
  tame f → (∀ x, tame (k x)) → tame (bind f k).
Proof.
  intros Hf Hk m. unfold bind. specialize (Hf m). destruct (f m) as [[x|e|] m']; simpl in *; try done.
  by rewrite Hk.
Qed.

Lemma tame_handle {E E' T S} (f : act A Alloc E T) (k : T → act A Alloc E' S) (h : E → act A Alloc E' S) :
  tame f → (∀ x, tame (k x)) → (∀ e, tame (h e)) → tame (handle f k h).
Proof.
  intros Hf Hk Hh m. unfold handle. specialize (Hf m). destruct (f m) as [[x|e|] m']; simpl in *; try done.
  - by rewrite Hk.
  - by rewrite Hh.
Qed.

Lemma tame_map_error {E E' T} (g : E → E') (f : act A Alloc E T) : tame f → tame (map_error g f).
Proof. intros Hf m. unfold map_error. specialize (Hf m). by destruct (f m) as [[] ?]. Qed.

Lemma tame_pool_call {E T} (f : Pool A → res E T * Pool A) : tame (pool_call f).
Proof. intros m. unfold pool_call. by destruct (f _). Qed.
Lemma tame_registry_call {E T} (f : RegistryState → res E T * RegistryState) : tame (registry_call f).
Proof. intros m. unfold registry_call. by destruct (f _). Qed.
Lemma tame_segment_entry {E} h : tame (segment_entry (E := E) h).
Proof. intros m. unfold segment_entry. by destruct (_ !! _). Qed.

Lemma tame_set_slot c x : tame_update (set_slot c x).
Proof. done. Qed.
Lemma tame_queue_update g : tame_update (queue_update g).
Proof. done. Qed.
Lemma tame_drop_claims l : tame_update (drop_claims l).
Proof. done. Qed.
Lemma tame_prune c : tame_update (prune_unused_slot c).
Proof. intros m. unfold prune_unused_slot. destruct (_ !! _) as [ms|]; [|done]. by destruct (ms_session ms). Qed.

Lemma tame_with_slot {T} c (f : ClientMountState → act A Alloc ClientManagerError T) :
  (∀ ms, tame (f ms)) → tame (with_slot c f).
Proof.
  intros Hf m. unfold with_slot. set (ms := default _ _). specialize (Hf ms (slot c m)).
  assert (cat_of (slot c m) = cat_of m) as Hs by (clear; unfold slot; by destruct (cm_slots m !! c)).
  destruct (f ms (slot c m)) as [[x|e|] m']; simpl in *; rewrite ?(tame_prune c m'); congruence.
Qed.
End Tame.

#[export] Hint Resolve tame_const tame_ret tame_throw tame_read tame_of_res tame_of_option tame_update_act tame_bind
  tame_handle tame_map_error tame_pool_call tame_registry_call tame_segment_entry tame_set_slot tame_queue_update
  tame_drop_claims tame_prune tame_with_slot : tame.

(** Applies the rules of [tame] to the shape of a call. *)
Ltac tame_tac :=
  repeat first
    [ match goal with
      | |- ∀ _, _ => intro
      | |- tame (match ?x with _ => _ end) => destruct x
      | |- tame (let '_ := ?x in _) => destruct x
      end
    | solve [eauto 3 with tame]
    | apply tame_bind | apply tame_handle | apply tame_map_error | apply tame_with_slot | apply tame_update_act ].

Section Calls.
Context {A Alloc : Type} `{U : Upstream A Alloc} (cfg : ClientLifecycleConfig).
Implicit Types (m : ClientManager A Alloc).

Lemma tame_rollback c l l' : tame (A := A) (rollback (Alloc := Alloc) c l l').
Proof. unfold rollback. tame_tac. Qed.
Lemma tame_undo {T} c l l' e : tame (A := A) (undo (Alloc := Alloc) (T := T) c l l' e).
Proof. unfold undo. apply tame_bind; [apply tame_rollback|tame_tac]. Qed.
Hint Resolve tame_rollback tame_undo : tame.

(** A call that looks at the registry first. *)
Lemma tame_by_state {E T X} (g : RegistryState → X) (f : X → act A Alloc E T) :
  (∀ x, tame (f x)) → tame (fun m => f (g (cm_registry m)) m).
Proof. intros Hf m. apply Hf. Qed.

Lemma tame_rolled_back {E T} s (f : res ClientLifecycleError unit → act A Alloc E T) :
  (∀ x, tame (f x)) →
  tame (fun m => let '(x, st) := rollback_activation s (cm_registry m) in f x (with_registry st m)).
Proof. intros Hf m. destruct (rollback_activation _ _). by rewrite Hf. Qed.

Lemma tame_mount_absent c s now ms : tame (A := A) (mount_segment_absent (Alloc := Alloc) cfg c s now ms).
Proof. unfold mount_segment_absent. tame_tac. apply (tame_rolled_back _ (fun r => _)). tame_tac. Qed.

Lemma tame_mount_active c s now ms : tame (A := A) (mount_segment_active (Alloc := Alloc) cfg c s now ms).
Proof. unfold mount_segment_active. tame_tac. Qed.

Lemma tame_mount_segment c s now : tame (A := A) (mount_segment (Alloc := Alloc) cfg c s now).
Proof.
  unfold mount_segment. repeat case_match; [apply tame_throw..|]. apply tame_with_slot. intros ms m.
  destruct (registry_state _ _) as [[]|]; [apply tame_mount_active|done|done|apply tame_mount_absent].
Qed.

Lemma tame_attach_each c specs : ∀ l l', tame (A := A) (attach_each (Alloc := Alloc) c specs l l').
Proof. induction specs as [|s specs IH]; intros l l'; simpl; [apply tame_ret|]. tame_tac; apply IH. Qed.

Lemma tame_remount c specs now : tame (A := A) (remount (Alloc := Alloc) cfg c specs now).
Proof.
  unfold remount. case_match; [apply tame_throw|]. apply tame_with_slot. intros ms m. unfold remount_locked.
  destruct (registry_state _ _) as [[]|]; [|done|done|]; revert m.
  - change (tame (remount_active (Alloc := Alloc) (A := A) cfg c specs now ms)). unfold remount_active. tame_tac.
  - change (tame (remount_absent (Alloc := Alloc) (A := A) cfg c specs now)). unfold remount_absent.
    apply tame_bind; [apply tame_attach_each|]. tame_tac.
Qed.

Lemma tame_owned_segment c i h : tame (A := A) (owned_segment (Alloc := Alloc) c i h).
Proof. unfold owned_segment. tame_tac. Qed.
Hint Resolve tame_owned_segment : tame.

Lemma tame_unmount_segment c i : tame (A := A) (unmount_segment (Alloc := Alloc) c i).
Proof. unfold unmount_segment. tame_tac. Qed.

Lemma tame_schedule c i d : tame (A := A) (schedule_graceful_unmount (Alloc := Alloc) c i d).
Proof. unfold schedule_graceful_unmount. tame_tac. Qed.

Lemma tame_complete j : tame (A := A) (complete_graceful_unmount (Alloc := Alloc) j).
Proof. unfold complete_graceful_unmount. tame_tac. Qed.

Lemma tame_graceful now : tame (A := A) (run_graceful_unmount_step (Alloc := Alloc) cfg now).
Proof.
  intros m. unfold run_graceful_unmount_step. destruct (claim_due _ _ _) as [jobs q1].
  destruct (take_cancelled q1) as [n q2]. change (om_catalog (cm_objects m)) with (om_catalog (cm_objects (with_queue q2 m))).
  generalize (mkUnmountReport 0 n 0) (with_queue q2 m). clear. induction jobs as [|j jobs IH]; intros rep m; [done|].
  simpl. pose proof (tame_complete j m) as Hc. destruct (complete_graceful_unmount j m) as [[[]|e|] m1]; simpl in Hc.
  4: done. 3: destruct (queue_retry _ _ _) as [again q].
  all: rewrite IH; exact Hc.
Qed.

(** Ending sessions aborts the writes they have pending, and nothing else. *)
Definition revokes {E T} (f : act A Alloc E T) : Prop := ∀ m,
  om_catalog (cm_objects (f m).2) = om_catalog (cm_objects m) ∨
  ∃ alive owners now, om_catalog (cm_objects (f m).2) =
    (revoke_pending_owners alive owners now (om_catalog (cm_objects m))).2.

Lemma tame_detach_each l : ∀ l', tame (A := A) (detach_each (Alloc := Alloc) l l').
Proof. induction l as [|k l IH]; intros l'; simpl; [apply tame_ret|]. tame_tac; apply IH. Qed.

Lemma tame_finish_each l : ∀ n, tame (A := A) (finish_each (Alloc := Alloc) l n).
Proof. induction l as [|k l IH]; intros n; simpl; [apply tame_ret|]. tame_tac; apply IH. Qed.

Lemma tame_begin_each l reason : ∀ l', tame (A := A) (begin_each (Alloc := Alloc) l reason l').
Proof. induction l as [|k l IH]; intros l'; simpl; [apply tame_ret|]. tame_tac; apply IH. Qed.

Lemma revokes_bind {E T S} (f : act A Alloc E T) (k : T → act A Alloc E S) :
  tame f → (∀ x, revokes (k x)) → revokes (bind f k).
Proof.
  intros Hf Hk m. unfold bind. specialize (Hf m). destruct (f m) as [[x|e|] m']; simpl in *; [|by left..].
  rewrite <- Hf. apply Hk.
Qed.

Lemma revokes_cleanup_batch l now : revokes (cleanup_batch l now).
Proof.
  unfold cleanup_batch. apply revokes_bind; [apply tame_detach_each|]. intros _ m. right. unfold bind at 1.
  unfold revoke_sessions. destruct (revoke_pending_owners _ _ _ _) as [n st] eqn:Hr.
  eexists _, _, _. rewrite Hr. simpl.
  match goal with |- om_catalog (cm_objects (?f ?m).2) = _ => assert (tame f) as Hf end; [|by rewrite Hf].
  apply tame_bind; [tame_tac|]. intros x. apply tame_bind; [|intros _; apply tame_bind; [apply tame_finish_each|tame_tac]].
  apply tame_update_act. clear. intros m. revert m. induction l as [|k l IH]; intros m; [done|]. simpl.
  rewrite IH. apply tame_prune.
Qed.

Lemma revokes_drain l reason now : revokes (drain_sessions l reason now).
Proof. apply revokes_bind; [apply tame_begin_each|]. intros k. apply revokes_cleanup_batch. Qed.

Lemma revokes_cleanup cn now : revokes (run_cleanup_step cfg cn now).
Proof.
  apply revokes_bind; [|intros k; apply revokes_cleanup_batch]. intros m. by destruct (claim_due_cleanups _ _ _ _).
Qed.

(** The calls of clients on sessions and segments. *)
Definition client_op (op : cm_op) : bool :=
  match op with CFinalize _ _ _ | CObject _ => false | _ => true end.

Lemma outcome_revokes {E T} (f : act A Alloc E T) m m' :
  revokes f → outcome_of (f m) = Some m' →
  om_catalog (cm_objects m') = om_catalog (cm_objects m) ∨
  ∃ alive owners now, om_catalog (cm_objects m') =
    (revoke_pending_owners alive owners now (om_catalog (cm_objects m))).2.
Proof.
  intros Hf Ho. specialize (Hf m). unfold outcome_of in Ho. destruct (f m) as [[] m1]; by simplify_eq.
Qed.

Lemma tame_revokes {E T} (f : act A Alloc E T) : tame f → revokes f.
Proof. intros Hf m. left. apply Hf. Qed.

Lemma client_op_catalog op m m' :
  client_op op = true → cm_step cfg op m = Some m' →
  om_catalog (cm_objects m') = om_catalog (cm_objects m) ∨
  ∃ alive owners now, om_catalog (cm_objects m') =
    (revoke_pending_owners alive owners now (om_catalog (cm_objects m))).2.
Proof.
  intros Hop Hs. destruct op; try done; simpl in Hs;
    try (eapply outcome_revokes; [|exact Hs]);
    eauto using revokes_drain, revokes_cleanup, tame_revokes, tame_mount_segment, tame_remount,
      tame_unmount_segment, tame_schedule, tame_graceful.
  - left. injection Hs as <-. unfold cm_heartbeat. by destruct (heartbeat _ _ _ _).
  - left. injection Hs as <-. unfold next_graceful_unmount_deadline. by destruct (next_deadline (graceful_unmounts m)).
Qed.
End Calls.

(** ** The world *)

Section World.
Context {A Alloc : Type} `{U : Upstream A Alloc} (cfg : ClientLifecycleConfig).

Record Master := mkMaster {
  ma_clients : ClientManager A Alloc;
  ma_tenants : TenantRegistry;
  ma_guards : list (N * N)
}.

Implicit Types (w : Master) (m : ClientManager A Alloc).

Definition tenant_world w : TenantWorld A Alloc :=
  mkTenantWorld (mkTenantManager (cm_objects (ma_clients w)) (ma_tenants w)) (ma_guards w).

(** The world after a step of the tenants. *)
Definition tenants_moved m (v : TenantWorld A Alloc) : Master :=
  mkMaster (with_objects (tm_object (tw_manager v)) m) (tm_registry (tw_manager v)) (tw_guards v).

Inductive master_step : Master → Master → Prop :=
| ms_client op m m' r gs :
    client_op op = true → cm_env op m → cm_step cfg op m = Some m' →
    master_step (mkMaster m r gs) (mkMaster m' r gs)
| ms_tenants m r gs v :
    step_under (fun o => admission_is_active o m) (tenant_world (mkMaster m r gs)) v →
    master_step (mkMaster m r gs) (tenants_moved m v).

Inductive master_reachable (cid mid pid nodes : N) (conf : ObjectCatalogConfig)
    (eviction : option MemoryEvictionConfig) (tenants : TenantConfig) : Master → Prop :=
| mreached_new tm :
    pool_config_valid nodes = true → (∀ c, eviction = Some c → configured c) →
    tenant_manager_new cid mid conf eviction tenants (pool_new pid nodes) = Ok tm →
    master_reachable cid mid pid nodes conf eviction tenants
      (mkMaster (cm_new (tm_object tm)) (tm_registry tm) [])
| mreached_step w w' :
    master_reachable cid mid pid nodes conf eviction tenants w → master_step w w' →
    master_reachable cid mid pid nodes conf eviction tenants w'.

Lemma master_reachable_run cid mid pid nodes conf eviction tenants w w' :
  master_reachable cid mid pid nodes conf eviction tenants w → rtc master_step w w' →
  master_reachable cid mid pid nodes conf eviction tenants w'.
Proof. intros Hr Hs. induction Hs; [done|]. eauto using mreached_step. Qed.

(** A run of a tenant's call is a run of the master. *)
Lemma moved_run m v v' :
  rtc (step_under (fun o => admission_is_active o m)) v v' →
  rtc master_step (tenants_moved m v) (tenants_moved m v').
Proof.
  induction 1 as [|v v1 v' Hs _ IH]; [done|]. eapply rtc_l; [|exact IH].
  apply (ms_tenants (with_objects (tm_object (tw_manager v)) m)). by destruct v as [[] ?].
Qed.

Lemma moved_same w : tenants_moved (ma_clients w) (tenant_world w) = w.
Proof. by destruct w as [[] ? ?]. Qed.

Lemma tenants_run w v :
  rtc (step_under (fun o => admission_is_active o (ma_clients w))) (tenant_world w) v →
  rtc master_step w (tenants_moved (ma_clients w) v).
Proof. intros Hs%moved_run. by rewrite moved_same in Hs. Qed.
End World.

Arguments Master A Alloc : clear implicits.

(** ** Its invariant *)

Section Invariant.
Context {A Alloc : Type} `{L : UpstreamLaws A Alloc} (cfg : ClientLifecycleConfig).
Context (cid mid pid nodes : N) (conf : ObjectCatalogConfig) (eviction : option MemoryEvictionConfig).
Context (tenants : TenantConfig).
Implicit Types (w : Master A Alloc) (m : ClientManager A Alloc).

Local Abbreviation reach := (cm_reachable cfg cid pid nodes conf eviction).

Lemma finalize_reach m k b1 b2 g o' :
  reach m → manager_env (MFinalize k b1 b2 g) (cm_objects m) →
  (∀ pp, om_prepared (cm_objects m) !! k = Some pp → b2 = admission_is_active (wc_owner (pp_claim pp)) m) →
  manager_step (MFinalize k b1 b2 g) (cm_objects m) = Some o' → reach (with_objects o' m).
Proof.
  intros Hr Henv Hb Hs. apply (creach_step _ _ _ _ _ _ (CFinalize k b1 g) m); [done|done|]. simpl in Hs |- *.
  destruct (om_prepared _ !! k) as [pp|]; [|injection Hs as <-; by destruct m].
  rewrite <- (Hb pp eq_refl), Hs. done.
Qed.

Lemma object_reach m op o' :
  reach m → object_call op = true → manager_step op (cm_objects m) = Some o' → reach (with_objects o' m).
Proof.
  intros Hr Ho Hs. apply (creach_step _ _ _ _ _ _ (CObject op) m); [done|done|]. simpl. by rewrite Ho, Hs.
Qed.

(** A step of the tenants is a call of the objects of the client manager. *)
Lemma tenants_step m r gs v :
  reach m → tenant_inv cid conf (tenant_world (mkMaster m r gs)) →
  step_under (fun o => admission_is_active o m) (tenant_world (mkMaster m r gs)) v →
  reach (with_objects (tm_object (tw_manager v)) m).
Proof.
  intros Hr Hw (op & Hop & Henv & Hs).
  assert (∀ accs, reach (with_objects (with_accounts accs (cm_objects m)) m)) as Hacc.
  { intros accs. by apply (creach_step _ _ _ _ _ _ (CObject (MAccounts accs)) m). }
  assert (reach (with_objects (cm_objects m) m)) as Hsame by (by destruct m).
  destruct op as [op|a bytes x|k parts|k bytes|k|k j b1 b2| | |id policy|id]; cbn [tenant_step] in Hs.
  - cbn [tenant_world tw_manager tm_object ma_clients] in Hs. destruct (object_only op); [|by injection Hs as <-].
    destruct (manager_step op _) as [o'|] eqn:Ho; [|done]. injection Hs as <-. simpl.
    destruct op; try (eapply object_reach; [done| |exact Ho]; done).
    by eapply finalize_reach.
  - destruct (reserve_checked _ _ _ _ _) as [[] accs]; try done; injection Hs as <-; apply Hacc.
  - cbn in Hs. repeat case_match_eqn; by injection Hs as <-.
  - cbn in Hs. destruct (gs !! k) as [[a held]|]; [|by injection Hs as <-].
    destruct (guard_resize _ _ _) as [[] x]; try done; injection Hs as <-; apply Hacc.
  - cbn in Hs. destruct (gs !! k) as [[a held]|]; injection Hs as <-; [apply Hacc|done].
  - cbn [tenant_world tw_manager tm_object ma_clients tw_guards ma_guards] in Hs, Hop, Henv.
    destruct (om_prepared _ !! k) as [pp|] eqn:Hk; [|by injection Hs as <-].
    destruct (gs !! j) as [g|]; [|by injection Hs as <-].
    destruct (actual_charge_bytes pp); [|by injection Hs as <-..]. destruct (_ =? _); [|by injection Hs as <-].
    destruct (manager_step _ _) as [o'|] eqn:Ho; [|done]. injection Hs as <-.
    eapply finalize_reach; [done|exact Henv| |exact Ho]. exact Hop.
  - injection Hs as <-. apply Hacc.
  - by injection Hs as <-.
  - unfold upsert_tenant in Hs. destruct (upsert _ _ _ _ _ _) as [[] x]; try done; injection Hs as <-; apply Hacc.
  - unfold tm_delete_tenant in Hs. destruct (delete_tenant _ _ _ _ _) as [[] x]; try done; injection Hs as <-; apply Hacc.
Qed.

(** A call on sessions and segments keeps the books of the catalog. *)
Lemma client_step_booked op m m' :
  reach m → client_op op = true → cm_step cfg op m = Some m' →
  rtc b_step (books (om_catalog (cm_objects m))) (books (om_catalog (cm_objects m'))).
Proof.
  intros Hr%cm_reachable_inv Hop Hs.
  destruct (client_op_catalog cfg _ _ _ Hop Hs) as [->|(alive & owners & now & ->)]; [done|].
  apply revoke_booked. by eapply minv_inv, objects_minv.
Qed.

Lemma client_step_tenants op m m' r gs :
  reach m → reach m' → tenant_inv cid conf (tenant_world (mkMaster m r gs)) →
  client_op op = true → cm_step cfg op m = Some m' → tenant_inv cid conf (tenant_world (mkMaster m' r gs)).
Proof.
  intros Hr Hr' Hw Hop Hs. pose proof (client_step_booked _ _ _ Hr Hop Hs) as Hb.
  apply cm_reachable_inv in Hr'.
  apply (object_move cid conf (tenant_world (mkMaster m r gs)) (cm_objects m') gs Hw).
  - by eapply objects_minv.
  - exact (b_steps_policies _ _ Hb).
  - done.
  - exact (b_steps_balanced _ _ _ (tv_balanced _ _ _ Hw) Hb).
Qed.

Lemma master_new_reach tm :
  pool_config_valid nodes = true → (∀ c, eviction = Some c → configured c) →
  tenant_manager_new cid mid conf eviction tenants (pool_new pid nodes) = Ok tm → reach (cm_new (tm_object tm)).
Proof.
  intros Hn Hc. unfold tenant_manager_new. destruct (om_new _ _ _ _) as [o|e|] eqn:Ho; [|done|done]. simpl.
  destruct (registry_new _ _ _ _) as [[r accs]|e|]; [|done|done]. simpl. intros [= <-].
  by apply (object_reach (cm_new o) (MAccounts accs)); [apply creach_new| |].
Qed.

(** Every interleaving of the calls on sessions, segments, objects and tenants
    is a run of the client manager, and keeps the accounts of the tenants. *)
Lemma master_reachable_parts w :
  master_reachable cfg cid mid pid nodes conf eviction tenants w →
  reach (ma_clients w) ∧ tenant_inv cid conf (tenant_world w).
Proof.
  induction 1 as [tm Hn Hc Hm|w w' _ [Hr Hw] Hs].
  { split; [by apply master_new_reach|]. destruct tm.
    exact (tenant_new_inv _ _ _ _ _ _ _ _ Hn Hc Hm). }
  destruct Hs as [op m m' r gs Hop Henv Hs|m r gs v Hs].
  - assert (reach m') as Hr' by (by eapply creach_step). split; [done|].
    exact (client_step_tenants op m m' r gs Hr Hr' Hw Hop Hs).
  - split; [by eapply tenants_step|]. destruct Hs as (op & _ & Henv & Hs).
    pose proof (tenant_step_inv cid conf op _ Hw Henv _ Hs) as Hv. by destruct v as [[]].
Qed.
End Invariant.
