(* ===== verification/MasterRuns.v ===== *)
(** * The backends are runs of the tenants' world

    What the RPC service relies on in its object backend, as a class: every
    operation is a run of the steps of [TenantWorld], and answers every item
    while the slots have numbers left.  Both backends of [MasterBackend] are
    instances; the backend with one tenant is a world whose registry stays. *)
From stdpp Require Import relations.
From S2P Require Import Prelude Identity ClientLifecycle Segment ByteAllocator SegmentPool Placement TenantQuota Replica ObjectTypes.
From S2P Require Import TenantRegistry TenantSteps CatalogState CatalogBooks CatalogWrite CatalogCollector CatalogInv CatalogOps.
From S2P Require Import CatalogWorld CatalogProps Eviction ObjectManager ManagerWorld TenantManager TenantWorld TenantInv.
From S2P Require Import ManagerNumbers TenantCalls TenantAnswers GracefulUnmount ClientManager RpcRequest MasterBackend.

(** ** Answers in full *)

(** Replicas name the transport of their segment. *)
Definition transported (p : StartedPut) : Prop :=
  Forall (fun a => is_Some (allocated_transport a)) (started_replicas p).

Section Answers.
Context {A Alloc : Type} `{L : UpstreamLaws A Alloc} (cid : N) (conf : ObjectCatalogConfig).
Implicit Types (m : ObjectManager A Alloc) (tm : TenantObjectManager A Alloc).
Local Abbreviation world m r gs := (mkTenantWorld (mkTenantManager m r) gs).
Local Abbreviation inv := (tenant_inv cid conf).

Lemma prepare_loop_started n : ∀ retries gen busy i o plan mode pins now m pp m',
  prepare_loop n retries gen busy i o plan mode pins now m = (Ok pp, m') →
  pp_started pp = started_put (om_pool m') Memory (replicas (pp_replicas pp)).
Proof.
  assert (∀ g m, om_pool (om_clear_allocation g m) = om_pool m) as Hclear
    by (intros g m; unfold om_clear_allocation; by destruct (memory_eviction m), g).
  assert (∀ c plan m pp m1, prepare_claimed_put c plan m = (Ok pp, m1) →
    pp_started pp = started_put (om_pool m1) Memory (replicas (pp_replicas pp))) as Hcl
    by (unfold prepare_claimed_put; intros; repeat case_match_eqn; by simplify_eq).
  induction n as [|n IH]; intros retries gen busy i o plan mode pins now m pp m' Hp; cbn [prepare_loop] in Hp.
  all: destruct (begin_write_resolved _ _ _ _ _ _) as [[c|e|] st]; try done.
  all: destruct (prepare_claimed_put _ _ _) as [[pp1|[|e]|] m1] eqn:Hc; try done.
  1,3: injection Hp as <- <-; rewrite (Hcl _ _ _ _ _ Hc); destruct (retries =? 0)%nat; simpl; by rewrite Hclear.
  all: destruct (evict_after_allocation_failure _ _ _ _) as [[ev m2]|]; [|done]; destruct (negb _); try done.
  by eapply IH.
Qed.

Lemma prepare_started mode busy i o plan now m pp m' :
  prepare_write mode busy i o plan now m = (Ok pp, m') →
  pp_started pp = started_put (om_pool m') Memory (replicas (pp_replicas pp)).
Proof. unfold prepare_write. destruct (validate_plan _ _); [apply prepare_loop_started|done..]. Qed.

Lemma finalize_started b1 b2 pp g m sp m' : finalize_start_put b1 b2 pp g m = (Ok sp, m') → sp = pp_started pp.
Proof. unfold finalize_start_put. intros Hf. repeat case_match_eqn; by simplify_eq. Qed.

Lemma prepared_transported mode busy i o plan now m r gs pp m' :
  inv (world m r gs) → prepare_write mode busy i o plan now m = (Ok pp, m') → transported (pp_started pp).
Proof.
  intros Hw Hp. pose proof (prepare_run cid conf (fun _ => true) m r gs mode busy i o plan now Hw) as Hr.
  rewrite Hp in Hr. rewrite (prepare_started _ _ _ _ _ _ _ _ _ Hp). unfold transported, started_put. simpl.
  rewrite Forall_map, Forall_forall. intros l Hl. simpl.
  pose proof (mi_pool _ _ _ (tv_objects _ _ _ (or_inv _ _ _ _ _ _ _ _ Hr))) as Hpool. cbn in Hpool.
  destruct (pi_space _ _ Hpool) as [_ _ _ Hspace].
  destruct (Hspace (lease_reservation l)) as (e & -> & _); [|by eauto].
  rewrite outstanding_pushed. apply elem_of_app. left. by apply list_elem_of_fmap_2.
Qed.

Lemma started_transported env i o plan now mode m r gs sp m' :
  inv (world m r gs) → object_start_write env i o plan now mode m = (Ok sp, m') → transported sp.
Proof.
  intros Hw. unfold object_start_write, start_write.
  destruct (prepare_write _ _ _ _ _ _ _) as [[pp|e|] m1] eqn:Hp; [|done|done].
  destruct (finalize_start_put _ _ _ _ _) as [[sp'|e|] m2] eqn:Hf; try done. intros [= <- <-].
  rewrite (finalize_started _ _ _ _ _ _ _ Hf). by eapply prepared_transported.
Qed.

Lemma accounted_transported env i o plan now mode g m r gs sp m' :
  inv (world m r gs) → start_write_accounted env i o plan now mode g m = (Ok sp, m') → transported sp.
Proof.
  intros Hw. unfold start_write_accounted.
  destruct (prepare_write _ _ _ _ _ _ _) as [[pp|e|] m1] eqn:Hp; [|done|done].
  assert (∀ pp e m0 m2, abandon pp g e m0 ≠ (Ok sp, m2)) as Hab
    by (intros pp0 e m0 m2; unfold abandon; by destruct (drop_prepared _ _)).
  destruct (actual_charge_bytes pp); [|by intros ?%Hab|done].
  destruct (guard_resize _ _ _) as [[] ?]; [|by intros ?%Hab|done].
  destruct (finalize_start_put _ _ _ _ _) as [[sp'|e|] m2] eqn:Hf; try done. intros [= <- <-].
  rewrite (finalize_started _ _ _ _ _ _ _ Hf). by eapply prepared_transported.
Qed.
(** ** One answer for each item *)

Lemma length_each {X Y} (f : X → ObjectManager A Alloc → Y * ObjectManager A Alloc) l : ∀ m,
  length (each f l m).1 = length l.
Proof.
  induction l as [|x l IH]; intros m; [done|]. simpl. destruct (f x m) as [y m1]. specialize (IH m1).
  destruct (each f l m1). simpl in *. by rewrite IH.
Qed.

Lemma each_length {X Y} (f : X → ObjectManager A Alloc → Y * ObjectManager A Alloc) l m ys m' :
  each f l m = (ys, m') → length ys = length l.
Proof. intros He. pose proof (length_each f l m) as Hl. by rewrite He in Hl. Qed.

(** ** Reads *)

(** The version of a read is there. *)
Definition held_read {E} m (x : res E ObjectRead) : Prop :=
  ∀ rd, x = Ok rd → is_Some (versions (om_catalog m) !! read_version rd).

Lemma get_held i now m y m' :
  om_get i now m = (y, m') →
  held_read m' y ∧ ∀ v, is_Some (versions (om_catalog m) !! v) → is_Some (versions (om_catalog m') !! v).
Proof.
  intros Hg.
  assert (∀ v f (st : Catalog (Reservation Alloc)) v', is_Some (versions st !! v') →
    is_Some (versions (update_version v f st) !! v')) as Hup.
  { intros v f st v' Hv. simpl. destruct (decide (v = v')) as [->|Hne].
    - rewrite lookup_alter_eq. by apply fmap_is_Some.
    - by rewrite lookup_alter_ne. }
  unfold om_get, get in Hg. repeat case_match_eqn; simplify_eq/=; (split; [|by auto]); intros rd [= <-]; simpl.
  rewrite lookup_alter_eq. apply fmap_is_Some. eauto.
Qed.

Lemma each_held {X E} (f : X → ObjectManager A Alloc → res E ObjectRead * ObjectManager A Alloc) l :
  (∀ x m y m', f x m = (y, m') →
     held_read m' y ∧ ∀ v, is_Some (versions (om_catalog m) !! v) → is_Some (versions (om_catalog m') !! v)) →
  ∀ m ys m', each f l m = (ys, m') →
  Forall (held_read m') ys ∧ ∀ v, is_Some (versions (om_catalog m) !! v) → is_Some (versions (om_catalog m') !! v).
Proof.
  intros Hf. induction l as [|x l IH]; intros m ys m'; simpl; [by intros [= <- <-]|].
  destruct (f x m) as [y m1] eqn:Hx. destruct (each f l m1) as [ys1 m2] eqn:Hl. intros [= <- <-].
  destruct (Hf _ _ _ _ Hx) as [Hy Hv]. destruct (IH _ _ _ Hl) as [Hys Hv2].
  split; [|by auto]. constructor; [|done]. intros rd Hrd. by apply Hv2, Hy.
Qed.

Lemma held_map {E F} (g : E → F) m (l : list (res E ObjectRead)) :
  Forall (held_read m) l → Forall (held_read m) (map (res_map_err g) l).
Proof.
  intros Hl. rewrite Forall_map. eapply Forall_impl; [exact Hl|]. intros [] Hx rd Hrd; try done.
  apply Hx. injection Hrd as ->. done.
Qed.
End Answers.

Section Laws.
Context {A Alloc : Type} `{L : UpstreamLaws A Alloc} (cid : N) (conf : ObjectCatalogConfig).
Local Abbreviation TM := (TenantObjectManager A Alloc).

(** No item of an answer is a panic. *)
Definition answers {E X} (l : list (res E X)) : Prop := Forall (fun x => x ≠ Panic) l.

(** The answer [x] of a call on [b], where [tenants b] is the state that the
    backend stands for: a run to the state it ends in, and an answer when [need]
    holds. *)
Definition backend_ok {B Y} (tenants : B → TM) (after : WriteOwner → bool) (need : Prop) (fine : Y → Prop)
    (b : B) (x : option (Y * B)) : Prop :=
  ∀ gs, tenant_inv cid conf (mkTenantWorld (tenants b) gs) → memory_fits (tm_object (tenants b)) →
    (∀ y b', x = Some (y, b') → fine y →
       rtc (step_under after) (mkTenantWorld (tenants b) gs) (mkTenantWorld (tenants b') gs)) ∧
    (need → ∃ y b', x = Some (y, b') ∧ fine y).

Class BackendLaws {B Tenant} `{ObjectBatchBackend A Alloc B Tenant} (tenants : B → TM) := {
  known : Tenant → B → Prop;
  law_objects b : tm_object (tenants b) = objects b;
  law_set_objects m b : tenants (set_objects m b) = with_object m (tenants b);
  law_resolve id b gs : tenant_inv cid conf (mkTenantWorld (tenants b) gs) →
    match resolve_backend id b with Ok t => known t b | Err _ => True | Panic => False end;
  law_exists after t keys now b : known t b →
    backend_ok tenants after True answers b (exists_batch t keys now b);
  law_get after t keys now b : known t b →
    backend_ok tenants after True answers b (get_batch t keys now b);
  law_start after mode env t o qs now b : known t b → session_after env = after o →
    backend_ok tenants after
      (Forall (fun q => plan_numbered (put_plan q)) qs ∧ units (N.of_nat (length qs)) (objects b))
      answers b (start_batch mode env t o qs now b);
  (** one answer for each item *)
  law_exists_length t keys now b l b' : exists_batch t keys now b = Some (l, b') → length l = length keys;
  law_get_length t keys now b l b' : get_batch t keys now b = Some (l, b') → length l = length keys;
  law_start_length mode env t o qs now b l b' :
    start_batch mode env t o qs now b = Some (l, b') → length l = length qs;
  law_finish_length busy t keys o s now b l b' :
    finish_batch busy t keys o s now b = Some (l, b') → length l = length keys;
  law_revoke_length busy t keys o s now b l b' :
    revoke_batch busy t keys o s now b = Some (l, b') → length l = length keys;
  law_remove_length busy t keys now force b l b' :
    remove_keys busy t keys now force b = Some (l, b') → length l = length keys;
  law_reads t keys now b l b' : get_batch t keys now b = Some (l, b') → Forall (held_read (objects b')) l;
  law_started mode env t o qs now b l b' gs :
    known t b → tenant_inv cid conf (mkTenantWorld (tenants b) gs) → memory_fits (objects b) →
    start_batch mode env t o qs now b = Some (l, b') → answers l →
    Forall (fun x => ∀ p, x = Ok p → transported p) l;
  law_finish after busy t keys o s now b : known t b →
    backend_ok tenants after (units (N.of_nat (length keys)) (objects b)) answers b
      (finish_batch busy t keys o s now b);
  law_revoke after busy t keys o s now b : known t b →
    backend_ok tenants after True answers b (revoke_batch busy t keys o s now b);
  law_remove after busy t keys now force b : known t b →
    backend_ok tenants after True answers b (remove_keys busy t keys now force b);
  law_remove_pattern after busy t pattern now force b : known t b →
    backend_ok tenants after True (fun x => x ≠ Panic) b (remove_pattern busy t pattern now force b);
  law_remove_everything after busy id now force b :
    backend_ok tenants after True (fun x => x ≠ Panic) b (remove_everything busy id now force b);
  law_reconcile after busy now budget b gs :
    tenant_inv cid conf (mkTenantWorld (tenants b) gs) →
    ∃ rep b', reconcile_objects busy now budget b = Some (rep, b') ∧
      rtc (step_under after) (mkTenantWorld (tenants b) gs) (mkTenantWorld (tenants b') gs)
}.
End Laws.

(** ** Several tenants *)

Section Multi.
Context {A Alloc : Type} `{L : UpstreamLaws A Alloc} (cid : N) (conf : ObjectCatalogConfig).
Context (after : WriteOwner → bool).
Local Abbreviation TM := (TenantObjectManager A Alloc).
Implicit Types (tm : TM).
Local Abbreviation ok need fine := (backend_ok cid conf (fun tm : TM => tm) after need fine).

Lemma answers_map {E F X} (g : E → F) (l : list (res E X)) : answers (map (res_map_err g) l) ↔ answers l.
Proof.
  unfold answers. rewrite Forall_map. apply Forall_proper; [|done]. by intros [].
Qed.

(** A call of the tenant object manager, and its translation. *)
Lemma call_backend {Y} (fine : Y → Prop) c tm (x : option (Y * TM)) :
  (∀ t, call_handle c = Some t → handle_known t (tm_registry tm)) → call_admission after c →
  (∀ y tm', x = Some (y, tm') → fine y → run_call c tm = Some tm') →
  (∀ tm', run_call c tm = Some tm' → ∃ y, x = Some (y, tm') ∧ fine y) →
  ok (call_numbered c (tm_object tm)) fine tm x.
Proof.
  intros Hk Ha Hr Ht gs Hw Hf. split.
  - intros y tm' Hx Hy. eapply call_steps; eauto.
  - intros Hn. destruct (call_total cid conf after c tm gs Hw Hf Hk Hn) as [tm' Hc].
    destruct (Ht tm' Hc) as (y & Hy & Hfine). eauto.
Qed.

Lemma batch_backend {E X} (g : E → Mooncake.ErrorCode) n c tm
    (x : res TenantObjectError (list (res E X)) * TM) :
  (∀ t, call_handle c = Some t → handle_known t (tm_registry tm)) → call_admission after c →
  run_call c tm = all_answered x →
  ok (call_numbered c (tm_object tm)) answers tm (map_tenant_batch n (res_map_err g) x).
Proof.
  intros Hk Ha Hc. apply call_backend; [done..| |]; rewrite Hc; clear Hc; destruct x as [[l|e|] tm1]; cbn.
  - intros y tm' [= <- <-] Hy%answers_map. by rewrite fine_panics.
  - by intros y tm' [= <- <-] _.
  - done.
  - intros tm'. destruct (existsb is_panic l) eqn:Hp; [done|]. intros [= <-].
    eexists. split; [done|]. apply answers_map. by apply existsb_is_panic.
  - intros tm' [= <-]. eexists. split; [done|]. unfold batch_error. by apply Forall_replicate.
  - done.
Qed.

(** The maintenance that ends a mutation, for [n] items. *)
Lemma maintained_ok {Y} (fine : Y → Prop) need busy now (n : Y → option nat) tm (x : option (Y * TM)) :
  ok need fine tm x →
  ok need fine tm (y ← x; match n y.1 with Some k => tenant_maintained busy now k y | None => Some y end).
Proof.
  intros Hx gs Hw Hf. destruct (Hx gs Hw Hf) as [Hr Ht]. clear Hx.
  assert (∀ y tm1, x = Some (y, tm1) → fine y → tenant_inv cid conf (mkTenantWorld tm1 gs)) as Hw1.
  { intros y tm1 Hx Hfine. eapply run_inv; [exact Hw|]. by eapply step_under_tstep, Hr. }
  split.
  - intros y tm' Hy Hfine. destruct x as [[y1 tm1]|]; [|done]. cbn in Hy.
    destruct (n y1) as [k|]; [|injection Hy as <- <-; by eapply Hr]. unfold tenant_maintained in Hy. cbn in Hy.
    destruct (tenant_maintenance _ _ _ tm1) as [[rep tm2]|] eqn:Hm; [|done]. injection Hy as <- <-.
    etrans; [by eapply Hr|]. eapply maintenance_steps; [by eapply Hw1|by rewrite Hm].
  - intros Hn. destruct (Ht Hn) as (y & tm1 & -> & Hfine). cbn.
    destruct (n y) as [k|]; [|by eauto]. unfold tenant_maintained. cbn.
    pose proof (maintenance_total cid conf busy now (mutation_maintenance_budget k) tm1 gs (Hw1 _ _ eq_refl Hfine))
      as [tm2 Hm].
    destruct (tenant_maintenance _ _ _ tm1) as [[rep tm3]|]; [|done]. cbn. eauto.
Qed.

Lemma resolve_known id tm gs :
  tenant_inv cid conf (mkTenantWorld tm gs) →
  match multi_resolve id tm with Ok t => handle_known t (tm_registry tm) | Err _ => True | Panic => False end.
Proof.
  intros Hw. unfold multi_resolve, resolve_tenant, resolve, TenantId_new.
  destruct (_ =? _)%string; [done|]. simpl. destruct (single _); [done|].
  destruct (directory _ !! id) as [a|] eqn:Ha; [|done]. simpl.
  destruct (ti_listed _ _ (tv_tenants _ _ _ Hw) id a Ha) as (g & s & He & _). cbn [tw_manager] in He.
  rewrite He. simpl. destruct (negb _); [done|]. intros a' [= <-]. by rewrite He.
Qed.

Lemma remove_matching_ok busy t pattern now force tm :
  handle_known t (tm_registry tm) →
  ok True (fun x => x ≠ Panic) tm (multi_remove_matching busy t pattern now force tm).
Proof.
  intros Hk. set (x := tenant_remove_matching t pattern now force tm).
  assert (ok True (fun x => x ≠ Panic) tm
    (match x with (Panic, _) => None | (y, tm') => Some (res_map_err map_tenant_error y, tm') end)) as Hx.
  { apply (call_backend _ (CRemoveMatching t pattern now force)); [by intros ? [= <-]|done|..].
    - intros y tm'. cbn [run_call]. fold x. unfold answered. destruct x as [[] ?]; try done; by intros [= <- <-].
    - intros tm'. cbn [run_call]. fold x. unfold answered. destruct x as [[] ?]; try done; intros [= <-]; by eexists. }
  pose proof (maintained_ok _ _ busy now (fun y => match y with Ok n => Some n | _ => None end) _ _ Hx) as Hm.
  unfold multi_remove_matching. fold x. by destruct x as [[] ?].
Qed.

Lemma multi_remove_everything busy id now force tm :
  ok True (fun x => x ≠ Panic) tm (remove_everything busy id now force tm).
Proof.
  cbn [remove_everything multi_tenant]. destruct (str_is_empty id).
  - pose proof (call_backend (fun x : reply nat => x ≠ Panic) (CRemoveAll now force) tm
      (Some (Ok (remove_all_tenants now force tm).1, (remove_all_tenants now force tm).2))) as Hx.
    destruct (remove_all_tenants now force tm) as [n tm1] eqn:Hr.
    pose proof (maintained_ok (fun x : reply nat => x ≠ Panic) True busy now
      (fun y => match y with Ok n => Some n | _ => None end) tm (Some (Ok n, tm1))) as Hm.
    apply Hm, Hx; [done..| |].
    + intros y tm' [= <- <-] _. cbn [run_call]. by rewrite Hr.
    + intros tm'. cbn [run_call]. rewrite Hr. intros [= <-]. by eexists.
  - intros gs Hw. revert gs Hw. intros gs Hw Hf. pose proof (resolve_known id tm gs Hw) as Hk.
    destruct (multi_resolve id tm) as [t|e|]; [by apply remove_matching_ok| |done].
    split; [by intros y b' [= <- <-] _|by eauto].
Qed.

Lemma multi_start mode env t o qs now tm :
  handle_known t (tm_registry tm) → session_after env = after o →
  ok (Forall (fun q => plan_numbered (put_plan q)) qs ∧ units (N.of_nat (length qs)) (tm_object tm)) answers tm
    (start_batch mode env t o qs now tm).
Proof.
  intros Hk Ha. cbn [start_batch multi_tenant].
  apply (call_backend answers (CStartBatch env t o qs now mode)); [by intros ? [= <-]|done|..];
    cbn [run_call]; destruct (start_write_batch env t o qs now mode tm) as [l tm1].
  - intros y tm' [= <- <-] Hy%answers_map. by rewrite fine_panics.
  - intros tm'. destruct (existsb is_panic l) eqn:Hp; [done|]. intros [= <-]. eexists. split; [done|].
    apply answers_map. by apply existsb_is_panic.
Qed.

Lemma multi_exists t keys now tm :
  handle_known t (tm_registry tm) → ok True answers tm (exists_batch t keys now tm).
Proof.
  intros Hk. cbn [exists_batch multi_tenant].
  apply (call_backend answers (CExistsBatch t keys now)); [by intros ? [= <-]|done|..];
    cbn [run_call]; unfold answered; destruct (tenant_exists_batch t keys now tm) as [[l|e|] tm1]; cbn; try done.
  - by intros y tm' [= <- <-] _.
  - by intros y tm' [= <- <-] _.
  - intros tm' [= <-]. eexists. split; [done|]. unfold answers. rewrite Forall_map. by apply Forall_true.
  - intros tm' [= <-]. eexists. split; [done|]. by apply Forall_replicate.
Qed.

Lemma multi_reads t keys now tm l tm' :
  get_batch t keys now tm = Some (l, tm') → Forall (held_read (tm_object tm')) l.
Proof.
  cbn [get_batch multi_tenant]. unfold tenant_get_batch, map_validated_keys, validated.
  assert (∀ (e : Mooncake.ErrorCode) n m, Forall (held_read (A := A) (Alloc := Alloc) m) (batch_error n e)) as Hfail
    by (intros e n m; by apply Forall_replicate).
  destruct (validate _ _); cbn; [|intros [= <- <-]; apply Hfail|done].
  destruct (each _ _ _) as [ys m'] eqn:He. cbn. intros [= <- <-]. apply held_map.
  eapply (each_held (fun k => om_get (mkObject (rt_namespace t) k) now) keys); [|exact He].
  intros k m y m1. apply get_held.
Qed.
End Multi.

Section MultiStarted.
Context {A Alloc : Type} `{L : UpstreamLaws A Alloc} (cid : N) (conf : ObjectCatalogConfig).
Local Abbreviation OM := (ObjectManager A Alloc).
Implicit Types (tm : TenantObjectManager A Alloc) (m : OM).
Local Abbreviation world m r gs := (mkTenantWorld (mkTenantManager m r) gs).

(** The puts that an answer reports have the transport of their replicas. *)
Definition puts_transported {E} (l : list (res E StartedPut)) : Prop :=
  Forall (fun x => ∀ p, x = Ok p → transported p) l.

Lemma puts_map {E F} (g : E → F) (l : list (res E StartedPut)) :
  puts_transported l → puts_transported (map (res_map_err g) l).
Proof.
  unfold puts_transported. rewrite Forall_map. intros Hl. eapply Forall_impl; [exact Hl|].
  intros [] Hx p Hp; try done. apply Hx. injection Hp as ->. done.
Qed.

Lemma puts_failed {X E} (l : list X) (z : res E StartedPut) :
  (∀ p, z ≠ Ok p) → puts_transported (map (fun _ => z) l).
Proof. intros Hz. induction l; constructor; [|done]. by intros p ?%Hz. Qed.

Lemma items_transported env t a o now mode r gs l : ∀ m ys m',
  tenant_inv cid conf (world m r (gs ++ map (pair a) (charged l.*2))) → memory_fits m →
  each (batch_item env t a o now mode None) l m = (ys, m') → answers ys → puts_transported ys.
Proof.
  induction l as [|[q c] l IH]; intros m ys m' Hw Hfit; simpl.
  { intros [= <- <-] _. constructor. }
  destruct (batch_item _ _ _ _ _ _ _ _ m) as [y m1] eqn:Hx.
  destruct (each _ l m1) as [ys1 m2] eqn:Hl. intros [= <- <-] [Hy Hys]%Forall_cons.
  unfold batch_item in Hx. cbn [snd fst] in Hx. destruct c as [b|e|]; [| |by injection Hx as <- <-].
  - assert ((gs ++ (a, b) :: map (pair a) (charged l.*2)) !! length gs = Some (a, b)) as Hj
      by (by rewrite lookup_app_r, Nat.sub_diag).
    pose proof (accounted_run cid conf (fun _ => session_after env) env _ _ _ _ _ _ _ _ _ _ _ _ Hw Hfit eq_refl Hj Hx Hy) as Hr.
    change (charged ((q, Ok b) :: l).*2) with (b :: charged l.*2) in Hr. cbn [map] in Hr. rewrite delete_middle in Hr.
    constructor; [|eapply IH; [apply Hr|by eapply fits_run|exact Hl|done]].
    intros p ->. eapply accounted_transported; [exact Hw|exact Hx].
  - injection Hx as <- <-. constructor; [done|]. by eapply IH.
Qed.

Lemma starts_transported {X E} (f : X → OM → res E StartedPut * OM) r gs l :
  (∀ x m y m', tenant_inv cid conf (world m r gs) → memory_fits m → f x m = (y, m') → y ≠ Panic →
     (∀ p, y = Ok p → transported p) ∧ ∃ after, object_run cid conf after m m' r gs gs) →
  ∀ m ys m', tenant_inv cid conf (world m r gs) → memory_fits m →
  each f l m = (ys, m') → answers ys → puts_transported ys.
Proof.
  intros Hf. induction l as [|x l IH]; intros m ys m' Hw Hfit; simpl; [intros [= <- <-] _; constructor|].
  destruct (f x m) as [y m1] eqn:Hx. destruct (each f l m1) as [ys1 m2] eqn:Hl. intros [= <- <-].
  intros [Hy Hys]%Forall_cons. destruct (Hf x m y m1 Hw Hfit Hx Hy) as [Hp [after Hr]].
  constructor; [done|]. eapply IH; [apply Hr|by eapply fits_run|exact Hl|done].
Qed.

Lemma start_item_transported env i o plan now mode m r gs y m' :
  tenant_inv cid conf (world m r gs) → memory_fits m →
  object_start_write env i o plan now mode m = (y, m') → y ≠ Panic →
  (∀ p, y = Ok p → transported p) ∧ ∃ after, object_run cid conf after m m' r gs gs.
Proof.
  intros Hw Hf Hs Hy. split.
  - intros p ->. by eapply started_transported.
  - exists (fun _ => session_after env). by eapply object_start_run.
Qed.

Lemma many_transported env t o qs now mode tm gs l tm' :
  tenant_inv cid conf (mkTenantWorld tm gs) → memory_fits (tm_object tm) → handle_known t (tm_registry tm) →
  start_write_many env t o qs now mode tm = (l, tm') → answers l → puts_transported l.
Proof.
  destruct tm as [m r]. intros Hw Hf Hk Hs Hl. unfold start_write_many in Hs. cbn [tm_object tm_registry] in *.
  destruct (validate t r) as [u|e|]; [|injection Hs as <- _; by apply puts_failed..]. destruct (rt_entry t) as [a|] eqn:Ha.
  - cbv zeta in Hs. set (charges := map _ qs) in *.
    pose proof (reserve_batch_run cid conf (fun _ => true) t a charges m r gs Hw (Hk a Ha)) as Hr.
    change (tm_accounts (mkTenantManager m r)) with (accounts (om_catalog m)) in Hs.
    destruct (reserve_batch _ _ _ _ _) as [[[e|]| |] accs]; [..|done|done];
      destruct (each _ _ _) as [zs m1] eqn:He; injection Hs as <- <-.
    + eapply (starts_transported (batch_item env t a o now mode (Some e)) r gs); [|apply Hr|by eapply fits_run|exact He|done].
      intros [q c] m0 y m2 Hw0 _. unfold batch_item. simpl. intros Hx Hy. split.
      * intros p ->. by destruct c.
      * exists (fun _ => true). destruct c; injection Hx as <- <-; by apply object_run_refl.
    + assert ((zip qs charges).*2 = charges) as Hc by (apply snd_zip; unfold charges; by rewrite length_map).
      rewrite <- Hc in Hr. eapply items_transported; [apply Hr|by eapply fits_run|exact He|done].
  - destruct (each _ _ _) as [zs m1] eqn:He. injection Hs as <- <-.
    eapply starts_transported; [|exact Hw|done|exact He|done].
    intros q m0 y m2 Hw0 Hf0 Hx Hy. eapply start_item_transported; [exact Hw0|exact Hf0|exact Hx|exact Hy].
Qed.

Lemma multi_started mode env t o qs now tm l tm' gs :
  handle_known t (tm_registry tm) → tenant_inv cid conf (mkTenantWorld tm gs) →
  memory_fits (tm_object tm) → start_batch mode env t o qs now tm = Some (l, tm') → answers l →
  puts_transported l.
Proof.
  intros Hk Hw Hf. cbn [start_batch multi_tenant].
  destruct (start_write_batch env t o qs now mode tm) as [zs tm1] eqn:Hs. intros [= <- <-] Hl%answers_map.
  apply puts_map. unfold start_write_batch in Hs.
  destruct qs as [|q [|q' qs]]; [by eapply many_transported| |by eapply many_transported].
  destruct (tenant_start_write _ _ _ _ _ _ _ _) as [y tm2] eqn:Hx. injection Hs as <- <-.
  apply Forall_cons in Hl as [Hy _]. constructor; [|constructor]. intros p ->.
  unfold tenant_start_write in Hx. destruct tm as [m r]. cbn [tm_object tm_registry] in *.
  destruct (validate_binding t _) as [u|e|]; [|done|done]. destruct (rt_entry t) as [a|] eqn:Ha.
  - destruct (admission_charge (put_plan q)) as [bytes|e|]; [|done|done].
    pose proof (reserve_run cid conf (fun _ => true) m r gs a bytes (rt_version t) Hw (Hk a Ha)) as Hr.
    change (tm_accounts (mkTenantManager m r)) with (accounts (om_catalog m)) in Hx.
    destruct (reserve_checked _ _ _ _ _) as [[z|e|] accs]; [|done|done].
    destruct (start_write_accounted _ _ _ _ _ _ _ _) as [y m2] eqn:Hsa. injection Hx as -> _.
    eapply accounted_transported; [apply Hr|exact Hsa].
  - destruct (object_start_write _ _ _ _ _ _ _) as [y m2] eqn:Hsa. injection Hx as -> _.
    eapply started_transported; [exact Hw|exact Hsa].
Qed.
End MultiStarted.

Section MultiLengths.
Context {A Alloc : Type} `{U : Upstream A Alloc}.
Implicit Types (tm : TenantObjectManager A Alloc).

Lemma map_batch_length {Y T} t keys (f : ObjectIdentity → ObjectManager A Alloc → Y * ObjectManager A Alloc)
    (g : Y → reply T) tm l tm' :
  map_tenant_batch (length keys) g (map_validated_keys t keys f tm) = Some (l, tm') → length l = length keys.
Proof.
  unfold map_validated_keys, validated. destruct (validate _ _); cbn; [|intros [= <- <-]; apply length_replicate|done].
  pose proof (length_each (fun k => f (mkObject (rt_namespace t) k)) keys (tm_object tm)) as Hl.
  destruct (each _ _ _) as [ys m]. cbn. intros [= <- <-]. by rewrite length_map.
Qed.

Lemma tenant_maintained_same {T} busy now n (x : option (T * TenantObjectManager A Alloc)) y tm' :
  (y' ← x; tenant_maintained busy now n y') = Some (y, tm') → ∃ tm1, x = Some (y, tm1).
Proof.
  destruct x as [[y1 tm1]|]; [|done]. cbn. unfold tenant_maintained. cbn.
  destruct (tenant_maintenance _ _ _ _) as [[]|]; [|done]. intros [= <- <-]. eauto.
Qed.

Lemma multi_start_length mode env t o qs now tm l tm' :
  start_batch mode env t o qs now tm = Some (l, tm') → length l = length qs.
Proof.
  cbn [start_batch multi_tenant]. destruct (start_write_batch env t o qs now mode tm) as [zs tm1] eqn:Hs.
  intros [= <- <-]. rewrite length_map. unfold start_write_batch in Hs.
  assert (∀ l tm1, start_write_many env t o qs now mode tm = (l, tm1) → length l = length qs) as Hmany.
  { clear. intros l tm1. unfold start_write_many. destruct (validate _ _); [|intros [= <- _]; apply length_map..].
    destruct (rt_entry t) as [a'|].
    - cbv zeta. destruct (reserve_batch _ _ _ _ _) as [[e| |] accs]; [|intros [= <- _]; apply length_map..].
      pose proof (length_each (batch_item env t a' o now mode e) (zip qs (map (fun q => admission_charge (put_plan q)) qs))
        (with_accounts accs (tm_object tm))) as Hl.
      destruct (each _ _ _) as [ys m]. intros [= <- _]. simpl in Hl. rewrite Hl, length_zip, length_map. lia.
    - pose proof (length_each (fun q => object_start_write env (mkObject (rt_namespace t) (put_key q)) o (put_plan q) now mode)
        qs (tm_object tm)) as Hl.
      destruct (each _ _ _) as [ys m]. by intros [= <- _]. }
  destruct qs as [|q [|q' qs]]; [by eapply Hmany| |by eapply Hmany].
  destruct (tenant_start_write _ _ _ _ _ _ _ _). by injection Hs as <- _.
Qed.
End MultiLengths.

Section MultiLaws.
Context {A Alloc : Type} `{L : UpstreamLaws A Alloc} (cid : N) (conf : ObjectCatalogConfig).
Local Abbreviation TM := (TenantObjectManager A Alloc).

#[global] Program Instance multi_laws : BackendLaws cid conf (fun tm : TM => tm) := {
  known t tm := handle_known t (tm_registry tm)
}.
Next Obligation. done. Qed.
Next Obligation. done. Qed.
Next Obligation. intros id tm gs. apply resolve_known. Qed.
Next Obligation. intros. by apply multi_exists. Qed.
Next Obligation.
  intros after t keys now tm Hk. by apply (batch_backend cid conf after _ _ (CGetBatch t keys now)); [intros ? [= <-]|..].
Qed.
Next Obligation. intros. by apply multi_start. Qed.
Next Obligation. intros t keys now tm l tm'. apply map_batch_length. Qed.
Next Obligation. intros t keys now tm l tm'. apply map_batch_length. Qed.
Next Obligation. intros mode env t o qs now tm l tm'. apply multi_start_length. Qed.
Next Obligation. intros busy t keys o s now tm l tm' [tm1 H]%tenant_maintained_same. by apply map_batch_length in H. Qed.
Next Obligation. intros busy t keys o s now tm l tm' [tm1 H]%tenant_maintained_same. by apply map_batch_length in H. Qed.
Next Obligation. intros busy t keys now force tm l tm' [tm1 H]%tenant_maintained_same. by apply map_batch_length in H. Qed.
Next Obligation. intros t keys now tm l tm'. apply multi_reads. Qed.
Next Obligation. intros mode env t o qs now tm l tm' gs. apply multi_started. Qed.
Next Obligation.
  intros after busy t keys o s now tm Hk.
  apply (maintained_ok cid conf after answers _ busy now (fun _ => Some (length keys))).
  by apply (batch_backend cid conf after _ _ (CFinishBatch t keys o s now)); [intros ? [= <-]|..].
Qed.
Next Obligation.
  intros after busy t keys o s now tm Hk.
  apply (maintained_ok cid conf after answers _ busy now (fun _ => Some (length keys))).
  by apply (batch_backend cid conf after _ _ (CRevokeBatch t keys o s now)); [intros ? [= <-]|..].
Qed.
Next Obligation.
  intros after busy t keys now force tm Hk.
  apply (maintained_ok cid conf after answers _ busy now (fun _ => Some (length keys))).
  by apply (batch_backend cid conf after _ _ (CRemoveBatch t keys now force)); [intros ? [= <-]|..].
Qed.
Next Obligation. intros. by apply remove_matching_ok. Qed.
Next Obligation. intros. by apply multi_remove_everything. Qed.
Next Obligation.
  intros after busy now budget tm gs Hw. cbn [reconcile_objects multi_tenant].
  destruct (maintenance_total cid conf busy now budget tm gs Hw) as [tm' Hm].
  destruct (tenant_maintenance _ _ _ tm) as [[rep tm1]|] eqn:He; [|done].
  eexists _, _. split; [done|]. eapply maintenance_steps; [done|]. by rewrite He.
Qed.
End MultiLaws.

(** ** One tenant *)

Section SingleRuns.
Context {A Alloc : Type} `{L : UpstreamLaws A Alloc} (cid : N) (conf : ObjectCatalogConfig).
Context (r : TenantRegistry) (after : WriteOwner → bool).
Local Abbreviation OM := (ObjectManager A Alloc).
Implicit Types (m : OM).
Local Abbreviation tenants := (fun m : OM => mkTenantManager m r).
Local Abbreviation ok need fine := (backend_ok cid conf tenants after need fine).
Local Abbreviation inv m gs := (tenant_inv cid conf (mkTenantWorld (mkTenantManager m r) gs)).

(** A call on each item, which answers each. *)
Definition item_runs {X E T} (f : X → OM → res E T * OM) : Prop :=
  ∀ gs x m y m', inv m gs → memory_fits m → f x m = (y, m') → y ≠ Panic →
    object_run cid conf after m m' r gs gs.

Lemma each_plain {X E T} (f : X → OM → res E T * OM) l m :
  item_runs f → (∀ gs x m, inv m gs → (f x m).1 ≠ Panic) → ok True answers m (Some (each f l m)).
Proof.
  intros Hf Ht gs Hw Hfit. cbn [tm_object] in Hfit. destruct (each f l m) as [ys m1] eqn:He.
  assert (∀ y b', Some (ys, m1) = Some (y, b') → answers y →
    rtc (step_under after) (mkTenantWorld (tenants m) gs) (mkTenantWorld (tenants b') gs)) as Hrun.
  { intros y b' [= <- <-] Hy. eapply (each_run cid conf after f (fun z => z ≠ Panic) r gs l); eauto. }
  split; [exact Hrun|]. intros _. exists ys, m1. split; [done|].
  assert (∀ m0, inv m0 gs → memory_fits m0 → answers (each f l m0).1) as Hall.
  { clear -Hf Ht. induction l as [|x l IH]; intros m0 Hw Hfit; [constructor|]. cbn [each].
    pose proof (Ht gs x m0 Hw) as Hx. destruct (f x m0) as [y m2] eqn:Hfx.
    pose proof (Hf gs x m0 y m2 Hw Hfit Hfx Hx) as Hr.
    specialize (IH m2 (or_inv _ _ _ _ _ _ _ _ Hr) (fits_run _ _ _ _ _ _ _ _ Hr Hfit)).
    destruct (each f l m2). by constructor. }
  specialize (Hall m Hw Hfit). by rewrite He in Hall.
Qed.

Lemma each_numbered {X E T} (P : X → Prop) (f : X → OM → res E T * OM) l m :
  item_runs f →
  (∀ gs x m n, P x → inv m gs → memory_fits m → units (n + 1) m → (f x m).1 ≠ Panic ∧ units n (f x m).2) →
  ok (Forall P l ∧ units (N.of_nat (length l)) m) answers m (Some (each f l m)).
Proof.
  intros Hf Ht gs Hw Hfit. cbn [tm_object] in Hfit. destruct (each f l m) as [ys m1] eqn:He. split.
  - intros y b' [= <- <-] Hy. eapply (each_run cid conf after f (fun z => z ≠ Panic) r gs l); eauto.
  - intros [Hp Hu]. exists ys, m1. split; [done|]. pose proof (each_units cid conf f r gs l) as Hall.
    replace ys with (each f l m).1 by (by rewrite He). apply Hall; [|done..].
    intros x m0 n Hin Hw0 Hf0 Hu0. 
    destruct (Ht gs x m0 n (proj1 (Forall_forall _ _) Hp x Hin) Hw0 Hf0 Hu0) as [Hx Hun].
    destruct (f x m0) as [y m2] eqn:Hfx. pose proof (Hf gs x m0 y m2 Hw0 Hf0 Hfx Hx) as Hr.
    split_and!; [done|apply Hr|by eapply fits_run|done].
Qed.

Lemma single_maintenance busy now budget m gs :
  inv m gs → ∃ rep m', maintenance busy now budget m = Some (rep, m') ∧ object_run cid conf after m m' r gs gs.
Proof.
  intros Hw. destruct (maintenance_path (pool_frame (om_pool m)) now cid conf busy budget [] m)
    as (rep & m' & Hm & _); [apply Hw|done|]. exists rep, m'. split; [exact Hm|].
  apply (object_call_run cid conf after m m' r gs (MMaintenance busy now budget [])); try done.
  cbn [manager_step]. by rewrite Hm.
Qed.

Lemma single_maintained {Y} (fine : Y → Prop) need busy now n m (x : Y * OM) :
  ok need fine m (Some x) → ok need fine m (maintained busy now n x).
Proof.
  intros Hx gs Hw Hf. destruct (Hx gs Hw Hf) as [Hr Ht]. destruct x as [y m1]. unfold maintained. cbn [fst snd].
  assert (fine y → inv m1 gs) as Hw1.
  { intros Hy. eapply run_inv; [exact Hw|]. by eapply step_under_tstep, (Hr y m1). }
  split.
  - intros y' m' Hm Hy. destruct (maintenance _ _ _ m1) as [[rep m2]|] eqn:Hm2; [|done]. injection Hm as <- <-.
    destruct (single_maintenance busy now (mutation_maintenance_budget n) m1 gs (Hw1 Hy)) as (rep' & m3 & Hm3 & Hr3).
    rewrite Hm2 in Hm3. injection Hm3 as <- <-. etrans; [by apply (Hr y m1)|]. apply Hr3.
  - intros Hn. destruct (Ht Hn) as (y' & m' & [= <- <-] & Hy).
    destruct (single_maintenance busy now (mutation_maintenance_budget n) m1 gs (Hw1 Hy)) as (rep & m2 & -> & _).
    cbn. eauto.
Qed.

(** A call of the object manager on each key, with its error translated. *)
Lemma keys_runs {E T} (f : ObjectIdentity → OM → res E T * OM) (g : E → Mooncake.ErrorCode) :
  item_runs f →
  item_runs (fun k m => let '(y, m') := f (mkObject DEFAULT_NAMESPACE k) m in (res_map_err g y, m')).
Proof.
  intros Hf gs k m y m' Hw Hfit. destruct (f _ m) as [z m1] eqn:Hz. intros [= <- <-] Hy.
  eapply Hf; [done..|exact Hz|]. by destruct z.
Qed.

Lemma keys_plain {E T} (f : ObjectIdentity → OM → res E T * OM) g keys m :
  item_runs f → (∀ gs i m, inv m gs → (f i m).1 ≠ Panic) → ok True answers m (Some (on_keys f g keys m)).
Proof.
  intros Hf Ht. apply each_plain; [by apply keys_runs|].
  intros gs k m0 Hw. specialize (Ht gs (mkObject DEFAULT_NAMESPACE k) m0 Hw). by destruct (f _ m0) as [[] ?].
Qed.

Lemma remove_batch_keys g keys now force m :
  (let '(rs, m1) := remove_batch (map (mkObject DEFAULT_NAMESPACE) keys) now force m in (map (res_map_err g) rs, m1)) =
  on_keys (fun i => om_remove i now force) g keys m.
Proof.
  revert m. unfold on_keys. induction keys as [|k keys IH]; intros m; [done|]. cbn [map remove_batch each].
  destruct (om_remove _ _ _ m) as [y m1]. specialize (IH m1).
  destruct (remove_batch _ _ _ m1) as [rs m2]. by rewrite <- IH.
Qed.

Lemma single_start_runs mode env o now : session_after env = after o → item_runs (single_start mode env o now).
Proof.
  intros Ha gs q m y m' Hw Hf. unfold single_start.
  destruct (start_write _ _ _ _ _ _ _ _ m) as [z m1] eqn:Hz. intros [= <- <-] Hy.
  eapply (object_start_run cid conf after env (mkObject DEFAULT_NAMESPACE (put_key q)) o (put_plan q) now mode m);
    [done|done|done|unfold object_start_write; by rewrite Hz|by destruct z].
Qed.

Lemma single_start_ok mode env o qs now m :
  session_after env = after o →
  ok (Forall (fun q => plan_numbered (put_plan q)) qs ∧ units (N.of_nat (length qs)) m) answers m
    (Some (each (single_start mode env o now) qs m)).
Proof.
  intros Ha. apply (each_numbered (fun q => plan_numbered (put_plan q))); [by apply single_start_runs|].
  intros gs q m0 n Hp Hw Hf Hu. set (i := mkObject DEFAULT_NAMESPACE (put_key q)).
  assert (spare 4 (om_catalog m0)) as Hsp by (eapply units_spare, Hu; lia).
  pose proof (object_start_total cid conf after env i o (put_plan q) now mode m0 r gs Hw Hf (conj Hp Hsp)) as Ht.
  pose proof (fun x m' => units_started cid conf env i o (put_plan q) now mode m0 n x m' (tv_objects _ _ _ Hw) Hu) as Hun.
  unfold object_start_write in Ht, Hun. unfold single_start. fold i.
  destruct (start_write _ _ _ _ _ _ _ _ m0) as [z m1]. cbn [fst snd] in *. split; [by destruct z|by eapply Hun].
Qed.

Lemma single_finish_ok g keys o s now m :
  ok (units (N.of_nat (length keys)) m) answers m (Some (on_keys (fun i => finish_put i o s now) g keys m)).
Proof.
  assert (item_runs (fun i => finish_put i o s now)) as Hf by (intros gs i m0 y m' Hw _; by apply finish_run).
  pose proof (each_numbered (fun _ => True) _ keys m (keys_runs _ g Hf)) as Hn.
  intros gs Hw Hfit. destruct (fun Hi => Hn Hi gs Hw Hfit) as [Hr Ht].
  - clear gs Hw Hfit. intros gs k m0 n _ Hw Hfit Hu. set (i := mkObject DEFAULT_NAMESPACE k).
    pose proof (simple_total cid conf (finish_put i o s now) (MFinish i o s now) m0 r gs Hw I
      (fun _ => conj I (units_spare _ _ (N.le_add_l 1 n) Hu)) eq_refl) as Hx.
    destruct (finish_put i o s now m0) as [y m1] eqn:Hy. split; [by destruct y|by eapply units_finish].
  - split; [exact Hr|]. intros Hu. apply Ht. split; [by apply Forall_true|done].
Qed.

Lemma single_remove_ok busy pattern now force m :
  ok True (fun x => x ≠ Panic) m (single_remove_matching busy pattern now force m).
Proof.
  unfold single_remove_matching. destruct (remove_matching _ _ _ _ m) as [n m1] eqn:Hr.
  apply (single_maintained (fun x : reply nat => x ≠ Panic)). intros gs Hw Hf. split; [|by eauto].
  intros y b' [= <- <-] _. by eapply remove_matching_run.
Qed.

Lemma on_keys_length {E T} (f : ObjectIdentity → OM → res E T * OM) g keys m l m' :
  on_keys f g keys m = (l, m') → length l = length keys.
Proof. unfold on_keys. apply each_length. Qed.

Lemma maintained_same {T} busy now n (x : T * OM) y m' : maintained busy now n x = Some (y, m') → ∃ m1, x = (y, m1).
Proof.
  unfold maintained. destruct (maintenance _ _ _ _) as [[]|]; [|done]. intros [= <- <-]. destruct x. eauto.
Qed.

Lemma single_reads keys now m l m' :
  get_batch tt keys now m = Some (l, m') → Forall (held_read m') l.
Proof.
  cbn [get_batch single_tenant]. unfold on_keys. intros [= He].
  eapply (each_held _ keys); [|exact He]. intros k m0 y m1. cbv beta. destruct (om_get _ _ m0) as [z m2] eqn:Hg.
  intros [= <- <-]. destruct (get_held _ _ _ _ _ Hg) as [Hz Hv]. split; [|done].
  intros rd Hrd. apply Hz. destruct z; by simplify_eq/=.
Qed.

Lemma single_started mode env o qs now m l m' gs :
  inv m gs → memory_fits m → start_batch mode env tt o qs now m = Some (l, m') → answers l →
  puts_transported l.
Proof.
  intros Hw Hf. cbn [start_batch single_tenant]. intros [= He].
  eapply (starts_transported cid conf (single_start mode env o now) r gs); [|exact Hw|exact Hf|exact He].
  intros q m0 y m1 Hw0 Hf0. unfold single_start.
  destruct (start_write _ _ _ _ _ _ _ _ m0) as [z m2] eqn:Hz. intros [= <- <-] Hy.
  destruct (start_item_transported cid conf env (mkObject DEFAULT_NAMESPACE (put_key q)) o (put_plan q) now mode m0 r gs
    (res_map_err ObjectError z) m2) as [Hp Hr]; [done..| |by destruct z|].
  { unfold object_start_write. by rewrite Hz. }
  split; [|done]. intros p Hzp. apply Hp. destruct z; by simplify_eq/=.
Qed.
End SingleRuns.

Section SingleLaws.
Context {A Alloc : Type} `{L : UpstreamLaws A Alloc} (cid : N) (conf : ObjectCatalogConfig) (r : TenantRegistry).
Local Abbreviation OM := (ObjectManager A Alloc).

#[global] Program Instance single_laws : BackendLaws cid conf (fun m : OM => mkTenantManager m r) := {
  known _ _ := True
}.
Next Obligation. done. Qed.
Next Obligation. done. Qed.
Next Obligation. done. Qed.
Next Obligation.
  intros after t keys now m _. apply each_plain.
  - intros gs k m0 y m' Hw _. unfold om_exists. destruct (om_get _ _ m0) as [z m1] eqn:Hz. intros [= <- <-] _.
    by eapply get_run.
  - intros gs k m0 Hw. unfold om_exists. by destruct (om_get _ _ m0).
Qed.
Next Obligation.
  intros after t keys now m _. apply keys_plain.
  - intros gs i m0 y m' Hw _ Hg _. by eapply get_run.
  - intros gs i m0 Hw. by eapply get_answers.
Qed.
Next Obligation. intros after mode env t o qs now m _ Ha. by apply single_start_ok. Qed.
Next Obligation. intros t keys now m l m' [= He]. by apply each_length in He. Qed.
Next Obligation. intros t keys now m l m' [= He]. by apply on_keys_length in He. Qed.
Next Obligation. intros mode env t o qs now m l m' [= He]. by apply each_length in He. Qed.
Next Obligation. intros busy t keys o s now m l m' [m1 He]%maintained_same. by apply on_keys_length in He. Qed.
Next Obligation. intros busy t keys o s now m l m' [m1 He]%maintained_same. by apply on_keys_length in He. Qed.
Next Obligation.
  intros busy t keys now force m l m'. cbn [remove_keys single_tenant].
  pose proof (remove_batch_keys map_remove_error keys now force m) as Hk.
  destruct (remove_batch _ _ _ _) as [rs m1]. intros [m2 He]%maintained_same.
  rewrite Hk in He. by apply on_keys_length in He.
Qed.
Next Obligation. intros t keys now m l m'. destruct t. apply single_reads. Qed.
Next Obligation. intros mode env t o qs now m l m' gs _. destruct t. apply single_started. Qed.
Next Obligation. intros. apply single_maintained, single_finish_ok. Qed.
Next Obligation.
  intros. apply single_maintained, keys_plain.
  - intros gs i m0 y m' Hw _. by apply revoke_run.
  - intros gs i m0 Hw. by eapply revoke_total.
Qed.
Next Obligation.
  intros after busy t keys now force m _. cbn [remove_keys single_tenant].
  pose proof (remove_batch_keys map_remove_error keys now force m) as Hk.
  destruct (remove_batch _ _ _ _) as [rs m1]. apply single_maintained. rewrite Hk. apply keys_plain.
  - intros gs i m0 y m' Hw _. by apply remove_run.
  - intros gs i m0 Hw. by eapply tenant_remove_total.
Qed.
Next Obligation. intros. apply single_remove_ok. Qed.
Next Obligation. intros. apply single_remove_ok. Qed.
Next Obligation.
  intros after busy now budget m gs Hw. cbn [reconcile_objects single_tenant].
  destruct (single_maintenance cid conf r after busy now budget m gs Hw) as (rep & m' & -> & Hr).
  eexists _, _. split; [done|]. apply Hr.
Qed.
End SingleLaws.
