(* ===== verification/MasterServe.v ===== *)
(** * Every remote call is a run of the master

    The requests that reach the RPC service, what each does, and the proof that
    each is a sequence of the steps of [MasterWorld], and that none panics while
    the slots have numbers left for its items. *)
From stdpp Require Import relations.
From S2P Require Import Prelude Identity ClientLifecycle ClientSessions Segment ByteAllocator SegmentPool PoolView Placement.
From S2P Require Import TenantQuota Replica ObjectTypes TenantRegistry TenantSteps CatalogState CatalogBooks CatalogWrite CatalogCollector CatalogInv CatalogOps.
From S2P Require Import CatalogWorld CatalogCharges CatalogProps CatalogResources Eviction ObjectManager ManagerWorld ManagerProps.
From S2P Require Import TenantManager TenantWorld TenantInv ManagerNumbers TenantCalls TenantAnswers GracefulUnmount ClientManager ClientViews ClientPool.
From S2P Require Import ClientWorld ClientMount ClientUnmount ClientCleanup ClientSteps.
From S2P Require Import RpcRequest MasterBackend MasterService MasterWorld MasterRuns.

(** The methods of the service, with the clock's tick and the state of the
    collector's gate, and the step of the reconciler. *)
Inductive request :=
| RPing (now : N) (client : Mooncake.Uuid)
| RMount (now : N) (segment : Mooncake.Segment) (client : Mooncake.Uuid)
| RRemount (now : N) (segments : list Mooncake.Segment) (client : Mooncake.Uuid)
| RUnmount (segment client : Mooncake.Uuid)
| RGracefulUnmount (now : N) (segment client : Mooncake.Uuid) (grace : N)
| RExist (now : N) (key tenant : string)
| RBatchExist (now : N) (keys : list string) (tenant : string)
| RGet (now : N) (key tenant : string)
| RBatchGet (now : N) (keys : list string) (tenant : string)
| RStart (mode : WriteMode) (gate : Gate) (now : N) (client : Mooncake.Uuid) (key : string) (len : N)
    (config : Mooncake.ReplicateConfig) (tenant : string)
| RBatchStart (mode : WriteMode) (gate : Gate) (now : N) (client : Mooncake.Uuid) (keys : list string)
    (lens : list N) (config : Mooncake.ReplicateConfig) (tenant : string)
| REnd (mode : WriteMode) (gate : Gate) (now : N) (client : Mooncake.Uuid) (meta : Mooncake.ObjectMeta)
    (type : Mooncake.ReplicaType) (tenant : string)
| RBatchPutEnd (gate : Gate) (now : N) (client : Mooncake.Uuid) (metas : list Mooncake.ObjectMeta)
    (type : Mooncake.ReplicaType) (tenant : string)
| RBatchUpsertEnd (gate : Gate) (now : N) (client : Mooncake.Uuid) (metas : list Mooncake.ObjectMeta)
    (tenant : string)
| RRevoke (mode : WriteMode) (gate : Gate) (now : N) (client : Mooncake.Uuid) (key : string) (type : Mooncake.ReplicaType)
    (tenant : string)
| RBatchPutRevoke (gate : Gate) (now : N) (client : Mooncake.Uuid) (keys : list string)
    (type : Mooncake.ReplicaType) (tenant : string)
| RBatchUpsertRevoke (gate : Gate) (now : N) (client : Mooncake.Uuid) (keys : list string) (tenant : string)
| RRemove (gate : Gate) (now : N) (key : string) (force : bool) (tenant : string)
| RBatchRemove (gate : Gate) (now : N) (keys : list string) (force : bool) (tenant : string)
| RRemoveByRegex (gate : Gate) (now : N) (pattern : option (string → bool)) (force : bool) (tenant : string)
| RRemoveAll (gate : Gate) (now : N) (force : bool) (tenant : string)
| RReconcile (gate : Gate) (client_now catalog_now : N) (budget : CollectBudget).

(** The answers of the service. *)
Inductive answer :=
| APing (x : Mooncake.PingResponse)
| AUnit (x : res Mooncake.ErrorCode unit)
| ABool (x : res Mooncake.ErrorCode bool)
| ACount (x : res Mooncake.ErrorCode Z)
| AReplicas (x : res Mooncake.ErrorCode Mooncake.GetReplicaListResponse)
| AStarted (x : res Mooncake.ErrorCode (list Mooncake.ReplicaDescriptor))
| AUnits (l : list (res Mooncake.ErrorCode unit))
| ABools (l : list (res Mooncake.ErrorCode bool))
| AReplicaLists (l : list (res Mooncake.ErrorCode Mooncake.GetReplicaListResponse))
| AStartedAll (l : list (res Mooncake.ErrorCode (list Mooncake.ReplicaDescriptor)))
| AStep (x : ReconcileStepReport).

(** No part of the answer is a panic. *)
Definition answer_ok (a : answer) : Prop :=
  match a with
  | APing _ | AStep _ => True
  | AUnit x => x ≠ Panic
  | ABool x => x ≠ Panic
  | ACount x => x ≠ Panic
  | AReplicas x => x ≠ Panic
  | AStarted x => x ≠ Panic
  | AUnits l => answers l
  | ABools l => answers l
  | AReplicaLists l => answers l
  | AStartedAll l => answers l
  end.

Section Serve.
Context {A Alloc : Type} `{L : UpstreamLaws A Alloc} (cfg : ClientLifecycleConfig).
Context {B Tenant : Type} `{BK : !ObjectBatchBackend (A := A) (Alloc := Alloc) B Tenant}.
Local Abbreviation Service := (MasterService.Service B).
Implicit Types (s : Service).

Definition as_answer {T} (f : T → answer) (x : option (T * Service)) : option (answer * Service) :=
  '(y, s) ← x; Some (f y, s).

Definition serve (q : request) s : option (answer * Service) :=
  match q with
  | RPing now client => Some (let '(x, s') := ping cfg now client s in (APing x, s'))
  | RMount now segment client => as_answer AUnit (rpc_mount_segment cfg now segment client s)
  | RRemount now segments client => as_answer AUnit (re_mount_segment cfg now segments client s)
  | RUnmount segment client => as_answer AUnit (rpc_unmount_segment segment client s)
  | RGracefulUnmount now segment client grace =>
      as_answer AUnit (graceful_unmount_segment now segment client grace s)
  | RExist now key tenant => as_answer ABool (exist_key now key tenant s)
  | RBatchExist now keys tenant => as_answer ABools (batch_exist_key now keys tenant s)
  | RGet now key tenant => as_answer AReplicas (get_replica_list now key tenant s)
  | RBatchGet now keys tenant => as_answer AReplicaLists (batch_get_replica_list now keys tenant s)
  | RStart mode gate now client key len config tenant =>
      as_answer AStarted (start_one mode gate now client key len config tenant s)
  | RBatchStart mode gate now client keys lens config tenant =>
      as_answer AStartedAll (start_many mode gate now client keys lens config tenant s)
  | REnd mode gate now client meta type tenant =>
      as_answer AUnit (match mode with
                       | Insert => put_end gate now client meta type tenant s
                       | Upsert => upsert_end gate now client meta type tenant s
                       end)
  | RBatchPutEnd gate now client metas type tenant =>
      as_answer AUnits (batch_put_end gate now client metas type tenant s)
  | RBatchUpsertEnd gate now client metas tenant =>
      as_answer AUnits (batch_upsert_end gate now client metas tenant s)
  | RRevoke mode gate now client key type tenant =>
      as_answer AUnit (match mode with
                       | Insert => put_revoke gate now client key type tenant s
                       | Upsert => upsert_revoke gate now client key type tenant s
                       end)
  | RBatchPutRevoke gate now client keys type tenant =>
      as_answer AUnits (batch_put_revoke gate now client keys type tenant s)
  | RBatchUpsertRevoke gate now client keys tenant =>
      as_answer AUnits (batch_upsert_revoke gate now client keys tenant s)
  | RRemove gate now key force tenant => as_answer AUnit (rpc_remove gate now key force tenant s)
  | RBatchRemove gate now keys force tenant => as_answer AUnits (rpc_batch_remove gate now keys force tenant s)
  | RRemoveByRegex gate now pattern force tenant =>
      as_answer ACount (remove_by_regex gate now pattern force tenant s)
  | RRemoveAll gate now force tenant =>
      as_answer (fun z => ACount (Ok z)) (remove_all gate now force tenant s)
  | RReconcile gate client_now catalog_now budget =>
      as_answer AStep (reconcile_once cfg gate client_now catalog_now budget s)
  end.

(** The items of a request that take numbers. *)
Definition request_items (q : request) : nat :=
  match q with
  | RStart _ _ _ _ _ _ _ _ | REnd _ _ _ _ _ _ _ => 1
  | RBatchStart _ _ _ _ keys _ _ _ => length keys
  | RBatchPutEnd _ _ _ metas _ _ | RBatchUpsertEnd _ _ _ metas _ => length metas
  | _ => 0
  end.
End Serve.

(** ** The calls as runs *)

Section Runs.
Context {A Alloc : Type} `{L : UpstreamLaws A Alloc} (cfg : ClientLifecycleConfig).
Context {B Tenant : Type} `{BK : !ObjectBatchBackend (A := A) (Alloc := Alloc) B Tenant}.
Context (cid pid nodes : N) (conf : ObjectCatalogConfig) (eviction : option MemoryEvictionConfig).
Context (tenants : B → TenantObjectManager A Alloc) {BL : BackendLaws cid conf tenants}.
Local Abbreviation Service := (MasterService.Service B).
Implicit Types (s : Service) (b : B).

(** The world of a service, with the admission guards of other calls. *)
Definition service_world s (gs : list (N * N)) : Master A Alloc :=
  mkMaster (clients s) (tm_registry (tenants (sv_backend s))) gs.

Record service_good s (gs : list (N * N)) : Prop := {
  sg_clients : cm_reachable cfg cid pid nodes conf eviction (clients s);
  sg_tenants : tenant_inv cid conf (mkTenantWorld (tenants (sv_backend s)) gs);
  sg_fits : memory_fits (objects (sv_backend s))
}.

Lemma objects_of b : objects b = tm_object (tenants b).
Proof. by rewrite (law_objects cid conf). Qed.

Lemma service_tenants s gs : tenant_world (service_world s gs) = mkTenantWorld (tenants (sv_backend s)) gs.
Proof.
  unfold tenant_world, service_world, clients. simpl. rewrite objects_of. by destruct (tenants (sv_backend s)).
Qed.

Lemma objects_set m b : objects (set_objects m b) = m.
Proof. by rewrite objects_of, (law_set_objects cid conf). Qed.

Lemma clients_with m s : clients (with_clients m s) = m.
Proof. unfold clients. simpl. rewrite objects_set. by destruct m. Qed.

Lemma world_with_clients m s gs :
  service_world (with_clients m s) gs = mkMaster m (tm_registry (tenants (sv_backend s))) gs.
Proof. unfold service_world. rewrite clients_with. simpl. by rewrite (law_set_objects cid conf). Qed.

(** What a request does: [x] is its answer and the state after it. *)
Definition served {Y} (need : Prop) (fine : Y → Prop) s (x : option (Y * Service)) : Prop :=
  ∀ gs, service_good s gs →
    (∀ y s', x = Some (y, s') → fine y → rtc (master_step cfg) (service_world s gs) (service_world s' gs)) ∧
    (need → ∃ y s', x = Some (y, s') ∧ fine y).

Lemma served_same {Y} need (fine : Y → Prop) s y : fine y → served need fine s (Some (y, s)).
Proof. intros Hy gs _. split; [by intros ? ? [= <- <-] _|eauto]. Qed.

Lemma served_weaken {Y} (need need' : Prop) (fine : Y → Prop) s x :
  (need' → need) → served need fine s x → served need' fine s x.
Proof. intros Hn Hx gs Hs. destruct (Hx gs Hs) as [Hr Ht]. split; [done|]. intros H. by apply Ht, Hn. Qed.

(** The answer is translated, and the reconciler may be woken. *)
Lemma served_fmap {Y Z} need (fine : Y → Prop) (fine' : Z → Prop) (h : Y * Service → Z * Service) s x :
  served need fine s x →
  (∀ y s', (fine y ↔ fine' (h (y, s')).1) ∧ ∀ gs, service_world (h (y, s')).2 gs = service_world s' gs) →
  served need fine' s (h <$> x).
Proof.
  intros Hx Hh gs Hs. destruct (Hx gs Hs) as [Hr Ht]. split.
  - intros z s' Hz Hfz. destruct x as [[y s1]|]; [|done]. simpl in Hz. destruct (Hh y s1) as [Hf Hw].
    injection Hz as Hz. rewrite Hz in Hf, Hw. simpl in *. rewrite Hw. apply (Hr y s1 eq_refl). by apply Hf.
  - intros Hn. destruct (Ht Hn) as (y & s1 & -> & Hy). destruct (Hh y s1) as [Hf _].
    exists (h (y, s1)).1, (h (y, s1)).2. simpl. split; [by rewrite <- surjective_pairing|by apply Hf].
Qed.

Lemma served_map {Y Z} need (fine : Y → Prop) (fine' : Z → Prop) (f : Y → Z) s x :
  served need fine s x → (∀ y, fine y ↔ fine' (f y)) → served need fine' s ('(y, s') ← x; Some (f y, s')).
Proof.
  intros Hx Hf. replace ('(y, s') ← x; Some (f y, s')) with ((fun p => (f p.1, p.2)) <$> x) by (by destruct x as [[]|]).
  by eapply served_fmap.
Qed.

Local Abbreviation under s := (fun o : WriteOwner => admission_is_active o (clients s)).

Lemma backend_moves s b gs :
  rtc (step_under (under s)) (mkTenantWorld (tenants (sv_backend s)) gs) (mkTenantWorld (tenants b) gs) →
  rtc (master_step cfg) (service_world s gs) (service_world (with_backend b s) gs).
Proof.
  intros Hr. rewrite <- service_tenants in Hr.
  pose proof (tenants_run cfg (service_world s gs) (mkTenantWorld (tenants b) gs) Hr) as Hrun.
  unfold tenants_moved in Hrun. cbn [tw_manager tw_guards] in Hrun.
  unfold service_world at 2. replace (clients (with_backend b s)) with
    (with_objects (tm_object (tenants b)) (ma_clients (service_world s gs))); [exact Hrun|].
  unfold clients. simpl. by rewrite objects_of.
Qed.

Lemma served_backend {Y} need (fine : Y → Prop) s x :
  backend_ok cid conf tenants (under s) need fine (sv_backend s) x → served need fine s (on_backend x s).
Proof.
  intros Hx gs Hs. destruct (Hx gs (sg_tenants _ _ Hs)) as [Hr Ht]; [by rewrite <- objects_of; apply Hs|]. split.
  - intros y s' Hy Hfine. destruct x as [[y1 b1]|]; [|done]. simpl in Hy. injection Hy as <- <-.
    by eapply backend_moves, Hr.
  - intros Hn. destruct (Ht Hn) as (y & b1 & -> & Hy). simpl. eauto.
Qed.

Lemma execute_ok {T} need after id n (op : Tenant → B → batch B T) b :
  (∀ t, known cid conf t b → backend_ok cid conf tenants after need answers b (op t b)) →
  backend_ok cid conf tenants after need answers b (execute_batch id n op b).
Proof.
  intros Hop gs Hw Hf. unfold execute_batch. pose proof (law_resolve cid conf id b gs Hw) as Hk.
  destruct (resolve_backend id b) as [t|e|]; [by apply Hop| |done].
  split; [by intros ? ? [= <- <-] _|]. intros _. eexists _, _. split; [done|]. by apply Forall_replicate.
Qed.

(** Calls of the client manager. *)
Lemma served_client {E T} op (f : act A Alloc E T) g s need :
  client_op op = true → cm_env op (clients s) → cm_step cfg op (clients s) = outcome_of (f (clients s)) →
  served need (fun y => y ≠ Panic) s (client_call f g s).
Proof.
  intros Hop Henv Hst gs Hs. pose proof (cm_reachable_inv _ _ _ _ _ _ _ (sg_clients _ _ Hs)) as Hi.
  pose proof (cm_step_ok cfg cid pid nodes conf eviction op _ Hi Henv) as Hok. rewrite Hst in Hok.
  unfold client_call. destruct (f (clients s)) as [y m'] eqn:Hf.
  assert (y ≠ Panic → rtc (master_step cfg) (service_world s gs) (service_world (with_clients m' s) gs)) as Hrun.
  { intros Hy. apply rtc_once. rewrite world_with_clients. apply (ms_client cfg op); [done..|].
    rewrite Hst. by destruct y. }
  destruct y as [y|e|]; [| |by destruct op].
  - split; [|by eauto]. intros ? ? [= <- <-] _. by apply Hrun.
  - split; [|by eauto]. intros ? ? [= <- <-] _. by apply Hrun.
Qed.

Lemma served_answer {Y} need (fine : Y → Prop) (f : Y → answer) s x :
  served need fine s x → (∀ y, fine y ↔ answer_ok (f y)) → served need answer_ok s (as_answer f x).
Proof. apply served_map. Qed.

(** ** Sessions and segments *)

Lemma served_ping now c s : served True answer_ok s (serve cfg (RPing now c) s).
Proof.
  intros gs Hs. cbn [serve]. unfold ping.
  destruct (cm_heartbeat cfg (client_id_from_uuid c) now (clients s)) as [o m] eqn:Hh.
  split; [|by eauto]. intros y s' [= <- <-] _. apply rtc_once. rewrite world_with_clients.
  apply (ms_client cfg (CHeartbeat (client_id_from_uuid c) now)); [done..|]. simpl. by rewrite Hh.
Qed.

Lemma spec_of_wire_owner w c sp : segment_spec_from_wire w c = Ok sp → spec_owner sp = c.
Proof.
  unfold segment_spec_from_wire. destruct (protocol_from_str _) as [p|]; [|done]. simpl.
  destruct p; try done; intros [= <-]; unfold spec_owner; simpl; by destruct (Mooncake.host_id w).
Qed.

Lemma spec_of_wire_total w c : segment_spec_from_wire w c ≠ Panic.
Proof. unfold segment_spec_from_wire. destruct (protocol_from_str _) as [p|]; [|done]. simpl. by destruct p. Qed.

Lemma specs_owner ws c sps :
  collect_results (fun w => segment_spec_from_wire w c) ws = Ok sps → Forall (fun sp => spec_owner sp = c) sps.
Proof.
  revert sps. induction ws as [|w ws IH]; intros sps; simpl; [by intros [= <-]|].
  destruct (segment_spec_from_wire w c) as [sp|e|] eqn:Hw; [|done|done]. simpl.
  destruct (collect_results _ ws) as [l|e|]; [|done|done]. simpl. intros [= <-].
  constructor; [by eapply spec_of_wire_owner|by apply IH].
Qed.

Lemma res_map_panic {E T S} (f : T → S) (x : res E T) : x ≠ Panic ↔ res_map f x ≠ Panic.
Proof. by destruct x. Qed.

Lemma served_mount now w c s : served True answer_ok s (serve cfg (RMount now w c) s).
Proof.
  cbn [serve]. apply (served_answer _ (fun y => y ≠ Panic) AUnit); [|done]. unfold rpc_mount_segment.
  pose proof (spec_of_wire_total w (client_id_from_uuid c)) as Ht.
  destruct (segment_spec_from_wire _ _) as [sp|e|]; [|by apply served_same|done].
  eapply served_fmap; [by eapply (served_client (CMount (client_id_from_uuid c) sp now))|].
  intros y s'. split; [apply res_map_panic|done].
Qed.

Lemma served_remount now ws c s : served True answer_ok s (serve cfg (RRemount now ws c) s).
Proof.
  cbn [serve]. apply (served_answer _ (fun y => y ≠ Panic) AUnit); [|done]. unfold re_mount_segment.
  assert (collect_results (fun w => segment_spec_from_wire w (client_id_from_uuid c)) ws ≠ Panic) as Ht
    by (apply collect_total, Forall_true; intros w; apply spec_of_wire_total).
  destruct (collect_results _ _) as [sps|e|] eqn:Hc; [|by apply served_same|done].
  eapply served_fmap; [eapply (served_client (CRemount (client_id_from_uuid c) sps now)); [done| |done]|].
  - by apply specs_owner in Hc.
  - intros y s'. split; [apply res_map_panic|done].
Qed.

Lemma notified_same {T} (x : reply T * Service) : (notified x).1 = x.1 ∧ ∀ gs, service_world (notified x).2 gs = service_world x.2 gs.
Proof. by destruct x as [[] ?]. Qed.

Lemma served_notified {T} need s (x : option (reply T * Service)) :
  served need (fun y => y ≠ Panic) s x →
  served need (fun y => y ≠ Panic) s ((without_value ∘ notified) <$> x).
Proof.
  intros Hx. eapply served_fmap; [exact Hx|]. intros y s'. destruct (notified_same (y, s')) as [H1 H2].
  unfold without_value, compose. simpl. rewrite H1. split; [apply res_map_panic|exact H2].
Qed.

Lemma served_unmount i c s : served True answer_ok s (serve cfg (RUnmount i c) s).
Proof.
  cbn [serve]. apply (served_answer _ (fun y => y ≠ Panic) AUnit); [|done]. apply served_notified.
  by eapply (served_client (CUnmount (client_id_from_uuid c) (segment_id_from_uuid i))).
Qed.

Lemma served_graceful now i c grace s : served True answer_ok s (serve cfg (RGracefulUnmount now i c grace) s).
Proof.
  cbn [serve]. apply (served_answer _ (fun y => y ≠ Panic) AUnit); [|done]. apply served_notified.
  by eapply (served_client (CSchedule (client_id_from_uuid c) (segment_id_from_uuid i) (tick_saturating_add now grace))).
Qed.

(** ** Objects *)

(** The answer is made from the items and the state after the call. *)
Lemma served_post {Y Z} need (fine : Y → Prop) (fine' : Z → Prop) (h : Y → Service → Z) s x :
  served need fine s x → (∀ y s', x = Some (y, s') → fine' (h y s') → fine y) →
  (∀ gs y s', service_good s gs → x = Some (y, s') → fine y → fine' (h y s')) →
  served need fine' s ('(y, s') ← x; Some (h y s', s')).
Proof.
  intros Hx Hback Hpost gs Hs. destruct (Hx gs Hs) as [Hr Ht]. split.
  - intros z s' Hz Hfz. destruct x as [[y s1]|]; [|done]. simpl in Hz. injection Hz as <- <-.
    apply (Hr y s1 eq_refl). by eapply (Hback y s1).
  - intros Hn. destruct (Ht Hn) as (y & s1 & Hxy & Hy). exists (h y s1), s1. rewrite Hxy. split; [done|].
    by eapply Hpost.
Qed.

Definition items {T} (n : nat) (x : batch Service T) : Prop := ∀ l s', x = Some (l, s') → length l = n.

Lemma execute_items {T} id n (op : Tenant → B → batch B T) s :
  (∀ t l b', op t (sv_backend s) = Some (l, b') → length l = n) →
  items n (on_backend (execute_batch id n op (sv_backend s)) s).
Proof.
  intros Hop l s'. unfold execute_batch. destruct (resolve_backend id (sv_backend s)) as [t|e|]; [| |done].
  - destruct (op t (sv_backend s)) as [[l1 b1]|] eqn:Ho; [|done]. simpl. intros [= <- <-]. by eapply Hop.
  - simpl. intros [= <- <-]. apply length_replicate.
Qed.

(** A call with one item. *)
Lemma served_only {T T'} need (f : reply T → Service → reply T') s (x : batch Service T) :
  served need answers s x → items 1 x → (∀ y s', f y s' ≠ Panic → y ≠ Panic) →
  (∀ gs y s', service_good s gs → x = Some ([y], s') → y ≠ Panic → f y s' ≠ Panic) →
  served need (fun y => y ≠ Panic) s ('(l, s') ← x; Some (f (only_item l) s', s')).
Proof.
  intros Hx Hn Hback Hpost. apply (served_post _ answers _ (fun l s' => f (only_item l) s')); [done|..].
  - intros l s' Hl Hp. pose proof (Hn l s' Hl). destruct l as [|y [|]]; try done.
    constructor; [by eapply Hback|done].
  - intros gs l s' Hs Hl Hp. pose proof (Hn l s' Hl). destruct l as [|y [|]]; try done.
    apply Forall_cons in Hp as [Hp _]. by eapply Hpost.
Qed.

Lemma served_exist now keys id s : served True answers s (batch_exist_key now keys id s).
Proof. apply served_backend, execute_ok. intros t Ht. by apply (law_exists cid conf). Qed.

Lemma served_gets now keys id s :
  served True answers s (on_backend (execute_batch id (length keys) (fun t => get_batch t keys now) (sv_backend s)) s).
Proof. apply served_backend, execute_ok. intros t Ht. by apply (law_get cid conf). Qed.

(** A live replica names the transport of its segment. *)
Lemma descriptor_total (m : ObjectManager A Alloc) st rs :
  Forall (fun r => live_in (om_pool m) (lease_reservation r) = true) rs →
  collect_results (replica_descriptor m st) rs ≠ Panic.
Proof.
  intros Hl. apply collect_total. eapply Forall_impl; [exact Hl|]. intros r Hr.
  unfold replica_descriptor, owned_descriptor, owned_descriptor_variant. simpl.
  unfold live_in, reservation_is_live in Hr. destruct (entries (om_pool m) !! _); [done|by simplify_eq/=].
Qed.

Lemma response_total now (m : ObjectManager A Alloc) (x : reply ObjectRead) :
  held_read m x → get_replica_list_response now m x ≠ Panic ↔ x ≠ Panic.
Proof.
  intros Hx. destruct x as [rd|e|]; [|done|done]. split; [done|]. intros _.
  unfold get_replica_list_response. simpl. destruct (Hx rd eq_refl) as [ver ->]. simpl.
  destruct (_ =? 0)%nat; [done|].
  pose proof (descriptor_total m Mooncake.Complete (live_iter (live_in (om_pool m)) (v_replicas ver))) as Hd.
  destruct (collect_results _ _); [done|done|]. destruct Hd; [|done].
  unfold live_iter. apply Forall_forall. intros r Hr.
  by apply list_elem_of_In, List.filter_In in Hr as [_ Hr].
Qed.

Lemma reads_held now keys id s l s' :
  on_backend (execute_batch id (length keys) (fun t => get_batch t keys now) (sv_backend s)) s = Some (l, s') →
  Forall (held_read (objects (sv_backend s'))) l.
Proof.
  unfold execute_batch. destruct (resolve_backend id (sv_backend s)) as [t|e|]; [| |done].
  - destruct (get_batch t keys now (sv_backend s)) as [[l1 b1]|] eqn:Hg; [|done]. intros [= <- <-]. simpl.
    by eapply (law_reads cid conf).
  - intros [= <- <-]. by apply Forall_replicate.
Qed.

Lemma served_get_many now keys id s : served True answers s (batch_get_replica_list now keys id s).
Proof.
  unfold batch_get_replica_list.
  apply (served_post _ answers answers (fun l s' => map (get_replica_list_response now (objects (sv_backend s'))) l));
    [apply served_gets|..].
  - intros l s' _. unfold answers. rewrite Forall_map. intros Hl.
    eapply Forall_impl; [exact Hl|]. by intros [].
  - intros gs l s' _ Hl Hok. pose proof (reads_held _ _ _ _ _ _ Hl) as Hh.
    unfold answers. rewrite Forall_map. apply Forall_forall. intros x Hx.
    apply response_total; [by apply (proj1 (Forall_forall _ _) Hh)|by apply (proj1 (Forall_forall _ _) Hok)].
Qed.

Lemma served_get_one now key id s : served True (fun x => x ≠ Panic) s (get_replica_list now key id s).
Proof.
  unfold get_replica_list.
  apply (served_only _ (fun y s' => get_replica_list_response now (objects (sv_backend s')) y)).
  - apply (served_gets now [key]).
  - apply execute_items. intros t l b'. apply (law_get_length cid conf).
  - by intros [].
  - intros gs y s' _ Hl Hy. apply (reads_held now [key]) in Hl. apply Forall_cons in Hl as [Hh _].
    by apply response_total.
Qed.

Lemma started_total p : transported p → started_descriptors p ≠ Panic.
Proof.
  intros Hp. apply collect_total. eapply Forall_impl; [exact Hp|]. intros a [t Ht].
  unfold started_replica_descriptor, owned_descriptor_variant. by rewrite Ht.
Qed.

Lemma template_numbered config template len :
  template_of_config config = Ok template → plan_numbered (template_plan template len).
Proof.
  unfold template_of_config. destruct (_ || _ || _); [done|].
  destruct (Mooncake.replica_num config =? 0); simpl; [done|]. destruct (N.ltb_spec U32_MAX (Mooncake.replica_num config)); simpl; [done|].
  repeat (destruct (negb _); simpl; [done|]). destruct (_ && _); [done|]. intros [= <-].
  unfold plan_numbered, template_plan. simpl. lia.
Qed.

Lemma template_total config : template_of_config config ≠ Panic.
Proof. unfold template_of_config. by repeat (destruct (_ || _); [done|]); destruct (_ && _). Qed.

(** The puts of a request, all under the owner's admission. *)
Lemma served_starts mode gate o id qs now s :
  served (Forall (fun q => plan_numbered (put_plan q)) qs ∧ units (N.of_nat (length qs)) (objects (sv_backend s)))
    answers s
    (on_backend (execute_batch id (length qs) (fun t => start_batch mode (put_env gate o s) t o qs now) (sv_backend s)) s).
Proof. apply served_backend, execute_ok. intros t Ht. by apply (law_start cid conf). Qed.

Lemma starts_transported_all mode gate o id qs now s gs l s' :
  service_good s gs →
  on_backend (execute_batch id (length qs) (fun t => start_batch mode (put_env gate o s) t o qs now) (sv_backend s)) s =
    Some (l, s') → answers l → Forall (fun x => ∀ p, x = Ok p → transported p) l.
Proof.
  intros Hs. unfold execute_batch. pose proof (law_resolve cid conf id _ _ (sg_tenants _ _ Hs)) as Hk.
  destruct (resolve_backend id (sv_backend s)) as [t|e|]; [| |done].
  - destruct (start_batch _ _ _ _ _ _ _) as [[l1 b1]|] eqn:Hg; [|done]. intros [= <- <-] Hl.
    eapply (law_started cid conf); [done|apply Hs|apply Hs|exact Hg|done].
  - intros [= <- <-] _. by apply Forall_replicate.
Qed.

Lemma and_then_total {E T S} (x : res E T) (f : T → res E S) :
  x ≠ Panic → (∀ y, x = Ok y → f y ≠ Panic) → and_then x f ≠ Panic.
Proof. intros Hx Hf. destruct x; [by apply Hf|done|done]. Qed.

Lemma session_calls_total c st : active_session c st ≠ Panic ∧ active_session_guard c st ≠ Panic.
Proof.
  unfold active_session_guard, active_session. split; repeat (case_match_eqn; try done; simplify_eq/=).
Qed.

Lemma served_start mode gate now c key len config id s :
  served (units 1 (objects (sv_backend s))) (fun x => x ≠ Panic) s
    (start_one mode gate now c key len config id s).
Proof.
  unfold start_one. pose proof (template_total config) as Ht.
  destruct (template_of_config config) as [tp|e|] eqn:Htp; [|by apply served_same|done].
  pose proof (proj2 (session_calls_total (client_id_from_uuid c) (cm_registry (clients s)))) as Ha.
  unfold write_admission. destruct (active_session_guard _ _) as [x|e|]; simpl; [|by apply served_same|done].
  set (o := for_session x). set (qs := [mkPut key (template_plan tp len)]).
  apply (served_weaken (Forall (fun q => plan_numbered (put_plan q)) qs ∧
    units (N.of_nat (length qs)) (objects (sv_backend s)))).
  { intros Hu. split; [|done]. constructor; [by eapply template_numbered|done]. }
  apply (served_only _ (fun y _ => and_then y started_descriptors)).
  - apply (served_starts mode gate o id qs).
  - apply execute_items. intros t l b'. apply (law_start_length cid conf).
  - by intros [].
  - intros gs y s' Hs Hl Hy. apply and_then_total; [done|]. intros p ->. apply started_total.
    eapply (starts_transported_all mode gate o id qs) in Hl; [|done|by constructor].
    apply Forall_cons in Hl as [Hp _]. by apply Hp.
Qed.

Lemma served_start_many mode gate now c keys lens config id s :
  served (units (N.of_nat (length keys)) (objects (sv_backend s))) answers s
    (start_many mode gate now c keys lens config id s).
Proof.
  assert (∀ e, answers (batch_error (T := list Mooncake.ReplicaDescriptor) (length keys) e)) as Hfail
    by (intros e; by apply Forall_replicate).
  unfold start_many. destruct (Nat.eqb_spec (length keys) (length lens)) as [Hlen|]; simpl; [|by apply served_same].
  pose proof (template_total config) as Ht.
  destruct (template_of_config config) as [tp|e|] eqn:Htp; [|by apply served_same|done].
  pose proof (proj2 (session_calls_total (client_id_from_uuid c) (cm_registry (clients s)))) as Ha.
  unfold write_admission. destruct (active_session_guard _ _) as [x|e|]; simpl; [|by apply served_same|done].
  set (o := for_session x). set (qs := zip_with _ keys lens).
  assert (length qs = length keys) as Hqs by (unfold qs; rewrite length_zip_with; lia).
  apply (served_weaken (Forall (fun q => plan_numbered (put_plan q)) qs ∧
    units (N.of_nat (length qs)) (objects (sv_backend s)))).
  { rewrite Hqs. intros Hu. split; [|done]. unfold qs. clear -Htp. revert lens.
    induction keys as [|k keys IH]; intros [|len lens]; constructor; [by eapply template_numbered|apply IH]. }
  rewrite <- Hqs.
  apply (served_post _ answers answers (fun l _ => map (fun x => and_then x started_descriptors) l)).
  - apply (served_starts mode gate o id qs).
  - intros l s' _. unfold answers. rewrite Forall_map. intros Hl. eapply Forall_impl; [exact Hl|]. by intros [].
  - intros gs l s' Hs Hl Hok. eapply (starts_transported_all mode gate o id qs) in Hl; [|done|done].
    unfold answers. rewrite Forall_map. apply Forall_forall. intros y Hy.
    apply and_then_total; [by apply (proj1 (Forall_forall _ _) Hok)|]. intros p ->. apply started_total.
    by apply (proj1 (Forall_forall _ _) Hl _ Hy).
Qed.

Lemma served_selector {T} need (fine : T → Prop) t on_error (f : ReplicaSelector → option (T * Service)) s :
  (∀ e, fine (on_error e)) → (∀ x, served need fine s (f x)) → served need fine s (with_selector t on_error f s).
Proof. intros He Hf. unfold with_selector. destruct t; simpl; auto using served_same. Qed.

Lemma served_owner {T} need (fine : T → Prop) c on_error (f : WriteOwner → option (T * Service)) s :
  (∀ e, fine (on_error e)) → (∀ o, served need fine s (f o)) → served need fine s (with_owner c on_error f s).
Proof.
  intros He Hf. unfold with_owner, write_owner.
  pose proof (proj1 (session_calls_total (client_id_from_uuid c) (cm_registry (clients s)))) as Ha.
  destruct (active_session _ _) as [x|e|]; simpl; auto using served_same. done.
Qed.

Lemma served_end gate now c meta type id s :
  served (units 1 (objects (sv_backend s))) (fun x => x ≠ Panic) s (put_end gate now c meta type id s).
Proof.
  unfold put_end. destruct (has_checksum meta); [by apply served_same|].
  apply served_selector; [done|]. intros x. apply served_owner; [done|]. intros o.
  apply (served_only _ (fun y _ => y)); [|apply execute_items; intros t l b'; apply (law_finish_length cid conf)|done|done].
  apply served_backend, execute_ok. intros t Ht.
  by apply (law_finish cid conf _ _ t [Mooncake.meta_key meta]).
Qed.

(** Results in their places. *)
Lemma place_lookup {T} (idx : list nat) : ∀ (l out : list (reply T)),
  NoDup idx → length idx = length l → Forall (fun i => (i < length out)%nat) idx →
  (∀ i, i ∉ idx → place_results idx l out !! i = out !! i) ∧
  ∀ k i x, idx !! k = Some i → l !! k = Some x → place_results idx l out !! i = Some x.
Proof.
  unfold place_results. induction idx as [|i idx IH]; intros l out Hnd Hlen Hin; [done|].
  destruct l as [|x l]; [done|]. simpl in Hlen. injection Hlen as Hlen. simpl.
  apply NoDup_cons in Hnd as [Hi Hnd]. apply Forall_cons in Hin as [Hio Hin].
  destruct (IH l (<[i := x]> out) Hnd Hlen) as [Hout Hres]; [by rewrite length_insert|]. split.
  - intros j Hj. apply not_elem_of_cons in Hj as [Hji Hj]. rewrite Hout by done. by rewrite list_lookup_insert_ne.
  - intros [|k] j y; simpl; [|apply Hres]. intros [= <-] [= <-]. rewrite Hout by done. by apply list_lookup_insert_eq.
Qed.

Lemma place_answers {T} (idx : list nat) (l out : list (reply T)) :
  NoDup idx → length idx = length l → Forall (fun i => (i < length out)%nat) idx → answers out →
  answers l ↔ answers (place_results idx l out).
Proof.
  intros Hnd Hlen Hin Hout. destruct (place_lookup idx l out Hnd Hlen Hin) as [Hother Hres].
  unfold answers in *. rewrite !Forall_lookup. rewrite Forall_lookup in Hout. split.
  - intros Hl j x Hj. destruct (decide (j ∈ idx)) as [[k Hk]%list_elem_of_lookup|Hn].
    + assert (is_Some (l !! k)) as [y Hy] by (apply lookup_lt_is_Some; rewrite <- Hlen; by eapply lookup_lt_Some).
      rewrite (Hres k j y Hk Hy) in Hj. injection Hj as <-. by eapply Hl.
    + rewrite Hother in Hj by done. by eapply Hout.
  - intros Hp k x Hk. assert (is_Some (idx !! k)) as [j Hj]
      by (apply lookup_lt_is_Some; rewrite Hlen; by eapply lookup_lt_Some).
    eapply Hp, Hres; [exact Hj|exact Hk].
Qed.

Lemma imap_pair_fst {X} (l : list X) : ∀ n, map fst (imap (fun i x => (n + i, x)%nat) l) = seq n (length l).
Proof.
  induction l as [|x l IH]; intros n; simpl; [done|]. rewrite Nat.add_0_r. f_equal. rewrite <- IH.
  f_equal. apply imap_ext. intros i y _. simpl. f_equal. lia.
Qed.

Lemma valid_indices {X} (P : nat * X → Prop) `{∀ x, Decision (P x)} (l : list X) :
  NoDup (map fst (filter P (imap pair l))) ∧
  Forall (fun i => (i < length l)%nat) (map fst (filter P (imap pair l))).
Proof.
  pose proof (imap_pair_fst l 0) as Hs. change (imap (fun i x => (0 + i, x)%nat) l) with (imap pair l) in Hs.
  assert (map fst (filter P (imap pair l)) `sublist_of` seq 0 (length l)) as Hsub
    by (rewrite <- Hs; apply fmap_sublist, sublist_filter).
  split; [eapply sublist_NoDup, Hsub; apply NoDup_seq|].
  apply Forall_forall. intros i Hi. apply list_elem_of_fmap in Hi as (y & -> & [_ Hy]%list_elem_of_filter).
  assert (y.1 ∈ seq 0 (length l)) as Hs' by (rewrite <- Hs; by apply list_elem_of_fmap_2).
  apply elem_of_seq in Hs'. lia.
Qed.

Lemma served_finish_many gate now o x metas id s :
  served (units (N.of_nat (length metas)) (objects (sv_backend s))) answers s (finish_many gate now o x metas id s).
Proof.
  unfold finish_many. set (out := batch_error (length metas) Mooncake.InvalidParams).
  assert (answers out) as Hout by (by apply Forall_replicate).
  set (valid := filter _ (imap pair metas)).
  destruct (valid_indices (fun x => has_checksum x.2 = false) metas) as [Hnd Hin].
  fold valid in Hnd, Hin.
  destruct (length valid =? 0)%nat; [by apply served_same|].
  set (keys := map (fun x => Mooncake.meta_key x.2) valid). assert (length keys = length valid) as Hk by apply length_map.
  assert (length valid <= length metas)%nat as Hle.
  { rewrite <- (length_imap pair metas). apply sublist_length, sublist_filter. }
  apply (served_weaken (units (N.of_nat (length keys)) (objects (sv_backend s)))).
  { apply units_weaken. lia. }
  assert (items (length keys) (on_backend (execute_batch id (length keys)
    (fun t => finish_batch (maintenance_busy gate) t keys o x now) (sv_backend s)) s)) as Hn
    by (apply execute_items; intros t l b'; apply (law_finish_length cid conf)).
  assert (∀ l s', on_backend (execute_batch id (length keys)
    (fun t => finish_batch (maintenance_busy gate) t keys o x now) (sv_backend s)) s = Some (l, s') →
    answers l ↔ answers (place_results (map fst valid) l out)) as Hplace.
  { intros l s' Hl. apply place_answers; [done| | |done].
    - rewrite length_map, (Hn l s' Hl), Hk. done.
    - unfold out, batch_error. by rewrite length_replicate. }
  apply (served_post _ answers answers (fun l _ => place_results (map fst valid) l out)).
  - apply served_backend, execute_ok. intros t Ht. by apply (law_finish cid conf).
  - intros l s' Hl. by apply (Hplace l s').
  - intros gs l s' _ Hl. by apply (Hplace l s').
Qed.

Lemma served_revoke gate now c key type id s :
  served True (fun x => x ≠ Panic) s (put_revoke gate now c key type id s).
Proof.
  apply served_selector; [done|]. intros x. apply served_owner; [done|]. intros o.
  apply (served_only _ (fun y _ => y)); [|apply execute_items; intros t l b'; apply (law_revoke_length cid conf)|done|done].
  apply served_backend, execute_ok. intros t Ht. by apply (law_revoke cid conf).
Qed.

Lemma served_revoke_many gate now o x keys id s : served True answers s (revoke_many gate now o x keys id s).
Proof. apply served_backend, execute_ok. intros t Ht. by apply (law_revoke cid conf). Qed.

Lemma served_removes gate now keys force id s : served True answers s (rpc_batch_remove gate now keys force id s).
Proof. apply served_backend, execute_ok. intros t Ht. by apply (law_remove cid conf). Qed.

Lemma served_remove gate now key force id s :
  served True (fun x => x ≠ Panic) s (rpc_remove gate now key force id s).
Proof.
  apply (served_only _ (fun y _ => y)); [|apply execute_items; intros t l b'; apply (law_remove_length cid conf)|done|done].
  apply (served_removes gate now [key]).
Qed.

Lemma usize_total n : usize_to_i64 n ≠ Panic.
Proof. unfold usize_to_i64. by destruct (_ <? _). Qed.

Lemma served_regex gate now pattern force id s :
  served True (fun x => x ≠ Panic) s (remove_by_regex gate now pattern force id s).
Proof.
  unfold remove_by_regex. destruct pattern as [f|]; [|by apply served_same].
  apply (served_only _ (fun y _ => y)); [| |done|done].
  - apply served_backend, execute_ok. intros t Ht gs Hw Hf.
    destruct (law_remove_pattern cid conf (under s) (maintenance_busy gate) t (Some f) now force _ Ht gs Hw Hf) as [Hr Hn].
    split.
    + intros l b'. destruct (remove_pattern _ _ _ _ _ _) as [[n b1]|]; [|done]. intros [= <- <-] Hl.
      apply (Hr n b1 eq_refl). apply Forall_cons in Hl as [Hl _]. by destruct n.
    + intros _. destruct (Hn I) as (n & b1 & -> & Hy). simpl. eexists _, _. split; [done|].
      constructor; [|done]. apply and_then_total; [done|]. intros k _. apply usize_total.
  - apply execute_items. intros t l b'. destruct (remove_pattern _ _ _ _ _ _) as [[n b1]|]; [|done]. by intros [= <- <-].
Qed.

Lemma served_remove_all gate now force id s : served True (fun _ => True) s (remove_all gate now force id s).
Proof.
  intros gs Hs. unfold remove_all.
  destruct (served_backend True (fun x => x ≠ Panic) s _
    (law_remove_everything cid conf (under s) (maintenance_busy gate) id now force (sv_backend s)) gs Hs) as [Hr Hn].
  destruct (Hn I) as (n & s1 & Hx & Hy). rewrite Hx. simpl.
  assert (and_then n usize_to_i64 ≠ Panic) as Hz by (apply and_then_total; [done|]; intros k _; apply usize_total).
  split; [|intros _; destruct (and_then n usize_to_i64); [by eauto|by eauto|done]].
  intros z s' Hz' _. destruct (and_then n usize_to_i64); [| |done]; injection Hz' as _ <-; by apply (Hr n s1).
Qed.

(** ** The reconciler *)

Lemma client_steps op m m' r gs :
  cm_reachable cfg cid pid nodes conf eviction m → tenant_inv cid conf (tenant_world (mkMaster m r gs)) →
  client_op op = true → cm_env op m → cm_step cfg op m = Some m' →
  master_step cfg (mkMaster m r gs) (mkMaster m' r gs) ∧ cm_reachable cfg cid pid nodes conf eviction m' ∧
  tenant_inv cid conf (tenant_world (mkMaster m' r gs)).
Proof.
  intros Hr Hw Hop Henv Hs. assert (cm_reachable cfg cid pid nodes conf eviction m') as Hr'
    by (by eapply creach_step). split_and!; [by eapply ms_client|done|].
  exact (client_step_tenants cfg cid pid nodes conf eviction op m m' r gs Hr Hr' Hw Hop Hs).
Qed.

Lemma served_reconcile gate client_now catalog_now budget s :
  served True (fun rep => ∃ cl, client_cleanup rep = Ok cl) s (reconcile_once cfg gate client_now catalog_now budget s).
Proof.
  intros gs Hs. unfold reconcile_once. set (r := tm_registry (tenants (sv_backend s))).
  pose proof (sg_clients _ _ Hs) as Hr. pose proof (sg_tenants _ _ Hs) as Hw. rewrite <- service_tenants in Hw.
  change (service_world s gs) with (mkMaster (clients s) r gs) in *.
  destruct (cleanup_step_ok cfg cid pid nodes conf eviction client_now catalog_now _ (cm_reachable_inv _ _ _ _ _ _ _ Hr))
    as (cl & n & m1 & _ & Hc & _).
  destruct (client_steps (CCleanup client_now catalog_now) (clients s) m1 r gs Hr Hw) as (S1 & Hr1 & Hw1);
    [done|done|by simpl; rewrite Hc|].
  destruct (graceful_ok cfg cid pid nodes conf eviction client_now m1 (cm_reachable_inv _ _ _ _ _ _ _ Hr1))
    as (jobs & m2 & Hg & _).
  destruct (client_steps (CGraceful client_now) m1 m2 r gs Hr1 Hw1) as (S2 & Hr2 & Hw2); [done|done|by simpl; rewrite Hg|].
  rewrite Hc, Hg. set (s2 := with_clients m2 s).
  assert (service_world s2 gs = mkMaster m2 r gs) as Hs2 by apply world_with_clients.
  rewrite <- Hs2, service_tenants in Hw2.
  destruct (law_reconcile cid conf (under s2) (maintenance_busy gate) catalog_now budget (sv_backend s2) gs Hw2)
    as (rep & b & Hb & Hrun). rewrite Hb. simpl. split; [|intros _; eexists _, _; split; [done|]; by eexists].
  intros y s' [= <- <-] _. eapply rtc_l; [exact S1|]. eapply rtc_l; [exact S2|]. rewrite <- Hs2. by apply backend_moves.
Qed.

(** ** Every request *)

Lemma serve_ok q s :
  served (units (N.of_nat (request_items q)) (objects (sv_backend s))) answer_ok s (serve cfg q s).
Proof.
  assert (∀ T n e, answers (batch_error (T := T) n e)) as Hfail by (intros T n e; by apply Forall_replicate).
  destruct q; cbn [request_items];
    try (apply (served_weaken True); [done|]; by auto using served_ping, served_mount, served_remount,
      served_unmount, served_graceful).
  all: cbn [serve].
  - apply (served_weaken True); [done|]. apply (served_answer _ (fun y => y ≠ Panic) ABool); [|done].
    apply (served_only _ (fun y _ => y)); [|apply execute_items; intros t l b'; apply (law_exists_length cid conf)|done|done].
    apply (served_exist now [key]).
  - apply (served_weaken True); [done|]. apply (served_answer _ answers ABools); [|done]. apply served_exist.
  - apply (served_weaken True); [done|]. apply (served_answer _ (fun y => y ≠ Panic) AReplicas); [|done]. apply served_get_one.
  - apply (served_weaken True); [done|]. apply (served_answer _ answers AReplicaLists); [|done]. apply served_get_many.
  - apply (served_answer _ (fun y => y ≠ Panic) AStarted); [|done]. apply served_start.
  - apply (served_answer _ answers AStartedAll); [|done]. apply served_start_many.
  - apply (served_answer _ (fun y => y ≠ Panic) AUnit); [|done]. destruct mode; apply served_end.
  - apply (served_answer _ answers AUnits); [|done]. apply served_selector; [done|]. intros x.
    apply served_owner; [done|]. intros o. apply served_finish_many.
  - apply (served_answer _ answers AUnits); [|done]. apply served_owner; [done|]. intros o. apply served_finish_many.
  - apply (served_weaken True); [done|]. apply (served_answer _ (fun y => y ≠ Panic) AUnit); [|done]. destruct mode; apply served_revoke.
  - apply (served_weaken True); [done|]. apply (served_answer _ answers AUnits); [|done].
    apply served_selector; [done|]. intros x. apply served_owner; [done|]. intros o. apply served_revoke_many.
  - apply (served_weaken True); [done|]. apply (served_answer _ answers AUnits); [|done].
    apply served_owner; [done|]. intros o. apply served_revoke_many.
  - apply (served_weaken True); [done|]. apply (served_answer _ (fun y => y ≠ Panic) AUnit); [|done]. apply served_remove.
  - apply (served_weaken True); [done|]. apply (served_answer _ answers AUnits); [|done]. apply served_removes.
  - apply (served_weaken True); [done|]. apply (served_answer _ (fun y => y ≠ Panic) ACount); [|done]. apply served_regex.
  - apply (served_weaken True); [done|]. apply (served_answer _ (fun _ => True) (fun z => ACount (Ok z))); [|done].
    apply served_remove_all.
  - intros gs Hs. destruct (served_reconcile gate client_now catalog_now budget s gs Hs) as [Hr Ht]. split.
    + intros y s' Hy _. destruct (Ht I) as (rep & s1 & Hx & Hrep). rewrite Hx in Hr, Hy. injection Hy as <- <-.
      by apply (Hr rep s1).
    + intros _. destruct (Ht I) as (rep & s1 & -> & _). by exists (AStep rep), s1.
Qed.
End Runs.
