(* ===== verification/MasterProps.v ===== *)
(** * The master

    What the RPC service of the master guarantees: every remote call is a run of
    the steps of the world that other calls interleave with, and in every state
    of that world the parts of the master agree.  Runs of requests on the
    example allocator are the witnesses. *)
From stdpp Require Import relations.
From S2P Require Import Prelude Identity ClientLifecycle ClientSessions Segment ByteAllocator SegmentPool PoolView Placement.
From S2P Require Import TenantQuota Replica ObjectTypes TenantRegistry TenantSteps CatalogState CatalogBooks CatalogWrite CatalogCollector CatalogInv CatalogOps.
From S2P Require Import CatalogWorld CatalogCharges CatalogProps CatalogResources Eviction ObjectManager ManagerWorld ManagerProps.
From S2P Require Import TenantManager TenantWorld TenantInv ManagerNumbers TenantCalls TenantAnswers TenantProps GracefulUnmount ClientManager ClientViews ClientPool.
From S2P Require Import ClientWorld ClientMount ClientUnmount ClientCleanup ClientSteps ClientProps.
From S2P Require Import RpcRequest MasterBackend MasterService MasterWorld MasterRuns MasterServe.

Section Claims.
Context {A Alloc : Type} `{L : UpstreamLaws A Alloc} (cfg : ClientLifecycleConfig).
Context (cid mid pid nodes : N) (conf : ObjectCatalogConfig) (eviction : option MemoryEvictionConfig).
Context (config : TenantConfig).
Local Abbreviation TM := (TenantObjectManager A Alloc).
Local Abbreviation OM := (ObjectManager A Alloc).
Local Abbreviation reach := (master_reachable cfg cid mid pid nodes conf eviction config).

(** The world of the service with one tenant: the registry [r] of tenants is
    that of a single tenant, and stays. *)
Definition single_world (r : TenantRegistry) (s : Service OM) (gs : list (N * N)) : Master A Alloc :=
  service_world (fun m => mkTenantManager m r) s gs.
Definition multi_world (s : Service TM) (gs : list (N * N)) : Master A Alloc :=
  service_world (fun tm => tm) s gs.

Lemma served_reachable {B Tenant} `{BK : !ObjectBatchBackend (A := A) (Alloc := Alloc) B Tenant}
    (tenants : B → TM) {BL : BackendLaws cid conf tenants} q s gs :
  reach (service_world tenants s gs) → memory_fits (objects (sv_backend s)) →
  (∀ a s', serve cfg q s = Some (a, s') → answer_ok a →
     rtc (master_step cfg) (service_world tenants s gs) (service_world tenants s' gs) ∧
     reach (service_world tenants s' gs)) ∧
  (units (N.of_nat (request_items q)) (objects (sv_backend s)) →
     ∃ a s', serve cfg q s = Some (a, s') ∧ answer_ok a).
Proof.
  intros Hr Hf. destruct (master_reachable_parts _ _ _ _ _ _ _ _ _ Hr) as [Hc Ht].
  rewrite (service_tenants cid conf tenants) in Ht.
  destruct (serve_ok cfg cid pid nodes conf eviction tenants q s gs) as [Hrun Hans]; [by split|].
  split; [|done]. intros a s' Hs Ha. specialize (Hrun a s' Hs Ha). split; [done|].
  by eapply master_reachable_run.
Qed.

(** C2: The RPC service implements the world of the master.  Every request, of
    either backend, made on a reachable state is a sequence of steps of that
    world: it ends in a reachable state and holds no admission guard.  It is
    answered, and no item of its answer is a panic, as long as the slots have
    numbers left for its items.  Both halves assume [memory_fits]: the sizes of
    the mounted segments, plus the bytes that objects still hold of segments no
    longer mounted, sum to at most [u64::MAX]. *)
Theorem requests_refine q gs :
  (∀ s : Service TM, reach (multi_world s gs) → memory_fits (objects (sv_backend s)) →
     (∀ a s', serve cfg q s = Some (a, s') → answer_ok a →
        rtc (master_step cfg) (multi_world s gs) (multi_world s' gs) ∧ reach (multi_world s' gs)) ∧
     (units (N.of_nat (request_items q)) (objects (sv_backend s)) →
        ∃ a s', serve cfg q s = Some (a, s') ∧ answer_ok a)) ∧
  (∀ r (s : Service OM), reach (single_world r s gs) → memory_fits (objects (sv_backend s)) →
     (∀ a s', serve cfg q s = Some (a, s') → answer_ok a →
        rtc (master_step cfg) (single_world r s gs) (single_world r s' gs) ∧ reach (single_world r s' gs)) ∧
     (units (N.of_nat (request_items q)) (objects (sv_backend s)) →
        ∃ a s', serve cfg q s = Some (a, s') ∧ answer_ok a)).
Proof.
  split; [intros s Hr Hf; exact (served_reachable (fun tm => tm) q s gs Hr Hf)|].
  intros r s Hr Hf. exact (served_reachable (fun m => mkTenantManager m r) q s gs Hr Hf).
Qed.

(** C12: In every state of the master, whatever requests, cleanups, unmounts and
    tenant administration interleave, the client manager is in a state of its
    own world, so that its sessions, segments and writes agree, and the account
    of each tenant is exact: its demand is what admission guards hold and what
    the versions charged to it cost, its used bytes those of the published and
    retiring ones. *)
Theorem master_consistent w :
  reach w →
  cm_reachable cfg cid pid nodes conf eviction (ma_clients w) ∧
  ∀ a x, accounts (om_catalog (cm_objects (ma_clients w))) !! a = Some x →
    let st := om_catalog (cm_objects (ma_clients w)) in
    demand x = guarded (ma_guards w) a + charged_to a charge_demand st ∧
    used x = charged_to a charge_used st ∧ retiring x = charged_to a charge_retiring st ∧
    is_Some (tenant_entries (ma_tenants w) !! a).
Proof.
  intros [Hc Ht]%master_reachable_parts. split; [done|]. intros a x Hx st.
  pose proof (tv_balanced _ _ _ Ht) as [_ Hac]. destruct (Hac a x Hx) as [Hd Hu Hr _].
  rewrite owed_versions in Hd, Hu, Hr. split_and!; [done..|].
  apply (ti_account _ _ (tv_tenants _ _ _ Ht)). exists x. exact Hx.
Qed.
End Claims.

(** ** A run *)

Section Example.
Local Abbreviation TM := (TenantObjectManager Bump.bump (N * N)).
Local Abbreviation cfg := ClientLifecycle.example_config.
Local Abbreviation reach :=
  (master_reachable cfg 7 3 1 8 CatalogProps.example_config (Some example_eviction) example_tenants).

Definition example_uuid : Mooncake.Uuid := Mooncake.mkUuid 0 1.
Definition example_wire_segment : Mooncake.Segment :=
  Mooncake.mkSegment (Mooncake.mkUuid 0 1) "seg" 4096 8192 "host:1" "tcp" "".
Definition example_replicate : Mooncake.ReplicateConfig :=
  Mooncake.mkReplicate 1 0 Mooncake.Preserve None true [] "" [] false Mooncake.Kvcache "" None.
Definition open_gate : Gate := mkGate (fun _ => false) false.

Definition fresh_service : Service TM := service_new (tw_manager empty_tenants) 1.
Definition serve_or (q : request) (s : Service TM) : Service TM :=
  match serve cfg q s with Some (_, s') => s' | None => s end.

Definition example_requests : list request :=
  [RMount 1 example_wire_segment example_uuid;
   RReconcile open_gate 1 1 CollectBudget_default;
   RStart Insert open_gate 2 example_uuid "page" 64 example_replicate "acme";
   REnd Insert open_gate 3 example_uuid (Mooncake.mkMeta "page" None) Mooncake.All "acme"].
Definition put_service : Service TM := foldl (fun s q => serve_or q s) fresh_service example_requests.

Lemma units_dec n (m : ObjectManager Bump.bump (N * N)) :
  bool_decide (n <= U32_MAX ∧ map_Forall (fun _ s => next_transaction_id s + 4 * n <= U64_MAX ∧
    next_version_id s + n <= U64_MAX) (slots (om_catalog m))) = true → units n m.
Proof. intros [Hn Hs]%bool_decide_eq_true. split; [done|]. intros a s Ha. exact (Hs a s Ha). Qed.

Lemma serve_or_reach q s :
  reach (multi_world s []) → memory_fits (objects (sv_backend s)) →
  units (N.of_nat (request_items q)) (objects (sv_backend s)) → reach (multi_world (serve_or q s) []).
Proof.
  intros Hr Hf Hu. destruct (served_reachable cfg 7 3 1 8 _ _ _ (fun tm => tm) q s [] Hr Hf) as [Hs Ha].
  destruct (Ha Hu) as (a & s' & Hq & Hok). unfold serve_or. rewrite Hq. by apply (Hs a s').
Qed.

Lemma fresh_service_reach : reach (multi_world fresh_service []).
Proof.
  apply (mreached_new _ _ _ _ _ _ _ _ (tw_manager empty_tenants)); [done| |by vm_compute].
  intros c [= <-]. apply example_configured.
Qed.

Lemma put_service_reach : reach (multi_world put_service []).
Proof.
  unfold put_service, example_requests. cbn [foldl].
  do 4 (apply serve_or_reach; [|vm_compute; discriminate|apply units_dec; vm_compute; reflexivity]).
  apply fresh_service_reach.
Qed.
End Example.

Lemma requests_refine_witness :
  ∃ a s', serve ClientLifecycle.example_config (RGet 4 "page" "acme") put_service = Some (a, s') ∧ answer_ok a ∧
    master_reachable ClientLifecycle.example_config 7 3 1 8 CatalogProps.example_config (Some example_eviction)
      example_tenants (multi_world s' []).
Proof.
  destruct (requests_refine ClientLifecycle.example_config 7 3 1 8 CatalogProps.example_config (Some example_eviction)
    example_tenants (RGet 4 "page" "acme") []) as [Hm _].
  destruct (Hm put_service) as [Hr Ha]; [apply put_service_reach|vm_compute; discriminate|].
  destruct Ha as (a & s' & Hs & Hok); [apply units_dec; vm_compute; reflexivity|].
  exists a, s'. split; [exact Hs|]. split; [exact Hok|]. by apply (Hr a s').
Defined.

Lemma master_consistent_witness :
  let st := om_catalog (cm_objects (ma_clients (multi_world put_service []))) in
  ∃ x, accounts st !! 1 = Some x ∧ demand x = 64 ∧ demand x = guarded [] 1 + charged_to 1 charge_demand st.
Proof.
  destruct (master_consistent ClientLifecycle.example_config 7 3 1 8 CatalogProps.example_config (Some example_eviction)
    example_tenants (multi_world put_service [])) as [_ Ha]; [apply put_service_reach|].
  intros st. destruct (accounts st !! 1) as [x|] eqn:Hx; [|vm_compute in Hx; discriminate Hx].
  exists x. split; [reflexivity|]. split; [vm_compute in Hx; injection Hx as <-; reflexivity|].
  destruct (Ha 1 x Hx) as [Hd _]. exact Hd.
Defined.
