(* ===== verification/Wire.v ===== *)
(** * Bytes on the wire

    Little-endian integers and cursors over byte buffers, as
    [src/crates/coro-rpc/src/protocol.rs] and [struct_pack.rs] use them.  A byte
    is a number below 256; a [Bytes], [BytesMut] or [Vec<u8>] is the list of its
    bytes. *)
From S2P Require Import Prelude.

Definition bytes := list N.

Definition byte_ok (b : N) : Prop := b < 256.
Definition bytes_ok (l : bytes) : Prop := Forall byte_ok l.

Definition len (l : bytes) : N := N.of_nat (length l).

(** [to_le_bytes] at a width of [k] bytes. *)
Fixpoint le_bytes (k : nat) (n : N) : bytes :=
  match k with
  | O => []
  | S k' => n mod 256 :: le_bytes k' (n / 256)
  end.

(** [from_le_bytes]. *)
Fixpoint le_num (l : bytes) : N :=
  match l with
  | [] => 0
  | b :: l' => b + 256 * le_num l'
  end.

(** [split_to]: the first [n] bytes and the rest; [None] is the panic on a
    buffer that is too short. *)
Definition split_to (n : N) (l : bytes) : option (bytes * bytes) :=
  if len l <? n then None else Some (take (N.to_nat n) l, drop (N.to_nat n) l).

(** [get_u32_le]. *)
Definition get_u32_le (l : bytes) : option (N * bytes) :=
  '(h, t) ← split_to 4 l; Some (le_num h, t).

(** ** Lemmas *)

Lemma length_le_bytes k n : length (le_bytes k n) = k.
Proof. revert n. induction k as [|k IH]; intros n; simpl; [done|]. by rewrite IH. Qed.

Lemma le_bytes_ok k n : bytes_ok (le_bytes k n).
Proof.
  revert n. induction k as [|k IH]; intros n; simpl; constructor; [|apply IH].
  unfold byte_ok. by apply N.mod_lt.
Qed.

Lemma le_num_le_bytes k n : n < 256 ^ N.of_nat k → le_num (le_bytes k n) = n.
Proof.
  revert n. induction k as [|k IH]; intros n Hn; simpl; [simpl in Hn; lia|].
  rewrite IH.
  - rewrite N.add_comm. symmetry. apply N.div_mod'.
  - apply N.Div0.div_lt_upper_bound. rewrite Nat2N.inj_succ, N.pow_succ_r' in Hn. lia.
Qed.

Lemma le_num_bound l : bytes_ok l → le_num l < 256 ^ len l.
Proof.
  unfold len. induction 1 as [|b l Hb _ IH]; simpl length; [done|].
  rewrite Nat2N.inj_succ, N.pow_succ_r'. unfold byte_ok in Hb. simpl. nia.
Qed.

Lemma le_bytes_le_num l : bytes_ok l → le_bytes (length l) (le_num l) = l.
Proof.
  induction 1 as [|b l Hb _ IH]; simpl; [done|]. unfold byte_ok in Hb. f_equal.
  - rewrite (N.mul_comm 256), N.Div0.mod_add. by apply N.mod_small.
  - rewrite (N.mul_comm 256), N.div_add by done. by rewrite (N.div_small b 256), N.add_0_l.
Qed.

Lemma len_app l k : len (l ++ k) = len l + len k.
Proof. unfold len. rewrite length_app. lia. Qed.

Lemma len_le_bytes k n : len (le_bytes k n) = N.of_nat k.
Proof. unfold len. by rewrite length_le_bytes. Qed.

Lemma split_to_app n l k : len l = n → split_to n (l ++ k) = Some (l, k).
Proof.
  intros <-. unfold split_to. rewrite len_app.
  destruct (N.ltb_spec (len l + len k) (len l)); [lia|].
  unfold len. rewrite Nat2N.id. by rewrite take_app_length, drop_app_length.
Qed.

Lemma split_to_None n l : split_to n l = None ↔ len l < n.
Proof. unfold split_to. destruct (N.ltb_spec (len l) n); split; done || lia. Qed.

Lemma split_to_Some n l h t : split_to n l = Some (h, t) → l = h ++ t ∧ len h = n.
Proof.
  unfold split_to. destruct (N.ltb_spec (len l) n) as [|Hn]; [done|]. intros [= <- <-].
  split; [by rewrite take_drop|]. unfold len in *. rewrite length_take. lia.
Qed.

Lemma get_u32_le_app n k : n < 2 ^ 32 → get_u32_le (le_bytes 4 n ++ k) = Some (n, k).
Proof.
  intros Hn. unfold get_u32_le. rewrite (split_to_app 4) by apply len_le_bytes.
  cbn [mbind option_bind]. by rewrite le_num_le_bytes.
Qed.

Lemma get_u32_le_Some l n t : get_u32_le l = Some (n, t) → bytes_ok l →
  l = le_bytes 4 n ++ t ∧ n < 2 ^ 32.
Proof.
  unfold get_u32_le. destruct (split_to 4 l) as [[h t']|] eqn:Hs; [|done].
  cbn [mbind option_bind]. intros [= <- <-] Hok. apply split_to_Some in Hs as [-> Hh]. apply Forall_app in Hok as [Hok _].
  assert (length h = 4%nat) as Hl by (unfold len in Hh; lia). split.
  - by rewrite <- Hl, le_bytes_le_num.
  - pose proof (le_num_bound h Hok) as Hb. by rewrite Hh in Hb.
Qed.

Lemma get_u32_le_None l : get_u32_le l = None ↔ len l < 4.
Proof.
  unfold get_u32_le. rewrite <- split_to_None. destruct (split_to 4 l) as [[]|]; simpl; split; done.
Qed.

Lemma bytes_ok_app l k : bytes_ok (l ++ k) ↔ bytes_ok l ∧ bytes_ok k.
Proof. apply Forall_app. Qed.

#[export] Hint Rewrite len_app len_le_bytes : cake.

#[global] Arguments le_bytes _ _ : simpl never.
#[global] Arguments split_to _ _ : simpl never.
#[global] Arguments get_u32_le _ : simpl never.
