(* ===== verification/Protocol.v ===== *)
(** * The coro_rpc frame protocol

    [src/crates/coro-rpc/src/protocol.rs]: request and response headers, frames,
    and the streaming codecs.  A codec works on the receive buffer; it returns
    its result and the buffer it leaves.  Every indexing or slicing operation of
    the source that could panic is a [Panic] here. *)
From S2P Require Import Prelude Wire.

Definition MAGIC : N := 21.
Definition VERSION : N := 0.
Definition STRUCT_PACK_SERIALIZATION : N := 0.
Definition REQUEST_HEADER_LEN : N := 20.
Definition RESPONSE_HEADER_LEN : N := 16.

Record FrameLimits := mkLimits { max_body_len : N; max_attachment_len : N }.

Definition limits_default : FrameLimits := mkLimits (64 * 1024 * 1024) (256 * 1024 * 1024).

Inductive ProtocolError :=
| InvalidHeaderLength (expected actual : N)
| InvalidMagic (b : N)
| UnsupportedVersion (b : N)
| UnsupportedSerialization (b : N)
| BodyTooLarge (length limit : N)
| AttachmentTooLarge (length limit : N)
| LengthMismatch (is_body : bool) (declared actual : N)
| LengthOverflow.

(** [FrameError], with the kinds of I/O errors the callers distinguish; the
    only one the codecs raise themselves is the unexpected end of a connection
    with bytes of an incomplete frame. *)
Inductive FrameError :=
| IoUnexpectedEof (remaining : N)
| IoConnectionReset
| IoBrokenPipe
| IoOther
| Protocol (e : ProtocolError).

Definition lift {A} (r : res ProtocolError A) : res FrameError A :=
  match r with
  | Ok x => Ok x
  | Err e => Err (Protocol e)
  | Panic => Panic
  end.

(** ** Headers *)

Record RequestHeader := mkRequestHeader {
  rq_magic : N;
  rq_version : N;
  rq_serialize_type : N;
  rq_msg_type : N;
  rq_sequence : N;
  rq_function_id : N;
  rq_body_len : N;
  rq_attachment_len : N
}.

Definition RequestHeader_new (sequence function_id body_len attachment_len : N) : RequestHeader :=
  mkRequestHeader MAGIC VERSION STRUCT_PACK_SERIALIZATION 0 sequence function_id body_len
    attachment_len.

Definition request_header_encode (h : RequestHeader) : bytes :=
  [rq_magic h; rq_version h; rq_serialize_type h; rq_msg_type h] ++
  le_bytes 4 (rq_sequence h) ++ le_bytes 4 (rq_function_id h) ++
  le_bytes 4 (rq_body_len h) ++ le_bytes 4 (rq_attachment_len h).

Definition validate_common (magic version : N) : res ProtocolError unit :=
  if negb (magic =? MAGIC) then Err (InvalidMagic magic)
  else if VERSION <? version then Err (UnsupportedVersion version)
  else Ok tt.

(** An operation that panics on [None]. *)
Definition or_panic {E A} (o : option A) : res E A :=
  match o with Some x => Ok x | None => Panic end.

Definition request_header_decode (b : bytes) : res ProtocolError RequestHeader :=
  if negb (len b =? REQUEST_HEADER_LEN)
  then Err (InvalidHeaderLength REQUEST_HEADER_LEN (len b))
  else
    let? fields := or_panic (split_to 4 b) in
    let? magic := or_panic (b !! 0%nat) in
    let? version := or_panic (b !! 1%nat) in
    let? serialize_type := or_panic (b !! 2%nat) in
    let? msg_type := or_panic (b !! 3%nat) in
    let? sequence := or_panic (get_u32_le fields.2) in
    let? function_id := or_panic (get_u32_le sequence.2) in
    let? body_len := or_panic (get_u32_le function_id.2) in
    let? attachment_len := or_panic (get_u32_le body_len.2) in
    let header := mkRequestHeader magic version serialize_type msg_type sequence.1
                    function_id.1 body_len.1 attachment_len.1 in
    let? _ := validate_common magic version in
    if negb (serialize_type =? STRUCT_PACK_SERIALIZATION)
    then Err (UnsupportedSerialization serialize_type)
    else Ok header.

Record ResponseHeader := mkResponseHeader {
  rs_magic : N;
  rs_version : N;
  rs_error_code : N;
  rs_msg_type : N;
  rs_sequence : N;
  rs_body_len : N;
  rs_attachment_len : N
}.

Definition ResponseHeader_new (sequence error_code body_len attachment_len : N) : ResponseHeader :=
  mkResponseHeader MAGIC VERSION error_code 0 sequence body_len attachment_len.

Definition response_header_encode (h : ResponseHeader) : bytes :=
  [rs_magic h; rs_version h; rs_error_code h; rs_msg_type h] ++
  le_bytes 4 (rs_sequence h) ++ le_bytes 4 (rs_body_len h) ++ le_bytes 4 (rs_attachment_len h).

Definition response_header_decode (b : bytes) : res ProtocolError ResponseHeader :=
  if negb (len b =? RESPONSE_HEADER_LEN)
  then Err (InvalidHeaderLength RESPONSE_HEADER_LEN (len b))
  else
    let? fields := or_panic (split_to 4 b) in
    let? magic := or_panic (b !! 0%nat) in
    let? version := or_panic (b !! 1%nat) in
    let? error_code := or_panic (b !! 2%nat) in
    let? msg_type := or_panic (b !! 3%nat) in
    let? sequence := or_panic (get_u32_le fields.2) in
    let? body_len := or_panic (get_u32_le sequence.2) in
    let? attachment_len := or_panic (get_u32_le body_len.2) in
    let header := mkResponseHeader magic version error_code msg_type sequence.1
                    body_len.1 attachment_len.1 in
    let? _ := validate_common magic version in
    Ok header.

(** ** Frames *)

Record RequestFrame := mkRequestFrame {
  rq_header : RequestHeader;
  rq_body : bytes;
  rq_attachment : bytes
}.

Record ResponseFrame := mkResponseFrame {
  rs_header : ResponseHeader;
  rs_body : bytes;
  rs_attachment : bytes
}.

Definition payload_lengths (body attachment : bytes) : res ProtocolError (N * N) :=
  if U32_MAX <? len body then Err LengthOverflow
  else if U32_MAX <? len attachment then Err LengthOverflow
  else Ok (len body, len attachment).

Definition RequestFrame_new (sequence function_id : N) (body attachment : bytes)
    : res ProtocolError RequestFrame :=
  let? l := payload_lengths body attachment in
  Ok (mkRequestFrame (RequestHeader_new sequence function_id l.1 l.2) body attachment).

Definition ResponseFrame_new (sequence error_code : N) (body attachment : bytes)
    : res ProtocolError ResponseFrame :=
  let? l := payload_lengths body attachment in
  Ok (mkResponseFrame (ResponseHeader_new sequence error_code l.1 l.2) body attachment).

Definition validate_lengths (body_len attachment_len : N) (limits : FrameLimits)
    : res ProtocolError N :=
  if max_body_len limits <? body_len then Err (BodyTooLarge body_len (max_body_len limits))
  else if max_attachment_len limits <? attachment_len
  then Err (AttachmentTooLarge attachment_len (max_attachment_len limits))
  else match checked_add body_len attachment_len with
       | Some n => Ok n
       | None => Err LengthOverflow
       end.

Definition has_header (source : bytes) (header_len : N) : bool := header_len <=? len source.

(** Body and attachment, or [None] while bytes are missing; the header and the
    payload leave the buffer together. *)
Definition decode_payload (source : bytes) (header_len body_len attachment_len : N)
    (limits : FrameLimits) : res FrameError (option (bytes * bytes)) * bytes :=
  match validate_lengths body_len attachment_len limits with
  | Err e => (Err (Protocol e), source)
  | Panic => (Panic, source)
  | Ok payload_len =>
      match checked_add header_len payload_len with
      | None => (Err (Protocol LengthOverflow), source)
      | Some frame_len =>
          if len source <? frame_len then (Ok None, source)
          else
            match split_to header_len source with
            | None => (Panic, source)
            | Some (_, s1) =>
                match split_to body_len s1 with
                | None => (Panic, s1)
                | Some (body, s2) =>
                    match split_to attachment_len s2 with
                    | None => (Panic, s2)
                    | Some (attachment, s3) => (Ok (Some (body, attachment)), s3)
                    end
                end
            end
      end
  end.

Definition require_complete_at_eof {T} (source : bytes) (decoded : option T)
    : res FrameError (option T) :=
  match decoded with
  | Some f => Ok (Some f)
  | None => if len source =? 0 then Ok None else Err (IoUnexpectedEof (len source))
  end.

Definition validate_encoded_length (is_body : bool) (declared actual : N)
    : res ProtocolError unit :=
  if negb (declared =? actual) then Err (LengthMismatch is_body declared actual) else Ok tt.

Definition encode_parts (header : bytes) (declared_body_len declared_attachment_len : N)
    (body attachment destination : bytes) : res FrameError unit * bytes :=
  match validate_encoded_length true declared_body_len (len body) with
  | Err e => (Err (Protocol e), destination)
  | Panic => (Panic, destination)
  | Ok _ =>
      match validate_encoded_length false declared_attachment_len (len attachment) with
      | Err e => (Err (Protocol e), destination)
      | Panic => (Panic, destination)
      | Ok _ =>
          match n ← checked_add (len header) (len body); checked_add n (len attachment) with
          | None => (Err (Protocol LengthOverflow), destination)
          | Some _ => (Ok tt, destination ++ header ++ body ++ attachment)
          end
      end
  end.

(** ** Codecs *)

Definition request_decode (limits : FrameLimits) (source : bytes)
    : res FrameError (option RequestFrame) * bytes :=
  if negb (has_header source REQUEST_HEADER_LEN) then (Ok None, source)
  else match lift (request_header_decode (take 20 source)) with
  | Err e => (Err e, source)
  | Panic => (Panic, source)
  | Ok header =>
      match decode_payload source REQUEST_HEADER_LEN (rq_body_len header)
              (rq_attachment_len header) limits with
      | (Ok (Some (body, attachment)), s) => (Ok (Some (mkRequestFrame header body attachment)), s)
      | (Ok None, s) => (Ok None, s)
      | (Err e, s) => (Err e, s)
      | (Panic, s) => (Panic, s)
      end
  end.

Definition request_decode_eof (limits : FrameLimits) (source : bytes)
    : res FrameError (option RequestFrame) * bytes :=
  let '(r, s) := request_decode limits source in
  (let? decoded := r in require_complete_at_eof s decoded, s).

Definition request_encode (frame : RequestFrame) (destination : bytes)
    : res FrameError unit * bytes :=
  encode_parts (request_header_encode (rq_header frame)) (rq_body_len (rq_header frame))
    (rq_attachment_len (rq_header frame)) (rq_body frame) (rq_attachment frame) destination.

Definition response_decode (limits : FrameLimits) (source : bytes)
    : res FrameError (option ResponseFrame) * bytes :=
  if negb (has_header source RESPONSE_HEADER_LEN) then (Ok None, source)
  else match lift (response_header_decode (take 16 source)) with
  | Err e => (Err e, source)
  | Panic => (Panic, source)
  | Ok header =>
      match decode_payload source RESPONSE_HEADER_LEN (rs_body_len header)
              (rs_attachment_len header) limits with
      | (Ok (Some (body, attachment)), s) =>
          (Ok (Some (mkResponseFrame header body attachment)), s)
      | (Ok None, s) => (Ok None, s)
      | (Err e, s) => (Err e, s)
      | (Panic, s) => (Panic, s)
      end
  end.

Definition response_decode_eof (limits : FrameLimits) (source : bytes)
    : res FrameError (option ResponseFrame) * bytes :=
  let '(r, s) := response_decode limits source in
  (let? decoded := r in require_complete_at_eof s decoded, s).

Definition response_encode (frame : ResponseFrame) (destination : bytes)
    : res FrameError unit * bytes :=
  encode_parts (response_header_encode (rs_header frame)) (rs_body_len (rs_header frame))
    (rs_attachment_len (rs_header frame)) (rs_body frame) (rs_attachment frame) destination.

(** The bidirectional codecs of the two ends. *)
Definition client_decode : FrameLimits → bytes → res FrameError (option ResponseFrame) * bytes :=
  response_decode.
Definition client_encode : RequestFrame → bytes → res FrameError unit * bytes := request_encode.
Definition server_decode : FrameLimits → bytes → res FrameError (option RequestFrame) * bytes :=
  request_decode.
Definition server_encode : ResponseFrame → bytes → res FrameError unit * bytes := response_encode.

(** ** The contract of a streaming codec *)

(** What the transport loop relies on: a whole frame at the front of the buffer
    is taken, an incomplete one leaves the buffer untouched. *)
Class StreamCodec (F : Type) := {
  sc_encode : F → bytes;
  sc_decode : bytes → res FrameError (option F) * bytes;
  sc_valid : F → Prop;
  sc_nonempty f : sc_valid f → sc_encode f ≠ [];
  sc_frame f rest : sc_valid f → sc_decode (sc_encode f ++ rest) = (Ok (Some f), rest);
  sc_partial f p q : sc_valid f → sc_encode f = p ++ q → q ≠ [] → sc_decode p = (Ok None, p);
  sc_empty : sc_decode [] = (Ok None, [])
}.

Section Stream.
Context {F : Type} `{StreamCodec F}.

(** The receive loop: frames are taken until one is incomplete. *)
Fixpoint drain (fuel : nat) (buf : bytes) (acc : list F) : res FrameError (list F * bytes) :=
  match fuel with
  | O => Ok (acc, buf)
  | S fuel' =>
      match sc_decode buf with
      | (Ok (Some f), rest) => drain fuel' rest (acc ++ [f])
      | (Ok None, rest) => Ok (acc, rest)
      | (Err e, _) => Err e
      | (Panic, _) => Panic
      end
  end.

Definition receive (chunk : bytes) (st : list F * bytes) : res FrameError (list F * bytes) :=
  let buf := st.2 ++ chunk in drain (S (length buf)) buf st.1.

Fixpoint receive_all (chunks : list bytes) (st : list F * bytes)
    : res FrameError (list F * bytes) :=
  match chunks with
  | [] => Ok st
  | c :: cs => let? st' := receive c st in receive_all cs st'
  end.

Definition encode_all (fs : list F) : bytes := concat (map sc_encode fs).

Lemma drain_frames fs : ∀ fuel buf tail acc,
  Forall sc_valid fs → (length buf < fuel)%nat → buf ++ tail = encode_all fs →
  ∃ fs1 fs2 buf', fs = fs1 ++ fs2 ∧ buf' ++ tail = encode_all fs2 ∧ (tail = [] → fs2 = []) ∧
    drain fuel buf acc = Ok (acc ++ fs1, buf').
Proof.
  induction fs as [|f fs IH]; intros fuel buf tail acc Hv Hf Heq;
    (destruct fuel as [|fuel]; [lia|]).
  - unfold encode_all in Heq. simpl in Heq. apply app_nil in Heq as [-> ->].
    exists [], [], []. simpl. rewrite sc_empty, app_nil_r. done.
  - apply Forall_cons in Hv as [Hvf Hv]. unfold encode_all in Heq. simpl in Heq.
    apply app_eq_app in Heq as [k [[Hb Ht]|[Hb Ht]]].
    + subst buf. pose proof (sc_nonempty f Hvf) as Hne.
      destruct (IH fuel k tail (acc ++ [f]) Hv) as (fs1 & fs2 & buf' & -> & Hrest & Hlast & Hd);
        [rewrite length_app in Hf; destruct (sc_encode f); [done|simpl in Hf; lia]|done|].
      exists (f :: fs1), fs2, buf'. split_and!; [done..|]. simpl.
      rewrite (sc_frame f k Hvf), Hd, <- app_assoc. done.
    + destruct k as [|b k].
      * rewrite app_nil_r in Hb. subst buf. pose proof (sc_nonempty f Hvf) as Hne.
        destruct (IH fuel [] tail (acc ++ [f]) Hv) as (fs1 & fs2 & buf' & -> & Hrest & Hlast & Hd);
          [destruct (sc_encode f); [done|simpl in Hf |- *; lia]|by rewrite Ht|].
        exists (f :: fs1), fs2, buf'. split_and!; [done..|]. simpl.
        pose proof (sc_frame f [] Hvf) as Hfr. rewrite app_nil_r in Hfr.
        by rewrite Hfr, Hd, <- app_assoc.
      * exists [], (f :: fs), buf. split; [done|]. split.
        { unfold encode_all. simpl. rewrite Hb, <- app_assoc. by f_equal. }
        split; [by intros ->|]. simpl. rewrite (sc_partial f buf (b :: k) Hvf Hb) by done. by rewrite app_nil_r.
Qed.

Lemma encode_all_nil fs : Forall sc_valid fs → encode_all fs = [] → fs = [].
Proof.
  destruct 1 as [|f fs Hf _]; [done|]. unfold encode_all. simpl. intros [He _]%app_nil.
  by destruct (sc_nonempty f Hf).
Qed.

Lemma receive_all_frames chunks : ∀ fs acc buf,
  Forall sc_valid fs → buf ++ concat chunks = encode_all fs → (chunks = [] → buf = []) →
  receive_all chunks (acc, buf) = Ok (acc ++ fs, []).
Proof.
  induction chunks as [|c chunks IH]; intros fs acc buf Hv Heq Hlast.
  { rewrite Hlast in * by done. simpl in *. rewrite (encode_all_nil fs) by done.
    by rewrite app_nil_r. }
  cbn [receive_all concat] in *. unfold receive. cbn [fst snd].
  destruct (drain_frames fs (S (length (buf ++ c))) (buf ++ c) (concat chunks) acc Hv)
    as (fs1 & fs2 & buf' & -> & Hrest & Hend & Hd); [lia|by rewrite <- app_assoc|].
  rewrite Hd. cbn [res_bind]. apply Forall_app in Hv as [_ Hv2].
  rewrite (IH fs2 (acc ++ fs1) buf' Hv2 Hrest), app_assoc; [done|].
  intros ->. rewrite (Hend eq_refl) in Hrest. by apply app_nil in Hrest as [-> _].
Qed.
End Stream.

(** ** Headers round trip *)

Record request_header_ok (h : RequestHeader) : Prop := {
  qh_magic : rq_magic h = MAGIC;
  qh_version : rq_version h = VERSION;
  qh_serialize : rq_serialize_type h = STRUCT_PACK_SERIALIZATION;
  qh_msg : byte_ok (rq_msg_type h);
  qh_sequence : rq_sequence h < 2 ^ 32;
  qh_function : rq_function_id h < 2 ^ 32;
  qh_body : rq_body_len h < 2 ^ 32;
  qh_attachment : rq_attachment_len h < 2 ^ 32
}.

Record response_header_ok (h : ResponseHeader) : Prop := {
  sh_magic : rs_magic h = MAGIC;
  sh_version : rs_version h = VERSION;
  sh_error : byte_ok (rs_error_code h);
  sh_msg : byte_ok (rs_msg_type h);
  sh_sequence : rs_sequence h < 2 ^ 32;
  sh_body : rs_body_len h < 2 ^ 32;
  sh_attachment : rs_attachment_len h < 2 ^ 32
}.

Lemma len_cons b l : len (b :: l) = 1 + len l.
Proof. unfold len. simpl length. lia. Qed.

Lemma len_request_header h : len (request_header_encode h) = 20.
Proof. unfold request_header_encode. autorewrite with cake. done. Qed.

Lemma len_response_header h : len (response_header_encode h) = 16.
Proof. unfold response_header_encode. autorewrite with cake. done. Qed.

Lemma request_header_round h :
  request_header_ok h → request_header_decode (request_header_encode h) = Ok h.
Proof.
  intros [Hm Hv Hs _ ? ? ? ?]. unfold request_header_decode.
  rewrite len_request_header. simpl negb. cbn iota. unfold request_header_encode.
  rewrite (split_to_app 4) by done. cbn [or_panic res_bind app lookup list_lookup snd].
  rewrite get_u32_le_app by done. cbn [or_panic res_bind fst snd].
  rewrite get_u32_le_app by done. cbn [or_panic res_bind fst snd].
  rewrite get_u32_le_app by done. cbn [or_panic res_bind fst snd].
  rewrite <- (app_nil_r (le_bytes 4 (rq_attachment_len h))), get_u32_le_app by done.
  cbn [or_panic res_bind fst snd]. rewrite Hm, Hv, Hs. destruct h. simpl in *. by subst.
Qed.

Lemma response_header_round h :
  response_header_ok h → response_header_decode (response_header_encode h) = Ok h.
Proof.
  intros [Hm Hv _ _ ? ? ?]. unfold response_header_decode.
  rewrite len_response_header. simpl negb. cbn iota. unfold response_header_encode.
  rewrite (split_to_app 4) by done. cbn [or_panic res_bind app lookup list_lookup snd].
  rewrite get_u32_le_app by done. cbn [or_panic res_bind fst snd].
  rewrite get_u32_le_app by done. cbn [or_panic res_bind fst snd].
  rewrite <- (app_nil_r (le_bytes 4 (rs_attachment_len h))), get_u32_le_app by done.
  cbn [or_panic res_bind fst snd]. rewrite Hm, Hv. destruct h. simpl in *. by subst.
Qed.

(** ** Payloads *)

Lemma validate_lengths_ok bl al limits :
  bl <= max_body_len limits → al <= max_attachment_len limits → bl < 2 ^ 32 → al < 2 ^ 32 →
  validate_lengths bl al limits = Ok (bl + al).
Proof.
  intros Hb Ha Hb32 Ha32. unfold validate_lengths.
  destruct (N.ltb_spec (max_body_len limits) bl); [lia|].
  destruct (N.ltb_spec (max_attachment_len limits) al); [lia|].
  assert (checked_add bl al = Some (bl + al)) as ->; [|done].
  apply checked_add_Some. split; [done|]. u64.
Qed.

Lemma validate_lengths_Ok bl al limits n :
  validate_lengths bl al limits = Ok n →
  bl <= max_body_len limits ∧ al <= max_attachment_len limits ∧ n = bl + al.
Proof.
  unfold validate_lengths. destruct (N.ltb_spec (max_body_len limits) bl); [done|].
  destruct (N.ltb_spec (max_attachment_len limits) al); [done|].
  destruct (checked_add bl al) eqn:He; [|done]. apply checked_add_Some in He as [-> _].
  by intros [= <-].
Qed.

Lemma frame_len_ok hl bl al :
  hl <= 20 → bl < 2 ^ 32 → al < 2 ^ 32 → checked_add hl (bl + al) = Some (hl + (bl + al)).
Proof. intros ? ? ?. apply checked_add_Some. split; [done|]. u64. Qed.

(** Body and attachment behind a header. *)
Lemma decode_payload_frame header body attachment rest limits :
  len header <= 20 → len body <= max_body_len limits → len attachment <= max_attachment_len limits →
  len body < 2 ^ 32 → len attachment < 2 ^ 32 →
  decode_payload (header ++ body ++ attachment ++ rest) (len header) (len body) (len attachment)
    limits = (Ok (Some (body, attachment)), rest).
Proof.
  intros Hh Hb Ha Hb32 Ha32. unfold decode_payload.
  rewrite validate_lengths_ok, frame_len_ok by done. autorewrite with cake.
  destruct (N.ltb_spec (len header + (len body + (len attachment + len rest)))
    (len header + (len body + len attachment))); [lia|].
  by rewrite !split_to_app.
Qed.

(** A buffer that ends inside a frame. *)
Lemma decode_payload_partial source hl bl al limits :
  hl <= 20 → bl <= max_body_len limits → al <= max_attachment_len limits →
  bl < 2 ^ 32 → al < 2 ^ 32 → len source < hl + (bl + al) →
  decode_payload source hl bl al limits = (Ok None, source).
Proof.
  intros Hh Hb Ha Hb32 Ha32 Hlen. unfold decode_payload.
  rewrite validate_lengths_ok, frame_len_ok by done.
  by destruct (N.ltb_spec (len source) (hl + (bl + al))); [|lia].
Qed.

(** What a successful call took from the buffer. *)
Lemma decode_payload_Some source hl bl al limits body attachment rest :
  decode_payload source hl bl al limits = (Ok (Some (body, attachment)), rest) →
  (∃ header, source = header ++ body ++ attachment ++ rest ∧ len header = hl) ∧
  len body = bl ∧ len attachment = al ∧
  bl <= max_body_len limits ∧ al <= max_attachment_len limits.
Proof.
  unfold decode_payload. destruct (validate_lengths bl al limits) as [n| |] eqn:Hv; [|done..].
  apply validate_lengths_Ok in Hv as (Hb & Ha & ->). destruct (checked_add _ _); [|done].
  destruct (len source <? _); [done|].
  destruct (split_to hl source) as [[h s1]|] eqn:H1; [|done]. apply split_to_Some in H1 as [-> H1].
  destruct (split_to bl s1) as [[b s2]|] eqn:H2; [|done]. apply split_to_Some in H2 as [-> H2].
  destruct (split_to al s2) as [[a s3]|] eqn:H3; [|done]. apply split_to_Some in H3 as [-> H3].
  intros [= <- <- <-]. split; [by exists h|done].
Qed.

(** The payload decoder leaves the buffer unless it takes a frame, and its
    slices are always in range. *)
Lemma decode_payload_total source hl bl al limits :
  match decode_payload source hl bl al limits with
  | (Ok (Some _), _) => True
  | (Panic, _) => False
  | (_, s) => s = source
  end.
Proof.
  unfold decode_payload. destruct (validate_lengths bl al limits) as [n| |] eqn:Hv; [|done|].
  - apply validate_lengths_Ok in Hv as (Hb & Ha & ->).
    destruct (checked_add hl (bl + al)) as [k|] eqn:Hk; [|done].
    apply checked_add_Some in Hk as [-> _].
    destruct (N.ltb_spec (len source) (hl + (bl + al))) as [|Hlen]; [done|].
    destruct (split_to hl source) as [[h s1]|] eqn:H1; [|apply split_to_None in H1; lia].
    apply split_to_Some in H1 as [-> H1]. autorewrite with cake in Hlen.
    destruct (split_to bl s1) as [[b s2]|] eqn:H2; [|apply split_to_None in H2; lia].
    apply split_to_Some in H2 as [-> H2]. autorewrite with cake in Hlen.
    destruct (split_to al s2) as [[a s3]|] eqn:H3; [done|apply split_to_None in H3; lia].
  - revert Hv. unfold validate_lengths. repeat case_match; done.
Qed.

(** ** Decoding arbitrary headers *)

Lemma get_u32_le_total l k : len l = 4 + k →
  ∃ n t, get_u32_le l = Some (n, t) ∧ len t = k ∧
    (bytes_ok l → l = le_bytes 4 n ++ t ∧ n < 2 ^ 32 ∧ bytes_ok t).
Proof.
  intros Hl. destruct (get_u32_le l) as [[n t]|] eqn:He; [|apply get_u32_le_None in He; lia].
  exists n, t. split; [done|]. split.
  - unfold get_u32_le in He. destruct (split_to 4 l) as [[h t']|] eqn:Hs; [|done].
    injection He as <- <-. apply split_to_Some in Hs as [-> Hh]. autorewrite with cake in Hl. lia.
  - intros Hok. destruct (get_u32_le_Some l n t He Hok) as [-> Hn].
    apply bytes_ok_app in Hok as [_ Hok]. done.
Qed.

Lemma header_bytes b n : len b = 4 + n →
  ∃ b0 b1 b2 b3 f, b = [b0; b1; b2; b3] ++ f ∧ len f = n ∧ split_to 4 b = Some ([b0; b1; b2; b3], f).
Proof.
  unfold len. intros Hl. destruct b as [|b0 [|b1 [|b2 [|b3 f]]]]; simpl in Hl; try lia.
  exists b0, b1, b2, b3, f. split; [done|]. split; [lia|].
  apply (split_to_app 4 [b0; b1; b2; b3]). done.
Qed.

Lemma validate_common_spec m v :
  match validate_common m v with
  | Ok _ => m = MAGIC ∧ v = VERSION
  | Err _ => True
  | Panic => False
  end.
Proof.
  unfold validate_common, VERSION. destruct (N.eqb_spec m MAGIC); simpl; [|done].
  destruct (N.ltb_spec 0 v); [done|]. split; [done|lia].
Qed.

Lemma request_header_decode_spec b :
  match request_header_decode b with
  | Ok h => bytes_ok b → request_header_ok h ∧ request_header_encode h = b
  | Err _ => True
  | Panic => False
  end.
Proof.
  unfold request_header_decode. destruct (N.eqb_spec (len b) REQUEST_HEADER_LEN) as [Hl|]; [|done].
  destruct (header_bytes b 16 Hl) as (b0 & b1 & b2 & b3 & f & -> & Hf & ->).
  cbn [negb or_panic res_bind app lookup list_lookup fst snd].
  destruct (get_u32_le_total f 12 Hf) as (sq & f1 & -> & H1 & B1). cbn [or_panic res_bind fst snd].
  destruct (get_u32_le_total f1 8 H1) as (fid & f2 & -> & H2 & B2). cbn [or_panic res_bind fst snd].
  destruct (get_u32_le_total f2 4 H2) as (bl & f3 & -> & H3 & B3). cbn [or_panic res_bind fst snd].
  destruct (get_u32_le_total f3 0 H3) as (al & f4 & -> & H4 & B4). cbn [or_panic res_bind fst snd].
  pose proof (validate_common_spec b0 b1) as Hc.
  destruct (validate_common b0 b1) as [[]| |]; [|done..]. cbn [res_bind]. destruct Hc as [-> ->].
  destruct (N.eqb_spec b2 STRUCT_PACK_SERIALIZATION) as [->|]; cbn [negb]; [|done].
  intros Hok. change (bytes_ok ([MAGIC; VERSION; STRUCT_PACK_SERIALIZATION; b3] ++ f)) in Hok.
  apply bytes_ok_app in Hok as [Hh Hok]. destruct (B1 Hok) as (-> & ? & O1).
  destruct (B2 O1) as (-> & ? & O2). destruct (B3 O2) as (-> & ? & O3). destruct (B4 O3) as (-> & ? & _).
  assert (f4 = []) as -> by (by destruct f4; [|rewrite len_cons in H4; lia]).
  unfold bytes_ok in Hh. rewrite !Forall_cons in Hh. destruct Hh as (? & ? & ? & ? & _).
  split; [by split|]. unfold request_header_encode.
  cbn [rq_magic rq_version rq_serialize_type rq_msg_type rq_sequence rq_function_id rq_body_len
       rq_attachment_len]. by rewrite app_nil_r.
Qed.

Lemma response_header_decode_spec b :
  match response_header_decode b with
  | Ok h => bytes_ok b → response_header_ok h ∧ response_header_encode h = b
  | Err _ => True
  | Panic => False
  end.
Proof.
  unfold response_header_decode.
  destruct (N.eqb_spec (len b) RESPONSE_HEADER_LEN) as [Hl|]; [|done].
  destruct (header_bytes b 12 Hl) as (b0 & b1 & b2 & b3 & f & -> & Hf & ->).
  cbn [negb or_panic res_bind app lookup list_lookup fst snd].
  destruct (get_u32_le_total f 8 Hf) as (sq & f1 & -> & H1 & B1). cbn [or_panic res_bind fst snd].
  destruct (get_u32_le_total f1 4 H1) as (bl & f2 & -> & H2 & B2). cbn [or_panic res_bind fst snd].
  destruct (get_u32_le_total f2 0 H2) as (al & f3 & -> & H3 & B3). cbn [or_panic res_bind fst snd].
  pose proof (validate_common_spec b0 b1) as Hc.
  destruct (validate_common b0 b1) as [[]| |]; [|done..]. cbn [res_bind]. destruct Hc as [-> ->].
  intros Hok. change (bytes_ok ([MAGIC; VERSION; b2; b3] ++ f)) in Hok.
  apply bytes_ok_app in Hok as [Hh Hok]. destruct (B1 Hok) as (-> & ? & O1).
  destruct (B2 O1) as (-> & ? & O2). destruct (B3 O2) as (-> & ? & _).
  assert (f3 = []) as -> by (by destruct f3; [|rewrite len_cons in H3; lia]).
  unfold bytes_ok in Hh. rewrite !Forall_cons in Hh. destruct Hh as (? & ? & ? & ? & _).
  split; [by split|]. unfold response_header_encode.
  cbn [rs_magic rs_version rs_error_code rs_msg_type rs_sequence rs_body_len rs_attachment_len].
  by rewrite app_nil_r.
Qed.

(** ** The codecs implement the contract *)

Record request_frame_ok (limits : FrameLimits) (f : RequestFrame) : Prop := {
  qf_header : request_header_ok (rq_header f);
  qf_body : rq_body_len (rq_header f) = len (rq_body f);
  qf_attachment : rq_attachment_len (rq_header f) = len (rq_attachment f);
  qf_body_limit : len (rq_body f) <= max_body_len limits;
  qf_attachment_limit : len (rq_attachment f) <= max_attachment_len limits
}.

Record response_frame_ok (limits : FrameLimits) (f : ResponseFrame) : Prop := {
  sf_header : response_header_ok (rs_header f);
  sf_body : rs_body_len (rs_header f) = len (rs_body f);
  sf_attachment : rs_attachment_len (rs_header f) = len (rs_attachment f);
  sf_body_limit : len (rs_body f) <= max_body_len limits;
  sf_attachment_limit : len (rs_attachment f) <= max_attachment_len limits
}.

Definition request_bytes (f : RequestFrame) : bytes :=
  request_header_encode (rq_header f) ++ rq_body f ++ rq_attachment f.
Definition response_bytes (f : ResponseFrame) : bytes :=
  response_header_encode (rs_header f) ++ rs_body f ++ rs_attachment f.

Lemma take_header h n rest : len h = N.of_nat n → take n (h ++ rest) = h.
Proof. unfold len. intros Hl. apply take_app_length'. lia. Qed.

Lemma has_header_false source n : len source < n → has_header source n = false.
Proof. unfold has_header. intros ?. apply N.leb_gt. done. Qed.

Lemma has_header_true source n : n <= len source → has_header source n = true.
Proof. unfold has_header. intros ?. by apply N.leb_le. Qed.

Lemma encode_parts_ok header body attachment dest :
  len header <= 20 → len body < 2 ^ 32 → len attachment < 2 ^ 32 →
  encode_parts header (len body) (len attachment) body attachment dest =
    (Ok tt, dest ++ header ++ body ++ attachment).
Proof.
  intros Hh Hb Ha. unfold encode_parts, validate_encoded_length. rewrite !N.eqb_refl. simpl.
  assert (checked_add (len header) (len body) = Some (len header + len body)) as ->
    by (apply checked_add_Some; split; [done|u64]). simpl.
  assert (checked_add (len header + len body) (len attachment) =
          Some (len header + len body + len attachment)) as ->
    by (apply checked_add_Some; split; [done|u64]). done.
Qed.

Lemma request_encode_ok limits f dest :
  request_frame_ok limits f → request_encode f dest = (Ok tt, dest ++ request_bytes f).
Proof.
  intros [Hh Hb Ha _ _]. unfold request_encode. rewrite Hb, Ha. apply encode_parts_ok.
  - by rewrite len_request_header.
  - rewrite <- Hb. apply Hh.
  - rewrite <- Ha. apply Hh.
Qed.

Lemma response_encode_ok limits f dest :
  response_frame_ok limits f → response_encode f dest = (Ok tt, dest ++ response_bytes f).
Proof.
  intros [Hh Hb Ha _ _]. unfold response_encode. rewrite Hb, Ha. apply encode_parts_ok.
  - by rewrite len_response_header.
  - rewrite <- Hb. apply Hh.
  - rewrite <- Ha. apply Hh.
Qed.

Lemma request_decode_frame limits f rest :
  request_frame_ok limits f → request_decode limits (request_bytes f ++ rest) = (Ok (Some f), rest).
Proof.
  intros [Hh Hb Ha Hbl Hal]. unfold request_decode, request_bytes.
  pose proof (len_request_header (rq_header f)) as Hlen.
  rewrite has_header_true by (autorewrite with cake; unfold REQUEST_HEADER_LEN; lia). cbn [negb].
  rewrite <- !app_assoc, (take_header _ 20) by done.
  rewrite request_header_round by done. cbn [lift]. rewrite Hb, Ha.
  replace REQUEST_HEADER_LEN with (len (request_header_encode (rq_header f))) by done.
  rewrite decode_payload_frame; [by destruct f|by rewrite Hlen|done|done| |].
  - rewrite <- Hb. apply Hh.
  - rewrite <- Ha. apply Hh.
Qed.

Lemma response_decode_frame limits f rest :
  response_frame_ok limits f →
  response_decode limits (response_bytes f ++ rest) = (Ok (Some f), rest).
Proof.
  intros [Hh Hb Ha Hbl Hal]. unfold response_decode, response_bytes.
  pose proof (len_response_header (rs_header f)) as Hlen.
  rewrite has_header_true by (autorewrite with cake; unfold RESPONSE_HEADER_LEN; lia). cbn [negb].
  rewrite <- !app_assoc, (take_header _ 16) by done.
  rewrite response_header_round by done. cbn [lift]. rewrite Hb, Ha.
  replace RESPONSE_HEADER_LEN with (len (response_header_encode (rs_header f))) by done.
  rewrite decode_payload_frame; [by destruct f|by rewrite Hlen|done|done| |].
  - rewrite <- Hb. apply Hh.
  - rewrite <- Ha. apply Hh.
Qed.

(** The front of a frame that is cut off. *)
Lemma cut_header h payload p q n :
  h ++ payload = p ++ q → len h = N.of_nat n → N.of_nat n <= len p → take n p = h.
Proof.
  intros Heq Hl Hp. unfold len in *.
  assert (take n (h ++ payload) = take n (p ++ q)) as Ht by (by rewrite Heq).
  rewrite take_app_length' in Ht by lia. by rewrite take_app_le in Ht by lia.
Qed.

Lemma request_decode_partial limits f p q :
  request_frame_ok limits f → request_bytes f = p ++ q → q ≠ [] →
  request_decode limits p = (Ok None, p).
Proof.
  intros [Hh Hb Ha Hbl Hal] Heq Hq. unfold request_decode.
  pose proof (len_request_header (rq_header f)) as Hlen.
  destruct (N.lt_ge_cases (len p) REQUEST_HEADER_LEN) as [Hs|Hs];
    [by rewrite has_header_false|rewrite has_header_true by done; cbn [negb]].
  assert (len (request_bytes f) = len p + len q) as Htot by (by rewrite Heq, len_app).
  assert (0 < len q) by (destruct q; [done|rewrite len_cons; lia]).
  unfold request_bytes in *. rewrite (cut_header _ _ _ _ 20 Heq) by done.
  rewrite request_header_round by done. cbn [lift]. autorewrite with cake in Htot.
  rewrite decode_payload_partial; [done|done|by rewrite Hb|by rewrite Ha|apply Hh|apply Hh|].
  unfold REQUEST_HEADER_LEN. lia.
Qed.

Lemma response_decode_partial limits f p q :
  response_frame_ok limits f → response_bytes f = p ++ q → q ≠ [] →
  response_decode limits p = (Ok None, p).
Proof.
  intros [Hh Hb Ha Hbl Hal] Heq Hq. unfold response_decode.
  pose proof (len_response_header (rs_header f)) as Hlen.
  destruct (N.lt_ge_cases (len p) RESPONSE_HEADER_LEN) as [Hs|Hs];
    [by rewrite has_header_false|rewrite has_header_true by done; cbn [negb]].
  assert (len (response_bytes f) = len p + len q) as Htot by (by rewrite Heq, len_app).
  assert (0 < len q) by (destruct q; [done|rewrite len_cons; lia]).
  unfold response_bytes in *. rewrite (cut_header _ _ _ _ 16 Heq) by done.
  rewrite response_header_round by done. cbn [lift]. autorewrite with cake in Htot.
  rewrite decode_payload_partial; [done|by unfold RESPONSE_HEADER_LEN|by rewrite Hb|by rewrite Ha
    |apply Hh|apply Hh|]. unfold RESPONSE_HEADER_LEN. lia.
Qed.

Definition request_codec (limits : FrameLimits) : StreamCodec RequestFrame.
Proof.
  refine {| sc_encode := request_bytes; sc_decode := server_decode limits;
            sc_valid := request_frame_ok limits |}.
  - by intros f _.
  - intros f rest. apply request_decode_frame.
  - intros f p q. apply request_decode_partial.
  - done.
Defined.

Definition response_codec (limits : FrameLimits) : StreamCodec ResponseFrame.
Proof.
  refine {| sc_encode := response_bytes; sc_decode := client_decode limits;
            sc_valid := response_frame_ok limits |}.
  - by intros f _.
  - intros f rest. apply response_decode_frame.
  - intros f p q. apply response_decode_partial.
  - done.
Defined.

(** The bytes the two ends write for a list of frames. *)
Definition client_writes (fs : list RequestFrame) : bytes :=
  foldl (fun d f => (client_encode f d).2) [] fs.
Definition server_writes (fs : list ResponseFrame) : bytes :=
  foldl (fun d f => (server_encode f d).2) [] fs.

Lemma client_writes_bytes limits fs : ∀ d,
  Forall (request_frame_ok limits) fs →
  foldl (fun d f => (client_encode f d).2) d fs = d ++ concat (map request_bytes fs).
Proof.
  induction fs as [|f fs IH]; intros d Hv;
    cbn [foldl map concat]; [by rewrite app_nil_r|].
  apply Forall_cons in Hv as [Hf Hv]. rewrite IH by done. unfold client_encode.
  rewrite (request_encode_ok limits) by done. cbn [snd]. by rewrite <- app_assoc.
Qed.

Lemma server_writes_bytes limits fs : ∀ d,
  Forall (response_frame_ok limits) fs →
  foldl (fun d f => (server_encode f d).2) d fs = d ++ concat (map response_bytes fs).
Proof.
  induction fs as [|f fs IH]; intros d Hv;
    cbn [foldl map concat]; [by rewrite app_nil_r|].
  apply Forall_cons in Hv as [Hf Hv]. rewrite IH by done. unfold server_encode.
  rewrite (response_encode_ok limits) by done. cbn [snd]. by rewrite <- app_assoc.
Qed.

(** C23: Frames survive the stream in both directions.  However the bytes that
    a client wrote for a list of requests are cut into chunks, the server's
    receive loop yields exactly these requests in order and leaves no byte in
    the buffer; and so for the responses on the way back. *)
Theorem streams_round_trip limits reqs resps chunks chunks' :
  Forall (request_frame_ok limits) reqs → concat chunks = client_writes reqs →
  Forall (response_frame_ok limits) resps → concat chunks' = server_writes resps →
  receive_all (H := request_codec limits) chunks ([], []) = Ok (reqs, []) ∧
  receive_all (H := response_codec limits) chunks' ([], []) = Ok (resps, []).
Proof.
  intros Hq Hcq Hs Hcs. unfold client_writes in Hcq. unfold server_writes in Hcs.
  rewrite (client_writes_bytes limits) in Hcq by done.
  rewrite (server_writes_bytes limits) in Hcs by done.
  split.
  - by apply (receive_all_frames (H := request_codec limits) chunks reqs [] []).
  - by apply (receive_all_frames (H := response_codec limits) chunks' resps [] []).
Qed.

(** What a decoder guarantees on every buffer: no panic, an untouched buffer
    unless a frame is taken, frames within the limits. *)
Definition decode_sound {F} (limits : FrameLimits) (body attachment enc : F → bytes)
    (source : bytes) (out : res FrameError (option F) * bytes) : Prop :=
  match out with
  | (Ok (Some f), rest) =>
      len (body f) <= max_body_len limits ∧ len (attachment f) <= max_attachment_len limits ∧
      (bytes_ok source → enc f ++ rest = source)
  | (Panic, _) => False
  | (_, rest) => rest = source
  end.

(** The decoders are safe on every input.  On any buffer, malformed ones
    included, they do not panic; an error or an incomplete frame leaves the
    buffer as it is; a frame they return respects the configured limits and its
    encoding is exactly what was taken from the buffer. *)
Theorem decoders_sound limits source :
  decode_sound limits rq_body rq_attachment request_bytes source (request_decode limits source) ∧
  decode_sound limits rs_body rs_attachment response_bytes source (response_decode limits source).
Proof.
  split.
  - unfold request_decode. destruct (has_header source REQUEST_HEADER_LEN) eqn:Hh; [|done].
    cbn [negb]. pose proof (request_header_decode_spec (take 20 source)) as Hspec.
    destruct (request_header_decode (take 20 source)) as [h|e|] eqn:Hd; cbn [lift]; [|done|done].
    pose proof (decode_payload_total source REQUEST_HEADER_LEN (rq_body_len h)
      (rq_attachment_len h) limits) as Ht.
    destruct (decode_payload _ _ _ _ _) as [[[[body att]|]|e|] s] eqn:Hp; try done.
    apply decode_payload_Some in Hp as ((hb & -> & Hl) & Hb & Ha & Hbl & Hal).
    rewrite (take_header _ 20) in Hspec by done. cbn [decode_sound rq_body rq_attachment rs_body rs_attachment].
    split_and!; [lia|lia|].
    intros Hok. apply bytes_ok_app in Hok as [Hok _]. destruct (Hspec Hok) as [_ He].
    unfold request_bytes. cbn [rq_header rq_body rq_attachment]. by rewrite He, <- !app_assoc.
  - unfold response_decode. destruct (has_header source RESPONSE_HEADER_LEN) eqn:Hh; [|done].
    cbn [negb]. pose proof (response_header_decode_spec (take 16 source)) as Hspec.
    destruct (response_header_decode (take 16 source)) as [h|e|] eqn:Hd; cbn [lift]; [|done|done].
    pose proof (decode_payload_total source RESPONSE_HEADER_LEN (rs_body_len h)
      (rs_attachment_len h) limits) as Ht.
    destruct (decode_payload _ _ _ _ _) as [[[[body att]|]|e|] s] eqn:Hp; try done.
    apply decode_payload_Some in Hp as ((hb & -> & Hl) & Hb & Ha & Hbl & Hal).
    rewrite (take_header _ 16) in Hspec by done. cbn [decode_sound rq_body rq_attachment rs_body rs_attachment].
    split_and!; [lia|lia|].
    intros Hok. apply bytes_ok_app in Hok as [Hok _]. destruct (Hspec Hok) as [_ He].
    unfold response_bytes. cbn [rs_header rs_body rs_attachment]. by rewrite He, <- !app_assoc.
Qed.

Definition example_request : RequestFrame :=
  mkRequestFrame (RequestHeader_new 7 42 3 2) [1; 2; 3] [9; 9].
Definition example_response : ResponseFrame :=
  mkResponseFrame (ResponseHeader_new 7 0 1 0) [5] [].

Lemma streams_round_trip_witness :
  receive_all (H := request_codec limits_default)
    [take 9 (request_bytes example_request); drop 9 (request_bytes example_request)] ([], []) =
    Ok ([example_request], []).
Proof.
  apply (streams_round_trip limits_default [example_request] [example_response]
    [take 9 (request_bytes example_request); drop 9 (request_bytes example_request)]
    [response_bytes example_response]).
  - repeat constructor; done.
  - by vm_compute.
  - repeat constructor; done.
  - by vm_compute.
Defined.
