(* ===== verification/StructPack.v ===== *)
(** * struct_pack serialization

    [src/crates/coro-rpc/src/struct_pack.rs]: the class of values with a wire
    schema, its instances for primitives, strings, containers, options, results
    and reflected structs, and the envelope with type hash and metadata.  An
    encoder only appends, so [encode_payload] returns the bytes it appends; a
    decoder is the unread input with its length width and container limit.  The
    MD5 digest is a library function, so it is an argument of the definitions
    that use it. *)
From S2P Require Import Prelude Wire.

Definition TYPE_CHAR8 : N := 12.
Definition TYPE_CHAR32 : N := 14.
Definition TYPE_BOOL : N := 11.
Definition TYPE_STRING : N := 128.
Definition TYPE_ARRAY : N := 129.
Definition TYPE_MAP : N := 130.
Definition TYPE_SET : N := 131.
Definition TYPE_CONTAINER : N := 132.
Definition TYPE_OPTIONAL : N := 133.
Definition TYPE_EXPECTED : N := 135.
Definition TYPE_MONOSTATE : N := 250.
Definition TYPE_STRUCT : N := 253.
Definition TYPE_END : N := 255.

Definition META_COMPATIBLE_SIZE_MASK : N := 3.
Definition META_TYPE_LITERAL : N := 4.
Definition META_LENGTH_WIDTH_MASK : N := 24.
Definition META_RESERVED_MASK : N := 224.
Definition DEFAULT_CONTAINER_LIMIT : N := 64 * 1024 * 1024.
Definition HASH_MASK : N := 4294967294.

Inductive StructPackError :=
| UnexpectedEof (needed remaining : N)
| InvalidTypeHash (expected actual : N)
| InvalidTypeLiteral
| InvalidUtf8
| InvalidBool (b : N)
| InvalidChar (c : N)
| InvalidEnumDiscriminant (name : bytes) (value : Z)
| InvalidVariantIndex (name : bytes) (index alternatives : N)
| ContainerTooLarge (length limit : N)
| LengthOverflow
| TrailingBytes (n : N)
| ReservedMetadata
| DeclaredSizeMismatch (declared actual : N).

(** ** The decoder *)

Record Decoder := mkDecoder { d_rest : bytes; d_width : N; d_limit : N }.

Definition dec (A : Type) : Type := Decoder → res StructPackError (A * Decoder).

Definition dec_ret {A} (x : A) : dec A := fun d => Ok (x, d).
Definition dec_bind {A B} (m : dec A) (k : A → dec B) : dec B := fun d =>
  match m d with
  | Ok (x, d') => k x d'
  | Err e => Err e
  | Panic => Panic
  end.
Definition dec_fail {A} (e : StructPackError) : dec A := fun _ => Err e.
Definition dec_panic {A} : dec A := fun _ => Panic.

Notation "'dec?' x := m 'in' k" := (dec_bind m (fun x => k))
  (at level 10, x name, m at level 100, k at level 200) : cake_scope.

Definition read_exact (n : N) : dec bytes := fun d =>
  match split_to n (d_rest d) with
  | Some (h, t) => Ok (h, mkDecoder t (d_width d) (d_limit d))
  | None => Err (UnexpectedEof n (len (d_rest d)))
  end.

(** [read_array::<N>] and the integers read through it. *)
Definition read_uint (k : nat) : dec N := dec? b := read_exact (N.of_nat k) in dec_ret (le_num b).

Definition read_u8 : dec N := dec? b := read_exact 1 in
  match b with x :: _ => dec_ret x | [] => dec_panic end.

Definition read_len : dec N := fun d =>
  (dec? length :=
     match d_width d with
     | 1 => read_u8
     | 2 => read_uint 2
     | 4 => read_uint 4
     | 8 => read_uint 8
     | _ => dec_panic
     end in
   if d_limit d <? length then dec_fail (ContainerTooLarge length (d_limit d))
   else if U64_MAX <? length then dec_fail LengthOverflow
   else dec_ret length) d.

(** ** The encoder *)

Definition write_len (w length : N) : res StructPackError bytes :=
  match w with
  | 1 => if 255 <? length then Err LengthOverflow else Ok (le_bytes 1 length)
  | 2 => if 65535 <? length then Err LengthOverflow else Ok (le_bytes 2 length)
  | 4 => if U32_MAX <? length then Err LengthOverflow else Ok (le_bytes 4 length)
  | 8 => if U64_MAX <? length then Err LengthOverflow else Ok (le_bytes 8 length)
  | _ => Panic
  end.

Definition width_for_length (length : N) : N :=
  if length <? 2 ^ 8 then 1 else if length <? 2 ^ 16 then 2
  else if length <? 2 ^ 32 then 4 else 8.

Definition width_tag (w : N) : res StructPackError N :=
  match w with
  | 1 => Ok 0
  | 2 => Ok 1
  | 4 => Ok 2
  | 8 => Ok 3
  | _ => Panic
  end.

(** The loop of [append_size_literal]; [fuel] bounds the number of digits. *)
Fixpoint size_literal (fuel : nat) (size : N) : bytes :=
  match fuel with
  | O => []
  | S fuel' =>
      if 127 <=? size then size mod 127 + 1 :: size_literal fuel' (size / 127)
      else [size + 129]
  end.

(** Ten digits are enough for a [usize]. *)
Definition append_size_literal (size : N) : bytes := size_literal 11 size.

(** ** The class *)

Class StructPack (T : Type) := {
  type_literal : bytes;
  max_container_len : T → N;
  encode_payload : N → T → res StructPackError bytes;
  decode_payload : dec T
}.
Arguments type_literal T {_}.
Arguments decode_payload T {_}.

(** Appending the encodings of a list of values. *)
Fixpoint encode_each {T} `{StructPack T} (w : N) (l : list T) : res StructPackError bytes :=
  match l with
  | [] => Ok []
  | x :: l' =>
      let? b := encode_payload w x in
      let? r := encode_each w l' in
      Ok (b ++ r)
  end.

Fixpoint decode_each {T} `{StructPack T} (n : nat) : dec (list T) :=
  match n with
  | O => dec_ret []
  | S n' =>
      dec? x := decode_payload T in
      dec? l := decode_each n' in
      dec_ret (x :: l)
  end.

Definition max_len_each {T} `{StructPack T} (start : N) (l : list T) : N :=
  foldl (fun m x => N.max m (max_container_len x)) start l.

(** *** Numbers *)

(** Unsigned integers and floats of [k] bytes, floats as their bits. *)
Record UInt (k : nat) := mkUInt { uval : N }.
Record Float (k : nat) := mkFloat { fbits : N }.
Record SInt (k : nat) := mkSInt { sval : Z }.
Arguments mkUInt {k} _. Arguments uval {k} _.
Arguments mkFloat {k} _. Arguments fbits {k} _.
Arguments mkSInt {k} _. Arguments sval {k} _.

Definition uint_id (k : nat) : N :=
  match k with 1%nat => 6 | 2%nat => 8 | 4%nat => 2 | _ => 4 end.
Definition sint_id (k : nat) : N :=
  match k with 1%nat => 5 | 2%nat => 7 | 4%nat => 1 | _ => 3 end.
Definition float_id (k : nat) : N := match k with 4%nat => 17 | _ => 18 end.

Definition byte_modulus (k : nat) : N := 256 ^ N.of_nat k.

(** Two's complement. *)
Definition sint_to_bits (k : nat) (z : Z) : N := Z.to_N (z mod Z.of_N (byte_modulus k))%Z.
Definition sint_of_bits (k : nat) (n : N) : Z :=
  if 2 * n <? byte_modulus k then Z.of_N n else (Z.of_N n - Z.of_N (byte_modulus k))%Z.

#[export] Instance uint_pack k : StructPack (UInt k) := {
  type_literal := [uint_id k];
  max_container_len _ := 0;
  encode_payload _ v := Ok (le_bytes k (uval v));
  decode_payload := dec? n := read_uint k in dec_ret (mkUInt n)
}.

#[export] Instance float_pack k : StructPack (Float k) := {
  type_literal := [float_id k];
  max_container_len _ := 0;
  encode_payload _ v := Ok (le_bytes k (fbits v));
  decode_payload := dec? n := read_uint k in dec_ret (mkFloat n)
}.

#[export] Instance sint_pack k : StructPack (SInt k) := {
  type_literal := [sint_id k];
  max_container_len _ := 0;
  encode_payload _ v := Ok (le_bytes k (sint_to_bits k (sval v)));
  decode_payload := dec? n := read_uint k in dec_ret (mkSInt (sint_of_bits k n))
}.

#[export] Instance bool_pack : StructPack bool := {
  type_literal := [TYPE_BOOL];
  max_container_len _ := 0;
  encode_payload _ v := Ok [if v then 1 else 0];
  decode_payload := dec? b := read_u8 in
    if b =? 0 then dec_ret false else if b =? 1 then dec_ret true else dec_fail (InvalidBool b)
}.

(** [char]: a Unicode scalar value. *)
Record Char := mkChar { cval : N }.
Definition is_scalar (c : N) : bool := (c <? 55296) || ((57343 <? c) && (c <? 1114112)).

#[export] Instance char_pack : StructPack Char := {
  type_literal := [TYPE_CHAR32];
  max_container_len _ := 0;
  encode_payload _ v := Ok (le_bytes 4 (cval v));
  decode_payload := dec? n := read_uint 4 in
    if is_scalar n then dec_ret (mkChar n) else dec_fail (InvalidChar n)
}.

#[export] Instance unit_pack : StructPack unit := {
  type_literal := [TYPE_MONOSTATE];
  max_container_len _ := 0;
  encode_payload _ _ := Ok [];
  decode_payload := dec_ret tt
}.

(** *** Strings *)

Definition cont (b : N) : bool := (128 <=? b) && (b <? 192).
Definition within (lo hi b : N) : bool := (lo <=? b) && (b <=? hi).

(** The well-formed byte sequences of [String::from_utf8]. *)
Fixpoint utf8_valid (l : bytes) : bool :=
  match l with
  | [] => true
  | b0 :: t0 =>
      if b0 <? 128 then utf8_valid t0
      else match t0 with
      | [] => false
      | b1 :: t1 =>
          if within 194 223 b0 then cont b1 && utf8_valid t1
          else match t1 with
          | [] => false
          | b2 :: t2 =>
              if within 224 239 b0 then
                (if b0 =? 224 then within 160 191 b1
                 else if b0 =? 237 then within 128 159 b1 else cont b1) &&
                cont b2 && utf8_valid t2
              else match t2 with
              | [] => false
              | b3 :: t3 =>
                  within 240 244 b0 &&
                  (if b0 =? 240 then within 144 191 b1
                   else if b0 =? 244 then within 128 143 b1 else cont b1) &&
                  cont b2 && cont b3 && utf8_valid t3
              end
          end
      end
  end.

(** [String] as its bytes, and [ByteString]. *)
Record Str := mkStr { str_bytes : bytes }.
Record ByteString := mkByteString { bs_bytes : bytes }.

Definition append_cpp_string_literal : bytes := [TYPE_STRING; TYPE_CHAR8].

#[export] Instance string_pack : StructPack Str := {
  type_literal := append_cpp_string_literal;
  max_container_len v := len (str_bytes v);
  encode_payload w v :=
    let? l := write_len w (len (str_bytes v)) in Ok (l ++ str_bytes v);
  decode_payload :=
    dec? n := read_len in
    dec? b := read_exact n in
    if utf8_valid b then dec_ret (mkStr b) else dec_fail InvalidUtf8
}.

#[export] Instance byte_string_pack : StructPack ByteString := {
  type_literal := append_cpp_string_literal;
  max_container_len v := len (bs_bytes v);
  encode_payload w v :=
    let? l := write_len w (len (bs_bytes v)) in Ok (l ++ bs_bytes v);
  decode_payload :=
    dec? n := read_len in
    dec? b := read_exact n in
    dec_ret (mkByteString b)
}.

(** *** Containers *)

Definition count_of {T} (l : list T) : N := N.of_nat (length l).

#[export] Instance vec_pack {T} `{StructPack T} : StructPack (list T) := {
  type_literal := TYPE_CONTAINER :: type_literal T;
  max_container_len l := max_len_each (count_of l) l;
  encode_payload w l :=
    let? n := write_len w (count_of l) in
    let? b := encode_each w l in
    Ok (n ++ b);
  decode_payload := dec? n := read_len in decode_each (N.to_nat n)
}.

(** [T; n]. *)
Record Arr (T : Type) (n : nat) := mkArr { arr_list : list T }.
Arguments mkArr {T n} _. Arguments arr_list {T n} _.

#[export] Instance array_pack {T} `{StructPack T} n : StructPack (Arr T n) := {
  type_literal := TYPE_ARRAY :: type_literal T ++ append_size_literal (N.of_nat n);
  max_container_len a := max_len_each 0 (arr_list a);
  encode_payload w a := encode_each w (arr_list a);
  decode_payload :=
    dec? l := decode_each n in
    if (length l =? n)%nat then dec_ret (mkArr l) else dec_fail LengthOverflow
}.

#[export] Instance option_pack {T} `{StructPack T} : StructPack (option T) := {
  type_literal := TYPE_OPTIONAL :: type_literal T;
  max_container_len o := match o with Some x => max_container_len x | None => 0 end;
  encode_payload w o :=
    match o with
    | Some x => let? b := encode_payload w x in Ok ([1] ++ b)
    | None => Ok [0]
    end;
  decode_payload :=
    dec? b := read_u8 in
    if b =? 0 then dec_ret None
    else if b =? 1 then dec? x := decode_payload T in dec_ret (Some x)
    else dec_fail (InvalidBool b)
}.

(** [Result<T, E>]: [inl] is [Ok], [inr] is [Err]. *)
#[export] Instance result_pack {T E} `{StructPack T, StructPack E} : StructPack (T + E) := {
  type_literal := TYPE_EXPECTED :: type_literal T ++ type_literal E;
  max_container_len r :=
    match r with inl x => max_container_len x | inr e => max_container_len e end;
  encode_payload w r :=
    match r with
    | inl x => let? b := encode_payload w x in Ok ([1] ++ b)
    | inr e => let? b := encode_payload w e in Ok ([0] ++ b)
    end;
  decode_payload :=
    dec? b := read_u8 in
    if b =? 0 then dec? e := decode_payload E in dec_ret (inr e)
    else if b =? 1 then dec? x := decode_payload T in dec_ret (inl x)
    else dec_fail (InvalidBool b)
}.

(** [Ord], as far as the ordered containers use it. *)
Class Ord (K : Type) := {
  cmp : K → K → comparison;
  cmp_flip x y : cmp x y = CompOpp (cmp y x);
  cmp_trans x y z : cmp x y = Lt → cmp y z = Lt → cmp x z = Lt
}.

(** [BTreeMap] as its entries in key order. *)
Record BTreeMap (K V : Type) := mkMap { map_entries : list (K * V) }.
Arguments mkMap {K V} _. Arguments map_entries {K V} _.
Record BTreeSet (K : Type) := mkSet { set_elems : list K }.
Arguments mkSet {K} _. Arguments set_elems {K} _.

Fixpoint map_insert {K V} `{Ord K} (k : K) (v : V) (l : list (K * V)) : list (K * V) :=
  match l with
  | [] => [(k, v)]
  | (k', v') :: l' =>
      match cmp k k' with
      | Lt => (k, v) :: l
      | Eq => (k', v) :: l'
      | Gt => (k', v') :: map_insert k v l'
      end
  end.

Fixpoint set_insert {K} `{Ord K} (k : K) (l : list K) : list K :=
  match l with
  | [] => [k]
  | k' :: l' =>
      match cmp k k' with
      | Lt => k :: l
      | Eq => l
      | Gt => k' :: set_insert k l'
      end
  end.

Fixpoint encode_entries {K V} `{StructPack K, StructPack V} (w : N) (l : list (K * V))
    : res StructPackError bytes :=
  match l with
  | [] => Ok []
  | (k, v) :: l' =>
      let? a := encode_payload w k in
      let? b := encode_payload w v in
      let? r := encode_entries w l' in
      Ok (a ++ b ++ r)
  end.

Fixpoint decode_entries {K V} `{StructPack K, StructPack V, Ord K} (n : nat) (acc : list (K * V))
    : dec (list (K * V)) :=
  match n with
  | O => dec_ret acc
  | S n' =>
      dec? k := decode_payload K in
      dec? v := decode_payload V in
      decode_entries n' (map_insert k v acc)
  end.

Fixpoint decode_elems {K} `{StructPack K, Ord K} (n : nat) (acc : list K) : dec (list K) :=
  match n with
  | O => dec_ret acc
  | S n' => dec? k := decode_payload K in decode_elems n' (set_insert k acc)
  end.

#[export] Instance map_pack {K V} `{StructPack K, StructPack V, Ord K}
    : StructPack (BTreeMap K V) := {
  type_literal := TYPE_MAP :: type_literal K ++ type_literal V;
  max_container_len m :=
    foldl (fun x kv => N.max (N.max x (max_container_len kv.1)) (max_container_len kv.2))
      (count_of (map_entries m)) (map_entries m);
  encode_payload w m :=
    let? n := write_len w (count_of (map_entries m)) in
    let? b := encode_entries w (map_entries m) in
    Ok (n ++ b);
  decode_payload :=
    dec? n := read_len in
    dec? l := decode_entries (N.to_nat n) [] in
    dec_ret (mkMap l)
}.

#[export] Instance set_pack {K} `{StructPack K, Ord K} : StructPack (BTreeSet K) := {
  type_literal := TYPE_SET :: type_literal K;
  max_container_len s := max_len_each (count_of (set_elems s)) (set_elems s);
  encode_payload w s :=
    let? n := write_len w (count_of (set_elems s)) in
    let? b := encode_each w (set_elems s) in
    Ok (n ++ b);
  decode_payload :=
    dec? n := read_len in
    dec? l := decode_elems (N.to_nat n) [] in
    dec_ret (mkSet l)
}.

(** *** Tuples and reflected structs *)

(** The fields of a tuple or struct in wire order. *)
Record FieldsEnd := mkEnd {}.
Record Fields (A F : Type) := mkFields { field : A; others : F }.
Arguments mkFields {A F} _ _. Arguments field {A F} _. Arguments others {A F} _.

(** A tuple, or a struct of [impl_struct_pack!]. *)
Record Struct (F : Type) := mkStruct { struct_fields : F }.
Arguments mkStruct {F} _. Arguments struct_fields {F} _.

#[export] Instance fields_end_pack : StructPack FieldsEnd := {
  type_literal := [];
  max_container_len _ := 0;
  encode_payload _ _ := Ok [];
  decode_payload := dec_ret mkEnd
}.

#[export] Instance fields_pack {A F} `{StructPack A, StructPack F} : StructPack (Fields A F) := {
  type_literal := type_literal A ++ type_literal F;
  max_container_len f := N.max (max_container_len (field f)) (max_container_len (others f));
  encode_payload w f :=
    let? a := encode_payload w (field f) in
    let? b := encode_payload w (others f) in
    Ok (a ++ b);
  decode_payload :=
    dec? a := decode_payload A in
    dec? b := decode_payload F in
    dec_ret (mkFields a b)
}.

#[export] Instance struct_pack {F} `{StructPack F} : StructPack (Struct F) := {
  type_literal := TYPE_STRUCT :: type_literal F ++ [TYPE_END];
  max_container_len s := max_container_len (struct_fields s);
  encode_payload w s := encode_payload w (struct_fields s);
  decode_payload := dec? f := decode_payload F in dec_ret (mkStruct f)
}.

(** ** Serialization *)

Section Envelope.
Context (md5 : bytes → bytes).

(** [md5_hash32]: the first four bytes of the digest, big-endian. *)
Definition md5_hash32 (input : bytes) : N := le_num (rev (take 4 (md5 input))).

Definition function_id (name : bytes) : N := md5_hash32 name.

Definition type_hash (T : Type) `{StructPack T} : N :=
  N.land (md5_hash32 (type_literal T)) HASH_MASK.

Definition serialize_with_type_hash {T} `{StructPack T} (value : T) (hash0 : N)
    : res StructPackError bytes :=
  let length_width := width_for_length (max_container_len value) in
  let has_metadata := negb (length_width =? 1) in
  let hash := N.lor hash0 (if has_metadata then 1 else 0) in
  let? meta :=
    (if has_metadata then let? t := width_tag length_width in Ok [N.shiftl t 3] else Ok []) in
  let? payload := encode_payload length_width value in
  Ok (le_bytes 4 hash ++ meta ++ payload).

Definition serialize {T} `{StructPack T} (value : T) : res StructPackError bytes :=
  serialize_with_type_hash value (type_hash T).

(** The metadata byte and what follows it: the declared total size and the
    length width. *)
Definition read_metadata (literal : bytes) : dec (option N * N) :=
  dec? metadata := read_u8 in
  if negb (N.land metadata META_RESERVED_MASK =? 0) then dec_fail ReservedMetadata
  else
    dec? declared :=
      match N.land metadata META_COMPATIBLE_SIZE_MASK with
      | 0 => dec_ret None
      | 1 => dec? n := read_uint 2 in dec_ret (Some n)
      | 2 => dec? n := read_uint 4 in dec_ret (Some n)
      | 3 => dec? n := read_uint 8 in dec_ret (Some n)
      | _ => dec_panic
      end in
    dec? ok :=
      (if negb (N.land metadata META_TYPE_LITERAL =? 0) then
         dec? actual := read_exact (len literal) in
         dec? terminator := read_u8 in
         (if negb (bool_decide (actual = literal)) || negb (terminator =? 0)
          then dec_fail InvalidTypeLiteral else dec_ret tt)
       else dec_ret tt) in
    match N.shiftr (N.land metadata META_LENGTH_WIDTH_MASK) 3 with
    | 0 => dec_ret (declared, 1)
    | 1 => dec_ret (declared, 2)
    | 2 => dec_ret (declared, 4)
    | 3 => dec_ret (declared, 8)
    | _ => dec_panic
    end.

Definition set_width (w : N) (d : Decoder) : Decoder := mkDecoder (d_rest d) w (d_limit d).

Definition deserialize_with_type_hash_and_limit (T : Type) `{StructPack T} (input : bytes)
    (expected_hash container_limit : N) : res StructPackError T :=
  let? s := read_uint 4 (mkDecoder input 1 container_limit) in
  let encoded_hash := s.1 in
  if negb (N.land encoded_hash HASH_MASK =? expected_hash)
  then Err (InvalidTypeHash expected_hash (N.land encoded_hash HASH_MASK))
  else
    let? m :=
      (if negb (N.land encoded_hash 1 =? 0) then read_metadata (type_literal T) s.2
       else Ok ((None, 1), s.2)) in
    let declared := m.1.1 in
    let d := set_width m.1.2 m.2 in
    let? v :=
      (match declared with
       | Some n => if negb (n =? len input) then Err (DeclaredSizeMismatch n (len input))
                   else decode_payload T d
       | None => decode_payload T d
       end) in
    let remaining := len (d_rest v.2) in
    if negb (remaining =? 0) && match declared with None => true | Some _ => false end
    then Err (TrailingBytes remaining)
    else Ok v.1.

Definition deserialize_with_limit (T : Type) `{StructPack T} (input : bytes) (limit : N)
    : res StructPackError T :=
  deserialize_with_type_hash_and_limit T input (type_hash T) limit.

Definition deserialize (T : Type) `{StructPack T} (input : bytes) : res StructPackError T :=
  deserialize_with_limit T input DEFAULT_CONTAINER_LIMIT.
End Envelope.
