(* ===== verification/StructPackLaws.v ===== *)
(** * Laws of struct_pack

    Every instance of [StructPack] encodes its well-formed values so that the
    decoder reads exactly the value back, rejects every truncation, and never
    panics.  The laws are a class of their own with one instance per type; the
    envelope theorems are proved against the class. *)
From S2P Require Import Prelude Wire StructPack.

Definition width_ok (w : N) : Prop := w = 1 ∨ w = 2 ∨ w = 4 ∨ w = 8.

Section Reads.
Context (w lim : N).

Definition eof {A} (r : res StructPackError A) : Prop := ∃ n m, r = Err (UnexpectedEof n m).

(** [m] reads [x] from [b], whatever follows, and misses bytes on every strict
    prefix of [b]. *)
Definition reads {A} (m : dec A) (x : A) (b : bytes) : Prop :=
  (∀ rest, m (mkDecoder (b ++ rest) w lim) = Ok (x, mkDecoder rest w lim)) ∧
  (∀ p q, b = p ++ q → q ≠ [] → eof (m (mkDecoder p w lim))).

Lemma reads_ret {A} (x : A) : reads (dec_ret x) x [].
Proof. split; [done|]. intros p q Heq Hq. by apply symmetry, app_nil in Heq as [_ ->]. Qed.

Lemma reads_bind {A B} (m : dec A) (k : A → dec B) x y a b :
  reads m x a → reads (k x) y b → reads (dec_bind m k) y (a ++ b).
Proof.
  intros [Hm Cm] [Hk Ck]. split.
  - intros rest. unfold dec_bind. by rewrite <- app_assoc, Hm.
  - intros p q Heq Hq. unfold dec_bind. symmetry in Heq.
    apply app_eq_app in Heq as [c [[-> Hb]|[-> Hb]]].
    + rewrite Hm. by apply (Ck c q).
    + destruct c as [|c0 c].
      * rewrite app_nil_r in *. simpl in Hb. subst q. specialize (Hm []). rewrite app_nil_r in Hm.
        rewrite Hm. by apply (Ck [] b).
      * destruct (Cm p (c0 :: c)) as (n & r & ->); [done..|]. by exists n, r.
Qed.

Lemma reads_map {A B} (m : dec A) (f : A → B) x b :
  reads m x b → reads (dec_bind m (fun y => dec_ret (f y))) (f x) b.
Proof. intros Hm. rewrite <- (app_nil_r b). by eapply reads_bind, reads_ret. Qed.

(** A check after the value was read. *)
Lemma reads_check {A B} (m : dec A) (k : A → dec B) x y b :
  reads m x b → (k x = dec_ret y) → reads (dec_bind m k) y b.
Proof.
  intros Hm Hk. rewrite <- (app_nil_r b). eapply reads_bind; [done|]. rewrite Hk. apply reads_ret.
Qed.

Lemma reads_exact b : reads (read_exact (len b)) b b.
Proof.
  split.
  - intros rest. unfold read_exact. simpl d_rest. by rewrite split_to_app.
  - intros p q -> Hq. unfold read_exact. simpl d_rest.
    assert (split_to (len (p ++ q)) p = None) as ->; [|by do 2 eexists].
    apply split_to_None. rewrite len_app. destruct q; [done|]. unfold len at 3. simpl length. lia.
Qed.

Lemma reads_uint k n : n < 256 ^ N.of_nat k → reads (read_uint k) n (le_bytes k n).
Proof.
  intros Hn. pose proof (reads_map _ le_num _ _ (reads_exact (le_bytes k n))) as Hr.
  by rewrite le_num_le_bytes, len_le_bytes in Hr by done.
Qed.

Lemma reads_u8 b : reads read_u8 b [b].
Proof. unfold read_u8. eapply reads_check; [apply (reads_exact [b])|done]. Qed.

Lemma reads_len n :
  width_ok w → n < 256 ^ w → n <= lim → n <= U64_MAX →
  ∃ b, write_len w n = Ok b ∧ reads read_len n b.
Proof.
  intros Hw Hn Hlim H64.
  assert (∀ k, N.of_nat k = w → reads (match w with 1 => read_u8 | 2 => read_uint 2 | 4 => read_uint 4
    | 8 => read_uint 8 | _ => dec_panic end) n (le_bytes k n) → reads read_len n (le_bytes k n)) as Hr.
  { intros k _ [H1 H2]. split.
    - intros rest. unfold read_len. cbn [d_width d_limit]. unfold dec_bind. rewrite H1.
      by rewrite (proj2 (N.ltb_ge lim n)), (proj2 (N.ltb_ge U64_MAX n)).
    - intros p q Hb Hq. unfold read_len, dec_bind. cbn [d_width d_limit].
      destruct (H2 p q Hb Hq) as (i & j & ->). by exists i, j. }
  exists (le_bytes (N.to_nat w) n). destruct Hw as [->|[->|[->| ->]]]; simpl write_len.
  - destruct (N.ltb_spec 255 n); [simpl in Hn; lia|]. split; [done|]. apply (Hr 1%nat); [done|].
    assert (le_bytes 1 n = [n]) as ->; [|apply reads_u8].
    unfold le_bytes. rewrite N.mod_small; [done|]. simpl in Hn. lia.
  - destruct (N.ltb_spec 65535 n); [simpl in Hn; lia|]. split; [done|].
    apply (Hr 2%nat); [done|]. by apply reads_uint.
  - destruct (N.ltb_spec U32_MAX n); [u64; simpl in Hn; lia|]. split; [done|].
    apply (Hr 4%nat); [done|]. by apply reads_uint.
  - destruct (N.ltb_spec U64_MAX n); [lia|]. split; [done|].
    apply (Hr 8%nat); [done|]. by apply reads_uint.
Qed.
End Reads.

(** ** Decoders that never panic *)

(** The name of a generated type, as it is put into an error: text of a bounded
    length. *)
Definition NAME_LIMIT : N := 1024 * 1024.
Definition name_ok (name : bytes) : Prop := utf8_valid name = true ∧ len name <= NAME_LIMIT.
#[export] Instance name_ok_dec name : Decision (name_ok name).
Proof. unfold name_ok. apply _. Defined.

Definition error_ok (e : StructPackError) : Prop :=
  match e with
  | InvalidEnumDiscriminant name _ | InvalidVariantIndex name _ _ => name_ok name
  | _ => True
  end.

(** [m] does not panic, what it yields satisfies [P] and its errors name types;
    the rest of the input is left to the caller. *)
Section Yields.
Context (lim : N).

Definition yields {A} (P : A → Prop) (m : dec A) : Prop := ∀ d,
  width_ok (d_width d) → d_limit d = lim → bytes_ok (d_rest d) →
  match m d with
  | Ok (x, d') => d_width d' = d_width d ∧ d_limit d' = lim ∧ bytes_ok (d_rest d') ∧ P x
  | Err e => error_ok e
  | Panic => False
  end.

Lemma yields_ret {A} (P : A → Prop) x : P x → yields P (dec_ret x).
Proof. by intros HP d _ Hl Hb. Qed.

Lemma yields_fail {A} (P : A → Prop) e : error_ok e → yields P (dec_fail e).
Proof. by intros He d _ _ _. Qed.

Lemma yields_bind {A B} (Q : A → Prop) (P : B → Prop) m k :
  yields Q m → (∀ x, Q x → yields P (k x)) → yields P (dec_bind m k).
Proof.
  intros Hm Hk d Hw Hl Hb. unfold dec_bind. specialize (Hm d Hw Hl Hb).
  destruct (m d) as [[x d1]| |]; [|done..]. destruct Hm as (Hw1 & Hl1 & Hb1 & HQ).
  assert (width_ok (d_width d1)) as Hok by (by rewrite Hw1).
  specialize (Hk x HQ d1 Hok Hl1 Hb1). destruct (k x d1) as [[y d2]| |]; [|done..].
  destruct Hk as (Hw2 & Hl2 & Hb2 & HP). split_and!; congruence || done.
Qed.

Lemma yields_mono {A} (Q P : A → Prop) m : (∀ x, Q x → P x) → yields Q m → yields P m.
Proof.
  intros HQP Hm d Hw Hl Hb. specialize (Hm d Hw Hl Hb). destruct (m d) as [[x d1]| |]; [|done..].
  destruct Hm as (? & ? & ? & ?). split_and!; auto.
Qed.

Lemma yields_if {A} (P : A → Prop) (b : bool) (m k : dec A) :
  (b = true → yields P m) → (b = false → yields P k) → yields P (if b then m else k).
Proof. destruct b; auto. Qed.

Lemma yields_exact n : yields (fun b => len b = n ∧ bytes_ok b) (read_exact n).
Proof.
  intros d _ Hl Hb. unfold read_exact. destruct (split_to n (d_rest d)) as [[h t]|] eqn:Hs; [|done].
  apply split_to_Some in Hs as [Heq Hn]. rewrite Heq in Hb. by apply bytes_ok_app in Hb as [Hh Ht].
Qed.

Lemma yields_uint k : yields (fun n => n < 256 ^ N.of_nat k) (read_uint k).
Proof.
  eapply yields_bind; [apply yields_exact|]. intros b [<- Hb]. by apply yields_ret, le_num_bound.
Qed.

Lemma yields_u8 : yields byte_ok read_u8.
Proof.
  eapply yields_bind; [apply yields_exact|]. intros [|b l] [Hl Hb]; [done|].
  apply yields_ret. by apply Forall_cons in Hb as [Hb _].
Qed.

Lemma yields_len : yields (fun n => n <= lim ∧ n <= U64_MAX) read_len.
Proof.
  intros d Hw Hl Hb. unfold read_len.
  assert (yields (fun _ => True) (match d_width d with 1 => read_u8 | 2 => read_uint 2 | 4 => read_uint 4
    | 8 => read_uint 8 | _ => dec_panic end)) as Hm.
  { destruct Hw as [->|[->|[->| ->]]];
      (eapply yields_mono; [|apply yields_u8 || apply yields_uint]; done). }
  refine (yields_bind _ _ _ _ Hm _ d Hw Hl Hb). intros n _. rewrite Hl.
  apply yields_if; intros H1; [by apply yields_fail|]. apply yields_if; intros H2; [by apply yields_fail|].
  apply yields_ret. bool_to_prop. done.
Qed.
End Yields.

Create HintDb yields.
#[export] Hint Resolve yields_exact yields_uint yields_u8 yields_len : yields.

(** ** The laws *)

(** No container of [v] is longer than the decoder allows. *)
Definition within_limit {T} `{StructPack T} (lim : N) (v : T) : Prop :=
  max_container_len v <= lim ∧ max_container_len v <= U64_MAX.

Class StructPackLaws (T : Type) `{StructPack T} := {
  sp_wf : T → Prop;
  sp_codec w lim v :
    sp_wf v → width_ok w → max_container_len v < 256 ^ w → max_container_len v <= lim →
    max_container_len v <= U64_MAX →
    ∃ b, encode_payload w v = Ok b ∧ reads w lim (decode_payload T) v b;
  sp_sound lim : yields lim (fun v => sp_wf v ∧ within_limit lim v) (decode_payload T)
}.
#[export] Hint Resolve sp_sound : yields.

Ltac yields_solve :=
  repeat first
    [ eapply yields_bind;
      [solve [eauto with yields]|let Hx := fresh in intros ? Hx; cbv beta in Hx]
    | apply yields_if; intros ?
    | apply yields_fail; exact I
    | apply yields_ret ].

Ltac sound_solve :=
  yields_solve; unfold within_limit in *; simpl in *; destruct_and?; split_and?; first [done | lia].

(** *** Numbers *)

#[export] Program Instance uint_laws k : StructPackLaws (UInt k) := {
  sp_wf v := uval v < byte_modulus k
}.
Next Obligation.
  intros k w lim [n] Hn _ _ _ _. exists (le_bytes k n). split; [done|].
  apply (reads_map w lim (read_uint k) mkUInt). by apply reads_uint.
Qed.
Next Obligation. intros k lim. simpl. sound_solve. Qed.

#[export] Program Instance float_laws k : StructPackLaws (Float k) := {
  sp_wf v := fbits v < byte_modulus k
}.
Next Obligation.
  intros k w lim [n] Hn _ _ _ _. exists (le_bytes k n). split; [done|].
  apply (reads_map w lim (read_uint k) mkFloat). by apply reads_uint.
Qed.
Next Obligation. intros k lim. simpl. sound_solve. Qed.

(** The range of a signed integer of [k] bytes. *)
Definition sint_range (k : nat) (z : Z) : Prop :=
  (- Z.of_N (byte_modulus k) <= 2 * z < Z.of_N (byte_modulus k))%Z.

Lemma byte_modulus_pos k : 0 < byte_modulus k.
Proof. unfold byte_modulus. apply N.neq_0_lt_0, N.pow_nonzero. done. Qed.

Lemma sint_bits_round k z : sint_range k z → sint_of_bits k (sint_to_bits k z) = z.
Proof.
  unfold sint_range, sint_of_bits, sint_to_bits. pose proof (byte_modulus_pos k).
  intros Hz. destruct (Z_lt_le_dec z 0) as [Hneg|Hpos].
  - assert (z mod Z.of_N (byte_modulus k) = z + Z.of_N (byte_modulus k))%Z as ->.
    { symmetry. apply (Z.mod_unique_pos _ _ (-1)); lia. }
    destruct (N.ltb_spec (2 * Z.to_N (z + Z.of_N (byte_modulus k))) (byte_modulus k)); lia.
  - rewrite Z.mod_small by lia.
    destruct (N.ltb_spec (2 * Z.to_N z) (byte_modulus k)); lia.
Qed.

Lemma sint_to_bits_bound k z : sint_to_bits k z < byte_modulus k.
Proof.
  unfold sint_to_bits. pose proof (byte_modulus_pos k).
  pose proof (Z.mod_pos_bound z (Z.of_N (byte_modulus k)) ltac:(lia)). lia.
Qed.

Lemma sint_of_bits_range k n : n < 256 ^ N.of_nat k → sint_range k (sint_of_bits k n).
Proof.
  unfold sint_range, sint_of_bits. change (256 ^ N.of_nat k) with (byte_modulus k).
  destruct (N.ltb_spec (2 * n) (byte_modulus k)); lia.
Qed.

#[export] Program Instance sint_laws k : StructPackLaws (SInt k) := {
  sp_wf v := sint_range k (sval v)
}.
Next Obligation.
  intros k w lim [z] Hz _ _ _ _. simpl in Hz. exists (le_bytes k (sint_to_bits k z)).
  split; [done|]. pose proof (reads_map w lim (read_uint k) (fun n => mkSInt (k := k) (sint_of_bits k n)) _ _
    (reads_uint w lim k (sint_to_bits k z) (sint_to_bits_bound k z))) as Hr.
  simpl in Hr. by rewrite sint_bits_round in Hr.
Qed.
Next Obligation.
  intros k lim. simpl. yields_solve. split; [by apply sint_of_bits_range|].
  unfold within_limit. simpl. lia.
Qed.

#[export] Program Instance bool_laws : StructPackLaws bool := { sp_wf _ := True }.
Next Obligation.
  intros w lim v _ _ _ _ _. eexists. split; [done|].
  destruct v; (eapply reads_check; [apply reads_u8|done]).
Qed.
Next Obligation. intros lim. simpl. sound_solve. Qed.

#[export] Program Instance char_laws : StructPackLaws Char := {
  sp_wf c := is_scalar (cval c) = true
}.
Next Obligation.
  intros w lim [c] Hc _ _ _ _. simpl in Hc. exists (le_bytes 4 c). split; [done|].
  eapply reads_check; [apply reads_uint|by rewrite Hc].
  unfold is_scalar in Hc. change (256 ^ N.of_nat 4) with 4294967296.
  destruct (N.ltb_spec c 55296); [lia|]. simpl in Hc. apply andb_true_iff in Hc as [_ Hc].
  apply N.ltb_lt in Hc. lia.
Qed.
Next Obligation. intros lim. simpl. sound_solve. Qed.

#[export] Program Instance unit_laws : StructPackLaws unit := { sp_wf _ := True }.
Next Obligation. intros w lim [] _ _ _ _ _. exists []. split; [done|]. apply reads_ret. Qed.
Next Obligation. intros lim. simpl. sound_solve. Qed.

(** *** Strings *)

#[export] Program Instance string_laws : StructPackLaws Str := {
  sp_wf s := utf8_valid (str_bytes s) = true
}.
Next Obligation.
  intros w lim [s] Hs Hw Hcap Hlim H64. simpl in *.
  destruct (reads_len w lim (len s)) as (b & -> & Hr); [done..|]. simpl. eexists.
  split; [done|]. eapply reads_bind; [exact Hr|].
  eapply reads_check; [apply reads_exact|by rewrite Hs].
Qed.
Next Obligation. intros lim. simpl. sound_solve. Qed.

#[export] Program Instance byte_string_laws : StructPackLaws ByteString := { sp_wf _ := True }.
Next Obligation.
  intros w lim [s] _ Hw Hcap Hlim H64. simpl in *.
  destruct (reads_len w lim (len s)) as (b & -> & Hr); [done..|]. simpl. eexists.
  split; [done|]. eapply reads_bind; [exact Hr|]. apply (reads_map _ _ _ mkByteString), reads_exact.
Qed.
Next Obligation. intros lim. simpl. sound_solve. Qed.

(** *** Containers *)

Section Each.
Context {T} `{StructPackLaws T}.

Lemma max_len_each_le l : ∀ start,
  start <= max_len_each start l ∧ ∀ x, x ∈ l → max_container_len x <= max_len_each start l.
Proof.
  unfold max_len_each. induction l as [|y l IH]; intros start; simpl.
  { split; [done|]. intros x Hx. by apply elem_of_nil in Hx. }
  destruct (IH (N.max start (max_container_len y))) as [Hs Hx]. split; [lia|].
  intros x [->|Hin]%elem_of_cons; [lia|by apply Hx].
Qed.

Lemma each_codec w lim l :
  Forall sp_wf l → width_ok w →
  (∀ x, x ∈ l → max_container_len x < 256 ^ w ∧ max_container_len x <= lim ∧
                max_container_len x <= U64_MAX) →
  ∃ b, encode_each w l = Ok b ∧ reads w lim (decode_each (length l)) l b.
Proof.
  intros Hwf Hw. induction Hwf as [|x l Hx _ IH]; intros Hb; simpl.
  { exists []. split; [done|apply reads_ret]. }
  destruct (Hb x) as (? & ? & ?); [by left|].
  destruct (sp_codec w lim x) as (a & -> & Ra); [done..|]. simpl.
  destruct IH as (b & -> & Rb); [intros y Hy; apply Hb; by right|]. simpl.
  exists (a ++ b). split; [done|]. eapply reads_bind; [exact Ra|].
  by apply (reads_map w lim _ (cons x)).
Qed.

Lemma yields_each lim n :
  yields lim (fun l => length l = n ∧ Forall sp_wf l ∧ Forall (within_limit lim) l)
    (decode_each (T := T) n).
Proof.
  induction n as [|n IH]; simpl; yields_solve; [done|]. destruct_and!. simpl.
  split_and!; [lia|by constructor..].
Qed.

Lemma max_len_each_bound m l : ∀ start,
  start <= m → Forall (fun x => max_container_len x <= m) l → max_len_each start l <= m.
Proof.
  unfold max_len_each. induction l as [|x l IH]; intros start Hs Hl; [done|].
  apply Forall_cons in Hl as [Hx Hl]. simpl. apply IH; [lia|done].
Qed.

Lemma each_within lim start (l : list T) :
  start <= lim → start <= U64_MAX → Forall (within_limit lim) l →
  max_len_each start l <= lim ∧ max_len_each start l <= U64_MAX.
Proof.
  intros H1 H2 Hl. split; apply max_len_each_bound; try done;
    (eapply Forall_impl; [exact Hl|]); unfold within_limit; tauto.
Qed.
End Each.
#[export] Hint Resolve yields_each : yields.

#[export] Program Instance vec_laws {T} `{StructPackLaws T} : StructPackLaws (list T) := {
  sp_wf := Forall sp_wf
}.
Next Obligation.
  intros T ? ? w lim l Hwf Hw Hcap Hlim H64. simpl in *.
  destruct (max_len_each_le l (count_of l)) as [Hn Hx].
  destruct (reads_len w lim (count_of l)) as (a & -> & Ra); [done|lia..|]. simpl.
  destruct (each_codec w lim l) as (b & -> & Rb); [done..| |].
  { intros x Hin. specialize (Hx x Hin). lia. }
  simpl. eexists. split; [done|]. eapply reads_bind; [exact Ra|].
  unfold count_of. by rewrite Nat2N.id.
Qed.
Next Obligation.
  intros T ? ? lim. simpl. eapply yields_bind; [apply yields_len|]. intros n [H1 H2].
  eapply yields_mono; [|apply yields_each]. intros l (Hn & Hwf & Hl). split; [done|].
  apply each_within; [unfold count_of; lia..|done].
Qed.

#[export] Program Instance array_laws {T} `{StructPackLaws T} n : StructPackLaws (Arr T n) := {
  sp_wf a := Forall sp_wf (arr_list a) ∧ length (arr_list a) = n
}.
Next Obligation.
  intros T ? ? n w lim [l] [Hwf Hlen] Hw Hcap Hlim H64. simpl in *. subst n.
  destruct (max_len_each_le l 0) as [_ Hx].
  destruct (each_codec w lim l) as (b & -> & Rb); [done..| |].
  { intros x Hin. specialize (Hx x Hin). lia. }
  exists b. split; [done|]. eapply reads_check; [exact Rb|]. by rewrite Nat.eqb_refl.
Qed.
Next Obligation.
  intros T ? ? n lim. simpl. yields_solve. destruct_and!. split; [done|].
  apply each_within; [lia..|done].
Qed.

#[export] Program Instance option_laws {T} `{StructPackLaws T} : StructPackLaws (option T) := {
  sp_wf o := match o with Some x => sp_wf x | None => True end
}.
Next Obligation.
  intros T ? ? w lim [x|] Hwf Hw Hcap Hlim H64; simpl in *.
  - destruct (sp_codec w lim x) as (b & -> & Rb); [done..|]. simpl. eexists. split; [done|].
    apply (reads_bind w lim read_u8 _ 1 (Some x) [1] b); [apply reads_u8|].
    by apply (reads_map w lim _ Some).
  - eexists. split; [done|]. eapply reads_check; [apply reads_u8|done].
Qed.
Next Obligation. intros T ? ? lim. simpl. sound_solve. Qed.

#[export] Program Instance result_laws {T E} `{StructPackLaws T, StructPackLaws E}
    : StructPackLaws (T + E) := {
  sp_wf r := match r with inl x => sp_wf x | inr e => sp_wf e end
}.
Next Obligation.
  intros T E ? ? ? ? w lim [x|e] Hwf Hw Hcap Hlim H64; simpl in *.
  - destruct (sp_codec w lim x) as (b & -> & Rb); [done..|]. simpl. eexists. split; [done|].
    apply (reads_bind w lim read_u8 _ 1 (inl x) [1] b); [apply reads_u8|].
    by apply (reads_map w lim _ inl).
  - destruct (sp_codec w lim e) as (b & -> & Rb); [done..|]. simpl. eexists. split; [done|].
    apply (reads_bind w lim read_u8 _ 0 (inr e) [0] b); [apply reads_u8|].
    by apply (reads_map w lim _ inr).
Qed.
Next Obligation. intros T E ? ? ? ? lim. simpl. sound_solve. Qed.

(** *** Structs *)

#[export] Program Instance fields_end_laws : StructPackLaws FieldsEnd := { sp_wf _ := True }.
Next Obligation. intros w lim [] _ _ _ _ _. exists []. split; [done|]. apply reads_ret. Qed.
Next Obligation. intros lim. simpl. sound_solve. Qed.

#[export] Program Instance fields_laws {A F} `{StructPackLaws A, StructPackLaws F}
    : StructPackLaws (Fields A F) := {
  sp_wf f := sp_wf (field f) ∧ sp_wf (others f)
}.
Next Obligation.
  intros A F ? ? ? ? w lim [a f] [Ha Hf] Hw Hcap Hlim H64. simpl in *.
  destruct (sp_codec w lim a) as (b & -> & Rb); [done|done|lia..|]. simpl.
  destruct (sp_codec w lim f) as (c & -> & Rc); [done|done|lia..|]. simpl.
  eexists. split; [done|]. eapply reads_bind; [exact Rb|]. by apply (reads_map w lim _ (mkFields a)).
Qed.
Next Obligation. intros A F ? ? ? ? lim. simpl. sound_solve. Qed.

#[export] Program Instance struct_laws {F} `{StructPackLaws F} : StructPackLaws (Struct F) := {
  sp_wf s := sp_wf (struct_fields s)
}.
Next Obligation.
  intros F ? ? w lim [f] Hwf Hw Hcap Hlim H64. simpl in *.
  destruct (sp_codec w lim f) as (b & -> & Rb); [done..|]. eexists. split; [done|].
  by apply (reads_map w lim _ mkStruct).
Qed.
Next Obligation. intros F ? ? lim. simpl. sound_solve. Qed.

(** *** Ordered containers *)

Section Ordered.
Context {K V : Type} `{StructPackLaws K, StructPackLaws V} `{Ord K}.

Definition key_lt (x y : K) : Prop := cmp x y = Lt.
Definition entries_sorted (l : list (K * V)) : Prop := StronglySorted key_lt l.*1.

Lemma map_insert_last k v (l : list (K * V)) :
  Forall (fun k' => key_lt k' k) l.*1 → map_insert k v l = l ++ [(k, v)].
Proof.
  induction l as [|[k' v'] l IH]; simpl; [done|]. intros [Hk Hl]%Forall_cons.
  rewrite (cmp_flip k k'). unfold key_lt in Hk. rewrite Hk. simpl. by rewrite IH.
Qed.

Lemma set_insert_last k (l : list K) :
  Forall (fun k' => key_lt k' k) l → set_insert k l = l ++ [k].
Proof.
  induction l as [|k' l IH]; simpl; [done|]. intros [Hk Hl]%Forall_cons.
  rewrite (cmp_flip k k'). unfold key_lt in Hk. rewrite Hk. simpl. by rewrite IH.
Qed.

Lemma sorted_middle (acc l : list K) k :
  StronglySorted key_lt (acc ++ k :: l) → Forall (fun k' => key_lt k' k) acc.
Proof.
  induction acc as [|x acc IH]; simpl; [constructor|]. intros [Hs Hf]%StronglySorted_inv.
  constructor; [|by apply IH]. rewrite Forall_forall in Hf. apply Hf, elem_of_app. right. by left.
Qed.

Definition fits (w lim n : N) : Prop := n < 256 ^ w ∧ n <= lim ∧ n <= U64_MAX.

Lemma entries_codec w lim l : ∀ acc,
  width_ok w → entries_sorted (acc ++ l) →
  Forall (fun kv => sp_wf kv.1 ∧ sp_wf kv.2) l →
  (∀ kv, kv ∈ l → fits w lim (max_container_len kv.1) ∧ fits w lim (max_container_len kv.2)) →
  ∃ b, encode_entries w l = Ok b ∧ reads w lim (decode_entries (length l) acc) (acc ++ l) b.
Proof.
  induction l as [|[k v] l IH]; intros acc Hw Hs Hwf Hfit; simpl.
  { exists []. split; [done|]. rewrite app_nil_r. apply reads_ret. }
  apply Forall_cons in Hwf as [[Hk Hv] Hwf]. simpl in Hk, Hv.
  destruct (Hfit (k, v)) as [(? & ? & ?) (? & ? & ?)]; [by left|]. simpl in *.
  destruct (sp_codec w lim k) as (a & -> & Ra); [done..|]. simpl.
  destruct (sp_codec w lim v) as (b & -> & Rb); [done..|]. simpl.
  unfold entries_sorted in Hs. rewrite fmap_app in Hs. simpl in Hs.
  pose proof (sorted_middle _ _ _ Hs) as Hlast.
  destruct (IH (acc ++ [(k, v)])) as (c & -> & Rc); [done| |done| |].
  - unfold entries_sorted. rewrite !fmap_app, <- app_assoc. done.
  - intros kv Hin. apply Hfit. by right.
  - simpl. exists (a ++ b ++ c). split; [done|]. eapply reads_bind; [exact Ra|].
    eapply reads_bind; [exact Rb|]. rewrite map_insert_last by done. by rewrite <- app_assoc in Rc.
Qed.

Lemma elems_codec w lim l : ∀ acc,
  width_ok w → StronglySorted key_lt (acc ++ l) → Forall sp_wf l →
  (∀ k, k ∈ l → fits w lim (max_container_len k)) →
  ∃ b, encode_each w l = Ok b ∧ reads w lim (decode_elems (length l) acc) (acc ++ l) b.
Proof.
  induction l as [|k l IH]; intros acc Hw Hs Hwf Hfit; simpl.
  { exists []. split; [done|]. rewrite app_nil_r. apply reads_ret. }
  apply Forall_cons in Hwf as [Hk Hwf]. destruct (Hfit k) as (? & ? & ?); [by left|].
  destruct (sp_codec w lim k) as (a & -> & Ra); [done..|]. simpl.
  pose proof (sorted_middle _ _ _ Hs) as Hlast.
  destruct (IH (acc ++ [k])) as (c & -> & Rc); [done|by rewrite <- app_assoc|done| |].
  - intros k' Hin. apply Hfit. by right.
  - simpl. exists (a ++ c). split; [done|]. eapply reads_bind; [exact Ra|].
    rewrite set_insert_last by done. by rewrite <- app_assoc in Rc.
Qed.

Lemma map_insert_keys (Q : K → Prop) k v (l : list (K * V)) :
  Q k → Forall Q l.*1 → Forall Q (map_insert k v l).*1.
Proof.
  intros Hk. induction l as [|[k' v'] l IH]; simpl; [by constructor|]. intros [Hk' Hl]%Forall_cons.
  destruct (cmp k k'); simpl; repeat constructor; auto.
Qed.

Lemma map_insert_values (Q : V → Prop) k v (l : list (K * V)) :
  Q v → Forall Q l.*2 → Forall Q (map_insert k v l).*2.
Proof.
  intros Hk. induction l as [|[k' v'] l IH]; simpl; [by constructor|]. intros [Hk' Hl]%Forall_cons.
  destruct (cmp k k'); simpl; repeat constructor; auto.
Qed.

Lemma map_insert_length k v (l : list (K * V)) : (length (map_insert k v l) <= S (length l))%nat.
Proof. induction l as [|[k' v'] l IH]; simpl; [lia|]. destruct (cmp k k'); simpl; lia. Qed.

Lemma map_insert_sorted k v (l : list (K * V)) :
  entries_sorted l → entries_sorted (map_insert k v l).
Proof.
  unfold entries_sorted. induction l as [|[k' v'] l IH]; simpl; [by repeat constructor|].
  intros [Hs Hf]%StronglySorted_inv. destruct (cmp k k') eqn:Hc; simpl.
  - by constructor.
  - constructor; [by constructor|]. constructor; [done|]. eapply Forall_impl; [exact Hf|].
    intros x. by apply cmp_trans.
  - constructor; [by apply IH|]. apply map_insert_keys; [|done]. unfold key_lt.
    by rewrite cmp_flip, Hc.
Qed.

Lemma set_insert_Forall (Q : K → Prop) k (l : list K) : Q k → Forall Q l → Forall Q (set_insert k l).
Proof.
  intros Hk. induction l as [|k' l IH]; simpl; [by constructor|]. intros [Hk' Hl]%Forall_cons.
  destruct (cmp k k'); repeat constructor; auto.
Qed.

Lemma set_insert_length k (l : list K) : (length (set_insert k l) <= S (length l))%nat.
Proof. induction l as [|k' l IH]; simpl; [lia|]. destruct (cmp k k'); simpl; lia. Qed.

Lemma set_insert_sorted k (l : list K) :
  StronglySorted key_lt l → StronglySorted key_lt (set_insert k l).
Proof.
  induction l as [|k' l IH]; simpl; [by repeat constructor|].
  intros [Hs Hf]%StronglySorted_inv. destruct (cmp k k') eqn:Hc.
  - by constructor.
  - constructor; [by constructor|]. constructor; [done|]. eapply Forall_impl; [exact Hf|].
    intros x. by apply cmp_trans.
  - constructor; [by apply IH|]. apply set_insert_Forall; [|done]. unfold key_lt.
    by rewrite cmp_flip, Hc.
Qed.

Definition sound {T} `{StructPackLaws T} (lim : N) (v : T) : Prop := sp_wf v ∧ within_limit lim v.

Lemma yields_entries lim n : ∀ acc : list (K * V),
  entries_sorted acc → Forall (sound lim) acc.*1 → Forall (sound lim) acc.*2 →
  yields lim (fun l => entries_sorted l ∧ Forall (sound lim) l.*1 ∧ Forall (sound lim) l.*2 ∧
                       (length l <= n + length acc)%nat) (decode_entries n acc).
Proof.
  induction n as [|n IH]; intros acc Hs Hk Hv; simpl; yields_solve; [done|].
  eapply yields_mono; [|apply IH].
  - intros l (? & ? & ? & Hl). split_and!; [done..|].
    pose proof (map_insert_length x x0 acc). lia.
  - by apply map_insert_sorted.
  - by apply map_insert_keys.
  - by apply map_insert_values.
Qed.

Lemma yields_elems lim n : ∀ acc : list K,
  StronglySorted key_lt acc → Forall (sound lim) acc →
  yields lim (fun l => StronglySorted key_lt l ∧ Forall (sound lim) l ∧
                       (length l <= n + length acc)%nat) (decode_elems n acc).
Proof.
  induction n as [|n IH]; intros acc Hs Hk; simpl; yields_solve; [done|].
  eapply yields_mono; [|apply IH].
  - intros l (? & ? & Hl). split_and!; [done..|]. pose proof (set_insert_length x acc). lia.
  - by apply set_insert_sorted.
  - by apply set_insert_Forall.
Qed.

Definition entries_max (start : N) (l : list (K * V)) : N :=
  foldl (fun x kv => N.max (N.max x (max_container_len kv.1)) (max_container_len kv.2)) start l.

Lemma entries_max_le l : ∀ start,
  start <= entries_max start l ∧ ∀ kv, kv ∈ l →
    max_container_len kv.1 <= entries_max start l ∧ max_container_len kv.2 <= entries_max start l.
Proof.
  unfold entries_max. induction l as [|y l IH]; intros start; simpl.
  { split; [done|]. intros x Hx. by apply elem_of_nil in Hx. }
  destruct (IH (N.max (N.max start (max_container_len y.1)) (max_container_len y.2))) as [Hs Hx].
  split; [lia|]. intros x [->|Hin]%elem_of_cons; [lia|by apply Hx].
Qed.

Lemma entries_max_bound m l : ∀ start,
  start <= m → Forall (fun k => max_container_len k <= m) l.*1 →
  Forall (fun v => max_container_len v <= m) l.*2 → entries_max start l <= m.
Proof.
  unfold entries_max. induction l as [|x l IH]; intros start Hs Hk Hv; [done|].
  apply Forall_cons in Hk as [? Hk]. apply Forall_cons in Hv as [? Hv]. simpl. apply IH; [lia|done..].
Qed.
End Ordered.

#[export] Program Instance map_laws {K V} `{StructPackLaws K, StructPackLaws V, !Ord K}
    : StructPackLaws (BTreeMap K V) := {
  sp_wf m := entries_sorted (map_entries m) ∧
             Forall (fun kv => sp_wf kv.1 ∧ sp_wf kv.2) (map_entries m)
}.
Next Obligation.
  intros K V ? ? ? ? ? w lim [l] [Hs Hwf] Hw Hcap Hlim H64. simpl in *.
  destruct (entries_max_le l (count_of l)) as [Hn Hx]. unfold entries_max in *.
  destruct (reads_len w lim (count_of l)) as (a & -> & Ra); [done|lia..|]. simpl.
  destruct (entries_codec w lim l [] Hw Hs Hwf) as (b & -> & Rb).
  { intros kv Hin. specialize (Hx kv Hin). unfold fits. lia. }
  simpl. eexists. split; [done|]. eapply reads_bind; [exact Ra|].
  unfold count_of. rewrite Nat2N.id. by apply (reads_map w lim _ mkMap).
Qed.
Next Obligation.
  intros K V ? ? ? ? ? lim. simpl. eapply yields_bind; [apply yields_len|]. intros n [Hn1 Hn2].
  eapply yields_bind; [by apply yields_entries; repeat constructor|].
  intros l (Hs & Hk & Hv & Hl). apply yields_ret. simpl in *. split.
  - split; [done|]. induction l as [|kv l IH]; constructor; simpl in *.
    + apply Forall_cons in Hk as [[] _]. by apply Forall_cons in Hv as [[] _].
    + apply Forall_cons in Hk as [_ ?]. apply Forall_cons in Hv as [_ ?].
      apply StronglySorted_inv in Hs as [? _]. apply IH; done || lia.
  - unfold within_limit. simpl. split; apply entries_max_bound; unfold count_of; try lia;
      (eapply Forall_impl; [eassumption|]); unfold sound, within_limit; tauto.
Qed.

#[export] Program Instance set_laws {K} `{StructPackLaws K, !Ord K}
    : StructPackLaws (BTreeSet K) := {
  sp_wf s := StronglySorted key_lt (set_elems s) ∧ Forall sp_wf (set_elems s)
}.
Next Obligation.
  intros K ? ? ? w lim [l] [Hs Hwf] Hw Hcap Hlim H64. simpl in *.
  destruct (max_len_each_le l (count_of l)) as [Hn Hx].
  destruct (reads_len w lim (count_of l)) as (a & -> & Ra); [done|lia..|]. simpl.
  destruct (elems_codec w lim l [] Hw Hs Hwf) as (b & -> & Rb).
  { intros k Hin. specialize (Hx k Hin). unfold fits. lia. }
  simpl. eexists. split; [done|]. eapply reads_bind; [exact Ra|].
  unfold count_of. rewrite Nat2N.id. by apply (reads_map w lim _ mkSet).
Qed.
Next Obligation.
  intros K ? ? ? lim. simpl. eapply yields_bind; [apply yields_len|]. intros n [Hn1 Hn2].
  eapply yields_bind; [by apply yields_elems; repeat constructor|].
  intros l (Hs & Hk & Hl). apply yields_ret. simpl in *. split.
  - split; [done|]. eapply Forall_impl; [exact Hk|]. by intros x [].
  - unfold within_limit. simpl. apply each_within; [unfold count_of; lia..|].
    eapply Forall_impl; [exact Hk|]. by intros x [].
Qed.
