(* ===== verification/StructPackProps.v ===== *)
(** * What struct_pack promises

    Round trips, rejection of damaged messages and absence of panics for every
    type with [StructPackLaws]. *)
From S2P Require Import Prelude Wire StructPack StructPackLaws.

(** ** Hashes and widths *)

Lemma land_mask_bound x : N.land x HASH_MASK < 2 ^ 32.
Proof.
  replace (N.land x HASH_MASK) with (N.land (N.land x HASH_MASK) (N.ones 32)).
  - rewrite N.land_ones. apply N.mod_lt. done.
  - by rewrite <- N.land_assoc.
Qed.

Lemma marked_hash x :
  let h := N.land x HASH_MASK in
  N.lor h 1 < 2 ^ 32 ∧ N.land (N.lor h 1) HASH_MASK = h ∧ N.land (N.lor h 1) 1 = 1 ∧
  N.land h HASH_MASK = h ∧ N.land h 1 = 0.
Proof.
  simpl. split_and!.
  - replace (N.lor (N.land x HASH_MASK) 1) with
      (N.land (N.lor (N.land x HASH_MASK) 1) (N.ones 32)).
    + rewrite N.land_ones. apply N.mod_lt. done.
    + by rewrite N.land_lor_distr_l, <- N.land_assoc.
  - rewrite N.land_lor_distr_l, <- N.land_assoc, N.land_diag. change (N.land 1 HASH_MASK) with 0.
    apply N.lor_0_r.
  - rewrite N.land_lor_distr_l, <- N.land_assoc. change (N.land HASH_MASK 1) with 0.
    by rewrite N.land_0_r.
  - by rewrite <- N.land_assoc, N.land_diag.
  - rewrite <- N.land_assoc. change (N.land HASH_MASK 1) with 0. apply N.land_0_r.
Qed.

Lemma width_for_length_spec n :
  n <= U64_MAX → width_ok (width_for_length n) ∧ n < 256 ^ width_for_length n.
Proof.
  intros H64. unfold width_for_length, width_ok.
  destruct (N.ltb_spec n (2 ^ 8)); [split; [auto|done]|].
  destruct (N.ltb_spec n (2 ^ 16)); [split; [auto|done]|].
  destruct (N.ltb_spec n (2 ^ 32)); [split; [auto|done]|]. split; [auto|].
  unfold U64_MAX in H64. change (256 ^ 8) with 18446744073709551616. lia.
Qed.

Lemma reads_metadata lim lit w t :
  w = 2 ∨ w = 4 ∨ w = 8 → width_tag w = Ok t →
  reads 1 lim (read_metadata lit) (None, w) [N.shiftl t 3].
Proof.
  intros Hw Ht. unfold read_metadata. rewrite <- (app_nil_r [_]).
  eapply reads_bind; [apply reads_u8|].
  destruct Hw as [->|[->| ->]]; injection Ht as <-; apply reads_ret.
Qed.

Lemma yields_metadata lim lit : yields lim (fun m => width_ok m.2) (read_metadata lit).
Proof.
  unfold read_metadata. eapply yields_bind; [apply yields_u8|]. intros m _.
  apply yields_if; intros _; [by apply yields_fail|].
  assert (N.land m META_COMPATIBLE_SIZE_MASK < 4) as Hs.
  { change META_COMPATIBLE_SIZE_MASK with (N.ones 2). rewrite N.land_ones. by apply N.mod_lt. }
  assert (N.shiftr (N.land m META_LENGTH_WIDTH_MASK) 3 < 4) as Hw.
  { rewrite N.shiftr_land. change (N.shiftr META_LENGTH_WIDTH_MASK 3) with (N.ones 2).
    rewrite N.land_ones. by apply N.mod_lt. }
  apply (yields_bind _ (fun _ => True)).
  - destruct (N.land m META_COMPATIBLE_SIZE_MASK) as [|[[]|[]|]]; yields_solve; lia || done.
  - intros declared _. apply (yields_bind _ (fun _ => True)); [by yields_solve|]. intros _ _.
    unfold width_ok.
    destruct (N.shiftr _ 3) as [|[[]|[]|]]; yields_solve; simpl; lia || auto.
Qed.

Section Props.
Context (md5 : bytes → bytes) {T : Type} `{StructPackLaws T}.

(** The bytes of a serialized value. *)
Lemma serialize_bytes v lim :
  sp_wf v → max_container_len v <= lim → max_container_len v <= U64_MAX →
  ∃ w hash meta payload,
    serialize md5 v = Ok (le_bytes 4 hash ++ meta ++ payload) ∧ hash < 2 ^ 32 ∧
    N.land hash HASH_MASK = type_hash md5 T ∧
    ((N.land hash 1 = 0 ∧ meta = [] ∧ w = 1) ∨
     (N.land hash 1 = 1 ∧ (∃ t, meta = [t]) ∧
      reads 1 lim (read_metadata (type_literal T)) (None, w) meta)) ∧
    reads w lim (decode_payload T) v payload.
Proof.
  intros Hwf Hlim H64. destruct (width_for_length_spec _ H64) as [Hw Hcap].
  destruct (sp_codec (width_for_length (max_container_len v)) lim v) as (b & Henc & Hr); [done..|].
  unfold serialize, serialize_with_type_hash. rewrite Henc.
  destruct (marked_hash (md5_hash32 md5 (type_literal T))) as (M1 & M2 & M3 & M4 & M5).
  exists (width_for_length (max_container_len v)).
  destruct (N.eqb_spec (width_for_length (max_container_len v)) 1) as [He|Hne]; simpl.
  - rewrite N.lor_0_r. eexists _, [], b. split; [done|]. split; [apply land_mask_bound|].
    split; [done|]. split; [left; by rewrite He|done].
  - assert (width_for_length (max_container_len v) = 2 ∨ width_for_length (max_container_len v) = 4 ∨
      width_for_length (max_container_len v) = 8) as Hw' by (destruct Hw as [?|?]; [done|done]).
    assert (∃ t, width_tag (width_for_length (max_container_len v)) = Ok t) as (t & Ht)
      by (destruct Hw' as [->|[->| ->]]; by eexists).
    rewrite Ht. simpl. eexists _, [N.shiftl t 3], b. split; [done|]. split; [done|].
    split; [done|]. split; [|done]. right. split; [done|]. split; [by eexists|].
    by apply reads_metadata.
Qed.

(** Decoding after the hash and the metadata were read. *)
Lemma deserialize_body input lim hash rest w rest' :
  read_uint 4 (mkDecoder input 1 lim) = Ok (hash, mkDecoder rest 1 lim) →
  N.land hash HASH_MASK = type_hash md5 T →
  (N.land hash 1 = 0 ∧ w = 1 ∧ rest' = rest ∨
   N.land hash 1 = 1 ∧
   read_metadata (type_literal T) (mkDecoder rest 1 lim) = Ok ((None, w), mkDecoder rest' 1 lim)) →
  deserialize_with_limit md5 T input lim =
    match decode_payload T (mkDecoder rest' w lim) with
    | Ok (v, d) => if len (d_rest d) =? 0 then Ok v else Err (TrailingBytes (len (d_rest d)))
    | Err e => Err e
    | Panic => Panic
    end.
Proof.
  intros Hread Hhash Hmeta. unfold deserialize_with_limit, deserialize_with_type_hash_and_limit.
  rewrite Hread. cbn [res_bind fst snd]. rewrite Hhash, N.eqb_refl. cbn [negb].
  assert ((if negb (N.land hash 1 =? 0) then read_metadata (type_literal T) (mkDecoder rest 1 lim)
           else Ok (None, 1, mkDecoder rest 1 lim)) = Ok (None, w, mkDecoder rest' 1 lim)) as ->.
  { destruct Hmeta as [(-> & -> & ->)|(-> & Hm)]; [done|exact Hm]. }
  cbn [res_bind fst snd]. change (set_width w _) with (mkDecoder rest' w lim).
  destruct (decode_payload T (mkDecoder rest' w lim)) as [[v d]| |]; cbn [res_bind fst snd]; [|done..].
  by destruct (len (d_rest d) =? 0).
Qed.

Lemma deserialize_parts v lim b :
  sp_wf v → within_limit lim v → serialize md5 v = Ok b →
  (∀ junk, deserialize_with_limit md5 T (b ++ junk) lim =
     if len junk =? 0 then Ok v else Err (TrailingBytes (len junk))) ∧
  (∀ p q, b = p ++ q → q ≠ [] → eof (deserialize_with_limit md5 T p lim)).
Proof.
  intros Hwf [Hlim H64] Hser.
  destruct (serialize_bytes v lim Hwf Hlim H64) as (w & h & meta & pay & Hs & Hh & Hmask & Hmeta & Hp).
  assert (b = le_bytes 4 h ++ meta ++ pay) as -> by congruence.
  pose proof (reads_uint 1 lim 4 h Hh) as [Rh Eh].
  assert (∀ rest, deserialize_with_limit md5 T (le_bytes 4 h ++ meta ++ rest) lim =
    match decode_payload T (mkDecoder rest w lim) with
    | Ok (v, d) => if len (d_rest d) =? 0 then Ok v else Err (TrailingBytes (len (d_rest d)))
    | Err e => Err e
    | Panic => Panic
    end) as Hbody.
  { intros rest. eapply deserialize_body; [apply Rh|done|].
    destruct Hmeta as [(? & -> & ->)|(? & _ & [Rm _])]; [by left|]. right. by rewrite Rm. }
  split.
  - intros junk. rewrite <- !app_assoc, Hbody. destruct Hp as [Hp _]. by rewrite Hp.
  - assert (∀ c q, meta ++ pay = c ++ q → q ≠ [] →
      eof (deserialize_with_limit md5 T (le_bytes 4 h ++ c) lim)) as Hafter.
    { intros c q Hb Hq. destruct Hp as [_ Hp].
      destruct Hmeta as [(_ & -> & ->)|(Hbit & [t ->] & [_ Rm])]; [|destruct c as [|t' c]].
      - cbn [app] in Hb. cbn [app] in Hbody. rewrite Hbody.
        destruct (Hp c q Hb Hq) as (i & j & ->). by exists i, j.
      - unfold deserialize_with_limit, deserialize_with_type_hash_and_limit. rewrite Rh.
        cbn [res_bind fst snd]. rewrite Hmask, N.eqb_refl, Hbit.
        destruct (Rm [] [t] eq_refl) as (i & j & Hm); [done|].
        change (negb (1 =? 0)) with true. cbn [negb]. rewrite Hm. by exists i, j.
      - cbn [app] in Hb. injection Hb as <- Hb.
        change (t :: c) with ([t] ++ c). rewrite (Hbody c).
        destruct (Hp c q Hb Hq) as (i & j & ->). by exists i, j. }
    intros p q Heq Hq. symmetry in Heq.
    apply app_eq_app in Heq as [c [[-> Hb]|[Hb ->]]]; [by apply (Hafter c q)|].
    destruct c as [|c0 c].
    + rewrite app_nil_r in Hb. rewrite <- Hb, <- (app_nil_r (le_bytes 4 h)).
      apply (Hafter [] (meta ++ pay)); [done|exact Hq].
    + destruct (Eh p (c0 :: c) Hb) as (i & j & He); [done|].
      unfold deserialize_with_limit, deserialize_with_type_hash_and_limit. rewrite He.
      by exists i, j.
Qed.

(** A decoded value is well-formed and within the limit, whatever the input. *)
Lemma deserialize_yields input lim :
  bytes_ok input →
  match deserialize_with_limit md5 T input lim with
  | Ok v => sp_wf v ∧ within_limit lim v
  | Err e => error_ok e
  | Panic => False
  end.
Proof.
  intros Hin. unfold deserialize_with_limit, deserialize_with_type_hash_and_limit.
  pose proof (yields_uint lim 4 (mkDecoder input 1 lim) ltac:(by left) eq_refl Hin) as Hh.
  destruct (read_uint 4 _) as [[h d]| |]; cbn [res_bind fst snd]; [|done..].
  destruct Hh as (Hw & Hl & Hb & _).
  destruct (negb (N.land h HASH_MASK =? type_hash md5 T)); [done|].
  assert (match (if negb (N.land h 1 =? 0) then read_metadata (type_literal T) d else Ok (None, 1, d)) with
    | Ok (m, d') => width_ok m.2 ∧ d_limit d' = lim ∧ bytes_ok (d_rest d')
    | Err e => error_ok e
    | Panic => False
    end) as Hm.
  { destruct (negb _); [|split_and!; [by left|done..]].
    pose proof (yields_metadata lim (type_literal T) d ltac:(rewrite Hw; by left) Hl Hb) as Hm.
    destruct (read_metadata _ d) as [[m d']| |]; [|done..]. tauto. }
  destruct (if negb (N.land h 1 =? 0) then _ else _) as [[m d']| |]; cbn [res_bind fst snd]; [|done..].
  destruct Hm as (Hmw & Hml & Hmb).
  pose proof (sp_sound lim (set_width m.2 d') Hmw Hml Hmb) as Hp.
  destruct m as [[n|] w]; cbn [fst snd] in *; [destruct (negb (n =? len input)); [done|]|];
    (destruct (decode_payload T _) as [[v d'']| |]; cbn [res_bind fst snd]; [|done..];
     destruct Hp as (_ & _ & _ & ?); by destruct (negb (len (d_rest d'') =? 0))).
Qed.

Lemma serialize_total v :
  sp_wf v → max_container_len v <= U64_MAX → ∃ b, serialize md5 v = Ok b.
Proof.
  intros Hwf H64. destruct (serialize_bytes v U64_MAX Hwf H64 H64) as (w & h & meta & pay & -> & _).
  by eexists.
Qed.

Lemma serialize_deserialize v lim :
  sp_wf v → within_limit lim v →
  ∃ b, serialize md5 v = Ok b ∧ deserialize_with_limit md5 T b lim = Ok v.
Proof.
  intros Hwf Hlim. destruct (serialize_total v) as [b Hb]; [done|apply Hlim|]. exists b. split; [done|].
  destruct (deserialize_parts v lim b Hwf Hlim Hb) as [Hp _]. specialize (Hp []).
  rewrite app_nil_r in Hp. exact Hp.
Qed.

(** C21: every well-formed value whose containers respect the limit is
    serialized, and deserializing the bytes under that limit gives the value
    back, for every type built from numbers, strings, containers, options,
    results and structs and whatever the digest function. *)
Theorem struct_pack_round_trip v lim :
  sp_wf v → within_limit lim v →
  ∃ b, serialize md5 v = Ok b ∧ deserialize_with_limit md5 T b lim = Ok v.
Proof. apply serialize_deserialize. Qed.

(** C39: a serialized value that lost bytes at its end is rejected as a short
    input, and one that gained bytes is rejected with the number of bytes too
    many: no truncation or extension of a message decodes. *)
Theorem damaged_messages_rejected v lim b :
  sp_wf v → within_limit lim v → serialize md5 v = Ok b →
  (∀ p q, b = p ++ q → q ≠ [] →
     ∃ needed remaining, deserialize_with_limit md5 T p lim = Err (UnexpectedEof needed remaining)) ∧
  (∀ junk, junk ≠ [] →
     deserialize_with_limit md5 T (b ++ junk) lim = Err (TrailingBytes (len junk))).
Proof.
  intros Hwf Hlim Hb. destruct (deserialize_parts v lim b Hwf Hlim Hb) as [Hj Hp].
  split; [exact Hp|]. intros junk Hne. rewrite Hj. by destruct junk.
Qed.

(** Deserializing arbitrary bytes never panics, and a value it accepts is
    well-formed: strings are UTF-8, characters are scalar values, arrays have
    their length, map keys are in strict order, and no container is longer than
    the limit; the value can be serialized and read back. *)
Theorem deserialize_well_typed input lim :
  bytes_ok input →
  match deserialize_with_limit md5 T input lim with
  | Ok v => sp_wf v ∧ within_limit lim v ∧
            ∃ b, serialize md5 v = Ok b ∧ deserialize_with_limit md5 T b lim = Ok v
  | Err _ => True
  | Panic => False
  end.
Proof.
  intros Hin. pose proof (deserialize_yields input lim Hin) as Hy.
  destruct (deserialize_with_limit md5 T input lim) as [v| |]; [|done..].
  destruct Hy as [Hwf Hlim]. split_and!; [done..|]. by apply serialize_deserialize.
Qed.
End Props.

(** ** Example *)

(** The struct of the documentation of [impl_struct_pack!]. *)
Definition Person : Type := Struct (Fields (SInt 4) (Fields Str FieldsEnd)).
#[export] Instance person_pack : StructPack Person := struct_pack.
#[export] Instance person_laws : StructPackLaws Person := struct_laws.
Definition person (id : Z) (name : bytes) : Person :=
  mkStruct (mkFields (mkSInt id) (mkFields (mkStr name) mkEnd)).

(** A stand-in digest of 16 bytes. *)
Definition digest (input : bytes) : bytes := le_bytes 16 (le_num input + 77).

Lemma struct_pack_round_trip_witness :
  ∃ b, serialize digest (person (-5) [97; 98]) = Ok b ∧
       deserialize_with_limit digest Person b 1024 = Ok (person (-5) [97; 98]).
Proof. apply (struct_pack_round_trip (T := Person) digest); [vm_compute; split_and!; done|vm_compute; done]. Defined.

Lemma damaged_messages_rejected_witness :
  ∃ b, serialize digest (person 7 [104; 105]) = Ok b ∧
    deserialize_with_limit digest Person (b ++ [0]) 1024 = Err (TrailingBytes 1).
Proof.
  eexists. split; [vm_compute; reflexivity|].
  eapply (damaged_messages_rejected (T := Person) digest (person 7 [104; 105]) 1024);
    [vm_compute; split_and!; done|vm_compute; done|vm_compute; reflexivity|done].
Defined.

Lemma deserialize_well_typed_witness :
  match deserialize_with_limit digest Person [1; 2; 3; 4; 5] 1024 with
  | Ok v => sp_wf v ∧ within_limit 1024 v ∧
            ∃ b, serialize digest v = Ok b ∧ deserialize_with_limit digest Person b 1024 = Ok v
  | Err _ => True
  | Panic => False
  end.
Proof. apply (deserialize_well_typed digest (T := Person)). repeat constructor. Defined.

