(* ===== verification/RpcCall.v ===== *)
(** * RPC calls

    [src/crates/coro-rpc/src/]{[method.rs], [error.rs], [server.rs],
    [client.rs]}: methods with their wire metadata, the typed handlers and the
    route table of the server, the frames of results and failures, and the two
    ends of a client call.  A handler is the function from its arguments to the
    result its future resolves to. *)
From stdpp Require Import strings.
From S2P Require Import Prelude Wire Protocol StructPack.

(** ** Text *)

Fixpoint digits (base : N) (fuel : nat) (n : N) (acc : bytes) : bytes :=
  match fuel with
  | O => acc
  | S fuel' =>
      let d := n mod base in
      let acc' := (if d <? 10 then 48 + d else 87 + d) :: acc in
      if n / base =? 0 then acc' else digits base fuel' (n / base) acc'
  end.

(** [{}], [{:#x}] and [{:#010x}]; a 64-bit number has at most 20 decimal and a
    32-bit number at most 8 hexadecimal digits. *)
Definition decimal (n : N) : bytes := digits 10 20 n [].
Definition hex (n : N) : bytes := text "0x" ++ digits 16 8 n [].
Definition hex8 (n : N) : bytes :=
  let d := digits 16 8 n [] in text "0x" ++ repeat 48 (8 - length d) ++ d.

Definition signed (z : Z) : bytes :=
  if (z <? 0)%Z then text "-" ++ decimal (Z.to_N (- z)) else decimal (Z.to_N z).

(** [Display] of [StructPackError]. *)
Definition display (e : StructPackError) : bytes :=
  match e with
  | UnexpectedEof needed remaining =>
      text "need " ++ decimal needed ++ text " bytes, only " ++ decimal remaining ++ text " remain"
  | InvalidTypeHash expected actual =>
      text "type hash mismatch (expected " ++ hex8 expected ++ text ", got " ++ hex8 actual ++ text ")"
  | InvalidTypeLiteral => text "full type literal does not match"
  | InvalidUtf8 => text "C++ string is not valid UTF-8"
  | InvalidBool b => text "invalid bool byte " ++ decimal b
  | InvalidChar c => text "invalid char32 value " ++ hex c
  | InvalidEnumDiscriminant name value =>
      text "invalid discriminant " ++ signed value ++ text " for enum " ++ name
  | InvalidVariantIndex name index alternatives =>
      text "invalid index " ++ decimal index ++ text " for variant " ++ name ++
      text " with " ++ decimal alternatives ++ text " alternatives"
  | ContainerTooLarge length limit =>
      text "container length " ++ decimal length ++ text " exceeds limit " ++ decimal limit
  | StructPack.LengthOverflow => text "container length cannot be represented"
  | TrailingBytes n => decimal n ++ text " trailing bytes remain"
  | ReservedMetadata => text "invalid metadata: reserved bits are set"
  | DeclaredSizeMismatch declared actual =>
      text "compatible-data size declares " ++ decimal declared ++
      text " bytes, actual size is " ++ decimal actual
  end.

(** ** Error codes *)

Inductive RpcErrorCode :=
| CodeOk | IoError | NotConnected | CodeTimedOut | InvalidRpcArguments | AddressInUse | BadAddress
| OpenError | ListenError | OperationCanceled | RpcThrowException | FunctionNotRegistered
| CodeProtocolError | UnknownProtocolVersion | MessageTooLarge | ServerHasRun | InvalidRpcResult
| CodeSerialNumberConflict.

Definition as_u16 (c : RpcErrorCode) : N :=
  match c with
  | CodeOk => 0 | IoError => 1 | NotConnected => 2 | CodeTimedOut => 3 | InvalidRpcArguments => 4
  | AddressInUse => 5 | BadAddress => 6 | OpenError => 7 | ListenError => 8
  | OperationCanceled => 9 | RpcThrowException => 10 | FunctionNotRegistered => 11
  | CodeProtocolError => 12 | UnknownProtocolVersion => 13 | MessageTooLarge => 14
  | ServerHasRun => 15 | InvalidRpcResult => 16 | CodeSerialNumberConflict => 17
  end.

Definition from_u16 (value : N) : option RpcErrorCode :=
  match value with
  | 0 => Some CodeOk | 1 => Some IoError | 2 => Some NotConnected | 3 => Some CodeTimedOut
  | 4 => Some InvalidRpcArguments | 5 => Some AddressInUse | 6 => Some BadAddress
  | 7 => Some OpenError | 8 => Some ListenError | 9 => Some OperationCanceled
  | 10 => Some RpcThrowException | 11 => Some FunctionNotRegistered | 12 => Some CodeProtocolError
  | 13 => Some UnknownProtocolVersion | 14 => Some MessageTooLarge | 15 => Some ServerHasRun
  | 16 => Some InvalidRpcResult | 17 => Some CodeSerialNumberConflict
  | _ => None
  end.

Definition code_message (c : RpcErrorCode) : bytes :=
  match c with
  | CodeOk => text "ok" | IoError => text "io error" | NotConnected => text "not connected"
  | CodeTimedOut => text "time out" | InvalidRpcArguments => text "invalid rpc arg"
  | AddressInUse => text "address in use" | BadAddress => text "bad address"
  | OpenError => text "open error" | ListenError => text "listen error"
  | OperationCanceled => text "operation canceled"
  | RpcThrowException => text "rpc throw exception"
  | FunctionNotRegistered => text "function not registered"
  | CodeProtocolError => text "protocol error"
  | UnknownProtocolVersion => text "unknown protocol version"
  | MessageTooLarge => text "message too large" | ServerHasRun => text "server has run"
  | InvalidRpcResult => text "invalid rpc result"
  | CodeSerialNumberConflict => text "serial number conflict"
  end.

(** [RemoteError] and [RpcError]; the variants that carry a rendered error keep
    the error. *)
Record RemoteError := mkRemoteError { re_code : N; re_message : bytes }.

Inductive RpcError :=
| Io
| RpcProtocol (e : ProtocolError)
| Codec (e : StructPackError)
| Remote (e : RemoteError)
| TimedOut
| ConnectionClosed
| RequestTooLarge
| SerialNumberConflict.

(** ** Methods *)

Record RpcMethod (Request Response : Type) := mkMethod {
  m_name : bytes;
  m_route_id : N;
  m_request_type_hash : N;
  m_response_type_hash : N
}.
Arguments mkMethod {Request Response} _ _ _ _. Arguments m_name {Request Response} _.
Arguments m_route_id {Request Response} _. Arguments m_request_type_hash {Request Response} _.
Arguments m_response_type_hash {Request Response} _.

Record RpcNoArgsMethod (Response : Type) := mkNoArgsMethod {
  n_name : bytes;
  n_route_id : N;
  n_response_type_hash : N
}.
Arguments mkNoArgsMethod {Response} _ _ _. Arguments n_name {Response} _.
Arguments n_route_id {Response} _. Arguments n_response_type_hash {Response} _.

(** ** Results, failures and contexts *)

Record RpcFailure := mkFailure { f_code : N; f_message : bytes }.

Definition RpcFailure_new (code : N) (message : bytes) : RpcFailure :=
  mkFailure (if code =? 0 then as_u16 RpcThrowException else code) message.

Definition RpcFailure_standard (code : RpcErrorCode) : RpcFailure :=
  RpcFailure_new (as_u16 code) (code_message code).

Record RpcResponse (T : Type) := mkResponse { r_value : T; r_attachment : bytes }.
Arguments mkResponse {T} _ _. Arguments r_value {T} _. Arguments r_attachment {T} _.

Definition RpcReply : Type → Type := RpcResponse.

Inductive RegisterError :=
| DuplicateRoute (route_id : N) (existing_name new_name : bytes).

(** No error can be returned; [Panic] is what is left. *)
Inductive Infallible := .

(** [expect] on a result. *)
Definition expect {E E' A} (r : res E A) : res E' A :=
  match r with Ok x => Ok x | _ => Panic end.

Section Calls.
Context (md5 : bytes → bytes) {Addr : Type}.

Record RequestContext := mkContext {
  c_sequence : N;
  c_function_id : N;
  c_attachment : bytes;
  c_peer_addr : Addr
}.

Definition RpcMethod_new {A R} `{StructPack A, StructPack R} (name : bytes) : RpcMethod A R :=
  mkMethod name (function_id md5 name) (type_hash md5 A) (type_hash md5 R).

Definition RpcNoArgsMethod_new {R} `{StructPack R} (name : bytes) : RpcNoArgsMethod R :=
  mkNoArgsMethod name (function_id md5 name) (type_hash md5 R).

Definition deserialize_with_type_hash (T : Type) `{StructPack T} (input : bytes) (hash : N)
    : res StructPackError T :=
  deserialize_with_type_hash_and_limit T input hash DEFAULT_CONTAINER_LIMIT.

(** ** The server's frames *)

(** The pair of an extended code and its message. *)
Definition ExtendedError : Type := Struct (Fields (UInt 2) (Fields Str FieldsEnd)).
Definition extended_error (code : N) (message : bytes) : ExtendedError :=
  mkStruct (mkFields (mkUInt code) (mkFields (mkStr message) mkEnd)).

Definition failure_frame (sequence : N) (failure : RpcFailure) : res Infallible ResponseFrame :=
  let? wire :=
    (if 255 <=? f_code failure then
       let? body := expect (serialize md5 (extended_error (f_code failure) (f_message failure))) in
       Ok (255, body)
     else
       let? body := expect (serialize md5 (mkStr (f_message failure))) in
       Ok (f_code failure mod 256, body)) in
  expect (ResponseFrame_new sequence wire.1 wire.2 []).

Definition success_frame {R} `{StructPack R} (sequence : N) (value : R) (attachment : bytes)
    (response_type_hash : N) : res Infallible ResponseFrame :=
  match serialize_with_type_hash value response_type_hash with
  | Ok body =>
      match ResponseFrame_new sequence 0 body attachment with
      | Ok frame => Ok frame
      | Err _ => failure_frame sequence (RpcFailure_standard MessageTooLarge)
      | Panic => Panic
      end
  | Err e =>
      failure_frame sequence
        (RpcFailure_new (as_u16 InvalidRpcResult)
           (text "failed to serialize RPC result: " ++ display e))
  | Panic => Panic
  end.

Definition response_failure_details (response : ResponseFrame) : N * option bytes :=
  if rs_error_code (rs_header response) =? 255 then
    match deserialize md5 ExtendedError (rs_body response) with
    | Ok e => (uval (field (struct_fields e)),
               Some (str_bytes (field (others (struct_fields e)))))
    | _ => (255, None)
    end
  else
    (rs_error_code (rs_header response),
     match deserialize md5 Str (rs_body response) with
     | Ok m => Some (str_bytes m)
     | _ => None
     end).

(** ** Handlers *)

(** [ErasedHandler::call], with the outcome of its future. *)
Definition Handler : Type := bytes → RequestContext → res Infallible ResponseFrame.

Definition invalid_arguments (sequence : N) (e : StructPackError) : res Infallible ResponseFrame :=
  failure_frame sequence
    (RpcFailure_new (as_u16 InvalidRpcArguments) (text "invalid rpc arg: " ++ display e)).

Definition typed_handler {A R} `{StructPack A, StructPack R} (function : A → R + RpcFailure)
    (request_type_hash response_type_hash : N) : Handler := fun body context =>
  match deserialize_with_type_hash A body request_type_hash with
  | Err e => invalid_arguments (c_sequence context) e
  | Panic => Panic
  | Ok arguments =>
      match function arguments with
      | inl value => success_frame (c_sequence context) value [] response_type_hash
      | inr e => failure_frame (c_sequence context) e
      end
  end.

Definition context_handler {A R} `{StructPack A, StructPack R}
    (function : A → RequestContext → RpcResponse R + RpcFailure)
    (request_type_hash response_type_hash : N) : Handler := fun body context =>
  match deserialize_with_type_hash A body request_type_hash with
  | Err e => invalid_arguments (c_sequence context) e
  | Panic => Panic
  | Ok arguments =>
      match function arguments context with
      | inl response =>
          success_frame (c_sequence context) (r_value response) (r_attachment response)
            response_type_hash
      | inr e => failure_frame (c_sequence context) e
      end
  end.

Definition no_args_handler {R} `{StructPack R} (function : unit → R + RpcFailure)
    (response_type_hash : N) : Handler := fun body context =>
  if negb (len body =? 0)
  then failure_frame (c_sequence context) (RpcFailure_standard InvalidRpcArguments)
  else match function tt with
       | inl value => success_frame (c_sequence context) value [] response_type_hash
       | inr e => failure_frame (c_sequence context) e
       end.

Definition no_args_context_handler {R} `{StructPack R}
    (function : RequestContext → RpcResponse R + RpcFailure) (response_type_hash : N) : Handler :=
  fun body context =>
  if negb (len body =? 0)
  then failure_frame (c_sequence context) (RpcFailure_standard InvalidRpcArguments)
  else match function context with
       | inl response =>
           success_frame (c_sequence context) (r_value response) (r_attachment response)
             response_type_hash
       | inr e => failure_frame (c_sequence context) e
       end.

(** ** The route table *)

Record Route := mkRoute { route_name : bytes; route_handler : Handler }.
Local Abbreviation Routes := (gmap N Route).

Definition insert_route (route_id : N) (name : bytes) (handler : Handler) (routes : Routes)
    : res RegisterError Routes :=
  match routes !! route_id with
  | Some existing => Err (DuplicateRoute route_id (route_name existing) name)
  | None => Ok (<[route_id := mkRoute name handler]> routes)
  end.

Definition register {A R} `{StructPack A, StructPack R} (method : RpcMethod A R)
    (function : A → R + RpcFailure) : Routes → res RegisterError Routes :=
  insert_route (m_route_id method) (m_name method)
    (typed_handler function (m_request_type_hash method) (m_response_type_hash method)).

Definition register_with_context {A R} `{StructPack A, StructPack R} (method : RpcMethod A R)
    (function : A → RequestContext → RpcResponse R + RpcFailure)
    : Routes → res RegisterError Routes :=
  insert_route (m_route_id method) (m_name method)
    (context_handler function (m_request_type_hash method) (m_response_type_hash method)).

Definition register_no_args {R} `{StructPack R} (method : RpcNoArgsMethod R)
    (function : unit → R + RpcFailure) : Routes → res RegisterError Routes :=
  insert_route (n_route_id method) (n_name method)
    (no_args_handler function (n_response_type_hash method)).

Definition register_no_args_with_context {R} `{StructPack R} (method : RpcNoArgsMethod R)
    (function : RequestContext → RpcResponse R + RpcFailure)
    : Routes → res RegisterError Routes :=
  insert_route (n_route_id method) (n_name method)
    (no_args_context_handler function (n_response_type_hash method)).

(** [RpcService::call]; the log records it writes do not change the response. *)
Definition service_call (routes : Routes) (peer_addr : Addr) (request : RequestFrame)
    : res Infallible ResponseFrame :=
  let sequence := rq_sequence (rq_header request) in
  let id := rq_function_id (rq_header request) in
  match routes !! id with
  | Some route =>
      route_handler route (rq_body request) (mkContext sequence id (rq_attachment request) peer_addr)
  | None =>
      failure_frame sequence
        (RpcFailure_new (as_u16 FunctionNotRegistered) (text "function not registered"))
  end.

(** ** The client's end *)

Record ClientInner := mkClient {
  ci_closed : bool;
  ci_next_sequence : N;
  ci_frame_limits : FrameLimits
}.

(** [RpcClient::send] up to the dispatch of the frame. *)
Definition send (c : ClientInner) (route_id : N) (body attachment : bytes)
    : res RpcError RequestFrame * ClientInner :=
  if ci_closed c then (Err ConnectionClosed, c)
  else if (max_body_len (ci_frame_limits c) <? len body) ||
          (max_attachment_len (ci_frame_limits c) <? len attachment)
  then (Err RequestTooLarge, c)
  else
    let sequence := ci_next_sequence c in
    let c' := mkClient (ci_closed c) ((sequence + 1) mod 2 ^ 32) (ci_frame_limits c) in
    match RequestFrame_new sequence route_id body attachment with
    | Ok frame => (Ok frame, c')
    | Err _ => (Err RequestTooLarge, c')
    | Panic => (Panic, c')
    end.

Definition codec {A} (r : res StructPackError A) : res RpcError A :=
  match r with Ok x => Ok x | Err e => Err (Codec e) | Panic => Panic end.

Definition decode_response {R} `{StructPack R} (frame : ResponseFrame) (response_type_hash : N)
    : res RpcError (RpcReply R) :=
  let code := rs_error_code (rs_header frame) in
  if code =? 0 then
    let? value := codec (deserialize_with_type_hash R (rs_body frame) response_type_hash) in
    Ok (mkResponse value (rs_attachment frame))
  else if code =? 255 then
    let? e := codec (deserialize md5 ExtendedError (rs_body frame)) in
    Err (Remote (mkRemoteError (uval (field (struct_fields e)))
                   (str_bytes (field (others (struct_fields e))))))
  else
    let? m := codec (deserialize md5 Str (rs_body frame)) in
    Err (Remote (mkRemoteError code (str_bytes m))).

(** [call_with_attachment] before the frame is sent and after the response
    arrived; without arguments the body is empty. *)
Definition call_request {A R} `{StructPack A, StructPack R} (c : ClientInner)
    (method : RpcMethod A R) (arguments : A) (attachment : bytes)
    : res RpcError RequestFrame * ClientInner :=
  match serialize_with_type_hash arguments (m_request_type_hash method) with
  | Ok body => send c (m_route_id method) body attachment
  | Err e => (Err (Codec e), c)
  | Panic => (Panic, c)
  end.

Definition call_no_args_request {R} `{StructPack R} (c : ClientInner)
    (method : RpcNoArgsMethod R) (attachment : bytes) : res RpcError RequestFrame * ClientInner :=
  send c (n_route_id method) [] attachment.
End Calls.
