(* ===== verification/RpcProps.v ===== *)
(** * What an RPC call promises

    A call runs the registered function on the caller's arguments and brings its
    result or failure back unchanged; the server answers every request. *)
From S2P Require Import Prelude Wire Protocol StructPack StructPackLaws StructPackProps RpcCall.

(** ** Rendered text *)

Definition ascii_text (l : bytes) : Prop := Forall (fun c => c < 128) l.
#[export] Instance ascii_text_dec l : Decision (ascii_text l).
Proof. unfold ascii_text. apply _. Defined.

Lemma ascii_utf8 l : ascii_text l → utf8_valid l = true.
Proof.
  induction 1 as [|c l Hc _ IH]; simpl; [done|]. by rewrite (proj2 (N.ltb_lt _ _) Hc).
Qed.

Lemma ascii_app l k : ascii_text l → ascii_text k → ascii_text (l ++ k).
Proof. apply Forall_app_2. Qed.

Lemma digits_ok base fuel : ∀ n acc,
  0 < base → base <= 16 → ascii_text acc →
  ascii_text (digits base fuel n acc) ∧ (length (digits base fuel n acc) <= fuel + length acc)%nat.
Proof.
  induction fuel as [|fuel IH]; intros n acc H0 Hb Hacc; simpl; [split; [done|lia]|].
  assert (n mod base < base) by (apply N.mod_lt; lia).
  assert (ascii_text ((if n mod base <? 10 then 48 + n mod base else 87 + n mod base) :: acc)) as Ha.
  { constructor; [|done]. destruct (N.ltb_spec (n mod base) 10); lia. }
  destruct (n / base =? 0); [split; [done|simpl; lia]|].
  destruct (IH (n / base) _ H0 Hb Ha) as [? Hl]. split; [done|]. simpl in Hl. lia.
Qed.

(** Text of at most [n] bytes. *)
Definition short (n : N) (l : bytes) : Prop := ascii_text l ∧ len l <= n.
#[export] Instance short_dec n l : Decision (short n l).
Proof. unfold short. apply _. Defined.

Lemma short_app n m l k : short n l → short m k → short (n + m) (l ++ k).
Proof. intros [? ?] [? ?]. split; [by apply ascii_app|]. rewrite len_app. lia. Qed.

Lemma short_mono n m l : short n l → n <= m → short m l.
Proof. intros [? ?] ?. split; [done|lia]. Qed.

Lemma short_digits base fuel n :
  0 < base → base <= 16 → short (N.of_nat fuel) (digits base fuel n []).
Proof.
  intros H0 Hb. destruct (digits_ok base fuel n [] H0 Hb) as [Ha Hl]; [constructor|].
  split; [done|]. unfold len. simpl in Hl. lia.
Qed.

Lemma short_decimal n : short 20 (decimal n).
Proof. by apply (short_digits 10 20). Qed.

Lemma short_hex n : short 10 (hex n).
Proof.
  apply (short_app 2 8); [apply (bool_decide_eq_true_1 _); by vm_compute|by apply (short_digits 16 8)].
Qed.

Lemma short_hex8 n : short 18 (hex8 n).
Proof.
  apply (short_app 2 16); [apply (bool_decide_eq_true_1 _); by vm_compute|].
  apply (short_app 8 8); [|by apply (short_digits 16 8)].
  generalize (length (digits 16 8 n [])). intros k. split.
  - apply Forall_forall. intros x Hx. apply list_elem_of_In, repeat_spec in Hx. by subst.
  - unfold len. rewrite repeat_length. lia.
Qed.

Lemma short_text s : bool_decide (short 40 (text s)) = true → short 40 (text s).
Proof. apply (bool_decide_eq_true_1 _). Qed.

Ltac short_solve :=
  eapply short_mono;
  [ repeat first
      [ apply short_decimal | apply short_hex | apply short_hex8
      | apply short_text; by vm_compute | eapply short_app ]
  | lia ].

Lemma short_signed z : short 60 (signed z).
Proof. unfold signed. destruct (z <? 0)%Z; short_solve. Qed.

(** Valid UTF-8 of at most [n] bytes. *)
Definition printable (n : N) (l : bytes) : Prop := utf8_valid l = true ∧ len l <= n.

Lemma utf8_app l k : utf8_valid l = true → utf8_valid k = true → utf8_valid (l ++ k) = true.
Proof.
  intros Hl Hk. revert Hl. remember (length l) as n eqn:Hn. revert l Hn.
  induction (lt_wf n) as [n _ IH]; intros l -> Hl.
  assert (∀ l', (length l' < length l)%nat → utf8_valid l' = true → utf8_valid (l' ++ k) = true) as IH'
    by (intros l' Hlt; by apply (IH (length l'))).
  destruct l as [|b0 t0]; [done|]. cbn [app utf8_valid] in *.
  destruct (b0 <? 128); [apply IH'; simpl; [lia|done]|].
  destruct t0 as [|b1 t1]; [done|]. cbn [app] in *.
  destruct (within 194 223 b0).
  { apply andb_true_iff in Hl as [-> Hl]. apply IH'; simpl; [lia|done]. }
  destruct t1 as [|b2 t2]; [done|]. cbn [app] in *.
  destruct (within 224 239 b0).
  { rewrite !andb_true_iff in Hl |- *. destruct Hl as [Hl Ht]. split; [done|]. apply IH'; simpl; [lia|done]. }
  destruct t2 as [|b3 t3]; [done|]. cbn [app] in *.
  rewrite !andb_true_iff in Hl |- *. destruct Hl as [Hl Ht]. split; [done|]. apply IH'; simpl; [lia|done].
Qed.

Lemma printable_app n m l k : printable n l → printable m k → printable (n + m) (l ++ k).
Proof. intros [? ?] [? ?]. split; [by apply utf8_app|]. rewrite len_app. lia. Qed.

Lemma short_printable n l : short n l → printable n l.
Proof. intros [Ha Hl]. split; [by apply ascii_utf8|done]. Qed.

Lemma printable_mono n m l : printable n l → n <= m → printable m l.
Proof. intros [? ?] ?. split; [done|lia]. Qed.

Lemma short_display e : error_ok e → printable (NAME_LIMIT + 200) (display e).
Proof.
  destruct e; simpl error_ok; intros He; unfold display;
    try (apply (printable_mono 200); [apply short_printable; short_solve|unfold NAME_LIMIT; lia]);
    (eapply printable_mono;
     [repeat first [exact He | eapply printable_app |
        apply short_printable, short_signed | apply short_printable, short_decimal
      | apply short_printable, short_text; by vm_compute]|unfold NAME_LIMIT; lia]).
Qed.

(** ** Sizes of error bodies *)

Section Frames.
Context (md5 : bytes → bytes).

Lemma serialize_len {T} `{StructPack T} (v : T) b :
  serialize md5 v = Ok b →
  ∃ pay, encode_payload (width_for_length (max_container_len v)) v = Ok pay ∧ len b <= len pay + 5.
Proof.
  unfold serialize, serialize_with_type_hash. intros Hs.
  assert (∀ h meta pay, len meta <= 1 → len (le_bytes 4 h ++ meta ++ pay) <= len pay + 5) as Hlen
    by (intros h meta pay Hm; rewrite !len_app, len_le_bytes; lia).
  assert (∀ x y : bytes, @Ok StructPackError _ x = Ok y → x = y) as Hinj by congruence.
  destruct (negb _); [destruct (width_tag _)|]; cbn [res_bind] in Hs; try done;
    (destruct (encode_payload _ v) as [pay| |]; cbn [res_bind] in Hs; try done;
     apply Hinj in Hs; subst b; exists pay; split; [done|by apply Hlen]).
Qed.

Lemma write_len_len w n b : write_len w n = Ok b → len b <= 8.
Proof.
  assert (∀ x y : bytes, @Ok StructPackError _ x = Ok y → x = y) as Hinj by congruence.
  unfold write_len. repeat case_match; try done; intros Heq; apply Hinj in Heq; subst b;
    rewrite ?len_le_bytes; done.
Qed.

Lemma str_body msg :
  utf8_valid msg = true → len msg <= DEFAULT_CONTAINER_LIMIT →
  ∃ b, serialize md5 (mkStr msg) = Ok b ∧ len b <= len msg + 15 ∧
       deserialize md5 Str b = Ok (mkStr msg).
Proof.
  intros Hu Hl. assert (len msg <= U64_MAX) as H64 by (by etrans; [exact Hl|]).
  destruct (serialize_deserialize md5 (mkStr msg) DEFAULT_CONTAINER_LIMIT) as (b & Hs & Hd);
    [done|by split|].
  exists b. split_and!; [done| |done].
  destruct (serialize_len _ _ Hs) as (pay & Hp & Hb). simpl in Hp.
  destruct (write_len _ _) as [n| |] eqn:Hw; [|done..]. injection Hp as <-.
  pose proof (write_len_len _ _ _ Hw). rewrite len_app in Hb. lia.
Qed.

Lemma ext_body code msg :
  code < 65536 → utf8_valid msg = true → len msg <= DEFAULT_CONTAINER_LIMIT →
  ∃ b, serialize md5 (extended_error code msg) = Ok b ∧ len b <= len msg + 15 ∧
       deserialize md5 ExtendedError b = Ok (extended_error code msg).
Proof.
  intros Hc Hu Hl. assert (len msg <= U64_MAX) as H64 by (by etrans; [exact Hl|]).
  destruct (serialize_deserialize (T := ExtendedError) md5 (extended_error code msg)
    DEFAULT_CONTAINER_LIMIT) as (b & Hs & Hd);
    [done|split; simpl; lia|].
  exists b. split_and!; [done| |done].
  destruct (serialize_len _ _ Hs) as (pay & Hp & Hb). cbn in Hp.
  destruct (write_len _ _) as [n| |] eqn:Hw; [|done..]. injection Hp as <-.
  pose proof (write_len_len _ _ _ Hw). rewrite app_nil_r in Hb. unfold len in *. simpl in Hb.
  rewrite length_app in Hb. lia.
Qed.

(** ** Failure frames *)

Record failure_ok (e : RpcFailure) : Prop := {
  fo_code : 0 < f_code e < 65536;
  fo_utf8 : utf8_valid (f_message e) = true;
  fo_len : len (f_message e) <= DEFAULT_CONTAINER_LIMIT
}.

Definition remote_of (e : RpcFailure) : RpcError := Remote (mkRemoteError (f_code e) (f_message e)).

Lemma failure_frame_spec sequence e :
  failure_ok e →
  ∃ code body,
    failure_frame md5 sequence e =
      Ok (mkResponseFrame (ResponseHeader_new sequence code (len body) 0) body []) ∧
    0 < code < 256 ∧ len body <= len (f_message e) + 15 ∧
    ∀ R (HR : StructPack R) hash,
      decode_response md5 (R := R)
        (mkResponseFrame (ResponseHeader_new sequence code (len body) 0) body []) hash =
        Err (remote_of e).
Proof.
  intros [Hc Hu Hl]. unfold failure_frame.
  assert (∀ body, len body <= len (f_message e) + 15 → (U32_MAX <? len body) = false) as Hfit.
  { intros body Hb. apply N.ltb_ge. unfold DEFAULT_CONTAINER_LIMIT, U32_MAX in *. lia. }
  destruct (N.leb_spec 255 (f_code e)).
  - destruct (ext_body (f_code e) (f_message e)) as (body & -> & Hb & Hd); [lia|done..|].
    exists 255, body. split_and!; [|lia..|].
    + cbn [res_bind expect fst snd]. unfold ResponseFrame_new, payload_lengths.
      by rewrite Hfit.
    + intros R ? hash. unfold decode_response. cbn. by rewrite Hd.
  - destruct (str_body (f_message e)) as (body & -> & Hb & Hd); [done..|].
    exists (f_code e), body. split_and!; [|lia..|].
    + cbn [res_bind expect fst snd]. unfold ResponseFrame_new, payload_lengths.
      by rewrite Hfit, N.mod_small by lia.
    + intros R ? hash. unfold decode_response. cbn.
      rewrite (proj2 (N.eqb_neq (f_code e) 0)), (proj2 (N.eqb_neq (f_code e) 255)) by lia.
      by rewrite Hd.
Qed.

(** ** Handlers answer *)

(** A response to the request [sequence] whose lengths are those of its parts. *)
Definition answered (sequence : N) (f : ResponseFrame) : Prop :=
  ∃ code body attachment,
    f = mkResponseFrame (ResponseHeader_new sequence code (len body) (len attachment)) body attachment ∧
    code < 256 ∧ len body < 2 ^ 32 ∧ len attachment < 2 ^ 32.

Lemma failure_answered sequence e :
  failure_ok e → ∃ f, failure_frame md5 sequence e = Ok f ∧ answered sequence f.
Proof.
  intros He. destruct (failure_frame_spec sequence e He) as (code & body & -> & Hc & Hb & _).
  eexists. split; [done|]. exists code, body, []. split_and!; [done|lia| |done].
  destruct He as [_ _ Hl]. unfold DEFAULT_CONTAINER_LIMIT in Hl. lia.
Qed.

Lemma new_failure_ok code msg :
  0 < code < 65536 → printable DEFAULT_CONTAINER_LIMIT msg → failure_ok (RpcFailure_new code msg).
Proof.
  intros Hc [Ha Hl]. unfold RpcFailure_new. rewrite (proj2 (N.eqb_neq code 0)) by lia. by split.
Qed.

Lemma standard_failure_ok c : c ≠ CodeOk → failure_ok (RpcFailure_standard c).
Proof.
  intros Hc. apply new_failure_ok; [by destruct c|].
  apply short_printable. destruct c; (eapply short_mono; [apply short_text; by vm_compute|done]).
Qed.

Lemma invalid_arguments_answered sequence e :
  error_ok e → ∃ f, invalid_arguments md5 sequence e = Ok f ∧ answered sequence f.
Proof.
  intros He. apply failure_answered, new_failure_ok; [done|]. eapply printable_mono.
  - apply printable_app; [apply short_printable, short_text; by vm_compute|by apply short_display].
  - done.
Qed.

Lemma success_answered {R} `{StructPackLaws R} sequence (v : R) attachment :
  sp_wf v → max_container_len v <= U64_MAX →
  ∃ f, success_frame md5 sequence v attachment (type_hash md5 R) = Ok f ∧ answered sequence f.
Proof.
  intros Hwf H64. unfold success_frame.
  destruct (serialize_total md5 v Hwf H64) as [b Hb]. unfold serialize in Hb. rewrite Hb.
  unfold ResponseFrame_new, payload_lengths.
  destruct (N.ltb_spec U32_MAX (len b)); [by apply failure_answered, standard_failure_ok|].
  destruct (N.ltb_spec U32_MAX (len attachment)); [by apply failure_answered, standard_failure_ok|].
  eexists. split; [done|]. exists 0, b, attachment. unfold U32_MAX in *. split_and!; [done|lia..].
Qed.
End Frames.

(** ** The server answers every request *)

Section Server.
Context (md5 : bytes → bytes) {Addr : Type}.
Local Abbreviation Routes := (gmap N (Route (Addr := Addr))).
Local Abbreviation Context_ := (RequestContext (Addr := Addr)).

Definition value_ok {R} `{StructPackLaws R} (v : R) : Prop :=
  sp_wf v ∧ max_container_len v <= U64_MAX.

Definition outcome_ok {R} (ok : R → Prop) (r : R + RpcFailure) : Prop :=
  match r with inl v => ok v | inr e => failure_ok e end.

(** The values a handler can be given. *)
Definition decodable {A} `{StructPackLaws A} (a : A) : Prop :=
  sp_wf a ∧ within_limit DEFAULT_CONTAINER_LIMIT a.

(** Route tables built by registration, of functions whose results are values
    of their type and whose failures have a code and a text. *)
Inductive served : Routes → Prop :=
| served_new : served ∅
| served_register {A R} `{StructPackLaws A, StructPackLaws R} name (f : A → R + RpcFailure) s s' :
    served s → (∀ a, decodable a → outcome_ok value_ok (f a)) →
    register md5 (RpcMethod_new md5 name) f s = Ok s' → served s'
| served_register_with_context {A R} `{StructPackLaws A, StructPackLaws R} name
    (f : A → Context_ → RpcResponse R + RpcFailure) s s' :
    served s → (∀ a c, decodable a → outcome_ok (fun r => value_ok (r_value r)) (f a c)) →
    register_with_context md5 (RpcMethod_new md5 name) f s = Ok s' → served s'
| served_register_no_args {R} `{StructPackLaws R} name (f : unit → R + RpcFailure) s s' :
    served s → outcome_ok value_ok (f tt) →
    register_no_args md5 (RpcNoArgsMethod_new md5 name) f s = Ok s' → served s'
| served_register_no_args_with_context {R} `{StructPackLaws R} name
    (f : Context_ → RpcResponse R + RpcFailure) s s' :
    served s → (∀ c, outcome_ok (fun r => value_ok (r_value r)) (f c)) →
    register_no_args_with_context md5 (RpcNoArgsMethod_new md5 name) f s = Ok s' → served s'.

Definition answers (h : Handler (Addr := Addr)) : Prop := ∀ body c,
  bytes_ok body → ∃ f, h body c = Ok f ∧ answered (c_sequence c) f.

Lemma decoded_answers {A} `{StructPackLaws A} (k : A → Context_ → res Infallible ResponseFrame) :
  (∀ a c, decodable a → ∃ f, k a c = Ok f ∧ answered (c_sequence c) f) →
  answers (fun body c =>
    match deserialize_with_type_hash A body (type_hash md5 A) with
    | Err e => invalid_arguments md5 (c_sequence c) e
    | Panic => Panic
    | Ok a => k a c
    end).
Proof.
  intros Hk body c Hb.
  pose proof (deserialize_yields md5 (T := A) body DEFAULT_CONTAINER_LIMIT Hb) as Hy.
  unfold deserialize_with_limit in Hy. unfold deserialize_with_type_hash.
  destruct (deserialize_with_type_hash_and_limit A body _ _) as [a|e|]; [|by apply invalid_arguments_answered|done].
  apply Hk, Hy.
Qed.

Lemma outcome_answers {R} `{StructPackLaws R} {X} (ok : X → Prop) (value : X → R)
    (attachment : X → bytes) sequence (r : X + RpcFailure) :
  (∀ x, ok x → value_ok (value x)) → outcome_ok ok r →
  ∃ f, match r with
       | inl x => success_frame md5 sequence (value x) (attachment x) (type_hash md5 R)
       | inr e => failure_frame md5 sequence e
       end = Ok f ∧ answered sequence f.
Proof.
  intros Hv. destruct r as [x|e]; simpl; intros Hok; [|by apply failure_answered].
  destruct (Hv x Hok) as [Hw H64].
  exact (success_answered md5 sequence (value x) (attachment x) Hw H64).
Qed.

Lemma insert_answers id name h (s s' : Routes) :
  insert_route id name h s = Ok s' → answers h →
  (∀ i r, s !! i = Some r → answers (route_handler r)) →
  ∀ i r, s' !! i = Some r → answers (route_handler r).
Proof.
  unfold insert_route. destruct (s !! id); [done|]. intros [= <-] Hh Hs i r.
  intros [[_ <-]|[_ Hi]]%lookup_insert_Some; [done|by apply (Hs i)].
Qed.

Lemma served_answers s : served s → ∀ i r, s !! i = Some r → answers (route_handler r).
Proof.
  induction 1 as [|A R ? ? ? ? name f s s' Hs IH Hf Hr|A R ? ? ? ? name f s s' Hs IH Hf Hr
    |R ? ? name f s s' Hs IH Hf Hr|R ? ? name f s s' Hs IH Hf Hr]; [done|..];
    (eapply insert_answers; [exact Hr| |exact IH]).
  - apply decoded_answers. intros a c Ha.
    apply (outcome_answers value_ok id (fun _ => [])); [done|by apply Hf].
  - apply decoded_answers. intros a c Ha.
    apply (outcome_answers (fun r => value_ok (r_value r)) r_value r_attachment); [done|by apply Hf].
  - intros body c _. unfold no_args_handler.
    destruct (negb _); [by apply failure_answered, standard_failure_ok|].
    by apply (outcome_answers value_ok id (fun _ => [])).
  - intros body c _. unfold no_args_context_handler.
    destruct (negb _); [by apply failure_answered, standard_failure_ok|].
    by apply (outcome_answers (fun r => value_ok (r_value r)) r_value r_attachment).
Qed.

(** The server answers every request.  On a route table built by
    registration, any request, with an unknown function or malformed arguments
    included, gets a response with its own sequence number and consistent
    lengths, without a panic; a request for an unknown function reaches the
    caller as the error "function not registered". *)
Theorem server_answers_every_request s peer request :
  served s → bytes_ok (rq_body request) →
  ∃ f, service_call md5 s peer request = Ok f ∧ answered (rq_sequence (rq_header request)) f ∧
    (s !! rq_function_id (rq_header request) = None →
     ∀ R (HR : StructPack R) hash,
       decode_response md5 (R := R) f hash =
         Err (Remote (mkRemoteError 11 (text "function not registered")))).
Proof.
  intros Hs Hb. unfold service_call. destruct (s !! _) as [r|] eqn:Hr.
  - destruct (served_answers s Hs _ r Hr (rq_body request)
      (mkContext (rq_sequence (rq_header request)) (rq_function_id (rq_header request))
         (rq_attachment request) peer) Hb) as (f & Hf & Ha). by exists f.
  - assert (failure_ok (RpcFailure_new 11 (text "function not registered"))) as Hok
      by (apply (standard_failure_ok FunctionNotRegistered); done).
    destruct (failure_answered md5 (rq_sequence (rq_header request)) _ Hok) as (f & Hf & Ha).
    exists f. split_and!; [done..|]. intros _ R HR hash.
    destruct (failure_frame_spec md5 (rq_sequence (rq_header request)) _ Hok)
      as (code & body & Hf' & _ & _ & Hd).
    replace f with (mkResponseFrame (ResponseHeader_new (rq_sequence (rq_header request)) code (len body) 0) body [])
      by congruence. apply Hd.
Qed.
End Server.

(** ** A call end to end *)

Section Remote.
Context (md5 : bytes → bytes) (digest_bytes : ∀ input, bytes_ok (md5 input)).
Context {Addr : Type} {A R : Type} `{StructPackLaws A, StructPackLaws R}.
Local Abbreviation Routes := (gmap N (Route (Addr := Addr))).
Local Abbreviation Context_ := (RequestContext (Addr := Addr)).

(** A frame encoded by one end and decoded by the other. *)
Definition transmit_request (limits : FrameLimits) (f : RequestFrame) : option RequestFrame :=
  match client_encode f [] with
  | (Ok _, b) => match server_decode limits b with (Ok (Some g), []) => Some g | _ => None end
  | _ => None
  end.

Definition transmit_response (limits : FrameLimits) (f : ResponseFrame) : option ResponseFrame :=
  match server_encode f [] with
  | (Ok _, b) => match client_decode limits b with (Ok (Some g), []) => Some g | _ => None end
  | _ => None
  end.

(** The exchange of a request frame and its response with a server with limits
    [slimits] and routes [s], over a connection that delivers what is sent. *)
Definition exchange (c : ClientInner) (slimits : FrameLimits) (s : Routes) (peer : Addr)
    (frame : res RpcError RequestFrame) (response_type_hash : N) : res RpcError (RpcReply R) :=
  let? request := frame in
  match transmit_request slimits request with
  | None => Err Io
  | Some request =>
      match service_call md5 s peer request with
      | Ok response =>
          match transmit_response (ci_frame_limits c) response with
          | None => Err Io
          | Some response => decode_response md5 response response_type_hash
          end
      | _ => Panic
      end
  end.

(** [call_with_attachment] and [call_no_args_with_attachment]. *)
Definition remote_call (c : ClientInner) (slimits : FrameLimits) (s : Routes) (peer : Addr)
    (method : RpcMethod A R) (a : A) (attachment : bytes) : res RpcError (RpcReply R) :=
  exchange c slimits s peer (call_request c method a attachment).1 (m_response_type_hash method).

Definition remote_call_no_args (c : ClientInner) (slimits : FrameLimits) (s : Routes) (peer : Addr)
    (method : RpcNoArgsMethod R) (attachment : bytes) : res RpcError (RpcReply R) :=
  exchange c slimits s peer (call_no_args_request c method attachment).1 (n_response_type_hash method).

Definition fits (limits : FrameLimits) (body attachment : bytes) : Prop :=
  len body <= max_body_len limits ∧ len attachment <= max_attachment_len limits ∧
  len body < 2 ^ 32 ∧ len attachment < 2 ^ 32.

Record sendable (c : ClientInner) (slimits : FrameLimits) (a : A) (attachment : bytes) : Prop := {
  s_open : ci_closed c = false;
  s_sequence : ci_next_sequence c < 2 ^ 32;
  s_wf : sp_wf a;
  s_limit : within_limit DEFAULT_CONTAINER_LIMIT a;
  s_body body : serialize md5 a = Ok body →
    fits (ci_frame_limits c) body attachment ∧ fits slimits body attachment
}.

Definition outcome_fits (limits : FrameLimits) (o : RpcResponse R + RpcFailure) : Prop :=
  match o with
  | inl r =>
      sp_wf (r_value r) ∧ within_limit DEFAULT_CONTAINER_LIMIT (r_value r) ∧
      ∀ body, serialize md5 (r_value r) = Ok body → fits limits body (r_attachment r)
  | inr e => failure_ok e ∧ len (f_message e) + 15 <= max_body_len limits
  end.

Lemma function_id_bound name : function_id md5 name < 2 ^ 32.
Proof.
  unfold function_id, md5_hash32.
  assert (bytes_ok (rev (take 4 (md5 name)))) as Hb by (apply List.Forall_rev, Forall_take, digest_bytes).
  pose proof (le_num_bound _ Hb) as Hn. eapply N.lt_le_trans; [exact Hn|].
  change (2 ^ 32) with (256 ^ 4). apply N.pow_le_mono_r; [done|]. unfold len.
  rewrite length_rev, length_take. lia.
Qed.

Lemma transmit_request_ok limits f :
  request_frame_ok limits f → transmit_request limits f = Some f.
Proof.
  intros Hf. unfold transmit_request, client_encode, server_decode.
  rewrite (request_encode_ok limits) by done. cbn [app].
  pose proof (request_decode_frame limits f [] Hf) as Hd. rewrite app_nil_r in Hd. by rewrite Hd.
Qed.

Lemma transmit_response_ok limits f :
  response_frame_ok limits f → transmit_response limits f = Some f.
Proof.
  intros Hf. unfold transmit_response, server_encode, client_decode.
  rewrite (response_encode_ok limits) by done. cbn [app].
  pose proof (response_decode_frame limits f [] Hf) as Hd. rewrite app_nil_r in Hd. by rewrite Hd.
Qed.

Lemma response_new_ok limits sequence code body attachment :
  sequence < 2 ^ 32 → code < 256 → fits limits body attachment →
  response_frame_ok limits
    (mkResponseFrame (ResponseHeader_new sequence code (len body) (len attachment)) body attachment).
Proof. intros Hs Hc (? & ? & ? & ?). split; [|done..]. by split. Qed.

Lemma request_new_ok limits sequence id body attachment :
  sequence < 2 ^ 32 → id < 2 ^ 32 → fits limits body attachment →
  request_frame_ok limits
    (mkRequestFrame (RequestHeader_new sequence id (len body) (len attachment)) body attachment).
Proof. intros Hs Hc (? & ? & ? & ?). split; [|done..]. by split. Qed.

Lemma fits_u32 limits body attachment :
  fits limits body attachment → payload_lengths body attachment = Ok (len body, len attachment).
Proof.
  intros (_ & _ & Hb & Ha). unfold payload_lengths, U32_MAX.
  by rewrite (proj2 (N.ltb_ge _ (len body))), (proj2 (N.ltb_ge _ (len attachment))) by lia.
Qed.

Lemma send_ok c id body attachment :
  ci_closed c = false → fits (ci_frame_limits c) body attachment →
  (send c id body attachment).1 =
    Ok (mkRequestFrame (RequestHeader_new (ci_next_sequence c) id (len body) (len attachment))
          body attachment).
Proof.
  intros Hopen Hf. unfold send. rewrite Hopen. pose proof Hf as (Hb & Ha & _ & _).
  rewrite (proj2 (N.ltb_ge _ (len body))), (proj2 (N.ltb_ge _ (len attachment))) by done.
  unfold RequestFrame_new. by rewrite (fits_u32 _ _ _ Hf).
Qed.

(** The response to a successful or failed function reaches the caller. *)
Lemma outcome_delivered limits sequence (o : RpcResponse R + RpcFailure) :
  sequence < 2 ^ 32 → outcome_fits limits o →
  ∃ f, match o with
       | inl r => success_frame md5 sequence (r_value r) (r_attachment r) (type_hash md5 R)
       | inr e => failure_frame md5 sequence e
       end = Ok f ∧ transmit_response limits f = Some f ∧
       decode_response md5 f (type_hash md5 R) =
         match o with inl r => Ok r | inr e => Err (remote_of e) end.
Proof.
  intros Hs. destruct o as [r|e]; simpl.
  - intros (Hwf & Hl & Hfit).
    destruct (serialize_deserialize md5 (r_value r) _ Hwf Hl) as (b & Hb & Hd). specialize (Hfit b Hb).
    unfold success_frame, ResponseFrame_new. unfold serialize in Hb.
    rewrite Hb, (fits_u32 _ _ _ Hfit). eexists. split; [done|].
    split; [by apply transmit_response_ok, response_new_ok|].
    unfold decode_response, deserialize_with_type_hash. cbn [rs_header rs_body].
    unfold deserialize_with_limit in Hd. cbn. rewrite Hd. by destruct r.
  - intros [He Hlen]. destruct (failure_frame_spec md5 sequence e He) as (code & body & -> & Hc & Hb & Hd).
    eexists. split; [done|]. split; [|apply Hd]. destruct He as [_ _ Hl].
    unfold DEFAULT_CONTAINER_LIMIT in Hl.
    apply transmit_response_ok, (response_new_ok limits sequence code body []); [done|lia|].
    split_and!; [lia|apply N.le_0_l|lia|done].
Qed.

Lemma typed_is_context (f : A → R + RpcFailure) rq rs body (c : Context_) :
  typed_handler md5 f rq rs body c =
  context_handler md5 (fun a _ => match f a with inl v => inl (mkResponse v []) | inr e => inr e end)
    rq rs body c.
Proof.
  unfold typed_handler, context_handler. destruct (deserialize_with_type_hash A body rq) as [a| |]; [|done..].
  by destruct (f a).
Qed.

Definition outcome_result (o : RpcResponse R + RpcFailure) : res RpcError (RpcReply R) :=
  match o with inl r => Ok r | inr e => Err (remote_of e) end.

(** The frame that a handler answers with for the outcome of its function. *)
Definition outcome_frame (sequence : N) (o : RpcResponse R + RpcFailure) : res Infallible ResponseFrame :=
  match o with
  | inl r => success_frame md5 sequence (r_value r) (r_attachment r) (type_hash md5 R)
  | inr e => failure_frame md5 sequence e
  end.

Lemma exchange_ok c slimits (s : Routes) peer name h body attachment o
    (ctx := mkContext (ci_next_sequence c) (function_id md5 name) attachment peer) :
  ci_closed c = false → ci_next_sequence c < 2 ^ 32 →
  fits (ci_frame_limits c) body attachment → fits slimits body attachment →
  outcome_fits (ci_frame_limits c) o → s !! function_id md5 name = Some (mkRoute name h) →
  h body ctx = outcome_frame (c_sequence ctx) o →
  exchange c slimits s peer (send c (function_id md5 name) body attachment).1 (type_hash md5 R) = outcome_result o.
Proof.
  intros Hopen Hseq Hcf Hsf Hout Hroute Hh. unfold exchange. rewrite send_ok by done. cbn [res_bind].
  rewrite transmit_request_ok by (apply request_new_ok; [done|apply function_id_bound|done]).
  unfold service_call. cbn [rq_header rq_body rq_attachment RequestHeader_new rq_sequence rq_function_id].
  rewrite Hroute. cbn [route_handler]. fold ctx. rewrite Hh.
  destruct (outcome_delivered (ci_frame_limits c) (c_sequence ctx) o) as (fr & Hf & Ht & Hr); [done..|].
  unfold outcome_frame. by rewrite Hf, Ht, Hr.
Qed.

Lemma remote_call_context c slimits (s : Routes) peer name h f a attachment
    (ctx := mkContext (ci_next_sequence c) (function_id md5 name) attachment peer) :
  sendable c slimits a attachment → outcome_fits (ci_frame_limits c) (f a ctx) →
  s !! function_id md5 name = Some (mkRoute name h) →
  (∀ body, h body ctx = context_handler md5 f (type_hash md5 A) (type_hash md5 R) body ctx) →
  remote_call c slimits s peer (RpcMethod_new md5 name) a attachment = outcome_result (f a ctx).
Proof.
  intros [Hopen Hseq Hwf Hlim Hfit] Hout Hroute Hh. unfold remote_call, call_request.
  destruct (serialize_deserialize md5 a _ Hwf Hlim) as (body & Hb & Hd).
  destruct (Hfit body Hb) as [Hcf Hsf]. unfold serialize in Hb.
  cbn [RpcMethod_new m_request_type_hash m_response_type_hash m_route_id]. rewrite Hb.
  eapply exchange_ok; [done..|]. rewrite Hh. unfold context_handler.
  unfold deserialize_with_limit in Hd. unfold deserialize_with_type_hash. by rewrite Hd.
Qed.

Lemma insert_route_lookup id name h (s0 s1 s : Routes) :
  insert_route id name h s0 = Ok s1 → s1 ⊆ s → s !! id = Some (mkRoute name h).
Proof.
  unfold insert_route. destruct (s0 !! id); [done|]. intros [= <-] Hsub.
  eapply lookup_weaken; [|exact Hsub]. by rewrite lookup_insert_eq.
Qed.

(** C25: a call runs the registered function and brings its outcome back.  When
    a method was registered with a function, on that server or one with further
    routes, and the frames fit the limits of both ends, a client's call over
    the wire returns exactly the value and the attachment that the function
    returns for the caller's arguments and the request's context, or exactly its
    failure as a remote error; for functions without a context the attachment of
    the reply is empty. *)
Theorem remote_call_runs_function c slimits (s0 s1 s : Routes) peer name a attachment
    (f : A → Context_ → RpcResponse R + RpcFailure) (g : A → R + RpcFailure)
    (ctx := mkContext (ci_next_sequence c) (function_id md5 name) attachment peer) :
  sendable c slimits a attachment → s1 ⊆ s →
  (register_with_context md5 (RpcMethod_new md5 name) f s0 = Ok s1 →
   outcome_fits (ci_frame_limits c) (f a ctx) →
   remote_call c slimits s peer (RpcMethod_new md5 name) a attachment =
     match f a ctx with inl r => Ok r | inr e => Err (remote_of e) end) ∧
  (register md5 (RpcMethod_new md5 name) g s0 = Ok s1 →
   outcome_fits (ci_frame_limits c)
     (match g a with inl v => inl (mkResponse v []) | inr e => inr e end) →
   remote_call c slimits s peer (RpcMethod_new md5 name) a attachment =
     match g a with inl v => Ok (mkResponse v []) | inr e => Err (remote_of e) end).
Proof.
  intros Hs Hsub. split; intros Hreg Hout.
  - by eapply remote_call_context; [..|eapply insert_route_lookup|].
  - erewrite (remote_call_context _ _ _ _ _ _
      (fun a _ => match g a with inl v => inl (mkResponse v []) | inr e => inr e end));
      [unfold outcome_result; by destruct (g a)|done|done|by eapply insert_route_lookup|].
    intros body. apply typed_is_context.
Qed.
End Remote.

(** ** Example *)

(** A method that returns the name of a person and refuses an empty one. *)
Definition name_of (p : Person) : Str + RpcFailure :=
  let name := field (others (struct_fields p)) in
  if len (str_bytes name) =? 0 then inr (RpcFailure_new 1001 (text "no name")) else inl name.

Definition echo (p : Person) (c : RequestContext (Addr := N)) : RpcResponse Person + RpcFailure :=
  inl (mkResponse p (c_attachment c)).

Definition name_of_method : RpcMethod Person Str := RpcMethod_new digest (text "name_of").

Definition example_routes : gmap N (Route (Addr := N)) :=
  <[m_route_id name_of_method :=
      mkRoute (text "name_of")
        (typed_handler digest name_of (m_request_type_hash name_of_method)
           (m_response_type_hash name_of_method))]> ∅.

Definition example_client : ClientInner := mkClient false 41 limits_default.

Lemma example_registered : register digest name_of_method name_of ∅ = Ok example_routes.
Proof. done. Qed.

Lemma digest_ok input : bytes_ok (digest input).
Proof. apply le_bytes_ok. Qed.

Lemma remote_call_runs_function_witness :
  remote_call digest example_client limits_default example_routes 9 name_of_method
    (person 3 [97; 98]) [] = Ok (mkResponse (mkStr [97; 98]) []) ∧
  remote_call digest example_client limits_default example_routes 9 name_of_method
    (person 3 []) [] = Err (Remote (mkRemoteError 1001 (text "no name"))).
Proof.
  split.
  - refine (proj2 (remote_call_runs_function digest digest_ok (A := Person) (R := Str)
      example_client limits_default ∅ example_routes example_routes 9 (text "name_of")
      (person 3 [97; 98]) [] (fun _ _ => inr (RpcFailure_new 1 [])) name_of _ _) example_registered _).
    + split; [done|done| |vm_compute; done|].
      * vm_compute. split_and!; done.
      * intros body Hb. vm_compute in Hb. injection Hb as <-. by vm_compute.
    + reflexivity.
    + split; [done|]. split; [by vm_compute|]. intros body Hb. vm_compute in Hb.
      injection Hb as <-. by vm_compute.
  - refine (proj2 (remote_call_runs_function digest digest_ok (A := Person) (R := Str)
      example_client limits_default ∅ example_routes example_routes 9 (text "name_of")
      (person 3 []) [] (fun _ _ => inr (RpcFailure_new 1 [])) name_of _ _) example_registered _).
    + split; [done|done| |vm_compute; done|].
      * vm_compute. split_and!; done.
      * intros body Hb. vm_compute in Hb. injection Hb as <-. by vm_compute.
    + reflexivity.
    + split; [split; vm_compute; done|vm_compute; done].
Defined.

(** The same table with a method that takes no arguments. *)
Definition ping (_ : unit) : bool + RpcFailure := inl true.
Definition ping_routes : gmap N (Route (Addr := N)) :=
  <[function_id digest (text "ping") :=
      mkRoute (text "ping") (no_args_handler digest ping (type_hash digest bool))]> example_routes.

Lemma name_of_ok (p : Person) : decodable p → outcome_ok value_ok (name_of p).
Proof.
  destruct p as [[id [[name] []]]]. intros [Ha [Hl H64]]. unfold name_of.
  cbn [others field struct_fields str_bytes]. destruct (N.eqb_spec (len name) 0) as [He|_].
  - apply new_failure_ok; [done|]. apply short_printable; eapply short_mono; [apply short_text; by vm_compute|done].
  - destruct Ha as (_ & Hu & _). split; [exact Hu|]. simpl in *. lia.
Qed.

Lemma ping_served : served digest ping_routes.
Proof.
  apply (served_register_no_args digest (R := bool) (text "ping") ping example_routes ping_routes);
    [|by split|done].
  exact (served_register digest (A := Person) (R := Str) (text "name_of") name_of ∅ example_routes
    (served_new digest) name_of_ok example_registered).
Qed.

Lemma server_answers_every_request_witness :
  ∃ f, service_call digest ping_routes 9
         (mkRequestFrame (RequestHeader_new 5 77 1 0) [3] []) = Ok f ∧ answered 5 f ∧
    (ping_routes !! 77 = None →
     ∀ R (HR : StructPack R) hash,
       decode_response digest (R := R) f hash =
         Err (Remote (mkRemoteError 11 (text "function not registered")))).
Proof.
  apply (server_answers_every_request digest ping_routes 9
    (mkRequestFrame (RequestHeader_new 5 77 1 0) [3] [])).
  - exact ping_served.
  - by repeat constructor.
Defined.
