(* ===== verification/ThriftParse.v ===== *)
(** * Interface definitions

    [coro-rpc-codegen/src/ast.rs]: the document that the generator works on, the
    generator's errors, and the lowering of the tree that the Thrift grammar of
    tree-sitter yields to a document.  The grammar is
    not part of the repository: a tree is an argument, with what the code asks
    of its nodes.  So is the JSON parser, which reads string literals. *)
From S2P Require Import Prelude.

(** ** The document *)

Module Thrift.
Inductive Ty :=
| Void | Bool
| I8 | U8 | I16 | U16 | I32 | U32 | I64 | U64
| F32 | F64
| String_ | Binary
| List (value : Ty)
| Set_ (value : Ty)
| Map (key value : Ty)
| Named (name : string).

#[export] Instance ty_eq : EqDecision Ty.
Proof. solve_decision. Defined.

Record Field := mkField { f_id : Z; f_name : string; f_type : Ty; f_optional : bool }.

Record Typedef := mkTypedef { td_name : string; td_target : Ty }.

Inductive EnumRepr := ReprI32 | ReprU8.
#[export] Instance enum_repr_eq : EqDecision EnumRepr.
Proof. solve_decision. Defined.

Record EnumVariant := mkVariant { v_name : string; v_value : Z }.
Record Enum := mkEnum { e_name : string; e_variants : list EnumVariant; e_repr : EnumRepr }.

Record Union := mkUnion { u_name : string; u_alternatives : list Field; u_expected : bool }.
Record Struct := mkStruct { s_name : string; s_fields : list Field; s_cpp_u64_pair : bool }.

Record Function := mkFunction {
  fn_name : string;
  fn_wire_name : option string;
  fn_attachment : bool;
  fn_returns : Ty;
  fn_parameters : list Field
}.

Record Service := mkService {
  sv_name : string;
  sv_namespace : option string;
  sv_functions : list Function
}.

Record Document := mkDocument {
  rust_namespace : list string;
  cpp_namespace : option string;
  typedefs : list Typedef;
  enums : list Enum;
  unions : list Union;
  structs : list Struct;
  services : list Service
}.
End Thrift.

(** ** Errors

    An error is the path of the input and a message; the model keeps which
    message it is and the parts of the input that it quotes. *)
Inductive Contract :=
| NoGrammar | NoSyntaxTree
| NotSupported (kind : string)
| NotUsed
| OutsideSubset (kind : string)
| UnexpectedTopLevel (kind : string)
| NoService
| Missing (what : string)
| ModifiedAlternative (union : string)
| ValueWithoutVariant (enum : string)
| ImplicitValueOverflow (enum variant : string)
| BadRepr (repr : string)
| BadInteger (enum raw : string)
| ValueOutsideI32 (enum raw : string)
| Inheritance
| NoFunctions (service : string)
| FunctionModifier (modifier : string)
| Throws
| NoFieldId (description : string)
| BadFieldId (raw : string)
| NonPositiveId
| NoType (description : string) | NoName (description : string)
| DefaultValue (description name : string)
| UnknownTypeNode (raw : string) | UnexpectedTypeNode (kind : string)
| BadPrimitive (raw : string)
| NoElementType (kind : string)
| MapArity
| NotABool (key value : string)
| NoAnnotationValue (key : string)
| BadStringLiteral (raw : string)
| SingleQuoted
| EmptyStruct (name : string) | EmptyEnum (name : string) | EmptyUnion (name : string)
| DuplicateType (name : string)
| DuplicateService (name : string) | DuplicateItem (name : string)
| ReservedMethod (method : string) | DuplicateMethod (service method : string)
| ReservedParameter (service method : string)
| DuplicateWireName (name : string)
| RouteCollision (route : N) (existing name : string)
| DuplicateFieldId (owner : string) (id : Z) | DuplicateFieldName (owner name : string)
| ValueOutsideRepr (enum : string) (value : Z)
| DuplicateVariant (owner name : string)
| DuplicateValue (enum existing variant : string) (value : Z)
| TooManyAlternatives (union : string)
| IdsNotContiguous (union : string) (expected got : Z)
| NotAU64Pair (struct : string)
| NotExpected (union : string)
| UnknownType (name : string)
| UnorderedSet | UnorderedKey
| VoidInside (owner : string)
| RecursiveType (name : string)
| NotAnIdentifier (description name : string).

Inductive CodegenError :=
| ParseError (line column : N) (fragment : string)
| InvalidContract (message : Contract).

Import Thrift.

(** ** Text *)

Infix "=s" := String.eqb (at level 70, no associativity) : cake_scope.

Fixpoint strip_codes (p l : list N) : option (list N) :=
  match p, l with
  | [], _ => Some l
  | x :: p', y :: l' => if x =? y then strip_codes p' l' else None
  | _ :: _, [] => None
  end.

Definition strip_prefix (p s : string) : option string := of_text <$> strip_codes (text p) (text s).

(** The first of the sequences [seqs] that [l] starts with is dropped, again and
    again; each drops something, so that [length l] rounds are enough. *)
Fixpoint strip_all (seqs : list (list N)) (rounds : nat) (l : list N) : list N :=
  match rounds with
  | O => l
  | S rounds' =>
      match head (omap (fun p => strip_codes p l) seqs) with
      | Some l' => strip_all seqs rounds' l'
      | None => l
      end
  end.

Definition strip_start (seqs : list (list N)) (l : list N) : list N := strip_all seqs (length l) l.
Definition strip_end (seqs : list (list N)) (l : list N) : list N :=
  reverse (strip_start (map reverse seqs) (reverse l)).

(** The encodings of the characters with the property [White_Space]. *)
Definition white_space : list (list N) :=
  [[9]; [10]; [11]; [12]; [13]; [32]; [194; 133]; [194; 160]; [225; 154; 128]] ++
  map (fun x => [226; 128; x]) [128; 129; 130; 131; 132; 133; 134; 135; 136; 137; 138; 168; 169; 175] ++
  [[226; 129; 159]; [227; 128; 128]].

Definition trim (s : string) : string := of_text (strip_end white_space (strip_start white_space (text s))).

Definition colon : list (list N) := [[58]].
Definition trim_end_colons (s : string) : string := of_text (strip_end colon (text s)).
Definition trim_colons (s : string) : string := of_text (strip_end colon (strip_start colon (text s))).

(** [split(c)] *)
Fixpoint split_codes (c : N) (l : list N) : list (list N) :=
  match l with
  | [] => [[]]
  | x :: l' =>
      if x =? c then [] :: split_codes c l'
      else match split_codes c l' with p :: ps => (x :: p) :: ps | [] => [[x]] end
  end.

(** [name.split('.')] without the empty parts, and [replace('.', "::")]. *)
Definition dotted_parts (s : string) : list string :=
  map of_text (filter (fun p => p ≠ []) (split_codes 46 (text s))).
Definition dots_to_colons (s : string) : string :=
  of_text (mjoin (map (fun x => if x =? 46 then [58; 58] else [x]) (text s))).
Definition join_dots (l : list string) : string := String.concat "." l.

(** [i64::from_str_radix] *)
Definition I64_MAX : Z := 9223372036854775807.
Definition in_i64 (z : Z) : bool := ((- I64_MAX - 1 <=? z) && (z <=? I64_MAX))%Z.
Definition in_i32 (z : Z) : bool := ((-2147483648 <=? z) && (z <=? 2147483647))%Z.

Definition digit_of (radix c : N) : option N :=
  let d := if (48 <=? c) && (c <=? 57) then Some (c - 48)
           else if (97 <=? c) && (c <=? 122) then Some (c - 87)
           else if (65 <=? c) && (c <=? 90) then Some (c - 55)
           else None in
  match d with Some d => if d <? radix then Some d else None | None => None end.

Fixpoint digits_value (radix : N) (l : list N) (acc : Z) : option Z :=
  match l with
  | [] => Some acc
  | c :: l' => d ← digit_of radix c; digits_value radix l' (acc * Z.of_N radix + Z.of_N d)%Z
  end.

Definition checked_i64 (z : Z) : option Z := if in_i64 z then Some z else None.

Definition from_str_radix (radix : N) (s : string) : option Z :=
  match text s with
  | [] | [43] | [45] => None
  | 43 :: l => digits_value radix l 0 ≫= checked_i64
  | 45 :: l => z ← digits_value radix l 0; checked_i64 (- z)
  | l => digits_value radix l 0 ≫= checked_i64
  end.

(** ** The syntax tree *)

(** A node with its kind, whether it is named, the field of its parent that it
    is, whether it is or stands for an error, where it starts, and its text. *)
#[warnings="-register-all"]
Inductive node := Node {
  n_kind : string;
  n_named : bool;
  n_field : option string;
  n_error : bool;
  n_missing : bool;
  n_start_byte : N;
  n_start_position : N * N;
  n_text : string;
  n_children : list node
}.

(** The tree and whether its root [has_error]. *)
Record Tree := mkTree { root_node : node; root_has_error : bool }.

Definition is_kind (k : string) (n : node) : bool := n_kind n =s k.
Definition kind_in (ks : list string) (n : node) : bool := existsb (fun k => n_kind n =s k) ks.

Definition named_children (n : node) : list node := List.filter n_named (n_children n).
Definition only_named_child (n : node) : option node :=
  match named_children n with [c] => Some c | _ => None end.

Definition in_field (name : string) (n : node) : bool :=
  match n_field n with Some f => f =s name | None => false end.
Definition children_by_field_name (name : string) (n : node) : list node :=
  List.filter (in_field name) (n_children n).
Definition child_by_field_name (name : string) (n : node) : option node :=
  List.find (in_field name) (n_children n).

(** The first error node in the order of the source. *)
Fixpoint first_error (n : node) : option node :=
  if n_error n || n_missing n then Some n
  else head (omap (fun x => x)
         (map (fun c => if n_named c then first_error c else None) (n_children n))).

Section Parse.
(** [serde_json::from_str] at [String]. *)
Context (from_json : string → option string).

Local Abbreviation result := (res CodegenError).
Definition invalid {A} (c : Contract) : result A := Err (InvalidContract c).
Definition or_invalid {A} (c : Contract) (o : option A) : result A := ok_or (InvalidContract c) o.

(** ** Annotations *)

Definition parse_string_or_raw (raw : string) : result string :=
  match text raw with
  | 34 :: _ => or_invalid (BadStringLiteral raw) (from_json raw)
  | 39 :: _ => invalid SingleQuoted
  | _ => Ok raw
  end.

(** The children of one [annotation_definition]: a key, and the literal that may
    follow it. *)
Fixpoint annotation_entries (children : list node) (acc : gmap string (option string))
    : result (gmap string (option string)) :=
  match children with
  | [] => Ok acc
  | c :: rest =>
      if is_kind "annotation_identifier" c then
        let key := trim (n_text c) in
        match rest with
        | v :: rest' =>
            if is_kind "literal" v then
              let? value := parse_string_or_raw (trim (n_text v)) in
              annotation_entries rest' (<[key := Some value]> acc)
            else annotation_entries rest (<[key := None]> acc)
        | [] => Ok (<[key := None]> acc)
        end
      else annotation_entries rest acc
  end.

Definition parse_annotations (n : node) : result (gmap string (option string)) :=
  try_fold (fun acc a => annotation_entries (named_children a) acc) ∅
    (List.filter (is_kind "annotation_definition") (named_children n)).

Definition annotation_string (annotations : gmap string (option string)) (key : string)
    : result (option string) :=
  match annotations !! key with
  | None => Ok None
  | Some value => let? v := or_invalid (NoAnnotationValue key) value in Ok (Some v)
  end.

Definition annotation_bool (annotations : gmap string (option string)) (key : string) : result bool :=
  match annotations !! key with
  | None => Ok false
  | Some None => Ok true
  | Some (Some value) =>
      if value =s "true" then Ok true
      else if value =s "false" then Ok false
      else invalid (NotABool key value)
  end.

(** ** Types *)

Definition primitive (raw : string) : result Ty :=
  if raw =s "bool" then Ok Bool
  else if (raw =s "byte") || (raw =s "i8") then Ok I8
  else if raw =s "i16" then Ok I16
  else if raw =s "i32" then Ok I32
  else if raw =s "i64" then Ok I64
  else if raw =s "float" then Ok F32
  else if raw =s "double" then Ok F64
  else if raw =s "string" then Ok String_
  else if raw =s "binary" then Ok Binary
  else invalid (BadPrimitive raw).

Definition type_of_identifier (name : string) : Ty :=
  if name =s "u8" then U8
  else if name =s "u16" then U16
  else if name =s "u32" then U32
  else if name =s "u64" then U64
  else Named name.

(** The results for the children are looked at only where the code parses the
    child. *)
Fixpoint parse_type (n : node) : result Ty :=
  let children := List.filter (fun c => n_named c.1) (map (fun c => (c, parse_type c)) (n_children n)) in
  if kind_in ["type"; "definition_type"; "container_type"] n then
    let raw := trim (n_text n) in
    if raw =s "void" then Ok Void
    else
      let? c := or_invalid (UnknownTypeNode raw)
        (List.find (fun c => kind_in ["primitive"; "identifier"; "container_type"; "list"; "set"; "map"] c.1)
           children) in
      c.2
  else if is_kind "primitive" n then primitive (trim (n_text n))
  else if is_kind "identifier" n then Ok (type_of_identifier (n_text n))
  else if kind_in ["list"; "set"] n then
    let? c := or_invalid (NoElementType (n_kind n)) (List.find (fun c => is_kind "type" c.1) children) in
    let? value := c.2 in
    Ok (if is_kind "list" n then List value else Set_ value)
  else if is_kind "map" n then
    let? types := collect_results snd (List.filter (fun c => is_kind "type" c.1) children) in
    match types with
    | [key; value] => Ok (Map key value)
    | _ => invalid MapArity
    end
  else invalid (UnexpectedTypeNode (n_kind n)).

(** ** Fields *)

Definition parse_field (description : string) (n : node) : result Field :=
  let children := named_children n in
  let? id_node := or_invalid (NoFieldId description) (List.find (is_kind "field_id") children) in
  let id_text := trim (trim_end_colons (trim (n_text id_node))) in
  let? id := or_invalid (BadFieldId id_text) (from_str_radix 10 id_text) in
  if (id <=? 0)%Z then invalid NonPositiveId
  else
    let optional := match List.find (is_kind "field_modifier") children with
                    | Some m => n_text m =s "optional"
                    | None => false
                    end in
    let? type_node := or_invalid (NoType description) (List.find (is_kind "type") children) in
    let? name_node := or_invalid (NoName description) (List.find (is_kind "identifier") children) in
    let name := n_text name_node in
    if existsb (is_kind "literal") children then invalid (DefaultValue description name)
    else
      let? type := parse_type type_node in
      Ok (mkField id name type optional).

(** ** Definitions *)

Definition parse_typedef (n : node) : result Typedef :=
  let children := named_children n in
  let? target := or_invalid (Missing "typedef target") (List.find (is_kind "definition_type") children) in
  let? name := or_invalid (Missing "typedef name")
                 (List.find (is_kind "typedef_identifier") (reverse children)) in
  let? type := parse_type target in
  Ok (mkTypedef (n_text name) type).

Definition parse_alternative (union : string) (n : node) : result Field :=
  if existsb (is_kind "field_modifier") (named_children n) then invalid (ModifiedAlternative union)
  else parse_field "union alternative" n.

Definition parse_union (n : node) : result Union :=
  let? name := or_invalid (Missing "union name") (child_by_field_name "type" n) in
  let? alternatives := collect_results (parse_alternative (n_text name))
                         (List.filter (is_kind "field") (named_children n)) in
  let? annotations := parse_annotations n in
  let? expected := annotation_bool annotations "coro_rpc.expected" in
  Ok (mkUnion (n_text name) alternatives expected).

Definition parse_struct (n : node) : result Struct :=
  let? name := or_invalid (Missing "struct name") (child_by_field_name "type" n) in
  let? fields := collect_results (parse_field "struct field")
                   (List.filter (is_kind "field") (named_children n)) in
  let? annotations := parse_annotations n in
  let? u64_pair := annotation_bool annotations "coro_rpc.cpp_u64_pair" in
  Ok (mkStruct (n_text name) fields u64_pair).

(** *** Enums *)

(** The sign, the radix and the digits of a number without its underscores. *)
Definition number_parts (raw : string) : bool * N * string :=
  let compact := filter (fun c => c ≠ 95) (text raw) in
  let '(negative, unsigned) := match compact with
                               | 45 :: l => (true, of_text l)
                               | 43 :: l => (false, of_text l)
                               | l => (false, of_text l)
                               end in
  let prefixed a b := match strip_prefix a unsigned with
                      | Some x => Some x
                      | None => strip_prefix b unsigned
                      end in
  match prefixed "0x" "0X", prefixed "0b" "0B" with
  | Some digits, _ => (negative, 16, digits)
  | None, Some digits => (negative, 2, digits)
  | None, None => (negative, 10, unsigned)
  end.

(** The negation of the least [i64] overflows. *)
Definition neg_i64 (z : Z) : result Z := if in_i64 (- z) then Ok (- z)%Z else Panic.

Definition parse_enum_value (raw enum_name : string) : result Z :=
  let '(negative, radix, digits) := number_parts raw in
  let? magnitude := or_invalid (BadInteger enum_name raw) (from_str_radix radix digits) in
  let? value := if negative then neg_i64 magnitude else Ok magnitude in
  if in_i32 value then Ok value else invalid (ValueOutsideI32 enum_name raw).

(** [raw_variants.last_mut()] *)
Definition set_last_value (value : Z) (l : list (string * option Z)) : option (list (string * option Z)) :=
  match reverse l with
  | (name, _) :: l' => Some (reverse ((name, Some value) :: l'))
  | [] => None
  end.

Definition raw_variant (name : string) (start : N) (acc : list (string * option Z)) (n : node)
    : result (list (string * option Z)) :=
  if is_kind "identifier" n && negb (n_start_byte n =? start) then Ok (acc ++ [(n_text n, None)])
  else if is_kind "number" n then
    match acc with
    | [] => invalid (ValueWithoutVariant name)
    | _ => let? value := parse_enum_value (n_text n) name in expect (set_last_value value acc)
    end
  else Ok acc.

(** The values of the variants: a variant without one follows its predecessor. *)
Definition variant_value (name : string) (previous : option Z) (v : string * option Z) : result Z :=
  match v.2, previous with
  | Some value, _ => Ok value
  | None, None => Ok 0%Z
  | None, Some value =>
      if in_i32 (value + 1) then Ok (value + 1)%Z else invalid (ImplicitValueOverflow name v.1)
  end.

Fixpoint number_variants (name : string) (previous : option Z) (l : list (string * option Z))
    : result (list EnumVariant) :=
  match l with
  | [] => Ok []
  | v :: l' =>
      let? value := variant_value name previous v in
      let? rest := number_variants name (Some value) l' in
      Ok (mkVariant v.1 value :: rest)
  end.

Definition parse_repr (r : option string) : result EnumRepr :=
  match r with
  | None => Ok ReprI32
  | Some r => if r =s "i32" then Ok ReprI32 else if r =s "u8" then Ok ReprU8 else invalid (BadRepr r)
  end.

Definition parse_enum (n : node) : result Enum :=
  let? name_node := or_invalid (Missing "enum name") (child_by_field_name "type" n) in
  let name := n_text name_node in
  let? raw := try_fold (raw_variant name (n_start_byte name_node)) [] (named_children n) in
  let? variants := number_variants name None raw in
  let? annotations := parse_annotations n in
  let? r := annotation_string annotations "coro_rpc.repr" in
  let? repr := parse_repr r in
  Ok (mkEnum name variants repr).

(** *** Services *)

Definition parse_function (n : node) : result Function :=
  let children := named_children n in
  match List.find (is_kind "function_modifier") children with
  | Some modifier => invalid (FunctionModifier (n_text modifier))
  | None =>
      if existsb (is_kind "throws") children then invalid Throws
      else
        let? returns := match List.find (is_kind "type") children with
                        | Some t => parse_type t
                        | None => invalid (Missing "return type")
                        end in
        let? name := or_invalid (Missing "function name") (List.find (is_kind "identifier") children) in
        let? parameters := match List.find (is_kind "parameters") children with
                           | Some ps => collect_results (parse_field "parameter")
                                          (List.filter (is_kind "parameter") (named_children ps))
                           | None => Ok []
                           end in
        let? annotations := parse_annotations n in
        let? wire_name := annotation_string annotations "coro_rpc.name" in
        let? attachment := annotation_bool annotations "coro_rpc.attachment" in
        Ok (mkFunction (n_text name) wire_name attachment returns parameters)
  end.

Definition parse_service (n : node) : result Service :=
  match children_by_field_name "type" n with
  | [] => invalid (Missing "service name")
  | [name] =>
      let? annotations := parse_annotations n in
      let? namespace := annotation_string annotations "coro_rpc.namespace" in
      let? functions := collect_results parse_function
                          (List.filter (is_kind "function_definition") (named_children n)) in
      match functions with
      | [] => invalid (NoFunctions (n_text name))
      | _ => Ok (mkService (n_text name) namespace functions)
      end
  | _ => invalid Inheritance
  end.

(** ** The document *)

Definition parse_namespace (n : node) : result (string * string) :=
  let children := named_children n in
  let? scope := or_invalid (Missing "namespace scope") (List.find (is_kind "namespace_scope") children) in
  let? name :=
    match List.find (is_kind "string") children with
    | Some s => parse_string_or_raw (n_text s)
    | None =>
        match map n_text (List.filter (kind_in ["namespace"; "identifier"]) children) with
        | [] => invalid (Missing "namespace name")
        | components => Ok (join_dots components)
        end
    end in
  Ok (n_text scope, name).

Definition empty_document : Document := mkDocument [] None [] [] [] [] [].

Definition with_namespace (scope name : string) (d : Document) : Document :=
  let '(mkDocument rust cpp ts es us ss svs) := d in
  if (scope =s "rs") || (scope =s "rust") then mkDocument (dotted_parts name) cpp ts es us ss svs
  else if (scope =s "cpp") || (scope =s "cpp2") then mkDocument rust (Some (dots_to_colons name)) ts es us ss svs
  else if (scope =s "*") && (length rust =? 0)%nat then mkDocument (dotted_parts name) cpp ts es us ss svs
  else d.

(** One node of the top level. *)
Definition parse_item (d : Document) (n : node) : result Document :=
  let item := default n (only_named_child n) in
  let '(mkDocument rust cpp ts es us ss svs) := d in
  if is_kind "namespace_declaration" item then
    let? ns := parse_namespace item in Ok (with_namespace ns.1 ns.2 d)
  else if kind_in ["include_statement"; "package_declaration"] item then invalid (NotSupported (n_kind item))
  else if is_kind "typedef_definition" item then
    let? x := parse_typedef item in Ok (mkDocument rust cpp (ts ++ [x]) es us ss svs)
  else if is_kind "enum_definition" item then
    let? x := parse_enum item in Ok (mkDocument rust cpp ts (es ++ [x]) us ss svs)
  else if is_kind "union_definition" item then
    let? x := parse_union item in Ok (mkDocument rust cpp ts es (us ++ [x]) ss svs)
  else if is_kind "struct_definition" item then
    let? x := parse_struct item in Ok (mkDocument rust cpp ts es us (ss ++ [x]) svs)
  else if is_kind "service_definition" item then
    let? x := parse_service item in Ok (mkDocument rust cpp ts es us ss (svs ++ [x]))
  else if is_kind "const_definition" item then invalid NotUsed
  else if kind_in ["senum_definition"; "exception_definition"; "interaction_definition"] item
  then invalid (OutsideSubset (n_kind item))
  else invalid (UnexpectedTopLevel (n_kind item)).

(** [parse]: whether the grammar could be loaded, and the tree it yields. *)
Definition parse (grammar : bool) (tree : option Tree) : result Document :=
  if negb grammar then invalid NoGrammar
  else
    let? t := or_invalid NoSyntaxTree tree in
    let root := root_node t in
    if root_has_error t then
      let e := default root (first_error root) in
      let '(row, column) := n_start_position e in
      Err (ParseError (row + 1) (column + 1) (trim (n_text e)))
    else
      let? d := try_fold parse_item empty_document (named_children root) in
      match services d with
      | [] => invalid NoService
      | _ => Ok d
      end.
End Parse.
