(* ===== verification/ThriftProps.v ===== *)
(** * What the lowering of an interface definition establishes

    [parse] returns on every syntax tree.  What it returns is well formed, and
    it overflows on nothing but a number with two minus signs, which the grammar
    has no token for. *)
From S2P Require Import Prelude ThriftParse.
Import Thrift.

(** ** Well-formed documents *)

(** The names of the unsigned integers are not names of definitions. *)
Fixpoint type_formed (t : Ty) : Prop :=
  match t with
  | List v | Set_ v => type_formed v
  | Map k v => type_formed k ∧ type_formed v
  | Named name => name ∉ ["u8"; "u16"; "u32"; "u64"]
  | _ => True
  end.

Definition field_formed (f : Field) : Prop := (0 < f_id f <= I64_MAX)%Z ∧ type_formed (f_type f).
Definition function_formed (f : Function) : Prop :=
  type_formed (fn_returns f) ∧ Forall field_formed (fn_parameters f).
Definition enum_formed (e : Enum) : Prop := Forall (fun v => in_i32 (v_value v) = true) (e_variants e).

Record items_formed (d : Document) : Prop := {
  if_namespace : Forall (fun c => text c ≠ [] ∧ 46 ∉ text c) (rust_namespace d);
  if_typedefs : Forall (fun t => type_formed (td_target t)) (typedefs d);
  if_enums : Forall enum_formed (enums d);
  if_unions : Forall (fun u => Forall (fun f => field_formed f ∧ f_optional f = false) (u_alternatives u)) (unions d);
  if_structs : Forall (fun s => Forall field_formed (s_fields s)) (structs d);
  if_services : Forall (fun s => sv_functions s ≠ [] ∧ Forall function_formed (sv_functions s)) (services d)
}.

(** A node of a tree, and a number that is negated twice. *)
Inductive within (n : node) : node → Prop :=
| within_refl : within n n
| within_child c m : c ∈ n_children m → within n c → within n m.

Definition minus_signs (raw : string) : nat := length (filter (fun c => c = 45) (text raw)).

(** ** Loops *)

Lemma bind_Panic {E A B} (f : A → res E B) m : res_bind f m = Panic → m = Panic ∨ ∃ x, m = Ok x ∧ f x = Panic.
Proof. destruct m; simpl; naive_solver. Qed.

Lemma fold_Panic {E S X} (f : S → X → res E S) l : ∀ s, try_fold f s l = Panic → ∃ s' x, x ∈ l ∧ f s' x = Panic.
Proof.
  induction l as [|x l IH]; intros s; simpl; [done|]. intros [Hx|(s1 & _ & Hx)]%bind_Panic; [set_solver|].
  apply IH in Hx as (s' & y & Hy & Hp). set_solver.
Qed.

Lemma total_invalid {A} c : invalid (A := A) c ≠ Panic.
Proof. done. Qed.
Lemma total_or_invalid {A} c (o : option A) : or_invalid c o ≠ Panic.
Proof. by destruct o. Qed.
#[export] Hint Resolve total_invalid total_or_invalid : total.

Lemma or_invalid_Ok {A} c (o : option A) x : or_invalid c o = Ok x ↔ o = Some x.
Proof. destruct o; simpl; naive_solver. Qed.

Lemma find_elem {A} (f : A → bool) l x : List.find f l = Some x → x ∈ l.
Proof. intros [Hx _]%List.find_some. by apply list_elem_of_In. Qed.
Lemma filter_elem {A} (f : A → bool) l x : x ∈ List.filter f l ↔ x ∈ l ∧ f x = true.
Proof. by rewrite !list_elem_of_In, List.filter_In. Qed.

Lemma collect_formed {E X Y} (f : X → res E Y) (P : Y → Prop) l ys :
  (∀ x y, f x = Ok y → P y) → collect_results f l = Ok ys → Forall P ys.
Proof. intros Hf Hl%collect_results_Ok. induction Hl; constructor; eauto. Qed.

(** ** Numbers *)

Lemma from_str_radix_range radix s z : from_str_radix radix s = Some z → in_i64 z = true.
Proof.
  unfold from_str_radix. intros Hz.
  assert (∀ o, o ≫= checked_i64 = Some z → in_i64 z = true) as Hc.
  { intros [y|]; [|done]. simpl. unfold checked_i64. destruct (in_i64 y) eqn:Hy; [|done]. by intros [= <-]. }
  repeat case_match; try done; try (by eapply Hc). destruct (digits_value _ _ _) as [y|]; [|done]. by apply (Hc (Some (- y)%Z)).
Qed.

Lemma digits_value_pos radix l : ∀ acc z, (0 <= acc)%Z → digits_value radix l acc = Some z → (0 <= z)%Z.
Proof.
  induction l as [|c l IH]; intros acc z Ha; simpl; [intros [= <-]; done|].
  destruct (digit_of radix c) as [x|]; simpl; [|done]. apply IH. lia.
Qed.

Lemma from_str_radix_sign radix s z : from_str_radix radix s = Some z → (z < 0)%Z → 45 ∈ text s.
Proof.
  unfold from_str_radix. intros Hz Hneg.
  assert (∀ l, digits_value radix l 0 ≫= checked_i64 = Some z → 45 ∈ text s) as Hc.
  { intros l. destruct (digits_value radix l 0) as [y|] eqn:Hy; [|done]. apply digits_value_pos in Hy; [|lia].
    simpl. unfold checked_i64. destruct (in_i64 y); [|done]. intros [= ->]. lia. }
  destruct (text s) as [|c l]; [done|]. destruct (decide (c = 45)) as [->|Hne]; [by left|].
  repeat case_match; try done; by eapply Hc.
Qed.

Lemma strip_codes_Some p : ∀ l l', strip_codes p l = Some l' → l = p ++ l'.
Proof.
  induction p as [|x p IH]; intros [|y l] l'; simpl; try done; [by intros [= <-]..|].
  destruct (N.eqb_spec x y) as [->|]; [|done]. by intros ->%IH.
Qed.

Lemma strip_prefix_codes p s x : strip_prefix p s = Some x → text s = text p ++ text x.
Proof.
  unfold strip_prefix. destruct (strip_codes (text p) (text s)) as [l|] eqn:Hl; [|done]. intros [= <-].
  apply strip_codes_Some in Hl. pose proof (text_codes s) as Hc. rewrite Hl in Hc. apply Forall_app in Hc as [_ Hc].
  by rewrite text_of_text.
Qed.

Lemma number_parts_minus raw radix digits :
  number_parts raw = (true, radix, digits) → 45 ∈ text digits → (2 <= minus_signs raw)%nat.
Proof.
  unfold number_parts, minus_signs.
  assert (Nat.le (length (filter (λ c, c = 45) (filter (λ c, c ≠ 95) (text raw)))) (length (filter (λ c, c = 45) (text raw)))) as Hle.
  { rewrite list_filter_filter. induction (text raw) as [|c l IH]; [done|]. rewrite !filter_cons.
    destruct (decide (c = 45 ∧ c ≠ 95)), (decide (c = 45)); simpl; lia. }
  assert (Forall (λ c, c < 256) (filter (λ c, c ≠ 95) (text raw))) as Hc.
  { apply Forall_forall. intros c [_ Hc]%list_elem_of_filter. revert c Hc. apply Forall_forall, text_codes. }
  revert Hle Hc. generalize (filter (λ c, c ≠ 95) (text raw)). intros compact Hle Hc Hp Hin.
  destruct compact as [|c l]; [done|]. destruct (decide (c = 45)) as [->|Hne].
  2:{ exfalso. destruct c as [|c]; [by repeat case_match; simplify_eq|]. revert Hp. repeat case_match; naive_solver. }
  apply Forall_cons in Hc as [_ Hc].
  assert (∃ pre, l = pre ++ text digits) as [pre Hl].
  { pose proof (text_of_text l Hc) as Ht. rewrite <- Ht.
    revert Hp. repeat case_match; intros [= <- <-]; simplify_eq; try (by exists []);
      match goal with H : strip_prefix ?p _ = Some _ |- _ => apply strip_prefix_codes in H; by exists (text p) end. }
  etrans; [|exact Hle]. rewrite filter_cons_True by done. simpl. apply le_n_S. rewrite Hl, filter_app, length_app.
  assert (45 ∈ filter (λ c, c = 45) (text digits)) as Hf by (by apply list_elem_of_filter).
  destruct (filter (λ c, c = 45) (text digits)); [by apply elem_of_nil in Hf|]. simpl. lia.
Qed.

Lemma parse_enum_value_Panic raw name : parse_enum_value raw name = Panic → (2 <= minus_signs raw)%nat.
Proof.
  unfold parse_enum_value. destruct (number_parts raw) as [[negative radix] digits] eqn:Hn.
  intros [Hp|(m & Hm%or_invalid_Ok & Hp)]%bind_Panic; [by apply total_or_invalid in Hp|].
  apply bind_Panic in Hp as [Hp|(v & _ & Hp)]; [|by destruct (in_i32 v)].
  destruct negative; [|done]. eapply number_parts_minus; [exact Hn|]. apply (from_str_radix_sign _ _ _ Hm).
  apply from_str_radix_range in Hm. unfold neg_i64 in Hp. destruct (in_i64 (- m)) eqn:Hi; [done|].
  unfold in_i64 in *. lia.
Qed.

Lemma parse_enum_value_range raw name z : parse_enum_value raw name = Ok z → in_i32 z = true.
Proof.
  unfold parse_enum_value. destruct (number_parts raw) as [[negative radix] digits]. intros Hp. inv_ok Hp.
  destruct (in_i32 y0) eqn:Hi; [|done]. by injection Hp as <-.
Qed.

(** ** Types and fields *)

Lemma node_children_ind (P : node → Prop) : (∀ n, Forall P (n_children n) → P n) → ∀ n, P n.
Proof.
  intros Hn. fix IH 1. intros [kind named field error missing byte position txt cs]. apply Hn. simpl.
  induction cs as [|c cs IHcs]; constructor; [apply IH|done].
Qed.

(** The children with their types, as [parse_type] sees them. *)
Definition typed_children (n : node) : list (node * res CodegenError Ty) :=
  List.filter (fun c => n_named c.1) (map (fun c => (c, parse_type c)) (n_children n)).

Lemma typed_child n (P : node → Prop) c : Forall P (n_children n) → c ∈ typed_children n → c.2 = parse_type c.1 ∧ P c.1.
Proof.
  intros HP [Hc _]%filter_elem. apply list_elem_of_fmap in Hc as (x & -> & Hx). split; [done|].
  by apply (proj1 (Forall_forall _ _) HP).
Qed.

Definition type_parsed (n : node) : Prop := parse_type n ≠ Panic ∧ ∀ t, parse_type n = Ok t → type_formed t.

Lemma primitive_formed raw : primitive raw ≠ Panic ∧ ∀ t, primitive raw = Ok t → type_formed t.
Proof. unfold primitive. repeat case_match; split; try done; by intros t [= <-]. Qed.

Lemma identifier_formed name : type_formed (type_of_identifier name).
Proof.
  unfold type_of_identifier. repeat case_match; try done. simpl.
  repeat match goal with H : (_ =s _) = false |- _ => apply String.eqb_neq in H end. set_solver.
Qed.

Lemma type_is_parsed n : type_parsed n.
Proof.
  induction n as [n IH] using node_children_ind. unfold type_parsed.
  assert (∀ c, c ∈ typed_children n → c.2 ≠ Panic ∧ ∀ t, c.2 = Ok t → type_formed t) as Hch.
  { intros c Hc. destruct (typed_child n _ c IH Hc) as [-> Hp]. apply Hp. }
  assert (parse_type n =
    (if kind_in ["type"; "definition_type"; "container_type"] n then
      if trim (n_text n) =s "void" then Ok Void
      else let? c := or_invalid (UnknownTypeNode (trim (n_text n)))
             (List.find (fun c => kind_in ["primitive"; "identifier"; "container_type"; "list"; "set"; "map"] c.1)
               (typed_children n)) in c.2
    else if is_kind "primitive" n then primitive (trim (n_text n))
    else if is_kind "identifier" n then Ok (type_of_identifier (n_text n))
    else if kind_in ["list"; "set"] n then
      let? c := or_invalid (NoElementType (n_kind n)) (List.find (fun c => is_kind "type" c.1) (typed_children n)) in
      let? value := c.2 in
      Ok (if is_kind "list" n then List value else Set_ value)
    else if is_kind "map" n then
      let? types := collect_results snd (List.filter (fun c => is_kind "type" c.1) (typed_children n)) in
      match types with [key; value] => Ok (Map key value) | _ => invalid MapArity end
    else invalid (UnexpectedTypeNode (n_kind n)))) as -> by (by destruct n).
  repeat match goal with |- context [if ?b then _ else _] => destruct b end;
    try (by split; [done|intros t [= <-]]); try apply primitive_formed.
  - destruct (List.find _ _) as [c|] eqn:Hc; simpl; [|done]. by apply Hch, (find_elem _ _ _ Hc).
  - split; [done|]. intros t [= <-]. apply identifier_formed.
  - destruct (List.find _ _) as [c|] eqn:Hc; simpl; [|done]. apply find_elem, Hch in Hc as [Hp Hf].
    destruct c.2 as [v| |]; simpl; try done. split; [done|]. intros t [= <-]. exact (Hf v eq_refl).
  - destruct (List.find _ _) as [c|] eqn:Hc; simpl; [|done]. apply find_elem, Hch in Hc as [Hp Hf].
    destruct c.2 as [v| |]; simpl; try done. split; [done|]. intros t [= <-]. exact (Hf v eq_refl).
  - set (cs := List.filter _ _). assert (∀ c, c ∈ cs → c ∈ typed_children n) as Hsub by (intros c [Hc _]%filter_elem; done).
    clearbody cs. destruct (collect_results snd cs) as [ts| |] eqn:Hts; simpl; [|done|].
    + apply collect_results_Ok in Hts. destruct ts as [|k [|v [|]]]; try done. split; [done|]. intros t [= <-].
      assert (∀ x, x ∈ [k; v] → type_formed x) as Hx.
      { intros x Hx. destruct (Forall2_elem_r _ _ _ _ Hts Hx) as (c & Hc & He). by apply (Hch c (Hsub c Hc)). }
      split; apply Hx; set_solver.
    + exfalso. revert Hts. apply collect_total, Forall_forall. intros c Hc. by apply Hch, Hsub.
Qed.

Lemma parse_type_total n : parse_type n ≠ Panic.
Proof. apply type_is_parsed. Qed.
#[export] Hint Resolve parse_type_total : total.

Lemma parse_field_total description n : parse_field description n ≠ Panic.
Proof. unfold parse_field. total. Qed.
#[export] Hint Resolve parse_field_total : total.

Lemma parse_field_Ok description n f : parse_field description n = Ok f →
  field_formed f ∧ (existsb (is_kind "field_modifier") (named_children n) = false → f_optional f = false).
Proof.
  unfold parse_field. intros Hf. apply res_bind_Ok in Hf as (id_node & _ & Hf).
  apply res_bind_Ok in Hf as (id & Hid%or_invalid_Ok%from_str_radix_range & Hf). destruct (Z.leb_spec id 0); [done|].
  inv_ok Hf. destruct (existsb (is_kind "literal") _); [done|]. inv_ok Hf. split.
  - split; simpl; [unfold in_i64 in Hid; lia|by eapply type_is_parsed].
  - intros Hm. simpl. destruct (List.find (is_kind "field_modifier") _) as [m|] eqn:Hx; [|done]. apply List.find_some in Hx as [Hin Hk].
    exfalso. rewrite <- not_true_iff_false in Hm. apply Hm, List.existsb_exists. by exists m.
Qed.

(** ** Definitions *)

Section Definitions.
Context (from_json : string → option string).

Lemma annotation_entries_total n : ∀ children acc, (length children <= n)%nat → annotation_entries from_json children acc ≠ Panic.
Proof.
  induction n as [|n IH]; intros [|c children] acc Hn; simpl in *; try done; [lia|].
  destruct (is_kind _ c); [|apply IH; lia]. destruct children as [|v rest]; [done|].
  destruct (is_kind _ v); [|apply IH; lia]. apply total_bind; [|intros x; apply IH; simpl in Hn; lia].
  unfold parse_string_or_raw. repeat case_match; try done; apply total_or_invalid.
Qed.

Lemma parse_annotations_total n : parse_annotations from_json n ≠ Panic.
Proof. apply total_fold. intros acc a. by eapply annotation_entries_total. Qed.
Lemma annotation_string_total annotations key : annotation_string annotations key ≠ Panic.
Proof. unfold annotation_string. total. Qed.
Lemma annotation_bool_total annotations key : annotation_bool annotations key ≠ Panic.
Proof. unfold annotation_bool. total. Qed.
Hint Resolve parse_annotations_total annotation_string_total annotation_bool_total : total.

Lemma fields_total description l : collect_results (parse_field description) l ≠ Panic.
Proof. apply collect_total, Forall_true. intros n. apply parse_field_total. Qed.
Hint Resolve fields_total : total.

Lemma parse_function_total n : parse_function from_json n ≠ Panic.
Proof. unfold parse_function. total. Qed.

Lemma parse_definitions_total n :
  parse_typedef n ≠ Panic ∧ parse_union from_json n ≠ Panic ∧ parse_struct from_json n ≠ Panic ∧
  parse_service from_json n ≠ Panic ∧ parse_namespace from_json n ≠ Panic.
Proof.
  split_and!; unfold parse_typedef, parse_union, parse_struct, parse_service, parse_namespace; total.
  - apply collect_total, Forall_true. intros a. unfold parse_alternative. total.
  - apply collect_total, Forall_true. apply parse_function_total.
  - unfold parse_string_or_raw. repeat case_match; try done; apply total_or_invalid.
Qed.

(** *** Enums *)

Lemma set_last_value_some value l : l ≠ [] → ∃ l', set_last_value value l = Some l'.
Proof.
  intros Hl. unfold set_last_value. destruct (reverse l) as [|[m o] k] eqn:Hr; [|by eexists].
  apply (f_equal reverse) in Hr. by rewrite reverse_involutive in Hr.
Qed.

Lemma raw_variant_Panic name start acc n :
  raw_variant name start acc n = Panic → n_kind n = "number" ∧ (2 <= minus_signs (n_text n))%nat.
Proof.
  unfold raw_variant. destruct (_ && _); [done|]. destruct (is_kind "number" n) eqn:Hk; [|done].
  apply String.eqb_eq in Hk. destruct acc as [|v acc]; [done|]. intros Hp. split; [done|].
  apply bind_Panic in Hp as [Hp|(z & _ & Hp)]; [by eapply parse_enum_value_Panic|].
  by destruct (set_last_value_some z (v :: acc)) as [l Hl]; [|rewrite Hl in Hp].
Qed.

Lemma number_variants_total name l : ∀ previous, number_variants name previous l ≠ Panic.
Proof.
  induction l as [|v l IH]; intros previous; simpl; [done|]. apply total_bind; [|intros z; apply total_bind; [apply IH|done]].
  unfold variant_value. repeat case_match; done.
Qed.

Lemma parse_enum_Panic n : parse_enum from_json n = Panic →
  ∃ x, x ∈ n_children n ∧ n_kind x = "number" ∧ (2 <= minus_signs (n_text x))%nat.
Proof.
  unfold parse_enum. intros [Hp|(name & _ & Hp)]%bind_Panic; [by apply total_or_invalid in Hp|].
  apply bind_Panic in Hp as [Hp|(raw & _ & Hp)].
  - apply fold_Panic in Hp as (acc & x & [Hx _]%filter_elem & Hp). exists x. split; [done|]. by eapply raw_variant_Panic.
  - exfalso. revert Hp. apply total_bind; [apply number_variants_total|]. intros vs. unfold parse_repr. total.
Qed.

Lemma raw_variants_range name start l : ∀ acc acc', try_fold (raw_variant name start) acc l = Ok acc' →
  Forall (fun v => ∀ z, v.2 = Some z → in_i32 z = true) acc → Forall (fun v => ∀ z, v.2 = Some z → in_i32 z = true) acc'.
Proof.
  intros acc acc' Hf Hacc. revert Hf. apply (try_fold_inv _ (fun a _ => Forall (fun v => ∀ z, v.2 = Some z → in_i32 z = true) a)); [|done].
  clear. intros acc _ n acc' Hacc Hn. unfold raw_variant in Hn. destruct (_ && _).
  { injection Hn as <-. apply Forall_app. split; [done|]. by constructor. }
  destruct (is_kind "number" n); [|by injection Hn as <-]. destruct acc as [|v acc]; [done|].
  apply res_bind_Ok in Hn as (z & Hz%parse_enum_value_range & Hn). unfold set_last_value in Hn.
  apply Forall_reverse in Hacc. destruct (reverse (v :: acc)) as [|[m o] k]; [done|]. injection Hn as <-.
  apply Forall_reverse, Forall_cons. apply Forall_cons in Hacc as [_ Hk]. split; [|done]. by intros ? [= <-].
Qed.

Lemma number_variants_range name l : ∀ previous vs, number_variants name previous l = Ok vs →
  Forall (fun v => ∀ z, v.2 = Some z → in_i32 z = true) l → Forall (fun v => in_i32 (v_value v) = true) vs.
Proof.
  induction l as [|v l IH]; intros previous vs Hv Hl; simpl in Hv; [injection Hv as <-; constructor|]. inv_ok Hv.
  apply Forall_cons in Hl as [Hz Hl]. constructor; [|by eapply IH]. simpl. unfold variant_value in Hy.
  destruct (v.2) as [z|]; [injection Hy as <-; by apply Hz|]. destruct previous as [z|]; [|by injection Hy as <-].
  destruct (in_i32 (z + 1)) eqn:Hr; [|done]. by injection Hy as <-.
Qed.

Lemma parse_enum_formed n e : parse_enum from_json n = Ok e → enum_formed e.
Proof.
  unfold parse_enum. intros He. inv_ok He. apply raw_variants_range in Hy0; [|constructor].
  by eapply number_variants_range.
Qed.

(** *** The others *)

Lemma parse_typedef_formed n t : parse_typedef n = Ok t → type_formed (td_target t).
Proof. unfold parse_typedef. intros Ht. inv_ok Ht. by eapply (proj2 (type_is_parsed _)). Qed.

Lemma parse_union_formed n u : parse_union from_json n = Ok u →
  Forall (fun f => field_formed f ∧ f_optional f = false) (u_alternatives u).
Proof.
  unfold parse_union. intros Hu. inv_ok Hu. simpl. eapply collect_formed; [|exact Hy0]. intros x f Hf.
  unfold parse_alternative in Hf. destruct (existsb _ _) eqn:Hm; [done|]. apply parse_field_Ok in Hf as [Hf Ho]. auto.
Qed.

Lemma parse_struct_formed n s : parse_struct from_json n = Ok s → Forall field_formed (s_fields s).
Proof.
  unfold parse_struct. intros Hs. inv_ok Hs. simpl. eapply collect_formed; [|exact Hy0].
  intros x f Hf. by apply parse_field_Ok in Hf as [Hf _].
Qed.

Lemma parse_function_formed n f : parse_function from_json n = Ok f → function_formed f.
Proof.
  unfold parse_function. destruct (List.find (is_kind "function_modifier") _); [done|]. destruct (existsb _ _); [done|].
  intros Hf. inv_ok Hf. split; simpl.
  - destruct (List.find (is_kind "type") _); [|done]. by eapply (proj2 (type_is_parsed _)).
  - destruct (List.find (is_kind "parameters") _); [|injection Hy1 as <-; constructor].
    eapply collect_formed; [|exact Hy1]. intros x p Hp. by apply parse_field_Ok in Hp as [Hp _].
Qed.

Lemma parse_service_formed n s : parse_service from_json n = Ok s →
  sv_functions s ≠ [] ∧ Forall function_formed (sv_functions s).
Proof.
  unfold parse_service. destruct (children_by_field_name _ _) as [|name [|]]; [done| |done]. intros Hs. inv_ok Hs.
  pose proof (collect_formed _ _ _ _ parse_function_formed Hy1) as Hf. destruct y1; [done|]. injection Hs as <-. done.
Qed.

(** ** The document *)

Lemma split_codes_parts c l : Forall (fun p => c ∉ p ∧ (Forall (fun x => x < 256) l → Forall (fun x => x < 256) p)) (split_codes c l).
Proof.
  induction l as [|x l IH]; simpl; [constructor; [split; [set_solver|done]|constructor]|].
  destruct (N.eqb_spec x c) as [->|Hne].
  - constructor; [split; [set_solver|by constructor]|]. eapply Forall_impl; [exact IH|].
    intros p [Hp Hc]. split; [done|]. intros [_ Hl]%Forall_cons. auto.
  - destruct (split_codes c l) as [|p ps]; [constructor; [|constructor]; split; [set_solver|]; intros [? _]%Forall_cons; by constructor|].
    apply Forall_cons in IH as [[Hp Hc] Hps]. constructor.
    + split; [set_solver|]. intros [Hx Hl]%Forall_cons. constructor; auto.
    + eapply Forall_impl; [exact Hps|]. intros q [Hq Hcq]. split; [done|]. intros [_ Hl]%Forall_cons. auto.
Qed.

Lemma dotted_parts_formed name : Forall (fun c => text c ≠ [] ∧ 46 ∉ text c) (dotted_parts name).
Proof.
  unfold dotted_parts. apply Forall_fmap, Forall_forall. intros p [Hne Hp]%list_elem_of_filter.
  pose proof (proj1 (Forall_forall _ _) (split_codes_parts 46 (text name)) p Hp) as [Hd Hc]. simpl.
  by rewrite (text_of_text p (Hc (text_codes name))).
Qed.

Lemma parse_item_formed d n d' : items_formed d → parse_item from_json d n = Ok d' → items_formed d'.
Proof.
  intros [HN HT HE HU HS HV] Hp. destruct d as [rust cpp ts es us ss svs]. unfold parse_item in Hp. simpl in *.
  repeat match type of Hp with (if ?b then _ else _) = _ => destruct b end; try done.
  all: apply res_bind_Ok in Hp as (x & Hx & [= <-]).
  - unfold with_namespace. pose proof (dotted_parts_formed x.2). repeat case_match; by split.
  - split; simpl; try done. apply Forall_app. split; [done|]. constructor; [by eapply parse_typedef_formed|constructor].
  - split; simpl; try done. apply Forall_app. split; [done|]. constructor; [by eapply parse_enum_formed|constructor].
  - split; simpl; try done. apply Forall_app. split; [done|]. constructor; [by eapply parse_union_formed|constructor].
  - split; simpl; try done. apply Forall_app. split; [done|]. constructor; [by eapply parse_struct_formed|constructor].
  - split; simpl; try done. apply Forall_app. split; [done|]. constructor; [by eapply parse_service_formed|constructor].
Qed.

Lemma parse_formed grammar tree d : parse from_json grammar tree = Ok d → items_formed d ∧ services d ≠ [].
Proof.
  unfold parse. destruct (negb grammar); [done|]. intros Hp. apply res_bind_Ok in Hp as (t & _ & Hp).
  destruct (root_has_error t); [by destruct (n_start_position _)|]. apply res_bind_Ok in Hp as (d' & Hf & Hp).
  destruct (services d') as [|s svs] eqn:Hs; [done|]. injection Hp as <-. split; [|by rewrite Hs].
  revert Hf. apply (try_fold_inv _ (fun d _ => items_formed d)); [|by split].
  intros d1 _ x d2 Hd1 Hx. by eapply parse_item_formed.
Qed.

(** The definition of a node of the top level is one of its nodes. *)
Lemma item_within n x : within x (default n (only_named_child n)) → within x n.
Proof.
  unfold only_named_child. destruct (named_children n) as [|c [|]] eqn:Hc; simpl; try done.
  intros Hx. eapply within_child; [|exact Hx]. assert (c ∈ named_children n) as Hin by (rewrite Hc; by left).
  by apply filter_elem in Hin as [? _].
Qed.

Lemma parse_item_Panic d n : parse_item from_json d n = Panic →
  ∃ x, within x n ∧ n_kind x = "number" ∧ (2 <= minus_signs (n_text x))%nat.
Proof.
  intros Hp. destruct d as [rust cpp ts es us ss svs]. unfold parse_item in Hp.
  destruct (parse_definitions_total (default n (only_named_child n))) as (H1 & H2 & H3 & H4 & H5).
  repeat match type of Hp with (if ?b then _ else _) = _ => destruct b end; try done.
  all: apply bind_Panic in Hp as [Hp|(x & _ & Hp)]; [|done]; try done.
  apply parse_enum_Panic in Hp as (x & Hx & Hk). exists x. split; [|done]. apply item_within.
  eapply within_child; [exact Hx|constructor].
Qed.

(** C38: [parse] returns on every syntax tree, with an error or with a document
    that is well formed: there is a service, every service has methods, the
    parts of the namespace are not empty, the ids of fields and parameters are
    positive [i64]s, the values of enums, given or counted up, are [i32]s, no
    alternative is optional and no reference is to an unsigned integer.  Only a
    number with two minus signs makes it overflow. *)
Theorem documents_well_formed grammar tree :
  match parse from_json grammar tree with
  | Ok d => items_formed d ∧ services d ≠ []
  | Err _ => True
  | Panic => ∃ t x, tree = Some t ∧ within x (root_node t) ∧ n_kind x = "number" ∧ (2 <= minus_signs (n_text x))%nat
  end.
Proof.
  destruct (parse from_json grammar tree) as [d|e|] eqn:Hp; [by eapply parse_formed|done|].
  unfold parse in Hp. destruct (negb grammar); [done|]. apply bind_Panic in Hp as [Hp|(t & Ht%or_invalid_Ok & Hp)].
  { by apply total_or_invalid in Hp. }
  destruct (root_has_error t); [by destruct (n_start_position _)|].
  apply bind_Panic in Hp as [Hp|(d & _ & Hp)]; [|by destruct (services d)].
  apply fold_Panic in Hp as (d & n & [Hn _]%filter_elem & Hp). apply parse_item_Panic in Hp as (x & Hx & Hk).
  exists t, x. split_and!; [done|by eapply within_child|apply Hk..].
Qed.
End Definitions.
