(* ===== verification/Codegen.v ===== *)
(** * The code generator

    [coro-rpc-codegen/src/generate.rs]: the checks of a document, the type
    literals whose hashes go into the generated descriptors, and the Rust items
    that are generated.  The token streams of the source are trees of Rust types
    and items here.  Case conversion, the identifier parser and MD5 are other
    crates, and arguments. *)
From S2P Require Import Prelude Wire ThriftParse StructPack.
Import Thrift.

(** The operations of [heck], [syn] and [md5] that the generator uses:
    [parse_ident] is whether [syn::parse_str::<Ident>] accepts the text and
    [ident_new] whether [Ident::new], to which [format_ident!] expands, does. *)
Class Toolchain := {
  to_snake_case : string → string;
  to_upper_camel_case : string → string;
  to_shouty_snake_case : string → string;
  parse_ident : string → bool;
  ident_new : string → bool;
  md5_digest : bytes → bytes
}.

Local Abbreviation result := (res CodegenError).

(** ** Names *)

Section Names.
Context `{Toolchain}.

Definition rust_ident (description name : string) : result string :=
  if parse_ident name then Ok name
  else if parse_ident ("r#" +:+ name) then Ok ("r#" +:+ name)
  else invalid (NotAnIdentifier description name).

(** [format_ident!] drops the prefix of a raw identifier it is given. *)
Definition unraw (ident : string) : string := default ident (strip_prefix "r#" ident).
Definition format_ident (name : string) : result string := if ident_new name then Ok name else Panic.

Definition md5_hash32 (input : bytes) : N := StructPack.md5_hash32 md5_digest input.
Definition hash_type_literal (literal : bytes) : N := N.land (md5_hash32 literal) 4294967294.
End Names.

(** ** Documents *)

Record TypeSchemas := mkSchemas {
  sc_typedefs : gmap string Typedef;
  sc_structs : gmap string Struct;
  sc_unions : gmap string Union;
  sc_enums : gmap string Enum
}.

(** [collect] into a map: of equal keys the last stays. *)
Definition by_name {X} (name : X → string) (l : list X) : gmap string X :=
  foldl (fun m x => <[name x := x]> m) ∅ l.

Definition TypeSchemas_new (d : Document) : TypeSchemas :=
  mkSchemas (by_name td_name (typedefs d)) (by_name s_name (structs d)) (by_name u_name (unions d))
    (by_name e_name (enums d)).

(** The order of the ids, which are signed. *)
Definition id_key (f : Field) : list N := [Z.to_N (f_id f + 2 ^ 63)].
Definition ordered_fields (fields : list Field) : list Field := sort_by_key id_key fields.

Definition wire_name (d : Document) (s : Service) (f : Function) : string :=
  match fn_wire_name f with
  | Some name => name
  | None =>
      let namespace := trim_colons (default "" (match sv_namespace s with
                                                | Some n => Some n
                                                | None => cpp_namespace d
                                                end)) in
      if namespace =s "" then fn_name f else namespace +:+ "::" +:+ fn_name f
  end.

Definition expected_alternatives (u : Union) : result (option Field * Field) :=
  match ordered_fields (u_alternatives u) with
  | [error] => if (f_id error =? 1)%Z && (f_name error =s "error") then Ok (None, error)
               else invalid (NotExpected (u_name u))
  | [value; error] =>
      if (f_id value =? 1)%Z && (f_name value =s "value") && (f_id error =? 2)%Z && (f_name error =s "error")
      then Ok (Some value, error) else invalid (NotExpected (u_name u))
  | _ => invalid (NotExpected (u_name u))
  end.

(** ** Type literals *)

Definition TYPE_INT32 : N := 1.
Definition TYPE_UINT32 : N := 2.
Definition TYPE_INT64 : N := 3.
Definition TYPE_UINT64 : N := 4.
Definition TYPE_INT8 : N := 5.
Definition TYPE_UINT8 : N := 6.
Definition TYPE_INT16 : N := 7.
Definition TYPE_UINT16 : N := 8.
Definition TYPE_FLOAT32 : N := 17.
Definition TYPE_FLOAT64 : N := 18.
Definition TYPE_VARIANT : N := 134.

(** The elements of [fields], one after the other. *)
Definition concat_results {X} (f : X → result bytes) (l : list X) : result bytes :=
  res_map mjoin (collect_results f l).

Definition optional_prefix (optional : bool) : bytes := if optional then [TYPE_OPTIONAL] else [].

Section Literals.
Context (sc : TypeSchemas).

(** A field or an alternative, by the literal of its type. *)
Definition field_literal (lit : Ty → result bytes) (f : Field) : result bytes :=
  res_map (app (optional_prefix (f_optional f))) (lit (f_type f)).

(** The literal of the definition of [name], by the literal of the types it
    refers to. *)
Definition definition_literal (lit : Ty → result bytes) (name : string) : result bytes :=
  match sc_typedefs sc !! name with
  | Some t => lit (td_target t)
  | None =>
  match sc_structs sc !! name with
  | Some s =>
      let? fields := concat_results (field_literal lit) (ordered_fields (s_fields s)) in
      Ok ([TYPE_STRUCT] ++ fields ++ (if s_cpp_u64_pair s then [137; 137] else []) ++ [TYPE_END])
  | None =>
  match sc_unions sc !! name with
  | Some u =>
      if u_expected u then
        let? (value, error) := expected_alternatives u in
        let? v := match value with Some v => lit (f_type v) | None => Ok [TYPE_MONOSTATE] end in
        let? e := lit (f_type error) in
        Ok ([TYPE_EXPECTED] ++ v ++ e)
      else
        let? alternatives := concat_results (fun f => lit (f_type f)) (ordered_fields (u_alternatives u)) in
        Ok ([TYPE_VARIANT] ++ alternatives ++ [TYPE_END])
  | None => invalid (UnknownType name)
  end end end.

(** [stack] holds the names whose definitions are open, and [depth] bounds how
    many more can be opened; it is not part of the source, and running out of it
    is a panic here. *)
Fixpoint literal_at (depth : nat) : list string → Ty → result bytes :=
  fix go (stack : list string) (t : Ty) : result bytes :=
    match t with
    | Void => Ok [TYPE_MONOSTATE]
    | Bool => Ok [TYPE_BOOL]
    | I8 => Ok [TYPE_INT8]
    | U8 => Ok [TYPE_UINT8]
    | I16 => Ok [TYPE_INT16]
    | U16 => Ok [TYPE_UINT16]
    | I32 => Ok [TYPE_INT32]
    | U32 => Ok [TYPE_UINT32]
    | I64 => Ok [TYPE_INT64]
    | U64 => Ok [TYPE_UINT64]
    | F32 => Ok [TYPE_FLOAT32]
    | F64 => Ok [TYPE_FLOAT64]
    | String_ | Binary => Ok [TYPE_STRING; TYPE_CHAR8]
    | List v => let? l := go stack v in Ok (TYPE_CONTAINER :: l)
    | Set_ v => let? l := go stack v in Ok (TYPE_SET :: l)
    | Map k v => let? a := go stack k in let? b := go stack v in Ok (TYPE_MAP :: a ++ b)
    | Named name =>
        match sc_enums sc !! name with
        | Some e => Ok [match e_repr e with ReprI32 => TYPE_INT32 | ReprU8 => TYPE_UINT8 end]
        | None =>
            if existsb (String.eqb name) stack then invalid (RecursiveType name)
            else match depth with
                 | O => Panic
                 | S depth' => definition_literal (literal_at depth' (stack ++ [name])) name
                 end
        end
    end.

(** Every name that is opened is one of a definition, or the last. *)
Definition max_depth : nat := S (size (sc_typedefs sc) + size (sc_structs sc) + size (sc_unions sc)).

Definition type_literal (t : Ty) (optional : bool) (stack : list string) : result bytes :=
  res_map (app (optional_prefix optional)) (literal_at max_depth stack t).

Definition request_type_literal (fields : list Field) (stack : list string) : result bytes :=
  match ordered_fields fields with
  | [f] => type_literal (f_type f) (f_optional f) stack
  | fs =>
      let? l := concat_results (fun f => type_literal (f_type f) (f_optional f) stack) fs in
      Ok ([TYPE_STRUCT] ++ l ++ [TYPE_END])
  end.

(** *** Types that can be keys *)

Fixpoint ord_at (depth : nat) : list string → Ty → option bool :=
  fix go (stack : list string) (t : Ty) : option bool :=
    match t with
    | Bool | I8 | U8 | I16 | U16 | I32 | U32 | I64 | U64 | String_ | Binary => Some true
    | List v | Set_ v => go stack v
    | Map k v => match go stack k with Some true => go stack v | ordered => ordered end
    | Named name =>
        match sc_enums sc !! name with
        | Some _ => Some true
        | None =>
            if existsb (String.eqb name) stack then Some false
            else match sc_typedefs sc !! name with
                 | None => Some false
                 | Some d => match depth with
                             | O => None
                             | S depth' => ord_at depth' (stack ++ [name]) (td_target d)
                             end
                 end
        end
    | Void | F32 | F64 => Some false
    end.

Definition is_rust_ord (t : Ty) : result bool := expect (ord_at max_depth [] t).

Fixpoint validate_ordered_containers (t : Ty) : result unit :=
  match t with
  | List v => validate_ordered_containers v
  | Set_ v =>
      let? ordered := is_rust_ord v in
      if negb ordered then invalid UnorderedSet else validate_ordered_containers v
  | Map k v =>
      let? ordered := is_rust_ord k in
      if negb ordered then invalid UnorderedKey
      else let? _ := validate_ordered_containers k in validate_ordered_containers v
  | _ => Ok tt
  end.
End Literals.

(** ** Checks *)

Fixpoint ensure_non_void (t : Ty) (owner : string) : result unit :=
  match t with
  | Void => invalid (VoidInside owner)
  | List v | Set_ v => ensure_non_void v owner
  | Map k v => let? _ := ensure_non_void k owner in ensure_non_void v owner
  | _ => Ok tt
  end.

Fixpoint validate_type_references (t : Ty) (known : gset string) : result unit :=
  match t with
  | Named name => if decide (name ∈ known) then Ok tt else invalid (UnknownType name)
  | List v | Set_ v => validate_type_references v known
  | Map k v => let? _ := validate_type_references k known in validate_type_references v known
  | _ => Ok tt
  end.

Definition validate_cpp_u64_pair (s : Struct) : result unit :=
  match ordered_fields (s_fields s) with
  | [first; second] =>
      if (f_id first =? 1)%Z && (f_id second =? 2)%Z && negb (f_optional first) && negb (f_optional second) &&
         bool_decide (f_type first = U64) && bool_decide (f_type second = U64)
      then Ok tt else invalid (NotAU64Pair (s_name s))
  | _ => invalid (NotAU64Pair (s_name s))
  end.

(** [BTreeSet::insert] of a name that must be new. *)
Definition insert_new {K} `{Countable K} (e : Contract) (k : K) (s : gset K) : result (gset K) :=
  if decide (k ∈ s) then invalid e else Ok ({[k]} ∪ s).

Section Validate.
Context `{Toolchain}.

Definition register_rust_type (names : gset string) (name : string) : result (gset string) :=
  let camel := to_upper_camel_case name in
  let? _ := rust_ident "type" camel in
  insert_new (DuplicateType camel) camel names.

Definition validate_field (owner : string) (seen : gset Z * gset string) (f : Field)
    : result (gset Z * gset string) :=
  let? ids := insert_new (DuplicateFieldId owner (f_id f)) (f_id f) seen.1 in
  let name := to_snake_case (f_name f) in
  let? names := insert_new (DuplicateFieldName owner name) name seen.2 in
  let? _ := rust_ident "field" name in
  let? _ := ensure_non_void (f_type f) owner in
  Ok (ids, names).

Definition validate_fields (fields : list Field) (owner : string) : result unit :=
  res_map (fun _ => tt) (try_fold (validate_field owner) (∅, ∅) fields).

Definition in_u8 (z : Z) : bool := ((0 <=? z) && (z <=? 255))%Z.

Definition validate_variant (e : Enum) (seen : gset string * gmap Z string) (v : EnumVariant)
    : result (gset string * gmap Z string) :=
  if bool_decide (e_repr e = ReprU8) && negb (in_u8 (v_value v))
  then invalid (ValueOutsideRepr (e_name e) (v_value v))
  else
    let name := to_upper_camel_case (v_name v) in
    let? _ := rust_ident "enum variant" name in
    let? names := insert_new (DuplicateVariant (e_name e) name) name seen.1 in
    match seen.2 !! v_value v with
    | Some existing => invalid (DuplicateValue (e_name e) existing (v_name v) (v_value v))
    | None => Ok (names, <[v_value v := v_name v]> seen.2)
    end.

Definition validate_enum (e : Enum) : result unit :=
  match e_variants e with
  | [] => invalid (EmptyEnum (e_name e))
  | vs => res_map (fun _ => tt) (try_fold (validate_variant e) (∅, ∅) vs)
  end.

Definition validate_alternative (u : Union) (names : gset string) (x : nat * Field) : result (gset string) :=
  let expected_id := Z.of_nat (x.1 + 1) in
  if negb (f_id x.2 =? expected_id)%Z then invalid (IdsNotContiguous (u_name u) expected_id (f_id x.2))
  else
    let name := to_upper_camel_case (f_name x.2) in
    let? _ := rust_ident "union variant" name in
    insert_new (DuplicateVariant (u_name u) name) name names.

Definition validate_union (u : Union) : result unit :=
  match u_alternatives u with
  | [] => invalid (EmptyUnion (u_name u))
  | alternatives =>
      let? _ := validate_fields alternatives ("union " +:+ u_name u) in
      if u_expected u then res_map (fun _ => tt) (expected_alternatives u)
      else if (256 <=? length alternatives)%nat then invalid (TooManyAlternatives (u_name u))
      else res_map (fun _ => tt)
             (try_fold (validate_alternative u) ∅ (imap pair (ordered_fields alternatives)))
  end.

Definition validate_struct (s : Struct) : result unit :=
  match s_fields s with
  | [] => invalid (EmptyStruct (s_name s))
  | fields =>
      let? _ := validate_fields fields ("struct " +:+ s_name s) in
      if s_cpp_u64_pair s then validate_cpp_u64_pair s else Ok tt
  end.

(** The types, by their Rust names. *)
Definition register_types {X} (name : X → string) (check : X → result unit) (names : gset string) (l : list X)
    : result (gset string) :=
  try_fold (fun names x =>
    let? names' := register_rust_type names (name x) in let? _ := check x in Ok names') names l.

Definition validate_types (d : Document) : result (gset string) :=
  let? n1 := register_types td_name (fun t => ensure_non_void (td_target t) "typedef") ∅ (typedefs d) in
  let? n2 := register_types e_name validate_enum n1 (enums d) in
  let? n3 := register_types u_name validate_union n2 (unions d) in
  register_types s_name validate_struct n3 (structs d).

Definition known_types (d : Document) : gset string :=
  list_to_set (map td_name (typedefs d) ++ map e_name (enums d) ++ map u_name (unions d) ++ map s_name (structs d)).

Definition validate_reference (d : Document) (t : Ty) : result unit :=
  let? _ := validate_type_references t (known_types d) in
  validate_ordered_containers (TypeSchemas_new d) t.

Definition validate_references (d : Document) : result unit :=
  let? _ := each_ok (fun t => validate_reference d (td_target t)) (typedefs d) in
  let? _ := each_ok (fun s => each_ok (fun f => validate_reference d (f_type f)) (s_fields s)) (structs d) in
  each_ok (fun u => each_ok (fun f => validate_reference d (f_type f)) (u_alternatives u)) (unions d).

(** *** Services *)

Definition insert_item (items : gset string) (item : string) : result (gset string) :=
  let? _ := rust_ident "generated service item" item in
  insert_new (DuplicateItem item) item items.

Definition reserved_parameter (f : Field) : bool :=
  let name := to_snake_case (f_name f) in (name =s "rpc_attachment") || (name =s "rpc_context").

Definition validate_signature (d : Document) (s : Service) (f : Function) : result unit :=
  let? _ := validate_fields (fn_parameters f) ("method " +:+ sv_name s +:+ "::" +:+ fn_name f) in
  let? _ := validate_reference d (fn_returns f) in
  let? _ := each_ok (fun p => validate_reference d (f_type p)) (fn_parameters f) in
  if fn_attachment f && existsb reserved_parameter (fn_parameters f)
  then invalid (ReservedParameter (sv_name s) (fn_name f)) else Ok tt.

(** The wire names and routes of all services so far. *)
Record Wires := mkWires { wire_names : gset string; wire_routes : gmap N string }.

Definition add_wire (w : Wires) (name : string) : result Wires :=
  let? names := insert_new (DuplicateWireName name) name (wire_names w) in
  let route := md5_hash32 (text name) in
  match wire_routes w !! route with
  | Some existing => invalid (RouteCollision route existing name)
  | None => Ok (mkWires names (<[route := name]> (wire_routes w)))
  end.

Definition validate_function (d : Document) (s : Service) (seen : gset string * Wires) (f : Function)
    : result (gset string * Wires) :=
  let method := to_snake_case (fn_name f) in
  if existsb (String.eqb method) ["new"; "connect"; "inner"; "into_inner"]
  then invalid (ReservedMethod method)
  else
    let? methods := insert_new (DuplicateMethod (sv_name s) method) method seen.1 in
    let? _ := rust_ident "method" method in
    let? _ := validate_signature d s f in
    let? wires := add_wire seen.2 (wire_name d s f) in
    Ok (methods, wires).

Record Seen := mkSeen { generated_items : gset string; rust_services : gset string; wires : Wires }.

Definition validate_service (d : Document) (seen : Seen) (s : Service) : result Seen :=
  let service_name := to_upper_camel_case (sv_name s) in
  let? services := insert_new (DuplicateService service_name) service_name (rust_services seen) in
  let? items := try_fold insert_item (generated_items seen)
                  [service_name; service_name +:+ "Client"; service_name +:+ "Server"] in
  let? methods := try_fold (validate_function d s) (∅, wires seen) (sv_functions s) in
  Ok (mkSeen items services methods.2).

(** *** Literals *)

Definition validate_literals (d : Document) : result unit :=
  let sc := TypeSchemas_new d in
  let no_value := res_map (fun _ : bytes => tt) in
  let? _ := each_ok (fun t => no_value (type_literal sc (td_target t) false [td_name t])) (typedefs d) in
  let? _ := each_ok (fun s => each_ok (fun f => no_value (type_literal sc (f_type f) (f_optional f) [s_name s]))
                                (ordered_fields (s_fields s))) (structs d) in
  let? _ := each_ok (fun u => no_value (type_literal sc (Named (u_name u)) false [])) (unions d) in
  each_ok (fun s => each_ok (fun f =>
      let? _ := request_type_literal sc (fn_parameters f) [] in
      no_value (type_literal sc (fn_returns f) false [])) (sv_functions s)) (services d).

Definition validate (d : Document) : result unit :=
  let? rust_types := validate_types d in
  let? _ := validate_references d in
  let? _ := try_fold (validate_service d) (mkSeen rust_types ∅ (mkWires ∅ ∅)) (services d) in
  validate_literals d.
End Validate.

(** ** Generated Rust *)

Inductive RType :=
| RUnit | RBool
| RInt (signed : bool) (bytes : nat)
| RFloat (bytes : nat)
| RString | RByteString
| RVec (value : RType)
| RBTreeSet (value : RType)
| RBTreeMap (key value : RType)
| ROption (value : RType)
| RResult (value error : RType)
| RPath (name : string).

(** The type of a request: that of the only parameter, or a tuple. *)
Inductive RRequest := ROnly (t : RType) | RTuple (ts : list RType).

(** How a client method calls, with the argument it passes a reference of, and
    how the method is registered, with the pattern of its closure. *)
Inductive CallArguments := NoArguments | OneArgument (name : string) | TupleArgument (names : list string).

(** A descriptor, with the client method, the trait method and the registration
    that belong to it. *)
Record Stub := mkStub {
  sb_method : string;
  sb_descriptor : string;
  sb_wire_name : string;
  sb_route_id : N;
  sb_parameters : list (string * RType);
  sb_request : option (RRequest * N);
  sb_returns : RType;
  sb_response_hash : N;
  sb_arguments : CallArguments;
  sb_attachment : bool
}.

Inductive Item :=
| IAlias (name : string) (target : RType)
| IEnum (name : string) (repr : EnumRepr) (variants : list (string * Z))
| IVariant (name : string) (alternatives : list (string * N * RType))
| IStruct (name : string) (fields : list (string * RType)) (cpp_u64_pair : bool)
| IService (trait_name client_name server_name : string) (stubs : list Stub).

Inductive RustModule := Items (items : list Item) | Mod (name : string) (body : RustModule).

Section Generate.
Context `{Toolchain}.

Fixpoint rust_type_of (t : Ty) : result RType :=
  match t with
  | Void => Ok RUnit
  | Bool => Ok RBool
  | I8 => Ok (RInt true 1)
  | U8 => Ok (RInt false 1)
  | I16 => Ok (RInt true 2)
  | U16 => Ok (RInt false 2)
  | I32 => Ok (RInt true 4)
  | U32 => Ok (RInt false 4)
  | I64 => Ok (RInt true 8)
  | U64 => Ok (RInt false 8)
  | F32 => Ok (RFloat 4)
  | F64 => Ok (RFloat 8)
  | String_ => Ok RString
  | Binary => Ok RByteString
  | List v => let? r := rust_type_of v in Ok (RVec r)
  | Set_ v => let? r := rust_type_of v in Ok (RBTreeSet r)
  | Map k v => let? a := rust_type_of k in let? b := rust_type_of v in Ok (RBTreeMap a b)
  | Named name => let? i := rust_ident "type reference" (to_upper_camel_case name) in Ok (RPath i)
  end.

Definition rust_type (t : Ty) (optional : bool) : result RType :=
  let? r := rust_type_of t in Ok (if optional then ROption r else r).

Definition request_rust_type (types : list RType) : RRequest :=
  match types with [only] => ROnly only | _ => RTuple types end.

Definition generate_typedef (t : Typedef) : result Item :=
  let? name := rust_ident "typedef" (to_upper_camel_case (td_name t)) in
  let? target := rust_type (td_target t) false in
  Ok (IAlias name target).

(** The value of a variant as a literal of the representation. *)
Definition repr_value (r : EnumRepr) (z : Z) : result Z :=
  match r with ReprI32 => Ok z | ReprU8 => if in_u8 z then Ok z else Panic end.

Definition generate_enum (e : Enum) : result Item :=
  let? name := rust_ident "enum" (to_upper_camel_case (e_name e)) in
  let? variants := collect_results (fun v => rust_ident "enum variant" (to_upper_camel_case (v_name v))) (e_variants e) in
  let? values := collect_results (fun v => repr_value (e_repr e) (v_value v)) (e_variants e) in
  Ok (IEnum name (e_repr e) (zip variants values)).

Definition variant_index (i : nat) : result N := if (i <=? 255)%nat then Ok (N.of_nat i) else Panic.

Definition generate_union (u : Union) : result Item :=
  let? name := rust_ident "union" (to_upper_camel_case (u_name u)) in
  if u_expected u then
    let? (value, error) := expected_alternatives u in
    let? v := match value with Some v => rust_type (f_type v) false | None => Ok RUnit end in
    let? e := rust_type (f_type error) false in
    Ok (IAlias name (RResult v e))
  else
    let alternatives := ordered_fields (u_alternatives u) in
    let? names := collect_results (fun f => rust_ident "union variant" (to_upper_camel_case (f_name f))) alternatives in
    let? types := collect_results (fun f => rust_type (f_type f) false) alternatives in
    let? indices := collect_results variant_index (seq 0 (length alternatives)) in
    Ok (IVariant name (zip (zip names indices) types)).

(** The names and types of fields or parameters. *)
Definition typed_fields (description : string) (fields : list Field) : result (list (string * RType)) :=
  let? names := collect_results (fun f => rust_ident description (to_snake_case (f_name f))) fields in
  let? types := collect_results (fun f => rust_type (f_type f) (f_optional f)) fields in
  Ok (zip names types).

Definition generate_struct (s : Struct) : result Item :=
  let? name := rust_ident "struct" (to_upper_camel_case (s_name s)) in
  let? fields := typed_fields "field" (ordered_fields (s_fields s)) in
  Ok (IStruct name fields (s_cpp_u64_pair s)).

Definition arguments_of (names : list string) : CallArguments :=
  match names with [] => NoArguments | [only] => OneArgument only | _ => TupleArgument names end.

Definition generate_stub (d : Document) (s : Service) (f : Function) : result Stub :=
  let sc := TypeSchemas_new d in
  let? method := rust_ident "method" (to_snake_case (fn_name f)) in
  let? descriptor := format_ident ("__" +:+ to_shouty_snake_case (sv_name s) +:+ "_" +:+
                                   to_shouty_snake_case (fn_name f) +:+ "_METHOD") in
  let name := wire_name d s f in
  let? returns := rust_type (fn_returns f) false in
  let? response := type_literal sc (fn_returns f) false [] in
  let? parameters := typed_fields "parameter" (ordered_fields (fn_parameters f)) in
  let? request := match parameters with
                  | [] => Ok None
                  | _ => let? l := request_type_literal sc (fn_parameters f) [] in
                         Ok (Some (request_rust_type parameters.*2, hash_type_literal l))
                  end in
  Ok (mkStub method descriptor name (md5_hash32 (text name)) parameters request returns
        (hash_type_literal response) (arguments_of parameters.*1) (fn_attachment f)).

Definition generate_service (d : Document) (s : Service) : result Item :=
  let? trait_name := rust_ident "service" (to_upper_camel_case (sv_name s)) in
  let? client_name := format_ident (unraw trait_name +:+ "Client") in
  let? server_name := format_ident (unraw trait_name +:+ "Server") in
  let? stubs := collect_results (generate_stub d s) (sv_functions s) in
  Ok (IService trait_name client_name server_name stubs).

Definition generate_items (d : Document) : result (list Item) :=
  let? ts := collect_results generate_typedef (typedefs d) in
  let? es := collect_results generate_enum (enums d) in
  let? us := collect_results generate_union (unions d) in
  let? ss := collect_results generate_struct (structs d) in
  let? svs := collect_results (generate_service d) (services d) in
  Ok (ts ++ es ++ us ++ ss ++ svs).

(** The items in the modules of the namespace, the innermost first. *)
Definition generate (d : Document) : result RustModule :=
  let? _ := validate d in
  let? items := generate_items d in
  try_fold (fun body component =>
    let? m := rust_ident "namespace" (to_snake_case component) in Ok (Mod m body))
    (Items items) (reverse (rust_namespace d)).
End Generate.
