(* ===== verification/GeneratedTypes.v ===== *)
(** * What the generated types are

    The Rust types that the generated code names, as types with their
    [StructPack] implementation, its laws and, where Rust derives it, their
    order.  Generated enums and variants get the implementations that
    [generate_enum] and [generate_union] write out; generated structs are those
    of [impl_struct_pack!].  [rust_type_at] looks names up among the generated
    items, as the Rust compiler does. *)
From S2P Require Import Prelude Wire StructPack StructPackLaws ThriftParse Codegen.
Import Thrift.

(** ** Orders *)

(** An order whose [Eq] is equality. *)
Class LawfulOrd (K : Type) := {
  lo_ord :: Ord K;
  lo_eq (x y : K) : cmp x y = Eq → x = y
}.

#[export] Program Instance N_ord : Ord N := { cmp := N.compare }.
Next Obligation. intros x y. apply N.compare_antisym. Qed.
Next Obligation. intros x y z. rewrite !N.compare_lt_iff. lia. Qed.
#[export] Program Instance N_lawful : LawfulOrd N.
Next Obligation. intros x y. apply N.compare_eq_iff. Qed.

#[export] Program Instance Z_ord : Ord Z := { cmp := Z.compare }.
Next Obligation. intros x y. apply Z.compare_antisym. Qed.
Next Obligation. intros x y z. rewrite !Z.compare_lt_iff. lia. Qed.
#[export] Program Instance Z_lawful : LawfulOrd Z.
Next Obligation. intros x y. apply Z.compare_eq_iff. Qed.

(** The order of a field that determines the value. *)
Program Definition ord_by {K J} `{LawfulOrd J} (f : K → J) : Ord K := {| cmp x y := cmp (f x) (f y) |}.
Next Obligation. intros K J ? f x y. apply cmp_flip. Qed.
Next Obligation. intros K J ? f x y z. apply cmp_trans. Qed.

Program Definition lawful_by {K J} `{LawfulOrd J} (f : K → J) (Hf : ∀ x y, f x = f y → x = y) : LawfulOrd K :=
  {| lo_ord := ord_by f |}.
Next Obligation. intros K J ? f Hf x y He. by apply Hf, lo_eq. Qed.

(** Lexicographic orders. *)
Section Lex.
Context {K V} `{LawfulOrd K, LawfulOrd V}.

Definition pair_cmp (x y : K * V) : comparison :=
  match cmp x.1 y.1 with Eq => cmp x.2 y.2 | c => c end.

Fixpoint list_cmp (l k : list K) : comparison :=
  match l, k with
  | [], [] => Eq
  | [], _ :: _ => Lt
  | _ :: _, [] => Gt
  | x :: l', y :: k' => match cmp x y with Eq => list_cmp l' k' | c => c end
  end.

Lemma list_cmp_flip l : ∀ k, list_cmp l k = CompOpp (list_cmp k l).
Proof.
  induction l as [|x l IH]; intros [|y k]; simpl; try done. rewrite (cmp_flip x y).
  destruct (cmp y x); simpl; [apply IH|done..].
Qed.

Lemma list_cmp_trans l : ∀ k m, list_cmp l k = Lt → list_cmp k m = Lt → list_cmp l m = Lt.
Proof.
  induction l as [|x l IH]; intros [|y k] [|z m]; simpl; try done.
  destruct (cmp x y) eqn:Hxy; [|destruct (cmp y z) eqn:Hyz; try done|done].
  - apply lo_eq in Hxy as <-. destruct (cmp x z); [apply IH|done..].
  - intros _ _. apply lo_eq in Hyz as <-. by rewrite Hxy.
  - intros _ _. by rewrite (cmp_trans _ _ _ Hxy Hyz).
Qed.

Lemma list_cmp_eq l : ∀ k, list_cmp l k = Eq → l = k.
Proof.
  induction l as [|x l IH]; intros [|y k]; simpl; try done.
  destruct (cmp x y) eqn:Hxy; [|done..]. apply lo_eq in Hxy as <-. intros Hl. by rewrite (IH k).
Qed.
End Lex.

#[export] Program Instance pair_ord {K V} `{LawfulOrd K, LawfulOrd V} : Ord (K * V) := { cmp := pair_cmp }.
Next Obligation.
  intros K V ? ? [x u] [y v]. unfold pair_cmp. simpl. rewrite (cmp_flip x y).
  destruct (cmp y x); simpl; [apply cmp_flip|done..].
Qed.
Next Obligation.
  intros K V ? ? [x u] [y v] [z w]. unfold pair_cmp. simpl.
  destruct (cmp x y) eqn:Hxy; [|destruct (cmp y z) eqn:Hyz; try done|done].
  - apply lo_eq in Hxy as <-. destruct (cmp x z); [apply cmp_trans|done..].
  - intros _ _. apply lo_eq in Hyz as <-. by rewrite Hxy.
  - intros _ _. by rewrite (cmp_trans _ _ _ Hxy Hyz).
Qed.
#[export] Program Instance pair_lawful {K V} `{LawfulOrd K, LawfulOrd V} : LawfulOrd (K * V).
Next Obligation.
  intros K V ? ? [x u] [y v]. simpl. unfold pair_cmp. simpl.
  destruct (cmp x y) eqn:Hxy; [|done..]. apply lo_eq in Hxy as <-. intros Hv%lo_eq. by subst.
Qed.

#[export] Program Instance list_ord {K} `{LawfulOrd K} : Ord (list K) := { cmp := list_cmp }.
Next Obligation. intros K ? l k. apply list_cmp_flip. Qed.
Next Obligation. intros K ? l k m. apply list_cmp_trans. Qed.
#[export] Program Instance list_lawful {K} `{LawfulOrd K} : LawfulOrd (list K).
Next Obligation. intros K ? l k. apply list_cmp_eq. Qed.

(** ** Generated enums *)

(** A value of [pub enum name], by its discriminant. *)
Record GenEnum (name : bytes) (r : EnumRepr) (values : list Z) := mkGenEnum { discriminant : Z }.
Arguments mkGenEnum {name r values} _. Arguments discriminant {name r values} _.

Definition write_repr (r : EnumRepr) (w : N) (z : Z) : res StructPackError bytes :=
  match r with
  | ReprI32 => encode_payload w (mkSInt (k := 4) z)
  | ReprU8 => encode_payload w (mkUInt (k := 1) (Z.to_N z))
  end.

Definition read_repr (r : EnumRepr) : dec Z :=
  match r with
  | ReprI32 => dec? v := decode_payload (SInt 4) in dec_ret (sval v)
  | ReprU8 => dec? v := decode_payload (UInt 1) in dec_ret (Z.of_N (uval v))
  end.

#[export] Instance enum_pack name r values : StructPack (GenEnum name r values) := {
  type_literal := match r with ReprI32 => StructPack.type_literal (SInt 4) | ReprU8 => StructPack.type_literal (UInt 1) end;
  max_container_len _ := 0;
  encode_payload w v := write_repr r w (discriminant v);
  decode_payload :=
    dec? z := read_repr r in
    if bool_decide (z ∈ values) then dec_ret (mkGenEnum z) else dec_fail (InvalidEnumDiscriminant name z)
}.

Definition fits_repr (r : EnumRepr) (z : Z) : bool := match r with ReprI32 => in_i32 z | ReprU8 => in_u8 z end.

Lemma repr_codec r w lim z :
  fits_repr r z = true → ∃ b, write_repr r w z = Ok b ∧ reads w lim (read_repr r) z b.
Proof.
  intros Hz. destruct r; simpl in *; unfold in_i32, in_u8 in Hz; bool_to_prop.
  - eexists. split; [done|]. eapply reads_check.
    + pose proof (reads_map w lim (read_uint 4) (fun n => mkSInt (k := 4) (sint_of_bits 4 n)) _ _
        (reads_uint w lim 4 _ (sint_to_bits_bound 4 z))) as Hr. exact Hr.
    + simpl. rewrite sint_bits_round; [done|]. unfold sint_range. simpl. lia.
  - eexists. split; [done|]. eapply reads_check.
    + apply (reads_map w lim (read_uint 1) mkUInt), reads_uint. simpl. lia.
    + simpl. by rewrite Z2N.id by lia.
Qed.

Lemma yields_repr r lim : yields lim (fun _ => True) (read_repr r).
Proof. destruct r; (eapply yields_bind; [apply sp_sound|]; intros v _; by apply yields_ret). Qed.

Record enum_ok (name : bytes) (r : EnumRepr) (values : list Z) : Prop := {
  eo_name : name_ok name;
  eo_values : Forall (fun z => fits_repr r z = true) values
}.
#[export] Instance enum_ok_dec name r values : Decision (enum_ok name r values).
Proof.
  destruct (decide (name_ok name)); [|right; by intros []].
  destruct (decide (Forall (fun z => fits_repr r z = true) values)); [by left|right; by intros []].
Defined.

Program Definition enum_laws {name r values} (Hok : enum_ok name r values)
    : StructPackLaws (GenEnum name r values) := {| sp_wf v := discriminant v ∈ values |}.
Next Obligation.
  intros name r values [_ Hv] w lim [z] Hz _ _ _ _. simpl in Hz.
  destruct (repr_codec r w lim z) as (b & Hb & Hr); [by apply (proj1 (Forall_forall _ _) Hv)|].
  exists b. split; [done|]. eapply reads_check; [exact Hr|]. by rewrite bool_decide_eq_true_2.
Qed.
Next Obligation.
  intros name r values [Hn _] lim. simpl. eapply yields_bind; [apply yields_repr|]. intros z _.
  apply yields_if; intros Hz; bool_to_prop; [apply yields_ret|by apply yields_fail].
  split; [done|]. unfold within_limit. simpl. lia.
Qed.

(** ** Types with their implementations *)

Record packed := mkPacked {
  carrier : Type;
  pk_pack : StructPack carrier;
  pk_laws : StructPackLaws carrier;
  pk_ord : option (LawfulOrd carrier)
}.
#[export] Existing Instances pk_pack pk_laws.

Definition pk (T : Type) `{StructPackLaws T} : packed := mkPacked T _ _ None.
Definition pk_key (T : Type) `{StructPackLaws T} (O : LawfulOrd T) : packed := mkPacked T _ _ (Some O).
Definition literal_of (p : packed) : bytes := StructPack.type_literal (carrier p).

Program Definition bool_lawful : LawfulOrd bool := lawful_by (fun b : bool => if b then 1 else 0) _.
Next Obligation. by intros [] []. Qed.
Program Definition uint_lawful k : LawfulOrd (UInt k) := lawful_by uval _.
Next Obligation. intros k [x] [y]. simpl. by intros ->. Qed.
Program Definition sint_lawful k : LawfulOrd (SInt k) := lawful_by sval _.
Next Obligation. intros k [x] [y]. simpl. by intros ->. Qed.
Program Definition str_lawful : LawfulOrd Str := lawful_by str_bytes _.
Next Obligation. intros [x] [y]. simpl. by intros ->. Qed.
Program Definition byte_string_lawful : LawfulOrd ByteString := lawful_by bs_bytes _.
Next Obligation. intros [x] [y]. simpl. by intros ->. Qed.
Program Definition set_lawful {K} (O : LawfulOrd K) : LawfulOrd (BTreeSet K) := lawful_by set_elems _.
Next Obligation. intros K O [x] [y]. simpl. by intros ->. Qed.
Program Definition map_lawful {K V} (O : LawfulOrd K) (O' : LawfulOrd V) : LawfulOrd (BTreeMap K V) :=
  lawful_by map_entries _.
Next Obligation. intros K V O O' [x] [y]. simpl. by intros ->. Qed.
(** Derived orders compare discriminants. *)
Program Definition enum_lawful name r values : LawfulOrd (GenEnum name r values) := lawful_by discriminant _.
Next Obligation. intros name r values [x] [y]. simpl. by intros ->. Qed.

Definition p_vec (p : packed) : packed :=
  mkPacked (list (carrier p)) _ _ (O ← pk_ord p; Some list_lawful).
Definition p_set (p : packed) : option packed :=
  O ← pk_ord p; Some (pk_key (BTreeSet (carrier p)) (set_lawful O)).
Definition p_map (p q : packed) : option packed :=
  O ← pk_ord p;
  Some (mkPacked (BTreeMap (carrier p) (carrier q)) _ _ (O' ← pk_ord q; Some (map_lawful O O'))).
Definition p_option (p : packed) : packed := pk (option (carrier p)).
Definition p_result (p q : packed) : packed := pk (carrier p + carrier q).
Definition p_enum (name : bytes) (r : EnumRepr) (values : list Z) : option packed :=
  match decide (enum_ok name r values) with
  | left Hok => Some (@pk_key _ _ (enum_laws Hok) (enum_lawful name r values))
  | right _ => None
  end.

(** ** Generated structs *)

Definition p_fields (ps : list packed) : packed :=
  foldr (fun p q => pk (Fields (carrier p) (carrier q))) (pk FieldsEnd) ps.
Definition p_struct (ps : list packed) : packed := pk (StructPack.Struct (carrier (p_fields ps))).

(** A struct with [coro_rpc.cpp_u64_pair], whose literal is marked. *)
Record PairStruct (F : Type) := mkPairStruct { pair_fields : F }.
Arguments mkPairStruct {F} _. Arguments pair_fields {F} _.

#[export] Instance pair_struct_pack {F} `{StructPack F} : StructPack (PairStruct F) := {
  type_literal := [TYPE_STRUCT] ++ StructPack.type_literal F ++ [137; 137; TYPE_END];
  max_container_len s := max_container_len (pair_fields s);
  encode_payload w s := encode_payload w (pair_fields s);
  decode_payload := dec? f := decode_payload F in dec_ret (mkPairStruct f)
}.

#[export] Program Instance pair_struct_laws {F} `{StructPackLaws F} : StructPackLaws (PairStruct F) := {
  sp_wf s := sp_wf (pair_fields s)
}.
Next Obligation.
  intros F ? ? w lim [f] Hf Hw H1 H2 H3. simpl in *.
  destruct (sp_codec w lim f) as (b & -> & Hr); [done..|]. exists b. split; [done|].
  by apply (reads_map w lim _ mkPairStruct).
Qed.
Next Obligation.
  intros F ? ? lim. simpl. eapply yields_bind; [apply sp_sound|]. intros f Hf. by apply yields_ret.
Qed.

Definition p_pair_struct (ps : list packed) : packed := pk (PairStruct (carrier (p_fields ps))).

(** ** Generated variants *)

Fixpoint alternatives (ps : list packed) : Type :=
  match ps with
  | [] => Empty_set
  | p :: ps' => (carrier p + alternatives ps')%type
  end.

(** A value of [pub enum name] with one alternative per type. *)
Record GenVariant (name : bytes) (ps : list packed) := mkGenVariant { alternative : alternatives ps }.
Arguments mkGenVariant {name ps} _. Arguments alternative {name ps} _.

Fixpoint alt_max (ps : list packed) : alternatives ps → N :=
  match ps with
  | [] => fun v => match v with end
  | p :: ps' => fun v => match v with inl x => max_container_len x | inr y => alt_max ps' y end
  end.

(** [i] is the index of the first alternative. *)
Fixpoint alt_encode (w i : N) (ps : list packed) : alternatives ps → res StructPackError bytes :=
  match ps with
  | [] => fun v => match v with end
  | p :: ps' => fun v =>
      match v with
      | inl x =>
          let? a := encode_payload w (mkUInt (k := 1) i) in
          let? b := encode_payload w x in
          Ok (a ++ b)
      | inr y => alt_encode w (i + 1) ps' y
      end
  end.

Fixpoint alt_decode (e : StructPackError) (ps : list packed) (i : N) : dec (alternatives ps) :=
  match ps with
  | [] => dec_fail e
  | p :: ps' =>
      if i =? 0 then dec? x := decode_payload (carrier p) in dec_ret (inl x)
      else dec? y := alt_decode e ps' (i - 1) in dec_ret (inr y)
  end.

Fixpoint alt_wf (ps : list packed) : alternatives ps → Prop :=
  match ps with
  | [] => fun v => match v with end
  | p :: ps' => fun v => match v with inl x => sp_wf x | inr y => alt_wf ps' y end
  end.

#[export] Instance variant_pack name ps : StructPack (GenVariant name ps) := {
  type_literal := [TYPE_VARIANT] ++ mjoin (map literal_of ps) ++ [TYPE_END];
  max_container_len v := alt_max ps (alternative v);
  encode_payload w v := alt_encode w 0 ps (alternative v);
  decode_payload :=
    dec? i := decode_payload (UInt 1) in
    dec? v := alt_decode (InvalidVariantIndex name (uval i) (N.of_nat (length ps))) ps (uval i) in
    dec_ret (mkGenVariant v)
}.

Record variant_ok (name : bytes) (ps : list packed) : Prop := {
  vo_name : name_ok name;
  vo_indices : (length ps <= 256)%nat
}.
#[export] Instance variant_ok_dec name ps : Decision (variant_ok name ps).
Proof.
  destruct (decide (name_ok name)); [|right; by intros []].
  destruct (decide (length ps <= 256)%nat); [by left|right; by intros []].
Defined.

(** The index and the payload of an alternative are read back. *)
Lemma alt_codec w lim ps : ∀ i v,
  alt_wf ps v → width_ok w → i + N.of_nat (length ps) <= 256 →
  alt_max ps v < 256 ^ w → alt_max ps v <= lim → alt_max ps v <= U64_MAX →
  ∃ j b, alt_encode w i ps v = Ok (le_bytes 1 j ++ b) ∧ i <= j < 256 ∧
    ∀ e, reads w lim (alt_decode e ps (j - i)) v b.
Proof.
  induction ps as [|p ps IH]; [by intros i []|]. intros i [x|y] Hwf Hw Hi H1 H2 H3; simpl in *.
  - destruct (sp_codec w lim x) as (b & -> & Hr); [done..|]. exists i, b. split; [done|]. split; [lia|].
    intros e. rewrite N.sub_diag. simpl. by apply (reads_map w lim _ inl).
  - destruct (IH (i + 1) y) as (j & b & -> & Hj & Hr); [done|done|lia|done|done|done|]. exists j, b.
    split; [done|]. split; [lia|]. intros e. rewrite (proj2 (N.eqb_neq (j - i) 0)) by lia.
    apply (reads_map w lim _ inr). replace (j - i - 1) with (j - (i + 1)) by lia. apply Hr.
Qed.

Lemma yields_alt lim e ps : ∀ i,
  error_ok e → yields lim (fun v => alt_wf ps v ∧ alt_max ps v <= lim ∧ alt_max ps v <= U64_MAX) (alt_decode e ps i).
Proof.
  induction ps as [|p ps IH]; intros i He; simpl; [by apply yields_fail|].
  apply yields_if; intros _.
  - eapply yields_bind; [apply sp_sound|]. intros x [Hx [Hl H64]]. by apply yields_ret.
  - eapply yields_bind; [by apply IH|]. intros y Hy. by apply yields_ret.
Qed.

Program Definition variant_laws {name ps} (Hok : variant_ok name ps) : StructPackLaws (GenVariant name ps) :=
  {| sp_wf v := alt_wf ps (alternative v) |}.
Next Obligation.
  intros name ps [_ Hlen] w lim [v] Hwf Hw H1 H2 H3. simpl in *.
  destruct (alt_codec w lim ps 0 v) as (j & b & -> & Hj & Hr); [done|done|lia|done|done|done|].
  eexists. split; [done|].
  apply (reads_bind w lim _ _ (mkUInt j)); [apply (reads_map w lim (read_uint 1) mkUInt), reads_uint; simpl; lia|].
  apply (reads_map w lim _ mkGenVariant). specialize (Hr (InvalidVariantIndex name j (N.of_nat (length ps)))).
  by rewrite N.sub_0_r in Hr.
Qed.
Next Obligation.
  intros name ps [Hn _] lim. eapply yields_bind; [apply sp_sound|]. intros i _.
  eapply yields_bind; [by apply yields_alt|]. intros v Hv. by apply yields_ret.
Qed.

Definition p_variant (name : bytes) (ps : list packed) : option packed :=
  match decide (variant_ok name ps) with
  | left Hok => Some (@pk _ _ (variant_laws Hok))
  | right _ => None
  end.

(** ** Names *)

(** The names that an item has among the types of its module.  The descriptor
    constants of a service are values, [constant] of [GeneratedService]. *)
Definition item_names (i : Item) : list string :=
  match i with
  | IAlias name _ | IEnum name _ _ | IVariant name _ | IStruct name _ _ => [name]
  | IService trait_name client_name server_name _ => [trait_name; client_name; server_name]
  end.

(** A raw identifier and the identifier without its prefix are the same name. *)
Definition declares (name : string) (i : Item) : bool :=
  existsb (fun n => unraw n =s unraw name) (item_names i).

(** The type that an item defines, by the types that its parts name.  The
    alternatives of a variant are in the order of their indices, and
    [impl_struct_pack!] takes at least one field. *)
Definition item_type (f : RType → option packed) (i : Item) : option packed :=
  match i with
  | IAlias _ t => f t
  | IEnum name r variants => p_enum (text name) r variants.*2
  | IVariant name alternatives =>
      if bool_decide ((map (fun a => a.1.2) alternatives) = map N.of_nat (seq 0 (length alternatives)))
      then ps ← mapM (fun a => f a.2) alternatives; p_variant (text name) ps
      else None
  | IStruct _ fields u64_pair =>
      ps ← mapM (fun a => f a.2) fields;
      match ps with
      | [] => None
      | _ => Some (if u64_pair : bool then p_pair_struct ps else p_struct ps)
      end
  | IService _ _ _ _ => None
  end.

Definition int_type (signed : bool) (k : nat) : packed :=
  if signed then pk_key (SInt k) (sint_lawful k) else pk_key (UInt k) (uint_lawful k).

Section Resolve.
Context (items : list Item).

(** [depth] bounds the number of names looked up inside each other. *)
Fixpoint rust_type_at (depth : nat) : RType → option packed :=
  fix go (t : RType) : option packed :=
    match t with
    | RUnit => Some (pk unit)
    | RBool => Some (pk_key bool bool_lawful)
    | RInt signed k => Some (int_type signed k)
    | RFloat k => Some (pk (Float k))
    | RString => Some (pk_key Str str_lawful)
    | RByteString => Some (pk_key ByteString byte_string_lawful)
    | RVec v => p ← go v; Some (p_vec p)
    | RBTreeSet v => p ← go v; p_set p
    | RBTreeMap k v => p ← go k; q ← go v; p_map p q
    | ROption v => p ← go v; Some (p_option p)
    | RResult v e => p ← go v; q ← go e; Some (p_result p q)
    | RPath name =>
        match depth with
        | O => None
        | S depth' => i ← List.find (declares name) items; item_type (rust_type_at depth') i
        end
    end.

(** A type that nests deeper has itself as a part. *)
Definition resolve (t : RType) : option packed := rust_type_at (S (S (length items))) t.

(** Tuples implement [StructPack] up to eight elements. *)
Definition resolve_request (r : RRequest) : option packed :=
  match r with
  | ROnly t => resolve t
  | RTuple ts =>
      if ((0 <? length ts) && (length ts <=? 8))%nat
      then ps ← mapM resolve ts; Some (p_struct ps)
      else None
  end.

Lemma item_type_mono (f g : RType → option packed) i p :
  (∀ t q, f t = Some q → g t = Some q) → item_type f i = Some p → item_type g i = Some p.
Proof.
  intros Hfg.
  assert (∀ X (l : list (X * RType)) ps, mapM (fun a => f a.2) l = Some ps → mapM (fun a => g a.2) l = Some ps) as Hm.
  { intros X l ps. rewrite !mapM_Some. intros Hl. eapply Forall2_impl; [exact Hl|]. intros a q. apply Hfg. }
  destruct i as [name t|name r vs|name alts|name fs u64_pair|]; simpl; [by auto|done| | |done].
  - case_bool_decide; [|done]. destruct (mapM _ alts) as [ps|] eqn:Hps; [|done]. by rewrite (Hm _ _ _ Hps).
  - destruct (mapM _ fs) as [ps|] eqn:Hps; [|done]. by rewrite (Hm _ _ _ Hps).
Qed.

Lemma resolve_path depth name :
  rust_type_at (S depth) (RPath name) =
    i ← List.find (declares name) items; item_type (rust_type_at depth) i.
Proof. done. Qed.

Lemma resolve_vec depth v : rust_type_at depth (RVec v) = p ← rust_type_at depth v; Some (p_vec p).
Proof. by destruct depth. Qed.
Lemma resolve_set depth v : rust_type_at depth (RBTreeSet v) = p ← rust_type_at depth v; p_set p.
Proof. by destruct depth. Qed.
Lemma resolve_map depth k v :
  rust_type_at depth (RBTreeMap k v) = p ← rust_type_at depth k; q ← rust_type_at depth v; p_map p q.
Proof. by destruct depth. Qed.
Lemma resolve_option depth v : rust_type_at depth (ROption v) = p ← rust_type_at depth v; Some (p_option p).
Proof. by destruct depth. Qed.
Lemma resolve_result depth v e :
  rust_type_at depth (RResult v e) = p ← rust_type_at depth v; q ← rust_type_at depth e; Some (p_result p q).
Proof. by destruct depth. Qed.

Lemma rust_type_at_step depth : ∀ t p, rust_type_at depth t = Some p → rust_type_at (S depth) t = Some p.
Proof.
  induction depth as [|depth IH]; intros t; induction t as [| | | | | |v IHv|v IHv|k IHk v IHv|v IHv|v IHv e IHe|name];
    intros p; try done.
  all: try (rewrite !resolve_path; intros (i & -> & Hp)%bind_Some; by apply (item_type_mono (rust_type_at depth))).
  all: rewrite ?resolve_vec, ?resolve_set, ?resolve_map, ?resolve_option, ?resolve_result.
  all: intros (q & Hq & Hp)%bind_Some; rewrite ?(IHv q Hq), ?(IHk q Hq); try done.
  all: apply bind_Some in Hp as (q' & Hq' & Hp); rewrite ?(IHv q' Hq'), ?(IHe q' Hq'); done.
Qed.

Lemma rust_type_at_mono depth depth' t p :
  (depth <= depth')%nat → rust_type_at depth t = Some p → rust_type_at depth' t = Some p.
Proof. induction 1 as [|d _ IH]; [done|]. intros Hp. by apply rust_type_at_step, IH. Qed.
End Resolve.
