(* ===== verification/CodegenFacts.v ===== *)
(** * What validation establishes

    The recursion of the type literals ends; a validated document has distinct
    names, identifiers and routes; and each of its definitions is generated as
    an item of its own that its name resolves to. *)
From S2P Require Import Prelude Wire StructPack ThriftParse Codegen GeneratedTypes.
Import Thrift.

(** ** Results *)

Lemma insert_new_Ok {K} `{Countable K} e (k : K) s s' :
  insert_new e k s = Ok s' ↔ k ∉ s ∧ s' = {[k]} ∪ s.
Proof. unfold insert_new. destruct (decide (k ∈ s)); naive_solver. Qed.

Lemma insert_new_total {K} `{Countable K} e (k : K) s : insert_new e k s ≠ Panic.
Proof. unfold insert_new. by destruct (decide (k ∈ s)). Qed.

Lemma concat_results_Ok {X} (f : X → res CodegenError bytes) l b :
  concat_results f l = Ok b ↔ ∃ bs, Forall2 (fun x y => f x = Ok y) l bs ∧ b = mjoin bs.
Proof. unfold concat_results. rewrite res_map_Ok. by setoid_rewrite collect_results_Ok. Qed.

(** ** The recursion ends *)

Section Ends.
Context (sc : TypeSchemas).

Definition declared : gset string := dom (sc_typedefs sc) ∪ dom (sc_structs sc) ∪ dom (sc_unions sc).

(** The names that can still be opened. *)
Definition unopened (stack : list string) : gset string := declared ∖ list_to_set stack.

Lemma size_declared : (size declared < max_depth sc)%nat.
Proof.
  assert (∀ X Y : gset string, (size (X ∪ Y) <= size X + size Y)%nat) as Hu.
  { intros X Y. rewrite size_union_alt. pose proof (subseteq_size (Y ∖ X) Y ltac:(set_solver)). lia. }
  unfold declared, max_depth. rewrite <- (size_dom (D := gset string) (sc_typedefs sc)),
    <- (size_dom (D := gset string) (sc_structs sc)), <- (size_dom (D := gset string) (sc_unions sc)).
  pose proof (Hu (dom (sc_typedefs sc) ∪ dom (sc_structs sc)) (dom (sc_unions sc))).
  pose proof (Hu (dom (sc_typedefs sc)) (dom (sc_structs sc))). lia.
Qed.

Lemma in_stack name stack : existsb (String.eqb name) stack = true ↔ name ∈ stack.
Proof.
  rewrite existsb_exists. split.
  - intros (x & Hx & ->%String.eqb_eq). by apply list_elem_of_In.
  - intros Hx. exists name. split; [by apply list_elem_of_In|apply String.eqb_refl].
Qed.

Lemma unopened_push name stack :
  name ∈ declared → name ∉ stack → (size (unopened (stack ++ [name])) < size (unopened stack))%nat.
Proof. intros Hd Hs. apply subset_size. unfold unopened. rewrite list_to_set_app_L. set_solver. Qed.

(** *** Equations of the literal *)

Lemma literal_list n stack v :
  literal_at sc n stack (List v) = let? l := literal_at sc n stack v in Ok (TYPE_CONTAINER :: l).
Proof. by destruct n. Qed.
Lemma literal_set n stack v :
  literal_at sc n stack (Set_ v) = let? l := literal_at sc n stack v in Ok (TYPE_SET :: l).
Proof. by destruct n. Qed.
Lemma literal_map n stack k v :
  literal_at sc n stack (Map k v) =
    let? a := literal_at sc n stack k in let? b := literal_at sc n stack v in Ok (TYPE_MAP :: a ++ b).
Proof. by destruct n. Qed.
Lemma literal_named n stack name :
  sc_enums sc !! name = None → name ∉ stack →
  literal_at sc (S n) stack (Named name) = definition_literal sc (literal_at sc n (stack ++ [name])) name.
Proof.
  intros He Hs. cbn. rewrite He. destruct (existsb _ stack) eqn:Hx; [|done]. by apply in_stack in Hx.
Qed.

(** A definition needs nothing but the literals of its parts. *)
Lemma definition_total (lit : Ty → res CodegenError bytes) name :
  (∀ t, lit t ≠ Panic) → definition_literal sc lit name ≠ Panic.
Proof.
  intros Hl. unfold definition_literal.
  assert (∀ X (f : X → _) l, (∀ x, f x ≠ Panic) → concat_results f l ≠ Panic) as Hc.
  { intros X f l Hf. unfold concat_results. rewrite res_map_Panic. apply collect_total, Forall_true, Hf. }
  destruct (sc_typedefs sc !! name); [apply Hl|].
  destruct (sc_structs sc !! name) as [s|].
  { pose proof (Hc _ (field_literal lit) (ordered_fields (s_fields s))) as Hs. destruct (concat_results _ _); try done.
    apply Hs. intros f. unfold field_literal. by rewrite res_map_Panic. }
  destruct (sc_unions sc !! name) as [u|]; [|done]. destruct (u_expected u).
  - destruct (expected_alternatives u) as [[v e]|er|] eqn:Hu; simpl; [|done|].
    2: { unfold expected_alternatives in Hu. by repeat case_match. }
    pose proof (Hl (f_type e)). destruct v as [v|]; simpl; [pose proof (Hl (f_type v)); destruct (lit (f_type v)); simpl; try done|];
      by destruct (lit (f_type e)).
  - pose proof (Hc _ (fun f => lit (f_type f)) (ordered_fields (u_alternatives u))) as Hs.
    destruct (concat_results _ _); try done. apply Hs. intros f. apply Hl.
Qed.

Lemma undeclared_definition lit name :
  name ∉ declared → definition_literal sc lit name = invalid (UnknownType name).
Proof.
  unfold declared. rewrite !not_elem_of_union, !not_elem_of_dom. intros [[Ht Hs] Hu].
  unfold definition_literal. by rewrite Ht, Hs, Hu.
Qed.

Lemma literal_total n : ∀ stack t, (size (unopened stack) < n)%nat → literal_at sc n stack t ≠ Panic.
Proof.
  induction n as [|n IH]; intros stack t Hn; [lia|].
  induction t as [| | | | | | | | | | | | | |v IHv|v IHv|k IHk v IHv|name]; try done.
  - rewrite literal_list. by destruct (literal_at sc (S n) stack v).
  - rewrite literal_set. by destruct (literal_at sc (S n) stack v).
  - rewrite literal_map. destruct (literal_at sc (S n) stack k); try done. by destruct (literal_at sc (S n) stack v).
  - destruct (sc_enums sc !! name) eqn:He; [cbn; by rewrite He|].
    destruct (decide (name ∈ stack)) as [Hs|Hs].
    { cbn. rewrite He. by rewrite (proj2 (in_stack _ _) Hs). }
    rewrite literal_named by done. destruct (decide (name ∈ declared)) as [Hd|Hd].
    + apply definition_total. intros t. apply IH. pose proof (unopened_push name stack Hd Hs). lia.
    + by rewrite undeclared_definition.
Qed.

Lemma definition_ext lit lit' name :
  (∀ t, lit t = lit' t) → definition_literal sc lit name = definition_literal sc lit' name.
Proof.
  intros Hl. unfold definition_literal.
  assert (∀ X (f g : X → _) l, (∀ x, f x = g x) → concat_results f l = concat_results g l) as Hc.
  { intros X f g l Hf. unfold concat_results. f_equal. by apply collect_ext, Forall_true. }
  destruct (sc_typedefs sc !! name); [apply Hl|]. destruct (sc_structs sc !! name).
  { rewrite (Hc _ (field_literal lit) (field_literal lit')); [done|]. intros f. unfold field_literal. by rewrite Hl. }
  destruct (sc_unions sc !! name) as [u|]; [|done]. destruct (u_expected u).
  2: { by rewrite (Hc _ (fun f => lit (f_type f)) (fun f => lit' (f_type f))). }
  destruct (expected_alternatives u) as [[[v|] e]| |]; simpl; [|by rewrite Hl|done..].
  by rewrite !Hl.
Qed.

(** More depth makes no difference. *)
Lemma literal_stable n : ∀ m stack t,
  (size (unopened stack) < n)%nat → (size (unopened stack) < m)%nat →
  literal_at sc n stack t = literal_at sc m stack t.
Proof.
  induction n as [|n IH]; intros [|m] stack t Hn Hm; [lia..|].
  induction t as [| | | | | | | | | | | | | |v IHv|v IHv|k IHk v IHv|name]; try done.
  - by rewrite !literal_list, IHv.
  - by rewrite !literal_set, IHv.
  - by rewrite !literal_map, IHk, IHv.
  - destruct (sc_enums sc !! name) eqn:He; [cbn; by rewrite He|].
    destruct (decide (name ∈ stack)) as [Hs|Hs].
    { cbn. rewrite He. by rewrite (proj2 (in_stack _ _) Hs). }
    rewrite !literal_named by done. destruct (decide (name ∈ declared)) as [Hd|Hd].
    + apply definition_ext. intros t. pose proof (unopened_push name stack Hd Hs). apply IH; lia.
    + by rewrite !undeclared_definition.
Qed.

Lemma unopened_small stack : (size (unopened stack) < max_depth sc)%nat.
Proof.
  pose proof size_declared. pose proof (subseteq_size (unopened stack) declared ltac:(unfold unopened; set_solver)). lia.
Qed.

Lemma type_literal_total t optional stack : type_literal sc t optional stack ≠ Panic.
Proof. unfold type_literal. rewrite res_map_Panic. apply literal_total, unopened_small. Qed.

(** *** The order check *)

Lemma ord_map n stack k v :
  ord_at sc n stack (Map k v) =
    match ord_at sc n stack k with Some true => ord_at sc n stack v | ordered => ordered end.
Proof. by destruct n. Qed.
Lemma ord_list n stack v : ord_at sc n stack (List v) = ord_at sc n stack v.
Proof. by destruct n. Qed.
Lemma ord_set n stack v : ord_at sc n stack (Set_ v) = ord_at sc n stack v.
Proof. by destruct n. Qed.
Lemma ord_named n stack name t :
  sc_enums sc !! name = None → name ∉ stack → sc_typedefs sc !! name = Some t →
  ord_at sc (S n) stack (Named name) = ord_at sc n (stack ++ [name]) (td_target t).
Proof.
  intros He Hs Ht. cbn. rewrite He, Ht. destruct (existsb _ stack) eqn:Hx; [|done]. by apply in_stack in Hx.
Qed.

Lemma ord_stable n : ∀ m stack t,
  (size (unopened stack) < n)%nat → (size (unopened stack) < m)%nat →
  is_Some (ord_at sc n stack t) ∧ ord_at sc n stack t = ord_at sc m stack t.
Proof.
  induction n as [|n IH]; intros [|m] stack t Hn Hm; [lia..|].
  induction t as [| | | | | | | | | | | | | |v IHv|v IHv|k [[[] Hk] IHk] v IHv|name]; try done.
  - by rewrite !ord_map, <- IHk, Hk.
  - rewrite !ord_map, <- IHk, Hk. done.
  - destruct (sc_enums sc !! name) eqn:He; [cbn; by rewrite He|].
    destruct (decide (name ∈ stack)) as [Hs|Hs].
    { cbn. rewrite He. by rewrite (proj2 (in_stack _ _) Hs). }
    destruct (sc_typedefs sc !! name) as [d|] eqn:Ht.
    + rewrite !(ord_named _ _ _ d) by done.
      assert (name ∈ declared) as Hd by (unfold declared; apply elem_of_dom_2 in Ht; set_solver).
      pose proof (unopened_push name stack Hd Hs). apply IH; lia.
    + cbn. rewrite He, Ht. by destruct (existsb _ stack).
Qed.
End Ends.

(** ** Text *)

Lemma strip_codes_app p l : strip_codes p (p ++ l) = Some l.
Proof. induction p as [|x p IH]; simpl; [done|]. by rewrite N.eqb_refl. Qed.

Lemma strip_prefix_app p s : strip_prefix p (p +:+ s) = Some s.
Proof. unfold strip_prefix. rewrite text_app, strip_codes_app. simpl. by rewrite of_text_text. Qed.

Lemma expected_parts u value error :
  expected_alternatives u = Ok (value, error) →
  error ∈ ordered_fields (u_alternatives u) ∧ ∀ v, value = Some v → v ∈ ordered_fields (u_alternatives u).
Proof.
  unfold expected_alternatives. destruct (ordered_fields (u_alternatives u)) as [|a [|b [|]]]; try done;
    destruct (_ && _); try done; intros [= <- <-]; set_solver.
Qed.

(** ** The toolchain

    What is documented of the crates: converted names have no [#], and words
    that make an identifier make one in capital letters; what parses as an
    identifier, or as a raw one after the prefix, is one. *)
Definition plain (name : string) : Prop := strip_prefix "r#" name = None.
Definition accepted `{Toolchain} (name : string) : Prop := parse_ident name = true ∨ parse_ident ("r#" +:+ name) = true.

Class ToolchainLaws `{Toolchain} := {
  camel_plain name : plain (to_upper_camel_case name);
  snake_plain name : plain (to_snake_case name);
  descriptor_ident a b :
    accepted (to_upper_camel_case a) → accepted (to_snake_case b) →
    ident_new ("__" +:+ to_shouty_snake_case a +:+ "_" +:+ to_shouty_snake_case b +:+ "_METHOD") = true;
  parsed_ident name : plain name → accepted name → ident_new name = true
}.

Section Facts.
Context `{TL : ToolchainLaws}.

Lemma rust_ident_Ok description name i :
  rust_ident description name = Ok i →
  (i = name ∨ i = "r#" +:+ name) ∧ accepted name ∧ ∀ description', rust_ident description' name = Ok i.
Proof.
  unfold rust_ident, accepted. destruct (parse_ident name) eqn:Hp; [intros [= <-]; by auto|].
  destruct (parse_ident ("r#" +:+ name)) eqn:Hr; [|done]. intros [= <-]. by auto.
Qed.

Lemma rust_ident_as description' description name i :
  rust_ident description name = Ok i → rust_ident description' name = Ok i.
Proof. intros (_ & _ & Hr)%rust_ident_Ok. apply Hr. Qed.

Lemma rust_ident_total description name : rust_ident description name ≠ Panic.
Proof. unfold rust_ident. by repeat case_match. Qed.

(** The name that an identifier stands for. *)
Lemma ident_unraw description name i : plain name → rust_ident description name = Ok i → unraw i = name.
Proof.
  intros Hp [[-> | ->] _]%rust_ident_Ok; unfold unraw; [by rewrite Hp|by rewrite strip_prefix_app].
Qed.

Lemma camel_unraw description name i :
  rust_ident description (to_upper_camel_case name) = Ok i → unraw i = to_upper_camel_case name.
Proof. apply ident_unraw, camel_plain. Qed.

Lemma plain_unraw name : plain name → unraw name = name.
Proof. unfold unraw. by intros ->. Qed.

(** A suffix that starts with neither [r] nor [#] leaves a name plain. *)
Lemma plain_suffix a b c l : plain a → text b = c :: l → c ≠ 35 → c ≠ 114 → plain (a +:+ b).
Proof.
  unfold plain, strip_prefix. rewrite text_app. change (text "r#") with [114; 35]. intros Ha -> H1 H2.
  destruct (text a) as [|x [|y t]]; cbn [strip_codes app] in *.
  - destruct (N.eqb_spec 114 c); [congruence|done].
  - destruct (N.eqb_spec 114 x); [|done]. destruct (N.eqb_spec 35 c); [congruence|done].
  - destruct (N.eqb_spec 114 x); [|done]. by destruct (N.eqb_spec 35 y).
Qed.

(** ** Types *)

(** The loop over the definitions of one kind: their names are new and
    different, and each passed its check. *)
Lemma register_types_Ok {X} (name : X → string) check s (l : list X) s' :
  register_types name check s l = Ok s' →
  NoDup (map (fun x => to_upper_camel_case (name x)) l) ∧
  (∀ n, n ∈ map (fun x => to_upper_camel_case (name x)) l → n ∉ s) ∧
  s' = list_to_set (map (fun x => to_upper_camel_case (name x)) l) ∪ s ∧
  Forall (fun x => check x = Ok tt ∧ ∃ i, rust_ident "type" (to_upper_camel_case (name x)) = Ok i) l.
Proof.
  revert s. unfold register_types, register_rust_type.
  induction l as [|x l IH]; intros s; simpl; [intros [= <-]; split_and!; [constructor|set_solver|set_solver|constructor]|].
  intros Hr. inv_ok Hr. apply insert_new_Ok in Hy0 as [Hnew ->]. destruct y2.
  apply IH in Hr as (Hn & Hf & -> & Hc). split_and!.
  - constructor; [|done]. intros Hin. apply (Hf _ Hin). set_solver.
  - intros z [->|Hz]%elem_of_cons; [done|]. specialize (Hf z Hz). set_solver.
  - set_solver.
  - constructor; [|done]. split; [done|]. by eexists.
Qed.

(** *** Definitions of any kind *)

Inductive Def :=
| DTypedef (t : Typedef)
| DEnum (e : Enum)
| DUnion (u : Union)
| DStruct (s : Struct).

Definition def_name (x : Def) : string :=
  match x with DTypedef t => td_name t | DEnum e => e_name e | DUnion u => u_name u | DStruct s => s_name s end.
Definition rust_name (x : Def) : string := to_upper_camel_case (def_name x).

Definition defs (d : Document) : list Def :=
  map DTypedef (typedefs d) ++ map DEnum (enums d) ++ map DUnion (unions d) ++ map DStruct (structs d).

Definition check_def (x : Def) : res CodegenError unit :=
  match x with
  | DTypedef t => ensure_non_void (td_target t) "typedef"
  | DEnum e => validate_enum e
  | DUnion u => validate_union u
  | DStruct s => validate_struct s
  end.

Definition generate_def (x : Def) : res CodegenError Item :=
  match x with
  | DTypedef t => generate_typedef t
  | DEnum e => generate_enum e
  | DUnion u => generate_union u
  | DStruct s => generate_struct s
  end.

(** What the loops over the definitions check. *)
Record types_valid (d : Document) (names : gset string) : Prop := {
  tv_names : NoDup (map rust_name (defs d));
  tv_set : names = list_to_set (map rust_name (defs d));
  tv_idents : ∀ x, x ∈ defs d → ∃ i, rust_ident "type" (rust_name x) = Ok i;
  tv_checked : ∀ x, x ∈ defs d → check_def x = Ok tt
}.

Lemma elem_of_defs x d :
  x ∈ defs d ↔ match x with
               | DTypedef t => t ∈ typedefs d
               | DEnum e => e ∈ enums d
               | DUnion u => u ∈ unions d
               | DStruct s => s ∈ structs d
               end.
Proof. unfold defs. rewrite !elem_of_app, !list_elem_of_fmap. destruct x; naive_solver. Qed.

Lemma validate_types_Ok d names : validate_types d = Ok names → types_valid d names.
Proof.
  unfold validate_types. intros Hv. inv_ok Hv.
  apply register_types_Ok in Hy as (N1 & F1 & -> & C1). apply register_types_Ok in Hy0 as (N2 & F2 & -> & C2).
  apply register_types_Ok in Hy1 as (N3 & F3 & -> & C3). apply register_types_Ok in Hv as (N4 & F4 & -> & C4).
  rewrite Forall_forall in C1. rewrite Forall_forall in C2. rewrite Forall_forall in C3. rewrite Forall_forall in C4.
  split.
  - unfold defs. rewrite !map_app, !map_map, !NoDup_app. split_and!; try done.
    + intros n Hn. rewrite !elem_of_app. intros [Hm|[Hm|Hm]]; [apply (F2 n Hm)|apply (F3 n Hm)|apply (F4 n Hm)]; set_solver.
    + intros n Hn. rewrite !elem_of_app. intros [Hm|Hm]; [apply (F3 n Hm)|apply (F4 n Hm)]; set_solver.
    + intros n Hn Hm. apply (F4 n Hm). set_solver.
  - unfold defs. rewrite !map_app, !map_map, !list_to_set_app_L. set_solver.
  - intros [] Hx%elem_of_defs; [by apply C1|by apply C2|by apply C3|by apply C4].
  - intros [] Hx%elem_of_defs; [by apply C1|by apply C2|by apply C3|by apply C4].
Qed.

Lemma generate_items_Ok d items :
  generate_items d = Ok items →
  ∃ types servers, items = types ++ servers ∧
    Forall2 (fun x i => generate_def x = Ok i) (defs d) types ∧
    Forall2 (fun s i => generate_service d s = Ok i) (services d) servers.
Proof.
  unfold generate_items. intros Hg. inv_ok Hg. apply collect_results_Ok in Hy, Hy0, Hy1, Hy2, Hy3.
  exists (y ++ y0 ++ y1 ++ y2), y3. rewrite <- !app_assoc. split_and!; [done| |done].
  unfold defs. repeat apply Forall2_app; by apply Forall2_fmap_l.
Qed.

(** ** Services *)

Definition route (d : Document) (x : Service * Function) : N := md5_hash32 (text (wire_name d x.1 x.2)).

(** The methods of all services, in the order of the document. *)
Definition service_methods (s : Service) : list (Service * Function) := map (pair s) (sv_functions s).
Definition methods (d : Document) : list (Service * Function) := mjoin (map service_methods (services d)).

Definition service_items (s : Service) : list string :=
  let name := to_upper_camel_case (sv_name s) in [name; name +:+ "Client"; name +:+ "Server"].

Definition method_valid (d : Document) (x : Service * Function) : Prop :=
  (∃ i, rust_ident "method" (to_snake_case (fn_name x.2)) = Ok i) ∧ validate_signature d x.1 x.2 = Ok tt.

Lemma elem_of_methods d s f : (s, f) ∈ methods d ↔ s ∈ services d ∧ f ∈ sv_functions s.
Proof.
  unfold methods. rewrite list_elem_of_join. split.
  - intros (l & Hf & (s' & -> & Hs)%list_elem_of_fmap). unfold service_methods in Hf.
    apply list_elem_of_fmap in Hf as (f' & [= -> ->] & Hf). done.
  - intros [Hs Hf]. exists (service_methods s). split; apply list_elem_of_fmap; [by exists f|by exists s].
Qed.

Lemma validate_functions_Ok d s fs : ∀ seen seen',
  try_fold (validate_function d s) seen fs = Ok seen' →
  Forall (method_valid d) (map (pair s) fs) ∧ NoDup (map (route d) (map (pair s) fs)) ∧
  (∀ r, r ∈ map (route d) (map (pair s) fs) → r ∉ dom (wire_routes seen.2)) ∧
  dom (wire_routes seen'.2) = list_to_set (map (route d) (map (pair s) fs)) ∪ dom (wire_routes seen.2).
Proof.
  induction fs as [|f fs IH]; intros seen seen'; simpl; [intros [= <-]; split_and!; [constructor|constructor|set_solver|set_solver]|].
  intros Hx. apply res_bind_Ok in Hx as (seen1 & Hf & Hx). apply IH in Hx as (HF & HN & Hnew & Hdom).
  unfold validate_function in Hf. destruct (existsb _ _); [done|]. inv_ok Hf. destruct y1.
  unfold add_wire in Hy2. inv_ok Hy2.
  destruct (wire_routes seen.2 !! md5_hash32 (text (wire_name d s f))) eqn:Hr; [done|]. injection Hy2 as <-. simpl in Hnew, Hdom.
  rewrite dom_insert_L in Hnew, Hdom. split_and!.
  - constructor; [|done]. split; [by eexists|done].
  - constructor; [|done]. intros Hin. apply (Hnew _ Hin). set_solver.
  - intros r [->|Hr']%elem_of_cons; [by apply not_elem_of_dom|]. specialize (Hnew r Hr'). set_solver.
  - rewrite Hdom. set_solver.
Qed.

Lemma insert_items_Ok items : ∀ seen seen',
  try_fold insert_item seen items = Ok seen' →
  NoDup items ∧ (∀ n, n ∈ items → n ∉ seen) ∧ seen' = list_to_set items ∪ seen ∧
  Forall (fun n => ∃ i, rust_ident "generated service item" n = Ok i) items.
Proof.
  induction items as [|n items IH]; intros seen seen'; simpl; [intros [= <-]; split_and!; [constructor|set_solver|set_solver|constructor]|].
  intros Hx. apply res_bind_Ok in Hx as (seen1 & Hi & Hx). unfold insert_item in Hi. inv_ok Hi.
  apply insert_new_Ok in Hi as [Hnew ->]. apply IH in Hx as (HN & Hf & -> & HF). split_and!.
  - constructor; [|done]. intros Hin. apply (Hf _ Hin). set_solver.
  - intros m [->|Hm]%elem_of_cons; [done|]. specialize (Hf m Hm). set_solver.
  - set_solver.
  - constructor; [by eexists|done].
Qed.

Record services_valid (d : Document) (l : list Service) (seen seen' : Seen) : Prop := {
  sv_methods : Forall (method_valid d) (mjoin (map service_methods l));
  sv_routes : NoDup (map (route d) (mjoin (map service_methods l)));
  sv_new_routes r : r ∈ map (route d) (mjoin (map service_methods l)) → r ∉ dom (wire_routes (wires seen));
  sv_names : NoDup (mjoin (map service_items l));
  sv_new_names n : n ∈ mjoin (map service_items l) → n ∉ generated_items seen;
  sv_idents n : n ∈ mjoin (map service_items l) → ∃ i, rust_ident "generated service item" n = Ok i
}.

Lemma validate_services_Ok d l : ∀ seen seen',
  try_fold (validate_service d) seen l = Ok seen' → services_valid d l seen seen'.
Proof.
  induction l as [|s l IH]; intros seen seen'; simpl; [intros _; split; simpl; try constructor; set_solver|].
  intros Hx. apply res_bind_Ok in Hx as (seen1 & Hs & Hx). apply IH in Hx as [M R NR Nm NN Id].
  unfold validate_service in Hs. inv_ok Hs. apply insert_items_Ok in Hy0 as (HN & Hf & -> & HF).
  apply validate_functions_Ok in Hy1 as (HM & HR & Hnew & Hdom). simpl in *. rewrite Hdom in NR.
  rewrite Forall_forall in HF. split; simpl; rewrite ?map_app.
  - by apply Forall_app.
  - apply NoDup_app. split_and!; [done| |done]. intros r Hr Hr'. apply (NR r Hr'). set_solver.
  - intros r [Hr|Hr]%elem_of_app; [by apply Hnew|]. specialize (NR r Hr). set_solver.
  - apply (NoDup_app (service_items s)). split_and!; [done| |done]. intros n Hn Hn'. apply (NN n Hn'). set_solver.
  - intros n [Hn|Hn]%(elem_of_app (service_items s)); [by apply Hf|]. specialize (NN n Hn). set_solver.
  - intros n [Hn|Hn]%(elem_of_app (service_items s)); [by apply HF|by apply Id].
Qed.
End Facts.
