(* ===== verification/CodegenTypes.v ===== *)
(** * Generated literals are the runtime's

    The type literal that the generator computes from the document is the one
    that the [StructPack] implementation of the generated Rust type appends. *)
From S2P Require Import Prelude Wire StructPack StructPackLaws ThriftParse Codegen GeneratedTypes CodegenFacts.
Import Thrift.

Lemma by_name_lookup {X} (name : X → string) l k x : by_name name l !! k = Some x → x ∈ l ∧ name x = k.
Proof.
  unfold by_name. assert (∀ m : gmap string X, foldl (fun m x => <[name x := x]> m) m l !! k = Some x →
    (x ∈ l ∧ name x = k) ∨ m !! k = Some x) as Hg.
  { induction l as [|y l IH]; intros m; simpl; [by right|]. intros [[Hx Hn]|Hm]%IH; [left; set_solver|].
    apply lookup_insert_Some in Hm as [[<- <-]|[_ Hm]]; [left; set_solver|by right]. }
  intros [?|Hm]%Hg; [done|]. by rewrite lookup_empty in Hm.
Qed.

Lemma size_by_name {X} (name : X → string) l : (size (by_name name l) <= length l)%nat.
Proof.
  unfold by_name. assert (∀ m : gmap string X, (size (foldl (fun m x => <[name x := x]> m) m l) <= size m + length l)%nat) as Hg.
  { induction l as [|x l IH]; intros m; simpl; [lia|]. pose proof (IH (<[name x := x]> m)) as Hs.
    destruct (m !! name x) eqn:Hm.
    - rewrite map_size_insert_Some in Hs by (by eexists). lia.
    - rewrite map_size_insert_None in Hs by done. lia. }
  pose proof (Hg ∅) as Hs. rewrite map_size_empty in Hs. lia.
Qed.

Lemma mapM_zip {X A B} (f : A → option B) (names : list X) types :
  length names = length types → mapM (fun a => f a.2) (zip names types) = mapM f types.
Proof.
  revert types. induction names as [|n names IH]; intros [|t types]; simpl; try done.
  intros [= Hl]. by rewrite IH.
Qed.

Lemma collect_length {E X Y} (f : X → res E Y) l ys : collect_results f l = Ok ys → length ys = length l.
Proof. intros Hl%collect_results_Ok. by symmetry; eapply Forall2_length. Qed.

Lemma literal_fields ps : literal_of (p_fields ps) = mjoin (map literal_of ps).
Proof. induction ps as [|p ps IH]; [done|]. simpl. rewrite <- IH. done. Qed.

Section Agreement.
Context `{TL : ToolchainLaws} (d : Document) (items : list Item) (names : gset string).
Context (Hv : types_valid d names) (Href : validate_references d = Ok tt) (Hgen : generate_items d = Ok items).
(** The values of variants are [i32]s, and the identifiers are of bounded length. *)
Context (Hi32 : ∀ e v, e ∈ enums d → v ∈ e_variants e → in_i32 (v_value v) = true).
Context (Hname : ∀ i n, i ∈ items → n ∈ item_names i → name_ok (text n)).

Let sc := TypeSchemas_new d.

(** ** Names *)

Lemma generate_def_name x i :
  generate_def x = Ok i → ∃ n, item_names i = [n] ∧ rust_ident "type" (rust_name x) = Ok n.
Proof.
  unfold rust_name. destruct x as [t|e|u|s]; simpl; intros Hg;
    unfold generate_typedef, generate_enum, generate_union, generate_struct in Hg.
  1, 2, 4: inv_ok Hg; eexists; (split; [done|]); by eapply rust_ident_as.
  apply res_bind_Ok in Hg as (n & Hn & Hg). exists n. split; [|by eapply rust_ident_as].
  destruct (u_expected u); inv_ok Hg; [|done]. destruct y as [v e]. inv_ok Hg. done.
Qed.

Lemma find_item l types servers x i m description :
  Forall2 (fun x i => generate_def x = Ok i) l types → NoDup (map rust_name l) → x ∈ l →
  generate_def x = Ok i → rust_ident description (rust_name x) = Ok m →
  List.find (declares m) (types ++ servers) = Some i.
Proof.
  intros Hl Hn Hx Hi Hm. induction Hl as [|y j l types Hj Hl IH]; [by apply elem_of_nil in Hx|].
  destruct (generate_def_name y j Hj) as (n & Hjn & Hrn). unfold rust_name in Hm, Hrn.
  assert (declares m j = (to_upper_camel_case (def_name y) =s to_upper_camel_case (def_name x))) as Hd.
  { unfold declares. rewrite Hjn. simpl. by rewrite (camel_unraw _ _ _ Hrn), (camel_unraw _ _ _ Hm), orb_false_r. }
  cbn [List.find app]. rewrite Hd.
  apply NoDup_cons in Hn as [Hny Hn]. apply elem_of_cons in Hx as [->|Hx].
  - rewrite String.eqb_refl. congruence.
  - destruct (String.eqb_spec (to_upper_camel_case (def_name y)) (to_upper_camel_case (def_name x))) as [He|_]; [|by apply IH].
    destruct Hny. apply list_elem_of_fmap. by exists x.
Qed.

(** The item of a definition, and that its name finds it. *)
Lemma def_item x :
  x ∈ defs d → ∃ i n, generate_def x = Ok i ∧ i ∈ items ∧ item_names i = [n] ∧
    (∀ description, rust_ident description (rust_name x) = Ok n) ∧ List.find (declares n) items = Some i.
Proof.
  intros Hx. destruct (generate_items_Ok d items Hgen) as (types & servers & -> & Hl & _).
  destruct (Forall2_elem_l _ _ _ _ Hl Hx) as (i & Hi & Hg).
  destruct (generate_def_name x i Hg) as (n & Hn & Hr). exists i, n. split_and!; [done|set_solver|done| |].
  - intros description. by eapply rust_ident_as.
  - eapply find_item; [done|apply Hv|done..].
Qed.

(** ** Enums *)

Lemma enum_item e : e ∈ enums d →
  ∃ n p, (∀ description, rust_ident description (to_upper_camel_case (e_name e)) = Ok n) ∧
    (∀ k, rust_type_at items (S k) (RPath n) = Some p) ∧
    literal_of p = [match e_repr e with ReprI32 => TYPE_INT32 | ReprU8 => TYPE_UINT8 end] ∧ is_Some (pk_ord p).
Proof.
  intros He. destruct (def_item (DEnum e)) as (i & n & Hi & Hin & Hn & Hr & Hf); [by apply elem_of_defs|].
  simpl in Hi. unfold generate_enum in Hi. inv_ok Hi. simpl in Hn. injection Hn as ->.
  assert (Forall (fun z => fits_repr (e_repr e) z = true) y1) as Hfit.
  { apply Forall_forall. intros z Hz. apply collect_results_Ok in Hy1.
    destruct (Forall2_elem_r _ _ _ _ Hy1 Hz) as (v & Hvi & Hvz).
    unfold repr_value in Hvz. destruct (e_repr e); simpl in *; [injection Hvz as <-; by eapply Hi32|].
    destruct (in_u8 (v_value v)) eqn:Hu; [|done]. by injection Hvz as <-. }
  assert (enum_ok (text n) (e_repr e) (zip y0 y1).*2) as Hok.
  { rewrite snd_zip by (apply collect_length in Hy0, Hy1; lia). split; [|done].
    eapply Hname; [exact Hin|]. simpl. set_solver. }
  destruct (decide (enum_ok (text n) (e_repr e) (zip y0 y1).*2)) as [Hd|] eqn:Hdec; [|done].
  eexists n, _. split; [done|]. split.
  { intros k. rewrite resolve_path, Hf. cbn [mbind option_bind item_type]. unfold p_enum. by rewrite Hdec. }
  split; [by destruct (e_repr e)|by eexists].
Qed.

(** ** Orders *)

Definition ordered_type (m : nat) (stack : list string) (t : Ty) : Prop := ∀ r k p,
  ord_at sc m stack t = Some true → rust_type_of t = Ok r → rust_type_at items k r = Some p → is_Some (pk_ord p).

Lemma ordered_by_names m stack : (∀ name, ordered_type m stack (Named name)) → ∀ t, ordered_type m stack t.
Proof.
  intros Hn t. induction t as [| | | | | | | | | | | | | |v IHv|v IHv|a IHa v IHv|name]; [..|apply Hn];
    intros r k p Ho Hr Hp; simpl in Hr; try (by destruct m);
    try (injection Hr as <-; destruct k; injection Hp as <-; by eexists).
  - inv_ok Hr. rewrite ord_list in Ho. rewrite resolve_vec in Hp. apply bind_Some in Hp as (q & Hq & [= <-]).
    destruct (IHv _ _ _ Ho Hy Hq) as [o Ho']. simpl. rewrite Ho'. by eexists.
  - inv_ok Hr. rewrite resolve_set in Hp. apply bind_Some in Hp as (q & Hq & Hp). unfold p_set in Hp.
    apply bind_Some in Hp as (o & _ & [= <-]). by eexists.
  - inv_ok Hr. rewrite ord_map in Ho. destruct (ord_at sc m stack a) as [[]|] eqn:Ha; try done.
    rewrite resolve_map in Hp. apply bind_Some in Hp as (q & Hq & Hp). apply bind_Some in Hp as (q' & Hq' & Hp).
    unfold p_map in Hp. apply bind_Some in Hp as (o & _ & [= <-]).
    destruct (IHv _ _ _ Ho Hy0 Hq') as [o' Ho']. simpl. rewrite Ho'. by eexists.
Qed.

Lemma ordered_enum m stack name e : sc_enums sc !! name = Some e → ordered_type m stack (Named name).
Proof.
  intros [He <-]%by_name_lookup r k p _ Hr Hp. destruct (enum_item e He) as (n & q & Hn & Hq & _ & Ho).
  simpl in Hr. rewrite Hn in Hr. injection Hr as <-. destruct k as [|k]; [done|]. rewrite Hq in Hp. by injection Hp as <-.
Qed.

(** What the check accepts as a key has an order. *)
Lemma ord_agrees m : ∀ stack t, ordered_type m stack t.
Proof.
  induction m as [|m IH]; intros stack; apply ordered_by_names; intros name;
    (destruct (sc_enums sc !! name) as [e|] eqn:He; [by eapply ordered_enum|]);
    intros r k p Ho Hr Hp; cbn [ord_at] in Ho; rewrite He in Ho;
    (destruct (existsb (String.eqb name) stack); [done|]);
    (destruct (sc_typedefs sc !! name) as [t|] eqn:Ht; [|done]); [done|].
  apply by_name_lookup in Ht as [Ht <-].
  destruct (def_item (DTypedef t)) as (i & n & Hi & _ & _ & Hn & Hf); [by apply elem_of_defs|].
  simpl in Hr. unfold rust_name in Hn. simpl in Hn. rewrite Hn in Hr. injection Hr as <-.
  destruct k as [|k]; [done|]. rewrite resolve_path, Hf in Hp. simpl in Hi. unfold generate_typedef, rust_type in Hi.
  inv_ok Hi. by apply (IH _ _ _ _ _ Ho Hy1 Hp).
Qed.

(** ** Literals *)

Definition ordered (t : Ty) : Prop := validate_ordered_containers sc t = Ok tt.

(** The generated type of [t] has the literal [l]. *)
Definition resolves (depth : nat) (t : Ty) (l : bytes) : Prop :=
  ∃ r p, rust_type_of t = Ok r ∧ rust_type_at items depth r = Some p ∧ literal_of p = l.

Lemma key_ordered t r k p :
  is_rust_ord sc t = Ok true → rust_type_of t = Ok r → rust_type_at items k r = Some p → ∃ o, pk_ord p = Some o.
Proof.
  unfold is_rust_ord. destruct (ord_at sc (max_depth sc) [] t) as [b|] eqn:Ho; [|done]. intros [= ->] Hr Hp.
  by apply (ord_agrees _ _ _ _ _ _ Ho Hr Hp).
Qed.

Lemma resolves_by_names n stack depth :
  (∀ name l, literal_at sc n stack (Named name) = Ok l → resolves depth (Named name) l) →
  ∀ t l, literal_at sc n stack t = Ok l → ordered t → resolves depth t l.
Proof.
  intros Hn t. unfold ordered, resolves.
  induction t as [| | | | | | | | | | | | | |v IHv|v IHv|a IHa v IHv|name]; intros l Hl Ho; [..|by apply Hn];
    try (destruct n; injection Hl as <-; destruct depth; by eexists _, _).
  - rewrite literal_list in Hl. inv_ok Hl. destruct (IHv y Hy Ho) as (r & p & Hr & Hp & <-).
    exists (RVec r), (p_vec p). simpl. rewrite Hr, resolve_vec, Hp. done.
  - rewrite literal_set in Hl. inv_ok Hl. simpl in Ho. apply res_bind_Ok in Ho as ([] & Hk & Ho); [|done].
    destruct (IHv y Hy Ho) as (r & p & Hr & Hp & <-). destruct (key_ordered _ _ _ _ Hk Hr Hp) as [o Hpo].
    eexists (RBTreeSet r), _. simpl. rewrite Hr, resolve_set, Hp. cbn [mbind option_bind]. unfold p_set.
    by rewrite Hpo.
  - rewrite literal_map in Hl. inv_ok Hl. simpl in Ho. apply res_bind_Ok in Ho as ([] & Hk & Ho); [|done].
    apply res_bind_Ok in Ho as ([] & Hoa & Ho).
    destruct (IHa y Hy Hoa) as (r & p & Hr & Hp & <-). destruct (IHv y0 Hy0 Ho) as (r' & p' & Hr' & Hp' & <-).
    destruct (key_ordered _ _ _ _ Hk Hr Hp) as [o Hpo]. eexists (RBTreeMap r r'), _. simpl.
    rewrite Hr. simpl. rewrite Hr', resolve_map, Hp. cbn [mbind option_bind]. rewrite Hp'. cbn [mbind option_bind].
    unfold p_map. by rewrite Hpo.
Qed.

(** Fields, each optional or not, one after the other. *)
Lemma fields_agree (optional : Field → bool) (lit : Ty → res CodegenError bytes) depth fs bs :
  (∀ f l, f ∈ fs → lit (f_type f) = Ok l → resolves depth (f_type f) l) →
  Forall2 (fun f b => res_map (app (optional_prefix (optional f))) (lit (f_type f)) = Ok b) fs bs →
  ∃ types ps, collect_results (fun f => rust_type (f_type f) (optional f)) fs = Ok types ∧
    mapM (rust_type_at items depth) types = Some ps ∧ map literal_of ps = bs.
Proof.
  intros Hlit Hl. induction Hl as [|f b fs bs Hf _ IH]; [by exists [], []|].
  inv_ok Hf. destruct (Hlit f y ltac:(by left) Hf) as (r & p & Hr & Hp & <-).
  destruct IH as (types & ps & Ht & Hps & <-); [intros; apply Hlit; [by right|done]|].
  assert (rust_type (f_type f) (optional f) = Ok (if optional f then ROption r else r)) as Hrt
    by (unfold rust_type; by rewrite Hr).
  cbn [collect_results]. rewrite Hrt, Ht. cbn [res_bind]. destruct (optional f).
  - eexists _, (p_option p :: ps). split; [done|]. simpl. rewrite resolve_option, Hp. simpl. by rewrite Hps.
  - eexists _, (p :: ps). split; [done|]. simpl. rewrite Hp. simpl. by rewrite Hps.
Qed.

(** *** Definitions *)

Definition def_types (x : Def) : list Ty :=
  match x with
  | DTypedef t => [td_target t]
  | DEnum _ => []
  | DUnion u => map f_type (u_alternatives u)
  | DStruct s => map f_type (s_fields s)
  end.

Lemma def_ordered x t : x ∈ defs d → t ∈ def_types x → ordered t.
Proof.
  assert (∀ t, validate_reference d t = Ok tt → ordered t) as Hr.
  { intros t'. unfold validate_reference, ordered. intros Hx. inv_ok Hx. done. }
  assert (∀ fs t, each_ok (fun f => validate_reference d (f_type f)) fs = Ok tt → t ∈ map f_type fs → ordered t) as Hfs.
  { intros fs t'. rewrite each_ok_Ok, Forall_forall. intros Hf (f & -> & Hin)%list_elem_of_fmap. by apply Hr, Hf. }
  pose proof Href as Hx. unfold validate_references in Hx. inv_ok Hx. destruct y, y0.
  rewrite each_ok_Ok, Forall_forall in Hy. rewrite each_ok_Ok, Forall_forall in Hy0.
  rewrite each_ok_Ok, Forall_forall in Hx.
  destruct x as [td|e|u|st]; intros Hin%elem_of_defs Ht; simpl in Ht.
  - apply list_elem_of_singleton in Ht as ->. by apply Hr, Hy.
  - by apply elem_of_nil in Ht.
  - eapply Hfs; [|exact Ht]. by apply Hx.
  - eapply Hfs; [|exact Ht]. by apply Hy0.
Qed.

Section Definition_.
Context (depth : nat) (lit : Ty → res CodegenError bytes).
Context (Hlit : ∀ t l, lit t = Ok l → ordered t → resolves depth t l).

(** The literal of the type that the item of [x] defines. *)
Definition defines (x : Def) (l : bytes) : Prop := ∀ i,
  i ∈ items → generate_def x = Ok i → ∃ p, item_type (rust_type_at items depth) i = Some p ∧ literal_of p = l.

Lemma typedef_defines t l : t ∈ typedefs d → lit (td_target t) = Ok l → defines (DTypedef t) l.
Proof.
  intros Ht Hl i _ Hi. destruct (Hlit _ _ Hl) as (r & p & Hr & Hp & <-).
  { apply (def_ordered (DTypedef t)); [by apply elem_of_defs|by left]. }
  simpl in Hi. unfold generate_typedef, rust_type in Hi. rewrite Hr in Hi. inv_ok Hi. by exists p.
Qed.

Lemma ordered_field_types x f fs : x ∈ defs d → def_types x = map f_type fs → f ∈ ordered_fields fs → ordered (f_type f).
Proof.
  intros Hx Ht Hf. apply (def_ordered x); [done|]. rewrite Ht. apply list_elem_of_fmap.
  exists f. split; [done|]. unfold ordered_fields in Hf. by rewrite elem_of_sort_by_key in Hf.
Qed.

Lemma struct_defines s l : s ∈ structs d →
  (let? fields := concat_results (field_literal lit) (ordered_fields (s_fields s)) in
   Ok ([TYPE_STRUCT] ++ fields ++ (if s_cpp_u64_pair s then [137; 137] else []) ++ [TYPE_END])) = Ok l →
  defines (DStruct s) l.
Proof.
  intros Hs Hl i _ Hi. assert (DStruct s ∈ defs d) as Hx by (by apply elem_of_defs). inv_ok Hl.
  apply concat_results_Ok in Hy as (bs & Hbs & ->).
  destruct (fields_agree f_optional lit depth (ordered_fields (s_fields s)) bs) as (types & ps & Ht & Hps & <-);
    [intros f l Hf Hl; apply Hlit; [done|by eapply (ordered_field_types (DStruct s))]|exact Hbs|].
  simpl in Hi. unfold generate_struct, typed_fields in Hi. rewrite Ht in Hi. inv_ok Hi. simpl.
  rewrite mapM_zip by (apply collect_length in Ht, Hy1; lia). rewrite Hps. cbn [mbind option_bind].
  pose proof (tv_checked _ _ Hv _ Hx) as Hc. simpl in Hc. unfold validate_struct in Hc.
  destruct ps as [|p ps].
  { apply collect_length in Ht. apply length_mapM in Hps. simpl in Hps. unfold ordered_fields in Ht.
    rewrite sort_by_key_perm in Ht. destruct (s_fields s); [done|]. simpl in Ht. lia. }
  eexists. split; [done|]. destruct (s_cpp_u64_pair s); unfold literal_of.
  - change (StructPack.type_literal (carrier (p_pair_struct (p :: ps)))) with
      ([TYPE_STRUCT] ++ literal_of (p_fields (p :: ps)) ++ [137; 137; TYPE_END]).
    by rewrite literal_fields.
  - change (StructPack.type_literal (carrier (p_struct (p :: ps)))) with
      ([TYPE_STRUCT] ++ literal_of (p_fields (p :: ps)) ++ [TYPE_END]).
    by rewrite literal_fields.
Qed.

Lemma expected_defines u l : u ∈ unions d → u_expected u = true →
  (let? (value, error) := expected_alternatives u in
   let? v := match value with Some v => lit (f_type v) | None => Ok [TYPE_MONOSTATE] end in
   let? e := lit (f_type error) in
   Ok ([TYPE_EXPECTED] ++ v ++ e)) = Ok l →
  defines (DUnion u) l.
Proof.
  intros Hu He Hl i _ Hi. assert (DUnion u ∈ defs d) as Hx by (by apply elem_of_defs).
  apply res_bind_Ok in Hl as ([value error] & Hp & Hl). destruct (expected_parts _ _ _ Hp) as [Hpe Hpv]. inv_ok Hl.
  destruct (Hlit (f_type error) y0 Hy0) as (r & p & Hr & Hrp & <-); [by eapply (ordered_field_types (DUnion u))|].
  assert (∃ rv pv, match value with Some v => rust_type (f_type v) false | None => Ok RUnit end = Ok rv ∧
    rust_type_at items depth rv = Some pv ∧ literal_of pv = y) as (rv & pv & Hrv & Hpvr & <-).
  { destruct value as [v|]; [|injection Hy as <-; exists RUnit, (pk unit); by destruct depth].
    destruct (Hlit (f_type v) y Hy) as (rv & pv & Hrv & Hpvr & <-);
      [eapply (ordered_field_types (DUnion u)); [done..|by apply Hpv]|].
    exists rv, pv. unfold rust_type. by rewrite Hrv. }
  simpl in Hi. unfold generate_union in Hi. rewrite He, Hp in Hi. apply res_bind_Ok in Hi as (n & Hn & Hi).
  cbn [res_bind] in Hi. rewrite Hrv in Hi. cbn [res_bind] in Hi. unfold rust_type in Hi. rewrite Hr in Hi.
  injection Hi as <-. exists (p_result pv p). simpl. rewrite resolve_result, Hpvr, Hrp. done.
Qed.

Lemma indices_seq n idx : collect_results variant_index (seq 0 n) = Ok idx →
  idx = map N.of_nat (seq 0 n) ∧ (n <= 256)%nat.
Proof.
  intros Hi%collect_results_Ok. split.
  - revert Hi. generalize (seq 0 n). intros l. induction 1 as [|i x l idx Hx _ IH]; [done|]. simpl.
    unfold variant_index in Hx. destruct (i <=? 255)%nat; [|done]. injection Hx as <-. by rewrite <- IH.
  - destruct (decide (n <= 256)%nat); [done|].
    destruct (Forall2_elem_l _ _ _ 256%nat Hi) as (y & _ & Hy); [|done]. apply elem_of_seq. lia.
Qed.

Lemma variant_defines u l : u ∈ unions d → u_expected u = false →
  (let? alternatives := concat_results (fun f => lit (f_type f)) (ordered_fields (u_alternatives u)) in
   Ok ([TYPE_VARIANT] ++ alternatives ++ [TYPE_END])) = Ok l →
  defines (DUnion u) l.
Proof.
  intros Hu He Hl i Hin Hi. assert (DUnion u ∈ defs d) as Hx by (by apply elem_of_defs). inv_ok Hl.
  apply concat_results_Ok in Hy as (bs & Hbs & ->).
  destruct (fields_agree (fun _ => false) lit depth (ordered_fields (u_alternatives u)) bs) as (types & ps & Ht & Hps & <-).
  { intros f l Hf Hl. apply Hlit; [done|by eapply (ordered_field_types (DUnion u))]. }
  { eapply Forall2_impl; [exact Hbs|]. intros f b Hf. simpl. by rewrite Hf. }
  simpl in Hi. unfold generate_union in Hi. rewrite He, Ht in Hi. inv_ok Hi. apply indices_seq in Hy1 as [-> Hn].
  pose proof (collect_length _ _ _ Hy0) as Hl0. pose proof (collect_length _ _ _ Ht) as Hlt.
  pose proof (length_mapM _ _ _ Hps) as Hlp.
  assert (length (map N.of_nat (seq 0 (length (ordered_fields (u_alternatives u))))) = length y0) as Hls
    by (rewrite length_map, length_seq; lia).
  assert (variant_ok (text y) ps) as Hok by (split; [eapply Hname; [exact Hin|by left]|lia]).
  simpl. rewrite bool_decide_eq_true_2.
  - rewrite mapM_zip by (rewrite length_zip_with; lia). rewrite Hps. cbn [mbind option_bind]. unfold p_variant.
    destruct (decide (variant_ok (text y) ps)); [|done]. eexists. split; [done|]. done.
  - rewrite !length_zip_with. replace (_ `min` _ `min` _)%nat with (length (ordered_fields (u_alternatives u))) by lia.
    rewrite <- (map_map fst snd). rewrite fst_zip by (rewrite length_zip_with; lia). by rewrite snd_zip by lia.
Qed.

Lemma defined_name x l : x ∈ defs d → defines x l → resolves (S depth) (Named (def_name x)) l.
Proof.
  intros Hx Hd. destruct (def_item x Hx) as (i & n & Hi & Hin & _ & Hn & Hf).
  destruct (Hd i Hin Hi) as (p & Hp & Hl). exists (RPath n), p. split; [simpl; unfold rust_name in Hn; by rewrite Hn|].
  split; [|done]. by rewrite resolve_path, Hf.
Qed.

Lemma definition_resolves name l : definition_literal sc lit name = Ok l → resolves (S depth) (Named name) l.
Proof.
  unfold definition_literal. destruct (sc_typedefs sc !! name) as [t|] eqn:Ht.
  { apply by_name_lookup in Ht as [Ht <-]. intros Hl.
    apply (defined_name (DTypedef t)); [by apply elem_of_defs|by apply typedef_defines]. }
  destruct (sc_structs sc !! name) as [s|] eqn:Hs.
  { apply by_name_lookup in Hs as [Hs <-]. intros Hl.
    apply (defined_name (DStruct s)); [by apply elem_of_defs|by apply struct_defines]. }
  destruct (sc_unions sc !! name) as [u|] eqn:Hu; [|done]. apply by_name_lookup in Hu as [Hu <-].
  destruct (u_expected u) eqn:He; intros Hl; (apply (defined_name (DUnion u)); [by apply elem_of_defs|]);
    [by apply expected_defines|by apply variant_defines].
Qed.
End Definition_.

(** Every literal that is computed is that of the generated type. *)
Lemma literal_resolves n : ∀ stack t l, literal_at sc n stack t = Ok l → ordered t → resolves (S n) t l.
Proof.
  induction n as [|n IH]; intros stack; apply resolves_by_names; intros name l Hl;
    cbn [literal_at] in Hl; destruct (sc_enums sc !! name) as [e|] eqn:He.
  1, 3: apply by_name_lookup in He as [He <-]; injection Hl as <-;
        destruct (enum_item e He) as (i & p & Hi & Hp & Hlit & _);
        exists (RPath i), p; simpl rust_type_of; by rewrite Hi, Hp.
  - by destruct (existsb (String.eqb name) stack).
  - destruct (existsb (String.eqb name) stack); [done|]. eapply definition_resolves; [|exact Hl]. apply IH.
Qed.

(** *** The depth of names *)

Lemma depth_enough : (S (max_depth sc) <= S (S (length items)))%nat.
Proof.
  destruct (generate_items_Ok d items Hgen) as (types & servers & -> & Hl & _).
  apply Forall2_length in Hl. rewrite length_app, <- Hl. unfold defs. rewrite !length_app, !length_map.
  unfold max_depth. simpl. pose proof (size_by_name td_name (typedefs d)).
  pose proof (size_by_name s_name (structs d)). pose proof (size_by_name u_name (unions d)). lia.
Qed.

Lemma type_literal_resolves t optional stack l :
  type_literal sc t optional stack = Ok l → ordered t →
  ∃ r p, rust_type t optional = Ok r ∧ resolve items r = Some p ∧ literal_of p = l.
Proof.
  intros Hl Ho. unfold type_literal in Hl. inv_ok Hl.
  destruct (literal_resolves _ _ _ _ Hl Ho) as (r & p & Hr & Hp & <-).
  apply (rust_type_at_mono _ _ _ _ _ depth_enough) in Hp. unfold rust_type. rewrite Hr. simpl.
  unfold resolve. destruct optional; [|by exists r, p]. exists (ROption r), (p_option p).
  split; [done|]. by rewrite resolve_option, Hp.
Qed.
End Agreement.
