(* ===== verification/CodegenTotal.v ===== *)
(** * Validation is total and complete

    Validation never panics, and what it accepts is generated: no later step
    fails but the conversion of the namespace to module names. *)
From S2P Require Import Prelude Wire StructPack ThriftParse ThriftProps Codegen GeneratedTypes CodegenFacts CodegenTypes.
Import Thrift.

(** ** Validation *)

#[export] Hint Resolve insert_new_total rust_ident_total type_literal_total : total.

Lemma ensure_non_void_total t owner : ensure_non_void t owner ≠ Panic.
Proof. induction t; simpl; total. Qed.
Lemma references_total t known : validate_type_references t known ≠ Panic.
Proof. induction t; simpl; total. Qed.
Lemma is_rust_ord_total sc t : is_rust_ord sc t ≠ Panic.
Proof.
  unfold is_rust_ord. destruct (ord_stable sc _ _ [] t (unopened_small sc []) (unopened_small sc [])) as [[b ->] _]. done.
Qed.
#[export] Hint Resolve ensure_non_void_total references_total is_rust_ord_total : total.
Lemma ordered_total sc t : validate_ordered_containers sc t ≠ Panic.
Proof. induction t; simpl; total. Qed.
Lemma expected_total u : expected_alternatives u ≠ Panic.
Proof. unfold expected_alternatives. total. Qed.
Lemma request_literal_total sc fs stack : request_type_literal sc fs stack ≠ Panic.
Proof.
  unfold request_type_literal, concat_results. destruct (ordered_fields fs) as [|f [|]]; total;
    (apply collect_total, Forall_true; intros ?; apply type_literal_total).
Qed.
#[export] Hint Resolve ordered_total expected_total request_literal_total : total.

Section Total.
Context `{Toolchain}.

Lemma validate_fields_total fs owner : validate_fields fs owner ≠ Panic.
Proof. unfold validate_fields, validate_field. total. Qed.
#[local] Hint Resolve validate_fields_total : total.

Lemma validate_reference_total d t : validate_reference d t ≠ Panic.
Proof. unfold validate_reference. total. Qed.
#[local] Hint Resolve validate_reference_total : total.

Lemma validate_types_total d : validate_types d ≠ Panic.
Proof.
  unfold validate_types, register_types, register_rust_type, validate_enum, validate_union, validate_struct,
    validate_variant, validate_alternative, validate_cpp_u64_pair. total.
Qed.

Lemma validate_service_total d seen s : validate_service d seen s ≠ Panic.
Proof. unfold validate_service, validate_function, validate_signature, add_wire, insert_item. total. Qed.
#[local] Hint Resolve validate_types_total validate_service_total : total.

Lemma validate_total d : validate d ≠ Panic.
Proof. unfold validate, validate_references, validate_literals. total. Qed.
End Total.

(** ** What is accepted is generated *)

Section Complete.
Context `{TL : ToolchainLaws} (d : Document) (Hok : validate d = Ok tt).

Record validated : Prop := {
  va_types : ∃ names, types_valid d names ∧ ∃ seen, services_valid d (services d) (mkSeen names ∅ (mkWires ∅ ∅)) seen;
  va_references : validate_references d = Ok tt;
  va_literals : validate_literals d = Ok tt
}.

Lemma validate_parts : validated.
Proof.
  pose proof Hok as Hv. unfold validate in Hv. inv_ok Hv. destruct y0. split; [|done..].
  exists y. split; [by apply validate_types_Ok|]. exists y1. by apply validate_services_Ok.
Qed.

Let known : gset string := known_types d.

Lemma elem_of_known name : name ∈ known ↔ ∃ x, x ∈ defs d ∧ def_name x = name.
Proof.
  unfold known, known_types. rewrite elem_of_list_to_set, !elem_of_app, !list_elem_of_fmap. split.
  - intros [(x & -> & Hx)|[(x & -> & Hx)|[(x & -> & Hx)|(x & -> & Hx)]]];
      [exists (DTypedef x)|exists (DEnum x)|exists (DUnion x)|exists (DStruct x)]; by rewrite elem_of_defs.
  - intros ([x|x|x|x] & Hx%elem_of_defs & <-); [left|right; left|do 2 right; left|do 3 right]; by exists x.
Qed.

Lemma rust_type_of_known t : validate_type_references t known = Ok tt → ∃ r, rust_type_of t = Ok r.
Proof.
  destruct validate_parts as [(names & Hv & _) _ _].
  induction t as [| | | | | | | | | | | | | |v IHv|v IHv|k IHk v IHv|name]; simpl; try (by eexists).
  - intros Hr. destruct (IHv Hr) as [r ->]. by eexists.
  - intros Hr. destruct (IHv Hr) as [r ->]. by eexists.
  - intros Hr. apply res_bind_Ok in Hr as ([] & Hk & Hr). destruct (IHk Hk) as [r ->], (IHv Hr) as [r' ->]. by eexists.
  - destruct (decide (name ∈ known)) as [Hn|]; [|done]. intros _. apply elem_of_known in Hn as (x & Hx & <-).
    destruct (tv_idents _ _ Hv x Hx) as [i Hi]. unfold rust_name in Hi.
    rewrite (rust_ident_as "type reference" _ _ _ Hi). by eexists.
Qed.

Lemma rust_type_known t optional : validate_reference d t = Ok tt → ∃ r, rust_type t optional = Ok r.
Proof.
  unfold validate_reference. intros Hr. inv_ok Hr. destruct y. destruct (rust_type_of_known t) as [r Hrt]; [done|].
  unfold rust_type. rewrite Hrt. by eexists.
Qed.

(** Fields that were checked have names. *)
Lemma fields_named description fs owner :
  validate_fields fs owner = Ok tt →
  ∃ ns, collect_results (fun f => rust_ident description (to_snake_case (f_name f))) (ordered_fields fs) = Ok ns.
Proof.
  unfold validate_fields. intros Hf. apply res_map_Ok in Hf as (seen & Hf & _). apply collect_all. intros f Hin.
  unfold ordered_fields in Hin. rewrite elem_of_sort_by_key in Hin.
  apply (try_fold_inv _ (fun _ l => Forall (fun f => ∃ i, rust_ident "field" (to_snake_case (f_name f)) = Ok i) l)) in Hf;
    [|intros s1 l1 x s2 Hd Hx; apply Forall_app; split; [done|]; constructor; [|constructor];
      unfold validate_field in Hx; inv_ok Hx; by eexists|constructor].
  rewrite Forall_forall in Hf. destruct (Hf f Hin) as [i Hi]. exists i. by eapply rust_ident_as.
Qed.

Lemma types_known optional fs :
  each_ok (fun f => validate_reference d (f_type f)) fs = Ok tt →
  ∃ rs, collect_results (fun f => rust_type (f_type f) (optional f)) (ordered_fields fs) = Ok rs.
Proof.
  rewrite each_ok_Ok, Forall_forall. intros Hf. apply collect_all. intros f Hin.
  unfold ordered_fields in Hin. rewrite elem_of_sort_by_key in Hin. by apply rust_type_known, Hf.
Qed.

Lemma typed_fields_known description fs owner :
  validate_fields fs owner = Ok tt → each_ok (fun f => validate_reference d (f_type f)) fs = Ok tt →
  ∃ l, typed_fields description (ordered_fields fs) = Ok l.
Proof.
  intros Hf Hr. unfold typed_fields. destruct (fields_named description _ _ Hf) as [ns ->]. cbn [res_bind].
  destruct (types_known f_optional _ Hr) as [rs ->]. by eexists.
Qed.

(** *** Definitions *)

Lemma def_references x : x ∈ defs d →
  match x with
  | DTypedef t => validate_reference d (td_target t) = Ok tt
  | DEnum _ => True
  | DUnion u => each_ok (fun f => validate_reference d (f_type f)) (u_alternatives u) = Ok tt
  | DStruct s => each_ok (fun f => validate_reference d (f_type f)) (s_fields s) = Ok tt
  end.
Proof.
  pose proof (va_references validate_parts) as Hr. unfold validate_references in Hr. inv_ok Hr. destruct y, y0.
  rewrite each_ok_Ok, Forall_forall in Hy. rewrite each_ok_Ok, Forall_forall in Hy0.
  rewrite each_ok_Ok, Forall_forall in Hr. intros Hx%elem_of_defs. destruct x; auto.
Qed.

Lemma variants_generated e : validate_enum e = Ok tt →
  (∃ ns, collect_results (fun v => rust_ident "enum variant" (to_upper_camel_case (v_name v))) (e_variants e) = Ok ns) ∧
  ∃ zs, collect_results (fun v => repr_value (e_repr e) (v_value v)) (e_variants e) = Ok zs.
Proof.
  unfold validate_enum. intros Hv.
  assert (∃ seen, try_fold (validate_variant e) (∅, ∅) (e_variants e) = Ok seen) as [seen Hs].
  { destruct (e_variants e); [done|]. apply res_map_Ok in Hv as (seen & Hv & _). by exists seen. }
  apply (try_fold_inv _ (fun _ l => Forall (fun v =>
    (∃ i, rust_ident "enum variant" (to_upper_camel_case (v_name v)) = Ok i) ∧
    ∃ z, repr_value (e_repr e) (v_value v) = Ok z) l)) in Hs; [| |constructor].
  - rewrite Forall_forall in Hs. split; apply collect_all; intros v Hin; by apply Hs.
  - intros s1 l1 v s2 Hl Hx. apply Forall_app; split; [done|]. constructor; [|constructor].
    unfold validate_variant in Hx. destruct (bool_decide (e_repr e = ReprU8) && negb (in_u8 (v_value v))) eqn:Hb; [done|].
    apply res_bind_Ok in Hx as (i & Hi & _). split; [by exists i|]. unfold repr_value.
    destruct (e_repr e); simpl in Hb; [by eexists|]. apply negb_false_iff in Hb. rewrite Hb. by eexists.
Qed.

Lemma alternatives_generated u : validate_union u = Ok tt → u_expected u = false →
  (∃ ns, collect_results (fun f => rust_ident "union variant" (to_upper_camel_case (f_name f)))
           (ordered_fields (u_alternatives u)) = Ok ns) ∧
  ∃ idx, collect_results variant_index (seq 0 (length (ordered_fields (u_alternatives u)))) = Ok idx.
Proof.
  unfold validate_union. intros Hv He. rewrite He in Hv.
  assert ((length (u_alternatives u) < 256)%nat ∧
    ∃ seen, try_fold (validate_alternative u) ∅ (imap pair (ordered_fields (u_alternatives u))) = Ok seen) as [Hlen [seen Hs]].
  { destruct (u_alternatives u); [done|]. apply res_bind_Ok in Hv as ([] & _ & Hv).
    destruct (Nat.leb_spec 256 (length (f :: l))); [done|]. apply res_map_Ok in Hv as (seen & Hv & _).
    split; [done|by exists seen]. }
  apply (try_fold_inv _ (fun _ l => Forall (fun x : nat * Field =>
    ∃ i, rust_ident "union variant" (to_upper_camel_case (f_name x.2)) = Ok i) l)) in Hs; [| |constructor].
  - rewrite Forall_forall in Hs. split; apply collect_all.
    + intros f [i Hi]%list_elem_of_lookup. apply (Hs (i, f)), list_elem_of_lookup. exists i.
      by rewrite list_lookup_imap, Hi.
    + intros i Hi%elem_of_seq. unfold ordered_fields in Hi. rewrite sort_by_key_perm in Hi. unfold variant_index.
      rewrite (proj2 (Nat.leb_le i 255)) by lia. by eexists.
  - intros s1 l1 x s2 Hl Hx. apply Forall_app; split; [done|]. constructor; [|constructor].
    unfold validate_alternative in Hx. destruct (negb _); [done|]. apply res_bind_Ok in Hx as (i & Hi & _). by exists i.
Qed.

Lemma def_generated x : x ∈ defs d → ∃ i, generate_def x = Ok i.
Proof.
  intros Hx. destruct validate_parts as [(names & Hv & _) _ _]. pose proof (def_references x Hx) as Hr.
  pose proof (tv_checked _ _ Hv x Hx) as Hc. destruct (tv_idents _ _ Hv x Hx) as [n Hn]. unfold rust_name in Hn.
  destruct x as [t|e|u|s]; simpl in *.
  - unfold generate_typedef. rewrite (rust_ident_as "typedef" _ _ _ Hn). simpl.
    destruct (rust_type_known _ false Hr) as [r ->]. by eexists.
  - unfold generate_enum. rewrite (rust_ident_as "enum" _ _ _ Hn). cbn [res_bind].
    destruct (variants_generated e Hc) as [[ns ->] [zs ->]]. by eexists.
  - unfold generate_union. rewrite (rust_ident_as "union" _ _ _ Hn). cbn [res_bind].
    destruct (u_expected u) eqn:He.
    + unfold validate_union in Hc. rewrite He in Hc.
      assert (∃ ve, expected_alternatives u = Ok ve) as [[value error] Hp].
      { destruct (u_alternatives u); [done|]. apply res_bind_Ok in Hc as ([] & _ & Hc).
        apply res_map_Ok in Hc as (ve & Hc & _). by exists ve. }
      rewrite Hp. cbn [res_bind]. destruct (expected_parts _ _ _ Hp) as [Hpe Hpv].
      rewrite each_ok_Ok, Forall_forall in Hr. unfold ordered_fields in Hpe, Hpv.
      rewrite elem_of_sort_by_key in Hpe. destruct (rust_type_known _ false (Hr _ Hpe)) as [re Hre].
      destruct value as [v|]; cbn [res_bind]; [|rewrite Hre; by eexists].
      specialize (Hpv v eq_refl). rewrite elem_of_sort_by_key in Hpv.
      destruct (rust_type_known _ false (Hr _ Hpv)) as [rv ->]. cbn [res_bind]. rewrite Hre. by eexists.
    + destruct (alternatives_generated u Hc He) as [[ns ->] [idx Hidx]]. cbn [res_bind].
      destruct (types_known (fun _ => false) _ Hr) as [rs ->]. cbn [res_bind]. rewrite Hidx. by eexists.
  - unfold generate_struct. rewrite (rust_ident_as "struct" _ _ _ Hn). cbn [res_bind].
    unfold validate_struct in Hc. destruct (s_fields s) as [|f fs] eqn:Hfs; [done|].
    apply res_bind_Ok in Hc as ([] & Hc & _). destruct (typed_fields_known "field" _ _ Hc Hr) as [l ->]. by eexists.
Qed.

(** *** Services *)

Lemma service_item_ident s n :
  s ∈ services d → n ∈ service_items s → ∃ i, rust_ident "generated service item" n = Ok i.
Proof.
  intros Hs Hn. destruct validate_parts as [(names & _ & seen & Hsv) _ _]. apply (sv_idents _ _ _ _ Hsv).
  apply list_elem_of_join. exists (service_items s). split; [done|]. apply list_elem_of_fmap. by exists s.
Qed.

Lemma stub_generated s f : s ∈ services d → f ∈ sv_functions s → ∃ b, generate_stub d s f = Ok b.
Proof.
  intros Hs Hf. destruct validate_parts as [(names & _ & seen & Hsv) _ Hlit].
  pose proof (proj1 (Forall_forall _ _) (sv_methods _ _ _ _ Hsv) (s, f) (proj2 (elem_of_methods d s f) (conj Hs Hf)))
    as [[m Hm] Hsig].
  unfold validate_literals in Hlit. apply res_bind_Ok in Hlit as (_ & _ & Hlit).
  apply res_bind_Ok in Hlit as (_ & _ & Hlit). apply res_bind_Ok in Hlit as (_ & _ & Hlit).
  rewrite each_ok_Ok, Forall_forall in Hlit. specialize (Hlit s Hs). rewrite each_ok_Ok, Forall_forall in Hlit.
  specialize (Hlit f Hf). apply res_bind_Ok in Hlit as (lq & Hlq & Hlr). apply res_map_Ok in Hlr as (lr & Hlr & _).
  unfold validate_signature in Hsig. inv_ok Hsig. destruct y, y0, y1. simpl in *.
  unfold generate_stub. rewrite Hm. cbn [res_bind]. unfold format_ident.
  destruct (service_item_ident s (to_upper_camel_case (sv_name s)) Hs) as [i Hi]; [by left|].
  rewrite descriptor_ident by (by eapply rust_ident_Ok). cbn [res_bind].
  destruct (rust_type_known _ false Hy0) as [r ->]. cbn [res_bind]. rewrite Hlr. cbn [res_bind].
  destruct (typed_fields_known "parameter" _ _ Hy Hy1) as [l ->]. cbn [res_bind]. rewrite Hlq.
  destruct l; by eexists.
Qed.

Lemma service_generated s : s ∈ services d → ∃ i, generate_service d s = Ok i.
Proof.
  intros Hs. pose proof (fun n => service_item_ident s n Hs) as Hid.
  destruct (Hid (to_upper_camel_case (sv_name s))) as [t Ht]; [by left|].
  destruct (Hid (to_upper_camel_case (sv_name s) +:+ "Client")) as [c Hc]; [right; by left|].
  destruct (Hid (to_upper_camel_case (sv_name s) +:+ "Server")) as [sv Hsn]; [right; right; by left|].
  unfold generate_service. rewrite (rust_ident_as "service" _ _ _ Ht). cbn [res_bind].
  rewrite (camel_unraw _ _ _ Ht). unfold format_ident.
  apply rust_ident_Ok in Hc as (_ & Hc & _). apply rust_ident_Ok in Hsn as (_ & Hsn & _).
  assert (plain (to_upper_camel_case (sv_name s) +:+ "Client")) as Hpc by (eapply plain_suffix; [apply camel_plain|done..]).
  assert (plain (to_upper_camel_case (sv_name s) +:+ "Server")) as Hps by (eapply plain_suffix; [apply camel_plain|done..]).
  rewrite (parsed_ident _ Hpc Hc), (parsed_ident _ Hps Hsn). cbn [res_bind].
  destruct (collect_all (generate_stub d s) (sv_functions s)) as [stubs ->]; [intros f Hf; by apply stub_generated|].
  by eexists.
Qed.

Lemma items_generated : ∃ items, generate_items d = Ok items.
Proof.
  assert (∀ X (g : X → Def) l, (∀ x, x ∈ l → g x ∈ defs d) → ∃ is_, collect_results (fun x => generate_def (g x)) l = Ok is_) as Hg.
  { intros X g l Hl. apply collect_all. intros x Hx. by apply def_generated, Hl. }
  assert (∃ ts, collect_results generate_typedef (typedefs d) = Ok ts) as [ts Hts]
    by (apply (Hg _ DTypedef); intros x Hx; by apply elem_of_defs).
  assert (∃ es, collect_results generate_enum (enums d) = Ok es) as [es Hes]
    by (apply (Hg _ DEnum); intros x Hx; by apply elem_of_defs).
  assert (∃ us, collect_results generate_union (unions d) = Ok us) as [us Hus]
    by (apply (Hg _ DUnion); intros x Hx; by apply elem_of_defs).
  assert (∃ ss, collect_results generate_struct (structs d) = Ok ss) as [ss Hss]
    by (apply (Hg _ DStruct); intros x Hx; by apply elem_of_defs).
  unfold generate_items. rewrite Hts, Hes, Hus, Hss. cbn [res_bind].
  destruct (collect_all (generate_service d) (services d)) as [svs ->]; [apply service_generated|]. by eexists.
Qed.
End Complete.

(** ** The names of the generated items

    Rust accepts no two items of a module, variants of an enum, fields of a
    struct, methods of a trait or parameters of a method with the same name.
    What validation accepts has none. *)
Definition item_distinct (i : Item) : Prop :=
  match i with
  | IAlias _ _ => True
  | IEnum _ _ variants => NoDup (map (fun v => unraw v.1) variants) ∧ NoDup variants.*2
  | IVariant _ alternatives => NoDup (map (fun a => unraw a.1.1) alternatives)
  | IStruct _ fields _ => NoDup (map (fun f => unraw f.1) fields)
  | IService _ _ _ stubs =>
      NoDup (map (fun st => unraw (sb_method st)) stubs) ∧
      Forall (fun st => NoDup (map (fun p => unraw p.1) (sb_parameters st))) stubs
  end.

(** A loop that puts a new key of each element into a set. *)
Lemma fold_distinct {E S X K} `{Countable K} (f : S → X → res E S) (seen : S → gset K) (key : X → K) l :
  (∀ s x s', f s x = Ok s' → key x ∉ seen s ∧ seen s' = {[key x]} ∪ seen s) →
  ∀ s s', try_fold f s l = Ok s' → NoDup (map key l) ∧ ∀ k, k ∈ map key l → k ∉ seen s.
Proof.
  intros Hf. induction l as [|x l IH]; intros s s'; simpl; [intros _; split; [constructor|set_solver]|].
  intros Hx. apply res_bind_Ok in Hx as (s1 & H1 & Hx). apply Hf in H1 as [Hn Hs]. apply IH in Hx as [Hd Hnew].
  rewrite Hs in Hnew. split.
  - constructor; [|done]. intros Hin. apply (Hnew _ Hin). set_solver.
  - intros k [->|Hk]%elem_of_cons; [done|]. specialize (Hnew k Hk). set_solver.
Qed.

Lemma map_snd_imap {X} (l : list X) : map snd (imap pair l) = l.
Proof.
  apply list_eq. intros i. change (map snd (imap pair l)) with (snd <$> imap pair l).
  rewrite list_lookup_fmap, list_lookup_imap. by destruct (l !! i).
Qed.

Section Names.
Context `{TL : ToolchainLaws}.

Lemma fields_distinct fs owner :
  validate_fields fs owner = Ok tt → NoDup (map (fun f => to_snake_case (f_name f)) (ordered_fields fs)).
Proof.
  unfold validate_fields. intros Hf. apply res_map_Ok in Hf as (seen & Hf & _).
  apply (fold_distinct _ snd (fun f => to_snake_case (f_name f))) in Hf as [Hn _].
  - unfold ordered_fields. by rewrite sort_by_key_perm.
  - intros [ids names] f [ids' names'] Hx. unfold validate_field in Hx. inv_ok Hx. by apply insert_new_Ok in Hy0.
Qed.

Lemma variants_distinct e : validate_enum e = Ok tt →
  NoDup (map (fun v => to_upper_camel_case (v_name v)) (e_variants e)) ∧ NoDup (map v_value (e_variants e)).
Proof.
  unfold validate_enum. intros Hv.
  assert (∃ seen, try_fold (validate_variant e) (∅, ∅) (e_variants e) = Ok seen) as [seen Hs].
  { destruct (e_variants e); [done|]. apply res_map_Ok in Hv as (seen & Hv & _). by exists seen. }
  assert (∀ s v s', validate_variant e s v = Ok s' →
    (to_upper_camel_case (v_name v) ∉ s.1 ∧ s'.1 = {[to_upper_camel_case (v_name v)]} ∪ s.1) ∧
    (v_value v ∉ dom s.2 ∧ dom s'.2 = {[v_value v]} ∪ dom s.2)) as Hstep.
  { intros [ns vs] v s' Hx. unfold validate_variant in Hx. destruct (_ && _); [done|]. inv_ok Hx.
    apply insert_new_Ok in Hy0. simpl in *. destruct (vs !! v_value v) eqn:Hl; [done|]. injection Hx as <-. simpl.
    split; [done|]. split; [by apply not_elem_of_dom|apply dom_insert_L]. }
  split.
  - apply (fold_distinct _ fst (fun v => to_upper_camel_case (v_name v))) in Hs as [Hn _]; [done|].
    intros s v s' Hx. by apply Hstep in Hx as [? _].
  - apply (fold_distinct _ (fun s => dom s.2) v_value) in Hs as [Hn _]; [done|].
    intros s v s' Hx. by apply Hstep in Hx as [_ ?].
Qed.

Lemma alternatives_distinct u : validate_union u = Ok tt → u_expected u = false →
  NoDup (map (fun f => to_upper_camel_case (f_name f)) (ordered_fields (u_alternatives u))).
Proof.
  unfold validate_union. intros Hv He. rewrite He in Hv.
  assert (∃ seen, try_fold (validate_alternative u) ∅ (imap pair (ordered_fields (u_alternatives u))) = Ok seen) as [seen Hs].
  { destruct (u_alternatives u); [done|]. apply res_bind_Ok in Hv as ([] & _ & Hv). destruct (256 <=? _)%nat; [done|].
    apply res_map_Ok in Hv as (seen & Hv & _). by exists seen. }
  apply (fold_distinct _ id (fun x : nat * Field => to_upper_camel_case (f_name x.2))) in Hs as [Hn _].
  - rewrite <- (map_map snd (fun f => to_upper_camel_case (f_name f))) in Hn.
    by rewrite map_snd_imap in Hn.
  - intros s x s' Hx. unfold validate_alternative in Hx. destruct (negb _); [done|]. inv_ok Hx. by apply insert_new_Ok in Hx.
Qed.

(** ** Idents *)

Lemma idents_unraw {X} description (g : X → string) l ns :
  (∀ x, plain (g x)) → collect_results (fun x => rust_ident description (g x)) l = Ok ns → map unraw ns = map g l.
Proof.
  intros Hp Hl%collect_results_Ok. induction Hl as [|x n l ns Hx _ IH]; [done|]. simpl. rewrite IH.
  by rewrite (ident_unraw _ _ _ (Hp x) Hx).
Qed.

Lemma typed_fields_distinct description fs owner l :
  validate_fields fs owner = Ok tt → typed_fields description (ordered_fields fs) = Ok l →
  NoDup (map (fun f => unraw f.1) l).
Proof.
  intros Hf Hl. unfold typed_fields in Hl. inv_ok Hl. rewrite <- (map_map fst unraw).
  rewrite fst_zip by (apply collect_length in Hy, Hy0; lia).
  rewrite (idents_unraw _ (fun f => to_snake_case (f_name f)) _ _ (fun f => snake_plain _) Hy). by eapply fields_distinct.
Qed.

Lemma def_distinct x i : check_def x = Ok tt → generate_def x = Ok i → item_distinct i.
Proof.
  destruct x as [t|e|u|s]; simpl; intros Hc Hi.
  - unfold generate_typedef in Hi. by inv_ok Hi.
  - destruct (variants_distinct e Hc) as [Hn Hv]. unfold generate_enum in Hi. inv_ok Hi. simpl.
    pose proof (collect_length _ _ _ Hy0) as H0. pose proof (collect_length _ _ _ Hy1) as H1. split.
    + rewrite <- (map_map fst unraw), fst_zip by lia.
      by rewrite (idents_unraw _ (fun v => to_upper_camel_case (v_name v)) _ _ (fun v => camel_plain _) Hy0).
    + rewrite snd_zip by lia. replace y1 with (map v_value (e_variants e)); [done|].
      apply collect_results_Ok in Hy1. clear -Hy1. induction Hy1 as [|v z l zs Hz _ IH]; [done|]. simpl. rewrite IH.
      unfold repr_value in Hz. destruct (e_repr e); [|destruct (in_u8 _); [|done]]; by injection Hz as <-.
  - unfold generate_union in Hi. apply res_bind_Ok in Hi as (n & _ & Hi). destruct (u_expected u) eqn:He.
    + apply res_bind_Ok in Hi as ([v e] & _ & Hi). inv_ok Hi. done.
    + pose proof (alternatives_distinct u Hc He) as Hn. inv_ok Hi. simpl.
      apply collect_length in Hy0, Hy1 as H1. rewrite length_seq in H1. rewrite <- (map_map fst (fun a => unraw a.1)).
      rewrite fst_zip by (rewrite length_zip_with; apply collect_length in Hy; lia).
      rewrite <- (map_map fst unraw), fst_zip by (apply collect_length in Hy; lia).
      by rewrite (idents_unraw _ (fun f => to_upper_camel_case (f_name f)) _ _ (fun f => camel_plain _) Hy).
  - unfold generate_struct in Hi. inv_ok Hi. simpl. unfold validate_struct in Hc.
    destruct (s_fields s) as [|f fs] eqn:Hfs; [done|]. rewrite <- Hfs in *. apply res_bind_Ok in Hc as ([] & Hc & _).
    by eapply typed_fields_distinct.
Qed.

(** ** Services *)

Lemma methods_distinct d l : ∀ seen seen', try_fold (validate_service d) seen l = Ok seen' →
  Forall (fun s => NoDup (map (fun f => to_snake_case (fn_name f)) (sv_functions s))) l.
Proof.
  induction l as [|s l IH]; intros seen seen'; simpl; [constructor|]. intros Hx.
  apply res_bind_Ok in Hx as (seen1 & Hs & Hx). constructor; [|by eapply IH].
  unfold validate_service in Hs. inv_ok Hs.
  apply (fold_distinct _ fst (fun f => to_snake_case (fn_name f))) in Hy1 as [Hn _]; [done|].
  intros [ms ws] f s' Hf. unfold validate_function in Hf. destruct (existsb _ _); [done|].
  apply res_bind_Ok in Hf as (ms' & Hm%insert_new_Ok & Hf). inv_ok Hf. done.
Qed.

Lemma stub_names d s fs l : Forall2 (fun f st => generate_stub d s f = Ok st) fs l →
  map (fun st => unraw (sb_method st)) l = map (fun f => to_snake_case (fn_name f)) fs.
Proof.
  induction 1 as [|f st fs l Hf _ IH]; [done|]. simpl. rewrite IH. f_equal. unfold generate_stub in Hf. inv_ok Hf.
  by eapply ident_unraw; [apply snake_plain|].
Qed.

Lemma service_distinct d s i :
  NoDup (map (fun f => to_snake_case (fn_name f)) (sv_functions s)) →
  (∀ f, f ∈ sv_functions s → validate_signature d s f = Ok tt) →
  generate_service d s = Ok i → item_distinct i.
Proof.
  intros Hn Hsig Hi. unfold generate_service in Hi. inv_ok Hi. apply collect_results_Ok in Hy2. simpl. split.
  - by rewrite (stub_names _ _ _ _ Hy2).
  - apply Forall_forall. intros st Hst. destruct (Forall2_elem_r _ _ _ _ Hy2 Hst) as (f & Hf & Hg).
    specialize (Hsig f Hf). unfold validate_signature in Hsig. inv_ok Hsig. destruct y3.
    unfold generate_stub in Hg. inv_ok Hg. by eapply typed_fields_distinct.
Qed.

Lemma service_names d s i : generate_service d s = Ok i → map unraw (item_names i) = service_items s.
Proof.
  intros Hi. unfold generate_service, format_ident in Hi. inv_ok Hi. simpl.
  pose proof (ident_unraw _ _ _ (camel_plain _) Hy) as Hu. rewrite Hu in *.
  assert (∀ suffix c l, text suffix = c :: l → c ≠ 35 → c ≠ 114 →
    unraw (to_upper_camel_case (sv_name s) +:+ suffix) = to_upper_camel_case (sv_name s) +:+ suffix) as Hs.
  { intros suffix c l Ht H1 H2. apply plain_unraw. eapply plain_suffix; [apply camel_plain|done..]. }
  unfold service_items. repeat case_match; simplify_eq. by rewrite (Hs "Client" _ _ eq_refl), (Hs "Server" _ _ eq_refl).
Qed.

(** ** The module *)

Section Module_.
Context (d : Document) (items : list Item) (Hok : validate d = Ok tt) (Hgen : generate_items d = Ok items).

Lemma module_names : map unraw (mjoin (map item_names items)) = map rust_name (defs d) ++ mjoin (map service_items (services d)).
Proof.
  destruct (generate_items_Ok d items Hgen) as (types & servers & -> & Ht & Hs). clear Hgen.
  rewrite map_app, join_app, map_app. f_equal.
  - induction Ht as [|x i l types Hx _ IH]; [done|]. simpl. destruct (generate_def_name x i Hx) as (n & Hn & Hr).
    rewrite Hn. simpl. by rewrite IH, (ident_unraw _ _ _ (camel_plain _) Hr).
  - induction Hs as [|s i l servers Hi _ IH]; [done|]. simpl. by rewrite map_app, IH, (service_names _ _ _ Hi).
Qed.

Lemma module_distinct : NoDup (map unraw (mjoin (map item_names items))).
Proof.
  rewrite module_names. destruct (validate_parts d Hok) as [(names & Hv & seen & Hsv) _ _]. apply NoDup_app. split_and!.
  - by eapply tv_names.
  - intros n Hn Hn'. apply (sv_new_names _ _ _ _ Hsv n Hn'). simpl. rewrite (tv_set _ _ Hv). by apply elem_of_list_to_set.
  - apply Hsv.
Qed.

Lemma items_distinct : Forall item_distinct items.
Proof.
  destruct (validate_parts d Hok) as [(names & Hv & seen & Hsv) _ _].
  destruct (generate_items_Ok d items Hgen) as (types & servers & -> & Ht & Hs).
  apply Forall_app. split; apply Forall_forall; intros i Hi.
  - destruct (Forall2_elem_r _ _ _ _ Ht Hi) as (x & Hx & Hg). eapply def_distinct; [|done]. by eapply tv_checked.
  - destruct (Forall2_elem_r _ _ _ _ Hs Hi) as (s & Hin & Hg). eapply service_distinct; [| |done].
    + pose proof Hok as Hx. unfold validate in Hx. inv_ok Hx. apply methods_distinct in Hy1.
      rewrite Forall_forall in Hy1. by apply Hy1.
    + intros f Hf. pose proof (sv_methods _ _ _ _ Hsv) as Hm. rewrite Forall_forall in Hm.
      by apply (Hm (s, f)), elem_of_methods.
Qed.
End Module_.
End Names.
