(* ===== verification/GeneratedService.v ===== *)
(** * What the generated services do

    The descriptors that [generate_service] emits, the registration of the
    methods of an implementation on a server and the calls of the generated
    client, in terms of the runtime.  The variables and the constants of the
    generated code are looked up by name and have types: the request of a client
    is the expression over its parameters that the code has, and the method of an
    implementation gets what the closure of its registration binds.  What the
    compiler would refuse is [None]. *)
From S2P Require Import Prelude Wire Protocol StructPack StructPackLaws StructPackProps RpcCall RpcProps.
From S2P Require Import ThriftParse Codegen GeneratedTypes CodegenFacts CodegenTypes.
Import Thrift.

#[export] Instance rtype_eq : EqDecision RType.
Proof. solve_decision. Defined.
#[export] Instance rrequest_eq : EqDecision RRequest.
Proof. solve_decision. Defined.

(** The methods of all services of a module. *)
Definition item_stubs (i : Item) : list Stub := match i with IService _ _ _ stubs => stubs | _ => [] end.
Definition stubs (items : list Item) : list Stub := mjoin (map item_stubs items).

(** [RpcMethod::from_generated_parts] and [RpcNoArgsMethod::from_generated_parts]. *)
Definition from_generated_parts {A R} (name : bytes) (route_id request_hash response_hash : N) : RpcMethod A R :=
  mkMethod name route_id request_hash response_hash.
Definition no_args_from_generated_parts {R} (name : bytes) (route_id response_hash : N) : RpcNoArgsMethod R :=
  mkNoArgsMethod name route_id response_hash.

Definition request_hash (st : Stub) : N := match sb_request st with Some (_, h) => h | None => 0 end.
Definition descriptor (st : Stub) (A R : Type) : RpcMethod A R :=
  from_generated_parts (text (sb_wire_name st)) (sb_route_id st) (request_hash st) (sb_response_hash st).
Definition no_args_descriptor (st : Stub) (R : Type) : RpcNoArgsMethod R :=
  no_args_from_generated_parts (text (sb_wire_name st)) (sb_route_id st) (sb_response_hash st).

Section Services.
Context `{Toolchain} {Addr : Type} (items : list Item).
Local Abbreviation Routes := (gmap N (Route (Addr := Addr))).
Local Abbreviation Context_ := (RequestContext (Addr := Addr)).

(** ** Values and variables *)

(** The Rust type that the code names; what does not name one is refused below. *)
Definition packed_at (t : RType) : packed := default (pk unit) (resolve items t).
Definition request_packed (rt : RRequest) : packed :=
  match rt with ROnly t => packed_at t | RTuple ts => p_struct (map packed_at ts) end.

Record Value := mkValue { val_type : RType; val_data : carrier (packed_at val_type) }.

(** The elements of a tuple expression, and of a tuple that is matched. *)
Fixpoint close_fields (vs : list Value) : carrier (p_fields (map packed_at (map val_type vs))) :=
  match vs with
  | [] => mkEnd
  | v :: vs' => mkFields (val_data v) (close_fields vs')
  end.
Fixpoint open_fields (ts : list RType) : carrier (p_fields (map packed_at ts)) → list Value :=
  match ts with
  | [] => fun _ => []
  | t :: ts' => fun a => mkValue t (field a) :: open_fields ts' (others a)
  end.

Lemma open_close vs : open_fields (map val_type vs) (close_fields vs) = vs.
Proof. induction vs as [|[t x] vs IH]; simpl; [done|]. by rewrite IH. Qed.

Definition request_types (rt : RRequest) : list RType := match rt with ROnly t => [t] | RTuple ts => ts end.
Definition request_parts (rt : RRequest) : carrier (request_packed rt) → list Value :=
  match rt with
  | ROnly t => fun a => [mkValue t a]
  | RTuple ts => fun a => open_fields ts (struct_fields a)
  end.

(** The variable that a name means, of those in scope. *)
Definition position (names : list string) (name : string) : option nat :=
  fst <$> list_find (fun n => unraw n = unraw name) names.
Definition variable (names : list string) (values : list Value) (name : string) : option Value :=
  i ← position names name; values !! i.

(** ** Descriptors

    The constants of a module; a name that two of them have is refused. *)
Definition constant (name : string) : option Stub :=
  match filter (fun st => sb_descriptor st = name) (stubs items) with [st] => Some st | _ => None end.

(** The types of a constant exist, and it returns what the method does. *)
Definition fitting (k st : Stub) : bool :=
  bool_decide (sb_returns k = sb_returns st) && bool_decide (is_Some (resolve items (sb_returns k))) &&
  match sb_request k with Some (rt, _) => bool_decide (is_Some (resolve_request items rt)) | None => true end.

(** Variables that are bound together have different names. *)
Definition distinct (names : list string) : bool := bool_decide (NoDup (map unraw names)).

(** ** The generated client *)

Record Request := mkRequest { q_type : RRequest; q_value : carrier (request_packed q_type) }.

(** The request that a method sends, an expression over its parameters. *)
Definition request_of (args : CallArguments) (names : list string) (values : list Value) : option Request :=
  match args with
  | NoArguments => None
  | OneArgument only => v ← variable names values only; Some (mkRequest (ROnly (val_type v)) (val_data v))
  | TupleArgument ns =>
      vs ← mapM (variable names values) ns;
      Some (mkRequest (RTuple (map val_type vs)) (StructPack.mkStruct (close_fields vs)))
  end.

Definition client_request (st : Stub) (values : list Value) : option Request :=
  request_of (sb_arguments st) (sb_parameters st).*1 values.

(** The method of the generated client, called with the values of its parameters
    and an attachment; a plain method sends none and returns the value of the
    reply.  [None] is code that the compiler refuses. *)
Definition client_call (c : ClientInner) (slimits : FrameLimits) (s : Routes) (peer : Addr) (st : Stub)
    (values : list Value) (attachment : bytes) : option (res RpcError (RpcReply (carrier (packed_at (sb_returns st))))) :=
  k ← constant (sb_descriptor st);
  if fitting k st && distinct ((sb_parameters st).*1 ++ (if sb_attachment st then ["rpc_attachment"] else [])) then
    match sb_arguments st, sb_request k with
    | NoArguments, None =>
        Some (remote_call_no_args md5_digest c slimits s peer (no_args_descriptor k (carrier (packed_at (sb_returns st)))) attachment)
    | NoArguments, Some _ | _, None => None
    | _, Some (rt, _) =>
        r ← client_request st values;
        if bool_decide (q_type r = rt)
        then Some (remote_call md5_digest c slimits s peer
               (descriptor k (carrier (request_packed (q_type r))) (carrier (packed_at (sb_returns st)))) (q_value r) attachment)
        else None
    end
  else None.

(** ** The generated server *)

Definition method_type (attachment : bool) (A R : Type) : Type :=
  if attachment then A → Context_ → RpcResponse R + RpcFailure else A → R + RpcFailure.

(** A method of an implementation, on the values of its parameters. *)
Record Binding := mkBinding {
  bn_stub : Stub;
  bn_method : method_type (sb_attachment bn_stub) (list Value) (carrier (packed_at (sb_returns bn_stub)))
}.

Definition pattern_names (args : CallArguments) : list string :=
  match args with NoArguments => [] | OneArgument only => [only] | TupleArgument ns => ns end.
Definition pattern_fits (args : CallArguments) (rt : RRequest) : bool :=
  match args, rt with
  | OneArgument _, ROnly _ => true
  | TupleArgument ns, RTuple ts => (length ns =? length ts)%nat
  | _, _ => false
  end.

(** The closure of a registration: what it passes to the method of the request
    that its pattern takes apart.  A variable of the pattern with the name of
    the captured [service] hides it. *)
Definition closure (st : Stub) (rt : RRequest) : option (carrier (request_packed rt) → list Value) :=
  let names := pattern_names (sb_arguments st) in
  let bound := names ++ (if sb_attachment st then ["rpc_context"] else []) in
  if distinct bound && bool_decide ("service" ∉ map unraw bound) && pattern_fits (sb_arguments st) rt then
    indices ← mapM (position names) (sb_parameters st).*1;
    if bool_decide (omap (fun i => request_types rt !! i) indices = (sb_parameters st).*2)
    then Some (fun a => omap (fun i => request_parts rt a !! i) indices)
    else None
  else None.

(** The registration of a method, one of four. *)
Definition register_method (b : Binding) : option (Routes → res RegisterError Routes) :=
  let st := bn_stub b in
  let R := carrier (packed_at (sb_returns st)) in
  k ← constant (sb_descriptor st);
  if fitting k st then
    match sb_arguments st, sb_request k with
    | NoArguments, None =>
        Some (match sb_attachment st as x return method_type x (list Value) R → _ with
              | true => fun f => register_no_args_with_context md5_digest (no_args_descriptor k R) (f [])
              | false => fun f => register_no_args md5_digest (no_args_descriptor k R) (fun _ => f [])
              end (bn_method b))
    | NoArguments, Some _ | _, None => None
    | _, Some (rt, _) =>
        values ← closure st rt;
        Some (match sb_attachment st as x return method_type x (list Value) R → _ with
              | true => fun f => register_with_context md5_digest (descriptor k (carrier (request_packed rt)) R)
                                   (fun a => f (values a))
              | false => fun f => register md5_digest (descriptor k (carrier (request_packed rt)) R) (fun a => f (values a))
              end (bn_method b))
    end
  else None.

(** [register] of the generated servers, one method after the other. *)
Definition register_all (bs : list Binding) : option (Routes → res RegisterError Routes) :=
  registrations ← mapM register_method bs;
  Some (fun s => try_fold (fun s r => r s) s registrations).

(** What the method returns for the values that a caller passes; a method
    without a context returns no attachment. *)
Definition outcome (b : Binding) (values : list Value) (ctx : Context_)
    : RpcResponse (carrier (packed_at (sb_returns (bn_stub b)))) + RpcFailure :=
  (match sb_attachment (bn_stub b) as x
     return method_type x (list Value) (carrier (packed_at (sb_returns (bn_stub b)))) → _ with
   | true => fun f => f values ctx
   | false => fun f => match f values with inl v => inl (mkResponse v []) | inr e => inr e end
   end) (bn_method b).

(** The frames of a call fit the limits of both ends. *)
Definition callable (c : ClientInner) (slimits : FrameLimits) (st : Stub) (values : list Value) (attachment : bytes) : Prop :=
  match client_request st values with
  | Some r => sendable md5_digest c slimits (q_value r) attachment
  | None => ci_closed c = false ∧ ci_next_sequence c < 2 ^ 32 ∧
            fits (ci_frame_limits c) [] attachment ∧ fits slimits [] attachment
  end.
(** ** Methods that work *)

(** What the generated code needs of a method, and the runtime of its
    descriptor. *)
Record working (st : Stub) : Prop := {
  wk_arguments : sb_arguments st = arguments_of (sb_parameters st).*1;
  wk_names : NoDup (map unraw (sb_parameters st).*1);
  wk_context : sb_attachment st = true → ∀ n, n ∈ (sb_parameters st).*1 → unraw n ≠ "rpc_context" ∧ unraw n ≠ "rpc_attachment";
  wk_service n : n ∈ (sb_parameters st).*1 → unraw n ≠ "service";
  wk_constant : constant (sb_descriptor st) = Some st;
  wk_fitting : fitting st st = true;
  wk_route : sb_route_id st = function_id md5_digest (text (sb_wire_name st));
  wk_response : sb_response_hash st = type_hash md5_digest (carrier (packed_at (sb_returns st)));
  wk_request :
    match sb_request st with
    | None => sb_parameters st = []
    | Some (rt, h) => sb_parameters st ≠ [] ∧ rt = request_rust_type (sb_parameters st).*2 ∧
                      h = type_hash md5_digest (carrier (request_packed rt))
    end
}.

Lemma position_at names i n : NoDup (map unraw names) → names !! i = Some n → position names n = Some i.
Proof.
  intros Hn Hi. unfold position. apply fmap_Some. exists (i, n). split; [|done].
  apply list_find_Some. split_and!; [done|done|]. intros k m Hk Hlt He.
  apply (NoDup_lookup _ k i (unraw n)) in Hn; [lia| |]; change (map unraw names) with (unraw <$> names);
    rewrite list_lookup_fmap, ?Hk, ?Hi; simpl; congruence.
Qed.

Lemma positions names : NoDup (map unraw names) → mapM (position names) names = Some (seq 0 (length names)).
Proof.
  intros Hn. apply mapM_Some, Forall2_same_length_lookup_2; [by rewrite length_seq|].
  intros i n j Hi [-> _]%lookup_seq. by apply position_at.
Qed.

Lemma variables names values :
  NoDup (map unraw names) → length values = length names → mapM (variable names values) names = Some values.
Proof.
  intros Hn Hl. apply mapM_Some, Forall2_same_length_lookup_2; [done|].
  intros i n v Hi Hv. unfold variable. by rewrite (position_at names i n Hn Hi).
Qed.

Lemma omap_positions {X} (l1 l : list X) : omap (fun i => (l1 ++ l) !! i) (seq (length l1) (length l)) = l.
Proof.
  revert l1. induction l as [|x l IH]; intros l1; [done|]. simpl. rewrite list_lookup_middle by done. f_equal.
  specialize (IH (l1 ++ [x])). rewrite <- app_assoc, length_app, Nat.add_1_r in IH. exact IH.
Qed.

Lemma omap_all {X} (l : list X) : omap (fun i => l !! i) (seq 0 (length l)) = l.
Proof. exact (omap_positions [] l). Qed.

Lemma parts_length rt a : length (request_parts rt a) = length (request_types rt).
Proof.
  destruct rt as [t|ts]; [done|]. simpl. generalize (struct_fields a). clear a.
  induction ts as [|t ts IH]; intros f; [done|]. simpl. by rewrite IH.
Qed.

(** The kinds of methods with parameters. *)
Lemma parameters_shape (ps : list (string * RType)) :
  ps ≠ [] →
  (∃ n t, ps = [(n, t)]) ∨ (arguments_of ps.*1 = TupleArgument ps.*1 ∧ request_rust_type ps.*2 = RTuple ps.*2).
Proof. destruct ps as [|[n t] [|q ps]]; [done|left; by eexists _, _|by right]. Qed.

Lemma client_request_ok st rt h values :
  working st → sb_request st = Some (rt, h) → map val_type values = (sb_parameters st).*2 →
  ∃ r, client_request st values = Some r ∧ q_type r = rt ∧ request_parts (q_type r) (q_value r) = values.
Proof.
  intros Hw Hr Hv. pose proof (wk_request st Hw) as Hq. rewrite Hr in Hq. destruct Hq as (Hne & -> & _).
  pose proof (wk_names st Hw) as Hn. unfold client_request. rewrite (wk_arguments st Hw).
  destruct (parameters_shape _ Hne) as [(n & t & Hp)|[-> ->]].
  - rewrite Hp in Hv, Hn |- *. destruct values as [|v [|]]; [done| |done]. simpl in Hv. injection Hv as <-. simpl.
    assert (variable [n] [v] n = Some v) as -> by (unfold variable; by rewrite (position_at [n] 0 n)).
    eexists. split_and!; [done|done|]. by destruct v.
  - simpl. rewrite variables; [|done|].
    + eexists. split_and!; [done|simpl; by rewrite Hv|]. simpl. apply open_close.
    + apply (f_equal length) in Hv. by rewrite length_map, !length_fmap in *.
Qed.

Lemma closure_ok st rt h :
  working st → sb_request st = Some (rt, h) → ∃ f, closure st rt = Some f ∧ ∀ a, f a = request_parts rt a.
Proof.
  intros Hw Hr. pose proof (wk_request st Hw) as Hq. rewrite Hr in Hq. destruct Hq as (Hne & -> & _).
  pose proof (wk_names st Hw) as Hn. set (rt := request_rust_type (sb_parameters st).*2).
  assert (pattern_names (sb_arguments st) = (sb_parameters st).*1 ∧ request_types rt = (sb_parameters st).*2 ∧
    pattern_fits (sb_arguments st) rt = true) as (Hnames & Htypes & Hfits).
  { rewrite (wk_arguments st Hw). unfold rt. destruct (parameters_shape _ Hne) as [(n & t & ->)|[-> ->]]; [done|].
    simpl. rewrite !length_fmap, Nat.eqb_refl. done. }
  unfold closure. rewrite Hnames, Hfits. unfold distinct. rewrite !bool_decide_true.
  - cbn [andb]. rewrite (positions _ Hn). cbn [mbind option_bind].
    replace (length (sb_parameters st).*1) with (length (request_types rt)) by (by rewrite Htypes, !length_fmap).
    rewrite bool_decide_true by (rewrite omap_all; exact Htypes).
    eexists. split; [done|]. intros a. rewrite <- (parts_length rt a). apply omap_all.
  - rewrite map_app, elem_of_app. intros [(n & Heq & Hin)%list_elem_of_fmap|Hin].
    + by apply (wk_service st Hw n Hin).
    + destruct (sb_attachment st); simpl in Hin; set_solver.
  - rewrite map_app. apply NoDup_app. split_and!; [done| |destruct (sb_attachment st); simpl; [apply NoDup_singleton|constructor]].
    intros x (n & -> & Hin)%list_elem_of_fmap. destruct (sb_attachment st) eqn:Ha; simpl; [|set_solver].
    rewrite list_elem_of_singleton. by apply (wk_context st Hw Ha n Hin).
Qed.

(** A server whose route of [b] has the handler [h] answers the calls of the
    generated client with what the method returns. *)
Definition serves (b : Binding) (h : Handler (Addr := Addr)) : Prop :=
  ∀ (digest_bytes : ∀ input, bytes_ok (md5_digest input)) c slimits (s : Routes) peer values attachment,
  let id := sb_route_id (bn_stub b) in
  let ctx := mkContext (ci_next_sequence c) id attachment peer in
  map val_type values = (sb_parameters (bn_stub b)).*2 → callable c slimits (bn_stub b) values attachment →
  outcome_fits md5_digest (ci_frame_limits c) (outcome b values ctx) →
  s !! id = Some (mkRoute (text (sb_wire_name (bn_stub b))) h) →
  client_call c slimits s peer (bn_stub b) values attachment = Some (outcome_result (outcome b values ctx)).

Lemma client_parameters st :
  working st → distinct ((sb_parameters st).*1 ++ (if sb_attachment st then ["rpc_attachment"] else [])) = true.
Proof.
  intros Hw. apply bool_decide_eq_true. rewrite map_app. apply NoDup_app.
  split_and!; [apply Hw| |destruct (sb_attachment st); simpl; [apply NoDup_singleton|constructor]].
  intros x (n & -> & Hin)%list_elem_of_fmap. destruct (sb_attachment st) eqn:Ha; simpl; [|set_solver].
  rewrite list_elem_of_singleton. by apply (wk_context st Hw Ha n Hin).
Qed.

(** The descriptors are those that the runtime computes. *)
Lemma working_no_args st : working st →
  no_args_descriptor st (carrier (packed_at (sb_returns st))) = RpcNoArgsMethod_new md5_digest (text (sb_wire_name st)).
Proof.
  intros Hw. unfold no_args_descriptor, no_args_from_generated_parts. by rewrite (wk_route st Hw), (wk_response st Hw).
Qed.
Lemma working_descriptor st rt h : working st → sb_request st = Some (rt, h) →
  descriptor st (carrier (request_packed rt)) (carrier (packed_at (sb_returns st))) =
    RpcMethod_new md5_digest (text (sb_wire_name st)).
Proof.
  intros Hw Hr. pose proof (wk_request st Hw) as Hq. rewrite Hr in Hq. destruct Hq as (_ & _ & ->).
  unfold descriptor, from_generated_parts, request_hash. by rewrite Hr, (wk_route st Hw), (wk_response st Hw).
Qed.

Lemma register_no_args_route b :
  working (bn_stub b) → sb_request (bn_stub b) = None →
  ∃ h, register_method b = Some (insert_route (sb_route_id (bn_stub b)) (text (sb_wire_name (bn_stub b))) h) ∧ serves b h.
Proof.
  destruct b as [st f]. cbn [bn_stub]. intros Hw Hr. pose proof (wk_request st Hw) as Hp. rewrite Hr in Hp.
  assert (sb_arguments st = NoArguments) as Ha by (by rewrite (wk_arguments st Hw), Hp).
  unfold register_method, serves, outcome, client_call, callable, client_request. cbn [bn_stub bn_method].
  rewrite (wk_constant st Hw). cbn [mbind option_bind]. rewrite (wk_fitting st Hw), Ha, Hr, (client_parameters st Hw).
  cbn [andb request_of]. pose proof (working_no_args st Hw) as Hd. revert f.
  destruct (sb_attachment st); intros f; (eexists; split; [reflexivity|]);
    intros digest_bytes c slimits s peer values attachment Hv (Ho & Hs & Hf1 & Hf2) Hout Hroute;
    rewrite Hp in Hv; apply fmap_nil_inv in Hv as ->; f_equal; rewrite (wk_route st Hw) in *;
    unfold remote_call_no_args, call_no_args_request; rewrite Hd; cbn [RpcNoArgsMethod_new n_route_id n_response_type_hash];
    (eapply (exchange_ok md5_digest digest_bytes); [done..|]).
  - unfold no_args_context_handler. rewrite Hd. done.
  - unfold no_args_handler. rewrite Hd. cbn. by destruct (f []).
Qed.

Lemma register_args_route b rt hash :
  working (bn_stub b) → sb_request (bn_stub b) = Some (rt, hash) →
  ∃ h, register_method b = Some (insert_route (sb_route_id (bn_stub b)) (text (sb_wire_name (bn_stub b))) h) ∧ serves b h.
Proof.
  destruct b as [st f]. cbn [bn_stub]. intros Hw Hr. destruct (closure_ok st rt hash Hw Hr) as (g & Hg & Hparts).
  pose proof (wk_request st Hw) as Hp. rewrite Hr in Hp. destruct Hp as (Hne & _).
  assert (∀ X (a b : X), match sb_arguments st with NoArguments => a | _ => b end = b) as Ha.
  { intros X a b. rewrite (wk_arguments st Hw). by destruct (sb_parameters st) as [|? [|]]. }
  pose proof (working_descriptor st rt hash Hw Hr) as Hd.
  unfold register_method, serves, outcome, client_call, callable. cbn [bn_stub bn_method].
  rewrite (wk_constant st Hw). cbn [mbind option_bind]. rewrite (wk_fitting st Hw), Hr, Ha, Hg, (client_parameters st Hw).
  cbn [mbind option_bind andb]. revert f.
  destruct (sb_attachment st); intros f; (eexists; split; [reflexivity|]);
    intros digest_bytes c slimits s peer values attachment Hv Hc Hout Hroute;
    destruct (client_request_ok st rt hash values Hw Hr Hv) as ([rt' a] & Hq & Ht & Hval);
    cbn [q_type q_value] in *; subst rt'; rewrite Hq in Hc |- *; rewrite Ha; cbn [mbind option_bind q_type q_value] in *;
    rewrite bool_decide_true by done; f_equal; rewrite (wk_route st Hw) in *; rewrite Hd.
  - rewrite <- Hval, <- Hparts. eapply (remote_call_context md5_digest digest_bytes _ _ _ _ _ _ (fun a => f (g a)));
      [done| |exact Hroute|intros body; by rewrite Hd]. by rewrite Hparts, Hval.
  - rewrite <- Hval, <- Hparts. eapply (remote_call_context md5_digest digest_bytes _ _ _ _ _ _
      (fun a _ => match f (g a) with inl v => inl (mkResponse v []) | inr e => inr e end)); [done| |exact Hroute|].
    + by rewrite Hparts, Hval.
    + intros body. rewrite Hd. apply typed_is_context.
Qed.

Lemma register_route b :
  working (bn_stub b) →
  ∃ h, register_method b = Some (insert_route (sb_route_id (bn_stub b)) (text (sb_wire_name (bn_stub b))) h) ∧ serves b h.
Proof.
  intros Hw. destruct (sb_request (bn_stub b)) as [[rt h]|] eqn:Hr; [by eapply register_args_route|].
  by apply register_no_args_route.
Qed.

(** Methods with different routes are all registered. *)
Lemma register_each bs : ∀ s : Routes,
  Forall (fun b => working (bn_stub b)) bs →
  NoDup (map (fun b => sb_route_id (bn_stub b)) bs) → (∀ b, b ∈ bs → s !! sb_route_id (bn_stub b) = None) →
  ∃ rs s', mapM register_method bs = Some rs ∧ try_fold (fun s r => r s) s rs = Ok s' ∧ s ⊆ s' ∧
    ∀ b, b ∈ bs → ∃ h, s' !! sb_route_id (bn_stub b) = Some (mkRoute (text (sb_wire_name (bn_stub b))) h) ∧ serves b h.
Proof.
  induction bs as [|b bs IH]; intros s Hw Hn Hs; [exists [], s; split_and!; [done..|set_solver]|].
  apply NoDup_cons in Hn as [Hb Hn]. apply Forall_cons in Hw as [Hwb Hw].
  destruct (register_route b Hwb) as (h & Hr & Hh).
  destruct (IH (<[sb_route_id (bn_stub b) := mkRoute (text (sb_wire_name (bn_stub b))) h]> s)) as (rs & s' & Hm & Hf & Hsub & Hall).
  { done. }
  { done. }
  { intros b' Hb'. rewrite lookup_insert_ne; [apply Hs; by right|]. intros He. apply Hb. rewrite He.
    apply list_elem_of_fmap. by exists b'. }
  eexists (_ :: rs), s'. split; [simpl; by rewrite Hr, Hm|]. split.
  - simpl. unfold insert_route. rewrite (Hs b) by (by left). exact Hf.
  - split; [etrans; [|exact Hsub]; apply insert_subseteq, Hs; by left|].
    intros b' [->|Hb']%elem_of_cons; [|by apply Hall]. exists h. split; [|done].
    eapply lookup_weaken; [|exact Hsub]. by rewrite lookup_insert_eq.
Qed.
End Services.

Section Stubs.
Context `{TL : ToolchainLaws} (d : Document) (items : list Item) (Hgen : generate_items d = Ok items).

Lemma stubs_generated : Forall2 (fun x st => generate_stub d x.1 x.2 = Ok st) (methods d) (stubs items).
Proof.
  destruct (generate_items_Ok d items Hgen) as (types & servers & -> & Ht & Hs).
  clear Hgen. unfold stubs. rewrite map_app, join_app.
  assert (mjoin (map item_stubs types) = []) as ->.
  { induction Ht as [|x i l types Hx _ IH]; [done|]. simpl. rewrite IH, app_nil_r.
    destruct (generate_def_name x i Hx) as (n & Hn & _). by destruct i. }
  unfold methods. induction Hs as [|s i l servers Hi _ IH]; [constructor|]. simpl. apply Forall2_app; [|done].
  unfold generate_service in Hi. inv_ok Hi. apply collect_results_Ok in Hy2. simpl. unfold service_methods.
  by apply Forall2_fmap_l.
Qed.

Lemma stub_route s f st : generate_stub d s f = Ok st →
  sb_route_id st = route d (s, f) ∧ sb_wire_name st = wire_name d s f.
Proof. unfold generate_stub. intros Hs. inv_ok Hs. done. Qed.

Lemma stub_routes : map sb_route_id (stubs items) = map (route d) (methods d).
Proof.
  pose proof stubs_generated as Hs. induction Hs as [|x st l sts Hx _ IH]; [done|]. simpl. rewrite IH. f_equal.
  destruct x as [s f]. by apply stub_route in Hx as [-> _].
Qed.
End Stubs.
