(* ===== verification/CodegenProps.v ===== *)
(** * What the code generator promises

    Its recursion ends on every document; what it accepts is generated, except
    for the module names; the descriptors it writes out are those that the
    runtime would compute; and the generated services, when they compile and are
    registered on a server, answer the generated clients. *)
From S2P Require Import Prelude Wire Protocol StructPack StructPackLaws StructPackProps RpcCall RpcProps.
From S2P Require Import ThriftParse ThriftProps Codegen GeneratedTypes CodegenFacts CodegenTypes CodegenTotal GeneratedService.
Import Thrift.

(** The values of variants are [i32]s, and the names of the generated items are
    text of bounded length. *)
Record document_ok (d : Document) (items : list Item) : Prop := {
  do_values e v : e ∈ enums d → v ∈ e_variants e → in_i32 (v_value v) = true;
  do_names i n : i ∈ items → n ∈ item_names i → name_ok (text n)
}.

(** The modules around the items, the outermost first, and the items. *)
Fixpoint module_path (m : RustModule) : list string :=
  match m with Items _ => [] | Mod name body => name :: module_path body end.
Fixpoint module_items (m : RustModule) : list Item :=
  match m with Items items => items | Mod _ body => module_items body end.

(** C29: The recursion of the generator ends on every document, also on one
    whose definitions refer to each other in circles or that has two definitions
    of one name.  The literal of a type and the order check open every definition
    at most once on a path: [max_depth] is enough, and more depth changes
    nothing.  Validation returns, with an error or without. *)
Theorem generator_terminates `{Toolchain} d t stack k :
  let sc := TypeSchemas_new d in
  literal_at sc (max_depth sc + k) stack t = literal_at sc (max_depth sc) stack t ∧
  literal_at sc (max_depth sc) stack t ≠ Panic ∧
  ord_at sc (max_depth sc + k) stack t = ord_at sc (max_depth sc) stack t ∧
  is_Some (ord_at sc (max_depth sc) stack t) ∧
  validate d ≠ Panic.
Proof.
  intros sc. pose proof (unopened_small sc stack) as Hs.
  assert (size (unopened sc stack) < max_depth sc + k)%nat as Hk by lia.
  split_and!; [by apply literal_stable|by apply literal_total|by apply ord_stable|by eapply ord_stable|apply validate_total].
Qed.

Section Claims.
Context `{TL : ToolchainLaws} {Addr : Type}.

(** What validation leaves to the author of a document: tuples implement
    [StructPack] up to eight elements, the descriptor constants are named after
    services and methods together, and the closures of registrations capture a
    variable [service]. *)
Record compilable (items : list Item) : Prop := {
  cp_parameters st : st ∈ stubs items → (length (sb_parameters st) <= 8)%nat;
  cp_constants : NoDup (map sb_descriptor (stubs items));
  cp_service st n : st ∈ stubs items → n ∈ (sb_parameters st).*1 → unraw n ≠ "service"
}.

Section Document.
Context (d : Document) (items : list Item).
Context (Hok : validate d = Ok tt) (Hgen : generate_items d = Ok items) (Hd : document_ok d items).

Let sc := TypeSchemas_new d.

Lemma literal_type t optional stack l :
  type_literal sc t optional stack = Ok l → validate_reference d t = Ok tt →
  ∃ r p, rust_type t optional = Ok r ∧ resolve items r = Some p ∧ literal_of p = l.
Proof.
  destruct (validate_parts d Hok) as [(names & Hv & _) Href _]. destruct Hd as [Hi Hn]. intros Hl Hr.
  eapply type_literal_resolves; [done..|]. unfold validate_reference in Hr. inv_ok Hr. done.
Qed.

Lemma literal_types fs bs :
  (∀ f, f ∈ fs → validate_reference d (f_type f) = Ok tt) →
  Forall2 (fun f b => type_literal sc (f_type f) (f_optional f) [] = Ok b) fs bs →
  ∃ types ps, collect_results (fun f => rust_type (f_type f) (f_optional f)) fs = Ok types ∧
    mapM (resolve items) types = Some ps ∧ map literal_of ps = bs.
Proof.
  intros Hr Hl. induction Hl as [|f b fs bs Hf _ IH]; [by exists [], []|].
  destruct (literal_type _ _ _ _ Hf) as (r & p & Hrt & Hp & <-); [apply Hr; by left|].
  destruct IH as (types & ps & Ht & Hps & <-); [intros g Hg; apply Hr; by right|].
  exists (r :: types), (p :: ps). simpl. rewrite Hrt, Ht, Hp. simpl. by rewrite Hps.
Qed.

Lemma request_type fs l :
  request_type_literal sc fs [] = Ok l → each_ok (fun f => validate_reference d (f_type f)) fs = Ok tt →
  ∃ types, collect_results (fun f => rust_type (f_type f) (f_optional f)) (ordered_fields fs) = Ok types ∧
    (∀ p, resolve_request items (request_rust_type types) = Some p → literal_of p = l) ∧
    ((0 < length fs <= 8)%nat → ∃ p, resolve_request items (request_rust_type types) = Some p).
Proof.
  rewrite each_ok_Ok, Forall_forall. intros Hl Hr.
  assert (∀ f, f ∈ ordered_fields fs → validate_reference d (f_type f) = Ok tt) as Hr'.
  { intros f Hf. unfold ordered_fields in Hf. rewrite elem_of_sort_by_key in Hf. by apply Hr. }
  assert (length (ordered_fields fs) = length fs) as Hlen by (unfold ordered_fields; by rewrite sort_by_key_perm).
  unfold request_type_literal in Hl. revert Hl Hr' Hlen. generalize (ordered_fields fs). intros l' Hl Hr' Hlen.
  assert ((∃ f, l' = [f] ∧ type_literal sc (f_type f) (f_optional f) [] = Ok l) ∨
    (length l' ≠ 1%nat ∧ ∃ bs, Forall2 (fun f b => type_literal sc (f_type f) (f_optional f) [] = Ok b) l' bs ∧
     l = [TYPE_STRUCT] ++ mjoin bs ++ [TYPE_END])) as [(f & -> & Hf)|(Hne & bs & Hbs & ->)].
  { destruct l' as [|f [|g l']]; [right|left; by exists f|right]; (split; [done|]);
      inv_ok Hl; apply concat_results_Ok in Hy as (bs & Hbs & ->); by exists bs. }
  - destruct (literal_type _ _ _ _ Hf) as (r & p & Hrt & Hp & <-); [apply Hr'; by left|].
    exists [r]. simpl. rewrite Hrt, Hp. split_and!; [done|by intros ? [= <-]|by exists p].
  - destruct (literal_types l' bs Hr' Hbs) as (types & ps & Ht & Hps & <-). exists types. split; [done|].
    pose proof (collect_length _ _ _ Ht) as Hlt.
    assert (request_rust_type types = RTuple types) as ->.
    { destruct types as [|t [|]]; [done|simpl in Hlt; lia|done]. }
    unfold resolve_request. rewrite Hps. cbn [mbind option_bind]. split.
    + intros p. destruct (_ && _); [|done]. intros [= <-].
      change (literal_of (p_struct ps)) with ([TYPE_STRUCT] ++ literal_of (p_fields ps) ++ [TYPE_END]).
      by rewrite literal_fields.
    + intros [H1 H2]. rewrite Hlt, Hlen.
      rewrite (proj2 (Nat.ltb_lt _ _) H1), (proj2 (Nat.leb_le _ _) H2). by eexists.
Qed.

Lemma method_signature s f : (s, f) ∈ methods d →
  validate_reference d (fn_returns f) = Ok tt ∧
  each_ok (fun p => validate_reference d (f_type p)) (fn_parameters f) = Ok tt.
Proof.
  intros Hin. destruct (validate_parts d Hok) as [(names & _ & seen & Hsv) _ _].
  pose proof (proj1 (Forall_forall _ _) (sv_methods _ _ _ _ Hsv) (s, f) Hin) as [_ Hsig].
  unfold validate_signature in Hsig. inv_ok Hsig. by destruct y0, y1.
Qed.

(** The types that a stub names exist, and its hashes are theirs. *)
Lemma stub_types s f st : (s, f) ∈ methods d → generate_stub d s f = Ok st →
  (∃ q, resolve items (sb_returns st) = Some q ∧ sb_response_hash st = type_hash md5_digest (carrier q)) ∧
  match sb_request st with
  | None => fn_parameters f = []
  | Some (rt, h) =>
      fn_parameters f ≠ [] ∧ (∀ p, resolve_request items rt = Some p → h = type_hash md5_digest (carrier p)) ∧
      ((length (fn_parameters f) <= 8)%nat → ∃ p, resolve_request items rt = Some p)
  end.
Proof.
  intros Hin Hs. destruct (method_signature s f Hin) as [Hret Hpar]. unfold generate_stub in Hs. inv_ok Hs.
  destruct (literal_type _ _ _ _ Hy2 Hret) as (r & q & Hr & Hq & Hl). replace y1 with r in * by congruence.
  assert (length y3 = length (fn_parameters f)) as Hlen.
  { unfold typed_fields in Hy3. inv_ok Hy3. apply collect_length in Hy5, Hy6. rewrite length_zip_with, Hy5, Hy6.
    unfold ordered_fields. rewrite sort_by_key_perm. lia. }
  simpl. split; [exists q; split; [done|]; unfold hash_type_literal; by rewrite <- Hl|].
  destruct y3 as [|[n t] ps]; [injection Hy4 as <-; by destruct (fn_parameters f)|]. inv_ok Hy4.
  destruct (request_type _ _ Hy5 Hpar) as (types & Ht & Hlit & Hres).
  assert (types = (((n, t) :: ps).*2)) as ->.
  { unfold typed_fields in Hy3. rewrite Ht in Hy3. inv_ok Hy3. rewrite <- Hy3. symmetry. apply snd_zip.
    apply collect_length in Ht, Hy4. lia. }
  split_and!; [by destruct (fn_parameters f)| |].
  - intros p Hp. rewrite <- (Hlit p Hp). done.
  - intros H8. apply Hres. simpl in Hlen. lia.
Qed.

Lemma stub_of_method st : st ∈ stubs items → ∃ s f, (s, f) ∈ methods d ∧ generate_stub d s f = Ok st.
Proof.
  intros Hst. destruct (Forall2_elem_r _ _ _ _ (stubs_generated d items Hgen) Hst) as ([s f] & Hin & Hg). by exists s, f.
Qed.

(** The parts of a stub that the code around its descriptor is made of. *)
Lemma stub_code s f st : (s, f) ∈ methods d → generate_stub d s f = Ok st →
  sb_arguments st = arguments_of (sb_parameters st).*1 ∧
  map unraw (sb_parameters st).*1 = map (fun p => to_snake_case (f_name p)) (ordered_fields (fn_parameters f)) ∧
  sb_attachment st = fn_attachment f ∧
  match sb_request st with
  | None => sb_parameters st = []
  | Some (rt, _) => sb_parameters st ≠ [] ∧ rt = request_rust_type (sb_parameters st).*2
  end.
Proof.
  intros Hin Hs. unfold generate_stub in Hs. inv_ok Hs. simpl. split_and!; [done| |done|].
  - unfold typed_fields in Hy3. inv_ok Hy3. rewrite fst_zip by (apply collect_length in Hy5, Hy6; lia).
    exact (idents_unraw _ (fun p => to_snake_case (f_name p)) _ _ (fun p => snake_plain _) Hy5).
  - destruct y3; [by injection Hy4 as <-|]. by inv_ok Hy4.
Qed.

Lemma signature_names s f : (s, f) ∈ methods d →
  NoDup (map (fun p => to_snake_case (f_name p)) (ordered_fields (fn_parameters f))) ∧
  (fn_attachment f = true → ∀ p, p ∈ fn_parameters f → reserved_parameter p = false).
Proof.
  intros Hin. destruct (validate_parts d Hok) as [(names & _ & seen & Hsv) _ _].
  pose proof (proj1 (Forall_forall _ _) (sv_methods _ _ _ _ Hsv) (s, f) Hin) as [_ Hsig].
  unfold validate_signature in Hsig. inv_ok Hsig. destruct y. split; [by eapply fields_distinct|].
  intros Ha p Hp. cbn [fst snd] in Hsig. rewrite Ha in Hsig. simpl in Hsig. destruct (existsb _ _) eqn:He; [done|].
  apply not_true_iff_false. intros Hr. rewrite (proj2 (existsb_exists _ _)) in He; [done|].
  exists p. by rewrite <- list_elem_of_In.
Qed.

Lemma request_packed_resolved rt p : resolve_request items rt = Some p → request_packed items rt = p.
Proof.
  destruct rt as [t|ts]; simpl; [unfold packed_at; by intros ->|]. destruct (_ && _); [|done].
  intros (ps & Hps & [= <-])%bind_Some. f_equal. apply mapM_Some in Hps.
  induction Hps as [|t p ts ps Ht _ IH]; [done|]. simpl. rewrite IH. f_equal. unfold packed_at. by rewrite Ht.
Qed.

Context (Hc : compilable items).

Lemma own_constant st : st ∈ stubs items → constant items (sb_descriptor st) = Some st.
Proof.
  intros Hst. pose proof (cp_constants items Hc) as Hn. unfold constant. revert Hn Hst. generalize (stubs items). intros l.
  induction l as [|x l IH]; [set_solver|]. simpl. intros [Hx Hn]%NoDup_cons [<-|Hin]%elem_of_cons; rewrite filter_cons.
  - rewrite decide_True by done. replace (filter _ l) with (@nil Stub); [done|]. symmetry.
    apply list_nil_subseteq. intros y [Hy Hin]%list_elem_of_filter. destruct Hx. rewrite <- Hy. by apply list_elem_of_fmap_2.
  - rewrite decide_False; [by apply IH|]. intros He. destruct Hx. rewrite He. by apply list_elem_of_fmap_2.
Qed.

(** Every method works. *)
Lemma stub_works st : st ∈ stubs items → working items st.
Proof.
  intros Hst. destruct (stub_of_method _ Hst) as (s & f & Hin & Hg).
  destruct (stub_types s f st Hin Hg) as [(q & Hq & Hresp) Hreq]. destruct (stub_route _ _ _ _ Hg) as [Hid Hw].
  destruct (stub_code s f st Hin Hg) as (Hargs & Hnames & Hatt & Hrt). destruct (signature_names s f Hin) as [Hnd Hres].
  pose proof (cp_parameters items Hc st Hst) as H8.
  assert (length (fn_parameters f) = length (sb_parameters st)) as Hlen.
  { apply (f_equal length) in Hnames. rewrite !length_map in Hnames.
    unfold ordered_fields in Hnames. by rewrite sort_by_key_perm in Hnames. }
  assert (packed_at items (sb_returns st) = q) as Hpq by (unfold packed_at; by rewrite Hq).
  split; [done|by rewrite Hnames| |by intros; eapply cp_service|by apply own_constant| |by rewrite Hid, Hw|by rewrite Hpq|].
  - intros Ha n Hn. rewrite Hatt in Ha.
    assert (unraw n ∈ map (fun p => to_snake_case (f_name p)) (ordered_fields (fn_parameters f))) as Hu
      by (rewrite <- Hnames; by apply list_elem_of_fmap_2).
    apply list_elem_of_fmap in Hu as (p & -> & Hp). unfold ordered_fields in Hp. rewrite elem_of_sort_by_key in Hp.
    specialize (Hres Ha p Hp). unfold reserved_parameter in Hres. apply orb_false_iff in Hres as [H1 H2].
    by apply String.eqb_neq in H1, H2.
  - unfold fitting. rewrite Hq. rewrite !bool_decide_true by done. destruct (sb_request st) as [[rt h]|]; [|done].
    destruct Hreq as (_ & _ & Hex). apply bool_decide_eq_true. apply Hex. lia.
  - destruct (sb_request st) as [[rt h]|]; [|done]. destruct Hrt as [Hne Hrt], Hreq as (_ & Hhash & Hex).
    destruct Hex as [p Hp]; [lia|]. split_and!; [done|done|]. rewrite (request_packed_resolved rt p Hp). by apply Hhash.
Qed.
End Document.

(** C22: The descriptors of a generated service are exact.  The generated code
    names a Rust type that exists for the response of every method of an accepted
    document, and for the request of every method of up to eight parameters, the
    length that tuples are implemented for.  Wherever the types exist, the
    identifiers of the route and of the types, which the generator computes from
    the interface definition alone, are those that the runtime computes from the
    name and from the [StructPack] implementations of these types.  Enum values are [i32]s, as
    the parser yields them, and names have a bounded length. *)
Theorem descriptors_exact d items st :
  validate d = Ok tt → generate_items d = Ok items → document_ok d items → st ∈ stubs items →
  (∃ q, resolve items (sb_returns st) = Some q ∧
     (sb_request st = None → no_args_descriptor st (carrier q) = RpcNoArgsMethod_new md5_digest (text (sb_wire_name st))) ∧
     ∀ rt h p, sb_request st = Some (rt, h) → resolve_request items rt = Some p →
       descriptor st (carrier p) (carrier q) = RpcMethod_new md5_digest (text (sb_wire_name st))) ∧
  (∀ rt h, sb_request st = Some (rt, h) → (length (sb_parameters st) <= 8)%nat → ∃ p, resolve_request items rt = Some p).
Proof.
  intros Hok Hgen Hd Hst. destruct (stub_of_method d items Hgen st Hst) as (s & f & Hin & Hg).
  destruct (stub_types d items Hok Hgen Hd s f st Hin Hg) as [(q & Hq & Hh) Hreq].
  destruct (stub_route _ _ _ _ Hg) as [Hid Hw]. split.
  - exists q. split; [done|]. split.
    + intros _. unfold no_args_descriptor, no_args_from_generated_parts. by rewrite Hid, Hh, Hw.
    + intros rt h p Hr Hp. rewrite Hr in Hreq. destruct Hreq as (_ & Hex & _).
      unfold descriptor, from_generated_parts, request_hash. by rewrite Hr, Hid, Hh, Hw, (Hex p Hp).
  - intros rt h Hr Hlen. rewrite Hr in Hreq. destruct Hreq as (_ & _ & Hex). apply Hex.
    unfold generate_stub in Hg. inv_ok Hg. simpl in Hlen. unfold typed_fields in Hy3. inv_ok Hy3.
    apply collect_length in Hy5, Hy6. rewrite length_zip_with, Hy5, Hy6 in Hlen.
    unfold ordered_fields in Hlen. rewrite sort_by_key_perm in Hlen. lia.
Qed.

(** C11: The services of an accepted document work end to end, when its generated
    code compiles.  Validation does not see to the latter entirely: it is asked
    here that no method has more than eight parameters, that no two descriptor
    constants have the same name, and that no parameter is named [service].  Then
    the methods of all services can be registered on one server, whatever they
    do: no two have the same route.  A call of the generated client returns
    exactly what the implementation of that method returns for the values that
    the caller passed for its parameters, in their order, and for the request's
    context, or its failure, as long as the frames fit the limits of both ends:
    the tuple that the client sends is the one that the closure of the server
    takes apart.  Enum values are [i32]s, as the parser yields them, and names in
    the errors of generated types have a bounded length. *)
Theorem generated_services_run d items (bs : list (Binding (Addr := Addr) items))
    (digest_bytes : ∀ input, bytes_ok (md5_digest input)) :
  validate d = Ok tt → generate_items d = Ok items → document_ok d items → compilable items →
  map (bn_stub items) bs = stubs items →
  ∃ registration routes, register_all items bs = Some registration ∧ registration ∅ = Ok routes ∧
    ∀ b c slimits peer values attachment,
      let ctx := mkContext (ci_next_sequence c) (sb_route_id (bn_stub items b)) attachment peer in
      b ∈ bs → map (val_type items) values = (sb_parameters (bn_stub items b)).*2 →
      callable items c slimits (bn_stub items b) values attachment →
      outcome_fits md5_digest (ci_frame_limits c) (outcome items b values ctx) →
      client_call items c slimits routes peer (bn_stub items b) values attachment =
        Some (outcome_result (outcome items b values ctx)).
Proof.
  intros Hok Hgen Hd Hc Hbs.
  destruct (register_each items bs ∅) as (rs & routes & Hm & Hr & _ & Hall).
  { apply Forall_forall. intros b Hb. apply (stub_works d items Hok Hgen Hd Hc). rewrite <- Hbs. by apply list_elem_of_fmap_2. }
  { rewrite <- (map_map (bn_stub items) sb_route_id), Hbs, (stub_routes d items Hgen).
    destruct (validate_parts d Hok) as [(names & _ & seen & Hsv) _ _]. apply Hsv. }
  { intros b _. apply lookup_empty. }
  eexists _, routes. split; [unfold register_all; by rewrite Hm|]. split; [exact Hr|].
  intros b c slimits peer values attachment ctx Hb Hv Hcall Hout. destruct (Hall b Hb) as (h & Hroute & Hh).
  by apply (Hh digest_bytes).
Qed.

Lemma generate_modules components : ∀ body,
  match try_fold (fun body component =>
          let? m := rust_ident "namespace" (to_snake_case component) in Ok (Mod m body)) body components with
  | Ok m => map unraw (module_path m) = reverse (map to_snake_case components) ++ map unraw (module_path body) ∧
            module_items m = module_items body
  | Err e => ∃ c, c ∈ components ∧ e = InvalidContract (NotAnIdentifier "namespace" (to_snake_case c))
  | Panic => False
  end.
Proof.
  induction components as [|c components IH]; intros body; simpl; [done|].
  destruct (rust_ident "namespace" (to_snake_case c)) as [m|e|] eqn:Hm; simpl; [| |by apply rust_ident_total in Hm].
  - specialize (IH (Mod m body)). case_match; [|set_solver|done]. destruct IH as [-> ->]. split; [|done]. simpl.
    by rewrite (ident_unraw _ _ _ (snake_plain _) Hm), reverse_cons, <- app_assoc.
  - exists c. split; [by left|]. unfold rust_ident in Hm. repeat case_match; try done. by injection Hm as <-.
Qed.

(** C28: What validation accepts is generated.  The generator returns the errors
    of validation; without one every definition and every service becomes an
    item, the [expect]s and [format_ident!]s on the way hold, and only a part of
    the namespace that is no identifier is still refused.  No two types and
    traits of the module, variants of an enum, values of its variants, fields of
    a struct, methods of a trait or parameters of a method have the same name;
    the descriptor constants, which are in the namespace of values and which
    validation does not check, are not part of this.  The modules are those of
    the namespace, the first part outermost. *)
Theorem accepted_documents_generate d :
  match validate d with
  | Err e => generate d = Err e
  | Panic => False
  | Ok _ => ∃ items, generate_items d = Ok items ∧
      NoDup (map unraw (mjoin (map item_names items))) ∧ Forall item_distinct items ∧
      match generate d with
      | Ok m => module_items m = items ∧ map unraw (module_path m) = map to_snake_case (rust_namespace d)
      | Err e => ∃ c, c ∈ rust_namespace d ∧ e = InvalidContract (NotAnIdentifier "namespace" (to_snake_case c))
      | Panic => False
      end
  end.
Proof.
  destruct (validate d) as [[]|e|] eqn:Hok; [|unfold generate; by rewrite Hok|by apply validate_total in Hok].
  destruct (items_generated d Hok) as [items Hi]. exists items.
  split_and!; [done|by apply (module_distinct d)|by apply (items_distinct d)|].
  unfold generate. rewrite Hok, Hi. cbn [res_bind].
  pose proof (generate_modules (reverse (rust_namespace d)) (Items items)) as Hm.
  destruct (try_fold _ _ _) as [m|e|]; [|by setoid_rewrite elem_of_reverse in Hm|done]. destruct Hm as [-> ->]. split; [done|].
  change (map to_snake_case (reverse ?l)) with (to_snake_case <$> reverse l).
  by rewrite app_nil_r, fmap_reverse, reverse_involutive.
Qed.
End Claims.

(** ** Example

    A toolchain that works on ASCII, with the laws that the theorems ask of one,
    and a document with definitions of each kind and a service. *)

(** ** Names in ASCII *)

Definition lower (c : N) : bool := (97 <=? c) && (c <=? 122).
Definition upper (c : N) : bool := (65 <=? c) && (c <=? 90).
Definition digit (c : N) : bool := (48 <=? c) && (c <=? 57).
Definition word (c : N) : bool := lower c || upper c || digit c || (c =? 95).

Definition to_lower (c : N) : N := if upper c then c + 32 else c.
Definition to_upper (c : N) : N := if lower c then c - 32 else c.

(** The words of a name are separated by underscores here. *)
Definition ascii_snake (s : string) : string := of_text (map to_lower (List.filter word (text s))).
Definition ascii_shouty (s : string) : string := of_text (map to_upper (List.filter word (text s))).
Definition ascii_camel (s : string) : string :=
  of_text (mjoin (map (fun p => match p with c :: l => to_upper c :: l | [] => [] end)
                    (split_codes 95 (List.filter word (text s))))).

Definition ident_codes (l : list N) : bool :=
  match l with
  | [] | [95] => false
  | c :: _ => negb (digit c) && forallb word l
  end.

Definition keywords : list string :=
  ["as"; "async"; "await"; "break"; "const"; "continue"; "crate"; "dyn"; "else"; "enum"; "extern"; "false"; "fn"; "for";
   "if"; "impl"; "in"; "let"; "loop"; "match"; "mod"; "move"; "mut"; "pub"; "ref"; "return"; "self"; "Self"; "static";
   "struct"; "super"; "trait"; "true"; "type"; "unsafe"; "use"; "where"; "while"].

Definition ascii_ident (s : string) : bool := ident_codes (text s).
Definition ascii_parse (s : string) : bool :=
  match strip_prefix "r#" s with
  | Some name => ascii_ident name && negb (existsb (String.eqb name) ["crate"; "self"; "Self"; "super"])
  | None => ascii_ident s && negb (existsb (String.eqb s) keywords)
  end.

(** A stand-in digest of 16 bytes that all bytes of the input go into. *)
Definition mixing_digest (input : bytes) : bytes := le_bytes 16 (foldl (fun h c => (h * 257 + c + 1) mod 2 ^ 128) 5381 input).

#[export] Instance ascii : Toolchain := {
  to_snake_case := ascii_snake;
  to_upper_camel_case := ascii_camel;
  to_shouty_snake_case := ascii_shouty;
  parse_ident := ascii_parse;
  ident_new := ascii_ident;
  md5_digest := mixing_digest
}.

Lemma word_ranges c : word c = true ↔ (97 <= c <= 122 ∨ 65 <= c <= 90 ∨ 48 <= c <= 57 ∨ c = 95).
Proof. unfold word, lower, upper, digit. rewrite !orb_true_iff, !andb_true_iff, !N.leb_le, N.eqb_eq. tauto. Qed.
Lemma word_code c : word c = true → c < 128 ∧ c ≠ 35.
Proof. rewrite word_ranges. lia. Qed.
Lemma word_lower c : word c = true → word (to_lower c) = true.
Proof. unfold to_lower, upper. rewrite !word_ranges. destruct (_ && _) eqn:Hc; bool_to_prop; lia. Qed.
Lemma word_upper c : word c = true → word (to_upper c) = true.
Proof. unfold to_upper, lower. rewrite !word_ranges. destruct (_ && _) eqn:Hc; bool_to_prop; lia. Qed.

Lemma words_text l : Forall (fun c => word c = true) l → text (of_text l) = l.
Proof. intros Hl. apply text_of_text. eapply Forall_impl; [exact Hl|]. intros c Hc%word_code. lia. Qed.

Lemma filtered_words s : Forall (fun c => word c = true) (List.filter word (text s)).
Proof. apply Forall_forall. by intros c [_ Hc]%filter_elem. Qed.

Lemma snake_words s : Forall (fun c => word c = true) (map to_lower (List.filter word (text s))).
Proof. apply Forall_fmap. eapply Forall_impl; [apply filtered_words|]. apply word_lower. Qed.
Lemma shouty_words s : Forall (fun c => word c = true) (map to_upper (List.filter word (text s))).
Proof. apply Forall_fmap. eapply Forall_impl; [apply filtered_words|]. apply word_upper. Qed.

Lemma split_words c l : Forall (fun c => word c = true) l → Forall (Forall (fun c => word c = true)) (split_codes c l).
Proof.
  induction 1 as [|x l Hx _ IH]; simpl; [by repeat constructor|]. destruct (x =? c); [by constructor|].
  destruct (split_codes c l) as [|p ps]; [by repeat constructor|]. apply Forall_cons in IH as [Hp Hps]. by repeat constructor.
Qed.

Lemma words_plain l : Forall (fun c => word c = true) l → plain (of_text l).
Proof.
  intros Hl. unfold plain, strip_prefix. rewrite (words_text l Hl). change (text "r#") with [114; 35].
  destruct l as [|a l]; [done|]. cbn [strip_codes]. destruct (114 =? a); [|done].
  destruct l as [|b l]; [done|]. destruct (N.eqb_spec 35 b) as [<-|]; [|done].
  apply Forall_cons in Hl as [_ Hl]. by apply Forall_cons in Hl as [? _].
Qed.

#[export] Instance ascii_laws : ToolchainLaws.
Proof.
  split.
  - intros name. apply words_plain, Forall_join. apply Forall_fmap.
    eapply Forall_impl; [apply split_words, filtered_words|]. intros [|c p] Hp; simpl; [done|].
    apply Forall_cons in Hp as [Hc Hp]. constructor; [by apply word_upper|done].
  - intros name. apply words_plain, snake_words.
  - intros a b _ _. simpl. unfold ascii_ident. rewrite !text_app. unfold ascii_shouty.
    rewrite !words_text by apply shouty_words. generalize (shouty_words a), (shouty_words b).
    generalize (map to_upper (List.filter word (text a))), (map to_upper (List.filter word (text b))). intros la lb Ha Hb.
    change (forallb word (text "__" ++ la ++ text "_" ++ lb ++ text "_METHOD") = true).
    apply forallb_forall. intros c Hc%list_elem_of_In. revert c Hc.
    apply Forall_forall. repeat (apply Forall_app; split); try done; by repeat constructor.
  - intros name Hp. unfold accepted. simpl. unfold ascii_parse. rewrite strip_prefix_app, Hp.
    intros [H|H]; by apply andb_true_iff in H as [H _].
Qed.

Lemma mixing_digest_ok (input : bytes) : bytes_ok (md5_digest input).
Proof. apply le_bytes_ok. Qed.

(** ** A catalog *)

Definition catalog : Document := {|
  rust_namespace := ["demo"; "catalog"];
  cpp_namespace := Some "demo";
  typedefs := [mkTypedef "key" String_];
  enums := [mkEnum "mode" [mkVariant "exact" 0; mkVariant "prefix" 1] ReprU8];
  unions := [mkUnion "reply" [mkField 1 "found" (Named "entry") false; mkField 2 "missing" I32 false] false];
  structs := [mkStruct "entry" [mkField 1 "key" (Named "key") false; mkField 2 "type" (Set_ I64) true] false];
  services := [mkService "catalog" None
    [mkFunction "ping" None false Void [];
     mkFunction "canonical" None false (Named "key") [mkField 1 "key" (Named "key") false];
     mkFunction "find" (Some "catalog.find") true (Named "reply")
       [mkField 1 "key" (Named "key") false; mkField 2 "mode" (Named "mode") false];
     mkFunction "join" None false (Named "key") [mkField 2 "right" (Named "key") false; mkField 1 "left" (Named "key") false]]]
|}.

Definition catalog_items : list Item :=
  Eval vm_compute in match generate_items catalog with Ok items => items | _ => [] end.

Lemma catalog_valid : validate catalog = Ok tt.
Proof. by vm_compute. Qed.
Lemma catalog_generated : generate_items catalog = Ok catalog_items.
Proof. by vm_compute. Qed.

Definition stub_at (i : nat) : Stub :=
  List.nth i (stubs catalog_items) (mkStub "" "" "" 0 [] None RUnit 0 NoArguments false).

Local Abbreviation CatalogBinding := (Binding (Addr := N) catalog_items).
Local Abbreviation CatalogValue := (Value catalog_items).
Local Abbreviation key_type := (RPath "Key").

Definition key_value (l : bytes) : CatalogValue := mkValue catalog_items key_type (mkStr l).
Definition key_bytes (v : CatalogValue) : bytes :=
  match decide (val_type catalog_items v = key_type) with
  | left e => str_bytes (eq_rect _ (fun t => carrier (packed_at catalog_items t)) (val_data catalog_items v) _ e)
  | right _ => []
  end.

Definition ping_binding : CatalogBinding := mkBinding catalog_items (stub_at 0) (fun _ => inl tt).
Definition canonical_binding : CatalogBinding :=
  mkBinding catalog_items (stub_at 1) (fun values => inl (mkStr (mjoin (map key_bytes values) ++ [47]))).
Definition find_binding : CatalogBinding :=
  mkBinding catalog_items (stub_at 2) (fun _ _ => inr (RpcFailure_new 404 (text "not found"))).
Definition join_binding : CatalogBinding :=
  mkBinding catalog_items (stub_at 3) (fun values =>
    match values with
    | [left_; right_] => inl (mkStr (key_bytes left_ ++ [47] ++ key_bytes right_))
    | _ => inr (RpcFailure_new 400 (text "two keys"))
    end).
Definition catalog_bindings : list CatalogBinding := [ping_binding; canonical_binding; find_binding; join_binding].

Lemma catalog_stubs : map (bn_stub catalog_items) catalog_bindings = stubs catalog_items.
Proof. reflexivity. Qed.

Lemma catalog_compilable : compilable catalog_items.
Proof.
  assert (Forall (fun st => (length (sb_parameters st) <= 8)%nat) (stubs catalog_items)) as Hp
    by (repeat constructor; vm_compute; lia).
  assert (Forall (fun st => Forall (fun n => unraw n ≠ "service") (sb_parameters st).*1) (stubs catalog_items)) as Hs
    by (repeat constructor; vm_compute; discriminate).
  rewrite Forall_forall in Hp, Hs. split; [done|apply (bool_decide_unpack _); vm_compute; exact I|].
  intros st n Hst. specialize (Hs st Hst). rewrite Forall_forall in Hs. by apply Hs.
Qed.

Lemma catalog_ok : document_ok catalog catalog_items.
Proof.
  assert (Forall (fun e => Forall (fun v => in_i32 (v_value v) = true) (e_variants e)) (enums catalog)) as Hv
    by (by repeat constructor).
  assert (Forall (fun i => Forall (fun n => name_ok (text n)) (item_names i)) catalog_items) as Hn
    by (repeat constructor; by vm_compute).
  rewrite Forall_forall in Hv. rewrite Forall_forall in Hn. split.
  - intros e v He. specialize (Hv e He). rewrite Forall_forall in Hv. apply Hv.
  - intros i n Hi. specialize (Hn i Hi). rewrite Forall_forall in Hn. apply Hn.
Qed.

Lemma accepted_documents_generate_witness :
  ∃ items, generate_items catalog = Ok items ∧ NoDup (map unraw (mjoin (map item_names items))) ∧
    ∃ m, generate catalog = Ok m ∧ module_items m = items ∧ map unraw (module_path m) = ["demo"; "catalog"].
Proof.
  pose proof (accepted_documents_generate catalog) as H. rewrite catalog_valid in H.
  destruct H as (items & Hi & Hn & _ & H). exists items. split; [exact Hi|]. split; [exact Hn|].
  assert (match generate catalog with Ok _ => true | _ => false end = true) as Hs by (vm_compute; reflexivity).
  destruct (generate catalog) as [m| |]; [|discriminate Hs..]. exists m. destruct H as [-> Hp]. split; [reflexivity|].
  split; [reflexivity|]. rewrite Hp. vm_compute. reflexivity.
Defined.

Lemma descriptors_exact_witness :
  ∃ q, resolve catalog_items (RPath "Reply") = Some q ∧
    (∀ rt h p, sb_request (stub_at 2) = Some (rt, h) → resolve_request catalog_items rt = Some p →
       descriptor (stub_at 2) (carrier p) (carrier q) = RpcMethod_new mixing_digest (text "catalog.find")) ∧
    ∃ rt h p, sb_request (stub_at 2) = Some (rt, h) ∧ resolve_request catalog_items rt = Some p.
Proof.
  assert (stub_at 2 ∈ stubs catalog_items) as Hin by (right; right; left).
  destruct (descriptors_exact catalog catalog_items (stub_at 2) catalog_valid catalog_generated catalog_ok Hin)
    as [(q & Hq & _ & Hd) Hr].
  exists q. split; [exact Hq|]. split; [exact Hd|].
  destruct (sb_request (stub_at 2)) as [[rt h]|] eqn:Hs; [|discriminate Hs].
  destruct (Hr rt h eq_refl) as [p Hp]; [vm_compute; lia|]. by exists rt, h, p.
Defined.

Lemma generated_services_run_witness :
  ∃ registration routes,
    register_all catalog_items catalog_bindings = Some registration ∧ registration ∅ = Ok routes ∧
    client_call catalog_items example_client limits_default routes 9 (stub_at 0) [] [] = Some (Ok (mkResponse tt [])) ∧
    client_call catalog_items example_client limits_default routes 9 (stub_at 3) [key_value [97]; key_value [98]] [] =
      Some (Ok (mkResponse (mkStr [97; 47; 98]) [])).
Proof.
  destruct (generated_services_run catalog catalog_items catalog_bindings mixing_digest_ok catalog_valid
    catalog_generated catalog_ok catalog_compilable catalog_stubs) as (registration & routes & Hreg & Hr & Hcall).
  exists registration, routes. split; [exact Hreg|]. split; [exact Hr|]. split.
  - refine (Hcall ping_binding example_client limits_default 9 [] [] _ _ _ _); [by left|reflexivity|by vm_compute|].
    split; [by vm_compute|]. split; [by vm_compute|]. intros body Hb. vm_compute in Hb. injection Hb as <-. by vm_compute.
  - refine (Hcall join_binding example_client limits_default 9 [key_value [97]; key_value [98]] [] _ _ _ _).
    + right; right; right; by left.
    + reflexivity.
    + split; [done|done|by vm_compute|by vm_compute|]. intros body Hb. vm_compute in Hb. injection Hb as <-. by vm_compute.
    + split; [by vm_compute|]. split; [by vm_compute|]. intros body Hb. vm_compute in Hb. injection Hb as <-. by vm_compute.
Defined.
