(* ===== verification/ServerConnection.v ===== *)
(** * The server's connection driver

    [ServerConnection] of [src/crates/coro-rpc/src/server.rs]: one poll of the
    driver reads requests, collects finished handlers, sends responses and
    flushes, within a budget.  What the transport and the handlers answer when
    they are polled is given by the environment, a sequence of answers per
    source; a source without a further answer is pending. *)
From S2P Require Import Prelude Wire Protocol StructPack RpcCall.

Inductive Poll (A : Type) := Ready (x : A) | Pending.
Arguments Ready {A} _. Arguments Pending {A}.

Definition DRIVER_POLL_BUDGET : nat := 1024.

(** The next answer of a source. *)
Definition answer {A} (l : list (Poll A)) : Poll A * list (Poll A) :=
  match l with
  | [] => (Pending, [])
  | x :: l' => (x, l')
  end.

(** The answers of [transport.poll_next], of [in_flight.poll_next] (the position
    of the finished handler), of [transport.poll_ready] and of
    [transport.poll_flush]. *)
Record Environment := mkEnv {
  e_read : list (Poll (option (RequestFrame + FrameError)));
  e_finished : list (Poll nat);
  e_ready : list (Poll (unit + FrameError));
  e_flush : list (Poll (unit + FrameError))
}.

Definition set_read l (e : Environment) := mkEnv l (e_finished e) (e_ready e) (e_flush e).
Definition set_finished l (e : Environment) := mkEnv (e_read e) l (e_ready e) (e_flush e).
Definition set_ready l (e : Environment) := mkEnv (e_read e) (e_finished e) l (e_flush e).
Definition set_flush l (e : Environment) := mkEnv (e_read e) (e_finished e) (e_ready e) l.

(** [ServerConnection]: [in_flight] are the outcomes of the running handlers,
    [out] is the transport's write buffer.  [accepted], [started] and [flushed]
    are history: the requests read, the responses handed to the transport, and
    how many of them were flushed. *)
Record ServerConnection := mkConn {
  in_flight : list (res Infallible ResponseFrame);
  pending_responses : list ResponseFrame;
  buffered_responses : N;
  max_in_flight : N;
  read_closed : bool;
  out : bytes;
  accepted : list RequestFrame;
  started : list ResponseFrame;
  flushed : nat
}.

Definition connection_new (max_in_flight_per_connection : N) : ServerConnection :=
  mkConn [] [] 0 (N.max max_in_flight_per_connection 1) false [] [] [] 0.

Definition active_requests (c : ServerConnection) : N :=
  N.of_nat (length (in_flight c)) + N.of_nat (length (pending_responses c)) + buffered_responses c.

(** How a poll ends. *)
Inductive Outcome :=
| Done
| Failed (e : FrameError)
| Parked
| Panicked
| OutOfFuel.

(** The state of one poll: [progressed] of the current round and whether the
    task will be woken, because a source of this round is pending or it woke
    itself. *)
Record Turn := mkTurn {
  t_conn : ServerConnection;
  t_env : Environment;
  t_progressed : bool;
  t_waker : bool
}.

Inductive Flow :=
| Go (budget : nat) (t : Turn)
| Stop (o : Outcome) (budget : nat) (t : Turn).

Notation "'go?' b t := m 'in' k" :=
  (match m with Go b t => k | Stop o b' t' => Stop o b' t' end)
  (at level 10, b name, t name, m at level 100, k at level 200) : cake_scope.

(** The element at a position, counted around the list, and the others. *)
Definition pick {A} (k : nat) (l : list A) : option (A * list A) :=
  match l !! (k mod length l)%nat with
  | Some x => Some (x, take (k mod length l) l ++ drop (S (k mod length l)) l)
  | None => None
  end.

Section Driver.
Context (md5 : bytes → bytes) {Addr : Type}.
Context (routes : gmap N (Route (Addr := Addr))) (peer : Addr).

Definition push_request (r : RequestFrame) (c : ServerConnection) : ServerConnection :=
  mkConn (in_flight c ++ [service_call md5 routes peer r]) (pending_responses c)
    (buffered_responses c) (max_in_flight c) (read_closed c) (out c) (accepted c ++ [r])
    (started c) (flushed c).

Definition close_read (c : ServerConnection) : ServerConnection :=
  mkConn (in_flight c) (pending_responses c) (buffered_responses c) (max_in_flight c) true (out c)
    (accepted c) (started c) (flushed c).

Definition finish_one (rest : list (res Infallible ResponseFrame)) (f : ResponseFrame)
    (c : ServerConnection) : ServerConnection :=
  mkConn rest (pending_responses c ++ [f]) (buffered_responses c) (max_in_flight c)
    (read_closed c) (out c) (accepted c) (started c) (flushed c).

Definition start_one (rest : list ResponseFrame) (f : ResponseFrame) (out' : bytes)
    (c : ServerConnection) : ServerConnection :=
  mkConn (in_flight c) rest (buffered_responses c + 1) (max_in_flight c) (read_closed c) out'
    (accepted c) (started c ++ [f]) (flushed c).

Definition drop_response (rest : list ResponseFrame) (c : ServerConnection) : ServerConnection :=
  mkConn (in_flight c) rest (buffered_responses c) (max_in_flight c) (read_closed c) (out c)
    (accepted c) (started c) (flushed c).

Definition flush_all (c : ServerConnection) : ServerConnection :=
  mkConn (in_flight c) (pending_responses c) 0 (max_in_flight c) (read_closed c) (out c)
    (accepted c) (started c) (length (started c)).

(** The first inner loop. *)
Fixpoint read_loop (budget : nat) (t : Turn) : Flow :=
  let c := t_conn t in
  if negb (read_closed c) && (active_requests c <? max_in_flight c) then
    match budget with
    | O => Go O t
    | S budget' =>
        match answer (e_read (t_env t)) with
        | (Ready (Some (inl r)), l) =>
            read_loop budget' (mkTurn (push_request r c) (set_read l (t_env t)) true (t_waker t))
        | (Ready (Some (inr e)), l) =>
            Stop (Failed e) budget (mkTurn c (set_read l (t_env t)) (t_progressed t) (t_waker t))
        | (Ready None, l) =>
            Go budget (mkTurn (close_read c) (set_read l (t_env t)) true (t_waker t))
        | (Pending, l) =>
            Go budget (mkTurn c (set_read l (t_env t)) (t_progressed t) true)
        end
    end
  else Go budget t.

(** The second inner loop. *)
Fixpoint finish_loop (budget : nat) (t : Turn) : Flow :=
  let c := t_conn t in
  match in_flight c, budget with
  | [], _ | _, O => Go budget t
  | _ :: _, S budget' =>
      match answer (e_finished (t_env t)) with
      | (Ready k, l) =>
          match pick k (in_flight c) with
          | Some (Ok f, rest) =>
              finish_loop budget' (mkTurn (finish_one rest f c) (set_finished l (t_env t)) true (t_waker t))
          | Some (Err never, _) => match never with end
          | _ => Stop Panicked budget (mkTurn c (set_finished l (t_env t)) (t_progressed t) (t_waker t))
          end
      | (Pending, l) => Go budget (mkTurn c (set_finished l (t_env t)) (t_progressed t) true)
      end
  end.

(** The third inner loop. *)
Fixpoint send_loop (budget : nat) (t : Turn) : Flow :=
  let c := t_conn t in
  match pending_responses c, budget with
  | [], _ | _, O => Go budget t
  | f :: rest, S budget' =>
      match answer (e_ready (t_env t)) with
      | (Ready (inl _), l) =>
          match server_encode f (out c) with
          | (Ok _, out') =>
              send_loop budget' (mkTurn (start_one rest f out' c) (set_ready l (t_env t)) true (t_waker t))
          | (Err e, _) =>
              Stop (Failed e) budget
                (mkTurn (drop_response rest c) (set_ready l (t_env t)) (t_progressed t) (t_waker t))
          | (Panic, _) =>
              Stop Panicked budget
                (mkTurn (drop_response rest c) (set_ready l (t_env t)) (t_progressed t) (t_waker t))
          end
      | (Ready (inr e), l) =>
          Stop (Failed e) budget (mkTurn c (set_ready l (t_env t)) (t_progressed t) (t_waker t))
      | (Pending, l) => Go budget (mkTurn c (set_ready l (t_env t)) (t_progressed t) true)
      end
  end.

Definition flush_step (budget : nat) (t : Turn) : Flow :=
  let c := t_conn t in
  if negb (buffered_responses c =? 0) then
    match answer (e_flush (t_env t)) with
    | (Ready (inl _), l) =>
        Go budget (mkTurn (flush_all c) (set_flush l (t_env t)) true (t_waker t))
    | (Ready (inr e), l) =>
        Stop (Failed e) budget (mkTurn c (set_flush l (t_env t)) (t_progressed t) (t_waker t))
    | (Pending, l) => Go budget (mkTurn c (set_flush l (t_env t)) (t_progressed t) true)
    end
  else Go budget t.

(** One round of the outer loop; [Go] when there is another. *)
Definition round (budget : nat) (t : Turn) : Flow :=
  go? b1 t1 := read_loop budget (mkTurn (t_conn t) (t_env t) false false) in
  go? b2 t2 := finish_loop b1 t1 in
  go? b3 t3 := send_loop b2 t2 in
  go? b4 t4 := flush_step b3 t3 in
  if read_closed (t_conn t4) && (active_requests (t_conn t4) =? 0) then Stop Done b4 t4
  else if (b4 =? 0)%nat
  then Stop Parked b4 (mkTurn (t_conn t4) (t_env t4) (t_progressed t4) true)
  else if negb (t_progressed t4) then Stop Parked b4 t4
  else Go b4 t4.

Fixpoint rounds (fuel budget : nat) (t : Turn) : Outcome * nat * Turn :=
  match fuel with
  | O => (OutOfFuel, budget, t)
  | S fuel' =>
      match round budget t with
      | Stop o b t' => (o, b, t')
      | Go b t' => rounds fuel' b t'
      end
  end.

(** [ServerConnection::poll]; every round but the last uses budget, closes the
    read side or empties the buffer. *)
Definition poll (c : ServerConnection) (e : Environment) : Outcome * nat * Turn :=
  rounds (2 * DRIVER_POLL_BUDGET + 3) DRIVER_POLL_BUDGET (mkTurn c e false false).
End Driver.
