(* ===== verification/ServerConnectionProps.v ===== *)
(** * What the connection driver promises

    The loops of a poll are sequences of small steps; the invariant, the bounds
    and the termination measure are proved for the steps. *)
From S2P Require Import Prelude Wire Protocol StructPack StructPackLaws StructPackProps.
From S2P Require Import RpcCall RpcProps ServerConnection.

Section Steps.
Context (md5 : bytes → bytes) {Addr : Type}.
Context (routes : gmap N (Route (Addr := Addr))) (peer : Addr).

(** Requests as the decoder delivers them. *)
Definition request_ok (r : RequestFrame) : Prop :=
  rq_sequence (rq_header r) < 2 ^ 32 ∧ bytes_ok (rq_body r).

Definition env_ok (e : Environment) : Prop :=
  Forall (fun p => match p with Ready (Some (inl r)) => request_ok r | _ => True end) (e_read e).

Definition any_limits : FrameLimits := mkLimits (2 ^ 32) (2 ^ 32).

Context (answers_all : ∀ r, request_ok r →
  ∃ f, service_call md5 routes peer r = Ok f ∧ response_frame_ok any_limits f).

Local Abbreviation call := (service_call md5 routes peer).

(** One step of the driver: budget and turn before and after. *)
Inductive micro : nat * Turn → nat * Turn → Prop :=
| m_read b c e p w r l :
    read_closed c = false → active_requests c < max_in_flight c →
    answer (e_read e) = (Ready (Some (inl r)), l) →
    micro (S b, mkTurn c e p w) (b, mkTurn (push_request md5 routes peer r c) (set_read l e) true w)
| m_close b c e p w l :
    read_closed c = false → answer (e_read e) = (Ready None, l) →
    micro (b, mkTurn c e p w) (b, mkTurn (close_read c) (set_read l e) true w)
| m_finish b c e p w k l f rest :
    answer (e_finished e) = (Ready k, l) → pick k (in_flight c) = Some (Ok f, rest) →
    micro (S b, mkTurn c e p w) (b, mkTurn (finish_one rest f c) (set_finished l e) true w)
| m_start b c e p w u l f rest out' :
    answer (e_ready e) = (Ready (inl u), l) → pending_responses c = f :: rest →
    server_encode f (out c) = (Ok tt, out') →
    micro (S b, mkTurn c e p w) (b, mkTurn (start_one rest f out' c) (set_ready l e) true w)
| m_flush b c e p w u l :
    buffered_responses c ≠ 0 → answer (e_flush e) = (Ready (inl u), l) →
    micro (b, mkTurn c e p w) (b, mkTurn (flush_all c) (set_flush l e) true w)
| m_env b c e e' p w w' :
    (∀ P, Forall P (e_read e) → Forall P (e_read e')) →
    micro (b, mkTurn c e p w) (b, mkTurn c e' p w').

(** ** The invariant *)

Record conn_inv (m : N) (c : ServerConnection) : Prop := {
  ci_max : max_in_flight c = m;
  ci_room : active_requests c <= m;
  ci_requests : Forall request_ok (accepted c);
  ci_balance :
    map call (accepted c) ≡ₚ in_flight c ++ map Ok (pending_responses c) ++ map Ok (started c);
  ci_out : out c = server_writes (started c);
  ci_flushed : (flushed c + N.to_nat (buffered_responses c) = length (started c))%nat
}.

Lemma answer_tail {A} (l l' : list (Poll A)) x P :
  answer l = (x, l') → Forall P l → Forall P l'.
Proof. destruct l; simpl; intros [= <- <-]; [done|]. by intros [_ ?]%Forall_cons. Qed.

Lemma answer_head {A} (l l' : list (Poll A)) x P : answer l = (Ready x, l') → Forall P l → P (Ready x).
Proof. destruct l; simpl; [done|]. intros [= -> <-]. by intros [? _]%Forall_cons. Qed.

Lemma pick_perm {A} k (l rest : list A) x : pick k l = Some (x, rest) → l ≡ₚ x :: rest.
Proof.
  unfold pick. destruct (l !! _) as [y|] eqn:Hl; [|done]. intros [= <- <-].
  rewrite <- (take_drop_middle l _ _ Hl) at 1. by rewrite Permutation_middle.
Qed.

Lemma perm_push {A} (x : A) i j : (i ++ j) ++ [x] ≡ₚ (i ++ [x]) ++ j.
Proof. rewrite <- !app_assoc. apply Permutation_app_head, Permutation_app_comm. Qed.

Lemma perm_move {A} (x : A) i p s : (x :: i) ++ p ++ s ≡ₚ i ++ (p ++ [x]) ++ s.
Proof.
  rewrite <- (app_assoc p). simpl. by rewrite <- (Permutation_middle p), <- Permutation_middle.
Qed.

Lemma perm_last {A} (x : A) i p s : i ++ (x :: p) ++ s ≡ₚ i ++ p ++ s ++ [x].
Proof. simpl. by rewrite (app_assoc p), <- Permutation_cons_append. Qed.

Lemma server_writes_snoc fs f : server_writes (fs ++ [f]) = (server_encode f (server_writes fs)).2.
Proof. unfold server_writes. by rewrite foldl_app. Qed.

Lemma micro_inv m s s' :
  micro s s' → conn_inv m (t_conn s.2) → env_ok (t_env s.2) →
  conn_inv m (t_conn s'.2) ∧ env_ok (t_env s'.2).
Proof.
  intros Hm [Hmax Hroom Hreq Hbal Hout Hfl] He. unfold env_ok in *.
  destruct Hm as [b c e p w r l Hrc Hlt Ha|b c e p w l Hrc Ha|b c e p w k l f rest Ha Hp
    |b c e p w u l f rest out' Ha Hp Henc|b c e p w u l Hbuf Ha|b c e e' p w w' Hsub]; simpl in *.
  - split; [|by eapply answer_tail]. pose proof (answer_head _ _ _ _ Ha He) as Hr. simpl in Hr.
    split; simpl; [done| |by apply Forall_app_2, Forall_singleton| |done|done].
    + unfold active_requests in *. simpl. rewrite length_app. simpl. lia.
    + rewrite map_app, Hbal. apply perm_push.
  - split; [|by eapply answer_tail]. by split.
  - split; [|done]. pose proof (pick_perm _ _ _ _ Hp) as Hperm. split; simpl; [done| |done| |done|done].
    + unfold active_requests in *. simpl. apply Permutation_length in Hperm. simpl in Hperm.
      rewrite length_app. simpl. lia.
    + rewrite Hbal, Hperm, map_app. apply perm_move.
  - split; [|done]. split; simpl; [done| |done| | |].
    + unfold active_requests in *. simpl. rewrite Hp in Hroom. simpl in Hroom. lia.
    + rewrite Hbal, Hp, map_app. apply perm_last.
    + by rewrite server_writes_snoc, <- Hout, Henc.
    + rewrite length_app. simpl. lia.
  - split; [|done]. split; simpl; [done| |done..|lia]. unfold active_requests in *. simpl. lia.
  - split; [by split|by apply Hsub].
Qed.

(** ** Work and measure *)

(** Requests read, handlers collected and responses handed to the transport. *)
Definition work (c : ServerConnection) : nat :=
  length (accepted c) + (length (pending_responses c) + length (started c)) + length (started c).

Definition measure (s : nat * Turn) : nat :=
  2 * s.1 + (if read_closed (t_conn s.2) then 0 else 1) +
  (if buffered_responses (t_conn s.2) =? 0 then 0 else 1).

Lemma micro_work s s' :
  micro s s' → (s'.1 + work (t_conn s'.2) = s.1 + work (t_conn s.2))%nat.
Proof.
  intros Hm. destruct Hm as [| | | b c e p w u l f rest out' Ha Hp Henc| |]; unfold work; simpl;
    rewrite ?length_app; simpl; try lia. rewrite Hp. simpl. lia.
Qed.

Lemma micro_measure s s' :
  micro s s' → (measure s' <= measure s)%nat ∧
  (t_progressed s'.2 = true → t_progressed s.2 = true ∨ (measure s' < measure s)%nat).
Proof.
  intros Hm. unfold measure. destruct Hm as [b c e p w r l Hrc Hlt Ha|b c e p w l Hrc Ha|
    |b c e p w u l f rest out' Ha Hp Henc|b c e p w u l Hbuf Ha|]; simpl.
  - split; [lia|]. intros _. right. lia.
  - rewrite Hrc. split; [lia|]. intros _. right. lia.
  - split; [lia|]. intros _. right. lia.
  - destruct (buffered_responses c + 1 =? 0), (buffered_responses c =? 0); (split; [lia|]);
      intros _; right; lia.
  - rewrite (proj2 (N.eqb_neq _ _) Hbuf). split; [lia|]. intros _. right. lia.
  - split; [lia|]. auto.
Qed.

Lemma micros m s s' :
  rtc micro s s' → conn_inv m (t_conn s.2) → env_ok (t_env s.2) →
  conn_inv m (t_conn s'.2) ∧ env_ok (t_env s'.2) ∧
  (s'.1 + work (t_conn s'.2) = s.1 + work (t_conn s.2))%nat ∧ (measure s' <= measure s)%nat ∧
  (t_progressed s'.2 = true → t_progressed s.2 = true ∨ (measure s' < measure s)%nat).
Proof.
  induction 1 as [s|s s1 s' Hm _ IH]; intros Hi He; [split_and!; auto|].
  destruct (micro_inv m s s1 Hm Hi He) as [Hi1 He1]. destruct (IH Hi1 He1) as (? & ? & Hw & Hl & Hp).
  pose proof (micro_work s s1 Hm). destruct (micro_measure s s1 Hm) as [Hl1 Hp1].
  split_and!; [done..|lia|lia|]. intros Ht. destruct (Hp Ht) as [Ht1|?]; [|right; lia].
  destruct (Hp1 Ht1); [by left|right; lia].
Qed.

(** ** The loops are sequences of steps *)

Definition flow_steps (s : nat * Turn) (f : Flow) : Prop :=
  match f with
  | Go b t => rtc micro s (b, t)
  | Stop o b t => (∃ e, o = Failed e) ∧ rtc micro s (b, t)
  end.

Lemma flow_steps_l s s1 f : micro s s1 → flow_steps s1 f → flow_steps s f.
Proof.
  intros Hm. destruct f; simpl; [by apply rtc_l|]. intros [? ?]. split; [done|by eapply rtc_l].
Qed.

Lemma env_step b c e e' p w w' :
  (∀ P, Forall P (e_read e) → Forall P (e_read e')) →
  rtc micro (b, mkTurn c e p w) (b, mkTurn c e' p w').
Proof. intros. by apply rtc_once, m_env. Qed.

Lemma read_loop_steps b : ∀ t, flow_steps (b, t) (read_loop md5 routes peer b t).
Proof.
  induction b as [|b IH]; intros [c e p w]; simpl.
  - destruct (negb _ && _); apply rtc_refl.
  - destruct (negb (read_closed c) && (active_requests c <? max_in_flight c)) eqn:Hg; [|apply rtc_refl].
    apply andb_true_iff in Hg as [Hrc Hlt]. apply negb_true_iff in Hrc. apply N.ltb_lt in Hlt.
    destruct (answer (e_read e)) as [[[[r|err]|]|] l] eqn:Ha.
    + eapply flow_steps_l; [by apply m_read|apply IH].
    + split; [by eexists|]. apply env_step. intros P. by eapply answer_tail.
    + by apply rtc_once, m_close.
    + apply env_step. intros P. by eapply answer_tail.
Qed.

Lemma inv_call m c o :
  conn_inv m c → o ∈ in_flight c ++ map Ok (pending_responses c) →
  ∃ f, o = Ok f ∧ response_frame_ok any_limits f.
Proof.
  intros Hi Ho. assert (o ∈ map call (accepted c)) as Hin.
  { rewrite (ci_balance _ _ Hi). rewrite app_assoc. apply elem_of_app. by left. }
  apply list_elem_of_In, in_map_iff in Hin as (r & <- & Hr). apply answers_all.
  apply list_elem_of_In in Hr. pose proof (ci_requests _ _ Hi) as Hreq. rewrite Forall_forall in Hreq.
  by apply Hreq.
Qed.

Lemma pick_Some {A} k (l : list A) : l ≠ [] → ∃ x rest, pick k l = Some (x, rest) ∧ x ∈ l.
Proof.
  intros Hl. unfold pick.
  assert ((k mod length l < length l)%nat) as Hk by (apply Nat.mod_upper_bound; by destruct l).
  apply lookup_lt_is_Some in Hk as [x Hx]. rewrite Hx. do 2 eexists. split; [done|].
  by eapply list_elem_of_lookup_2.
Qed.

Lemma finish_loop_steps m b : ∀ t,
  conn_inv m (t_conn t) → env_ok (t_env t) → flow_steps (b, t) (finish_loop b t).
Proof.
  induction b as [|b IH]; intros [c e p w] Hi He; simpl in *.
  - destruct (in_flight c); apply rtc_refl.
  - destruct (in_flight c) as [|o os] eqn:Hf; [apply rtc_refl|]. rewrite <- Hf.
    destruct (answer (e_finished e)) as [[k|] l] eqn:Ha; [|by apply env_step].
    destruct (pick_Some k (in_flight c)) as (x & rest & Hp & Hx); [by rewrite Hf|]. rewrite Hp.
    destruct (inv_call m c x Hi) as (f & -> & _); [apply elem_of_app; by left|].
    assert (micro (S b, mkTurn c e p w)
      (b, mkTurn (finish_one rest f c) (set_finished l e) true w)) as Hm by (by eapply m_finish).
    eapply flow_steps_l; [exact Hm|]. destruct (micro_inv m _ _ Hm) as [Hi' He']; [done..|].
    by apply IH.
Qed.

Lemma send_loop_steps m b : ∀ t,
  conn_inv m (t_conn t) → env_ok (t_env t) → flow_steps (b, t) (send_loop b t).
Proof.
  induction b as [|b IH]; intros [c e p w] Hi He; simpl in *.
  - destruct (pending_responses c); apply rtc_refl.
  - destruct (pending_responses c) as [|f rest] eqn:Hf; [apply rtc_refl|].
    destruct (answer (e_ready e)) as [[[u|err]|] l] eqn:Ha;
      [|split; [by eexists|by apply env_step]|by apply env_step].
    destruct (inv_call m c (Ok f) Hi) as (f' & [= <-] & Hok).
    { rewrite Hf. apply elem_of_app. right. left. }
    assert (server_encode f (out c) = (Ok tt, out c ++ response_bytes f)) as Henc
      by (by apply (response_encode_ok any_limits)). rewrite Henc.
    assert (micro (S b, mkTurn c e p w)
      (b, mkTurn (start_one rest f (out c ++ response_bytes f) c) (set_ready l e) true w)) as Hm
      by (by eapply m_start).
    eapply flow_steps_l; [exact Hm|]. destruct (micro_inv m _ _ Hm) as [Hi' He']; [done..|].
    by apply IH.
Qed.

Lemma flush_step_steps b t : flow_steps (b, t) (flush_step b t).
Proof.
  destruct t as [c e p w]. unfold flush_step. simpl.
  destruct (N.eqb_spec (buffered_responses c) 0) as [|Hb]; [apply rtc_refl|]. simpl.
  destruct (answer (e_flush e)) as [[[u|err]|] l] eqn:Ha.
  - by apply rtc_once, (m_flush _ _ _ _ _ u).
  - split; [by eexists|by apply env_step].
  - by apply env_step.
Qed.

(** ** A round without progress leaves a waker behind *)

(** Without progress the loop changed neither budget nor connection, and the
    waker is set when the loop had something to wait for. *)
Definition idles (b : nat) (t : Turn) (waits : Prop) (f : Flow) : Prop :=
  match f with
  | Go b' t' =>
      t_progressed t' = false →
      b' = b ∧ t_conn t' = t_conn t ∧ (t_waker t = true → t_waker t' = true) ∧
      (b ≠ O → waits → t_waker t' = true)
  | Stop _ _ _ => True
  end.

Definition keeps_progress (f : Flow) : Prop :=
  match f with Go _ t => t_progressed t = true | Stop _ _ _ => True end.

Lemma idles_progress b t waits f : keeps_progress f → idles b t waits f.
Proof. destruct f as [b' t'|]; simpl; [|done]. intros Ht Hf. by rewrite Ht in Hf. Qed.

Lemma read_loop_progress b : ∀ t,
  t_progressed t = true → keeps_progress (read_loop md5 routes peer b t).
Proof.
  induction b as [|b IH]; intros [c e p w] Hp; simpl in *; (destruct (negb _ && _); [|done]); [done|].
  destruct (answer (e_read e)) as [[[[r|err]|]|] l]; simpl; [by apply IH|done..].
Qed.

Lemma finish_loop_progress b : ∀ t, t_progressed t = true → keeps_progress (finish_loop b t).
Proof.
  induction b as [|b IH]; intros [c e p w] Hp; simpl in *; (destruct (in_flight c) as [|o os] eqn:Hf; [done|]); [done|].
  destruct (answer (e_finished e)) as [[k|] l]; [|done]. rewrite <- Hf.
  destruct (pick k (in_flight c)) as [[[f|[]|] rest]|]; [by apply IH|done..].
Qed.

Lemma send_loop_progress b : ∀ t, t_progressed t = true → keeps_progress (send_loop b t).
Proof.
  induction b as [|b IH]; intros [c e p w] Hp; simpl in *;
    (destruct (pending_responses c) as [|f rest]; [done|]); [done|].
  destruct (answer (e_ready e)) as [[[u|err]|] l]; [|done..].
  destruct (server_encode f (out c)) as [[]]; [by apply IH|done..].
Qed.

Lemma read_loop_idles b t :
  idles b t (read_closed (t_conn t) = false ∧ active_requests (t_conn t) < max_in_flight (t_conn t))
    (read_loop md5 routes peer b t).
Proof.
  destruct t as [c e p w], b as [|b]; simpl.
  - destruct (negb _ && _); simpl; naive_solver.
  - destruct (negb (read_closed c) && (active_requests c <? max_in_flight c)) eqn:Hg; simpl.
    + destruct (answer (e_read e)) as [[[[r|err]|]|] l]; simpl; [|done..|done].
      by apply idles_progress, read_loop_progress.
    + intros _. split_and!; [done..|]. intros _ [Hrc Hlt]. rewrite Hrc in Hg. simpl in Hg.
      apply N.ltb_ge in Hg. lia.
Qed.

Lemma finish_loop_idles b t : idles b t (in_flight (t_conn t) ≠ []) (finish_loop b t).
Proof.
  destruct t as [c e p w], b as [|b]; simpl; (destruct (in_flight c) as [|o os] eqn:Hf; [done|]); [done|].
  destruct (answer (e_finished e)) as [[k|] l]; [|done]. rewrite <- Hf.
  destruct (pick k (in_flight c)) as [[[f|[]|] rest]|]; [|done..].
  by apply idles_progress, finish_loop_progress.
Qed.

Lemma send_loop_idles b t : idles b t (pending_responses (t_conn t) ≠ []) (send_loop b t).
Proof.
  destruct t as [c e p w], b as [|b]; simpl;
    (destruct (pending_responses c) as [|f rest]; [done|]); [done|].
  destruct (answer (e_ready e)) as [[[u|err]|] l]; [|done..].
  destruct (server_encode f (out c)) as [[]]; [|done..].
  by apply idles_progress, send_loop_progress.
Qed.

Lemma flush_step_idles b t : idles b t (buffered_responses (t_conn t) ≠ 0) (flush_step b t).
Proof.
  destruct t as [c e p w]. unfold flush_step. simpl.
  destruct (N.eqb_spec (buffered_responses c) 0); simpl; [done|].
  by destruct (answer (e_flush e)) as [[[u|err]|] l].
Qed.

Lemma flush_step_progress b t : t_progressed t = true → keeps_progress (flush_step b t).
Proof.
  destruct t as [c e p w]. unfold flush_step. simpl. intros Hp.
  destruct (negb _); [|done]. by destruct (answer (e_flush e)) as [[[u|err]|] l].
Qed.

(** When the four phases made no progress, some source is pending. *)
Lemma idle_round m b t b1 t1 b2 t2 b3 t3 b4 t4 :
  conn_inv m (t_conn t) → 0 < m → b4 ≠ O →
  read_loop md5 routes peer b t = Go b1 t1 → finish_loop b1 t1 = Go b2 t2 →
  send_loop b2 t2 = Go b3 t3 → flush_step b3 t3 = Go b4 t4 → t_progressed t4 = false →
  (read_closed (t_conn t4) && (active_requests (t_conn t4) =? 0)) = false → t_waker t4 = true.
Proof.
  intros Hi Hm Hb E1 E2 E3 E4 Hp4 Hend.
  pose proof (read_loop_idles b t) as I1. pose proof (finish_loop_idles b1 t1) as I2.
  pose proof (send_loop_idles b2 t2) as I3. pose proof (flush_step_idles b3 t3) as I4.
  pose proof (finish_loop_progress b1 t1) as P2. pose proof (send_loop_progress b2 t2) as P3.
  pose proof (flush_step_progress b3 t3) as P4.
  rewrite E1 in I1. rewrite E2 in I2, P2. rewrite E3 in I3, P3. rewrite E4 in I4, P4. simpl in *.
  assert (t_progressed t3 = false) as Hp3 by (destruct (t_progressed t3); [by rewrite P4 in Hp4|done]).
  assert (t_progressed t2 = false) as Hp2 by (destruct (t_progressed t2); [by rewrite P3 in Hp3|done]).
  assert (t_progressed t1 = false) as Hp1 by (destruct (t_progressed t1); [by rewrite P2 in Hp2|done]).
  destruct (I4 Hp4) as (-> & C4 & W4 & N4). destruct (I3 Hp3) as (-> & C3 & W3 & N3).
  destruct (I2 Hp2) as (-> & C2 & W2 & N2). destruct (I1 Hp1) as (-> & C1 & W1 & N1).
  rewrite C4, C3, C2, C1 in *. pose proof (ci_room _ _ Hi) as Hroom. pose proof (ci_max _ _ Hi) as Hmax.
  destruct (N.eq_dec (active_requests (t_conn t)) 0) as [Hz|Hnz].
  - apply W4, W3, W2, N1; [done|]. rewrite Hz in *. rewrite andb_true_r in Hend. split; [done|lia].
  - unfold active_requests in Hnz. destruct (in_flight (t_conn t)) as [|o os];
      [|by apply W4, W3, N2]. destruct (pending_responses (t_conn t)); [|by apply W4, N3].
    apply N4; [done|]. simpl in Hnz. lia.
Qed.

(** ** A round *)

Definition fresh_round (t : Turn) : Turn := mkTurn (t_conn t) (t_env t) false false.

Definition ends_well (o : Outcome) (t : Turn) : Prop :=
  match o with
  | Done => read_closed (t_conn t) = true ∧ active_requests (t_conn t) = 0
  | Failed _ => True
  | Parked => t_waker t = true
  | Panicked | OutOfFuel => False
  end.

Lemma round_spec m b t :
  conn_inv m (t_conn t) → env_ok (t_env t) → 0 < m →
  match round md5 routes peer b t with
  | Go b' t' => rtc micro (b, fresh_round t) (b', t') ∧ t_progressed t' = true
  | Stop o b' t' => rtc micro (b, fresh_round t) (b', t') ∧ ends_well o t'
  end.
Proof.
  intros Hi He Hm. unfold round. fold (fresh_round t).
  pose proof (read_loop_steps b (fresh_round t)) as S1.
  destruct (read_loop md5 routes peer b (fresh_round t)) as [b1 t1|o b1 t1] eqn:E1;
    [|destruct S1 as [[e ->] ?]; done].
  destruct (micros m _ _ S1) as (Hi1 & He1 & _); [done..|].
  pose proof (finish_loop_steps m b1 t1 Hi1 He1) as S2.
  destruct (finish_loop b1 t1) as [b2 t2|o b2 t2] eqn:E2;
    [|destruct S2 as [[e ->] ?]; split; [by etrans|done]].
  destruct (micros m _ _ S2) as (Hi2 & He2 & _); [done..|].
  pose proof (send_loop_steps m b2 t2 Hi2 He2) as S3.
  destruct (send_loop b2 t2) as [b3 t3|o b3 t3] eqn:E3;
    [|destruct S3 as [[e ->] ?]; split; [by do 2 (etrans; [done|])|done]].
  destruct (micros m _ _ S3) as (Hi3 & He3 & _); [done..|].
  pose proof (flush_step_steps b3 t3) as S4.
  assert (rtc micro (b, fresh_round t) (b3, t3)) as S123 by (by do 2 (etrans; [done|])).
  destruct (flush_step b3 t3) as [b4 t4|o b4 t4] eqn:E4;
    [|destruct S4 as [[e ->] ?]; split; [by etrans|done]].
  assert (rtc micro (b, fresh_round t) (b4, t4)) as S by (by etrans).
  destruct (read_closed (t_conn t4) && (active_requests (t_conn t4) =? 0)) eqn:Hend.
  { split; [done|]. apply andb_true_iff in Hend as [? ?%N.eqb_eq]. done. }
  destruct (Nat.eqb_spec b4 0) as [->|Hb4].
  { split; [|done]. etrans; [exact S|]. destruct t4. by apply env_step. }
  destruct (t_progressed t4) eqn:Hp; simpl; [done|]. split; [done|].
  exact (idle_round m b (fresh_round t) b1 t1 b2 t2 b3 t3 b4 t4 Hi Hm Hb4 E1 E2 E3 E4 Hp Hend).
Qed.

(** ** A poll *)

Definition poll_ok (m : N) (b : nat) (t : Turn) (out : Outcome * nat * Turn) : Prop :=
  let '(o, b', t') := out in
  conn_inv m (t_conn t') ∧ env_ok (t_env t') ∧
  (b' + work (t_conn t') = b + work (t_conn t))%nat ∧ ends_well o t'.

Lemma rounds_spec m fuel : ∀ b t,
  conn_inv m (t_conn t) → env_ok (t_env t) → 0 < m → (measure (b, t) < fuel)%nat →
  poll_ok m b t (rounds md5 routes peer fuel b t).
Proof.
  induction fuel as [|fuel IH]; intros b t Hi He Hm Hf; [lia|]. cbn [rounds].
  pose proof (round_spec m b t Hi He Hm) as Hr.
  destruct (round md5 routes peer b t) as [b' t'|o b' t'].
  - destruct Hr as [Hs Hp]. destruct (micros m _ _ Hs) as (Hi' & He' & Hw & Hl & Hd); [done..|].
    destruct (Hd Hp) as [|Hlt]; [done|]. simpl in Hi', He', Hw.
    pose proof (IH b' t' Hi' He' Hm) as Hok. unfold measure in *. simpl in *.
    destruct (rounds md5 routes peer fuel b' t') as [[o b''] t''].
    destruct Hok as (? & ? & ? & ?); [lia|]. split_and!; [done..|lia|done].
  - destruct Hr as [Hs Hp]. destruct (micros m _ _ Hs) as (Hi' & He' & Hw & _ & _); [done..|].
    by split_and!.
Qed.

Lemma poll_spec m c e :
  conn_inv m c → env_ok e → 0 < m →
  poll_ok m DRIVER_POLL_BUDGET (mkTurn c e false false) (poll md5 routes peer c e).
Proof.
  intros Hi He Hm. apply rounds_spec; [done..|]. unfold measure, DRIVER_POLL_BUDGET. simpl t_conn.
  destruct (read_closed c), (buffered_responses c =? 0); simpl; lia.
Qed.

Lemma connection_new_inv n : conn_inv (N.max n 1) (connection_new n).
Proof. split; simpl; try done. unfold active_requests. simpl. lia. Qed.
End Steps.

(** ** The theorems *)

Section Connection.
Context (md5 : bytes → bytes) {Addr : Type}.
Context (routes : gmap N (Route (Addr := Addr))) (peer : Addr).
Local Abbreviation call := (service_call md5 routes peer).

(** The connections a server can be in after any number of polls. *)
Inductive connection_reachable (n : N) : ServerConnection → Prop :=
| cr_new : connection_reachable n (connection_new n)
| cr_poll c e o b t :
    connection_reachable n c → env_ok e → poll md5 routes peer c e = (o, b, t) →
    connection_reachable n (t_conn t).

Lemma served_answers_all :
  served md5 routes →
  ∀ r, request_ok r → ∃ f, call r = Ok f ∧ response_frame_ok any_limits f.
Proof.
  intros Hs r [Hseq Hb].
  assert (∃ f, call r = Ok f ∧ answered (rq_sequence (rq_header r)) f) as (f & Hf & Ha).
  { unfold service_call. destruct (routes !! _) as [route|] eqn:Hr.
    - exact (served_answers md5 routes Hs _ route Hr (rq_body r)
        (mkContext (rq_sequence (rq_header r)) (rq_function_id (rq_header r)) (rq_attachment r) peer) Hb).
    - apply failure_answered, (standard_failure_ok FunctionNotRegistered). done. }
  exists f. split; [done|]. destruct Ha as (code & body & att & -> & Hc & Hl & Hal).
  apply response_new_ok; [done..|]. split_and!; [by apply N.lt_le_incl..|done|done].
Qed.

Lemma connection_reachable_inv n c :
  served md5 routes → connection_reachable n c → conn_inv md5 routes peer (N.max n 1) c.
Proof.
  intros Hs. induction 1 as [|c e o b t _ IH He Hp]; [apply connection_new_inv|].
  pose proof (poll_spec md5 routes peer (served_answers_all Hs) (N.max n 1) c e IH He) as Hok.
  rewrite Hp in Hok. apply Hok. lia.
Qed.

(** C34: every poll of a server connection is bounded and ends well.  Whatever
    the transport and the handlers answer, the poll returns within its fuel and
    without a panic, has read, collected and sent at most 1024 frames, and
    leaves at most the configured number of requests active; it reports the end
    only when the client closed and nothing is active, and when it parks a
    waker is left behind, so the connection is polled again. *)
Theorem server_poll_bounded n c e :
  served md5 routes → connection_reachable n c → env_ok e →
  let '(o, _, t) := poll md5 routes peer c e in
  active_requests (t_conn t) <= N.max n 1 ∧
  (work (t_conn t) <= work c + DRIVER_POLL_BUDGET)%nat ∧
  match o with
  | Done => read_closed (t_conn t) = true ∧ active_requests (t_conn t) = 0
  | Failed _ => True
  | Parked => t_waker t = true
  | Panicked | OutOfFuel => False
  end.
Proof.
  intros Hs Hc He. pose proof (connection_reachable_inv n c Hs Hc) as Hi.
  pose proof (poll_spec md5 routes peer (served_answers_all Hs) (N.max n 1) c e Hi He) as Hok.
  destruct (poll md5 routes peer c e) as [[o b] t]. destruct Hok as (Hi' & _ & Hw & Hend); [lia|].
  split_and!; [apply Hi'|cbn [t_conn] in Hw; lia|exact Hend].
Qed.

(** C32: no request is answered twice, and none is lost while a connection is
    served.  At any time, also after a poll that fails, the responses to the
    requests a connection has read are, in some order, the outcomes of the
    running handlers, the finished responses and the responses handed to the
    transport; the transport's bytes are the encodings of the latter.  When the
    connection closes normally, because the peer ended its stream, all requests
    read have been answered and flushed.  A connection that fails, on a damaged
    frame or in the transport, is dropped with what it holds: the requests left
    without an answer are then those of the running handlers and of the finished
    responses that were not handed on. *)
Theorem every_request_answered_once n c e o b t :
  served md5 routes → connection_reachable n c → env_ok e →
  poll md5 routes peer c e = (o, b, t) →
  map call (accepted (t_conn t)) ≡ₚ
    in_flight (t_conn t) ++ map Ok (pending_responses (t_conn t)) ++ map Ok (started (t_conn t)) ∧
  out (t_conn t) = server_writes (started (t_conn t)) ∧
  (o = Done →
   map call (accepted (t_conn t)) ≡ₚ map Ok (started (t_conn t)) ∧
   flushed (t_conn t) = length (started (t_conn t))).
Proof.
  intros Hs Hc He Hp. pose proof (connection_reachable_inv n c Hs Hc) as Hi.
  pose proof (poll_spec md5 routes peer (served_answers_all Hs) (N.max n 1) c e Hi He) as Hok.
  rewrite Hp in Hok. destruct Hok as ([_ _ _ Hbal Hout Hfl] & _ & _ & Hend); [lia|].
  split_and!; [done..|]. intros ->. destruct Hend as [_ Hz]. unfold active_requests in Hz.
  destruct (in_flight (t_conn t)); [|simpl in Hz; lia].
  destruct (pending_responses (t_conn t)); [|simpl in Hz; lia]. split; [done|lia].
Qed.
End Connection.

(** ** Example *)

Definition ping_request (sequence : N) : RequestFrame :=
  mkRequestFrame (RequestHeader_new sequence (function_id digest (text "ping")) 0 0) [] [].

Definition example_env : Environment :=
  mkEnv [Ready (Some (inl (ping_request 1))); Ready (Some (inl (ping_request 2))); Ready None]
    [Ready 1%nat; Ready 0%nat] [Ready (inl tt); Pending; Ready (inl tt)] [Ready (inl tt); Ready (inl tt)].

Lemma example_env_ok : env_ok example_env.
Proof. repeat constructor. Qed.

Lemma server_poll_bounded_witness :
  let '(o, _, t) := poll digest ping_routes 9 (connection_new 8) example_env in
  active_requests (t_conn t) <= 8 ∧
  (work (t_conn t) <= work (connection_new 8) + DRIVER_POLL_BUDGET)%nat ∧
  match o with
  | Done => read_closed (t_conn t) = true ∧ active_requests (t_conn t) = 0
  | Failed _ => True
  | Parked => t_waker t = true
  | Panicked | OutOfFuel => False
  end.
Proof.
  apply (server_poll_bounded digest ping_routes 9 8 (connection_new 8) example_env ping_served);
    [constructor|apply example_env_ok].
Defined.

Lemma every_request_answered_once_witness :
  ∃ t b, poll digest ping_routes 9 (connection_new 8) example_env = (Done, b, t) ∧
    map (service_call digest ping_routes 9) (accepted (t_conn t)) ≡ₚ map Ok (started (t_conn t)) ∧
    flushed (t_conn t) = length (started (t_conn t)).
Proof.
  eexists _, _. split; [vm_compute; reflexivity|].
  eapply (every_request_answered_once digest ping_routes 9 8 (connection_new 8) example_env Done _ _
    ping_served); [constructor|apply example_env_ok|vm_compute; reflexivity|reflexivity].
Defined.
