(* ===== verification/ClientConnection.v ===== *)
(** * The client's connection driver

    [ClientConnection] of [src/crates/coro-rpc/src/client.rs]: one poll of the
    driver takes cancellations, sends requests, flushes and hands responses to
    their callers, within a budget.  A caller waiting for a response is a number,
    its completion; what channels and transport answer when they are polled is
    given by the environment. *)
From S2P Require Import Prelude Wire Protocol StructPack RpcCall ServerConnection.

Record DispatchRequest := mkDispatch { dr_frame : RequestFrame; dr_completion : N }.

(** The sequence number under which a request waits. *)
Definition dr_sequence (r : DispatchRequest) : N := rq_sequence (rq_header (dr_frame r)).

(** The answers of [cancellations.poll_recv], of [requests.poll_recv], of
    [completion.is_closed], of [transport.poll_ready], [poll_flush] and
    [poll_next], and the requests that are still in the channel when the
    connection ends. *)
Record ClientEnvironment := mkCEnv {
  ce_cancel : list (Poll (option N));
  ce_request : list (Poll (option DispatchRequest));
  ce_abandoned : list bool;
  ce_ready : list (Poll (unit + FrameError));
  ce_flush : list (Poll (unit + FrameError));
  ce_response : list (Poll (option (ResponseFrame + FrameError)));
  ce_queued : list DispatchRequest
}.

Definition set_cancel l e := mkCEnv l (ce_request e) (ce_abandoned e) (ce_ready e) (ce_flush e) (ce_response e) (ce_queued e).
Definition set_request l e := mkCEnv (ce_cancel e) l (ce_abandoned e) (ce_ready e) (ce_flush e) (ce_response e) (ce_queued e).
Definition set_abandoned l e := mkCEnv (ce_cancel e) (ce_request e) l (ce_ready e) (ce_flush e) (ce_response e) (ce_queued e).
Definition set_cready l e := mkCEnv (ce_cancel e) (ce_request e) (ce_abandoned e) l (ce_flush e) (ce_response e) (ce_queued e).
Definition set_cflush l e := mkCEnv (ce_cancel e) (ce_request e) (ce_abandoned e) (ce_ready e) l (ce_response e) (ce_queued e).
Definition set_response l e := mkCEnv (ce_cancel e) (ce_request e) (ce_abandoned e) (ce_ready e) (ce_flush e) l (ce_queued e).

(** [ClientConnection]: who waits under which sequence number, and the
    transport's write buffer.  [cl_received], [cl_sent], [cl_completed] and
    [cl_dropped] are history: the requests taken from the channel, the frames
    handed to the transport, the results given to callers, and the completions
    dropped because the caller had gone. *)
Record ClientConnection := mkClientConn {
  cl_in_flight : gmap N N;
  cl_pending : option DispatchRequest;
  cl_max_in_flight : N;
  cl_needs_flush : bool;
  cl_requests_closed : bool;
  cl_closed : bool;
  cl_out : bytes;
  cl_received : list DispatchRequest;
  cl_sent : list RequestFrame;
  cl_completed : list (N * (ResponseFrame + RpcError));
  cl_dropped : list N
}.

Definition client_connection_new (max_in_flight_requests : N) : ClientConnection :=
  mkClientConn ∅ None (N.max max_in_flight_requests 1) false false false [] [] [] [] [].

Definition rpc_error_from_frame (e : FrameError) : RpcError :=
  match e with
  | IoUnexpectedEof _ | IoConnectionReset | IoBrokenPipe => ConnectionClosed
  | IoOther => Io
  | Protocol p => RpcProtocol p
  end.

(** ** Updates *)

(** A cancelled request is forgotten. *)
Definition cl_cancel (sequence : N) (c : ClientConnection) : ClientConnection :=
  mkClientConn (delete sequence (cl_in_flight c)) (cl_pending c) (cl_max_in_flight c) (cl_needs_flush c)
    (cl_requests_closed c) (cl_closed c) (cl_out c) (cl_received c) (cl_sent c) (cl_completed c)
    (cl_dropped c ++ match cl_in_flight c !! sequence with Some id => [id] | None => [] end).

Definition cl_take (r : DispatchRequest) (c : ClientConnection) : ClientConnection :=
  mkClientConn (cl_in_flight c) (Some r) (cl_max_in_flight c) (cl_needs_flush c)
    (cl_requests_closed c) (cl_closed c) (cl_out c) (cl_received c ++ [r]) (cl_sent c)
    (cl_completed c) (cl_dropped c).

Definition cl_close_requests (c : ClientConnection) : ClientConnection :=
  mkClientConn (cl_in_flight c) (cl_pending c) (cl_max_in_flight c) (cl_needs_flush c) true
    (cl_closed c) (cl_out c) (cl_received c) (cl_sent c) (cl_completed c) (cl_dropped c).

(** The caller of the pending request is gone. *)
Definition cl_abandon (r : DispatchRequest) (c : ClientConnection) : ClientConnection :=
  mkClientConn (cl_in_flight c) None (cl_max_in_flight c) (cl_needs_flush c) (cl_requests_closed c)
    (cl_closed c) (cl_out c) (cl_received c) (cl_sent c) (cl_completed c)
    (cl_dropped c ++ [dr_completion r]).

Definition cl_conflict (r : DispatchRequest) (c : ClientConnection) : ClientConnection :=
  mkClientConn (cl_in_flight c) None (cl_max_in_flight c) (cl_needs_flush c) (cl_requests_closed c)
    (cl_closed c) (cl_out c) (cl_received c) (cl_sent c)
    (cl_completed c ++ [(dr_completion r, inr SerialNumberConflict)]) (cl_dropped c).

Definition cl_insert (r : DispatchRequest) (c : ClientConnection) : ClientConnection :=
  mkClientConn (<[dr_sequence r := dr_completion r]> (cl_in_flight c)) None (cl_max_in_flight c)
    (cl_needs_flush c) (cl_requests_closed c) (cl_closed c) (cl_out c) (cl_received c) (cl_sent c)
    (cl_completed c) (cl_dropped c).

Definition cl_start (f : RequestFrame) (out : bytes) (c : ClientConnection) : ClientConnection :=
  mkClientConn (cl_in_flight c) (cl_pending c) (cl_max_in_flight c) true (cl_requests_closed c)
    (cl_closed c) out (cl_received c) (cl_sent c ++ [f]) (cl_completed c) (cl_dropped c).

Definition cl_flushed (c : ClientConnection) : ClientConnection :=
  mkClientConn (cl_in_flight c) (cl_pending c) (cl_max_in_flight c) false (cl_requests_closed c)
    (cl_closed c) (cl_out c) (cl_received c) (cl_sent c) (cl_completed c) (cl_dropped c).

(** A response goes to who waits under its sequence number, if anyone. *)
Definition cl_respond (f : ResponseFrame) (c : ClientConnection) : ClientConnection :=
  match cl_in_flight c !! rs_sequence (rs_header f) with
  | Some id =>
      mkClientConn (delete (rs_sequence (rs_header f)) (cl_in_flight c)) (cl_pending c)
        (cl_max_in_flight c) (cl_needs_flush c) (cl_requests_closed c) (cl_closed c) (cl_out c)
        (cl_received c) (cl_sent c) (cl_completed c ++ [(id, inl f)]) (cl_dropped c)
  | None => c
  end.

Definition cl_set_closed (c : ClientConnection) : ClientConnection :=
  mkClientConn (cl_in_flight c) (cl_pending c) (cl_max_in_flight c) (cl_needs_flush c)
    (cl_requests_closed c) true (cl_out c) (cl_received c) (cl_sent c) (cl_completed c) (cl_dropped c).

(** [finish]: everyone who waits, and everyone still in the channel, gets the
    error. *)
Definition cl_finish (error : RpcError) (queued : list DispatchRequest) (c : ClientConnection)
    : ClientConnection :=
  let failed id : N * (ResponseFrame + RpcError) := (id, inr error) in
  mkClientConn ∅ None (cl_max_in_flight c) (cl_needs_flush c) (cl_requests_closed c) true
    (cl_out c) (cl_received c ++ queued) (cl_sent c)
    (cl_completed c ++ map failed (map_to_list (cl_in_flight c)).*2 ++
     map failed (match cl_pending c with Some r => [dr_completion r] | None => [] end) ++
     map failed (map dr_completion queued)) (cl_dropped c).

(** ** The driver *)

Inductive ClientOutcome :=
| CDone
| CFailed (e : RpcError)
| CParked
| CPanicked
| COutOfFuel.

Record ClientTurn := mkCTurn {
  ct_conn : ClientConnection;
  ct_env : ClientEnvironment;
  ct_progressed : bool;
  ct_waker : bool
}.

Inductive ClientFlow :=
| CGo (budget : nat) (t : ClientTurn)
| CStop (o : ClientOutcome) (budget : nat) (t : ClientTurn).

Notation "'cgo?' b t := m 'in' k" :=
  (match m with CGo b t => k | CStop o b' t' => CStop o b' t' end)
  (at level 10, b name, t name, m at level 100, k at level 200) : cake_scope.

(** [return this.finish(error)]. *)
Definition finish_with (error : RpcError) (budget : nat) (c : ClientConnection)
    (e : ClientEnvironment) (t : ClientTurn) : ClientFlow :=
  CStop (CFailed error) budget
    (mkCTurn (cl_finish error (ce_queued e) c) e (ct_progressed t) (ct_waker t)).

Fixpoint cancel_loop (budget : nat) (t : ClientTurn) : ClientFlow :=
  match budget with
  | O => CGo O t
  | S budget' =>
      match answer (ce_cancel (ct_env t)) with
      | (Ready (Some sequence), l) =>
          cancel_loop budget'
            (mkCTurn (cl_cancel sequence (ct_conn t)) (set_cancel l (ct_env t)) true (ct_waker t))
      | (Ready None, l) =>
          CGo budget (mkCTurn (ct_conn t) (set_cancel l (ct_env t)) (ct_progressed t) (ct_waker t))
      | (Pending, l) =>
          CGo budget (mkCTurn (ct_conn t) (set_cancel l (ct_env t)) (ct_progressed t) true)
      end
  end.

(** The next request is taken from the channel when none is pending. *)
Definition receive_request (t : ClientTurn) : ClientTurn :=
  let c := ct_conn t in
  match cl_pending c with
  | None =>
      if cl_requests_closed c then t
      else match answer (ce_request (ct_env t)) with
           | (Ready (Some r), l) =>
               mkCTurn (cl_take r c) (set_request l (ct_env t)) true (ct_waker t)
           | (Ready None, l) =>
               mkCTurn (cl_close_requests c) (set_request l (ct_env t)) true (ct_waker t)
           | (Pending, l) => mkCTurn c (set_request l (ct_env t)) (ct_progressed t) true
           end
  | Some _ => t
  end.

Definition next_abandoned (l : list bool) : bool * list bool :=
  match l with [] => (false, []) | x :: l' => (x, l') end.

Fixpoint request_loop (budget : nat) (t : ClientTurn) : ClientFlow :=
  if N.of_nat (size (cl_in_flight (ct_conn t))) <? cl_max_in_flight (ct_conn t) then
    match budget with
    | O => CGo O t
    | S budget' =>
        let t1 := receive_request t in
        let c := ct_conn t1 in
        match cl_pending c with
        | None => CGo budget t1
        | Some r =>
            let (gone, l) := next_abandoned (ce_abandoned (ct_env t1)) in
            let e := set_abandoned l (ct_env t1) in
            if gone then request_loop budget' (mkCTurn (cl_abandon r c) e true (ct_waker t1))
            else
              match cl_in_flight c !! dr_sequence r with
              | Some _ => request_loop budget' (mkCTurn (cl_conflict r c) e true (ct_waker t1))
              | None =>
                  match answer (ce_ready e) with
                  | (Ready (inl _), l) =>
                      let e' := set_cready l e in
                      let c' := cl_insert r c in
                      match client_encode (dr_frame r) (cl_out c') with
                      | (Ok _, out') =>
                          request_loop budget'
                            (mkCTurn (cl_start (dr_frame r) out' c') e' true (ct_waker t1))
                      | (Err err, _) =>
                          finish_with (rpc_error_from_frame err) budget c' e' t1
                      | (Panic, _) =>
                          CStop CPanicked budget (mkCTurn c' e' (ct_progressed t1) (ct_waker t1))
                      end
                  | (Ready (inr err), l) =>
                      finish_with (rpc_error_from_frame err) budget c (set_cready l e) t1
                  | (Pending, l) =>
                      CGo budget (mkCTurn c (set_cready l e) (ct_progressed t1) true)
                  end
              end
        end
    end
  else CGo budget t.

Definition client_flush_step (budget : nat) (t : ClientTurn) : ClientFlow :=
  let c := ct_conn t in
  if cl_needs_flush c then
    match answer (ce_flush (ct_env t)) with
    | (Ready (inl _), l) =>
        CGo budget (mkCTurn (cl_flushed c) (set_cflush l (ct_env t)) true (ct_waker t))
    | (Ready (inr err), l) =>
        finish_with (rpc_error_from_frame err) budget c (set_cflush l (ct_env t)) t
    | (Pending, l) => CGo budget (mkCTurn c (set_cflush l (ct_env t)) (ct_progressed t) true)
    end
  else CGo budget t.

Fixpoint response_loop (budget : nat) (t : ClientTurn) : ClientFlow :=
  match budget with
  | O => CGo O t
  | S budget' =>
      let c := ct_conn t in
      match answer (ce_response (ct_env t)) with
      | (Ready (Some (inl f)), l) =>
          response_loop budget'
            (mkCTurn (cl_respond f c) (set_response l (ct_env t)) true (ct_waker t))
      | (Ready (Some (inr err)), l) =>
          finish_with (rpc_error_from_frame err) budget c (set_response l (ct_env t)) t
      | (Ready None, l) =>
          finish_with ConnectionClosed budget c (set_response l (ct_env t)) t
      | (Pending, l) => CGo budget (mkCTurn c (set_response l (ct_env t)) (ct_progressed t) true)
      end
  end.

Definition client_idle (c : ClientConnection) : bool :=
  cl_requests_closed c && (match cl_pending c with None => true | Some _ => false end) &&
  (N.of_nat (size (cl_in_flight c)) =? 0) && negb (cl_needs_flush c).

Definition client_round (budget : nat) (t : ClientTurn) : ClientFlow :=
  cgo? b1 t1 := cancel_loop budget (mkCTurn (ct_conn t) (ct_env t) false false) in
  cgo? b2 t2 := request_loop b1 t1 in
  cgo? b3 t3 := client_flush_step b2 t2 in
  cgo? b4 t4 := response_loop b3 t3 in
  if client_idle (ct_conn t4)
  then CStop CDone b4 (mkCTurn (cl_set_closed (ct_conn t4)) (ct_env t4) (ct_progressed t4) (ct_waker t4))
  else if (b4 =? 0)%nat
  then CStop CParked b4 (mkCTurn (ct_conn t4) (ct_env t4) (ct_progressed t4) true)
  else if negb (ct_progressed t4) then CStop CParked b4 t4
  else CGo b4 t4.

Fixpoint client_rounds (fuel budget : nat) (t : ClientTurn) : ClientOutcome * nat * ClientTurn :=
  match fuel with
  | O => (COutOfFuel, budget, t)
  | S fuel' =>
      match client_round budget t with
      | CStop o b t' => (o, b, t')
      | CGo b t' => client_rounds fuel' b t'
      end
  end.

(** [ClientConnection::poll]; every round but the last uses budget, fills the
    pending request, closes the channel or flushes. *)
Definition client_poll (c : ClientConnection) (e : ClientEnvironment)
    : ClientOutcome * nat * ClientTurn :=
  client_rounds (3 * DRIVER_POLL_BUDGET + 4) DRIVER_POLL_BUDGET (mkCTurn c e false false).
