(* ===== verification/ClientConnectionProps.v ===== *)
(** * What the client's connection driver promises

    The loops of a poll as sequences of small steps, and what the steps keep:
    every caller gets at most one result, a response goes to the caller whose
    request had its sequence number, and no caller is forgotten. *)
From S2P Require Import Prelude Wire Protocol StructPack RpcCall RpcProps ServerConnection ServerConnectionProps ClientConnection.

Definition dispatch_ok (r : DispatchRequest) : Prop := request_frame_ok any_limits (dr_frame r).

Definition client_env_ok (e : ClientEnvironment) : Prop :=
  Forall (fun p => match p with Ready (Some r) => dispatch_ok r | _ => True end) (ce_request e) ∧
  Forall dispatch_ok (ce_queued e).

(** [e'] offers no request that [e] did not. *)
Definition env_le (e e' : ClientEnvironment) : Prop :=
  (∀ P, Forall P (ce_request e) → Forall P (ce_request e')) ∧ ce_queued e' = ce_queued e.

Lemma env_le_ok e e' : env_le e e' → client_env_ok e → client_env_ok e'.
Proof. intros [Hr Hq] [? ?]. split; [by apply Hr|by rewrite Hq]. Qed.

(** Who waits for a response. *)
Definition pending_ids (c : ClientConnection) : list N :=
  match cl_pending c with Some r => [dr_completion r] | None => [] end.
Definition waiting (c : ClientConnection) : list N :=
  (map_to_list (cl_in_flight c)).*2 ++ pending_ids c.

(** ** Steps *)

Inductive cmicro : nat * ClientTurn → nat * ClientTurn → Prop :=
| cm_cancel b c e p w sequence l :
    answer (ce_cancel e) = (Ready (Some sequence), l) →
    cmicro (S b, mkCTurn c e p w) (b, mkCTurn (cl_cancel sequence c) (set_cancel l e) true w)
| cm_take b c e p w r l :
    cl_pending c = None → answer (ce_request e) = (Ready (Some r), l) →
    cmicro (b, mkCTurn c e p w) (b, mkCTurn (cl_take r c) (set_request l e) true w)
| cm_close b c e p w l :
    cl_requests_closed c = false → answer (ce_request e) = (Ready None, l) →
    cmicro (b, mkCTurn c e p w) (b, mkCTurn (cl_close_requests c) (set_request l e) true w)
| cm_abandon b c e p w r :
    cl_pending c = Some r →
    cmicro (S b, mkCTurn c e p w) (b, mkCTurn (cl_abandon r c) e true w)
| cm_conflict b c e p w r :
    cl_pending c = Some r →
    cmicro (S b, mkCTurn c e p w) (b, mkCTurn (cl_conflict r c) e true w)
| cm_send b c e e' p w r out' :
    cl_pending c = Some r → cl_in_flight c !! dr_sequence r = None →
    N.of_nat (size (cl_in_flight c)) < cl_max_in_flight c →
    client_encode (dr_frame r) (cl_out c) = (Ok tt, out') → env_le e e' →
    cmicro (S b, mkCTurn c e p w) (b, mkCTurn (cl_start (dr_frame r) out' (cl_insert r c)) e' true w)
| cm_flush b c e e' p w :
    cl_needs_flush c = true → env_le e e' →
    cmicro (b, mkCTurn c e p w) (b, mkCTurn (cl_flushed c) e' true w)
| cm_respond b c e p w f l :
    answer (ce_response e) = (Ready (Some (inl f)), l) →
    cmicro (S b, mkCTurn c e p w) (b, mkCTurn (cl_respond f c) (set_response l e) true w)
| cm_env b c e e' p w w' :
    env_le e e' →
    cmicro (b, mkCTurn c e p w) (b, mkCTurn c e' p w').

(** ** The invariant *)

(** A request of the history with that completion and sequence number. *)
Definition requested (c : ClientConnection) (id sequence : N) : Prop :=
  ∃ r, r ∈ cl_received c ∧ dr_completion r = id ∧ dr_sequence r = sequence.

Record client_inv (m : N) (c : ClientConnection) : Prop := {
  cv_max : cl_max_in_flight c = m;
  cv_room : N.of_nat (size (cl_in_flight c)) <= m;
  cv_requests : Forall dispatch_ok (cl_received c);
  cv_pending r : cl_pending c = Some r → r ∈ cl_received c;
  cv_balance :
    map dr_completion (cl_received c) ≡ₚ waiting c ++ (cl_completed c).*1 ++ cl_dropped c;
  cv_waits s id : cl_in_flight c !! s = Some id → requested c id s;
  cv_matched id f : (id, inl f) ∈ cl_completed c → requested c id (rs_sequence (rs_header f));
  cv_out : cl_out c = client_writes (cl_sent c)
}.

Lemma requested_mono c c' id s :
  (∀ r, r ∈ cl_received c → r ∈ cl_received c') → requested c id s → requested c' id s.
Proof. intros Hsub (r & Hr & ? & ?). exists r. auto. Qed.

Lemma client_writes_snoc fs f : client_writes (fs ++ [f]) = (client_encode f (client_writes fs)).2.
Proof. unfold client_writes. by rewrite foldl_app. Qed.

Lemma ids_delete (m : gmap N N) s id :
  m !! s = Some id → (map_to_list m).*2 ≡ₚ id :: (map_to_list (delete s m)).*2.
Proof. intros Hs. by rewrite <- (map_to_list_delete m s id Hs). Qed.

Lemma ids_insert (m : gmap N N) s id :
  m !! s = None → (map_to_list (<[s := id]> m)).*2 ≡ₚ id :: (map_to_list m).*2.
Proof. intros Hs. by rewrite (map_to_list_insert m s id Hs). Qed.

Lemma size_delete_le (m : gmap N N) s : (size (delete s m) <= size m)%nat.
Proof. rewrite map_size_delete. destruct (m !! s); simpl; lia. Qed.

Lemma cancel_inv m s c : client_inv m c → client_inv m (cl_cancel s c).
Proof.
  intros [Hmax Hroom Hreq Hpend Hbal Hw Hm Hout]. split; simpl; try done.
  - pose proof (size_delete_le (cl_in_flight c) s). lia.
  - rewrite Hbal. unfold waiting, pending_ids. simpl. destruct (cl_in_flight c !! s) as [id|] eqn:Hs.
    + rewrite (ids_delete _ _ _ Hs). simpl. by rewrite !app_assoc, <- Permutation_cons_append.
    + rewrite delete_id by done. by rewrite app_nil_r.
  - intros s' id [_ Hl]%lookup_delete_Some. destruct (Hw s' id Hl) as (r & ? & ? & ?). by exists r.
Qed.

Lemma respond_inv m f c : client_inv m c → client_inv m (cl_respond f c).
Proof.
  intros Hi. unfold cl_respond. destruct (cl_in_flight c !! _) as [id|] eqn:Hs; [|done].
  destruct Hi as [Hmax Hroom Hreq Hpend Hbal Hw Hm Hout]. split; simpl; try done.
  - pose proof (size_delete_le (cl_in_flight c) (rs_sequence (rs_header f))). lia.
  - rewrite Hbal. unfold waiting, pending_ids. simpl. rewrite (ids_delete _ _ _ Hs), fmap_app. simpl.
    rewrite <- (app_assoc (cl_completed c).*1). simpl.
    by rewrite <- (Permutation_middle (cl_completed c).*1), <- Permutation_middle.
  - intros s' id' [_ Hl]%lookup_delete_Some. destruct (Hw s' id' Hl) as (r & ? & ? & ?). by exists r.
  - intros id' f' [Hin|[= -> ->]%list_elem_of_singleton]%elem_of_app.
    + destruct (Hm id' f' Hin) as (r & ? & ? & ?). by exists r.
    + destruct (Hw _ _ Hs) as (r & ? & ? & ?). by exists r.
Qed.

Lemma take_inv m r c :
  client_inv m c → cl_pending c = None → dispatch_ok r → client_inv m (cl_take r c).
Proof.
  intros [Hmax Hroom Hreq Hpend Hbal Hw Hm Hout] Hp Hr.
  assert (∀ id s, requested c id s → requested (cl_take r c) id s) as Hmono.
  { intros id s. apply requested_mono. simpl. set_solver. }
  split; simpl; try done.
  - by apply Forall_app_2, Forall_singleton.
  - intros r' [= <-]. set_solver.
  - rewrite map_app, Hbal. unfold waiting, pending_ids. simpl. rewrite Hp, app_nil_r. simpl.
    by rewrite <- Permutation_cons_append, <- app_assoc, Permutation_middle.
  - intros s id Hl. apply Hmono, (Hw s id Hl).
  - intros id f Hin. apply Hmono, (Hm id f Hin).
Qed.

Lemma abandon_inv m r c : client_inv m c → cl_pending c = Some r → client_inv m (cl_abandon r c).
Proof.
  intros [Hmax Hroom Hreq Hpend Hbal Hw Hm Hout] Hp. split; simpl; try done.
  rewrite Hbal. unfold waiting, pending_ids. simpl. rewrite Hp, app_nil_r.
  by rewrite <- app_assoc, (Permutation_app_comm [_]), <- app_assoc.
Qed.

Lemma conflict_inv m r c : client_inv m c → cl_pending c = Some r → client_inv m (cl_conflict r c).
Proof.
  intros [Hmax Hroom Hreq Hpend Hbal Hw Hm Hout] Hp. split; simpl; try done.
  - rewrite Hbal. unfold waiting, pending_ids. simpl. rewrite Hp, app_nil_r, fmap_app. simpl.
    rewrite <- !app_assoc. by rewrite (Permutation_app_swap_app [_]).
  - intros id f [Hin|Hin%list_elem_of_singleton]%elem_of_app; [by apply Hm|done].
Qed.

Lemma send_inv m r out' c :
  client_inv m c → cl_pending c = Some r → cl_in_flight c !! dr_sequence r = None →
  N.of_nat (size (cl_in_flight c)) < cl_max_in_flight c →
  client_encode (dr_frame r) (cl_out c) = (Ok tt, out') →
  client_inv m (cl_start (dr_frame r) out' (cl_insert r c)).
Proof.
  intros [Hmax Hroom Hreq Hpend Hbal Hw Hm Hout] Hp Hn Hlt Henc. split; simpl; try done.
  - rewrite map_size_insert_None by done. lia.
  - rewrite Hbal. unfold waiting, pending_ids. simpl. rewrite Hp, app_nil_r, (ids_insert _ _ _ Hn).
    by rewrite <- Permutation_cons_append.
  - intros s id [[<- <-]|[_ Hl]]%lookup_insert_Some; [exists r; auto|].
    destruct (Hw s id Hl) as (r' & ? & ? & ?). by exists r'.
  - by rewrite client_writes_snoc, <- Hout, Henc.
Qed.

(** Ending the connection gives everyone who waits the error. *)
Lemma failed_ids (err : RpcError) (l : list N) :
  (map (fun id => (id, inr err)) l : list (N * (ResponseFrame + RpcError))).*1 = l.
Proof. induction l as [|x l IH]; [done|]. cbn. f_equal. exact IH. Qed.

Lemma finish_inv m err queued c :
  client_inv m c → Forall dispatch_ok queued → client_inv m (cl_finish err queued c).
Proof.
  intros [Hmax Hroom Hreq Hpend Hbal Hw Hm Hout] Hq. split; simpl; try done.
  - rewrite map_size_empty. apply N.le_0_l.
  - by apply Forall_app_2.
  - rewrite map_app, Hbal. unfold waiting, pending_ids. simpl.
    rewrite !fmap_app, !failed_ids, map_to_list_empty. simpl.
    rewrite (Permutation_app_comm (cl_completed c).*1 (_ ++ _ ++ _)), <- !app_assoc.
    f_equiv. f_equiv. rewrite app_assoc. apply Permutation_app_comm.
  - intros id f Hin. apply elem_of_app in Hin as [Hin|Hin].
    + apply (requested_mono c); [simpl; set_solver|by apply Hm].
    + exfalso. revert Hin. rewrite !elem_of_app, !list_elem_of_fmap. naive_solver.
Qed.

Lemma finish_waits err queued c : waiting (cl_finish err queued c) = [].
Proof. done. Qed.

Lemma env_le_request e l x :
  answer (ce_request e) = (x, l) → env_le e (set_request l e).
Proof. intros Ha. split; [|done]. intros P. by apply (answer_tail _ _ x). Qed.

Lemma cmicro_inv m s s' :
  cmicro s s' → client_inv m (ct_conn s.2) → client_env_ok (ct_env s.2) →
  client_inv m (ct_conn s'.2) ∧ client_env_ok (ct_env s'.2).
Proof.
  intros Hm Hi He. destruct Hm as [b c e p w q l Ha|b c e p w r l Hp Ha|b c e p w l Hc Ha
    |b c e p w r Hp|b c e p w r Hp|b c e e' p w r out' Hp Hn Hlt Henc Hle|b c e e' p w Hf Hle
    |b c e p w f l Ha|b c e e' p w w' Hle]; simpl in *.
  - split; [by apply cancel_inv|done].
  - split; [|by eapply env_le_ok, He; eapply env_le_request].
    apply take_inv; [done..|]. exact (answer_head _ _ _ _ Ha (proj1 He)).
  - split; [by destruct Hi; split|by eapply env_le_ok, He; eapply env_le_request].
  - split; [by apply abandon_inv|done].
  - split; [by apply conflict_inv|done].
  - split; [by apply send_inv|by eapply env_le_ok].
  - split; [by destruct Hi; split|by eapply env_le_ok].
  - split; [by apply respond_inv|done].
  - split; [done|by eapply env_le_ok].
Qed.

(** ** Measure *)

Definition client_measure (s : nat * ClientTurn) : nat :=
  3 * s.1 + (if cl_requests_closed (ct_conn s.2) then 0 else 1) +
  (match cl_pending (ct_conn s.2) with Some _ => 0 | None => 1 end) +
  (if cl_needs_flush (ct_conn s.2) then 1 else 0).

Lemma cmicro_measure s s' :
  cmicro s s' → (client_measure s' <= client_measure s)%nat ∧
  (ct_progressed s'.2 = true → ct_progressed s.2 = true ∨ (client_measure s' < client_measure s)%nat).
Proof.
  intros Hm. unfold client_measure. destruct Hm as [b c e p w q l Ha|b c e p w r l Hp Ha|b c e p w l Hc Ha
    |b c e p w r Hp|b c e p w r Hp|b c e e' p w r out' Hp Hn Hlt Henc Hle|b c e e' p w Hf Hle
    |b c e p w f l Ha|b c e e' p w w' Hle]; simpl.
  - split; [lia|]. intros _. right. lia.
  - rewrite Hp. split; [lia|]. intros _. right. lia.
  - rewrite Hc. split; [lia|]. intros _. right. lia.
  - rewrite Hp. split; [lia|]. intros _. right. lia.
  - rewrite Hp. split; [lia|]. intros _. right. lia.
  - rewrite Hp. destruct (cl_needs_flush c); (split; [lia|]); intros _; right; lia.
  - rewrite Hf. split; [lia|]. intros _. right. lia.
  - assert (cl_requests_closed (cl_respond f c) = cl_requests_closed c ∧
      cl_pending (cl_respond f c) = cl_pending c ∧ cl_needs_flush (cl_respond f c) = cl_needs_flush c)
      as (-> & -> & ->) by (unfold cl_respond; by destruct (cl_in_flight c !! _)).
    split; [lia|]. intros _. right. lia.
  - split; [lia|]. auto.
Qed.

Lemma cmicros m s s' :
  rtc cmicro s s' → client_inv m (ct_conn s.2) → client_env_ok (ct_env s.2) →
  client_inv m (ct_conn s'.2) ∧ client_env_ok (ct_env s'.2) ∧
  (client_measure s' <= client_measure s)%nat ∧
  (ct_progressed s'.2 = true → ct_progressed s.2 = true ∨ (client_measure s' < client_measure s)%nat).
Proof.
  induction 1 as [s|s s1 s' Hm _ IH]; intros Hi He; [split_and!; auto|].
  destruct (cmicro_inv m s s1 Hm Hi He) as [Hi1 He1]. destruct (IH Hi1 He1) as (? & ? & Hl & Hp).
  destruct (cmicro_measure s s1 Hm) as [Hl1 Hp1].
  split_and!; [done..|lia|]. intros Ht. destruct (Hp Ht) as [Ht1|?]; [|right; lia].
  destruct (Hp1 Ht1); [by left|right; lia].
Qed.

(** ** The loops are sequences of steps *)

(** The loop goes on after some steps, or ends the connection after them. *)
Definition cflow_steps (s : nat * ClientTurn) (f : ClientFlow) : Prop :=
  match f with
  | CGo b t => rtc cmicro s (b, t)
  | CStop o b t => ∃ err c e p w, o = CFailed err ∧ rtc cmicro s (b, mkCTurn c e p w) ∧
                                  t = mkCTurn (cl_finish err (ce_queued e) c) e p w
  end.

Lemma cflow_steps_rtc s s1 f : rtc cmicro s s1 → cflow_steps s1 f → cflow_steps s f.
Proof.
  intros Hm. destruct f; simpl; [by etrans|]. intros (err & c & e & p & w & -> & Hs & ->).
  exists err, c, e, p, w. split_and!; [done| |done]. by etrans.
Qed.

Lemma cflow_steps_l s s1 f : cmicro s s1 → cflow_steps s1 f → cflow_steps s f.
Proof. intros Hm. by apply cflow_steps_rtc, rtc_once. Qed.

Lemma cenv_step b c e e' p w w' :
  env_le e e' → rtc cmicro (b, mkCTurn c e p w) (b, mkCTurn c e' p w').
Proof. intros. by apply rtc_once, cm_env. Qed.

Lemma finish_steps s err b c e t :
  rtc cmicro s (b, mkCTurn c e (ct_progressed t) (ct_waker t)) →
  cflow_steps s (finish_with err b c e t).
Proof. intros Hs. by exists err, c, e, (ct_progressed t), (ct_waker t). Qed.

Lemma cancel_loop_steps b : ∀ t, cflow_steps (b, t) (cancel_loop b t).
Proof.
  induction b as [|b IH]; intros [c e p w]; simpl; [apply rtc_refl|].
  destruct (answer (ce_cancel e)) as [[[q|]|] l] eqn:Ha; [|by apply cenv_step..].
  eapply cflow_steps_l; [by apply cm_cancel|apply IH].
Qed.

Lemma receive_request_steps b t : rtc cmicro (b, t) (b, receive_request t).
Proof.
  destruct t as [c e p w]. unfold receive_request. simpl.
  destruct (cl_pending c) eqn:Hp; [apply rtc_refl|].
  destruct (cl_requests_closed c) eqn:Hc; [apply rtc_refl|].
  destruct (answer (ce_request e)) as [[[r|]|] l] eqn:Ha.
  - by apply rtc_once, cm_take.
  - by apply rtc_once, cm_close.
  - apply cenv_step. by eapply env_le_request.
Qed.

Lemma response_loop_steps b : ∀ t, cflow_steps (b, t) (response_loop b t).
Proof.
  induction b as [|b IH]; intros [c e p w]; simpl; [apply rtc_refl|].
  destruct (answer (ce_response e)) as [[[[f|err]|]|] l] eqn:Ha.
  - eapply cflow_steps_l; [by apply cm_respond|apply IH].
  - apply finish_steps. by apply cenv_step.
  - apply finish_steps. by apply cenv_step.
  - by apply cenv_step.
Qed.

Lemma client_flush_steps b t : cflow_steps (b, t) (client_flush_step b t).
Proof.
  destruct t as [c e p w]. unfold client_flush_step. simpl.
  destruct (cl_needs_flush c) eqn:Hf; [|apply rtc_refl].
  destruct (answer (ce_flush e)) as [[[u|err]|] l] eqn:Ha.
  - by apply rtc_once, cm_flush.
  - apply finish_steps. by apply cenv_step.
  - by apply cenv_step.
Qed.

Lemma receive_request_fields t :
  cl_in_flight (ct_conn (receive_request t)) = cl_in_flight (ct_conn t) ∧
  cl_max_in_flight (ct_conn (receive_request t)) = cl_max_in_flight (ct_conn t).
Proof.
  destruct t as [c e p w]. unfold receive_request. simpl.
  destruct (cl_pending c); [done|]. destruct (cl_requests_closed c); [done|].
  by destruct (answer (ce_request e)) as [[[r|]|] l].
Qed.

Lemma pending_encodes m c r :
  client_inv m c → cl_pending c = Some r →
  client_encode (dr_frame r) (cl_out c) = (Ok tt, cl_out c ++ request_bytes (dr_frame r)).
Proof.
  intros Hi Hp. apply (request_encode_ok any_limits).
  pose proof (cv_requests _ _ Hi) as Hreq. rewrite Forall_forall in Hreq.
  apply (Hreq r), (cv_pending _ _ Hi r Hp).
Qed.

Lemma request_loop_steps m b : ∀ t,
  client_inv m (ct_conn t) → client_env_ok (ct_env t) → cflow_steps (b, t) (request_loop b t).
Proof.
  induction b as [|b IH]; intros t Hi He; cbn [request_loop].
  { destruct (_ <? _); apply rtc_refl. }
  destruct (N.ltb_spec (N.of_nat (size (cl_in_flight (ct_conn t)))) (cl_max_in_flight (ct_conn t)))
    as [Hlt|]; [|apply rtc_refl].
  pose proof (receive_request_steps (S b) t) as Hs. pose proof (receive_request_fields t) as [Hf Hmx].
  destruct (cmicros m _ _ Hs) as (Hi1 & He1 & _); [done..|]. rewrite <- Hf, <- Hmx in Hlt.
  destruct (receive_request t) as [c e p w]. cbn [ct_conn ct_env ct_progressed ct_waker snd] in *.
  destruct (cl_pending c) as [r|] eqn:Hp; [|done]. eapply cflow_steps_rtc; [exact Hs|].
  destruct (next_abandoned (ce_abandoned e)) as [gone l].
  assert (rtc cmicro (S b, mkCTurn c e p w) (S b, mkCTurn c (set_abandoned l e) p w)) as Hs1
    by (by apply cenv_step).
  assert (client_env_ok (set_abandoned l e)) as He2 by done.
  eapply cflow_steps_rtc; [exact Hs1|]. destruct gone.
  { eapply cflow_steps_l; [by apply cm_abandon|]. apply IH; [by apply abandon_inv|done]. }
  destruct (cl_in_flight c !! dr_sequence r) eqn:Hn.
  { eapply cflow_steps_l; [by apply cm_conflict|]. apply IH; [by apply conflict_inv|done]. }
  destruct (answer (ce_ready (set_abandoned l e))) as [[[u|err]|] l'].
  - change (cl_out (cl_insert r c)) with (cl_out c). rewrite (pending_encodes m c r Hi1 Hp).
    eapply cflow_steps_l.
    + apply (cm_send b c (set_abandoned l e) (set_cready l' (set_abandoned l e)) p w r);
        [done..| |done]. by apply (pending_encodes m).
    + apply IH; [|done]. apply send_inv; [done..|]. by apply (pending_encodes m).
  - apply finish_steps. by apply cenv_step.
  - by apply cenv_step.
Qed.

(** ** A round *)

Definition client_ends_well (o : ClientOutcome) (t : ClientTurn) : Prop :=
  match o with
  | CDone | CFailed _ => waiting (ct_conn t) = [] ∧ cl_closed (ct_conn t) = true
  | CParked => ct_waker t = true
  | CPanicked | COutOfFuel => False
  end.

Lemma response_loop_waker b : ∀ t b' t',
  response_loop b t = CGo b' t' → b' ≠ O → ct_waker t' = true.
Proof.
  induction b as [|b IH]; intros [c e p w] b' t'; simpl; [by intros [= <- _]|].
  destruct (answer (ce_response e)) as [[[[f|err]|]|] l]; [apply IH|done..|].
  by intros [= <- <-].
Qed.

Definition client_fresh (t : ClientTurn) : ClientTurn := mkCTurn (ct_conn t) (ct_env t) false false.

Lemma client_idle_waits c : client_idle c = true → waiting c = [].
Proof.
  unfold client_idle, waiting, pending_ids. intros [[[_ Hp]%andb_true_iff Hs]%andb_true_iff _]%andb_true_iff.
  apply N.eqb_eq in Hs. assert (cl_in_flight c = ∅) as -> by (apply map_size_empty_inv; lia).
  rewrite map_to_list_empty. by destruct (cl_pending c).
Qed.

(** What a phase that stops means for the round. *)
Lemma cstop_spec m s f o b t :
  cflow_steps s f → f = CStop o b t → client_inv m (ct_conn s.2) → client_env_ok (ct_env s.2) →
  client_inv m (ct_conn t) ∧ client_env_ok (ct_env t) ∧ client_ends_well o t.
Proof.
  intros Hs -> Hi He. destruct Hs as (err & c & e & p & w & -> & Hs & ->).
  destruct (cmicros m _ _ Hs Hi He) as (Hi' & He' & _). simpl in *.
  split_and!; [by apply finish_inv, He'|done..].
Qed.

Lemma client_round_spec m b t :
  client_inv m (ct_conn t) → client_env_ok (ct_env t) →
  match client_round b t with
  | CGo b' t' => rtc cmicro (b, client_fresh t) (b', t') ∧ ct_progressed t' = true
  | CStop o b' t' => client_inv m (ct_conn t') ∧ client_env_ok (ct_env t') ∧ client_ends_well o t'
  end.
Proof.
  intros Hi He. unfold client_round. fold (client_fresh t).
  pose proof (cancel_loop_steps b (client_fresh t)) as S1.
  destruct (cancel_loop b (client_fresh t)) as [b1 t1|o b1 t1]; [|by eapply cstop_spec].
  destruct (cmicros m _ _ S1) as (Hi1 & He1 & _); [done..|].
  pose proof (request_loop_steps m b1 t1 Hi1 He1) as S2.
  destruct (request_loop b1 t1) as [b2 t2|o b2 t2]; [|by eapply cstop_spec].
  destruct (cmicros m _ _ S2) as (Hi2 & He2 & _); [done..|].
  pose proof (client_flush_steps b2 t2) as S3.
  destruct (client_flush_step b2 t2) as [b3 t3|o b3 t3]; [|by eapply cstop_spec].
  destruct (cmicros m _ _ S3) as (Hi3 & He3 & _); [done..|].
  pose proof (response_loop_steps b3 t3) as S4. pose proof (response_loop_waker b3 t3) as W4.
  destruct (response_loop b3 t3) as [b4 t4|o b4 t4]; [|by eapply cstop_spec].
  destruct (cmicros m _ _ S4) as (Hi4 & He4 & _); [done..|]. simpl in Hi4, He4.
  destruct (client_idle (ct_conn t4)) eqn:Hidle.
  { split_and!; [by destruct Hi4; split|done|]. split; [exact (client_idle_waits _ Hidle)|done]. }
  destruct (Nat.eqb_spec b4 0) as [->|Hb4]; [done|]. specialize (W4 _ _ eq_refl Hb4).
  destruct (ct_progressed t4) eqn:Hp; simpl; [|done]. split; [|done].
  by do 3 (etrans; [done|]).
Qed.

(** ** A poll *)

Lemma client_rounds_spec m fuel : ∀ b t,
  client_inv m (ct_conn t) → client_env_ok (ct_env t) → (client_measure (b, t) < fuel)%nat →
  let '(o, _, t') := client_rounds fuel b t in
  client_inv m (ct_conn t') ∧ client_env_ok (ct_env t') ∧ client_ends_well o t'.
Proof.
  induction fuel as [|fuel IH]; intros b t Hi He Hf; [lia|]. cbn [client_rounds].
  pose proof (client_round_spec m b t Hi He) as Hr.
  destruct (client_round b t) as [b' t'|o b' t']; [|done]. destruct Hr as [Hs Hp].
  destruct (cmicros m _ _ Hs) as (Hi' & He' & _ & Hd); [done..|].
  destruct (Hd Hp) as [|Hlt]; [done|]. apply (IH b' t' Hi' He'). unfold client_measure in *. simpl in *.
  lia.
Qed.

Lemma client_poll_spec m c e :
  client_inv m c → client_env_ok e →
  let '(o, _, t) := client_poll c e in
  client_inv m (ct_conn t) ∧ client_env_ok (ct_env t) ∧ client_ends_well o t.
Proof.
  intros Hi He. apply client_rounds_spec; [done..|]. unfold client_measure, DRIVER_POLL_BUDGET.
  cbn [fst snd ct_conn]. destruct (cl_requests_closed c), (cl_pending c), (cl_needs_flush c); lia.
Qed.

Lemma client_new_inv n : client_inv (N.max n 1) (client_connection_new n).
Proof.
  split; simpl; try done.
  - rewrite map_size_empty. lia.
  - intros id f Hin. by apply elem_of_nil in Hin.
Qed.

(** The connections a client can be in after any number of polls. *)
Inductive client_reachable (n : N) : ClientConnection → Prop :=
| clr_new : client_reachable n (client_connection_new n)
| clr_poll c e o b t :
    client_reachable n c → client_env_ok e → client_poll c e = (o, b, t) →
    client_reachable n (ct_conn t).

Lemma client_reachable_inv n c : client_reachable n c → client_inv (N.max n 1) c.
Proof.
  induction 1 as [|c e o b t _ IH He Hp]; [apply client_new_inv|].
  pose proof (client_poll_spec (N.max n 1) c e IH He) as Hok. rewrite Hp in Hok. apply Hok.
Qed.

(** C36: responses reach their callers.  After any polls, whatever the channels
    and the transport did, the callers whose requests were taken from the
    channel are exactly those who still wait, those who got one result and those
    who had gone; so with distinct callers nobody gets two results.  A response
    was given only to the caller of a request with its sequence number, the
    bytes written are the encodings of the requests sent, and when the
    connection ends nobody is left waiting. *)
Theorem responses_reach_their_callers n c e o b t :
  client_reachable n c → client_env_ok e → client_poll c e = (o, b, t) →
  let c' := ct_conn t in
  map dr_completion (cl_received c') ≡ₚ waiting c' ++ (cl_completed c').*1 ++ cl_dropped c' ∧
  (NoDup (map dr_completion (cl_received c')) → NoDup (cl_completed c').*1) ∧
  (∀ id f, (id, inl f) ∈ cl_completed c' →
     ∃ r, r ∈ cl_received c' ∧ dr_completion r = id ∧
          rq_sequence (rq_header (dr_frame r)) = rs_sequence (rs_header f)) ∧
  cl_out c' = client_writes (cl_sent c') ∧
  match o with CDone | CFailed _ => waiting c' = [] | _ => True end.
Proof.
  intros Hc He Hp. pose proof (client_poll_spec (N.max n 1) c e (client_reachable_inv n c Hc) He) as Hok.
  rewrite Hp in Hok. destruct Hok as ([_ _ _ _ Hbal _ Hm Hout] & _ & Hend). simpl.
  split_and!; [done| |exact Hm|done|].
  - rewrite Hbal. intros (_ & _ & (Hnd & _ & _)%NoDup_app)%NoDup_app. done.
  - destruct o; try done; by destruct Hend.
Qed.

(** Every poll of a client connection returns, within its fuel and without
    a panic, with at most the configured number of requests in flight; when it
    parks a waker is left behind, and when it ends the client is marked
    closed. *)
Theorem client_poll_returns n c e :
  client_reachable n c → client_env_ok e →
  let '(o, _, t) := client_poll c e in
  N.of_nat (size (cl_in_flight (ct_conn t))) <= N.max n 1 ∧
  match o with
  | CDone | CFailed _ => cl_closed (ct_conn t) = true
  | CParked => ct_waker t = true
  | CPanicked | COutOfFuel => False
  end.
Proof.
  intros Hc He. pose proof (client_poll_spec (N.max n 1) c e (client_reachable_inv n c Hc) He) as Hok.
  destruct (client_poll c e) as [[o b] t]. destruct Hok as (Hi & _ & Hend).
  split; [apply Hi|]. by destruct o; try destruct Hend.
Qed.

(** ** Example *)

Definition example_dispatch (sequence id : N) : DispatchRequest :=
  mkDispatch (mkRequestFrame (RequestHeader_new sequence 5 0 0) [] []) id.

(** Two requests; the second is answered first, the first is cancelled. *)
Definition example_client_env : ClientEnvironment :=
  mkCEnv [Pending; Ready (Some 7)]
    [Ready (Some (example_dispatch 7 100)); Ready (Some (example_dispatch 8 101)); Ready None]
    [false; false] [Ready (inl tt); Ready (inl tt)] [Ready (inl tt)]
    [Ready (Some (inl (mkResponseFrame (ResponseHeader_new 8 0 0 0) [] []))); Pending] [].

Lemma example_client_env_ok : client_env_ok example_client_env.
Proof. split; [|constructor]. by repeat (constructor; [by repeat split|]). Qed.

Lemma responses_reach_their_callers_witness :
  ∃ t b, client_poll (client_connection_new 4) example_client_env = (CDone, b, t) ∧
    waiting (ct_conn t) = [] ∧
    map dr_completion (cl_received (ct_conn t)) ≡ₚ
      waiting (ct_conn t) ++ (cl_completed (ct_conn t)).*1 ++ cl_dropped (ct_conn t).
Proof.
  eexists _, _. split; [vm_compute; reflexivity|].
  edestruct (responses_reach_their_callers 4 (client_connection_new 4) example_client_env)
    as (Hbal & _ & _ & _ & Hw); [constructor|apply example_client_env_ok|vm_compute; reflexivity|].
  split; [exact Hw|exact Hbal].
Defined.

Lemma client_poll_returns_witness :
  let '(o, _, t) := client_poll (client_connection_new 4) example_client_env in
  N.of_nat (size (cl_in_flight (ct_conn t))) <= 4 ∧
  match o with
  | CDone | CFailed _ => cl_closed (ct_conn t) = true
  | CParked => ct_waker t = true
  | CPanicked | COutOfFuel => False
  end.
Proof.
  apply (client_poll_returns 4 (client_connection_new 4) example_client_env);
    [constructor|apply example_client_env_ok].
Defined.
